(* ===== verification/_CoqProject ===== *)
-Q . S2P
Prelude.v
Errors.v
QuotePosix.v
QuoteWindows.v
Utf.v
Numbers.v
AppleScript.v
PathComponent.v
PosixPath.v
OsStrWide.v
WindowsPath.v
WindowsConvert.v
IoErrors.v
Filesystem.v
ResolveNames.v
ResolveJoin.v
Resolve.v
ShimProtocol.v
ShimStep.v
ShimLink.v
Identity.v
CrateError.v
Persist.v
ProcView.v
ProcIdentity.v
TreeWalk.v
Pidfd.v
UnixGroup.v
Sanitize.v
ElevationPlan.v
Command.v
ElevationMacos.v
ElevationPosix.v
BTree.v
ChildEnv.v
CrtFds.v
SpawnStdio.v
Placement.v
History.v
LeafEnd.v
Leaf.v
OsChild.v
Owned.v
Reaping.v
BatchGate.v
FdMarker.v
MarkerSweep.v
ChildCalls.v
LeafWatch.v
WinResume.v
JobHandle.v
OwnedTeardown.v
TreeCall.v
ChildOps.v
ChildPolicy.v
ChildGrace.v
Attach.v
SpawnTeardown.v
LateTeardown.v
SpawnFailure.v
Handshake.v
HandshakeEnd.v
FdMap.v
Waiting.v
JobDrain.v
CgroupTree.v
Reach.v
ProbeFds.v
Probe.v
ProcSource.v
ProcPolicy.v
TokioChild.v
TokioGrace.v
TokioPolicy.v
ProgramPath.v
