(* ===== verification/Prelude.v ===== *)
(** * cosca: a verified model of its core

    cosca starts and controls processes: it quotes and splits command lines, finds the program a command
    names, places a child and all it starts in a containment (a control group, a group, a marker pipe, a
    job), waits for it, kills it and its tree, tears down what a failed spawn left, and runs a program
    elevated behind a shim that supervises it. This library models those parts as executable functions and
    state machines, and proves what makes them right. Every definition follows the Rust source and keeps its
    names; system calls, third-party crates (tokio among them) and the host's own readings of a path are
    arguments, and what a theorem needs of them is a hypothesis.

    ** Conventions

    A byte, a UTF-16 unit, a code point and an integer of Rust are a [Z], with the width written out where a
    theorem depends on it ([is_u8], [is_u16], [u32_max], [signed32]); a slice is a list. A fallible function
    returns [result E A] (this file), with [let?] for the question mark; a function that can panic returns an
    [option], [None] being the panic, and a theorem says it does not happen. Messages keep their presence,
    not their words.

    Code that calls a system it does not control is written in one of two ways. Where one thread runs, a
    computation carries the history of its calls with their answers ([History]: [Hist], [call], [note]), and
    an answer may depend on all of it; a theorem holds whatever the answers. What such code never does is a
    protocol, an automaton over its calls, and [keeps] says that a computation's calls are accepted and where
    the automaton ends. Where several run, each makes one call or takes one lock in a step, and a run is any
    interleaving of steps: [Placement], [Handshake], [LeafWatch], [Owned], [JobHandle], [ShimLink].

    Most loops are structural, over a text or over the answers met. Where there is fuel, it is enough: the
    digits of a number, 20 ([show_digits_value]); the walk of a process tree, one more than its snapshot
    ([walk_loop]); a duplicate that avoids descriptors, one more than there are ([dup_avoiding]); the fills of
    a descriptor table, 24 at most ([fd_table_read]); the passes of a marker sweep, processes and one
    ([hard_kill_ends]); the rounds of a job's drain, members and one ([drain_ends]); the traversal of a leaf's
    tree, more than it has cgroups ([traverse_ends]); the walk of a child's listed descriptors
    ([close_by_walk_ends]); the calls of a handshake, 23 at most ([handshake_ends]). The wakes of an
    asynchronous wait are no fuel: where they run out, its future was dropped.

    ** The files

    - Shared. [Prelude]: results, slices and their lemmas, hint databases and tactics. [Errors], [CrateError]
      and [IoErrors]: the values of [src/error.rs] and of [std::io]. [Utf] and [Numbers]: what the code calls
      of Rust's standard library on text. [BTree]: its ordered map. [History]: computations with calls.
    - Quoting. [QuotePosix], [QuoteWindows] and [AppleScript] are [src/quote/].
    - Paths, the [cosca-path] crate. [PathComponent] is [lib.rs] with the [PurePath] interface; [PosixPath],
      [OsStrWide], [WindowsPath] and [WindowsConvert] are [posix.rs] and [windows/]; [Filesystem] is [fs.rs]
      and [fs/]; its class [Filesystem] is the trait.
    - Resolution. [ResolveNames], [ResolveJoin] and [Resolve] are [src/resolve.rs] and [resolve/].
      [BatchGate] is [src/child/spawn/batch_gate/]: the programs refused on Windows.
    - Elevation. [Sanitize], [ElevationPlan], [ElevationMacos] and [ElevationPosix] are [src/elevation/], over
      the [Command] of [src/command.rs]. The shim, [src/elevation/shim/]: [ShimProtocol] is the wire,
      [ShimStep] the shim's supervision, [ShimLink] cosca's end, [ProgramPath] its search of [PATH].
    - Identity. [Identity], [Persist], [ProcView] and [ProcIdentity] are [src/identity/]; [Pidfd] is the open
      by identity, [TreeWalk] the walk and kill of a process tree ([src/containment/treewalk.rs]).
    - Containment, [src/containment/]. [UnixGroup]: groups. [Placement], [Leaf], [LeafEnd], [LeafWatch],
      [CgroupTree], [Reach], [ProbeFds] and [Probe]: control groups ([cgroup/]), from the exchange that places
      a child to the leaf's kill, drain and removal, and whether a host can place a front. [FdMarker] and
      [MarkerSweep]: the marker pipe of macOS ([fdmarker.rs]). [WinResume], [JobHandle] and [JobDrain]: jobs
      ([windows.rs]). [Attach]: how a spawn chooses and installs one ([dispatch.rs]).
    - Spawning, [src/child/spawn/]. [ChildEnv], [CrtFds], [SpawnStdio] and [FdMap]: environment, descriptors
      and standard streams. [Handshake] and [HandshakeEnd]: the exchange that gives the spawner the child's
      pidfd. [SpawnTeardown], [LateTeardown] and [SpawnFailure]: what becomes of the child of a failed spawn.
    - Children. [Waiting] and [Reaping]: deadlines, polls, and how an exit is looked at and collected
      ([src/wait.rs], [src/wait/], [src/os_process/]); [OsChild]: the answers those give. [Owned]: the handle
      many threads wait on and signal ([src/child/owned.rs]); [OwnedTeardown]: its teardown. [ChildCalls],
      [TreeCall] and [ChildOps]: the operations of [src/child.rs] over the handle and the mechanism;
      [ChildPolicy] and [ChildGrace]: what they never do, and the order of a graceful shutdown.
    - Asynchronous children, [src/tokio/]. [ProcSource] is the backend over tokio's [Child]
      ([tokio/child/proc_source.rs]), [TokioChild] the child ([tokio/child.rs]) and [TokioGrace] its graceful
      shutdowns ([tokio/child/graceful.rs]); [ProcPolicy] and [TokioPolicy]: what they never do.

    The components meet in interfaces: the classes [Sys] of [ChildCalls], [SpawnTeardown] and [LateTeardown]
    and [TokioSys] of [ProcSource] are what the system answers to each; [Kernel] of [ProcView] the reads of
    [/proc]; [Notifier] of [LeafWatch], [Filesystem] and [PurePath] are traits of the source or of a library.

    ** The theorems

    - Text. [split_refines_grammar]: the POSIX lexer accepts exactly a grammar of shell words.
      [split_wide_join_wide]: a Windows command line is read back. [gate_is_the_resolver]: the batch gate
      agrees with a resolver on components, and with a rule of its own on verbatim paths.
    - Programs. [resolve_answer]: an answer is absolute, executable and the first candidate that is no miss.
      [plan_sound], [rewrite_wrapped]: the front chosen, and the command it runs.
    - The shim. [decide_trace]: a closed form of each supervision step. [link_safety],
      [verdict_delivered]: at most one shim is admitted, and what it concludes is what cosca learns.
      [search_is_execvp]: it tries the programs [execvp] would.
    - Identity. [gone_on_evidence], [hard_kill_verified]: a process is said gone only on evidence, and only
      verified members of a tree are killed.
    - Spawning. [mapped_across_exec], [descriptors_reach_child]: the descriptors a child gets.
      [attached_as_prepared]: the mechanism it is in. [verdict_is_the_truth], [exchange_ends]: its
      placement. [handshake_ends], [handshake_truthful]: its pidfd, and what a failure says of it.
      [abandoned_child_ended], [held_child_settled], [finish_elevated_settles]: the child of a failed spawn.
      [child_started_safely]: on Windows no thread runs outside the job.
    - Containment. [teardown_guarded], [sweeps_in_order], [hard_kill_ends], [fd_table_read]: groups and
      markers. [walk_finds], [placement_truthful], [probe_leaves_nothing], [child_keeps_its_end],
      [drained_wait_ends]: control groups. [job_handle_safe], [drain_verdict]: jobs.
    - Children. [reaps_only_an_exit], [handle_safe], [exit_reaches_everyone]: one collector at most, and no
      wait is missed. [teardown_settles], [operations_keep_to_protocol], [graceful_shutdowns_in_order]: the
      operations of a child, all answers allowed. [async_life_safe]: those of an asynchronous one, whose
      status tokio collects by a pid.

    The bounds of these. The graceful shutdowns assume that a mechanism reports a drain only where
    [drains_as_said] holds, which [attached_as_prepared] shows of every attached child. The handshake has one
    window in which all three parties wait, which the source documents and [window_waits] reaches; what std's
    spawn does with its own fork is its contract. [operations_keep_to_protocol] is of children elevated as
    a spawn makes them ([elevated_as_spawned]: no marker, and no tree for an osascript front), and
    [finish_elevated_settles] is for Linux where it speaks of the protocol. [placement_truthful] is of a task
    that nobody moves meanwhile, and takes the kernel's files as [cgroup_file] and [stat_file] print them.
    [sweeps_in_order] counts what a sweep found, and no process that no channel shows. [handle_safe] leaves
    the lock-free [exited_by] out. tokio's drop of a child asks for its number once more after a status another took
    ([stolen_exit_released]).

    ** What is not modelled

    Parts that are calls of a platform in sequence, without decisions of their own: elevation on Windows, the
    shim's start and its private directory, the creation of a leaf's directory, the raw spawn of Windows
    outside its tables, the readers of processes on Windows and macOS. Parts left for later: the spawn and
    the waits of [src/tokio/], the streams and pipes of a child, the marker's end of file on macOS
    ([marker_eof.rs]) and [job.rs]. The log, messages, [Debug] and [Hash], unwinding, the test probes and
    hooks are left out. The manifest lists each part with its reason. *)
From stdpp Require Export base list numbers strings.
From Stdlib Require Export Lia.

(** * Results and their bind *)

(** Rust's [Result<A, E>]. *)
Inductive result (E A : Type) : Type :=
| Ok (a : A)
| Err (e : E).
Arguments Ok {E A} a.
Arguments Err {E A} e.

#[export] Instance result_eq_dec {E A} `{EqDecision E, EqDecision A} : EqDecision (result E A).
Proof. solve_decision. Defined.

Declare Scope rust_scope.
Delimit Scope rust_scope with rust.

(** [let? p := r in k] is Rust's [let p = r?; k]. *)
Notation "'let?' p ':=' r 'in' k" :=
  (match r with Ok p => k | Err e => Err e end)
  (at level 10, p pattern, r at level 100, k at level 200) : rust_scope.
Open Scope rust_scope.

(** [Option::ok_or]. *)
Definition ok_or {E A} (o : option A) (e : E) : result E A :=
  match o with Some a => Ok a | None => Err e end.

(** * Bytes and byte strings

    A [u8], a [u16] and a Unicode scalar value are all a [Z]; the range is a hypothesis where a
    theorem needs it. *)

Abbreviation bytes := (list Z).

Definition is_u8 (b : Z) : Prop := (0 <= b < 256)%Z.
Definition is_u16 (u : Z) : Prop := (0 <= u < 65536)%Z.

(** The bytes of an ASCII string literal. *)
Definition bs (s : string) : bytes :=
  (fun a => Z.of_N (Ascii.N_of_ascii a)) <$> String.list_ascii_of_string s.

(** * Slices *)

Section slices.
Context {A : Type}.
Implicit Types (l : list A) (p : A -> bool).

(** [l] without its first [n] elements; structurally recursive on [l], so a loop may recurse on
    its result. *)
Fixpoint adv l (n : nat) {struct l} : list A :=
  match n with
  | O => l
  | S n' => match l with [] => l | _ :: t => adv t n' end
  end.

(** [Iterator::position]. *)
Fixpoint position p l : option nat :=
  match l with
  | [] => None
  | x :: t => if p x then Some O else S <$> position p t
  end.

(** [Iterator::rposition]. *)
Fixpoint rposition p l : option nat :=
  match l with
  | [] => None
  | x :: t =>
      match rposition p t with
      | Some i => Some (S i)
      | None => if p x then Some O else None
      end
  end.

(** [Iterator::find_map]. *)
Fixpoint find_map {B} (f : A -> option B) l : option B :=
  match l with
  | [] => None
  | x :: t => match f x with Some y => Some y | None => find_map f t end
  end.

(** [<[T]>::split]: the runs between the elements [p] accepts; one more run than separators. *)
Fixpoint split_on p l : list (list A) :=
  match l with
  | [] => [[]]
  | x :: t =>
      if p x then [] :: split_on p t
      else match split_on p t with
           | [] => [[x]]
           | w :: ws => (x :: w) :: ws
           end
  end.

(** The pieces with one [sep] between each two. *)
Fixpoint intercalate (sep : A) (ws : list (list A)) : list A :=
  match ws with
  | [] => []
  | [w] => w
  | w :: rest => w ++ sep :: intercalate sep rest
  end.

(** [take_while] and the rest. *)
Fixpoint span p l : list A * list A :=
  match l with
  | [] => ([], [])
  | x :: t => if p x then let '(a, b) := span p t in (x :: a, b) else ([], l)
  end.
End slices.

(** [<[T]>::strip_prefix], decidable equality given. *)
Fixpoint strip_prefix (p l : bytes) : option bytes :=
  match p, l with
  | [], _ => Some l
  | a :: p', b :: l' => if (a =? b)%Z then strip_prefix p' l' else None
  | _ :: _, [] => None
  end.

Definition starts_with (p l : bytes) : bool :=
  match strip_prefix p l with Some _ => true | None => false end.

(** [u8::to_ascii_lowercase] and [eq_ignore_ascii_case]. *)
Definition to_ascii_lowercase (b : Z) : Z :=
  if ((65 <=? b) && (b <=? 90))%Z then (b + 32)%Z else b.

Definition eq_ignore_ascii_case (a b : bytes) : bool :=
  bool_decide (to_ascii_lowercase <$> a = to_ascii_lowercase <$> b).

(** No element of [l] satisfies [p]. *)
Definition free {A} (p : A -> bool) (l : list A) : Prop := Forall (fun x => p x = false) l.

(** * Lemmas on slices *)

Section slice_lemmas.
Context {A : Type}.
Implicit Types (l : list A) (p : A -> bool).

Lemma adv_drop l n : adv l n = drop n l.
Proof. revert n; induction l as [|x l IH]; intros [|n]; simpl; auto. Qed.

Lemma take_length_take l n : take (length (take n l)) l = take n l.
Proof.
  rewrite length_take. destruct (Nat.min_spec n (length l)) as [[_ ->]|[? ->]]; [done|].
  by rewrite !take_ge by lia.
Qed.

Lemma free_nil p : free p [].
Proof. constructor. Qed.

Lemma free_cons p x l : free p (x :: l) <-> p x = false /\ free p l.
Proof. unfold free. by rewrite Forall_cons. Qed.

Lemma free_app p l1 l2 : free p (l1 ++ l2) <-> free p l1 /\ free p l2.
Proof. unfold free. by rewrite Forall_app. Qed.

Lemma existsb_free p l : existsb p l = false <-> free p l.
Proof.
  induction l as [|x l IH]; simpl; [split; [constructor | done]|].
  by rewrite free_cons, orb_false_iff, IH.
Qed.

Lemma split_on_ne p l : split_on p l <> [].
Proof. destruct l as [|x l]; simpl; [done|]. destruct (p x); [done|]. by destruct (split_on p l). Qed.

Lemma split_on_free p l : free p l -> split_on p l = [l].
Proof.
  induction l as [|x l IH]; [done|]. intros [Hx Hl]%free_cons. simpl.
  by rewrite Hx, IH.
Qed.

Lemma split_on_app p l1 x l2 :
  p x = true -> split_on p (l1 ++ x :: l2) = split_on p l1 ++ split_on p l2.
Proof.
  intros Hx. induction l1 as [|y l1 IH]; simpl; [by rewrite Hx|].
  destruct (p y); [by rewrite IH|]. rewrite IH.
  pose proof (split_on_ne p l1). by destruct (split_on p l1).
Qed.

Lemma split_on_pieces p l : Forall (free p) (split_on p l).
Proof.
  induction l as [|x l IH]; simpl; [repeat constructor|].
  destruct (p x) eqn:E; [constructor; [constructor|done]|].
  destruct (split_on p l) as [|w ws]; [repeat constructor; done|].
  inversion IH; subst. constructor; [by apply free_cons|done].
Qed.

Lemma intercalate_cons sep (w : list A) ws :
  ws <> [] -> intercalate sep (w :: ws) = w ++ sep :: intercalate sep ws.
Proof. by destruct ws. Qed.

Lemma intercalate_app sep (ws1 ws2 : list (list A)) :
  ws1 <> [] -> ws2 <> [] ->
  intercalate sep (ws1 ++ ws2) = intercalate sep ws1 ++ sep :: intercalate sep ws2.
Proof.
  induction ws1 as [|w ws1 IH]; [done|]. intros _ H2.
  destruct ws1 as [|w' ws1]; [by destruct ws2|].
  change ((w :: w' :: ws1) ++ ws2) with (w :: ((w' :: ws1) ++ ws2)).
  rewrite intercalate_cons, IH, (intercalate_cons sep w (w' :: ws1)) by done.
  by rewrite <- app_assoc.
Qed.

Lemma split_on_intercalate p sep ws :
  p sep = true -> ws <> [] -> Forall (free p) ws ->
  split_on p (intercalate sep ws) = ws.
Proof.
  intros Hs. induction ws as [|w ws IH]; [done|]. intros _ [Hw Hws]%Forall_cons.
  destruct ws as [|w' ws]; [by apply split_on_free|].
  rewrite intercalate_cons, split_on_app, split_on_free, IH by done. done.
Qed.

Lemma rposition_None p l : rposition p l = None <-> free p l.
Proof.
  induction l as [|x l IH]; simpl; [split; [constructor|done]|].
  rewrite free_cons. destruct (rposition p l) eqn:E.
  - split; [done|]. intros [_ H%IH]. done.
  - destruct (p x); intuition congruence.
Qed.

Lemma rposition_Some p l i :
  rposition p l = Some i ->
  exists l1 x l2, l = l1 ++ x :: l2 /\ length l1 = i /\ p x = true /\ free p l2.
Proof.
  revert i; induction l as [|x l IH]; intros i; simpl; [done|].
  destruct (rposition p l) as [j|] eqn:E.
  - intros [= <-]. destruct (IH j eq_refl) as (l1 & y & l2 & -> & <- & ? & ?).
    by exists (x :: l1), y, l2.
  - destruct (p x) eqn:Ex; [|done]. intros [= <-].
    exists [], x, l. by rewrite <- rposition_None.
Qed.

Lemma rposition_app p l1 x l2 :
  p x = true -> free p l2 -> rposition p (l1 ++ x :: l2) = Some (length l1).
Proof.
  intros Hx Hl. induction l1 as [|y l1 IH]; simpl; [|by rewrite IH].
  by rewrite (proj2 (rposition_None _ _) Hl), Hx.
Qed.

Lemma position_None p l : position p l = None <-> free p l.
Proof.
  induction l as [|x l IH]; simpl; [split; [constructor|done]|].
  rewrite free_cons. destruct (p x); [intuition congruence|].
  destruct (position p l); simpl; intuition congruence.
Qed.

Lemma position_Some p l i :
  position p l = Some i ->
  exists l1 x l2, l = l1 ++ x :: l2 /\ length l1 = i /\ p x = true /\ free p l1.
Proof.
  revert i; induction l as [|x l IH]; intros i; simpl; [done|].
  destruct (p x) eqn:Ex.
  - intros [= <-]. exists [], x, l. split_and!; [done..|constructor].
  - intros (j & Hj & ->)%fmap_Some. destruct (IH j Hj) as (l1 & y & l2 & -> & <- & ? & ?).
    exists (x :: l1), y, l2. split_and!; try done. by apply free_cons.
Qed.

Lemma position_app p l1 x l2 :
  p x = true -> free p l1 -> position p (l1 ++ x :: l2) = Some (length l1).
Proof.
  intros Hx. induction l1 as [|y l1 IH]; simpl; [by rewrite Hx|].
  intros [Hy Hl]%free_cons. by rewrite Hy, IH.
Qed.

Lemma span_spec p l :
  l = (span p l).1 ++ (span p l).2 /\ Forall (fun x => p x = true) (span p l).1 /\
  match (span p l).2 with [] => True | x :: _ => p x = false end.
Proof.
  induction l as [|x l (H1 & H2 & H3)]; simpl; [by repeat constructor|].
  destruct (p x) eqn:E; [|by repeat constructor].
  destruct (span p l) as [a b]; simpl in *. subst. by repeat constructor.
Qed.

Lemma span_app p l1 l2 :
  Forall (fun x => p x = true) l1 ->
  match l2 with [] => True | x :: _ => p x = false end ->
  span p (l1 ++ l2) = (l1, l2).
Proof.
  intros H1 H2. induction H1 as [|x l1 Hx _ IH]; simpl.
  - destruct l2 as [|x l2]; simpl; [done|by rewrite H2].
  - by rewrite Hx, IH.
Qed.
End slice_lemmas.

(** The separator the predicate accepts joins the pieces back. *)
Lemma intercalate_split_on (sep : Z) (l : bytes) :
  intercalate sep (split_on (fun b => (b =? sep)%Z) l) = l.
Proof.
  induction l as [|x l IH]; [done|]. cbn [split_on].
  pose proof (split_on_ne (fun b => (b =? sep)%Z) l) as Hne.
  destruct (Z.eqb_spec x sep) as [->|_].
  - rewrite intercalate_cons by done. by rewrite IH.
  - destruct (split_on _ l) as [|w [|w' ws]]; [done| |]; simpl in *; by rewrite <- IH.
Qed.

Lemma strip_prefix_Some p l r : strip_prefix p l = Some r <-> l = p ++ r.
Proof.
  revert l; induction p as [|a p IH]; intros l; simpl; [split; [by intros [= ->]|by intros ->]|].
  destruct l as [|b l]; [done|]. destruct (Z.eqb_spec a b) as [->|Hne].
  - rewrite IH. naive_solver.
  - split; [done|]. by intros [= -> _].
Qed.

Lemma starts_with_true p l : starts_with p l = true <-> exists r, l = p ++ r.
Proof.
  unfold starts_with. destruct (strip_prefix p l) as [r|] eqn:E.
  - split; [|done]. exists r. by apply strip_prefix_Some.
  - split; [done|]. intros [r ->]. by rewrite (proj2 (strip_prefix_Some p _ r)) in E.
Qed.

Lemma starts_with_false p l : starts_with p l = false <-> forall r, l <> p ++ r.
Proof.
  rewrite <- not_true_iff_false, starts_with_true. naive_solver.
Qed.

(** * Automation *)

Create HintDb slices.
Create Rewrite HintDb slices_rw.
#[export] Hint Resolve free_nil split_on_ne split_on_pieces split_on_free : slices.
#[export] Hint Rewrite @free_cons @free_app @adv_drop : slices_rw.

(** Case analysis on every [=?], [<=?], [<?] and [decide] the goal branches on. *)
Ltac zcases :=
  repeat match goal with
  | |- context [(?a =? ?b)%Z] => destruct (Z.eqb_spec a b); subst; simpl in *
  | |- context [(?a <=? ?b)%Z] => destruct (Z.leb_spec a b); simpl in *
  | |- context [(?a <? ?b)%Z] => destruct (Z.ltb_spec a b); simpl in *
  end.

Lemma find_map_split {A B} (f : A -> option B) l y :
  find_map f l = Some y -> exists l1 x l2, l = l1 ++ x :: l2 /\ f x = Some y /\ Forall (fun z => f z = None) l1.
Proof.
  induction l as [|x l IH]; [done|]. cbn. destruct (f x) as [z|] eqn:E.
  - intros [= ->]. by exists [], x, l.
  - intros (l1 & w & l2 & -> & Hw & Hf)%IH. exists (x :: l1), w, l2. split; [done|]. split; [done|]. by constructor.
Qed.

Lemma find_map_None {A B} (f : A -> option B) l : find_map f l = None -> Forall (fun z => f z = None) l.
Proof. induction l as [|x l IH]; [constructor|]. cbn. destruct (f x) eqn:E; [done|]. constructor; auto. Qed.

Lemma find_map_Some {A B} (f : A -> option B) l y : find_map f l = Some y -> exists x, x ∈ l /\ f x = Some y.
Proof.
  intros (l1 & x & l2 & -> & Hx & _)%find_map_split. exists x. split; [|done].
  apply elem_of_app. right. by apply elem_of_cons; left.
Qed.

Lemma split_on_Forall {A} (P : A -> Prop) p (l : list A) : Forall P l -> Forall (Forall P) (split_on p l).
Proof.
  induction 1 as [|x l Hx Hl IH]; cbn; [by repeat constructor|]. destruct (p x); [by constructor|].
  destruct IH as [|w ws Hw Hws]; repeat constructor; done.
Qed.
