(* ===== verification/Errors.v ===== *)
(** The error values of [src/error.rs] that the modelled components return. *)
From S2P Require Import Prelude.

Inductive QuoteErrorKind :=
| UnterminatedSingleQuote
| UnterminatedDoubleQuote
| TrailingBackslash
| NonUtf8
| UnrepresentableChar.

#[export] Instance QuoteErrorKind_eq_dec : EqDecision QuoteErrorKind.
Proof. solve_decision. Defined.

(** [QuoteError { pos, kind }]: a byte offset into the input and what is wrong there. *)
Record QuoteError := { pos : nat; kind : QuoteErrorKind }.

#[export] Instance QuoteError_eq_dec : EqDecision QuoteError.
Proof. solve_decision. Defined.
