(* ===== verification/QuotePosix.v ===== *)
(** Strict-POSIX word splitting and quoting, [src/quote/posix.rs]: the lexer [split] with its
    states, buffer and error offsets, [quote] and [join]; a declarative grammar [lex_ws] of shell
    words, and the proof that [split] accepts exactly that grammar. *)
From S2P Require Import Prelude Errors.
Local Open Scope Z_scope.

(** * The lexer *)

Inductive State := Whitespace | Word | SingleQuote | DoubleQuote.

(** The locals of [split], without the index. *)
Record Lexer := mk {
  out : list bytes;
  buf : bytes;
  state : State;
  has_token : bool;
  quote_open : nat;
}.

Definition set_state (q : State) (st : Lexer) : Lexer :=
  mk (out st) (buf st) q (has_token st) (quote_open st).
Definition set_token (st : Lexer) : Lexer :=
  mk (out st) (buf st) (state st) true (quote_open st).
Definition set_quote_open (i : nat) (st : Lexer) : Lexer :=
  mk (out st) (buf st) (state st) (has_token st) i.
Definition push (b : Z) (st : Lexer) : Lexer :=
  mk (out st) (buf st ++ [b]) (state st) (has_token st) (quote_open st).
Definition with_buf (b : bytes) (st : Lexer) : Lexer :=
  mk (out st) b (state st) (has_token st) (quote_open st).

Definition is_ws (c : Z) : bool := (c =? 32) || (c =? 9) || (c =? 10) || (c =? 13).

Definition emit (st : Lexer) : Lexer :=
  if has_token st then mk (out st ++ [buf st]) [] (state st) false (quote_open st) else st.

(** Here and below the slice [s] is [s[i..]] of the source, so [s[i + 1]] is its second byte. The
    result counts bytes from [i]. *)
Definition line_continuation (s : bytes) : option nat :=
  match s with
  | _ :: n :: rest =>
      if n =? 10 then Some 2%nat
      else if n =? 13 then
        match rest with
        | r :: _ => if r =? 10 then Some 3%nat else None
        | [] => None
        end
      else None
  | _ => None
  end.

(** The bytes consumed and the new buffer. *)
Definition backslash_unquoted (s : bytes) (i : nat) (buf : bytes) : result QuoteError (nat * bytes) :=
  match s with
  | _ :: n :: _ =>
      match line_continuation s with
      | Some consumed => Ok (consumed, buf)
      | None => Ok (2%nat, buf ++ [n])
      end
  | _ => Err {| pos := i; kind := TrailingBackslash |}
  end.

Definition dquote_escapable (n : Z) : bool := (n =? 36) || (n =? 96) || (n =? 34) || (n =? 92).

Definition backslash_in_dquote (s : bytes) (i : nat) (buf : bytes) : result QuoteError (nat * bytes) :=
  match s with
  | _ :: n :: _ =>
      match line_continuation s with
      | Some consumed => Ok (consumed, buf)
      | None =>
          if dquote_escapable n then Ok (2%nat, buf ++ [n])
          else Ok (1%nat, buf ++ [92])
      end
  | _ => Err {| pos := i; kind := TrailingBackslash |}
  end.

(** One turn of the [while] loop on a non-empty [s = c :: tl]: how far [i] moves, and the locals. *)
Definition split_step (c : Z) (tl : bytes) (i : nat) (st : Lexer) : result QuoteError (nat * Lexer) :=
  let s := c :: tl in
  match state st with
  | Whitespace =>
      if is_ws c then Ok (1%nat, st)
      else if c =? 39 then Ok (1%nat, set_quote_open i (set_token (set_state SingleQuote st)))
      else if c =? 34 then Ok (1%nat, set_quote_open i (set_token (set_state DoubleQuote st)))
      else if c =? 92 then
        match tl with
        | [] => Err {| pos := i; kind := TrailingBackslash |}
        | n :: _ =>
            match line_continuation s with
            | Some consumed => Ok (consumed, st)
            | None => Ok (2%nat, set_state Word (set_token (push n st)))
            end
        end
      else Ok (1%nat, set_state Word (set_token (push c st)))
  | Word =>
      if is_ws c then Ok (1%nat, set_state Whitespace (emit st))
      else if c =? 39 then Ok (1%nat, set_quote_open i (set_state SingleQuote st))
      else if c =? 34 then Ok (1%nat, set_quote_open i (set_state DoubleQuote st))
      else if c =? 92 then
        let? (n, b) := backslash_unquoted s i (buf st) in Ok (n, with_buf b st)
      else Ok (1%nat, push c st)
  | SingleQuote =>
      if c =? 39 then Ok (1%nat, set_state Word st) else Ok (1%nat, push c st)
  | DoubleQuote =>
      if c =? 34 then Ok (1%nat, set_state Word st)
      else if c =? 92 then
        let? (n, b) := backslash_in_dquote s i (buf st) in Ok (n, with_buf b st)
      else Ok (1%nat, push c st)
  end.

(** The [match state] after the loop. *)
Definition split_end (st : Lexer) : result QuoteError (list bytes) :=
  match state st with
  | Whitespace | Word => Ok (out (emit st))
  | SingleQuote => Err {| pos := quote_open st; kind := UnterminatedSingleQuote |}
  | DoubleQuote => Err {| pos := quote_open st; kind := UnterminatedDoubleQuote |}
  end.

Fixpoint split_loop (s : bytes) (i : nat) (st : Lexer) : result QuoteError (list bytes) :=
  match s with
  | [] => split_end st
  | c :: tl =>
      let? (n, st') := split_step c tl i st in
      split_loop (adv tl (n - 1)) (i + n) st'
  end.

Definition initial : Lexer := mk [] [] Whitespace false 0.

Definition split (s : bytes) : result QuoteError (list bytes) := split_loop s 0 initial.

(** * Quoting *)

Definition build_safe (b : Z) : bool :=
  ((97 <=? b) && (b <=? 122)) || ((65 <=? b) && (b <=? 90)) || ((48 <=? b) && (b <=? 57))
  || (b =? 95) || (b =? 64) || (b =? 37) || (b =? 43) || (b =? 61) || (b =? 58) || (b =? 44)
  || (b =? 46) || (b =? 47) || (b =? 45).

(** A single quote inside single quotes: the quote is closed, a double-quoted one follows, and the
    quote is opened again. *)
Definition quote_byte (b : Z) : bytes := if b =? 39 then [39; 34; 39; 34; 39] else [b].

Definition quote (s : bytes) : bytes :=
  match s with
  | [] => [39; 39]
  | _ => if forallb build_safe s then s else 39 :: (s ≫= quote_byte) ++ [39]
  end.

Fixpoint join_from (idx : nat) (args : list bytes) : bytes :=
  match args with
  | [] => []
  | a :: rest => (if (0 <? idx)%nat then [32] else []) ++ quote a ++ join_from (S idx) rest
  end.

Definition join (args : list bytes) : bytes := join_from 0 args.

(** * The grammar

    [lex_ws s ws]: the text [s], read from between two words, is the words [ws]. [lex_word s v ws]:
    read from inside a word, [s] is the rest [v] of that word, then the words [ws]. No buffer, no
    flag, no offset; a quoted stretch is one rule. *)

(** A backslash-newline, the newline being [LF] or [CR LF]. *)
Definition continuation (c : bytes) : Prop := c = [92; 10] \/ c = [92; 13; 10].

Definition continues (s : bytes) : Prop := exists c t, continuation c /\ s = c ++ t.

(** The body of a double-quoted stretch and its value. *)
Inductive dq : bytes -> bytes -> Prop :=
| dq_nil : dq [] []
| dq_plain c s v : c <> 34 -> c <> 92 -> dq s v -> dq (c :: s) (c :: v)
| dq_escape n s v : dquote_escapable n = true -> dq s v -> dq (92 :: n :: s) (n :: v)
| dq_continue c s v : continuation c -> dq s v -> dq (c ++ s) v
| dq_backslash n s v :
    dquote_escapable n = false -> ~ continues (92 :: n :: s) ->
    dq (n :: s) v -> dq (92 :: n :: s) (92 :: v).

Definition special (c : Z) : bool := is_ws c || (c =? 39) || (c =? 34) || (c =? 92).

Inductive lex_ws : bytes -> list bytes -> Prop :=
| lw_end : lex_ws [] []
| lw_blank c s ws : is_ws c = true -> lex_ws s ws -> lex_ws (c :: s) ws
| lw_continue c s ws : continuation c -> lex_ws s ws -> lex_ws (c ++ s) ws
| lw_word c s v ws :
    is_ws c = false -> ~ continues (c :: s) -> lex_word (c :: s) v ws -> lex_ws (c :: s) (v :: ws)
with lex_word : bytes -> bytes -> list bytes -> Prop :=
| lx_end : lex_word [] [] []
| lx_blank c s ws : is_ws c = true -> lex_ws s ws -> lex_word (c :: s) [] ws
| lx_plain c s v ws : special c = false -> lex_word s v ws -> lex_word (c :: s) (c :: v) ws
| lx_escape n s v ws :
    ~ continues (92 :: n :: s) -> lex_word s v ws -> lex_word (92 :: n :: s) (n :: v) ws
| lx_continue c s v ws : continuation c -> lex_word s v ws -> lex_word (c ++ s) v ws
| lx_single body s v ws :
    free (fun b => b =? 39) body -> lex_word s v ws ->
    lex_word (39 :: body ++ 39 :: s) (body ++ v) ws
| lx_double body val s v ws :
    dq body val -> lex_word s v ws -> lex_word (34 :: body ++ 34 :: s) (val ++ v) ws.

Scheme lex_ws_mut := Induction for lex_ws Sort Prop
  with lex_word_mut := Induction for lex_word Sort Prop.
Combined Scheme lex_mutind from lex_ws_mut, lex_word_mut.

(** * Line continuations *)

#[local] Arguments line_continuation : simpl never.

Lemma line_continuation_Some c tl n :
  line_continuation (92 :: c :: tl) = Some n <->
  exists w t, continuation w /\ 92 :: c :: tl = w ++ t /\ n = length w.
Proof.
  unfold continuation, line_continuation. split.
  - destruct (Z.eqb_spec c 10) as [->|_]; [intros [= <-]; exists [92; 10], tl; auto|].
    destruct (Z.eqb_spec c 13) as [->|_]; [|done]. destruct tl as [|r tl]; [done|].
    destruct (Z.eqb_spec r 10) as [->|_]; [|done]. intros [= <-]. exists [92; 13; 10], tl; auto.
  - intros (w & t & [-> | ->] & ? & ->); by simplify_eq/=.
Qed.

Lemma line_continuation_None c tl :
  line_continuation (92 :: c :: tl) = None <-> ~ continues (92 :: c :: tl).
Proof.
  rewrite eq_None_not_Some. split; intros H.
  - intros (w & t & Hw & Heq). apply H. exists (length w). apply line_continuation_Some. eauto.
  - intros [n (w & t & Hw & Heq & _)%line_continuation_Some]. apply H. by exists w, t.
Qed.

Lemma continues_app s t : continues s -> continues (s ++ t).
Proof. intros (w & u & Hw & ->). exists w, (u ++ t). by rewrite <- app_assoc. Qed.

(** * The lexer accepts the grammar *)

Lemma loop_cons c tl i st :
  split_loop (c :: tl) i st =
  let? (n, st') := split_step c tl i st in split_loop (drop (n - 1) tl) (i + n) st'.
Proof. simpl. destruct (split_step c tl i st) as [[n st']|e]; [|done]. by rewrite adv_drop. Qed.

Lemma loop_nil i st : split_loop [] i st = split_end st.
Proof. done. Qed.

#[local] Arguments split_loop : simpl never.

(** A non-blank byte that starts no continuation starts a word: [split] treats it from the
    whitespace state as from an empty word. *)
Lemma step_start c tl i o q :
  is_ws c = false -> ~ continues (c :: tl) ->
  split_step c tl i (mk o [] Whitespace false q) = split_step c tl i (mk o [] Word true q).
Proof.
  intros Hc Hn. unfold split_step; simpl. rewrite Hc. zcases; try done.
  destruct tl as [|c1 tl]; [done|]. unfold backslash_unquoted.
  by rewrite (proj2 (line_continuation_None _ _)).
Qed.

Lemma loop_single body s i o b q :
  free (fun c => c =? 39) body ->
  split_loop (body ++ 39 :: s) i (mk o b SingleQuote true q) =
  split_loop s (i + length body + 1) (mk o (b ++ body) Word true q).
Proof.
  intros Hf; revert i b; induction body as [|c body IH]; intros i b; simpl app.
  - rewrite loop_cons; simpl. by rewrite app_nil_r, Nat.add_0_r.
  - apply free_cons in Hf as [Hc Hf]. rewrite loop_cons; unfold split_step; simpl.
    rewrite Hc; simpl. unfold push; simpl. rewrite IH by done.
    rewrite <- app_assoc. simpl. f_equal; lia.
Qed.

Lemma drop_continuation w (t : bytes) :
  continuation w -> exists n tl, w ++ t = 92 :: n :: tl /\ drop (length w - 1) (n :: tl) = t.
Proof. intros [-> | ->]; simpl; eauto. Qed.

Lemma line_continuation_app w t :
  continuation w -> line_continuation (w ++ t) = Some (length w).
Proof. by intros [-> | ->]. Qed.

Lemma loop_double body val s i o b q :
  dq body val ->
  split_loop (body ++ 34 :: s) i (mk o b DoubleQuote true q) =
  split_loop s (i + length body + 1) (mk o (b ++ val) Word true q).
Proof.
  intros Hd; revert i b; induction Hd as
    [|c t v H1 H2 _ IH|n t v Hn _ IH|w t v Hw _ IH|n t v Hn Hc Hd IH]; intros i b.
  - simpl app. rewrite loop_cons; simpl. by rewrite app_nil_r, Nat.add_0_r.
  - simpl app. rewrite loop_cons; unfold split_step; simpl. zcases; try done.
    unfold push; simpl. rewrite IH, <- app_assoc. f_equal; lia.
  - simpl app. rewrite loop_cons; unfold split_step, backslash_in_dquote.
    rewrite (proj2 (line_continuation_None _ _)).
    + simpl. rewrite Hn; simpl. rewrite ?drop_0. unfold with_buf; simpl.
      rewrite IH, <- app_assoc. simpl. f_equal; lia.
    + intros (w & u & [-> | ->] & ?); by simplify_eq/=.
  - destruct (drop_continuation w (t ++ 34 :: s) Hw) as (n & tl & E & Hdrop).
    rewrite <- app_assoc, E, loop_cons. unfold split_step, backslash_in_dquote. simpl state.
    rewrite <- E, line_continuation_app by done. simpl. rewrite Hdrop.
    unfold with_buf; simpl. rewrite IH, length_app. f_equal; lia.
  - simpl app. rewrite loop_cons; unfold split_step, backslash_in_dquote.
    rewrite (proj2 (line_continuation_None _ _)).
    + simpl. rewrite Hn; simpl. rewrite ?drop_0. unfold with_buf; simpl.
      change (n :: t ++ 34 :: s) with ((n :: t) ++ 34 :: s).
      rewrite IH, <- app_assoc. simpl. f_equal; lia.
    + intros (w & u & [-> | ->] & Heq); simplify_eq/=.
      * apply Hc. eexists [92; 10], t; split; [by left|done].
      * destruct t as [|c t]; simplify_eq/=. apply Hc. exists [92; 13; 10], t; split; [by right|done].
Qed.

Lemma lex_complete :
  (forall s ws, lex_ws s ws -> forall i o q,
     split_loop s i (mk o [] Whitespace false q) = Ok (o ++ ws)) /\
  (forall s v ws, lex_word s v ws -> forall i o b q,
     split_loop s i (mk o b Word true q) = Ok (o ++ (b ++ v) :: ws)).
Proof.
  apply lex_mutind.
  - intros i o q. rewrite loop_nil; simpl. by rewrite app_nil_r.
  - intros c s ws Hc _ IH i o q. rewrite loop_cons; unfold split_step; simpl. by rewrite Hc; simpl.
  - intros w s ws Hw _ IH i o q.
    destruct (drop_continuation w s Hw) as (n & tl & E & Hdrop).
    rewrite E, loop_cons. unfold split_step. simpl state. simpl (is_ws 92).
    rewrite <- E, line_continuation_app by done. simpl. by rewrite Hdrop.
  - intros c s v ws Hc Hn _ IH i o q. specialize (IH i o [] q). revert IH.
    by rewrite !loop_cons, step_start.
  - intros i o b q. rewrite loop_nil; simpl. by rewrite app_nil_r.
  - intros c s ws Hc _ IH i o b q. rewrite loop_cons; unfold split_step; simpl.
    rewrite Hc; simpl. unfold emit, set_state; simpl. rewrite IH.
    by rewrite app_nil_r, <- app_assoc.
  - intros c s v ws Hc _ IH i o b q. unfold special in Hc.
    rewrite !orb_false_iff in Hc. destruct Hc as [[[H1 H2] H3] H4].
    rewrite loop_cons; unfold split_step; simpl. rewrite H1, H2, H3, H4; simpl.
    unfold push; simpl. by rewrite IH, <- app_assoc.
  - intros n s v ws Hc _ IH i o b q. rewrite loop_cons; unfold split_step, backslash_unquoted.
    rewrite (proj2 (line_continuation_None _ _)) by done. simpl. rewrite ?drop_0.
    unfold with_buf; simpl. by rewrite IH, <- app_assoc.
  - intros w s v ws Hw _ IH i o b q.
    destruct (drop_continuation w s Hw) as (n & tl & E & Hdrop).
    rewrite E, loop_cons. unfold split_step, backslash_unquoted. simpl state. simpl (is_ws 92).
    rewrite <- E, line_continuation_app by done. simpl. rewrite Hdrop. apply IH.
  - intros body s v ws Hf _ IH i o b q. rewrite loop_cons. unfold split_step; simpl.
    unfold set_quote_open, set_state; simpl. rewrite drop_0, loop_single by done.
    by rewrite IH, <- app_assoc.
  - intros body val s v ws Hd _ IH i o b q. rewrite loop_cons. unfold split_step; simpl.
    unfold set_quote_open, set_state; simpl. rewrite drop_0, (loop_double _ _ _ _ _ _ _ Hd).
    by rewrite IH, <- app_assoc.
Qed.

(** * The grammar covers what the lexer accepts *)

(** What a run from each state on [s] has read when it ends with the words [r]. *)
Definition read_from (q : State) (s : bytes) (o : list bytes) (b : bytes) (r : list bytes) : Prop :=
  match q with
  | Whitespace => b = [] /\ exists ws, r = o ++ ws /\ lex_ws s ws
  | Word => exists v ws, r = o ++ (b ++ v) :: ws /\ lex_word s v ws
  | SingleQuote => exists body t v ws, s = body ++ 39 :: t /\ free (fun c => c =? 39) body /\
      r = o ++ (b ++ body ++ v) :: ws /\ lex_word t v ws
  | DoubleQuote => exists body val t v ws, s = body ++ 34 :: t /\ dq body val /\
      r = o ++ (b ++ val ++ v) :: ws /\ lex_word t v ws
  end.

(** The locals a state is entered with: a token has begun, or there is nothing in the buffer. *)
Definition well_formed (st : Lexer) : Prop :=
  match state st with
  | Whitespace => buf st = [] /\ has_token st = false
  | _ => has_token st = true
  end.

Lemma continuation_split c tl n :
  line_continuation (92 :: c :: tl) = Some n ->
  exists w, continuation w /\ 92 :: c :: tl = w ++ drop (n - 1) (c :: tl).
Proof.
  intros (w & t & Hw & Heq & ->)%line_continuation_Some. exists w. split; [done|].
  destruct Hw as [-> | ->]; by simplify_eq/=.
Qed.

Lemma plain_special c : is_ws c = false -> c <> 39 -> c <> 34 -> c <> 92 -> special c = false.
Proof. intros H. unfold special. rewrite H. by zcases. Qed.

Lemma word_step c tl i st n st' :
  state st = Word -> has_token st = true ->
  split_step c tl i st = Ok (n, st') ->
  well_formed st' /\
  forall r, read_from (state st') (drop (n - 1) tl) (out st') (buf st') r ->
  read_from Word (c :: tl) (out st) (buf st) r.
Proof.
  destruct st as [o b q ht k]; simpl; intros -> ->. unfold split_step, backslash_unquoted; simpl.
  destruct (is_ws c) eqn:Hc; [intros [= <- <-]; split; [done|]|].
  { intros r (_ & ws & -> & Hl). simpl in Hl |- *. rewrite drop_0 in Hl. exists [], ws.
    rewrite app_nil_r, <- app_assoc. split; [done|]. by constructor. }
  destruct (Z.eqb_spec c 39) as [->|H1]; [intros [= <- <-]; split; [done|]|].
  { intros r (body & t & v & ws & E & Hf & -> & Hl). exists (body ++ v), ws.
    split; [done|]. simpl in E. rewrite drop_0 in E. subst. by constructor. }
  destruct (Z.eqb_spec c 34) as [->|H2]; [intros [= <- <-]; split; [done|]|].
  { intros r (body & val & t & v & ws & E & Hd & -> & Hl). exists (val ++ v), ws.
    split; [done|]. simpl in E. rewrite drop_0 in E. subst. by constructor. }
  destruct (Z.eqb_spec c 92) as [->|H3].
  - destruct tl as [|c1 tl]; [done|].
    destruct (line_continuation (92 :: c1 :: tl)) as [m|] eqn:E; intros [= <- <-]; split; try done.
    + intros r (v & ws & -> & Hl). exists v, ws. split; [done|].
      apply continuation_split in E as (w & Hw & ->). by constructor.
    + intros r (v & ws & -> & Hl). exists (c1 :: v), ws. simpl in *. rewrite <- app_assoc.
      split; [done|]. constructor; [by apply line_continuation_None|]. by rewrite ?drop_0 in Hl.
  - intros [= <- <-]; split; [done|].
    intros r (v & ws & -> & Hl). exists (c :: v), ws. simpl in *. rewrite <- app_assoc.
    split; [done|]. constructor; [by apply plain_special|]. by rewrite ?drop_0 in Hl.
Qed.

Lemma double_step c tl i st n st' :
  state st = DoubleQuote -> has_token st = true ->
  split_step c tl i st = Ok (n, st') ->
  well_formed st' /\
  forall r, read_from (state st') (drop (n - 1) tl) (out st') (buf st') r ->
  read_from DoubleQuote (c :: tl) (out st) (buf st) r.
Proof.
  destruct st as [o b q ht k]; simpl; intros -> ->. unfold split_step, backslash_in_dquote; simpl.
  destruct (Z.eqb_spec c 34) as [->|H1]; [intros [= <- <-]; split; [done|]|].
  { intros r (v & ws & -> & Hl). rewrite ?drop_0 in Hl.
    exists [], [], tl, v, ws. split_and!; try done. constructor. }
  destruct (Z.eqb_spec c 92) as [->|H2].
  - destruct tl as [|c1 tl]; [done|].
    destruct (line_continuation (92 :: c1 :: tl)) as [m|] eqn:E; [|destruct (dquote_escapable c1) eqn:Hc];
      intros [= <- <-]; (split; [done|]);
      intros r (body & val & t & v & ws & E' & Hd & -> & Hl); simpl in *.
    + apply continuation_split in E as (w & Hw & ->). rewrite E'.
      exists (w ++ body), val, t, v, ws. rewrite <- app_assoc. split_and!; try done. by constructor.
    + rewrite ?drop_0 in E'. subst tl. exists (92 :: c1 :: body), (c1 :: val), t, v, ws.
      rewrite <- !app_assoc. split_and!; try done. by constructor.
    + rewrite ?drop_0 in E'. destruct body as [|c2 body]; simplify_eq/=.
      exists (92 :: c2 :: body), (92 :: val), t, v, ws. rewrite <- !app_assoc.
      split_and!; try done. apply dq_backslash; try done.
      apply line_continuation_None in E. by intros H%(continues_app _ (34 :: t)).
  - intros [= <- <-]; split; [done|].
    intros r (body & val & t & v & ws & E' & Hd & -> & Hl). simpl in *.
    rewrite ?drop_0 in E'. subst tl. exists (c :: body), (c :: val), t, v, ws.
    rewrite <- !app_assoc. split_and!; try done. by constructor.
Qed.

Lemma single_step c tl i st n st' :
  state st = SingleQuote -> has_token st = true ->
  split_step c tl i st = Ok (n, st') ->
  well_formed st' /\
  forall r, read_from (state st') (drop (n - 1) tl) (out st') (buf st') r ->
  read_from SingleQuote (c :: tl) (out st) (buf st) r.
Proof.
  destruct st as [o b q ht k]; simpl; intros -> ->. unfold split_step; simpl.
  destruct (Z.eqb_spec c 39) as [->|H1]; intros [= <- <-]; (split; [done|]); simpl.
  - intros r (v & ws & -> & Hl). rewrite ?drop_0 in Hl.
    exists [], tl, v, ws. split_and!; try done. constructor.
  - intros r (body & t & v & ws & E' & Hf & -> & Hl). rewrite ?drop_0 in E'. subst tl.
    exists (c :: body), t, v, ws. rewrite <- !app_assoc. split_and!; try done.
    apply free_cons. split; [by apply Z.eqb_neq|done].
Qed.

Lemma ws_step c tl i st n st' :
  state st = Whitespace -> buf st = [] -> has_token st = false ->
  split_step c tl i st = Ok (n, st') ->
  well_formed st' /\
  forall r, read_from (state st') (drop (n - 1) tl) (out st') (buf st') r ->
  read_from Whitespace (c :: tl) (out st) (buf st) r.
Proof.
  destruct st as [o b q ht k]; simpl; intros -> -> ->.
  destruct (is_ws c) eqn:Hc.
  { unfold split_step; simpl. rewrite Hc. intros [= <- <-]; split; [done|].
    intros r (_ & ws & -> & Hl). rewrite ?drop_0 in Hl. simpl in *.
    split; [done|]. exists ws. split; [done|]. by constructor. }
  assert (~ continues (c :: tl) -> forall r,
    lex_word (c :: tl) r.1 r.2 -> lex_ws (c :: tl) (r.1 :: r.2)) as Hstart.
  { intros Hn [v ws] Hl. by constructor. }
  destruct (line_continuation (c :: tl)) as [m|] eqn:E; [destruct (Z.eqb_spec c 92) as [->|Hne]|].
  - destruct tl as [|c1 tl]; [done|]. unfold split_step; simpl. rewrite E.
    intros [= <- <-]; split; [done|]. intros r (_ & ws & -> & Hl). split; [done|].
    exists ws. split; [done|]. apply continuation_split in E as (w & Hw & ->). by constructor.
  - assert (~ continues (c :: tl)) as Hn.
    { by intros (w & t & [-> | ->] & ?); simplify_eq/=. }
    rewrite step_start by done. intros H. apply word_step in H as [Hw H]; [|done..].
    split; [done|]. intros r (v & ws & -> & Hl)%H. split; [done|]. exists (v :: ws).
    split; [done|]. by apply (Hstart Hn (v, ws)).
  - assert (~ continues (c :: tl)) as Hn.
    { intros (w & t & Hw & Heq). rewrite Heq, line_continuation_app in E by done. done. }
    rewrite step_start by done. intros H. apply word_step in H as [Hw H]; [|done..].
    split; [done|]. intros r (v & ws & -> & Hl)%H. split; [done|]. exists (v :: ws).
    split; [done|]. by apply (Hstart Hn (v, ws)).
Qed.

Lemma step_sound c tl i st n st' :
  well_formed st -> split_step c tl i st = Ok (n, st') ->
  well_formed st' /\
  forall r, read_from (state st') (drop (n - 1) tl) (out st') (buf st') r ->
  read_from (state st) (c :: tl) (out st) (buf st) r.
Proof.
  unfold well_formed. destruct (state st) eqn:E; intros H.
  - destruct H. eauto using ws_step.
  - eauto using word_step.
  - eauto using single_step.
  - eauto using double_step.
Qed.

Lemma loop_sound s i st r :
  well_formed st -> split_loop s i st = Ok r -> read_from (state st) s (out st) (buf st) r.
Proof.
  remember (length s) as k eqn:Hk. revert s i st Hk.
  induction k as [k IH] using lt_wf_ind; intros s i st -> Hw.
  destruct s as [|c tl].
  - rewrite loop_nil. unfold split_end, emit. unfold well_formed in Hw.
    destruct (state st) eqn:E; [destruct Hw as [-> ->]| |done|done]; intros [= <-].
    + split; [done|]. exists []. rewrite app_nil_r. split; [done|]. constructor.
    + rewrite Hw. exists [], []. rewrite app_nil_r. split; [done|]. constructor.
  - rewrite loop_cons. destruct (split_step c tl i st) as [[n st']|] eqn:E; [|done].
    apply step_sound in E as [Hw' E]; [|done]. intros H. apply E.
    eapply IH; try done. rewrite length_drop. simpl. lia.
Qed.

(** * Errors *)

(** What an error value says of the whole input. *)
Definition error_at (s : bytes) (e : QuoteError) : Prop :=
  match kind e with
  | TrailingBackslash => s !! pos e = Some 92 /\ S (pos e) = length s
  | UnterminatedSingleQuote =>
      s !! pos e = Some 39 /\ free (fun c => c =? 39) (drop (S (pos e)) s)
  | UnterminatedDoubleQuote => s !! pos e = Some 34
  | NonUtf8 | UnrepresentableChar => False
  end.

(** The quote the lexer is inside of is at [quote_open]. *)
Definition quote_seen (pre : bytes) (st : Lexer) : Prop :=
  match state st with
  | SingleQuote =>
      pre !! quote_open st = Some 39 /\ free (fun c => c =? 39) (drop (S (quote_open st)) pre)
  | DoubleQuote => pre !! quote_open st = Some 34
  | _ => True
  end.

Lemma line_continuation_bounds s n :
  line_continuation s = Some n -> (2 <= n <= length s)%nat.
Proof.
  unfold line_continuation. destruct s as [|c [|c1 [|c2 s]]]; simpl; try done;
    repeat case_match; intros; simplify_eq; lia.
Qed.

Lemma backslash_bounds s i b n b' :
  backslash_unquoted s i b = Ok (n, b') \/ backslash_in_dquote s i b = Ok (n, b') ->
  (1 <= n <= length s)%nat.
Proof.
  unfold backslash_unquoted, backslash_in_dquote. destruct s as [|c [|c1 s]]; [naive_solver..|].
  destruct (line_continuation (c :: c1 :: s)) as [m|] eqn:E.
  - apply line_continuation_bounds in E. intros [[= -> _] | [= -> _]]; lia.
  - intros [[= <- _] | H]; simpl; [lia|]. case_match; simplify_eq; lia.
Qed.

(** Every turn of the loop consumes at least one byte and stays within the input. *)
Lemma step_bounds c tl i st n st' :
  split_step c tl i st = Ok (n, st') -> (1 <= n <= S (length tl))%nat.
Proof.
  intros H. enough (1 <= n <= length (c :: tl))%nat by done. revert H. unfold split_step.
  destruct (state st); repeat case_match; intros; simplify_eq; simpl; try lia.
  - match goal with H : line_continuation _ = _ |- _ => apply line_continuation_bounds in H end.
    simpl in *; lia.
  - eapply (backslash_bounds (c :: tl)); eauto.
  - eapply (backslash_bounds (c :: tl)); eauto.
Qed.

Lemma quote_seen_app pre c st :
  quote_seen pre st ->
  (state st = SingleQuote -> free (fun b => b =? 39) c) ->
  quote_seen (pre ++ c) st.
Proof.
  unfold quote_seen. destruct (state st); try done.
  - intros [H1 H2] Hc. split; [by apply lookup_app_l_Some|].
    rewrite drop_app_le by (apply lookup_lt_Some in H1; lia). apply free_app; auto.
  - intros H _. by apply lookup_app_l_Some.
Qed.

Lemma quote_seen_open pre c st q :
  q = SingleQuote /\ c = 39 \/ q = DoubleQuote /\ c = 34 ->
  quote_seen (pre ++ [c]) (set_quote_open (length pre) (set_state q st)).
Proof.
  assert (drop (S (length pre)) (pre ++ [c]) = []) as Hd.
  { rewrite drop_ge; [done|]. rewrite length_app; simpl; lia. }
  intros [[-> ->] | [-> ->]]; unfold quote_seen; cbn [state quote_open set_quote_open set_state];
    rewrite ?Hd, list_lookup_middle by done; repeat constructor.
Qed.

(** The invariant of the error offset, over one turn of the loop. *)
Lemma step_errors pre c tl st :
  quote_seen pre st ->
  match split_step c tl (length pre) st with
  | Ok (n, st') => quote_seen (pre ++ take n (c :: tl)) st'
  | Err e => error_at (pre ++ c :: tl) e
  end.
Proof.
  intros Hq. unfold split_step, backslash_unquoted, backslash_in_dquote.
  assert (c = 92 -> tl = [] ->
    error_at (pre ++ c :: tl) {| pos := length pre; kind := TrailingBackslash |}) as Herr.
  { intros -> ->. unfold error_at; simpl. rewrite list_lookup_middle, length_app by done. split; [done|simpl; lia]. }
  destruct (state st) eqn:Est; repeat case_match; simplify_eq; rewrite ?Z.eqb_eq in *; subst; auto.
  all: try (by apply quote_seen_open; auto).
  all: try done.
  all: unfold quote_seen, set_state in *; simpl; rewrite ?Est in *; try done.
  2-5: by apply lookup_app_l_Some.
  assert (quote_seen pre st) as Hs by (unfold quote_seen; by rewrite Est).
  apply (quote_seen_app _ [c]) in Hs; [|by intros _; repeat constructor].
  unfold quote_seen in Hs. by rewrite Est in Hs.
Qed.

Lemma loop_errors pre s st e :
  quote_seen pre st -> split_loop s (length pre) st = Err e -> error_at (pre ++ s) e.
Proof.
  remember (length s) as k eqn:Hk. revert pre s st Hk.
  induction k as [k IH] using lt_wf_ind; intros pre s st -> Hq.
  destruct s as [|c tl].
  - rewrite loop_nil, app_nil_r. unfold split_end, error_at. unfold quote_seen in Hq.
    destruct (state st); intros; by simplify_eq.
  - rewrite loop_cons. pose proof (step_errors pre c tl st Hq) as Hs.
    destruct (split_step c tl (length pre) st) as [[n st']|e'] eqn:E; [|by intros [= <-]].
    apply step_bounds in E. intros H.
    assert (c :: tl = take n (c :: tl) ++ drop (n - 1) tl) as Hsplit.
    { destruct n as [|n]; [lia|]. simpl. by rewrite Nat.sub_0_r, take_drop. }
    rewrite Hsplit, app_assoc. eapply IH; [|done|exact Hs|].
    + rewrite length_drop. simpl; lia.
    + rewrite length_app, length_take_le by (simpl; lia). exact H.
Qed.

(** * Quoting, inside the grammar *)

Lemma safe_plain c : build_safe c = true -> special c = false.
Proof.
  unfold build_safe, special, is_ws. rewrite !orb_true_iff, !andb_true_iff, !Z.leb_le, !Z.eqb_eq.
  intros H. rewrite !orb_false_iff, !Z.eqb_neq. lia.
Qed.

Lemma lex_plain_word w s v ws :
  forallb build_safe w = true -> lex_word s v ws -> lex_word (w ++ s) (w ++ v) ws.
Proof.
  intros Hw Hs. induction w as [|c w IH]; [done|]. simpl in *.
  apply andb_true_iff in Hw as [Hc Hw]. constructor; auto using safe_plain.
Qed.

Lemma lex_single body s v ws :
  lex_word s v ws ->
  lex_word (39 :: (body ≫= quote_byte) ++ 39 :: s) (body ++ v) ws.
Proof.
  intros Hs.
  enough (forall acc, free (fun b => b =? 39) acc ->
    lex_word (39 :: acc ++ (body ≫= quote_byte) ++ 39 :: s) (acc ++ body ++ v) ws) as H
    by (apply (H []), free_nil).
  induction body as [|c body IH]; intros acc Ha; simpl; [by constructor|].
  unfold quote_byte at 1. destruct (Z.eqb_spec c 39) as [->|Hc].
  - apply (lx_single acc (34 :: [39] ++ 34 :: 39 :: (body ≫= quote_byte) ++ 39 :: s)
      (39 :: body ++ v) ws Ha).
    apply (lx_double [39] [39]); [by apply dq_plain; [..|constructor]|]. apply (IH []), free_nil.
  - specialize (IH (acc ++ [c])). rewrite <- !app_assoc in IH. apply IH.
    apply free_app. split; [done|]. apply free_cons. split; [by apply Z.eqb_neq|constructor].
Qed.

(** [quote a], followed by the end or by a blank, is the word [a]. *)
Lemma lex_quote a s ws :
  lex_word s [] ws -> lex_ws (quote a ++ s) (a :: ws).
Proof.
  intros Hs.
  assert (forall t, lex_word (39 :: t) a ws -> lex_ws (39 :: t) (a :: ws)) as H39.
  { intros t Ht. constructor; [done| |done]. by intros (w & u & [-> | ->] & ?); simplify_eq. }
  unfold quote. destruct a as [|c a].
  - apply H39. apply (lx_single [] s [] ws); [constructor|done].
  - set (w := c :: a) in *. destruct (forallb build_safe w) eqn:Hw.
    + pose proof (lex_plain_word w s [] ws Hw Hs) as Hl. rewrite app_nil_r in Hl.
      apply andb_true_iff in Hw as [Hc%safe_plain _]. unfold special in Hc.
      rewrite !orb_false_iff, !Z.eqb_neq in Hc.
      subst w. simpl in *. constructor; [tauto| |done]. intros (x & u & [-> | ->] & ?); simplify_eq/=; tauto.
    + simpl app. rewrite <- app_assoc. apply H39.
      pose proof (lex_single w s [] ws Hs) as Hl. by rewrite app_nil_r in Hl.
Qed.

Lemma lex_join idx args :
  lex_ws (join_from idx args) args /\ (idx <> O -> lex_word (join_from idx args) [] args).
Proof.
  revert idx; induction args as [|a args IH]; intros idx; simpl; [by repeat constructor|].
  destruct (IH (S idx)) as [_ Hw]. specialize (Hw (Nat.neq_succ_0 _)).
  apply (lex_quote a) in Hw.
  destruct idx as [|idx]; simpl; [by split|]. split; [|intros _]; by constructor.
Qed.

(** * Properties *)

(** Quoting and splitting are inverse: whatever the arguments hold, splitting the command line
    that [join] builds gives them back, one word each and nothing else. *)
Theorem split_join (args : list bytes) : split (join args) = Ok args.
Proof. exact (proj1 lex_complete _ _ (proj1 (lex_join 0 args)) 0%nat [] 0%nat). Qed.

(** C2: [split] implements the shell-word grammar: it returns the words [ws] exactly when the
    grammar reads the text as [ws]. *)
Theorem split_refines_grammar (s : bytes) (ws : list bytes) : split s = Ok ws <-> lex_ws s ws.
Proof.
  split.
  - intros H%loop_sound; [|done]. by destruct H as (_ & r & -> & H).
  - intros H. exact (proj1 lex_complete _ _ H 0%nat [] 0%nat).
Qed.

(** An error points at its cause. A trailing backslash is the input's last byte; an
    unterminated single quote is an opening quote with no other after it; an unterminated double
    quote is a double quote of the input. No other error comes out. *)
Theorem split_error_position (s : bytes) (e : QuoteError) : split s = Err e -> error_at s e.
Proof. by apply (loop_errors [] s initial e). Qed.

Lemma split_error_position_witness :
  split (bs "ab 'c") = Err {| pos := 3; kind := UnterminatedSingleQuote |} /\
  error_at (bs "ab 'c") {| pos := 3; kind := UnterminatedSingleQuote |}.
Proof. split; [reflexivity|]. apply split_error_position. reflexivity. Defined.
