(* ===== verification/QuoteWindows.v ===== *)
(** Windows command lines, [src/quote/windows.rs]: building one ([join_wide]) and parsing one
    ([split_wide]) over UTF-16 code units, with the backslash and mod-3 quote rules of
    [CommandLineToArgvW]. *)
From S2P Require Import Prelude Errors.
Local Open Scope Z_scope.

(** * Building *)

Definition is_blank (c : Z) : bool := (c =? 32) || (c =? 9).

Definition needs_quotes (arg : list Z) : bool :=
  match arg with [] => true | _ => existsb is_blank arg end.

(** One turn of [append_arg]'s loop: the command line and the length of the backslash run. *)
Definition append_unit (acc : list Z * nat) (x : Z) : list Z * nat :=
  let '(cmd, backslashes) := acc in
  if x =? 92 then (cmd ++ [x], S backslashes)
  else
    let cmd := if x =? 34 then cmd ++ replicate (S backslashes) 92 else cmd in
    (cmd ++ [x], O).

Definition append_arg (cmd arg : list Z) : list Z :=
  let quote := needs_quotes arg in
  let cmd := if quote then cmd ++ [34] else cmd in
  let '(cmd, backslashes) := foldl append_unit (cmd, O) arg in
  if quote then cmd ++ replicate backslashes 92 ++ [34] else cmd.

Fixpoint join_wide_from (idx : nat) (cmd : list Z) (args : list (list Z)) : list Z :=
  match args with
  | [] => cmd
  | arg :: rest =>
      let cmd := if (0 <? idx)%nat then cmd ++ [32] else cmd in
      join_wide_from (S idx) (append_arg cmd arg) rest
  end.

Definition join_wide (args : list (list Z)) : list Z := join_wide_from 0 [] args.

(** * Parsing *)

Definition skip_blanks (cmd : list Z) : list Z := (span is_blank cmd).2.

Definition first_token_and_rest_wide (cmd : list Z) : option (list Z * list Z) :=
  match skip_blanks cmd with
  | [] => None
  | c :: tl =>
      let '(first, rest) :=
        if c =? 34 then
          let '(first, rest) := span (fun u => negb (u =? 34)) tl in (first, drop 1 rest)
        else span (fun u => negb (is_blank u)) (c :: tl) in
      Some (first, skip_blanks rest)
  end.

Definition first_token_wide (cmd : list Z) : option (list Z) :=
  fst <$> first_token_and_rest_wide cmd.

(** [buf.truncate(buf.len() - n)]: [None] where the subtraction would underflow, a panic. *)
Definition truncate_by (n : nat) (buf : list Z) : option (list Z) :=
  if (n <=? length buf)%nat then Some (take (length buf - n) buf) else None.

(** The inner [while rest[i] == QUOTE]: how far it moves, [qcount] and [buf]. *)
Fixpoint bare_quotes (rest : list Z) (qcount : nat) (buf : list Z) : nat * nat * list Z :=
  match rest with
  | c :: tl =>
      if c =? 34 then
        let qcount := S qcount in
        let '(qcount, buf) := if (qcount =? 3)%nat then (O, buf ++ [34]) else (qcount, buf) in
        let '(n, q, b) := bare_quotes tl qcount buf in (S n, q, b)
      else (O, qcount, buf)
  | [] => (O, qcount, buf)
  end.

(** The outer loop at [rest = rest[i..]]; [None] is a panic. *)
Fixpoint split_rest_loop (rest : list Z) (out : list (list Z)) (buf : list Z) (qcount bcount : nat)
    : option (list (list Z)) :=
  match rest with
  | [] => Some (out ++ [buf])
  | c :: tl =>
      if is_blank c && (qcount =? 0)%nat then
        let out := out ++ [buf] in
        match adv tl (length (span is_blank tl).1) with
        | [] => Some out
        | _ => split_rest_loop (adv tl (length (span is_blank tl).1)) out [] qcount O
        end
      else if c =? 92 then split_rest_loop tl out (buf ++ [c]) qcount (S bcount)
      else if c =? 34 then
        match
          if Nat.even bcount then
            b ← truncate_by (bcount / 2) buf; Some (b, S qcount)
          else
            b ← truncate_by (bcount / 2 + 1) buf; Some (b ++ [34], qcount)
        with
        | None => None
        | Some (buf, qcount) =>
            let '(n, qcount, buf) := bare_quotes tl qcount buf in
            let qcount := if (qcount =? 2)%nat then O else qcount in
            split_rest_loop (adv tl n) out buf qcount O
        end
      else split_rest_loop tl out (buf ++ [c]) qcount O
  end.

Definition split_rest_wide (rest : list Z) : option (list (list Z)) :=
  match skip_blanks rest with
  | [] => Some []
  | rest => split_rest_loop rest [] [] O O
  end.

(** [None] is a panic; the source's result type is [Result], as for [posix::split]. *)
Definition split_wide (cmd : list Z) : option (result QuoteError (list (list Z))) :=
  match first_token_and_rest_wide cmd with
  | None => Some (Ok [])
  | Some (first, rest) => args ← split_rest_wide rest; Some (Ok (first :: args))
  end.


(** * What [append_arg] writes *)

(** The units [append_arg] writes for [arg] after a run of [b] backslashes, quotes aside, and the
    run the argument ends with. *)
Fixpoint body (b : nat) (arg : list Z) : list Z :=
  match arg with
  | [] => []
  | x :: t =>
      if x =? 92 then x :: body (S b) t
      else if x =? 34 then replicate (S b) 92 ++ x :: body O t
      else x :: body O t
  end.

Fixpoint run (b : nat) (arg : list Z) : nat :=
  match arg with
  | [] => b
  | x :: t => if x =? 92 then run (S b) t else run O t
  end.

Definition encode (arg : list Z) : list Z :=
  if needs_quotes arg then 34 :: body O arg ++ replicate (run O arg) 92 ++ [34] else body O arg.

Lemma append_units cmd b arg : foldl append_unit (cmd, b) arg = (cmd ++ body b arg, run b arg).
Proof.
  revert cmd b; induction arg as [|x t IH]; intros cmd b; simpl; [by rewrite app_nil_r|].
  zcases; rewrite IH; rewrite <- ?app_assoc; done.
Qed.

Lemma append_arg_encode cmd arg : append_arg cmd arg = cmd ++ encode arg.
Proof.
  unfold append_arg, encode. rewrite append_units.
  destruct (needs_quotes arg); simpl; [|done]. by rewrite <- !app_assoc.
Qed.

Lemma join_wide_from_S idx cmd args :
  join_wide_from (S idx) cmd args = cmd ++ join_wide_from (S idx) [] args.
Proof.
  revert idx cmd; induction args as [|a args IH]; intros idx cmd; simpl; [by rewrite app_nil_r|].
  rewrite !append_arg_encode, (IH _ (_ ++ encode a)), (IH _ (([] ++ [32]) ++ encode a)).
  by rewrite <- !app_assoc.
Qed.

Lemma join_wide_from_idx i j cmd args : join_wide_from (S i) cmd args = join_wide_from (S j) cmd args.
Proof. revert i j cmd; induction args; simpl; auto. Qed.

Lemma join_wide_cons a args :
  join_wide (a :: args) = encode a ++ join_wide_from 1 [] args.
Proof. unfold join_wide. simpl. by rewrite append_arg_encode, join_wide_from_S. Qed.

Lemma join_tail a args :
  join_wide_from 1 [] (a :: args) = 32 :: encode a ++ join_wide_from 1 [] args.
Proof.
  change (join_wide_from 1 [] (a :: args)) with (join_wide_from 2 (append_arg ([] ++ [32]) a) args).
  rewrite join_wide_from_S, append_arg_encode, (join_wide_from_idx 1 0).
  by rewrite <- app_assoc.
Qed.

(** * Reading it back *)

(** The text does not start with a quote. *)
Definition no_quote (rest : list Z) : Prop := match rest with c :: _ => c <> 34 | [] => True end.

Lemma loop_backslashes k rest o b q n :
  split_rest_loop (replicate k 92 ++ rest) o b q n =
  split_rest_loop rest o (b ++ replicate k 92) q (k + n).
Proof.
  revert b n; induction k as [|k IH]; intros b n; simpl; [by rewrite app_nil_r|].
  rewrite IH, <- app_assoc. simpl. f_equal; lia.
Qed.

Lemma bare_quotes_none rest q b : no_quote rest -> bare_quotes rest q b = (O, q, b).
Proof. destruct rest as [|c rest]; simpl; [done|]. intros H. by zcases. Qed.

Lemma truncate_by_app n (b l : list Z) : length l = n -> truncate_by n (b ++ l) = Some b.
Proof.
  intros <-. unfold truncate_by. rewrite length_app.
  destruct (Nat.leb_spec (length l) (length b + length l)); [|lia].
  by rewrite Nat.add_sub, take_app_length.
Qed.

(** An escaped quote: [2k + 1] backslashes and a quote are [k] backslashes and a literal quote. *)
Lemma loop_escaped k rest o b q :
  split_rest_loop (replicate (S k) 92 ++ 34 :: rest) o (b ++ replicate k 92) q k =
  let '(n, q, b) := bare_quotes rest q (b ++ replicate k 92 ++ [34]) in
  split_rest_loop (drop n rest) o b (if (q =? 2)%nat then O else q) O.
Proof.
  rewrite loop_backslashes. cbn [split_rest_loop]. simpl (is_blank 34 && _). cbv iota.
  simpl (34 =? 92). simpl (34 =? 34). cbv iota.
  replace (S k + k)%nat with (1 + 2 * k)%nat by lia.
  rewrite Nat.even_add_mul_2, (Nat.mul_comm 2 k), Nat.div_add by lia. simpl (Nat.even 1). simpl (1 / 2)%nat. cbv iota.
  rewrite truncate_by_app by (rewrite length_replicate; lia).
  simpl. rewrite <- app_assoc. destruct (bare_quotes _ _ _) as [[n q'] b']. by rewrite adv_drop.
Qed.

(** A bare quote after [2k] backslashes: [k] backslashes, and the quote is counted. *)
Lemma loop_bare k rest o b q :
  split_rest_loop (replicate k 92 ++ 34 :: rest) o (b ++ replicate k 92) q k =
  let '(n, q, b) := bare_quotes rest (S q) (b ++ replicate k 92) in
  split_rest_loop (drop n rest) o b (if (q =? 2)%nat then O else q) O.
Proof.
  rewrite loop_backslashes. cbn [split_rest_loop]. simpl (is_blank 34 && _). cbv iota.
  simpl (34 =? 92). simpl (34 =? 34). cbv iota.
  replace (k + k)%nat with (0 + 2 * k)%nat by lia.
  rewrite Nat.even_add_mul_2, (Nat.mul_comm 2 k), Nat.div_add by lia. simpl (Nat.even 0). simpl (0 / 2)%nat. cbv iota.
  rewrite truncate_by_app by (rewrite length_replicate; lia).
  simpl. destruct (bare_quotes _ _ _) as [[n q'] b']. by rewrite adv_drop.
Qed.

Lemma escaped_app k (u rest : list Z) :
  (replicate (S k) 92 ++ 34 :: u) ++ rest = replicate (S k) 92 ++ 34 :: u ++ rest.
Proof. by rewrite <- app_assoc. Qed.

Lemma body_no_quote arg rest : arg <> [] -> no_quote (body O arg ++ rest).
Proof. destruct arg as [|x t]; [done|]. intros _. simpl. by zcases. Qed.

(** An unquoted argument is read back, up to a following unit that is not a quote. *)
Lemma loop_unquoted arg rest o b k :
  existsb is_blank arg = false -> no_quote rest ->
  split_rest_loop (body k arg ++ rest) o (b ++ replicate k 92) O k =
  split_rest_loop rest o (b ++ replicate k 92 ++ arg) O (run k arg).
Proof.
  intros Ha Hr; revert b k Ha; induction arg as [|x t IH]; intros b k Ha.
  { simpl. by rewrite app_nil_r. }
  simpl in Ha. apply orb_false_iff in Ha as [Hx Ha]. cbn [body run].
  destruct (Z.eqb_spec x 92) as [->|H92].
  { simpl. rewrite <- app_assoc, <- replicate_S_end. rewrite (IH b (S k) Ha).
    rewrite replicate_S_end. by rewrite <- !app_assoc. }
  destruct (Z.eqb_spec x 34) as [->|H34].
  - rewrite escaped_app, loop_escaped, bare_quotes_none.
    + simpl. rewrite drop_0. specialize (IH (b ++ replicate k 92 ++ [34]) O Ha).
      simpl in IH. rewrite app_nil_r in IH. rewrite IH. by rewrite <- !app_assoc.
    + destruct t; [done|]. by apply body_no_quote.
  - simpl. rewrite Hx. simpl. zcases; try done. specialize (IH (b ++ replicate k 92 ++ [x]) O Ha).
    simpl in IH. rewrite app_nil_r in IH. by rewrite <- !app_assoc, IH, <- !app_assoc.
Qed.

(** A quoted argument is read back from inside its quotes, the closing one included. *)
Lemma loop_quoted arg rest o b k :
  no_quote rest ->
  split_rest_loop (body k arg ++ replicate (run k arg) 92 ++ 34 :: rest) o (b ++ replicate k 92) 1 k =
  split_rest_loop rest o (b ++ replicate k 92 ++ arg) O O.
Proof.
  intros Hr; revert b k; induction arg as [|x t IH]; intros b k.
  { simpl. rewrite loop_bare, bare_quotes_none by done. simpl. by rewrite drop_0, app_nil_r. }
  cbn [body run]. destruct (Z.eqb_spec x 92) as [->|H92].
  { simpl. rewrite <- app_assoc, <- replicate_S_end. rewrite (IH b (S k)).
    rewrite replicate_S_end. by rewrite <- !app_assoc. }
  specialize (IH (b ++ replicate k 92 ++ [x]) O). simpl in IH. rewrite app_nil_r in IH.
  destruct (Z.eqb_spec x 34) as [->|H34].
  - rewrite escaped_app, loop_escaped.
    destruct t as [|y t].
    + simpl. rewrite bare_quotes_none by done. simpl. by rewrite drop_0.
    + rewrite bare_quotes_none by by apply body_no_quote. simpl (1 =? 2)%nat. cbv iota.
      rewrite drop_0, IH. by rewrite <- !app_assoc.
  - simpl. rewrite andb_false_r. zcases; try done. by rewrite <- !app_assoc, IH, <- !app_assoc.
Qed.

Lemma loop_encode arg rest o :
  no_quote rest ->
  exists n, split_rest_loop (encode arg ++ rest) o [] O O = split_rest_loop rest o arg O n.
Proof.
  intros Hr. unfold encode. destruct (needs_quotes arg) eqn:Hq.
  - exists O. simpl app. rewrite <- !app_assoc. simpl.
    pose proof (loop_bare 0 (body 0 arg ++ replicate (run 0 arg) 92 ++ 34 :: rest) o [] 0) as Hb.
    simpl in Hb. rewrite Hb. clear Hb.
    destruct arg as [|x t].
    + simpl. rewrite bare_quotes_none by done. simpl. by rewrite drop_0.
    + rewrite bare_quotes_none by by apply body_no_quote. simpl (1 =? 2)%nat. cbv iota.
      rewrite drop_0. exact (loop_quoted (x :: t) rest o [] 0 Hr).
  - exists (run O arg). apply (loop_unquoted arg rest o [] 0); [|done].
    destruct arg; [done|exact Hq].
Qed.

Lemma encode_head arg : exists c t, encode arg = c :: t /\ is_blank c = false.
Proof.
  unfold encode. destruct (needs_quotes arg) eqn:Hq; [eauto|].
  destruct arg as [|x t]; [done|]. simpl in Hq. apply orb_false_iff in Hq as [Hx _].
  simpl. zcases; eauto.
Qed.

Lemma span_encode a rest : span is_blank (encode a ++ rest) = ([], encode a ++ rest).
Proof. destruct (encode_head a) as (c & t & -> & Hc). simpl. by rewrite Hc. Qed.

Lemma no_quote_join args : no_quote (join_wide_from 1 [] args).
Proof. destruct args; [done|]. by rewrite join_tail. Qed.

Lemma loop_join args o b n :
  split_rest_loop (join_wide_from 1 [] args) o b O n = Some (o ++ b :: args).
Proof.
  revert o b n; induction args as [|a args IH]; intros o b n; [done|].
  rewrite join_tail. cbn [split_rest_loop]. simpl (is_blank 32 && _). cbv iota.
  rewrite !adv_drop, span_encode. simpl length. rewrite drop_0.
  destruct (loop_encode a _ (o ++ [b]) (no_quote_join args)) as [m Hm].
  rewrite Hm, IH, <- app_assoc. by destruct (encode_head a) as (c & t & -> & _).
Qed.

Lemma split_rest_join args : split_rest_wide (join_wide args) = Some args.
Proof.
  destruct args as [|a args]; [done|]. rewrite join_wide_cons.
  unfold split_rest_wide, skip_blanks. rewrite span_encode. simpl.
  destruct (loop_encode a _ [] (no_quote_join args)) as [m Hm]. rewrite loop_join in Hm.
  destruct (encode_head a) as (c & t & E & _). by rewrite E in *.
Qed.

(** * No panic *)

Lemma bare_quotes_length rest q b : (length b <= length (bare_quotes rest q b).2)%nat.
Proof.
  revert q b; induction rest as [|c rest IH]; intros q b; simpl; [done|].
  destruct (c =? 34); [|done].
  destruct (q =? 2)%nat.
  - specialize (IH O (b ++ [34])). destruct (bare_quotes rest O _) as [[n q'] b'].
    rewrite length_app in IH. simpl in *. lia.
  - specialize (IH (S q) b). by destruct (bare_quotes rest (S q) b) as [[n q'] b'].
Qed.

Lemma loop_total rest o b q n :
  (n <= length b)%nat -> exists r, split_rest_loop rest o b q n = Some r.
Proof.
  remember (length rest) as k eqn:Hk. revert rest o b q n Hk.
  induction k as [k IH] using lt_wf_ind; intros rest o b q n -> Hn.
  destruct rest as [|c tl]; [eauto|]. cbn [split_rest_loop]. rewrite adv_drop.
  assert (forall m, length (drop m tl) < length (c :: tl))%nat as Hlt.
  { intros m. rewrite length_drop. simpl; lia. }
  destruct (is_blank c && _).
  { destruct (drop _ tl) as [|d u] eqn:E; [eauto|]. rewrite <- E. eapply IH; [apply Hlt|done|simpl; lia]. }
  destruct (c =? 92).
  { eapply (IH (length tl)); [simpl; lia|done|]. rewrite length_app; simpl; lia. }
  destruct (c =? 34).
  - pose proof (Nat.div_mod_eq n 2). pose proof (Nat.mod_upper_bound n 2).
    assert (exists b' q', (if Nat.even n then
        b' ← truncate_by (n / 2) b; Some (b', S q)
      else b' ← truncate_by (n / 2 + 1) b; Some (b' ++ [34], q)) = Some (b', q')) as (b' & q' & ->).
    { unfold truncate_by. destruct (Nat.even n) eqn:Hev.
      - destruct (Nat.leb_spec (n / 2) (length b)); [simpl; eauto|lia].
      - destruct (Nat.leb_spec (n / 2 + 1) (length b)); [simpl; eauto|].
        destruct n as [|[|n]]; [done|simpl in *; lia|lia]. }
    destruct (bare_quotes tl q' b') as [[m q''] b'']. rewrite adv_drop.
    eapply IH; [apply Hlt|done|lia].
  - eapply (IH (length tl)); [simpl; lia|done|lia].
Qed.

(** * Properties *)

(** C3: the arguments survive: whatever units they hold, [split_wide] of a quoted program name
    without a quote in it, a blank, and the line [join_wide] builds gives back that program and those
    arguments. *)
Theorem split_wide_join_wide (program : list Z) (args : list (list Z)) :
  free (fun u => u =? 34) program ->
  split_wide (34 :: program ++ 34 :: 32 :: join_wide args) = Some (Ok (program :: args)).
Proof.
  intros Hp. unfold split_wide, first_token_and_rest_wide, skip_blanks at 1.
  simpl. rewrite (span_app _ program); [|by eapply Forall_impl; [exact Hp|]; intros u ->|done].
  simpl. assert (skip_blanks (32 :: join_wide args) = join_wide args) as ->.
  { unfold skip_blanks. change (32 :: ?x) with ([32] ++ x). rewrite span_app; [done|by repeat constructor|].
    destruct args as [|a args]; [done|]. rewrite join_wide_cons. pose proof (span_encode a).
    by destruct (encode_head a) as (c & t & -> & Hc). }
  by rewrite split_rest_join.
Qed.

Lemma split_wide_join_wide_witness :
  split_wide (34 :: bs "C:\a b" ++ 34 :: 32 :: join_wide [bs "x y\"; []; bs "\"])
  = Some (Ok [bs "C:\a b"; bs "x y\"; []; bs "\"]).
Proof. apply split_wide_join_wide. by repeat constructor. Defined.

(** [split_wide] accepts every command line: no input makes a [truncate] underflow, and none is
    an error. *)
Theorem split_wide_total (cmd : list Z) : exists words, split_wide cmd = Some (Ok words).
Proof.
  unfold split_wide. destruct (first_token_and_rest_wide cmd) as [[first rest]|]; [|eauto].
  unfold split_rest_wide. destruct (skip_blanks rest) as [|c tl] eqn:E; [simpl; eauto|].
  destruct (loop_total (c :: tl) [] [] 0 0) as [r Hr]; [simpl; lia|]. rewrite Hr. simpl; eauto.
Qed.
