(* ===== verification/Utf.v ===== *)
(** The UTF-8 and UTF-16 operations of Rust's standard library that the modelled code calls:
    [char::encode_utf8], [str::from_utf8] and the characters of a [str], [str::encode_utf16] and
    [char::decode_utf16]. *)
From S2P Require Import Prelude.
Local Open Scope Z_scope.

(** A Unicode scalar value: a code point that is no surrogate. *)
Definition is_scalar (c : Z) : Prop := 0 <= c < 0xD800 \/ 0xE000 <= c < 0x110000.

(** * UTF-8 *)

Definition encode_utf8 (c : Z) : bytes :=
  if c <? 0x80 then [c]
  else if c <? 0x800 then [0xC0 + c / 64; 0x80 + c mod 64]
  else if c <? 0x10000 then [0xE0 + c / 4096; 0x80 + c / 64 mod 64; 0x80 + c mod 64]
  else [0xF0 + c / 262144; 0x80 + c / 4096 mod 64; 0x80 + c / 64 mod 64; 0x80 + c mod 64].

Definition within (lo hi b : Z) : bool := (lo <=? b) && (b <=? hi).

(** The first character of [b] and its length, or [None] if no valid sequence starts there. *)
Definition next_char (b : bytes) : option (Z * nat) :=
  match b with
  | b0 :: t =>
      if within 0 0x7F b0 then Some (b0, 1%nat)
      else match t with
      | b1 :: t =>
          if within 0xC2 0xDF b0 && within 0x80 0xBF b1
          then Some ((b0 - 0xC0) * 64 + (b1 - 0x80), 2%nat)
          else match t with
          | b2 :: t =>
              if (if b0 =? 0xE0 then within 0xA0 0xBF b1
                  else if b0 =? 0xED then within 0x80 0x9F b1
                  else within 0xE1 0xEF b0 && within 0x80 0xBF b1) && within 0x80 0xBF b2
              then Some ((b0 - 0xE0) * 4096 + (b1 - 0x80) * 64 + (b2 - 0x80), 3%nat)
              else match t with
              | b3 :: _ =>
                  if (if b0 =? 0xF0 then within 0x90 0xBF b1
                      else if b0 =? 0xF4 then within 0x80 0x8F b1
                      else within 0xF1 0xF3 b0 && within 0x80 0xBF b1)
                     && within 0x80 0xBF b2 && within 0x80 0xBF b3
                  then Some ((b0 - 0xF0) * 262144 + (b1 - 0x80) * 4096 + (b2 - 0x80) * 64 + (b3 - 0x80),
                             4%nat)
                  else None
              | [] => None
              end
          | [] => None
          end
      | [] => None
      end
  | [] => None
  end.

(** The characters of [b]; [Err] is [Utf8Error::valid_up_to]. [at_] is the offset of [b]. *)
Fixpoint chars_from (b : bytes) (at_ : nat) : result nat (list Z) :=
  match b with
  | [] => Ok []
  | _ :: tl =>
      match next_char b with
      | None => Err at_
      | Some (c, n) =>
          let? cs := chars_from (adv tl (n - 1)) (at_ + n) in Ok (c :: cs)
      end
  end.

Definition from_utf8 (b : bytes) : result nat (list Z) := chars_from b 0.

(** * UTF-16 *)

Definition encode_utf16 (c : Z) : list Z :=
  if c <? 0x10000 then [c]
  else [0xD800 + (c - 0x10000) / 1024; 0xDC00 + (c - 0x10000) mod 1024].

(** An item of [char::decode_utf16]: a character, or an unpaired surrogate. *)
Inductive Utf16 := Char (c : Z) | Unpaired (u : Z).

Definition is_surrogate_unit (u : Z) : bool := within 0xD800 0xDFFF u.

Fixpoint decode_utf16 (us : list Z) : list Utf16 :=
  match us with
  | [] => []
  | u :: t =>
      if negb (is_surrogate_unit u) then Char u :: decode_utf16 t
      else if 0xDC00 <=? u then Unpaired u :: decode_utf16 t
      else match t with
      | [] => [Unpaired u]
      | u2 :: t2 =>
          if within 0xDC00 0xDFFF u2
          then Char (0x10000 + (u - 0xD800) * 1024 + (u2 - 0xDC00)) :: decode_utf16 t2
          else Unpaired u :: decode_utf16 t
      end
  end.

Definition units_of (i : Utf16) : list Z :=
  match i with Char c => encode_utf16 c | Unpaired u => [u] end.

(** * Lemmas *)

Lemma bind_cons {A B} (f : A -> list B) x l : (x :: l) ≫= f = f x ++ (l ≫= f).
Proof. done. Qed.

#[local] Ltac Zify.zify_post_hook ::= Z.to_euclidean_division_equations.

Lemma within_true lo hi b : within lo hi b = true <-> lo <= b <= hi.
Proof. unfold within. by rewrite andb_true_iff, !Z.leb_le. Qed.

Lemma within_false lo hi b : within lo hi b = false <-> ~ (lo <= b <= hi).
Proof. rewrite <- within_true. by destruct (within lo hi b). Qed.

Lemma within_in lo hi b : lo <= b <= hi -> within lo hi b = true.
Proof. apply within_true. Qed.

Lemma within_out lo hi b : ~ (lo <= b <= hi) -> within lo hi b = false.
Proof. apply within_false. Qed.

Lemma next_char_encode c r :
  is_scalar c -> next_char (encode_utf8 c ++ r) = Some (c, length (encode_utf8 c)).
Proof.
  unfold is_scalar, encode_utf8. intros Hc.
  destruct (Z.ltb_spec c 0x80).
  { simpl. by rewrite within_in by lia. }
  destruct (Z.ltb_spec c 0x800).
  { simpl. rewrite (within_out 0), !within_in by lia. simpl. do 2 f_equal; lia. }
  destruct (Z.ltb_spec c 0x10000).
  { simpl. rewrite (within_out 0), (within_out 0xC2) by lia. simpl.
    destruct (Z.eqb_spec (0xE0 + c / 4096) 0xE0); [|destruct (Z.eqb_spec (0xE0 + c / 4096) 0xED)];
      rewrite !within_in by lia; simpl; do 2 f_equal; lia. }
  simpl. rewrite (within_out 0), (within_out 0xC2), (within_out 0xE1) by lia.
  destruct (Z.eqb_spec (0xF0 + c / 262144) 0xE0); [lia|].
  destruct (Z.eqb_spec (0xF0 + c / 262144) 0xED); [lia|]. simpl.
  destruct (Z.eqb_spec (0xF0 + c / 262144) 0xF0); [|destruct (Z.eqb_spec (0xF0 + c / 262144) 0xF4)];
    rewrite !within_in by lia; simpl; do 2 f_equal; lia.
Qed.

(** The valid sequences are the encodings of the scalar values. *)
Lemma next_char_Some b c n :
  next_char b = Some (c, n) ->
  is_scalar c /\ take n b = encode_utf8 c /\ n = length (encode_utf8 c).
Proof.
  unfold next_char, is_scalar, encode_utf8.
  destruct b as [|b0 t]; [done|].
  destruct (within 0 0x7F b0) eqn:E0; [apply within_true in E0|apply within_false in E0].
  { intros [= <- <-]. destruct (Z.ltb_spec b0 0x80); [|lia]. split; [lia|done]. }
  destruct t as [|b1 t]; [done|]. destruct (within 0xC2 0xDF b0 && within 0x80 0xBF b1) eqn:E1.
  { rewrite andb_true_iff, !within_true in E1. intros [= <- <-].
    destruct (Z.ltb_spec ((b0 - 0xC0) * 64 + (b1 - 0x80)) 0x80); [lia|].
    destruct (Z.ltb_spec ((b0 - 0xC0) * 64 + (b1 - 0x80)) 0x800); [|lia].
    split; [lia|]. split; [simpl; repeat f_equal; lia|done]. }
  destruct t as [|b2 t]; [done|].
  match goal with |- context [if ?x && within 0x80 0xBF b2 then _ else _] =>
    destruct (x && within 0x80 0xBF b2) eqn:E2 end.
  { assert (0xE0 <= b0 <= 0xEF /\ 0x80 <= b1 <= 0xBF /\ 0x80 <= b2 <= 0xBF /\
      (b0 = 0xE0 -> 0xA0 <= b1) /\ (b0 = 0xED -> b1 <= 0x9F)) as Hb.
    { revert E2. destruct (Z.eqb_spec b0 0xE0); [|destruct (Z.eqb_spec b0 0xED)];
        rewrite !andb_true_iff, !within_true; lia. }
    clear E1 E2. intros [= <- <-]. set (x := (b0 - 0xE0) * 4096 + (b1 - 0x80) * 64 + (b2 - 0x80)).
    destruct (Z.ltb_spec x 0x80); [lia|]. destruct (Z.ltb_spec x 0x800); [lia|].
    destruct (Z.ltb_spec x 0x10000); [|lia].
    split; [lia|]. split; [simpl; unfold x; repeat f_equal; lia|done]. }
  destruct t as [|b3 t]; [done|].
  match goal with |- context [if ?x && within 0x80 0xBF b2 && within 0x80 0xBF b3 then _ else _] =>
    destruct (x && within 0x80 0xBF b2 && within 0x80 0xBF b3) eqn:E3 end; [|done].
  assert (0xF0 <= b0 <= 0xF4 /\ 0x80 <= b1 <= 0xBF /\ 0x80 <= b2 <= 0xBF /\ 0x80 <= b3 <= 0xBF /\
    (b0 = 0xF0 -> 0x90 <= b1) /\ (b0 = 0xF4 -> b1 <= 0x8F)) as Hb.
  { revert E3. destruct (Z.eqb_spec b0 0xF0); [|destruct (Z.eqb_spec b0 0xF4)];
      rewrite !andb_true_iff, !within_true; lia. }
  clear E1 E2 E3. intros [= <- <-].
  set (x := (b0 - 0xF0) * 262144 + (b1 - 0x80) * 4096 + (b2 - 0x80) * 64 + (b3 - 0x80)).
  destruct (Z.ltb_spec x 0x80); [lia|]. destruct (Z.ltb_spec x 0x800); [lia|].
  destruct (Z.ltb_spec x 0x10000); [lia|].
  split; [lia|]. split; [simpl; unfold x; repeat f_equal; lia|done].
Qed.

Lemma encode_utf8_cons c : exists b t, encode_utf8 c = b :: t.
Proof. unfold encode_utf8. repeat case_match; eauto. Qed.

Lemma chars_from_step c r i :
  is_scalar c ->
  chars_from (encode_utf8 c ++ r) i =
  let? cs := chars_from r (i + length (encode_utf8 c)) in Ok (c :: cs).
Proof.
  intros Hc. pose proof (next_char_encode c r Hc) as Hn.
  destruct (encode_utf8_cons c) as (b & t & E). rewrite E in *. simpl app in *.
  cbn [chars_from]. rewrite Hn, adv_drop. simpl length.
  by rewrite Nat.sub_succ, Nat.sub_0_r, drop_app_length.
Qed.

Lemma from_utf8_encode_at cs i : Forall is_scalar cs -> chars_from (cs ≫= encode_utf8) i = Ok cs.
Proof.
  intros H; revert i; induction H as [|c cs Hc _ IH]; intros i; [done|]. simpl.
  by rewrite chars_from_step, IH.
Qed.

Lemma from_utf8_encode cs : Forall is_scalar cs -> from_utf8 (cs ≫= encode_utf8) = Ok cs.
Proof. apply from_utf8_encode_at. Qed.

Lemma chars_from_cons b tl c n :
  next_char (b :: tl) = Some (c, n) ->
  is_scalar c /\ b :: tl = encode_utf8 c ++ drop (n - 1) tl /\ (1 <= n)%nat.
Proof.
  intros H. destruct (next_char_Some _ _ _ H) as (Hc & Ht & Hn). split; [done|].
  destruct (encode_utf8_cons c) as (x & t & E). rewrite E in Hn; simpl in Hn. subst n.
  split; [|lia]. rewrite <- Ht. simpl. by rewrite Nat.sub_0_r, take_drop.
Qed.

Lemma drop_lt (b : Z) tl m : (length (drop m tl) < length (b :: tl))%nat.
Proof. rewrite length_drop. simpl; lia. Qed.

Lemma chars_from_Ok b i cs :
  chars_from b i = Ok cs -> Forall is_scalar cs /\ b = cs ≫= encode_utf8.
Proof.
  remember (length b) as k eqn:Hk. revert b i cs Hk.
  induction k as [k IH] using lt_wf_ind; intros [|b tl] i cs ->; [by intros [= <-]|].
  cbn [chars_from]. destruct (next_char (b :: tl)) as [[c n]|] eqn:E; [|done].
  apply chars_from_cons in E as (Hc & E & Hn). rewrite adv_drop.
  destruct (chars_from (drop (n - 1) tl) (i + n)) as [cs'|] eqn:E'; [|done]. intros [= <-].
  destruct (IH _ (drop_lt b tl (n - 1)) _ _ _ eq_refl E') as [Hcs Er].
  split; [by constructor|]. rewrite E, Er. done.
Qed.

Lemma from_utf8_Ok b cs : from_utf8 b = Ok cs <-> Forall is_scalar cs /\ b = cs ≫= encode_utf8.
Proof. split; [apply chars_from_Ok|]. intros [H ->]. by apply from_utf8_encode. Qed.

(** [valid_up_to] is the length of the longest valid prefix: no character starts after it. *)
Lemma chars_from_Err b i p :
  chars_from b i = Err p ->
  exists cs r, Forall is_scalar cs /\ b = (cs ≫= encode_utf8) ++ r /\
    p = (i + length (cs ≫= encode_utf8))%nat /\ r <> [] /\ next_char r = None.
Proof.
  remember (length b) as k eqn:Hk. revert b i Hk.
  induction k as [k IH] using lt_wf_ind; intros [|b tl] i ->; [done|].
  cbn [chars_from]. destruct (next_char (b :: tl)) as [[c n]|] eqn:E.
  - pose proof (next_char_Some _ _ _ E) as (_ & _ & Hn).
    apply chars_from_cons in E as (Hc & E & Hn'). rewrite adv_drop.
    destruct (chars_from (drop (n - 1) tl) (i + n)) as [cs'|p'] eqn:E'; [done|]. intros [= <-].
    destruct (IH _ (drop_lt b tl (n - 1)) _ _ eq_refl E')
      as (cs & r & Hcs & Er & -> & Hr).
    exists (c :: cs), r. split_and!; [by constructor| |rewrite bind_cons, length_app; lia|apply Hr..].
    rewrite E, Er. simpl. by rewrite <- app_assoc.
  - intros [= <-]. exists [], (b :: tl). split_and!; [constructor|done|simpl; lia|done|done].
Qed.

(** * UTF-16 *)

Definition wf_item (i : Utf16) : Prop :=
  match i with Char c => is_scalar c | Unpaired u => 0xD800 <= u <= 0xDFFF end.

Lemma decode_utf16_spec us :
  Forall is_u16 us ->
  decode_utf16 us ≫= units_of = us /\ Forall wf_item (decode_utf16 us).
Proof.
  remember (length us) as k eqn:Hk. revert us Hk.
  induction k as [k IH] using lt_wf_ind; intros [|u t] -> Hu; [by repeat constructor|].
  apply Forall_cons in Hu as [Hu Ht]. unfold is_u16 in Hu.
  destruct (IH (length t) ltac:(simpl; lia) t eq_refl Ht) as [IH1 IH2].
  cbn [decode_utf16]. unfold is_surrogate_unit.
  destruct (within 0xD800 0xDFFF u) eqn:E; cbn [negb]; rewrite ?bind_cons.
  - apply within_true in E. destruct (Z.leb_spec 0xDC00 u).
    { rewrite bind_cons, IH1. split; [done|]. constructor; [simpl; lia|done]. }
    destruct t as [|u2 t2]; [split; [done|repeat constructor; lia]|].
    destruct (within 0xDC00 0xDFFF u2) eqn:E2; rewrite bind_cons.
    + apply within_true in E2. apply Forall_cons in Ht as [_ Ht].
      destruct (IH (length t2) ltac:(simpl; lia) t2 eq_refl Ht) as [IH3 IH4]. rewrite IH3.
      split; [|constructor; [simpl; unfold is_scalar; lia|done]].
      cbn [units_of]. unfold encode_utf16.
      destruct (Z.ltb_spec (0x10000 + (u - 0xD800) * 1024 + (u2 - 0xDC00)) 0x10000); [lia|].
      simpl. f_equal; [lia|f_equal; lia].
    + rewrite IH1. split; [done|]. constructor; [simpl; lia|done].
  - apply within_false in E. rewrite IH1. cbn [units_of]. unfold encode_utf16.
    destruct (Z.ltb_spec u 0x10000); [|lia]. split; [done|]. constructor; [simpl; unfold is_scalar; lia|done].
Qed.
