(* ===== verification/Numbers.v ===== *)
(** The numbers and text operations of Rust's standard library that the modelled code calls:
    [Display] and [FromStr] of the integers, and [char::is_whitespace], [str::split_whitespace],
    [str::trim] and [str::lines] over the characters of a [str]. *)
From S2P Require Import Prelude Utf.
Local Open Scope Z_scope.

(** * Integers *)

Definition u32_max : Z := 2 ^ 32 - 1.

Definition u64_max : Z := 2 ^ 64 - 1.

(** [to_le_bytes] of an integer of [n] bytes, and back. *)
Fixpoint le_bytes (n : nat) (v : Z) : list Z :=
  match n with O => [] | S n => v mod 256 :: le_bytes n (v / 256) end.

Definition from_le (b : list Z) : Z := foldr (fun x acc => x + 256 * acc) 0 b.

(** [i32::from_le_bytes]; [to_le_bytes] of a negative integer is that of its two's complement. *)
Definition i32_from_le (b : list Z) : Z := let v := from_le b in if v <=? 2 ^ 31 - 1 then v else v - 2 ^ 32.


(** [Display] of an unsigned integer of at most 64 bits. *)
Fixpoint show_digits (fuel : nat) (n : Z) : bytes :=
  match fuel with
  | O => []
  | S f => if n <? 10 then [48 + n] else show_digits f (n / 10) ++ [48 + n mod 10]
  end.

Definition show (n : Z) : bytes := show_digits 20 n.

Definition is_ascii_digit (b : Z) : bool := (48 <=? b) && (b <=? 57).

(** [str::parse] of digits, before the range check. *)
Definition digits_value (a : bytes) : Z := foldl (fun v b => 10 * v + (b - 48)) 0 a.

(** The digits of an unsigned [FromStr], before the range check. *)
Definition parse_digits (max : Z) (s : list Z) : option Z :=
  if forallb is_ascii_digit s && (digits_value s <=? max) then Some (digits_value s) else None.

(** [str::parse] for the unsigned type whose largest value is [max]. *)
Definition parse_unsigned (max : Z) (s : list Z) : option Z :=
  match s with
  | [] => None
  | c :: rest =>
      if ((c =? 43) || (c =? 45)) && bool_decide (rest = []) then None
      else if c =? 43 then parse_digits max rest
      else parse_digits max s
  end.

(** [str::parse::<i64>]. *)
Definition parse_i64 (s : list Z) : option Z :=
  match s with
  | [] => None
  | c :: rest =>
      if ((c =? 43) || (c =? 45)) && bool_decide (rest = []) then None
      else if c =? 43 then parse_digits (2 ^ 63 - 1) rest
      else if c =? 45 then Z.opp <$> parse_digits (2 ^ 63) rest
      else parse_digits (2 ^ 63 - 1) s
  end.

(** * Text *)

(** The [White_Space] code points. *)
Definition is_whitespace (c : Z) : bool :=
  within 9 13 c || (c =? 32) || (c =? 0x85) || (c =? 0xA0) || (c =? 0x1680) || within 0x2000 0x200A c ||
  (c =? 0x2028) || (c =? 0x2029) || (c =? 0x202F) || (c =? 0x205F) || (c =? 0x3000).

Definition split_whitespace (s : list Z) : list (list Z) :=
  filter (fun w => w <> []) (split_on is_whitespace s).

Definition trim_start (s : list Z) : list Z := (span is_whitespace s).2.

Definition trim (s : list Z) : list Z := reverse (trim_start (reverse (trim_start s))).

(** A line that a line feed ended, without its carriage return. *)
Definition strip_cr (l : list Z) : list Z :=
  match last l with Some 13 => removelast l | _ => l end.

Definition lines (s : list Z) : list (list Z) :=
  let pieces := split_on (fun c => c =? 10) s in
  (strip_cr <$> removelast pieces) ++
  match last pieces with Some [] | None => [] | Some l => [l] end.

(** * Lemmas *)

#[local] Ltac Zify.zify_post_hook ::= Z.to_euclidean_division_equations.

Lemma digits_value_snoc a d : digits_value (a ++ [d]) = 10 * digits_value a + (d - 48).
Proof. unfold digits_value. by rewrite foldl_app. Qed.

Lemma digits_value_one d : digits_value [d] = d - 48.
Proof. unfold digits_value. cbn [foldl]. lia. Qed.

(** A number with one encoding: digits, no leading zero. *)
Definition canonical_digits (a : bytes) : Prop :=
  a <> [] /\ Forall (fun b => 48 <= b <= 57) a /\ ((1 < length a)%nat -> head a <> Some 48).

Lemma is_ascii_digit_true b : is_ascii_digit b = true <-> 48 <= b <= 57.
Proof. unfold is_ascii_digit. rewrite andb_true_iff, !Z.leb_le. done. Qed.

Lemma digits_bounds a :
  canonical_digits a -> (1 < length a)%nat -> 10 ^ (Z.of_nat (length a) - 1) <= digits_value a.
Proof.
  induction a as [|d a IH] using rev_ind; intros (Hne & Hd & Hz) Hl; [done|].
  apply Forall_app in Hd as [Hd Hd1]. apply Forall_cons in Hd1 as [Hd1 _].
  rewrite digits_value_snoc, length_app in *. simpl length in *.
  destruct a as [|d0 a]; [simpl in Hl; lia|].
  assert (d0 <> 48) as H0 by (intros ->; by apply Hz).
  apply Forall_cons in Hd as Hd'. destruct Hd' as [Hd0 _].
  destruct (decide (length (d0 :: a) = 1%nat)) as [E|E].
  - destruct a; [|done]. simpl. unfold digits_value. simpl. lia.
  - assert (10 ^ (Z.of_nat (length (d0 :: a)) - 1) <= digits_value (d0 :: a)) as Hi.
    { apply IH; [|simpl in *; lia]. split_and!; [done|done|]. intros _ [= ->]. lia. }
    replace (Z.of_nat (length (d0 :: a) + 1) - 1) with (Z.succ (Z.of_nat (length (d0 :: a)) - 1)) by lia.
    rewrite Z.pow_succ_r by (simpl; lia). lia.
Qed.

Lemma show_digits_spec fuel n :
  0 <= n < 10 ^ Z.of_nat fuel -> (0 < fuel)%nat ->
  canonical_digits (show_digits fuel n) /\ digits_value (show_digits fuel n) = n.
Proof.
  revert n; induction fuel as [|fuel IH]; intros n Hn Hf; [lia|]. cbn [show_digits].
  destruct (Z.ltb_spec n 10).
  - unfold canonical_digits, digits_value. simpl. split; [|lia].
    split_and!; [done| |lia]. constructor; [lia|constructor].
  - rewrite Nat2Z.inj_succ, Z.pow_succ_r in Hn by lia.
    assert (fuel <> O) by (intros ->; simpl in Hn; lia).
    destruct (IH (n / 10)) as [(Hne & Hd & Hz) Hv]; [lia|lia|].
    rewrite digits_value_snoc, Hv. split; [|lia]. split_and!.
    + intros E. by apply app_eq_nil in E as [_ E].
    + apply Forall_app. split; [done|]. constructor; [lia|constructor].
    + intros _ E. destruct (show_digits fuel (n / 10)) as [|d [|d' a]] eqn:Es; [done| |].
      * injection E as ->. unfold digits_value in Hv. simpl in Hv. lia.
      * injection E as ->. apply Hz; [simpl; lia|done].
Qed.

Lemma show_digits_value fuel a :
  canonical_digits a -> (length a <= fuel)%nat -> show_digits fuel (digits_value a) = a.
Proof.
  revert fuel; induction a as [|d a IH] using rev_ind; intros fuel (Hne & Hd & Hz) Hl; [done|].
  rewrite length_app in Hl. simpl in Hl. destruct fuel as [|fuel]; [lia|]. cbn [show_digits].
  apply Forall_app in Hd as Hd'. destruct Hd' as [Hd0 Hd1]. apply Forall_cons in Hd1 as [Hd1 _].
  destruct a as [|d0 a].
  - rewrite app_nil_l, digits_value_one. destruct (Z.ltb_spec (d - 48) 10); [|lia]. by rewrite Zplus_minus.
  - assert (canonical_digits (d0 :: a)) as Hc.
    { split_and!; [done|done|]. intros _ [= ->]. apply Hz; [|done]. rewrite length_app. simpl. lia. }
    assert (1 <= digits_value (d0 :: a)) as Hpos.
    { destruct (decide (length (d0 :: a) = 1%nat)) as [E|E].
      - destruct a; [|done]. unfold digits_value. simpl.
        assert (d0 <> 48) by (intros ->; apply Hz; [simpl; lia|done]). apply Forall_cons in Hd0 as [? _]. lia.
      - pose proof (digits_bounds _ Hc) as Hb. simpl length in Hb, E.
        specialize (Hb ltac:(lia)). assert (0 < 10 ^ (Z.of_nat (S (length a)) - 1)) by (apply Z.pow_pos_nonneg; lia). lia. }
    rewrite digits_value_snoc. destruct (Z.ltb_spec (10 * digits_value (d0 :: a) + (d - 48)) 10); [lia|].
    replace ((10 * digits_value (d0 :: a) + (d - 48)) / 10) with (digits_value (d0 :: a)) by lia.
    rewrite IH by (done || lia). f_equal. f_equal. lia.
Qed.

Lemma canonical_length a : canonical_digits a -> digits_value a <= u64_max -> (length a <= 20)%nat.
Proof.
  intros Hc Hv. destruct (decide (length a <= 20)%nat) as [|Hl]; [done|]. exfalso.
  pose proof (digits_bounds a Hc ltac:(lia)) as Hb.
  assert (10 ^ 20 <= 10 ^ (Z.of_nat (length a) - 1)) by (apply Z.pow_le_mono_r; lia).
  unfold u64_max in Hv. lia.
Qed.

Lemma show_clean n : 0 <= n <= u64_max -> Forall (fun b => 48 <= b <= 57) (show n).
Proof.
  intros Hn. destruct (show_digits_spec 20 n) as [(_ & Hd & _) _]; [unfold u64_max in Hn; simpl; lia|lia|done].
Qed.

Lemma is_ascii_digit_show n : 0 <= n <= u64_max -> forallb is_ascii_digit (show n) = true.
Proof.
  intros Hn. apply forallb_forall. intros b Hb. apply is_ascii_digit_true.
  pose proof (show_clean n Hn) as H. rewrite Forall_forall in H. apply H. by apply list_elem_of_In.
Qed.

Lemma parse_unsigned_show max n : 0 <= n <= max -> max <= u64_max -> parse_unsigned max (show n) = Some n.
Proof.
  intros Hn Hm. destruct (show_digits_spec 20 n) as [(Hne & Hd & _) Hv]; [unfold u64_max in Hm; simpl; lia|lia|].
  assert (parse_digits max (show n) = Some n) as Hp.
  { unfold parse_digits. rewrite is_ascii_digit_show by lia. unfold show. rewrite Hv.
    destruct (Z.leb_spec n max); [done|lia]. }
  unfold show in *. destruct (show_digits 20 n) as [|d a]; [done|]. apply Forall_cons in Hd as [Hd _].
  unfold parse_unsigned. destruct (Z.eqb_spec d 43), (Z.eqb_spec d 45); try lia. done.
Qed.

(** What [split_whitespace] gives back: words, and nothing between them but whitespace. *)
Definition is_word (w : list Z) : Prop := w <> [] /\ free is_whitespace w.

Lemma filter_words (ws : list (list Z)) : Forall is_word ws -> filter (fun w => w <> []) ws = ws.
Proof. induction 1 as [|w ws [Hw _] _ IH]; [done|]. by rewrite filter_cons_True, IH. Qed.

Lemma split_whitespace_words sep ws :
  is_whitespace sep = true -> Forall is_word ws -> split_whitespace (intercalate sep ws) = ws.
Proof.
  intros Hs Hw. unfold split_whitespace. destruct ws as [|w ws]; [done|].
  rewrite split_on_intercalate; [by apply filter_words|done|done|].
  eapply Forall_impl; [exact Hw|]. by intros x [_ ?].
Qed.

Lemma split_whitespace_cons sep s :
  is_whitespace sep = true -> split_whitespace (sep :: s) = split_whitespace s.
Proof. intros Hs. unfold split_whitespace. cbn [split_on]. rewrite Hs. by rewrite filter_cons_False by tauto. Qed.

Lemma split_whitespace_snoc sep s :
  is_whitespace sep = true -> split_whitespace (s ++ [sep]) = split_whitespace s.
Proof.
  intros Hs. unfold split_whitespace. induction s as [|c s IH]; simpl app; cbn [split_on].
  - by rewrite Hs.
  - destruct (is_whitespace c); [by rewrite !filter_cons_False, IH by tauto|].
    pose proof (split_on_ne is_whitespace s) as Hne.
    destruct (split_on is_whitespace s) as [|w ws] eqn:E; [done|].
    assert (split_on is_whitespace (s ++ [sep]) = (w :: ws) ++ [[]]) as ->.
    { clear IH Hne. revert w ws E. induction s as [|d s IH]; intros w ws E; cbn [split_on app] in *.
      - injection E as <- <-. by rewrite Hs.
      - destruct (is_whitespace d).
        + destruct (split_on is_whitespace s) as [|w' ws'] eqn:E'; [by apply split_on_ne in E'|].
          injection E as <- <-. by rewrite (IH _ _ eq_refl).
        + destruct (split_on is_whitespace s) as [|w' ws'] eqn:E'; [by apply split_on_ne in E'|].
          injection E as <- <-. by rewrite (IH _ _ eq_refl). }
    rewrite filter_cons_True by done. cbn [app]. rewrite !filter_cons_True by done. f_equal.
    rewrite filter_app. rewrite (filter_cons_False _ []) by tauto. by rewrite app_nil_r.
Qed.

Lemma show_word n : 0 <= n <= u64_max -> is_word (show n).
Proof.
  intros Hn. pose proof (show_clean n Hn) as Hc. split.
  - destruct (show_digits_spec 20 n) as [(? & _) _]; [unfold u64_max in Hn; simpl; lia|lia|done].
  - eapply Forall_impl; [exact Hc|]. intros b Hb. cbn in Hb. unfold is_whitespace, within. lia.
Qed.

(** ASCII text is its bytes. *)
Lemma from_utf8_ascii s : Forall (fun b => 0 <= b < 128) s -> from_utf8 s = Ok s.
Proof.
  intros H. apply from_utf8_Ok. split.
  - eapply Forall_impl; [exact H|]. intros b Hb. cbn in Hb. unfold is_scalar. lia.
  - induction H as [|b s Hb _ IH]; [done|]. rewrite bind_cons, <- IH. unfold encode_utf8.
    destruct (Z.ltb_spec b 0x80); [done|lia].
Qed.

Lemma length_le_bytes n v : length (le_bytes n v) = n.
Proof. revert v. induction n as [|n IH]; intros v; [done|]. cbn. by rewrite IH. Qed.

Lemma from_le_bytes n v : 0 <= v < 2 ^ (8 * Z.of_nat n) -> from_le (le_bytes n v) = v.
Proof.
  revert v. induction n as [|n IH]; intros v Hv; [cbn in *; lia|]. cbn [le_bytes from_le foldr].
  replace (8 * Z.of_nat (S n)) with (8 + 8 * Z.of_nat n) in Hv by lia. rewrite Z.pow_add_r in Hv by lia.
  change (foldr _ 0 (le_bytes n (v / 256))) with (from_le (le_bytes n (v / 256))).
  rewrite IH; [|split; [apply Z.div_pos; lia|apply Z.div_lt_upper_bound; lia]]. pose proof (Z.div_mod v 256). lia.
Qed.

(** The bytes of an integer and of its two's complement are the same. *)
Lemma le_bytes_mod n v : le_bytes n (v mod 2 ^ (8 * Z.of_nat n)) = le_bytes n v.
Proof.
  revert v. induction n as [|n IH]; intros v; [done|]. cbn [le_bytes].
  replace (8 * Z.of_nat (S n)) with (8 + 8 * Z.of_nat n) by lia. rewrite Z.pow_add_r by lia.
  change (2 ^ 8) with 256. assert (0 < 2 ^ (8 * Z.of_nat n)) by (apply Z.pow_pos_nonneg; lia).
  rewrite Z.rem_mul_r by lia. f_equal.
  - rewrite Z.add_mod, Z.mul_comm, Z.mod_mul, Z.add_0_r, !Z.mod_mod by lia. done.
  - rewrite <- (IH (v / 256)). f_equal.
    rewrite Z.mul_comm, Z.div_add by lia. rewrite Z.mod_div by lia. lia.
Qed.

Lemma i32_from_le_bytes v : - 2 ^ 31 <= v < 2 ^ 31 -> i32_from_le (le_bytes 4 v) = v.
Proof.
  intros Hv. unfold i32_from_le. rewrite <- le_bytes_mod, from_le_bytes by (apply Z.mod_pos_bound; lia).
  change (2 ^ (8 * Z.of_nat 4)) with (2 ^ 32). destruct (Z.leb_spec (v mod 2 ^ 32) (2 ^ 31 - 1)) as [H|H].
  - destruct (Z.leb_spec 0 v); [by rewrite Z.mod_small by lia|].
    replace v with (v + 2 ^ 32 + (-1) * 2 ^ 32) in H by lia. rewrite Z.mod_add, Z.mod_small in H by lia. lia.
  - destruct (Z.leb_spec 0 v); [rewrite Z.mod_small in H by lia; lia|].
    replace v with (v + 2 ^ 32 + (-1) * 2 ^ 32) at 1 by lia. rewrite Z.mod_add, Z.mod_small by lia. lia.
Qed.
