(* ===== verification/AppleScript.v ===== *)
(** AppleScript string literals, [src/quote/applescript.rs]: [escape_literal] over UTF-8 text, and
    the reader of a literal's body that it is checked against. *)
From S2P Require Import Prelude Errors Utf.
Local Open Scope Z_scope.

(** What one character pushes on [out]; [None] is the refused NUL. *)
Definition escape_char (c : Z) : option bytes :=
  if c =? 92 then Some [92; 92]
  else if c =? 34 then Some [92; 34]
  else if c =? 10 then Some [92; 110]
  else if c =? 13 then Some [92; 114]
  else if c =? 9 then Some [92; 116]
  else if c =? 0 then None
  else Some (encode_utf8 c).

(** The loop over [char_indices]; [at_] is the byte offset of the next character. *)
Fixpoint escape_chars (cs : list Z) (at_ : nat) (out : bytes) : result QuoteError bytes :=
  match cs with
  | [] => Ok out
  | c :: rest =>
      match escape_char c with
      | None => Err {| pos := at_; kind := UnrepresentableChar |}
      | Some e => escape_chars rest (at_ + length (encode_utf8 c)) (out ++ e)
      end
  end.

Definition escape_literal (b : bytes) : result QuoteError bytes :=
  match from_utf8 b with
  | Err valid_up_to => Err {| pos := valid_up_to; kind := NonUtf8 |}
  | Ok cs => escape_chars cs 0 []
  end.

(** * Reading a literal

    The body of a double-quoted literal, by the grammar of Apple TN2065: a backslash escapes a
    quote, a backslash or the letters [n], [r] and [t]; a bare quote would end the literal and a
    bare line end the statement. *)

Definition unescape_byte (e : Z) : option Z :=
  if e =? 92 then Some 92
  else if e =? 34 then Some 34
  else if e =? 110 then Some 10
  else if e =? 114 then Some 13
  else if e =? 116 then Some 9
  else None.

Fixpoint unescape (body : bytes) : option bytes :=
  match body with
  | [] => Some []
  | b :: t =>
      if b =? 92 then
        match t with
        | e :: t' => v ← unescape_byte e; r ← unescape t'; Some (v :: r)
        | [] => None
        end
      else if (b =? 34) || (b =? 10) || (b =? 13) then None
      else r ← unescape t; Some (b :: r)
  end.

(** * Lemmas *)

#[local] Ltac Zify.zify_post_hook ::= Z.to_euclidean_division_equations.

Lemma encode_high c : 0x80 <= c -> Forall (fun b => 0x80 <= b) (encode_utf8 c).
Proof.
  intros H. unfold encode_utf8. destruct (Z.ltb_spec c 0x80); [lia|].
  repeat case_match; repeat constructor; lia.
Qed.

Lemma unescape_high h r v :
  Forall (fun b => 0x80 <= b) h -> unescape r = Some v -> unescape (h ++ r) = Some (h ++ v).
Proof.
  intros Hh Hr. induction Hh as [|b h Hb _ IH]; [done|]. simpl. rewrite IH. by zcases; try lia.
Qed.

Lemma unescape_char c e r v :
  is_scalar c -> escape_char c = Some e -> unescape r = Some v ->
  unescape (e ++ r) = Some (encode_utf8 c ++ v).
Proof.
  unfold escape_char, is_scalar. intros Hc He Hr.
  destruct (Z.ltb_spec c 0x80).
  - assert (encode_utf8 c = [c]) as Hec.
    { unfold encode_utf8. by destruct (Z.ltb_spec c 0x80); [|lia]. }
    rewrite Hec in *. revert He.
    zcases; intros He; try discriminate He; injection He as <-; simpl; rewrite ?Hr; try done. by zcases.
  - revert He. zcases; try lia; intros [= <-]. apply unescape_high; [|done]. apply encode_high; lia.
Qed.

Lemma escape_chars_Ok cs i o out :
  Forall is_scalar cs -> escape_chars cs i o = Ok out ->
  exists e, out = o ++ e /\ unescape e = Some (cs ≫= encode_utf8).
Proof.
  intros Hcs; revert i o; induction Hcs as [|c cs Hc _ IH]; intros i o; simpl.
  { intros [= <-]. exists []. by rewrite app_nil_r. }
  destruct (escape_char c) as [e|] eqn:E; [|done].
  intros (e' & -> & He')%IH. exists (e ++ e'). rewrite app_assoc. split; [done|].
  by apply unescape_char.
Qed.

Lemma encode_nul c : is_scalar c -> c <> 0 -> free (fun b => b =? 0) (encode_utf8 c).
Proof.
  intros Hc Hn. destruct (Z.ltb_spec c 0x80).
  - unfold encode_utf8. destruct (Z.ltb_spec c 0x80); [|lia].
    apply free_cons. split; [by apply Z.eqb_neq|constructor].
  - eapply Forall_impl; [apply encode_high; lia|]. simpl. intros b Hb. apply Z.eqb_neq. lia.
Qed.

Lemma escape_char_None c : escape_char c = None <-> c = 0.
Proof. unfold escape_char. zcases; split; intros; by simplify_eq. Qed.

Lemma escape_chars_Err cs i o e :
  Forall is_scalar cs -> escape_chars cs i o = Err e ->
  exists n, e = {| pos := i + n; kind := UnrepresentableChar |} /\
    (cs ≫= encode_utf8) !! n = Some 0 /\ free (fun b => b =? 0) (take n (cs ≫= encode_utf8)).
Proof.
  intros Hcs; revert i o; induction Hcs as [|c cs Hc _ IH]; intros i o; [done|].
  cbn [escape_chars]. rewrite bind_cons. destruct (escape_char c) as [x|] eqn:E.
  - intros (n & -> & Hn & Hf)%IH. exists (length (encode_utf8 c) + n)%nat.
    rewrite Nat.add_assoc, lookup_app_r, take_app_add by lia.
    split_and!; [done|by replace (_ - _)%nat with n by lia|].
    apply free_app. split; [|done]. apply encode_nul; [done|].
    intros ->. done.
  - apply escape_char_None in E as ->. intros [= <-]. exists O. rewrite Nat.add_0_r.
    split_and!; [done|done|constructor].
Qed.

(** * Properties *)

(** An escaped literal reads back as the text it was made from: its body holds no bare quote
    and no bare line end, and its escapes decode to the input's bytes. *)
Theorem escape_literal_reads_back (b out : bytes) :
  escape_literal b = Ok out -> unescape out = Some b.
Proof.
  unfold escape_literal. destruct (from_utf8 b) as [cs|n] eqn:E; [|done].
  apply from_utf8_Ok in E as [Hcs ->]. intros H. by apply escape_chars_Ok in H as (e & -> & He).
Qed.

Lemma escape_literal_reads_back_witness :
  escape_literal (bs "say " ++ [34; 226; 130; 172; 92; 10]) = Ok (bs "say " ++ [92; 34; 226; 130; 172; 92; 92; 92; 110])
  /\ unescape (bs "say " ++ [92; 34; 226; 130; 172; 92; 92; 92; 110]) = Some (bs "say " ++ [34; 226; 130; 172; 92; 10]).
Proof. split; [reflexivity|]. apply escape_literal_reads_back. reflexivity. Defined.

(** [escape_literal] refuses two things only: text that is not UTF-8, at the end of its longest
    valid prefix, and otherwise a NUL, at its first occurrence. *)
Theorem escape_literal_error (b : bytes) (e : QuoteError) :
  escape_literal b = Err e ->
  match kind e with
  | NonUtf8 => exists cs rest, Forall is_scalar cs /\ b = (cs ≫= encode_utf8) ++ rest /\
      pos e = length (cs ≫= encode_utf8) /\ rest <> [] /\ next_char rest = None
  | UnrepresentableChar =>
      b !! pos e = Some 0 /\ free (fun x => x =? 0) (take (pos e) b) /\ exists cs, from_utf8 b = Ok cs
  | _ => False
  end.
Proof.
  unfold escape_literal. destruct (from_utf8 b) as [cs|n] eqn:E.
  - pose proof E as [Hcs ->]%from_utf8_Ok. intros H.
    apply escape_chars_Err in H as (n & -> & Hn & Hf); [|done]. simpl. eauto.
  - intros [= <-]. simpl. apply chars_from_Err in E as (cs & r & Hcs & -> & -> & Hr & Hnr). eauto 10.
Qed.

Lemma escape_literal_error_witness :
  escape_literal [97; 0] = Err {| pos := 1; kind := UnrepresentableChar |} /\
  [97; 0] !! 1%nat = Some 0 /\ free (fun x => x =? 0) (take 1 [97; 0]) /\ exists cs, from_utf8 [97; 0] = Ok cs.
Proof.
  split; [reflexivity|].
  exact (escape_literal_error [97; 0] {| pos := 1; kind := UnrepresentableChar |} eq_refl).
Defined.
