(* ===== verification/PathComponent.v ===== *)
(** What the per-OS paths share, [cosca-path/src/lib.rs]: the components of a path, their order, and
    the [PurePath] interface that the filesystem table of [cosca-path/src/fs/fake.rs] is generic
    over. *)
From S2P Require Import Prelude.
Local Open Scope Z_scope.

Inductive Component :=
| CurDir
| ParentDir
| Empty
| Normal (name : bytes).

#[export] Instance Component_eq_dec : EqDecision Component.
Proof. solve_decision. Defined.

(** The text of a component, as written. *)
Definition text (c : Component) : bytes :=
  match c with CurDir => [46] | ParentDir => [46; 46] | Empty => [] | Normal name => name end.

(** The component a piece between separators is. *)
Definition component (piece : bytes) : Component :=
  if decide (piece = []) then Empty
  else if decide (piece = [46]) then CurDir
  else if decide (piece = [46; 46]) then ParentDir
  else Normal piece.

(** * Lexicographic comparison

    [Ord] of slices, of iterators and of the derived [Component]. *)

Fixpoint lex_compare {A} (cmp : A -> A -> comparison) (l1 l2 : list A) : comparison :=
  match l1, l2 with
  | [], [] => Eq
  | [], _ :: _ => Lt
  | _ :: _, [] => Gt
  | x :: t1, y :: t2 => match cmp x y with Eq => lex_compare cmp t1 t2 | o => o end
  end.

(** [Ordering::then_with]. *)
Definition then_with (o1 o2 : comparison) : comparison := match o1 with Eq => o2 | o => o end.

Definition component_rank (c : Component) : Z :=
  match c with CurDir => 0 | ParentDir => 1 | Empty => 2 | Normal _ => 3 end.

(** [#[derive(Ord)]]: by variant as declared, then by the name. *)
Definition component_compare (c1 c2 : Component) : comparison :=
  match c1, c2 with
  | Normal n1, Normal n2 => lex_compare Z.compare n1 n2
  | _, _ => Z.compare (component_rank c1) (component_rank c2)
  end.

Definition bool_compare (a b : bool) : comparison :=
  match a, b with false, true => Lt | true, false => Gt | _, _ => Eq end.

(** The laws of a total order given as a comparison. *)
Record TotalCompare {A} (cmp : A -> A -> comparison) : Prop := {
  compare_eq : forall a b, cmp a b = Eq <-> a = b;
  compare_antisym : forall a b, cmp b a = CompOpp (cmp a b);
  compare_trans : forall a b c, cmp a b = Lt -> cmp b c = Lt -> cmp a c = Lt;
}.

(** * The interface *)

(** A type of paths with the trait's [==], which may be coarser than Leibniz equality. *)
Class PurePath (P : Type) := {
  path_eq :: Equiv P;
  path_eq_equiv :: Equivalence (≡@{P});
  path_eq_dec :: RelDecision (≡@{P});
}.

(** * Lemmas *)

Lemma component_text piece : text (component piece) = piece.
Proof. unfold component. by repeat case_decide; subst. Qed.

(** A component that its text reads back as. *)
Definition wf_component (c : Component) : Prop := component (text c) = c.

Lemma wf_component_component piece : wf_component (component piece).
Proof. unfold wf_component. by rewrite component_text. Qed.

Lemma wf_component_Normal n :
  wf_component (Normal n) <-> n <> [] /\ n <> [46] /\ n <> [46; 46].
Proof. unfold wf_component, component; simpl. repeat case_decide; split; naive_solver. Qed.

Lemma component_text_map cs : Forall wf_component cs -> component <$> (text <$> cs) = cs.
Proof. induction 1 as [|c cs Hc _ IH]; [done|]. by rewrite !fmap_cons, IH, Hc. Qed.

Lemma text_component_map (pieces : list bytes) : text <$> (component <$> pieces) = pieces.
Proof. induction pieces as [|w ws IH]; [done|]. by rewrite !fmap_cons, component_text, IH. Qed.

Lemma total_Z : TotalCompare Z.compare.
Proof.
  split.
  - apply Z.compare_eq_iff.
  - intros a b. apply Z.compare_antisym.
  - intros a b c. rewrite !Z.compare_lt_iff. lia.
Qed.

Lemma total_bool : TotalCompare bool_compare.
Proof. split; intros [] []; try intros []; simpl; try done; by split. Qed.

Lemma total_lex {A} (cmp : A -> A -> comparison) : TotalCompare cmp -> TotalCompare (lex_compare cmp).
Proof.
  intros [He Ha Ht]. split.
  - induction a as [|x a IH]; intros [|y b]; simpl; try by split.
    destruct (cmp x y) eqn:E; [|split; [done|]; intros [= -> ->]; by rewrite (proj2 (He y y)) in E..].
    apply He in E as ->. rewrite IH. split; [by intros ->|by intros [= ->]].
  - induction a as [|x a IH]; intros [|y b]; simpl; try done.
    rewrite (Ha x y), IH. by destruct (cmp x y).
  - induction a as [|x a IH]; intros [|y b] [|z c]; simpl; try done.
    destruct (cmp x y) eqn:E1; [apply He in E1 as ->| |done].
    + destruct (cmp y z) eqn:E2; [apply IH|done|done].
    + intros _. destruct (cmp y z) eqn:E2; [apply He in E2 as ->; by rewrite E1| |done].
      by rewrite (Ht _ _ _ E1 E2).
Qed.

Lemma total_component : TotalCompare component_compare.
Proof.
  destruct (total_lex _ total_Z) as [He Ha Ht]. split.
  - intros [] []; simpl; try done. rewrite He. split; [by intros ->|by intros [= ->]].
  - intros [] []; simpl; try done.
  - intros [] [] []; simpl; try done; try apply Ht.
Qed.

Section then_with.
Context {A B C : Type} (f : A -> B) (g : A -> C).
Context (cmp1 : B -> B -> comparison) (cmp2 : C -> C -> comparison).
Context (H1 : TotalCompare cmp1) (H2 : TotalCompare cmp2).
Context (Hinj : forall x y, f x = f y -> g x = g y -> x = y).

(** Comparing by one key, then by another, is a total order when the keys determine the value. *)
Lemma total_then_with :
  TotalCompare (fun x y => then_with (cmp1 (f x) (f y)) (cmp2 (g x) (g y))).
Proof.
  destruct H1 as [He1 Ha1 Ht1], H2 as [He2 Ha2 Ht2]. split; unfold then_with.
  - intros a b. split; [|intros ->; rewrite (proj2 (He1 _ _)) by done; by apply He2].
    destruct (cmp1 (f a) (f b)) eqn:E; try done. intros E2. apply Hinj; [by apply He1|by apply He2].
  - intros a b. rewrite (Ha1 (f a)), (Ha2 (g a)). by destruct (cmp1 (f a) (f b)).
  - intros a b c. destruct (cmp1 (f a) (f b)) eqn:E1; [apply He1 in E1 as ->| |done].
    + destruct (cmp1 (f b) (f c)); [|done|done]. apply Ht2.
    + intros _. destruct (cmp1 (f b) (f c)) eqn:E2; [apply He1 in E2 as <-; by rewrite E1| |done].
      by rewrite (Ht1 _ _ _ E1 E2).
Qed.
End then_with.
