(* ===== verification/PosixPath.v ===== *)
(** POSIX paths, [cosca-path/src/posix.rs]: a path is its bytes; the operations of [Path] and
    [PathBuf] that compute with them. *)
From S2P Require Import Prelude PathComponent.
Local Open Scope Z_scope.

(** * Operations *)

Definition is_separator (b : Z) : bool := b =? 47.

Definition has_root (p : bytes) : bool := match p with b :: _ => b =? 47 | [] => false end.

(** [usize::from] of a [bool]. *)
Definition usize_from (b : bool) : nat := if b then 1%nat else 0%nat.

Definition relative_bytes (p : bytes) : bytes := drop (usize_from (has_root p)) p.

(** [CString::new]: the offset of the first NUL is the error. *)
Definition to_cstring (p : bytes) : result nat bytes :=
  match position (fun b => b =? 0) p with Some nul_at => Err nul_at | None => Ok p end.

(** The components front to back; [next_back] is the last of the list. *)
Definition components (p : bytes) : list Component :=
  let rest := relative_bytes p in
  match rest with [] => [] | _ => component <$> split_on is_separator rest end.

Definition join (p rhs : bytes) : bytes :=
  if has_root rhs || bool_decide (p = []) then rhs
  else if bool_decide (rhs = []) then p
  else if bool_decide (relative_bytes p = []) then p ++ rhs
  else (p ++ [47]) ++ rhs.

Definition parent (p : bytes) : option bytes :=
  let root := usize_from (has_root p) in
  let rest := relative_bytes p in
  match rest with
  | [] => None
  | _ =>
      let end_ := match rposition is_separator rest with None => root | Some i => (root + i)%nat end in
      Some (take end_ p)
  end.

Definition file_name (p : bytes) : option bytes :=
  match last (components p) with Some (Normal name) => Some name | _ => None end.

Definition is_absolute (p : bytes) : bool := has_root p.

Definition is_bare_name (p : bytes) : bool :=
  negb (bool_decide (p = [])) && negb (existsb (fun b => b =? 47) p).

(** One turn of [lexically_normal]'s loop: [names] and [trailing]. *)
Definition normal_step (root : bool) (acc : list Component * bool) (c : Component)
    : list Component * bool :=
  let '(names, trailing) := acc in
  match c with
  | Normal _ => (names ++ [c], false)
  | Empty | CurDir => (names, negb (bool_decide (names = [])))
  | ParentDir =>
      match last names with
      | Some (Normal _) => (removelast names, negb (bool_decide (removelast names = [])))
      | None => if root then (names, trailing) else (names ++ [c], false)
      | _ => (names ++ [c], false)
      end
  end.

(** The bytes of a kept component: [Normal] or [ParentDir]. *)
Definition kept_text (c : Component) : bytes := match c with Normal name => name | _ => [46; 46] end.

(** The text [lexically_normal] ends with. *)
Definition render (root : bool) (names : list Component) (trailing : bool) : bytes :=
  let bytes := if root then [47] else [] in
  let bytes := bytes ++ intercalate 47 (kept_text <$> names) in
  let bytes := if trailing then bytes ++ [47] else bytes in
  if bool_decide (bytes = []) then [46] else bytes.

Definition lexically_normal (p : bytes) : bytes :=
  match p with
  | [] => []
  | _ =>
      let root := has_root p in
      let '(names, trailing) := foldl (normal_step root) ([], false) (components p) in
      let trailing := if bool_decide (last names = Some ParentDir) then false else trailing in
      render root names trailing
  end.

Definition path_cmp (p q : bytes) : comparison :=
  then_with (bool_compare (has_root p) (has_root q))
    (lex_compare component_compare (components p) (components q)).

(** [PathBuf::push], [pop] and [set_file_name]: the path after, and what is returned. *)
Definition push (p rhs : bytes) : bytes := join p rhs.

Definition pop (p : bytes) : bool * bytes :=
  match length <$> parent p with
  | None => (false, p)
  | Some len => (true, take len p)
  end.

Definition set_file_name (p name : bytes) : bytes :=
  match file_name p with
  | None => push p name
  | Some _ =>
      let keep := match rposition is_separator p with None => O | Some i => S i end in
      take keep p ++ name
  end.

(** [==] is equality of the bytes. *)
#[export] Instance posix_PurePath : PurePath bytes.
Proof. refine {| path_eq := (=) |}. Defined.

(** * The spelling *)

(** The root and the components, written out. *)
Definition spell (root : bool) (cs : list Component) : bytes :=
  (if root then [47] else []) ++ intercalate 47 (text <$> cs).

Lemma has_root_split p : p = (if has_root p then [47] else []) ++ relative_bytes p.
Proof.
  unfold relative_bytes. destruct p as [|b p]; [done|]. simpl.
  by destruct (Z.eqb_spec b 47) as [->|]; simpl; rewrite ?drop_0.
Qed.

Lemma has_root_spell p : has_root p = true <-> exists q, p = 47 :: q.
Proof.
  destruct p as [|b p]; simpl; [split; [done|by intros [? ?]]|].
  rewrite Z.eqb_eq. naive_solver.
Qed.

Lemma relative_no_root p : has_root p = false -> relative_bytes p = p.
Proof. unfold relative_bytes. intros ->. apply drop_0. Qed.

Lemma intercalate_components p : intercalate 47 (text <$> components p) = relative_bytes p.
Proof.
  unfold components. destruct (relative_bytes p) as [|b r] eqn:E; [done|].
  rewrite text_component_map. apply intercalate_split_on.
Qed.

Lemma spell_components p : spell (has_root p) (components p) = p.
Proof. unfold spell. rewrite intercalate_components. symmetry. apply has_root_split. Qed.

Lemma spell_inj p q : has_root p = has_root q -> components p = components q -> p = q.
Proof. intros Hr Hc. by rewrite <- (spell_components p), <- (spell_components q), Hr, Hc. Qed.

Lemma components_nil p : components p = [] <-> relative_bytes p = [].
Proof.
  unfold components. destruct (relative_bytes p) as [|b r]; [done|].
  split; [|done]. intros H%fmap_nil_inv. by apply split_on_ne in H.
Qed.

(** What may be between two separators. *)
Definition clean (c : Component) : Prop := wf_component c /\ free is_separator (text c).

Lemma components_clean p : Forall clean (components p).
Proof.
  unfold components. destruct (relative_bytes p) as [|b r]; [constructor|].
  apply Forall_fmap. eapply Forall_impl; [apply split_on_pieces|]. intros w Hw.
  split; [apply wf_component_component|]. by rewrite component_text.
Qed.

(** Spelling, then reading the components, with a root or with a first component that is text. *)
Lemma components_spell root cs :
  Forall clean cs ->
  (root = false -> head cs <> Some Empty) -> (root = true -> cs <> [Empty]) ->
  has_root (spell root cs) = root /\ components (spell root cs) = cs.
Proof.
  intros Hcs Hhead Hone. unfold spell.
  set (t := intercalate 47 (text <$> cs)).
  assert (Forall (free is_separator) (text <$> cs)) as Hfree.
  { apply Forall_fmap. eapply Forall_impl; [exact Hcs|]. by intros c [_ ?]. }
  assert (Forall wf_component cs) as Hwf by (eapply Forall_impl; [exact Hcs|]; by intros c [? _]).
  assert (cs <> [] -> component <$> split_on is_separator t = cs) as Hsplit.
  { intros Hne. unfold t. rewrite split_on_intercalate, component_text_map; try done.
    by destruct cs. }
  assert (t = [] -> cs = [] \/ cs = [Empty]) as Hnil.
  { destruct cs as [|c cs]; [by left|]. intros Ht. right. specialize (Hsplit ltac:(done)).
    rewrite Ht in Hsplit. simpl in Hsplit. by rewrite <- Hsplit. }
  destruct root; simpl app.
  - split; [done|]. unfold components, relative_bytes. simpl. rewrite drop_0.
    destruct t as [|b t'] eqn:E; [|apply Hsplit; by intros ->].
    destruct Hnil as [->| ->]; [done..|]. by destruct (Hone eq_refl).
  - assert (has_root t = false) as Hr.
    { destruct cs as [|c cs]; [done|]. specialize (Hsplit ltac:(done)).
      destruct t as [|b t']; [done|]. simpl in *. destruct (Z.eqb_spec b 47) as [->|]; [|done].
      exfalso. simpl in Hsplit. injection Hsplit as <- _. by apply Hhead. }
    split; [done|]. unfold components. rewrite relative_no_root by done.
    destruct t as [|b t'] eqn:E; [|apply Hsplit; by intros ->].
    destruct Hnil as [->| ->]; [done..|]. by destruct (Hhead eq_refl).
Qed.

(** * Joining *)

Lemma has_root_app p q : p <> [] -> has_root (p ++ q) = has_root p.
Proof. by destruct p. Qed.

Lemma relative_app p q : p <> [] -> relative_bytes (p ++ q) = relative_bytes p ++ q.
Proof.
  intros Hp. unfold relative_bytes. rewrite has_root_app by done.
  destruct p as [|b p]; [done|]. by destruct (has_root (b :: p)).
Qed.

Lemma components_relative p : relative_bytes p <> [] ->
  components p = component <$> split_on is_separator (relative_bytes p).
Proof. unfold components. by destruct (relative_bytes p). Qed.

Lemma join_rooted p q : has_root q = true -> join p q = q.
Proof. unfold join. by intros ->. Qed.

(** The cases of [join], as equations. *)
Lemma join_spec p q :
  (has_root q = true /\ join p q = q) \/
  (has_root q = false /\ p = [] /\ join p q = q) \/
  (has_root q = false /\ p <> [] /\ q = [] /\ join p q = p) \/
  (has_root q = false /\ p = [47] /\ q <> [] /\ join p q = 47 :: q) \/
  (has_root q = false /\ relative_bytes p <> [] /\ q <> [] /\ join p q = p ++ 47 :: q).
Proof.
  unfold join. destruct (has_root q); [by left|]. right.
  destruct (decide (p = [])) as [->|Hp]; [left; by rewrite bool_decide_true|].
  rewrite bool_decide_false by done. simpl. right.
  destruct (decide (q = [])) as [->|Hq]; [by left|]. right.
  rewrite bool_decide_false by done.
  destruct (decide (relative_bytes p = [])) as [E|E].
  - left. rewrite bool_decide_true by done.
    destruct p as [|b p]; [done|]. unfold relative_bytes in E. simpl in E.
    destruct (Z.eqb_spec b 47) as [->|]; simpl in E; rewrite ?drop_0 in E; by subst.
  - right. rewrite bool_decide_false by done. by rewrite <- app_assoc.
Qed.

Lemma components_join p q :
  has_root q = false -> components (join p q) = components p ++ components q.
Proof.
  intros Hq. destruct (join_spec p q) as
    [[? _]|[(_ & -> & ->)|[(_ & _ & -> & ->)|[(_ & -> & Hne & ->)|(_ & Hr & Hne & ->)]]]].
  - congruence.
  - done.
  - by rewrite app_nil_r.
  - unfold components. rewrite (relative_no_root q Hq). unfold relative_bytes. simpl.
    by rewrite drop_0.
  - assert (p <> []) as Hp by (intros ->; by apply Hr).
    assert (relative_bytes q <> []) as Hq' by by rewrite relative_no_root.
    rewrite !components_relative, relative_app, split_on_app, fmap_app, (relative_no_root q);
      rewrite ?relative_app by done; try done. by destruct (relative_bytes p).
Qed.

Lemma has_root_join p q : has_root (join p q) = has_root p || has_root q.
Proof.
  destruct (join_spec p q) as
    [[E ->]|[(E & -> & ->)|[(E & _ & -> & ->)|[(E & -> & _ & ->)|(E & Hr & _ & ->)]]]];
    rewrite ?E, ?orb_false_r, ?orb_true_r; try done.
  apply has_root_app. intros ->. by apply Hr.
Qed.

(** * The last component *)

Lemma removelast_snoc {A} (l : list A) x : removelast (l ++ [x]) = l.
Proof. rewrite removelast_app by done. simpl. apply app_nil_r. Qed.

(** [p] cut after its last separator: what is kept and the last piece. *)
Lemma last_piece p :
  relative_bytes p <> [] ->
  exists base piece,
    free is_separator piece /\ p = base ++ piece /\
    match rposition is_separator p with None => O | Some i => S i end = length base /\
    forall piece', free is_separator piece' -> (piece' = [] -> piece = []) ->
      components (base ++ piece') = removelast (components p) ++ [component piece'].
Proof.
  intros Hr. destruct (rposition is_separator p) as [i|] eqn:E.
  - apply rposition_Some in E as (l1 & x & l2 & -> & <- & Hx & Hf).
    unfold is_separator in Hx. apply Z.eqb_eq in Hx as ->.
    exists (l1 ++ [47]), l2. rewrite <- app_assoc, length_app; simpl.
    split_and!; [done|done|lia|]. intros piece' Hf' Hn. rewrite <- app_assoc. simpl.
    destruct l1 as [|b l1].
    + simpl in *. unfold relative_bytes in Hr; simpl in Hr; rewrite drop_0 in Hr.
      assert (piece' <> []) by naive_solver.
      assert (forall w, w <> [] -> free is_separator w -> components (47 :: w) = [component w]) as Hw.
      { intros w Hw Hfw. rewrite components_relative; unfold relative_bytes; simpl; rewrite ?drop_0; [|done].
        by rewrite split_on_free. }
      by rewrite !Hw.
    + set (l := b :: l1). assert (l <> []) as Hl by done. clearbody l.
      assert (forall w, free is_separator w -> components (l ++ 47 :: w) =
        (component <$> split_on is_separator (relative_bytes l)) ++ [component w]) as Hw.
      { intros w Hfw. rewrite components_relative; rewrite relative_app by done.
        - by rewrite split_on_app, fmap_app, (split_on_free _ w).
        - by destruct (relative_bytes l). }
      by rewrite !Hw, removelast_snoc.
  - apply rposition_None in E. exists [], p. split_and!; try done.
    intros piece' Hf Hn. simpl.
    assert (forall w, w <> [] -> free is_separator w -> components w = [component w]) as Hw.
    { intros w Hw Hfw. assert (has_root w = false) as Hroot.
      { destruct w as [|b w]; [done|]. apply free_cons in Hfw as [Hb _]. exact Hb. }
      rewrite components_relative; rewrite relative_no_root by done; [|done].
      by rewrite split_on_free. }
    assert (p <> []) by (intros ->; by apply Hr). assert (piece' <> []) by naive_solver.
    by rewrite !Hw.
Qed.

Lemma last_piece_component p base piece :
  components (base ++ piece) = removelast (components p) ++ [component piece] ->
  last (components (base ++ piece)) = Some (component piece).
Proof. intros ->. apply last_snoc. Qed.

(** * Lexical normalisation against a walk of directories

    The specification walks the components from an unknown directory: how many levels above it the
    walk has left, and the names below that. Above the root is the root. *)

Record Place := place { ups : nat; below : list bytes }.

Definition walk_step (root : bool) (w : Place) (c : Component) : Place :=
  match c with
  | Normal name => place (ups w) (below w ++ [name])
  | ParentDir =>
      match below w with
      | [] => if root then w else place (S (ups w)) []
      | _ => place (ups w) (removelast (below w))
      end
  | CurDir | Empty => w
  end.

Definition walk (root : bool) (cs : list Component) : Place := foldl (walk_step root) (place 0 []) cs.

(** The shortest components that lead to a place. *)
Definition route (w : Place) : list Component := replicate (ups w) ParentDir ++ (Normal <$> below w).

(** Whether the last component is a directory's: a separator, [.] or [..]. *)
Definition ends_open (cs : list Component) : bool :=
  match last cs with Some (Normal _) | None => false | Some _ => true end.

(** The components of the normal form: the route, one final separator if the path ended open below
    a name, and [.] where nothing is left of a relative path. *)
Definition trails (w : Place) (open : bool) : bool := open && negb (bool_decide (below w = [])).

Definition canonical (root : bool) (w : Place) (open : bool) : list Component :=
  match route w with
  | [] => if root then [] else [CurDir]
  | r => r ++ (if trails w open then [Empty] else [])
  end.

Lemma route_nil w : route w = [] <-> ups w = O /\ below w = [].
Proof.
  unfold route. destruct w as [[|k] [|n ns]]; simpl; split; try done; by intros [? ?].
Qed.

Lemma last_route w :
  last (route w) =
  match last (below w) with
  | Some n => Some (Normal n)
  | None => match ups w with O => None | S _ => Some ParentDir end
  end.
Proof.
  unfold route. destruct w as [k ns]; simpl.
  destruct ns as [|n ns _] using rev_ind; simpl.
  - rewrite app_nil_r. destruct k as [|k]; [done|]. by rewrite replicate_S_end, last_snoc.
  - rewrite fmap_app; simpl. by rewrite app_assoc, !last_snoc.
Qed.

Lemma removelast_route k ns n :
  removelast (route (place k (ns ++ [n]))) = route (place k ns).
Proof. unfold route; simpl. rewrite fmap_app; simpl. by rewrite app_assoc, removelast_snoc. Qed.

Lemma route_snoc k ns n : route (place k (ns ++ [n])) = route (place k ns) ++ [Normal n].
Proof. unfold route; simpl. by rewrite fmap_app, app_assoc. Qed.

(** The loop keeps the route of the walk; its flag says whether the last component is a
    directory's, where a name is left for a separator to follow. *)
Lemma normal_step_walk root w t c :
  (root = true -> ups w = O) -> (t = true -> route w <> []) ->
  exists t', normal_step root (route w, t) c = (route (walk_step root w c), t') /\
    (t' = true -> route (walk_step root w c) <> []) /\
    (below (walk_step root w c) <> [] -> t' = match c with Normal _ => false | _ => true end).
Proof.
  destruct w as [k ns]. intros Hr Ht. destruct c as [| | |n]; cbn [normal_step walk_step].
  - eexists; split; [done|]. split; [by destruct (bool_decide_reflect (route (place k ns) = []))|].
    simpl. intros Hb. rewrite bool_decide_false; [done|]. rewrite route_nil; simpl. tauto.
  - rewrite last_route; simpl. destruct ns as [|n ns _] using rev_ind; simpl.
    + destruct k as [|k].
      * destruct root; eexists; (split; [done|]); simpl; (split; [done|by intros []]).
      * assert (root = false) as -> by (destruct root; [by specialize (Hr eq_refl)|done]).
        exists false. split; [|split; [done|by intros []]]. f_equal. unfold route; simpl.
        by rewrite !app_nil_r, <- replicate_S_end.
    + rewrite last_snoc, removelast_route.
      assert (match ns ++ [n] with [] => if root then place k (ns ++ [n]) else place (S k) []
        | _ :: _ => place k (removelast (ns ++ [n])) end = place k ns) as ->.
      { rewrite removelast_snoc. by destruct ns. }
      eexists; split; [done|]. split; [by destruct (bool_decide_reflect (route (place k ns) = []))|].
      simpl. intros Hb. rewrite bool_decide_false; [done|]. rewrite route_nil; simpl. tauto.
  - eexists; split; [done|]. split; [by destruct (bool_decide_reflect (route (place k ns) = []))|].
    simpl. intros Hb. rewrite bool_decide_false; [done|]. rewrite route_nil; simpl. tauto.
  - exists false. simpl. by rewrite route_snoc.
Qed.

Lemma walk_snoc root cs c : walk root (cs ++ [c]) = walk_step root (walk root cs) c.
Proof. unfold walk. by rewrite foldl_app. Qed.

Lemma rooted_walk cs : ups (walk true cs) = O.
Proof.
  induction cs as [|c cs IH] using rev_ind; [done|]. rewrite walk_snoc.
  destruct c; simpl; try done. by destruct (below (walk true cs)).
Qed.

Lemma normal_loop root cs :
  exists t, foldl (normal_step root) ([], false) cs = (route (walk root cs), t) /\
    (t = true -> route (walk root cs) <> []) /\
    (below (walk root cs) <> [] -> t = ends_open cs).
Proof.
  induction cs as [|c cs (t & Hf & Ht & Hb)] using rev_ind; [by exists false|].
  rewrite foldl_app, walk_snoc, Hf. cbn [foldl].
  destruct (normal_step_walk root (walk root cs) t c) as (t' & -> & Ht' & Hb');
    [intros ->; apply rooted_walk|done|].
  exists t'. split; [done|]. split; [done|]. intros H. rewrite (Hb' H).
  unfold ends_open. rewrite last_snoc. by destruct c.
Qed.

(** Names that come out of a walk are names that went in. *)
Lemma walk_names root (P : bytes -> Prop) cs :
  Forall (fun c => match c with Normal n => P n | _ => True end) cs ->
  Forall P (below (walk root cs)).
Proof.
  induction cs as [|c cs IH] using rev_ind; [by constructor|].
  rewrite Forall_app, Forall_singleton, walk_snoc. intros [H Hc]. specialize (IH H).
  destruct c; simpl; try done.
  - destruct (below (walk root cs)) as [|n ns] eqn:E; [by destruct root; [rewrite E|]|].
    cbn [below]. destruct (exists_last (l := n :: ns)) as (l & x & El); [done|].
    rewrite El in *. rewrite removelast_snoc. by apply Forall_app in IH as [? _].
  - apply Forall_app. by repeat constructor.
Qed.

Lemma clean_route root cs : Forall clean cs -> Forall clean (route (walk root cs)).
Proof.
  intros H. unfold route. apply Forall_app. split.
  - apply Forall_replicate. by repeat constructor.
  - apply Forall_fmap. apply (walk_names root (fun n => clean (Normal n))).
    eapply Forall_impl; [exact H|]. by intros [].
Qed.

Lemma kept_text_route w : kept_text <$> route w = text <$> route w.
Proof.
  unfold route. rewrite !fmap_app. f_equal; [by rewrite !fmap_replicate|].
  by rewrite <- !list_fmap_compose.
Qed.

Lemma route_components k ns : Forall (fun c => c <> Empty /\ c <> CurDir) (route (place k ns)).
Proof.
  unfold route; simpl. apply Forall_app. split; [by apply Forall_replicate|].
  apply Forall_fmap, Forall_true. by split.
Qed.

Lemma intercalate_ne (sep : Z) (w : bytes) ws : w <> [] -> intercalate sep (w :: ws) <> [].
Proof. by destruct w, ws. Qed.

(** The text [render] builds is the spelling of the canonical components. *)
Lemma render_canonical root w open :
  (root = true -> ups w = O) -> Forall clean (route w) ->
  render root (route w) (trails w open) = spell root (canonical root w open).
Proof.
  intros Hr Hc. unfold render, spell, canonical. rewrite kept_text_route.
  destruct (route w) as [|c r] eqn:E.
  - apply route_nil in E as [_ Hb]. assert (trails w open = false) as ->.
    { unfold trails. by rewrite Hb, bool_decide_true, andb_false_r. }
    by destruct root.
  - assert (intercalate 47 (text <$> c :: r) <> []) as Hne.
    { apply intercalate_ne. pose proof (route_components (ups w) (below w)) as Hk.
      destruct w as [k ns]. simpl in Hk. rewrite E in Hk.
      apply Forall_cons in Hc as [[Hc _] _]. apply Forall_cons in Hk as [Hk _].
      destruct c as [| | |n]; [naive_solver|done|naive_solver|]. by apply wf_component_Normal in Hc as [? _]. }
    assert (forall u, (if root then [47] else []) ++ intercalate 47 (text <$> c :: r) ++ u <> []) as Hu.
    { intros u H. apply app_eq_nil in H as [_ H]. by apply app_eq_nil in H as [? _]. }
    destruct (trails w open).
    + rewrite fmap_app, (intercalate_app 47 (text <$> c :: r) (text <$> [Empty])), <- app_assoc by discriminate.
      by rewrite bool_decide_false.
    + rewrite app_nil_r. specialize (Hu []). rewrite app_nil_r in Hu. by rewrite bool_decide_false.
Qed.

(** The final flag: no separator after [..], and none where no name is left. *)
Lemma final_trailing w t open :
  (t = true -> route w <> []) -> (below w <> [] -> t = open) ->
  (if bool_decide (last (route w) = Some ParentDir) then false else t) =
  trails w open.
Proof.
  unfold trails. destruct w as [k ns]. rewrite last_route. intros Ht Hb; simpl in *.
  destruct ns as [|n ns _] using rev_ind.
  - rewrite (bool_decide_true ([] = [])), andb_false_r by done. simpl.
    destruct k as [|k]; [|by rewrite bool_decide_true].
    rewrite bool_decide_false by done. destruct t; [|done]. by destruct (Ht eq_refl).
  - rewrite last_snoc, !bool_decide_false by (try done; by destruct ns).
    rewrite andb_true_r. apply Hb. by destruct ns.
Qed.

Lemma lexically_normal_spell p :
  p <> [] ->
  lexically_normal p =
  spell (has_root p) (canonical (has_root p) (walk (has_root p) (components p)) (ends_open (components p))).
Proof.
  intros Hp. unfold lexically_normal.
  destruct (normal_loop (has_root p) (components p)) as (t & -> & Ht & Hb).
  rewrite <- render_canonical; [|intros ->; apply rooted_walk|apply clean_route, components_clean].
  rewrite <- (final_trailing _ t) by done. by destruct p.
Qed.

Lemma canonical_clean root w open : Forall clean (route w) -> Forall clean (canonical root w open).
Proof.
  intros H. unfold canonical. destruct (route w) as [|c r]; [destruct root; by repeat constructor|].
  apply Forall_app. split; [done|]. destruct (trails w open); by repeat constructor.
Qed.

Lemma canonical_head root w open : head (canonical root w open) <> Some Empty.
Proof.
  unfold canonical. pose proof (route_components (ups w) (below w)) as Hk.
  destruct w as [k ns]; simpl in *. destruct (route (place k ns)) as [|c r]; [by destruct root|].
  apply Forall_cons in Hk as [[Hk _] _]. simpl. naive_solver.
Qed.

Lemma lexically_normal_components p :
  p <> [] ->
  has_root (lexically_normal p) = has_root p /\
  components (lexically_normal p) =
  canonical (has_root p) (walk (has_root p) (components p)) (ends_open (components p)).
Proof.
  intros Hp. rewrite lexically_normal_spell by done. pose proof (canonical_head (has_root p)
    (walk (has_root p) (components p)) (ends_open (components p))) as Hh.
  apply components_spell; [apply canonical_clean, clean_route, components_clean|done|].
  intros _ E. by rewrite E in Hh.
Qed.

(** Walking a route leads back to the place. *)
Lemma walk_route root w : (root = true -> ups w = O) -> walk root (route w) = w.
Proof.
  destruct w as [k ns]; simpl. intros Hr. unfold route; simpl.
  induction ns as [|n ns IH] using rev_ind.
  - rewrite app_nil_r. destruct root; [by rewrite Hr|]. clear Hr.
    induction k as [|k IH]; [done|]. by rewrite replicate_S_end, walk_snoc, IH.
  - rewrite fmap_app; simpl. by rewrite app_assoc, walk_snoc, IH.
Qed.

Lemma walk_canonical root w open :
  (root = true -> ups w = O) -> walk root (canonical root w open) = w.
Proof.
  intros Hr. pose proof (walk_route root w Hr) as Hw. unfold canonical.
  destruct (route w) as [|c r]; [by destruct root|].
  destruct (trails w open); [|by rewrite app_nil_r]. by rewrite walk_snoc, Hw.
Qed.

Lemma ends_open_canonical root w open :
  below w <> [] -> ends_open (canonical root w open) = open.
Proof.
  intros Hb. unfold canonical, ends_open, trails. rewrite bool_decide_false by done.
  rewrite andb_true_r. pose proof (last_route w) as Hl.
  destruct (route w) as [|c r] eqn:E; [apply route_nil in E; tauto|].
  destruct open; [by rewrite last_snoc|]. rewrite app_nil_r, Hl.
  destruct (below w) as [|n ns] using rev_ind; [done|]. by rewrite last_snoc.
Qed.

Lemma canonical_open root w o1 o2 :
  (below w <> [] -> o1 = o2) -> canonical root w o1 = canonical root w o2.
Proof.
  intros H. unfold canonical. destruct (decide (below w = [])) as [E|E].
  - unfold trails. by rewrite bool_decide_true, !andb_false_r.
  - by rewrite H.
Qed.

(** * Parents *)

Lemma parent_components p q :
  parent p = Some q ->
  exists init c, components p = init ++ [c] /\ has_root q = has_root p /\
    (components q = init \/ has_root p = true /\ init = [Empty] /\ q = [47]).
Proof.
  unfold parent. pose proof (has_root_split p) as Hp.
  destruct (relative_bytes p) as [|b r] eqn:Er; [done|]. rewrite <- Er in *.
  assert (relative_bytes p <> []) as Hne by by rewrite Er.
  intros [= <-]. rewrite components_relative by done.
  assert (length (if has_root p then [47] else []) = usize_from (has_root p)) as Hlen
    by by destruct (has_root p).
  destruct (rposition is_separator (relative_bytes p)) as [i|] eqn:E.
  - apply rposition_Some in E as (l1 & x & l2 & El & <- & Hx & Hf).
    exists (component <$> split_on is_separator l1), (component l2).
    rewrite El, split_on_app, fmap_app, (split_on_free _ l2) by done. split; [done|].
    assert (take (usize_from (has_root p) + length l1) p = (if has_root p then [47] else []) ++ l1) as ->.
    { rewrite Hp at 2. rewrite El, app_assoc, <- Hlen, <- length_app. apply take_app_length. }
    destruct (has_root p) eqn:Hroot; simpl.
    + split; [done|]. destruct l1 as [|b1 l1]; [by right|]. left.
      unfold components, relative_bytes. simpl. by rewrite ?drop_0.
    + destruct l1 as [|b1 l1].
      { exfalso. rewrite relative_no_root in El by done. subst p. simpl in Hroot.
        unfold is_separator in Hx. by rewrite Hx in Hroot. }
      assert (has_root (b1 :: l1) = false) as Hr1.
      { rewrite relative_no_root in El by done. by subst p. }
      split; [done|]. left. unfold components. by rewrite relative_no_root.
  - apply rposition_None in E. exists [], (component (relative_bytes p)).
    rewrite split_on_free by done. split; [done|].
    assert (take (usize_from (has_root p)) p = if has_root p then [47] else []) as ->.
    { rewrite Hp at 2. rewrite <- Hlen. apply take_app_length. }
    destruct (has_root p); split; auto.
Qed.

Lemma has_root_base base u v : (v = [] -> u = []) -> free is_separator u -> free is_separator v ->
  has_root (base ++ u) = has_root (base ++ v).
Proof.
  intros Hn Hu Hv. destruct base as [|b base]; [|done]. simpl.
  destruct u as [|x u], v as [|y v]; try done; simpl.
  - apply free_cons in Hv as [Hy _]. by unfold is_separator in Hy.
  - by specialize (Hn eq_refl).
  - apply free_cons in Hv as [Hy _], Hu as [Hx _]. unfold is_separator in *. congruence.
Qed.

(** * Properties *)

(** Joining is a monoid with the empty path as its unit, and appends: the components of [a]
    joined with a relative [b] are [a]'s, then [b]'s, as written. *)
Theorem join_monoid (a b c : bytes) :
  join (join a b) c = join a (join b c) /\ join [] a = a /\ join a [] = a /\
  (has_root b = false -> components (join a b) = components a ++ components b) /\
  (has_root b = true -> join a b = b).
Proof.
  split_and!; try apply components_join.
  - destruct (has_root c) eqn:Hc; [by rewrite !(join_rooted _ c) by done|].
    destruct (has_root b) eqn:Hb.
    + rewrite (join_rooted a b), (join_rooted a (join b c)); [done| |done]. by rewrite has_root_join, Hb.
    + assert (has_root (join b c) = false) by by rewrite has_root_join, Hb, Hc.
      apply spell_inj; [by rewrite !has_root_join, Hb, Hc, !orb_false_r|].
      by rewrite !components_join, app_assoc.
  - unfold join. by rewrite bool_decide_true, orb_true_r.
  - unfold join. simpl. by destruct a.
  - apply join_rooted.
Qed.

Lemma join_monoid_witness :
  components (join (bs "a/") (bs "b//c")) = components (bs "a/") ++ components (bs "b//c") /\
  join (bs "a") (bs "/b") = bs "/b".
Proof.
  split; [by apply (join_monoid (bs "a/") (bs "b//c") [])|by apply (join_monoid (bs "a") (bs "/b") [])].
Defined.

(** [parent] drops exactly the last component. It is [None] when there is none; otherwise the
    parent has the same root and the components before the last, save that a root followed by one
    empty component has the root for its parent. [pop] leaves that parent in place. *)
Theorem parent_drops_last (p : bytes) :
  match parent p with
  | None => components p = [] /\ pop p = (false, p)
  | Some q =>
      pop p = (true, q) /\ exists init c, components p = init ++ [c] /\ has_root q = has_root p /\
      (components q = init \/ has_root p = true /\ init = [Empty] /\ q = [47])
  end.
Proof.
  destruct (parent p) as [q|] eqn:E.
  - split; [|by apply parent_components]. unfold pop. rewrite E. simpl. f_equal.
    unfold parent in E. destruct (relative_bytes p); [done|]. injection E as <-.
    apply take_length_take.
  - unfold pop. rewrite E. split; [|done]. apply components_nil.
    unfold parent in E. by destruct (relative_bytes p).
Qed.

(** [set_file_name] with a name that is one component makes it the path's file name: it
    replaces a last component that is a name and is appended otherwise, and every other component
    and the root stay. *)
Theorem set_file_name_sets (p name : bytes) :
  wf_component (Normal name) -> free is_separator name ->
  file_name (set_file_name p name) = Some name /\
  has_root (set_file_name p name) = has_root p /\
  components (set_file_name p name) =
    match file_name p with Some _ => removelast (components p) | None => components p end ++ [Normal name].
Proof.
  intros Hw Hf. pose proof Hw as Hc. unfold wf_component in Hc; simpl in Hc.
  apply wf_component_Normal in Hw as [Hne _].
  enough (has_root (set_file_name p name) = has_root p /\ components (set_file_name p name) =
    match file_name p with Some _ => removelast (components p) | None => components p end ++ [Normal name])
    as [Hr He].
  { split_and!; [|done|done]. unfold file_name at 1. by rewrite He, last_snoc. }
  assert (has_root name = false) as Hn.
  { destruct name; [done|]. apply free_cons in Hf as [? _]. done. }
  unfold set_file_name. destruct (file_name p) as [old|] eqn:E.
  - assert (relative_bytes p <> []) as Hr.
    { rewrite <- components_nil. intros H. unfold file_name in E. by rewrite H in E. }
    destruct (last_piece p Hr) as (base & piece & Hfp & -> & -> & H).
    rewrite take_app_length. rewrite H by (try done; by intros ->). rewrite Hc. split; [|done].
    apply has_root_base; try done. intros ->. exfalso.
    specialize (H [] Hfp ltac:(done)). unfold file_name in E. rewrite H, last_snoc in E. done.
  - unfold push. rewrite has_root_join, Hn, orb_false_r, components_join by done. split; [done|].
    f_equal. rewrite components_relative; rewrite relative_no_root by done; [|done].
    rewrite split_on_free by done. simpl. by rewrite Hc.
Qed.

Lemma set_file_name_sets_witness :
  file_name (set_file_name (bs "/a//b") (bs "c")) = Some (bs "c") /\
  has_root (set_file_name (bs "/a//b") (bs "c")) = has_root (bs "/a//b") /\
  components (set_file_name (bs "/a//b") (bs "c")) =
    match file_name (bs "/a//b") with
    | Some _ => removelast (components (bs "/a//b")) | None => components (bs "/a//b") end ++ [Normal (bs "c")].
Proof. apply set_file_name_sets; [done|by repeat constructor]. Defined.

(** [lexically_normal] of a non-empty path is the canonical spelling of where its components
    lead: same root, the shortest route to that place, a final separator exactly when the path
    ended in a separator, [.] or [..] and a name is left, and [.] for an emptied relative path. *)
Theorem lexically_normal_canonical (p : bytes) :
  p <> [] ->
  has_root (lexically_normal p) = has_root p /\
  components (lexically_normal p) =
    canonical (has_root p) (walk (has_root p) (components p)) (ends_open (components p)) /\
  walk (has_root p) (components (lexically_normal p)) = walk (has_root p) (components p).
Proof.
  intros Hp. destruct (lexically_normal_components p Hp) as [Hr ->]. split_and!; [done|done|].
  apply walk_canonical. intros ->. apply rooted_walk.
Qed.

Lemma lexically_normal_canonical_witness :
  has_root (lexically_normal (bs "/../a/./b/..//c/.")) = true /\
  components (lexically_normal (bs "/../a/./b/..//c/.")) = [Normal (bs "a"); Normal (bs "c"); Empty].
Proof.
  destruct (lexically_normal_canonical (bs "/../a/./b/..//c/.")) as (H1 & H2 & _); [done|].
  split; [exact H1|]. rewrite H2. reflexivity.
Defined.

(** [lexically_normal] is idempotent. *)
Theorem lexically_normal_idempotent (p : bytes) :
  lexically_normal (lexically_normal p) = lexically_normal p.
Proof.
  destruct (decide (p = [])) as [->|Hp]; [done|].
  destruct (lexically_normal_components p Hp) as [Hr Hc].
  assert (lexically_normal p <> []) as Hn.
  { intros E. rewrite E in Hr, Hc. change (components []) with (@nil Component) in Hc.
    unfold canonical in Hc. destruct (route _) as [|c r]; [|done].
    rewrite <- Hr in Hc. done. }
  rewrite (lexically_normal_spell (lexically_normal p)), Hr, Hc, (lexically_normal_spell p) by done.
  rewrite walk_canonical by (intros ->; apply rooted_walk). f_equal.
  apply canonical_open. intros H. by apply ends_open_canonical.
Qed.

(** Comparing paths is a total order that agrees with [==]: root first, then component by
    component. *)
Theorem path_cmp_total : TotalCompare path_cmp.
Proof.
  apply (total_then_with has_root components).
  - apply total_bool.
  - apply total_lex, total_component.
  - apply spell_inj.
Qed.
