(* ===== verification/OsStrWide.v ===== *)
(** Windows strings, [cosca-path/src/windows/os_str.rs]: UTF-16, possibly ill-formed, stored as
    WTF-8. The conversions in ([from_wide]) and out ([to_wide], [to_str]). *)
From S2P Require Import Prelude Utf.
Local Open Scope Z_scope.

(** * Operations *)

(** The three-byte form of an unpaired surrogate. *)
Definition surrogate_bytes (u : Z) : bytes :=
  [Z.lor 0xE0 (Z.shiftr u 12); Z.lor 0x80 (Z.land (Z.shiftr u 6) 0x3F); Z.lor 0x80 (Z.land u 0x3F)].

Definition item_bytes (i : Utf16) : bytes :=
  match i with Char c => encode_utf8 c | Unpaired u => surrogate_bytes u end.

(** [OsString::from_wide]. *)
Definition from_wide (units : list Z) : bytes := decode_utf16 units ≫= item_bytes.

(** A run of WTF-8. *)
Inductive Chunk :=
| Str (chars : list Z)
| Surrogate (unit : Z).

Definition is_surrogate (b : bytes) : bool :=
  match b with b0 :: b1 :: _ :: _ => (b0 =? 0xED) && (0xA0 <=? b1) | _ => false end.

(** The length of the run at the front: up to the first later offset a surrogate starts at. *)
Fixpoint run_length (tl : bytes) : nat :=
  match tl with
  | [] => 1
  | _ :: tl' => if is_surrogate tl then 1 else S (run_length tl')
  end%nat.

Definition surrogate_unit (b1 b2 : Z) : Z :=
  Z.lor (Z.lor 0xD000 (Z.shiftl (Z.land b1 0x3F) 6)) (Z.land b2 0x3F).

(** The iterator's items; [None] is the [unreachable!]. *)
Fixpoint wtf8_chunks (b : bytes) : option (list Chunk) :=
  match b with
  | [] => Some []
  | b0 :: tl =>
      if is_surrogate b then
        match tl with
        | b1 :: b2 :: rest => cs ← wtf8_chunks rest; Some (Surrogate (surrogate_unit b1 b2) :: cs)
        | _ => None
        end
      else
        let end_ := run_length tl in
        match from_utf8 (take end_ b) with
        | Ok s => cs ← wtf8_chunks (adv tl (end_ - 1)); Some (Str s :: cs)
        | Err _ => None
        end
  end.

Definition chunk_units (c : Chunk) : list Z :=
  match c with Str s => s ≫= encode_utf16 | Surrogate u => [u] end.

(** [OsStr::to_wide]. *)
Definition to_wide (b : bytes) : option (list Z) :=
  cs ← wtf8_chunks b; Some (cs ≫= chunk_units).

(** [OsStr::to_str]: the characters, if there is no lone surrogate. *)
Definition to_str (b : bytes) : option (list Z) :=
  match from_utf8 b with Ok s => Some s | Err _ => None end.

(** [OsStr::to_string_lossy]: the characters, each lone surrogate replaced. *)
Definition to_string_lossy (b : bytes) : option (list Z) :=
  match to_str b with
  | Some s => Some s
  | None =>
      cs ← wtf8_chunks b;
      Some (cs ≫= fun c => match c with Str s => s | Surrogate _ => [0xFFFD] end)
  end.

(** Well-formed WTF-8, the strings this type stores. *)
Definition wtf8 (b : bytes) : Prop := exists us, Forall is_u16 us /\ b = from_wide us.

(** * Lemmas *)

(** The surrogates, with what the lemmas below need of each one's encoding. *)
Definition surrogate_ok (u : Z) : bool :=
  match surrogate_bytes u with
  | [b0; b1; b2] =>
      (b0 =? 0xED) && within 0xA0 0xBF b1 && within 0x80 0xBF b2 && (surrogate_unit b1 b2 =? u)
  | _ => false
  end.

Lemma surrogates_ok : forallb surrogate_ok (seqZ 0xD800 0x800) = true.
Proof. vm_compute. reflexivity. Qed.

Lemma surrogate_bytes_spec u :
  0xD800 <= u <= 0xDFFF ->
  exists b1 b2, surrogate_bytes u = [0xED; b1; b2] /\ 0xA0 <= b1 <= 0xBF /\ 0x80 <= b2 <= 0xBF /\
    surrogate_unit b1 b2 = u.
Proof.
  intros Hu. assert (surrogate_ok u = true) as H.
  { pose proof surrogates_ok as Hall. rewrite forallb_forall in Hall. apply Hall.
    apply list_elem_of_In, elem_of_seqZ. lia. }
  unfold surrogate_ok in H. destruct (surrogate_bytes u) as [|b0 [|b1 [|b2 [|]]]]; try done.
  rewrite !andb_true_iff, !within_true, !Z.eqb_eq in H. destruct H as [[[-> H1] H2] H3]. eauto 10.
Qed.

#[local] Ltac Zify.zify_post_hook ::= Z.to_euclidean_division_equations.

(** No offset inside or at the start of a character starts a surrogate. *)
Definition surrogate_free (w : bytes) : Prop :=
  forall i r, (i < length w)%nat -> is_surrogate (drop i w ++ r) = false.

Lemma is_surrogate_low b t : b < 0xED \/ 0xED < b -> is_surrogate (b :: t) = false.
Proof. intros H. destruct t as [|b1 [|b2 t]]; simpl; try done. by destruct (Z.eqb_spec b 0xED); [lia|]. Qed.

Lemma surrogate_free_char c : is_scalar c -> surrogate_free (encode_utf8 c).
Proof.
  unfold is_scalar, encode_utf8. intros Hc.
  destruct (Z.ltb_spec c 0x80); [|destruct (Z.ltb_spec c 0x800); [|destruct (Z.ltb_spec c 0x10000)]];
    intros [|[|[|[|i]]]] r Hi; simpl in Hi; try lia; cbn [drop app];
    try (apply is_surrogate_low; lia).
  simpl. destruct (Z.eqb_spec (0xE0 + c / 4096) 0xED); [|done].
  destruct (Z.leb_spec 0xA0 (0x80 + c / 64 mod 64)); [lia|done].
Qed.

Lemma surrogate_free_app u v : surrogate_free u -> surrogate_free v -> surrogate_free (u ++ v).
Proof.
  intros Hu Hv i r Hi. rewrite length_app in Hi. destruct (decide (i < length u)%nat).
  - rewrite drop_app_le, <- app_assoc by lia. by apply Hu.
  - rewrite drop_app_ge by lia. apply Hv. lia.
Qed.

Lemma surrogate_free_chars cs : Forall is_scalar cs -> surrogate_free (cs ≫= encode_utf8).
Proof.
  induction 1 as [|c cs Hc _ IH]; [intros i r Hi; simpl in Hi; lia|].
  rewrite bind_cons. apply surrogate_free_app; [by apply surrogate_free_char|done].
Qed.

(** A run ends at the end of the text or where a surrogate starts. *)
Lemma run_length_spec b0 w r :
  surrogate_free (b0 :: w) -> r = [] \/ is_surrogate r = true -> run_length (w ++ r) = length (b0 :: w).
Proof.
  intros Hw Hr. assert (forall i, (i < length w)%nat -> is_surrogate (drop i w ++ r) = false) as H.
  { intros i Hi. apply (Hw (S i) r). simpl; lia. }
  clear Hw. induction w as [|b w IH]; simpl.
  - destruct Hr as [->|Hr]; [done|]. destruct r as [|b r]; [done|]. cbn [run_length]. by rewrite Hr.
  - pose proof (H 0%nat ltac:(simpl; lia)) as H0. simpl in H0.
    cbn [run_length]. change (b :: w ++ r) with ((b :: w) ++ r). simpl app. rewrite H0.
    f_equal. apply IH. intros i Hi. apply (H (S i)). simpl; lia.
Qed.

Lemma chunks_surrogate u r :
  0xD800 <= u <= 0xDFFF ->
  is_surrogate (surrogate_bytes u ++ r) = true /\
  wtf8_chunks (surrogate_bytes u ++ r) = cs ← wtf8_chunks r; Some (Surrogate u :: cs).
Proof.
  intros Hu. destruct (surrogate_bytes_spec u Hu) as (b1 & b2 & -> & H1 & H2 & <-).
  assert (is_surrogate ([0xED; b1; b2] ++ r) = true) as Hs.
  { simpl. apply Z.leb_le. lia. }
  split; [done|]. cbn [app wtf8_chunks]. simpl app in Hs. by rewrite Hs.
Qed.

Lemma chunks_run cs r :
  cs <> [] -> Forall is_scalar cs -> r = [] \/ is_surrogate r = true ->
  wtf8_chunks ((cs ≫= encode_utf8) ++ r) = ks ← wtf8_chunks r; Some (Str cs :: ks).
Proof.
  intros Hne Hcs Hr. pose proof (surrogate_free_chars cs Hcs) as Hf.
  pose proof (from_utf8_encode cs Hcs) as Hd.
  assert (exists b w, cs ≫= encode_utf8 = b :: w) as (b & w & E).
  { destruct cs as [|c cs]; [done|]. rewrite bind_cons.
    destruct (encode_utf8_cons c) as (b & t & ->). simpl; eauto. }
  rewrite E in *. pose proof (run_length_spec b w r Hf Hr) as Hlen.
  pose proof (Hf 0%nat r ltac:(simpl; lia)) as H0. simpl app in H0 |- *. cbn [wtf8_chunks].
  rewrite H0, Hlen, adv_drop. change (b :: w ++ r) with ((b :: w) ++ r).
  rewrite take_app_length, Hd. simpl length. by rewrite Nat.sub_succ, Nat.sub_0_r, drop_app_length.
Qed.

(** The items of a decoded string, split where its first surrogate is. *)
Lemma items_run items :
  Forall wf_item items ->
  exists cs rest, items = (Char <$> cs) ++ rest /\ Forall is_scalar cs /\ Forall wf_item rest /\
    (rest = [] \/ exists u rest', rest = Unpaired u :: rest').
Proof.
  induction 1 as [|[c|u] items Hi Hitems IH].
  - exists [], []. by repeat constructor.
  - destruct IH as (cs & rest & -> & Hcs & Hrest & Hr). exists (c :: cs), rest.
    split_and!; try done. by constructor.
  - exists [], (Unpaired u :: items). split_and!; [done|constructor|by constructor|eauto].
Qed.

Lemma bind_chars (cs : list Z) rest :
  ((Char <$> cs) ++ rest) ≫= item_bytes = (cs ≫= encode_utf8) ++ (rest ≫= item_bytes) /\
  ((Char <$> cs) ++ rest) ≫= units_of = (cs ≫= encode_utf16) ++ (rest ≫= units_of).
Proof.
  induction cs as [|c cs [IH1 IH2]]; [done|]. rewrite fmap_cons. cbn [app].
  by rewrite !bind_cons, IH1, IH2, !app_assoc.
Qed.

Lemma to_wide_cons (o : option (list Chunk)) us k :
  (cs ← o; Some (cs ≫= chunk_units)) = Some us ->
  (cs ← (cs ← o; Some (k :: cs)); Some (cs ≫= chunk_units)) = Some (chunk_units k ++ us).
Proof. destruct o as [cs|]; [|done]. by intros [= <-]. Qed.

Lemma to_wide_items items :
  Forall wf_item items -> to_wide (items ≫= item_bytes) = Some (items ≫= units_of).
Proof.
  remember (length items) as k eqn:Hk. revert items Hk.
  induction k as [k IH] using lt_wf_ind; intros items -> Hi.
  destruct (items_run items Hi) as (cs & rest & -> & Hcs & Hrest & Hr).
  destruct (bind_chars cs rest) as [-> ->].
  assert (to_wide (rest ≫= item_bytes) = Some (rest ≫= units_of) /\
    (rest ≫= item_bytes = [] \/ is_surrogate (rest ≫= item_bytes) = true)) as [Hw Hs].
  { destruct Hr as [->|(u & rest' & ->)]; [by auto|].
    apply Forall_cons in Hrest as [Hu Hrest']. simpl in Hu.
    destruct (chunks_surrogate u (rest' ≫= item_bytes) Hu) as [H1 H2].
    rewrite !bind_cons. split; [|by right]. cbn [item_bytes]. unfold to_wide. rewrite H2.
    apply (to_wide_cons _ _ (Surrogate u)). apply (IH (length rest')); [|done..].
    rewrite length_app. simpl. lia. }
  destruct (decide (cs = [])) as [->|Hne]; [done|].
  unfold to_wide in *. rewrite chunks_run by done. by apply (to_wide_cons _ _ (Str cs)).
Qed.

(** * Properties *)

(** Every UTF-16 string survives its WTF-8 storage: [to_wide] of what [from_wide] stored gives
    back the same units, unpaired surrogates included, and the chunk iterator's [unreachable!] is
    not reached. So [from_wide] is injective. *)
Theorem to_wide_from_wide (units : list Z) :
  Forall is_u16 units -> to_wide (from_wide units) = Some units.
Proof.
  intros Hu. destruct (decode_utf16_spec units Hu) as [Hb Hw].
  unfold from_wide. by rewrite to_wide_items, Hb.
Qed.

Lemma to_wide_from_wide_witness :
  to_wide (from_wide [0x43; 0xD83D; 0xDE00; 0xDE00; 0xD800; 0xE000]) =
  Some [0x43; 0xD83D; 0xDE00; 0xDE00; 0xD800; 0xE000].
Proof. apply to_wide_from_wide. unfold is_u16. repeat (constructor; [lia|]). constructor. Defined.

(** [from_wide] of [to_wide] is the identity on stored strings, so a stored string and its units
    determine each other; and the stored string is UTF-8 exactly when no unit is an unpaired
    surrogate. *)
Theorem from_wide_to_wide (b : bytes) :
  wtf8 b ->
  exists units, to_wide b = Some units /\ from_wide units = b /\
    (is_Some (to_str b) <-> Forall (fun i => match i with Char _ => True | Unpaired _ => False end)
                             (decode_utf16 units)).
Proof.
  intros (us & Hus & ->). exists us. destruct (decode_utf16_spec us Hus) as [Hb Hw].
  split; [unfold from_wide; by rewrite to_wide_items, Hb|]. split; [done|].
  unfold to_str, from_wide. generalize dependent (decode_utf16 us). clear. intros items _ Hw. split.
  - intros [s Hs]. destruct (from_utf8 (items ≫= item_bytes)) as [cs|] eqn:E; [|done].
    apply from_utf8_Ok in E as [Hcs E]. pose proof (surrogate_free_chars cs Hcs) as Hf.
    rewrite <- E in Hf. clear E Hs. induction Hw as [|[c|u] items Hi Hw IH]; [constructor| |].
    + constructor; [done|]. apply IH. intros i r Hlt. rewrite bind_cons in Hf. cbn [item_bytes] in Hf.
      specialize (Hf (length (encode_utf8 c) + i)%nat r). rewrite drop_app_add in Hf.
      apply Hf. rewrite length_app. lia.
    + exfalso. rewrite bind_cons in Hf. cbn [item_bytes] in Hf. simpl in Hi.
      destruct (chunks_surrogate u (items ≫= item_bytes) Hi) as [H1 _].
      specialize (Hf 0%nat []). rewrite drop_0, app_nil_r, H1 in Hf. enough (true = false) by done.
      apply Hf. rewrite length_app. simpl. lia.
  - intros H. assert (exists cs, items = Char <$> cs /\ Forall is_scalar cs) as (cs & -> & Hcs).
    { clear -H Hw. induction items as [|[c|u] items IH]; [by exists []| |].
      - apply Forall_cons in H as [_ H], Hw as [Hc Hw]. destruct (IH Hw H) as (cs & -> & ?).
        exists (c :: cs). split; [done|]. by constructor.
      - by apply Forall_cons in H as [? _]. }
    pose proof (bind_chars cs []) as [Hb _]. simpl in Hb. rewrite !app_nil_r in Hb.
    rewrite Hb, from_utf8_encode by done. eauto.
Qed.

Lemma from_wide_to_wide_witness :
  exists units, to_wide [0xED; 0xA0; 0x80] = Some units /\ from_wide units = [0xED; 0xA0; 0x80] /\
    (is_Some (to_str [0xED; 0xA0; 0x80]) <->
      Forall (fun i => match i with Char _ => True | Unpaired _ => False end) (decode_utf16 units)).
Proof.
  apply from_wide_to_wide. exists [0xD800]. split; [|reflexivity].
  constructor; [unfold is_u16; lia|constructor].
Defined.
