(* ===== verification/WindowsPath.v ===== *)
(** Windows paths, [cosca-path/src/windows.rs]: the anchor a path starts with, its components, and
    the operations of [Path] and [PathBuf]. A path is its stored text, WTF-8 bytes. *)
From S2P Require Import Prelude PathComponent Utf OsStrWide.
Local Open Scope Z_scope.

(** * Operations *)

Definition VERBATIM : bytes := bs "\\?\".

(** One UTF-16 unit. *)
Record Drive := drive_of { unit_ : Z }.

(** [Anchor::None] is [NoAnchor]. *)
Inductive Anchor :=
| NoAnchor
| Rooted
| OnDrive (drive : Drive) (rooted : bool)
| Unc (server share : bytes)
| Device (name : bytes).

#[export] Instance Drive_eq_dec : EqDecision Drive.
Proof. solve_decision. Defined.

#[export] Instance Anchor_eq_dec : EqDecision Anchor.
Proof. solve_decision. Defined.

Definition is_verbatim_spelling (s : bytes) : bool := starts_with VERBATIM s.

Definition is_separator (b : Z) : bool := (b =? 92) || (b =? 47).

Definition next_separator (b : bytes) (from : nat) : nat :=
  match position is_separator (drop from b) with None => length b | Some i => (from + i)%nat end.

Definition drive_len (b : bytes) : option nat :=
  match b with
  | [] => None
  | b0 :: _ =>
      let colon (unit : nat) := if decide (b !! unit = Some 58) then Some (S unit) else None in
      if b0 <? 0x80 then colon 1%nat
      else if 0xF0 <=? b0 then None
      else if 0xE0 <=? b0 then colon 3%nat
      else colon 2%nat
  end.

Definition reads_as_drive (name : bytes) : bool :=
  match drive_len name with Some _ => true | None => false end.

(** The anchor, the length of its text, whether a root separator follows, whether an unfinished
    anchor ends in a separator, and the root that Win32 resolves a loose name against. *)
Record Parts := parts_of {
  anchor_of : Anchor;
  head_len : nat;
  root_sep : bool;
  open_end : bool;
  loose_root : option nat;
}.

Definition start (p : Parts) : nat := (head_len p + (if root_sep p then 1 else 0))%nat.

Definition unfinished (p : Parts) : option bool :=
  match anchor_of p with
  | Unc _ [] => Some (open_end p)
  | Device [] => Some (open_end p)
  | _ => None
  end.

(** [bytes.get(i).is_some_and(is_separator)]. *)
Definition sep_at (b : bytes) (i : nat) : bool :=
  match b !! i with Some x => is_separator x | None => false end.

(** A name that changes nothing under a loose root. *)
Definition skipped_name (name : bytes) : bool :=
  match component name with Normal _ => false | _ => true end.

(** The loop of [loose_parts]: [rest] is the text from [start_] on, [prev] the byte before it. *)
Fixpoint loose_loop (root : nat) (mk : bytes -> Anchor) (rest : bytes) (start_ : nat) (prev : Z) : Parts :=
  match rest with
  | [] => parts_of (mk []) start_ false (is_separator prev) (Some root)
  | b0 :: tl =>
      match position is_separator rest with
      | None =>
          let end_ := (start_ + length rest)%nat in
          if negb (skipped_name rest) then parts_of (mk rest) end_ false false (Some root)
          else parts_of (mk []) end_ false (is_separator (List.last rest prev)) (Some root)
      | Some n =>
          let name := take n rest in
          let end_ := (start_ + n)%nat in
          if negb (skipped_name name) then parts_of (mk name) end_ true false (Some root)
          else loose_loop root mk (adv tl n) (S end_) 92
      end
  end.

Definition loose_parts (b : bytes) (root : nat) (mk : bytes -> Anchor) : Parts :=
  loose_loop root mk (drop root b) root (List.last (take root b) 0).

Definition plain (a : Anchor) (head : nat) (root : bool) : Parts := parts_of a head root false None.

(** [text.to_wide()[0]]. The index panics on no unit, and the chunk iterator on ill-formed text;
    both are the 0 here, which [drive_one_unit] shows is not reached. *)
Definition first_unit (t : bytes) : Z :=
  match to_wide t with Some (u :: _) => u | _ => 0 end.

(** [&bytes[from..to]]. *)
Definition slice (b : bytes) (from to : nat) : bytes := drop from (take to b).

Definition unc_parts (b : bytes) : Parts :=
  let server_end := next_separator b 2 in
  let server := slice b 2 server_end in
  if negb (sep_at b server_end) then plain (Unc server []) server_end false
  else if sep_at b (S server_end) || bool_decide (S server_end = length b)
  then loose_parts b (S server_end) (Unc server)
  else
    let share_end := next_separator b (S server_end) in
    plain (Unc server (slice b (S server_end) share_end)) share_end (sep_at b share_end).

Definition dot_or_question (b : bytes) : bool :=
  match b !! 2%nat with Some c => (c =? 46) || (c =? 63) | None => false end.

Definition parts (b : bytes) : Parts :=
  if sep_at b 0 then
    if negb (sep_at b 1) then plain Rooted 0 true
    else if dot_or_question b && bool_decide (length b = 3%nat) then plain (Device []) 3 false
    else if dot_or_question b && sep_at b 3 then loose_parts b 4 Device
    else unc_parts b
  else
    match drive_len b with
    | Some len =>
        let rooted := sep_at b len in
        plain (OnDrive (drive_of (first_unit (take (len - 1) b))) rooted) len rooted
    | None => plain NoAnchor 0 false
    end.

Definition anchor (p : bytes) : Anchor := anchor_of (parts p).

Definition drive (p : bytes) : option Drive := match anchor p with OnDrive d _ => Some d | _ => None end.

Definition is_fully_qualified (p : bytes) : bool :=
  match anchor p with
  | OnDrive _ rooted => rooted
  | Unc server share => negb (bool_decide (server = [])) && negb (bool_decide (share = []))
  | Device _ => bool_decide (3 < length p)%nat
  | NoAnchor | Rooted => false
  end.

Definition is_drive_relative (p : bytes) : bool :=
  match anchor p with OnDrive _ false => true | _ => false end.

Definition is_rooted (p : bytes) : bool := bool_decide (anchor p = Rooted).

(** [as_unc]: the server, the share and the rest. *)
Definition as_unc (p : bytes) : option (bytes * bytes * bytes) :=
  let ps := parts p in
  match anchor_of ps with
  | Unc server share =>
      let separators := length (span is_separator (drop (head_len ps) p)).1 in
      Some (server, share, drop (head_len ps + (separators - 1)) p)
  | _ => None
  end.

(** The components front to back. *)
Definition components (p : bytes) : list Component :=
  match drop (start (parts p)) p with
  | [] => []
  | rest => component <$> split_on is_separator rest
  end.

Definition loose_name_start (p : bytes) : option nat :=
  let ps := parts p in
  match loose_root ps with
  | None => None
  | Some _ =>
      match anchor_of ps with
      | Device name | Unc _ name => Some (head_len ps - length name)%nat
      | _ => None
      end
  end.

Definition has_navigated_name (p : bytes) : bool :=
  let skipped :=
    match loose_root (parts p) with
    | Some root => bool_decide (loose_name_start p <> Some root)
    | None => false
    end in
  let cs := components p in
  let last_ := (length cs - 1)%nat in
  skipped ||
  existsb (fun ic => match ic.2 with
    | CurDir | ParentDir => true
    | Empty => negb (bool_decide (ic.1 = last_))
    | Normal _ => false
    end) (imap pair cs).

Definition needs_separator_to_append (p : bytes) : bool :=
  let ps := parts p in
  bool_decide (start ps < length p)%nat ||
  match unfinished ps with
  | Some has_separator => negb has_separator
  | None => negb (root_sep ps || match anchor_of ps with OnDrive _ _ | NoAnchor => true | _ => false end)
  end.

Definition respell_verbatim (b : bytes) : bytes :=
  if starts_with VERBATIM b then <[3%nat := 47]> b else b.

Definition append_relative (p rest : bytes) : bytes :=
  match rest with
  | [] => p
  | _ =>
      let p := if needs_separator_to_append p && negb (bool_decide (p = [])) then p ++ [92] else p in
      respell_verbatim (p ++ rest)
  end.

Definition join (p rhs : bytes) : bytes :=
  match anchor rhs with
  | NoAnchor => append_relative p rhs
  | Rooted =>
      let lhs := parts p in
      match anchor_of lhs with
      | OnDrive _ _ | Unc _ _ | Device _ =>
          let head :=
            (head_len lhs - (if bool_decide (unfinished lhs = Some true) then 1 else 0))%nat in
          respell_verbatim (take head p ++ rhs)
      | _ => rhs
      end
  | _ => rhs
  end.

Definition parent (p : bytes) : option bytes :=
  let start := start (parts p) in
  let rest := drop start p in
  match rest with
  | [] => None
  | _ =>
      let end_ := match rposition is_separator rest with None => start | Some i => (start + i)%nat end in
      Some (take end_ p)
  end.

Definition file_name (p : bytes) : option bytes :=
  match last (components p) with Some (Normal name) => Some name | _ => None end.

Definition is_absolute (p : bytes) : bool := is_fully_qualified p.

Definition is_bare_name (p : bytes) : bool :=
  negb (bool_decide (p = [])) && negb (existsb is_separator p) && bool_decide (anchor p = NoAnchor).

(** One turn of [lexically_normal]'s loop: [names] and [trailing]. *)
Definition normal_step (root : bool) (acc : list Component * bool) (c : Component)
    : list Component * bool :=
  let '(names, trailing) := acc in
  match c with
  | Normal _ => (names ++ [c], false)
  | Empty => (names, negb (bool_decide (names = [])) || negb root)
  | CurDir => (names, false)
  | ParentDir =>
      match last names with
      | Some (Normal _) => (removelast names, false)
      | None => if root then (names, false) else (names ++ [c], false)
      | _ => (names ++ [c], false)
      end
  end.

Definition ends_in_separator (b : bytes) : bool :=
  match last b with Some x => is_separator x | None => false end.

Definition lexically_normal (p : bytes) : bytes :=
  match p with
  | [] => []
  | _ =>
      let ps := parts p in
      let '(prefix, root, pieces) :=
        match loose_root ps with
        | Some len => (len, true, component <$> split_on is_separator (drop len p))
        | None => (start ps, root_sep ps, components p)
        end in
      let out := take prefix p in
      let share_separator :=
        bool_decide (loose_root ps = None) && root_sep ps &&
        match anchor_of ps with Unc _ _ => true | _ => false end in
      let '(names, trailing) := foldl (normal_step root) ([], false) pieces in
      let out :=
        if share_separator && bool_decide (names = []) && negb (ends_in_separator p)
        then removelast out else out in
      let out :=
        if bool_decide (anchor_of ps = NoAnchor) &&
           match names with c :: _ => reads_as_drive (text c) | [] => false end
        then out ++ [46; 92] else out in
      let out := out ++ intercalate 92 (text <$> names) in
      let out :=
        if trailing then (if bool_decide (names = []) then out ++ [46] else out) ++ [92] else out in
      match out with [] => [46] | _ => out end
  end.

Definition fold_separator (b : Z) : Z := if b =? 47 then 92 else b.

(** [PartialEq::eq]. *)
Definition eq (p q : bytes) : bool :=
  bool_decide (length p = length q) && bool_decide (fold_separator <$> p = fold_separator <$> q).

Definition anchor_rank (a : Anchor) : Z :=
  match a with NoAnchor => 0 | Rooted => 1 | OnDrive _ _ => 2 | Unc _ _ => 3 | Device _ => 4 end.

(** [#[derive(Ord)]] of [Anchor]. *)
Definition anchor_compare (a1 a2 : Anchor) : comparison :=
  match a1, a2 with
  | OnDrive d1 r1, OnDrive d2 r2 => then_with (Z.compare (unit_ d1) (unit_ d2)) (bool_compare r1 r2)
  | Unc s1 h1, Unc s2 h2 => then_with (lex_compare Z.compare s1 s2) (lex_compare Z.compare h1 h2)
  | Device n1, Device n2 => lex_compare Z.compare n1 n2
  | _, _ => Z.compare (anchor_rank a1) (anchor_rank a2)
  end.

Definition cmp (p q : bytes) : comparison :=
  then_with (anchor_compare (anchor p) (anchor q))
    (then_with (lex_compare component_compare (components p) (components q))
       (lex_compare Z.compare (fold_separator <$> p) (fold_separator <$> q))).

Inductive ParseError :=
| SlashInVerbatim
| UnspellableUncServer
| DotOrEmptyNameInVerbatim.

(** The text a verbatim [rest] is stored as. *)
Definition plain_spelling (rest : bytes) : result ParseError bytes :=
  let is_drive :=
    bool_decide (head rest <> Some 92) &&
    match drive_len rest with Some len => bool_decide (rest !! len = Some 92) | None => false end in
  let unc :=
    if bool_decide (4 <= length rest)%nat && eq_ignore_ascii_case (take 3 rest) (bs "UNC") &&
       bool_decide (rest !! 3%nat = Some 92)
    then Some (drop 4 rest) else None in
  if is_drive then Ok rest
  else match unc with
  | Some unc =>
      let server := take (next_separator unc 0) unc in
      if bool_decide (server = [46]) || bool_decide (server = [63]) then Err UnspellableUncServer
      else Ok (bs "\\" ++ unc)
  | None => Ok (bs "\\.\" ++ rest)
  end.

(** [PathBuf::parse]. *)
Definition parse (s : bytes) : result ParseError bytes :=
  match strip_prefix VERBATIM s with
  | None => Ok s
  | Some rest =>
      if bool_decide (47 ∈ rest) then Err SlashInVerbatim
      else
        let? plain := plain_spelling rest in
        if has_navigated_name plain then Err DotOrEmptyNameInVerbatim else Ok plain
  end.

(** [PathBuf::from_wide]. *)
Definition parse_wide (units : list Z) : result ParseError bytes := parse (from_wide units).

Definition push (p rhs : bytes) : bytes := join p rhs.

Definition pop (p : bytes) : bool * bytes :=
  match length <$> parent p with
  | None => (false, p)
  | Some len => (true, take len p)
  end.

Definition set_file_name (p name : bytes) : bytes :=
  let replaced := match file_name p with Some _ => true | None => false end in
  let p :=
    if replaced then
      let start := start (parts p) in
      let keep := match rposition is_separator (drop start p) with
                  | None => start | Some i => (start + i + 1)%nat end in
      take keep p
    else p in
  match p with
  | [] => (if reads_as_drive name then [46; 92] else []) ++ name
  | _ => if replaced then p ++ name else append_relative p name
  end.

(** [Path] with its [==], for the code that is generic over the paths. *)
Record Path := mk_path { os_str : bytes }.

#[export] Instance windows_PurePath : PurePath Path.
Proof.
  refine {| path_eq := fun p q => fold_separator <$> os_str p = fold_separator <$> os_str q |}.
  - split; [by intros p|by intros p q|]. intros p q r H1 H2. by etransitivity.
  - intros p q. exact (decide (fold_separator <$> os_str p = fold_separator <$> os_str q)).
Defined.

(** * Lemmas: separators and slices *)

Lemma fold_sep b : is_separator (fold_separator b) = is_separator b.
Proof.
  unfold fold_separator, is_separator. destruct (b =? 47) eqn:E; [by apply Z.eqb_eq in E as ->|].
  by rewrite E.
Qed.

Lemma fold_nonsep b : is_separator b = false -> fold_separator b = b.
Proof. unfold fold_separator, is_separator. destruct (Z.eqb_spec b 47) as [->|]; [done|done]. Qed.

Lemma fold_sep_92 b : is_separator b = true -> fold_separator b = 92.
Proof.
  unfold fold_separator, is_separator. destruct (Z.eqb_spec b 92) as [->|]; [done|].
  by destruct (Z.eqb_spec b 47).
Qed.

Lemma fold_free (w : bytes) : free is_separator w -> fold_separator <$> w = w.
Proof. induction 1 as [|b w Hb _ IH]; [done|]. by rewrite fmap_cons, IH, fold_nonsep. Qed.

Lemma eq_fold p q : eq p q = true <-> fold_separator <$> p = fold_separator <$> q.
Proof.
  unfold eq. rewrite andb_true_iff, !bool_decide_eq_true. split; [tauto|]. intros H. split; [|done].
  by rewrite <- (length_fmap fold_separator p), H, length_fmap.
Qed.

(** The pieces joined with backslashes are the text, up to the choice of separator. *)
Lemma intercalate_fold (l : bytes) :
  intercalate 92 (split_on is_separator l) = fold_separator <$> l.
Proof.
  induction l as [|x l IH]; [done|]. cbn [split_on].
  pose proof (split_on_ne is_separator l) as Hne. rewrite fmap_cons.
  destruct (is_separator x) eqn:E.
  - rewrite intercalate_cons, fold_sep_92 by done. simpl. by rewrite IH.
  - rewrite fold_nonsep by done. rewrite <- IH. by destruct (split_on is_separator l) as [|w [|w' ws]].
Qed.

Lemma sep_at_lt b i : sep_at b i = true -> (i < length b)%nat.
Proof. unfold sep_at. destruct (b !! i) eqn:E; [|done]. intros _. by eapply lookup_lt_Some. Qed.

Lemma sep_at_app b r i : (i < length b)%nat -> sep_at (b ++ r) i = sep_at b i.
Proof. intros H. unfold sep_at. by rewrite lookup_app_l. Qed.

Lemma sep_at_drop b i : sep_at b i = true -> exists x r, drop i b = x :: r /\ is_separator x = true.
Proof.
  unfold sep_at. destruct (b !! i) as [x|] eqn:E; [|done]. intros H. exists x, (drop (S i) b).
  split; [by apply drop_S|done].
Qed.

(** The first separator after [from]: the text before it is free of separators. *)
Lemma next_separator_spec b from :
  (from <= length b)%nat ->
  (from <= next_separator b from <= length b)%nat /\
  free is_separator (slice b from (next_separator b from)) /\
  (sep_at b (next_separator b from) = true \/ next_separator b from = length b).
Proof.
  intros Hf. unfold next_separator, slice. destruct (position is_separator (drop from b)) as [i|] eqn:E.
  - apply position_Some in E as (l1 & x & l2 & E & <- & Hx & Hl).
    assert (length (drop from b) = length l1 + S (length l2))%nat as Hlen
      by by rewrite E, length_app.
    rewrite length_drop in Hlen. split; [lia|]. split.
    + rewrite skipn_firstn_comm. replace (from + length l1 - from)%nat with (length l1) by lia.
      by rewrite E, take_app_length.
    + left. unfold sep_at. by rewrite <- lookup_drop, E, list_lookup_middle.
  - apply position_None in E. split; [lia|]. split; [|by right]. by rewrite firstn_all.
Qed.

Lemma position_app_l {A} (f : A -> bool) l r i : position f l = Some i -> position f (l ++ r) = Some i.
Proof.
  intros (l1 & x & l2 & -> & <- & Hx & Hl)%position_Some. rewrite <- app_assoc. by apply position_app.
Qed.

(** Where the first separator is does not depend on what follows it. *)
Lemma next_separator_app b r from :
  (next_separator b from < length b)%nat -> next_separator (b ++ r) from = next_separator b from.
Proof.
  unfold next_separator. destruct (position is_separator (drop from b)) as [i|] eqn:E; [|lia].
  intros H. rewrite drop_app_le by lia. by rewrite (position_app_l _ _ _ _ E).
Qed.

Lemma next_separator_end b x r from :
  (from <= length b)%nat -> next_separator b from = length b -> is_separator x = true ->
  next_separator (b ++ x :: r) from = length b.
Proof.
  intros Hf H Hx. unfold next_separator in *. rewrite drop_app_le by lia.
  destruct (position is_separator (drop from b)) as [i|] eqn:E.
  - apply position_Some in E as (l1 & y & l2 & E & <- & _ & _).
    assert (length (drop from b) = length l1 + S (length l2))%nat as Hlen by by rewrite E, length_app.
    rewrite length_drop in Hlen. lia.
  - apply position_None in E. rewrite position_app, length_drop by done. lia.
Qed.

Lemma slice_app b r from to : (to <= length b)%nat -> slice (b ++ r) from to = slice b from to.
Proof. intros H. unfold slice. by rewrite take_app_le. Qed.

Lemma slice_ne b from to : (from < to <= length b)%nat -> slice b from to <> [].
Proof.
  intros H E. apply (f_equal length) in E. unfold slice in E.
  rewrite length_drop, length_take in E. simpl in E. lia.
Qed.

(** * Lemmas: the parts of a path *)

Lemma position_lt {A} (f : A -> bool) l n : position f l = Some n -> (n < length l)%nat.
Proof. intros (l1 & x & l2 & -> & <- & _)%position_Some. rewrite length_app. simpl. lia. Qed.

(** What the loop finds: text it skips, then the name, which ends at a separator or at the end. *)
Lemma loose_loop_spec root mk rest st prev :
  let ps := loose_loop root mk rest st prev in
  exists pre name post, rest = pre ++ name ++ post /\ free is_separator name /\
    head_len ps = (st + length pre + length name)%nat /\
    anchor_of ps = mk name /\ loose_root ps = Some root /\
    (name = [] /\ post = [] /\ root_sep ps = false \/
     name <> [] /\ post = [] /\ root_sep ps = false \/
     name <> [] /\ exists x q, post = x :: q /\ is_separator x = true /\ root_sep ps = true).
Proof.
  remember (length rest) as k eqn:Hk. revert rest st prev Hk.
  induction k as [k IH] using lt_wf_ind; intros rest st prev ->.
  destruct rest as [|b0 tl].
  { exists [], [], []. split_and!; simpl; try done; [by constructor|lia|by left]. }
  cbn [loose_loop]. destruct (position is_separator (b0 :: tl)) as [n|] eqn:E.
  - pose proof (position_lt _ _ _ E) as Hn.
    apply position_Some in E as (l1 & x & l2 & E & <- & Hx & Hl1). rewrite E, take_app_length.
    destruct (skipped_name l1) eqn:Hs; cbn [negb].
    + rewrite adv_drop. assert (drop (length l1) tl = l2) as ->.
      { transitivity (drop (S (length l1)) (b0 :: tl)); [done|]. rewrite E.
        rewrite drop_app_ge by lia. replace (S (length l1) - length l1)%nat with 1%nat by lia.
        simpl. by rewrite drop_0. }
      destruct (IH (length l2)) with (rest := l2) (st := S (st + length l1)) (prev := 92)
        as (pre & name & post & -> & Hf & Hh & H); [rewrite E, length_app; simpl; lia|done|].
      exists (l1 ++ x :: pre), name, post. split_and!; try tauto.
      * by rewrite <- app_assoc.
      * rewrite Hh, length_app. simpl. lia.
    + exists [], l1, (x :: l2). split_and!; simpl; try done; [lia|]. right; right.
      split; [by intros ->|eauto].
  - apply position_None in E. destruct (skipped_name (b0 :: tl)) eqn:Hs; cbn [negb].
    + exists (b0 :: tl), [], []. split_and!; [by rewrite app_nil_r|apply free_nil|simpl; lia|done|done|by left].
    + exists [], (b0 :: tl), []. rewrite app_nil_r. split_and!; simpl; try done; [lia|]. right; left. done.
Qed.

(** The head ends inside the text, at a separator where there is a root separator. *)
Definition in_bounds (p : bytes) (ps : Parts) : Prop :=
  (head_len ps <= length p)%nat /\ (root_sep ps = true -> sep_at p (head_len ps) = true).

Lemma loose_parts_bounds p root mk : (root <= length p)%nat -> in_bounds p (loose_parts p root mk).
Proof.
  intros Hr. unfold loose_parts, in_bounds.
  destruct (loose_loop_spec root mk (drop root p) root (List.last (take root p) 0))
    as (pre & name & post & E & _ & -> & _ & _ & H).
  assert (length p = root + length pre + length name + length post)%nat as Hlen.
  { apply (f_equal length) in E. rewrite length_drop, !length_app in E. lia. }
  split; [lia|]. intros Ht. destruct H as [(_ & _ & H)|[(_ & _ & H)|(_ & x & q & -> & Hx & _)]]; [congruence..|].
  unfold sep_at. rewrite <- Nat.add_assoc, <- lookup_drop, E, app_assoc, <- length_app, list_lookup_middle; done.
Qed.

Lemma drive_len_Some b n :
  drive_len b = Some n ->
  b !! (n - 1)%nat = Some 58 /\ (2 <= n <= length b)%nat.
Proof.
  unfold drive_len. destruct b as [|b0 tl]; [done|].
  repeat match goal with |- context [if ?c then _ else _] => destruct c as [H|H] end; try done;
    intros [= <-]; rewrite ?Nat.sub_succ, ?Nat.sub_0_r; split; try done;
    repeat match goal with H : _ !! _ = Some _ |- _ => apply lookup_lt_Some in H; simpl in H end; simpl; lia.
Qed.

Lemma parts_bounds p : in_bounds p (parts p).
Proof.
  unfold parts. destruct (sep_at p 0) eqn:E0.
  - destruct (sep_at p 1) eqn:E1; cbn [negb]; [|split; simpl; [lia|done]].
    apply sep_at_lt in E1 as H1.
    destruct (dot_or_question p && bool_decide (length p = 3%nat)) eqn:E3.
    { rewrite andb_true_iff, bool_decide_eq_true in E3. split; simpl; [lia|done]. }
    destruct (dot_or_question p && sep_at p 3) eqn:E4.
    { apply andb_true_iff in E4 as [_ ?%sep_at_lt]. apply loose_parts_bounds. lia. }
    unfold unc_parts. destruct (next_separator_spec p 2) as (Hb & _ & Hs); [lia|].
    destruct (sep_at p (next_separator p 2)) eqn:Es; cbn [negb]; [|split; simpl; [lia|done]].
    apply sep_at_lt in Es as Hlt. destruct (_ || _); [apply loose_parts_bounds; lia|].
    destruct (next_separator_spec p (S (next_separator p 2))) as (Hb' & _ & _); [lia|].
    split; simpl; [lia|done].
  - destruct (drive_len p) as [n|] eqn:E; [|split; [simpl; lia|done]].
    apply drive_len_Some in E as [_ ?]. split; simpl; [lia|done].
Qed.

Lemma start_le p : (start (parts p) <= length p)%nat.
Proof.
  unfold start. destruct (parts_bounds p) as [H1 H2]. destruct (root_sep (parts p)); [|lia].
  specialize (H2 eq_refl). apply sep_at_lt in H2. lia.
Qed.

(** The text of the anchor, without the root separator. *)
Definition head_text (p : bytes) : bytes := take (head_len (parts p)) p.

Definition root_text (p : bytes) : bytes := if root_sep (parts p) then [92] else [].

Lemma components_text p : intercalate 92 (text <$> components p) = fold_separator <$> drop (start (parts p)) p.
Proof.
  unfold components. destruct (drop _ p) as [|b r] eqn:E; [done|].
  rewrite text_component_map. apply intercalate_fold.
Qed.

(** The head, the root separator and the components spell the path. *)
Lemma spell_parts p :
  fold_separator <$> p =
  (fold_separator <$> head_text p) ++ root_text p ++ intercalate 92 (text <$> components p).
Proof.
  rewrite components_text. unfold head_text, root_text, start.
  destruct (parts_bounds p) as [H1 H2]. destruct (root_sep (parts p)).
  - destruct (sep_at_drop _ _ (H2 eq_refl)) as (x & r & E & Hx).
    rewrite <- (take_drop (head_len (parts p)) p) at 1. rewrite fmap_app, E, fmap_cons, fold_sep_92 by done.
    f_equal. simpl. f_equal. rewrite <- drop_drop, E. simpl. by rewrite drop_0.
  - rewrite Nat.add_0_r. simpl. by rewrite <- fmap_app, take_drop.
Qed.

(** * Lemmas: the drive of well-formed text *)

#[local] Ltac Zify.zify_post_hook ::= Z.to_euclidean_division_equations.

(** The bytes of one decoded unit or pair: one ASCII byte, or all from 0x80 up. *)
Lemma item_bytes_high i :
  wf_item i -> (exists c, i = Char c /\ 0 <= c < 0x80) \/ Forall (fun b => 0x80 <= b) (item_bytes i).
Proof.
  destruct i as [c|u]; simpl; intros H.
  - destruct (decide (c < 0x80)); [left; exists c; unfold is_scalar in H; split; [done|lia]|]. right.
    unfold is_scalar in H. unfold encode_utf8.
    zcases; repeat constructor; lia.
  - right. destruct (surrogate_bytes_spec u H) as (b1 & b2 & -> & H1 & H2 & _).
    repeat constructor; lia.
Qed.

(** A leading drive is one UTF-16 unit, then a colon. *)
Lemma drive_len_item i r :
  wf_item i ->
  drive_len (item_bytes i ++ r) =
  if decide (head r = Some 58 /\ length (units_of i) = 1%nat) then Some (S (length (item_bytes i))) else None.
Proof.
  intros Hi. assert (forall o : option Z, o = Some 58 <-> o = Some 58 /\ 1%nat = 1%nat) as Ht by tauto.
  destruct i as [c|u]; simpl in Hi.
  - unfold is_scalar in Hi. cbn [item_bytes units_of]. unfold encode_utf8, encode_utf16.
    destruct (Z.ltb_spec c 0x80); [|destruct (Z.ltb_spec c 0x800); [|destruct (Z.ltb_spec c 0x10000)]];
      cbn [app drive_len length].
    + rewrite (proj2 (Z.ltb_lt c 0x80)), (proj2 (Z.ltb_lt c 0x10000)) by lia. cbn [length].
      destruct r; simpl; repeat case_decide; tauto || naive_solver.
    + rewrite (proj2 (Z.ltb_ge _ 0x80)), (proj2 (Z.leb_gt 0xF0 _)), (proj2 (Z.leb_gt 0xE0 _)),
        (proj2 (Z.ltb_lt c 0x10000)) by lia. destruct r; simpl; repeat case_decide; naive_solver.
    + rewrite (proj2 (Z.ltb_ge _ 0x80)), (proj2 (Z.leb_gt 0xF0 _)), (proj2 (Z.leb_le 0xE0 _)) by lia. destruct r; simpl; repeat case_decide; naive_solver.
    + rewrite (proj2 (Z.ltb_ge _ 0x80)), (proj2 (Z.leb_le 0xF0 _)) by lia.
      simpl. case_decide; naive_solver.
  - destruct (surrogate_bytes_spec u Hi) as (b1 & b2 & E & _). cbn [item_bytes units_of].
    rewrite E. destruct r; simpl; repeat case_decide; naive_solver.
Qed.

(** Well-formed text is the bytes of its items. *)
Lemma wtf8_items p : wtf8 p -> exists items, Forall wf_item items /\ p = items ≫= item_bytes.
Proof.
  intros (us & Hus & ->). destruct (decode_utf16_spec us Hus) as [_ Hw]. by exists (decode_utf16 us).
Qed.

Lemma item_bytes_ne i : wf_item i -> item_bytes i <> [].
Proof.
  destruct i as [c|u]; simpl; [|done]. intros _ H. destruct (encode_utf8_cons c) as (b & t & E).
  by rewrite E in H.
Qed.

Lemma wtf8_first p :
  wtf8 p -> p <> [] -> exists i r, wf_item i /\ p = item_bytes i ++ r.
Proof.
  intros (items & Hi & ->)%wtf8_items Hne. destruct items as [|i items]; [done|].
  apply Forall_cons in Hi as [Hi _]. exists i, (items ≫= item_bytes). by rewrite bind_cons.
Qed.

Lemma drive_text_free p len :
  wtf8 p -> sep_at p 0 = false -> drive_len p = Some len -> free is_separator (take (len - 1) p).
Proof.
  intros Hw Hs Hd. destruct (wtf8_first p Hw) as (i & r & Hi & ->); [by intros ->|].
  rewrite drive_len_item in Hd by done. case_decide; [|done]. injection Hd as <-.
  rewrite Nat.sub_succ, Nat.sub_0_r, take_app_length.
  destruct (item_bytes_high i Hi) as [(c & -> & Hc)|Hh].
  - simpl in *. unfold encode_utf8 in *. rewrite (proj2 (Z.ltb_lt c 0x80)) in * by lia.
    repeat constructor. done.
  - eapply Forall_impl; [exact Hh|]. intros b Hb. simpl in Hb. unfold is_separator.
    rewrite orb_false_iff, !Z.eqb_neq. lia.
Qed.

(** Nothing appended to text that does not start with a drive makes it start with one, unless the
    text is one unit and the rest starts with the colon. *)
Lemma drive_len_app p r :
  wtf8 p -> p <> [] -> head r <> Some 58 -> drive_len (p ++ r) = drive_len p.
Proof.
  intros Hw Hne Hr. destruct (wtf8_first p Hw Hne) as (i & q & Hi & ->).
  rewrite <- app_assoc, !drive_len_item by done.
  destruct q as [|b q]; [|done]. simpl. repeat case_decide; naive_solver.
Qed.

(** * Lemmas: the choice of separator *)

Lemma position_fold l : position is_separator (fold_separator <$> l) = position is_separator l.
Proof. induction l as [|x l IH]; [done|]. rewrite fmap_cons. simpl. by rewrite fold_sep, IH. Qed.

Lemma last_default {A} (b : A) l d d' : List.last (b :: l) d = List.last (b :: l) d'.
Proof. revert b; induction l as [|b' l IH]; intros b; [done|apply IH]. Qed.

Lemma loose_loop_fold root mk rest st prev prev' :
  is_separator prev = is_separator prev' ->
  loose_loop root mk (fold_separator <$> rest) st prev = loose_loop root mk rest st prev'.
Proof.
  remember (length rest) as k eqn:Hk. revert rest st prev prev' Hk.
  induction k as [k IH] using lt_wf_ind; intros rest st prev prev' -> Hp.
  destruct rest as [|b0 tl]; [by cbn; rewrite Hp|].
  pose proof (position_fold (b0 :: tl)) as Hpos. rewrite fmap_cons in *. cbn [loose_loop].
  rewrite Hpos, <- fmap_cons. destruct (position is_separator (b0 :: tl)) as [n|] eqn:E.
  - rewrite <- fmap_take, !adv_drop.
    apply position_Some in E as (l1 & x & l2 & E & <- & Hx & Hl1). rewrite E, take_app_length.
    rewrite fold_free by done. destruct (negb _); [done|]. rewrite <- fmap_drop.
    apply (IH (length (drop (length l1) tl))); [|done..]. rewrite length_drop. change (length (b0 :: tl)) with (S (length tl)). lia.
  - apply position_None in E. by rewrite fold_free, (last_default b0 tl prev prev').
Qed.

Lemma sep_at_fold p i : sep_at (fold_separator <$> p) i = sep_at p i.
Proof. unfold sep_at. rewrite list_lookup_fmap. destruct (p !! i); [apply fold_sep|done]. Qed.

Lemma next_separator_fold p from : next_separator (fold_separator <$> p) from = next_separator p from.
Proof. unfold next_separator. by rewrite <- fmap_drop, position_fold, length_fmap. Qed.

Lemma slice_fold p from to : slice (fold_separator <$> p) from to = fold_separator <$> slice p from to.
Proof. unfold slice. by rewrite <- fmap_take, <- fmap_drop. Qed.

Lemma fold_eqb b c : c <> 47 -> c <> 92 -> (fold_separator b =? c) = (b =? c).
Proof.
  intros H1 H2. unfold fold_separator. destruct (Z.eqb_spec b 47) as [->|]; [|done].
  by rewrite !(proj2 (Z.eqb_neq _ _)) by congruence.
Qed.

Lemma lookup_fold (p : bytes) (i : nat) c :
  c <> 47 -> c <> 92 -> (fold_separator <$> p) !! i = Some c <-> p !! i = Some c.
Proof.
  intros H1 H2. rewrite list_lookup_fmap. destruct (p !! i) as [b|]; [|done]. simpl.
  pose proof (fold_eqb b c H1 H2) as H.
  assert (fold_separator b = c <-> b = c) as Hb by by rewrite <- !Z.eqb_eq, H.
  split; intros [= E]; f_equal; tauto.
Qed.

Lemma dot_or_question_fold p : dot_or_question (fold_separator <$> p) = dot_or_question p.
Proof.
  unfold dot_or_question. rewrite list_lookup_fmap. destruct (p !! 2%nat); [|done]. simpl.
  by rewrite !fold_eqb.
Qed.

Lemma drive_len_fold p : drive_len (fold_separator <$> p) = drive_len p.
Proof.
  unfold drive_len. destruct p as [|b0 tl]; [done|]. rewrite fmap_cons.
  rewrite <- (fmap_cons fold_separator b0 tl).
  assert ((fold_separator b0 <? 0x80) = (b0 <? 0x80) /\ (0xF0 <=? fold_separator b0) = (0xF0 <=? b0) /\
    (0xE0 <=? fold_separator b0) = (0xE0 <=? b0)) as (-> & -> & ->).
  { unfold fold_separator. by destruct (Z.eqb_spec b0 47) as [->|]. }
  repeat case_match; try done; repeat case_decide; try done; exfalso;
    match goal with H : ~ _ |- _ => apply H end; by eapply lookup_fold.
Qed.

Lemma unc_parts_fold p : (2 <= length p)%nat -> unc_parts (fold_separator <$> p) = unc_parts p.
Proof.
  intros Hp. unfold unc_parts, loose_parts. rewrite !next_separator_fold, !sep_at_fold, !slice_fold, length_fmap.
  destruct (next_separator_spec p 2 Hp) as (Hb & Hf & _). rewrite (fold_free _ Hf).
  destruct (sep_at p (next_separator p 2)) eqn:Es; cbn [negb]; [|done]. apply sep_at_lt in Es.
  destruct (_ || _).
  - rewrite <- fmap_drop. apply loose_loop_fold. rewrite <- fmap_take.
    destruct (take (S (next_separator p 2)) p) as [|b l] eqn:Et; [done|].
    clear. revert b; induction l as [|b' l IH]; intros b; [apply fold_sep|apply IH].
  - destruct (next_separator_spec p (S (next_separator p 2))) as (_ & Hf' & _).
    + lia.
    + by rewrite (fold_free _ Hf').
Qed.

(** Which separators a path uses does not change its parts. *)
Lemma parts_fold p : wtf8 p -> parts (fold_separator <$> p) = parts p.
Proof.
  intros Hw. unfold parts. rewrite !sep_at_fold, dot_or_question_fold, length_fmap, drive_len_fold.
  destruct (sep_at p 0) eqn:E0.
  - destruct (sep_at p 1) eqn:E1; cbn [negb]; [|done]. apply sep_at_lt in E1.
    destruct (_ && bool_decide _); [done|].
    destruct (dot_or_question p && sep_at p 3) eqn:E3; [|apply unc_parts_fold; lia].
    unfold loose_parts. rewrite <- fmap_drop. apply loose_loop_fold. rewrite <- fmap_take.
    destruct (take 4 p) as [|b l] eqn:Et; [done|].
    clear. revert b; induction l as [|b' l IH]; intros b; [apply fold_sep|apply IH].
  - destruct (drive_len p) as [len|] eqn:E; [|done]. pose proof (drive_text_free p len Hw E0 E) as Hf.
    rewrite sep_at_fold, <- fmap_take. by rewrite (fold_free _ Hf).
Qed.

Lemma split_on_fold l :
  split_on is_separator (fold_separator <$> l) = split_on is_separator l.
Proof.
  induction l as [|x l IH]; [done|]. rewrite fmap_cons. cbn [split_on]. rewrite fold_sep, IH.
  destruct (is_separator x) eqn:E; [done|]. by rewrite fold_nonsep.
Qed.

Lemma components_fold p : wtf8 p -> components (fold_separator <$> p) = components p.
Proof.
  intros Hw. unfold components. rewrite parts_fold, <- fmap_drop by done.
  destruct (drop _ p) as [|b l] eqn:E; [done|]. by rewrite <- (split_on_fold (b :: l)), fmap_cons.
Qed.

(** * Lemmas: the order *)

(** The fields an anchor is compared by. *)
Definition anchor_key (a : Anchor) : Z * (bytes * bytes) :=
  (anchor_rank a, match a with
  | NoAnchor | Rooted => ([], [])
  | OnDrive d r => ([unit_ d], [if r then 1 else 0])
  | Unc s h => (s, h)
  | Device n => (n, [])
  end).

Lemma anchor_key_inj a b : anchor_key a = anchor_key b -> a = b.
Proof. destruct a as [| |[] []| |], b as [| |[] []| |]; cbn; naive_solver. Qed.

Definition pair_compare {A B} (f : A -> A -> comparison) (g : B -> B -> comparison) (x y : A * B) :=
  then_with (f x.1 y.1) (g x.2 y.2).

Lemma total_pair {A B} (f : A -> A -> comparison) (g : B -> B -> comparison) :
  TotalCompare f -> TotalCompare g -> TotalCompare (pair_compare f g).
Proof. intros Hf Hg. apply (total_then_with fst snd); [done..|]. intros [] []; simpl; congruence. Qed.

Lemma total_bytes : TotalCompare (lex_compare Z.compare).
Proof. apply total_lex, total_Z. Qed.

Lemma anchor_compare_key a b :
  anchor_compare a b =
  pair_compare Z.compare (pair_compare (lex_compare Z.compare) (lex_compare Z.compare))
    (anchor_key a) (anchor_key b).
Proof.
  unfold pair_compare, then_with. destruct a as [| |[] []| |], b as [| |[] []| |]; simpl; try done;
  repeat match goal with |- context [?x ?= ?y] => destruct (x ?= y) eqn:? end; try done;
  by destruct (lex_compare _ _ _).
Qed.

Lemma total_comap {A B} (cmp : B -> B -> comparison) (f : A -> B) :
  TotalCompare cmp -> (forall x y, f x = f y -> x = y) -> TotalCompare (fun x y => cmp (f x) (f y)).
Proof.
  intros [He Ha Ht] Hinj. split; [|intros; apply Ha|intros a b c; apply Ht].
  intros a b. rewrite He. split; [apply Hinj|by intros ->].
Qed.

Lemma total_ext {A} (cmp cmp' : A -> A -> comparison) :
  (forall x y, cmp x y = cmp' x y) -> TotalCompare cmp' -> TotalCompare cmp.
Proof.
  intros H [He Ha Ht]. split; [intros; rewrite H; apply He|intros; rewrite !H; apply Ha|].
  intros a b c. rewrite !H. apply Ht.
Qed.

Lemma total_anchor : TotalCompare anchor_compare.
Proof.
  eapply total_ext; [apply anchor_compare_key|]. apply (total_comap _ anchor_key); [|apply anchor_key_inj].
  apply total_pair; [apply total_Z|]. apply total_pair; apply total_bytes.
Qed.

Definition path_key (p : bytes) : Anchor * (list Component * bytes) :=
  (anchor p, (components p, fold_separator <$> p)).

Definition key_compare :=
  pair_compare anchor_compare (pair_compare (lex_compare component_compare) (lex_compare Z.compare)).

Lemma total_key : TotalCompare key_compare.
Proof.
  apply total_pair; [apply total_anchor|]. apply total_pair; [apply total_lex, total_component|apply total_bytes].
Qed.

(** * Lemmas: what is appended to a path *)

Lemma loose_loop_app_root root mk rest r st prev :
  root_sep (loose_loop root mk rest st prev) = true ->
  loose_loop root mk (rest ++ r) st prev = loose_loop root mk rest st prev.
Proof.
  remember (length rest) as k eqn:Hk. revert rest st prev Hk.
  induction k as [k IH] using lt_wf_ind; intros [|b0 tl] st prev ->; [done|].
  cbn [loose_loop app]. destruct (position is_separator (b0 :: tl)) as [n|] eqn:E; [|by case_match].
  pose proof (position_lt _ _ _ E) as Hn. rewrite app_comm_cons, (position_app_l _ _ _ _ E), take_app_le by lia.
  destruct (negb _); [done|]. simpl in Hn. rewrite !adv_drop, drop_app_le by lia. apply (IH (length (drop n tl))); [|done].
  rewrite length_drop. simpl. lia.
Qed.

(** A name at the end of the text gets the root separator appended to it. *)
Lemma loose_loop_app_end root mk rest x r st prev :
  is_separator x = true ->
  let ps := loose_loop root mk rest st prev in
  root_sep ps = false ->
  head_len ps = (st + length rest)%nat /\
  (anchor_of ps = mk [] \/
   loose_loop root mk (rest ++ x :: r) st prev = parts_of (anchor_of ps) (head_len ps) true false (Some root)).
Proof.
  intros Hx. remember (length rest) as k eqn:Hk. revert rest st prev Hk.
  induction k as [k IH] using lt_wf_ind; intros [|b0 tl] st prev ->.
  { simpl. intros _. split; [lia|by left]. }
  cbn [loose_loop app]. destruct (position is_separator (b0 :: tl)) as [n|] eqn:E.
  - pose proof (position_lt _ _ _ E) as Hn. simpl in Hn.
    rewrite app_comm_cons, (position_app_l _ _ _ _ E), take_app_le by (simpl; lia).
    destruct (negb _); [done|]. rewrite !adv_drop, drop_app_le by lia. intros Hr.
    destruct (IH (length (drop n tl))) with (rest := drop n tl) (st := S (st + n)) (prev := 92)
      as [Hh H]; [rewrite length_drop; simpl; lia|done|done|].
    split; [|done]. rewrite Hh, length_drop. simpl. lia.
  - apply position_None in E. rewrite app_comm_cons, position_app by done.
    rewrite take_app_length. destruct (negb _); intros _; [split; [done|by right]|split; [done|by left]].
Qed.

Lemma drive_len_app_Some p r len : drive_len p = Some len -> drive_len (p ++ r) = Some len.
Proof.
  unfold drive_len. destruct p as [|b0 tl]; [done|]. simpl app.
  repeat case_match; try done; repeat case_decide; try done; intros _; exfalso;
    match goal with H : ~ _ |- _ => apply H end; rewrite app_comm_cons; by apply lookup_app_l_Some.
Qed.

Lemma dot_or_question_app p r : (3 <= length p)%nat -> dot_or_question (p ++ r) = dot_or_question p.
Proof. intros H. unfold dot_or_question. by rewrite lookup_app_l by lia. Qed.

Lemma dot_or_question_lt p : dot_or_question p = true -> (3 <= length p)%nat.
Proof. unfold dot_or_question. destruct (p !! 2%nat) eqn:E; [|done]. apply lookup_lt_Some in E. lia. Qed.

Lemma loose_parts_app p r root mk :
  (root <= length p)%nat ->
  loose_parts (p ++ r) root mk = loose_loop root mk (drop root p ++ r) root (List.last (take root p) 0).
Proof. intros H. unfold loose_parts. by rewrite drop_app_le, take_app_le. Qed.

(** A device path starts with two separators, [.] or [?]. *)
Lemma parts_device p :
  sep_at p 0 = true -> sep_at p 1 = true -> dot_or_question p = true -> sep_at p 3 = true ->
  parts p = loose_parts p 4 Device.
Proof.
  intros H0 H1 H2 H3. unfold parts. rewrite H0, H1, H2, H3. cbn [negb andb].
  rewrite bool_decide_false; [done|]. apply sep_at_lt in H3. lia.
Qed.

Lemma parts_unc p :
  sep_at p 0 = true -> sep_at p 1 = true ->
  dot_or_question p = false \/ sep_at p 3 = false /\ length p <> 3%nat -> parts p = unc_parts p.
Proof.
  intros H0 H1 H2. unfold parts. rewrite H0, H1. cbn [negb].
  destruct H2 as [-> |[-> H3]]; [done|]. by rewrite (bool_decide_false (length p = 3%nat)), !andb_false_r.
Qed.

(** The shapes of a path, with the parts of each. *)
Inductive shape (p : bytes) : Parts -> Prop :=
| shape_rooted : sep_at p 0 = true -> sep_at p 1 = false -> shape p (plain Rooted 0 true)
| shape_root_device :
    sep_at p 0 = true -> sep_at p 1 = true -> dot_or_question p = true -> length p = 3%nat ->
    shape p (plain (Device []) 3 false)
| shape_device :
    sep_at p 0 = true -> sep_at p 1 = true -> dot_or_question p = true -> sep_at p 3 = true ->
    shape p (loose_parts p 4 Device)
| shape_unc :
    sep_at p 0 = true -> sep_at p 1 = true ->
    dot_or_question p = false \/ sep_at p 3 = false /\ length p <> 3%nat -> shape p (unc_parts p)
| shape_drive len :
    sep_at p 0 = false -> drive_len p = Some len ->
    shape p (plain (OnDrive (drive_of (first_unit (take (len - 1) p))) (sep_at p len)) len (sep_at p len))
| shape_none : sep_at p 0 = false -> drive_len p = None -> shape p (plain NoAnchor 0 false).

Lemma parts_shape p : shape p (parts p).
Proof.
  destruct (sep_at p 0) eqn:E0.
  - destruct (sep_at p 1) eqn:E1; [|unfold parts; rewrite E0, E1; by constructor].
    destruct (dot_or_question p) eqn:E2; [|rewrite parts_unc by auto; by apply shape_unc; auto].
    destruct (decide (length p = 3%nat)) as [E3|E3].
    { unfold parts. rewrite E0, E1, E2, bool_decide_true by done. by constructor. }
    destruct (sep_at p 3) eqn:E4; [rewrite parts_device by done; by constructor|].
    rewrite parts_unc by auto. by apply shape_unc; auto.
  - unfold parts. rewrite E0. destruct (drive_len p) eqn:E; by constructor.
Qed.

(** The shapes of a path with a server. *)
Inductive unc_shape (p : bytes) : Parts -> Prop :=
| unc_server server :
    next_separator p 2 = length p -> unc_shape p (plain (Unc server []) (length p) false)
| unc_loose root server :
    (3 <= root <= length p)%nat -> sep_at p (root - 1) = true -> sep_at p root = true \/ root = length p ->
    unc_shape p (loose_parts p root (Unc server))
| unc_share server share head :
    (4 <= head <= length p)%nat -> share <> [] -> sep_at p head = true \/ head = length p ->
    unc_shape p (plain (Unc server share) head (sep_at p head)).

Lemma unc_parts_shape p : sep_at p 1 = true -> unc_shape p (unc_parts p).
Proof.
  intros H1%sep_at_lt. destruct (next_separator_spec p 2) as (Hb & _ & Hs); [lia|]. unfold unc_parts.
  destruct (sep_at p (next_separator p 2)) eqn:Es; cbn [negb].
  - apply sep_at_lt in Es as Hlt. destruct (sep_at p (S (next_separator p 2))) eqn:E2; cbn [orb].
    { apply unc_loose; [lia| |by left]. by rewrite Nat.sub_succ, Nat.sub_0_r. }
    destruct (decide (S (next_separator p 2) = length p)).
    { rewrite bool_decide_true by done. apply unc_loose; [lia| |by right]. by rewrite Nat.sub_succ, Nat.sub_0_r. }
    rewrite bool_decide_false by done.
    destruct (next_separator_spec p (S (next_separator p 2))) as (Hb' & _ & Hs'); [lia|].
    assert (next_separator p (S (next_separator p 2)) <> S (next_separator p 2)).
    { intros E. destruct Hs' as [Hs'|Hs']; rewrite E in Hs'; [congruence|lia]. }
    apply unc_share; [lia|apply slice_ne; lia|done].
  - destruct Hs as [Hs|Hs]; [congruence|]. rewrite Hs. by apply unc_server.
Qed.

Lemma loose_parts_anchor p root mk : exists name, anchor_of (loose_parts p root mk) = mk name.
Proof.
  unfold loose_parts.
  destruct (loose_loop_spec root mk (drop root p) root (List.last (take root p) 0))
    as (pre & name & post & _ & _ & _ & E & _). by exists name.
Qed.

Lemma loose_parts_app_root p r root mk :
  (root <= length p)%nat -> root_sep (loose_parts p root mk) = true ->
  loose_parts (p ++ r) root mk = loose_parts p root mk.
Proof. intros H Hr. rewrite loose_parts_app by done. by apply loose_loop_app_root. Qed.

(** What a separator appended to a finished anchor without a root makes it. *)
Definition rooted_parts (ps : Parts) : Parts := parts_of (anchor_of ps) (head_len ps) true false (loose_root ps).

Lemma loose_parts_app_end p x r root mk :
  (root <= length p)%nat -> is_separator x = true -> root_sep (loose_parts p root mk) = false ->
  anchor_of (loose_parts p root mk) <> mk [] ->
  head_len (loose_parts p root mk) = length p /\
  loose_parts (p ++ x :: r) root mk = rooted_parts (loose_parts p root mk).
Proof.
  intros H Hx Hr Ha. rewrite loose_parts_app by done. unfold loose_parts in *.
  destruct (loose_loop_app_end root mk (drop root p) x r root (List.last (take root p) 0) Hx Hr) as [Hh [?|Hl]];
    [done|]. rewrite length_drop in Hh. split; [lia|]. rewrite Hl. unfold rooted_parts.
  by destruct (loose_loop_spec root mk (drop root p) root (List.last (take root p) 0))
    as (pre & name & post & _ & _ & _ & _ & -> & _).
Qed.

Lemma unc_parts_app_root p r :
  sep_at p 1 = true -> root_sep (unc_parts p) = true -> unc_parts (p ++ r) = unc_parts p.
Proof.
  intros H1%sep_at_lt. destruct (next_separator_spec p 2) as (Hb & _ & _); [lia|]. unfold unc_parts.
  destruct (sep_at p (next_separator p 2)) eqn:Es; cbn [negb]; [|done].
  apply sep_at_lt in Es as Hlt. rewrite next_separator_app, sep_at_app, Es, slice_app by lia. cbn [negb].
  destruct (decide (S (next_separator p 2) = length p)) as [E|E].
  { rewrite (bool_decide_true _ E), orb_true_r. unfold loose_parts. rewrite drop_ge by lia. done. }
  rewrite (bool_decide_false _ E), sep_at_app by lia.
  rewrite (bool_decide_false (S _ = length (p ++ r))) by (rewrite length_app; lia).
  destruct (sep_at p (S (next_separator p 2))); cbn [orb]; [apply loose_parts_app_root; lia|].
  cbn [root_sep plain]. intros Hr%sep_at_lt. by rewrite next_separator_app, slice_app, sep_at_app by lia.
Qed.

Lemma unc_parts_app_end p x r :
  sep_at p 1 = true -> is_separator x = true -> root_sep (unc_parts p) = false ->
  unfinished (unc_parts p) = None ->
  head_len (unc_parts p) = length p /\ unc_parts (p ++ x :: r) = rooted_parts (unc_parts p).
Proof.
  intros H1%sep_at_lt Hx. destruct (next_separator_spec p 2) as (Hb & _ & _); [lia|]. unfold unc_parts.
  destruct (sep_at p (next_separator p 2)) eqn:Es; cbn [negb]; [|done].
  apply sep_at_lt in Es as Hlt. rewrite next_separator_app, sep_at_app, Es, slice_app by lia. cbn [negb].
  destruct (decide (S (next_separator p 2) = length p)) as [E|E].
  { rewrite (bool_decide_true _ E), orb_true_r. unfold loose_parts. rewrite drop_ge by lia. done. }
  rewrite (bool_decide_false _ E), sep_at_app by lia.
  rewrite (bool_decide_false (S _ = length (p ++ x :: r))) by (rewrite length_app; simpl; lia).
  destruct (sep_at p (S (next_separator p 2))) eqn:E2; cbn [orb].
  - intros Hr Hu. apply loose_parts_app_end; [lia|done|done|]. intros Ha. unfold unfinished in Hu.
    by rewrite Ha in Hu.
  - destruct (next_separator_spec p (S (next_separator p 2))) as (Hb' & _ & [Hs|Hs]); [lia|cbn; congruence|].
    intros _ _. cbn [plain head_len]. split; [done|].
    rewrite next_separator_end, Hs, slice_app by (done || lia).
    unfold rooted_parts, plain. cbn. f_equal. unfold sep_at. by rewrite list_lookup_middle.
Qed.

(** The parts of a path with a root separator, or of a drive, do not depend on what follows. *)
Lemma parts_app_root p r :
  root_sep (parts p) = true \/ drive p <> None ->
  sep_at r 0 = false \/ (start (parts p) < length p)%nat ->
  parts (p ++ r) = parts p.
Proof.
  intros Hroot Hr. unfold drive, anchor in Hroot.
  destruct (parts_shape p) as [H0 H1|H0 H1 H2 H3|H0 H1 H2 H3|H0 H1 H2|len H0 H1|H0 H1].
  - apply sep_at_lt in H0 as Hl. assert (sep_at (p ++ r) 1 = false) as H1'.
    { destruct Hr as [Hr|Hr]; [|by rewrite sep_at_app].
      destruct p as [|b [|b' p]]; [simpl in Hl; lia|exact Hr|by rewrite sep_at_app by (simpl; lia)]. }
    unfold parts. rewrite sep_at_app, H0, H1' by lia. done.
  - naive_solver.
  - apply sep_at_lt in H3 as Hl. destruct Hroot as [Hroot|Hroot].
    + rewrite parts_device; rewrite ?sep_at_app, ?dot_or_question_app by lia; try done.
      apply loose_parts_app_root; [lia|done].
    + destruct (loose_parts_anchor p 4 Device) as [name E]. by rewrite E in Hroot.
  - apply sep_at_lt in H1 as Hl. destruct Hroot as [Hroot|Hroot].
    + assert (3 <= length p)%nat as Hl3.
      { destruct (parts_bounds p) as [_ Hb]. rewrite parts_unc in Hb by done.
        specialize (Hb Hroot). apply sep_at_lt in Hb.
        destruct (unc_parts_shape p H1); cbn in *; lia || done. }
      rewrite parts_unc; rewrite ?sep_at_app, ?dot_or_question_app by lia; try done.
      * by apply unc_parts_app_root.
      * destruct H2 as [->|[H2 H3]]; [by left|]. right. rewrite sep_at_app, length_app by lia. split; [done|lia].
    + destruct (unc_parts_shape p H1) as [server H|root server _ _ _|]; try done.
      destruct (loose_parts_anchor p root (Unc server)) as [name E]. by rewrite E in Hroot.
  - pose proof (drive_len_Some _ _ H1) as [_ Hl]. unfold parts.
    rewrite sep_at_app, H0, (drive_len_app_Some _ _ _ H1), take_app_le by lia.
    assert (sep_at (p ++ r) len = sep_at p len) as ->; [|done].
    destruct (decide (len < length p)%nat); [by apply sep_at_app|].
    destruct Hr as [Hr|Hr]; [|unfold start in Hr; cbn in Hr; lia].
    unfold sep_at in *. rewrite lookup_app_r, (lookup_ge_None_2 p) by lia.
    by replace (len - length p)%nat with 0%nat by lia.
  - naive_solver.
Qed.

Lemma parts_app_none p r :
  wtf8 p -> p <> [] -> anchor p = NoAnchor -> head r <> Some 58 -> parts (p ++ r) = parts p.
Proof.
  intros Hw Hne Ha Hr. unfold anchor in Ha.
  assert (sep_at p 0 = false /\ drive_len p = None) as [H0 H1].
  { destruct (parts_shape p) as [| |H0 H1 H2 H3|H0 H1 H2| |]; try done.
    - destruct (loose_parts_anchor p 4 Device) as [name E]. congruence.
    - destruct (unc_parts_shape p H1) as [|root server| ]; try done.
      destruct (loose_parts_anchor p root (Unc server)) as [name E]. congruence. }
  unfold parts. rewrite drive_len_app, sep_at_app, H0, H1; try done. destruct p; [done|simpl; lia].
Qed.

(** A separator after a finished share or device name is its root. *)
Lemma parts_app_end p x r :
  sep_at p 0 = true -> anchor p <> Rooted -> root_sep (parts p) = false -> unfinished (parts p) = None ->
  is_separator x = true ->
  head_len (parts p) = length p /\ parts (p ++ x :: r) = rooted_parts (parts p).
Proof.
  intros Hs Ha Hr Hu Hx. unfold anchor in Ha.
  destruct (parts_shape p) as [| |H0 H1 H2 H3|H0 H1 H2|len H0 H1|H0 H1]; try done; try congruence.
  - apply sep_at_lt in H3 as Hl.
    destruct (loose_parts_app_end p x r 4 Device) as [Hh Hp]; [lia|done|done| |].
    { intros E. unfold unfinished in Hu. by rewrite E in Hu. }
    split; [done|]. rewrite parts_device; rewrite ?sep_at_app, ?dot_or_question_app by lia; done.
  - destruct (unc_parts_app_end p x r) as [Hh Hp]; try done. split; [done|].
    assert (3 <= length p)%nat as Hl.
    { destruct (unc_parts_shape p H1); simpl in *; try lia. done. }
    rewrite parts_unc; rewrite ?sep_at_app, ?dot_or_question_app by lia; try done.
    destruct H2 as [->|[H2 H3]]; [by left|]. right. rewrite sep_at_app, length_app by lia. split; [done|simpl; lia].
Qed.

(** A share or device anchor without a root separator is the whole path. *)
Lemma head_whole p :
  sep_at p 0 = true -> root_sep (parts p) = false -> start (parts p) = length p.
Proof.
  unfold start. intros Hs. assert (forall root mk, (root <= length p)%nat -> root_sep (loose_parts p root mk) = false ->
    head_len (loose_parts p root mk) = length p) as Hloose.
  { intros root mk Hroot Hr. unfold loose_parts in *.
    destruct (loose_loop_spec root mk (drop root p) root (List.last (take root p) 0))
      as (pre & name & post & E & _ & -> & _ & _ & H).
    assert (post = []) as -> by (destruct H as [[_ [? _]]|[[_ [? _]]|(_ & x & q & _ & _ & H)]]; congruence).
    apply (f_equal length) in E. rewrite length_drop, !length_app in E. simpl in E. lia. }
  destruct (parts_shape p) as [| |H0 H1 H2 H3|H0 H1 H2|len H0 H1|H0 H1]; try congruence; cbn.
  - done.
  - intros _. lia.
  - intros Hr. rewrite Hr, Nat.add_0_r. apply Hloose; [|done]. apply sep_at_lt in H3. lia.
  - intros Hr. rewrite Hr, Nat.add_0_r. destruct (unc_parts_shape p H1) as [|root server Hb|server share head Hb Hne [E|E]]; cbn in *.
    + done.
    + apply Hloose; [lia|done].
    + congruence.
    + done.
Qed.

Lemma components_pieces p :
  (start (parts p) < length p)%nat -> components p = component <$> split_on is_separator (drop (start (parts p)) p).
Proof.
  intros H. unfold components. destruct (drop _ p) eqn:E; [|done].
  apply (f_equal length) in E. rewrite length_drop in E. simpl in E. lia.
Qed.

Lemma components_whole p : start (parts p) = length p -> components p = [].
Proof. intros H. unfold components. by rewrite drop_ge by lia. Qed.

(** A path without an anchor is its components; it starts with no separator. *)
Lemma no_anchor p : anchor p = NoAnchor -> parts p = plain NoAnchor 0 false /\ sep_at p 0 = false.
Proof.
  unfold anchor. intros Ha.
  destruct (parts_shape p) as [| |H0 H1 H2 H3|H0 H1 H2| |]; try done.
  - destruct (loose_parts_anchor p 4 Device) as [name E]. congruence.
  - destruct (unc_parts_shape p H1) as [|root server| ]; try done.
    destruct (loose_parts_anchor p root (Unc server)) as [name E]. congruence.
Qed.

(** [p ++ r] where [parts] does not change, and [p ++ \ ++ r] where components follow. *)
Lemma components_app p r :
  parts (p ++ r) = parts p -> start (parts p) = length p -> r <> [] ->
  components (p ++ r) = component <$> split_on is_separator r.
Proof.
  intros Hp Hs Hr. rewrite components_pieces; rewrite Hp, Hs.
  - by rewrite drop_app_length.
  - rewrite length_app. destruct r; [done|simpl; lia].
Qed.

Lemma components_app_sep p x r :
  is_separator x = true -> parts (p ++ x :: r) = parts p -> (start (parts p) < length p)%nat ->
  components (p ++ x :: r) = components p ++ (component <$> split_on is_separator r).
Proof.
  intros Hx Hp Hs. rewrite !components_pieces; rewrite ?Hp; [|lia|rewrite length_app; simpl; lia].
  by rewrite drop_app_le, split_on_app, fmap_app by (done || lia).
Qed.

Lemma components_app_root p x r :
  parts (p ++ x :: r) = rooted_parts (parts p) -> head_len (parts p) = length p -> r <> [] ->
  components (p ++ x :: r) = component <$> split_on is_separator r.
Proof.
  intros Hp Hs Hr. rewrite components_pieces; rewrite Hp; unfold start, rooted_parts; cbn; rewrite Hs.
  - rewrite drop_app_ge by lia. replace (length p + 1 - length p)%nat with 1%nat by lia.
    simpl. by rewrite drop_0.
  - rewrite length_app. destruct r; [done|simpl; lia].
Qed.

(** Stored text is not a verbatim spelling. *)
Definition stored (p : bytes) : Prop := is_verbatim_spelling p = false.

Lemma stored_respell b : stored (respell_verbatim b).
Proof.
  unfold respell_verbatim, stored, is_verbatim_spelling. destruct (starts_with VERBATIM b) eqn:E; [|done].
  by apply starts_with_true in E as [r ->].
Qed.

Lemma stored_prefix p r : stored (p ++ r) -> stored p.
Proof.
  unfold stored, is_verbatim_spelling. rewrite !starts_with_false. intros H q ->. apply (H (q ++ r)).
  by rewrite app_assoc.
Qed.

Lemma stored_long p r : stored p -> (4 <= length p)%nat -> stored (p ++ r).
Proof.
  intros Hp Hl. destruct p as [|a [|b [|c [|d p]]]]; simpl in Hl; try lia.
  unfold stored, is_verbatim_spelling, starts_with, VERBATIM in *. simpl in *. by repeat case_match.
Qed.

(** The first four bytes decide. *)
Lemma not_verbatim_at p i c :
  VERBATIM !! i = Some c -> p !! i <> Some c -> stored p.
Proof.
  intros Hc Hp. apply starts_with_false. intros r ->. apply Hp. by apply lookup_app_l_Some.
Qed.

Lemma respell_stored b : stored b -> respell_verbatim b = b.
Proof. unfold stored, is_verbatim_spelling, respell_verbatim. by intros ->. Qed.

Lemma stored_app p r :
  stored p -> p <> [] -> unfinished (parts p) = None -> (p = [92] -> sep_at r 0 = false) -> stored (p ++ r).
Proof.
  intros Hp Hne Hu Hr. destruct (decide (4 <= length p)%nat); [by apply stored_long|].
  apply starts_with_false. intros q E. destruct p as [|a [|b [|c [|d p]]]]; simpl in *; try lia; try done.
  - injection E as -> ->. by specialize (Hr eq_refl).
  - by injection E as -> -> _.
  - by injection E as -> -> -> _.
Qed.

Lemma no_anchor_stored p : anchor p = NoAnchor -> stored p.
Proof.
  intros [_ H]%no_anchor. apply (not_verbatim_at p 0 92); [done|]. intros E. unfold sep_at in H. by rewrite E in H.
Qed.

(** Text that starts with no separator has a drive or no anchor. *)
Lemma parts_no_sep p :
  sep_at p 0 = false -> parts p = plain NoAnchor 0 false \/ drive p <> None.
Proof. unfold drive, anchor, parts. intros ->. destruct (drive_len p); [by right|by left]. Qed.

(** The path has components: a backslash and more components follow. *)
Lemma append_after_component p r :
  wtf8 p -> stored p -> unfinished (parts p) = None -> (start (parts p) < length p)%nat ->
  stored (p ++ 92 :: r) /\ parts (p ++ 92 :: r) = parts p.
Proof.
  intros Hw Hst Hu Hc. assert (p <> []) as Hne by (intros ->; simpl in Hc; lia). split.
  - apply stored_app; try done. intros ->. exfalso. revert Hc. vm_compute. lia.
  - destruct (sep_at p 0) eqn:H0.
    + apply parts_app_root; [|by right]. left. destruct (root_sep (parts p)) eqn:E; [done|].
      apply head_whole in E; [lia|done].
    + destruct (parts_no_sep p H0) as [E|E]; [|by apply parts_app_root; auto].
      apply parts_app_none; try done. unfold anchor. by rewrite E.
Qed.

(** The path is a root or a bare drive: components follow directly. *)
Lemma append_after_root p r :
  stored p -> p <> [] -> unfinished (parts p) = None -> sep_at r 0 = false ->
  root_sep (parts p) = true \/ drive p <> None ->
  stored (p ++ r) /\ parts (p ++ r) = parts p.
Proof. intros Hst Hne Hu Hr Hroot. split; [by apply stored_app|]. apply parts_app_root; auto. Qed.

(** The path is a share or a device name: the backslash is its root. *)
Lemma append_after_name p r :
  stored p -> p <> [] -> unfinished (parts p) = None -> root_sep (parts p) = false ->
  sep_at p 0 = true ->
  stored (p ++ 92 :: r) /\ head_len (parts p) = length p /\ parts (p ++ 92 :: r) = rooted_parts (parts p).
Proof.
  intros Hst Hne Hu Hr Hs. split; [apply stored_app; try done; by intros ->|].
  apply parts_app_end; try done. unfold anchor. intros Ha.
  destruct (parts_shape p) as [| |H0 H1 H2 H3|H0 H1 H2| |]; try done.
  - destruct (loose_parts_anchor p 4 Device) as [name E]. congruence.
  - destruct (unc_parts_shape p H1) as [|root server| ]; try done.
    destruct (loose_parts_anchor p root (Unc server)) as [name E]. congruence.
Qed.

(** [drive p] in terms of [needs_separator_to_append]'s match. *)
Lemma needs_separator_whole p :
  start (parts p) = length p -> p <> [] -> unfinished (parts p) = None ->
  (needs_separator_to_append p = false /\ (root_sep (parts p) = true \/ drive p <> None)) \/
  (needs_separator_to_append p = true /\ root_sep (parts p) = false /\ sep_at p 0 = true).
Proof.
  intros Hs Hp Hu. unfold needs_separator_to_append. rewrite Hu, Hs, bool_decide_false by lia. cbn [orb].
  destruct (root_sep (parts p)) eqn:Hr; cbn [orb negb]; [by auto|].
  destruct (sep_at p 0) eqn:H0.
  - destruct (drive p) as [d|] eqn:Ed.
    + exfalso. unfold drive, anchor in Ed.
      destruct (parts_shape p) as [| |H0' H1 H2 H3|H0' H1 H2| |]; try done; try congruence.
      * destruct (loose_parts_anchor p 4 Device) as [name E]. by rewrite E in Ed.
      * destruct (unc_parts_shape p H1) as [|root server| ]; try done.
        destruct (loose_parts_anchor p root (Unc server)) as [name E]. by rewrite E in Ed.
    + right. destruct (decide (anchor p = NoAnchor)) as [E|E].
      * apply no_anchor in E as [_ E]. congruence.
      * unfold drive, anchor in *. by destruct (anchor_of (parts p)).
  - destruct (parts_no_sep p H0) as [E|E]; 
      [|left; unfold drive, anchor in *; destruct (anchor_of _); try done; split; [done|by right]].
    rewrite E in Hs. cbn in Hs. by destruct p.
Qed.

Lemma append_relative_finished p r :
  wtf8 p -> stored p -> p <> [] -> r <> [] -> unfinished (parts p) = None -> sep_at r 0 = false ->
  anchor (append_relative p r) = anchor p /\
  components (append_relative p r) = components p ++ (component <$> split_on is_separator r).
Proof.
  intros Hw Hst Hp Hr Hu Hs. unfold append_relative, anchor.
  destruct r as [|r0 r'] eqn:Er; [done|]. rewrite <- Er in *. clear Er r0 r'.
  rewrite (bool_decide_false (p = [])), andb_true_r by done.
  pose proof (start_le p) as Hle. destruct (decide (start (parts p) < length p)%nat) as [Hc|Hc].
  - unfold needs_separator_to_append. rewrite (bool_decide_true _ Hc). cbn [orb]. rewrite <- app_assoc. cbn [app].
    destruct (append_after_component p r Hw Hst Hu Hc) as [H1 H2].
    rewrite respell_stored, H2 by done. split; [done|]. by apply components_app_sep.
  - assert (start (parts p) = length p) as E by lia. rewrite (components_whole p E). cbn [app].
    destruct (needs_separator_whole p E Hp Hu) as [[-> Hd]|[-> [Hroot H0]]].
    + destruct (append_after_root p r Hst Hp Hu Hs Hd) as [H1 H2].
      rewrite respell_stored, H2 by done. split; [done|]. by apply components_app.
    + rewrite <- app_assoc. cbn [app]. destruct (append_after_name p r Hst Hp Hu Hroot H0) as (H1 & H2 & H3).
      rewrite respell_stored, H3 by done. split; [done|]. by apply components_app_root.
Qed.

(** * Lemmas: stored text stays stored *)

(** What the loop of [lexically_normal] keeps. *)
Definition kept (c : Component) : Prop := text c <> [] /\ free is_separator (text c).

Lemma normal_step_kept root names trailing c :
  Forall kept names -> free is_separator (text c) -> wf_component c ->
  (names = [] -> root = true -> trailing = false) ->
  let acc := normal_step root (names, trailing) c in
  Forall kept acc.1 /\ (acc.1 = [] -> root = true -> acc.2 = false).
Proof.
  intros Hn Hf Hw Ht. assert (forall d, free is_separator (text d) -> wf_component d -> d <> Empty -> kept d) as Hk.
  { intros [| | |n] Hfd Hd H; split; try done. by apply wf_component_Normal in Hd as [? _]. }
  assert (forall n, Forall kept n -> c <> Empty -> Forall kept (n ++ [c])) as Ha.
  { intros n Hn' Hc. apply Forall_app. split; [done|]. constructor; [by apply Hk|done]. }
  assert (Forall kept (removelast names)) as Hr.
  { destruct names as [|x names] using rev_ind; [done|]. rewrite removelast_last.
    by apply Forall_app in Hn as [? _]. }
  destruct c; cbn [normal_step].
  - split; [done|by intros]. 
  - destruct (last names) as [[]|] eqn:E; try (split; [by apply Ha|done]); try (split; [done|done]).
    destruct root; split; try done. by apply Ha.
  - cbn. split; [done|]. intros -> ->. done.
  - split; [by apply Ha|done].
Qed.

Lemma normal_fold_kept root pieces names trailing :
  Forall (fun c => free is_separator (text c) /\ wf_component c) pieces ->
  Forall kept names -> (names = [] -> root = true -> trailing = false) ->
  let acc := foldl (normal_step root) (names, trailing) pieces in
  Forall kept acc.1 /\ (acc.1 = [] -> root = true -> acc.2 = false).
Proof.
  intros Hp. revert names trailing. induction Hp as [|c pieces [Hf Hw] _ IH]; intros names trailing Hn Ht; [done|].
  destruct (normal_step_kept root names trailing c Hn Hf Hw Ht) as [H1 H2]. cbn [foldl].
  destruct (normal_step root (names, trailing) c) as [names' trailing'] eqn:E. by apply IH.
Qed.

Lemma pieces_clean l :
  Forall (fun c => free is_separator (text c) /\ wf_component c) (component <$> split_on is_separator l).
Proof.
  apply Forall_fmap. eapply Forall_impl; [apply split_on_pieces|]. intros w Hw. cbn.
  rewrite component_text. split; [done|apply wf_component_component].
Qed.

Lemma folded_components_clean p : Forall (fun c => free is_separator (text c) /\ wf_component c) (components p).
Proof. unfold components. destruct (drop _ p); [constructor|apply pieces_clean]. Qed.

(** Names joined start with a byte that is no separator. *)
Lemma kept_head names :
  Forall kept names -> names <> [] ->
  exists b t, intercalate 92 (text <$> names) = b :: t /\ is_separator b = false.
Proof.
  intros Hn Hne. destruct names as [|c names]; [done|]. apply Forall_cons in Hn as [[Hc Hf] _].
  rewrite fmap_cons. destruct (text c) as [|b t]; [done|]. apply free_cons in Hf as [Hb _].
  simpl. destruct (text <$> names); eauto.
Qed.

(** The text [lexically_normal] ends with: what it starts from, the names, the last separator. *)
Definition normal_text (out : bytes) (names : list Component) (trailing : bool) : bytes :=
  let out := out ++ intercalate 92 (text <$> names) in
  let out :=
    if trailing then (if bool_decide (names = []) then out ++ [46] else out) ++ [92] else out in
  match out with [] => [46] | _ => out end.

(** The starts from which the text cannot become a verbatim spelling. *)
Inductive safe_start (names : list Component) (trailing root : bool) : bytes -> Prop :=
| safe_long out : stored out -> (4 <= length out)%nat -> safe_start names trailing root out
| safe_root x : root = true -> safe_start names trailing root [x]
| safe_relative out : sep_at out 0 = false -> safe_start names trailing root out
| safe_whole out : stored out -> names = [] -> trailing = false -> safe_start names trailing root out
| safe_third out c : out !! 2%nat = Some c -> c <> 63 -> safe_start names trailing root out.

Lemma normal_text_stored out names trailing root :
  Forall kept names -> (names = [] -> root = true -> trailing = false) ->
  safe_start names trailing root out -> stored (normal_text out names trailing).
Proof.
  intros Hn Ht Hout. unfold normal_text.
  set (tail_ := intercalate 92 (text <$> names) ++
    (if trailing then (if bool_decide (names = []) then [46] else []) ++ [92] else [])).
  assert (forall o, stored o -> stored (match o with [] => [46] | _ => o end)) as Hm by by intros [].
  assert ((let out' := out ++ intercalate 92 (text <$> names) in
    if trailing then (if bool_decide (names = []) then out' ++ [46] else out') ++ [92] else out') = out ++ tail_) as E.
  { unfold tail_. destruct trailing; [|by rewrite app_nil_r].
    destruct (bool_decide _); by rewrite <- ?app_assoc. }
  cbn zeta in *. rewrite E. apply Hm. clear Hm E. unfold tail_. destruct Hout as [out H1 H2|x H|out H|out H -> ->|out c H1 H2].
  - by apply stored_long.
  - apply (not_verbatim_at _ 1 92); [done|]. simpl. destruct (decide (names = [])) as [->|Hne]; [by rewrite Ht|].
    destruct (kept_head names Hn Hne) as (b & t & -> & Hb). simpl. by intros [= ->].
  - apply (not_verbatim_at _ 0 92); [done|]. destruct out as [|b out]; [|simpl; by intros [= ->]].
    destruct (decide (names = [])) as [->|Hne]; [by destruct trailing|].
    destruct (kept_head names Hn Hne) as (b & t & -> & Hb). simpl. by intros [= ->].
  - simpl. by rewrite !app_nil_r.
  - apply (not_verbatim_at _ 2 63); [done|]. rewrite (lookup_app_l_Some _ _ _ _ H1). congruence.
Qed.

Lemma stored_take p n : stored p -> stored (take n p).
Proof. intros H. apply (stored_prefix _ (drop n p)). by rewrite take_drop. Qed.

Lemma loose_parts_root p root mk : loose_root (loose_parts p root mk) = Some root.
Proof.
  unfold loose_parts.
  by destruct (loose_loop_spec root mk (drop root p) root (List.last (take root p) 0))
    as (pre & name & post & _ & _ & _ & _ & -> & _).
Qed.

(** The start [lexically_normal] takes, with a UNC root separator possibly dropped. *)
Lemma prefix_safe p names trailing (cut : bool) :
  p <> [] -> stored p ->
  let ps := parts p in
  let root := match loose_root ps with Some _ => true | None => root_sep ps end in
  let prefix := match loose_root ps with Some len => len | None => start ps end in
  (loose_root ps = None -> start ps = length p -> names = [] /\ (root = false -> trailing = false)) ->
  (names = [] -> root = true -> trailing = false) ->
  (cut = true -> loose_root ps = None /\ root_sep ps = true /\
    exists s h, anchor_of ps = Unc s h) ->
  safe_start names trailing root (if cut then removelast (take prefix p) else take prefix p).
Proof.
  intros Hne Hst. cbn zeta.
  assert (forall cut : bool, cut = false -> forall o : bytes, (if cut then removelast o else o) = o) as Hcut by by intros [].
  destruct (parts_shape p) as [H0 H1|H0 H1 H2 H3|H0 H1 H2 H3|H0 H1 H2|len H0 H1|H0 H1]; cbn [plain loose_root].
  all: try (intros Hw Ht Hc; rewrite Hcut by (destruct cut; [|done]; destruct (Hc eq_refl) as (_ & _ & s & h & [=]))).
  - cbn. apply sep_at_lt in H0. destruct p as [|b p]; [simpl in H0; lia|]. by apply safe_root.
  - destruct Hw as [Hnm Htr]; [done|cbn; lia|]. apply safe_whole; [by apply stored_take|done|by apply Htr].
  - rewrite loose_parts_root. intros Hw Ht Hc. rewrite Hcut by (destruct cut; [|done]; by destruct (Hc eq_refl)).
    apply sep_at_lt in H3. apply safe_long; [by apply stored_take|rewrite length_take; lia].
  - destruct (unc_parts_shape p H1) as [server H|root server Hb Hs _|server share head Hb Hsh Hs]; cbn [plain loose_root].
    + intros Hw Ht Hc. rewrite Hcut by (destruct cut; [|done]; by destruct (Hc eq_refl) as (_ & ? & _)).
      destruct Hw as [Hnm Htr]; [done|unfold start; cbn; lia|]. apply safe_whole; [by apply stored_take|done|by apply Htr].
    + rewrite loose_parts_root. intros Hw Ht Hc. rewrite Hcut by (destruct cut; [|done]; by destruct (Hc eq_refl)).
      destruct (decide (root = 3%nat)) as [->|].
      * unfold sep_at in Hs. simpl in Hs. destruct (p !! 2%nat) as [c|] eqn:E; [|done].
        apply (safe_third _ _ _ _ c); [by rewrite lookup_take_lt by lia|]. by intros ->.
      * apply safe_long; [by apply stored_take|rewrite length_take; lia].
    + intros Hw Ht Hc. destruct cut.
      * destruct (Hc eq_refl) as (_ & Hr & _). cbn [root_sep] in Hr. unfold start; cbn [head_len root_sep]. rewrite Hr. cbv beta iota.
        cbn [head_len plain]. apply sep_at_lt in Hr.
        assert (removelast (take (head + 1) p) = take head p) as ->.
        { rewrite Nat.add_1_r. destruct (lookup_lt_is_Some_2 p head Hr) as [x Hx].
          rewrite (take_S_r _ _ _ Hx), removelast_last. done. }
        apply safe_long; [by apply stored_take|rewrite length_take; lia].
      * apply safe_long; [by apply stored_take|]. unfold start. cbn. rewrite length_take. destruct (sep_at p head) eqn:E; [apply sep_at_lt in E|]; lia.
  - pose proof (drive_len_Some _ _ H1) as [_ Hl]. apply safe_relative. unfold sep_at in *.
    rewrite lookup_take_lt; [done|]. unfold start. cbn. lia.
  - by apply safe_relative.
Qed.

(** The pieces [lexically_normal] walks and what it keeps of them. *)
Lemma normal_pieces p :
  let ps := parts p in
  let root := match loose_root ps with Some _ => true | None => root_sep ps end in
  let pieces := match loose_root ps with
    | Some len => component <$> split_on is_separator (drop len p) | None => components p end in
  let acc := foldl (normal_step root) ([], false) pieces in
  Forall kept acc.1 /\ (acc.1 = [] -> root = true -> acc.2 = false) /\
  (loose_root ps = None -> start ps = length p -> acc = ([], false)).
Proof.
  cbn zeta. split_and!.
  1,2: destruct (normal_fold_kept (match loose_root (parts p) with Some _ => true | None => root_sep (parts p) end)
      (match loose_root (parts p) with Some len => component <$> split_on is_separator (drop len p)
       | None => components p end) [] false) as [H1 H2]; try done;
    destruct (loose_root (parts p)); try apply pieces_clean; apply folded_components_clean.
  intros -> H. by rewrite components_whole.
Qed.

Lemma lexically_normal_stored p : stored p -> stored (lexically_normal p).
Proof.
  intros Hst. destruct p as [|b0 p0] eqn:Ep; [done|]. unfold lexically_normal. rewrite <- Ep in *.
  assert (p <> []) as Hne by (by subst). clear Ep b0 p0.
  destruct (normal_pieces p) as (H1 & H2 & H3). pose proof (prefix_safe p) as Hsafe. cbn zeta in *.
  set (ps := parts p) in *.
  set (root := match loose_root ps with Some _ => true | None => root_sep ps end) in *.
  set (prefix := match loose_root ps with Some len => len | None => start ps end) in *.
  set (pieces := match loose_root ps with
    | Some len => component <$> split_on is_separator (drop len p) | None => components p end) in *.
  assert (match loose_root ps with Some len => (len, true, component <$> split_on is_separator (drop len p))
    | None => (start ps, root_sep ps, components p) end = (prefix, root, pieces)) as ->
    by by unfold prefix, root, pieces; destruct (loose_root ps).
  destruct (foldl (normal_step root) ([], false) pieces) as [names trailing]; cbn [fst snd] in *.
  set (cut := bool_decide (loose_root ps = None) && root_sep ps &&
    match anchor_of ps with Unc _ _ => true | _ => false end && bool_decide (names = []) && negb (ends_in_separator p)).
  set (out := if cut then removelast (take prefix p) else take prefix p).
  assert (safe_start names trailing root out) as Hs.
  { apply Hsafe; try done.
    - intros Hl Hx. injection (H3 Hl Hx) as -> ->. done.
    - unfold cut. rewrite !andb_true_iff, bool_decide_eq_true. intros [[[[Hl Hr] Ha] _] _].
      split_and!; [done|done|]. destruct (anchor_of ps); eauto; done. }
  change (stored (normal_text
    (if bool_decide (anchor_of ps = NoAnchor) && match names with c :: _ => reads_as_drive (text c) | [] => false end
     then out ++ [46; 92] else out) names trailing)).
  apply (normal_text_stored _ _ _ root); [done|done|].
  destruct (bool_decide (anchor_of ps = NoAnchor)) eqn:Ea; [|done]. destruct (match names with [] => _ | _ => _ end); [|done].
  apply bool_decide_eq_true in Ea. destruct (no_anchor p Ea) as [Epp _]. apply safe_relative.
  unfold out, prefix, cut, ps. rewrite Epp. done.
Qed.

Lemma parent_prefix p q : parent p = Some q -> exists n, q = take n p.
Proof. unfold parent. destruct (drop _ p); [done|]. intros [= <-]. eauto. Qed.

Lemma join_stored p r : stored p -> stored r -> stored (join p r).
Proof.
  intros Hp Hr. unfold join, append_relative. repeat case_match; try done; apply stored_respell.
Qed.

Lemma set_file_name_stored p name : stored p -> free is_separator name -> stored (set_file_name p name).
Proof.
  intros Hp Hn. unfold set_file_name. set (replaced := match file_name p with Some _ => true | None => false end).
  clearbody replaced.
  match goal with |- context [if replaced then take ?n p else p] => set (keep := n) end. clearbody keep.
  assert (stored (if replaced then take keep p else p)) as Hk by (destruct replaced; [by apply stored_take|done]).
  destruct (if replaced then take keep p else p) as [|b p'] eqn:E.
  - destruct (reads_as_drive name); [done|]. simpl. apply (not_verbatim_at _ 0 92); [done|].
    destruct name as [|b n]; [done|]. apply free_cons in Hn as [Hb _]. simpl. by intros [= ->].
  - destruct replaced; [|unfold append_relative; case_match; [by rewrite <- E|apply stored_respell]].
    apply starts_with_false. intros q Hq. destruct (decide (4 <= length (b :: p'))%nat) as [Hl|Hl].
    + apply (stored_long _ name) in Hk; [|done]. unfold stored, is_verbatim_spelling in Hk.
      rewrite starts_with_false in Hk. by apply (Hk q).
    + assert ((VERBATIM ++ q) !! 3%nat = Some 92) as H3 by done. rewrite <- Hq, lookup_app_r in H3 by lia.
      apply list_elem_of_lookup_2 in H3. unfold free in Hn. rewrite Forall_forall in Hn. by specialize (Hn _ H3).
Qed.

Lemma parse_stored s p : parse s = Ok p -> stored p.
Proof.
  unfold parse. destruct (strip_prefix VERBATIM s) as [rest|] eqn:E.
  - destruct (bool_decide (47 ∈ rest)) eqn:Hslash; [done|].
    destruct (plain_spelling rest) as [q|] eqn:Eq; [|done]. destruct (has_navigated_name q); [done|].
    intros [= <-]. unfold plain_spelling in Eq. revert Eq.
    destruct (bool_decide (head rest <> Some 92) && _) eqn:Ed.
    + intros [= <-]. apply andb_true_iff in Ed as [Ed _]. apply bool_decide_eq_true in Ed.
      apply (not_verbatim_at _ 0 92); [done|]. by destruct rest.
    + destruct (_ && bool_decide (rest !! 3%nat = Some 92)).
      * set (unc := drop 4 rest) in *. destruct (bool_decide (take (next_separator unc 0) unc = [46])); [done|].
        destruct (bool_decide (take (next_separator unc 0) unc = [63])) eqn:E63; [done|].
        intros [= <-]. apply bool_decide_eq_false in E63. apply starts_with_false. intros r [= Hr]. apply E63.
        by rewrite Hr.
      * intros [= <-]. done.
  - intros [= <-]. unfold stored, is_verbatim_spelling, starts_with. by rewrite E.
Qed.

Lemma first_unit_item i u : wf_item i -> units_of i = [u] -> first_unit (item_bytes i) = u.
Proof.
  intros Hi Hu. unfold first_unit. pose proof (to_wide_items [i]) as H.
  rewrite !bind_cons, !app_nil_r, Hu in H. by rewrite H by (by repeat constructor).
Qed.

Lemma units_one i : length (units_of i) = 1%nat -> exists u, units_of i = [u].
Proof. destruct (units_of i) as [|u [|]]; eauto; done. Qed.

(** A unit before a colon is decoded alone. *)
Lemma decode_colon u rest :
  is_u16 u ->
  exists i, decode_utf16 (u :: 58 :: rest) = i :: Char 58 :: decode_utf16 rest /\ units_of i = [u] /\ wf_item i.
Proof.
  unfold is_u16. intros Hu. cbn [decode_utf16]. unfold is_surrogate_unit.
  rewrite (within_out 0xD800 0xDFFF 58), (within_out 0xDC00 0xDFFF 58) by lia. cbn [negb].
  destruct (within 0xD800 0xDFFF u) eqn:E; cbn [negb].
  - apply within_true in E. destruct (Z.leb_spec 0xDC00 u); by exists (Unpaired u).
  - apply within_false in E. exists (Char u). split; [done|]. split.
    + simpl. unfold encode_utf16. by rewrite (proj2 (Z.ltb_lt _ _)) by lia.
    + simpl. unfold is_scalar. lia.
Qed.

Lemma colon_item items :
  Forall wf_item items -> head (items ≫= item_bytes) = Some 58 -> exists items', items = Char 58 :: items'.
Proof.
  intros Hi H. destruct items as [|i items]; [done|]. apply Forall_cons in Hi as [Hi _].
  rewrite bind_cons in H. destruct (item_bytes_high i Hi) as [(c & -> & Hc)|Hh].
  - cbn [item_bytes] in H. unfold encode_utf8 in H. rewrite (proj2 (Z.ltb_lt c 0x80)) in H by lia.
    injection H as ->. eauto.
  - pose proof (item_bytes_ne i Hi). destruct (item_bytes i) as [|b t]; [done|].
    apply Forall_cons in Hh as [Hb _]. injection H as ->. lia.
Qed.

(** A first unit that is a separator is one in the stored text. *)
Lemma sep_at_item i u r :
  wf_item i -> units_of i = [u] -> sep_at (item_bytes i ++ r) 0 = is_separator u.
Proof.
  intros Hi Hu. destruct (item_bytes_high i Hi) as [(c & -> & Hc)|Hh].
  - cbn [units_of item_bytes] in *. unfold encode_utf8, encode_utf16 in *.
    rewrite (proj2 (Z.ltb_lt c 0x10000)) in Hu by lia. injection Hu as ->.
    by rewrite (proj2 (Z.ltb_lt u 0x80)) by lia.
  - pose proof (item_bytes_ne i Hi). destruct (item_bytes i) as [|b t] eqn:E; [done|].
    apply Forall_cons in Hh as [Hb _]. unfold sep_at, is_separator. simpl.
    rewrite !(proj2 (Z.eqb_neq b _)) by lia. symmetry. rewrite orb_false_iff, !Z.eqb_neq.
    destruct i as [c|u']; simpl in *; [|injection Hu as ->; lia].
    unfold encode_utf16, encode_utf8, is_scalar in *. revert Hu. destruct (Z.ltb_spec c 0x10000); intros [=->].
    destruct (Z.ltb_spec u 0x80); [injection E as -> _; lia|lia].
Qed.

(** A string of units that is stored as it is. *)
Lemma wtf8_text l : forallb (within 0 0xFFFF) l = true -> from_wide l = l -> wtf8 l.
Proof.
  intros H E. exists l. split; [|done]. rewrite forallb_forall in H. apply Forall_forall. intros u Hu.
  apply list_elem_of_In, H, within_true in Hu. unfold is_u16. lia.
Qed.

(** * Properties *)

(** A path starts with a drive exactly when its UTF-16 form is one unit that is no separator,
    then a colon; the drive is that unit, surrogates included, and reading it does not fail. *)
Theorem drive_one_unit (units : list Z) (u : Z) :
  Forall is_u16 units ->
  drive (from_wide units) = Some (drive_of u) <->
  exists rest, units = u :: 58 :: rest /\ is_separator u = false.
Proof.
  intros Hu. destruct (decode_utf16_spec units Hu) as [Hb Hw]. split.
  - unfold from_wide, drive, anchor. generalize dependent (decode_utf16 units). intros items Hb Hw Hd.
    destruct (parts_shape (items ≫= item_bytes)) as [| |H0 H1 H2 H3|H0 H1 H2|len H0 H1|]; try done.
    { destruct (loose_parts_anchor (items ≫= item_bytes) 4 Device) as [name E]. by rewrite E in Hd. }
    { destruct (unc_parts_shape _ H1) as [|root server| ]; try done.
      destruct (loose_parts_anchor (items ≫= item_bytes) root (Unc server)) as [name E]. by rewrite E in Hd. }
    cbn in Hd. injection Hd as Hd. destruct items as [|i items]; [done|]. rewrite bind_cons in *.
    apply Forall_cons in Hw as [Hi Hw]. rewrite drive_len_item in H1 by done. case_decide as Hc; [|done].
    injection H1 as <-. rewrite Nat.sub_succ, Nat.sub_0_r, take_app_length in Hd. destruct Hc as [Hc Hone].
    destruct (units_one i Hone) as [u' Hu']. rewrite (first_unit_item i u') in Hd by done. subst u'.
    destruct (colon_item items Hw Hc) as [items' ->]. rewrite (sep_at_item i u) in H0 by done.
    exists (items' ≫= units_of). split; [|done]. rewrite <- Hb, Hu'. done.
  - intros (rest & -> & Hs). apply Forall_cons in Hu as [Hu _]. unfold from_wide.
    destruct (decode_colon u rest Hu) as (i & -> & Hi & Hwi). rewrite !bind_cons.
    unfold drive, anchor, parts. rewrite (sep_at_item i u), Hs, drive_len_item by done.
    rewrite decide_True by (split; [done|by rewrite Hi]). cbn.
    by rewrite ?Nat.sub_succ, ?Nat.sub_0_r, take_app_length, (first_unit_item i u).
Qed.

Lemma drive_one_unit_witness : drive (from_wide [0xD800; 58; 97]) = Some (drive_of 0xD800).
Proof.
  apply drive_one_unit; [unfold is_u16; repeat (constructor; [lia|]); constructor|]. by exists [97].
Defined.

(** Comparing stored paths orders them: it is antisymmetric and transitive, and equal exactly
    for paths that are [==], those that differ only in which separator they use. *)
Theorem path_order (p q r : bytes) :
  wtf8 p -> wtf8 q ->
  (cmp p q = Eq <-> eq p q = true) /\ cmp q p = CompOpp (cmp p q) /\
  (cmp p q = Lt -> cmp q r = Lt -> cmp p r = Lt).
Proof.
  intros Hp Hq. destruct total_key as [He Ha Ht].
  assert (forall p q, cmp p q = key_compare (path_key p) (path_key q)) as Hk by done.
  rewrite !Hk. split_and!; [|apply Ha|apply Ht].
  rewrite He, eq_fold. unfold path_key. split; [by intros [=]|]. intros H. unfold anchor.
  by rewrite <- (parts_fold p), <- (components_fold p), H, parts_fold, components_fold by done.
Qed.

Lemma path_order_witness :
  (cmp (bs "a/b") (bs "a\b") = Eq <-> eq (bs "a/b") (bs "a\b") = true) /\
  cmp (bs "a\b") (bs "a/b") = CompOpp (cmp (bs "a/b") (bs "a\b")) /\
  (cmp (bs "a/b") (bs "a\b") = Lt -> cmp (bs "a\b") (bs "c") = Lt -> cmp (bs "a/b") (bs "c") = Lt).
Proof.
  apply path_order.
  - by apply wtf8_text.
  - by apply wtf8_text.
Defined.

(** A stored path is determined, up to the choice of separator, by its anchor's text, whether
    a root separator follows, and its components, which spell it back. *)
Theorem spelling_unique (p q : bytes) :
  wtf8 p -> wtf8 q ->
  fold_separator <$> p =
    (fold_separator <$> head_text p) ++ root_text p ++ intercalate 92 (text <$> components p) /\
  (eq p q = true <->
   fold_separator <$> head_text p = fold_separator <$> head_text q /\
   root_sep (parts p) = root_sep (parts q) /\ components p = components q).
Proof.
  intros Hp Hq. split; [apply spell_parts|]. rewrite eq_fold. split.
  - intros H. assert (parts p = parts q) as E by by rewrite <- (parts_fold p), H, parts_fold.
    unfold head_text. split_and!.
    + by rewrite !fmap_take, E, H.
    + by rewrite E.
    + by rewrite <- (components_fold p), H, components_fold.
  - intros (H1 & H2 & H3). rewrite (spell_parts p), (spell_parts q). unfold root_text. by rewrite H1, H2, H3.
Qed.

Lemma spelling_unique_witness :
  fold_separator <$> bs "C:/a" = [67; 58] ++ [92] ++ [97] /\
  (eq (bs "C:/a") (bs "C:\a") = true <->
   fold_separator <$> head_text (bs "C:/a") = fold_separator <$> head_text (bs "C:\a") /\
   root_sep (parts (bs "C:/a")) = root_sep (parts (bs "C:\a")) /\ components (bs "C:/a") = components (bs "C:\a")).
Proof.
  apply (spelling_unique (bs "C:/a") (bs "C:\a")).
  - by apply wtf8_text.
  - by apply wtf8_text.
Defined.

(** Joining a path with a finished anchor and a non-empty relative path keeps the anchor and
    appends: the components of the result are those of the first, then those of the second. Joining
    with a drive, share or device path gives that path. *)
Theorem join_appends (p r : bytes) :
  wtf8 p -> stored p -> p <> [] -> unfinished (parts p) = None ->
  (anchor r = NoAnchor -> r <> [] ->
   anchor (join p r) = anchor p /\ components (join p r) = components p ++ components r) /\
  (anchor r <> NoAnchor -> anchor r <> Rooted -> join p r = r).
Proof.
  intros Hw Hst Hne Hu. split.
  - intros Ha Hr. unfold join. rewrite Ha. destruct (no_anchor r Ha) as [Hpr Hs].
    rewrite (components_pieces r); rewrite Hpr.
    + by apply append_relative_finished.
    + cbn. destruct r; [done|simpl; lia].
  - unfold join. by destruct (anchor r).
Qed.

Lemma join_appends_witness :
  anchor (join (bs "\\s\h") (bs "a/b")) = Unc (bs "s") (bs "h") /\
  components (join (bs "\\s\h") (bs "a/b")) = [Normal (bs "a"); Normal (bs "b")].
Proof.
  destruct (join_appends (bs "\\s\h") (bs "a/b")) as [H _]; [|reflexivity|done|reflexivity|].
  - by apply wtf8_text.
  - destruct H as [H1 H2]; [reflexivity|done|]. rewrite H1, H2. split; reflexivity.
Defined.

(** Stored text never starts with the verbatim prefix: parsing gives no such text, and every
    operation that makes a path from stored paths keeps it so. *)
Theorem stored_preserved (s p r name : bytes) :
  (forall q, parse s = Ok q -> stored q) /\
  (stored p ->
   (stored r -> stored (join p r)) /\ (forall q, parent p = Some q -> stored q) /\ stored (pop p).2 /\
   stored (lexically_normal p) /\ (free is_separator name -> stored (set_file_name p name))).
Proof.
  split; [by intros q; apply parse_stored|]. intros Hp.
  split_and!; [by apply join_stored| | |by apply lexically_normal_stored|by apply set_file_name_stored].
  - intros q [n ->]%parent_prefix. by apply stored_take.
  - unfold pop. destruct (length <$> parent p); [by apply stored_take|done].
Qed.

Lemma stored_preserved_witness :
  stored (join (bs "\\?") (bs "x")) /\ parse (bs "\\?\C:\x") = Ok (bs "C:\x") /\ stored (bs "C:\x").
Proof.
  destruct (stored_preserved (bs "\\?\C:\x") (bs "\\?") (bs "x") []) as [H1 H2].
  destruct H2 as [H2 _]; [reflexivity|].
  split; [apply H2; reflexivity|]. split; [reflexivity|]. by apply H1.
Defined.
