(* ===== verification/WindowsConvert.v ===== *)
(** Conversion out of Windows paths, [cosca-path/src/windows/convert.rs]: the Win32 string, the
    verbatim string, and Win32's reading of a path. *)
From S2P Require Import Prelude PathComponent Utf OsStrWide WindowsPath.
Local Open Scope Z_scope.

(** * Operations *)

Definition NT_PREFIX : bytes := bs "\??\".

Inductive ConversionReason :=
| TrailingDotOrSpace
| SingleTrailingDot
| ReservedName
| InteriorNul
| NotFullyQualified
| DotComponent
| NtPrefix
| EmptyComponent
| EmptyPath.

#[export] Instance ConversionReason_eq_dec : EqDecision ConversionReason.
Proof. solve_decision. Defined.

Record ConversionError := conversion_error { reason : ConversionReason; component_ : option bytes }.

Inductive Role := RServer | RShare | RComponent.

Record Segment := segment { seg_text : bytes; role : Role }.

Record Navigation := navigation { kept : list nat; trailing : bool }.

Definition has_single_trailing_dot (name : bytes) : bool :=
  match reverse name with
  | 46 :: 46 :: _ => false
  | 46 :: _ => bool_decide (1 < length name)%nat
  | _ => false
  end.

Definition is_dot_or_space (b : Z) : bool := (b =? 46) || (b =? 32).

Definition ends_in_dot_or_space (name : bytes) : bool :=
  match last name with Some b => is_dot_or_space b | None => false end.

(** The loops that pop bytes off the end. *)
Definition trim_end (f : Z -> bool) (name : bytes) : bytes := reverse (span f (reverse name)).2.

Definition trim_trailing_dots_and_spaces (name : bytes) : bytes := trim_end is_dot_or_space name.

Definition is_reserved (name : bytes) : bool :=
  let stem_end :=
    match position (fun b => (b =? 46) || (b =? 58)) name with Some i => i | None => length name end in
  let stem := trim_end (fun b => b =? 32) (take stem_end name) in
  if existsb (eq_ignore_ascii_case stem) [bs "CON"; bs "PRN"; bs "AUX"; bs "NUL"; bs "CONIN$"; bs "CONOUT$"]
  then true
  else if bool_decide (length stem < 4)%nat then false
  else
    let prefix := take 3 stem in
    let digit := drop 3 stem in
    (eq_ignore_ascii_case prefix (bs "COM") || eq_ignore_ascii_case prefix (bs "LPT")) &&
    match digit with
    | [d] => within 49 57 d
    | [a; b] => (a =? 0xC2) && ((b =? 0xB9) || (b =? 0xB2) || (b =? 0xB3))
    | _ => false
    end.

(** [ReservedNames]: the last name and the first, where it counts. *)
Record ReservedNames := reserved_of { last_name : option bytes; first_name : option bytes }.

Definition normal_name (c : Component) : option bytes :=
  match c with Normal name => Some name | _ => None end.

Definition segments (p : bytes) : list Segment :=
  let ps := parts p in
  match loose_root ps with
  | Some root => (fun t => segment t RComponent) <$> split_on is_separator (drop root p)
  | None =>
      match anchor_of ps with
      | Unc server share =>
          segment server RServer ::
          (if bool_decide (2 + length server < head_len ps)%nat then [segment share RShare] else [])
      | _ => []
      end ++ ((fun c => segment (text c) RComponent) <$> components p)
  end.

(** One turn of [navigate]'s loop at index [i]. *)
Definition navigate_step (nav : Navigation) (x : nat * Segment) : Navigation :=
  let '(i, s) := x in
  match role s with
  | RComponent =>
      let trailing := bool_decide (seg_text s = []) in
      match component (seg_text s) with
      | Empty | CurDir => navigation (kept nav) trailing
      | ParentDir => navigation (removelast (kept nav)) trailing
      | Normal _ => navigation (kept nav ++ [i]) trailing
      end
  | _ => nav
  end.

Definition navigate (p : bytes) (ss : list Segment) : Navigation :=
  let nav := foldl navigate_step (navigation [] false) (imap pair ss) in
  navigation (kept nav) (trailing nav || ends_in_separator p).

Definition positional (s : Segment) : bool := match role s with RComponent => false | _ => true end.

(** The segment whose end is the end of the reading. [segments[k]] is within bounds for every index
    [navigate] keeps. *)
Definition reading_end (ss : list Segment) (nav : Navigation) : option Segment :=
  if trailing nav then None
  else match last (kept nav) with
  | Some k => ss !! k
  | None => head (reverse (filter (fun s => positional s = true) ss))
  end.

Definition nul_piece (p : bytes) : option bytes :=
  head (filter (fun piece => 0 ∈ piece) (split_on is_separator p)).

Definition reserved_names (p : bytes) : ReservedNames :=
  let keep (f : bytes -> bool) (o : option bytes) :=
    match o with Some n => if f n then Some n else None | None => None end in
  let a := anchor p in
  let first := head (components p) ≫= normal_name in
  let last_ := last (components p) ≫= normal_name in
  let counted := keep is_reserved last_ in
  match a with
  | Unc _ _ | Device _ => reserved_of None None
  | Rooted => reserved_of counted
      (keep (fun name => bool_decide (head name = Some 58) && is_reserved (drop 1 name)) first)
  | NoAnchor | OnDrive _ false => reserved_of counted (keep is_reserved first)
  | OnDrive _ true => reserved_of counted None
  end.

(** [Option::or]. *)
Definition or_else {A} (a b : option A) : option A := match a with Some _ => a | None => b end.

Definition check_win32 (p : bytes) (need_fully_qualified spell : bool) : result ConversionError unit :=
  match nul_piece p with
  | Some piece => Err (conversion_error InteriorNul (Some piece))
  | None =>
      if negb spell && starts_with NT_PREFIX p then Err (conversion_error NtPrefix (Some (bs "??")))
      else if need_fully_qualified && negb (is_fully_qualified p)
      then Err (conversion_error NotFullyQualified None)
      else
        let reserved := reserved_names p in
        match or_else (last_name reserved) (first_name reserved) with
        | Some name => if negb spell then Err (conversion_error ReservedName (Some name)) else Ok tt
        | None => Ok tt
        end
  end.

(** A kept name, not the one that ends the reading, that Win32 strips a dot from. *)
Definition single_dot (ss : list Segment) (nav : Navigation) : option bytes :=
  let ends_reading k := negb (trailing nav) && bool_decide (last (kept nav) = Some k) in
  head (filter (fun t => has_single_trailing_dot t = true)
    (omap (fun k => seg_text <$> ss !! k) (filter (fun k => ends_reading k = false) (kept nav)))).

Definition is_none {A} (o : option A) : bool := match o with None => true | Some _ => false end.

(** The text with the [.] Win32 drops, so that no name reads as a device or an NT path. *)
Definition escape (p : bytes) (reserved : ReservedNames) (nt_prefix : bool) : bytes :=
  let at_ := start (parts p) in
  let out := take at_ p in
  let out := if negb (is_none (first_name reserved)) || nt_prefix then out ++ [46; 92] else out in
  let out := out ++ drop at_ p in
  if negb (is_none (last_name reserved)) then out ++ [92; 46] else out.

Definition win32_string (p : bytes) (spell : bool) : result ConversionError bytes :=
  if bool_decide (p = []) then Err (conversion_error EmptyPath None)
  else
    let? _ := check_win32 p false spell in
    let ss := segments p in
    let nav := navigate p ss in
    let? _ :=
      match reading_end ss nav with
      | Some e =>
          if ends_in_dot_or_space (seg_text e)
          then Err (conversion_error TrailingDotOrSpace (Some (seg_text e))) else Ok tt
      | None => Ok tt
      end in
    let? _ :=
      match single_dot ss nav with
      | Some t => Err (conversion_error SingleTrailingDot (Some t))
      | None => Ok tt
      end in
    let reserved := reserved_names p in
    let nt_prefix := starts_with NT_PREFIX p in
    if is_none (first_name reserved) && is_none (last_name reserved) && negb nt_prefix then Ok p
    else Ok (escape p reserved nt_prefix).

Definition to_win32_string (p : bytes) : result ConversionError bytes := win32_string p false.

(** The components the verbatim string cannot keep. *)
Fixpoint verbatim_components (cs : list Component) : result ConversionError unit :=
  match cs with
  | [] => Ok tt
  | c :: rest =>
      match c with
      | CurDir | ParentDir => Err (conversion_error DotComponent (Some (text c)))
      | Empty =>
          match rest with
          | [] => Ok tt
          | _ => Err (conversion_error EmptyComponent (Some []))
          end
      | Normal _ => verbatim_components rest
      end
  end.

Definition has_form (p : bytes) : bool :=
  match anchor p with
  | OnDrive _ rooted => rooted
  | Unc _ _ => true
  | Device _ => bool_decide (3 < length p)%nat
  | NoAnchor | Rooted => false
  end.

(** What follows the prefix, before the separators are folded. *)
Definition verbatim_rest (p : bytes) : bytes :=
  match anchor p, loose_name_start p with
  | Unc server _, Some start => bs "UNC\" ++ server ++ [92] ++ drop start p
  | Unc _ _, None => bs "UNC\" ++ drop 2 p
  | _, Some start => drop start p
  | _, None => p
  end.

Definition to_verbatim (p : bytes) : result ConversionError bytes :=
  match nul_piece p with
  | Some piece => Err (conversion_error InteriorNul (Some piece))
  | None =>
      if negb (has_form p) then Err (conversion_error NotFullyQualified None)
      else
        let? _ := verbatim_components (components p) in
        Ok (VERBATIM ++ (fold_separator <$> verbatim_rest p))
  end.

Definition has_pure_reading (p : bytes) : bool :=
  is_fully_qualified p || match anchor p with Unc _ _ => true | _ => false end.

(** [out.ends_with(b"\\")]. *)
Definition ends_in_backslash (b : bytes) : bool := bool_decide (last b = Some 92).

Definition push_name (out name : bytes) : bytes :=
  (if ends_in_backslash out then out else out ++ [92]) ++ name.

(** The names, share and trailing separator of a reading, trimmed if [strip]. *)
Definition reading_names (p : bytes) (strip : bool) : list bytes * bytes * bool :=
  let ps := parts p in
  let ss := segments p in
  let nav := navigate p ss in
  let names := omap (fun k =>
    (fun s => let t := seg_text s in
              if strip && has_single_trailing_dot t then take (length t - 1) t else t) <$> ss !! k)
    (kept nav) in
  let share :=
    match anchor_of ps with Unc _ share => if is_none (loose_root ps) then share else [] | _ => [] end in
  if strip && negb (trailing nav) then
    match last names with
    | Some l =>
        match trim_trailing_dots_and_spaces l with
        | [] => (removelast names, share, true)
        | l' => (removelast names ++ [l'], share, trailing nav)
        end
    | None => (names, trim_trailing_dots_and_spaces share, trailing nav)
    end
  else (names, share, trailing nav).

(** The root a reading starts from; [None] is the index out of range. *)
Definition reading_root (p share : bytes) : option bytes :=
  let ps := parts p in
  let no_share :=
    match anchor_of ps with
    | Unc _ s => if is_none (loose_root ps) then bool_decide (s = []) else true
    | _ => true
    end in
  match anchor_of ps with
  | OnDrive _ _ => Some (take (head_len ps) p ++ [92])
  | Unc server _ =>
      if no_share && is_none (loose_root ps) then Some ([92; 92] ++ server)
      else Some ([92; 92] ++ server ++ [92] ++ share)
  | _ => c ← p !! 2%nat; Some [92; 92; c; 92]
  end.

(** [win32_reading]; [None] is a panic: the index, or the [unreachable!]. *)
Definition win32_reading (p : bytes) (strip : bool) : option bytes :=
  let '(names, share, trailing) := reading_names p strip in
  out ← reading_root p share;
  let out := foldl push_name out names in
  let out := if trailing && negb (ends_in_backslash out) then out ++ [92] else out in
  match parse out with
  | Ok reading => Some reading
  | Err UnspellableUncServer => Some (<[2%nat := 46]> out)
  | Err _ => None
  end.

(** [win32_normalized]; [None] is a panic. *)
Definition win32_normalized (p : bytes) : option (result ConversionError bytes) :=
  match check_win32 p true false with
  | Err e => Some (Err e)
  | Ok _ =>
      reading ← win32_reading p true;
      match last_name (reserved_names reading) with
      | Some name => Some (Err (conversion_error ReservedName (Some name)))
      | None => Some (Ok reading)
      end
  end.

(** [Path::to_wide], before the text is turned into units. *)
Definition wide_text (p : bytes) : option (result ConversionError bytes) :=
  match nul_piece p with
  | Some piece => Some (Err (conversion_error InteriorNul (Some piece)))
  | None =>
      match to_win32_string p with
      | Ok plain => Some (Ok plain)
      | Err _ =>
          verbatim ← (if has_pure_reading p then to_verbatim <$> win32_reading p false
                      else Some (to_verbatim p));
          match verbatim with
          | Ok v => Some (Ok v)
          | Err e => if bool_decide (reason e = NotFullyQualified) then Some (win32_string p true) else Some (Err e)
          end
      end
  end.

(** [Path::to_wide]; [None] is a panic. *)
Definition path_to_wide (p : bytes) : option (result ConversionError (list Z)) :=
  r ← wide_text p;
  match r with
  | Ok t => us ← to_wide t; Some (Ok us)
  | Err e => Some (Err e)
  end.

(** * Lemmas *)

Lemma split_on_in (x : Z) p :
  is_separator x = false -> x ∈ p <-> exists w, w ∈ split_on is_separator p /\ x ∈ w.
Proof.
  intros Hx. induction p as [|b p IH].
  { split; [by intros ?%not_elem_of_nil|]. intros (w & Hw%list_elem_of_singleton & Hin). by subst. }
  rewrite elem_of_cons, IH. cbn [split_on]. pose proof (split_on_ne is_separator p).
  destruct (is_separator b) eqn:E.
  - setoid_rewrite elem_of_cons. split.
    + intros [->|(w & ? & ?)]; [congruence|]. eauto.
    + intros (w & [->|Hw] & Hin); [by apply not_elem_of_nil in Hin|]. eauto.
  - destruct (split_on is_separator p) as [|w ws]; [done|]. setoid_rewrite elem_of_cons. split.
    + intros [->|(w' & [->|Hw] & Hin)].
      * exists (b :: w). split; [by left|apply elem_of_cons; by left].
      * exists (b :: w). split; [by left|apply elem_of_cons; by right].
      * exists w'. eauto.
    + intros (w' & [->|Hw] & Hin); [apply elem_of_cons in Hin as [->|Hin]|]; eauto.
Qed.

Lemma nul_piece_None p : nul_piece p = None <-> 0 ∉ p.
Proof.
  unfold nul_piece. rewrite (split_on_in 0) by done. rewrite head_None. split.
  - intros H (w & Hw & Hin). by apply (filter_nil_not_elem_of _ _ w H Hin).
  - intros H. destruct (filter _ _) as [|w ws] eqn:E; [done|]. exfalso. apply H. exists w.
    assert (w ∈ filter (fun piece => 0 ∈ piece) (split_on is_separator p)) as Hw by (rewrite E; by left).
    by apply list_elem_of_filter in Hw as [? ?].
Qed.

Lemma nul_piece_Some p w : nul_piece p = Some w -> 0 ∈ w.
Proof.
  unfold nul_piece. intros [ws H]%head_Some.
  assert (w ∈ filter (fun piece => 0 ∈ piece) (split_on is_separator p)) as Hw by (rewrite H; by left).
  by apply list_elem_of_filter in Hw as [? _].
Qed.

Lemma check_win32_Ok p full spell :
  check_win32 p full spell = Ok tt ->
  0 ∉ p /\ (spell = false -> starts_with NT_PREFIX p = false /\ reserved_names p = reserved_of None None) /\
  (full = true -> is_fully_qualified p = true).
Proof.
  unfold check_win32. destruct (nul_piece p) eqn:E; [done|]. apply nul_piece_None in E.
  destruct (negb spell && _) eqn:E1; [done|]. destruct (full && _) eqn:E2; [done|].
  destruct (reserved_names p) as [l f]; cbn. intros H. split_and!; [done| |].
  - intros ->. split; [done|]. destruct l, f; done.
  - intros ->. by apply negb_false_iff in E2.
Qed.

Lemma fold_zero (l : bytes) : 0 ∈ fold_separator <$> l <-> 0 ∈ l.
Proof.
  rewrite list_elem_of_fmap. split; [|by exists 0]. intros (x & H & Hx). unfold fold_separator in H.
  by destruct (Z.eqb_spec x 47); [|subst].
Qed.

(** The server is text of the path. *)
Lemma anchor_server p s h : anchor p = Unc s h -> exists n, s = slice p 2 n.
Proof.
  unfold anchor. intros Ha. destruct (parts_shape p) as [| |H0 H1 H2 H3|H0 H1 H2| |]; try done.
  - destruct (loose_parts_anchor p 4 Device) as [name E]. congruence.
  - exists (next_separator p 2). unfold unc_parts in Ha. destruct (negb _); [by injection Ha|].
    destruct (_ || _); [|by injection Ha].
    destruct (loose_parts_anchor p (S (next_separator p 2)) (Unc (slice p 2 (next_separator p 2)))) as [name E].
    congruence.
Qed.

Lemma slice_in (x : Z) p a b : x ∈ slice p a b -> x ∈ p.
Proof. unfold slice. 
  intros [i H]%list_elem_of_lookup. rewrite lookup_drop in H.
  apply (list_elem_of_lookup_2 (take b p)) in H. apply elem_of_take in H as (j & Hj & _).
  by apply list_elem_of_lookup_2 in Hj. Qed.

Lemma single_dot_None ss nav :
  single_dot ss nav = None <->
  forall k s, k ∈ kept nav -> ss !! k = Some s -> trailing nav = true \/ last (kept nav) <> Some k ->
    has_single_trailing_dot (seg_text s) = false.
Proof.
  unfold single_dot. rewrite head_None. split.
  - intros H k s Hk Hs Hor. apply not_true_iff_false. intros Hd.
    eapply (filter_nil_not_elem_of _ _ (seg_text s) H Hd). apply list_elem_of_omap. exists k.
    split; [|by rewrite Hs]. apply list_elem_of_filter. split; [|done].
    destruct (trailing nav); [done|]. destruct Hor as [?|Hor]; [done|]. by rewrite bool_decide_false.
  - intros H. destruct (filter _ (omap _ _)) as [|t ts] eqn:E; [done|]. exfalso.
    assert (t ∈ t :: ts) as Ht by by left. rewrite <- E in Ht.
    apply list_elem_of_filter in Ht as [Hd Ht]. apply list_elem_of_omap in Ht as (k & Hk & Hs).
    apply list_elem_of_filter in Hk as [Hends Hk]. destruct (ss !! k) as [s|] eqn:Es; [|done].
    injection Hs as <-. rewrite (H k s) in Hd; try done. apply andb_false_iff in Hends as [Hn|Hn].
    + left. by destruct (trailing nav).
    + right. by apply bool_decide_eq_false in Hn.
Qed.

Lemma escape_nul p reserved nt : 0 ∉ p -> 0 ∉ escape p reserved nt.
Proof.
  intros Hp. unfold escape. set (at_ := start (parts p)).
  assert (0 ∉ take at_ p /\ 0 ∉ drop at_ p) as [H1 H2].
  { rewrite <- not_elem_of_app, take_drop. done. }
  destruct (_ || nt), (negb (is_none (last_name reserved))); rewrite ?not_elem_of_app; split_and?; try done;
    by rewrite ?not_elem_of_cons; split_and?; try done; apply not_elem_of_nil.
Qed.

Lemma win32_string_nul p spell t : win32_string p spell = Ok t -> 0 ∉ t.
Proof.
  unfold win32_string. destruct (bool_decide (p = [])); [done|].
  destruct (check_win32 p false spell) as [[]|] eqn:Hc; [|done]. apply check_win32_Ok in Hc as [Hp _].
  repeat match goal with |- context [match ?x with Ok _ => _ | Err _ => _ end] => destruct x; [|done] end.
  destruct (_ && _); intros [= <-]; [done|by apply escape_nul].
Qed.

Lemma to_verbatim_nul p v : to_verbatim p = Ok v -> 0 ∉ v.
Proof.
  unfold to_verbatim. destruct (nul_piece p) eqn:E; [done|]. apply nul_piece_None in E.
  destruct (negb _); [done|]. destruct (verbatim_components _); [|done]. intros Hv.
  assert (v = VERBATIM ++ (fold_separator <$> verbatim_rest p)) as -> by congruence.
  rewrite not_elem_of_app, fold_zero. split.
  { vm_compute. intros H. repeat (apply elem_of_cons in H as [?|H]; [done|]). by apply not_elem_of_nil in H. }
  assert (forall n, 0 ∉ drop n p) as Hd.
  { intros n H. apply E. rewrite <- (take_drop n p). apply elem_of_app. by right. }
  unfold verbatim_rest. assert (forall l, 0 ∉ l -> 0 ∉ bs "UNC\" ++ l) as Hu.
  { intros l Hl. rewrite not_elem_of_app. split; [|done].
    vm_compute. intros H. repeat (apply elem_of_cons in H as [?|H]; [done|]). by apply not_elem_of_nil in H. }
  destruct (anchor p) as [| | |s h|] eqn:Ea; destruct (loose_name_start p); try done; try apply Hd.
  - apply Hu. rewrite !not_elem_of_app. split_and!; [|by rewrite list_elem_of_singleton|apply Hd].
    apply anchor_server in Ea as [m ->]. intros H. by apply slice_in in H.
  - apply Hu, Hd.
Qed.

(** No navigated name is among the components a verbatim string keeps. *)
Lemma verbatim_components_kept cs n :
  verbatim_components cs = Ok tt ->
  existsb (fun ic => match ic.2 with
    | CurDir | ParentDir => true
    | Empty => negb (bool_decide (ic.1 = (n + length cs - 1)%nat))
    | Normal _ => false
    end) (imap (fun i c => ((n + i)%nat, c)) cs) = false.
Proof.
  revert n; induction cs as [|c cs IH]; intros n; [done|]. cbn [verbatim_components length].
  rewrite imap_cons. cbn [existsb fst snd].
  assert (forall H : verbatim_components cs = Ok tt, existsb (fun ic => match ic.2 with
    | CurDir | ParentDir => true
    | Empty => negb (bool_decide (ic.1 = (n + S (length cs) - 1)%nat))
    | Normal _ => false
    end) (imap ((fun i c => ((n + i)%nat, c)) ∘ S) cs) = false) as Hr.
  { intros H. specialize (IH (S n) H). replace (n + S (length cs) - 1)%nat with (S n + length cs - 1)%nat by lia.
    etransitivity; [|exact IH]. f_equal. apply imap_ext. intros i x _. cbn. f_equal. lia. }
  destruct c as [| | |name]; [done|done| |exact Hr].
  destruct cs; [|done]. intros _. rewrite bool_decide_true by (simpl; lia). done.
Qed.

Lemma verbatim_not_navigated p :
  loose_root (parts p) = None -> verbatim_components (components p) = Ok tt -> has_navigated_name p = false.
Proof.
  intros Hl Hv. unfold has_navigated_name. rewrite Hl. cbn [orb].
  apply (verbatim_components_kept _ 0) in Hv. exact Hv.
Qed.

Lemma slash_folded (l : bytes) : 47 ∉ fold_separator <$> l.
Proof.
  intros (x & H & _)%list_elem_of_fmap. unfold fold_separator in H. by destruct (Z.eqb_spec x 47).
Qed.

Lemma strip_verbatim l : strip_prefix VERBATIM (VERBATIM ++ l) = Some l.
Proof. by apply strip_prefix_Some. Qed.

(** The spelling a verbatim rest is stored as, for a drive and for a server. *)
Lemma plain_spelling_drive l len :
  head l <> Some 92 -> drive_len l = Some len -> l !! len = Some 92 -> plain_spelling l = Ok l.
Proof.
  intros H1 H2 H3. unfold plain_spelling. rewrite H2, !bool_decide_true by done. done.
Qed.

Lemma plain_spelling_unc l :
  take (next_separator l 0) l <> [46] -> take (next_separator l 0) l <> [63] ->
  plain_spelling (bs "UNC\" ++ l) = Ok (bs "\\" ++ l).
Proof.
  intros H1 H2. unfold plain_spelling.
  change (drop 4 (bs "UNC\" ++ l)) with l. change (take 3 (bs "UNC\" ++ l)) with (bs "UNC").
  rewrite (bool_decide_true (4 <= _)%nat), (bool_decide_true (_ !! 3%nat = _)) by (done || (simpl; lia)).
  assert (drive_len (bs "UNC\" ++ l) = None) as -> by done.
  assert (eq_ignore_ascii_case (bs "UNC") (bs "UNC") = true) as -> by done.
  rewrite andb_false_r. cbn zeta. cbn [andb]. by rewrite !(bool_decide_false (take _ _ = _)).
Qed.

Lemma next_separator_drop b n : (n <= length b)%nat -> (n + next_separator (drop n b) 0)%nat = next_separator b n.
Proof.
  intros H. unfold next_separator. rewrite drop_drop, Nat.add_0_r, length_drop.
  destruct (position is_separator (drop n b)); lia.
Qed.

Lemma server_slice b : (2 <= length b)%nat ->
  take (next_separator (drop 2 b) 0) (drop 2 b) = slice b 2 (next_separator b 2).
Proof.
  intros H. unfold slice. rewrite <- (next_separator_drop b 2) by done. by rewrite take_drop_commute.
Qed.

(** A UNC server is not [.] or [?]: that text would be a device path. *)
Lemma unc_server_name p c :
  (2 <= length p)%nat -> dot_or_question p = false \/ sep_at p 3 = false /\ length p <> 3%nat ->
  c = 46 \/ c = 63 -> slice p 2 (next_separator p 2) <> [c].
Proof.
  intros Hl Hd Hc E. destruct (next_separator_spec p 2 Hl) as (Hb & _ & Hs).
  assert (next_separator p 2 = 3%nat) as E3.
  { apply (f_equal length) in E. unfold slice in E. rewrite length_drop, length_take in E. simpl in E. lia. }
  rewrite E3 in *. assert (dot_or_question p = true) as Hq.
  { unfold slice in E. apply (f_equal (fun l => l !! 0%nat)) in E. rewrite lookup_drop, lookup_take_lt in E by lia.
    unfold dot_or_question. simpl in E. rewrite E. by destruct Hc as [-> | ->]. }
  destruct Hd as [Hd|[Hd1 Hd2]]; [congruence|]. destruct Hs as [Hs|Hs]; [congruence|done].
Qed.

Lemma two_separators p : sep_at p 0 = true -> sep_at p 1 = true ->
  fold_separator <$> p = bs "\\" ++ (fold_separator <$> drop 2 p).
Proof.
  unfold sep_at. destruct p as [|a [|b p]]; try done.
  intros Ha Hb. by rewrite !fmap_cons, (fold_sep_92 a Ha), (fold_sep_92 b Hb).
Qed.

Lemma to_verbatim_inv p v :
  to_verbatim p = Ok v ->
  has_form p = true /\ verbatim_components (components p) = Ok tt /\
  v = VERBATIM ++ (fold_separator <$> verbatim_rest p).
Proof.
  unfold to_verbatim. destruct (nul_piece p); [done|]. destruct (has_form p); cbn [negb]; [|done].
  destruct (verbatim_components _) as [[]|]; [|done]. intros H. split_and!; [done|done|congruence].
Qed.

Lemma parse_folded l q :
  plain_spelling (fold_separator <$> l) = Ok q -> has_navigated_name q = false ->
  parse (VERBATIM ++ (fold_separator <$> l)) = Ok q.
Proof.
  intros H1 H2. unfold parse. rewrite strip_verbatim, bool_decide_false by apply slash_folded.
  by rewrite H1, H2.
Qed.

Lemma not_navigated_fold p :
  wtf8 p -> loose_root (parts p) = None -> verbatim_components (components p) = Ok tt ->
  has_navigated_name (fold_separator <$> p) = false.
Proof. intros Hw Hl Hv. apply verbatim_not_navigated; [by rewrite parts_fold|by rewrite components_fold]. Qed.

Lemma parse_verbatim_drive p v :
  wtf8 p -> drive p <> None -> to_verbatim p = Ok v -> parse v = Ok (fold_separator <$> p).
Proof.
  intros Hw Hd (Hf & Hv & ->)%to_verbatim_inv. unfold drive, has_form, verbatim_rest, loose_name_start, anchor in *.
  pose proof (not_navigated_fold p Hw) as Hn.
  destruct (parts_shape p) as [| |H0 H1 H2 H3|H0 H1 H2|len H0 H1|]; try done.
  - destruct (loose_parts_anchor p 4 Device) as [name E]. by rewrite E in Hd.
  - destruct (unc_parts_shape p H1) as [|root server|]; try done.
    destruct (loose_parts_anchor p root (Unc server)) as [name E]. by rewrite E in Hd.
  - cbn in *. apply parse_folded; [|by apply Hn].
    apply (plain_spelling_drive _ len).
    + pose proof (sep_at_fold p 0) as H. rewrite H0 in H. unfold sep_at in H.
      destruct (fold_separator <$> p) as [|b l]; [done|]. simpl in *. intros [= ->]. done.
    + by rewrite drive_len_fold.
    + unfold sep_at in Hf. rewrite list_lookup_fmap. destruct (p !! len); [|done]. simpl. by rewrite fold_sep_92.
Qed.

Lemma parse_verbatim_unc p v s h :
  wtf8 p -> anchor p = Unc s h -> loose_root (parts p) = None -> to_verbatim p = Ok v ->
  parse v = Ok (fold_separator <$> p).
Proof.
  intros Hw Ha Hl (Hf & Hv & ->)%to_verbatim_inv. pose proof (not_navigated_fold p Hw Hl Hv) as Hn.
  unfold verbatim_rest, loose_name_start. rewrite Ha, Hl. clear Hf. unfold anchor in Ha.
  destruct (parts_shape p) as [| |H0 H1 H2 H3|H0 H1 H2| |]; try done.
  - destruct (loose_parts_anchor p 4 Device) as [name E]. congruence.
  - apply sep_at_lt in H1 as Hlen. rewrite (two_separators p H0 H1) in *.
    apply parse_folded; [|done]. rewrite fmap_app. change (fold_separator <$> bs "UNC\") with (bs "UNC\").
    destruct (next_separator_spec p 2) as (_ & Hfree & _); [lia|].
    apply plain_spelling_unc; rewrite next_separator_fold, <- fmap_take, server_slice, fold_free by (done || lia);
      apply unc_server_name; auto; lia.
Qed.

(** * Properties *)

(** [to_win32_string] never rewrites, and refuses exactly these texts: an empty one, one with
    a NUL, an NT path, one with a name reserved for a device where it counts, one whose reading ends
    in a name with a trailing dot or space, or one that keeps another name with a single trailing
    dot. The escape that only [to_wide] asks for is not reached. *)
Theorem to_win32_string_iff (p q : bytes) :
  to_win32_string p = Ok q <->
  q = p /\ p <> [] /\ 0 ∉ p /\ starts_with NT_PREFIX p = false /\
  reserved_names p = reserved_of None None /\
  let ss := segments p in let nav := navigate p ss in
  (forall e, reading_end ss nav = Some e -> ends_in_dot_or_space (seg_text e) = false) /\
  (forall k s, k ∈ kept nav -> ss !! k = Some s -> trailing nav = true \/ last (kept nav) <> Some k ->
    has_single_trailing_dot (seg_text s) = false).
Proof.
  cbn zeta. rewrite <- single_dot_None. unfold to_win32_string, win32_string. split.
  - destruct (bool_decide (p = [])) eqn:Hp; [done|]. apply bool_decide_eq_false in Hp.
    destruct (check_win32 p false false) as [[]|] eqn:Hc; [|done].
    apply check_win32_Ok in Hc as (H0 & Hc & _). destruct (Hc eq_refl) as [-> Hr].
    destruct (reading_end _ _) as [e|]; [destruct (ends_in_dot_or_space (seg_text e)) eqn:He; [done|]|];
      destruct (single_dot _ _) eqn:Hd; try done; rewrite Hr; intros [= <-]; split_and!; try done.
    by intros e' [= <-].
  - intros (-> & Hp & H0 & Hnt & Hr & He & ->). rewrite bool_decide_false by done.
    unfold check_win32. rewrite (proj2 (nul_piece_None p) H0), Hnt, Hr. cbn.
    destruct (reading_end _ _) as [e|]; [rewrite He by done|]; done.
Qed.

(** The verbatim string of a drive or UNC path parses back to the path, with its separators
    written as backslashes, so to an [==] path. *)
Theorem to_verbatim_parses (p v : bytes) :
  wtf8 p -> drive p <> None \/ (exists s h, anchor p = Unc s h) /\ loose_root (parts p) = None ->
  to_verbatim p = Ok v -> parse v = Ok (fold_separator <$> p) /\ eq (fold_separator <$> p) p = true.
Proof.
  intros Hw Ha Hv. split.
  - destruct Ha as [Hd|[(s & h & Ha) Hl]]; [by apply parse_verbatim_drive|by eapply parse_verbatim_unc].
  - rewrite eq_fold, <- list_fmap_compose. apply list_fmap_ext. intros i b _. unfold compose, fold_separator.
    destruct (b =? 47) eqn:E; [done|by rewrite E].
Qed.

Lemma to_verbatim_parses_witness :
  parse (bs "\\?\C:\a.\b") = Ok (bs "C:\a.\b") /\ eq (bs "C:\a.\b") (bs "C:/a./b") = true.
Proof.
  apply (to_verbatim_parses (bs "C:/a./b")); [by apply wtf8_text|by left|reflexivity].
Defined.

(** No conversion lets a NUL through. A path that holds one is refused everywhere, naming a
    piece that holds it; and the text a conversion gives holds none. *)
Theorem nul_refused (p : bytes) :
  (0 ∈ p -> exists w, w ∈ split_on is_separator p /\ 0 ∈ w /\
    let e := conversion_error InteriorNul (Some w) in
    to_win32_string p = Err e /\ to_verbatim p = Err e /\ win32_normalized p = Some (Err e) /\
    path_to_wide p = Some (Err e)) /\
  (forall t, to_win32_string p = Ok t \/ to_verbatim p = Ok t \/ wide_text p = Some (Ok t) -> 0 ∉ t).
Proof.
  split.
  - intros Hp. destruct (nul_piece p) as [w|] eqn:E; [|by apply nul_piece_None in E].
    exists w. cbn zeta. split_and!.
    + unfold nul_piece in E. apply head_Some in E as [ws E].
      assert (w ∈ filter (fun piece => 0 ∈ piece) (split_on is_separator p)) as Hw by (rewrite E; by left).
      by apply list_elem_of_filter in Hw as [_ ?].
    + by apply nul_piece_Some in E.
    + unfold to_win32_string, win32_string, check_win32. rewrite E, (bool_decide_false (p = [])); [done|].
      intros ->. by apply not_elem_of_nil in Hp.
    + unfold to_verbatim. by rewrite E.
    + unfold win32_normalized, check_win32. by rewrite E.
    + unfold path_to_wide, wide_text. by rewrite E.
  - intros t [H|[H|H]]; [by eapply win32_string_nul|by eapply to_verbatim_nul|].
    unfold wide_text in H. destruct (nul_piece p); [done|].
    destruct (to_win32_string p) eqn:Ew; [injection H as <-; by eapply win32_string_nul|].
    destruct (if has_pure_reading p then _ else _) as [r|] eqn:Er; [|done]. simpl in H.
    destruct r as [v|er].
    + injection H as <-. destruct (has_pure_reading p).
      * destruct (win32_reading p false); [|done]. injection Er as Er. by eapply to_verbatim_nul.
      * injection Er as Er. by eapply to_verbatim_nul.
    + destruct (bool_decide _); [injection H as H; by eapply win32_string_nul|done].
Qed.

Lemma nul_refused_witness :
  exists w, w ∈ split_on is_separator [97; 92; 0; 98] /\ 0 ∈ w /\
    let e := conversion_error InteriorNul (Some w) in
    to_win32_string [97; 92; 0; 98] = Err e /\ to_verbatim [97; 92; 0; 98] = Err e /\
    win32_normalized [97; 92; 0; 98] = Some (Err e) /\ path_to_wide [97; 92; 0; 98] = Some (Err e).
Proof. apply nul_refused. apply elem_of_cons; right. apply elem_of_cons; right. by left. Defined.
