(* ===== verification/IoErrors.v ===== *)
(** [std::io]'s errors; messages are left out. *)
From S2P Require Import Prelude.
Local Open Scope Z_scope.

(** [io::ErrorKind]: the kinds the code names; any other is [OtherKind]. *)
Inductive ErrorKind :=
| NotFound
| PermissionDenied
| InvalidInput
| InvalidData
| Unsupported
| Interrupted
| WouldBlock
| BrokenPipe
| Other
| OtherKind (n : Z).

#[export] Instance ErrorKind_eq_dec : EqDecision ErrorKind.
Proof. solve_decision. Defined.

(** [io::Error]: its kind and, where the OS gave one, the code. *)
Record IoError := io_error { kind : ErrorKind; raw_os_error : option Z }.

(** [kind.into()]: no OS code. *)
Definition of_kind (k : ErrorKind) : IoError := io_error k None.

(** Linux's codes that the code names. *)
Definition EPERM : Z := 1.
Definition ENOENT : Z := 2.
Definition ESRCH : Z := 3.
Definition EINTR : Z := 4.
Definition EAGAIN : Z := 11.
Definition EACCES : Z := 13.
Definition EXDEV : Z := 18.
Definition EINVAL : Z := 22.
Definition EPIPE : Z := 32.
Definition ENOSYS : Z := 38.
Definition ELOOP : Z := 40.

(** [io::Error::from_raw_os_error] on Linux. *)
Definition from_raw_os_error (e : Z) : IoError :=
  io_error
    (if e =? ENOENT then NotFound
     else if (e =? EPERM) || (e =? EACCES) then PermissionDenied
     else if e =? EINVAL then InvalidInput
     else if e =? ENOSYS then Unsupported
     else if e =? EINTR then Interrupted
     else if e =? EAGAIN then WouldBlock
     else if e =? EPIPE then BrokenPipe
     else OtherKind e) (Some e).
