(* ===== verification/Filesystem.v ===== *)
(** The filesystem questions a resolver asks, [cosca-path/src/fs.rs], the table a test states,
    [cosca-path/src/fs/fake.rs], and the policy by which this machine's answers are read,
    [cosca-path/src/fs/host.rs]. *)
From S2P Require Import Prelude PathComponent.
From S2P Require Export IoErrors.
Local Open Scope Z_scope.

(** * The trait *)

Class Filesystem (F P : Type) := {
  is_file : F -> P -> result IoError bool;
  is_dir : F -> P -> result IoError bool;
  canonical : F -> P -> result IoError P;
  same_file : F -> P -> P -> result IoError bool;
}.

(** [BoundPath]: a path bound to the filesystem that answers about it. *)
Section bound.
Context {F P : Type} `{Filesystem F P}.

Record BoundPath := bound_path { fs : F; path_ : P }.

Definition bound_is_file (b : BoundPath) : result IoError bool := is_file (fs b) (path_ b).

Definition bound_is_dir (b : BoundPath) : result IoError bool := is_dir (fs b) (path_ b).

Definition bound_canonical (b : BoundPath) : result IoError P := canonical (fs b) (path_ b).

Definition bound_same_file (b other : BoundPath) : result IoError bool :=
  same_file (fs b) (path_ b) (path_ other).
End bound.

(** * The table *)

Inductive Entry :=
| File
| Dir
| Error (k : ErrorKind).

Section fake.
Context {P : Type} `{PurePath P}.

Record FakeFilesystem := fake_filesystem { entries : list (P * Entry); links : list (P * P) }.

Definition new : FakeFilesystem := fake_filesystem [] [].

(** [find], by [==] of the key. *)
Fixpoint find {V} (l : list (P * V)) (p : P) : option V :=
  match l with
  | [] => None
  | (k, v) :: rest => if decide (k ≡ p) then Some v else find rest p
  end.

(** [iter_mut().find()] and the assignment, or the [push]. *)
Fixpoint state {V} (l : list (P * V)) (p : P) (v : V) : list (P * V) :=
  match l with
  | [] => [(p, v)]
  | (k, old) :: rest => if decide (k ≡ p) then (k, v) :: rest else (k, old) :: state rest p v
  end.

Definition with_ (f : FakeFilesystem) (p : P) (e : Entry) : FakeFilesystem :=
  fake_filesystem (state (entries f) p e) (links f).

Definition with_file (f : FakeFilesystem) (p : P) : FakeFilesystem := with_ f p File.

Definition with_dir (f : FakeFilesystem) (p : P) : FakeFilesystem := with_ f p Dir.

Definition with_error (f : FakeFilesystem) (p : P) (k : ErrorKind) : FakeFilesystem := with_ f p (Error k).

Definition with_canonical (f : FakeFilesystem) (p target : P) : FakeFilesystem :=
  fake_filesystem (entries f) (state (links f) p target).

Definition stated (f : FakeFilesystem) (p : P) : result IoError (option Entry) :=
  match find (entries f) p with
  | Some (Error k) => Err (of_kind k)
  | Some e => Ok (Some e)
  | None => Ok None
  end.

Definition fake_is_file (f : FakeFilesystem) (p : P) : result IoError bool :=
  let? e := stated f p in Ok (match e with Some File => true | _ => false end).

Definition fake_is_dir (f : FakeFilesystem) (p : P) : result IoError bool :=
  let? e := stated f p in Ok (match e with Some Dir => true | _ => false end).

Definition fake_canonical (f : FakeFilesystem) (p : P) : result IoError P :=
  let? e := stated f p in
  match e with
  | None => Err (of_kind NotFound)
  | Some _ => Ok (match find (links f) p with Some target => target | None => p end)
  end.

Definition fake_same_file (f : FakeFilesystem) (a b : P) : result IoError bool :=
  let? ca := fake_canonical f a in
  let? cb := fake_canonical f b in
  Ok (bool_decide (ca ≡ cb)).

#[export] Instance fake_Filesystem : Filesystem FakeFilesystem P := {|
  is_file := fake_is_file;
  is_dir := fake_is_dir;
  canonical := fake_canonical;
  same_file := fake_same_file;
|}.

(** * Lemmas on the table *)

(** Answers that agree up to [==] of the paths in them. *)
Definition answer_equiv (r1 r2 : result IoError P) : Prop :=
  match r1, r2 with Ok p, Ok q => p ≡ q | Err e1, Err e2 => e1 = e2 | _, _ => False end.

Lemma find_state {V} (l : list (P * V)) p v q :
  find (state l p v) q = if decide (p ≡ q) then Some v else find l q.
Proof.
  induction l as [|[k old] l IH]; cbn [state find]; [done|].
  destruct (decide (k ≡ p)) as [Hk|Hk]; cbn [find].
  - destruct (decide (k ≡ q)), (decide (p ≡ q)); try done; exfalso.
    + match goal with H : ~ _ |- _ => apply H end. by rewrite <- Hk.
    + match goal with H : ~ _ |- _ => apply H end. by rewrite Hk.
  - rewrite IH. destruct (decide (k ≡ q)) as [Hq|]; [|done]. destruct (decide (p ≡ q)) as [Hp|]; [|done].
    exfalso. apply Hk. by rewrite Hq, Hp.
Qed.

#[export] Instance find_proper {V} (l : list (P * V)) : Proper ((≡) ==> eq) (find l).
Proof.
  intros p q Hpq. induction l as [|[k v] l IH]; cbn [find]; [done|]. rewrite IH.
  destruct (decide (k ≡ p)) as [E|E], (decide (k ≡ q)) as [E'|E']; try done; exfalso;
    [apply E'; by rewrite <- Hpq|apply E; by rewrite Hpq].
Qed.

Lemma stated_proper f p q : p ≡ q -> stated f p = stated f q.
Proof. intros E. unfold stated. by rewrite E. Qed.

Lemma canonical_proper f p q : p ≡ q -> answer_equiv (fake_canonical f p) (fake_canonical f q).
Proof.
  intros E. unfold fake_canonical. rewrite (stated_proper _ _ _ E), (find_proper (links f) _ _ E).
  destruct (stated f q) as [[e|]|]; simpl; try done. by destruct (find (links f) q).
Qed.

Lemma stated_with f p e q :
  stated (with_ f p e) q =
  if decide (p ≡ q) then match e with Error k => Err (of_kind k) | _ => Ok (Some e) end else stated f q.
Proof. unfold stated, with_. cbn [entries]. rewrite find_state. by destruct (decide (p ≡ q)). Qed.

Lemma same_file_decide f a b ca cb :
  fake_canonical f a = Ok ca -> fake_canonical f b = Ok cb ->
  fake_same_file f a b = Ok (bool_decide (ca ≡ cb)).
Proof. unfold fake_same_file. by intros -> ->. Qed.

(** * Properties of the table *)

(** A later statement about a path replaces an earlier one and changes the answer for no other
    path: after stating [e] about [p], a question about [q] is answered by [e] if [q] is [p] up to
    [==], and as before otherwise; a statement of a canonical form changes no other question. A path
    nothing was stated about is absent. *)
Theorem fake_statements (f : FakeFilesystem) (p q target : P) (e : Entry) :
  stated (with_ f p e) q =
    (if decide (p ≡ q) then match e with Error k => Err (of_kind k) | _ => Ok (Some e) end
     else stated f q) /\
  (p ≢ q -> fake_canonical (with_ f p e) q = fake_canonical f q) /\
  stated (with_canonical f p target) q = stated f q /\
  fake_canonical (with_canonical f p target) q =
    (if decide (p ≡ q)
     then match fake_canonical f q with Ok _ => Ok target | Err err => Err err end
     else fake_canonical f q) /\
  stated new q = Ok None /\ fake_is_file new q = Ok false /\ fake_canonical new q = Err (of_kind NotFound).
Proof.
  split; [apply stated_with|]. split.
  { intros Hn. unfold fake_canonical. by rewrite stated_with, decide_False. }
  split; [done|]. split; [|done].
  unfold fake_canonical. change (stated (with_canonical f p target) q) with (stated f q).
  change (links (with_canonical f p target)) with (state (links f) p target). rewrite find_state.
  destruct (stated f q) as [[e'|]|]; destruct (decide (p ≡ q)); done.
Qed.

(** Paths that are [==] get the same answers, and [same_file] is an equivalence on the paths
    that exist: it answers for exactly those, it holds of a path and itself, it is symmetric and
    transitive. *)
Theorem fake_same_file_equivalence (f : FakeFilesystem) (a b c : P) :
  (a ≡ b -> fake_is_file f a = fake_is_file f b /\ fake_is_dir f a = fake_is_dir f b /\
    answer_equiv (fake_canonical f a) (fake_canonical f b)) /\
  (forall ca, fake_canonical f a = Ok ca -> fake_same_file f a a = Ok true) /\
  (fake_same_file f a b = Ok true -> fake_same_file f b a = Ok true) /\
  (fake_same_file f a b = Ok true -> fake_same_file f b c = Ok true -> fake_same_file f a c = Ok true) /\
  ((exists r, fake_same_file f a b = Ok r) <->
   (exists ca, fake_canonical f a = Ok ca) /\ (exists cb, fake_canonical f b = Ok cb)).
Proof.
  split_and!.
  - intros E. unfold fake_is_file, fake_is_dir. rewrite (stated_proper _ _ _ E).
    split_and!; [done|done|by apply canonical_proper].
  - intros ca Ha. rewrite (same_file_decide f a a ca ca) by done. by rewrite bool_decide_true.
  - unfold fake_same_file. destruct (fake_canonical f a) as [ca|], (fake_canonical f b) as [cb|]; try done.
    intros [= E%bool_decide_eq_true]. by rewrite bool_decide_true.
  - unfold fake_same_file.
    destruct (fake_canonical f a) as [ca|], (fake_canonical f b) as [cb|], (fake_canonical f c) as [cc|]; try done.
    intros [= E1%bool_decide_eq_true] [= E2%bool_decide_eq_true]. rewrite bool_decide_true; [done|].
    by rewrite E1.
  - unfold fake_same_file.
    destruct (fake_canonical f a) as [ca|], (fake_canonical f b) as [cb|]; naive_solver.
Qed.
End fake.

Arguments FakeFilesystem P : clear implicits.

(** * This machine's filesystem

    [std::fs] and the file identity query are parameters: [metadata_], [canonicalize] and
    [identity]. So are the conversions between the path type and [std]'s. *)

Definition is_absence (absent_code : Z -> bool) (e : IoError) : bool :=
  match raw_os_error e with
  | None => bool_decide (kind e = NotFound)
  | Some code => absent_code code
  end.

(** The list for Windows and, with [ENOENT] and [ENOTDIR], for Unix. *)
Definition windows_absent (code : Z) : bool :=
  (code =? 2) || (code =? 3) || (code =? 123) || (code =? 161) || (code =? 267).

Definition unix_absent (code : Z) : bool := (code =? 2) || (code =? 20).

(** [io::Error::other(e)] and [io::Error::new(NotFound, e)] hide the OS code. *)
Definition not_absence (e : IoError) : IoError :=
  if bool_decide (kind e = NotFound) then of_kind Other else e.

Definition absence_as_not_found (absent_code : Z -> bool) (e : IoError) : IoError :=
  if is_absence absent_code e then of_kind NotFound else not_absence e.

Section host.
Context {P S M : Type}.
Context (absent_code : Z -> bool).
Context (std_path : P -> result IoError S) (from_std_path : S -> result IoError P).
Context (metadata_ : S -> result IoError M) (m_is_file m_is_dir : M -> bool).
Context (canonicalize : S -> result IoError S) (identity : S -> S -> result IoError bool).

Definition metadata (p : P) : result IoError (option M) :=
  let? s := std_path p in
  match metadata_ s with
  | Ok meta => Ok (Some meta)
  | Err e => if is_absence absent_code e then Ok None else Err (not_absence e)
  end.

Definition host_is_file (p : P) : result IoError bool :=
  let? m := metadata p in Ok (match m with Some meta => m_is_file meta | None => false end).

Definition host_is_dir (p : P) : result IoError bool :=
  let? m := metadata p in Ok (match m with Some meta => m_is_dir meta | None => false end).

Definition map_err {A} (f : IoError -> IoError) (r : result IoError A) : result IoError A :=
  match r with Ok a => Ok a | Err e => Err (f e) end.

Definition host_canonical (p : P) : result IoError P :=
  let? s := std_path p in
  let? c := map_err (absence_as_not_found absent_code) (canonicalize s) in
  from_std_path c.

Definition host_same_file (a b : P) : result IoError bool :=
  let? sa := std_path a in
  let? sb := std_path b in
  map_err (absence_as_not_found absent_code) (identity sa sb).

(** A path the operating system gives that does not parse is [InvalidData]. *)
Context (from_std_path_err : forall s e, from_std_path s = Err e -> kind e = InvalidData).

Lemma not_absence_kind e : kind (not_absence e) <> NotFound.
Proof. unfold not_absence. by destruct (bool_decide (kind e = NotFound)) eqn:E; [|apply bool_decide_eq_false in E]. Qed.

Lemma absence_as_not_found_kind e :
  kind (absence_as_not_found absent_code e) = NotFound <-> is_absence absent_code e = true.
Proof.
  unfold absence_as_not_found. destruct (is_absence absent_code e); [done|].
  pose proof (not_absence_kind e). naive_solver.
Qed.

(** An operating system error, mapped, and the absence it stands for. *)
Lemma absent_error {A B} e' :
  (exists e, (Err (absence_as_not_found absent_code e') : result IoError A) = Err e /\ kind e = NotFound) <->
  (exists e, (Err e' : result IoError B) = Err e /\ is_absence absent_code e = true).
Proof.
  split.
  - intros (e & [= <-] & Hk). exists e'. by rewrite <- absence_as_not_found_kind.
  - intros (e & [= <-] & Hk). eexists. split; [done|]. by apply absence_as_not_found_kind.
Qed.

(** [NotFound] is absence and nothing else. [is_file] and [is_dir] never fail with it, and
    say [Ok false] for an absent path; [canonical] and [same_file] fail with it exactly when the
    operating system's answer is one of absence. *)
Theorem host_not_found_is_absence (a b : P) (sa sb : S) :
  std_path a = Ok sa -> std_path b = Ok sb ->
  (forall e, host_is_file a = Err e \/ host_is_dir a = Err e -> kind e <> NotFound) /\
  (forall e, metadata_ sa = Err e -> is_absence absent_code e = true ->
    host_is_file a = Ok false /\ host_is_dir a = Ok false) /\
  ((exists e, host_canonical a = Err e /\ kind e = NotFound) <->
   (exists e, canonicalize sa = Err e /\ is_absence absent_code e = true)) /\
  ((exists e, host_same_file a b = Err e /\ kind e = NotFound) <->
   (exists e, identity sa sb = Err e /\ is_absence absent_code e = true)).
Proof.
  intros Ha Hb. unfold host_is_file, host_is_dir, host_canonical, host_same_file, metadata. rewrite Ha, Hb.
  split_and!.
  - destruct (metadata_ sa) as [m|e']; [naive_solver|]. destruct (is_absence absent_code e'); [naive_solver|].
    intros e [[= <-]|[= <-]]; apply not_absence_kind.
  - intros e -> ->. done.
  - destruct (canonicalize sa) as [c|e']; simpl.
    + split; [|naive_solver]. intros (e & He & Hk). apply from_std_path_err in He. congruence.
    + apply absent_error.
  - destruct (identity sa sb) as [r|e']; simpl; [naive_solver|].
    apply absent_error.
Qed.
End host.

(** A machine where the path 1 is unreachable and every other is absent. *)
Lemma host_not_found_is_absence_witness :
  let ca := fun p : Z => Err (io_error NotFound (Some 2)) : result IoError Z in
  exists e, host_canonical windows_absent Ok Ok ca 0 = Err e /\ kind e = NotFound.
Proof.
  cbn zeta.
  destruct (host_not_found_is_absence windows_absent (fun p : Z => Ok p) (fun p : Z => Ok p)
    (fun p : Z => Err (if p =? 1 then io_error NotFound (Some 53) else io_error NotFound (Some 2)) : result IoError unit)
    (fun _ => true) (fun _ => true) (fun p : Z => Err (io_error NotFound (Some 2)))
    (fun _ _ => Err (io_error NotFound (Some 2)))
    ltac:(done) 0 0 0 0 eq_refl eq_refl) as (_ & _ & H & _).
  apply H. eexists. split; reflexivity.
Defined.
