(* ===== verification/ResolveNames.v ===== *)
(** How the resolver reads a program's name, [src/resolve.rs]: shapes, Win32 path types, prefixes,
    candidate filenames and the [PATH] variable; and [src/resolve/exact.rs]. Names are bytes; the
    flag [windows] selects the grammar. *)
From S2P Require Import Prelude PathComponent Utf OsStrWide WindowsPath Filesystem.
Local Open Scope Z_scope.

(** * Operations *)

Inductive Shape := BareName | Located.

#[export] Instance Shape_eq_dec : EqDecision Shape.
Proof. solve_decision. Defined.

Inductive PathType := TUnc | DriveAbsolute | DriveRelative | TRooted | Relative.

#[export] Instance PathType_eq_dec : EqDecision PathType.
Proof. solve_decision. Defined.

Definition is_sep (windows : bool) (b : Z) : bool := (b =? 47) || (windows && (b =? 92)).

(** [bytes.get(i).is_some_and(|&b| is_sep(b, true))]. *)
Definition sep_at (b : bytes) (i : nat) : bool :=
  match b !! i with Some x => is_sep true x | None => false end.

Definition drive_len (b : bytes) : option nat :=
  match b with
  | [] => None
  | b0 :: _ =>
      let colon (unit : nat) := if decide (b !! unit = Some 58) then Some (S unit) else None in
      if b0 <? 0x80 then colon 1%nat
      else if 0xF0 <=? b0 then None
      else if 0xE0 <=? b0 then colon 3%nat
      else if 0xC0 <=? b0 then colon 2%nat
      else None
  end.

Definition path_type (program : bytes) : PathType :=
  if sep_at program 0 then (if sep_at program 1 then TUnc else TRooted)
  else match drive_len program with
  | Some len => if sep_at program len then DriveAbsolute else DriveRelative
  | None => Relative
  end.

Definition split_drive (program : bytes) : option (bytes * bytes) :=
  match path_type program with
  | DriveAbsolute | DriveRelative =>
      len ← drive_len program; Some (take len program, drop len program)
  | _ => None
  end.

Definition classify (windows : bool) (program : bytes) : Shape :=
  if existsb (is_sep windows) program then Located
  else if windows && match drive_len program with Some _ => true | None => false end then Located
  else BareName.

Definition is_ascii_alphabetic (b : Z) : bool := within 65 90 b || within 97 122 b.

Definition has_ascii_drive (b : bytes) : bool :=
  match b with b0 :: b1 :: _ => (b1 =? 58) && is_ascii_alphabetic b0 | _ => false end.

(** [bytes.get(i).is_none_or(|&b| is_sep(b, true))]. *)
Definition none_or_sep (b : bytes) (i : nat) : bool :=
  match b !! i with Some x => is_sep true x | None => true end.

(** The closures [component] and [end]: where the run from [at] on ends. *)
Definition run_end (f : Z -> bool) (b : bytes) (at_ : nat) : nat :=
  match position f (drop at_ b) with None => length b | Some i => (at_ + i)%nat end.

(** The marker [UNC\] of a verbatim path. *)
Definition is_unc_marker (b : bytes) : bool :=
  bool_decide (8 <= length b)%nat && eq_ignore_ascii_case (take 3 (drop 4 b)) (bs "UNC") &&
  bool_decide (b !! 7%nat = Some 92).

Definition windows_prefix_len (b : bytes) : nat :=
  if negb (sep_at b 0 && sep_at b 1) then
    if sep_at b 0 then 0%nat else match drive_len b with Some n => n | None => 0%nat end
  else
    let component := run_end (is_sep true) b in
    if bool_decide (b !! 2%nat = Some 63) && sep_at b 3 && negb (bool_decide (47 ∈ take 4 b)) then
      if is_unc_marker b then
        let server := component 8%nat in
        if bool_decide (length b <= server)%nat then length b else component (S server)
      else if has_ascii_drive (drop 4 b) && none_or_sep b 6 then 6%nat
      else component 4%nat
    else if bool_decide (b !! 2%nat = Some 46) && sep_at b 3 then component 4%nat
    else
      let server := component 2%nat in
      if bool_decide (server = 2%nat) || bool_decide (length b <= server)%nat then 0%nat
      else
        let share := component (S server) in
        if bool_decide (share = S server) then 0%nat else share.

Definition is_verbatim_unc_without_share (b : bytes) : bool :=
  if starts_with VERBATIM b && is_unc_marker b then
    match split_on (fun x => x =? 92) (drop 8 b) with
    | server :: share :: _ => bool_decide (server = []) || bool_decide (share = [])
    | _ => true
    end
  else false.

Definition is_absolute_name (windows : bool) (program : bytes) : bool :=
  if negb windows then bool_decide (head program = Some 47)
  else match path_type program with
  | DriveAbsolute => true
  | TUnc => bool_decide (0 < windows_prefix_len program)%nat && negb (is_verbatim_unc_without_share program)
  | DriveRelative | TRooted | Relative => false
  end.

Definition needs_base (windows : bool) (program : bytes) : bool :=
  bool_decide (classify windows program = Located) &&
  if windows then match path_type program with TRooted | Relative => true | _ => false end
  else negb (is_absolute_name false program).

Definition is_unc_without_share (windows : bool) (program : bytes) : bool :=
  windows && bool_decide (path_type program = TUnc) && bool_decide (windows_prefix_len program = 0%nat).

Definition is_drive_relative (windows : bool) (program : bytes) : bool :=
  windows && bool_decide (path_type program = DriveRelative).

Definition final_component (windows : bool) (program : bytes) : bytes :=
  let rest := if windows then drop (windows_prefix_len program) program else program in
  let start := match rposition (is_sep windows) rest with Some i => S i | None => 0%nat end in
  drop start rest.

Definition names_no_file (windows : bool) (program : bytes) : bool :=
  match component (final_component windows program) with Normal _ => false | _ => true end.

Definition ends_with_ignore_ascii_case (b suffix : bytes) : bool :=
  bool_decide (length suffix <= length b)%nat &&
  eq_ignore_ascii_case (drop (length b - length suffix) b) suffix.

Definition has_loadable_extension (name : bytes) : bool :=
  ends_with_ignore_ascii_case name (bs ".exe") || ends_with_ignore_ascii_case name (bs ".com").

Definition push_exe (name : bytes) : bytes := name ++ bs ".exe".

Definition takes_the_exe_fallback (windows : bool) (name : bytes) : bool :=
  if names_no_file windows name then false
  else match rposition (fun b => b =? 46) (final_component windows name) with
  | Some O | None => true
  | Some _ => false
  end.

Definition filename_candidates (windows : bool) (name : bytes) (shape : Shape) : list bytes :=
  if negb windows || has_loadable_extension name then [name]
  else match shape with
  | BareName => if names_no_file windows name then [name] else [push_exe name]
  | Located => if takes_the_exe_fallback windows name then [name; push_exe name] else [name]
  end.

(** [reject_unloadable_image]: the error is [InvalidInput]. *)
Definition reject_unloadable_image (windows : bool) (program : bytes) : result IoError unit :=
  if negb (names_no_file windows program) && has_loadable_extension program then Ok tt
  else Err (of_kind InvalidInput).

Definition split_path_var_posix (b : bytes) : list bytes := split_on (fun x => x =? 58) b.

(** The state of the Windows splitter: the finished parts, the current one, and the quoting. *)
Record Splitter := splitter { finished : list bytes; current : bytes; in_quotes : bool }.

Definition splitter_step (s : Splitter) (b : Z) : Splitter :=
  if b =? 34 then splitter (finished s) (current s) (negb (in_quotes s))
  else if (b =? 59) && negb (in_quotes s) then splitter (finished s ++ [current s]) [] (in_quotes s)
  else splitter (finished s) (current s ++ [b]) (in_quotes s).

Definition split_path_var_windows (b : bytes) : list bytes :=
  let s := foldl splitter_step (splitter [] [] false) b in finished s ++ [current s].

Definition split_path_var (windows : bool) (var : option bytes) : list bytes :=
  match var with
  | None => []
  | Some b => if windows then split_path_var_windows b else split_path_var_posix b
  end.

(** [exact::anchor_posix]'s answer. *)
Record Anchored := anchored { program_ : bytes; cwd_ : option bytes; enter : bool }.

Definition refuse_unnameable (program : bytes) : result IoError unit :=
  if bool_decide (0 ∈ program) then Err (of_kind InvalidInput)
  else if names_no_file false program then Err (of_kind InvalidInput)
  else Ok tt.

Definition anchor_posix (program : bytes) (child_cwd : option bytes) : result IoError Anchored :=
  let? _ := refuse_unnameable program in
  if bool_decide (head program = Some 47) then Ok (anchored program child_cwd false)
  else
    let program := if bool_decide (47 ∈ program) then program else bs "./" ++ program in
    Ok (anchored program child_cwd true).

(** * Lemmas *)

Lemma sep_at_eq p i : sep_at p i = WindowsPath.sep_at p i.
Proof.
  unfold sep_at, WindowsPath.sep_at. destruct (p !! i) as [b|]; [|done].
  unfold is_sep, is_separator. by rewrite andb_true_l, orb_comm.
Qed.

(** The two drive rules agree on well-formed text, where no character starts with a continuation. *)
Lemma drive_len_eq p : wtf8 p -> drive_len p = WindowsPath.drive_len p.
Proof.
  intros Hw. destruct (decide (p = [])) as [->|Hne]; [done|].
  destruct (wtf8_first p Hw Hne) as (i & r & Hi & ->).
  assert (forall b t, item_bytes i = b :: t -> b < 0x80 \/ 0xC0 <= b) as Hb.
  { intros b t E. destruct i as [c|u]; simpl in *.
    - unfold encode_utf8, is_scalar in *. revert E.
      zcases; intros [= <- _]; Z.to_euclidean_division_equations; lia.
    - destruct (surrogate_bytes_spec u Hi) as (b1 & b2 & E' & _). rewrite E' in E. injection E as <- _. lia. }
  pose proof (item_bytes_ne i Hi) as Hn. destruct (item_bytes i) as [|b t] eqn:Ei; [by destruct Hn|].
  specialize (Hb b t eq_refl).
  unfold drive_len, WindowsPath.drive_len. simpl app.
  destruct (Z.ltb b 0x80) eqn:E0; [by rewrite E0|].
  apply Z.ltb_ge in E0. rewrite (proj2 (Z.leb_le 0xC0 b)) by lia. done.
Qed.

(** What an anchor is to the resolver. *)
Definition type_of_anchor (a : Anchor) : PathType :=
  match a with
  | NoAnchor => Relative
  | Rooted => TRooted
  | OnDrive _ true => DriveAbsolute
  | OnDrive _ false => DriveRelative
  | Unc _ _ | Device _ => TUnc
  end.

(** The bytes of an element of [PATH], quoted or as it is. *)
Definition path_element (q : bool) (e : bytes) : bytes := if q then 34 :: e ++ [34] else e.

Lemma splitter_quoted f c e :
  34 ∉ e -> foldl splitter_step (splitter f c true) e = splitter f (c ++ e) true.
Proof.
  revert c; induction e as [|b e IH]; intros c He; [by rewrite app_nil_r|].
  apply not_elem_of_cons in He as [Hb He]. cbn [foldl]. unfold splitter_step at 2. cbn [in_quotes finished current negb].
  rewrite (proj2 (Z.eqb_neq b 34)), andb_false_r by done. rewrite IH by done. by rewrite <- app_assoc.
Qed.

Lemma splitter_raw f c e :
  34 ∉ e -> 59 ∉ e -> foldl splitter_step (splitter f c false) e = splitter f (c ++ e) false.
Proof.
  revert c; induction e as [|b e IH]; intros c He Hs; [by rewrite app_nil_r|].
  apply not_elem_of_cons in He as [Hb He], Hs as [Hs Hs']. cbn [foldl]. unfold splitter_step at 2.
  cbn [in_quotes finished current negb].
  rewrite (proj2 (Z.eqb_neq b 34)), (proj2 (Z.eqb_neq b 59)) by done. cbn [andb]. rewrite IH by done.
  by rewrite <- app_assoc.
Qed.

Lemma splitter_element f q e :
  34 ∉ e -> (q = false -> 59 ∉ e) ->
  foldl splitter_step (splitter f [] false) (path_element q e) = splitter f e false.
Proof.
  intros He Hq. destruct q; cbn [path_element]; [|by apply splitter_raw; auto].
  cbn [foldl]. change (splitter_step (splitter f [] false) 34) with (splitter f [] true).
  by rewrite foldl_app, splitter_quoted.
Qed.

Lemma splitter_elements f qs :
  Forall (fun qe => 34 ∉ qe.2 /\ (qe.1 = false -> 59 ∉ qe.2)) qs -> qs <> [] ->
  let s := foldl splitter_step (splitter f [] false)
    (intercalate 59 ((fun qe => path_element qe.1 qe.2) <$> qs)) in
  finished s ++ [current s] = f ++ qs.*2.
Proof.
  revert f; induction qs as [|[q e] qs IH]; intros f Hqs; [done|]. intros _.
  apply Forall_cons in Hqs as [[He Hq] Hqs]. cbn [fst snd] in *. rewrite !fmap_cons. cbn [fst snd].
  destruct qs as [|qe qs]; [cbn [fmap list_fmap intercalate]; by rewrite splitter_element|].
  rewrite intercalate_cons by done. rewrite foldl_app, splitter_element by done. cbn [foldl].
  change (splitter_step (splitter f e false) 59) with (splitter (f ++ [e]) [] false).
  cbn zeta. rewrite IH by done. by rewrite <- app_assoc.
Qed.

Lemma ends_with_suffix b s : ends_with_ignore_ascii_case (b ++ s) s = true.
Proof.
  unfold ends_with_ignore_ascii_case. rewrite bool_decide_true by (rewrite length_app; lia).
  rewrite length_app, Nat.add_sub, drop_app_length. unfold eq_ignore_ascii_case. by rewrite bool_decide_true.
Qed.

Lemma push_exe_loadable name : has_loadable_extension (push_exe name) = true.
Proof. unfold has_loadable_extension, push_exe. by rewrite ends_with_suffix. Qed.

(** * Properties *)

(** The resolver and the path library read every stored path the same way: the Win32 type the
    resolver's classifier gives is the one of the anchor the path library parses. *)
Theorem path_type_anchor (p : bytes) : wtf8 p -> path_type p = type_of_anchor (anchor p).
Proof.
  intros Hw. unfold path_type, anchor. rewrite (drive_len_eq p Hw), !sep_at_eq.
  destruct (parts_shape p) as [H0 H1|H0 H1 _ _|H0 H1 _ _|H0 H1 H2|len H0 H1|H0 H1];
    rewrite H0, ?H1; cbn [plain anchor_of type_of_anchor]; try done.
  - by destruct (loose_parts_anchor p 4 Device) as [name ->].
  - destruct (unc_parts_shape p H1) as [|root server| ]; try done.
    by destruct (loose_parts_anchor p root (WindowsPath.Unc server)) as [name ->].
  - rewrite sep_at_eq. by destruct (WindowsPath.sep_at p len).
Qed.

Lemma path_type_anchor_witness : path_type (bs "1:tool") = type_of_anchor (anchor (bs "1:tool")).
Proof. apply path_type_anchor. by apply wtf8_text. Defined.

(** The candidate filenames of a name that names a file. There is at least one; each is the
    name as written or that name with [.exe], the latter only on Windows and never after [.exe] or
    [.com]; a located name is tried as written first; and every candidate a bare Windows name is
    searched for by is loadable. *)
Theorem filename_candidates_spec (windows : bool) (name : bytes) (shape : Shape) :
  names_no_file windows name = false ->
  let cs := filename_candidates windows name shape in
  cs <> [] /\
  (forall c, c ∈ cs -> c = name \/ windows = true /\ has_loadable_extension name = false /\ c = push_exe name) /\
  (shape = Located -> head cs = Some name) /\
  (windows = true -> shape = BareName -> forall c, c ∈ cs -> has_loadable_extension c = true) /\
  NoDup cs.
Proof.
  intros Hn. unfold filename_candidates. destruct windows; cbn [negb orb].
  - destruct (has_loadable_extension name) eqn:Hl.
    { split_and!; try done; [|intros _ _ c ->%list_elem_of_singleton; done|apply NoDup_singleton].
      intros c ->%list_elem_of_singleton. by left. }
    destruct shape; [rewrite Hn|destruct (takes_the_exe_fallback true name)]; split_and!; try done;
      try apply NoDup_singleton; try (intros c ->%list_elem_of_singleton; auto).
    + intros _ _ c ->%list_elem_of_singleton. apply push_exe_loadable.
    + intros c [->|H%list_elem_of_singleton]%elem_of_cons; auto.
    + apply NoDup_cons. split; [|apply NoDup_singleton]. intros E%list_elem_of_singleton.
      apply (f_equal length) in E. unfold push_exe in E. rewrite length_app in E. simpl in E. lia.
  - split_and!; try done; [|apply NoDup_singleton]. intros c ->%list_elem_of_singleton. by left.
Qed.

Lemma filename_candidates_spec_witness :
  filename_candidates true (bs "C:\t\tool") Located <> [] /\
  head (filename_candidates true (bs "C:\t\tool") Located) = Some (bs "C:\t\tool").
Proof.
  destruct (filename_candidates_spec true (bs "C:\t\tool") Located) as (H1 & _ & H3 & _); [reflexivity|].
  split; [exact H1|by apply H3].
Defined.

(** A Windows [PATH] splits into its elements: whatever elements without a quote character are
    joined with semicolons, each in quotes or, where it holds no semicolon, as it is, the splitter
    gives those elements back. On POSIX the elements between colons are given as they are. *)
Theorem split_path_var_elements (qs : list (bool * bytes)) (ps : list bytes) :
  (qs <> [] -> Forall (fun qe => 34 ∉ qe.2 /\ (qe.1 = false -> 59 ∉ qe.2)) qs ->
   split_path_var true (Some (intercalate 59 ((fun qe => path_element qe.1 qe.2) <$> qs))) = qs.*2) /\
  (ps <> [] -> Forall (free (fun b => b =? 58)) ps -> split_path_var false (Some (intercalate 58 ps)) = ps).
Proof.
  split.
  - intros Hne Hqs. apply (splitter_elements [] qs Hqs Hne).
  - intros Hne Hps. by apply split_on_intercalate.
Qed.

Lemma split_path_var_elements_witness :
  split_path_var true (Some ([34; 97; 59; 98; 34; 59; 99])) = [[97; 59; 98]; [99]].
Proof.
  apply (split_path_var_elements [(true, [97; 59; 98]); (false, [99])] []); [done|].
  apply Forall_cons; split; [|apply Forall_cons; split; [|by apply Forall_nil]]; cbn; split; try done;
    rewrite ?not_elem_of_cons; intros; split_and?; try done; apply not_elem_of_nil.
Defined.

(** The form of an [Exact] program on POSIX is one no [exec] searches: it holds a separator,
    it is the program as written or that after [./], and the child enters its directory itself
    exactly when the program is relative. The only refusals are a NUL and a name that names no
    file, whatever the directory. *)
Theorem anchor_posix_unsearchable (program : bytes) (cwd : option bytes) :
  match anchor_posix program cwd with
  | Ok a =>
      47 ∈ program_ a /\ (program_ a = program \/ 47 ∉ program /\ program_ a = bs "./" ++ program) /\
      cwd_ a = cwd /\ enter a = negb (is_absolute_name false program) /\
      final_component false (program_ a) = final_component false program /\
      0 ∉ program_ a /\ names_no_file false program = false
  | Err e => e = of_kind InvalidInput /\ (0 ∈ program \/ names_no_file false program = true)
  end.
Proof.
  unfold anchor_posix, refuse_unnameable. destruct (bool_decide (0 ∈ program)) eqn:H0.
  { apply bool_decide_eq_true in H0. auto. }
  apply bool_decide_eq_false in H0. destruct (names_no_file false program) eqn:Hn; [by auto|].
  unfold is_absolute_name; cbn [negb]. destruct (bool_decide (head program = Some 47)) eqn:Ha.
  - apply bool_decide_eq_true in Ha. cbn. split_and!; auto. destruct program; [done|]. injection Ha as ->. by left.
  - destruct (bool_decide (47 ∈ program)) eqn:Hs; [apply bool_decide_eq_true in Hs|apply bool_decide_eq_false in Hs];
      cbn [program_ cwd_ enter].
    { split_and!; auto. }
    split_and!; auto.
    + apply elem_of_app. left. by right; left.
    + unfold final_component. assert (free (is_sep false) program) as Hf.
      { apply Forall_forall. intros b Hb. unfold is_sep. rewrite andb_false_l, orb_false_r.
        apply Z.eqb_neq. by intros ->. }
      rewrite (proj2 (rposition_None _ _) Hf). change (bs "./" ++ program) with ([46] ++ 47 :: program).
      rewrite rposition_app by done. done.
    + rewrite not_elem_of_app. split; [|done]. change (bs "./") with [46; 47].
      rewrite !not_elem_of_cons. split_and!; try done. apply not_elem_of_nil.
Qed.
