(* ===== verification/ResolveJoin.v ===== *)
(** Joining Windows paths as Win32 reads them, [src/resolve/join.rs]. *)
From S2P Require Import Prelude PathComponent Utf OsStrWide WindowsPath Filesystem ResolveNames.
Local Open Scope Z_scope.

(** * Operations *)

Definition is_verbatim (b : bytes) : bool := starts_with VERBATIM b.

Definition is_backslash (b : Z) : bool := b =? 92.

Definition verbatim_prefix_len (b : bytes) : nat :=
  let end_ := run_end is_backslash b in
  if is_unc_marker b then
    let server := end_ 8%nat in
    if bool_decide (length b <= server)%nat then length b
    else
      let share := end_ (S server) in
      if bool_decide (share = S server) then server else share
  else if has_ascii_drive (drop 4 b) && none_or_sep b 6 then 6%nat
  else end_ 4%nat.

(** One component of a verbatim path. *)
Inductive Part := Cur | Parent | NormalPart (piece : bytes).

Definition part_text (p : Part) : bytes :=
  match p with Cur => [46] | Parent => [46; 46] | NormalPart piece => piece end.

(** The base's pieces: empty ones dropped, [.] and [..] kept. *)
Definition base_part (piece : bytes) : option Part :=
  match component piece with
  | Empty => None
  | CurDir => Some Cur
  | ParentDir => Some Parent
  | Normal n => Some (NormalPart n)
  end.

(** One turn of the loop over the rest's pieces. *)
Definition rest_step (parts : list Part) (piece : bytes) : list Part :=
  match component piece with
  | Empty | CurDir => parts
  | ParentDir => match last parts with Some (NormalPart _) => removelast parts | _ => parts end
  | Normal n => parts ++ [NormalPart n]
  end.

Definition append_verbatim (base rest : bytes) : bytes :=
  let prefix := verbatim_prefix_len base in
  let body := drop prefix base in
  let body := if sep_at body 0 then drop 1 body else body in
  let parts := omap base_part (split_on is_backslash body) in
  let parts := if sep_at rest 0 then [] else parts in
  let parts := foldl rest_step parts (split_on (is_sep true) rest) in
  take prefix base ++ [92] ++ intercalate 92 (part_text <$> parts).

(** [last().is_some_and(is_sep)]. *)
Definition ends_in_sep (b : bytes) : bool :=
  match last b with Some x => is_sep true x | None => false end.

Definition append (base rest sep : bytes) : bytes :=
  if bool_decide (rest = []) then base
  else if is_verbatim base then append_verbatim base rest
  else
    let out :=
      if negb (bool_decide (base = [])) && negb (ends_in_sep base) &&
         bool_decide (drive_len base <> Some (length base))
      then base ++ sep else base in
    out ++ rest.

Definition concat (base rest sep : bytes) : bytes :=
  (if ends_in_sep base then base else base ++ sep) ++ rest.

Definition join (base name sep : bytes) : bytes :=
  match path_type name with
  | TRooted =>
      if is_verbatim base then append_verbatim base name
      else take (windows_prefix_len base) base ++ name
  | Relative => append base name sep
  | TUnc | DriveAbsolute | DriveRelative => name
  end.

(** * Lemmas *)

Lemma sep_at_app_l p r i : (i < length p)%nat -> sep_at (p ++ r) i = sep_at p i.
Proof. intros H. unfold sep_at. by rewrite lookup_app_l. Qed.

Lemma sep_at_length p i : sep_at p i = true -> (i < length p)%nat.
Proof. unfold sep_at. destruct (p !! i) eqn:E; [|done]. intros _. by eapply lookup_lt_Some. Qed.

Lemma drive_len_lookup p n : drive_len p = Some n -> p !! (n - 1)%nat = Some 58 /\ (2 <= n <= length p)%nat.
Proof.
  unfold drive_len. destruct p as [|b0 tl]; [done|].
  repeat match goal with |- context [if ?c then _ else _] => destruct c as [H|H] end; try done;
    intros [= <-]; rewrite ?Nat.sub_succ, ?Nat.sub_0_r; split; try done;
    repeat match goal with H : _ !! _ = Some _ |- _ => apply lookup_lt_Some in H; simpl in H end; simpl; lia.
Qed.

Lemma drive_len_app_l p r n : drive_len p = Some n -> drive_len (p ++ r) = Some n.
Proof.
  unfold drive_len. destruct p as [|b0 tl]; [done|]. simpl app.
  repeat case_match; try done; repeat case_decide; try done; intros _; exfalso;
    match goal with H : ~ _ |- _ => apply H end; rewrite app_comm_cons; by apply lookup_app_l_Some.
Qed.

Lemma rooted_sep name : path_type name = TRooted -> sep_at name 0 = true.
Proof.
  unfold path_type. destruct (sep_at name 0); [done|]. destruct (drive_len name); [|done].
  by destruct (sep_at name n).
Qed.

(** The drive and the separator after it decide, whatever follows. *)
Lemma drive_absolute_inv p :
  path_type p = DriveAbsolute ->
  sep_at p 0 = false /\ exists len, drive_len p = Some len /\ sep_at p len = true.
Proof.
  unfold path_type. destruct (sep_at p 0); [by destruct (sep_at p 1)|].
  destruct (drive_len p) as [len|]; [|done]. destruct (sep_at p len) eqn:E; [|done]. eauto.
Qed.

Lemma drive_absolute_app p r len :
  sep_at p 0 = false -> drive_len p = Some len -> sep_at (p ++ r) len = true ->
  path_type (p ++ r) = DriveAbsolute /\ drive_len (p ++ r) = Some len /\ take len (p ++ r) = take len p.
Proof.
  intros H0 Hd Hs. destruct (drive_len_lookup _ _ Hd) as [_ Hl].
  assert (drive_len (p ++ r) = Some len) as Hd' by by apply drive_len_app_l.
  unfold path_type. rewrite sep_at_app_l, H0, Hd', Hs by lia. by rewrite take_app_le by lia.
Qed.

Lemma not_verbatim_drive p : sep_at p 0 = false -> is_verbatim p = false.
Proof.
  intros H. apply starts_with_false. intros r ->. done.
Qed.

Lemma prefix_drive p len : sep_at p 0 = false -> drive_len p = Some len -> windows_prefix_len p = len.
Proof. intros H Hd. unfold windows_prefix_len. by rewrite H, Hd. Qed.

(** * Properties *)

(** Joining a name under a directory with a drive and a root. A relative or rooted name stays
    on that drive, and the result is absolute on it, spelled as written after the directory or its
    drive; any other name is its own location. *)
Theorem join_keeps_drive (base name sep : bytes) (len : nat) :
  path_type base = DriveAbsolute -> drive_len base = Some len ->
  (path_type name = TRooted \/ path_type name = Relative ->
   path_type (join base name sep) = DriveAbsolute /\ drive_len (join base name sep) = Some len /\
   take len (join base name sep) = take len base /\ exists pre, join base name sep = pre ++ name) /\
  (path_type name = TUnc \/ path_type name = DriveAbsolute \/ path_type name = DriveRelative ->
   join base name sep = name).
Proof.
  intros Hb Hd. destruct (drive_absolute_inv base Hb) as (H0 & len' & Hd' & Hs).
  rewrite Hd in Hd'. injection Hd' as <-. apply sep_at_length in Hs as Hl. unfold join. split.
  - intros [Hn|Hn]; rewrite Hn.
    + rewrite not_verbatim_drive, (prefix_drive base len) by done.
      pose proof (rooted_sep name Hn) as Hns.
      assert (length (take len base) = len) as Ht by (rewrite length_take; lia).
      assert (drive_len (take len base) = Some len) as Hdt.
      { destruct (drive_len_lookup _ _ Hd) as [Hc Hle]. revert Hd Hc. unfold drive_len.
        destruct base as [|b0 tl]; [done|]. destruct len as [|len]; [lia|]. cbn [take].
        repeat match goal with |- context [if ?c then _ else _] => destruct c end; try done;
          intros [= <-] Hc; exfalso; match goal with H : ~ _ |- _ => apply H end;
          change (b0 :: take ?n tl) with (take (S n) (b0 :: tl)); rewrite lookup_take_lt by lia; done. }
      destruct (drive_absolute_app (take len base) name len) as (H1 & H2 & H3); [|done| |].
      * destruct (drive_len_lookup _ _ Hd) as [_ Hle]. unfold sep_at in *. by rewrite lookup_take_lt by lia.
      * unfold sep_at in *. rewrite lookup_app_r by lia. by rewrite Ht, Nat.sub_diag.
      * split_and!; [done|done| |by eexists]. rewrite H3, firstn_firstn. by rewrite Nat.min_id.
    + unfold append. rewrite not_verbatim_drive by done. case_bool_decide as Hr.
      { subst. split_and!; try done. exists base. by rewrite app_nil_r. }
      set (out := if negb (bool_decide (base = [])) && _ && _ then base ++ sep else base).
      assert (exists r, out = base ++ r) as [r ->].
      { unfold out. destruct (_ && _); [by eexists|]. exists []. by rewrite app_nil_r. }
      rewrite <- app_assoc. destruct (drive_absolute_app base (r ++ name) len) as (H1 & H2 & H3);
        [done|done|by rewrite sep_at_app_l|]. split_and!; try done. exists (base ++ r). by rewrite app_assoc.
  - intros [-> |[-> | ->]]; done.
Qed.

Lemma join_keeps_drive_witness :
  path_type (join (bs "1:\d") (bs "\x") (bs "\")) = DriveAbsolute /\
  join (bs "1:\d") (bs "2:\x") (bs "\") = bs "2:\x".
Proof.
  split.
  - destruct (join_keeps_drive (bs "1:\d") (bs "\x") (bs "\") 2) as [H _]; [reflexivity|reflexivity|].
    apply H. by left.
  - apply (join_keeps_drive (bs "1:\d") (bs "2:\x") (bs "\") 2); [reflexivity|reflexivity|]. right; by left.
Defined.
