(* ===== verification/Resolve.v ===== *)
(** Which file a command loads, [src/resolve.rs]: the search. The filesystem, the process's own
    directory and the host's reading of a path are parameters. *)
From S2P Require Import Prelude PathComponent Utf OsStrWide WindowsPath Filesystem ResolveNames ResolveJoin.
Local Open Scope Z_scope.

(** * Operations *)

Record ResolveInput := resolve_input {
  program : bytes;
  cwd : option bytes;
  system_dirs : result IoError (list bytes);
  path_var : option bytes;
  windows : bool;
  loadable_only : bool;
  normalise : bytes -> result IoError bytes;
}.

(** The codes of absence of [is_absence], on Windows; on Unix they are [unix_absent]. *)
Definition resolve_windows_absent (code : Z) : bool :=
  (code =? 2) || (code =? 3) || (code =? 15) || (code =? 123) || (code =? 161) || (code =? 267).

(** What one candidate comes to: the answer, a miss, or an error that ends the search. *)
Inductive Step := Found (path : bytes) | Next | Stop (e : IoError).

Definition is_rooted_on_verbatim (name : bytes) (base : option bytes) : bool :=
  bool_decide (path_type name = TRooted) && match base with Some b => is_verbatim b | None => false end.

Section resolve.
(** [Path::is_absolute], [Path::join] and [MAIN_SEPARATOR_STR] of the host. *)
Context (host_is_absolute : bytes -> bool) (host_join : bytes -> bytes -> bytes) (MAIN_SEPARATOR : bytes).
(** [std::fs::metadata] reduced to whether it is a file; [faccessat]'s result and [errno]; whether
    the host is a Unix; [std::env::current_dir]; the kind of an OS code. *)
Context (metadata : bytes -> result IoError bool) (faccessat : bytes -> Z * Z) (host_unix : bool).
Context (current_dir : result IoError bytes) (kind_of_code : Z -> ErrorKind) (absent_code : Z -> bool).

Definition from_raw_os_error (code : Z) : IoError := io_error (kind_of_code code) (Some code).

Definition execute_permission (rc errno : Z) : result IoError bool :=
  if rc =? 0 then Ok true
  else
    let e := from_raw_os_error errno in
    if (errno =? 13) || is_absence absent_code e then Ok false else Err e.

Definition is_execable (path : bytes) (windows : bool) : result IoError bool :=
  match metadata path with
  | Ok false => Ok false
  | Err e => if is_absence absent_code e then Ok false else Err e
  | Ok true =>
      if host_unix && negb windows then
        if bool_decide (0 ∈ path) then Ok false
        else
          let '(rc, errno) := faccessat path in
          execute_permission rc (if rc =? 0 then 0 else errno)
      else Ok true
  end.

Definition join_candidate (dir candidate : bytes) (windows : bool) : bytes :=
  if negb windows then host_join dir candidate
  else if bool_decide (dir = []) then candidate
  else join dir candidate MAIN_SEPARATOR.

Definition accepted (joined : bytes) (windows : bool) : bool :=
  host_is_absolute joined || is_absolute_name windows joined.

(** Whether a candidate is verbatim only because the cwd base is. *)
Definition made_verbatim (i : ResolveInput) (shape : Shape) (dir candidate : bytes) : bool :=
  windows i && bool_decide (shape = Located) && is_verbatim dir && negb (is_verbatim candidate).

Definition joined (i : ResolveInput) (shape : Shape) (dir candidate : bytes) : bytes :=
  if made_verbatim i shape dir candidate then concat dir candidate [92]
  else join_candidate dir candidate (windows i).

(** The body of the search loop. The error of [loadable_only] keeps its kind ([io_context]). *)
Definition probe (i : ResolveInput) (shape : Shape) (dir candidate : bytes) : Step :=
  let made := made_verbatim i shape dir candidate in
  let joined := joined i shape dir candidate in
  if negb (accepted joined (windows i)) then Next
  else
    let path :=
      if made then
        match normalise i joined with
        | Ok path => if names_no_file true path then inr (of_kind InvalidInput) else inl (Ok path)
        | Err e => inl (Err e)
        end
      else inl (Ok joined) in
    match path with
    | inr refusal => Stop refusal
    | inl path =>
        let probed :=
          let? path := path in
          let? found := is_execable path (windows i) in
          Ok (if found then Some path else None) in
        match probed with
        | Ok (Some path) => Found path
        | Ok None => Next
        | Err e => if loadable_only i then Stop e else Next
        end
    end.

Fixpoint search (i : ResolveInput) (shape : Shape) (pairs : list (bytes * bytes)) : result IoError bytes :=
  match pairs with
  | [] => Err (of_kind NotFound)
  | (dir, candidate) :: rest =>
      match probe i shape dir candidate with
      | Found path => Ok path
      | Next => search i shape rest
      | Stop e => Err e
      end
  end.

(** The directories searched; [None] is an [unreachable!]. *)
Definition search_dirs (i : ResolveInput) (shape : Shape) : option (result IoError (list bytes)) :=
  match shape with
  | Located =>
      if negb (needs_base (windows i) (program i)) then Some (Ok [[]])
      else match cwd i with
      | Some cwd =>
          if accepted cwd (windows i) then Some (Ok [cwd])
          else if negb (windows i) then Some (let? here := current_dir in Ok [host_join here cwd])
          else None
      | None => None
      end
  | BareName =>
      Some (
        let? dirs := (if windows i then system_dirs i else Ok []) in
        Ok (dirs ++ split_path_var (windows i) (path_var i)))
  end.

(** The refusals on the shape of the name, before any search, and the candidates. *)
Definition shape_candidates (i : ResolveInput) : result IoError (list bytes) :=
  let name := program i in
  if names_no_file (windows i) name then Err (of_kind InvalidInput)
  else if is_drive_relative (windows i) name then Err (of_kind InvalidInput)
  else if is_unc_without_share (windows i) name then Err (of_kind InvalidInput)
  else if windows i && is_rooted_on_verbatim name (cwd i) then Err (of_kind InvalidInput)
  else
    let candidates := filename_candidates (windows i) name (classify (windows i) name) in
    if loadable_only i then
      match filter (fun c => has_loadable_extension c = true) candidates with
      | [] => Err (of_kind InvalidInput)
      | cs => Ok cs
      end
    else Ok candidates.

(** [resolve]; [None] is a panic. *)
Definition resolve (i : ResolveInput) : option (result IoError bytes) :=
  match shape_candidates i with
  | Err e => Some (Err e)
  | Ok candidates =>
      let shape := classify (windows i) (program i) in
      r ← search_dirs i shape;
      match r with
      | Err e => Some (Err e)
      | Ok dirs => Some (search i shape (dirs ≫= fun dir => (fun c => (dir, c)) <$> candidates))
      end
  end.

(** * Lemmas *)

Definition misses (i : ResolveInput) (shape : Shape) (dc : bytes * bytes) : Prop :=
  probe i shape dc.1 dc.2 = Next.

(** The search gives the first candidate that is not a miss. *)
Lemma search_spec i shape pairs :
  match search i shape pairs with
  | Ok path =>
      exists before dir c after, pairs = before ++ (dir, c) :: after /\
        Forall (misses i shape) before /\ probe i shape dir c = Found path
  | Err e =>
      (exists before dir c after, pairs = before ++ (dir, c) :: after /\
        Forall (misses i shape) before /\ probe i shape dir c = Stop e) \/
      e = of_kind NotFound /\ Forall (misses i shape) pairs
  end.
Proof.
  induction pairs as [|[dir c] pairs IH]; cbn [search]; [by right|].
  destruct (probe i shape dir c) as [path| |e] eqn:E.
  - by exists [], dir, c, pairs.
  - destruct (search i shape pairs) as [path|e].
    + destruct IH as (before & d & c' & after & -> & Hb & Hp). exists ((dir, c) :: before), d, c', after.
      split_and!; [done| |done]. by constructor.
    + destruct IH as [(before & d & c' & after & -> & Hb & Hp)|[-> Hall]].
      * left. exists ((dir, c) :: before), d, c', after. split_and!; [done| |done]. by constructor.
      * right. split; [done|]. by constructor.
  - left. by exists [], dir, c, pairs.
Qed.

Lemma probe_Found i shape dir c path :
  probe i shape dir c = Found path ->
  accepted (joined i shape dir c) (windows i) = true /\ is_execable path (windows i) = Ok true /\
  if made_verbatim i shape dir c
  then normalise i (joined i shape dir c) = Ok path /\ names_no_file true path = false
  else path = joined i shape dir c.
Proof.
  unfold probe. destruct (accepted _ _); cbn [negb]; [|done].
  destruct (made_verbatim i shape dir c).
  - destruct (normalise i _) as [q|e]; [|by destruct (loadable_only i)].
    destruct (names_no_file true q) eqn:Hn; [done|].
    destruct (is_execable q (windows i)) as [[]|] eqn:He; [|done|by destruct (loadable_only i)].
    intros [= <-]. done.
  - destruct (is_execable _ (windows i)) as [[]|] eqn:He; [|done|by destruct (loadable_only i)].
    intros [= <-]. done.
Qed.

Lemma shape_candidates_Ok i cs :
  shape_candidates i = Ok cs ->
  names_no_file (windows i) (program i) = false /\
  (forall c, c ∈ cs -> c ∈ filename_candidates (windows i) (program i) (classify (windows i) (program i))) /\
  (loadable_only i = true -> forall c, c ∈ cs -> has_loadable_extension c = true).
Proof.
  unfold shape_candidates. destruct (names_no_file _ _); [done|]. destruct (is_drive_relative _ _); [done|].
  destruct (is_unc_without_share _ _); [done|]. destruct (_ && _); [done|].
  set (fc := filename_candidates _ _ _). destruct (loadable_only i).
  - destruct (filter _ fc) as [|c0 cs0] eqn:E; [done|]. intros [= <-]. split; [done|].
    rewrite <- E. split; [by intros c [_ ?]%list_elem_of_filter|by intros _ c [? _]%list_elem_of_filter].
  - intros [= <-]. done.
Qed.

Lemma shape_candidates_Err i e : shape_candidates i = Err e -> e = of_kind InvalidInput.
Proof.
  unfold shape_candidates. repeat (destruct (names_no_file _ _) || destruct (is_drive_relative _ _) ||
    destruct (is_unc_without_share _ _) || destruct (_ && _)); try (by intros [= <-]).
  destruct (loadable_only i); [|done]. destruct (filter _ _); [by intros [= <-]|done].
Qed.

(** A name that needs no base is not rooted. *)
Lemma needs_no_base_not_rooted name :
  needs_base true name = false -> path_type name <> TRooted.
Proof.
  intros H Ht. unfold needs_base in H. rewrite Ht in H. rewrite andb_true_r in H. apply bool_decide_eq_false in H.
  apply H. unfold classify. enough (existsb (is_sep true) name = true) as -> by done.
  apply rooted_sep in Ht. unfold sep_at in Ht. destruct name as [|b l]; [done|]. simpl in Ht |- *.
  by rewrite Ht.
Qed.

Lemma search_ext i i' shape pairs :
  Forall (fun dc => probe i shape dc.1 dc.2 = probe i' shape dc.1 dc.2) pairs ->
  search i shape pairs = search i' shape pairs.
Proof.
  induction 1 as [|[dir c] pairs H _ IH]; [done|]. cbn [search]. cbn in H. by rewrite H, IH.
Qed.

(** The input with another base and another completion. *)
Definition with_base (i : ResolveInput) (cwd' : option bytes) (normalise' : bytes -> result IoError bytes) : ResolveInput :=
  resolve_input (program i) cwd' (system_dirs i) (path_var i) (windows i) (loadable_only i) normalise'.

(** The input with another search path. *)
Definition with_path (i : ResolveInput) (dirs' : result IoError (list bytes)) (path_var' : option bytes) : ResolveInput :=
  resolve_input (program i) (cwd i) dirs' path_var' (windows i) (loadable_only i) (normalise i).

Lemma probe_with_base i cwd' n' shape dir c :
  shape = BareName \/ dir = [] -> probe (with_base i cwd' n') shape dir c = probe i shape dir c.
Proof.
  intros H. unfold probe, joined.
  assert (forall j, made_verbatim j shape dir c = false) as Hm.
  { intros j. unfold made_verbatim. destruct H as [-> | ->]; [by rewrite andb_false_r|].
    by rewrite andb_false_r. }
  by rewrite !Hm.
Qed.

Lemma shape_candidates_with_base i cwd' n' :
  needs_base (windows i) (program i) = false -> shape_candidates (with_base i cwd' n') = shape_candidates i.
Proof.
  intros H. unfold shape_candidates. cbn [program windows loadable_only cwd with_base].
  assert (forall o, windows i && is_rooted_on_verbatim (program i) o = false) as Hr.
  { intros o. destruct (windows i) eqn:Ew; [|done]. unfold is_rooted_on_verbatim.
    by rewrite bool_decide_false by by apply needs_no_base_not_rooted. }
  by rewrite !Hr.
Qed.

Lemma resolve_with_base i cwd' n' :
  needs_base (windows i) (program i) = false -> resolve (with_base i cwd' n') = resolve i.
Proof.
  intros H. unfold resolve. rewrite shape_candidates_with_base by done.
  destruct (shape_candidates i) as [cs|]; [|done]. cbn [program windows with_base].
  unfold search_dirs. cbn [program windows with_base system_dirs path_var cwd]. rewrite H. cbn [negb].
  destruct (classify (windows i) (program i)) eqn:Ec.
  - cbn. destruct (if windows i then system_dirs i else Ok []) as [dirs|]; [|done]. cbn. f_equal.
    apply search_ext, Forall_forall. intros dc _. apply probe_with_base. by left.
  - cbn. f_equal. apply search_ext, Forall_forall. intros [d c] Hd. rewrite app_nil_r in Hd.
    apply list_elem_of_fmap in Hd as (c' & [= -> ->] & _). apply probe_with_base. by right.
Qed.

(** * Properties *)


(** What [resolve] reads. A name that is searched, or is its own location, gives the same
    answer whatever the base; a located one gives the same answer whatever the system directories
    and [PATH]; a refusal on the name's shape is [InvalidInput]; and with the base the contract asks
    for, no [unreachable!] is reached. *)
Theorem resolve_reads (i : ResolveInput) :
  (needs_base (windows i) (program i) = false -> forall cwd' n', resolve (with_base i cwd' n') = resolve i) /\
  (classify (windows i) (program i) = Located -> forall sd pv, resolve (with_path i sd pv) = resolve i) /\
  (forall e, shape_candidates i = Err e -> resolve i = Some (Err (of_kind InvalidInput))) /\
  ((needs_base (windows i) (program i) = true ->
     exists c, cwd i = Some c /\ (windows i = true -> accepted c true = true)) -> resolve i <> None).
Proof.
  split_and!.
  - intros H cwd' n'. by apply resolve_with_base.
  - intros H sd pv. unfold resolve. change (shape_candidates (with_path i sd pv)) with (shape_candidates i).
    destruct (shape_candidates i) as [cs|]; [|done]. cbn [program windows with_path]. rewrite H.
    change (search_dirs (with_path i sd pv) Located) with (search_dirs i Located).
    destruct (search_dirs i Located) as [[dirs|]|]; [|done|done]. cbn. f_equal. by apply search_ext, Forall_forall.
  - intros e He. unfold resolve. rewrite He. by rewrite (shape_candidates_Err i e He).
  - intros Hb. unfold resolve. destruct (shape_candidates i) as [cs|]; [|done].
    enough (search_dirs i (classify (windows i) (program i)) <> None) as H.
    { destruct (search_dirs _ _) as [[dirs|]|]; done. }
    unfold search_dirs. destruct (classify _ _); [done|].
    destruct (needs_base (windows i) (program i)); cbn [negb]; [|done].
    destruct (Hb eq_refl) as (c & -> & Hc). destruct (accepted c (windows i)) eqn:Ea; [done|].
    destruct (windows i); [|done]. rewrite Hc in Ea; done.
Qed.
End resolve.

(** A POSIX machine whose only file is [/bin/tool]. *)
Definition demo_join (a b : bytes) : bytes := if bool_decide (head b = Some 47) then b else a ++ [47] ++ b.

Definition demo_metadata (p : bytes) : result IoError bool :=
  if bool_decide (p = bs "/bin/tool") then Ok true else Err (io_error NotFound (Some 2)).

Definition demo_input : ResolveInput :=
  resolve_input (bs "tool") None (Ok []) (Some (bs ".:/usr/bin:/bin")) false false Ok.

Definition demo_resolve : ResolveInput -> option (result IoError bytes) :=
  resolve (fun p => bool_decide (head p = Some 47)) demo_join [47] demo_metadata (fun _ => (0, 0)) true
    (Ok [47]) (fun _ => Other) unix_absent.


Lemma resolve_reads_witness :
  demo_resolve (with_base demo_input (Some (bs "/tmp")) Ok) = demo_resolve demo_input /\ demo_resolve demo_input <> None.
Proof.
  destruct (resolve_reads (fun p => bool_decide (head p = Some 47)) demo_join [47] demo_metadata (fun _ => (0, 0)) true
    (Ok [47]) (fun _ => Other) unix_absent demo_input) as (H1 & _ & _ & H4).
  split; [by apply H1|]. apply H4. done.
Defined.
