(* ===== verification/ShimProtocol.v ===== *)
(** The elevation shim's wire protocol, [src/elevation/shim/protocol.rs]: the invocation argv, the
    frames the shim sends and the commands it receives. [None] is a panic. *)
From S2P Require Import Prelude Numbers.
Local Open Scope Z_scope.

(** * The invocation *)

Definition FLAG : bytes := bs "--cosca-elevation-shim=1".

Definition FLAG_HEX : bytes := bs "--cosca-elevation-shim=1x".

Definition FLAG_PREFIX : bytes := bs "--cosca-elevation-shim".

Definition SEPARATOR : bytes := bs "--".

Definition SEPARATOR_AT : nat := 7.

Record ShimIdentity := shim_identity { unique_id : Z; id_version : Z }.

Record ShimArgs := shim_args {
  dir : bytes;
  cosca_pid : Z;
  cosca_identity : option ShimIdentity;
  cosca_euid : Z;
  search_path : option bytes;
  program : bytes;
  args : list bytes;
}.

Inductive ShimArgsError :=
| UnknownVersion
| TooFewArguments
| MissingSeparator
| BadHex
| EmbeddedNul
| BadNumber
| BadIdentity
| BadDir
| BadSearch.

Definition hex_digit (d : Z) : Z := if d <? 10 then 48 + d else 87 + d.

Definition to_hex (a : bytes) : bytes := a ≫= fun b => [hex_digit (b / 16); hex_digit (b mod 16)].

Definition nibble (c : Z) : option Z :=
  if (48 <=? c) && (c <=? 57) then Some (c - 48)
  else if (97 <=? c) && (c <=? 102) then Some (c - 97 + 10)
  else None.

Fixpoint from_hex (a : bytes) : result ShimArgsError bytes :=
  match a with
  | [] => Ok []
  | [_] => Err BadHex
  | hi :: lo :: rest =>
      match nibble hi, nibble lo with
      | Some h, Some l => let? out := from_hex rest in Ok (Z.lor (Z.shiftl h 4) l :: out)
      | _, _ => Err BadHex
      end
  end.

(** [decimal::<T>] for the unsigned type whose largest value is [max]. *)
Definition decimal (max : Z) (a : bytes) : option Z :=
  if bool_decide (a = []) || negb (forallb is_ascii_digit a) ||
     bool_decide (1 < length a)%nat && bool_decide (head a = Some 48)
  then None
  else if digits_value a <=? max then Some (digits_value a) else None.

Definition decimal_u32 (a : bytes) : result ShimArgsError Z := ok_or (decimal u32_max a) BadNumber.

Definition parse_identity (a : bytes) (identity_present : bool) : result ShimArgsError (option ShimIdentity) :=
  if negb identity_present then if bool_decide (a = [45]) then Ok None else Err BadIdentity
  else match split_on (fun b => b =? 58) a with
  | [u; v] =>
      let? unique_id := ok_or (decimal u64_max u) BadIdentity in
      let? id_version := ok_or (decimal u32_max v) BadIdentity in
      Ok (Some (shim_identity unique_id id_version))
  | _ => Err BadIdentity
  end.

Definition parse_search (a : bytes) : result ShimArgsError (option bytes) :=
  match a with
  | [45] => Ok None
  | 80 :: path => Ok (Some path)
  | _ => Err BadSearch
  end.

Definition show_identity (o : option ShimIdentity) : bytes :=
  match o with None => [45] | Some i => show (unique_id i) ++ [58] ++ show (id_version i) end.

Definition show_search (o : option bytes) : bytes :=
  match o with None => [45] | Some path => 80 :: path end.

(** [to_argv_for]; the platform's [identity_present] is only asserted. *)
Definition to_argv_for (a : ShimArgs) (exe : bytes) (hex : bool) : list bytes :=
  let before := [dir a; show (cosca_pid a); show_identity (cosca_identity a); show (cosca_euid a);
                 show_search (search_path a)] in
  let encode w := if hex then to_hex w else w in
  [exe; if hex then FLAG_HEX else FLAG] ++ (encode <$> before) ++ [SEPARATOR] ++
  [encode (program a)] ++ (encode <$> args a).

(** [collect::<Result<_, _>>] of the decoded arguments from index [i] on. *)
Fixpoint decode_fields (l : list bytes) (i : nat) : result ShimArgsError (list bytes) :=
  match l with
  | [] => Ok []
  | a :: rest =>
      let? f := (if bool_decide (i + 2 = SEPARATOR_AT)%nat then Ok a else from_hex a) in
      let? fs := decode_fields rest (S i) in
      Ok (f :: fs)
  end.

(** The fields, decoded. *)
Definition parse_fields (fields : list bytes) (identity_present : bool)
    : option (result ShimArgsError (option ShimArgs)) :=
  match fields with
  | dir :: pid :: identity :: euid :: search :: _ :: program :: args =>
      Some (
        if negb (bool_decide (head dir = Some 47)) then Err BadDir
        else
          let? pid := decimal_u32 pid in
          let? identity := parse_identity identity identity_present in
          let? euid := decimal_u32 euid in
          let? search := parse_search search in
          Ok (Some (shim_args dir pid identity euid search program args)))
  | _ => None
  end.

Definition parse_for (argv : list bytes) (identity_present : bool)
    : option (result ShimArgsError (option ShimArgs)) :=
  match argv !! 1%nat with
  | None => Some (Ok None)
  | Some flag =>
      if negb (starts_with FLAG_PREFIX flag) then Some (Ok None)
      else if negb (bool_decide (flag = FLAG)) && negb (bool_decide (flag = FLAG_HEX)) then Some (Err UnknownVersion)
      else if bool_decide (length argv <= SEPARATOR_AT + 1)%nat then Some (Err TooFewArguments)
      else if negb (bool_decide (argv !! SEPARATOR_AT = Some SEPARATOR)) then Some (Err MissingSeparator)
      else
        let fields :=
          if bool_decide (flag = FLAG_HEX) then decode_fields (drop 2 argv) 0 else Ok (drop 2 argv) in
        match fields with
        | Err e => Some (Err e)
        | Ok fields =>
            if existsb (fun a => bool_decide (0 ∈ a)) fields then Some (Err EmbeddedNul)
            else parse_fields fields identity_present
        end
  end.

(** * The frames *)

Inductive NotExecuted :=
| ForkFailed (errno : Z)
| ExecFailed (errno : Z)
| SetupFailed (errno : Z)
| TerminatedBeforeExec (signal : Z).

Inductive Refusal := NotCosca | CoscaGone | NoAnswer | Denied.

Definition refusal_code (r : Refusal) : Z :=
  match r with NotCosca => 122 | CoscaGone => 123 | NoAnswer => 124 | Denied => 125 end.

Definition from_code (code : Z) : option Refusal :=
  head (filter (fun r => refusal_code r = code) [NotCosca; CoscaGone; NoAnswer; Denied]).

Inductive Frame :=
| Hello
| Status (ws : Z)
| Lost (ws : Z)
| StatusLost
| FNotExecuted (n : NotExecuted)
| Refused (r : Refusal).

Inductive FrameError := Truncated | Garbled.

Definition KIND_FORK : Z := 1.

Definition KIND_EXEC : Z := 2.

Definition KIND_SETUP : Z := 3.

Definition KIND_TERM : Z := 4.

(** [i32::to_le_bytes] and [i32::from_le_bytes]. *)
Definition to_le_bytes (v : Z) : bytes :=
  [v mod 256; v / 256 mod 256; v / 65536 mod 256; v / 16777216 mod 256].

Definition signed32 (u : Z) : Z := if u <? 2 ^ 31 then u else u - 2 ^ 32.

Definition from_le_bytes (b0 b1 b2 b3 : Z) : Z := signed32 (b0 + 256 * b1 + 65536 * b2 + 16777216 * b3).

Definition kind_value (n : NotExecuted) : Z * Z :=
  match n with
  | ForkFailed e => (KIND_FORK, e)
  | ExecFailed e => (KIND_EXEC, e)
  | SetupFailed e => (KIND_SETUP, e)
  | TerminatedBeforeExec s => (KIND_TERM, s)
  end.

Definition encode (f : Frame) : bytes :=
  let tagged tag value := tag :: to_le_bytes value in
  match f with
  | Hello => [72]
  | Status ws => tagged 83 ws
  | Lost ws => tagged 76 ws
  | StatusLost => tagged 85 0
  | FNotExecuted n =>
      let '(kind, value) := kind_value n in
      tagged 70 (Z.lor (Z.shiftl kind 16) (Z.land value 0xffff))
  | Refused r => tagged 82 (refusal_code r)
  end.

(** [p[i]]; the byte is there at every index [decode_frame] asks for. *)
Definition at_ (p : bytes) (i : nat) : Z := match p !! i with Some b => b | None => 0 end.

Definition payload_byte_ok (tag : Z) (p : bytes) (i : nat) : bool :=
  if tag =? 85 then at_ p i =? 0
  else if tag =? 82 then
    match i with
    | O => match from_code (at_ p 0) with Some _ => true | None => false end
    | _ => at_ p i =? 0
    end
  else if tag =? 70 then
    match i with
    | 1%nat => negb (at_ p 0 =? 0) || negb (at_ p 1 =? 0)
    | 2%nat => (1 <=? at_ p 2) && (at_ p 2 <=? 4)
    | 3%nat => at_ p 3 =? 0
    | _ => true
    end
  else true.

Definition decode_frame (b : bytes) : option (result FrameError Frame) :=
  match b with
  | [] => Some (Err Truncated)
  | tag :: payload =>
      if negb (bool_decide (tag ∈ bs "HSLUFR")) then Some (Err Garbled)
      else if tag =? 72 then Some (if bool_decide (payload = []) then Ok Hello else Err Garbled)
      else if negb (forallb (payload_byte_ok tag payload) (seq 0 (min (length payload) 4))) ||
              bool_decide (4 < length payload)%nat
      then Some (Err Garbled)
      else match payload with
      | [b0; b1; b2; b3] =>
          let value := from_le_bytes b0 b1 b2 b3 in
          let kind := Z.shiftr value 16 mod 65536 in
          let low := Z.land value 0xffff in
          if tag =? 83 then Some (Ok (Status value))
          else if tag =? 76 then Some (Ok (Lost value))
          else if tag =? 85 then Some (Ok StatusLost)
          else if tag =? 82 then r ← from_code b0; Some (Ok (Refused r))
          else if tag =? 70 then
            if kind =? KIND_FORK then Some (Ok (FNotExecuted (ForkFailed low)))
            else if kind =? KIND_EXEC then Some (Ok (FNotExecuted (ExecFailed low)))
            else if kind =? KIND_SETUP then Some (Ok (FNotExecuted (SetupFailed low)))
            else if kind =? KIND_TERM then Some (Ok (FNotExecuted (TerminatedBeforeExec low)))
            else None
          else None
      | _ => Some (Err Truncated)
      end
  end.

(** * The commands *)

Inductive Command := Allow | Deny | Kill | Terminate | Disarm | Ping.

Definition encode_command (c : Command) : Z :=
  match c with Allow => 65 | Deny => 78 | Kill => 75 | Terminate => 84 | Disarm => 68 | Ping => 80 end.

(** [Command::decode]; the error is the byte. *)
Definition decode_command (b : Z) : result Z Command :=
  if b =? 65 then Ok Allow
  else if b =? 78 then Ok Deny
  else if b =? 75 then Ok Kill
  else if b =? 84 then Ok Terminate
  else if b =? 68 then Ok Disarm
  else if b =? 80 then Ok Ping
  else Err b.

(** * Lemmas: numbers *)

#[local] Ltac Zify.zify_post_hook ::= Z.to_euclidean_division_equations.

Lemma decimal_Some max a n :
  decimal max a = Some n <-> canonical_digits a /\ digits_value a = n /\ n <= max.
Proof.
  unfold decimal, canonical_digits.
  destruct (_ || _) eqn:E.
  - split; [done|]. intros ((Hne & Hd & Hz) & _). rewrite !orb_true_iff, negb_true_iff, andb_true_iff in E.
    rewrite !bool_decide_eq_true in E. destruct E as [[E|E]|[E1 E2]]; [done| |by apply Hz in E2].
    assert (forallb is_ascii_digit a = true) as Ht; [|congruence]. apply forallb_forall. intros b Hb.
    apply is_ascii_digit_true. rewrite Forall_forall in Hd. apply Hd. by apply list_elem_of_In.
  - rewrite !orb_false_iff, negb_false_iff, andb_false_iff, !bool_decide_eq_false in E.
    destruct E as [[Hne Hd] Hz]. rewrite forallb_forall in Hd.
    assert (a <> [] /\ Forall (fun b => 48 <= b <= 57) a /\ ((1 < length a)%nat -> head a <> Some 48)) as Hc.
    { split_and!; [done| |].
      - apply Forall_forall. intros b Hb. apply is_ascii_digit_true, Hd. by apply list_elem_of_In.
      - intros Hl. destruct Hz; [lia|done]. }
    destruct (Z.leb_spec (digits_value a) max).
    + split; [by intros [= <-]|]. by intros (_ & -> & _).
    + split; [done|]. intros (_ & <- & ?). lia.
Qed.

(** A number in range and its digits. *)
Lemma decimal_show max n : 0 <= n <= max -> max <= u64_max -> decimal max (show n) = Some n.
Proof.
  intros Hn Hm. destruct (show_digits_spec 20 n) as [Hc Hv]; [unfold u64_max in Hm; simpl; lia|lia|].
  apply decimal_Some. unfold show. split_and!; [done|done|lia].
Qed.

Lemma show_decimal max a n : max <= u64_max -> decimal max a = Some n -> a = show n /\ 0 <= n <= max.
Proof.
  intros Hm (Hc & <- & Hn)%decimal_Some. split.
  - unfold show. by rewrite show_digits_value by (try apply canonical_length; done || lia).
  - split; [|done]. destruct (decide (1 < length a)%nat) as [Hl|Hl].
    + pose proof (digits_bounds a Hc Hl). assert (0 < 10 ^ (Z.of_nat (length a) - 1)) by (apply Z.pow_pos_nonneg; lia). lia.
    + destruct Hc as (Hne & Hd & _). destruct a as [|d [|]]; [done| |simpl in Hl; lia].
      apply Forall_cons in Hd as [Hd _]. unfold digits_value. simpl. lia.
Qed.

(** * Lemmas: hex *)

Lemma nibble_hex d : 0 <= d < 16 -> nibble (hex_digit d) = Some d.
Proof.
  intros Hd. unfold nibble, hex_digit. destruct (Z.ltb_spec d 10).
  - rewrite (proj2 (Z.leb_le 48 _)), (proj2 (Z.leb_le _ 57)) by lia. simpl. f_equal. lia.
  - rewrite (proj2 (Z.leb_gt (87 + d) 57)), andb_false_r by lia.
    rewrite (proj2 (Z.leb_le 97 _)), (proj2 (Z.leb_le _ 102)) by lia. simpl. f_equal. lia.
Qed.

Lemma nibble_Some c d : nibble c = Some d -> 0 <= d < 16 /\ c = hex_digit d.
Proof.
  unfold nibble, hex_digit. destruct ((48 <=? c) && (c <=? 57)) eqn:E1.
  - rewrite andb_true_iff, !Z.leb_le in E1. intros [= <-]. destruct (Z.ltb_spec (c - 48) 10); lia.
  - destruct ((97 <=? c) && (c <=? 102)) eqn:E2; [|done]. rewrite andb_true_iff, !Z.leb_le in E2.
    intros [= <-]. destruct (Z.ltb_spec (c - 97 + 10) 10); lia.
Qed.

Lemma lor_shift h l k : 0 <= k -> 0 <= l < 2 ^ k -> Z.lor (Z.shiftl h k) l = h * 2 ^ k + l.
Proof.
  intros Hk Hl. assert (Z.land (Z.shiftl h k) l = 0) as H.
  { apply Z.bits_inj'. intros n Hn. rewrite Z.land_spec, Z.bits_0. destruct (Z.lt_ge_cases n k).
    - by rewrite Z.shiftl_spec_low.
    - rewrite <- (Z.mod_small l (2 ^ k)) by lia. rewrite Z.mod_pow2_bits_high by lia. apply andb_false_r. }
  rewrite <- Z.lxor_lor, <- Z.add_nocarry_lxor by done. by rewrite Z.shiftl_mul_pow2.
Qed.

Lemma from_hex_to_hex a : Forall is_u8 a -> from_hex (to_hex a) = Ok a.
Proof.
  unfold is_u8. induction 1 as [|b a Hb _ IH]; [done|]. unfold to_hex in *. cbn [mbind list_bind app from_hex].
  rewrite !nibble_hex by lia. rewrite IH, lor_shift by lia. f_equal. f_equal. lia.
Qed.

Lemma from_hex_Ok h a : from_hex h = Ok a -> h = to_hex a /\ Forall is_u8 a.
Proof.
  remember (length h) as k eqn:Hk. revert h a Hk.
  induction k as [k IH] using lt_wf_ind; intros [|hi [|lo rest]] a ->; [by intros [= <-]|done|].
  cbn [from_hex]. destruct (nibble hi) as [h|] eqn:Eh; [|done]. destruct (nibble lo) as [l|] eqn:El; [|done].
  apply nibble_Some in Eh as [Hh ->], El as [Hl ->].
  destruct (from_hex rest) as [out|] eqn:E; [|done]. intros [= <-].
  destruct (IH (length rest)) with (h := rest) (a := out) as [-> Hu]; [simpl; lia|done|done|].
  rewrite lor_shift by lia. split; [|constructor; [unfold is_u8; lia|done]].
  unfold to_hex. cbn [mbind list_bind app]. change (2 ^ 4) with 16.
  replace ((h * 16 + l) / 16) with h by lia. by replace ((h * 16 + l) mod 16) with l by lia.
Qed.

Lemma decode_fields_hex l i : (6 <= i)%nat -> Forall (Forall is_u8) l -> decode_fields (to_hex <$> l) i = Ok l.
Proof.
  intros Hi Hl. revert i Hi; induction Hl as [|a l Ha _ IH]; intros i Hi; [done|].
  rewrite fmap_cons. cbn [decode_fields]. rewrite bool_decide_false by (unfold SEPARATOR_AT; lia).
  rewrite from_hex_to_hex, IH by (done || lia). done.
Qed.

Lemma decode_fields_tail l i fs : (6 <= i)%nat -> decode_fields l i = Ok fs -> l = to_hex <$> fs.
Proof.
  revert i fs; induction l as [|a l IH]; intros i fs Hi; cbn [decode_fields]; [by intros [= <-]|].
  rewrite bool_decide_false by (unfold SEPARATOR_AT; lia). destruct (from_hex a) as [f|] eqn:E; [|done].
  apply from_hex_Ok in E as [-> _]. destruct (decode_fields l (S i)) as [fs'|] eqn:E'; [|done].
  intros [= <-]. rewrite fmap_cons. f_equal. eapply (IH (S i)); [lia|done].
Qed.

(** * Lemmas: the invocation *)

Definition no_nul (a : bytes) : Prop := 0 ∉ a.

Definition wf_identity (o : option ShimIdentity) (identity_present : bool) : Prop :=
  match o with
  | None => identity_present = false
  | Some i => identity_present = true /\ 0 <= unique_id i <= u64_max /\ 0 <= id_version i <= u32_max
  end.

(** What an argv can carry: an absolute directory, numbers in range, the platform's identity and no
    NUL. *)
Definition wf_args (a : ShimArgs) (identity_present : bool) : Prop :=
  head (dir a) = Some 47 /\ 0 <= cosca_pid a <= u32_max /\ 0 <= cosca_euid a <= u32_max /\
  wf_identity (cosca_identity a) identity_present /\
  no_nul (dir a) /\ (forall path, search_path a = Some path -> no_nul path) /\ no_nul (program a) /\
  Forall no_nul (args a).

(** The bytes the hex form needs in range. *)
Definition u8_args (a : ShimArgs) : Prop :=
  Forall is_u8 (dir a) /\ (forall path, search_path a = Some path -> Forall is_u8 path) /\
  Forall is_u8 (program a) /\ Forall (Forall is_u8) (args a).

Lemma parse_identity_show o ip : wf_identity o ip -> parse_identity (show_identity o) ip = Ok o.
Proof.
  destruct o as [[u v]|]; simpl; [|by intros ->]. intros (-> & Hu & Hv). unfold parse_identity; cbn [negb].
  assert (forall n, 0 <= n <= u64_max -> free (fun b => b =? 58) (show n)) as Hf.
  { intros n Hn. eapply Forall_impl; [by apply show_clean|]. intros b Hb. cbn in Hb. lia. }
  change ([58] ++ show v) with (58 :: show v). unfold u32_max, u64_max in *.
  rewrite split_on_app, !split_on_free by (done || (apply Hf; unfold u64_max; lia)).
  cbn [app]. unfold u32_max, u64_max. by rewrite !decimal_show by (unfold u64_max; lia).
Qed.

Lemma parse_identity_Ok a ip o : parse_identity a ip = Ok o -> a = show_identity o /\ wf_identity o ip.
Proof.
  unfold parse_identity. destruct ip; cbn [negb].
  - destruct (split_on _ a) as [|u [|v [|]]] eqn:E; try done.
    destruct (decimal u64_max u) as [n|] eqn:Eu; [|done]. destruct (decimal u32_max v) as [n'|] eqn:Ev; [|done].
    cbn. intros [= <-]. apply show_decimal in Eu as [-> Hu]; [|done]. apply show_decimal in Ev as [-> Hv]; [|done].
    rewrite <- (intercalate_split_on 58 a), E. done.
  - case_bool_decide as E; [|done]. by intros [= <-].
Qed.

Lemma parse_search_show o : parse_search (show_search o) = Ok o.
Proof. by destruct o. Qed.

Lemma parse_search_Ok a o : parse_search a = Ok o -> a = show_search o.
Proof.
  unfold parse_search. intros H. destruct a as [|b l]; [done|].
  repeat (case_match; try done); injection H as <-; done.
Qed.

Lemma parse_fields_show a ip :
  wf_args a ip ->
  parse_fields (dir a :: show (cosca_pid a) :: show_identity (cosca_identity a) :: show (cosca_euid a) ::
    show_search (search_path a) :: SEPARATOR :: program a :: args a) ip = Some (Ok (Some a)).
Proof.
  intros (Hd & Hp & He & Hi & _). cbn [parse_fields]. rewrite bool_decide_true by done. cbn [negb].
  unfold decimal_u32. rewrite !decimal_show, parse_identity_show, parse_search_show by done. by destruct a.
Qed.

Lemma parse_fields_Ok d p i e s x g l ip a :
  parse_fields (d :: p :: i :: e :: s :: x :: g :: l) ip = Some (Ok (Some a)) ->
  d = dir a /\ p = show (cosca_pid a) /\ i = show_identity (cosca_identity a) /\ e = show (cosca_euid a) /\
  s = show_search (search_path a) /\ g = program a /\ l = args a /\
  head (dir a) = Some 47 /\ 0 <= cosca_pid a <= u32_max /\ 0 <= cosca_euid a <= u32_max /\
  wf_identity (cosca_identity a) ip.
Proof.
  cbn [parse_fields]. case_bool_decide as Hd; cbn [negb]; [|done]. unfold decimal_u32.
  destruct (decimal u32_max p) as [pid|] eqn:Ep; [|done]. cbn [ok_or].
  destruct (parse_identity i ip) as [id|] eqn:Ei; [|done].
  destruct (decimal u32_max e) as [euid|] eqn:Ee; [|done]. cbn [ok_or].
  destruct (parse_search s) as [sp|] eqn:Es; [|done]. intros [= <-].
  apply show_decimal in Ep as [-> ?]; [|done]. apply show_decimal in Ee as [-> ?]; [|done].
  apply parse_identity_Ok in Ei as [-> ?]. apply parse_search_Ok in Es as ->. done.
Qed.

Lemma show_no_nul n : 0 <= n <= u64_max -> no_nul (show n).
Proof.
  intros Hn H. pose proof (show_clean n Hn) as Hc. rewrite Forall_forall in Hc. specialize (Hc _ H). lia.
Qed.

Lemma show_identity_no_nul o ip : wf_identity o ip -> no_nul (show_identity o).
Proof.
  destruct o as [[u v]|]; simpl; [|intros _ H%list_elem_of_singleton; done]. unfold u32_max, u64_max.
  intros (_ & Hu & Hv). unfold no_nul. rewrite not_elem_of_app, not_elem_of_cons.
  split_and!; [apply show_no_nul|done|apply show_no_nul]; unfold u64_max; lia.
Qed.

Lemma show_identity_u8 o ip : wf_identity o ip -> Forall is_u8 (show_identity o).
Proof.
  assert (forall n, 0 <= n <= u64_max -> Forall is_u8 (show n)) as Hs.
  { intros n Hn. eapply Forall_impl; [by apply show_clean|]. intros b Hb. unfold is_u8. cbn in Hb. lia. }
  destruct o as [[u v]|]; simpl; [|repeat constructor; done]. unfold u32_max, u64_max in *.
  intros (_ & Hu & Hv). apply Forall_app. split; [apply Hs; lia|].
  constructor; [done|]. apply Hs. lia.
Qed.

Lemma existsb_nul (l : list bytes) : existsb (fun a => bool_decide (0 ∈ a)) l = false <-> Forall no_nul l.
Proof.
  rewrite <- not_true_iff_false, existsb_exists, Forall_forall. unfold no_nul. split.
  - intros H a Ha Hn. apply H. exists a. rewrite bool_decide_eq_true. split; [by apply list_elem_of_In|done].
  - intros H (a & Ha & Hn). apply bool_decide_eq_true in Hn. apply list_elem_of_In in Ha. by apply (H a).
Qed.

Lemma fields_no_nul a ip :
  wf_args a ip ->
  Forall no_nul (dir a :: show (cosca_pid a) :: show_identity (cosca_identity a) :: show (cosca_euid a) ::
    show_search (search_path a) :: SEPARATOR :: program a :: args a).
Proof.
  intros (Hd & Hp & He & Hi & Hnd & Hns & Hng & Hna). unfold u32_max in *.
  repeat apply Forall_cons_2; try done; try (apply show_no_nul; unfold u64_max; lia).
  - by eapply show_identity_no_nul.
  - unfold show_search. destruct (search_path a) as [path|].
    + intros [H|H]%elem_of_cons; [done|]. by apply (Hns path).
    + by intros H%list_elem_of_singleton.
  - unfold no_nul, SEPARATOR. change (bs "--") with [45; 45]. rewrite !not_elem_of_cons.
    split_and!; try done. apply not_elem_of_nil.
Qed.

Lemma decode_argv a ip :
  wf_args a ip -> u8_args a ->
  decode_fields ((to_hex <$> [dir a; show (cosca_pid a); show_identity (cosca_identity a); show (cosca_euid a);
    show_search (search_path a)]) ++ [SEPARATOR] ++ [to_hex (program a)] ++ (to_hex <$> args a)) 0 =
  Ok (dir a :: show (cosca_pid a) :: show_identity (cosca_identity a) :: show (cosca_euid a) ::
    show_search (search_path a) :: SEPARATOR :: program a :: args a).
Proof.
  intros (Hd & Hp & He & Hi & _) (Hud & Hus & Hug & Hua).
  assert (forall n, 0 <= n <= u32_max -> Forall is_u8 (show n)) as Hs.
  { intros n Hn. unfold u32_max in Hn. eapply Forall_impl; [apply show_clean; unfold u64_max; lia|].
    intros b Hb. unfold is_u8. cbn in Hb. lia. }
  rewrite !fmap_cons, fmap_nil. cbn [app decode_fields].
  repeat match goal with |- context [bool_decide (?n + 2 = SEPARATOR_AT)%nat] =>
    (rewrite (bool_decide_false (n + 2 = SEPARATOR_AT)%nat) by (unfold SEPARATOR_AT; lia)) ||
    (rewrite (bool_decide_true (n + 2 = SEPARATOR_AT)%nat) by (unfold SEPARATOR_AT; lia)) end.
  rewrite !from_hex_to_hex; try done; try (by apply Hs); try (by eapply show_identity_u8).
  - by rewrite decode_fields_hex by (done || lia).
  - unfold show_search. destruct (search_path a) as [path|]; [constructor; [done|by apply Hus]|by repeat constructor].
Qed.

(** What [parse_for] does after its checks of the flag, the length and the separator. *)
Definition parse_rest (hex : bool) (fields : list bytes) (identity_present : bool)
    : option (result ShimArgsError (option ShimArgs)) :=
  match (if hex then decode_fields fields 0 else Ok fields) with
  | Err e => Some (Err e)
  | Ok fields =>
      if existsb (fun a => bool_decide (0 ∈ a)) fields then Some (Err EmbeddedNul)
      else parse_fields fields identity_present
  end.

Lemma parse_for_fields (exe : bytes) (hex : bool) fields ip :
  (7 <= length fields)%nat -> fields !! 5%nat = Some SEPARATOR ->
  parse_for (exe :: (if hex then FLAG_HEX else FLAG) :: fields) ip = parse_rest hex fields ip.
Proof.
  intros Hl Hs. unfold parse_for, parse_rest, SEPARATOR_AT. simpl lookup at 1.
  assert (drop 2 (exe :: (if hex then FLAG_HEX else FLAG) :: fields) = fields) as -> by (simpl; by rewrite drop_0).
  rewrite (bool_decide_false (length _ <= 7 + 1)%nat) by (simpl; lia).
  change ((exe :: (if hex then FLAG_HEX else FLAG) :: fields) !! 7%nat) with (fields !! 5%nat).
  rewrite (bool_decide_true (fields !! 5%nat = Some SEPARATOR)) by done. by destruct hex.
Qed.

Lemma parse_for_Some argv ip a :
  parse_for argv ip = Some (Ok (Some a)) ->
  exists (exe : bytes) (hex : bool) fields, argv = exe :: (if hex then FLAG_HEX else FLAG) :: fields /\
    (7 <= length fields)%nat /\ fields !! 5%nat = Some SEPARATOR /\
    parse_rest hex fields ip = Some (Ok (Some a)).
Proof.
  intros H. destruct argv as [|exe [|flag fields]]; [done|done|].
  assert (exists hex : bool, flag = if hex then FLAG_HEX else FLAG) as [hex ->].
  { revert H. unfold parse_for. simpl lookup. cbv beta iota.
    destruct (negb (starts_with FLAG_PREFIX flag)); [done|].
    destruct (decide (flag = FLAG)) as [->|N1]; [by exists false|].
    destruct (decide (flag = FLAG_HEX)) as [->|N2]; [by exists true|].
    by rewrite (bool_decide_false (flag = FLAG)), (bool_decide_false (flag = FLAG_HEX)). }
  assert ((7 <= length fields)%nat /\ fields !! 5%nat = Some SEPARATOR) as [Hl Hs].
  { revert H. unfold parse_for, SEPARATOR_AT. simpl lookup at 1. cbv beta iota.
    destruct (negb (starts_with _ _)); [done|]. destruct (negb _ && negb _); [done|].
    case_bool_decide as El; [done|].
    change ((exe :: (if hex then FLAG_HEX else FLAG) :: fields) !! 7%nat) with (fields !! 5%nat).
    case_bool_decide as Es; [|done]. simpl in El. split; [lia|done]. }
  exists exe, hex, fields. by rewrite parse_for_fields in H.
Qed.

(** The fields as they are written. *)
Lemma fields_shape fields :
  (7 <= length fields)%nat -> fields !! 5%nat = Some SEPARATOR ->
  exists d p i e s g l, fields = d :: p :: i :: e :: s :: SEPARATOR :: g :: l.
Proof.
  intros Hl Hs. destruct fields as [|d [|p [|i [|e [|s [|x [|g l]]]]]]]; simpl in Hl; try lia.
  injection Hs as ->. eauto 10.
Qed.

(** Parsing never panics. *)
Lemma parse_for_total argv ip : parse_for argv ip <> None.
Proof.
  destruct (parse_for argv ip) eqn:E; [done|]. exfalso. revert E.
  unfold parse_for. destruct (argv !! 1%nat) as [flag|]; [|done].
  destruct (negb (starts_with _ _)); [done|]. destruct (negb _ && negb _); [done|].
  destruct (bool_decide (length argv <= _)%nat) eqn:El; [done|]. apply bool_decide_eq_false in El.
  destruct (negb _); [done|].
  assert (7 <= length (drop 2 argv))%nat as Hl by (rewrite length_drop; unfold SEPARATOR_AT in El; lia).
  assert (forall l i fs, decode_fields l i = Ok fs -> length fs = length l) as Hd.
  { induction l as [|w l IH]; intros i fs; cbn [decode_fields]; [by intros [= <-]|].
    destruct (if bool_decide _ then Ok w else from_hex w); [|done].
    destruct (decode_fields l (S i)) as [fs'|] eqn:E; [|done]. intros [= <-]. simpl. f_equal. by eapply IH. }
  assert (forall fs, (7 <= length fs)%nat -> parse_fields fs ip <> None) as Hp.
  { intros fs Hf. destruct fs as [|d [|p [|i [|e [|s [|x [|g l]]]]]]]; simpl in Hf; try lia. done. }
  destruct (bool_decide (flag = FLAG_HEX)).
  - destruct (decode_fields (drop 2 argv) 0) as [fs|] eqn:E; [|done]. destruct (existsb _ fs); [done|].
    apply Hp. by rewrite (Hd _ _ _ E).
  - destruct (existsb _ _); [done|]. by apply Hp.
Qed.

(** What the fields were decoded from. *)
Lemma fields_encoded (hex : bool) d p i e s g l fs :
  (if hex then decode_fields (d :: p :: i :: e :: s :: SEPARATOR :: g :: l) 0
   else Ok (d :: p :: i :: e :: s :: SEPARATOR :: g :: l)) = Ok fs ->
  exists d' p' i' e' s' g' l', fs = d' :: p' :: i' :: e' :: s' :: SEPARATOR :: g' :: l' /\
    let encode w := if hex then to_hex w else w in
    d = encode d' /\ p = encode p' /\ i = encode i' /\ e = encode e' /\ s = encode s' /\ g = encode g' /\
    l = encode <$> l'.
Proof.
  destruct hex; intros Ef.
  - cbn [decode_fields] in Ef.
    repeat match goal with H : context [bool_decide (?n + 2 = SEPARATOR_AT)%nat] |- _ =>
      (rewrite (bool_decide_false (n + 2 = SEPARATOR_AT)%nat) in H by (unfold SEPARATOR_AT; lia)) ||
      (rewrite (bool_decide_true (n + 2 = SEPARATOR_AT)%nat) in H by (unfold SEPARATOR_AT; lia)) end.
    repeat match goal with H : context [from_hex ?w] |- _ =>
      let E := fresh "E" in destruct (from_hex w) eqn:E; [|done]; apply from_hex_Ok in E as [-> _] end.
    destruct (decode_fields l 7) as [l'|] eqn:El; [|done]. apply decode_fields_tail in El as ->; [|lia].
    injection Ef as <-. eauto 20.
  - injection Ef as <-. exists d, p, i, e, s, g, l. cbn zeta. split_and!; try done. symmetry. apply list_fmap_id.
Qed.

(** * Properties: the invocation *)

(** What the shim is told survives its command line: the argv of well-formed arguments parses
    back to them, in the plain form and, for bytes, in the hex form, on a platform with an identity
    and on one without. *)
Theorem parse_to_argv (a : ShimArgs) (exe : bytes) (hex identity_present : bool) :
  wf_args a identity_present -> (hex = true -> u8_args a) ->
  parse_for (to_argv_for a exe hex) identity_present = Some (Ok (Some a)).
Proof.
  intros Hw Hu. pose proof (fields_no_nul a _ Hw) as Hn. apply existsb_nul in Hn.
  pose proof (parse_fields_show a _ Hw) as Hp.
  unfold to_argv_for. rewrite !fmap_cons, fmap_nil. cbn [app].
  rewrite parse_for_fields; [|simpl; lia|done].
  unfold parse_rest. destruct hex.
  - etransitivity; [|exact Hp]. pose proof (decode_argv a _ Hw (Hu eq_refl)) as Hd.
    match goal with |- context [decode_fields ?l 0] => eassert (decode_fields l 0 = _) as -> by exact Hd end.
    cbv beta iota. by rewrite Hn.
  - etransitivity; [|exact Hp]. rewrite list_fmap_id. cbv beta iota. by rewrite Hn.
Qed.

Definition demo_args : ShimArgs :=
  shim_args (bs "/tmp/d") 4294967295 (Some (shim_identity 18446744073709551615 0)) 0 (Some []) (bs "id") [[]; [255; 10]].

Lemma parse_to_argv_witness :
  parse_for (to_argv_for demo_args (bs "cosca") true) true = Some (Ok (Some demo_args)).
Proof.
  assert (forall b : bytes, forallb (fun x => (0 <=? x) && (x <? 256)) b = true -> Forall is_u8 b) as Hu8.
  { intros b H. rewrite forallb_forall in H. apply Forall_forall. intros x Hx.
    apply list_elem_of_In, H in Hx. unfold is_u8. lia. }
  assert (forall b : bytes, bool_decide (0 ∈ b) = false -> no_nul b) as H0.
  { intros b H. by apply bool_decide_eq_false in H. }
  apply parse_to_argv.
  - split; [done|]. split; [unfold u32_max; cbn; lia|]. split; [unfold u32_max; cbn; lia|].
    split; [unfold wf_identity, u64_max, u32_max; cbn; lia|]. split; [by apply H0|].
    split; [intros path [= <-]; by apply H0|]. split; [by apply H0|].
    apply Forall_cons; split; [by apply H0|]. apply Forall_cons; split; [by apply H0|]. by apply Forall_nil.
  - intros _. split; [by apply Hu8|]. split; [intros path [= <-]; by apply Hu8|]. split; [by apply Hu8|].
    apply Forall_cons; split; [by apply Hu8|]. apply Forall_cons; split; [by apply Hu8|]. by apply Forall_nil.
Defined.

(** Every invocation has one spelling. Parsing never panics, and what it accepts is the argv of
    the arguments it gives, which are well formed: so no two argvs of one form and program name
    parse to the same arguments. *)
Theorem parse_canonical (argv : list bytes) (identity_present : bool) :
  parse_for argv identity_present <> None /\
  (forall a, parse_for argv identity_present = Some (Ok (Some a)) ->
   wf_args a identity_present /\ exists exe hex, argv = to_argv_for a exe hex).
Proof.
  split; [apply parse_for_total|].
  intros a (exe & hex & fields & -> & Hl & Hs & H)%parse_for_Some.
  destruct (fields_shape fields Hl Hs) as (d & p & i & e & s & g & l & ->). revert H. unfold parse_rest.
  destruct (if hex then decode_fields (d :: p :: i :: e :: s :: SEPARATOR :: g :: l) 0
            else Ok (d :: p :: i :: e :: s :: SEPARATOR :: g :: l)) as [fs|] eqn:Ef; [|done].
  destruct (existsb _ fs) eqn:En; [done|]. intros H. apply existsb_nul in En.
  destruct (fields_encoded _ _ _ _ _ _ _ _ _ Ef)
    as (d' & p' & i' & e' & s' & g' & l' & -> & -> & -> & -> & -> & -> & -> & ->).
  apply parse_fields_Ok in H as (-> & -> & -> & -> & -> & -> & -> & Hd & Hp & He & Hi). split.
  - unfold wf_args. repeat match goal with H : Forall no_nul (_ :: _) |- _ => apply Forall_cons in H as [? H] end.
    split_and!; try (done || lia). intros path E. rewrite E in *. intros Hin.
    match goal with H : no_nul (show_search (Some path)) |- _ => apply H end. by right.
  - exists exe, hex. unfold to_argv_for. by destruct hex.
Qed.

Lemma parse_canonical_witness :
  exists exe hex, to_argv_for demo_args (bs "cosca") false = to_argv_for demo_args exe hex.
Proof. apply (parse_canonical (to_argv_for demo_args (bs "cosca") false) true). reflexivity. Defined.

(** * Lemmas: the frames *)

(** What a frame can carry. *)
Definition wf_frame (f : Frame) : Prop :=
  match f with
  | Status ws | Lost ws => - 2 ^ 31 <= ws < 2 ^ 31
  | FNotExecuted n => 1 <= (kind_value n).2 <= 0xffff
  | _ => True
  end.

Lemma from_code_Some c r : from_code c = Some r <-> refusal_code r = c.
Proof.
  unfold from_code. split.
  - intros [l H]%head_Some. assert (r ∈ filter (fun r => refusal_code r = c) [NotCosca; CoscaGone; NoAnswer; Denied]) as Hr.
    { rewrite H. by left. }
    by apply list_elem_of_filter in Hr as [? _].
  - intros <-. by destruct r.
Qed.

Lemma le_bytes_value b0 b1 b2 b3 :
  is_u8 b0 -> is_u8 b1 -> is_u8 b2 -> is_u8 b3 ->
  to_le_bytes (from_le_bytes b0 b1 b2 b3) = [b0; b1; b2; b3] /\ - 2 ^ 31 <= from_le_bytes b0 b1 b2 b3 < 2 ^ 31.
Proof.
  unfold is_u8, from_le_bytes, signed32, to_le_bytes. intros H0 H1 H2 H3.
  set (u := b0 + 256 * b1 + 65536 * b2 + 16777216 * b3).
  assert (0 <= u < 2 ^ 32) by (unfold u; lia).
  assert (u mod 256 = b0 /\ u / 256 mod 256 = b1 /\ u / 65536 mod 256 = b2 /\ u / 16777216 mod 256 = b3) as (E0 & E1 & E2 & E3)
    by (unfold u; lia).
  assert (forall k : Z, (u - 2 ^ 32) mod 256 = u mod 256 /\ (u - 2 ^ 32) / 256 mod 256 = u / 256 mod 256 /\
    (u - 2 ^ 32) / 65536 mod 256 = u / 65536 mod 256 /\ (u - 2 ^ 32) / 16777216 mod 256 = u / 16777216 mod 256) as Hm
    by (intros _; clearbody u; lia).
  destruct (Z.ltb_spec u (2 ^ 31)); [|destruct (Hm 0) as (-> & -> & -> & ->)];
    rewrite E0, E1, E2, E3; split; [done|lia|done|lia].
Qed.

Lemma from_to_le v : - 2 ^ 31 <= v < 2 ^ 31 ->
  exists b0 b1 b2 b3, to_le_bytes v = [b0; b1; b2; b3] /\ is_u8 b0 /\ is_u8 b1 /\ is_u8 b2 /\ is_u8 b3 /\
    from_le_bytes b0 b1 b2 b3 = v.
Proof.
  intros Hv. unfold to_le_bytes, is_u8. eexists _, _, _, _. split; [done|]. split_and!; try lia.
  unfold from_le_bytes, signed32.
  assert (v mod 256 + 256 * (v / 256 mod 256) + 65536 * (v / 65536 mod 256) + 16777216 * (v / 16777216 mod 256) =
    v mod 2 ^ 32) as -> by lia.
  destruct (Z.ltb_spec (v mod 2 ^ 32) (2 ^ 31)); lia.
Qed.

Lemma land_ffff v : Z.land v 0xffff = v mod 65536.
Proof. change 0xffff with (Z.ones 16). by rewrite Z.land_ones by lia. Qed.

(** The tags of a frame with a payload. *)
Definition payload_tag (tag : Z) : Prop := tag = 83 \/ tag = 76 \/ tag = 85 \/ tag = 82 \/ tag = 70.

Lemma tag_cases tag : tag ∈ bs "HSLUFR" <-> tag = 72 \/ payload_tag tag.
Proof.
  unfold payload_tag. change (bs "HSLUFR") with [72; 83; 76; 85; 70; 82].
  rewrite !elem_of_cons. split; [|tauto].
  intros [?|[?|[?|[?|[?|[?|H]]]]]]; try tauto. by apply not_elem_of_nil in H.
Qed.

(** A payload of four bytes that are each possible is a frame, and the only one with that spelling. *)
Lemma decode_full tag b0 b1 b2 b3 :
  payload_tag tag -> is_u8 b0 -> is_u8 b1 -> is_u8 b2 -> is_u8 b3 ->
  forallb (payload_byte_ok tag [b0; b1; b2; b3]) (seq 0 4) = true ->
  exists f, decode_frame [tag; b0; b1; b2; b3] = Some (Ok f) /\ encode f = [tag; b0; b1; b2; b3] /\ wf_frame f.
Proof.
  intros Ht H0 H1 H2 H3 Hok. destruct (le_bytes_value b0 b1 b2 b3 H0 H1 H2 H3) as [Hle Hr].
  unfold decode_frame. rewrite bool_decide_true by (apply tag_cases; by right).
  simpl length. change (seq 0 (4 `min` 4)) with (seq 0 4). rewrite Hok.
  rewrite (bool_decide_false (4 < 4)%nat) by lia. cbn [negb orb]. cbv zeta.
  destruct Ht as [-> |[-> |[-> |[-> | ->]]]]; cbn -[from_le_bytes Z.land Z.shiftr Z.modulo].
  - eexists. split; [done|]. cbn -[from_le_bytes to_le_bytes]. by rewrite Hle.
  - eexists. split; [done|]. cbn -[from_le_bytes to_le_bytes]. by rewrite Hle.
  - eexists. split; [done|]. cbn. cbn in Hok. rewrite !andb_true_iff, !Z.eqb_eq in Hok.
    destruct Hok as (-> & -> & -> & -> & _). done.
  - cbn -[from_code] in Hok. destruct (from_code b0) as [r|] eqn:Er; [|done]. eexists. split; [done|].
    apply from_code_Some in Er. rewrite !andb_true_iff, !Z.eqb_eq in Hok.
    destruct Hok as (_ & -> & -> & -> & _). cbn. rewrite Er. unfold is_u8 in H0. split; [|done].
    unfold to_le_bytes. repeat f_equal; lia.
  - cbn in Hok. rewrite !andb_true_iff, orb_true_iff, !negb_true_iff, !Z.eqb_neq, !Z.leb_le, Z.eqb_eq in Hok.
    destruct Hok as (Hnz & Hk & -> & _). unfold is_u8 in *. rewrite land_ffff, Z.shiftr_div_pow2 by lia.
    assert (from_le_bytes b0 b1 b2 0 = b0 + 256 * b1 + 65536 * b2) as Hv.
    { unfold from_le_bytes, signed32. destruct (Z.ltb_spec (b0 + 256 * b1 + 65536 * b2 + 16777216 * 0) (2 ^ 31)); lia. }
    rewrite Hv in *. change (2 ^ 16) with 65536.
    replace ((b0 + 256 * b1 + 65536 * b2) / 65536 mod 65536) with b2 by lia.
    replace ((b0 + 256 * b1 + 65536 * b2) mod 65536) with (b0 + 256 * b1) by lia.
    assert (forall k, 1 <= k <= 4 -> Z.lor (Z.shiftl k 16) (Z.land (b0 + 256 * b1) 0xffff) = b0 + 256 * b1 + 65536 * k) as Hl.
    { intros k Hk'. rewrite land_ffff, lor_shift by lia. change (2 ^ 16) with 65536. lia. }
    assert (1 <= b0 + 256 * b1 <= 0xffff) by lia.
    destruct (Z.eqb_spec b2 KIND_FORK) as [->|]; [|destruct (Z.eqb_spec b2 KIND_EXEC) as [->|];
      [|destruct (Z.eqb_spec b2 KIND_SETUP) as [->|]; [|destruct (Z.eqb_spec b2 KIND_TERM) as [->|];
      [|unfold KIND_FORK, KIND_EXEC, KIND_SETUP, KIND_TERM in *; lia]]]];
      (eexists; split; [done|]; cbn -[to_le_bytes Z.lor Z.land Z.shiftl];
       rewrite Hl by (unfold KIND_FORK, KIND_EXEC, KIND_SETUP, KIND_TERM; lia); by rewrite Hle).
Qed.

(** The three outcomes of a payload. *)
Lemma decode_payload tag p :
  payload_tag tag -> Forall is_u8 p ->
  let ok := forallb (payload_byte_ok tag p) (seq 0 (min (length p) 4)) = true in
  (decode_frame (tag :: p) = Some (Err Garbled) /\ ~ (ok /\ (length p <= 4)%nat)) \/
  (decode_frame (tag :: p) = Some (Err Truncated) /\ ok /\ (length p < 4)%nat) \/
  (exists f, decode_frame (tag :: p) = Some (Ok f) /\ encode f = tag :: p /\ wf_frame f /\ ok /\ length p = 4%nat).
Proof.
  intros Ht Hp ok. unfold ok. clear ok. destruct (forallb _ _) eqn:Ek.
  - destruct (decide (length p <= 4)%nat) as [Hl|Hl]; [|left; split; [|by intros []]].
    + right. destruct (decide (length p = 4)%nat) as [E|E].
      * right. destruct p as [|b0 [|b1 [|b2 [|b3 [|b4 p]]]]]; try done.
        rewrite !Forall_cons in Hp. destruct Hp as (H0 & H1 & H2 & H3 & _).
        destruct (decode_full tag b0 b1 b2 b3 Ht H0 H1 H2 H3 Ek) as (f & Hd & He & Hw). by exists f.
      * left. split; [|split; [done|lia]]. unfold decode_frame. rewrite Ek.
        rewrite bool_decide_true by (apply tag_cases; by right). rewrite (bool_decide_false (4 < length p)%nat) by lia.
        assert (tag =? 72 = false) as -> by (unfold payload_tag in Ht; lia).
        cbn [negb orb]. by destruct p as [|b0 [|b1 [|b2 [|b3 [|b4 p]]]]]; simpl in E; try lia.
    + unfold decode_frame. rewrite bool_decide_true by (apply tag_cases; by right).
      assert (tag =? 72 = false) as -> by (unfold payload_tag in Ht; lia).
      rewrite (bool_decide_true (4 < length p)%nat) by lia. rewrite orb_true_r. done.
  - left. split; [|by intros []]. unfold decode_frame. rewrite bool_decide_true by (apply tag_cases; by right).
    assert (tag =? 72 = false) as -> by (unfold payload_tag in Ht; lia). by rewrite Ek.
Qed.

(** Whether a byte is possible depends on it and the bytes before it. *)
Lemma payload_byte_ok_app tag p r i :
  (i < length p)%nat -> payload_byte_ok tag (p ++ r) i = payload_byte_ok tag p i.
Proof.
  intros Hi. assert (forall j, (j <= i)%nat -> at_ (p ++ r) j = at_ p j) as Ha.
  { intros j Hj. unfold at_. by rewrite lookup_app_l by lia. }
  unfold payload_byte_ok. destruct (tag =? 85), (tag =? 82), (tag =? 70);
    destruct i as [|[|[|[|i]]]]; rewrite ?Ha by lia; done.
Qed.

Lemma payload_ok_prefix tag p r :
  forallb (payload_byte_ok tag (p ++ r)) (seq 0 (min (length (p ++ r)) 4)) = true ->
  forallb (payload_byte_ok tag p) (seq 0 (min (length p) 4)) = true.
Proof.
  rewrite !forallb_forall. intros H i [_ Hi]%in_seq. rewrite <- (payload_byte_ok_app tag p r) by lia.
  apply H, in_seq. rewrite length_app. lia.
Qed.

(** Every possible beginning of a payload has an end. *)
Lemma payload_completes tag p :
  payload_tag tag -> Forall is_u8 p -> (length p < 4)%nat ->
  forallb (payload_byte_ok tag p) (seq 0 (min (length p) 4)) = true ->
  exists r, Forall is_u8 r /\ length (p ++ r) = 4%nat /\
    forallb (payload_byte_ok tag (p ++ r)) (seq 0 4) = true.
Proof.
  intros Ht Hp Hl Hok. assert (is_u8 0 /\ is_u8 1 /\ is_u8 122) as (U0 & U1 & U2) by (unfold is_u8; lia).
  destruct p as [|b0 [|b1 [|b2 [|b3 p]]]]; simpl in Hl; try lia.
  - destruct Ht as [-> |[-> |[-> |[-> | ->]]]];
      [exists [0; 0; 0; 0]|exists [0; 0; 0; 0]|exists [0; 0; 0; 0]|exists [122; 0; 0; 0]|exists [1; 0; 1; 0]];
      split; try done; by repeat constructor.
  - cbn -[Z.eqb from_code] in Hok. destruct Ht as [-> |[-> |[-> |[-> | ->]]]];
      [exists [0; 0; 0]|exists [0; 0; 0]|exists [0; 0; 0]|exists [0; 0; 0]|exists [1; 1; 0]];
      (split; [by repeat constructor|split; [done|]]); cbn -[from_code] in *; rewrite ?andb_true_r in *; try done.
    by rewrite orb_true_r.
  - cbn -[Z.eqb from_code] in Hok. destruct Ht as [-> |[-> |[-> |[-> | ->]]]];
      [exists [0; 0]|exists [0; 0]|exists [0; 0]|exists [0; 0]|exists [1; 0]];
      (split; [by repeat constructor|split; [done|]]); cbn -[from_code] in *; rewrite ?andb_true_r in *; done.
  - cbn -[Z.eqb from_code] in Hok. exists [0]. destruct Ht as [-> |[-> |[-> |[-> | ->]]]];
      (split; [by repeat constructor|split; [done|]]); cbn -[from_code] in *; rewrite ?andb_true_r in *; done.
Qed.

Lemma encode_u8 f : wf_frame f -> Forall is_u8 (encode f).
Proof.
  assert (forall t v, is_u8 t -> Forall is_u8 (t :: to_le_bytes v)) as Hle.
  { intros t v Ht. constructor; [done|]. unfold to_le_bytes, is_u8. repeat constructor; lia. }
  intros _. destruct f as [|ws|ws| |[n|n|n|n]|r]; cbn -[to_le_bytes Z.lor]; try by (apply Hle; unfold is_u8; lia).
  repeat constructor; unfold is_u8; lia.
Qed.

(** A not-executed value is its kind above its number. *)
Lemma kind_value_le k v :
  1 <= k <= 4 -> 1 <= v <= 0xffff ->
  to_le_bytes (Z.lor (Z.shiftl k 16) (Z.land v 0xffff)) = [v mod 256; v / 256; k; 0] /\
  from_le_bytes (v mod 256) (v / 256) k 0 = v + 65536 * k.
Proof.
  intros Hk Hv. rewrite land_ffff, lor_shift by lia. change (2 ^ 16) with 65536. split.
  - unfold to_le_bytes. rewrite (Z.mod_small v 65536) by lia.
    assert ((k * 65536 + v) mod 256 = v mod 256) as -> by lia.
    assert ((k * 65536 + v) / 256 mod 256 = v / 256) as -> by lia.
    assert ((k * 65536 + v) / 65536 mod 256 = k) as -> by lia.
    by assert ((k * 65536 + v) / 16777216 mod 256 = 0) as -> by lia.
  - unfold from_le_bytes, signed32. destruct (Z.ltb_spec (v mod 256 + 256 * (v / 256) + 65536 * k + 16777216 * 0) (2 ^ 31)); lia.
Qed.

Lemma payload_ok_F a b k :
  a <> 0 \/ b <> 0 -> 1 <= k <= 4 -> forallb (payload_byte_ok 70 [a; b; k; 0]) (seq 0 4) = true.
Proof.
  intros Hab Hk. cbn [forallb seq]. unfold payload_byte_ok, at_. cbn [lookup list_lookup].
  change (70 =? 85) with false. change (70 =? 82) with false. change (70 =? 70) with true. change (0 =? 0) with true.
  cbv beta iota. lia.
Qed.

Lemma decode_encode f : wf_frame f -> decode_frame (encode f) = Some (Ok f).
Proof.
  destruct f as [|ws|ws| |n|r]; cbn [wf_frame]; [done| | |done| |by destruct r].
  1, 2: intros (b0 & b1 & b2 & b3 & Hle & _ & _ & _ & _ & Hv)%from_to_le; unfold encode; rewrite Hle;
    unfold decode_frame; cbn -[from_le_bytes]; by rewrite Hv.
  intros Hv. assert (exists k v, kind_value n = (k, v) /\ 1 <= k <= 4 /\ 1 <= v <= 0xffff) as (k & v & E & Hk & Hr).
  { exists (kind_value n).1, (kind_value n).2. split; [apply surjective_pairing|]. split; [|done].
    destruct n; cbn; unfold KIND_FORK, KIND_EXEC, KIND_SETUP, KIND_TERM; lia. }
  unfold encode. rewrite E. destruct (kind_value_le k v Hk Hr) as [-> Hf]. unfold decode_frame.
  rewrite bool_decide_true by (apply tag_cases; right; unfold payload_tag; lia).
  simpl length. change (seq 0 (4 `min` 4)) with (seq 0 4). rewrite payload_ok_F by lia.
  rewrite Hf, land_ffff, Z.shiftr_div_pow2 by lia. change (2 ^ 16) with 65536. cbv zeta.
  assert ((v + 65536 * k) / 65536 mod 65536 = k) as -> by lia.
  assert ((v + 65536 * k) mod 65536 = v) as -> by lia.
  destruct n; cbn in E; injection E as <- <-; done.
Qed.

Lemma decode_frame_cases b :
  Forall is_u8 b ->
  decode_frame b = Some (Err Garbled) \/ decode_frame b = Some (Err Truncated) \/
  exists f, decode_frame b = Some (Ok f) /\ b = encode f /\ wf_frame f.
Proof.
  intros Hb. destruct b as [|tag p]; [auto|]. apply Forall_cons in Hb as [_ Hp].
  destruct (decide (tag ∈ bs "HSLUFR")) as [Ht|Ht].
  - apply tag_cases in Ht as [-> |Ht].
    + destruct p; [|by left]. right; right. by exists Hello.
    + destruct (decode_payload tag p Ht Hp) as [[? _]|[[? _]|(f & ? & ? & ? & _)]]; eauto 10.
  - left. unfold decode_frame. by rewrite bool_decide_false.
Qed.

(** What is left of a frame cut short is truncated. *)
Lemma decode_prefix b r f :
  Forall is_u8 b -> Forall is_u8 r -> r <> [] -> decode_frame (b ++ r) = Some (Ok f) ->
  decode_frame b = Some (Err Truncated).
Proof.
  intros Hb Hr Hne Hd. destruct b as [|tag p]; [done|]. apply Forall_cons in Hb as [_ Hp].
  assert (Forall is_u8 (p ++ r)) as Hpr by by apply Forall_app.
  destruct (decide (tag ∈ bs "HSLUFR")) as [Ht|Ht].
  2: { revert Hd. unfold decode_frame. simpl app. cbv beta iota. by rewrite bool_decide_false. }
  apply tag_cases in Ht as [-> |Ht]; [by destruct p, r|].
  destruct (decode_payload tag (p ++ r) Ht Hpr) as [[E _]|[(E & _)|(_ & _ & _ & _ & Hok & Hl)]];
    [simpl app in Hd; congruence|simpl app in Hd; congruence|].
  apply payload_ok_prefix in Hok. rewrite length_app in Hl.
  assert (length r <> 0%nat) by by destruct r.
  destruct (decode_payload tag p Ht Hp) as [[_ N]|[(E & _)|(_ & _ & _ & _ & _ & N)]]; [|done|lia].
  exfalso. apply N. split; [done|lia].
Qed.

(** The commands' spelling. *)
Lemma decode_command_Ok b c : decode_command b = Ok c <-> b = encode_command c.
Proof.
  unfold decode_command, encode_command.
  repeat match goal with |- context [b =? ?k] => destruct (Z.eqb_spec b k) as [->|] end;
    destruct c; split; congruence.
Qed.

Lemma decode_encode_command c : decode_command (encode_command c) = Ok c.
Proof. by apply decode_command_Ok. Qed.

(** * Properties: the frames *)

(** The frame codec is exact. Every frame that can be sent decodes to itself; decoding bytes
    never panics and what it gives encodes to those bytes; and [Truncated] means what its comment
    says: some non-empty continuation makes the bytes a frame. *)
Theorem frame_codec :
  (forall f, wf_frame f -> decode_frame (encode f) = Some (Ok f)) /\
  (forall b, Forall is_u8 b ->
     decode_frame b <> None /\
     (forall f, decode_frame b = Some (Ok f) -> b = encode f /\ wf_frame f) /\
     (decode_frame b = Some (Err Truncated) <->
      exists r f, r <> [] /\ Forall is_u8 r /\ decode_frame (b ++ r) = Some (Ok f))).
Proof.
  split; [apply decode_encode|]. intros b Hb.
  pose proof (decode_frame_cases b Hb) as Hc. split_and!.
  - destruct Hc as [->|[->|(f & -> & _)]]; done.
  - intros f E. rewrite E in Hc. destruct Hc as [?|[?|(f' & [= <-] & ? & ?)]]; done.
  - split; [|intros (r & f & Hne & Hr & Hd); by eapply decode_prefix].
    destruct b as [|tag p].
    { intros _. exists [72], Hello. split; [done|]. split; [by repeat constructor|done]. }
    apply Forall_cons in Hb as [_ Hp]. intros Hd. destruct (decide (tag ∈ bs "HSLUFR")) as [Ht|Ht].
    2: { revert Hd. unfold decode_frame. by rewrite bool_decide_false. }
    apply tag_cases in Ht as [-> |Ht]; [by destruct p|].
    destruct (decode_payload tag p Ht Hp) as [[E _]|[(_ & Hok & Hl)|(f & E & _)]]; [congruence| |congruence].
    destruct (payload_completes tag p Ht Hp Hl Hok) as (r & Hr & Hl4 & Hok4).
    assert (Forall is_u8 (p ++ r)) as Hpr by by apply Forall_app. exists r.
    destruct (decode_payload tag (p ++ r) Ht Hpr) as [[_ N]|[(_ & _ & N)|(f & E & _)]]; [|lia|].
    + exfalso. apply N. rewrite Hl4. split; [exact Hok4|lia].
    + exists f. split; [|by split]. intros ->. rewrite app_nil_r in Hl4. lia.
Qed.

Lemma frame_codec_witness :
  decode_frame (encode (Lost (-(2 ^ 31)))) = Some (Ok (Lost (-(2 ^ 31)))) /\
  (exists r f, r <> [] /\ Forall is_u8 r /\ decode_frame ([70; 0] ++ r) = Some (Ok f)).
Proof.
  split.
  - apply (proj1 frame_codec). split; reflexivity || discriminate.
  - apply (proj2 frame_codec [70; 0]); [by repeat constructor|reflexivity].
Defined.
