(* ===== verification/ShimStep.v ===== *)
(** The elevation shim's supervision, [src/elevation/shim/]: one step and the verdict ([step.rs],
    [codes.rs]), the loop around them ([run/run_loop.rs]) and collecting the child's status
    ([run/reap.rs], [decode_report] of [run/child.rs]).

    What the kernel answers is an argument: the answers of each nonblocking read, in order (when
    they run out the read answers [EAGAIN]), and of each [waitid]. [EIO]'s number is a parameter. *)
From S2P Require Import Prelude ShimProtocol.
Local Open Scope Z_scope.

(** * The step *)

Definition STATUS_LOST : Z := 112.

Definition NOT_EXECUTED : Z := 117.

Definition SUPERVISION : Z := 118.

Record LoopState := loop_state {
  armed : bool;
  conn_open : bool;
  owner_watched : bool;
  exec_pending : bool;
  test_hooks : bool;
}.

Definition new (test_hooks : bool) : LoopState := loop_state true true true true test_hooks.

Inductive Control := CNothing | CByte (byte : Z) | CEof.

Inductive ExecEvent := ENothing | EEof | EReport.

#[global] Instance Control_eq_dec : EqDecision Control.
Proof. solve_decision. Defined.

#[global] Instance ExecEvent_eq_dec : EqDecision ExecEvent.
Proof. solve_decision. Defined.

Record Events := events {
  control : Control;
  owner_exited : bool;
  child_exited : bool;
  exec : ExecEvent;
  signaled : bool;
  forced_failure : bool;
}.

Definition NONE : Events := events CNothing false false ENothing false false.

Inductive ToChild := ToKill | ToTerm.

Record Actions := actions {
  signal : option ToChild;
  reap : bool;
  lost : bool;
  pong : bool;
  violation : bool;
}.

Definition actions_default : Actions := actions None false false false false.

Definition set_signal (a : Actions) (s : ToChild) : Actions :=
  actions (Some s) (reap a) (lost a) (pong a) (violation a).

Definition decide (state : LoopState) (e : Events) : LoopState * Actions :=
  if forced_failure e then (state, actions None false true false false)
  else
    let state :=
      if bool_decide (exec e = ENothing) then state
      else loop_state (armed state) (conn_open state) (owner_watched state) false (test_hooks state) in
    let '(state, a) :=
      match control e with
      | CNothing => (state, actions_default)
      | CEof =>
          (loop_state (armed state) false (owner_watched state) (exec_pending state) (test_hooks state),
           if armed state then set_signal actions_default ToKill else actions_default)
      | CByte byte =>
          match decode_command byte with
          | Ok Kill => (state, set_signal actions_default ToKill)
          | Ok Terminate => (state, set_signal actions_default ToTerm)
          | Ok Disarm =>
              (loop_state false (conn_open state) (owner_watched state) (exec_pending state) (test_hooks state),
               actions_default)
          | Ok Ping =>
              (state, if test_hooks state then actions None false false true false
                      else actions (Some ToKill) false false false true)
          | Ok (Allow | Deny) | Err _ => (state, actions (Some ToKill) false false false true)
          end
      end in
    let '(state, a) :=
      if owner_exited e && owner_watched state then
        (loop_state (armed state) (conn_open state) false (exec_pending state) (test_hooks state),
         if armed state then set_signal a ToKill else a)
      else (state, a) in
    let a := if signaled e then set_signal a ToKill else a in
    (state, actions (signal a) (child_exited e) (lost a) (pong a) (violation a)).

Record Verdict := verdict { frame : Frame; exit_code : Z }.

Definition exit_code_of (wait_status : Z) : Z :=
  let signal := Z.land wait_status 0x7f in
  if signal =? 0 then Z.land (Z.shiftr wait_status 8) 0xff else 128 + signal.

Definition conclude (report : option NotExecuted) (reaped : option Z) (lost : bool) : Verdict :=
  match report with
  | Some not_executed => verdict (FNotExecuted not_executed) NOT_EXECUTED
  | None =>
      match reaped with
      | None => verdict StatusLost STATUS_LOST
      | Some status =>
          if lost then verdict (Lost status) SUPERVISION
          else verdict (Status status) (exit_code_of status)
      end
  end.

(** * Collecting the status *)

(** [WaitIdStatus]: its exit status, the signal that ended it, whether it dumped core. *)
Record WaitIdStatus := wait_id_status { exit_status : option Z; terminating_signal : option Z; dumped : bool }.

Definition wait_status (s : WaitIdStatus) : option Z :=
  match exit_status s with
  | Some code => Some (Z.shiftl (Z.land code 0xff) 8)
  | None => (fun signal => Z.lor signal (if dumped s then 0x80 else 0)) <$> terminating_signal s
  end.

Inductive Errno := INTR | AGAIN | CONNRESET | CHILD | OtherErrno.

Inductive WaitAnswer := WSome (s : WaitIdStatus) | WNone | WErr (e : Errno).

Inductive Wait := WaitStatus (status : Z) | Gone | NotYet.

(** The answer and the ones left; [None] when [waitid] has not returned. *)
Fixpoint wait_on (answers : list WaitAnswer) : option (Wait * list WaitAnswer) :=
  match answers with
  | [] => None
  | WSome s :: rest => Some (match wait_status s with Some ws => WaitStatus ws | None => Gone end, rest)
  | WNone :: rest => Some (NotYet, rest)
  | WErr INTR :: rest => wait_on rest
  | WErr _ :: rest => Some (Gone, rest)
  end.

(** [Spawned::reap]; [ready] only changes what the kernel answers. *)
Definition reap_child (answers : list WaitAnswer) : option (option Z) :=
  '(first, rest) ← wait_on answers;
  match first with
  | WaitStatus status => Some (Some status)
  | Gone => Some None
  | NotYet =>
      '(second, _) ← wait_on rest;
      Some (match second with WaitStatus status => Some status | Gone | NotYet => None end)
  end.

(** * The loop *)

Section run_loop.
Context (EIO : Z).

Definition decode_report (value : Z) : NotExecuted :=
  match decode_frame (70 :: to_le_bytes value) with
  | Some (Ok (FNotExecuted report)) => report
  | _ => ExecFailed EIO
  end.

(** A read of the status pipe: the value of its four bytes, the end, a short read, or an error. *)
Inductive StatusRead := ReadValue (value : Z) | ReadZero | ReadShort | ReadErr (e : Errno).

Inductive PipeStatus := PReport (report : NotExecuted) | PEof | PNothing.

Fixpoint drain_status (reads : list StatusRead) : PipeStatus :=
  match reads with
  | ReadValue value :: _ => PReport (decode_report value)
  | ReadZero :: _ => PEof
  | ReadErr INTR :: rest => drain_status rest
  | [] | ReadShort :: _ | ReadErr _ :: _ => PNothing
  end.

(** A [recv] of one byte. *)
Inductive Recv := RecvByte (byte : Z) | RecvZero | RecvErr (e : Errno).

Fixpoint drain_control (recvs : list Recv) : list Control :=
  match recvs with
  | [] | RecvErr AGAIN :: _ => []
  | RecvByte byte :: rest => CByte byte :: drain_control rest
  | RecvErr INTR :: rest => drain_control rest
  | RecvZero :: _ | RecvErr _ :: _ => [CEof]
  end.

(** A read of the wake pipe: how many bytes, or an error. *)
Fixpoint drain_wake (reads : list (result Errno nat)) (any : bool) : bool :=
  match reads with
  | [] | Ok O :: _ | Err AGAIN :: _ => any
  | Ok (S _) :: rest => drain_wake rest true
  | Err INTR :: rest => drain_wake rest any
  | Err _ :: _ => any
  end.

(** What the kernel answers in one round. *)
Record Round := round {
  poll_fails : bool;
  child_ready : bool;
  owner_ready : bool;
  failure_ready : bool;
  status_ready : bool;
  wake_reads : list (result Errno nat);
  status_reads : list StatusRead;
  recvs : list Recv;
  waits : list WaitAnswer;
}.

Record Finished := finished {
  f_report : option NotExecuted;
  f_reaped : option Z;
  f_lost : bool;
  f_conn_open : bool;
}.

(** The steps of the bytes before the last, and the signals they send. *)
Fixpoint earlier_steps (state : LoopState) (controls : list Control) : LoopState * list ToChild :=
  match controls with
  | [] => (state, [])
  | c :: rest =>
      let '(state, a) := decide state (events c false false ENothing false false) in
      let '(state, sent) := earlier_steps state rest in
      (state, option_list (signal a) ++ sent)
  end.

(** How a round ends: the loop goes on, or breaks with [(reaped, lost)], [None] while [waitid] has
    not returned. *)
Inductive RoundEnd := GoOn | Break (result : option (option Z * bool)).

(** [kill_and_reap]'s result; the caller adds the signal. *)
Definition kill_and_reap (r : Round) : RoundEnd :=
  Break ((fun reaped => (reaped, true)) <$> reap_child (waits r)).

(** One round of the loop: the state, the report so far, the signals sent, how it ends. *)
Definition run_round (r : Round) (st : LoopState) (report : option NotExecuted)
    : LoopState * option NotExecuted * list ToChild * RoundEnd :=
  if poll_fails r then (st, report, [ToKill], kill_and_reap r)
  else
    let owner_exited := owner_watched st && owner_ready r in
    let status_ready := exec_pending st && status_ready r in
    let '(exec, report) :=
      if status_ready || child_ready r && exec_pending st then
        match drain_status (status_reads r) with
        | PReport n => (EReport, Some n)
        | PEof => (EEof, report)
        | PNothing => (ENothing, report)
        end
      else (ENothing, report) in
    let controls := if conn_open st then drain_control (recvs r) else [] in
    let last := default CNothing (last controls) in
    let '(state, sent) := earlier_steps st (removelast controls) in
    let e := events last owner_exited (child_ready r) exec (drain_wake (wake_reads r) false) (failure_ready r) in
    let '(state, a) := decide state e in
    if lost a then (state, report, sent ++ [ToKill], kill_and_reap r)
    else
      let sent := sent ++ option_list (signal a) in
      if reap a then (state, report, sent, Break ((fun status => (status, false)) <$> reap_child (waits r)))
      else (state, report, sent, GoOn).

(** [Loop::run] over the rounds the kernel gives: the signals sent, and what it ended with, if it
    did. *)
Fixpoint run (rounds : list Round) (final_reads : list StatusRead) (st : LoopState) (report : option NotExecuted)
    : list ToChild * option Finished :=
  match rounds with
  | [] => ([], None)
  | r :: rest =>
      let '(st, report, sent, ending) := run_round r st report in
      match ending with
      | GoOn => let '(more, fin) := run rest final_reads st report in (sent ++ more, fin)
      | Break None => (sent, None)
      | Break (Some (reaped, lost)) =>
          let report :=
            match report with
            | Some n => Some n
            | None => match drain_status final_reads with PReport n => Some n | _ => None end
            end in
          (sent, Some (finished report reaped lost (conn_open st)))
      end
  end.

(** The end of [start_and_supervise]: the frame sent, if cosca is still there, and the exit code. *)
Definition finish (f : Finished) : option Frame * Z :=
  let v := conclude (f_report f) (f_reaped f) (f_lost f) in
  (if f_conn_open f then Some (frame v) else None, exit_code v).

End run_loop.

(** * Lemmas: the step *)

Definition disarms (e : Events) : bool := bool_decide (control e = CByte 68).

Definition ends (e : Events) : bool := bool_decide (control e = CEof).

(** A byte outside the protocol: [P] is in it only with test hooks, [A] and [N] never. *)
Definition violates (hooks : bool) (c : Control) : bool :=
  match c with
  | CByte b => negb ((b =? 75) || (b =? 84) || (b =? 68) || hooks && (b =? 80))
  | _ => false
  end.

(** The step's kill in a state, in closed form. *)
Definition kills (st : LoopState) (e : Events) : bool :=
  signaled e || bool_decide (control e = CByte 75) || violates (test_hooks st) (control e) ||
  ends e && armed st || owner_exited e && owner_watched st && armed st && negb (disarms e).

Lemma decide_closed st e :
  forced_failure e = false ->
  decide st e =
  (loop_state (armed st && negb (disarms e)) (conn_open st && negb (ends e))
     (owner_watched st && negb (owner_exited e)) (exec_pending st && bool_decide (exec e = ENothing)) (test_hooks st),
   actions (if kills st e then Some ToKill else if bool_decide (control e = CByte 84) then Some ToTerm else None)
     (child_exited e) false (test_hooks st && bool_decide (control e = CByte 80))
     (violates (test_hooks st) (control e))).
Proof.
  intros Hf. unfold decide. rewrite Hf. unfold kills, disarms, ends, violates.
  assert (forall b : Z, (b = 75 /\ decode_command b = Ok Kill) \/ (b = 84 /\ decode_command b = Ok Terminate) \/
    (b = 68 /\ decode_command b = Ok Disarm) \/ (b = 80 /\ decode_command b = Ok Ping) \/
    (b <> 75 /\ b <> 84 /\ b <> 68 /\ b <> 80 /\
     match decode_command b with Ok (Allow | Deny) | Err _ => True | _ => False end)) as Hb.
  { intros b. unfold decode_command.
    repeat match goal with |- context [b =? ?k] => destruct (Z.eqb_spec b k) as [->|]; try tauto; try lia end. }
  destruct st as [ar co ow ep th], e as [c oe ce ex si ff]. cbn in *.
  destruct c as [|b|]; [| |destruct (bool_decide (ex = ENothing)), ar, co, ow, ep, oe, si, th; done].
  - destruct (bool_decide (ex = ENothing)), ar, co, ow, ep, oe, si, th; done.
  - destruct (Hb b) as [[-> ->]|[[-> ->]|[[-> ->]|[[-> ->]|(N1 & N2 & N3 & N4 & H)]]]].
    1-4: destruct (bool_decide (ex = ENothing)), ar, co, ow, ep, oe, si, th; done.
    assert (forall k, b <> k -> bool_decide (CByte b = CByte k) = false) as Hk
      by (intros k Hk; apply bool_decide_false; congruence).
    rewrite !Hk by done. rewrite !(proj2 (Z.eqb_neq _ _)) by done.
    destruct (decode_command b) as [[]|]; try done;
      destruct (bool_decide (ex = ENothing)), ar, co, ow, ep, oe, si, th; done.
Qed.

(** The steps of a list of events. *)
Fixpoint steps (st : LoopState) (l : list Events) : LoopState * list Actions :=
  match l with
  | [] => (st, [])
  | e :: rest =>
      let '(st, a) := decide st e in
      let '(st, acts) := steps st rest in
      (st, a :: acts)
  end.

Lemma steps_cons st e l :
  steps st (e :: l) = ((steps (decide st e).1 l).1, (decide st e).2 :: (steps (decide st e).1 l).2).
Proof. cbn [steps]. destruct (decide st e) as [st' a]. cbn. by destruct (steps st' l). Qed.

Lemma steps_state st l :
  Forall (fun e => forced_failure e = false) l ->
  (steps st l).1 =
  loop_state (armed st && negb (existsb disarms l)) (conn_open st && negb (existsb ends l))
    (owner_watched st && negb (existsb owner_exited l))
    (exec_pending st && forallb (fun e => bool_decide (exec e = ENothing)) l) (test_hooks st).
Proof.
  intros H. revert st. induction H as [|e l Hf _ IH]; intros st.
  - cbn. rewrite !andb_true_r. by destruct st.
  - rewrite steps_cons. cbn [fst]. rewrite IH, decide_closed by done. cbn.
    by rewrite !negb_orb, !andb_assoc.
Qed.

Lemma steps_lookup st l i e :
  l !! i = Some e -> (steps st l).2 !! i = Some (decide (steps st (take i l)).1 e).2.
Proof.
  revert st i. induction l as [|x l IH]; intros st [|i] H; try done.
  - injection H as ->. by rewrite steps_cons.
  - cbn [take]. rewrite !steps_cons. cbn. by apply IH.
Qed.

(** Why a step kills, from the events alone. *)
Definition kill_cause (hooks : bool) (before : list Events) (e : Events) : bool :=
  signaled e || bool_decide (control e = CByte 75) || violates hooks (control e) ||
  ends e && negb (existsb disarms before) ||
  owner_exited e && negb (existsb owner_exited before) && negb (existsb disarms (before ++ [e])).

(** * Properties: the step *)

(** C16: supervision in closed form. In any run of the loop's steps, a step kills the program
    exactly when a signal reached the shim, cosca sent [K] or a byte outside the protocol, the
    connection ended with no [D] before, or the owner was first seen gone with no [D] up to and in
    this round; it terminates it exactly when cosca sent [T] and nothing kills; and the child is
    reaped exactly when it has exited. *)
Theorem decide_trace (hooks : bool) (l : list Events) (i : nat) (e : Events) :
  Forall (fun e => forced_failure e = false) l -> l !! i = Some e ->
  (steps (new hooks) l).2 !! i = Some (actions
    (if kill_cause hooks (take i l) e then Some ToKill
     else if bool_decide (control e = CByte 84) then Some ToTerm else None)
    (child_exited e) false (hooks && bool_decide (control e = CByte 80)) (violates hooks (control e))).
Proof.
  intros Hf Hi. rewrite (steps_lookup _ _ _ _ Hi).
  assert (forced_failure e = false) as He by by eapply Forall_lookup_1 in Hf.
  rewrite decide_closed, steps_state by (done || by apply Forall_take). cbn [snd armed test_hooks new andb].
  do 2 f_equal. unfold kills, kill_cause. cbn [armed owner_watched test_hooks andb].
  rewrite existsb_app. cbn [existsb]. rewrite orb_false_r, negb_orb.
  change (owner_watched (new hooks)) with true. rewrite andb_true_l. by rewrite !andb_assoc.
Qed.

Lemma decide_trace_witness :
  (steps (new false) [events (CByte 68) true false EEof false false; events CEof false true ENothing false false]).2 !! 1%nat =
  Some (actions None true false false false).
Proof.
  apply (decide_trace false [events (CByte 68) true false EEof false false; events CEof false true ENothing false false] 1
    (events CEof false true ENothing false false)); [by repeat constructor|done].
Defined.

(** * Lemmas: the status and the loop *)

#[local] Ltac Zify.zify_post_hook ::= Z.to_euclidean_division_equations.

Lemma land_ones_mod x n k : 0 <= n -> k = 2 ^ n - 1 -> Z.land x k = x mod 2 ^ n.
Proof. intros Hn ->. rewrite <- Z.land_ones by done. f_equal. by rewrite Z.ones_equiv. Qed.

Lemma exit_code_of_bounds ws : 0 <= exit_code_of ws < 256.
Proof.
  unfold exit_code_of. rewrite (land_ones_mod ws 7), (land_ones_mod (Z.shiftr ws 8) 8) by done.
  change (2 ^ 7) with 128. change (2 ^ 8) with 256. destruct (Z.eqb_spec (ws mod 128) 0); lia.
Qed.

Lemma decode_report_wf EIO v :
  1 <= EIO <= 0xffff -> wf_frame (FNotExecuted (decode_report EIO v)).
Proof.
  intros HE. unfold decode_report.
  assert (Forall is_u8 (70 :: to_le_bytes v)) as Hu.
  { constructor; [unfold is_u8; lia|]. unfold to_le_bytes, is_u8. repeat constructor; lia. }
  destruct (decode_frame_cases _ Hu) as [->|[->|(f & -> & _ & Hw)]]; [exact HE|exact HE|].
  destruct f; done.
Qed.

Lemma drain_status_wf EIO reads n :
  1 <= EIO <= 0xffff -> drain_status EIO reads = PReport n -> wf_frame (FNotExecuted n).
Proof.
  intros HE. induction reads as [|[v| | |[]] reads IH]; cbn [drain_status]; try done.
  intros [= <-]. by apply decode_report_wf.
Qed.

(** The kernel returns from [waitid], with signals a process can die of. *)
Definition wait_answer_ok (a : WaitAnswer) : Prop :=
  match a with
  | WSome s => forall signal, terminating_signal s = Some signal -> 0 < signal < 128
  | _ => True
  end.

Definition answered (r : Round) : Prop :=
  reap_child (waits r) <> None /\ Forall wait_answer_ok (waits r).

Lemma wait_status_bounds s ws :
  wait_answer_ok (WSome s) -> wait_status s = Some ws -> 0 <= ws < 65536.
Proof.
  unfold wait_status. intros Hs. destruct (exit_status s) as [code|].
  - intros [= <-]. rewrite Z.shiftl_mul_pow2, (land_ones_mod code 8) by done. change (2 ^ 8) with 256. lia.
  - cbn in Hs. destruct (terminating_signal s) as [n|]; cbn; [|done]. intros [= <-].
    specialize (Hs n eq_refl).
    assert (Z.lor n (if dumped s then 128 else 0) = n + (if dumped s then 128 else 0)) as ->.
    { destruct (dumped s); [|by rewrite Z.lor_0_r, Z.add_0_r].
      rewrite Z.lor_comm. change 128 with (Z.shiftl 1 7) at 1. rewrite lor_shift by lia. lia. }
    destruct (dumped s); lia.
Qed.

Lemma wait_on_bounds answers w rest :
  Forall wait_answer_ok answers -> wait_on answers = Some (w, rest) ->
  Forall wait_answer_ok rest /\ (forall ws, w = WaitStatus ws -> 0 <= ws < 65536).
Proof.
  induction 1 as [|a answers Ha Hl IH]; [done|]. destruct a as [s| |e]; cbn [wait_on].
  - intros [= <- <-]. split; [done|]. intros ws. destruct (wait_status s) eqn:E; [|done].
    intros [= <-]. by eapply wait_status_bounds.
  - by intros [= <- <-].
  - destruct e; [exact IH|by intros [= <- <-]..].
Qed.

Lemma reap_child_bounds r o ws :
  answered r -> reap_child (waits r) = Some o -> o = Some ws -> 0 <= ws < 65536.
Proof.
  intros [_ Ha] H ->. unfold reap_child in H.
  destruct (wait_on (waits r)) as [[w rest]|] eqn:E; cbn in H; [|done].
  destruct (wait_on_bounds _ _ _ Ha E) as [Hr Hw]. destruct w as [ws'| |]; [|done|].
  - injection H as <-. by apply Hw.
  - destruct (wait_on rest) as [[w' rest']|] eqn:E'; cbn in H; [|done].
    destruct (wait_on_bounds _ _ _ Hr E') as [_ Hw']. destruct w'; try done. injection H as <-. by apply Hw'.
Qed.

Lemma decide_lost st e : lost (decide st e).2 = forced_failure e.
Proof. destruct (forced_failure e) eqn:E; [|by rewrite decide_closed]. unfold decide. by rewrite E. Qed.

Lemma decide_reap st e : forced_failure e = false -> reap (decide st e).2 = child_exited e.
Proof. intros E. by rewrite decide_closed. Qed.

(** What a report holds can be sent. *)
Definition report_ok (report : option NotExecuted) : Prop := forall n, report = Some n -> wf_frame (FNotExecuted n).

Lemma run_round_spec EIO r st report st' report' sent ending :
  1 <= EIO <= 0xffff -> answered r -> report_ok report ->
  run_round EIO r st report = (st', report', sent, ending) ->
  report_ok report' /\
  match ending with
  | GoOn => child_ready r = false
  | Break None => False
  | Break (Some (reaped, lost)) =>
      reap_child (waits r) = Some reaped /\ (lost = true -> last sent = Some ToKill) /\
      (lost = false -> child_ready r = true)
  end.
Proof.
  intros HE [Ha _] Hr. unfold run_round, kill_and_reap.
  destruct (reap_child (waits r)) as [reaped|] eqn:Ew; [|done]. cbn [fmap option_fmap option_map].
  destruct (poll_fails r); [by intros [= <- <- <- <-]|].
  destruct (if _ || _ then _ else _) as [exec report2] eqn:Es.
  assert (report_ok report2) as Hr2.
  { destruct (_ || _); [|by injection Es as <- <-].
    destruct (drain_status EIO (status_reads r)) eqn:Ed; injection Es as <- <-; [|done|done].
    intros n [= <-]. by eapply drain_status_wf. }
  destruct (earlier_steps _ _) as [st2 sent2].
  set (e := events _ _ _ _ _ _). pose proof (decide_lost st2 e) as Hl. pose proof (decide_reap st2 e) as Hp.
  destruct (decide st2 e) as [st3 a]. cbn [snd] in *. rewrite Hl. subst e. cbn [forced_failure child_exited] in *.
  destruct (failure_ready r); [intros [= <- <- <- <-]; by rewrite last_snoc|].
  rewrite Hp by done. destruct (child_ready r); intros [= <- <- <- <-]; (split; [done|]); [by split_and!|done].
Qed.

Lemma run_spec EIO rounds final st report :
  1 <= EIO <= 0xffff -> Forall answered rounds -> report_ok report ->
  match run EIO rounds final st report with
  | (sent, Some f) =>
      report_ok (f_report f) /\ (f_lost f = true -> last sent = Some ToKill) /\
      exists r, r ∈ rounds /\ reap_child (waits r) = Some (f_reaped f) /\ (f_lost f = false -> child_ready r = true)
  | (_, None) => Forall (fun r => child_ready r = false) rounds
  end.
Proof.
  intros HE Ha. revert st report. induction Ha as [|r rounds Hr Ha IH]; intros st report Hok; [constructor|].
  cbn [run]. destruct (run_round EIO r st report) as [[[st' report'] sent] ending] eqn:E.
  destruct (run_round_spec _ _ _ _ _ _ _ _ HE Hr Hok E) as [Hok' Hend].
  destruct ending as [|[[reaped lost]|]]; [| |done].
  - specialize (IH st' report' Hok'). destruct (run EIO rounds final st' report') as [more [f|]].
    + destruct IH as (Hf & Hk & r' & Hin & Hreap). split_and!; [done| |].
      * intros Hl. rewrite last_app. by rewrite (Hk Hl).
      * exists r'. split; [by right|done].
    + by constructor.
  - destruct Hend as (Hw & Hk & Hc). cbn. split_and!; [|done|exists r; split; [by left|done]].
    destruct report' as [n|]; [done|]. destruct (drain_status EIO final) eqn:Ed; [|done|done].
    intros n [= <-]. by eapply drain_status_wf.
Qed.

(** * Properties: the loop *)

(** Supervision ends, with an answer cosca can read. When the kernel answers and the child
    exits in some round, the loop returns; if it gave up on supervising it killed the child first,
    otherwise the status is one collected after the child's exit was seen; the frame it concludes
    with is one the wire carries, and names a report exactly when there was one; and the exit code
    is a byte. *)
Theorem run_concludes (EIO : Z) (rounds : list Round) (final : list StatusRead) (hooks : bool) :
  1 <= EIO <= 0xffff -> Forall answered rounds -> (exists r, r ∈ rounds /\ child_ready r = true) ->
  exists sent f, run EIO rounds final (new hooks) None = (sent, Some f) /\
    (f_lost f = true -> last sent = Some ToKill) /\
    (exists r, r ∈ rounds /\ reap_child (waits r) = Some (f_reaped f) /\ (f_lost f = false -> child_ready r = true)) /\
    let v := conclude (f_report f) (f_reaped f) (f_lost f) in
    decode_frame (encode (frame v)) = Some (Ok (frame v)) /\
    (forall n, frame v = FNotExecuted n <-> f_report f = Some n) /\
    0 <= exit_code v < 256.
Proof.
  intros HE Ha (r0 & Hin & Hc). pose proof (run_spec EIO rounds final (new hooks) None HE Ha) as H.
  destruct (run EIO rounds final (new hooks) None) as [sent [f|]].
  2: { rewrite Forall_forall in H. specialize (H ltac:(done) r0 Hin). congruence. }
  destruct H as (Hr & Hk & r & Hr' & Hreap & Hl); [done|]. exists sent, f. split_and!; [done|done|by exists r|].
  cbn zeta. assert (forall ws, f_reaped f = Some ws -> 0 <= ws < 65536) as Hb.
  { intros ws Hws. rewrite Forall_forall in Ha. by eapply reap_child_bounds; [apply Ha|..]. }
  unfold conclude. destruct (f_report f) as [n|].
  - split; [by apply decode_encode, Hr|split; [|done]]. intros n'. cbn. split; congruence.
  - destruct (f_reaped f) as [ws|]; [specialize (Hb ws eq_refl)|by (split; [|split])]. destruct (f_lost f).
    + split; [apply decode_encode; cbn; lia|split; done].
    + split; [apply decode_encode; cbn; lia|split; [done|apply exit_code_of_bounds]].
Qed.

Definition demo_round : Round :=
  round false true false false true [] [ReadErr INTR; ReadZero] [RecvByte 84]
    [WErr INTR; WNone; WSome (wait_id_status None (Some 15) true)].

Lemma run_concludes_witness :
  exists sent f, run 5 [demo_round] [] (new false) None = (sent, Some f) /\ (f_lost f = true -> last sent = Some ToKill).
Proof.
  destruct (run_concludes 5 [demo_round] [] false) as (sent & f & H & Hk & _).
  - lia.
  - constructor; [|constructor]. split; [discriminate|].
    constructor; [done|constructor; [done|constructor; [|constructor]]].
    intros signal Hs. injection Hs as <-. lia.
  - exists demo_round. split; [by left|reflexivity].
  - exists sent, f. split; [exact H|exact Hk].
Defined.
