(* ===== verification/ShimLink.v ===== *)
(** Cosca's end of the shim's connection, [src/elevation/shim/link/]: the outcome of the bytes read
    ([outcome.rs]), the state the acceptor and the callers share ([state.rs], [link.rs]) and the
    acceptor thread ([acceptor.rs]).

    Each operation holds the state's lock from its first line to its last, so threads interleave at
    the granularity of an operation: a run is a list of operations. What the kernel answers is an
    argument; a connection is its number; [sent] logs the bytes that reached a peer. [None] is a
    panic. Test probes, logs and the settled pipe are left out. *)
From S2P Require Import Prelude ShimProtocol ShimStep.
Local Open Scope Z_scope.

(** * The outcome *)

Inductive AcceptorFailure := AErrno (n : Z) | Panicked.

Inductive NotStartedCause :=
| Withheld
| AcceptorFailed (f : AcceptorFailure)
| CNotExecuted (n : NotExecuted)
| ShimRefused (r : Refusal).

Record NotStarted := not_started { shim_connected : bool; cause : NotStartedCause }.

Inductive LinkOutcome :=
| Exited (ws : Z)
| ONotStarted (n : NotStarted)
| SupervisionLost (ws : Z)
| OStatusLost
| ShimLost.

Definition program_is_gone (o : LinkOutcome) : bool := match o with ShimLost => false | _ => true end.

Definition outcome_of (decoded : result FrameError Frame) (eof : bool) : option LinkOutcome :=
  match decoded with
  | Ok Hello => Some ShimLost
  | Ok (Status ws) => Some (Exited ws)
  | Ok (Lost ws) => Some (SupervisionLost ws)
  | Ok StatusLost => Some OStatusLost
  | Ok (FNotExecuted n) => Some (ONotStarted (not_started true (CNotExecuted n)))
  | Ok (Refused r) => Some (ONotStarted (not_started true (ShimRefused r)))
  | Err Garbled => Some ShimLost
  | Err Truncated => if eof then Some ShimLost else None
  end.

Definition classify (b : bytes) (eof : bool) : option (option LinkOutcome) :=
  d ← decode_frame b; Some (outcome_of d eof).

Inductive KillOutcome := Delivered | AlreadyEnded | RefusedStart.

Inductive KillError := KShimLost | Unkillable | KNotOwner | KIo.

Inductive Origin := Original | Copy | Unknown.

Inductive NotOwner := not_owner.

Inductive WaitError := WNotOwner (e : NotOwner) | WPoll.

Definition owner_check (origin : Origin) : result NotOwner unit :=
  match origin with Original => Ok () | _ => Err not_owner end.

(** * The shared state *)

Inductive StartState := Pending | Live | RefusedS.

#[global] Instance StartState_eq_dec : EqDecision StartState.
Proof. solve_decision. Defined.

Abbreviation Conn := Z.

(** [Inner] and the connection of [Shared]; [frame] is [frame[..frame_len]]. *)
Record Shared := shared {
  start : StartState;
  hello_seen : bool;
  frame : bytes;
  outcome : option LinkOutcome;
  failure : option AcceptorFailure;
  unlinked : bool;
  conn : option Conn;
  sent : list (Conn * Z);
}.

Definition new_shared : Shared := shared Pending false [] None None false None [].

Definition set_start (s : Shared) (v : StartState) : Shared :=
  shared v (hello_seen s) (frame s) (outcome s) (failure s) (unlinked s) (conn s) (sent s).

Definition set_hello_seen (s : Shared) : Shared :=
  shared (start s) true (frame s) (outcome s) (failure s) (unlinked s) (conn s) (sent s).

Definition set_frame (s : Shared) (v : bytes) : Shared :=
  shared (start s) (hello_seen s) v (outcome s) (failure s) (unlinked s) (conn s) (sent s).

Definition set_outcome (s : Shared) (v : LinkOutcome) : Shared :=
  shared (start s) (hello_seen s) (frame s) (Some v) (failure s) (unlinked s) (conn s) (sent s).

Definition unlink (s : Shared) : Shared :=
  shared (start s) (hello_seen s) (frame s) (outcome s) (failure s) true (conn s) (sent s).

(** A byte that reached [c]. *)
Definition deliver (s : Shared) (c : Conn) (byte : Z) (ok : bool) : Shared :=
  if ok then shared (start s) (hello_seen s) (frame s) (outcome s) (failure s) (unlinked s) (conn s) (sent s ++ [(c, byte)])
  else s.

Definition refuse_pending_in_memory (s : Shared) (locked : bool) : Shared :=
  if locked then s else if bool_decide (start s = Pending) then set_start s RefusedS else s.

Definition refuse_pending (s : Shared) : Shared :=
  if bool_decide (start s = Pending) then unlink (set_start s RefusedS) else s.

Definition fail_closed (s : Shared) (f : AcceptorFailure) : Shared :=
  match start s with
  | Pending | RefusedS =>
      refuse_pending (shared (start s) (hello_seen s) (frame s) (outcome s)
        (Some (default f (failure s))) (unlinked s) (conn s) (sent s))
  | Live => unlink s
  end.

Definition deny (s : Shared) (c : Conn) (ok : bool) : Shared := deliver s c (encode_command Deny) ok.

(** [answer_hello]; [ok]: whether the answer could be sent. *)
Definition answer_hello (s : Shared) (c : Conn) (ok : bool) : Shared :=
  let s := set_hello_seen s in
  if bool_decide (start s = Pending) then
    if ok then
      let s := deliver s c (encode_command Allow) true in
      let s := set_start s Live in
      let s := shared (start s) (hello_seen s) (frame s) (outcome s) (failure s) (unlinked s)
                 (match conn s with Some c' => Some c' | None => Some c end) (sent s) in
      unlink s
    else refuse_pending s
  else deny s c ok.

(** What one nonblocking read found; no more answers is [Empty]. *)
Inductive Read := RBytes (b : bytes) | REof | REmpty | RFailed.

(** [read_frame], once the connection is known to be there. *)
Fixpoint read_loop (s : Shared) (reads : list Read) : option Shared :=
  match outcome s, reads with
  | Some _, _ => Some s
  | None, [] | None, REmpty :: _ => Some s
  | None, RBytes b :: rest =>
      let s := set_frame s (frame s ++ b) in
      o ← classify (frame s) false;
      match o with Some o => Some (set_outcome s o) | None => read_loop s rest end
  | None, REof :: _ =>
      o ← classify (frame s) true;
      Some (match o with Some o => set_outcome s o | None => s end)
  | None, RFailed :: _ => Some (set_outcome s ShimLost)
  end.

Definition read_frame (s : Shared) (reads : list Read) : option Shared :=
  _ ← conn s; read_loop s reads.

Definition settle (s : Shared) (reads : list Read) : option (Shared * option LinkOutcome) :=
  s' ← (match outcome s with
        | Some _ => Some s
        | None =>
            let s := refuse_pending s in
            if bool_decide (start s = RefusedS) then
              let cause := match failure s with None => Withheld | Some f => AcceptorFailed f end in
              Some (set_outcome s (ONotStarted (not_started (hello_seen s) cause)))
            else read_frame s reads
        end);
  Some (s', outcome s').

(** [wait]: each round is what its reads find and whether the poll after it fails; [None] in the
    answer while the last poll has not returned. *)
Fixpoint wait (s : Shared) (rounds : list (list Read * bool)) : option (Shared * option (result unit LinkOutcome)) :=
  match rounds with
  | [] => Some (s, None)
  | (reads, poll_fails) :: rest =>
      '(s, o) ← settle s reads;
      match o with
      | Some o => Some (s, Some (Ok o))
      | None => _ ← conn s; if poll_fails then Some (s, Some (Err ())) else wait s rest
      end
  end.

Definition observe (s : Shared) (reads : list Read)
    : option (Shared * (StartState * option LinkOutcome * option AcceptorFailure)) :=
  s ← (match start s, outcome s with Live, None => read_frame s reads | _, _ => Some s end);
  Some (s, (start s, outcome s, failure s)).

(** How a send fails: [PIPE], [CONNRESET] or [NOTCONN]; [AGAIN] or [NOBUFS]; another error. *)
Inductive SendError := SendGone | SendFull | SendOther.

Definition kill (s : Shared) (sending : option SendError) (reads : list Read)
    : option (Shared * result KillError KillOutcome) :=
  if negb (bool_decide (start s = Live)) then Some (refuse_pending s, Ok RefusedStart)
  else
    match outcome s with
    | Some ShimLost => Some (s, Err KShimLost)
    | Some _ => Some (s, Ok AlreadyEnded)
    | None =>
        c ← conn s;
        match sending with
        | None => Some (deliver s c (encode_command Kill) true, Ok Delivered)
        | Some SendGone =>
            s ← read_frame s reads;
            Some (s, match outcome s with
                     | Some o => if program_is_gone o then Ok AlreadyEnded else Err KShimLost
                     | None => Err KShimLost
                     end)
        | Some SendFull => Some (s, Err Unkillable)
        | Some SendOther => Some (s, Err KIo)
        end
    end.

(** [ShimLink::release]'s effect on the state. *)
Definition release (s : Shared) (origin : Origin) (locked : bool) : Shared :=
  match origin with
  | Original => refuse_pending s
  | Copy => s
  | Unknown => refuse_pending_in_memory s locked
  end.

(** * The operations, in any order *)

Inductive Op :=
| OpHello (c : Conn) (ok : bool)
| OpDeny (c : Conn) (ok : bool)
| OpFail (f : AcceptorFailure)
| OpSettle (reads : list Read)
| OpObserve (reads : list Read)
| OpKill (sending : option SendError) (reads : list Read)
| OpRelease (origin : Origin) (locked : bool).

Definition step (s : Shared) (op : Op) : option Shared :=
  match op with
  | OpHello c ok => Some (answer_hello s c ok)
  | OpDeny c ok => Some (deny s c ok)
  | OpFail f => Some (fail_closed s f)
  | OpSettle reads => fst <$> settle s reads
  | OpObserve reads => fst <$> observe s reads
  | OpKill sending reads => fst <$> kill s sending reads
  | OpRelease origin locked => Some (release s origin locked)
  end.

Fixpoint steps (s : Shared) (ops : list Op) : option Shared :=
  match ops with
  | [] => Some s
  | op :: rest => s ← step s op; steps s rest
  end.

(** [ShimLink]'s calls: only the process that bound the link makes them. *)
Definition link_kill (s : Shared) (origin : Origin) (sending : option SendError) (reads : list Read)
    : option (Shared * result KillError KillOutcome) :=
  match owner_check origin with Ok _ => kill s sending reads | Err _ => Some (s, Err KNotOwner) end.

Definition link_wait (s : Shared) (origin : Origin) (rounds : list (list Read * bool))
    : option (Shared * option (result WaitError LinkOutcome)) :=
  match owner_check origin with
  | Err e => Some (s, Some (Err (WNotOwner e)))
  | Ok _ =>
      match wait s rounds with
      | None => None
      | Some (s, None) => Some (s, None)
      | Some (s, Some (Ok o)) => Some (s, Some (Ok o))
      | Some (s, Some (Err _)) => Some (s, Some (Err WPoll))
      end
  end.

Definition link_try_wait (s : Shared) (origin : Origin) (reads : list Read)
    : option (Shared * result NotOwner (option LinkOutcome)) :=
  match owner_check origin with
  | Err e => Some (s, Err e)
  | Ok _ => '(s, o) ← settle s reads; Some (s, Ok o)
  end.

Definition link_observe (s : Shared) (origin : Origin) (reads : list Read)
    : option (Shared * result NotOwner (StartState * option LinkOutcome * option AcceptorFailure)) :=
  match owner_check origin with
  | Err e => Some (s, Err e)
  | Ok _ => '(s, o) ← observe s reads; Some (s, Ok o)
  end.

(** * The acceptor *)

Section acceptor.
Context (peer_euid : Z).

(** What [accept] and reading the peer's credentials gave: a connection and its euid. *)
Inductive Accepted := AConn (c : Conn) (peer : option Z) | ANone | AInterrupted | AError (errno : Z).

Definition admit_conn (pending : list Conn) (c : Conn) (peer : option Z) : list Conn :=
  match peer with
  | None => pending
  | Some uid => if negb (uid =? peer_euid) then pending else pending ++ [c]
  end.

Fixpoint accept_all (pending : list Conn) (answers : list Accepted) : list Conn * result AcceptorFailure unit :=
  match answers with
  | [] | ANone :: _ => (pending, Ok ())
  | AConn c peer :: rest => accept_all (admit_conn pending c peer) rest
  | AInterrupted :: rest => accept_all pending rest
  | AError errno :: _ => (pending, Err (AErrno errno))
  end.

(** What the kernel answers for a connection: its hello, and whether an answer can be sent. *)
Context (hello : Conn -> Read) (sendable : Conn -> bool).

Fixpoint say_hellos (ready : list bool) (pending : list Conn) : list Op * list Conn :=
  match pending with
  | [] => ([], [])
  | c :: rest =>
      let '(ops, kept) := say_hellos (tail ready) rest in
      if negb (default false (head ready)) then (ops, c :: kept)
      else
        match hello c with
        | RBytes (b :: _) => if b =? 72 then (OpHello c (sendable c) :: ops, kept) else (ops, kept)
        | RBytes [] => (ops, kept)
        | REof | RFailed => (ops, kept)
        | REmpty => (ops, c :: kept)
        end
  end.

Definition drain (pending : list Conn) : list Op := (fun c => OpDeny c (sendable c)) <$> pending.

(** One round: the poll's answer (an error, or whether the wake pipe, the listener and the pending
    peers are ready), whether the owner asked to stop, and what [accept] gives. *)
Record AcceptRound := accept_round {
  poll : result Z (bool * bool * list bool);
  is_stopping : bool;
  answers : list Accepted;
}.

(** [serve] over the rounds: the operations on the shared state, and how it ended. *)
Fixpoint serve (rounds : list AcceptRound) (pending : list Conn) : list Op * option (result AcceptorFailure unit) :=
  match rounds with
  | [] => ([], None)
  | r :: rest =>
      match poll r with
      | Err errno => ([], Some (Err (AErrno errno)))
      | Ok (woken, incoming, ready) =>
          let stop := woken && is_stopping r in
          let '(pending, accepted) := if incoming || stop then accept_all pending (answers r) else (pending, Ok ()) in
          if stop then (drain pending, Some (Ok ()))
          else
            match accepted with
            | Err f => ([], Some (Err f))
            | Ok _ =>
                let '(ops, pending) := say_hellos ready pending in
                let '(more, ending) := serve rest pending in
                (ops ++ more, ending)
            end
      end
  end.

(** [acceptor::run]: a failure refuses the start. *)
Definition run_acceptor (rounds : list AcceptRound) : list Op :=
  let '(ops, ending) := serve rounds [] in
  match ending with Some (Err f) => ops ++ [OpFail f] | _ => ops end.

End acceptor.

(** * Lemmas: the state *)

(** The start was refused, so the program never ran. *)
Definition withheld (o : LinkOutcome) : bool :=
  match o with
  | ONotStarted n => match cause n with Withheld | AcceptorFailed _ => true | _ => false end
  | _ => false
  end.

Lemma outcome_of_withheld d eof o : outcome_of d eof = Some o -> withheld o = false.
Proof. destruct d as [[]|[]], eof; cbn; intros H; try done; by injection H as <-. Qed.

Definition read_ok (r : Read) : Prop := match r with RBytes b => Forall is_u8 b | _ => True end.

(** The answers [A] that reached a peer. *)
Definition allows (s : Shared) : list (Conn * Z) := filter (fun p => p.2 = 65) (sent s).

(** What holds between operations. *)
Definition inv (s : Shared) : Prop :=
  Forall is_u8 (frame s) /\
  (start s = Live <-> is_Some (conn s)) /\
  allows s = match conn s with Some c => [(c, 65)] | None => [] end /\
  match outcome s with
  | Some o => start s <> Pending /\ withheld o = bool_decide (start s = RefusedS)
  | None => decode_frame (frame s) = Some (Err Truncated)
  end.

(** What no operation undoes. *)
Definition evolves (s s' : Shared) : Prop :=
  (start s <> Pending -> start s' = start s) /\ (forall o, outcome s = Some o -> outcome s' = Some o).

#[local] Instance evolves_refl : Reflexive evolves.
Proof. by split. Qed.

#[local] Instance evolves_trans : Transitive evolves.
Proof.
  intros s1 s2 s3 [H1 H2] [H3 H4]. split; [|by auto]. intros Hs. rewrite H3, H1; [done|done|]. by rewrite H1.
Qed.

Lemma read_loop_ok s reads :
  inv s -> start s = Live -> Forall read_ok reads ->
  exists s', read_loop s reads = Some s' /\ inv s' /\ evolves s s' /\ conn s' = conn s.
Proof.
  intros Hi Hs Hr. revert s Hi Hs. induction Hr as [|r reads Hr Hrs IH]; intros s Hi Hs.
  { exists s. split; [|split; [done|split; [reflexivity|done]]]. cbn. by destruct (outcome s). }
  pose proof Hi as (Hu & Hc & Ha & Ho). cbn [read_loop]. destruct (outcome s) as [o|] eqn:Eo.
  { exists s. split; [done|]. split; [done|]. by split; [reflexivity|]. }
  assert (forall b o, Forall is_u8 b -> withheld o = false ->
    inv (set_outcome (set_frame s b) o) /\ evolves s (set_outcome (set_frame s b) o)) as Hset.
  { intros b o Hb Hw. split; [|split; [done|by rewrite Eo]]. unfold inv, allows, set_outcome, set_frame. cbn.
    split; [done|]. split; [done|]. split; [done|]. rewrite Hs. split; [done|]. by rewrite Hw. }
  destruct r as [b| | |].
  - cbn in Hr. assert (Forall is_u8 (frame s ++ b)) as Hb by by apply Forall_app.
    unfold classify. cbn [frame set_frame].
    destruct (decode_frame (frame s ++ b)) as [d|] eqn:Ed.
    2: { destruct (decode_frame_cases _ Hb) as [?|[?|(f & ? & _)]]; congruence. }
    cbn. destruct (outcome_of d false) as [o|] eqn:Ec.
    + destruct (Hset (frame s ++ b) o Hb) as [Hi' He']; [by eapply outcome_of_withheld|]. eexists. by split_and!.
    + assert (d = Err Truncated) as -> by by destruct d as [[]|[]].
      destruct (IH (set_frame s (frame s ++ b))) as (s' & E & Hi' & He' & Hcn).
      * unfold inv, allows, set_frame. cbn. by rewrite Eo.
      * done.
      * exists s'. split; [done|]. split; [done|]. split; [|done]. etransitivity; [|exact He'].
        split; [done|]. by rewrite Eo.
  - unfold classify. rewrite Ho. cbn. destruct (Hset (frame s) ShimLost Hu eq_refl) as [Hi' He'].
    eexists. split; [done|]. destruct s. by split_and!.
  - exists s. split; [done|]. split; [done|]. by split; [reflexivity|].
  - destruct (Hset (frame s) ShimLost Hu eq_refl) as [Hi' He']. eexists. split; [done|]. destruct s. by split_and!.
Qed.

(** A step that keeps the invariant and undoes nothing, and whose connection is old or [who]'s. *)
Definition good_step (who : option Conn) (s : Shared) (r : option Shared) : Prop :=
  exists s', r = Some s' /\ inv s' /\ evolves s s' /\ (conn s' = conn s \/ exists c, who = Some c /\ conn s' = Some c).

Lemma good_step_same s : inv s -> forall who, good_step who s (Some s).
Proof. intros Hi who. exists s. split; [done|]. split; [done|]. split; [reflexivity|by left]. Qed.

Lemma inv_conn_None s : inv s -> start s <> Live -> conn s = None.
Proof. intros (_ & Hc & _) Hs. destruct (conn s); [|done]. exfalso. apply Hs, Hc. eauto. Qed.

Lemma inv_conn_Some s : inv s -> start s = Live -> exists c, conn s = Some c.
Proof. intros (_ & Hc & _) Hs. by apply Hc. Qed.

Lemma inv_pending s : inv s -> start s = Pending -> outcome s = None.
Proof. intros (_ & _ & _ & Ho) Hs. destruct (outcome s); [|done]. destruct Ho; done. Qed.

(** Any change of the fields the invariant does not name. *)
Lemma inv_other s b1 f b2 :
  inv s -> inv (shared (start s) b1 (frame s) (outcome s) f b2 (conn s) (sent s)).
Proof. done. Qed.

Lemma refuse_pending_ok s :
  inv s ->
  inv (refuse_pending s) /\ evolves s (refuse_pending s) /\ conn (refuse_pending s) = conn s /\
  start (refuse_pending s) <> Pending /\ outcome (refuse_pending s) = outcome s.
Proof.
  intros Hi. unfold refuse_pending. case_bool_decide as Hs; [|by split_and!].
  pose proof (inv_conn_None s Hi ltac:(congruence)) as Hn. pose proof (inv_pending s Hi Hs) as Ho.
  destruct Hi as (Hu & Hc & Ha & Hd). split; [|split; [|done]].
  - unfold inv, allows in *. cbn. rewrite Ho, Hn in *. split; [done|]. split; [|done]. split; [done|by intros []].
  - split; [done|]. cbn. by rewrite Ho.
Qed.

Lemma good_refuse who s : inv s -> good_step who s (Some (refuse_pending s)).
Proof. intros Hi. destruct (refuse_pending_ok s Hi) as (? & ? & ? & _). eexists. eauto. Qed.

Lemma settle_ok who s reads :
  inv s -> Forall read_ok reads -> good_step who s (fst <$> settle s reads).
Proof.
  intros Hi Hr. unfold settle. destruct (outcome s) as [o|] eqn:Eo; [by apply good_step_same|].
  destruct (refuse_pending_ok s Hi) as (Hi1 & He1 & Hc1 & Hp1 & Ho1). rewrite Eo in Ho1.
  set (s1 := refuse_pending s) in *. clearbody s1. cbv zeta. case_bool_decide as Hs1.
  - eexists. split; [done|]. split; [|split; [|by left]].
    + destruct Hi1 as (Hu & Hc & Ha & Hd). unfold inv, allows. cbn. rewrite Hs1.
      split; [done|]. split; [by rewrite <- Hs1|]. split; [done|]. split; [done|]. by destruct (failure s1).
    + etransitivity; [exact He1|]. split; [done|]. by rewrite Ho1.
  - assert (start s1 = Live) as Hl by by destruct (start s1). unfold read_frame.
    destruct (inv_conn_Some s1 Hi1 Hl) as [c Ec]. rewrite Ec. cbn.
    destruct (read_loop_ok s1 reads Hi1 Hl Hr) as (s2 & -> & Hi2 & He2 & Hc2). eexists. split; [done|].
    split; [done|]. split; [by etransitivity|left; cbn; congruence].
Qed.

Lemma observe_ok who s reads :
  inv s -> Forall read_ok reads -> good_step who s (fst <$> observe s reads).
Proof.
  intros Hi Hr. unfold observe. destruct (start s) eqn:Es; try by apply good_step_same.
  destruct (outcome s); [by apply good_step_same|]. unfold read_frame.
  destruct (inv_conn_Some s Hi Es) as [c Ec]. rewrite Ec. cbn.
  destruct (read_loop_ok s reads Hi Es Hr) as (s2 & -> & Hi2 & He2 & Hc2). eexists. split; [done|]. eauto.
Qed.

Lemma inv_deliver s c b ok : inv s -> b <> 65 -> inv (deliver s c b ok) /\ evolves s (deliver s c b ok).
Proof.
  intros (Hu & Hc & Ha & Ho) Hb. destruct ok; [|done]. split; [|by split]. unfold inv, allows in *. cbn.
  rewrite filter_app, filter_cons_False by (cbn; congruence). by rewrite app_nil_r.
Qed.

Lemma kill_ok who s sending reads :
  inv s -> Forall read_ok reads -> good_step who s (fst <$> kill s sending reads).
Proof.
  intros Hi Hr. unfold kill. case_bool_decide as Es; cbn [negb]; [|by apply good_refuse].
  destruct (outcome s) as [[]|] eqn:Eo; try by apply good_step_same.
  destruct (inv_conn_Some s Hi Es) as [c Ec]. rewrite Ec. cbn.
  destruct sending as [[]|]; try by apply good_step_same.
  - unfold read_frame. rewrite Ec. cbn.
    destruct (read_loop_ok s reads Hi Es Hr) as (s2 & -> & Hi2 & He2 & Hc2). eexists. split; [done|]. eauto.
  - destruct (inv_deliver s c 75 true Hi) as [? ?]; [done|]. eexists. split; [done|]. split; [done|].
    split; [done|by left].
Qed.

Lemma fail_closed_ok who s f : inv s -> good_step who s (Some (fail_closed s f)).
Proof.
  intros Hi. unfold fail_closed.
  assert (forall v, good_step who s (Some (refuse_pending (shared (start s) (hello_seen s) (frame s) (outcome s) v
    (unlinked s) (conn s) (sent s))))) as H.
  { intros v. edestruct (refuse_pending_ok (shared (start s) (hello_seen s) (frame s) (outcome s) v
      (unlinked s) (conn s) (sent s))) as (Hi2 & He & Hc & _); [by apply inv_other|].
    eexists. split; [done|]. split; [done|]. split; [exact He|by left]. }
  destruct (start s) eqn:Es; [apply H| |apply H].
  eexists. split; [done|]. split; [by apply inv_other|]. by split; [|left].
Qed.

Lemma answer_hello_ok s c (ok : bool) : inv s -> good_step (if ok then Some c else None) s (Some (answer_hello s c ok)).
Proof.
  intros Hi. unfold answer_hello. assert (inv (set_hello_seen s)) as Hi1 by by apply inv_other.
  cbn [start set_hello_seen]. case_bool_decide as Es.
  - destruct ok.
    + pose proof (inv_conn_None s Hi ltac:(congruence)) as Hn. pose proof (inv_pending s Hi Es) as Ho.
      destruct Hi as (Hu & Hc & Ha & Hd). rewrite Ho, Hn in *. eexists. split; [done|]. split; [|split].
      * unfold inv, allows in *. cbn. rewrite Ho, Hn, filter_app, Ha. split; [done|]. split; [|done].
        split; [eauto|done].
      * split; [done|]. by rewrite Ho.
      * right. exists c. cbn. by rewrite Hn.
    + destruct (refuse_pending_ok _ Hi1) as (? & ? & ? & _). eexists. split; [done|]. by eauto.
  - destruct (inv_deliver (set_hello_seen s) c 78 ok Hi1) as [? ?]; [done|]. eexists. split; [done|].
    split; [done|]. split; [done|]. left. by destruct ok.
Qed.

Lemma release_ok who s origin locked : inv s -> good_step who s (Some (release s origin locked)).
Proof.
  intros Hi. destruct origin; [by apply good_refuse|by apply good_step_same|].
  cbn [release]. unfold refuse_pending_in_memory. destruct locked; [by apply good_step_same|].
  destruct (refuse_pending_ok s Hi) as (Hi2 & He & Hc & _). unfold refuse_pending in *.
  case_bool_decide; [|by apply good_step_same]. exists (set_start s RefusedS). split; [done|]. eauto.
Qed.

Definition op_ok (op : Op) : Prop :=
  match op with OpSettle reads | OpObserve reads | OpKill _ reads => Forall read_ok reads | _ => True end.

Definition hello_of (op : Op) : option Conn := match op with OpHello c true => Some c | _ => None end.

Lemma step_ok s op : inv s -> op_ok op -> good_step (hello_of op) s (step s op).
Proof.
  intros Hi Ho. destruct op as [c ok|c ok|f|reads|reads|sending reads|origin locked]; cbn [step].
  - exact (answer_hello_ok s c ok Hi).
  - destruct (inv_deliver s c 78 ok Hi) as [? ?]; [done|]. eexists. split; [done|]. split; [done|].
    split; [done|]. left. by destruct ok.
  - by apply fail_closed_ok.
  - by apply settle_ok.
  - by apply observe_ok.
  - by apply kill_ok.
  - by apply release_ok.
Qed.

Lemma steps_ok s ops :
  inv s -> Forall op_ok ops ->
  exists s', steps s ops = Some s' /\ inv s' /\ evolves s s' /\
    (conn s' = conn s \/ exists c, conn s' = Some c /\ OpHello c true ∈ ops).
Proof.
  intros Hi Ho. revert s Hi. induction Ho as [|op ops Hop Ho IH]; intros s Hi.
  - exists s. split; [done|]. split; [done|]. split; [reflexivity|by left].
  - destruct (step_ok s op Hi Hop) as (s1 & E & Hi1 & He1 & Hc1). cbn [steps]. rewrite E. cbn.
    destruct (IH s1 Hi1) as (s2 & -> & Hi2 & He2 & Hc2). exists s2. split; [done|]. split; [done|].
    split; [by etransitivity|]. destruct Hc2 as [Hc2|(c & Hc2 & Hin)]; [|right; exists c; split; [done|by right]].
    destruct Hc1 as [Hc1|(c & Hw & Hc1)]; [left; congruence|]. right. exists c. split; [congruence|].
    destruct op as [c' []| | | | | |]; try done. injection Hw as ->. by left.
Qed.

Lemma new_inv : inv new_shared.
Proof. unfold inv. cbn. split; [done|]. split; [|done]. split; [done|by intros []]. Qed.

(** * Lemmas: the acceptor *)

Lemma accept_all_elem peer_euid pending answers c :
  c ∈ (accept_all peer_euid pending answers).1 -> c ∈ pending \/ AConn c (Some peer_euid) ∈ answers.
Proof.
  revert pending. induction answers as [|[c' peer| | |errno] answers IH]; intros pending; cbn [accept_all]; try by left.
  - intros [H|H]%IH; [|right; by right]. unfold admit_conn in H. destruct peer as [uid|]; [|by left].
    destruct (Z.eqb_spec uid peer_euid) as [->|]; cbn in H; [|by left].
    apply elem_of_app in H as [H| ->%list_elem_of_singleton]; [by left|right; by left].
  - intros [H|H]%IH; [by left|right; by right].
Qed.

Lemma say_hellos_elem hello sendable ready pending :
  (forall c ok, OpHello c ok ∈ (say_hellos hello sendable ready pending).1 ->
   c ∈ pending /\ exists rest, hello c = RBytes (72 :: rest)) /\
  (forall c, c ∈ (say_hellos hello sendable ready pending).2 -> c ∈ pending).
Proof.
  revert ready. induction pending as [|x pending IH]; intros ready; cbn [say_hellos].
  { split; [intros c ok H|intros c H]; by apply not_elem_of_nil in H. }
  specialize (IH (tail ready)). destruct (say_hellos hello sendable (tail ready) pending) as [ops kept].
  cbn [fst snd] in IH. destruct IH as [IH1 IH2].
  assert (forall c ok, OpHello c ok ∈ ops -> c ∈ x :: pending /\ exists rest, hello c = RBytes (72 :: rest)) as H1.
  { intros c ok [? ?]%IH1. split; [by right|done]. }
  assert (forall c, c ∈ kept -> c ∈ x :: pending) as H2 by (intros c ?%IH2; by right).
  assert (forall c, c ∈ x :: kept -> c ∈ x :: pending) as H3.
  { intros c [->|?]%elem_of_cons; [by left|by apply H2]. }
  destruct (negb _); [done|]. destruct (hello x) as [[|b rest]| | |] eqn:E; try done.
  destruct (Z.eqb_spec b 72) as [->|]; [|done].
  split; [|done]. intros c ok [[= -> _]|?]%elem_of_cons; [split; [by left|eauto]|by eapply H1].
Qed.

Lemma serve_elem peer_euid hello sendable rounds pending c ok :
  OpHello c ok ∈ (serve peer_euid hello sendable rounds pending).1 ->
  (c ∈ pending \/ exists r, r ∈ rounds /\ AConn c (Some peer_euid) ∈ answers r) /\
  exists rest, hello c = RBytes (72 :: rest).
Proof.
  revert pending. induction rounds as [|r rounds IH]; intros pending; cbn [serve].
  { intros H. by apply not_elem_of_nil in H. }
  destruct (poll r) as [[[woken incoming] ready]|]; [|intros H; by apply not_elem_of_nil in H].
  cbv zeta. destruct (if _ || _ then _ else _) as [pending1 accepted] eqn:Ea.
  assert (forall c, c ∈ pending1 -> c ∈ pending \/ AConn c (Some peer_euid) ∈ answers r) as Hp.
  { intros c'. destruct (_ || _); [|injection Ea as <- _; by left].
    pose proof (accept_all_elem peer_euid pending (answers r) c') as H. by rewrite Ea in H. }
  destruct (woken && is_stopping r).
  { unfold drain. cbn [fst]. intros (? & ? & _)%list_elem_of_fmap. done. }
  destruct accepted as [u|f]; [|intros H; by apply not_elem_of_nil in H].
  destruct (say_hellos hello sendable ready pending1) as [ops pending2] eqn:Eh.
  pose proof (say_hellos_elem hello sendable ready pending1) as [H1 H2]. rewrite Eh in H1, H2. cbn [fst snd] in *.
  specialize (IH pending2). destruct (serve peer_euid hello sendable rounds pending2) as [more ending].
  cbn [fst] in *. intros [H|H]%elem_of_app.
  - destruct (H1 c ok H) as [[?|?]%Hp ?]; (split; [|done]); [by left|]. right. exists r. split; [by left|done].
  - destruct (IH H) as [[Hin|(r' & ? & ?)] ?]; (split; [|done]).
    + apply H2, Hp in Hin as [?|?]; [by left|]. right. exists r. split; [by left|done].
    + right. exists r'. split; [by right|done].
Qed.

(** * Lemmas: the frame arrives *)

(** What the link has when [got] of [f]'s bytes have arrived. *)
Definition received (f : Frame) (s : Shared) (got : bytes) : Prop :=
  inv s /\ start s = Live /\
  if bool_decide (got = encode f) then outcome s = outcome_of (Ok f) false
  else outcome s = None /\ frame s = got.

Lemma outcome_of_Ok f : exists o, outcome_of (Ok f) false = Some o.
Proof. destruct f; cbn; eauto. Qed.

Lemma encode_not_nil f : encode f <> [].
Proof. by destruct f as [| | | |[]|]. Qed.

Lemma read_loop_received f s got chunks :
  wf_frame f -> received f s got -> got ++ concat chunks `prefix_of` encode f ->
  exists s', read_loop s (RBytes <$> chunks) = Some s' /\ received f s' (got ++ concat chunks).
Proof.
  intros Hw. revert s got. induction chunks as [|b chunks IH]; intros s got Hr Hp.
  - exists s. cbn [concat] in *. rewrite app_nil_r. split; [|done]. cbn. by destruct (outcome s).
  - destruct (outcome_of_Ok f) as [o Eo]. destruct Hr as (Hi & Hs & Ho). case_bool_decide as Eg.
    + assert (concat (b :: chunks) = []) as En.
      { destruct Hp as [t Ht]. rewrite Eg, <- app_assoc in Ht. symmetry in Ht.
        apply (f_equal length) in Ht. rewrite !length_app in Ht. apply length_zero_iff_nil. lia. }
      exists s. rewrite En, app_nil_r. split; [cbn -[outcome_of]; by rewrite Ho, Eo|].
      split; [done|]. split; [done|]. by rewrite bool_decide_true.
    + destruct Ho as [Ho Hf]. cbn [concat] in *. rewrite app_assoc in *.
      assert (got ++ b `prefix_of` encode f) as Hb by (etransitivity; [|exact Hp]; by apply prefix_app_r).
      pose proof (encode_u8 f Hw) as Hu. destruct Hb as [r Er].
      assert (Forall is_u8 (got ++ b) /\ Forall is_u8 r) as [Hub Hur] by (rewrite Er in Hu; by apply Forall_app).
      rewrite fmap_cons. cbn [read_loop]. rewrite Ho. cbn [frame set_frame]. unfold classify. rewrite Hf.
      assert (exists s', read_loop s [RBytes b] = Some s' /\ inv s' /\ start s' = Live) as (s' & E & Hi' & Hs').
      { destruct (read_loop_ok s [RBytes b] Hi Hs) as (s' & E & Hi' & [He _] & _).
        - constructor; [|constructor]. by apply Forall_app in Hub as [_ ?].
        - exists s'. split; [done|]. split; [done|]. rewrite He; congruence. }
      revert E. cbn [read_loop]. rewrite Ho. cbn [frame set_frame]. unfold classify. rewrite Hf.
      destruct (base.decide (r = [])) as [->|Hne].
      * rewrite app_nil_r in Er. rewrite <- Er. rewrite decode_encode by done. cbn -[outcome_of]. rewrite Eo. intros [= <-].
        assert (concat chunks = []) as En.
        { destruct Hp as [t Ht]. rewrite Er, <- app_assoc in Ht. apply (f_equal length) in Ht.
          rewrite !length_app in Ht. apply length_zero_iff_nil. lia. }
        eexists. split; [done|]. rewrite En, app_nil_r. split; [done|]. split; [done|].
        rewrite bool_decide_true by done. cbn -[outcome_of]. by rewrite Eo.
      * rewrite (decode_prefix (got ++ b) r f) by (done || by rewrite <- Er, decode_encode).
        cbn [mbind option_bind outcome_of read_loop outcome set_frame]. rewrite Ho. intros [= <-]. apply IH; [|done]. split; [done|]. split; [done|].
        rewrite bool_decide_false; [done|]. intros E. rewrite <- E in Er. 
        apply (f_equal length) in Er. rewrite !length_app in Er. apply Hne, length_zero_iff_nil. lia.
Qed.

(** The calls that read: [try_wait] or [wait]'s settling, and [observe]. *)
Definition reading (settling : bool) (chunks : list bytes) : Op :=
  if settling then OpSettle (RBytes <$> chunks) else OpObserve (RBytes <$> chunks).

Lemma reading_received f s got settling chunks :
  wf_frame f -> received f s got -> got ++ concat chunks `prefix_of` encode f ->
  exists s', step s (reading settling chunks) = Some s' /\ received f s' (got ++ concat chunks).
Proof.
  intros Hw Hr Hp. pose proof Hr as (Hi & Hs & Ho). destruct (inv_conn_Some s Hi Hs) as [c Ec].
  destruct (read_loop_received f s got chunks Hw Hr Hp) as (s' & E & Hr').
  exists s'. split; [|done]. destruct settling; cbn [reading step].
  - unfold settle. destruct (outcome s) as [o|] eqn:Eo.
    + destruct chunks; cbn in E; rewrite Eo in E; by injection E as ->.
    + unfold refuse_pending. rewrite (bool_decide_false (start s = Pending)) by congruence. cbv zeta.
      rewrite (bool_decide_false (start s = RefusedS)) by congruence. unfold read_frame. rewrite Ec. cbn. by rewrite E.
  - unfold observe. rewrite Hs. destruct (outcome s) as [o|] eqn:Eo.
    + destruct chunks; cbn in E; rewrite Eo in E; by injection E as ->.
    + unfold read_frame. rewrite Ec. cbn. by rewrite E.
Qed.

Lemma readings_received f s got calls :
  wf_frame f -> received f s got -> got ++ concat (concat (snd <$> calls)) `prefix_of` encode f ->
  exists s', steps s ((fun c => reading c.1 c.2) <$> calls) = Some s' /\
    received f s' (got ++ concat (concat (snd <$> calls))).
Proof.
  intros Hw. revert s got. induction calls as [|[b chunks] calls IH]; intros s got Hr Hp.
  - exists s. cbn in *. by rewrite app_nil_r.
  - cbn [fmap list_fmap concat fst snd] in Hp |- *. rewrite concat_app, app_assoc in Hp |- *.
    destruct (reading_received f s got b chunks Hw Hr) as (s1 & E & Hr1).
    { etransitivity; [|exact Hp]. by apply prefix_app_r. }
    cbn [steps fst snd]. rewrite E. cbn. by apply IH.
Qed.

(** * Properties *)

(** C17: a link starts at most one program, and only for a shim that said hello. Whatever the
    threads do and in whatever order, no operation panics; at most one [A] reaches a peer, the
    connection of a [Live] start is that peer's and its hello was answered; a settled outcome says
    "withheld" exactly when the start was refused; no operation moves a start that is not
    [Pending] or changes a settled outcome; and the acceptor answers only peers it accepted with
    the expected euid whose first byte is [H]. *)
Theorem link_safety (ops : list Op) :
  Forall op_ok ops ->
  (exists s, steps new_shared ops = Some s /\
     filter (fun p => p.2 = 65) (sent s) = match conn s with Some c => [(c, 65)] | None => [] end /\
     (start s = Live <-> exists c, conn s = Some c /\ OpHello c true ∈ ops) /\
     (forall o, outcome s = Some o -> start s <> Pending /\ (withheld o = true <-> start s = RefusedS)) /\
     forall more, Forall op_ok more -> exists s', steps s more = Some s' /\
       (start s <> Pending -> start s' = start s) /\ (forall o, outcome s = Some o -> outcome s' = Some o)) /\
  (forall peer_euid hello sendable rounds c ok,
     OpHello c ok ∈ run_acceptor peer_euid hello sendable rounds ->
     (exists r, r ∈ rounds /\ AConn c (Some peer_euid) ∈ answers r) /\ exists rest, hello c = RBytes (72 :: rest)).
Proof.
  intros Ho. split.
  - destruct (steps_ok new_shared ops new_inv Ho) as (s & E & Hi & _ & Hc). exists s. split; [done|].
    pose proof Hi as (_ & Hl & Ha & Hout). split; [done|]. split; [|split].
    + rewrite Hl. split; [|by intros (c & -> & _)]. intros [c Ec]. rewrite Ec in Hc.
      destruct Hc as [?|(c' & [= <-] & ?)]; [done|]. by exists c.
    + intros o Eo. rewrite Eo in Hout. destruct Hout as [Hp ->]. split; [done|]. by rewrite bool_decide_eq_true.
    + intros more Hm. destruct (steps_ok s more Hi Hm) as (s' & -> & _ & [He1 He2] & _). by exists s'.
  - intros peer_euid hello sendable rounds c ok H. unfold run_acceptor in H.
    pose proof (serve_elem peer_euid hello sendable rounds [] c ok) as Hs.
    destruct (serve peer_euid hello sendable rounds []) as [ops' ending]. cbn [fst] in Hs.
    assert (OpHello c ok ∈ ops') as Hin.
    { destruct ending as [[u|f]|]; [done| |done]. apply elem_of_app in H as [H|H%list_elem_of_singleton]; done. }
    destruct (Hs Hin) as [[Hn|?] ?]; [by apply not_elem_of_nil in Hn|done].
Qed.

Lemma link_safety_witness :
  exists s, steps new_shared [OpHello 3 true; OpHello 4 true; OpRelease Original false; OpKill None []] = Some s /\
    filter (fun p => p.2 = 65) (sent s) = match conn s with Some c => [(c, 65)] | None => [] end.
Proof.
  destruct (link_safety [OpHello 3 true; OpHello 4 true; OpRelease Original false; OpKill None []]) as [(s & E & Ha & _) _].
  - repeat constructor.
  - exists s. split; [exact E|exact Ha].
Defined.

(** C18: what the shim concludes is what cosca learns. However the verdict's bytes are cut up, and
    whichever calls read them, once all have arrived the link's outcome is the one that means what
    the shim knew at the end: its report, a lost status, a lost supervision, the program's status;
    before that it is not settled, and if the connection ends there it is [ShimLost], never a
    made-up result. *)
Theorem verdict_delivered (report : option NotExecuted) (reaped : option Z) (lost : bool) (s : Shared)
    (calls : list (bool * list bytes)) :
  report_ok report -> (forall ws, reaped = Some ws -> - 2 ^ 31 <= ws < 2 ^ 31) ->
  inv s -> start s = Live -> outcome s = None -> frame s = [] ->
  let v := ShimStep.frame (conclude report reaped lost) in
  let arrived := concat (concat (snd <$> calls)) in
  arrived `prefix_of` encode v ->
  exists s', steps s ((fun c => reading c.1 c.2) <$> calls) = Some s' /\
    if bool_decide (arrived = encode v) then
      outcome s' = Some (match report, reaped with
                         | Some n, _ => ONotStarted (not_started true (CNotExecuted n))
                         | None, None => OStatusLost
                         | None, Some ws => if lost then SupervisionLost ws else Exited ws
                         end)
    else outcome s' = None /\ exists s'', settle s' [REof] = Some (s'', Some ShimLost).
Proof.
  intros Hrep Hreap Hi Hs Ho Hf v arrived Hp.
  assert (wf_frame v) as Hw.
  { unfold v, conclude. destruct report as [n|]; [by apply Hrep|]. destruct reaped as [ws|]; [|done].
    specialize (Hreap ws eq_refl). by destruct lost. }
  destruct (readings_received v s [] calls Hw) as (s' & E & Hi' & Hs' & Hr); [|done|].
  { split; [done|]. split; [done|]. rewrite bool_decide_false; [done|]. intros H. by eapply encode_not_nil. }
  exists s'. split; [done|]. rewrite app_nil_l in Hr. fold arrived in Hr. case_bool_decide as Ea.
  - rewrite Hr. unfold v, conclude. destruct report, reaped, lost; done.
  - destruct Hr as [Ho' Hf']. split; [done|]. destruct (inv_conn_Some s' Hi' Hs') as [c Ec].
    destruct Hi' as (_ & _ & _ & Hd). rewrite Ho' in Hd. unfold settle. rewrite Ho'.
    unfold refuse_pending. rewrite (bool_decide_false (start s' = Pending)) by congruence. cbv zeta.
    rewrite (bool_decide_false (start s' = RefusedS)) by congruence. unfold read_frame. rewrite Ec.
    cbn [mbind option_bind read_loop]. rewrite Ho'. unfold classify. rewrite Hd. eexists. reflexivity.
Qed.

Definition demo_live : Shared := answer_hello new_shared 3 true.

Lemma verdict_delivered_witness :
  exists s', steps demo_live ((fun c => reading c.1 c.2) <$> [(false, [[83]; [0; 7]]); (true, [[0; 0]])]) = Some s' /\
    outcome s' = Some (Exited 1792).
Proof.
  destruct (verdict_delivered None (Some 1792) false demo_live [(false, [[83]; [0; 7]]); (true, [[0; 0]])]) as (s' & E & H).
  - discriminate.
  - intros ws Hws. injection Hws as <-. lia.
  - destruct (answer_hello_ok new_shared 3 true new_inv) as (s1 & Hs1 & Hi & _). injection Hs1 as <-. exact Hi.
  - reflexivity.
  - reflexivity.
  - reflexivity.
  - exists []. reflexivity.
  - exists s'. split; [exact E|exact H].
Defined.
