(* ===== verification/Identity.v ===== *)
(** Process identities that outlive a pid: [src/identity.rs] over the answers of the system, the
    three-valued answers of [identity/state.rs], the signal probe of [identity/probe.rs], and the
    parsers of [/proc/<pid>/stat] in [identity/stat_parse.rs]. *)
From S2P Require Import Prelude Utf Numbers.
Local Open Scope Z_scope.

(** * [identity/state.rs] *)

Inductive Existence := Present | EGone | EUnknown.

Definition Existence_is_unknown (e : Existence) : bool :=
  match e with EUnknown => true | _ => false end.

Inductive Liveness := Alive | Dead | LUnknown.

Definition Liveness_is_unknown (l : Liveness) : bool :=
  match l with LUnknown => true | _ => false end.

Inductive Resolved (T : Type) := Found (t : T) | Gone | Unknown.
Arguments Found {T} t.
Arguments Gone {T}.
Arguments Unknown {T}.

Definition found {T} (r : Resolved T) : option T :=
  match r with Found v => Some v | Gone | Unknown => None end.

Definition is_unknown {T} (r : Resolved T) : bool :=
  match r with Unknown => true | _ => false end.

Definition map {T U} (f : T -> U) (r : Resolved T) : Resolved U :=
  match r with Found v => Found (f v) | Gone => Gone | Unknown => Unknown end.

#[export] Instance Existence_eq_dec : EqDecision Existence.
Proof. solve_decision. Defined.
#[export] Instance Liveness_eq_dec : EqDecision Liveness.
Proof. solve_decision. Defined.
#[export] Instance Resolved_eq_dec {T} `{EqDecision T} : EqDecision (Resolved T).
Proof. solve_decision. Defined.

(** * [identity/probe.rs] *)

Inductive SignalProbe := Signalable | NoSuchProcess | Denied | NotAPid.

#[export] Instance SignalProbe_eq_dec : EqDecision SignalProbe.
Proof. solve_decision. Defined.

Definition i32_max : Z := 2 ^ 31 - 1.

(** [i32::try_from] of a [u32] fails above [i32::MAX]. *)
Definition signal_target (pid : Z) : option Z :=
  if pid <=? i32_max then if 0 <? pid then Some pid else None else None.

Definition classify_unreadable (probe : SignalProbe) : Resolved unit :=
  match probe with
  | NoSuchProcess | NotAPid => Gone
  | Signalable | Denied => Unknown
  end.

(** * [identity.rs]: [ProcessId] *)

Record ProcessId := process_id { pid : Z; start : Z }.

#[export] Instance ProcessId_eq_dec : EqDecision ProcessId.
Proof. solve_decision. Defined.

Definition start_token_raw (id : ProcessId) : Z := start id.

Definition from_parts (p token : Z) : ProcessId := process_id p token.

Definition existence_from (self : ProcessId) (read : Resolved Z) : Existence :=
  match read with
  | Found t => if t =? start self then Present else EGone
  | Gone => EGone
  | Unknown => EUnknown
  end.

(** * [identity/stat_parse.rs] *)

(** What follows the last [')'], if it is text. *)
Definition tail_ (stat : bytes) : option (list Z) :=
  close ← rposition (fun b => b =? 41) stat;
  match from_utf8 (drop (close + 1) stat) with Ok s => Some s | Err _ => None end.

Definition parse_starttime_jiffies (stat : bytes) : option Z :=
  t ← tail_ stat; w ← split_whitespace t !! 19%nat; parse_unsigned u64_max w.

Definition parse_state (stat : bytes) : option Z :=
  t ← tail_ stat; w ← split_whitespace t !! 0%nat; head (w ≫= encode_utf8).

Definition parse_ppid (stat : bytes) : option Z :=
  t ← tail_ stat; w ← split_whitespace t !! 1%nat; parse_unsigned u32_max w.

Definition parse_pgrp (stat : bytes) : option Z :=
  t ← tail_ stat; w ← split_whitespace t !! 2%nat; parse_unsigned u32_max w.

(** The state letters of a zombie and of a dead task. *)
Definition exited_state (b : Z) : bool := (b =? 90) || (b =? 88) || (b =? 120).

Definition running_from_stat (stat : bytes) (start : Z) : Liveness :=
  match parse_starttime_jiffies stat with
  | Some j =>
      if j =? start then
        match parse_state stat with
        | Some b => if exited_state b then Dead else Alive
        | None => LUnknown
        end
      else Dead
  | None => LUnknown
  end.

(** * The line the kernel prints

    [pid (comm) state ppid pgrp ...]: any bytes for the command name, and fields of printable
    ASCII. *)

Definition stat_line (p : Z) (comm : bytes) (fields : list bytes) : bytes :=
  show p ++ bs " (" ++ comm ++ bs ") " ++ intercalate 32 fields ++ [10].

Definition is_field (w : bytes) : Prop := w <> [] /\ Forall (fun b => 33 <= b < 127 /\ b <> 41) w.

(** * Lemmas *)

Lemma signal_target_Some p t : signal_target p = Some t <-> t = p /\ 0 < p <= i32_max.
Proof. unfold signal_target. destruct (Z.leb_spec p i32_max), (Z.ltb_spec 0 p); naive_solver lia. Qed.

Lemma map_Found {T U} (f : T -> U) r u : map f r = Found u <-> exists t, r = Found t /\ u = f t.
Proof. destruct r; simpl; naive_solver. Qed.

Lemma map_Gone {T U} (f : T -> U) r : map f r = Gone <-> r = Gone.
Proof. destruct r; simpl; naive_solver. Qed.

Lemma map_Unknown {T U} (f : T -> U) r : map f r = Unknown <-> r = Unknown.
Proof. destruct r; simpl; naive_solver. Qed.

Lemma existence_from_Present id read : existence_from id read = Present <-> read = Found (start id).
Proof. destruct read as [t| |]; simpl; [|done..]. destruct (Z.eqb_spec t (start id)); naive_solver. Qed.

Lemma existence_from_Gone id read :
  existence_from id read = EGone <-> read = Gone \/ exists t, read = Found t /\ t <> start id.
Proof. destruct read as [t| |]; simpl; [|naive_solver..]. destruct (Z.eqb_spec t (start id)); naive_solver. Qed.

(** ASCII bytes are their own encodings. *)
Lemma encode_ascii w : Forall (fun b => 0 <= b < 128) w -> w ≫= encode_utf8 = w.
Proof.
  induction 1 as [|b w Hb _ IH]; [done|]. rewrite bind_cons, IH. unfold encode_utf8.
  destruct (Z.ltb_spec b 0x80); [done|lia].
Qed.

Lemma is_field_word w : is_field w -> is_word w.
Proof.
  intros [Hne Hw]. split; [done|]. eapply Forall_impl; [exact Hw|].
  intros b [Hb _]. cbn in Hb. unfold is_whitespace, within. lia.
Qed.

Lemma is_field_show n : 0 <= n <= u64_max -> is_field (show n).
Proof.
  intros Hn. split; [by apply show_word|]. eapply Forall_impl; [by apply show_clean|].
  intros b Hb. cbn in Hb |- *. lia.
Qed.

(** The text after the command name holds no [')'] and is ASCII. *)
Lemma fields_clean fields :
  Forall is_field fields -> Forall (fun b => 0 <= b < 128 /\ b <> 41) (32 :: intercalate 32 fields ++ [10]).
Proof.
  intros H. constructor; [lia|]. apply Forall_app. split; [|constructor; [lia|constructor]].
  induction H as [|w ws [_ Hw] _ IH]; [constructor|].
  assert (Forall (fun b => 0 <= b < 128 /\ b <> 41) w) as Hc.
  { eapply Forall_impl; [exact Hw|]. intros b Hb. cbn in Hb |- *. lia. }
  destruct ws as [|w' ws]; [done|]. rewrite intercalate_cons by done.
  apply Forall_app. split; [done|]. constructor; [lia|done].
Qed.

(** Whatever the command name is, the tail's words are the fields. *)
Lemma tail_stat_line p comm fields :
  Forall is_field fields ->
  exists t, tail_ (stat_line p comm fields) = Some t /\ split_whitespace t = fields.
Proof.
  intros H. pose proof (fields_clean fields H) as Hc.
  exists (32 :: intercalate 32 fields ++ [10]). split.
  - unfold tail_, stat_line.
    replace (show p ++ bs " (" ++ comm ++ bs ") " ++ intercalate 32 fields ++ [10])
      with ((show p ++ bs " (" ++ comm) ++ 41 :: 32 :: intercalate 32 fields ++ [10])
      by (rewrite <- !app_assoc; done).
    rewrite rposition_app; [|done|].
    + cbn [mbind option_bind]. rewrite drop_app_ge by lia.
      replace (length _ + 1 - length _)%nat with 1%nat by lia. cbn [drop].
      rewrite from_utf8_ascii; [done|]. eapply Forall_impl; [exact Hc|]. naive_solver.
    + eapply Forall_impl; [exact Hc|]. intros b [_ Hb]. by apply Z.eqb_neq.
  - rewrite split_whitespace_cons, split_whitespace_snoc by done.
    apply split_whitespace_words; [done|]. eapply Forall_impl; [exact H|]. apply is_field_word.
Qed.

(** Each parser reads its field and nothing of the command name. *)
Lemma parsers_stat_line p comm fields :
  Forall is_field fields ->
  parse_starttime_jiffies (stat_line p comm fields) = fields !! 19%nat ≫= parse_unsigned u64_max /\
  parse_state (stat_line p comm fields) = fields !! 0%nat ≫= head /\
  parse_ppid (stat_line p comm fields) = fields !! 1%nat ≫= parse_unsigned u32_max /\
  parse_pgrp (stat_line p comm fields) = fields !! 2%nat ≫= parse_unsigned u32_max.
Proof.
  intros H. destruct (tail_stat_line p comm fields H) as (t & Ht & Hs).
  unfold parse_starttime_jiffies, parse_state, parse_ppid, parse_pgrp. rewrite Ht. cbn [mbind option_bind].
  rewrite Hs. split_and!; try done.
  destruct (fields !! 0%nat) as [w|] eqn:E; [|done]. cbn [mbind option_bind].
  rewrite encode_ascii; [done|]. rewrite Forall_lookup in H. destruct (H _ _ E) as [_ Hw].
  eapply Forall_impl; [exact Hw|]. intros b Hb. cbn in Hb |- *. lia.
Qed.

(** A verdict of [running_from_stat] and what the record said. *)
Lemma running_from_stat_Dead stat tok :
  running_from_stat stat tok = Dead <->
  exists j, parse_starttime_jiffies stat = Some j /\
    (j <> tok \/ exists b, parse_state stat = Some b /\ exited_state b = true).
Proof.
  unfold running_from_stat. destruct (parse_starttime_jiffies stat) as [j|].
  2: { split; [done|]. by intros (? & ? & _). }
  destruct (Z.eqb_spec j tok) as [->|Hne].
  2: { split; [|done]. intros _. exists j. split; [done|]. by left. }
  destruct (parse_state stat) as [b|].
  2: { split; [done|]. intros (j & [= <-] & [?|(? & ? & _)]); done. }
  destruct (exited_state b) eqn:E; (split; [|try done]).
  - intros _. exists tok. split; [done|]. right. by exists b.
  - done.
  - intros (j & [= <-] & [?|(b' & [= <-] & ?)]); congruence.
Qed.

Lemma running_from_stat_Alive stat tok :
  running_from_stat stat tok = Alive <->
  parse_starttime_jiffies stat = Some tok /\ exists b, parse_state stat = Some b /\ exited_state b = false.
Proof.
  unfold running_from_stat. destruct (parse_starttime_jiffies stat) as [j|].
  2: { split; [done|]. by intros [? _]. }
  destruct (Z.eqb_spec j tok) as [->|Hne]; [|split; [done|naive_solver]].
  destruct (parse_state stat) as [b|].
  2: { split; [done|]. by intros (_ & ? & ? & _). }
  destruct (exited_state b) eqn:E; (split; [|try done]).
  - done.
  - intros (_ & b' & [= <-] & ?). congruence.
  - intros _. split; [done|]. by exists b.
Qed.

(** * Properties *)

(** Parsing [/proc/<pid>/stat] is safe against any command name: from a line the kernel prints,
    whatever bytes the process chose for its name (spaces, parentheses, digits that imitate fields,
    invalid UTF-8), the parsers read the state, the parent, the group and the start time that the
    kernel wrote, so [running_from_stat] is [Dead] exactly on another start time or an exited
    state. *)
Theorem stat_line_comm_safe p comm st ppid pgrp mid startt rest tok :
  is_field [st] -> 0 <= ppid <= u32_max -> 0 <= pgrp <= u32_max -> 0 <= startt <= u64_max ->
  length mid = 16%nat -> Forall is_field mid -> Forall is_field rest ->
  let line := stat_line p comm ([st] :: show ppid :: show pgrp :: mid ++ show startt :: rest) in
  parse_state line = Some st /\ parse_ppid line = Some ppid /\ parse_pgrp line = Some pgrp /\
  parse_starttime_jiffies line = Some startt /\
  running_from_stat line tok = (if (startt =? tok) && negb (exited_state st) then Alive else Dead).
Proof.
  intros Hst Hpp Hpg Hs Hl Hm Hr line.
  assert (u32_max <= u64_max) as Hu by done.
  assert (Forall is_field ([st] :: show ppid :: show pgrp :: mid ++ show startt :: rest)) as Hf.
  { constructor; [done|]. do 2 (constructor; [apply is_field_show; lia|]).
    apply Forall_app. split; [done|]. constructor; [by apply is_field_show|done]. }
  destruct (parsers_stat_line p comm _ Hf) as (H1 & H2 & H3 & H4). fold line in H1, H2, H3, H4.
  assert (parse_starttime_jiffies line = Some startt) as Ht.
  { rewrite H1. change (([st] :: show ppid :: show pgrp :: mid ++ show startt :: rest) !! 19%nat)
      with ((mid ++ show startt :: rest) !! 16%nat).
    rewrite lookup_app_r, Hl by lia. cbn -[parse_unsigned show]. by rewrite parse_unsigned_show by lia. }
  assert (parse_state line = Some st) as Hss by (by rewrite H2).
  split_and!; [done| | |done|].
  - rewrite H3. cbn -[parse_unsigned show]. by rewrite parse_unsigned_show by lia.
  - rewrite H4. cbn -[parse_unsigned show]. by rewrite parse_unsigned_show by lia.
  - unfold running_from_stat. rewrite Ht, Hss. destruct (startt =? tok), (exited_state st); done.
Qed.

Lemma stat_line_comm_safe_witness :
  let line := stat_line 7 (bs "a) Z 1 (") ([83] :: show 1 :: show 7 :: replicate 16 (show 0) ++ [show 4242]) in
  parse_state line = Some 83 /\ running_from_stat line 4242 = Alive.
Proof.
  destruct (stat_line_comm_safe 7 (bs "a) Z 1 (") 83 1 7 (replicate 16 (show 0)) 4242 [] 4242) as (H & _ & _ & _ & H').
  - split; [done|]. apply Forall_singleton. lia.
  - unfold u32_max. lia.
  - unfold u32_max. lia.
  - unfold u64_max. lia.
  - done.
  - apply Forall_replicate. apply is_field_show. unfold u64_max. lia.
  - constructor.
  - split; [exact H|exact H'].
Defined.
