(* ===== verification/CrateError.v ===== *)
(** The crate's error type, [src/error.rs]: what a failed operation says, without its wording. *)
From S2P Require Import Prelude Errors Identity IoErrors.
Local Open Scope Z_scope.

Inductive ElevationErrorKind :=
| BackendUnavailable
| AuthFailed
| AuthDeclined
| NoTty
| Unkillable
| Untracked
| CommandTooLong.

Inductive RecordErrorKind :=
| UnknownVersion
| ForeignPlatform
| InvalidPid
| ForeignBootSession
| MissingBootSession
| ForeignPidNamespace
| MissingPidNamespace
| ScopeUnreadable.

#[export] Instance ElevationErrorKind_eq_dec : EqDecision ElevationErrorKind.
Proof. solve_decision. Defined.
#[export] Instance RecordErrorKind_eq_dec : EqDecision RecordErrorKind.
Proof. solve_decision. Defined.

Inductive ChildFate :=
| Reaped_
| Killed
| Running (id : option ProcessId)
| FateGone
| FateUnknown.

Inductive Error :=
| Quote (e : QuoteError)
| Io (e : IoError)
| EUnsupported
| EContainment
| NoConsole
| Elevation (kind : ElevationErrorKind)
| Unassessable (source : option IoError)
| NotThreadGroupLeader (pid : Z) (source : IoError)
| IdentityRecord (kind : RecordErrorKind) (source : option IoError)
| MayHaveStarted (fate : ChildFate) (wrapper_elevated : bool) (source : Error).

(** [io::Error::new]: the kind given, and no code of the OS. *)
Definition io_new (k : ErrorKind) : IoError := io_error k None.

Definition io_context (source : IoError) : IoError := io_new (kind source).

(** Whether [elevated_note] adds its words. *)
Definition elevated_note (fate : ChildFate) (wrapper_elevated : bool) : bool :=
  match fate with
  | Reaped_ | Killed | FateGone => wrapper_elevated
  | _ => false
  end.

Definition fate (self : Error) : option ChildFate :=
  match self with MayHaveStarted fate _ _ => Some fate | _ => None end.

Definition into_io (self : Error) : IoError :=
  match self with Io e => e | _ => io_new Other end.

Definition error_raw_os_error (self : Error) : option Z :=
  match self with Io e => raw_os_error e | _ => None end.

(** [with_note]; appending to a [detail] changes only its wording. A quoting error is given none
    ([debug_assert]). *)
Fixpoint with_note (self : Error) : Error :=
  match self with
  | Io source => Io (io_new (kind source))
  | MayHaveStarted fate w source => MayHaveStarted fate w (with_note source)
  | e => e
  end.

(** [win32_io_error]: the code it reports for an [HRESULT]. *)
Definition win32_code (hresult : Z) : Z :=
  if Z.land hresult 0xFFFF0000 =? 0x80070000 then Z.land hresult 0xFFFF
  else if hresult <? 2 ^ 31 then hresult else hresult - 2 ^ 32.

(** * Lemmas *)

(** A note keeps what a caller decides by: the variant, the fate, and the kind. *)
Lemma with_note_fate e : fate (with_note e) = fate e.
Proof. by destruct e. Qed.

Lemma with_note_kind e : kind (into_io (with_note e)) = kind (into_io e).
Proof. by destruct e. Qed.

Lemma with_note_idempotent e : with_note (with_note e) = with_note e.
Proof. induction e; simpl; congruence. Qed.

(** A Win32 failure code is reported as itself. *)
Lemma win32_code_unwraps code : 0 <= code < 65536 -> win32_code (0x80070000 + code) = code.
Proof.
  intros Hc. unfold win32_code.
  assert (Z.land code 0xFFFF = code) as Hm by (change 0xFFFF with (Z.ones 16); rewrite Z.land_ones by lia; apply Z.mod_small; lia).
  assert (0x80070000 + code = Z.lor 0x80070000 code) as ->.
  { assert (Z.land 0x80070000 code = 0) as H0; [|by rewrite Z.add_nocarry_lxor, Z.lxor_lor]. rewrite <- Hm, (Z.land_comm code), Z.land_assoc.
    by change (Z.land 0x80070000 0xFFFF) with 0. }
  rewrite !Z.land_lor_distr_l. rewrite <- Hm at 1. rewrite <- (Z.land_assoc code), (Z.land_comm 0xFFFF).
  change (Z.land 0xFFFF0000 0xFFFF) with 0. rewrite Z.land_0_r. change (Z.land 0x80070000 0xFFFF0000) with 0x80070000.
  rewrite Z.lor_0_r, Z.eqb_refl. by rewrite Hm.
Qed.
