(* ===== verification/Persist.v ===== *)
(** Records of process identities: [src/identity/persist.rs], and [session_scope_at] of
    [src/identity/linux.rs], over the answers of the two reads it makes. *)
From S2P Require Import Prelude Numbers IoErrors Identity CrateError.
Local Open Scope Z_scope.

Definition RECORD_VERSION : Z := 1.

Inductive Platform := Linux | MacOs | Windows | POther (s : list Z).

#[export] Instance Platform_eq_dec : EqDecision Platform.
Proof. solve_decision. Defined.

Definition as_str (self : Platform) : list Z :=
  match self with
  | Linux => bs "linux"
  | MacOs => bs "macos"
  | Windows => bs "windows"
  | POther s => s
  end.

Definition from_wire (s : list Z) : Platform :=
  if bool_decide (s = bs "linux") then Linux
  else if bool_decide (s = bs "macos") then MacOs
  else if bool_decide (s = bs "windows") then Windows
  else POther s.

(** [mod token_str]: the token's text in a serialized record. *)
Definition token_serialize (v : Z) : list Z := show v.

Definition token_deserialize (s : list Z) : option Z := parse_unsigned u64_max s.

Record ProcessIdRecord := record {
  version : Z; platform : Platform; rpid : Z; token : Z;
  rec_boot_id : option (list Z); rec_pid_ns : option Z }.

Record Scope := scope { boot_id : option (list Z); pid_ns : option Z }.

Definition Scope_none : Scope := scope None None.

(** [ScopeReadError]: the path whose read failed, and why. *)
Record ScopeReadError := scope_read_error { path : list Z; source : IoError }.

Definition scope_error (e : ScopeReadError) : Error := IdentityRecord ScopeUnreadable (Some (source e)).

Definition pid_is_addressable (p : Z) (here : Platform) : bool :=
  match here with
  | Windows => negb (p =? 0)
  | _ => match signal_target p with Some _ => true | None => false end
  end.

Definition reject (kind : RecordErrorKind) : Error := IdentityRecord kind None.

Definition validate (r : ProcessIdRecord) (here : Platform) (sc : Scope) : result RecordErrorKind (Z * Z) :=
  if negb (version r =? RECORD_VERSION) then Err UnknownVersion
  else if bool_decide (platform r <> here) then Err ForeignPlatform
  else if negb (pid_is_addressable (rpid r) here) then Err InvalidPid
  else
    let? _ :=
      match boot_id sc with
      | Some live =>
          match rec_boot_id r with
          | None => Err MissingBootSession
          | Some saved => if bool_decide (saved <> live) then Err ForeignBootSession else Ok tt
          end
      | None => Ok tt
      end in
    let? _ :=
      match pid_ns sc with
      | Some live =>
          match rec_pid_ns r with
          | None => Err MissingPidNamespace
          | Some saved => if negb (saved =? live) then Err ForeignPidNamespace else Ok tt
          end
      | None => Ok tt
      end in
    Ok (rpid r, token r).

(** [Platform::current] is a parameter: one build per target. *)
Definition record_from (current : Platform) (id : ProcessId) (sc : result ScopeReadError Scope) :
    result Error ProcessIdRecord :=
  match sc with
  | Err e => Err (scope_error e)
  | Ok sc => Ok (record RECORD_VERSION current (pid id) (start id) (boot_id sc) (pid_ns sc))
  end.

Definition restore (r : ProcessIdRecord) (here : Platform) (sc : result ScopeReadError Scope) :
    result Error ProcessId :=
  match sc with
  | Err e => Err (scope_error e)
  | Ok sc =>
      match validate r here sc with
      | Err kind => Err (reject kind)
      | Ok (p, t) => Ok (process_id p t)
      end
  end.

(** [session_scope_at]: [boot_id_read] is the text read at the first path, [pid_ns_read] the inode
    at the second. *)
Definition session_scope_at (boot_id_path pid_ns_path : list Z)
    (boot_id_read : result IoError (list Z)) (pid_ns_read : result IoError Z) :
    result ScopeReadError Scope :=
  match boot_id_read with
  | Err e => Err (scope_read_error boot_id_path e)
  | Ok text =>
      let b := trim text in
      if bool_decide (b = []) then Err (scope_read_error boot_id_path (of_kind InvalidData))
      else match pid_ns_read with
           | Err e => Err (scope_read_error pid_ns_path e)
           | Ok ino => Ok (scope (Some b) (Some ino))
           end
  end.

(** * Lemmas *)

Lemma pid_is_addressable_true p here :
  0 <= p -> pid_is_addressable p here = true <-> 0 < p /\ (here = Windows \/ p <= i32_max).
Proof.
  intros Hp. unfold pid_is_addressable.
  assert (match signal_target p with Some _ => true | None => false end = true <-> 0 < p <= i32_max) as Hs.
  { unfold signal_target. destruct (Z.leb_spec p i32_max), (Z.ltb_spec 0 p); naive_solver lia. }
  destruct here; rewrite ?Hs; [naive_solver..| |naive_solver].
  destruct (Z.eqb_spec p 0); naive_solver lia.
Qed.

(** [live] is unused by the host, or what the record saved. *)
Definition agrees {A} (live saved : option A) : Prop := forall x, live = Some x -> saved = Some x.

Lemma validate_Ok r here sc x :
  validate r here sc = Ok x <->
  x = (rpid r, token r) /\ version r = RECORD_VERSION /\ platform r = here /\
  pid_is_addressable (rpid r) here = true /\
  agrees (boot_id sc) (rec_boot_id r) /\ agrees (pid_ns sc) (rec_pid_ns r).
Proof.
  unfold validate, agrees. destruct (Z.eqb_spec (version r) RECORD_VERSION); [|naive_solver].
  case_bool_decide as Hp; [naive_solver|]. cbn [negb].
  destruct (pid_is_addressable (rpid r) here); [|naive_solver]. cbn [negb].
  destruct (boot_id sc) as [b|]; [destruct (rec_boot_id r) as [b'|]; [case_bool_decide|]|]; [naive_solver| |naive_solver|].
  all: (destruct (pid_ns sc) as [n|]; [destruct (rec_pid_ns r) as [n'|]; [destruct (Z.eqb_spec n' n)|]|]).
  all: naive_solver.
Qed.

(** The error of a refusal names the first check that fails. *)
Lemma validate_boot r here sc live saved :
  version r = RECORD_VERSION -> platform r = here -> pid_is_addressable (rpid r) here = true ->
  boot_id sc = Some live -> rec_boot_id r = Some saved -> saved <> live ->
  validate r here sc = Err ForeignBootSession.
Proof.
  intros Hv Hp Ha Hb Hr Hne. unfold validate. rewrite Hv, Ha, Hb, Hr, Z.eqb_refl.
  rewrite bool_decide_false by tauto. by rewrite bool_decide_true.
Qed.

Lemma validate_ns r here sc live saved :
  version r = RECORD_VERSION -> platform r = here -> pid_is_addressable (rpid r) here = true ->
  agrees (boot_id sc) (rec_boot_id r) -> pid_ns sc = Some live -> rec_pid_ns r = Some saved -> saved <> live ->
  validate r here sc = Err ForeignPidNamespace.
Proof.
  intros Hv Hp Ha Hb Hn Hr Hne. unfold validate. rewrite Hv, Ha, Hn, Hr, Z.eqb_refl.
  rewrite bool_decide_false by tauto. cbn [negb]. destruct (boot_id sc) as [b|].
  - rewrite (Hb b eq_refl), bool_decide_false by tauto. by apply Z.eqb_neq in Hne as ->.
  - by apply Z.eqb_neq in Hne as ->.
Qed.

Lemma session_scope_at_Ok bp np b n sc :
  session_scope_at bp np b n = Ok sc <->
  exists text ino, b = Ok text /\ n = Ok ino /\ trim text <> [] /\ sc = scope (Some (trim text)) (Some ino).
Proof.
  unfold session_scope_at. destruct b as [text|e]; [|naive_solver].
  case_bool_decide; [naive_solver|]. destruct n as [ino|e]; naive_solver.
Qed.

Lemma from_wire_as_str p : as_str p = as_str (from_wire (as_str p)).
Proof.
  unfold from_wire. repeat (case_bool_decide as E; [by rewrite E|clear E]). done.
Qed.

(** * Properties *)

(** A record is restored exactly when it was written by this format on this platform, its pid
    can name a single process, and every session fact this host keeps equals the record's; then it
    gives back its pid and token. In particular a record without a boot identifier or a pid
    namespace is never restored where the host has one, and an unreadable session restores
    nothing. *)
Theorem restore_Ok r here sc id :
  restore r here sc = Ok id <->
  exists live, sc = Ok live /\ id = process_id (rpid r) (token r) /\ version r = RECORD_VERSION /\
    platform r = here /\ pid_is_addressable (rpid r) here = true /\
    agrees (boot_id live) (rec_boot_id r) /\ agrees (pid_ns live) (rec_pid_ns r).
Proof.
  unfold restore. destruct sc as [live|e]; [|naive_solver].
  destruct (validate r here live) as [[p t]|k] eqn:E.
  - apply validate_Ok in E. naive_solver.
  - split; [done|]. intros (l & [= <-] & _ & H).
    assert (validate r here live = Ok (rpid r, token r)) by (by apply validate_Ok). congruence.
Qed.

(** A Linux record survives its own session and no other: what [record_from] wrote is restored
    to the same identity when the boot identifier and the pid namespace read the same again, it is
    refused as [ForeignBootSession] after a reboot and as [ForeignPidNamespace] in another
    namespace, and the scope a record is written under never has a blank boot identifier; its token
    survives serialization as text. *)
Theorem record_session id bp np text ino text' ino' r :
  0 < pid id <= i32_max -> 0 <= start id <= u64_max ->
  record_from Linux id (session_scope_at bp np (Ok text) (Ok ino)) = Ok r ->
  trim text' <> [] ->
  rec_boot_id r <> Some [] /\ token_deserialize (token_serialize (token r)) = Some (start id) /\
  restore r Linux (session_scope_at bp np (Ok text') (Ok ino')) =
    if bool_decide (trim text <> trim text') then Err (IdentityRecord ForeignBootSession None)
    else if negb (ino =? ino') then Err (IdentityRecord ForeignPidNamespace None)
    else Ok id.
Proof.
  intros Hpid Htok Hr Ht'. destruct (session_scope_at bp np (Ok text) (Ok ino)) as [sc|e] eqn:E; [|done].
  apply session_scope_at_Ok in E as (? & ? & [= <-] & [= <-] & Ht & ->). injection Hr as <-. cbn.
  assert (pid_is_addressable (pid id) Linux = true) as Ha by (apply pid_is_addressable_true; [lia|]; lia).
  split; [congruence|]. split.
  { unfold token_deserialize, token_serialize. apply parse_unsigned_show; lia. }
  rewrite (bool_decide_false (trim text' = [])) by done. cbn [restore].
  case_bool_decide as Hb.
  { erewrite validate_boot; [done|done|done|done|done|done|done]. }
  destruct (Z.eqb_spec ino ino') as [->|Hn]; cbn [negb].
  - erewrite (proj2 (validate_Ok _ _ _ (pid id, start id))); [by destruct id|].
    rewrite Hb. repeat split; try done; try exact Ha; by intros x Hx.
  - erewrite validate_ns; [done|done|done|done|..|done]; cbn; [|done|done]. rewrite Hb. by intros x Hx.
Qed.

Lemma record_session_witness :
  let r := record 1 Linux 7 99 (Some (bs "ab-1")) (Some 4026531836) in
  token_deserialize (token_serialize (token r)) = Some 99 /\
  restore r Linux (Ok (scope (Some (bs "ab-2")) (Some 4026531836))) = Err (IdentityRecord ForeignBootSession None).
Proof.
  destruct (record_session (process_id 7 99) [] [] (bs "ab-1" ++ [10]) 4026531836 (bs "ab-2" ++ [10]) 4026531836
    (record 1 Linux 7 99 (Some (bs "ab-1")) (Some 4026531836))) as (_ & H & H').
  - unfold i32_max. simpl. lia.
  - unfold u64_max. simpl. lia.
  - reflexivity.
  - intros H. by vm_compute in H.
  - split; [exact H|exact H'].
Defined.
