(* ===== verification/ProcView.v ===== *)
(** Which [/proc] can be believed: [src/identity/linux/kernel.rs], [proc_view.rs] and [pid_stat.rs].

    The kernel is a parameter, the class [Kernel]: the trait's three questions, and the two that a
    [ProcDir] answers besides. One identity read asks no question twice, so a table of answers
    stands for any behaviour of the system during it. *)
From S2P Require Import Prelude Utf Numbers IoErrors Identity CrateError.
Local Open Scope Z_scope.

(** * [proc_view.rs]: [ViewUnreadable] *)

(** [reason], without its wording. *)
Inductive Reason :=
| DIVERGED_REASON
| ProcNotOpened
| ProcNotChecked
| ProcNotProcfs (f_type : Z)
| ProcNotRoot (ino : Z)
| StatusUnreadable
| NsPidUnchecked
| EmptyNspid
| NotNsLink (path : bytes) (target : bytes)
| NsLinkUnreadable (path : bytes)
| FdinfoUnreadable
| FdinfoUnparseable.

Record ViewUnreadable := view_unreadable {
  reason : Reason; vsource : option IoError; openat2_refused : option Z }.

Definition ViewUnreadable_new (r : Reason) (e : option IoError) : ViewUnreadable := view_unreadable r e None.

Definition from_open_errno (errno : Z) : ViewUnreadable :=
  view_unreadable ProcNotOpened (Some (from_raw_os_error errno))
    (if errno =? ENOSYS then Some ENOSYS else if errno =? EPERM then Some EPERM else None).

Definition openat2_requirement (self : ViewUnreadable) : option Z := openat2_refused self.

Definition unsupported (self : ViewUnreadable) : option Error :=
  (fun _ => EUnsupported) <$> openat2_requirement self.

(** * [kernel.rs] *)

Class Kernel (ProcDir : Type) := {
  open_proc : result ViewUnreadable ProcDir;
  read : ProcDir -> bytes -> result IoError bytes;
  kernel_signal_probe : Z -> result Z unit;
  (** [ProcDir::read_link] and [ProcDir::link_exists]. *)
  read_link : ProcDir -> bytes -> result IoError bytes;
  link_exists : ProcDir -> bytes -> result IoError bool }.

(** * [ProcDir] *)

Definition PROC_SUPER_MAGIC : Z := 0x9fa0.
Definition PROC_ROOT_INO : Z := 1.

(** [ProcDir::open_root]: what the open, [fstatfs] and [fstat] answer. *)
Definition open_root {D} (fd : result Z D) (f_type : result Z Z) (ino : result Z Z) : result ViewUnreadable D :=
  match fd with
  | Err e => Err (from_open_errno e)
  | Ok fd =>
      match f_type with
      | Err e => Err (ViewUnreadable_new ProcNotChecked (Some (from_raw_os_error e)))
      | Ok t =>
          if negb (t =? PROC_SUPER_MAGIC) then Err (ViewUnreadable_new (ProcNotProcfs t) None)
          else match ino with
          | Err e => Err (ViewUnreadable_new ProcNotChecked (Some (from_raw_os_error e)))
          | Ok i => if negb (i =? PROC_ROOT_INO) then Err (ViewUnreadable_new (ProcNotRoot i) None) else Ok fd
          end
      end
  end.

(** What [link_exists] makes of its open. *)
Definition link_exists_of {D} (opened : result IoError D) : result IoError bool :=
  match opened with
  | Ok _ => Ok true
  | Err e => if bool_decide (raw_os_error e = Some ENOENT) then Ok false else Err e
  end.

(** [utf8] of [proc_view.rs]. *)
Definition utf8 (b : bytes) : result IoError (list Z) :=
  match from_utf8 b with Ok s => Ok s | Err _ => Err (of_kind InvalidData) end.

(** [collect_pids]; its [debug_assert] is compiled out of a release build. *)
Fixpoint collect_pids (names : list (result IoError bytes)) : result IoError (list Z) :=
  match names with
  | [] => Ok []
  | name :: names =>
      let? name := name in
      if bool_decide (name = []) || negb (forallb is_ascii_digit name) then collect_pids names
      else match parse_unsigned u32_max name with
           | None => Err (of_kind InvalidData)
           | Some p => let? pids := collect_pids names in Ok (p :: pids)
           end
  end.

(** * The view *)

Inductive Verdict := VSame | VNoNspid | VDiverged | VUnassessable (why : ViewUnreadable).

Definition classify_status (status : list Z) (ns_pid_exists : result IoError bool) : Verdict :=
  match find_map (strip_prefix (bs "NSpid:")) (lines status) with
  | None =>
      match ns_pid_exists with
      | Ok false => VSame
      | Ok true => VNoNspid
      | Err e => VUnassessable (ViewUnreadable_new NsPidUnchecked (Some e))
      end
  | Some line =>
      match length (split_whitespace line) with
      | 0%nat => VUnassessable (ViewUnreadable_new EmptyNspid None)
      | 1%nat => VSame
      | _ => VDiverged
      end
  end.

Definition ends_with (p l : bytes) : bool := starts_with (reverse p) (reverse l).

Definition pid_ns_link (link : result IoError bytes) (path : bytes) : result ViewUnreadable bytes :=
  match link with
  | Ok target =>
      if starts_with (bs "pid:[") target && ends_with (bs "]") target then Ok target
      else Err (ViewUnreadable_new (NotNsLink path target) None)
  | Err e => Err (ViewUnreadable_new (NsLinkUnreadable path) (Some e))
  end.

Definition own_ns_path : bytes := bs "thread-self/ns/pid".
Definition init_ns_path : bytes := bs "1/ns/pid".

Definition classify_ns_links (own init : result IoError bytes) : Verdict :=
  match
    let? own := pid_ns_link own own_ns_path in
    let? init := pid_ns_link init init_ns_path in
    Ok (own, init)
  with
  | Ok (own, init) => if bool_decide (own = init) then VSame else VDiverged
  | Err why => VUnassessable why
  end.

Inductive ProcView (D : Type) := Same (dir : D) | Diverged | ViewUnassessable (why : ViewUnreadable).
Arguments Same {D} dir.
Arguments Diverged {D}.
Arguments ViewUnassessable {D} why.

Definition into_dir {D} (v : ProcView D) : result ViewUnreadable D :=
  match v with
  | Same dir => Ok dir
  | Diverged => Err (ViewUnreadable_new DIVERGED_REASON None)
  | ViewUnassessable why => Err why
  end.

Section view.
Context {D : Type} `{K : Kernel D}.

Definition ns_pid_exists (dir : D) : result IoError bool := link_exists dir (bs "self/ns/pid").

Definition cross_check_with_init_ns (dir : D) : Verdict :=
  classify_ns_links (read_link dir own_ns_path) (read_link dir init_ns_path).

Definition read_text (dir : D) (path : bytes) : result IoError (list Z) :=
  let? b := read dir path in utf8 b.

Definition proc_view_with : ProcView D :=
  match open_proc with
  | Err why => ViewUnassessable why
  | Ok dir =>
      match read_text dir (bs "self/status") with
      | Err e => ViewUnassessable (ViewUnreadable_new StatusUnreadable (Some e))
      | Ok status =>
          match
            match classify_status status (ns_pid_exists dir) with
            | VNoNspid => cross_check_with_init_ns dir
            | decided => decided
            end
          with
          | VSame | VNoNspid => Same dir
          | VDiverged => Diverged
          | VUnassessable why => ViewUnassessable why
          end
      end
  end.

(** * A pidfd's target *)

Inductive PidfdTarget := Pid (p : Z) | Reaped.

Definition REAPED : Z := -1.

Definition parse_fdinfo_pid (fdinfo : list Z) : option PidfdTarget :=
  l ← find_map (strip_prefix (bs "Pid:")) (lines fdinfo);
  p ← parse_i64 (trim l);
  if p =? REAPED then Some Reaped
  else if (0 <=? p) && (p <=? u32_max) then Some (Pid p) else None.

Definition pidfd_target_in (dir : D) (fd : Z) : result ViewUnreadable PidfdTarget :=
  match read_text dir (bs "thread-self/fdinfo/" ++ show fd) with
  | Err e => Err (ViewUnreadable_new FdinfoUnreadable (Some e))
  | Ok fdinfo => ok_or (parse_fdinfo_pid fdinfo) (ViewUnreadable_new FdinfoUnparseable None)
  end.

(** * [pid_stat.rs] *)

Inductive PidStat := SRead (stat : bytes) | Skipped (e : IoError).

Inductive Kind := BeyondMount | DirectoryRefuses (refusal : IoError) | KOther.

Record Unreadable := unreadable { upid : Z; ukind : Kind; usource : IoError }.

Definition into_source (u : Unreadable) : IoError := usource u.

Definition stat_path (p : Z) : bytes := show p ++ bs "/stat".

Definition read_stat_file (dir : D) (p : Z) : result IoError bytes := read dir (stat_path p).

Definition check_dir_answers (dir : D) : result IoError unit :=
  let? _ := read dir (bs "self/stat") in Ok tt.

Definition os_is (e : IoError) (codes : list Z) : bool :=
  match raw_os_error e with Some c => bool_decide (c ∈ codes) | None => false end.

Definition read_in_scan (dir : D) (p : Z) : result Unreadable PidStat :=
  match read_stat_file dir p with
  | Ok stat => Ok (SRead stat)
  | Err source =>
      if os_is source [ENOENT; ESRCH; EACCES] then Ok (Skipped source)
      else if os_is source [EPERM] then
        match check_dir_answers dir with
        | Ok _ => Ok (Skipped source)
        | Err refusal => Err (unreadable p (DirectoryRefuses refusal) source)
        end
      else if os_is source [EXDEV; ELOOP] then Err (unreadable p BeyondMount source)
      else Err (unreadable p KOther source)
  end.
End view.

(** * Lemmas *)

Lemma into_dir_Ok {D} (v : ProcView D) dir : into_dir v = Ok dir <-> v = Same dir.
Proof. destruct v; simpl; naive_solver. Qed.

(** What a checked namespace link is. *)
Definition is_ns_link (l : bytes) : Prop :=
  starts_with (bs "pid:[") l = true /\ ends_with (bs "]") l = true.

Lemma pid_ns_link_Ok link p l : pid_ns_link link p = Ok l <-> link = Ok l /\ is_ns_link l.
Proof.
  unfold pid_ns_link, is_ns_link. destruct link as [t|e]; [|naive_solver].
  destruct (starts_with (bs "pid:[") t && ends_with (bs "]") t) eqn:E.
  - apply andb_true_iff in E. split; [by intros [= <-]|naive_solver].
  - split; [done|]. intros ([= <-] & H1 & H2). by rewrite H1, H2 in E.
Qed.

Lemma classify_ns_links_Same own init :
  classify_ns_links own init = VSame <-> exists l, own = Ok l /\ init = Ok l /\ is_ns_link l.
Proof.
  unfold classify_ns_links.
  destruct (pid_ns_link own own_ns_path) as [a|e] eqn:E1.
  - apply pid_ns_link_Ok in E1 as [-> Ha].
    destruct (pid_ns_link init init_ns_path) as [b|e] eqn:E2.
    + apply pid_ns_link_Ok in E2 as [-> Hb]. case_bool_decide as H; [|naive_solver].
      subst b. split; [|done]. by exists a.
    + split; [done|]. intros (l & _ & -> & Hl). by rewrite (proj2 (pid_ns_link_Ok (Ok l) init_ns_path l)) in E2.
  - split; [done|]. intros (l & -> & _ & Hl). by rewrite (proj2 (pid_ns_link_Ok (Ok l) own_ns_path l)) in E1.
Qed.

Lemma classify_ns_links_decided own init : classify_ns_links own init <> VNoNspid.
Proof.
  unfold classify_ns_links. destruct (pid_ns_link own _); [|done].
  destruct (pid_ns_link init _); [|done]. by case_bool_decide.
Qed.

(** The status's namespace line. *)
Definition nspid_line (status : list Z) : option (list Z) :=
  find_map (strip_prefix (bs "NSpid:")) (lines status).

Lemma classify_status_Same status e :
  classify_status status e = VSame <->
  (exists line w, nspid_line status = Some line /\ split_whitespace line = [w]) \/
  nspid_line status = None /\ e = Ok false.
Proof.
  unfold classify_status, nspid_line. destruct (find_map _ _) as [line|].
  - destruct (split_whitespace line) as [|w [|w' ws]] eqn:E; cbn [length]; (split; try done).
    1,3: intros [(l & v & [= <-] & Hv)|[? _]]; congruence.
    intros _. left. by exists line, w.
  - destruct e as [[]|e]; split; try done.
    1,3: intros [(l & v & ? & _)|[_ ?]]; congruence.
    intros _. by right.
Qed.

Lemma classify_status_NoNspid status e :
  classify_status status e = VNoNspid <-> nspid_line status = None /\ e = Ok true.
Proof.
  unfold classify_status, nspid_line. destruct (find_map _ _) as [line|].
  - destruct (length (split_whitespace line)) as [|[|n]]; naive_solver.
  - destruct e as [[]|e]; naive_solver.
Qed.

Lemma os_is_spec e codes : os_is e codes = true <-> exists c, raw_os_error e = Some c /\ c ∈ codes.
Proof.
  unfold os_is. destruct (raw_os_error e) as [c|]; [|naive_solver].
  rewrite bool_decide_eq_true. naive_solver.
Qed.

Section view_lemmas.
Context {D : Type} `{K : Kernel D}.

(** The evidence a [Same] view rests on. *)
Definition own_namespace (dir : D) : Prop :=
  open_proc = Ok dir /\ exists status, read_text dir (bs "self/status") = Ok status /\
    ((exists line w, nspid_line status = Some line /\ split_whitespace line = [w]) \/
     nspid_line status = None /\ (ns_pid_exists dir = Ok false \/
       ns_pid_exists dir = Ok true /\
       exists l, read_link dir own_ns_path = Ok l /\ read_link dir init_ns_path = Ok l /\ is_ns_link l)).

Lemma verdict_Same dir st :
  match
    match classify_status st (ns_pid_exists dir) with
    | VNoNspid => cross_check_with_init_ns dir
    | decided => decided
    end
  with VSame | VNoNspid => True | _ => False end <->
  (exists line w, nspid_line st = Some line /\ split_whitespace line = [w]) \/
  nspid_line st = None /\ (ns_pid_exists dir = Ok false \/
    ns_pid_exists dir = Ok true /\
    exists l, read_link dir own_ns_path = Ok l /\ read_link dir init_ns_path = Ok l /\ is_ns_link l).
Proof.
  unfold cross_check_with_init_ns.
  pose proof (classify_status_Same st (ns_pid_exists dir)) as Hs.
  pose proof (classify_status_NoNspid st (ns_pid_exists dir)) as Hn.
  pose proof (classify_ns_links_Same (read_link dir own_ns_path) (read_link dir init_ns_path)) as Hl.
  pose proof (classify_ns_links_decided (read_link dir own_ns_path) (read_link dir init_ns_path)) as Hd.
  destruct (classify_status st (ns_pid_exists dir)) eqn:Ec.
  - apply proj1 in Hs. specialize (Hs eq_refl). tauto.
  - apply proj1 in Hn. destruct (Hn eq_refl) as [Hn1 Hn2]. rewrite Hn1, Hn2.
    destruct (classify_ns_links _ _); split; try done.
    + intros _. right. split; [done|]. right. split; [done|]. by apply Hl.
    + intros [(? & ? & ? & _)|(_ & [?|(_ & H)])]; [congruence..|]. by apply Hl in H.
    + intros [(? & ? & ? & _)|(_ & [?|(_ & H)])]; [congruence..|]. by apply Hl in H.
  - split; [done|]. intros H. exfalso. destruct H as [H|(H1 & [H2|(H2 & _)])].
    + by discriminate (proj2 Hs (or_introl H)).
    + by discriminate (proj2 Hs (or_intror (conj H1 H2))).
    + by discriminate (proj2 Hn (conj H1 H2)).
  - split; [done|]. intros H. exfalso. destruct H as [H|(H1 & [H2|(H2 & _)])].
    + by discriminate (proj2 Hs (or_introl H)).
    + by discriminate (proj2 Hs (or_intror (conj H1 H2))).
    + by discriminate (proj2 Hn (conj H1 H2)).
Qed.

Lemma proc_view_Same dir : proc_view_with = Same dir <-> own_namespace dir.
Proof.
  unfold proc_view_with, own_namespace. destruct open_proc as [d|why].
  2: { split; [done|]. by intros [? _]. }
  destruct (read_text d (bs "self/status")) as [st|e] eqn:Es.
  2: { split; [done|]. intros ([= <-] & s & Hs & _). congruence. }
  pose proof (verdict_Same d st) as Hv.
  destruct (match classify_status st (ns_pid_exists d) with
            | VNoNspid => cross_check_with_init_ns d | decided => decided end).
  1-2: split; [intros [= <-]; split; [done|]; exists st; split; [done|]; by apply Hv|by intros ([= <-] & _)].
  all: split; [done|]; intros ([= <-] & s & Hs & H); rewrite Es in Hs; injection Hs as <-; by apply Hv in H.
Qed.
End view_lemmas.
