(* ===== verification/ProcIdentity.v ===== *)
(** Identities read from the Linux kernel: [src/identity/linux.rs], and the operations of
    [ProcessId] in [src/identity.rs] that go through it. *)
From S2P Require Import Prelude Utf Numbers IoErrors Identity CrateError ProcView.
Local Open Scope Z_scope.

(** * [identity/linux.rs] *)

Section backend.
Context {D : Type} `{K : Kernel D}.

Definition signal_probe (p : Z) : SignalProbe :=
  match signal_target p with
  | None => NotAPid
  | Some target =>
      match kernel_signal_probe target with
      | Ok _ => Signalable
      | Err e => if e =? ESRCH then NoSuchProcess else Denied
      end
  end.

Definition resolve_unreadable (p : Z) : Resolved bytes :=
  match classify_unreadable (signal_probe p) with
  | Gone => Gone
  | _ => Unknown
  end.

Definition stat_by_pid (dir : D) (p : Z) : Resolved bytes :=
  match read_stat_file dir p with
  | Ok b => Found b
  | Err _ => resolve_unreadable p
  end.

Definition read_stat_explained (p : Z) : Resolved bytes * option ViewUnreadable :=
  match into_dir proc_view_with with
  | Ok dir => (stat_by_pid dir p, None)
  | Err why => (resolve_unreadable p, Some why)
  end.

Definition read_stat (p : Z) : Resolved bytes := (read_stat_explained p).1.

Definition signal_says_no_such_process (p : Z) : bool := bool_decide (signal_probe p = NoSuchProcess).

Definition start_token_from (stat : Resolved bytes) : Resolved Z :=
  match stat with
  | Found stat => match parse_starttime_jiffies stat with Some j => Found j | None => Unknown end
  | Gone => Gone
  | Unknown => Unknown
  end.

Definition start_token_explained (p : Z) : Resolved Z * option ViewUnreadable :=
  let '(stat, cause) := read_stat_explained p in (start_token_from stat, cause).

Definition start_token_in (dir : D) (p : Z) : Resolved Z := start_token_from (stat_by_pid dir p).

Definition liveness_of (stat : Resolved bytes) (start : Z) : Liveness :=
  match stat with
  | Found stat => running_from_stat stat start
  | Gone => Dead
  | Unknown => LUnknown
  end.

Definition is_running (p start : Z) : Liveness := liveness_of (read_stat p) start.

Definition is_running_in (dir : D) (p start : Z) : Liveness := liveness_of (stat_by_pid dir p) start.

(** * [identity.rs] *)

Definition of_with (p : Z) : Resolved ProcessId * option ViewUnreadable :=
  let '(read, view) := start_token_explained p in (map (fun t => process_id p t) read, view).

Definition exists_with (self : ProcessId) : Existence * option ViewUnreadable :=
  let '(read, view) := start_token_explained (pid self) in (existence_from self read, view).

Definition is_alive_with (self : ProcessId) : Liveness := is_running (pid self) (start self).

Definition exists_in (self : ProcessId) (dir : D) : Existence :=
  existence_from self (start_token_in dir (pid self)).

Definition is_alive_in (self : ProcessId) (dir : D) : Liveness := is_running_in dir (pid self) (start self).
End backend.

(** [current_token]: the token in what [/proc/self/stat] reads; [current] panics without one. *)
Definition current_token (self_stat : result IoError bytes) : Resolved Z :=
  match self_stat with Ok stat => start_token_from (Found stat) | Err _ => Unknown end.

Definition current (own_pid : Z) (self_stat : result IoError bytes) : option ProcessId :=
  t ← found (current_token self_stat); Some (process_id own_pid t).

(** [view_error] and [UnknownCause::into_error]. *)
Definition unassessable_view (source : option IoError) : Error := Unassessable source.

Definition view_error (why : ViewUnreadable) : Error :=
  default (unassessable_view (vsource why)) (unsupported why).

Definition into_error (view : option ViewUnreadable) : option Error := view_error <$> view.

(** * Creation time *)

(** [boot_time_secs]: the [btime] of the text of [/proc/stat]. *)
Definition boot_time_secs (text : result IoError (list Z)) : option Z :=
  match text with
  | Err _ => None
  | Ok s => v ← find_map (strip_prefix (bs "btime ")) (lines s); parse_unsigned u64_max (trim v)
  end.

Definition clock_ticks_per_sec (hz : Z) : option Z := if 0 <? hz then Some hz else None.

(** [created_at]: seconds and nanoseconds since the epoch. *)
Definition created_at (hz : Z) (proc_stat : result IoError (list Z)) (jiffies : Z) : option (Z * Z) :=
  hz ← clock_ticks_per_sec hz;
  btime ← boot_time_secs proc_stat;
  Some (btime + jiffies / hz, (jiffies mod hz) * 1000000000 / hz).

(** * Lemmas *)

Section lemmas.
Context {D : Type} `{K : Kernel D}.

(** The kernel's positive word that nothing can have this pid. *)
Definition provably_gone (p : Z) : Prop :=
  signal_target p = None \/ exists t, signal_target p = Some t /\ kernel_signal_probe t = Err ESRCH.

(** [p]'s record in the [/proc] of our own namespace. *)
Definition own_stat (p : Z) (stat : bytes) : Prop :=
  exists dir, own_namespace dir /\ read dir (stat_path p) = Ok stat.

(** No record of [p] could be read through our own namespace's [/proc]. *)
Definition no_own_stat (p : Z) : Prop := forall stat, ~ own_stat p stat.

Lemma resolve_unreadable_Gone p : resolve_unreadable p = Gone <-> provably_gone p.
Proof.
  unfold resolve_unreadable, provably_gone, signal_probe.
  destruct (signal_target p) as [t|]; [|split; [by left|done]].
  destruct (kernel_signal_probe t) as [u|e] eqn:E; [|destruct (Z.eqb_spec e ESRCH) as [->|Hne]]; cbn;
    split; try done.
  - intros [?|(? & [= <-] & ?)]; congruence.
  - intros _. right. by exists t.
  - intros [?|(? & [= <-] & ?)]; congruence.
Qed.

Lemma resolve_unreadable_Found p b : resolve_unreadable p <> Found b.
Proof. unfold resolve_unreadable. by destruct (classify_unreadable (signal_probe p)). Qed.

Lemma stat_by_pid_Found dir p b : stat_by_pid dir p = Found b <-> read dir (stat_path p) = Ok b.
Proof.
  unfold stat_by_pid, read_stat_file. destruct (read dir (stat_path p)) as [s|e]; [naive_solver|].
  split; [|done]. intros H. by apply resolve_unreadable_Found in H.
Qed.

Lemma stat_by_pid_Gone dir p :
  stat_by_pid dir p = Gone <-> (forall b, read dir (stat_path p) <> Ok b) /\ provably_gone p.
Proof.
  rewrite <- resolve_unreadable_Gone. unfold stat_by_pid, read_stat_file.
  destruct (read dir (stat_path p)) as [s|e]; [naive_solver|]. split; [by intros ->|by intros [_ ?]].
Qed.

Lemma own_stat_dir dir p stat : proc_view_with = Same dir -> own_stat p stat <-> read dir (stat_path p) = Ok stat.
Proof.
  intros Hv. unfold own_stat. split.
  - intros (d & Hd%proc_view_Same & Hr). rewrite Hv in Hd. by injection Hd as <-.
  - intros Hr. exists dir. split; [by apply proc_view_Same|done].
Qed.

Lemma own_stat_blind p stat : (forall dir, proc_view_with <> Same dir) -> ~ own_stat p stat.
Proof. intros Hv (d & Hd%proc_view_Same & _). by apply Hv in Hd. Qed.

Lemma read_stat_Found p b : read_stat p = Found b <-> own_stat p b.
Proof.
  unfold read_stat, read_stat_explained. destruct (into_dir proc_view_with) as [dir|why] eqn:E; cbn [fst].
  - apply into_dir_Ok in E. by rewrite stat_by_pid_Found, (own_stat_dir dir).
  - split; intros H; [by apply resolve_unreadable_Found in H|]. exfalso.
    revert H. apply own_stat_blind. intros dir Hd. by rewrite Hd in E.
Qed.

Lemma read_stat_Gone p : read_stat p = Gone <-> no_own_stat p /\ provably_gone p.
Proof.
  unfold read_stat, read_stat_explained, no_own_stat.
  destruct (into_dir proc_view_with) as [dir|why] eqn:E; cbn [fst].
  - apply into_dir_Ok in E. rewrite stat_by_pid_Gone.
    split; intros [H ?]; (split; [|done]); intros b Hb; apply (H b); by apply (own_stat_dir dir).
  - rewrite resolve_unreadable_Gone. split; [|tauto]. intros ?. split; [|done].
    intros b. apply own_stat_blind. intros dir Hd. by rewrite Hd in E.
Qed.

Lemma start_token_from_Found r t :
  start_token_from r = Found t <-> exists b, r = Found b /\ parse_starttime_jiffies b = Some t.
Proof.
  destruct r as [b| |]; cbn.
  - destruct (parse_starttime_jiffies b) as [j|] eqn:E; split; try done.
    + intros [= <-]. by exists b.
    + intros (? & [= <-] & ?). congruence.
    + intros (? & [= <-] & ?). congruence.
  - split; [done|]. by intros (? & ? & _).
  - split; [done|]. by intros (? & ? & _).
Qed.

Lemma start_token_from_Gone r : start_token_from r = Gone <-> r = Gone.
Proof. destruct r as [b| |]; cbn; [|done..]. by destruct (parse_starttime_jiffies b). Qed.

Lemma start_token_explained_read p : (start_token_explained p).1 = start_token_from (read_stat p).
Proof. unfold start_token_explained, read_stat. by destruct (read_stat_explained p). Qed.

Lemma of_with_read p : (of_with p).1 = map (fun t => process_id p t) (start_token_from (read_stat p)).
Proof.
  rewrite <- start_token_explained_read. unfold of_with. by destruct (start_token_explained p).
Qed.

Lemma exists_with_read id : (exists_with id).1 = existence_from id (start_token_from (read_stat (pid id))).
Proof.
  rewrite <- start_token_explained_read. unfold exists_with. by destruct (start_token_explained (pid id)).
Qed.

Lemma of_with_Found p id :
  (of_with p).1 = Found id <->
  pid id = p /\ exists stat, own_stat p stat /\ parse_starttime_jiffies stat = Some (start id).
Proof.
  rewrite of_with_read, map_Found. split.
  - intros (t & (b & Hb%read_stat_Found & Ht)%start_token_from_Found & ->). split; [done|]. by exists b.
  - intros [<- (b & Hb & Ht)]. exists (start id). split; [|by destruct id].
    apply start_token_from_Found. exists b. by rewrite read_stat_Found.
Qed.

Lemma of_with_Gone p : (of_with p).1 = Gone <-> no_own_stat p /\ provably_gone p.
Proof. by rewrite of_with_read, map_Gone, start_token_from_Gone, read_stat_Gone. Qed.

Lemma exists_with_Present id : (exists_with id).1 = Present <-> (of_with (pid id)).1 = Found id.
Proof.
  rewrite exists_with_read, existence_from_Present, of_with_read, map_Found.
  split; [intros H; exists (start id); by destruct id|]. intros (t & Ht & ->). done.
Qed.
End lemmas.

(** * Properties *)

(** C12: an identity is read, and a process is called gone or dead, on positive evidence only. [of]
    finds a process only in the record of the [/proc] proven to be the caller's own pid namespace;
    it answers [Gone] only when that record cannot be had and [kill(pid, 0)] says [ESRCH], or the
    number is no single process's; [exists] is [Gone] only then, or when that record shows another
    start time; and [is_alive] is [Dead] only then, or when that record shows an exited state. So
    under a foreign [/proc], [hidepid] or a refused read, a live process is [Unknown], never
    gone. *)
Theorem gone_on_evidence {D} `{K : Kernel D} (p : Z) (self : ProcessId) :
  (forall id, (of_with p).1 = Found id <->
     pid id = p /\ exists stat, own_stat p stat /\ parse_starttime_jiffies stat = Some (start id)) /\
  ((of_with p).1 = Gone <-> no_own_stat p /\ provably_gone p) /\
  ((exists_with self).1 = EGone <->
     no_own_stat (pid self) /\ provably_gone (pid self) \/
     exists stat t, own_stat (pid self) stat /\ parse_starttime_jiffies stat = Some t /\ t <> start self) /\
  (is_alive_with self = Dead <->
     no_own_stat (pid self) /\ provably_gone (pid self) \/
     exists stat t, own_stat (pid self) stat /\ parse_starttime_jiffies stat = Some t /\
       (t <> start self \/ exists b, parse_state stat = Some b /\ exited_state b = true)).
Proof.
  split; [intros id; apply of_with_Found|]. split; [apply of_with_Gone|]. split.
  - rewrite exists_with_read, existence_from_Gone, start_token_from_Gone, read_stat_Gone.
    split; (intros [?|H]; [by left|right]).
    + destruct H as (t & (b & Hb%read_stat_Found & Ht)%start_token_from_Found & Hne). by exists b, t.
    + destruct H as (b & t & Hb & Ht & Hne). exists t. split; [|done].
      apply start_token_from_Found. exists b. by rewrite read_stat_Found.
  - unfold is_alive_with, is_running. destruct (read_stat (pid self)) as [b| |] eqn:E; cbn [liveness_of].
    + apply read_stat_Found in E as Hb. rewrite running_from_stat_Dead.
      split; [intros (t & Ht & H); right; by exists b, t|]. intros [[Hn _]|(b' & t & Hb' & Ht & H)].
      * by apply Hn in Hb.
      * apply read_stat_Found in Hb'. rewrite E in Hb'. injection Hb' as <-. by exists t.
    + apply read_stat_Gone in E. split; [by left|done].
    + split; [done|]. intros [H%read_stat_Gone|(b' & t & Hb'%read_stat_Found & _)]; congruence.
Qed.

(** The liveness of a process and its existence agree: whatever the kernel answers, a process
    that is [Alive] is [Present], one that is gone is [Dead], and one whose existence is [Unknown]
    is not called [Alive] or [Dead]; and a read [of] explains by its view is never [Found]. *)
Theorem liveness_agrees {D} `{K : Kernel D} (self : ProcessId) :
  (is_alive_with self = Alive -> (exists_with self).1 = Present) /\
  ((exists_with self).1 = EGone -> is_alive_with self = Dead) /\
  ((exists_with self).1 = EUnknown -> is_alive_with self = LUnknown) /\
  ((exists_with self).1 = Present <-> (of_with (pid self)).1 = Found self) /\
  ((exists_with self).2 <> None -> (exists_with self).1 <> Present).
Proof.
  split; [|split; [|split; [|split]]].
  - rewrite exists_with_read, existence_from_Present. unfold is_alive_with, is_running.
    destruct (read_stat (pid self)) as [b| |]; cbn [liveness_of start_token_from]; [|done..].
    rewrite running_from_stat_Alive. intros (-> & _). done.
  - rewrite exists_with_read. unfold is_alive_with, is_running.
    destruct (read_stat (pid self)) as [b| |]; cbn [liveness_of start_token_from existence_from]; [|done..].
    unfold running_from_stat. destruct (parse_starttime_jiffies b) as [j|]; cbn [existence_from]; [|done].
    by destruct (j =? start self).
  - rewrite exists_with_read. unfold is_alive_with, is_running.
    destruct (read_stat (pid self)) as [b| |]; cbn [liveness_of start_token_from existence_from]; [|done..].
    unfold running_from_stat. destruct (parse_starttime_jiffies b) as [j|]; cbn [existence_from]; [|done].
    by destruct (j =? start self).
  - apply exists_with_Present.
  - unfold exists_with, start_token_explained, read_stat_explained.
    destruct (into_dir proc_view_with) as [dir|why]; cbn; [done|]. intros _.
    pose proof (resolve_unreadable_Found (pid self)) as H.
    destruct (resolve_unreadable (pid self)) as [b| |]; cbn; [|done..]. by destruct (H b).
Qed.

(** A whole-table scan leaves a pid out only when it is not there for the reader: the record was
    absent, the task exited, or access was refused, and [EPERM] counts as refusal only while the
    checked directory still reads; every other failure, a record beyond a mount included, fails the
    scan with that error. *)
Theorem read_in_scan_skips {D} `{K : Kernel D} (dir : D) (p : Z) (e : IoError) :
  read_in_scan dir p = Ok (Skipped e) <->
  read dir (stat_path p) = Err e /\
  exists c, raw_os_error e = Some c /\
    (c ∈ [ENOENT; ESRCH; EACCES] \/ c = EPERM /\ exists b, read dir (bs "self/stat") = Ok b).
Proof.
  unfold read_in_scan, read_stat_file, check_dir_answers.
  destruct (read dir (stat_path p)) as [b|e'].
  { split; [done|]. by intros [? _]. }
  destruct (os_is e' [ENOENT; ESRCH; EACCES]) eqn:E1.
  { apply os_is_spec in E1 as (c & Hc & Hin). split; [|by intros [[= <-] _]].
    intros [= <-]. split; [done|]. exists c. by eauto. }
  destruct (os_is e' [EPERM]) eqn:E2.
  { apply os_is_spec in E2 as (c & Hc & ->%list_elem_of_singleton).
    destruct (read dir (bs "self/stat")) as [s|r] eqn:Es.
    - split; [intros [= <-]|by intros [[= <-] _]]. split; [done|]. exists EPERM. split; [done|]. right. by eauto.
    - split; [done|]. intros [[= <-] (c & Hc' & [Hin|(_ & s & Hs)])]; [|congruence].
      rewrite (proj2 (os_is_spec _ _)) in E1; [done|]. by exists c. }
  split; [by destruct (os_is e' [EXDEV; ELOOP])|]. intros [[= <-] (c & Hc & [Hin|(-> & _)])]; exfalso.
  - rewrite (proj2 (os_is_spec _ _)) in E1; [done|]. by exists c.
  - rewrite (proj2 (os_is_spec _ _)) in E2; [done|]. exists EPERM. split; [done|]. by apply list_elem_of_singleton.
Qed.

Lemma created_at_nanos hz ps j s n : 0 <= j -> created_at hz ps j = Some (s, n) -> 0 <= n < 1000000000.
Proof.
  intros Hj. unfold created_at, clock_ticks_per_sec. destruct (Z.ltb_spec 0 hz); [|done]. cbn [mbind option_bind].
  destruct (boot_time_secs ps); [|done]. cbn [mbind option_bind]. intros [= _ <-].
  pose proof (Z.mod_pos_bound j hz ltac:(done)). split; [apply Z.div_pos; nia|]. apply Z.div_lt_upper_bound; nia.
Qed.
