(* ===== verification/TreeWalk.v ===== *)
(** The process tree by identity: the snapshot of [src/containment/enumerate/linux.rs], the walk and
    the kills of [src/containment/treewalk.rs], and [parent] and [children] of
    [src/identity/tree.rs].

    An answer of the system is an argument, one for each time the code asks: the snapshot, the
    anchor, what each pid resolved to during the walk (asked once per pid, so a function), and, for
    the n-th kill, what the pid resolves to and what [kill] answers then. *)
From S2P Require Import Prelude Numbers IoErrors Identity CrateError ProcView ProcIdentity.
From stdpp Require Import gmap.
Local Open Scope Z_scope.

(** * [enumerate/linux.rs] *)

Definition unassessable (source : option IoError) : Error := Unassessable source.

Definition stat_unreadable (u : Unreadable) : Error := Unassessable (Some (into_source u)).

Definition ppid_of_stat (stat : bytes) : result Error Z := ok_or (parse_ppid stat) (unassessable None).

Section snapshot.
Context {D : Type} `{K : Kernel D}.

Fixpoint parents_of (dir : D) (pids : list Z) : result Error (list (Z * Z)) :=
  match pids with
  | [] => Ok []
  | p :: pids =>
      match read_in_scan dir p with
      | Err u => Err (stat_unreadable u)
      | Ok (Skipped _) => parents_of dir pids
      | Ok (SRead stat) =>
          let? ppid := ppid_of_stat stat in
          let? out := parents_of dir pids in
          Ok ((p, ppid) :: out)
      end
  end.

(** [names]: the entries of the directory. *)
Definition process_parents (names : D -> list (result IoError bytes)) : result Error (list (Z * Z)) :=
  match into_dir proc_view_with with
  | Err why => Err (default (unassessable (vsource why)) (unsupported why))
  | Ok dir =>
      match collect_pids (names dir) with
      | Err e => Err (unassessable (Some e))
      | Ok pids => parents_of dir pids
      end
  end.
End snapshot.

(** * The walk *)

Definition keeps_token (token anchor : Z) (allow_equal : bool) : bool :=
  (anchor <? token) || (allow_equal && (token =? anchor)).

(** [ALLOW_EQUAL_TOKEN] on Linux and macOS; Windows has [false]. *)
Definition ALLOW_EQUAL_TOKEN : bool := true.

Definition resolve_or_drop (answer : Resolved ProcessId) : option ProcessId :=
  match answer with Found id => Some id | Gone => None | Unknown => None end.

(** The loop's variables; [world] is not among them: [resolve] is a function. *)
Record Walk := walk_st {
  wresult : list ProcessId; wnext : list Z; wpending : list (Z * Z);
  waccepted : gset Z; wresolved : gmap Z (option ProcessId) }.

Section walk.
Variables (root : ProcessId) (allow_equal : bool) (resolve : Z -> option ProcessId).

Definition keep (token : Z) : bool := keeps_token token (start_token_raw root) allow_equal.

(** One edge of the drained [pending]. *)
Definition visit (frontier : list Z) (w : Walk) (edge : Z * Z) : Walk :=
  let '(p, pp) := edge in
  if bool_decide (pp ∉ frontier)
  then walk_st (wresult w) (wnext w) (wpending w ++ [edge]) (waccepted w) (wresolved w)
  else if p =? pp then w
  else
    let id := default (resolve p) (wresolved w !! p) in
    let w := walk_st (wresult w) (wnext w) (wpending w) (waccepted w) (<[p := id]> (wresolved w)) in
    match id with
    | None => w
    | Some id =>
        if negb (keep (start id)) then w
        else if bool_decide (p ∈ waccepted w) then w
        else walk_st (wresult w ++ [id]) (wnext w ++ [p]) (wpending w) ({[p]} ∪ waccepted w) (wresolved w)
    end.

(** One round of the [while]: [next] and [still_pending] start empty. *)
Definition round (frontier : list Z) (w : Walk) : Walk :=
  foldl (visit frontier) (walk_st (wresult w) [] [] (waccepted w) (wresolved w)) (wpending w).

Fixpoint walk_loop (fuel : nat) (frontier : list Z) (w : Walk) : option (list ProcessId) :=
  match frontier with
  | [] => Some (wresult w)
  | _ =>
      match fuel with
      | O => None
      | S fuel => let w := round frontier w in walk_loop fuel (wnext w) w
      end
  end.

(** Each round but the last drops an edge of [pending]. *)
Definition descendants_with (parents : list (Z * Z)) : option (list ProcessId) :=
  walk_loop (S (length parents)) [pid root] (walk_st [] [] parents ∅ ∅).

Definition child_step (out : list ProcessId * gset Z) (edge : Z * Z) : list ProcessId * gset Z :=
  let '(p, pp) := edge in
  if negb (pp =? pid root) || (p =? pp) then out
  else match resolve p with
  | None => out
  | Some id =>
      if negb (keep (start id)) then out
      else if bool_decide (p ∈ out.2) then out
      else (out.1 ++ [id], {[p]} ∪ out.2)
  end.

(** [children_of_with]; [root] is its [parent]. *)
Definition children_of_with (parents : list (Z * Z)) : list ProcessId :=
  (foldl child_step ([], ∅) parents).1.
End walk.

Definition descendants (root : ProcessId) (parents : list (Z * Z)) (of_ : Z -> Resolved ProcessId) :
    option (list ProcessId) :=
  descendants_with root ALLOW_EQUAL_TOKEN (fun p => resolve_or_drop (of_ p)) parents.

Definition children_of (parent : ProcessId) (parents : list (Z * Z)) (of_ : Z -> Resolved ProcessId) :
    list ProcessId :=
  children_of_with parent ALLOW_EQUAL_TOKEN (fun p => resolve_or_drop (of_ p)) parents.

(** * Kills *)

Inductive KillOutcome := Terminated | AlreadyGone | NotAttempted.

#[export] Instance KillOutcome_eq_dec : EqDecision KillOutcome.
Proof. solve_decision. Defined.

(** [kill_by_identity] on Unix: the outcome, and the targets signalled. [answer] is what the pid
    resolves to at the kill; [kill] is [kill(target, signal)]. *)
Definition kill_by_identity (id : ProcessId) (answer : Resolved ProcessId) (kill : Z -> result Z unit) :
    KillOutcome * list Z :=
  match answer with
  | Unknown => (NotAttempted, [])
  | Gone => (AlreadyGone, [])
  | Found live =>
      if bool_decide (live = id) then
        match signal_target (pid id) with
        | None => (NotAttempted, [])
        | Some target =>
            (match kill target with
             | Ok _ => Terminated
             | Err e => if e =? ESRCH then AlreadyGone else NotAttempted
             end, [target])
        end
      else (AlreadyGone, [])
  end.

Definition unqueryable (view : option ViewUnreadable) : Error := default (Unassessable None) (into_error view).

Definition anchor_present (answer : Existence * option ViewUnreadable) : result Error bool :=
  match answer with
  | (Present, _) => Ok true
  | (EGone, _) => Ok false
  | (EUnknown, view) => Err (unqueryable view)
  end.

(** Kills in turn; [n] counts them. The outcome is [complete], the list what was signalled. *)
Fixpoint kill_all (n : nat) (ids : list ProcessId) (of_at : nat -> Z -> Resolved ProcessId)
    (kill_at : nat -> Z -> result Z unit) : bool * list Z :=
  match ids with
  | [] => (true, [])
  | id :: ids =>
      let '(outcome, sent) := kill_by_identity id (of_at n (pid id)) (kill_at n) in
      let '(complete, rest) := kill_all (S n) ids of_at kill_at in
      (bool_decide (outcome <> NotAttempted) && complete, sent ++ rest)
  end.

Section teardown.
Variables (root : ProcessId) (snapshot : result Error (list (Z * Z))).
Variable anchor : Existence * option ViewUnreadable.
Variables (of_ : Z -> Resolved ProcessId) (of_at : nat -> Z -> Resolved ProcessId).
Variable kill_at : nat -> Z -> result Z unit.

(** The common part of [hard_kill] and [terminate]: [None] would be a walk that does not end. *)
Definition signal_tree : option (result Error bool * list Z) :=
  match snapshot with
  | Err e => Some (Err e, [])
  | Ok parents =>
      match anchor_present anchor with
      | Err e => Some (Err e, [])
      | Ok false => Some (Ok true, [])
      | Ok true =>
          ids ← descendants root parents of_;
          let '(complete, sent) := kill_all 0 (root :: ids) of_at kill_at in
          Some (Ok complete, sent)
      end
  end.

(** [hard_kill]: the signal is SIGKILL. *)
Definition hard_kill : option (result Error bool * list Z) := signal_tree.

(** [terminate]: the signal is SIGTERM, and no outcome is reported. *)
Definition terminate : option (result Error unit * list Z) :=
  '(r, sent) ← signal_tree; Some (match r with Ok _ => Ok tt | Err e => Err e end, sent).
End teardown.

(** * [identity/tree.rs] *)

Inductive Recursive := RecursiveNo | RecursiveYes.

(** [absent_from_snapshot]; [anchor] is asked anew. *)
Definition absent_from_snapshot (anchor : Existence * option ViewUnreadable) : result Error unit :=
  let? live := anchor_present anchor in
  if live : bool then Err (Unassessable None) else Ok tt.

Definition parent_pid_in (self : ProcessId) (parents : list (Z * Z)) (anchor : Existence * option ViewUnreadable) :
    result Error (option Z) :=
  match list_find (fun e => e.1 = pid self) parents with
  | Some (_, (_, ppid)) => Ok (Some ppid)
  | None => let? _ := absent_from_snapshot anchor in Ok None
  end.

(** [parent]: [anchor2] is the second look of [absent_from_snapshot], [of_explained] the read of the
    parent. *)
Definition parent (self : ProcessId) (snapshot : result Error (list (Z * Z)))
    (anchor anchor2 : Existence * option ViewUnreadable)
    (of_explained : Z -> Resolved ProcessId * option ViewUnreadable) : result Error (option ProcessId) :=
  let? parents := snapshot in
  let? live := anchor_present anchor in
  if negb live then Ok None
  else
    let? ppid := parent_pid_in self parents anchor2 in
    match ppid with
    | None => Ok None
    | Some ppid =>
        if ppid =? pid self then Ok None
        else match of_explained ppid with
        | (Found p, _) =>
            Ok (if keeps_token (start_token_raw self) (start_token_raw p) ALLOW_EQUAL_TOKEN then Some p else None)
        | (Gone, _) => Ok None
        | (Unknown, cause) => Err (unqueryable cause)
        end
    end.

Definition children (self : ProcessId) (recursive : Recursive) (snapshot : result Error (list (Z * Z)))
    (anchor anchor2 : Existence * option ViewUnreadable) (of_ : Z -> Resolved ProcessId) :
    option (result Error (list ProcessId)) :=
  match snapshot with
  | Err e => Some (Err e)
  | Ok parents =>
      match anchor_present anchor with
      | Err e => Some (Err e)
      | Ok false => Some (Ok [])
      | Ok true =>
          if existsb (fun e => e.1 =? pid self) parents then
            match recursive with
            | RecursiveNo => Some (Ok (children_of self parents of_))
            | RecursiveYes => ids ← descendants self parents of_; Some (Ok ids)
            end
          else Some (let? _ := absent_from_snapshot anchor2 in Ok [])
      end
  end.

(** * The tree the walk finds *)

Section tree.
Variables (root : ProcessId) (allow_equal : bool) (resolve : Z -> option ProcessId).
Variable parents : list (Z * Z).

(** [p] is below the root: a chain of edges, each to a process that resolves and is no older than
    the root. *)
Inductive descends : Z -> Prop :=
| descends_child p id :
    (p, pid root) ∈ parents -> p <> pid root ->
    resolve p = Some id -> keep root allow_equal (start id) = true -> descends p
| descends_below p pp id :
    (p, pp) ∈ parents -> descends pp -> p <> pp ->
    resolve p = Some id -> keep root allow_equal (start id) = true -> descends p.

(** An edge that needs no further look. *)
Definition settled (A : gset Z) (e : Z * Z) : Prop :=
  e.1 = e.2 \/ forall id, resolve e.1 = Some id -> keep root allow_equal (start id) = true -> e.1 ∈ A.

(** What [result] lists: the accepted pids, once each. *)
Definition listed (A : gset Z) (ids : list ProcessId) (L : list Z) : Prop :=
  NoDup L /\ (forall p, p ∈ L <-> p ∈ A) /\ Forall2 (fun p id => resolve p = Some id) L ids.

Record acc_ok (w : Walk) := {
  acc_memo : forall p o, wresolved w !! p = Some o -> o = resolve p;
  acc_listed : exists L, listed (waccepted w) (wresult w) L;
  acc_sound : forall p, p ∈ waccepted w -> descends p }.

(** Between rounds. *)
Record walk_inv (F : list Z) (w : Walk) := {
  inv_acc : acc_ok w;
  inv_front : forall p, p ∈ F -> p = pid root \/ p ∈ waccepted w;
  inv_pend : forall e, e ∈ wpending w ->
    e ∈ parents /\ (e.2 = pid root \/ e.2 ∈ waccepted w -> e.2 ∈ F);
  inv_done : forall e, e ∈ parents -> e ∈ wpending w \/ settled (waccepted w) e }.

(** Within a round that began with [w0]: [todo] is what is left to drain. *)
Record round_inv (F : list Z) (w0 : Walk) (todo : list (Z * Z)) (w : Walk) := {
  rnd_acc : acc_ok w;
  rnd_next : forall p, p ∈ wnext w -> p ∈ waccepted w;
  rnd_new : forall p, p ∈ waccepted w -> p ∈ waccepted w0 \/ p ∈ wnext w;
  rnd_old : waccepted w0 ⊆ waccepted w;
  rnd_pend : forall e, e ∈ wpending w -> e ∈ wpending w0 /\ e.2 ∉ F;
  rnd_done : forall e, e ∈ parents -> e ∈ todo \/ e ∈ wpending w \/ settled (waccepted w) e;
  rnd_len : (length (wpending w) + length (wnext w) + length todo <= length (wpending w0))%nat }.

Lemma settled_mono A A' e : A ⊆ A' -> settled A e -> settled A' e.
Proof. intros HA [?|H]; [by left|]. right. intros id H1 H2. by eapply HA, H. Qed.

(** Accepting [p], found below an accepted process or the root. *)
Lemma acc_accept w p id M :
  acc_ok w -> (forall q o, M !! q = Some o -> o = resolve q) ->
  resolve p = Some id -> p ∉ waccepted w -> descends p ->
  acc_ok (walk_st (wresult w ++ [id]) (wnext w ++ [p]) (wpending w) ({[p]} ∪ waccepted w) M).
Proof.
  intros [_ (L & Hn & HL & HF) Hs] HM Hr Hp Hd. split; cbn; [done| |].
  - exists (L ++ [p]). split; [|split].
    + apply NoDup_app. split; [done|]. split; [|apply NoDup_singleton].
      intros q Hq ->%list_elem_of_singleton. by apply Hp, HL.
    + intros q. rewrite elem_of_app, list_elem_of_singleton, HL. set_solver.
    + apply Forall2_app; [done|]. by constructor.
  - intros q Hq. apply elem_of_union in Hq as [->%elem_of_singleton|Hq]; [done|by apply Hs].
Qed.

Lemma memo_insert (M : gmap Z (option ProcessId)) p :
  (forall q o, M !! q = Some o -> o = resolve q) ->
  default (resolve p) (M !! p) = resolve p /\
  forall q o, <[p := resolve p]> M !! q = Some o -> o = resolve q.
Proof.
  intros HM. split.
  - destruct (M !! p) as [o|] eqn:E; cbn; [by apply HM in E|done].
  - intros q o. destruct (base.decide (p = q)) as [->|Hne].
    + rewrite lookup_insert_eq. by intros [= <-].
    + rewrite lookup_insert_ne by done. apply HM.
Qed.

(** [next], [pending] and what is memoised play no part. *)
Lemma acc_ext w N P M :
  acc_ok w -> (forall p o, M !! p = Some o -> o = resolve p) ->
  acc_ok (walk_st (wresult w) N P (waccepted w) M).
Proof. intros [_ ? ?] HM. by split. Qed.

(** One edge keeps the round's invariant. *)
Lemma visit_ok F w0 e todo w :
  walk_inv F w0 -> e ∈ parents -> e ∈ wpending w0 -> round_inv F w0 (e :: todo) w ->
  round_inv F w0 todo (visit root allow_equal resolve F w e).
Proof.
  intros I0 He Hp0 [Ha Hn Hnew Hold Hp Hd Hl]. destruct e as [p pp]. cbn [visit] in *.
  case_bool_decide as HF; [split; cbn; try done|].
  { apply acc_ext; [done|apply acc_memo, Ha]. }
  { intros e [?| ->%list_elem_of_singleton]%elem_of_app; [by apply Hp|done]. }
  { intros e [[->|?]%elem_of_cons|[?|?]]%Hd; rewrite elem_of_app, ?list_elem_of_singleton; tauto. }
  { rewrite length_app. cbn in *. lia. }
  assert (forall A, waccepted w ⊆ A -> settled A (p, pp) ->
    forall e, e ∈ parents -> e ∈ todo \/ e ∈ wpending w \/ settled A e) as Hset.
  { intros A HA Hs e [[->|?]%elem_of_cons|[?|?]]%Hd; [tauto|tauto|tauto|]. right; right. by eapply settled_mono. }
  destruct (Z.eqb_spec p pp) as [->|Hne].
  { split; cbn in *; try done; [|lia]. apply Hset; [done|by left]. }
  destruct (memo_insert (wresolved w) p (acc_memo _ Ha)) as [-> HM].
  assert (acc_ok (walk_st (wresult w) (wnext w) (wpending w) (waccepted w) (<[p:=resolve p]> (wresolved w)))) as Ha'.
  { by apply acc_ext. }
  destruct (resolve p) as [id|] eqn:Er.
  2: { split; cbn in *; try done; [|lia]. apply Hset; [done|]. right. cbn. by rewrite Er. }
  destruct (keep root allow_equal (start id)) eqn:Ek; cbn [negb].
  2: { split; cbn in *; try done; [|lia]. apply Hset; [done|]. right. cbn. rewrite Er. intros ? [= <-]. congruence. }
  case_bool_decide as HA; cbn in HA.
  { split; cbn in *; try done; [|lia]. apply Hset; [done|]. by right. }
  split; cbn [wresult wnext wpending waccepted wresolved].
  - apply (acc_accept w); try done.
    destruct (inv_front _ _ I0 pp) as [->|Hpp]; [apply dec_stable; tauto|by apply (descends_child p id)|].
    apply (descends_below p pp id); try done. by apply (acc_sound _ Ha), Hold.
  - set_solver.
  - set_solver.
  - set_solver.
  - done.
  - apply Hset; [set_solver|]. right. set_solver.
  - rewrite length_app. cbn in *. lia.
Qed.

Lemma fold_visit_ok F w0 todo w :
  walk_inv F w0 -> (forall e, e ∈ todo -> e ∈ parents /\ e ∈ wpending w0) ->
  round_inv F w0 todo w -> round_inv F w0 [] (foldl (visit root allow_equal resolve F) w todo).
Proof.
  intros I0. revert w. induction todo as [|e todo IH]; intros w Ht Hr; [done|]. cbn [foldl].
  apply IH; [intros e' He'; apply Ht; by right|].
  destruct (Ht e) as [? ?]; [by left|]. by apply visit_ok.
Qed.

(** A round re-establishes the invariant, and accepts no more than it drops. *)
Lemma round_ok F w :
  walk_inv F w ->
  let w' := round root allow_equal resolve F w in
  walk_inv (wnext w') w' /\ (length (wpending w') + length (wnext w') <= length (wpending w))%nat.
Proof.
  intros I w'. pose proof I as [Ha Hf Hp Hd].
  assert (round_inv F w [] w') as [Ha' Hn Hnew Hold Hp' Hd' Hl].
  { apply fold_visit_ok; [done|intros e He; split; [by apply Hp|done]|]. split; cbn.
    - apply acc_ext; [done|apply acc_memo, Ha].
    - intros p Hq. by apply not_elem_of_nil in Hq.
    - intros p Hq. by left.
    - done.
    - intros e He. by apply not_elem_of_nil in He.
    - intros e He. destruct (Hd e He); tauto.
    - lia. }
  split; [|cbn in Hl; lia]. split; [done| | |].
  - intros p Hq. right. by apply Hn.
  - intros e He. destruct (Hp' e He) as [He0 HeF]. destruct (Hp e He0) as [Hpar Hin]. split; [done|].
    intros [?|[?|?]%Hnew]; [by destruct HeF; apply Hin; left|by destruct HeF; apply Hin; right|done].
  - intros e He. destruct (Hd' e He) as [[]%not_elem_of_nil|?]; done.
Qed.

(** With an empty frontier the accepted pids are exactly those below the root. *)
Lemma walk_done w p : walk_inv [] w -> p ∈ waccepted w <-> descends p.
Proof.
  intros [Ha _ Hp Hd]. split; [apply Ha|].
  assert (forall p pp id, (p, pp) ∈ parents -> pp = pid root \/ pp ∈ waccepted w -> p <> pp ->
    resolve p = Some id -> keep root allow_equal (start id) = true -> p ∈ waccepted w) as Hstep.
  { intros q pp id He Hpp Hne Hr Hk. destruct (Hd _ He) as [Hin|[?|Hs]]; [|done|by apply (Hs id)].
    destruct (Hp _ Hin) as [_ Hf]. by destruct (not_elem_of_nil pp (Hf Hpp)). }
  induction 1 as [p id He Hne Hr Hk|p pp id He _ IH Hne Hr Hk];
    [apply (Hstep p (pid root) id)|apply (Hstep p pp id)]; tauto.
Qed.

Lemma walk_loop_ok fuel F w :
  walk_inv F w -> F = [] \/ (length (wpending w) < fuel)%nat ->
  exists ids L, walk_loop root allow_equal resolve fuel F w = Some ids /\
    NoDup L /\ (forall p, p ∈ L <-> descends p) /\ Forall2 (fun p id => resolve p = Some id) L ids.
Proof.
  revert F w; induction fuel as [|fuel IH]; intros F w HI Hfuel.
  all: destruct F as [|f F].
  1,3: pose proof (acc_listed _ (inv_acc _ _ HI)) as (L & Hn & HL & HF); exists (wresult w), L;
    (split; [done|split; [done|split; [|done]]]); intros p; by rewrite HL, (walk_done w).
  - destruct Hfuel; [done|lia].
  - destruct Hfuel as [|Hfuel]; [done|]. destruct (round_ok _ _ HI) as [HI' Hl].
    cbn [walk_loop]. apply IH; [done|].
    destruct (wnext _); [by left|right]. cbn in Hl. lia.
Qed.

Lemma walk_inv_init : walk_inv [pid root] (walk_st [] [] parents ∅ ∅).
Proof.
  split; cbn.
  - split; cbn; [intros p o H; by rewrite lookup_empty in H| |set_solver].
    exists []. split; [constructor|]. split; [set_solver|constructor].
  - intros p ->%list_elem_of_singleton. by left.
  - intros e He. split; [done|]. intros [->|?]; set_solver.
  - intros e He. by left.
Qed.

Lemma descendants_with_ok :
  exists ids L, descendants_with root allow_equal resolve parents = Some ids /\
    NoDup L /\ (forall p, p ∈ L <-> descends p) /\ Forall2 (fun p id => resolve p = Some id) L ids.
Proof. apply walk_loop_ok; [apply walk_inv_init|]. right. cbn. lia. Qed.

Lemma Forall2_pids L ids :
  (forall p id, resolve p = Some id -> pid id = p) ->
  Forall2 (fun p id => resolve p = Some id) L ids -> ids = omap resolve L /\ L = pid <$> ids.
Proof.
  intros Hr. induction 1 as [|p id L ids Hp _ [-> IH]]; [done|]. cbn. rewrite Hp. split; [done|].
  cbn. by rewrite (Hr _ _ Hp), <- IH.
Qed.
End tree.

(** What the live walk lists: verified processes below the root, once each. *)
Definition below (root : ProcessId) (parents : list (Z * Z)) (of_ : Z -> Resolved ProcessId) (id : ProcessId) : Prop :=
  descends root ALLOW_EQUAL_TOKEN (fun p => resolve_or_drop (of_ p)) parents (pid id) /\ of_ (pid id) = Found id.

(** [ProcessId::of] answers with the pid it was asked about ([of_with_Found]). *)
Definition names_its_pid (of_ : Z -> Resolved ProcessId) : Prop :=
  forall p id, of_ p = Found id -> pid id = p.

Lemma resolve_or_drop_Some a id : resolve_or_drop a = Some id <-> a = Found id.
Proof. destruct a; cbn; naive_solver. Qed.

Lemma descendants_live root parents of_ :
  names_its_pid of_ ->
  exists ids, descendants root parents of_ = Some ids /\ NoDup (pid <$> ids) /\
    forall id, id ∈ ids <-> below root parents of_ id.
Proof.
  intros Hn. unfold descendants, below.
  set (r := fun p => resolve_or_drop (of_ p)).
  destruct (descendants_with_ok root ALLOW_EQUAL_TOKEN r parents) as (ids & L & He & Hd & HL & HF).
  assert (forall p id, r p = Some id -> pid id = p) as Hr.
  { intros p id Hp%resolve_or_drop_Some. by apply Hn. }
  exists ids. destruct (Forall2_pids r L ids Hr HF) as [HI Hp]. split; [done|]. rewrite <- Hp. split; [done|].
  intros id. rewrite HI, list_elem_of_omap, <- HL. split.
  - intros (p & Hin & Hs). pose proof (Hr _ _ Hs) as <-. split; [done|]. by apply resolve_or_drop_Some.
  - intros [Hin Hs]. exists (pid id). split; [done|]. by apply resolve_or_drop_Some.
Qed.

(** What a single kill shows. *)
Lemma kill_by_identity_sent id a kill t :
  t ∈ (kill_by_identity id a kill).2 -> a = Found id /\ t = pid id /\ 0 < t <= i32_max.
Proof.
  unfold kill_by_identity. destruct a as [live| |]; cbn; [|set_solver..].
  case_bool_decide as Hl; [subst live|cbn; set_solver].
  destruct (signal_target (pid id)) as [u|] eqn:E; cbn; [|set_solver].
  intros ->%list_elem_of_singleton. by apply signal_target_Some in E as [-> ?].
Qed.

(** [id] was dealt with at its kill: it took the signal, or was not there any more. *)
Definition dealt_with (id : ProcessId) (a : Resolved ProcessId) (kill : Z -> result Z unit) : Prop :=
  a = Gone \/ (exists live, a = Found live /\ live <> id) \/
  a = Found id /\ exists t, signal_target (pid id) = Some t /\ (kill t = Err ESRCH \/ exists u, kill t = Ok u).

Lemma kill_by_identity_attempted id a kill :
  (kill_by_identity id a kill).1 <> NotAttempted <-> dealt_with id a kill.
Proof.
  unfold kill_by_identity, dealt_with. destruct a as [live| |]; cbn.
  - case_bool_decide as Hl.
    + subst live. destruct (signal_target (pid id)) as [t|] eqn:E; cbn.
      * destruct (kill t) as [u|e] eqn:Ek; [|destruct (Z.eqb_spec e ESRCH) as [->|Hne]].
        { split; [|done]. intros _. right; right. split; [done|]. exists t. eauto. }
        { split; [|done]. intros _. right; right. split; [done|]. exists t. eauto. }
        { split; [done|]. intros [?|[(? & [= <-] & ?)|(_ & ? & [= <-] & [?|[? ?]])]]; congruence. }
      * split; [done|]. intros [?|[(? & [= <-] & ?)|(_ & ? & ? & _)]]; congruence.
    + split; [|done]. intros _. right; left. by exists live.
  - split; [|done]. by left.
  - split; [done|]. intros [?|[(? & ? & _)|[? _]]]; congruence.
Qed.

Lemma kill_all_sent ids of_at kill_at n t :
  t ∈ (kill_all n ids of_at kill_at).2 ->
  exists k id, ids !! k = Some id /\ of_at (n + k)%nat (pid id) = Found id /\ t = pid id /\ 0 < t <= i32_max.
Proof.
  revert n. induction ids as [|id ids IH]; intros n; cbn [kill_all]; [cbn; set_solver|].
  destruct (kill_by_identity id (of_at n (pid id)) (kill_at n)) as [o s] eqn:Ek.
  specialize (IH (S n)). destruct (kill_all (S n) ids of_at kill_at) as [c rest]. cbn [snd] in *.
  intros [Hs|Hr]%elem_of_app.
  - pose proof (kill_by_identity_sent id (of_at n (pid id)) (kill_at n) t) as H. rewrite Ek in H.
    exists O, id. rewrite Nat.add_0_r. split; [done|by apply H].
  - destruct (IH Hr) as (k & id' & Hk & Ho & H). exists (S k), id'. by rewrite <- Nat.add_succ_comm.
Qed.

Lemma kill_all_complete ids of_at kill_at n :
  (kill_all n ids of_at kill_at).1 = true <->
  forall k id, ids !! k = Some id -> dealt_with id (of_at (n + k)%nat (pid id)) (kill_at (n + k)%nat).
Proof.
  revert n. induction ids as [|id ids IH]; intros n; cbn [kill_all]; [by split|].
  pose proof (kill_by_identity_attempted id (of_at n (pid id)) (kill_at n)) as Hk.
  destruct (kill_by_identity id (of_at n (pid id)) (kill_at n)) as [o s].
  specialize (IH (S n)). destruct (kill_all (S n) ids of_at kill_at) as [c rest]. cbn [fst] in *.
  rewrite andb_true_iff, bool_decide_eq_true, Hk, IH. split.
  - intros [H1 H2] [|k] id'; cbn; [intros [= <-]; by rewrite Nat.add_0_r|].
    rewrite <- Nat.add_succ_comm. apply H2.
  - intros H. split; [specialize (H O id eq_refl); by rewrite Nat.add_0_r in H|].
    intros k id' Hl. specialize (H (S k) id' Hl). by rewrite <- Nat.add_succ_comm in H.
Qed.

(** The parts of a teardown that walks. *)
Lemma signal_tree_walks root parents view of_ of_at kill_at :
  names_its_pid of_ ->
  exists ids, NoDup (pid <$> ids) /\ (forall id, id ∈ ids <-> below root parents of_ id) /\
    signal_tree root (Ok parents) (Present, view) of_ of_at kill_at =
      Some (Ok (kill_all 0 (root :: ids) of_at kill_at).1, (kill_all 0 (root :: ids) of_at kill_at).2).
Proof.
  intros Hn. destruct (descendants_live root parents of_ Hn) as (ids & He & Hd & Hi).
  exists ids. split; [done|]. split; [done|]. unfold signal_tree. cbn [anchor_present]. rewrite He. cbn [mbind option_bind].
  by destruct (kill_all 0 (root :: ids) of_at kill_at).
Qed.

Lemma anchor_present_true a : anchor_present a = Ok true <-> a.1 = Present.
Proof. destruct a as [[] v]; cbn; naive_solver. Qed.

(** The one-level filter. *)
Section one_level.
Variables (root : ProcessId) (allow_equal : bool) (resolve : Z -> option ProcessId).

Definition child_edge (e : Z * Z) (id : ProcessId) : Prop :=
  e.2 = pid root /\ e.1 <> e.2 /\ resolve e.1 = Some id /\ keep root allow_equal (start id) = true.

Lemma child_step_spec out seen e :
  (forall e' id, child_edge e' id -> e'.1 = e.1 -> e.1 ∈ seen -> id ∈ out) ->
  forall id, id ∈ (child_step root allow_equal resolve (out, seen) e).1 <-> id ∈ out \/ child_edge e id.
Proof.
  intros Hseen id. destruct e as [p pp]. unfold child_edge. cbn [child_step fst snd].
  assert (forall P : Prop, ~ P -> id ∈ out <-> id ∈ out \/ P) as Hno by tauto.
  destruct (Z.eqb_spec pp (pid root)) as [->|Hpp]; cbn [negb orb]; [|apply Hno; tauto].
  destruct (Z.eqb_spec p (pid root)) as [->|Hp]; [apply Hno; tauto|].
  destruct (resolve p) as [id'|] eqn:Er; [|apply Hno; intros (_ & _ & ? & _); congruence].
  destruct (keep root allow_equal (start id')) eqn:Ek; cbn [negb].
  2: { apply Hno. intros (_ & _ & [= <-] & ?). congruence. }
  case_bool_decide as Hin; cbn [fst].
  - split; [by left|]. intros [?|(_ & _ & [= <-] & _)]; [done|].
    apply (Hseen (p, pid root)); [|done|done]. by repeat split.
  - rewrite elem_of_app, list_elem_of_singleton. split.
    + intros [?| ->]; [by left|right]. by repeat split.
    + intros [?|(_ & _ & [= <-] & _)]; [by left|by right].
Qed.

Lemma child_fold_spec parents out seen :
  (forall e id, child_edge e id -> e.1 ∈ seen -> id ∈ out) ->
  forall id, id ∈ (foldl (child_step root allow_equal resolve) (out, seen) parents).1 <->
    id ∈ out \/ exists e, e ∈ parents /\ child_edge e id.
Proof.
  revert out seen. induction parents as [|e parents IH]; intros out seen Hs id; cbn [foldl].
  - split; [by left|]. intros [?|(e & He & _)]; [done|]. by apply not_elem_of_nil in He.
  - pose proof (child_step_spec out seen e) as Hstep.
    specialize (Hstep (fun e' id' H E Hin => Hs e' id' H (eq_ind_r (fun q => q ∈ seen) Hin E))).
    assert (forall q, q ∈ (child_step root allow_equal resolve (out, seen) e).2 ->
      q ∈ seen \/ q = e.1 /\ exists id', child_edge e id') as Hseen2.
    { intros q. destruct e as [p pp]. unfold child_edge. cbn [child_step fst snd].
      destruct (Z.eqb_spec pp (pid root)) as [->|]; cbn [negb orb]; [|by left].
      destruct (Z.eqb_spec p (pid root)) as [->|]; [by left|]. destruct (resolve p) as [id'|] eqn:Er; [|by left].
      destruct (keep root allow_equal (start id')) eqn:Ek; cbn [negb]; [|by left]. case_bool_decide; [by left|].
      cbn. intros [ ->%elem_of_singleton|?]%elem_of_union; [right|by left]. split; [done|]. by exists id'. }
    destruct (child_step root allow_equal resolve (out, seen) e) as [out' seen'] eqn:E. cbn [fst snd] in *.
    rewrite IH.
    + rewrite Hstep. split.
      * intros [[?|?]|(e' & He' & ?)]; [by left| |]; right; [exists e|exists e']; (split; [|done]);
          apply elem_of_cons; [by left|by right].
      * intros [?|(e' & [->|He']%elem_of_cons & ?)]; [by left; left|by left; right|right; by exists e'].
    + intros e' id' He' Hq. apply Hstep. apply Hseen2 in Hq as [Hq|[Hq (i & Hi)]]; [left; by eapply Hs|].
      right. destruct e' as [p' q'], e as [p q]. cbn in Hq. subst p'.
      destruct He' as (H1 & H2 & H3), Hi as (H4 & H5 & _). cbn in *. subst. done.
Qed.
End one_level.

Lemma children_of_live parent parents of_ id :
  names_its_pid of_ ->
  id ∈ children_of parent parents of_ <->
  (pid id, pid parent) ∈ parents /\ pid id <> pid parent /\ of_ (pid id) = Found id /\
  keeps_token (start id) (start parent) ALLOW_EQUAL_TOKEN = true.
Proof.
  intros Hn. unfold children_of, children_of_with. rewrite child_fold_spec.
  2: { intros e i _ H. set_solver. }
  split.
  - intros [H|([p pp] & He & H1 & H2 & Hr & Hk)]; [by apply not_elem_of_nil in H|]. cbn in *. subst pp.
    apply resolve_or_drop_Some in Hr. pose proof (Hn _ _ Hr) as <-. done.
  - intros (He & Hne & Ho & Hk). right. exists (pid id, pid parent). split; [done|].
    repeat split; cbn; [done| |done]. by apply resolve_or_drop_Some.
Qed.

(** A row of the snapshot, and a pid left out. *)
Lemma parents_of_Ok {D} `{K : Kernel D} dir pids rows :
  parents_of dir pids = Ok rows ->
  (forall p pp, (p, pp) ∈ rows <-> p ∈ pids /\ exists stat, read_in_scan dir p = Ok (SRead stat) /\ parse_ppid stat = Some pp) /\
  forall p, p ∈ pids -> p ∉ rows.*1 -> exists e, read_in_scan dir p = Ok (Skipped e).
Proof.
  revert rows. induction pids as [|q pids IH]; intros rows; cbn [parents_of].
  { intros [= <-]. split; [|set_solver]. intros p pp. split; [set_solver|]. by intros [H%not_elem_of_nil _]. }
  destruct (read_in_scan dir q) as [[stat|e]|u] eqn:Es; [| |done].
  - unfold ppid_of_stat. destruct (parse_ppid stat) as [ppid|] eqn:Ep; cbn [ok_or]; [|done].
    destruct (parents_of dir pids) as [out|e]; [|done]. intros [= <-]. destruct (IH out eq_refl) as [H1 H2].
    split.
    + intros p pp. rewrite !elem_of_cons, H1. split.
      * intros [[= -> ->]|[? ?]]; [split; [by left|]; by eauto|split; [by right|done]].
      * intros [[ ->|?] (st & Hs & Hp)]; [left|right; by eauto]. congruence.
    + intros p. cbn. rewrite !not_elem_of_cons. intros [->|Hp]%elem_of_cons [Hne Hn]; [done|by apply H2].
  - intros Hr. destruct (IH rows Hr) as [H1 H2]. split.
    + intros p pp. rewrite elem_of_cons, H1. split; [intros [? ?]; tauto|].
      intros [[ ->|?] (st & Hs & Hp)]; [congruence|by eauto].
    + intros p [->|Hp]%elem_of_cons Hn; [by exists e|by apply H2].
Qed.

(** * Properties *)

(** The walk ends, and finds the process tree: for every snapshot, cycles and duplicate edges
    included, and every answer about the pids, [descendants_with] returns (its loop runs at most
    one round more than there are edges) each pid once, and exactly those that reach the root by a
    chain of edges each of whose processes resolves and is no older than the root; so nothing below
    a process that cannot be verified, or whose pid was recycled, is in it. *)
Theorem descendants_with_spec root allow_equal resolve parents :
  exists ids L, descendants_with root allow_equal resolve parents = Some ids /\
    NoDup L /\ (forall p, p ∈ L <-> descends root allow_equal resolve parents p) /\
    Forall2 (fun p id => resolve p = Some id) L ids.
Proof. apply descendants_with_ok. Qed.

(** C11: a teardown signals nothing it has not verified: for every behaviour of the system,
    [hard_kill] returns, and each signal it sends goes to the pid of the root or of a process the
    walk found below it, at a moment at which that pid still resolves to that very identity, and
    never to a number that addresses a group ([0], or above [i32::MAX]). Without a snapshot, or
    with an anchor that is not [Present], it sends nothing. *)
Theorem hard_kill_verified root snapshot anchor of_ of_at kill_at :
  names_its_pid of_ ->
  exists r sent, hard_kill root snapshot anchor of_ of_at kill_at = Some (r, sent) /\
    (sent <> [] -> (exists parents, snapshot = Ok parents) /\ anchor.1 = Present) /\
    forall t, t ∈ sent -> exists n id parents, snapshot = Ok parents /\
      (id = root \/ below root parents of_ id) /\
      of_at n (pid id) = Found id /\ t = pid id /\ 0 < t <= i32_max.
Proof.
  intros Hn. unfold hard_kill. destruct snapshot as [parents|e].
  2: { exists (Err e), []. split; [done|]. split; [done|]. intros t H. by apply not_elem_of_nil in H. }
  destruct anchor as [[] view].
  - destruct (signal_tree_walks root parents view of_ of_at kill_at Hn) as (ids & _ & Hi & ->).
    eexists _, _. split; [done|]. split; [intros _; by eauto|].
    intros t Ht%kill_all_sent. destruct Ht as (k & id & Hk & H). exists k, id, parents. split; [done|].
    split; [|done]. apply list_elem_of_lookup_2 in Hk. apply elem_of_cons in Hk as [->|Hk]; [by left|right; by apply Hi].
  - exists (Ok true), []. split; [done|]. split; [done|]. intros t H. by apply not_elem_of_nil in H.
  - exists (Err (unqueryable view)), []. split; [done|]. split; [done|]. intros t H. by apply not_elem_of_nil in H.
Qed.

Lemma hard_kill_verified_witness :
  let of_ := fun p => if p =? 8 then Found (process_id 8 5) else Gone in
  names_its_pid of_ /\
  hard_kill (process_id 7 3) (Ok [(7, 1); (8, 7); (9, 7)]) (Present, None) of_
    (fun _ p => if p =? 7 then Found (process_id 7 3) else of_ p) (fun _ _ => Ok tt) = Some (Ok true, [7; 8]).
Proof.
  set (of_ := fun p => if p =? 8 then Found (process_id 8 5) else Gone). cbn zeta.
  assert (names_its_pid of_) as Hn.
  { intros p id. unfold of_. destruct (Z.eqb_spec p 8); [by intros [= <-]|done]. }
  split; [exact Hn|].
  destruct (hard_kill_verified (process_id 7 3) (Ok [(7, 1); (8, 7); (9, 7)]) (Present, None) of_
    (fun _ p => if p =? 7 then Found (process_id 7 3) else of_ p) (fun _ _ => Ok tt) Hn) as (r & sent & He & _).
  transitivity (Some (r, sent)); [exact He|]. vm_compute in He. by injection He as <- <-.
Defined.

(** [Ok(true)] means the tree is dealt with: when [hard_kill] walked, its root came first, and
    it reports a complete walk exactly when the root and every process below it, at its own kill,
    took the signal, was gone, or had lost its pid to another process. *)
Theorem hard_kill_complete root parents view of_ of_at kill_at :
  names_its_pid of_ ->
  exists ids complete sent,
    hard_kill root (Ok parents) (Present, view) of_ of_at kill_at = Some (Ok complete, sent) /\
    NoDup (pid <$> ids) /\ (forall id, id ∈ ids <-> below root parents of_ id) /\
    (complete = true <->
     forall n id, (root :: ids) !! n = Some id -> dealt_with id (of_at n (pid id)) (kill_at n)).
Proof.
  intros Hn. unfold hard_kill.
  destruct (signal_tree_walks root parents view of_ of_at kill_at Hn) as (ids & Hd & Hi & ->).
  eexists ids, _, _. split; [done|]. split; [done|]. split; [done|]. apply kill_all_complete.
Qed.

Lemma hard_kill_complete_witness :
  exists complete sent,
    hard_kill (process_id 7 3) (Ok []) (Present, None) (fun _ => Gone) (fun _ _ => Unknown) (fun _ _ => Ok tt)
      = Some (Ok complete, sent) /\ complete <> true.
Proof.
  destruct (hard_kill_complete (process_id 7 3) [] None (fun _ => Gone) (fun _ _ => Unknown) (fun _ _ => Ok tt))
    as (ids & c & s & H & _ & _ & Hc); [by intros p id|].
  exists c, s. split; [exact H|]. intros Ht. destruct (proj1 Hc Ht O _ eq_refl) as [?|[(? & ? & _)|[? _]]]; congruence.
Defined.

(** A snapshot omits no process that can be read: [process_parents] succeeds only over the
    caller's own [/proc], with a row for each listed pid whose record was read, carrying the parent
    that record names, and every listed pid without a row was one [read_in_scan] skips (exited, or
    refused). *)
Theorem process_parents_Ok {D} `{K : Kernel D} names rows :
  process_parents names = Ok rows ->
  exists dir pids, own_namespace dir /\ collect_pids (names dir) = Ok pids /\
    (forall p pp, (p, pp) ∈ rows <->
       p ∈ pids /\ exists stat, read dir (stat_path p) = Ok stat /\ parse_ppid stat = Some pp) /\
    forall p, p ∈ pids -> p ∉ rows.*1 -> exists e, read_in_scan dir p = Ok (Skipped e).
Proof.
  unfold process_parents. destruct (into_dir proc_view_with) as [dir|why] eqn:Ev; [|done].
  destruct (collect_pids (names dir)) as [pids|e] eqn:Ep; [|done]. intros [H1 H2]%parents_of_Ok.
  exists dir, pids. split; [by apply proc_view_Same, into_dir_Ok|]. split; [done|]. split; [|done].
  intros p pp. rewrite H1. apply and_iff_compat_l.
  assert (forall st, read_in_scan dir p = Ok (SRead st) <-> read dir (stat_path p) = Ok st) as Hr.
  { intros st. unfold read_in_scan, read_stat_file. destruct (read dir (stat_path p)) as [b|e]; [by split; intros [= <-]|].
    split; [|done]. destruct (os_is e _); [done|]. destruct (os_is e [EPERM]); [by destruct (check_dir_answers dir)|].
    by destruct (os_is e _). }
  split; intros (st & ? & ?); exists st; by rewrite ?Hr in *.
Qed.

(** A table of answers: one process, [8], child of [7]; [9] is hidden. *)
Definition table_kernel : Kernel unit := {|
  open_proc := Ok tt;
  read := fun _ path =>
    if bool_decide (path = bs "self/status") then Ok (bs "NSpid:" ++ [9] ++ bs "8" ++ [10])
    else if bool_decide (path = bs "8/stat") then Ok (bs "8 (a) b) S 7 8 8 0")
    else Err (from_raw_os_error ENOENT);
  kernel_signal_probe := fun _ => Ok tt;
  read_link := fun _ _ => Err (from_raw_os_error ENOENT);
  link_exists := fun _ _ => Ok true |}.

Lemma process_parents_Ok_witness :
  exists dir : unit, @own_namespace unit table_kernel dir /\
    exists e, @read_in_scan unit table_kernel dir 9 = Ok (Skipped e).
Proof.
  destruct (@process_parents_Ok unit table_kernel (fun _ => [Ok (bs "self"); Ok (bs "8"); Ok (bs "9")]) [(8, 7)])
    as (dir & pids & Ho & Hp & _ & Hs); [by vm_compute|].
  exists dir. split; [exact Ho|]. apply Hs.
  - vm_compute in Hp. injection Hp as <-. by right; left.
  - cbn. apply not_elem_of_cons. split; [lia|apply not_elem_of_nil].
Defined.

(** [parent] and [children] are converses: a parent is reported only to a process that still
    holds its pid, from its own row of the snapshot, and is no younger than it; and whoever
    [parent] reports, on the same snapshot lists that child among its [children]. *)
Theorem parent_children self p parents anchor anchor2 of_explained of_ :
  parent self (Ok parents) anchor anchor2 of_explained = Ok (Some p) ->
  (forall q, (of_explained q).1 = of_ q) -> names_its_pid of_ -> of_ (pid self) = Found self ->
  anchor.1 = Present /\ start p <= start self /\ pid p <> pid self /\ of_ (pid p) = Found p /\
  self ∈ children_of p parents of_.
Proof.
  intros Hp Heq Hn Hself. unfold parent in Hp. cbn in Hp.
  destruct (anchor_present anchor) as [[]|e] eqn:Ea; [|done..]. cbn [negb] in Hp.
  apply anchor_present_true in Ea. split; [done|].
  unfold parent_pid_in in Hp. destruct (list_find _ parents) as [[i [q ppid]]|] eqn:Ef.
  2: { by destruct (absent_from_snapshot anchor2). }
  apply list_find_Some in Ef as (Hl & Hq & _). cbn in Hq. subst q. apply list_elem_of_lookup_2 in Hl.
  destruct (Z.eqb_spec ppid (pid self)) as [|Hne]; [done|].
  pose proof (Heq ppid) as Ho. destruct (of_explained ppid) as [[live| |] cause]; [|done..]. cbn in Ho.
  destruct (keeps_token _ _ _) eqn:Ek; [|done]. injection Hp as ->.
  symmetry in Ho. pose proof (Hn _ _ Ho) as <-.
  assert (start p <= start self) as Hle.
  { unfold keeps_token, start_token_raw in Ek. apply orb_true_iff in Ek as [?%Z.ltb_lt|[_ ?%Z.eqb_eq]%andb_true_iff]; lia. }
  split; [done|]. split; [done|]. split; [done|]. apply children_of_live; [done|]. by repeat split.
Qed.

Lemma parent_children_witness :
  let self := process_id 8 5 in let p := process_id 7 3 in
  let of_ := fun q => if q =? 7 then Found p else if q =? 8 then Found self else Gone in
  self ∈ children_of p [(7, 1); (8, 7)] of_.
Proof.
  set (of_ := fun q => if q =? 7 then Found (process_id 7 3) else if q =? 8 then Found (process_id 8 5) else Gone).
  cbn zeta. destruct (parent_children (process_id 8 5) (process_id 7 3) [(7, 1); (8, 7)]
    (Present, None) (Present, None) (fun q => (of_ q, None)) of_) as (_ & _ & _ & _ & H); try reflexivity.
  - intros q id. unfold of_. destruct (Z.eqb_spec q 7) as [->|_]; [by intros [= <-]|].
    destruct (Z.eqb_spec q 8) as [->|_]; [by intros [= <-]|done].
  - exact H.
Defined.

(** The doc of [descendants_with] says that the root is never included; on a snapshot with a cycle
    through the root it is, where equal tokens are kept. *)
Example root_in_cycle :
  descendants_with (process_id 5 10) true (fun p => Some (process_id p 10)) [(7, 5); (5, 7)] =
  Some [process_id 7 10; process_id 5 10].
Proof. vm_compute. reflexivity. Qed.
