(* ===== verification/Pidfd.v ===== *)
(** Opening a process by identity: [src/os_process/linux/open.rs].

    Each step that reads the kernel has a [Kernel] of its own, since the system can change between
    them; a pidfd is a number. *)
From S2P Require Import Prelude Numbers IoErrors Identity CrateError ProcView ProcIdentity.
Local Open Scope Z_scope.

Definition ENODEV : Z := 19.

(** [refusal_name]: whether the code is a refusal of [pidfd_open]. *)
Definition refusal_name (errno : Z) : bool :=
  (errno =? ENOSYS) || (errno =? EPERM) || (errno =? EACCES) || (errno =? ENODEV).

Definition pidfd_open_unsupported : Error := EUnsupported.

Definition spawn_open_error (errno : Z) : Error :=
  if refusal_name errno then pidfd_open_unsupported else Io (io_context (from_raw_os_error errno)).

(** [probe_pidfd_support], from what [pidfd_open] of this process answers. *)
Definition probe_pidfd_support (opened : result Z Z) : result Error unit :=
  match opened with Ok _ => Ok tt | Err e => Err (spawn_open_error e) end.

Definition unassessable (source : option IoError) (pidfd_errno : option Z) : Error :=
  Unassessable (match source with Some e => Some e | None => from_raw_os_error <$> pidfd_errno end).

Definition view_unreadable (why : ViewUnreadable) (pidfd_errno : option Z) : Error :=
  match unsupported why with
  | Some e => e
  | None => unassessable (vsource why) pidfd_errno
  end.

Section open.
Context {D : Type}.

(** [kill(pid, 0)], the view, and the two reads through it are four moments. *)
Definition verify_without_pidfd (K1 K2 K3 K4 : Kernel D) (id : ProcessId) (errno : Z) : result Error (option Z) :=
  if signal_says_no_such_process (K := K1) (pid id) then Ok None
  else match proc_view_with (K := K2) with
  | Same dir =>
      match exists_in (K := K3) id dir with
      | EGone => Ok None
      | Present =>
          match is_alive_in (K := K4) id dir with
          | Dead => Ok None
          | Alive => Err (NotThreadGroupLeader (pid id) (from_raw_os_error errno))
          | LUnknown => Err (unassessable None (Some errno))
          end
      | EUnknown => Err (unassessable None (Some errno))
      end
  | Diverged => Err (unassessable None (Some errno))
  | ViewUnassessable why => Err (view_unreadable why (Some errno))
  end.

Definition verify_pidfd_target (K1 K2 : Kernel D) (id : ProcessId) (pidfd : Z) : result Error (option Z) :=
  match open_proc (Kernel := K1) with
  | Err why => Err (view_unreadable why None)
  | Ok dir =>
      match pidfd_target_in (K := K1) dir pidfd with
      | Ok Reaped => Ok None
      | Ok (Pid p) =>
          if p =? pid id then
            match exists_in (K := K2) id dir with
            | Present => Ok (Some pidfd)
            | EGone => Ok None
            | EUnknown => Err (unassessable None None)
            end
          else Err (unassessable None None)
      | Err why => Err (unassessable (vsource why) None)
      end
  end.

(** [open_verified]; [opened] is the answer of [pidfd_open]. *)
Definition open_verified (K1 K2 K3 K4 : Kernel D) (id : ProcessId) (opened : result Z Z) : result Error (option Z) :=
  match opened with
  | Ok pidfd => verify_pidfd_target K1 K2 id pidfd
  | Err e =>
      if e =? ESRCH then Ok None
      else if (e =? EINVAL) || (e =? ENOENT) then verify_without_pidfd K1 K2 K3 K4 id e
      else if refusal_name e then Err pidfd_open_unsupported
      else Err (Io (io_context (from_raw_os_error e)))
  end.
End open.

(** * Lemmas *)

Section lemmas.
Context {D : Type} `{K : Kernel D}.

(** The record of [p] through [dir] names another start time, or is unreadable while the kernel says
    that nothing has the pid. *)
Definition gone_in (dir : D) (id : ProcessId) : Prop :=
  (exists stat t, read dir (stat_path (pid id)) = Ok stat /\ parse_starttime_jiffies stat = Some t /\ t <> start id) \/
  (forall stat, read dir (stat_path (pid id)) <> Ok stat) /\ provably_gone (pid id).

Lemma exists_in_Present dir id :
  exists_in id dir = Present <->
  exists stat, read dir (stat_path (pid id)) = Ok stat /\ parse_starttime_jiffies stat = Some (start id).
Proof.
  unfold exists_in, start_token_in. rewrite existence_from_Present, start_token_from_Found.
  split; intros (b & Hb & Ht); exists b; (split; [|done]); by apply stat_by_pid_Found.
Qed.

Lemma exists_in_Gone dir id : exists_in id dir = EGone <-> gone_in dir id.
Proof.
  unfold exists_in, start_token_in, gone_in. rewrite existence_from_Gone, start_token_from_Gone, stat_by_pid_Gone.
  split; (intros [H|H]; [|]).
  - by right.
  - left. destruct H as (t & (b & Hb%stat_by_pid_Found & Ht)%start_token_from_Found & Hne). by exists b, t.
  - right. destruct H as (b & t & Hb & Ht & Hne). exists t. split; [|done].
    apply start_token_from_Found. exists b. split; [by apply stat_by_pid_Found|done].
  - by left.
Qed.
End lemmas.

Lemma signal_says_gone {D} `{K : Kernel D} p : signal_says_no_such_process p = true -> provably_gone p.
Proof.
  unfold signal_says_no_such_process, signal_probe, provably_gone. rewrite bool_decide_eq_true.
  destruct (signal_target p) as [t|]; [|by left]. destruct (kernel_signal_probe t) as [u|e] eqn:E; [done|].
  destruct (Z.eqb_spec e ESRCH) as [->|]; [|done]. intros _. right. by exists t.
Qed.

(** * Properties *)

(** Opening by identity hands out a pidfd only for the very process: [open_verified] gives one
    exactly when [pidfd_open] succeeded and, through one [/proc] directory, the pidfd's own record
    numbers its target as the identity's pid and that pid's [stat] has the identity's start time;
    so a pid recycled before the open, or a [/proc] of another namespace, never yields one. *)
Theorem open_verified_pins {D} (K1 K2 K3 K4 : Kernel D) id opened fd :
  open_verified K1 K2 K3 K4 id opened = Ok (Some fd) <->
  opened = Ok fd /\ exists dir, open_proc (Kernel := K1) = Ok dir /\
    pidfd_target_in (K := K1) dir fd = Ok (Pid (pid id)) /\
    exists stat, read (Kernel := K2) dir (stat_path (pid id)) = Ok stat /\
      parse_starttime_jiffies stat = Some (start id).
Proof.
  unfold open_verified. destruct opened as [pidfd|e].
  - unfold verify_pidfd_target. destruct (open_proc (Kernel := K1)) as [dir|why].
    2: { split; [done|]. by intros (_ & ? & ? & _). }
    destruct (pidfd_target_in (K := K1) dir pidfd) as [[p|]|why] eqn:Et.
    + destruct (Z.eqb_spec p (pid id)) as [->|Hne].
      * destruct (exists_in (K := K2) id dir) eqn:Ee.
        { apply exists_in_Present in Ee. split; [|by intros ([= ->] & _)].
          intros [= <-]. split; [done|]. by exists dir. }
        { split; [done|]. intros (_ & d & [= <-] & _ & H%exists_in_Present). congruence. }
        { split; [done|]. intros (_ & d & [= <-] & _ & H%exists_in_Present). congruence. }
      * split; [done|]. intros ([= <-] & d & [= <-] & H & _). congruence.
    + split; [done|]. intros ([= <-] & d & [= <-] & H & _). congruence.
    + split; [done|]. intros ([= <-] & d & [= <-] & H & _). congruence.
  - split; [|by intros [? _]]. destruct (e =? ESRCH); [done|]. destruct ((e =? EINVAL) || (e =? ENOENT)).
    + unfold verify_without_pidfd. destruct (signal_says_no_such_process _); [done|].
      destruct proc_view_with; [|done..]. destruct (exists_in id dir); [|done..]. by destruct (is_alive_in id dir).
    + by destruct (refusal_name e).
Qed.

(** An open calls a process gone only on evidence: when [open_verified] answers that there is
    nothing to open, [pidfd_open] said [ESRCH], or the open pidfd's target was reaped, or the pid's
    record (through the pidfd's [/proc], or the caller's own) has another start time or an exited
    state, or [kill(pid, 0)] said [ESRCH]. *)
Theorem open_verified_gone {D} (K1 K2 K3 K4 : Kernel D) id opened :
  open_verified K1 K2 K3 K4 id opened = Ok None ->
  opened = Err ESRCH \/
  (exists fd dir, opened = Ok fd /\ open_proc (Kernel := K1) = Ok dir /\
    (pidfd_target_in (K := K1) dir fd = Ok Reaped \/ gone_in (K := K2) dir id)) \/
  (exists e, opened = Err e /\ e ∈ [EINVAL; ENOENT]) /\
  (provably_gone (K := K1) (pid id) \/
   exists dir, own_namespace (K := K2) dir /\
     (gone_in (K := K3) dir id \/
      is_alive_in (K := K4) id dir = Dead)).
Proof.
  unfold open_verified. destruct opened as [fd|e].
  - unfold verify_pidfd_target. destruct (open_proc (Kernel := K1)) as [dir|why] eqn:Eo; [|done].
    intros H. right; left. exists fd, dir. split; [done|]. split; [done|].
    destruct (pidfd_target_in (K := K1) dir fd) as [[p|]|why]; [|by left|done].
    right. destruct (p =? pid id); [|done]. destruct (exists_in (K := K2) id dir) eqn:Ee; [done| |done].
    by apply exists_in_Gone.
  - destruct (Z.eqb_spec e ESRCH) as [->|]; [by left|].
    destruct ((e =? EINVAL) || (e =? ENOENT)) eqn:Ei.
    2: { by destruct (refusal_name e). }
    unfold verify_without_pidfd. intros H. right; right. split.
    { exists e. split; [done|]. apply orb_true_iff in Ei as [->%Z.eqb_eq| ->%Z.eqb_eq]; rewrite !elem_of_cons; tauto. }
    destruct (signal_says_no_such_process (K := K1) (pid id)) eqn:Es; [left; by apply signal_says_gone|right].
    destruct (proc_view_with (K := K2)) as [dir| |why] eqn:Ev; [|done..].
    apply proc_view_Same in Ev. exists dir. split; [done|].
    destruct (exists_in (K := K3) id dir) eqn:Ee; [|left; by apply exists_in_Gone|done].
    right. by destruct (is_alive_in (K := K4) id dir).
Qed.

(** A table of answers: [pidfd_open] refuses a thread id whose record has exited. *)
Definition exited_kernel : Kernel unit := {|
  open_proc := Ok tt;
  read := fun _ path =>
    if bool_decide (path = bs "self/status") then Ok (bs "NSpid:" ++ [9] ++ bs "8" ++ [10])
    else Ok (stat_line 8 (bs "a") ([90] :: show 1 :: show 8 :: replicate 16 (show 0) ++ [show 4242]));
  kernel_signal_probe := fun _ => Ok tt;
  read_link := fun _ _ => Err (from_raw_os_error ENOENT);
  link_exists := fun _ _ => Ok true |}.

Lemma open_verified_gone_witness :
  provably_gone (K := exited_kernel) 8 \/
  exists dir, own_namespace (K := exited_kernel) dir /\
    (gone_in (K := exited_kernel) dir (process_id 8 4242) \/
     is_alive_in (K := exited_kernel) (process_id 8 4242) dir = Dead).
Proof.
  destruct (open_verified_gone exited_kernel exited_kernel exited_kernel exited_kernel (process_id 8 4242) (Err EINVAL))
    as [H|[(fd & dir & H & _)|[_ H]]]; [by vm_compute|done|done|exact H].
Defined.
