(* ===== verification/UnixGroup.v ===== *)
(** Teardown of a Unix process group: [src/containment/unix.rs], [unix/group.rs] and
    [group_root.rs].

    What is sent, and each check of the root, is a trace of [GroupStep]s, in order. The answers of
    the system are arguments: those that concern a listed member are that member's
    [MemberAnswers], so each member can meet a different world. *)
From S2P Require Import Prelude Numbers IoErrors Identity CrateError ProcView ProcIdentity Pidfd.
Local Open Scope Z_scope.

Definition SIGKILL : Z := 9.
Definition SIGTERM : Z := 15.

(** * Steps *)

Inductive NotItsGroup := Empty | Unproven.

Inductive Route := ByPidfd | ByNumber.

Inductive GroupStep :=
| Check (answer : result NotItsGroup unit)
| GroupSend (route : Route) (signo : Z)
| LeaderSend (route : Route) (signo : Z)
| MemberSend (route : Route) (pid : Z) (signo : Z).

(** A computation and the steps it took. *)
Definition M (A : Type) : Type := list GroupStep * A.
Definition ret {A} (a : A) : M A := ([], a).
Definition step {A} (s : GroupStep) (a : A) : M A := ([s], a).
Definition bind {A B} (m : M A) (k : A -> M B) : M B := (m.1 ++ (k m.2).1, (k m.2).2).

Declare Scope group_scope.
Notation "'let!' x ':=' m 'in' k" := (bind m (fun x => k))
  (at level 10, x name, m at level 100, k at level 200) : group_scope.
Open Scope group_scope.

(** * [group_root.rs] *)

(** The root at one check: what the signal-0 send to the group through its pidfd answers, if it has
    one, and what its own check answers, if one was given. *)
Record RootAnswer := root_answer { has_member : option (result Z unit); own_check : option bool }.

(** [pidfd_group_has_member]. *)
Definition pidfd_group_has_member (probe : result Z unit) : option bool :=
  match probe with
  | Ok _ => Some true
  | Err e => if e =? ESRCH then Some false else None
  end.

(** [GroupRoot::check]; a missing check is refused ([debug_assert]). *)
Definition check_answer (r : RootAnswer) : result NotItsGroup unit :=
  match has_member r ≫= pidfd_group_has_member with
  | Some true => Ok tt
  | Some false => Err Empty
  | None => match own_check r with Some true => Ok tt | _ => Err Unproven end
  end.

Definition check (r : RootAnswer) : M (result NotItsGroup unit) :=
  let! _ := match has_member r with Some _ => step (GroupSend ByPidfd 0) tt | None => ret tt end in
  step (Check (check_answer r)) (check_answer r).

(** * [unix/group.rs] *)

Record Member := member { mpid : Z; token : Z; system : bool }.

Inductive GroupState :=
| Cleared
| Refused (refused unassessable : list Z)
| Unlistable (source : option IoError).

Inductive Reached := Yes | No | RUnknown.

Inductive MemberOutcome := NotASurvivor | Survivor (pid : Z) | MUnassessable (pid : Z).

(** [members] on Linux. *)
Section members.
Context {D : Type} `{K : Kernel D}.

Fixpoint members_of (dir : D) (pgid : Z) (pids : list Z) : result IoError (list Member) :=
  match pids with
  | [] => Ok []
  | p :: pids =>
      match read_in_scan dir p with
      | Err _ => Err (of_kind Other)
      | Ok (Skipped _) => members_of dir pgid pids
      | Ok (SRead stat) =>
          match parse_pgrp stat with
          | Some g =>
              if g =? pgid mod 2 ^ 32 then
                match parse_starttime_jiffies stat with
                | Some token => let? out := members_of dir pgid pids in Ok (member p token false :: out)
                | None => members_of dir pgid pids
                end
              else members_of dir pgid pids
          | None => members_of dir pgid pids
          end
      end
  end.

Definition members (pgid : Z) (names : D -> list (result IoError bytes)) : result IoError (list Member) :=
  match into_dir proc_view_with with
  | Err why =>
      Err (match openat2_requirement why with Some _ => of_kind IoErrors.Unsupported | None => of_kind Other end)
  | Ok dir => let? pids := collect_pids (names dir) in members_of dir pgid pids
  end.
End members.

Definition classify_member (pid : Z) (liveness : Liveness) (reached : M Reached) : M MemberOutcome :=
  match liveness with
  | Dead => ret NotASurvivor
  | Alive | LUnknown =>
      let! r := reached in
      ret match r with Yes => NotASurvivor | No => Survivor pid | RUnknown => MUnassessable pid end
  end.

(** What the system answers about one member: its liveness, [open_verified], the root's check,
    what the pid resolves to, the send, and its liveness again. *)
Record MemberAnswers := member_answers {
  first_look : Liveness; opened : result Error (option Z); root_now : RootAnswer;
  of_now : Resolved ProcessId; sent : result Z unit; recheck : Liveness }.

(** What the answer of a send says. *)
Definition reached_of (sent : result Z unit) : Reached :=
  match sent with
  | Ok _ => Yes
  | Err e => if e =? ESRCH then Yes else if e =? EPERM then No else RUnknown
  end.

(** [root_check_before_send]: [Some] is the member's answer when nothing may go out. *)
Definition root_check_before_send (r : RootAnswer) : M (option Reached) :=
  let! answer := check r in
  ret match answer with Ok _ => None | Err Empty => Some Yes | Err Unproven => Some RUnknown end.

(** [check_or_signal]; [signal] is [None] for the probe. *)
Definition check_or_signal (pid : Z) (id : ProcessId) (signal : option Z) (a : MemberAnswers) : M Reached :=
  let! refused := root_check_before_send (root_now a) in
  match refused with
  | Some reached => ret reached
  | None =>
      match of_now a with
      | Found live =>
          if bool_decide (live = id) then
            match signal_target pid with
            | None => ret RUnknown
            | Some target => step (MemberSend ByNumber target (default 0 signal)) (reached_of (sent a))
            end
          else ret Yes
      | Gone => ret Yes
      | Unknown => ret RUnknown
      end
  end.

Definition check_or_signal_linux_sigkill (pid_ : Z) (id : ProcessId) (a : MemberAnswers) : M Reached :=
  match opened a with
  | Ok None => ret Yes
  | Ok (Some _) =>
      let! refused := root_check_before_send (root_now a) in
      match refused with
      | Some reached => ret reached
      | None => step (MemberSend ByPidfd (pid id) SIGKILL) (reached_of (sent a))
      end
  | Err EUnsupported | Err (Io _) => check_or_signal pid_ id (Some SIGKILL) a
  | Err _ => ret RUnknown
  end.

Definition reconfirm_survivor (outcome : MemberOutcome) (recheck : Liveness) : MemberOutcome :=
  match outcome with
  | Survivor pid => match recheck with Dead => NotASurvivor | Alive | LUnknown => Survivor pid end
  | _ => outcome
  end.

Definition excluded_from_sigkill_resend (pid : Z) (system : bool) : bool := (pid =? 1) || system.

Definition decide (refused unassessable : list Z) : GroupState :=
  match refused, unassessable with
  | _ :: _, _ => Refused refused unassessable
  | [], _ :: _ => Unlistable None
  | [], [] => Cleared
  end.

(** The closure [converge] hands to [classify_member]; [linux] is the target. *)
Definition reach (linux : bool) (signal : Z) (m : Member) (a : MemberAnswers) : M Reached :=
  let id := from_parts (mpid m) (token m) in
  if (signal =? SIGKILL) && excluded_from_sigkill_resend (mpid m) (system m) then ret RUnknown
  else if signal =? SIGKILL then
    if linux then check_or_signal_linux_sigkill (mpid m) id a else check_or_signal (mpid m) id (Some signal) a
  else check_or_signal (mpid m) id None a.

(** One turn of [converge]'s loop. *)
Definition member_outcome (linux : bool) (signal : Z) (m : Member) (a : MemberAnswers) : M MemberOutcome :=
  let! outcome := classify_member (mpid m) (first_look a) (reach linux signal m a) in
  ret (reconfirm_survivor outcome (recheck a)).

Fixpoint converge_loop (linux : bool) (signal : Z) (listed : list (Member * MemberAnswers))
    (refused unassessable : list Z) : M (list Z * list Z) :=
  match listed with
  | [] => ret (refused, unassessable)
  | (m, a) :: listed =>
      let! outcome := member_outcome linux signal m a in
      match outcome with
      | NotASurvivor => converge_loop linux signal listed refused unassessable
      | Survivor p => converge_loop linux signal listed (refused ++ [p]) unassessable
      | MUnassessable p => converge_loop linux signal listed refused (unassessable ++ [p])
      end
  end.

Definition converge (linux : bool) (signal : Z) (listed : result IoError (list (Member * MemberAnswers))) :
    M (result IoError GroupState) :=
  match listed with
  | Err e => ret (Err e)
  | Ok listed =>
      let! r := converge_loop linux signal listed [] [] in
      ret (Ok (decide r.1 r.2))
  end.

Definition state (linux : bool) (signal : Z) (listed : result IoError (list (Member * MemberAnswers))) : M GroupState :=
  let! r := converge linux signal listed in
  ret match r with Ok gs => gs | Err e => Unlistable (Some e) end.

(** * [unix.rs] *)

(** The answers to the sends of one teardown: through the root's pidfd where it has one. *)
Record GroupAnswers := group_answers {
  pidfd_group : option (result Z unit); root_group : RootAnswer; killpg : result Z unit;
  pidfd_leader : option (result Z unit); root_leader : RootAnswer; kill_leader : result Z unit }.

Definition killpg_checked (signal : Z) (g : GroupAnswers) : M (result Error (result Z unit)) :=
  let! answer := check (root_group g) in
  match answer with
  | Err _ => ret (Err (Unassessable None))
  | Ok _ => step (GroupSend ByNumber signal) (Ok (killpg g))
  end.

Definition send_to_group (signal : Z) (g : GroupAnswers) : M (result Error (result Z unit)) :=
  match pidfd_group g with
  | None => killpg_checked signal g
  | Some sent =>
      let! _ := step (GroupSend ByPidfd signal) tt in
      match sent with
      | Ok u => ret (Ok (Ok u))
      | Err e => if e =? EINVAL then killpg_checked signal g else ret (Ok (Err e))
      end
  end.

Definition direct_result (sent : result Z unit) : result IoError unit :=
  match sent with
  | Ok _ => Ok tt
  | Err e => if e =? ESRCH then Ok tt else Err (from_raw_os_error e)
  end.

Definition signal_direct (signal : Z) (g : GroupAnswers) : M (result IoError unit) :=
  match pidfd_leader g with
  | Some sent => step (LeaderSend ByPidfd signal) (direct_result sent)
  | None =>
      let! answer := check (root_leader g) in
      match answer with
      | Err _ => ret (Err (io_new Other))
      | Ok _ => step (LeaderSend ByNumber signal) (direct_result (kill_leader g))
      end
  end.

Definition verify (linux : bool) (signal : Z) (listed : result IoError (list (Member * MemberAnswers))) :
    M (result Error unit) :=
  let! gs := state linux signal listed in
  ret match gs with
      | Cleared => Ok tt
      | Refused _ _ => Err EContainment
      | Unlistable (Some e) =>
          if bool_decide (kind e = IoErrors.Unsupported) then Err EUnsupported else Err (Unassessable (Some e))
      | Unlistable None => Err (Unassessable None)
      end.

Definition signal_group (linux : bool) (pgid signal : Z) (g : GroupAnswers)
    (listed : result IoError (list (Member * MemberAnswers))) : M (result Error unit) :=
  if pgid <=? 0 then ret (Err (Unassessable None))
  else
    let! sent := send_to_group signal g in
    match sent with
    | Err e => ret (Err e)
    | Ok (Ok _) => verify linux signal listed
    | Ok (Err e) =>
        if e =? ESRCH then verify linux signal listed
        else if e =? EPERM then
          let! _ := signal_direct signal g in verify linux signal listed
        else ret (Err (Io (from_raw_os_error e)))
    end.

Definition kill_group (linux : bool) (pgid : Z) (g : GroupAnswers)
    (listed : result IoError (list (Member * MemberAnswers))) : M (result Error unit) :=
  signal_group linux pgid SIGKILL g listed.

Definition term_group (linux : bool) (pgid : Z) (g : GroupAnswers)
    (listed : result IoError (list (Member * MemberAnswers))) : M (result Error unit) :=
  signal_group linux pgid SIGTERM g listed.

(** * The trace *)

(** A send by a number, and every send to a listed member, comes right after a check of the root
    that passed; [ok] is whether one just did. *)
Fixpoint guarded (ok : bool) (tr : list GroupStep) : bool :=
  match tr with
  | [] => true
  | Check (Ok _) :: t => guarded true t
  | Check (Err _) :: t => guarded false t
  | GroupSend ByPidfd _ :: t | LeaderSend ByPidfd _ :: t => guarded false t
  | GroupSend ByNumber _ :: t | LeaderSend ByNumber _ :: t | MemberSend _ _ _ :: t => ok && guarded false t
  end.

Lemma guarded_weaken tr : guarded false tr = true -> guarded true tr = true.
Proof. destruct tr as [|[[]|[]|[]|[]] tr]; cbn; done. Qed.

Lemma guarded_app ok t1 t2 : guarded ok t1 = true -> guarded false t2 = true -> guarded ok (t1 ++ t2) = true.
Proof.
  revert ok. induction t1 as [|s t1 IH]; intros ok H1 H2; cbn.
  { destruct ok; [by apply guarded_weaken|done]. }
  destruct s as [[]|[]|[]|r p s]; cbn in H1 |- *; rewrite ?andb_true_iff in *; intuition.
Qed.

Lemma guarded_bind {A B} ok (m : M A) (k : A -> M B) :
  guarded ok m.1 = true -> guarded false (k m.2).1 = true -> guarded ok (bind m k).1 = true.
Proof. apply guarded_app. Qed.

(** What follows a check may send at once exactly when it passed. *)
Lemma guarded_check {B} r (k : result NotItsGroup unit -> M B) :
  guarded (match check_answer r with Ok _ => true | Err _ => false end) (k (check_answer r)).1 = true ->
  guarded false (bind (check r) k).1 = true.
Proof.
  intros H. unfold check, bind, step, ret. cbn.
  destruct (has_member r); cbn; destruct (check_answer r); exact H.
Qed.

Lemma bind_assoc {A B C} (m : M A) (f : A -> M B) (g : B -> M C) :
  bind (bind m f) g = bind m (fun a => bind (f a) g).
Proof. unfold bind. cbn. by rewrite app_assoc. Qed.

Lemma bind_ret {A B} (a : A) (k : A -> M B) : bind (ret a) k = k a.
Proof. unfold bind, ret. cbn. by destruct (k a). Qed.

Lemma check_value r : (check r).2 = check_answer r.
Proof. done. Qed.

(** The send a passed check allows. *)
Definition after_check (pid : Z) (id : ProcessId) (signal : option Z) (a : MemberAnswers) : M Reached :=
  match of_now a with
  | Found live =>
      if bool_decide (live = id) then
        match signal_target pid with
        | None => ret RUnknown
        | Some target => step (MemberSend ByNumber target (default 0 signal)) (reached_of (sent a))
        end
      else ret Yes
  | Gone => ret Yes
  | Unknown => ret RUnknown
  end.

Lemma root_check_then {B} r (k : option Reached -> M B) :
  bind (root_check_before_send r) k =
  bind (check r) (fun answer => k match answer with Ok _ => None | Err Empty => Some Yes | Err Unproven => Some RUnknown end).
Proof.
  unfold root_check_before_send. rewrite bind_assoc. unfold bind at 1 3. cbn -[check check_answer].
  by destruct (k _).
Qed.

Lemma check_or_signal_guarded p id s a : guarded false (check_or_signal p id s a).1 = true.
Proof.
  unfold check_or_signal. rewrite root_check_then. apply guarded_check.
  destruct (check_answer (root_now a)) as [u|[]]; [|done..].
  destruct (of_now a); [|done..]. case_bool_decide; [|done]. by destruct (signal_target p).
Qed.

Lemma check_or_signal_linux_guarded p id a : guarded false (check_or_signal_linux_sigkill p id a).1 = true.
Proof.
  unfold check_or_signal_linux_sigkill. destruct (opened a) as [[fd|]|e]; [|done|].
  - rewrite root_check_then. apply guarded_check. by destruct (check_answer (root_now a)) as [u|[]].
  - destruct e; try done; apply check_or_signal_guarded.
Qed.

Lemma member_outcome_guarded l s m a : guarded false (member_outcome l s m a).1 = true.
Proof.
  unfold member_outcome. apply guarded_bind; [|done]. unfold classify_member.
  assert (guarded false (reach l s m a).1 = true) as H.
  { unfold reach. destruct (_ && _); [done|]. destruct (s =? SIGKILL); [destruct l|];
      [apply check_or_signal_linux_guarded|apply check_or_signal_guarded..]. }
  destruct (first_look a); [|done|]; by apply guarded_bind.
Qed.

Lemma verify_guarded l s listed : guarded false (verify l s listed).1 = true.
Proof.
  unfold verify, state, converge. apply guarded_bind; [|done]. apply guarded_bind; [|done].
  destruct listed as [listed|e]; [|done]. apply guarded_bind; [|done].
  assert (forall rf un, guarded false (converge_loop l s listed rf un).1 = true) as H; [|apply H].
  induction listed as [|[m a] listed IH]; intros rf un; [done|]. cbn [converge_loop].
  apply guarded_bind; [apply member_outcome_guarded|]. by destruct (member_outcome l s m a).2.
Qed.

Lemma send_to_group_guarded s g : guarded false (send_to_group s g).1 = true.
Proof.
  assert (guarded false (killpg_checked s g).1 = true) as H.
  { unfold killpg_checked. apply guarded_check. by destruct (check_answer (root_group g)). }
  unfold send_to_group. destruct (pidfd_group g) as [sent|]; [|done].
  apply guarded_bind; [done|]. destruct sent as [u|e]; [done|]. by destruct (e =? EINVAL).
Qed.

Lemma signal_direct_guarded s g : guarded false (signal_direct s g).1 = true.
Proof.
  unfold signal_direct. destruct (pidfd_leader g); [done|].
  apply guarded_check. by destruct (check_answer (root_leader g)).
Qed.

Lemma signal_group_guarded linux pgid signal g listed : guarded false (signal_group linux pgid signal g listed).1 = true.
Proof.
  unfold signal_group. destruct (pgid <=? 0); [done|]. apply guarded_bind; [apply send_to_group_guarded|].
  destruct (send_to_group signal g).2 as [[u|e]|e]; [apply verify_guarded| |done].
  destruct (e =? ESRCH); [apply verify_guarded|]. destruct (e =? EPERM); [|done].
  apply guarded_bind; [apply signal_direct_guarded|apply verify_guarded].
Qed.

(** * The verdict *)

(** The listed process: the identity the listing saw. *)
Definition listed_id (m : Member) : ProcessId := process_id (mpid m) (token m).

(** The member can run no more, or was reached, or is not the group's. *)
Definition accounted_for (linux : bool) (signal : Z) (m : Member) (a : MemberAnswers) : Prop :=
  first_look a = Dead \/
  ~ (signal = SIGKILL /\ excluded_from_sigkill_resend (mpid m) (system m) = true) /\
  (check_answer (root_now a) = Err Empty \/
   (linux = true /\ signal = SIGKILL /\ opened a = Ok None) \/
   of_now a = Gone \/ (exists live, of_now a = Found live /\ live <> listed_id m) \/
   (exists u, sent a = Ok u) \/ sent a = Err ESRCH \/
   sent a = Err EPERM /\ recheck a = Dead).

(** The member refused the signal, and was not seen to be gone. *)
Definition refuses (m : Member) (a : MemberAnswers) : Prop :=
  first_look a <> Dead /\ sent a = Err EPERM /\ recheck a <> Dead.

Lemma reached_of_Yes s : reached_of s = Yes <-> (exists u, s = Ok u) \/ s = Err ESRCH.
Proof.
  unfold reached_of. destruct s as [u|e]; [split; [left; by exists u|done]|].
  destruct (Z.eqb_spec e ESRCH) as [->|H]; [split; [by right|done]|].
  destruct (e =? EPERM); (split; [done|]); intros [[? ?]|[= ->]]; done.
Qed.

Lemma reached_of_No s : reached_of s = No <-> s = Err EPERM.
Proof.
  unfold reached_of. destruct s as [u|e]; [done|].
  destruct (Z.eqb_spec e ESRCH) as [->|H]; [done|]. destruct (Z.eqb_spec e EPERM) as [->|H2]; [done|].
  split; [done|]. intros [= ->]. done.
Qed.

Lemma check_or_signal_value p id s a :
  (check_or_signal p id s a).2 =
  match check_answer (root_now a) with
  | Err Empty => Yes
  | Err Unproven => RUnknown
  | Ok _ => (after_check p id s a).2
  end.
Proof.
  unfold check_or_signal. rewrite root_check_then. cbn [bind snd]. rewrite check_value.
  by destruct (check_answer (root_now a)) as [u|[]].
Qed.

Lemma after_check_Yes p m s a :
  (after_check p (listed_id m) s a).2 = Yes ->
  of_now a = Gone \/ (exists live, of_now a = Found live /\ live <> listed_id m) \/
  (exists u, sent a = Ok u) \/ sent a = Err ESRCH.
Proof.
  unfold after_check. destruct (of_now a) as [live| |]; [|by left|done].
  case_bool_decide; [|intros _; right; left; by exists live].
  destruct (signal_target p); [|done]. intros Hy%reached_of_Yes. tauto.
Qed.

Lemma after_check_No p id s a : (after_check p id s a).2 = No -> sent a = Err EPERM.
Proof.
  unfold after_check. destruct (of_now a) as [live| |]; [|done..]. case_bool_decide; [|done].
  destruct (signal_target p); [|done]. apply reached_of_No.
Qed.

Lemma check_or_signal_Yes p m s a :
  (check_or_signal p (listed_id m) s a).2 = Yes ->
  check_answer (root_now a) = Err Empty \/ of_now a = Gone \/
  (exists live, of_now a = Found live /\ live <> listed_id m) \/
  (exists u, sent a = Ok u) \/ sent a = Err ESRCH.
Proof.
  rewrite check_or_signal_value. destruct (check_answer (root_now a)) as [u|[]]; [|by left|done].
  intros H%after_check_Yes. tauto.
Qed.

Lemma check_or_signal_No p id s a : (check_or_signal p id s a).2 = No -> sent a = Err EPERM.
Proof. rewrite check_or_signal_value. destruct (check_answer _) as [u|[]]; [apply after_check_No|done..]. Qed.

Lemma linux_sigkill_value p id a :
  (check_or_signal_linux_sigkill p id a).2 =
  match opened a with
  | Ok None => Yes
  | Ok (Some _) =>
      match check_answer (root_now a) with
      | Err Empty => Yes
      | Err Unproven => RUnknown
      | Ok _ => reached_of (sent a)
      end
  | Err EUnsupported | Err (Io _) => (check_or_signal p id (Some SIGKILL) a).2
  | Err _ => RUnknown
  end.
Proof.
  unfold check_or_signal_linux_sigkill. destruct (opened a) as [[fd|]|e]; [|done|by destruct e].
  rewrite root_check_then. cbn [bind snd]. rewrite check_value. by destruct (check_answer (root_now a)) as [u|[]].
Qed.

Lemma reach_Yes linux signal m a :
  (reach linux signal m a).2 = Yes ->
  ~ (signal = SIGKILL /\ excluded_from_sigkill_resend (mpid m) (system m) = true) /\
  (check_answer (root_now a) = Err Empty \/ (linux = true /\ signal = SIGKILL /\ opened a = Ok None) \/
   of_now a = Gone \/ (exists live, of_now a = Found live /\ live <> listed_id m) \/
   (exists u, sent a = Ok u) \/ sent a = Err ESRCH).
Proof.
  unfold reach. change (from_parts (mpid m) (token m)) with (listed_id m).
  destruct (Z.eqb_spec signal SIGKILL) as [->|Hs]; cbn [andb].
  2: { intros H%check_or_signal_Yes. split; [tauto|tauto]. }
  destruct (excluded_from_sigkill_resend (mpid m) (system m)) eqn:Ex; [done|]. intros H.
  split; [intros [_ ?]; congruence|]. destruct linux.
  - rewrite linux_sigkill_value in H. destruct (opened a) as [[fd|]|e] eqn:Eo; [|tauto|].
    + destruct (check_answer (root_now a)) as [u|[]] eqn:Ec; [|tauto|done]. apply reached_of_Yes in H. tauto.
    + destruct e; try done; apply check_or_signal_Yes in H; tauto.
  - apply check_or_signal_Yes in H. tauto.
Qed.

Lemma reach_No linux signal m a : (reach linux signal m a).2 = No -> sent a = Err EPERM.
Proof.
  unfold reach. destruct (_ && _); [done|]. destruct (signal =? SIGKILL); [|apply check_or_signal_No].
  destruct linux; [|apply check_or_signal_No]. rewrite linux_sigkill_value.
  destruct (opened a) as [[fd|]|e]; [|done|].
  - destruct (check_answer (root_now a)) as [u|[]]; [apply reached_of_No|done..].
  - destruct e; try done; apply check_or_signal_No.
Qed.

(** The outcome of a member, by what happened to it. *)
Lemma member_outcome_value linux signal m a :
  (member_outcome linux signal m a).2 =
  match first_look a with
  | Dead => NotASurvivor
  | _ => match (reach linux signal m a).2 with
         | Yes => NotASurvivor
         | No => match recheck a with Dead => NotASurvivor | _ => Survivor (mpid m) end
         | RUnknown => MUnassessable (mpid m)
         end
  end.
Proof.
  unfold member_outcome, classify_member. cbn [bind snd ret].
  destruct (first_look a); cbn [bind snd ret reconfirm_survivor]; [|done|];
    destruct (reach linux signal m a).2; cbn; try done; by destruct (recheck a).
Qed.

Lemma member_outcome_not linux signal m a :
  (member_outcome linux signal m a).2 = NotASurvivor -> accounted_for linux signal m a.
Proof.
  rewrite member_outcome_value. unfold accounted_for.
  pose proof (reach_Yes linux signal m a) as HY. pose proof (reach_No linux signal m a) as HN.
  assert (~ (signal = SIGKILL /\ excluded_from_sigkill_resend (mpid m) (system m) = true) \/
    (reach linux signal m a).2 = RUnknown) as Hx.
  { unfold reach. destruct (Z.eqb_spec signal SIGKILL); [|left; tauto]. cbn [andb].
    destruct (excluded_from_sigkill_resend _ _); [by right|left; intros [_ ?]; done]. }
  destruct (first_look a); [|by left|].
  - destruct (reach linux signal m a).2; [specialize (HY eq_refl); tauto| |done].
    destruct (recheck a); [done| |done]. specialize (HN eq_refl). destruct Hx; [tauto|done].
  - destruct (reach linux signal m a).2; [specialize (HY eq_refl); tauto| |done].
    destruct (recheck a); [done| |done]. specialize (HN eq_refl). destruct Hx; [tauto|done].
Qed.

Lemma member_outcome_survivor linux signal m a p :
  (member_outcome linux signal m a).2 = Survivor p -> p = mpid m /\ refuses m a.
Proof.
  rewrite member_outcome_value. unfold refuses. pose proof (reach_No linux signal m a) as HN.
  destruct (first_look a); [|done|]; (destruct (reach linux signal m a).2; [done| |done]);
    specialize (HN eq_refl); destruct (recheck a); try done; by intros [= <-].
Qed.

(** What the loop accumulates. *)
Lemma converge_loop_value linux signal listed rf un :
  exists rf' un', (converge_loop linux signal listed rf un).2 = (rf ++ rf', un ++ un') /\
    (forall p, p ∈ rf' -> exists m a, (m, a) ∈ listed /\ p = mpid m /\ refuses m a) /\
    (rf' = [] -> un' = [] -> forall m a, (m, a) ∈ listed -> accounted_for linux signal m a).
Proof.
  revert rf un. induction listed as [|[m a] listed IH]; intros rf un; cbn [converge_loop].
  { exists [], []. rewrite !app_nil_r. split; [done|]. split; [intros p H|intros _ _ m a H]; by apply not_elem_of_nil in H. }
  cbn [bind snd]. destruct (member_outcome linux signal m a).2 as [|p|p] eqn:Eo.
  - destruct (IH rf un) as (rf' & un' & -> & H1 & H2). exists rf', un'. split; [done|]. split.
    + intros p Hp. destruct (H1 p Hp) as (m' & a' & ? & Hr). exists m', a'. split; [by right|done].
    + intros ? ? m' a' [[= -> ->]|?]%elem_of_cons; [by apply member_outcome_not|by apply H2].
  - destruct (IH (rf ++ [p]) un) as (rf' & un' & -> & H1 & H2). exists (p :: rf'), un'.
    rewrite <- app_assoc. split; [done|]. split; [|done].
    intros q [->|Hq]%elem_of_cons.
    + exists m, a. split; [by left|]. by apply (member_outcome_survivor linux signal).
    + destruct (H1 q Hq) as (m' & a' & ? & Hr). exists m', a'. split; [by right|done].
  - destruct (IH rf (un ++ [p])) as (rf' & un' & -> & H1 & H2). exists rf', (p :: un').
    rewrite <- app_assoc. split; [done|]. split; [|done].
    intros q Hq. destruct (H1 q Hq) as (m' & a' & ? & Hr). exists m', a'. split; [by right|done].
Qed.

(** What is known of a member that a signal is sent to. *)
Definition verified_send (linux : bool) (signal : Z) (m : Member) (a : MemberAnswers) (r : Route) : Prop :=
  first_look a <> Dead /\
  ~ (signal = SIGKILL /\ excluded_from_sigkill_resend (mpid m) (system m) = true) /\
  match r with
  | ByNumber => of_now a = Found (listed_id m) /\ 0 < mpid m <= i32_max
  | ByPidfd => linux = true /\ signal = SIGKILL /\ exists fd, opened a = Ok (Some fd)
  end.

Definition member_signo (signal : Z) : Z := if signal =? SIGKILL then SIGKILL else 0.

Lemma check_no_member r' rt p s : MemberSend rt p s ∉ (check r').1.
Proof.
  unfold check, bind, step, ret. cbn.
  destruct (has_member r'); cbn; rewrite ?not_elem_of_cons; repeat split; try done; apply not_elem_of_nil.
Qed.

Lemma bind_check_member {B} r (k : result NotItsGroup unit -> M B) rt p s :
  MemberSend rt p s ∈ (bind (check r) k).1 -> MemberSend rt p s ∈ (k (check_answer r)).1.
Proof. cbn [bind fst]. intros [H|H]%elem_of_app; [by apply check_no_member in H|done]. Qed.

Lemma check_or_signal_sends p m s a rt q signo :
  MemberSend rt q signo ∈ (check_or_signal p (listed_id m) s a).1 ->
  rt = ByNumber /\ q = p /\ signo = default 0 s /\ of_now a = Found (listed_id m) /\ 0 < p <= i32_max.
Proof.
  unfold check_or_signal. rewrite root_check_then. intros H%bind_check_member.
  destruct (check_answer (root_now a)) as [u|[]]; [|by apply not_elem_of_nil in H..].
  destruct (of_now a) as [live| |]; [|by apply not_elem_of_nil in H..].
  case_bool_decide; [subst live|by apply not_elem_of_nil in H].
  destruct (signal_target p) as [t|] eqn:Et; [|by apply not_elem_of_nil in H].
  apply signal_target_Some in Et as [-> ?]. cbn in H. apply list_elem_of_singleton in H as [= -> -> ->]. done.
Qed.

Lemma reach_sends linux signal m a rt q signo :
  MemberSend rt q signo ∈ (reach linux signal m a).1 -> first_look a <> Dead ->
  q = mpid m /\ signo = member_signo signal /\ verified_send linux signal m a rt.
Proof.
  unfold reach, member_signo, verified_send. change (from_parts (mpid m) (token m)) with (listed_id m).
  destruct (Z.eqb_spec signal SIGKILL) as [->|Hs]; cbn [andb].
  2: { intros (-> & -> & -> & ? & ?)%check_or_signal_sends Hd. repeat split; try done; try lia; by intros [? _]. }
  destruct (excluded_from_sigkill_resend (mpid m) (system m)) eqn:Ex; [by intros ?%not_elem_of_nil|].
  assert (~ (SIGKILL = SIGKILL /\ false = true)) as Hx by (by intros [_ ?]).
  destruct linux.
  - unfold check_or_signal_linux_sigkill. destruct (opened a) as [[fd|]|e].
    + rewrite root_check_then. intros H%bind_check_member Hd.
      destruct (check_answer (root_now a)) as [u|[]]; [|by apply not_elem_of_nil in H..].
      cbn in H. apply list_elem_of_singleton in H as [= -> -> ->]. repeat split; try done. by exists fd.
    + by intros ?%not_elem_of_nil.
    + destruct e; try (by intros ?%not_elem_of_nil);
        intros (-> & -> & -> & ? & ?)%check_or_signal_sends Hd; repeat split; try done; lia.
  - intros (-> & -> & -> & ? & ?)%check_or_signal_sends Hd. repeat split; try done; lia.
Qed.

Lemma member_outcome_sends linux signal m a rt q signo :
  MemberSend rt q signo ∈ (member_outcome linux signal m a).1 ->
  q = mpid m /\ signo = member_signo signal /\ verified_send linux signal m a rt.
Proof.
  unfold member_outcome, classify_member. cbn [bind fst ret]. rewrite app_nil_r.
  destruct (first_look a) eqn:E; cbn [bind fst ret]; rewrite ?app_nil_r; [|by intros ?%not_elem_of_nil|];
    intros H; apply (reach_sends linux signal m a) in H; try done; congruence.
Qed.

Lemma verify_sends linux signal l rt q signo :
  MemberSend rt q signo ∈ (verify linux signal (Ok l)).1 ->
  exists m a, (m, a) ∈ l /\ q = mpid m /\ signo = member_signo signal /\ verified_send linux signal m a rt.
Proof.
  unfold verify, state, converge. cbn [bind fst snd ret]. rewrite !app_nil_r.
  assert (forall rf un, MemberSend rt q signo ∈ (converge_loop linux signal l rf un).1 ->
    exists m a, (m, a) ∈ l /\ q = mpid m /\ signo = member_signo signal /\ verified_send linux signal m a rt) as H; [|apply H].
  induction l as [|[m a] l IH]; intros rf un; cbn [converge_loop]; [by intros ?%not_elem_of_nil|].
  cbn [bind fst]. intros [H|H]%elem_of_app.
  - exists m, a. split; [by left|]. by apply (member_outcome_sends linux).
  - destruct (member_outcome linux signal m a).2; destruct (IH _ _ H) as (m' & a' & Hin & Hr);
      exists m', a'; (split; [by right|done]).
Qed.

Lemma group_sends_no_member signal g rt q signo :
  MemberSend rt q signo ∉ (send_to_group signal g).1 /\ MemberSend rt q signo ∉ (signal_direct signal g).1.
Proof.
  assert (forall s, MemberSend rt q signo ∉ (killpg_checked s g).1) as Hk.
  { intros s H%bind_check_member. destruct (check_answer (root_group g)); cbn in H.
    - by apply list_elem_of_singleton in H.
    - by apply not_elem_of_nil in H. }
  split.
  - unfold send_to_group. destruct (pidfd_group g) as [[u|e]|]; [| |done]; cbn [bind fst snd step].
    + rewrite elem_of_app, list_elem_of_singleton. intros [?|H]; [done|by apply not_elem_of_nil in H].
    + rewrite elem_of_app, list_elem_of_singleton. intros [?|H]; [done|].
      destruct (e =? EINVAL); [by apply Hk in H|by apply not_elem_of_nil in H].
  - unfold signal_direct. destruct (pidfd_leader g) as [sent|].
    + cbn. by intros H%list_elem_of_singleton.
    + intros H%bind_check_member. destruct (check_answer (root_leader g)); cbn in H.
      * by apply list_elem_of_singleton in H.
      * by apply not_elem_of_nil in H.
Qed.

(** * Properties *)

(** A group teardown answers [Ok] only for a group that is down: for every behaviour of the
    system, each member the listing saw had exited, took the signal or was gone when it was sent,
    no longer was the listed process, was in another group that took the number, or refused and
    then exited; an excluded member counts only if it had exited. A [Refused] verdict names only
    listed members whose signal the kernel refused with [EPERM] and that were not seen to exit. *)
Theorem group_verdict linux pgid signal g listed :
  ((signal_group linux pgid signal g listed).2 = Ok tt ->
   0 < pgid /\ exists l, listed = Ok l /\ forall m a, (m, a) ∈ l -> accounted_for linux signal m a) /\
  (forall l refused un, listed = Ok l -> (state linux signal listed).2 = Refused refused un ->
   forall p, p ∈ refused -> exists m a, (m, a) ∈ l /\ p = mpid m /\ refuses m a).
Proof.
  assert ((verify linux signal listed).2 = Ok tt ->
    exists l, listed = Ok l /\ forall m a, (m, a) ∈ l -> accounted_for linux signal m a) as Hv.
  { unfold verify, state, converge. cbn [bind snd ret]. destruct listed as [l|e]; cbn [bind snd ret].
    - destruct (converge_loop_value linux signal l [] []) as (rf & un & E & _ & H). rewrite E. cbn [fst snd app].
      destruct rf, un; cbn; try done. intros _. exists l. split; [done|]. by apply H.
    - by case_bool_decide. }
  split.
  - unfold signal_group. destruct (Z.leb_spec pgid 0) as [|Hp]; [done|]. intros H. split; [done|]. apply Hv.
    cbn [bind snd] in H. destruct (send_to_group signal g).2 as [[u|e]|e]; try done.
    destruct (e =? ESRCH); [done|]. by destruct (e =? EPERM).
  - intros l refused un -> H. unfold state, converge in H. cbn [bind snd ret] in H.
    destruct (converge_loop_value linux signal l [] []) as (rf & un' & E & H1 & _). rewrite E in H. cbn [fst snd app] in H.
    destruct rf as [|p rf]; [by destruct un'|]. cbn in H. by injection H as <- <-.
Qed.

(** C34: nothing is signalled by a number that was not just checked: in every run of a teardown, a
    send by the group's or the leader's number, and every send to a listed member, comes right
    after a check of the root that passed; a listed member is signalled only while it is not known
    dead and its identity is verified (its pidfd open, or its pid resolving to the listed process);
    SIGTERM is never sent to a member again, which gets the probe alone; and a group number that is
    not positive sends nothing. *)
Theorem teardown_guarded linux pgid signal g l :
  let tr := (signal_group linux pgid signal g (Ok l)).1 in
  guarded false tr = true /\
  (forall r p signo, MemberSend r p signo ∈ tr ->
     exists m a, (m, a) ∈ l /\ p = mpid m /\ signo = member_signo signal /\ verified_send linux signal m a r) /\
  (pgid <= 0 -> tr = []).
Proof.
  unfold signal_group. destruct (Z.leb_spec pgid 0) as [|Hp].
  { split; [done|]. split; [|done]. by intros r p s ?%not_elem_of_nil. }
  cbn zeta. split; [|split; [|lia]].
  - pose proof (signal_group_guarded linux pgid signal g (Ok l)) as Hg. unfold signal_group in Hg.
    by destruct (Z.leb_spec pgid 0); [lia|].
  - intros r p s. pose proof (group_sends_no_member signal g r p s) as [Hn1 Hn2].
    cbn [bind fst]. intros [H|H]%elem_of_app; [done|].
    destruct (send_to_group signal g).2 as [[u|e]|e]; [by apply verify_sends| |by apply not_elem_of_nil in H].
    destruct (e =? ESRCH); [by apply verify_sends|]. destruct (e =? EPERM); [|by apply not_elem_of_nil in H].
    cbn [bind fst] in H. apply elem_of_app in H as [H|H]; [done|by apply verify_sends].
Qed.
