(* ===== verification/Sanitize.v ===== *)
(** The environment an elevated program gets: [src/elevation/sanitize.rs], over keys and values as
    bytes. A name of the denylist is ASCII, so it is, or begins, the lossy text of a key exactly
    when it is, or begins, the key's bytes. *)
From S2P Require Import Prelude PathComponent.
From stdpp Require Import gmap sorting.
Local Open Scope Z_scope.

Definition DEFAULT_DENYLIST : list bytes :=
  bs <$> ["IFS"; "BASH_ENV"; "ENV"; "PS4"; "TERMINFO"; "TERMCAP"; "HOSTALIASES"; "RES_OPTIONS";
          "LIBPATH"; "SHLIB_PATH"; "GCONV_PATH"; "PYTHONPATH"; "PERL5LIB"; "NODE_OPTIONS"]%string.

Definition DENYLIST_PREFIXES : list bytes := bs <$> ["LD_"; "DYLD_"; "_RLD"; "LDR_"]%string.

Definition is_denied (key : bytes) : bool :=
  existsb (fun p => starts_with p key) DENYLIST_PREFIXES || bool_decide (key ∈ DEFAULT_DENYLIST).

Inductive Policy :=
| Denylist (keep : gset bytes)
| Allowlist (allow : gset bytes)
| Filter (f : bytes -> bytes -> bool)
| PNone.

Definition EnvSanitizer_default : Policy := Denylist ∅.

Definition keep (self : Policy) (extra : gset bytes) : Policy :=
  match self with
  | Denylist keep => Denylist (keep ∪ extra)
  | Allowlist allow => Allowlist (allow ∪ extra)
  | Filter f => Filter (fun k v => bool_decide (k ∈ extra) || f k v)
  | PNone => PNone
  end.

(** The decision of [apply] about one variable. *)
Definition keeps (self : Policy) (k v : bytes) : bool :=
  match self with
  | PNone => true
  | Allowlist allow => bool_decide (k ∈ allow)
  | Filter f => f k v
  | Denylist keep => bool_decide (k ∈ keep) || negb (is_denied k)
  end.

(** [Ord] of an [OsString] on Unix. *)
Definition bytes_leb (a b : bytes) : bool :=
  match lex_compare Z.compare a b with Gt => false | _ => true end.

(** The stable [sort_by] of a slice, by key. *)
Fixpoint insert_by {A} (key : A -> bytes) (x : A) (l : list A) : list A :=
  match l with
  | [] => [x]
  | y :: t => if bytes_leb (key x) (key y) then x :: l else y :: insert_by key x t
  end.

Definition sort_by {A} (key : A -> bytes) (l : list A) : list A := foldr (insert_by key) [] l.

Definition apply_policy (self : Policy) (env : list (bytes * bytes)) : list (bytes * bytes) * list bytes :=
  let kept := filter (fun kv => keeps self kv.1 kv.2 = true) env in
  let stripped := filter (fun kv => keeps self kv.1 kv.2 <> true) env in
  (sort_by fst kept, sort_by id (fst <$> stripped)).

(** * Lemmas *)

Definition key_le {A} (key : A -> bytes) (x y : A) : Prop := bytes_leb (key x) (key y) = true.

Lemma bytes_leb_trans a b c : bytes_leb a b = true -> bytes_leb b c = true -> bytes_leb a c = true.
Proof.
  pose proof (total_lex _ total_Z) as [He Ha Ht]. unfold bytes_leb.
  destruct (lex_compare Z.compare a b) eqn:E1; [apply He in E1; by subst| |done].
  destruct (lex_compare Z.compare b c) eqn:E2; [apply He in E2; subst; by rewrite E1| |done].
  by rewrite (Ht _ _ _ E1 E2).
Qed.

Lemma bytes_leb_total a b : bytes_leb a b = false -> bytes_leb b a = true.
Proof.
  pose proof (total_lex _ total_Z) as [He Ha Ht]. unfold bytes_leb. rewrite (Ha a b).
  by destruct (lex_compare Z.compare a b).
Qed.

Lemma insert_by_perm {A} (key : A -> bytes) x l : insert_by key x l ≡ₚ x :: l.
Proof.
  induction l as [|y l IH]; cbn; [done|]. destruct (bytes_leb (key x) (key y)); [done|].
  by rewrite IH, Permutation_swap.
Qed.

Lemma sort_by_perm {A} (key : A -> bytes) l : sort_by key l ≡ₚ l.
Proof. induction l as [|x l IH]; cbn; [done|]. by rewrite insert_by_perm, IH. Qed.

Lemma insert_by_sorted {A} (key : A -> bytes) x l :
  StronglySorted (key_le key) l -> StronglySorted (key_le key) (insert_by key x l).
Proof.
  induction 1 as [|y l Hs IH Hy]; cbn; [repeat constructor|].
  destruct (bytes_leb (key x) (key y)) eqn:E.
  - constructor; [by constructor|]. constructor; [done|].
    eapply Forall_impl; [exact Hy|]. intros z Hz. by eapply bytes_leb_trans.
  - constructor; [done|]. rewrite (insert_by_perm key x l). constructor; [by apply bytes_leb_total|done].
Qed.

Lemma sort_by_sorted {A} (key : A -> bytes) l : StronglySorted (key_le key) (sort_by key l).
Proof. induction l as [|x l IH]; cbn; [constructor|]. by apply insert_by_sorted. Qed.

(** Elements with one key keep their order. *)
Lemma insert_by_stable {A} (key : A -> bytes) k x l :
  filter (fun y => key y = k) (insert_by key x l) = filter (fun y => key y = k) (x :: l).
Proof.
  induction l as [|y l IH]; [done|]. cbn [insert_by]. destruct (bytes_leb (key x) (key y)) eqn:E; [done|].
  assert (key x <> key y) as Hne.
  { intros H. rewrite H in E. unfold bytes_leb in E.
    by rewrite (proj2 (compare_eq _ (total_lex _ total_Z) _ _) eq_refl) in E. }
  destruct (base.decide (key y = k)) as [Hy|Hy].
  - rewrite (filter_cons_True _ y) by done. rewrite IH. rewrite !(filter_cons_False _ x) by congruence.
    by rewrite filter_cons_True.
  - rewrite (filter_cons_False _ y) by done. rewrite IH.
    destruct (base.decide (key x = k)); [rewrite !(filter_cons_True _ x) by done|rewrite !(filter_cons_False _ x) by done];
      by rewrite (filter_cons_False _ y).
Qed.

Lemma sort_by_stable {A} (key : A -> bytes) k l :
  filter (fun y => key y = k) (sort_by key l) = filter (fun y => key y = k) l.
Proof.
  induction l as [|x l IH]; [done|]. cbn [sort_by foldr]. rewrite insert_by_stable.
  change (foldr (insert_by key) [] l) with (sort_by key l).
  destruct (base.decide (key x = k)); [rewrite !filter_cons_True by done|rewrite !filter_cons_False by done]; by rewrite IH.
Qed.

Lemma apply_kept self env kv : kv ∈ (apply_policy self env).1 <-> kv ∈ env /\ keeps self kv.1 kv.2 = true.
Proof. cbn. rewrite sort_by_perm, list_elem_of_filter. tauto. Qed.

Lemma apply_stripped self env k :
  k ∈ (apply_policy self env).2 <-> exists v, (k, v) ∈ env /\ keeps self k v = false.
Proof.
  cbn. rewrite sort_by_perm, list_elem_of_fmap. split.
  - intros ([k' v] & -> & H). apply list_elem_of_filter in H as [H Hin]. exists v. split; [done|].
    by apply not_true_is_false.
  - intros (v & Hin & H). exists (k, v). split; [done|]. apply list_elem_of_filter. cbn. rewrite H. by split.
Qed.

(** * Properties *)

(** Sanitizing is a partition and fails closed: every variable is kept or its name reported,
    none is lost, invented or changed, both lists are in key order and equal keys keep their order;
    under the default policy no loader or interpreter variable of the denylist passes; and [keep]
    lets through the keys it names and changes nothing else, within the policy it is given. *)
Theorem sanitize_partition self env extra :
  let '(kept, stripped) := apply_policy self env in
  (kept.*1 ++ stripped ≡ₚ env.*1) /\
  StronglySorted (key_le fst) kept /\ StronglySorted (key_le id) stripped /\
  (forall k, filter (fun kv => kv.1 = k) kept = filter (fun kv => kv.1 = k) (filter (fun kv => keeps self kv.1 kv.2 = true) env)) /\
  (forall k v, (k, v) ∈ kept <-> (k, v) ∈ env /\ keeps self k v = true) /\
  (forall k v, (k, v) ∈ (apply_policy EnvSanitizer_default env).1 -> is_denied k = false) /\
  (forall k v, keeps (keep self extra) k v = true <-> k ∈ extra \/ keeps self k v = true).
Proof.
  destruct (apply_policy self env) as [kept stripped] eqn:E.
  pose proof (f_equal fst E) as E1. pose proof (f_equal snd E) as E2. cbn in E1, E2. subst kept stripped.
  split; [|split; [apply sort_by_sorted|split; [apply sort_by_sorted|split; [intros k; apply sort_by_stable|split]]]].
  - rewrite !sort_by_perm. rewrite <- fmap_app. apply fmap_Permutation. clear E.
    induction env as [|kv env IH]; [done|]. destruct (keeps self kv.1 kv.2) eqn:Ek.
    + rewrite filter_cons_True by done. rewrite filter_cons_False by (rewrite Ek; tauto). cbn. by rewrite IH.
    + rewrite filter_cons_False by (rewrite Ek; done). rewrite filter_cons_True by (by rewrite Ek).
      rewrite <- Permutation_middle. by rewrite IH.
  - intros k v. apply (apply_kept self env (k, v)).
  - split.
    + intros k v H. apply (apply_kept _ _ (k, v)) in H as [_ H]. cbn in H.
      apply orb_true_iff in H as [H|H]; [apply bool_decide_eq_true in H; set_solver|by apply negb_true_iff].
    + intros k v. destruct self; cbn; rewrite ?orb_true_iff, ?bool_decide_eq_true, ?elem_of_union; try tauto.
Qed.
