(* ===== verification/ElevationPlan.v ===== *)
(** Which front elevates a program: the requests of [src/elevation.rs], the version of pkexec in
    [elevation/pkexec.rs], the planner of [elevation/plan.rs] and the kill gates of
    [elevation/front.rs]. Paths are bytes; messages are left out. *)
From S2P Require Import Prelude Utf Numbers IoErrors Identity CrateError.
Local Open Scope Z_scope.

(** * [elevation.rs] *)

Inductive Backend := Auto | Sudo | Doas | Pkexec.

Inductive Auth :=
| Interactive
| NonInteractive
| Askpass (program : bytes)
| Stdin (secret : bytes)
| Gui.

Inductive Privilege := Unprivileged | Elevated.

Inductive ElevatedStdio := Passthrough | OwnConsole | StdinConsumed | OsascriptRelay.

Inductive ElevatedVia := Wrapped (b : Backend) | WindowsUac | MacosOsascript | AlreadyElevated.

#[export] Instance Backend_eq_dec : EqDecision Backend.
Proof. solve_decision. Defined.
#[export] Instance Privilege_eq_dec : EqDecision Privilege.
Proof. solve_decision. Defined.

Definition program_outlives_child (v : ElevatedVia) : bool :=
  match v with Wrapped _ | MacosOsascript => true | _ => false end.

Definition is_gui (a : Auth) : bool := match a with Gui => true | _ => false end.

(** Whether the auth is fed by cosca: only sudo takes it. *)
Definition is_askpass_or_stdin (a : Auth) : bool := match a with Askpass _ | Stdin _ => true | _ => false end.

(** [map_elevated_kill_error]. *)
Definition map_elevated_kill_error (err : IoError) (elevated_wrapper : bool) : Error :=
  if elevated_wrapper && bool_decide (kind err = PermissionDenied) then Elevation Unkillable else Io err.

(** [remap_derived_spawn_error]; [backend_unusable] is the check of the backend's file. *)
Definition remap_derived_spawn_error (err : Error) (backend_unusable : bool) : Error :=
  match err with
  | Io e =>
      if (bool_decide (kind e = NotFound) || bool_decide (kind e = PermissionDenied)) && backend_unusable
      then Elevation BackendUnavailable else err
  | _ => err
  end.

(** * [pkexec.rs] *)

Definition KEEP_CWD_SINCE : Z := 121.

Inductive PkexecVersion :=
| NotProbed
| Unresolved
| SpawnFailed
| Failed
| NonUtf8_
| Unparsed
| Parsed (version : list Z) (release : option Z).

Definition digits (s : list Z) : bool := bool_decide (s <> []) && forallb is_ascii_digit s.

(** [str::strip_suffix] of one character. *)
Definition strip_last (c : Z) (s : list Z) : option (list Z) :=
  match last s with Some d => if d =? c then Some (removelast s) else None | None => None end.

Definition parse (stdout : bytes) : PkexecVersion :=
  match from_utf8 stdout with
  | Err _ => NonUtf8_
  | Ok text =>
      match strip_prefix (bs "pkexec version ") text ≫= strip_last 10 with
      | None => Unparsed
      | Some version =>
          match strip_prefix (bs "0.") version with
          | Some minor => if digits minor then Parsed version None else Unparsed
          | None =>
              if digits version && negb (starts_with (bs "0") version) then
                match parse_unsigned u32_max version with
                | Some n => Parsed version (Some n)
                | None => Unparsed
                end
              else Unparsed
          end
      end
  end.

Definition unresolved (v : PkexecVersion) : bool := match v with Unresolved => true | _ => false end.

Definition refusal (v : PkexecVersion) : option Error :=
  match v with
  | Parsed _ (Some n) => if KEEP_CWD_SINCE <=? n then None else Some EUnsupported
  | _ => Some EUnsupported
  end.

(** * [plan.rs] *)

Inductive Os := Unix | LinuxOs | MacOs | WindowsOs.

#[export] Instance Os_eq_dec : EqDecision Os.
Proof. solve_decision. Defined.

Definition is_macos_gui_auto (os : Os) (backend : Backend) (auth : Auth) : bool :=
  bool_decide (os = MacOs) && is_gui auth && bool_decide (backend = Auto).

Record BackendSet := backend_set {
  sudo : option bytes; doas : option bytes; pkexec : option bytes; osascript : option bytes }.

Definition path (self : BackendSet) (backend : Backend) : option bytes :=
  match backend with
  | Sudo => sudo self
  | Doas => doas self
  | Pkexec => pkexec self
  | Auto => match sudo self with Some p => Some p | None => doas self end
  end.

(** [pkexec_pin] is the descriptor that pins pkexec's file. *)
Record Host := host {
  elevated : bool; has_tty : bool; available : BackendSet; os : Os; arg_max : option Z;
  pkexec_version : PkexecVersion; pkexec_pin : option Z }.

Inductive Transition :=
| RunAsIs
| ElevatePosix (backend : Backend) (path : bytes) (auth : Auth)
| ElevateWindows (auth : Auth)
| ElevateMacosGui (osascript : bytes) (arg_max : option Z)
| Reject (error : Error).

Definition reject_backend_unavailable : Transition := Reject (Elevation BackendUnavailable).

(** What [Auto] would resolve to. *)
Definition effective (backend : Backend) (available : BackendSet) : option Backend :=
  match backend with
  | Auto =>
      match sudo available, doas available with
      | Some _, _ => Some Sudo
      | None, Some _ => Some Doas
      | None, None => None
      end
  | explicit => Some explicit
  end.

Definition structural_posix (os : Os) (backend : Backend) (auth : Auth) (available : BackendSet) : option Error :=
  if bool_decide (os = MacOs) && bool_decide (backend = Pkexec) then Some EUnsupported
  else if bool_decide (os = Unix) && bool_decide (backend = Pkexec) then Some EUnsupported
  else if is_gui auth && (if bool_decide (os = MacOs) then negb (is_macos_gui_auto os backend auth)
                          else negb (bool_decide (backend = Pkexec))) then Some EUnsupported
  else if bool_decide (backend = Pkexec) && negb (is_gui auth) then Some EUnsupported
  else if is_askpass_or_stdin auth then
    match effective backend available with
    | Some eff => if bool_decide (eff <> Sudo) then Some EUnsupported else None
    | None => None
    end
  else None.

Definition structural_windows (backend : Backend) (auth : Auth) : option Error :=
  if bool_decide (backend <> Auto) then Some EUnsupported
  else match auth with
  | NonInteractive | Askpass _ | Stdin _ => Some EUnsupported
  | Interactive | Gui => None
  end.

Definition resolve_posix (self : Host) (backend : Backend) (auth : Auth) : Transition :=
  let resolved :=
    match backend with
    | Auto =>
        match sudo (available self) with
        | Some p => Some (Sudo, p)
        | None => match doas (available self) with Some p => Some (Doas, p) | None => None end
        end
    | explicit => match path (available self) explicit with Some p => Some (explicit, p) | None => None end
    end in
  match resolved with
  | None => reject_backend_unavailable
  | Some (resolved, p) =>
      match auth with
      | Interactive => if negb (has_tty self) then Reject (Elevation NoTty) else ElevatePosix resolved p auth
      | _ => ElevatePosix resolved p auth
      end
  end.

Definition structural (self : Host) (backend : Backend) (auth : Auth) : option Error :=
  match os self with
  | WindowsOs => structural_windows backend auth
  | o => structural_posix o backend auth (available self)
  end.

Definition plan (self : Host) (target : Privilege) (backend : Backend) (auth : Auth) : Transition :=
  if bool_decide (target <> Elevated) then RunAsIs
  else match structural self backend auth with
  | Some error => Reject error
  | None =>
      if elevated self then RunAsIs
      else match os self with
      | WindowsOs => ElevateWindows auth
      | o =>
          if bool_decide (o = MacOs) && is_macos_gui_auto o backend auth then
            match osascript (available self) with
            | Some p => ElevateMacosGui p (arg_max self)
            | None => reject_backend_unavailable
            end
          else resolve_posix self backend auth
      end
  end.

Definition launches_pkexec (os : Os) (backend : Backend) (auth : Auth) (elevated : bool) : bool :=
  let h := host elevated true (backend_set None None (Some (bs "pkexec")) None) os None NotProbed None in
  match plan h Elevated backend auth with
  | ElevatePosix Pkexec _ _ => true
  | _ => false
  end.

(** * [front.rs] *)

Inductive Gate := Open | Exited | CgroupOnly | Closed (e : Error).

Inductive Front := FSudo | FDoas | FOsascript.

Definition may_be_the_program (f : Front) : bool := match f with FOsascript => false | _ => true end.

Definition relays_term (f : Front) : bool := match f with FOsascript => false | _ => true end.

Definition front (via : option ElevatedVia) : option Front :=
  match via with
  | Some (Wrapped Sudo) => Some FSudo
  | Some (Wrapped Doas) => Some FDoas
  | Some MacosOsascript => Some FOsascript
  | _ => None
  end.

Definition refused : Error := Elevation Unkillable.

(** [kill_gate]; [running1] and [running2] are the two looks, [in_cgroup] the one between them. *)
Definition kill_gate (front : option Front) (running1 : result IoError bool) (in_cgroup : result IoError bool)
    (running2 : result IoError bool) : Gate :=
  match front with
  | None => Open
  | Some _ =>
      match running1 with
      | Ok false => Exited
      | _ =>
          match in_cgroup with
          | Ok true => CgroupOnly
          | Ok false | Err _ => match running2 with Ok false => Exited | _ => Closed refused end
          end
      end
  end.

(** [cgroup_kill_reached]; a missing front is a caller's error ([debug_assert]). *)
Definition cgroup_kill_reached (front : option Front) (exited1 under_leaf exited2 : result IoError bool) :
    result Error unit :=
  match front with
  | None => Err EContainment
  | Some _ =>
      match exited1 with
      | Ok true => Ok tt
      | _ =>
          match under_leaf with
          | Ok true => Ok tt
          | Ok false | Err _ => match exited2 with Ok true => Ok tt | _ => Err refused end
          end
      end
  end.

Definition cgroup_not_killed : Error := refused.

Definition cgroup_kill_failed (front : option Front) (error : Error) : Error :=
  match front with None => error | Some _ => cgroup_not_killed end.

Definition cgroup_not_killed_of (front : option Front) : Error :=
  match front with None => EContainment | Some _ => cgroup_not_killed end.

Definition terminate_gate (front : option Front) (running : result IoError bool) : Gate :=
  match front with
  | Some f =>
      if relays_term f then Open
      else match running with Ok false => Open | _ => Closed refused end
  | None => Open
  end.

(** * Lemmas *)

Lemma structural_posix_None o backend auth av :
  structural_posix o backend auth av = None <->
  (backend = Pkexec <-> is_gui auth = true /\ o <> MacOs) /\
  (backend = Pkexec -> o <> MacOs /\ o <> Unix) /\
  (is_gui auth = true -> o = MacOs -> backend = Auto) /\
  (is_askpass_or_stdin auth = true -> effective backend av = Some Sudo \/ effective backend av = None).
Proof.
  unfold structural_posix, is_macos_gui_auto, effective.
  destruct o, backend, auth, (sudo av), (doas av); cbn; first [by intuition (try congruence) | naive_solver].
Qed.

Lemma structural_windows_None backend auth :
  structural_windows backend auth = None <-> backend = Auto /\ (auth = Interactive \/ auth = Gui).
Proof. unfold structural_windows. destruct backend, auth; cbn; naive_solver. Qed.

Lemma effective_path backend av p b :
  effective backend av = Some b -> path av backend = Some p -> path av b = Some p.
Proof. unfold effective, path. destruct backend, (sudo av), (doas av); naive_solver. Qed.

(** What [resolve_posix] can answer. *)
Lemma resolve_posix_shape self backend auth :
  match resolve_posix self backend auth with
  | ElevatePosix b p a =>
      a = auth /\ path (available self) b = Some p /\ effective backend (available self) = Some b /\ b <> Auto /\
      (auth = Interactive -> has_tty self = true)
  | Reject _ => True
  | _ => False
  end.
Proof.
  unfold resolve_posix, effective, path.
  destruct backend, (sudo (available self)), (doas (available self)), (pkexec (available self)), auth, (has_tty self);
    cbn; done.
Qed.

(** What a POSIX answer is, for a request the matrix lets through. *)
Definition posix_sound (self : Host) (backend : Backend) (auth : Auth) (b : Backend) (p : bytes) (a : Auth) : Prop :=
  a = auth /\ path (available self) b = Some p /\ effective backend (available self) = Some b /\ b <> Auto /\
  (is_askpass_or_stdin auth = true -> b = Sudo) /\ (b = Pkexec <-> is_gui auth = true) /\
  (b = Pkexec -> os self = LinuxOs) /\ (auth = Interactive -> has_tty self = true).

Lemma resolve_posix_sound self backend auth :
  structural_posix (os self) backend auth (available self) = None ->
  os self <> WindowsOs -> is_macos_gui_auto (os self) backend auth = false ->
  match resolve_posix self backend auth with
  | ElevatePosix b p a => posix_sound self backend auth b p a
  | Reject _ => True
  | _ => False
  end.
Proof.
  intros (Hp & Hl & Hg & Ha)%structural_posix_None Hw Hm. pose proof (resolve_posix_shape self backend auth) as H.
  destruct (resolve_posix self backend auth) as [|b p a| | |]; try done.
  destruct H as (-> & Hpa & Hef & Hne & Htty). unfold posix_sound.
  assert (b = Pkexec <-> backend = Pkexec) as Hb.
  { unfold effective in Hef. destruct backend, (sudo (available self)), (doas (available self)); naive_solver. }
  split; [done|]. split; [done|]. split; [done|]. split; [done|].
  split; [intros H; destruct (Ha H); congruence|]. split; [|split; [|done]].
  - rewrite Hb, Hp. split; [tauto|]. intros H. split; [done|]. intros Ho.
    pose proof (Hg H Ho) as ->. unfold is_macos_gui_auto in Hm. rewrite Ho, H in Hm. done.
  - intros ->. destruct (Hl (proj1 Hb eq_refl)). by destruct (os self).
Qed.

(** Detection asks the planner whether a request launches pkexec. *)
Lemma launches_pkexec_iff o backend auth el :
  launches_pkexec o backend auth el = true <-> o = LinuxOs /\ backend = Pkexec /\ auth = Gui /\ el = false.
Proof. unfold launches_pkexec. destruct o, backend, auth, el; cbn; naive_solver. Qed.

(** A plan launches pkexec exactly where detection, asked about the request, says so and found one. *)
Lemma pkexec_launched_iff self target backend auth :
  (exists p a, plan self target backend auth = ElevatePosix Pkexec p a) <->
  target = Elevated /\ is_Some (pkexec (available self)) /\ launches_pkexec (os self) backend auth (elevated self) = true.
Proof.
  rewrite launches_pkexec_iff. destruct self as [el tty [s d pk os_] o am ver pin]. cbn. split.
  - intros (p & a & H). unfold plan, structural, resolve_posix in H. cbn in H.
    destruct target, o, backend, auth, el, s, d, pk, os_, tty; cbn in H; try discriminate H; eauto 8.
  - intros (-> & [p ->] & -> & -> & -> & ->). by exists p, Gui.
Qed.

(** ASCII text reads as its bytes. *)
Lemma from_utf8_ascii_inv b s : from_utf8 b = Ok s -> Forall (fun c => 0 <= c < 128) s -> b = s.
Proof.
  intros [_ ->]%from_utf8_Ok H. induction H as [|c s Hc _ IH]; [done|]. rewrite bind_cons, IH. unfold encode_utf8.
  destruct (Z.ltb_spec c 0x80); [done|lia].
Qed.

Lemma strip_last_Some c s v : strip_last c s = Some v <-> s = v ++ [c].
Proof.
  unfold strip_last. split.
  - induction s as [|x s _] using rev_ind; [done|]. rewrite last_snoc, removelast_last.
    destruct (Z.eqb_spec x c) as [->|]; [|done]. by intros [= ->].
  - intros ->. by rewrite last_snoc, removelast_last, Z.eqb_refl.
Qed.

Lemma digits_positive a : canonical_digits a -> head a <> Some 48 -> 0 < digits_value a.
Proof.
  intros Hc Hh. destruct (base.decide (length a = 1%nat)) as [E|E].
  - destruct Hc as (_ & Hd & _). destruct a as [|d [|]]; try done. apply Forall_cons in Hd as [Hd _].
    rewrite digits_value_one. assert (d <> 48) by (intros ->; done). lia.
  - assert (1 < length a)%nat as Hl by (destruct Hc as (? & _); destruct a as [|? [|]]; simpl in *; (done || lia)).
    pose proof (digits_bounds a Hc Hl). assert (0 < 10 ^ (Z.of_nat (length a) - 1)) by (apply Z.pow_pos_nonneg; lia). lia.
Qed.

(** The digits [parse] lets through are a canonical number. *)
Lemma version_canonical v :
  digits v = true -> starts_with (bs "0") v = false -> canonical_digits v.
Proof.
  unfold digits. intros [Hne%bool_decide_eq_true Hd]%andb_true_iff Hz. split; [done|]. split.
  - rewrite forallb_forall in Hd. apply Forall_forall. intros b Hb. apply is_ascii_digit_true, Hd. by apply list_elem_of_In.
  - intros _ H. destruct v as [|d v]; [done|]. injection H as ->. done.
Qed.

Lemma version_digits n : 0 < n <= u32_max -> digits (show n) = true /\ starts_with (bs "0") (show n) = false.
Proof.
  intros Hn. assert (0 <= n <= u64_max) as Hn' by (unfold u32_max, u64_max in *; lia).
  destruct (show_digits_spec 20 n) as [(Hne & Hd & Hz) Hv]; [unfold u64_max in Hn'; simpl; lia|lia|]. split.
  - unfold digits. rewrite is_ascii_digit_show by done. by rewrite bool_decide_true.
  - fold (show n) in *. destruct (show n) as [|d a] eqn:E; [done|].
    apply starts_with_false. intros r [= -> _].
    destruct a as [|d' a]; [rewrite digits_value_one in Hv; lia|].
    exfalso. apply Hz; [simpl; lia|done].
Qed.

Lemma parse_unsigned_digits max v n :
  digits v = true -> parse_unsigned max v = Some n <-> digits_value v = n /\ n <= max.
Proof.
  unfold digits. intros [Hne%bool_decide_eq_true Hd]%andb_true_iff. destruct v as [|d v]; [done|].
  assert (is_ascii_digit d = true) as Hd0 by (cbn in Hd; by apply andb_true_iff in Hd as [? _]).
  apply is_ascii_digit_true in Hd0. unfold parse_unsigned.
  destruct (Z.eqb_spec d 43), (Z.eqb_spec d 45); try lia. cbn [orb andb]. unfold parse_digits. rewrite Hd. cbn [andb].
  destruct (Z.leb_spec (digits_value (d :: v)) max); naive_solver lia.
Qed.

Lemma ascii_version v : Forall (fun b => 48 <= b <= 57) v -> Forall (fun c => 0 <= c < 128) (bs "pkexec version " ++ v ++ [10]).
Proof.
  intros H. rewrite !Forall_app. split.
  - apply (bool_decide_unpack _). by vm_compute.
  - split; [|repeat constructor; lia]. eapply Forall_impl; [exact H|]. cbn. lia.
Qed.

(** What [parse] reads as a release is that number in canonical decimal, and nothing else. *)
Lemma parse_release out v n :
  parse out = Parsed v (Some n) <->
  v = show n /\ 0 < n <= u32_max /\ out = bs "pkexec version " ++ show n ++ [10].
Proof.
  split.
  - unfold parse. destruct (from_utf8 out) as [text|] eqn:Eu; [|done].
    destruct (strip_prefix (bs "pkexec version ") text ≫= strip_last 10) as [w|] eqn:Es; [|done].
    apply bind_Some in Es as (rest & Ep & ->%strip_last_Some). apply strip_prefix_Some in Ep as ->.
    destruct (strip_prefix (bs "0.") w) as [m|]; [by destruct (digits m)|].
    destruct (digits w) eqn:Ed; cbn [andb]; [|done]. destruct (starts_with (bs "0") w) eqn:Ez; cbn [negb]; [done|].
    destruct (parse_unsigned u32_max w) as [k|] eqn:Ek; [|done]. intros [= <- <-].
    apply (parse_unsigned_digits _ _ _ Ed) in Ek as [<- Hk].
    pose proof (version_canonical w Ed Ez) as Hc.
    assert (show (digits_value w) = w) as Hs.
    { apply show_digits_value; [done|]. apply canonical_length; [done|]. unfold u32_max, u64_max in *. lia. }
    split; [done|]. split.
    + split; [|done]. apply digits_positive; [done|]. intros H. destruct w as [|d w]; [done|]. by injection H as ->.
    + rewrite Hs. apply from_utf8_ascii_inv; [done|]. apply ascii_version. by destruct Hc as (_ & ? & _).
  - intros (-> & Hn & ->). destruct (version_digits n Hn) as [Hd Hz]. unfold parse.
    rewrite from_utf8_ascii by (apply ascii_version, show_clean; unfold u32_max, u64_max in *; lia).
    rewrite (proj2 (strip_prefix_Some (bs "pkexec version ") _ (show n ++ [10])) eq_refl). cbn [mbind option_bind].
    rewrite (proj2 (strip_last_Some 10 (show n ++ [10]) (show n)) eq_refl).
    destruct (strip_prefix (bs "0.") (show n)) as [r|] eqn:E.
    { apply strip_prefix_Some in E. rewrite E in Hz. done. }
    rewrite Hd, Hz. cbn [andb negb].
    rewrite (proj2 (parse_unsigned_digits u32_max (show n) n Hd)); [done|]. split; [|lia].
    apply (show_digits_spec 20 n); [|lia]. unfold u32_max in Hn. simpl. lia.
Qed.

(** What each transition says of its request. *)
Lemma plan_shape self target backend auth :
  match plan self target backend auth with
  | ElevatePosix b p a =>
      posix_sound self backend auth b p a /\ elevated self = false /\ target = Elevated /\ os self <> WindowsOs
  | ElevateMacosGui p m =>
      os self = MacOs /\ auth = Gui /\ backend = Auto /\ osascript (available self) = Some p /\
      m = arg_max self /\ elevated self = false /\ target = Elevated
  | ElevateWindows a =>
      os self = WindowsOs /\ a = auth /\ backend = Auto /\ (auth = Interactive \/ auth = Gui) /\
      elevated self = false /\ target = Elevated
  | RunAsIs => target <> Elevated \/ elevated self = true
  | Reject _ => target = Elevated
  end.
Proof.
  unfold plan. destruct (base.decide (target = Elevated)) as [->|Ht].
  2: { rewrite bool_decide_true by done. by left. }
  rewrite bool_decide_false by tauto.
  destruct (structural self backend auth) as [e|] eqn:Es; [done|].
  destruct (elevated self) eqn:Ee; [by right|]. unfold structural in Es.
  destruct (base.decide (os self = WindowsOs)) as [Ew|Ew].
  { rewrite Ew in Es |- *. apply structural_windows_None in Es as [-> Ha]. done. }
  assert (structural_posix (os self) backend auth (available self) = None) as Es' by (by destruct (os self)).
  destruct (is_macos_gui_auto (os self) backend auth) eqn:Em.
  - unfold is_macos_gui_auto in Em. rewrite !andb_true_iff, !bool_decide_eq_true in Em. destruct Em as [[Eo Eg] ->].
    rewrite Eo. cbn. destruct auth; try done. by destruct (osascript (available self)).
  - pose proof (resolve_posix_sound self backend auth Es' Ew Em) as H.
    assert (forall A (x y z : A), match os self with WindowsOs => x | o =>
      if bool_decide (o = MacOs) && is_macos_gui_auto o backend auth then y else z end = z) as Hm.
    { intros A x y z. destruct (os self); cbn; try done. by rewrite Em. }
    rewrite Hm. by destruct (resolve_posix self backend auth).
Qed.

(** * Properties *)

(** C22: what the planner elevates is what was asked for and can work: a POSIX front is the absolute
    path detection found for it, never the unresolved [Auto]; a password, typed or from an askpass
    program, is given to sudo alone; graphical authentication is pkexec's alone, and pkexec's only
    one, on Linux; a prompt needs a terminal; osascript serves exactly the macOS graphical request,
    and the Windows prompt only requests without a backend or credentials. Nothing is elevated for a
    caller that is elevated already. Detection, which asks [launches_pkexec] whether to probe and pin
    a pkexec, says so exactly of a graphical pkexec request of an unelevated caller on Linux, and
    that is when a plan launches the pkexec that was found. *)
Theorem plan_sound self target backend auth :
  match plan self target backend auth with
  | ElevatePosix b p a =>
      posix_sound self backend auth b p a /\ elevated self = false /\ target = Elevated /\ os self <> WindowsOs
  | ElevateMacosGui p m =>
      os self = MacOs /\ auth = Gui /\ backend = Auto /\ osascript (available self) = Some p /\
      m = arg_max self /\ elevated self = false /\ target = Elevated
  | ElevateWindows a =>
      os self = WindowsOs /\ a = auth /\ backend = Auto /\ (auth = Interactive \/ auth = Gui) /\
      elevated self = false /\ target = Elevated
  | RunAsIs => target <> Elevated \/ elevated self = true
  | Reject _ => target = Elevated
  end /\
  (launches_pkexec (os self) backend auth (elevated self) = true <->
    os self = LinuxOs /\ backend = Pkexec /\ auth = Gui /\ elevated self = false) /\
  ((exists p a, plan self target backend auth = ElevatePosix Pkexec p a) <->
    target = Elevated /\ is_Some (pkexec (available self)) /\ launches_pkexec (os self) backend auth (elevated self) = true).
Proof. split; [apply plan_shape|]. split; [apply launches_pkexec_iff|apply pkexec_launched_iff]. Qed.

(** The verdict on a request does not depend on who asks: what the matrix refuses is refused for
    an elevated caller too, and what it lets through an elevated caller runs as it is; so the
    refusal of a request as such never changes with the caller's privilege, its terminal or its
    version of pkexec. *)
Theorem plan_privilege_free self self' backend auth :
  os self' = os self -> available self' = available self ->
  match structural self backend auth with
  | Some e => plan self' Elevated backend auth = Reject e
  | None => elevated self' = true -> plan self' Elevated backend auth = RunAsIs
  end.
Proof.
  intros Ho Ha. unfold plan. rewrite bool_decide_false by tauto.
  assert (structural self' backend auth = structural self backend auth) as -> by (unfold structural; by rewrite Ho, Ha).
  destruct (structural self backend auth) as [e|]; [done|]. by intros ->.
Qed.

Lemma plan_privilege_free_witness :
  let h := host false true (backend_set None (Some (bs "/usr/bin/doas")) None None) LinuxOs None NotProbed None in
  let h' := host true false (backend_set None (Some (bs "/usr/bin/doas")) None None) LinuxOs None NotProbed None in
  plan h' Elevated Auto (Stdin (bs "x")) = Reject EUnsupported.
Proof.
  exact (plan_privilege_free
    (host false true (backend_set None (Some (bs "/usr/bin/doas")) None None) LinuxOs None NotProbed None)
    (host true false (backend_set None (Some (bs "/usr/bin/doas")) None None) LinuxOs None NotProbed None)
    Auto (Stdin (bs "x")) eq_refl eq_refl).
Defined.

(** A pkexec is launched exactly when its version is the line of polkit 121 or a later one: the
    word, one number in canonical decimal that fits a u32, a line feed, and nothing else; every other
    output, the old 0.1xx scheme and bytes that are not text among them, is refused. *)
Theorem refusal_parse out :
  refusal (parse out) = None <->
  exists n, KEEP_CWD_SINCE <= n <= u32_max /\ out = bs "pkexec version " ++ show n ++ [10].
Proof.
  split.
  - destruct (parse out) as [| | | | | |v [n|]] eqn:E; try done. cbn. destruct (Z.leb_spec KEEP_CWD_SINCE n); [|done].
    intros _. apply parse_release in E as (_ & Hn & ->). exists n. split; [lia|done].
  - intros (n & Hn & ->). assert (0 < n) by (unfold KEEP_CWD_SINCE in Hn; lia).
    rewrite (proj2 (parse_release _ (show n) n)) by (split; [done|split; [lia|done]]).
    cbn. by destruct (Z.leb_spec KEEP_CWD_SINCE n); [|lia].
Qed.
