(* ===== verification/Command.v ===== *)
(** The [Command] builder: [src/stdio.rs], [src/command.rs] and the creation flags of
    [src/command/flags.rs]. Names, values, paths and lines are bytes (POSIX); a [File] and a held
    descriptor are numbers; messages are left out. *)
From S2P Require Import Prelude PathComponent Sanitize Numbers IoErrors Identity CrateError ElevationPlan.
From stdpp Require Import gmap.
Local Open Scope Z_scope.

(** * [stdio.rs] *)

Definition STDIN : Z := 0.

Definition STDOUT : Z := 1.

Definition STDERR : Z := 2.

Inductive Direction := In | Out.

(** The target of a redirection; [pty] is a feature. *)
Inductive Stdio :=
| SInherit
| SNull
| SPipe (dir : option Direction)
| SFile (f : Z)
| SMerge (other : Z)
| SPty.

Inductive ResolvedStdio :=
| Inherit
| Null
| Pipe (dir : Direction)
| File (f : Z)
| Merge (other : Z).

Definition resolve (self : Stdio) (slot : Z) : result Error ResolvedStdio :=
  match self with
  | SInherit => Ok Inherit
  | SNull => Ok Null
  | SFile f => Ok (File f)
  | SMerge t => Ok (Merge t)
  | SPipe (Some dir) => Ok (Pipe dir)
  | SPipe None =>
      if slot =? STDIN then Ok (Pipe In)
      else if (slot =? STDOUT) || (slot =? STDERR) then Ok (Pipe Out)
      else Err EUnsupported
  | SPty => Err EUnsupported
  end.

(** * [command.rs] *)

Inductive ExecutableSpec := Search (p : bytes) | Exact (p : bytes).

Definition spec_path (self : ExecutableSpec) : bytes := match self with Search p | Exact p => p end.

Inductive EnvOp := EnvSet (k v : bytes) | Remove (k : bytes) | Clear.

Inductive CommandInput := Empty | Argv (v : list bytes) | CommandLine (line : bytes).

Inductive ContainMode := Strongest | TreeWalk | Session.

Inductive Nesting := Mark | Opaque_.

#[export] Instance ContainMode_eq_dec : EqDecision ContainMode.
Proof. solve_decision. Defined.
#[export] Instance Nesting_eq_dec : EqDecision Nesting.
Proof. solve_decision. Defined.

Record ContainRequest := contain_request { mode : option ContainMode; nesting : Nesting }.

Definition ContainRequest_default : ContainRequest := contain_request None Mark.

(** The Windows fields are [false] and [0] elsewhere, where no setter for them exists. *)
Record FlagsRequest := flags_request {
  no_window : bool; detached : bool; breakaway_from_job : bool; suspended : bool; raw : Z }.

Definition FlagsRequest_default : FlagsRequest := flags_request false false false false 0.

Record ElevationRequest := elevation_request {
  enabled : bool; backend : Backend; auth : Auth; sanitizer : Policy }.

Definition ElevationRequest_default : ElevationRequest :=
  elevation_request false Auto Interactive EnvSanitizer_default.

Record Command := command {
  input : CommandInput;
  executable : option ExecutableSpec;
  fds : gmap Z ResolvedStdio;
  env_ops : list EnvOp;
  cwd : option bytes;
  kill_on_drop : bool;
  contain : ContainRequest;
  elevation : ElevationRequest;
  fd_marker_suppressed : bool;
  elevation_front : option Front;
  flags : FlagsRequest;
  held : list Z }.

Definition Command_default : Command :=
  command Empty None ∅ [] None true ContainRequest_default ElevationRequest_default false None FlagsRequest_default [].

Definition set_input (self : Command) (i : CommandInput) : Command :=
  command (i) (executable self) (fds self) (env_ops self) (cwd self) (kill_on_drop self) (contain self) (elevation self) (fd_marker_suppressed self) (elevation_front self) (flags self) (held self).

Definition set_executable_spec (self : Command) (spec : option ExecutableSpec) : Command :=
  command (input self) (spec) (fds self) (env_ops self) (cwd self) (kill_on_drop self) (contain self) (elevation self) (fd_marker_suppressed self) (elevation_front self) (flags self) (held self).

Definition set_fds (self : Command) (m : gmap Z ResolvedStdio) : Command :=
  command (input self) (executable self) (m) (env_ops self) (cwd self) (kill_on_drop self) (contain self) (elevation self) (fd_marker_suppressed self) (elevation_front self) (flags self) (held self).

Definition set_env_ops (self : Command) (ops : list EnvOp) : Command :=
  command (input self) (executable self) (fds self) (ops) (cwd self) (kill_on_drop self) (contain self) (elevation self) (fd_marker_suppressed self) (elevation_front self) (flags self) (held self).

Definition current_dir (self : Command) (dir : bytes) : Command :=
  command (input self) (executable self) (fds self) (env_ops self) (Some dir) (kill_on_drop self) (contain self) (elevation self) (fd_marker_suppressed self) (elevation_front self) (flags self) (held self).

Definition set_kill_on_drop (self : Command) (yes : bool) : Command :=
  command (input self) (executable self) (fds self) (env_ops self) (cwd self) (yes) (contain self) (elevation self) (fd_marker_suppressed self) (elevation_front self) (flags self) (held self).

Definition set_contain (self : Command) (req : ContainRequest) : Command :=
  command (input self) (executable self) (fds self) (env_ops self) (cwd self) (kill_on_drop self) (req) (elevation self) (fd_marker_suppressed self) (elevation_front self) (flags self) (held self).

Definition set_elevation (self : Command) (req : ElevationRequest) : Command :=
  command (input self) (executable self) (fds self) (env_ops self) (cwd self) (kill_on_drop self) (contain self) (req) (fd_marker_suppressed self) (elevation_front self) (flags self) (held self).

Definition suppress_fd_marker (self : Command) : Command :=
  command (input self) (executable self) (fds self) (env_ops self) (cwd self) (kill_on_drop self) (contain self) (elevation self) (true) (elevation_front self) (flags self) (held self).

Definition set_elevation_front (self : Command) (front : option Front) : Command :=
  command (input self) (executable self) (fds self) (env_ops self) (cwd self) (kill_on_drop self) (contain self) (elevation self) (fd_marker_suppressed self) (front) (flags self) (held self).

Definition set_flags (self : Command) (f : FlagsRequest) : Command :=
  command (input self) (executable self) (fds self) (env_ops self) (cwd self) (kill_on_drop self) (contain self) (elevation self) (fd_marker_suppressed self) (elevation_front self) (f) (held self).

Definition hold (self : Command) (file : Z) : Command :=
  command (input self) (executable self) (fds self) (env_ops self) (cwd self) (kill_on_drop self) (contain self) (elevation self) (fd_marker_suppressed self) (elevation_front self) (flags self) (held self ++ [file]).

Definition arg (self : Command) (a : bytes) : Command :=
  set_input self (match input self with Argv v => Argv (v ++ [a]) | _ => Argv [a] end).

Definition args (self : Command) (items : list bytes) : Command :=
  set_input self (match input self with Argv v => Argv (v ++ items) | _ => Argv items end).

Definition commandline (self : Command) (line : bytes) : Command := set_input self (CommandLine line).

Definition executable_ (self : Command) (path : bytes) : Command := set_executable_spec self (Some (Search path)).

Definition raw_executable (self : Command) (path : bytes) : Command := set_executable_spec self (Some (Exact path)).

Definition executable_path (self : Command) : option bytes := spec_path <$> executable self.

Definition fd (self : Command) (slot : Z) (target : Stdio) : result Error Command :=
  if slot <? 0 then Err (Io (io_new InvalidInput))
  else
    match resolve target slot with
    | Ok resolved => Ok (set_fds self (<[slot := resolved]> (fds self)))
    | Err e => Err e
    end.

Definition stdin (self : Command) (target : Stdio) : result Error Command := fd self STDIN target.

Definition stdout (self : Command) (target : Stdio) : result Error Command := fd self STDOUT target.

Definition stderr (self : Command) (target : Stdio) : result Error Command := fd self STDERR target.

Definition env (self : Command) (k v : bytes) : Command := set_env_ops self (env_ops self ++ [EnvSet k v]).

Definition envs (self : Command) (vars : list (bytes * bytes)) : Command :=
  foldl (fun c kv => env c kv.1 kv.2) self vars.

Definition env_remove (self : Command) (k : bytes) : Command := set_env_ops self (env_ops self ++ [Remove k]).

Definition env_clear (self : Command) : Command := set_env_ops self (env_ops self ++ [Clear]).

Definition contain_with (self : Command) (m : ContainMode) : Command :=
  set_contain self (contain_request (Some m) (nesting (contain self))).

Definition contain_strongest (self : Command) : Command := contain_with self Strongest.

Definition set_nesting (self : Command) (n : Nesting) : Command :=
  set_contain self (contain_request (mode (contain self)) n).

Definition set_no_window (self : Command) : Command :=
  let f := flags self in set_flags self (flags_request true (detached f) (breakaway_from_job f) (suspended f) (raw f)).

Definition set_detached (self : Command) : Command :=
  let f := flags self in set_flags self (flags_request (no_window f) true (breakaway_from_job f) (suspended f) (raw f)).

Definition set_breakaway_from_job (self : Command) : Command :=
  let f := flags self in set_flags self (flags_request (no_window f) (detached f) true (suspended f) (raw f)).

Definition creation_flags (self : Command) (word : Z) : Command :=
  let f := flags self in
  set_flags self (flags_request (no_window f) (detached f) (breakaway_from_job f) (suspended f) word).

(** The command, and what the field held. *)
Definition set_suspended (self : Command) (yes : bool) : Command * bool :=
  let f := flags self in
  (set_flags self (flags_request (no_window f) (detached f) (breakaway_from_job f) yes (raw f)), suspended f).

Definition elevate (self : Command) : Command :=
  let e := elevation self in set_elevation self (elevation_request true (backend e) (auth e) (sanitizer e)).

Definition elevation_backend (self : Command) (b : Backend) : Command :=
  let e := elevation self in set_elevation self (elevation_request true b (auth e) (sanitizer e)).

Definition elevation_auth (self : Command) (a : Auth) : Command :=
  let e := elevation self in set_elevation self (elevation_request true (backend e) a (sanitizer e)).

Definition sanitize_env (self : Command) (s : Policy) : Command :=
  let e := elevation self in set_elevation self (elevation_request true (backend e) (auth e) s).

Definition set_input_argv (self : Command) (argv : list bytes) : Command :=
  set_executable_spec (set_input self (Argv argv)) None.

Definition is_stdin (a : Auth) : bool := match a with Stdin _ => true | _ => false end.

Definition apply_default_stdin (self : Command) (default : Stdio) : result Error Command :=
  if is_stdin (auth (elevation self)) then Ok self else stdin self default.

(** What [output], [status] and [read] set before they spawn. *)
Definition before_output (self : Command) : result Error Command :=
  let? c := apply_default_stdin self SNull in
  let? c := stdout c (SPipe None) in stderr c (SPipe None).

Definition before_status (self : Command) : result Error Command :=
  let? c := apply_default_stdin self SInherit in
  let? c := stdout c SInherit in stderr c SInherit.

Definition before_read (self : Command) : result Error Command :=
  let? c := apply_default_stdin self SNull in stdout c (SPipe None).

(** * [elevation_argv] of [elevation.rs] *)

Definition elevation_argv (cmd : Command) : result Error (list bytes) :=
  match executable cmd with
  | Some _ => Err EUnsupported
  | None =>
      match input cmd with
      | Argv [] | Empty | CommandLine _ => Err EUnsupported
      | Argv argv => Ok argv
      end
  end.

(** * [command/flags.rs] *)

Definition DEBUG_PROCESS : Z := 0x1.

Definition DEBUG_ONLY_THIS_PROCESS : Z := 0x2.

Definition CREATE_SUSPENDED : Z := 0x4.

Definition DETACHED_PROCESS : Z := 0x8.

Definition CREATE_NEW_CONSOLE : Z := 0x10.

Definition CREATE_NEW_PROCESS_GROUP : Z := 0x200.

Definition CREATE_UNICODE_ENVIRONMENT : Z := 0x400.

Definition EXTENDED_STARTUPINFO_PRESENT : Z := 0x80000.

Definition CREATE_BREAKAWAY_FROM_JOB : Z := 0x1000000.

Definition CREATE_NO_WINDOW : Z := 0x8000000.

Definition ERROR_ACCESS_DENIED : Z := 5.

Inductive SpawnBackend := Std | Raw.

#[export] Instance SpawnBackend_eq_dec : EqDecision SpawnBackend.
Proof. solve_decision. Defined.

Record WindowsSpawn := windows_spawn_ { spawn_flags : Z; spawn_marker : bool }.

(** The bits of [reserved_table], in its order. *)
Definition reserved_table : list Z :=
  [DEBUG_PROCESS; DEBUG_ONLY_THIS_PROCESS; CREATE_SUSPENDED; DETACHED_PROCESS; CREATE_NEW_CONSOLE;
   CREATE_NEW_PROCESS_GROUP; CREATE_UNICODE_ENVIRONMENT; EXTENDED_STARTUPINFO_PRESENT;
   CREATE_BREAKAWAY_FROM_JOB; CREATE_NO_WINDOW].

(** The table is in the order of its bits already, which [sort_by_key] keeps. *)
Definition reserved_bits_in (raw : Z) : list Z := filter (fun bit => Z.land raw bit <> 0) reserved_table.

Definition root_flags : Z := Z.lor CREATE_SUSPENDED CREATE_NEW_PROCESS_GROUP.

Definition group_flags : Z := CREATE_NEW_PROCESS_GROUP.

(** [windows_contain_setup]: the flags, and whether the root marker is set. *)
Definition windows_contain_setup (req : ContainRequest) (is_root : bool) : Z * bool :=
  match mode req with
  | None => (0, false)
  | Some m =>
      (if is_root && negb (bool_decide (m = TreeWalk)) then root_flags else group_flags,
       is_root && bool_decide (nesting req = Mark))
  end.

Definition when (b : bool) (bits word : Z) : Z := if b then Z.lor word bits else word.

Definition windows_spawn (contain : ContainRequest) (flags : FlagsRequest) (is_root : bool) (backend : SpawnBackend)
  : result Error WindowsSpawn :=
  if bool_decide (reserved_bits_in (raw flags) <> []) then Err EUnsupported
  else if breakaway_from_job flags && bool_decide (mode contain <> None) then Err EUnsupported
  else
    let setup := windows_contain_setup contain is_root in
    let word := Z.lor setup.1 (raw flags) in
    let word := when (no_window flags) CREATE_NO_WINDOW word in
    let word := when (detached flags) DETACHED_PROCESS word in
    let word := when (breakaway_from_job flags) CREATE_BREAKAWAY_FROM_JOB word in
    let word := when (suspended flags) CREATE_SUSPENDED word in
    let word := when (bool_decide (backend = Raw)) (Z.lor CREATE_UNICODE_ENVIRONMENT EXTENDED_STARTUPINFO_PRESENT) word in
    Ok (windows_spawn_ word setup.2).

Inductive JobBreakaway := NotInJob | Permitted | SilentBreakaway | Forbidden | JUnknown.

#[export] Instance JobBreakaway_eq_dec : EqDecision JobBreakaway.
Proof. solve_decision. Defined.

Definition JOB_OBJECT_LIMIT_BREAKAWAY_OK : Z := 0x800.

Definition JOB_OBJECT_LIMIT_SILENT_BREAKAWAY_OK : Z := 0x1000.

(** [probe_job_breakaway]: [in_job] is what [IsProcessInJob] answers, [None] when it fails, and
    [limits] what [QueryInformationJobObject] does. *)
Definition probe_job_breakaway (in_job : option bool) (limits : option Z) : JobBreakaway :=
  match in_job with
  | None => JUnknown
  | Some false => NotInJob
  | Some true =>
      match limits with
      | None => JUnknown
      | Some limits =>
          if bool_decide (Z.land limits JOB_OBJECT_LIMIT_BREAKAWAY_OK <> 0) then Permitted
          else if bool_decide (Z.land limits JOB_OBJECT_LIMIT_SILENT_BREAKAWAY_OK <> 0) then SilentBreakaway
          else Forbidden
      end
  end.

Definition classify_spawn_denial (err : Error) (flags : FlagsRequest) (job : JobBreakaway) : Error :=
  if breakaway_from_job flags then
    match err with
    | Io io =>
        if bool_decide (raw_os_error io = Some ERROR_ACCESS_DENIED) && bool_decide (job = Forbidden)
        then EContainment else err
    | _ => err
    end
  else err.

Definition classify_spawn_syscall_error (err : Error) (flags : FlagsRequest) (in_job : option bool) (limits : option Z)
  : Error := classify_spawn_denial err flags (probe_job_breakaway in_job limits).

(** * [graceful.rs], and [mechanism_from_flags] of [containment/windows.rs] *)

Inductive GracefulMechanism := MProcess | ConsoleGroup | OtherConsoleGroup | MUnknown | MNone.

Definition mechanism_from_flags (creation_flags : Z) : GracefulMechanism :=
  if Z.land creation_flags CREATE_NEW_PROCESS_GROUP =? 0 then MNone
  else
    let out_of_console := Z.lor (Z.lor DETACHED_PROCESS CREATE_NEW_CONSOLE) CREATE_NO_WINDOW in
    if negb (Z.land creation_flags out_of_console =? 0) then OtherConsoleGroup else ConsoleGroup.

Definition addresses_a_bare_pid (self : GracefulMechanism) : bool :=
  match self with
  | ConsoleGroup | OtherConsoleGroup => true
  | MProcess => false
  | MUnknown | MNone => false
  end.

(** The signal a call makes: to the root through its own handle, to an identity, or to a console
    group by its number. *)
Inductive GracefulSend := SignalRoot | TerminateById (id : ProcessId) | CtrlBreak (pid : Z).

(** [signal]: the send made, or the refusal. *)
Definition signal (windows : bool) (mechanism : GracefulMechanism) (id : ProcessId) : result Error GracefulSend :=
  match mechanism with
  | MProcess => Ok (if windows then TerminateById id else SignalRoot)
  | ConsoleGroup | OtherConsoleGroup => if windows then Ok (CtrlBreak (pid id)) else Err EUnsupported
  | MUnknown => Err EUnsupported
  | MNone => Err EUnsupported
  end.

(** [after_grace], with the result that [kill] would give: the result, and whether [kill] was called. *)
Definition after_grace (watch : result Error bool) (kill : result Error unit) : result Error unit * bool :=
  match watch with
  | Ok true => (Ok tt, false)
  | _ =>
      (let? _ := kill in match watch with Ok _ => Ok tt | Err e => Err e end, true)
  end.

Definition after_tree_grace (watch : result Error bool) (sweep : result Error unit) : result Error unit :=
  let? _ := sweep in match watch with Ok _ => Ok tt | Err e => Err e end.

(** * Building a command *)

(** The calls of a builder, and the command they leave; a call that fails leaves it as it was. *)
Inductive Op :=
| OArg (a : bytes) | OArgs (items : list bytes) | OCommandline (line : bytes)
| OExecutable (p : bytes) | ORawExecutable (p : bytes)
| OFd (slot : Z) (target : Stdio)
| OEnv (k v : bytes) | OEnvs (vars : list (bytes * bytes)) | OEnvRemove (k : bytes) | OEnvClear
| OCurrentDir (dir : bytes) | OKillOnDrop (yes : bool) | OContainWith (m : ContainMode) | ONesting (n : Nesting)
| ONoWindow | ODetached | OBreakaway | OCreationFlags (word : Z)
| OElevate | OBackend (b : Backend) | OAuth (a : Auth) | OSanitize (s : Policy).

Definition apply_op (c : Command) (op : Op) : result Error Command :=
  match op with
  | OArg a => Ok (arg c a) | OArgs l => Ok (args c l) | OCommandline l => Ok (commandline c l)
  | OExecutable p => Ok (executable_ c p) | ORawExecutable p => Ok (raw_executable c p)
  | OFd slot t => fd c slot t
  | OEnv k v => Ok (env c k v) | OEnvs vars => Ok (envs c vars)
  | OEnvRemove k => Ok (env_remove c k) | OEnvClear => Ok (env_clear c)
  | OCurrentDir d => Ok (current_dir c d) | OKillOnDrop y => Ok (set_kill_on_drop c y)
  | OContainWith m => Ok (contain_with c m) | ONesting n => Ok (set_nesting c n)
  | ONoWindow => Ok (set_no_window c) | ODetached => Ok (set_detached c)
  | OBreakaway => Ok (set_breakaway_from_job c) | OCreationFlags w => Ok (creation_flags c w)
  | OElevate => Ok (elevate c) | OBackend b => Ok (elevation_backend c b)
  | OAuth a => Ok (elevation_auth c a) | OSanitize s => Ok (sanitize_env c s)
  end.

Definition step (c : Command) (op : Op) : Command := match apply_op c op with Ok c' => c' | Err _ => c end.

Definition build (ops : list Op) : Command := foldl step Command_default ops.

(** What the calls say, each read by itself. *)
Definition words_of (op : Op) : list bytes := match op with OArg a => [a] | OArgs l => l | _ => [] end.

Definition is_word_op (op : Op) : bool := match op with OArg _ | OArgs _ => true | _ => false end.

Definition is_line_op (op : Op) : bool := match op with OCommandline _ => true | _ => false end.

Definition env_of (op : Op) : list EnvOp :=
  match op with
  | OEnv k v => [EnvSet k v] | OEnvs vars => (fun kv => EnvSet kv.1 kv.2) <$> vars
  | OEnvRemove k => [Remove k] | OEnvClear => [Clear] | _ => []
  end.

Definition is_elevation_op (op : Op) : bool :=
  match op with OElevate | OBackend _ | OAuth _ | OSanitize _ => true | _ => false end.

(** What a call makes of a slot. *)
Definition fd_of (slot : Z) (op : Op) : option ResolvedStdio :=
  match op with
  | OFd s t => if (s =? slot) && negb (s <? 0) then match resolve t s with Ok r => Some r | Err _ => None end else None
  | _ => None
  end.

Definition last_word (slot : Z) (ops : list Op) : option ResolvedStdio := last (omap (fd_of slot) ops).

Definition input_after (start : CommandInput) (ops : list Op) : CommandInput :=
  if existsb is_word_op ops then
    Argv ((match start with Argv v => v | _ => [] end) ++ (ops ≫= words_of))
  else start.

(** * Lemmas *)

Lemma testbit_when b bits word i : Z.testbit (when b bits word) i = Z.testbit word i || b && Z.testbit bits i.
Proof. destruct b; cbn; [apply Z.lor_spec|by rewrite orb_false_r]. Qed.

Lemma land_pow2_zero a k : 0 <= k -> Z.land a (2 ^ k) = 0 <-> Z.testbit a k = false.
Proof.
  intros Hk. split.
  - intros H. pose proof (f_equal (fun z => Z.testbit z k) H) as E. cbn beta in E.
    rewrite Z.land_spec, Z.pow2_bits_true, Z.bits_0, andb_true_r in E by done. done.
  - intros H. apply Z.bits_inj'. intros n Hn. rewrite Z.land_spec, Z.bits_0.
    destruct (base.decide (n = k)) as [->|]; [by rewrite H|].
    rewrite Z.pow2_bits_false by done. apply andb_false_r.
Qed.

Lemma filter_none {A} (P : A -> Prop) `{forall x, Decision (P x)} l :
  filter P l = [] <-> Forall (fun x => ~ P x) l.
Proof.
  induction l as [|x l IH]; [done|]. rewrite Forall_cons. destruct (base.decide (P x)) as [Hx|Hx].
  - rewrite filter_cons_True by done. split; [done|tauto].
  - rewrite filter_cons_False by done. tauto.
Qed.

(** The numbers of the bits of [reserved_table]. *)
Definition reserved_numbers : list Z := [0; 1; 2; 3; 4; 9; 10; 19; 24; 27].

Lemma reserved_bits_spec raw :
  reserved_bits_in raw = [] <-> Forall (fun k => Z.testbit raw k = false) reserved_numbers.
Proof.
  unfold reserved_bits_in. rewrite filter_none.
  assert (reserved_table = Z.pow 2 <$> reserved_numbers) as -> by reflexivity.
  rewrite Forall_fmap. assert (Forall (Z.le 0) reserved_numbers) as H0 by (repeat constructor; lia).
  rewrite !Forall_forall in *. split; intros H k Hk; pose proof (land_pow2_zero raw k (H0 k Hk)); specialize (H k Hk); cbn in *.
  - destruct (base.decide (Z.land raw (2 ^ k) = 0)); tauto.
  - tauto.
Qed.

Definition has_mode (contain : ContainRequest) : bool := match mode contain with Some _ => true | None => false end.

Definition has_job (contain : ContainRequest) : bool :=
  match mode contain with Some Strongest | Some Session => true | _ => false end.

(** What each bit of the composed word says. *)
Definition word_bit (contain : ContainRequest) (flags : FlagsRequest) (is_root : bool) (backend : SpawnBackend) (i : Z) : bool :=
  if (i =? 0) || (i =? 1) || (i =? 4) then false
  else if i =? 2 then suspended flags || is_root && has_job contain
  else if i =? 3 then detached flags
  else if i =? 9 then has_mode contain
  else if (i =? 10) || (i =? 19) then bool_decide (backend = Raw)
  else if i =? 24 then breakaway_from_job flags
  else if i =? 27 then no_window flags
  else Z.testbit (raw flags) i.

Lemma pow2_bit k i : 0 <= k -> Z.testbit (2 ^ k) i = (i =? k).
Proof. intros Hk. rewrite Z.eqb_sym. by apply Z.pow2_bits_eqb. Qed.

Lemma setup_bit contain is_root i :
  Z.testbit (windows_contain_setup contain is_root).1 i =
  has_mode contain && (i =? 9) || is_root && has_job contain && (i =? 2).
Proof.
  assert (forall i, Z.testbit group_flags i = (i =? 9)) as Hg by (intros j; by apply (pow2_bit 9)).
  assert (forall i, Z.testbit CREATE_SUSPENDED i = (i =? 2)) as Hs by (intros j; by apply (pow2_bit 2)).
  unfold windows_contain_setup, has_mode, has_job. destruct (mode contain) as [m|]; [|by destruct is_root; rewrite Z.bits_0].
  destruct m, is_root; cbn [fst andb orb negb]; unfold root_flags; rewrite ?bool_decide_true by done;
    rewrite ?bool_decide_false by done; cbn; rewrite ?Z.lor_spec, ?Hs; fold group_flags; rewrite ?Hg;
    by destruct (i =? 2), (i =? 9).
Qed.

Lemma compose_bits contain flags is_root backend w i :
  windows_spawn contain flags is_root backend = Ok w ->
  Z.testbit (spawn_flags w) i = word_bit contain flags is_root backend i.
Proof.
  unfold windows_spawn. case_bool_decide as Hr; [done|].
  destruct (breakaway_from_job flags && _); [done|]. intros [= <-]. cbn [spawn_flags].
  rewrite !testbit_when, !Z.lor_spec, setup_bit. unfold word_bit.
  apply reserved_bits_spec in Hr. unfold reserved_numbers in Hr. rewrite !Forall_cons in Hr.
  destruct Hr as (H0 & H1 & H2 & H3 & H4 & H9 & H10 & H19 & H24 & H27 & _).
  change CREATE_NO_WINDOW with (2 ^ 27). change DETACHED_PROCESS with (2 ^ 3).
  change CREATE_BREAKAWAY_FROM_JOB with (2 ^ 24). change CREATE_SUSPENDED with (2 ^ 2).
  change CREATE_UNICODE_ENVIRONMENT with (2 ^ 10). change EXTENDED_STARTUPINFO_PRESENT with (2 ^ 19).
  rewrite !pow2_bit by done.
  repeat match goal with
  | |- context [i =? ?k] =>
      destruct (Z.eqb_spec i k) as [->|];
        [cbn [Z.eqb Pos.eqb orb andb]; rewrite ?H0, ?H1, ?H2, ?H3, ?H4, ?H9, ?H10, ?H19, ?H24, ?H27|cbn [orb andb]]
  end; rewrite ?andb_false_r, ?orb_false_r, ?andb_true_r, ?andb_false_r, ?orb_false_r; try done.
  all: by rewrite orb_comm.
Qed.

Lemma land_pow2_eqb a k : 0 <= k -> (Z.land a (2 ^ k) =? 0) = negb (Z.testbit a k).
Proof.
  intros Hk. pose proof (land_pow2_zero a k Hk) as H.
  destruct (Z.testbit a k); cbn; [apply Z.eqb_neq|apply Z.eqb_eq]; naive_solver.
Qed.

Lemma land_lor_eqb a b c : (Z.land a (Z.lor b c) =? 0) = (Z.land a b =? 0) && (Z.land a c =? 0).
Proof.
  rewrite Z.land_lor_distr_r. destruct (Z.eqb_spec (Z.lor (Z.land a b) (Z.land a c)) 0) as [E|E].
  - apply Z.lor_eq_0_iff in E as [-> ->]. done.
  - symmetry. apply andb_false_iff. rewrite !Z.eqb_neq, Z.lor_eq_0_iff in *.
    destruct (base.decide (Z.land a b = 0)); tauto.
Qed.

Lemma mechanism_bits w :
  mechanism_from_flags w =
  if Z.testbit w 9 then if Z.testbit w 3 || Z.testbit w 4 || Z.testbit w 27 then OtherConsoleGroup else ConsoleGroup
  else MNone.
Proof.
  unfold mechanism_from_flags. rewrite !land_lor_eqb.
  change CREATE_NEW_PROCESS_GROUP with (2 ^ 9). change DETACHED_PROCESS with (2 ^ 3).
  change CREATE_NEW_CONSOLE with (2 ^ 4). change CREATE_NO_WINDOW with (2 ^ 27).
  rewrite !land_pow2_eqb by done. by destruct (Z.testbit w 9), (Z.testbit w 3), (Z.testbit w 4), (Z.testbit w 27).
Qed.

Lemma word_high contain flags is_root backend i :
  32 <= i -> word_bit contain flags is_root backend i = Z.testbit (raw flags) i.
Proof.
  intros Hi. unfold word_bit. repeat match goal with |- context [i =? ?k] => rewrite (proj2 (Z.eqb_neq i k)) by lia end. done.
Qed.

Lemma has_mode_decide contain : bool_decide (mode contain <> None) = has_mode contain.
Proof. unfold has_mode. case_bool_decide; by destruct (mode contain). Qed.

Lemma windows_spawn_parts contain flags is_root backend w :
  windows_spawn contain flags is_root backend = Ok w ->
  spawn_marker w = has_mode contain && is_root && bool_decide (nesting contain = Mark) /\
  Forall (fun k => Z.testbit (raw flags) k = false) reserved_numbers /\
  breakaway_from_job flags && has_mode contain = false.
Proof.
  unfold windows_spawn. case_bool_decide as Hr; [done|]. rewrite has_mode_decide.
  destruct (breakaway_from_job flags && _); [done|]. intros [= <-]. split; [|split; [by apply reserved_bits_spec|done]].
  unfold windows_contain_setup, has_mode. cbn. destruct (mode contain); [done|]. by destruct is_root.
Qed.

Lemma envs_ops c vars : env_ops (envs c vars) = env_ops c ++ ((fun kv => EnvSet kv.1 kv.2) <$> vars).
Proof.
  unfold envs. revert c. induction vars as [|kv vars IH]; intros c; cbn; [by rewrite app_nil_r|].
  rewrite IH. cbn. by rewrite <- app_assoc.
Qed.

(** [envs] is a run of [env]s: a property that [env] keeps, it keeps. *)
Lemma envs_ind (P : Command -> Prop) c vars : (forall c k v, P c -> P (env c k v)) -> P c -> P (envs c vars).
Proof. intros He. unfold envs. revert c. induction vars as [|kv vars IH]; intros c Hc; cbn; [done|]. apply IH. by apply He. Qed.

Lemma step_env c op : env_ops (step c op) = env_ops c ++ env_of op.
Proof.
  destruct op; unfold step; cbn; rewrite ?app_nil_r; try done; [|apply envs_ops].
  unfold fd. destruct (slot <? 0); [done|]. by destruct (resolve target slot).
Qed.

Lemma step_input c op :
  input (step c op) =
  match op with OCommandline l => CommandLine l | _ => input_after (input c) [op] end.
Proof.
  destruct op; unfold step, input_after; cbn; rewrite ?app_nil_r; try done.
  - by destruct (input c).
  - by destruct (input c).
  - unfold fd. destruct (slot <? 0); [done|]. by destruct (resolve target slot).
  - by apply (envs_ind (fun c' => input c' = input c)).
Qed.

Lemma step_fds c op slot :
  fds (step c op) !! slot = match fd_of slot op with Some r => Some r | None => fds c !! slot end.
Proof.
  destruct op; unfold step; try done.
  - cbn. unfold fd. destruct (Z.ltb_spec slot0 0); cbn; [by rewrite andb_false_r|].
    rewrite andb_true_r. destruct (resolve target slot0); cbn.
    + destruct (Z.eqb_spec slot0 slot) as [->|]; [by rewrite lookup_insert_eq|by rewrite lookup_insert_ne].
    + by destruct (slot0 =? slot).
  - cbn. by apply (envs_ind (fun c' => fds c' !! slot = fds c !! slot)).
Qed.

(** What no caller can set. *)
Definition internal (c : Command) : bool * option Front * list Z * bool :=
  (fd_marker_suppressed c, elevation_front c, held c, suspended (flags c)).

Lemma step_internal c op : internal (step c op) = internal c.
Proof.
  destruct op; try done; unfold step; cbn.
  - unfold fd. destruct (slot <? 0); [done|]. by destruct (resolve target slot).
  - by apply (envs_ind (fun c' => internal c' = internal c)).
Qed.

Lemma step_enabled c op : enabled (elevation (step c op)) = enabled (elevation c) || is_elevation_op op.
Proof.
  destruct op; unfold step; cbn; rewrite ?orb_false_r, ?orb_true_r; try done.
  - unfold fd. destruct (slot <? 0); [done|]. by destruct (resolve target slot).
  - by apply (envs_ind (fun c' => enabled (elevation c') = enabled (elevation c))).
Qed.

Lemma build_env ops : env_ops (build ops) = ops ≫= env_of.
Proof.
  unfold build. induction ops as [|op ops IH] using rev_ind; [done|].
  rewrite foldl_app, bind_app, <- IH. cbn. by rewrite step_env, app_nil_r.
Qed.

Lemma build_fds ops slot : fds (build ops) !! slot = last_word slot ops.
Proof.
  unfold build, last_word. induction ops as [|op ops IH] using rev_ind; [done|].
  rewrite foldl_app, omap_app. cbn. rewrite step_fds, IH. destruct (fd_of slot op); [by rewrite last_snoc|by rewrite app_nil_r].
Qed.

Lemma last_word_nonneg ops slot r : last_word slot ops = Some r -> 0 <= slot.
Proof.
  intros H. apply last_Some_elem_of in H. apply list_elem_of_omap in H as (op & _ & H).
  destruct op; try done. cbn in H. destruct (Z.eqb_spec slot0 slot) as [->|]; [|done].
  destruct (Z.ltb_spec slot 0); [done|lia].
Qed.

Lemma no_words ops : existsb is_word_op ops = false -> ops ≫= words_of = [].
Proof. induction ops as [|op ops IH]; [done|]. cbn. intros [Ho H]%orb_false_iff. rewrite IH by done. by destruct op. Qed.

Lemma input_after_app start ops1 ops2 : input_after (input_after start ops1) ops2 = input_after start (ops1 ++ ops2).
Proof.
  unfold input_after. rewrite existsb_app, bind_app.
  destruct (existsb is_word_op ops1) eqn:E1, (existsb is_word_op ops2) eqn:E2; cbn; rewrite ?app_assoc; try done.
  - by rewrite (no_words ops2 E2), app_nil_r.
  - by rewrite (no_words ops1 E1), app_nil_r.
Qed.

Lemma foldl_input c ops : existsb is_line_op ops = false -> input (foldl step c ops) = input_after (input c) ops.
Proof.
  revert c. induction ops as [|op ops IH]; intros c; [done|]. cbn [existsb foldl]. intros [Ho H]%orb_false_iff.
  rewrite IH, step_input by done. replace (op :: ops) with ([op] ++ ops) by done.
  rewrite <- input_after_app. by destruct op.
Qed.

Lemma build_enabled ops : enabled (elevation (build ops)) = existsb is_elevation_op ops.
Proof.
  unfold build. induction ops as [|op ops IH] using rev_ind; [done|].
  rewrite foldl_app, existsb_app. cbn. by rewrite step_enabled, IH, orb_false_r.
Qed.

(** * Properties *)

(** The word cosca supplies to a Windows spawn is a 32-bit word in which every bit has one source:
    the bits cosca manages are set exactly by the intents and the containment asked for, every other
    bit is the caller's, and no console bit is set that nobody asked for; the marker is the root's
    alone; the mechanism read off the word is the one the request implies. A request is refused
    exactly when its raw word holds a managed bit, or it asks to leave the job it is to be
    contained in. *)
Theorem windows_spawn_word contain flags is_root backend :
  0 <= raw flags < 2 ^ 32 ->
  match windows_spawn contain flags is_root backend with
  | Ok w =>
      0 <= spawn_flags w < 2 ^ 32 /\
      (forall i, Z.testbit (spawn_flags w) i = word_bit contain flags is_root backend i) /\
      spawn_marker w = has_mode contain && is_root && bool_decide (nesting contain = Mark) /\
      mechanism_from_flags (spawn_flags w) =
        (if has_mode contain then if no_window flags || detached flags then OtherConsoleGroup else ConsoleGroup
         else MNone) /\
      Forall (fun k => Z.testbit (raw flags) k = false) reserved_numbers /\
      breakaway_from_job flags && has_mode contain = false
  | Err e =>
      e = EUnsupported /\
      (Exists (fun k => Z.testbit (raw flags) k = true) reserved_numbers \/
       breakaway_from_job flags && has_mode contain = true)
  end.
Proof.
  intros Hraw. destruct (windows_spawn contain flags is_root backend) as [w|e] eqn:E.
  - pose proof (fun i => compose_bits _ _ _ _ _ i E) as Hb.
    assert (forall i, 32 <= i -> Z.testbit (spawn_flags w) i = false) as Hhi.
    { intros i Hi. rewrite Hb, word_high by done. apply (proj1 (Z.bounded_iff_bits_nonneg 32 (raw flags) ltac:(lia) ltac:(lia))); lia. }
    assert (0 <= spawn_flags w) as Hnn by (apply Z.bits_iff_nonneg_ex; exists 32; intros i Hi; apply Hhi; lia).
    split; [split; [done|by apply (Z.bounded_iff_bits_nonneg 32)]|]. split; [done|].
    split; [by apply (windows_spawn_parts _ _ _ _ _ E)|]. split.
    { rewrite mechanism_bits, !Hb. cbn. destruct (has_mode contain); [|done].
      by destruct (no_window flags), (detached flags). }
    apply (windows_spawn_parts _ _ _ _ _ E).
  - revert E. unfold windows_spawn. case_bool_decide as Hr.
    + intros [= <-]. split; [done|]. left. rewrite reserved_bits_spec in Hr.
      apply not_Forall_Exists in Hr; [|intros k; apply _]. eapply Exists_impl; [exact Hr|]. intros k. cbn.
      by destruct (Z.testbit (raw flags) k).
    + rewrite has_mode_decide. destruct (breakaway_from_job flags && _) eqn:Eb; [|done].
      intros [= <-]. split; [done|]. by right.
Qed.

(** A command is what its calls say, whatever their order and whichever of them failed: the
    environment operations are those of the calls in order; a slot holds the last target it was
    given that can be resolved, and no negative slot holds any; the input is the words given since
    the last raw line, or that line when none was; a command asks for elevation exactly when a call
    did; and nothing cosca keeps to itself is set. *)
Theorem build_spec ops :
  let c := build ops in
  env_ops c = ops ≫= env_of /\
  (forall slot, fds c !! slot = last_word slot ops) /\
  (forall slot r, fds c !! slot = Some r -> 0 <= slot) /\
  (existsb is_line_op ops = false -> input c = input_after Empty ops) /\
  (forall pre l post, ops = pre ++ OCommandline l :: post -> existsb is_line_op post = false ->
     input c = input_after (CommandLine l) post) /\
  enabled (elevation c) = existsb is_elevation_op ops /\
  internal c = (false, None, [], false).
Proof.
  split; [apply build_env|]. split; [apply build_fds|]. split.
  { intros slot r. rewrite build_fds. apply last_word_nonneg. }
  split; [intros H; by apply (foldl_input Command_default)|]. split; [|split; [apply build_enabled|]].
  - intros pre l post -> Hp. unfold build. rewrite foldl_app. cbn [foldl].
    rewrite foldl_input by done. by rewrite step_input.
  - unfold build. induction ops as [|op ops IH] using rev_ind; [done|]. by rewrite foldl_app; cbn; rewrite step_internal.
Qed.

Definition demo_flags : FlagsRequest := flags_request true false false false 0x4000.

Lemma windows_spawn_word_witness :
  0 <= raw demo_flags < 2 ^ 32 /\
  match windows_spawn ContainRequest_default demo_flags true Std with
  | Ok w => 0 <= spawn_flags w < 2 ^ 32 /\ spawn_flags w = 0x08004000
  | Err _ => False
  end.
Proof.
  split; [done|]. pose proof (windows_spawn_word ContainRequest_default demo_flags true Std ltac:(done)) as H.
  destruct (windows_spawn ContainRequest_default demo_flags true Std) as [w|e] eqn:E; [|by vm_compute in E].
  split; [apply H|]. vm_compute in E. by injection E as <-.
Defined.
