(* ===== verification/ElevationMacos.v ===== *)
(** macOS graphical elevation, [src/elevation/macos.rs], over a [Command]: the shell text, the
    AppleScript that carries it, the matrix of what Authorization Services cannot do, and the
    command that runs [osascript]. Messages are left out; [debug_assert]s are the preconditions of
    the theorems. *)
From S2P Require Import Prelude Errors QuotePosix Utf Numbers AppleScript PathComponent IoErrors ShimProtocol Identity CrateError Sanitize ElevationPlan Command.
From stdpp Require Import gmap.
Local Open Scope Z_scope.

(** The unix [os_bytes] is the identity. *)
Definition is_posix_absolute (s : bytes) : bool := bool_decide (head s = Some 47).

Definition build_shell_command (program : bytes) (args : list bytes) (cwd : option bytes) : bytes :=
  let words := bs "exec" :: program :: args in
  match cwd with
  | Some dir => bs "cd -P -- " ++ QuotePosix.quote dir ++ bs " && "
  | None => []
  end ++ QuotePosix.join words.

Definition SCRIPT_HEAD : bytes := bs "do shell script " ++ [34].

Definition SCRIPT_TAIL : bytes := [34] ++ bs " with administrator privileges without altering line endings".

Definition wrap_do_shell_script (shell_command : bytes) (arg_max : option Z) : result Error bytes :=
  match escape_literal shell_command with
  | Err e => Err (Quote e)
  | Ok body =>
      let script := SCRIPT_HEAD ++ body ++ SCRIPT_TAIL in
      match arg_max with
      | Some max => if max <? Z.of_nat (length script) then Err (Elevation CommandTooLong) else Ok script
      | None => Ok script
      end
  end.

(** [None] is a panic: the argv has its first word. *)
Definition build_shim_script (shim_exe : bytes) (shim : ShimArgs) (cwd : option bytes) (arg_max : option Z)
  : option (result Error bytes) :=
  match to_argv_for shim shim_exe true with
  | exe :: rest => Some (wrap_do_shell_script (build_shell_command exe rest cwd) arg_max)
  | [] => None
  end.

(** * The launch, and what is refused *)

(** [Launch] of [elevation.rs]. *)
Record Launch := launch { l_program : bytes; l_args : list bytes; l_cwd : option bytes }.

(** [program_and_args]; [None] is a panic. *)
Definition program_and_args (cmd : Command) : option (result Error Launch) :=
  match elevation_argv cmd with
  | Err e => Some (Err e)
  | Ok (program :: args) => Some (Ok (launch program args (cwd cmd)))
  | Ok [] => None
  end.

(** A slot that cannot cross the trampoline. *)
Definition gui_slot_refused (slot : Z) (resolved : ResolvedStdio) : bool :=
  (3 <=? slot) || (slot =? STDIN) && negb (match resolved with Inherit | Null => true | _ => false end).

Definition reject_structural_gui_config (cmd : Command) : option (result Error unit) :=
  match elevation_argv cmd with
  | Err e => Some (Err e)
  | Ok argv =>
      if match cwd cmd with Some dir => negb (is_posix_absolute dir) | None => false end then Some (Err EUnsupported)
      else
        match argv with
        | [] => None
        | program :: _ => Some (
            if negb (is_posix_absolute program) then Err EUnsupported
            else if existsb (fun sr => gui_slot_refused sr.1 sr.2) (map_to_list (fds cmd)) then Err EUnsupported
            else if negb (bool_decide (env_ops cmd = [])) then Err EUnsupported
            else if bool_decide (mode (contain cmd) <> None) then Err EUnsupported
            else Ok tt)
        end
  end.

Record ElevationReport := report { via : ElevatedVia; stripped_env : list bytes; rep_stdio : ElevatedStdio }.

(** The derived command, the report, and the caller's command without its slots. *)
Definition build_rewrite (cmd : Command) (l : Launch) (osascript : bytes) (arg_max : option Z)
  : result Error (Command * ElevationReport * Command) :=
  let shell_command := build_shell_command (l_program l) (l_args l) (l_cwd l) in
  let? script := wrap_do_shell_script shell_command arg_max in
  let derived := set_input_argv Command_default [osascript; bs "-e"; script] in
  let derived := match l_cwd l with Some d => current_dir derived d | None => derived end in
  let derived := set_kill_on_drop derived (kill_on_drop cmd) in
  let derived := set_fds derived (fds cmd ∪ fds derived) in
  Ok (derived, report MacosOsascript [] OsascriptRelay, set_fds cmd ∅).

(** * Reading it back *)

(** The words a shell reads from the text of [build_shell_command]. *)
Definition shell_words (program : bytes) (args : list bytes) (cwd : option bytes) : list bytes :=
  match cwd with Some dir => [bs "cd"; bs "-P"; bs "--"; dir; bs "&&"] | None => [] end ++ bs "exec" :: program :: args.

(** * Lemmas *)

(** A word of no special character, up to a blank. *)
Lemma lex_plain w s ws :
  w <> [] -> forallb (fun c => negb (special c)) w = true -> lex_ws s ws -> lex_ws (w ++ 32 :: s) (w :: ws).
Proof.
  intros Hne Hw Hs.
  assert (forall v, forallb (fun c => negb (special c)) v = true -> lex_word (v ++ 32 :: s) v ws) as Hl.
  { intros v Hv. induction v as [|c v IH]; [by constructor|]. cbn in *. apply andb_true_iff in Hv as [Hc Hv].
    apply lx_plain; [by apply negb_true_iff|by apply IH]. }
  specialize (Hl w Hw). destruct w as [|c w]; [done|]. cbn in Hw. apply andb_true_iff in Hw as [Hc%negb_true_iff _].
  unfold special in Hc. rewrite !orb_false_iff, !Z.eqb_neq in Hc. constructor; [tauto| |done].
  intros (x & u & [-> | ->] & ?); simplify_eq/=; tauto.
Qed.

Lemma shell_command_lex program args cwd :
  lex_ws (build_shell_command program args cwd) (shell_words program args cwd).
Proof.
  unfold build_shell_command, shell_words. pose proof (proj1 (lex_join 0 (bs "exec" :: program :: args))) as Hj.
  fold (QuotePosix.join (bs "exec" :: program :: args)) in Hj. destruct cwd as [dir|]; [|done].
  replace ((bs "cd -P -- " ++ QuotePosix.quote dir ++ bs " && ") ++ QuotePosix.join (bs "exec" :: program :: args))
    with (bs "cd" ++ 32 :: bs "-P" ++ 32 :: bs "--" ++ 32 :: QuotePosix.quote dir ++
          32 :: bs "&&" ++ 32 :: QuotePosix.join (bs "exec" :: program :: args))
    by (change (bs "cd -P -- ") with (bs "cd" ++ 32 :: bs "-P" ++ 32 :: bs "--" ++ [32]);
        change (bs " && ") with (32 :: bs "&&" ++ [32]); by rewrite <- !app_assoc).
  cbn [app]. do 3 (apply lex_plain; [done|done|]). apply lex_quote.
  apply lx_blank; [done|]. by apply lex_plain.
Qed.

(** A wrapped command is the body of one AppleScript string, and reads back as the command. *)
Lemma wrap_reads shell_command arg_max script :
  wrap_do_shell_script shell_command arg_max = Ok script ->
  exists body, script = SCRIPT_HEAD ++ body ++ SCRIPT_TAIL /\ unescape body = Some shell_command /\
    forall max, arg_max = Some max -> Z.of_nat (length script) <= max.
Proof.
  unfold wrap_do_shell_script, escape_literal. destruct (from_utf8 shell_command) as [cs|] eqn:E; [|done].
  apply from_utf8_Ok in E as [Hcs ->]. destruct (escape_chars cs 0 []) as [body|] eqn:Ee; [|done].
  apply escape_chars_Ok in Ee as (b & -> & Hb); [|done]. intros H. exists ([] ++ b).
  assert (script = SCRIPT_HEAD ++ ([] ++ b) ++ SCRIPT_TAIL /\ forall max, arg_max = Some max -> Z.of_nat (length script) <= max)
    as [-> Hm]; [|done].
  destruct arg_max as [max|]; [|by simplify_eq]. destruct (Z.ltb_spec max (Z.of_nat (length (SCRIPT_HEAD ++ ([] ++ b) ++ SCRIPT_TAIL))));
    simplify_eq. split; [done|]. by intros m [= ->].
Qed.

Lemma elevation_argv_Ok cmd argv :
  elevation_argv cmd = Ok argv -> executable cmd = None /\ input cmd = Argv argv /\ argv <> [].
Proof. unfold elevation_argv. destruct (executable cmd); [done|]. by destruct (input cmd) as [|[|a v]|]; intros; simplify_eq. Qed.

Lemma is_posix_absolute_true s : is_posix_absolute s = true <-> exists r, s = 47 :: r.
Proof.
  unfold is_posix_absolute. rewrite bool_decide_eq_true. destruct s as [|c s]; cbn; split; intros H; try done.
  - by destruct H.
  - injection H as ->. eauto.
  - destruct H as [r [= -> ->]]. done.
Qed.

Lemma slots_refused (m : gmap Z ResolvedStdio) :
  existsb (fun sr => gui_slot_refused sr.1 sr.2) (map_to_list m) = false ->
  forall slot r, m !! slot = Some r -> slot < 3 /\ (slot = STDIN -> r = Inherit \/ r = Null).
Proof.
  intros H slot r Hl. apply elem_of_map_to_list, list_elem_of_In in Hl.
  assert (gui_slot_refused slot r = false) as Hf.
  { apply not_true_iff_false. intros Ht. assert (existsb (fun sr => gui_slot_refused sr.1 sr.2) (map_to_list m) = true); [|congruence].
    apply existsb_exists. by exists (slot, r). }
  unfold gui_slot_refused in Hf. apply orb_false_iff in Hf as [Hs Hr]. rewrite Z.leb_gt in Hs. split; [done|].
  intros ->. destruct r; naive_solver.
Qed.

(** What the matrix lets through. *)
Definition gui_carriable (cmd : Command) : Prop :=
  exists program rest, input cmd = Argv ((47 :: program) :: rest) /\ executable cmd = None /\
    (forall dir, cwd cmd = Some dir -> exists d, dir = 47 :: d) /\
    (forall slot r, fds cmd !! slot = Some r -> slot < 3 /\ (slot = STDIN -> r = Inherit \/ r = Null)) /\
    env_ops cmd = [] /\ mode (contain cmd) = None.

Lemma reject_gui_Ok cmd : reject_structural_gui_config cmd = Some (Ok tt) -> gui_carriable cmd.
Proof.
  unfold reject_structural_gui_config. destruct (elevation_argv cmd) as [argv|] eqn:Ea; [|done].
  apply elevation_argv_Ok in Ea as (He & Hi & Hne).
  destruct (match cwd cmd with Some dir => negb (is_posix_absolute dir) | None => false end) eqn:Ec; [done|].
  destruct argv as [|program rest]; [done|]. destruct (is_posix_absolute program) eqn:Ep; cbn; [|done].
  destruct (existsb _ _) eqn:Ef; [done|]. case_bool_decide as Hv; cbn; [|done]. case_bool_decide as Hm; [done|]. intros _.
  apply is_posix_absolute_true in Ep as [r ->]. exists r, rest. split; [done|]. split; [done|]. split.
  { intros dir Hd. rewrite Hd in Ec. by apply negb_false_iff, is_posix_absolute_true in Ec. }
  split; [by apply slots_refused|]. split; [done|]. by destruct (mode (contain cmd)).
Qed.

(** The matrix and the launch never panic. *)
Lemma reject_gui_total cmd : reject_structural_gui_config cmd <> None /\ program_and_args cmd <> None.
Proof.
  unfold reject_structural_gui_config, program_and_args. destruct (elevation_argv cmd) as [argv|] eqn:Ea; [|done].
  apply elevation_argv_Ok in Ea as (_ & _ & Hne). destruct argv as [|a v]; [done|].
  split; [|done]. by destruct (match cwd cmd with Some dir => _ | None => _ end).
Qed.

(** * Properties *)

(** What osascript is given runs exactly what was asked for: on a request the matrix lets through,
    its one script is one string literal that reads back, through AppleScript and then the shell's
    word grammar, as [exec] of the caller's absolute program with the caller's arguments, in the
    caller's absolute directory, within the system's limit; no environment, no containment and no
    slot past 2 is dropped silently, the slots and the drop policy are the caller's. *)
Theorem gui_rewrite_sound cmd l osascript arg_max derived rep cmd' :
  reject_structural_gui_config cmd = Some (Ok tt) -> program_and_args cmd = Some (Ok l) ->
  build_rewrite cmd l osascript arg_max = Ok (derived, rep, cmd') ->
  exists body shell_command,
    input derived = Argv [osascript; bs "-e"; SCRIPT_HEAD ++ body ++ SCRIPT_TAIL] /\
    unescape body = Some shell_command /\
    QuotePosix.split shell_command = Ok (shell_words (l_program l) (l_args l) (cwd cmd)) /\
    input cmd = Argv (l_program l :: l_args l) /\ gui_carriable cmd /\
    (forall max, arg_max = Some max -> Z.of_nat (length (SCRIPT_HEAD ++ body ++ SCRIPT_TAIL)) <= max) /\
    cwd derived = cwd cmd /\ fds derived = fds cmd /\ kill_on_drop derived = kill_on_drop cmd /\
    executable derived = None /\ env_ops derived = [] /\ rep = report MacosOsascript [] OsascriptRelay /\
    cmd' = set_fds cmd ∅.
Proof.
  intros Hg%reject_gui_Ok Hl Hb. unfold program_and_args in Hl. destruct (elevation_argv cmd) as [argv|] eqn:Ea; [|done].
  apply elevation_argv_Ok in Ea as (_ & Hi & _). destruct argv as [|program rest]; [done|]. injection Hl as <-.
  unfold build_rewrite in Hb. cbn [l_program l_args l_cwd] in Hb.
  destruct (wrap_do_shell_script _ arg_max) as [script|] eqn:Ew; [|done]. injection Hb as <- <- <-.
  apply wrap_reads in Ew as (body & -> & Hu & Hm). exists body, (build_shell_command program rest (cwd cmd)).
  split; [by destruct (cwd cmd)|]. split; [done|]. split.
  { exact (proj1 lex_complete _ _ (shell_command_lex program rest (cwd cmd)) 0%nat [] 0%nat). }
  split; [done|]. split; [done|]. split; [done|].
  destruct (cwd cmd); cbn; rewrite (right_id_L ∅ (∪)); done.
Qed.

Definition demo_gui : Command := current_dir (Command.args Command_default [bs "/bin/ls"; bs "it's"]) (bs "/tmp/a b").

Lemma gui_rewrite_sound_witness :
  match build_rewrite demo_gui (launch (bs "/bin/ls") [bs "it's"] (Some (bs "/tmp/a b"))) (bs "/usr/bin/osascript") (Some 500) with
  | Ok (derived, _, _) =>
      exists body shell_command,
        input derived = Argv [bs "/usr/bin/osascript"; bs "-e"; SCRIPT_HEAD ++ body ++ SCRIPT_TAIL] /\
        unescape body = Some shell_command /\
        QuotePosix.split shell_command =
          Ok [bs "cd"; bs "-P"; bs "--"; bs "/tmp/a b"; bs "&&"; bs "exec"; bs "/bin/ls"; bs "it's"]
  | Err _ => False
  end.
Proof.
  pose proof (gui_rewrite_sound demo_gui (launch (bs "/bin/ls") [bs "it's"] (Some (bs "/tmp/a b")))
    (bs "/usr/bin/osascript") (Some 500)) as H.
  destruct (build_rewrite demo_gui _ _ _) as [[[d r] c]|e] eqn:E; [|by vm_compute in E].
  destruct (H d r c ltac:(by vm_compute) ltac:(by vm_compute) eq_refl) as (body & sc & ? & ? & ? & _). eauto.
Defined.
