(* ===== verification/ElevationPosix.v ===== *)
(** POSIX elevation, [src/elevation/posix.rs]: finding the fronts, building their command lines, the
    password that sudo reads, and the rewrite of a [Command] into the one that is spawned. What the
    system answers (whether a file can be executed, the descriptors, the probe of pkexec) is an
    argument; messages are left out; [None] is a panic ([unreachable!], an index). *)
From S2P Require Import Prelude Errors QuotePosix Utf Numbers PathComponent AppleScript IoErrors ShimProtocol Identity CrateError Sanitize ElevationPlan Command ElevationMacos.
From stdpp Require Import gmap sorting.
Local Open Scope Z_scope.

(** * The environment *)

Definition is_ascii_alphabetic (c : Z) : bool := within 65 90 c || within 97 122 c.

Definition is_ascii_alphanumeric (c : Z) : bool := is_ascii_alphabetic c || is_ascii_digit c.

Definition valid_env_name (k : bytes) : bool :=
  match k with
  | c :: _ => ((c =? 95) || is_ascii_alphabetic c) && forallb (fun c => (c =? 95) || is_ascii_alphanumeric c) k
  | [] => false
  end.

Definition PRESERVE_ENV : bytes := bs "--preserve-env=".

(** The loop of [preserve_env_flag] from element [i] on. *)
Fixpoint preserve_loop (env : list (bytes * bytes)) (i : nat) (flag : bytes) : result Error bytes :=
  match env with
  | [] => Ok flag
  | (k, _) :: rest =>
      if valid_env_name k then
        preserve_loop rest (S i) ((if (0 <? i)%nat then flag ++ [44] else flag) ++ k)
      else Err EUnsupported
  end.

Definition preserve_env_flag (env : list (bytes * bytes)) : result Error bytes := preserve_loop env 0 PRESERVE_ENV.

(** [BTreeMap::insert]. *)
Fixpoint btree_insert (k v : bytes) (m : list (bytes * bytes)) : list (bytes * bytes) :=
  match m with
  | [] => [(k, v)]
  | (k', v') :: rest =>
      match lex_compare Z.compare k k' with
      | Lt => (k, v) :: m
      | Eq => (k', v) :: rest
      | Gt => (k', v') :: btree_insert k v rest
      end
  end.

Definition explicit_set_env (ops : list EnvOp) : list (bytes * bytes) :=
  foldl (fun m op => match op with EnvSet k v => btree_insert k v m | _ => m end) [] ops.

(** * The command line *)

Definition program_starts_with_dash (program : bytes) : bool := bool_decide (head program = Some 45).

Definition build_argv (backend : Backend) (backend_path : bytes) (auth : Auth) (program : bytes) (args : list bytes)
    (env : list (bytes * bytes)) : option (result Error (list bytes)) :=
  let finish (options : list bytes) :=
    Ok ([backend_path] ++ options ++ (if bool_decide (backend <> Pkexec) then [bs "--"] else []) ++ [program] ++ args) in
  match backend with
  | Sudo =>
      let options :=
        match auth with
        | NonInteractive => [bs "-n"]
        | Stdin _ => [bs "-S"]
        | Askpass _ => [bs "-A"]
        | Interactive | Gui => []
        end in
      Some (
        if bool_decide (env <> []) then let? flag := preserve_env_flag env in finish (options ++ [flag])
        else finish options)
  | Doas => Some (finish (match auth with NonInteractive => [bs "-n"] | _ => [] end))
  | Pkexec => Some (finish [bs "--disable-internal-agent"; bs "--keep-cwd"])
  | Auto => None
  end.

Definition POLKIT_SHORT_LINE : nat := 80.

Definition POLKIT_HEAD_CUT : nat := 38.

(** [str::is_char_boundary] of text of these bytes. *)
Definition is_char_boundary (s : bytes) (i : nat) : bool :=
  match s !! i with
  | Some b => bool_decide (i = 0%nat) || (b <? 128) || (192 <=? b)
  | None => bool_decide (i = length s)
  end.

(** [refuse_polkit_exe]; [None] is the underflow of an empty argv. *)
Definition refuse_polkit_exe (shim_exe : bytes) (argv : list bytes) : option (result Error unit) :=
  match from_utf8 shim_exe with
  | Err _ => Some (Err EUnsupported)
  | Ok _ =>
      let len := (sum_list (length <$> argv) + length argv)%nat in
      if (len =? 0)%nat then None
      else Some (
        if (POLKIT_SHORT_LINE <? len - 1)%nat &&
           negb (is_char_boundary shim_exe (Nat.min POLKIT_HEAD_CUT (length shim_exe)))
        then Err EUnsupported else Ok tt)
  end.

Definition printable (a : bytes) : bool := forallb (within 0x20 0x7e) a.

Definition build_shim_argv (backend : Backend) (backend_path : bytes) (auth : Auth) (shim_exe : bytes)
    (shim : ShimArgs) (env : list (bytes * bytes)) : option (result Error (list bytes)) :=
  let argv := to_argv_for shim shim_exe false in
  let argv :=
    if bool_decide (backend = Pkexec) && negb (forallb printable (drop 1 argv)) then to_argv_for shim shim_exe true
    else argv in
  let build :=
    match argv with
    | exe :: rest => build_argv backend backend_path auth exe rest env
    | [] => None
    end in
  if bool_decide (backend = Pkexec) then
    match refuse_polkit_exe shim_exe argv with
    | None => None
    | Some (Err e) => Some (Err e)
    | Some (Ok _) => build
    end
  else build.

(** * Detection *)

(** [Path::join] of a relative name. *)
Definition std_join (dir name : bytes) : bytes :=
  match last dir with Some c => if c =? 47 then dir ++ name else dir ++ [47] ++ name | None => name end.

Section Detect.
  (** [Path::is_file], and [faccessat(X_OK, AT_EACCESS)]. *)
  Variable is_file x_ok : bytes -> bool.

Definition is_executable (path : bytes) : bool :=
  if existsb (fun b => b =? 0) path then false else is_file path && x_ok path.

Definition resolve_in_path_var (path_var program : bytes) : option bytes :=
  find_map (fun dir =>
    if negb (bool_decide (head dir = Some 47)) then None
    else let cand := std_join dir program in if is_executable cand then Some cand else None)
    (split_on (fun b => b =? 58) path_var).

(** [pin], with what the open, the metadata and the move answer: whether the open file is a regular
    one, and the descriptor at 3 or above. *)
Definition pin (open : result IoError (result IoError bool)) (above : result IoError Z) : result IoError Z :=
  match open with
  | Err e => Err e
  | Ok (Err e) => Err e
  | Ok (Ok false) => Err (io_new InvalidInput)
  | Ok (Ok true) => above
  end.

(** [run_version_probe]: how the probe ended, and its stdout. *)
Definition run_version_probe (out : result IoError (bool * bytes)) : PkexecVersion :=
  match out with
  | Err _ => SpawnFailed
  | Ok (false, _) => Failed
  | Ok (true, stdout) => parse stdout
  end.

(** The path cosca execs for a descriptor. *)
Definition pinned_exec_path (pinned : Z) : bytes := bs "/proc/self/fd/" ++ show pinned.

Definition pkexec_on (path_var : bytes) (canonicalize : bytes -> result IoError bytes)
  : option (result IoError bytes) :=
  canonicalize <$> resolve_in_path_var path_var (bs "pkexec").

(** [detect_with]: [open] and [above] are what [pin] reads of a file, [run] what running the pinned
    file under that name gives, and the last three what the session, the system's [osascript] and
    [kern.argmax] answer. *)
Definition detect_with (path_var : option bytes) (os : Os) (elevated : bool) (backend : Backend) (auth : Auth)
    (canonicalize : bytes -> result IoError bytes) (open : bytes -> result IoError (result IoError bool))
    (above : result IoError Z) (run : bytes -> Z -> result IoError (bool * bytes))
    (controlling_terminal_present : bool) (kern_argmax : option Z) : Host :=
  let on_path program := path_var ≫= fun p => resolve_in_path_var p program in
  let '(pkexec, pkexec_pin, pkexec_version) :=
    if negb (launches_pkexec os backend auth elevated) then (on_path (bs "pkexec"), None, NotProbed)
    else
      match path_var ≫= fun p => pkexec_on p canonicalize with
      | None => (None, None, NotProbed)
      | Some (Err _) => (None, None, Unresolved)
      | Some (Ok real) =>
          match pin (open real) above with
          | Ok pinned => (Some real, Some pinned, run_version_probe (run real pinned))
          | Err _ => (None, None, Unresolved)
          end
      end in
  let osascript := bs "/usr/bin/osascript" in
  host elevated controlling_terminal_present
    (backend_set (on_path (bs "sudo")) (on_path (bs "doas")) pkexec
       (if bool_decide (os = MacOs) && is_executable osascript then Some osascript else None))
    os (if bool_decide (os = MacOs) then kern_argmax else None) pkexec_version pkexec_pin.

End Detect.

(** * The password *)

Definition password_line (secret : bytes) : bytes := secret ++ [10].

(** What one [poll] of the channel shows; [None] is neither. *)
Inductive Polled := PFail (e : IoError) | PEvents (hung_up writable : bool).

(** [wait_writable] over the polls to come; [None] when they run out. *)
Fixpoint wait_writable (polls : list Polled) : option (result IoError bool * list Polled) :=
  match polls with
  | [] => None
  | PFail e :: rest => Some (Err e, rest)
  | PEvents hung_up writable :: rest =>
      if hung_up then Some (Ok false, rest) else if writable then Some (Ok true, rest) else wait_writable rest
  end.

(** What one [write] answers: how many bytes it took, or its error. *)
Definition WriteAnswer : Type := result IoError nat.

(** The loop of [write_password_bytes], over the answers to come; [None] when they run out. The result
    comes with the number of bytes written. *)
Fixpoint write_password_loop (len : nat) (writes : list WriteAnswer) (polls : list Polled) (written : nat)
  : option (result Error unit * nat) :=
  if (len <=? written)%nat then Some (Ok tt, written)
  else
    match writes with
    | [] => None
    | Ok O :: _ => Some (if (written =? 0)%nat then Ok tt else Err (Elevation AuthFailed), written)
    | Ok n :: rest => write_password_loop len rest polls (written + n)
    | Err e :: rest =>
        if bool_decide (kind e = Interrupted) then write_password_loop len rest polls written
        else if bool_decide (kind e = WouldBlock) then
          if (written =? 0)%nat then Some (Ok tt, written)
          else
            match wait_writable polls with
            | None => None
            | Some (Ok true, polls) => write_password_loop len rest polls written
            | Some (Ok false, _) => Some (Err (Elevation AuthFailed), written)
            | Some (Err _, _) => Some (Err (Elevation AuthFailed), written)
            end
        else if bool_decide (kind e = BrokenPipe) then
          Some (if (written =? 0)%nat then Ok tt else Err (Elevation AuthFailed), written)
        else Some (Err (Elevation AuthFailed), written)
    end.

(** [write_after_spawn]; setting the channel non-blocking and zeroing the buffer leave no trace here. *)
Definition write_after_spawn (secret : bytes) (writes : list WriteAnswer) (polls : list Polled)
  : option (result Error unit * nat) :=
  write_password_loop (length (password_line secret)) writes polls 0.

(** * The rewrite *)

Definition is_set (o : EnvOp) : bool := match o with EnvSet _ _ => true | _ => false end.

Definition reject_structural_posix_config (cmd : Command) (backend : Backend) (auth : Auth)
  : option (result Error unit) :=
  match elevation_argv cmd with
  | Err e => Some (Err e)
  | Ok [] => None
  | Ok (program :: _) => Some (
      if bool_decide (backend = Pkexec) && program_starts_with_dash program then Err EUnsupported
      else if existsb (fun sr => 3 <=? sr.1) (map_to_list (fds cmd)) then Err EUnsupported
      else if existsb (fun o => negb (is_set o)) (env_ops cmd) then Err EUnsupported
      else if existsb is_set (env_ops cmd) && (bool_decide (backend = Doas) || bool_decide (backend = Pkexec))
      then Err EUnsupported
      else if is_stdin auth && bool_decide (is_Some (fds cmd !! STDIN)) then Err EUnsupported
      else Ok tt)
  end.

Definition transfer_process_attrs (derived cmd : Command) (cwd : option bytes) : Command :=
  let derived := match cwd with Some d => current_dir derived d | None => derived end in
  let derived := set_contain derived (contain cmd) in
  set_kill_on_drop derived (kill_on_drop cmd).

Definition reject_structural (cmd : Command) (os : Os) : option (result Error unit) :=
  let request := elevation cmd in
  if is_macos_gui_auto os (backend request) (auth request) then reject_structural_gui_config cmd
  else reject_structural_posix_config cmd (backend request) (auth request).

(** [password_write] holds the secret that [PendingPassword] will write. *)
Record PosixRewrite := posix_rewrite {
  derived : Command; rw_report : option ElevationReport; password_write : option bytes; backend_path : option bytes }.

Definition set_ops (env : list (bytes * bytes)) : list EnvOp := (fun kv => EnvSet kv.1 kv.2) <$> env.

(** The arm of [RunAsIs]. *)
Definition run_as_is (cmd : Command) : result Error (PosixRewrite * Command) :=
  let '(kept, stripped) := apply_policy (sanitizer (elevation cmd)) (explicit_set_env (env_ops cmd)) in
  let? argv := elevation_argv cmd in
  let d := set_env_ops (set_input_argv Command_default argv) (set_ops kept) in
  let d := transfer_process_attrs d cmd (cwd cmd) in
  let d := set_fds d (fds cmd ∪ fds d) in
  Ok (posix_rewrite d (Some (report AlreadyElevated stripped Passthrough)) None None, set_fds cmd ∅).

(** The pinned pkexec of a launch. *)
Definition pinned_of (host : Host) (b : Backend) : result Error (option Z) :=
  match b, pkexec_pin host with
  | Pkexec, Some p => Ok (Some p)
  | Pkexec, None => Err (Elevation BackendUnavailable)
  | _, _ => Ok None
  end.

(** The arm of [ElevatePosix], up to the password's channel. *)
Definition wrapper_command (cmd : Command) (kept : list (bytes * bytes)) (auth : Auth) (argv : list bytes)
    (pinned : option Z) : Command :=
  let new_ops := set_ops kept ++ match auth with Askpass p => [EnvSet (bs "SUDO_ASKPASS") p] | _ => [] end in
  let d := set_input_argv Command_default argv in
  let d := match pinned with
           | Some pin => hold (set_executable_spec d (Some (Exact (pinned_exec_path pin)))) pin
           | None => d
           end in
  let d := set_env_ops d new_ops in
  suppress_fd_marker (transfer_process_attrs d cmd (cwd cmd)).

(** The password's pipe on the derived stdin; [pipe] is what opening one answers. *)
Definition wire_password (d : Command) (auth : Auth) (pipe : result IoError Z) : result Error (Command * option bytes) :=
  match auth with
  | Stdin secret =>
      match pipe with
      | Err e => Err (Io e)
      | Ok reader => let? d := stdin d (SFile reader) in Ok (d, Some secret)
      end
  | _ => Ok (d, None)
  end.

(** The caller's slots on the derived command, and the answer. *)
Definition finish_posix (cmd : Command) (b : Backend) (auth : Auth) (stripped : list bytes) (launched : bytes)
    (d : Command) (password : option bytes) : PosixRewrite * Command :=
  let moved := match password with Some _ => delete STDIN (fds cmd) | None => fds cmd end in
  let d := set_fds d (moved ∪ fds d) in
  let stdio := if is_stdin auth then StdinConsumed else Passthrough in
  let via := Wrapped b in
  let d := set_elevation_front d (front (Some via)) in
  (posix_rewrite d (Some (report via stripped stdio)) password (Some launched), set_fds cmd ∅).

(** The arm of [ElevatePosix]. *)
Definition elevate_posix (cmd : Command) (host : Host) (pipe : result IoError Z) (b : Backend) (path : bytes) (auth : Auth)
  : option (result Error (PosixRewrite * Command)) :=
  let '(kept, stripped) := apply_policy (sanitizer (elevation cmd)) (explicit_set_env (env_ops cmd)) in
  if bool_decide (kept <> []) && (bool_decide (b = Doas) || bool_decide (b = Pkexec)) then Some (Err EUnsupported)
  else
    match (if bool_decide (b = Pkexec) then refusal (pkexec_version host) else None) with
    | Some refusal => Some (Err refusal)
    | None =>
        match pinned_of host b with
        | Err e => Some (Err e)
        | Ok pinned =>
            match program_and_args cmd with
            | None => None
            | Some (Err e) => Some (Err e)
            | Some (Ok l) =>
                match build_argv b path auth (l_program l) (l_args l) kept with
                | None => None
                | Some (Err e) => Some (Err e)
                | Some (Ok argv) => Some (
                    let launched := match pinned with Some pin => pinned_exec_path pin | None => path end in
                    let? dp := wire_password (wrapper_command cmd kept auth argv pinned) auth pipe in
                    let '(d, password) := dp in
                    Ok (finish_posix cmd b auth stripped launched d password))
                end
            end
        end
    end.

(** The rewrite, and the caller's command as it leaves it. *)
Definition rewrite_with_host (cmd : Command) (host : Host) (pipe : result IoError Z)
  : option (result Error (PosixRewrite * Command)) :=
  match reject_structural cmd (os host) with
  | None => None
  | Some (Err e) => Some (Err e)
  | Some (Ok _) =>
      match plan host Elevated (backend (elevation cmd)) (auth (elevation cmd)) with
      | Reject error => Some (Err error)
      | ElevateWindows _ => None
      | ElevateMacosGui osascript arg_max =>
          match program_and_args cmd with
          | None => None
          | Some (Err e) => Some (Err e)
          | Some (Ok l) => Some (
              let? r := build_rewrite cmd l osascript arg_max in
              let '(d, rep, cmd') := r in
              Ok (posix_rewrite (set_elevation_front d (front (Some (via rep)))) (Some rep) None (Some osascript), cmd'))
          end
      | RunAsIs => Some (run_as_is cmd)
      | ElevatePosix b path auth => elevate_posix cmd host pipe b path auth
      end
  end.

(** * Lemmas: the environment *)

Definition key_lt (x y : bytes * bytes) : Prop := lex_compare Z.compare x.1 y.1 = Lt.

Lemma key_lt_irrefl x y : key_lt x y -> x.1 <> y.1.
Proof.
  intros H E. unfold key_lt in H. rewrite E in H.
  by rewrite (proj2 (compare_eq _ (total_lex _ total_Z) _ _) eq_refl) in H.
Qed.

Lemma btree_insert_elem k v m kv :
  StronglySorted key_lt m ->
  kv ∈ btree_insert k v m <-> kv = (k, v) \/ kv.1 <> k /\ kv ∈ m.
Proof.
  pose proof (total_lex _ total_Z) as [He Ha Ht].
  induction 1 as [|[k' v'] m Hs IH Hm]; cbn.
  { rewrite list_elem_of_singleton. split; [by left|]. intros [?|[_ H]]; [done|by apply not_elem_of_nil in H]. }
  destruct (lex_compare Z.compare k k') eqn:E; rewrite !elem_of_cons.
  - apply He in E as ->. rewrite Forall_forall in Hm. split.
    + intros [->|Hin]; [by left|]. right. split; [|by right]. pose proof (key_lt_irrefl _ _ (Hm _ Hin)). by cbn in *.
    + intros [->|[Hne [->|Hin]]]; [by left|done|by right].
  - split; [|intros [->|[_ ?]]; [by left|by right]]. intros [->|Hin]; [by left|]. right. split; [|done].
    destruct Hin as [->|Hin]; cbn.
    + intros ->. by rewrite (proj2 (He _ _) eq_refl) in E.
    + rewrite Forall_forall in Hm. specialize (Hm _ Hin). unfold key_lt in Hm. cbn in Hm. intros <-.
      pose proof (Ht _ _ _ E Hm) as Hf. by rewrite (proj2 (He _ _) eq_refl) in Hf.
  - rewrite IH. assert (k' <> k) as Hne by (intros ->; by rewrite (proj2 (He _ _) eq_refl) in E).
    split; [intros [->|[->|[? ?]]]; auto|]. intros [->|[? [->|?]]]; auto.
Qed.

Lemma btree_insert_sorted k v m : StronglySorted key_lt m -> StronglySorted key_lt (btree_insert k v m).
Proof.
  pose proof (total_lex _ total_Z) as [He Ha Ht].
  induction 1 as [|[k' v'] m Hs IH Hm]; cbn; [repeat constructor|].
  destruct (lex_compare Z.compare k k') eqn:E.
  - apply He in E as ->. by constructor.
  - constructor; [by constructor|]. constructor; [done|]. eapply Forall_impl; [exact Hm|].
    intros kv Hkv. exact (Ht _ _ _ E Hkv).
  - constructor; [done|]. apply Forall_forall. intros kv [->|[_ Hin]]%btree_insert_elem; [|by rewrite Forall_forall in Hm; apply Hm|done].
    unfold key_lt. cbn. rewrite Ha, E. done.
Qed.

(** What an operation sets a name to. *)
Definition sets (k : bytes) (op : EnvOp) : option bytes :=
  match op with EnvSet k' v => if bool_decide (k' = k) then Some v else None | _ => None end.

Lemma explicit_set_env_spec ops :
  StronglySorted key_lt (explicit_set_env ops) /\
  forall k v, (k, v) ∈ explicit_set_env ops <-> last (omap (sets k) ops) = Some v.
Proof.
  unfold explicit_set_env. induction ops as [|op ops [Hs IH]] using rev_ind.
  { split; [constructor|]. intros k v. cbn. split; [by intros ?%not_elem_of_nil|done]. }
  rewrite foldl_app. cbn [foldl]. split; [destruct op; by try apply btree_insert_sorted|].
  intros k v. rewrite omap_app. destruct op as [k' v'| |]; cbn; try (rewrite app_nil_r; apply IH).
  rewrite btree_insert_elem by done. case_bool_decide as E.
  - subst k'. rewrite last_snoc. cbn. naive_solver.
  - rewrite app_nil_r, <- IH. cbn. naive_solver.
Qed.

(** * Lemmas: the flag of the names *)

Lemma valid_env_name_free k : valid_env_name k = true -> k <> [] /\ free (fun b => b =? 44) k.
Proof.
  destruct k as [|c k]; [done|]. cbn [valid_env_name]. intros [_ H]%andb_true_iff. split; [done|].
  rewrite forallb_forall in H. unfold free. apply Forall_forall. intros b Hb. apply list_elem_of_In, H in Hb.
  apply Z.eqb_neq. intros ->. done.
Qed.

Lemma preserve_loop_spec env i flag :
  preserve_loop env i flag =
  if forallb (fun kv => valid_env_name kv.1) env then
    Ok (flag ++ (match i, env with S _, _ :: _ => [44] | _, _ => [] end) ++ intercalate 44 (fst <$> env))
  else Err EUnsupported.
Proof.
  revert i flag. induction env as [|[k v] env IH]; intros i flag; cbn [preserve_loop forallb].
  { destruct i; cbn; by rewrite ?app_nil_r. }
  cbn [fst]. destruct (valid_env_name k); cbn [andb]; [|done]. rewrite IH.
  destruct (forallb _ env); [|done]. f_equal. rewrite fmap_cons. cbn [fst].
  destruct env as [|kv env].
  - destruct i; cbn; by rewrite ?app_nil_r, <- ?app_assoc.
  - rewrite fmap_cons. rewrite (intercalate_cons 44 k) by done. destruct i; cbn [Nat.ltb Nat.leb]; by rewrite <- ?app_assoc.
Qed.

(** * Lemmas: the command line *)

(** An option of a front: it begins with a dash and does not end the options. *)
Definition is_option (o : bytes) : Prop := head o = Some 45 /\ o <> bs "--".

(** What stands between the front's options and the program. *)
Definition terminator (b : Backend) : list bytes := if bool_decide (b = Pkexec) then [] else [bs "--"].

Lemma preserve_env_flag_Ok env flag :
  preserve_env_flag env = Ok flag ->
  flag = PRESERVE_ENV ++ intercalate 44 (fst <$> env) /\ Forall (fun kv => valid_env_name kv.1 = true) env.
Proof.
  unfold preserve_env_flag. rewrite preserve_loop_spec. destruct (forallb _ env) eqn:E; [|done]. intros [= <-].
  split; [done|]. rewrite forallb_forall in E. apply Forall_forall. intros kv Hkv. by apply E, list_elem_of_In.
Qed.

Lemma build_argv_shape b p auth program args env argv :
  build_argv b p auth program args env = Some (Ok argv) ->
  b <> Auto /\ exists flags,
    argv = p :: flags ++ terminator b ++ program :: args /\ Forall is_option flags /\
    (b = Sudo -> env <> [] -> PRESERVE_ENV ++ intercalate 44 (fst <$> env) ∈ flags).
Proof.
  assert (forall auth', Forall is_option (match auth' with
    | NonInteractive => [bs "-n"] | Stdin _ => [bs "-S"] | Askpass _ => [bs "-A"] | Interactive | Gui => [] end)) as Ho
    by (intros []; repeat constructor; done).
  intros H. destruct b; cbn [build_argv] in H; [done| | |].
  - split; [done|]. case_bool_decide as He.
    + destruct (preserve_env_flag env) as [flag|] eqn:Ef; [|done]. cbn beta iota in H. injection H as <-.
      apply preserve_env_flag_Ok in Ef as [-> _]. eexists. split; [done|]. split.
      * apply Forall_app. split; [apply Ho|]. constructor; [|done]. done.
      * intros _ _. apply elem_of_app. right. by apply list_elem_of_singleton.
    + injection H as <-. eexists. split; [done|]. split; [apply Ho|]. intros _ Hne. by rewrite He in Hne.
  - split; [done|]. injection H as <-. eexists. split; [done|]. split; [|done]. by destruct auth; repeat constructor.
  - split; [done|]. injection H as <-. exists [bs "--disable-internal-agent"; bs "--keep-cwd"].
    split; [done|]. split; [|done]. by repeat constructor.
Qed.

Lemma build_argv_total b p auth program args env : b <> Auto -> build_argv b p auth program args env <> None.
Proof. by destruct b. Qed.

(** * Lemmas: the rewrite *)

Definition askpass_ops (auth : Auth) : list EnvOp :=
  match auth with Askpass p => [EnvSet (bs "SUDO_ASKPASS") p] | _ => [] end.

Definition secret_of (auth : Auth) : option bytes := match auth with Stdin s => Some s | _ => None end.

(** The slots of a wrapper: the caller's, and the password's pipe on stdin. *)
Definition wrapper_fds (auth : Auth) (pipe : result IoError Z) (m : gmap Z ResolvedStdio) : gmap Z ResolvedStdio :=
  match auth, pipe with
  | Stdin _, Ok reader => <[STDIN := File reader]> m
  | _, _ => m
  end.

(** What a derived command keeps of the caller's. *)
Definition carries (d cmd : Command) : Prop :=
  cwd d = cwd cmd /\ contain d = contain cmd /\ kill_on_drop d = kill_on_drop cmd.

Lemma wrapper_command_spec cmd kept auth argv pinned :
  let d := wrapper_command cmd kept auth argv pinned in
  input d = Argv argv /\ env_ops d = set_ops kept ++ askpass_ops auth /\ carries d cmd /\ fds d = ∅ /\
  fd_marker_suppressed d = true /\
  executable d = ((fun pin => Exact (pinned_exec_path pin)) <$> pinned) /\
  held d = match pinned with Some pin => [pin] | None => [] end.
Proof. unfold wrapper_command, transfer_process_attrs, carries. destruct pinned, (cwd cmd), auth; done. Qed.

Lemma union_stdin (m : gmap Z ResolvedStdio) reader :
  delete STDIN m ∪ <[STDIN := File reader]> ∅ = <[STDIN := File reader]> m.
Proof.
  apply map_eq. intros i. destruct (base.decide (i = STDIN)) as [->|Hne].
  - rewrite lookup_insert_eq. apply lookup_union_Some_raw. right. by rewrite lookup_delete_eq, lookup_insert_eq.
  - rewrite lookup_insert_ne by done. rewrite lookup_union_l by (by rewrite lookup_insert_ne). by rewrite lookup_delete_ne.
Qed.

Definition kept_env (cmd : Command) : list (bytes * bytes) :=
  (apply_policy (sanitizer (elevation cmd)) (explicit_set_env (env_ops cmd))).1.

(** A wrapper's launch, built from the pieces. *)
Definition wraps (cmd : Command) (host : Host) (pipe : result IoError Z) (b : Backend) (p : bytes) (auth : Auth)
    (program : bytes) (rest argv : list bytes) (pinned : option Z) (r : PosixRewrite) : Prop :=
  input cmd = Argv (program :: rest) /\ pinned_of host b = Ok pinned /\
  (b = Pkexec -> refusal (pkexec_version host) = None) /\
  (kept_env cmd <> [] -> b <> Doas /\ b <> Pkexec) /\
  build_argv b p auth program rest (kept_env cmd) = Some (Ok argv) /\
  input (derived r) = Argv argv /\ env_ops (derived r) = set_ops (kept_env cmd) ++ askpass_ops auth /\
  carries (derived r) cmd /\ fds (derived r) = wrapper_fds auth pipe (fds cmd) /\
  fd_marker_suppressed (derived r) = true /\
  executable (derived r) = ((fun pin => Exact (pinned_exec_path pin)) <$> pinned) /\
  held (derived r) = match pinned with Some pin => [pin] | None => [] end /\
  password_write r = secret_of auth /\ via <$> rw_report r = Some (Wrapped b).

Lemma wire_password_Ok d auth pipe d' password m :
  wire_password d auth pipe = Ok (d', password) -> fds d = ∅ ->
  password = secret_of auth /\ d' = set_fds d (fds d') /\
  (match password with Some _ => delete STDIN m | None => m end) ∪ fds d' = wrapper_fds auth pipe m.
Proof.
  unfold wire_password. intros H Hf.
  destruct auth as [| |ap|secret|]; [..|destruct pipe as [reader|]; [|done]|]; cbn in H; injection H as <- <-; cbn;
    rewrite Hf, ?(right_id_L ∅ (∪)), ?union_stdin; (split; [done|]); split; try done; rewrite <- ?Hf; by destruct d.
Qed.

Lemma elevate_posix_Ok cmd host pipe b p auth r cmd' :
  elevate_posix cmd host pipe b p auth = Some (Ok (r, cmd')) ->
  cmd' = set_fds cmd ∅ /\ exists program rest argv pinned, wraps cmd host pipe b p auth program rest argv pinned r.
Proof.
  unfold elevate_posix, wraps, kept_env. destruct (apply_policy _ _) as [kept stripped]. cbn [fst].
  destruct (bool_decide (kept <> []) && _) eqn:Ek; [done|].
  destruct (if bool_decide (b = Pkexec) then _ else _) eqn:Er; [done|].
  destruct (pinned_of host b) as [pinned|] eqn:Ep; [|done].
  unfold program_and_args. destruct (elevation_argv cmd) as [[|program rest]|] eqn:Ea; [done| |done]. cbn [l_program l_args].
  apply elevation_argv_Ok in Ea as (_ & Hi & _).
  destruct (build_argv b p auth program rest kept) as [[argv|]|] eqn:Eb; [|done|done].
  pose proof (wrapper_command_spec cmd kept auth argv pinned) as Hs. cbv zeta in Hs.
  set (d := wrapper_command cmd kept auth argv pinned) in *. destruct Hs as (Hi' & He & Hc & Hf & Hm & Hx & Hh).
  destruct (wire_password d auth pipe) as [[d' password]|] eqn:Ew; [|done].
  intros [= Hr Hcmd]. destruct (wire_password_Ok d auth pipe d' password (fds cmd) Ew Hf) as (-> & Hd & Hu).
  subst r cmd'. split; [done|]. exists program, rest, argv, pinned.
  cbn [derived password_write rw_report via]. rewrite Hu, Hd.
  split; [done|]. split; [done|]. split; [by intros ->|]. split.
  { intros Hne. rewrite bool_decide_true in Ek by done. cbn in Ek.
    by apply orb_false_iff in Ek as [?%bool_decide_eq_false ?%bool_decide_eq_false]. }
  repeat (split; [done|]). done.
Qed.

Lemma rewrite_wrapped_arm cmd host pipe r cmd' b :
  rewrite_with_host cmd host pipe = Some (Ok (r, cmd')) -> via <$> rw_report r = Some (Wrapped b) ->
  exists p, reject_structural cmd (os host) = Some (Ok tt) /\
    posix_sound host (backend (elevation cmd)) (auth (elevation cmd)) b p (auth (elevation cmd)) /\
    elevate_posix cmd host pipe b p (auth (elevation cmd)) = Some (Ok (r, cmd')).
Proof.
  unfold rewrite_with_host. destruct (reject_structural cmd (os host)) as [[[]|]|]; [|done|done].
  pose proof (plan_shape host Elevated (backend (elevation cmd)) (auth (elevation cmd))) as Hp.
  destruct (plan host Elevated _ _) as [|b' p a| |osa am|e]; try done.
  - intros H Hv. injection H as H. unfold run_as_is in H. destruct (apply_policy _ _) as [kept stripped].
    destruct (elevation_argv cmd); [|done]. injection H as <- _. done.
  - intros H Hv. destruct Hp as (Hs & _). pose proof Hs as (-> & _).
    destruct (elevate_posix_Ok _ _ _ _ _ _ _ _ H) as (_ & ? & ? & ? & ? & Hw).
    destruct Hw as (_ & _ & _ & _ & _ & _ & _ & _ & _ & _ & _ & _ & _ & Hv').
    rewrite Hv in Hv'. injection Hv' as <-. exists p. done.
  - destruct (program_and_args cmd) as [[l|]|]; [|done|done]. intros H Hv. injection H as H. unfold build_rewrite in H.
    destruct (wrap_do_shell_script _ am); [|done]. injection H as <- _. done.
Qed.

(** What the POSIX gate lets through. *)
Lemma reject_posix_Ok cmd b auth :
  reject_structural_posix_config cmd b auth = Some (Ok tt) ->
  (forall program rest, b = Pkexec -> input cmd = Argv (program :: rest) -> head program <> Some 45) /\
  (forall slot r, fds cmd !! slot = Some r -> slot < 3) /\ Forall (fun o => is_set o = true) (env_ops cmd) /\
  (is_stdin auth = true -> fds cmd !! STDIN = None).
Proof.
  unfold reject_structural_posix_config. destruct (elevation_argv cmd) as [[|program rest]|] eqn:Ea; [done| |done].
  apply elevation_argv_Ok in Ea as (_ & Hi & _).
  destruct (bool_decide (b = Pkexec) && _) eqn:Ed; [done|]. destruct (existsb _ (map_to_list _)) eqn:Ef; [done|].
  destruct (existsb (fun o => negb (is_set o)) _) eqn:Eo; [done|]. destruct (_ && (_ || _)); [done|].
  destruct (is_stdin auth && _) eqn:Es; [done|]. intros _. split; [|split; [|split]].
  - intros pr re -> Hi2. rewrite Hi in Hi2. injection Hi2 as <- <-. rewrite bool_decide_true in Ed by done.
    cbn in Ed. by apply bool_decide_eq_false in Ed.
  - intros slot r Hl%elem_of_map_to_list%list_elem_of_In. destruct (Z.ltb_spec slot 3); [done|]. exfalso.
    apply not_true_iff_false in Ef. apply Ef, existsb_exists. exists (slot, r). split; [done|]. by apply Z.leb_le.
  - apply Forall_forall. intros o Ho%list_elem_of_In. apply not_true_iff_false in Eo. destruct (is_set o) eqn:E; [done|].
    exfalso. apply Eo, existsb_exists. exists o. by rewrite E.
  - intros Ha. rewrite Ha in Es. cbn in Es. apply bool_decide_eq_false in Es. by apply eq_None_not_Some.
Qed.

Lemma posix_sound_requested self backend auth b p a :
  posix_sound self backend auth b p a ->
  is_macos_gui_auto (os self) backend auth = false /\ (b = Pkexec -> backend = Pkexec).
Proof.
  intros (_ & _ & Hef & _ & _ & Hg & Hl & _). split.
  - unfold is_macos_gui_auto. destruct (is_gui auth) eqn:E; [|by rewrite andb_false_r].
    rewrite (Hl (proj2 Hg eq_refl)). done.
  - intros ->. unfold effective in Hef. destruct backend, (sudo (available self)), (doas (available self)); naive_solver.
Qed.

Lemma kept_env_spec cmd k v :
  (k, v) ∈ kept_env cmd <->
  last (omap (sets k) (env_ops cmd)) = Some v /\ keeps (sanitizer (elevation cmd)) k v = true.
Proof. unfold kept_env. rewrite apply_kept. cbn. by rewrite (proj2 (explicit_set_env_spec (env_ops cmd))). Qed.

Lemma reject_posix_total cmd b auth : reject_structural_posix_config cmd b auth <> None.
Proof.
  unfold reject_structural_posix_config. destruct (elevation_argv cmd) as [argv|] eqn:Ea; [|done].
  apply elevation_argv_Ok in Ea as (_ & _ & Hne). by destruct argv.
Qed.

Lemma elevate_posix_total cmd host pipe b p auth : b <> Auto -> elevate_posix cmd host pipe b p auth <> None.
Proof.
  intros Hb. unfold elevate_posix. destruct (apply_policy _ _) as [kept stripped]. destruct (_ && _); [done|].
  destruct (if bool_decide (b = Pkexec) then _ else _); [done|]. destruct (pinned_of host b); [|done].
  pose proof (proj2 (reject_gui_total cmd)). destruct (program_and_args cmd) as [[l|]|]; [|done|done].
  pose proof (build_argv_total b p auth (l_program l) (l_args l) kept Hb).
  by destruct (build_argv b p auth (l_program l) (l_args l) kept) as [[]|].
Qed.

(** * Lemmas: the password *)

(** A write that takes a byte, and one that may be interrupted first. *)
Definition takes (w : WriteAnswer) : Prop := match w with Ok (S _) => True | _ => False end.

#[export] Instance takes_dec w : Decision (takes w).
Proof. destruct w as [[]|]; cbn; apply _. Defined.

Definition takes_or_interrupts (w : WriteAnswer) : Prop :=
  match w with Ok (S _) => True | Ok O => False | Err e => kind e = Interrupted end.

Lemma write_loop_ends len writes polls written :
  Forall takes_or_interrupts writes -> (len <= written + length (filter takes writes))%nat ->
  exists n, write_password_loop len writes polls written = Some (Ok tt, n).
Proof.
  intros H. revert written. induction H as [|w writes Hw _ IH]; intros written Hl; cbn [write_password_loop];
    destruct (Nat.leb_spec len written); try (by eexists); [simpl in Hl; lia|].
  destruct w as [[|n]|e]; [done| |].
  - rewrite filter_cons_True in Hl by done. simpl in Hl. apply IH. lia.
  - rewrite filter_cons_False in Hl by (cbn; tauto). rewrite bool_decide_true by done. by apply IH.
Qed.

Lemma write_loop_spec len writes polls written :
  (0 < len)%nat ->
  match write_password_loop len writes polls written with
  | Some (Ok _, n) => (len <= n)%nat \/ n = 0%nat /\ written = 0%nat
  | Some (Err e, n) => e = Elevation AuthFailed /\ (written <= n < len)%nat
  | None => True
  end.
Proof.
  intros Hlen. revert polls written. induction writes as [|w writes IH]; intros polls written; cbn [write_password_loop];
    destruct (Nat.leb_spec len written) as [Hl|Hl]; try (by left); [done|].
  destruct w as [[|n]|e].
  - destruct (Nat.eqb_spec written 0); [by right|]. split; [done|lia].
  - specialize (IH polls (written + S n)%nat). destruct (write_password_loop _ _ _ _) as [[[]]|]; [|naive_solver lia|done].
    destruct IH as [?|[_ ?]]; [by left|lia].
  - destruct (bool_decide (kind e = Interrupted)); [apply IH|]. destruct (bool_decide (kind e = WouldBlock)).
    { destruct (Nat.eqb_spec written 0); [by right|].
      destruct (wait_writable polls) as [[[[]|] polls']|]; [apply IH| | |done]; (split; [done|lia]). }
    destruct (bool_decide (kind e = BrokenPipe)); [|by split; [|lia]].
    destruct (Nat.eqb_spec written 0); [by right|]. split; [done|lia].
Qed.

(** * Lemmas: detection *)

Lemma resolve_in_path_var_Some is_file x_ok v name p :
  resolve_in_path_var is_file x_ok v name = Some p -> (exists t, p = 47 :: t) /\ is_executable is_file x_ok p = true.
Proof.
  intros (dir & _ & H)%find_map_Some. case_bool_decide as Hd; cbn in H; [|done].
  destruct (is_executable is_file x_ok (std_join dir name)) eqn:E; [|done]. injection H as <-. split; [|done].
  destruct dir as [|c dir]; [done|]. injection Hd as ->. unfold std_join.
  destruct (last (47 :: dir)) as [c|] eqn:El; [|by apply last_None in El]. by destruct (c =? 47); eexists.
Qed.

(** The host that detection makes, field by field. *)
Lemma detect_fields is_file x_ok path_var o elev b auth canonicalize open above run tty argmax :
  let h := detect_with is_file x_ok path_var o elev b auth canonicalize open above run tty argmax in
  let on_path name := path_var ≫= (fun v => resolve_in_path_var is_file x_ok v name) in
  sudo (available h) = on_path (bs "sudo") /\ doas (available h) = on_path (bs "doas") /\ os h = o /\ elevated h = elev /\
  (if launches_pkexec o b auth elev then
     match pkexec (available h) with
     | Some p => exists found pinned, on_path (bs "pkexec") = Some found /\ canonicalize found = Ok p /\
         pin (open p) above = Ok pinned /\ pkexec_pin h = Some pinned /\ pkexec_version h = run_version_probe (run p pinned)
     | None => pkexec_pin h = None
     end
   else pkexec_pin h = None /\ pkexec_version h = NotProbed).
Proof.
  unfold detect_with. destruct (launches_pkexec o b auth elev); cbn [negb]; cbv zeta; [|done].
  destruct path_var as [v|]; cbn [mbind option_bind]; [|done]. unfold pkexec_on.
  destruct (resolve_in_path_var is_file x_ok v (bs "pkexec")) as [found|]; [|done]. cbn [fmap option_fmap option_map].
  destruct (canonicalize found) as [real|] eqn:Ec; [|done].
  destruct (pin (open real) above) as [pinned|] eqn:Ep; [|done]. cbn. eauto 15.
Qed.

(** * Lemmas: the shim's command line *)

Lemma printable_hex a : Forall is_u8 a -> printable (to_hex a) = true.
Proof.
  unfold printable, to_hex. induction 1 as [|b a Hb _ IH]; [done|]. rewrite bind_cons, forallb_app, IH, andb_true_r.
  unfold is_u8 in Hb. assert (forall d, 0 <= d < 16 -> within 32 126 (hex_digit d) = true) as Hd.
  { intros d Hd. apply within_in. unfold hex_digit. destruct (Z.ltb_spec d 10); lia. }
  cbn [forallb]. rewrite !Hd; [done| |].
  - apply Z.mod_pos_bound. lia.
  - split; [apply Z.div_pos; lia|]. apply Z.div_lt_upper_bound; lia.
Qed.

Lemma digits_u8 n : 0 <= n <= u64_max -> Forall is_u8 (show n).
Proof. intros Hn. eapply Forall_impl; [exact (show_clean n Hn)|]. intros b Hb. cbn in Hb. unfold is_u8. lia. Qed.

(** The words of the hex form, in two runs around the separator. *)
Lemma shim_words_u8 shim ip :
  wf_args shim ip -> u8_args shim ->
  Forall (Forall is_u8) [dir shim; show (cosca_pid shim); show_identity (cosca_identity shim); show (cosca_euid shim);
    show_search (search_path shim)].
Proof.
  intros (_ & Hp & He & Hi & _) (Hd & Hs & _).
  assert (forall n, 0 <= n <= u32_max -> 0 <= n <= u64_max) as Hu by (unfold u32_max, u64_max; lia).
  apply Forall_cons_2; [done|]. apply Forall_cons_2; [by apply digits_u8, Hu|].
  apply Forall_cons_2; [by eapply show_identity_u8|]. apply Forall_cons_2; [by apply digits_u8, Hu|].
  apply Forall_cons_2; [|apply Forall_nil_2]. unfold show_search. destruct (search_path shim) as [path|].
  - apply Forall_cons_2; [done|]. by apply Hs.
  - by apply Forall_cons_2; [|apply Forall_nil_2].
Qed.

Lemma printable_hex_words ws : Forall (Forall is_u8) ws -> forallb printable (to_hex <$> ws) = true.
Proof. induction 1 as [|w ws Hw _ IH]; [done|]. rewrite fmap_cons. cbn [forallb]. by rewrite printable_hex, IH. Qed.

(** In the hex form every word after the executable is printable. *)
Lemma printable_shim shim exe ip :
  wf_args shim ip -> u8_args shim -> forallb printable (drop 1 (to_argv_for shim exe true)) = true.
Proof.
  intros Hw Hu. pose proof (printable_hex_words _ (shim_words_u8 _ _ Hw Hu)) as Hb.
  destruct Hu as (_ & _ & Hpr & Ha). unfold to_argv_for. cbv beta zeta iota.
  set (before := [_; _; _; _; _]) in *.
  transitivity (forallb printable (FLAG_HEX :: (to_hex <$> before) ++ SEPARATOR :: to_hex (program shim) :: (to_hex <$> ShimProtocol.args shim)));
    [done|].
  cbn [forallb]. rewrite forallb_app, Hb. cbn [forallb]. by rewrite printable_hex, printable_hex_words.
Qed.

Lemma shim_argv_cons shim exe hex : exists rest, to_argv_for shim exe hex = exe :: rest.
Proof. by eexists. Qed.

Lemma refuse_polkit_spec exe argv :
  match refuse_polkit_exe exe argv with
  | Some (Ok _) =>
      (exists cs, from_utf8 exe = Ok cs) /\
      ((POLKIT_SHORT_LINE < sum_list (length <$> argv) + length argv - 1)%nat ->
       is_char_boundary exe (Nat.min POLKIT_HEAD_CUT (length exe)) = true)
  | Some (Err e) => e = EUnsupported
  | None => argv = []
  end.
Proof.
  unfold refuse_polkit_exe. destruct (from_utf8 exe) as [cs|]; [|done].
  set (len := (sum_list (length <$> argv) + length argv)%nat). cbv zeta.
  destruct (Nat.eqb_spec len 0) as [E|E]; [destruct argv; [done|subst len; simpl in E; lia]|].
  destruct (Nat.ltb_spec POLKIT_SHORT_LINE (len - 1)); cbn [andb].
  - destruct (is_char_boundary exe _); cbn [negb]; [|done]. split; [by eexists|done].
  - split; [by eexists|lia].
Qed.

Lemma build_argv_Err b p auth program args env e : build_argv b p auth program args env = Some (Err e) -> e = EUnsupported.
Proof.
  destruct b; cbn [build_argv]; try done. case_bool_decide; [|done]. unfold preserve_env_flag. rewrite preserve_loop_spec.
  destruct (forallb _ env); [done|]. by intros [= <-].
Qed.

(** * Properties *)

(** C1: the command that elevates runs the caller's program and nothing else: the front is the one
    planned, every word before the program is one of its options, [--] ends them, or, for pkexec,
    which has none, the program does not look like an option; the program and its arguments are the
    caller's, in the caller's directory and containment. Only sudo is given variables, the last
    value set for each name that the policy keeps, named to it; a password or an askpass program goes
    to sudo alone, and the password's pipe is the wrapper's stdin, the other slots being the
    caller's. A pkexec is the file that was pinned, held open, of a version shown to keep the
    directory. *)
Theorem rewrite_wrapped cmd host pipe r cmd' b :
  rewrite_with_host cmd host pipe = Some (Ok (r, cmd')) -> via <$> rw_report r = Some (Wrapped b) ->
  let auth := auth (elevation cmd) in
  exists p program rest flags kept,
    input cmd = Argv (program :: rest) /\ path (available host) b = Some p /\
    input (derived r) = Argv (p :: flags ++ terminator b ++ program :: rest) /\ Forall is_option flags /\
    (b = Pkexec -> head program <> Some 45) /\ carries (derived r) cmd /\ cmd' = set_fds cmd ∅ /\
    (forall k v, (k, v) ∈ kept <->
       last (omap (sets k) (env_ops cmd)) = Some v /\ keeps (sanitizer (elevation cmd)) k v = true) /\
    env_ops (derived r) = set_ops kept ++ askpass_ops auth /\
    (kept <> [] -> b = Sudo /\ PRESERVE_ENV ++ intercalate 44 kept.*1 ∈ flags) /\
    password_write r = secret_of auth /\ (is_askpass_or_stdin auth = true -> b = Sudo) /\
    fds (derived r) = wrapper_fds auth pipe (fds cmd) /\
    (forall slot rs, fds cmd !! slot = Some rs -> slot < 3 /\ (is_stdin auth = true -> slot <> STDIN)) /\
    (if bool_decide (b = Pkexec) then
       exists pin, pkexec_pin host = Some pin /\ held (derived r) = [pin] /\
         executable (derived r) = Some (Exact (pinned_exec_path pin)) /\ refusal (pkexec_version host) = None
     else executable (derived r) = None).
Proof.
  intros H Hv. destruct (rewrite_wrapped_arm _ _ _ _ _ _ H Hv) as (p & Hg & Hs & He). cbv zeta.
  destruct (posix_sound_requested _ _ _ _ _ _ Hs) as [Hgui Hreq]. unfold reject_structural in Hg. rewrite Hgui in Hg.
  apply reject_posix_Ok in Hg as (Hdash & Hslots & _ & Hstdin).
  destruct (elevate_posix_Ok _ _ _ _ _ _ _ _ He) as (-> & program & rest & argv & pinned & Hw).
  destruct Hw as (Hi & Hpin & Href & Hk & Hb & Hdi & Hde & Hc & Hf & _ & Hx & Hh & Hpw & _).
  destruct (build_argv_shape _ _ _ _ _ _ _ Hb) as (_ & flags & -> & Hflags & Hpres).
  destruct Hs as (_ & Hpath & _ & Hne & Hsudo & _). exists p, program, rest, flags, (kept_env cmd).
  split; [done|]. split; [done|]. split; [done|]. split; [done|].
  split; [intros Eb; by apply (Hdash program rest (Hreq Eb))|]. split; [done|]. split; [done|].
  split; [apply kept_env_spec|]. split; [done|]. split.
  { intros Hkne. destruct (Hk Hkne). assert (b = Sudo) as -> by (by destruct b). by split; [|apply Hpres]. }
  split; [done|]. split; [done|]. split; [done|]. split.
  { intros slot rs Hl. split; [by apply (Hslots slot rs)|]. intros Ha ->. rewrite Hstdin in Hl by done. done. }
  case_bool_decide as Eb.
  - subst b. unfold pinned_of in Hpin. destruct (pkexec_pin host) as [pin|]; [|done]. injection Hpin as <-.
    exists pin. split; [done|]. split; [done|]. split; [done|]. by apply Href.
  - rewrite Hx. unfold pinned_of in Hpin. by destruct b, (pkexec_pin host); simplify_eq.
Qed.

(** A unix rewrite never panics: whatever the command, the host and the pipe, no [unreachable!]
    arm is reached, no front is built for an unresolved backend and no argv is indexed out of
    range. *)
Theorem rewrite_no_panic cmd host pipe : os host <> WindowsOs -> rewrite_with_host cmd host pipe <> None.
Proof.
  intros Hos. unfold rewrite_with_host. pose proof (reject_posix_total cmd (backend (elevation cmd)) (auth (elevation cmd))) as Hp.
  destruct (reject_gui_total cmd) as [Hg Hl].
  assert (reject_structural cmd (os host) <> None) as Hr by (unfold reject_structural; by destruct (is_macos_gui_auto _ _ _)).
  destruct (reject_structural cmd (os host)) as [[|]|]; [|done|done].
  pose proof (plan_shape host Elevated (backend (elevation cmd)) (auth (elevation cmd))) as Hs.
  destruct (plan host Elevated _ _) as [|b' p' a'| |osa am|e']; try done.
  - destruct Hs as (Hs & _). apply elevate_posix_total. by destruct Hs as (_ & _ & _ & ? & _).
  - by destruct Hs.
  - by destruct (program_and_args cmd) as [[|]|].
Qed.

Definition demo_cmd : Command :=
  Command.env (elevation_auth (Command.args Command_default [bs "id"; bs "-u"]) (Stdin (bs "pw"))) (bs "LANG") (bs "C").

Definition demo_host : Host :=
  host false true (backend_set (Some (bs "/usr/bin/sudo")) None None None) LinuxOs None NotProbed None.

Lemma rewrite_no_panic_witness : rewrite_with_host demo_cmd demo_host (Ok 7) <> None.
Proof. by apply (rewrite_no_panic demo_cmd demo_host (Ok 7)). Defined.

Lemma rewrite_wrapped_witness :
  match rewrite_with_host demo_cmd demo_host (Ok 7) with
  | Some (Ok (r, _)) =>
      exists p program rest flags,
        input demo_cmd = Argv (program :: rest) /\
        input (derived r) = Argv (p :: flags ++ terminator Sudo ++ program :: rest) /\ Forall is_option flags
  | _ => False
  end.
Proof.
  pose proof (rewrite_wrapped demo_cmd demo_host (Ok 7)) as H.
  destruct (rewrite_with_host demo_cmd demo_host (Ok 7)) as [[[r c]|e]|] eqn:E; [|by vm_compute in E..].
  destruct (H r c Sudo eq_refl) as (p & program & rest & flags & kept & Hi & _ & Hd & Ho & _).
  - by vm_compute in E; injection E as <- _.
  - by exists p, program, rest, flags.
Defined.

(** The password is delivered whole or not at all: whatever the channel answers, in pieces,
    interrupted or full, a delivery that ends well has written the whole line, or nothing, to a front
    that never read it; once part of it is written the only ends are the whole line and a failed
    authentication. It does end: a channel that takes at least a byte a write, interrupted however
    often, ends it within as many writes as the line has bytes. *)
Theorem password_whole_or_none secret writes polls :
  match write_after_spawn secret writes polls with
  | Some (Ok _, n) => (length (password_line secret) <= n)%nat \/ n = 0%nat
  | Some (Err e, n) => e = Elevation AuthFailed /\ (n < length (password_line secret))%nat
  | None => True
  end /\
  (Forall takes_or_interrupts writes -> (length (password_line secret) <= length (filter takes writes))%nat ->
   exists n, write_after_spawn secret writes polls = Some (Ok tt, n)).
Proof.
  split; [|intros Hw Hl; by apply write_loop_ends].
  unfold write_after_spawn. assert (0 < length (password_line secret))%nat as Hl
    by (unfold password_line; rewrite length_app; simpl; lia).
  pose proof (write_loop_spec _ writes polls 0 Hl) as H.
  destruct (write_password_loop _ _ _ _) as [[[]]|]; [|naive_solver lia|done]. naive_solver.
Qed.

(** The names given to sudo are lossless: the flag is built exactly for lists of variable names
    and splits back, at its commas, into those names in order; any other name is refused. *)
Theorem preserve_env_lossless env :
  env <> [] ->
  match preserve_env_flag env with
  | Ok flag =>
      exists names, flag = PRESERVE_ENV ++ names /\ split_on (fun b => b =? 44) names = env.*1 /\
        Forall (fun kv => valid_env_name kv.1 = true) env
  | Err e => e = EUnsupported /\ Exists (fun kv => valid_env_name kv.1 = false) env
  end.
Proof.
  intros Hne. destruct (preserve_env_flag env) as [flag|e] eqn:E.
  - apply preserve_env_flag_Ok in E as [-> Hv]. exists (intercalate 44 env.*1). split; [done|]. split; [|done].
    apply split_on_intercalate; [done|by destruct env|].
    apply Forall_fmap. eapply Forall_impl; [exact Hv|]. intros kv Hk. by apply valid_env_name_free in Hk as [_ ?].
  - unfold preserve_env_flag in E. rewrite preserve_loop_spec in E. destruct (forallb _ env) eqn:Ef; [done|].
    injection E as <-. split; [done|]. apply not_true_iff_false in Ef. rewrite forallb_forall in Ef.
    apply Exists_exists. destruct (Exists_dec (fun kv => valid_env_name kv.1 = false) env) as [H|H]; [by apply Exists_exists in H|].
    exfalso. apply Ef. intros kv Hkv%list_elem_of_In. destruct (valid_env_name kv.1) eqn:Ek; [done|].
    exfalso. apply H, Exists_exists. by exists kv.
Qed.

Lemma preserve_env_lossless_witness :
  exists names, preserve_env_flag [(bs "A", []); (bs "B_1", [])] = Ok (PRESERVE_ENV ++ names) /\
    split_on (fun b => b =? 44) names = [bs "A"; bs "B_1"].
Proof.
  pose proof (preserve_env_lossless [(bs "A", []); (bs "B_1", [])] ltac:(done)) as H.
  destruct (preserve_env_flag [(bs "A", []); (bs "B_1", [])]) as [flag|] eqn:E; [|by vm_compute in E].
  destruct H as (names & -> & Hs & _). by exists names.
Defined.

Lemma password_whole_or_none_witness :
  exists n, write_after_spawn (bs "pw") [Err (of_kind Interrupted); Ok 1%nat; Ok 1%nat; Ok 1%nat] [] = Some (Ok tt, n).
Proof.
  apply (password_whole_or_none (bs "pw") [Err (of_kind Interrupted); Ok 1%nat; Ok 1%nat; Ok 1%nat] []).
  - by repeat constructor.
  - by vm_compute; lia.
Defined.

(** The shim's command line is its front's options and then the shim's own argv, whole; pkexec is
    given only words that its dialog can show: every word after the executable printable ASCII, the
    executable UTF-8, and a long line never cut inside one of its characters. *)
Theorem shim_argv_shown b p auth exe shim env ip :
  wf_args shim ip -> u8_args shim -> b <> Auto ->
  match build_shim_argv b p auth exe shim env with
  | None => False
  | Some (Err e) => e = EUnsupported
  | Some (Ok argv) =>
      exists flags hex, let words := to_argv_for shim exe hex in
        argv = p :: flags ++ terminator b ++ words /\ Forall is_option flags /\
        (b = Pkexec -> forallb printable (drop 1 words) = true /\ (exists cs, from_utf8 exe = Ok cs) /\
           ((POLKIT_SHORT_LINE < sum_list (length <$> words) + length words - 1)%nat ->
            is_char_boundary exe (Nat.min POLKIT_HEAD_CUT (length exe)) = true))
  end.
Proof.
  intros Hw Hu Hb. unfold build_shim_argv.
  set (argv := if bool_decide (b = Pkexec) && _ then _ else _).
  assert (exists hex, argv = to_argv_for shim exe hex /\ (b = Pkexec -> forallb printable (drop 1 (to_argv_for shim exe hex)) = true))
    as (hex & -> & Hpr).
  { subst argv. destruct (forallb printable (drop 1 (to_argv_for shim exe false))) eqn:Ef; cbn [negb].
    - rewrite andb_false_r. by exists false.
    - rewrite andb_true_r. case_bool_decide as Ep; [|by exists false]. exists true. split; [done|]. intros _.
      by apply (printable_shim shim exe ip). }
  destruct (shim_argv_cons shim exe hex) as [rest Er].
  assert (forall cond : Prop, (b = Pkexec -> cond) ->
    match build_argv b p auth exe rest env with
    | None => False
    | Some (Err e) => e = EUnsupported
    | Some (Ok argv) =>
        exists flags, argv = p :: flags ++ terminator b ++ to_argv_for shim exe hex /\ Forall is_option flags /\ (b = Pkexec -> cond)
    end) as Hbuild.
  { intros cond Hc. pose proof (build_argv_total b p auth exe rest env Hb).
    destruct (build_argv b p auth exe rest env) as [[argv|e]|] eqn:Eb; [|by eapply build_argv_Err|done].
    apply build_argv_shape in Eb as (_ & flags & -> & Hf & _). exists flags. by rewrite Er. }
  assert (match to_argv_for shim exe hex with [] => None | exe' :: rest' => build_argv b p auth exe' rest' env end =
    build_argv b p auth exe rest env) as Hm by (by rewrite Er).
  case_bool_decide as Ep.
  - pose proof (refuse_polkit_spec exe (to_argv_for shim exe hex)) as Hr.
    destruct (refuse_polkit_exe exe (to_argv_for shim exe hex)) as [[|e]|]; [|done|by rewrite Er in Hr].
    specialize (Hbuild _ (fun Eb => conj (Hpr Eb) Hr)). rewrite Hm.
    destruct (build_argv _ _ _ _ _ _) as [[argv|]|]; [|done|done]. destruct Hbuild as (flags & Hbuild). by exists flags, hex.
  - rewrite Hm. specialize (Hbuild False (fun E => Ep E)).
    destruct (build_argv _ _ _ _ _ _) as [[argv|]|]; [|done|done]. destruct Hbuild as (flags & Hbuild & Hfl & _).
    by exists flags, hex.
Qed.

Definition demo_shim : ShimArgs := shim_args (bs "/tmp/d") 7 None 0 None (bs "id") [[255; 10]].

Lemma demo_shim_wf : wf_args demo_shim false /\ u8_args demo_shim.
Proof.
  assert (forall b : bytes, forallb (fun x => (0 <=? x) && (x <? 256)) b = true -> Forall is_u8 b) as Hu8.
  { intros b H. rewrite forallb_forall in H. apply Forall_forall. intros x Hx. apply list_elem_of_In, H in Hx. unfold is_u8. lia. }
  assert (forall b : bytes, bool_decide (0 ∈ b) = false -> no_nul b) as H0 by (intros b H; by apply bool_decide_eq_false in H).
  split.
  - split; [done|]. split; [unfold u32_max; cbn; lia|]. split; [unfold u32_max; cbn; lia|]. split; [done|].
    split; [by apply H0|]. split; [done|]. split; [by apply H0|]. apply Forall_cons_2; [by apply H0|by apply Forall_nil_2].
  - split; [by apply Hu8|]. split; [done|]. split; [by apply Hu8|]. apply Forall_cons_2; [by apply Hu8|by apply Forall_nil_2].
Qed.

Lemma shim_argv_shown_witness :
  match build_shim_argv Pkexec (bs "/usr/bin/pkexec") Gui (bs "/opt/shim") demo_shim [] with
  | Some (Ok argv) =>
      exists flags hex, argv = bs "/usr/bin/pkexec" :: flags ++ terminator Pkexec ++ to_argv_for demo_shim (bs "/opt/shim") hex
  | _ => False
  end.
Proof.
  pose proof (shim_argv_shown Pkexec (bs "/usr/bin/pkexec") Gui (bs "/opt/shim") demo_shim [] false
    (proj1 demo_shim_wf) (proj2 demo_shim_wf) ltac:(done)) as H.
  destruct (build_shim_argv Pkexec (bs "/usr/bin/pkexec") Gui (bs "/opt/shim") demo_shim []) as [[argv|]|] eqn:E; [|by vm_compute in E..].
  destruct H as (flags & hex & H & _). by exists flags, hex.
Defined.

(** What detection stores can be launched: a sudo or a doas is an absolute path to a file that could
    be executed, found at an absolute element of PATH; and whenever the planner then launches pkexec for
    the request detected for, pkexec's real file was pinned, and the version kept is the one that very
    file, run under that name, printed; otherwise nothing is pinned or run. *)
Theorem detect_pins is_file x_ok path_var o elev b auth canonicalize open above run tty argmax :
  let h := detect_with is_file x_ok path_var o elev b auth canonicalize open above run tty argmax in
  (forall b' p, b' <> Pkexec -> path (available h) b' = Some p ->
     (exists t, p = 47 :: t) /\ is_executable is_file x_ok p = true) /\
  (forall p a, plan h Elevated b auth = ElevatePosix Pkexec p a ->
     exists found pinned,
       path_var ≫= (fun v => resolve_in_path_var is_file x_ok v (bs "pkexec")) = Some found /\
       canonicalize found = Ok p /\ pin (open p) above = Ok pinned /\
       pkexec_pin h = Some pinned /\ pinned_of h Pkexec = Ok (Some pinned) /\
       pkexec_version h = run_version_probe (run p pinned)) /\
  (launches_pkexec o b auth elev = false -> pkexec_pin h = None /\ pkexec_version h = NotProbed).
Proof.
  cbv zeta. destruct (detect_fields is_file x_ok path_var o elev b auth canonicalize open above run tty argmax) as (Hsu & Hdo & Ho & Hel & Hpin).
  set (h := detect_with _ _ _ _ _ _ _ _ _ _ _ _ _) in *. split; [|split].
  - intros b' p Hb Hp. assert (exists name, path_var ≫= (fun v => resolve_in_path_var is_file x_ok v name) = Some p) as [name Hr].
    { destruct b'; cbn [path] in Hp; rewrite ?Hsu, ?Hdo in Hp; [|by eexists..|done].
      destruct (path_var ≫= _) eqn:E in Hp; [injection Hp as ->|]; by eexists. }
    destruct path_var as [v|]; [|done]. cbn in Hr. by apply resolve_in_path_var_Some in Hr.
  - intros p a Hpl. pose proof (plan_shape h Elevated b auth) as Hs. rewrite Hpl in Hs. destruct Hs as (Hs & He & _).
    destruct (proj1 (pkexec_launched_iff h Elevated b auth) ltac:(eauto)) as (_ & _ & Hl). destruct Hs as (_ & Hp & _).
    rewrite Ho, Hel in Hl. rewrite Hl in Hpin. cbn [path] in Hp. rewrite Hp in Hpin.
    destruct Hpin as (found & pinned & Hf & Hc & Hpi & Hk & Hv). exists found, pinned.
    split; [done|]. split; [done|]. split; [done|]. split; [done|]. split; [|done]. unfold pinned_of. by rewrite Hk.
  - intros Hl. by rewrite Hl in Hpin.
Qed.
