(* ===== verification/BTree.v ===== *)
(** The standard library's [BTreeMap], as the sources use it: entries in the order of their keys, where
    two keys the order calls equal are one key and an insertion keeps the key that is there. *)
From S2P Require Import Prelude PathComponent.
From stdpp Require Import sorting.

Section Ops.
  Context {K V : Type} (kcmp : K -> K -> comparison).

(** [BTreeMap::insert]. *)
Fixpoint bt_insert (k : K) (v : V) (m : list (K * V)) : list (K * V) :=
  match m with
  | [] => [(k, v)]
  | (k', v') :: rest =>
      match kcmp k k' with
      | Lt => (k, v) :: m
      | Eq => (k', v) :: rest
      | Gt => (k', v') :: bt_insert k v rest
      end
  end.

(** [BTreeMap::remove]. *)
Fixpoint bt_remove (k : K) (m : list (K * V)) : list (K * V) :=
  match m with
  | [] => []
  | (k', v') :: rest =>
      match kcmp k k' with
      | Lt => m
      | Eq => rest
      | Gt => (k', v') :: bt_remove k rest
      end
  end.

(** [BTreeMap::get]. *)
Fixpoint bt_get (k : K) (m : list (K * V)) : option V :=
  match m with
  | [] => None
  | (k', v') :: rest =>
      match kcmp k k' with
      | Lt => None
      | Eq => Some v'
      | Gt => bt_get k rest
      end
  end.

End Ops.

Lemma bt_insert_ext {K V} c1 c2 (k : K) (v : V) m :
  (forall a b, c1 a b = c2 a b) -> bt_insert c1 k v m = bt_insert c2 k v m.
Proof. intros H. induction m as [|[k' v'] m IH]; [done|]. cbn. by rewrite H, IH. Qed.

Lemma bt_remove_ext {K V} c1 c2 (k : K) (m : list (K * V)) :
  (forall a b, c1 a b = c2 a b) -> bt_remove c1 k m = bt_remove c2 k m.
Proof. intros H. induction m as [|[k' v'] m IH]; [done|]. cbn. by rewrite H, IH. Qed.

Lemma bt_get_ext {K V} c1 c2 (k : K) (m : list (K * V)) :
  (forall a b, c1 a b = c2 a b) -> bt_get c1 k m = bt_get c2 k m.
Proof. intros H. induction m as [|[k' v'] m IH]; [done|]. cbn. by rewrite H, IH. Qed.

(** * The map by rank

    The order compares what keys rank as; keys of one rank are one key. *)

Section Rank.
  Context {K V F : Type} `{EqDecision F} (rank : K -> F) (cmp : F -> F -> comparison).
  Context (total : TotalCompare cmp).
  Implicit Types (m : list (K * V)).

Definition by_rank (a b : K) : comparison := cmp (rank a) (rank b).

Definition entry_lt (x y : K * V) : Prop := by_rank x.1 y.1 = Lt.

(** The entry of a rank. *)
Definition at_rank (f : F) m : option (K * V) := find_map (fun kv => if decide (rank kv.1 = f) then Some kv else None) m.

Lemma by_rank_Eq a b : by_rank a b = Eq <-> rank a = rank b.
Proof. apply (compare_eq _ total). Qed.

Lemma by_rank_Gt a b : by_rank a b = Gt <-> by_rank b a = Lt.
Proof. unfold by_rank. rewrite (compare_antisym _ total (rank a) (rank b)). by destruct (cmp (rank a) (rank b)). Qed.

Lemma by_rank_irrefl a b : by_rank a b = Lt -> rank a <> rank b.
Proof. intros H E. apply by_rank_Eq in E. congruence. Qed.

Lemma entry_lt_trans x y z : entry_lt x y -> entry_lt y z -> entry_lt x z.
Proof. apply (compare_trans _ total). Qed.

Lemma at_rank_cons f k v m : at_rank f ((k, v) :: m) = if decide (rank k = f) then Some (k, v) else at_rank f m.
Proof. unfold at_rank. cbn. by case_decide. Qed.

Lemma at_rank_Some f m kv : at_rank f m = Some kv -> kv ∈ m /\ rank kv.1 = f.
Proof. intros (x & Hx & Hr)%find_map_Some. case_decide; [|done]. by injection Hr as ->. Qed.

Lemma at_rank_above f m k : Forall (fun y => by_rank k y.1 = Lt) m -> rank k = f -> at_rank f m = None.
Proof.
  intros H <-. induction H as [|[k' v'] m Hk _ IH]; [done|]. rewrite at_rank_cons, decide_False; [done|].
  intros E. by apply (by_rank_irrefl _ _ Hk).
Qed.

Lemma below_tail k k' v' m :
  by_rank k k' = Lt -> Forall (entry_lt (k', v')) m -> Forall (fun y => by_rank k y.1 = Lt) m.
Proof. intros H Hm. eapply Forall_impl; [exact Hm|]. intros y Hy. exact (compare_trans _ total _ _ _ H Hy). Qed.

Lemma bt_get_at k m : StronglySorted entry_lt m -> bt_get by_rank k m = snd <$> at_rank (rank k) m.
Proof.
  induction 1 as [|[k' v'] m Hs IH Hm]; [done|]. cbn [bt_get]. rewrite at_rank_cons.
  destruct (by_rank k k') eqn:E.
  - apply by_rank_Eq in E. by rewrite decide_True.
  - rewrite decide_False; [|intros Hr; by apply (by_rank_irrefl _ _ E)].
    by rewrite (at_rank_above _ _ k) by (eauto using below_tail).
  - rewrite decide_False; [done|]. intros Hr. symmetry in Hr. apply by_rank_Eq in Hr. congruence.
Qed.

Lemma bt_insert_at k v m f :
  StronglySorted entry_lt m ->
  at_rank f (bt_insert by_rank k v m) =
  if decide (rank k = f) then Some (from_option fst k (at_rank f m), v) else at_rank f m.
Proof.
  induction 1 as [|[k' v'] m Hs IH Hm]; cbn [bt_insert]; [rewrite at_rank_cons; by case_decide|].
  destruct (by_rank k k') eqn:E; rewrite !at_rank_cons.
  - apply by_rank_Eq in E. rewrite E. clear IH. by case_decide.
  - clear IH. case_decide as Hk; [|done]. pose proof (by_rank_irrefl _ _ E). rewrite !(decide_False (P := rank k' = f)) by congruence.
    by rewrite (at_rank_above _ _ k) by (eauto using below_tail).
  - rewrite IH. clear IH. destruct (decide (rank k = f)) as [Hk'|Hk']; [|done]. rewrite !(decide_False (P := rank k' = f)); [done|..];
    intros Hk; assert (rank k = rank k') as Hr by congruence; apply by_rank_Eq in Hr; congruence.
Qed.

Lemma bt_remove_at k m f :
  StronglySorted entry_lt m ->
  at_rank f (bt_remove by_rank k m) = if decide (rank k = f) then None else at_rank f m.
Proof.
  induction 1 as [|[k' v'] m Hs IH Hm]; cbn [bt_remove]; [by case_decide|].
  destruct (by_rank k k') eqn:E; rewrite ?at_rank_cons.
  - apply by_rank_Eq in E. rewrite E. clear IH. case_decide as Hk; [|done].
    apply (at_rank_above _ _ k'); [|done]. eapply Forall_impl; [exact Hm|]. by intros y.
  - clear IH. destruct (decide (rank k = f)) as [Hk|Hk]; [|done]. pose proof (by_rank_irrefl _ _ E). rewrite decide_False by congruence.
    by rewrite (at_rank_above _ _ k) by (eauto using below_tail).
  - rewrite IH. clear IH. destruct (decide (rank k = f)) as [Hk'|Hk']; [|done]. rewrite !(decide_False (P := rank k' = f)); [done|..];
    intros Hk; assert (rank k = rank k') as Hr by congruence; apply by_rank_Eq in Hr; congruence.
Qed.

Lemma bt_insert_Forall (P : K * V -> Prop) k v m :
  Forall P m -> (forall k', (k' = k \/ exists w, (k', w) ∈ m) -> P (k', v)) -> Forall P (bt_insert by_rank k v m).
Proof.
  induction 1 as [|[k' v'] m Hp Hm IH]; intros Hk; cbn [bt_insert]; [repeat constructor; apply Hk; by left|].
  destruct (by_rank k k') eqn:E; constructor; try done.
  - apply Hk. right. exists v'. by left.
  - apply Hk. by left.
  - by constructor.
  - apply IH. intros k'' Hk''. apply Hk. destruct Hk'' as [->|[w Hw]]; [by left|]. right. exists w. by apply elem_of_cons; right.
Qed.

Lemma bt_insert_sorted k v m : StronglySorted entry_lt m -> StronglySorted entry_lt (bt_insert by_rank k v m).
Proof.
  induction 1 as [|[k' v'] m Hs IH Hm]; cbn [bt_insert]; [repeat constructor|].
  destruct (by_rank k k') eqn:E.
  - by constructor.
  - constructor; [by constructor|]. constructor; [done|]. by eapply below_tail.
  - constructor; [done|]. apply bt_insert_Forall; [done|]. apply by_rank_Gt in E.
    intros k'' [->|[w Hw]]; [done|]. rewrite Forall_forall in Hm. exact (Hm _ Hw).
Qed.

Lemma bt_remove_Forall (P : K * V -> Prop) k m : Forall P m -> Forall P (bt_remove by_rank k m).
Proof.
  induction 1 as [|[k' v'] m Hp Hm IH]; cbn [bt_remove]; [constructor|].
  destruct (by_rank k k'); [done| |]; by constructor.
Qed.

Lemma bt_remove_sorted k m : StronglySorted entry_lt m -> StronglySorted entry_lt (bt_remove by_rank k m).
Proof.
  induction 1 as [|[k' v'] m Hs IH Hm]; cbn [bt_remove]; [constructor|].
  destruct (by_rank k k'); [done|by constructor|]. constructor; [done|]. by apply bt_remove_Forall.
Qed.

(** In a sorted map every entry is the one of its rank. *)
Lemma at_rank_elem m kv : StronglySorted entry_lt m -> kv ∈ m -> at_rank (rank kv.1) m = Some kv.
Proof.
  induction 1 as [|[k' v'] m Hs IH Hm]; [by intros ?%not_elem_of_nil|].
  rewrite at_rank_cons. intros [->|Hin]%elem_of_cons; [by rewrite decide_True|].
  rewrite Forall_forall in Hm. rewrite decide_False; [by apply IH|]. exact (by_rank_irrefl _ _ (Hm _ Hin)).
Qed.

End Rank.
