(* ===== verification/ChildEnv.v ===== *)
(** The environment of a raw Windows spawn: [src/child/spawn/windows_raw/env_key.rs],
    [env_snapshot.rs], the environment block of [resolve.rs] and [spawn_env] of [windows_raw.rs]. An
    [OsString] is WTF-8; the comparison of the system, [CompareStringOrdinal], is an argument. *)
From S2P Require Import Prelude PathComponent Utf OsStrWide IoErrors CrateError Command BTree.
From stdpp Require Import sorting.
Local Open Scope Z_scope.

(** [encode_wide]: an [OsString] holds WTF-8, which is UTF-16 of some kind. *)
Definition encode_wide (s : bytes) : list Z := default [] (to_wide s).

(** * [env_key.rs] *)

Definition MAX_CHUNK : Z := 2 ^ 31 - 1.

(** The first [n] of a list, and the rest. *)
Fixpoint split_at (n : Z) (l : list Z) : list Z * list Z :=
  match l with
  | [] => ([], [])
  | x :: t => if n <=? 0 then ([], l) else let '(a, b) := split_at (n - 1) t in (x :: a, b)
  end.

(** [slice::chunks], of a positive size; the length bounds the number of chunks. *)
Fixpoint chunks_from (fuel : nat) (n : Z) (l : list Z) : list (list Z) :=
  match fuel, l with
  | S fuel, _ :: _ => let '(a, b) := split_at n l in a :: chunks_from fuel n b
  | _, _ => []
  end.

Definition chunks (n : Z) (l : list Z) : list (list Z) := chunks_from (length l) n l.

Section System.
  (** [CompareStringOrdinal] without case, on two strings it can take. *)
  Variable CompareStringOrdinal : list Z -> list Z -> comparison.

Definition cmp_ignore_case (a b : list Z) (chunk : Z) : comparison :=
  match find_map (fun p : list Z * list Z => match CompareStringOrdinal p.1 p.2 with Eq => None | c => Some c end)
    (zip (chunks chunk a) (chunks chunk b)) with
  | Some c => c
  | None => Nat.compare (length a) (length b)
  end.

(** [EnvKey]'s [cmp] and [eq]; a key is its name. *)
Definition key_cmp (a b : bytes) : comparison := cmp_ignore_case (encode_wide a) (encode_wide b) MAX_CHUNK.

Definition key_eqb (a b : bytes) : bool :=
  bool_decide (length (encode_wide a) = length (encode_wide b)) && bool_decide (key_cmp a b = Eq).

(** * [env_snapshot.rs] *)

(** The two loops over the block at a pointer: the offset of the closing empty entry. *)
Fixpoint scan (in_entry : bool) (mem : list Z) : option nat :=
  match mem with
  | [] => None
  | u :: t => if u =? 0 then if in_entry then S <$> scan false t else Some O else S <$> scan true t
  end.

Definition from_block (block : list Z) : list Z :=
  if bool_decide (length block = 1%nat) then block ++ [0] else block.

(** [EnvSnapshot::read]: the units from the pointer on, or the error of a null one; [freed] is the
    failure of [FreeEnvironmentStringsW]. [None] reads past the memory. *)
Definition read (mem : result IoError (list Z)) (freed : result Z unit) : option (result Error (list Z)) :=
  match mem with
  | Err e => Some (Err (Io e))
  | Ok mem =>
      len ← scan false mem;
      Some (match freed with
            | Err hresult => Err (Io (from_raw_os_error (win32_code hresult)))
            | Ok _ => Ok (from_block (take (len + 1) mem))
            end)
  end.

(** One entry: the name runs to the first [=] after its first unit. *)
Definition entry_var (entry : list Z) : option (bytes * bytes) :=
  match entry with
  | [] => None
  | _ :: t =>
      i ← position (fun u => u =? 61) t;
      let eq := S i in Some (from_wide (take eq entry), from_wide (drop (S eq) entry))
  end.

Definition vars (block : list Z) : list (bytes * bytes) :=
  omap entry_var (filter (fun e => e <> []) (split_on (fun u => u =? 0) (removelast block))).

Definition var (block : list Z) (name : bytes) : option bytes :=
  find_map (fun kv : bytes * bytes => if key_eqb kv.1 name then Some kv.2 else None) (vars block).

(** * [std::process::Command]'s environment, which [apply_env] fills *)

Record CommandEnv := command_env { cleared : bool; changes : list (bytes * option bytes) }.

Definition apply_op (c : CommandEnv) (op : EnvOp) : CommandEnv :=
  match op with
  | EnvSet k v => command_env (cleared c) (bt_insert key_cmp k (Some v) (changes c))
  | Remove k =>
      command_env (cleared c)
        (if cleared c then bt_remove key_cmp k (changes c) else bt_insert key_cmp k None (changes c))
  | Clear => command_env true []
  end.

Definition apply_env (c : CommandEnv) (ops : list EnvOp) : CommandEnv := foldl apply_op c ops.

(** * The environment block *)

Definition ensure_no_nul_wide (s : bytes) : result Error unit :=
  if bool_decide (0 ∈ encode_wide s) then Err (Io (of_kind InvalidInput)) else Ok tt.

Inductive ChildEnv :=
| Inherited (block : list Z) (path : option bytes)
| Captured (vars : list (bytes * bytes)).

Definition PATH : bytes := bs "PATH".

Definition inherit (snapshot : list Z) : ChildEnv := Inherited snapshot (var snapshot PATH).

Definition is_clear (op : EnvOp) : bool := match op with Clear => true | _ => false end.

(** The variables of the snapshot, into an empty map. *)
Definition collect (base : list (bytes * bytes)) : list (bytes * bytes) :=
  foldl (fun m kv => bt_insert key_cmp kv.1 kv.2 m) [] base.

(** The pending values, into the map. *)
Definition merge (m : list (bytes * bytes)) (changes : list (bytes * option bytes)) : list (bytes * bytes) :=
  foldl (fun m kc => match kc.2 with Some v => bt_insert key_cmp kc.1 v m | None => bt_remove key_cmp kc.1 m end) m changes.

Definition captured (base : list (bytes * bytes)) (ops : list EnvOp) : list (bytes * bytes) :=
  merge (if existsb is_clear ops then [] else collect base) (changes (apply_env (command_env false []) ops)).

Definition capture (snapshot : list Z) (ops : list EnvOp) : ChildEnv := Captured (captured (vars snapshot) ops).

Definition path (self : ChildEnv) : option bytes :=
  match self with Inherited _ p => p | Captured m => bt_get key_cmp PATH m end.

(** The entries of a captured block, in order, up to the first NUL. *)
Fixpoint entries (m : list (bytes * bytes)) : result Error (list Z) :=
  match m with
  | [] => Ok []
  | (k, v) :: rest =>
      let? _ := ensure_no_nul_wide k in
      let? _ := ensure_no_nul_wide v in
      let? block := entries rest in
      Ok (encode_wide k ++ [61] ++ encode_wide v ++ [0] ++ block)
  end.

Definition into_block (self : ChildEnv) : result Error (list Z) :=
  match self with
  | Inherited block _ => Ok block
  | Captured m => let? block := entries m in Ok ((if bool_decide (m = []) then [0] else []) ++ block ++ [0])
  end.

(** * [windows_raw.rs]: [spawn_env] *)

Definition NESTED_ENV : bytes := bs "__COSCA_GROUP_ROOT".

Definition is_nested (marker_present : bool) : bool := marker_present.

Record SpawnEnv := spawn_env_ {
  snapshot : list Z; se_path : option bytes; block : list Z; is_root : bool; marker_env : bool }.

Definition child_ops (ops : list EnvOp) (marker_env : bool) : list EnvOp :=
  if marker_env then ops ++ [EnvSet NESTED_ENV (bs "1")] else ops.

(** What the spawn makes of its snapshot: the child's environment. *)
Definition child_env (cmd : Command) (snapshot : list Z) (marker_env : bool) : ChildEnv :=
  let ops := child_ops (env_ops cmd) marker_env in
  if bool_decide (ops = []) && bool_decide (mode (contain cmd) = None) then inherit snapshot else capture snapshot ops.

(** [spawn_env] once the snapshot is read. *)
Definition spawn_env (cmd : Command) (snapshot : list Z) : result Error SpawnEnv :=
  let marker_present := bool_decide (is_Some (var snapshot NESTED_ENV)) in
  let is_root := negb (is_nested marker_present) in
  let marker_env := (windows_contain_setup (contain cmd) is_root).2 in
  let env := child_env cmd snapshot marker_env in
  let? block := into_block env in
  Ok (spawn_env_ snapshot (path env) block is_root marker_env).

End System.

(** * The comparison

    The documented comparison: each unit upcased by the system's table, then compared by value. *)

Lemma split_at_spec n l : split_at n l = (take (Z.to_nat n) l, drop (Z.to_nat n) l).
Proof.
  revert n. induction l as [|x l IH]; intros n; cbn; [by rewrite take_nil, drop_nil|].
  destruct (Z.leb_spec n 0); [by replace (Z.to_nat n) with O by lia|].
  rewrite IH. by replace (Z.to_nat n) with (S (Z.to_nat (n - 1))) by lia.
Qed.

Lemma chunks_from_fuel f1 f2 n l :
  0 < n -> (length l <= f1)%nat -> (length l <= f2)%nat -> chunks_from f1 n l = chunks_from f2 n l.
Proof.
  intros Hn. revert f2 l. induction f1 as [|f1 IH]; intros f2 l H1 H2.
  { destruct l; [by destruct f2|]. cbn in H1. lia. }
  destruct f2 as [|f2]; [destruct l; [done|cbn in H2; lia]|]. destruct l as [|x l]; [done|].
  cbn [chunks_from]. rewrite split_at_spec. f_equal. apply IH; rewrite length_drop; cbn in *; lia.
Qed.

Lemma chunks_cons n l :
  0 < n -> l <> [] -> chunks n l = take (Z.to_nat n) l :: chunks n (drop (Z.to_nat n) l).
Proof.
  intros Hn Hl. unfold chunks. destruct l as [|x l]; [done|]. cbn [length chunks_from].
  rewrite split_at_spec. f_equal. apply chunks_from_fuel; [done|..]; rewrite ?length_drop; cbn; lia.
Qed.

Section Lex.
  Context {A : Type} (cmp : A -> A -> comparison) (total : TotalCompare cmp).

Lemma lex_compare_app a b r s :
  length a = length b ->
  lex_compare cmp (a ++ r) (b ++ s) = match lex_compare cmp a b with Eq => lex_compare cmp r s | c => c end.
Proof.
  revert b. induction a as [|x a IH]; intros [|y b]; try done. cbn. intros [= Hl]. rewrite (IH b) by done.
  by destruct (cmp x y).
Qed.

Lemma lex_compare_short a b s :
  (length a < length b)%nat -> lex_compare cmp a (b ++ s) = lex_compare cmp a b /\ lex_compare cmp a b <> Eq.
Proof.
  revert b. induction a as [|x a IH]; intros [|y b]; cbn; try lia; [done|]. intros Hl.
  destruct (IH b ltac:(lia)) as [-> Hne]. split; [done|]. by destruct (cmp x y).
Qed.

Lemma lex_compare_long a b s :
  (length b < length a)%nat -> lex_compare cmp (a ++ s) b = lex_compare cmp a b /\ lex_compare cmp a b <> Eq.
Proof.
  revert b. induction a as [|x a IH]; intros [|y b]; cbn; try lia; [done|]. intros Hl.
  destruct (IH b ltac:(lia)) as [-> Hne]. split; [done|]. by destruct (cmp x y).
Qed.

End Lex.

Section Documented.
  Context (CompareStringOrdinal : list Z -> list Z -> comparison) (upcase : Z -> Z).
  Hypothesis documented : forall a b,
    Z.of_nat (length a) <= MAX_CHUNK -> Z.of_nat (length b) <= MAX_CHUNK ->
    CompareStringOrdinal a b = lex_compare Z.compare (upcase <$> a) (upcase <$> b).

(** What a key ranks as: its units, upcased. *)
Definition rank (k : bytes) : list Z := upcase <$> encode_wide k.

Notation ordinal := (lex_compare Z.compare).
Notation pieces chunk a b := (zip (chunks chunk a) (chunks chunk b)).
Notation decided := (fun p : list Z * list Z => match CompareStringOrdinal p.1 p.2 with Eq => None | c => Some c end).

(** A short piece ends its string: the pieces after it are never compared. *)
Lemma pieces_last chunk (a b : list Z) :
  0 < chunk -> a <> [] -> b <> [] -> length (take (Z.to_nat chunk) a) <> length (take (Z.to_nat chunk) b) ->
  pieces chunk a b = [(take (Z.to_nat chunk) a, take (Z.to_nat chunk) b)] /\
  (drop (Z.to_nat chunk) a = [] \/ drop (Z.to_nat chunk) b = []).
Proof.
  intros Hc Ha Hb Hl. rewrite (chunks_cons _ a), (chunks_cons _ b) by done. cbn [zip_with].
  rewrite !length_take in Hl. destruct (Nat.lt_ge_cases (length a) (Z.to_nat chunk)) as [H|H].
  - rewrite (drop_ge a) by lia. split; [done|by left].
  - rewrite (drop_ge b) by lia. split; [by destruct (chunks chunk (drop (Z.to_nat chunk) a))|by right].
Qed.

Lemma cmp_ignore_case_spec a b chunk :
  1 <= chunk <= MAX_CHUNK -> cmp_ignore_case CompareStringOrdinal a b chunk = ordinal (upcase <$> a) (upcase <$> b).
Proof.
  intros Hc. unfold cmp_ignore_case. remember (length a) as n eqn:Hn. revert a b Hn.
  induction n as [n IH] using lt_wf_ind. intros a b Hn. set (k := Z.to_nat chunk).
  destruct a as [|x a']; [rewrite Hn; by destruct b|].
  destruct b as [|y b']; [rewrite Hn; change (chunks chunk []) with (@nil (list Z)); by rewrite zip_with_nil_r|].
  set (a := x :: a') in *. set (b := y :: b') in *.
  assert (forall l : list Z, Z.of_nat (length (take k l)) <= MAX_CHUNK) as Hk by (intros l; rewrite length_take; unfold k; lia).
  assert (forall l : list Z, upcase <$> l = (upcase <$> take k l) ++ (upcase <$> drop k l)) as Hs
    by (intros l; by rewrite <- fmap_app, take_drop).
  destruct (decide (length (take k a) = length (take k b))) as [He|He].
  - rewrite (chunks_cons _ a), (chunks_cons _ b) by (lia || done). fold k. cbn [zip_with find_map fst snd].
    rewrite documented by auto. rewrite (Hs a), (Hs b), lex_compare_app by (by rewrite !length_fmap).
    destruct (ordinal (upcase <$> take k a) (upcase <$> take k b)); [|done..].
    rewrite <- (IH (length (drop k a))); [|rewrite length_drop, Hn; cbn; unfold k; lia|done].
    replace (Nat.compare n (length b)) with (Nat.compare (length (drop k a)) (length (drop k b))); [done|].
    rewrite !length_take in He. rewrite !length_drop, Hn.
    destruct (Nat.compare_spec (length a - k) (length b - k)), (Nat.compare_spec (length a) (length b)); (done || lia).
  - destruct (pieces_last chunk a b) as [-> Hlast]; [lia|done..|]. fold k in Hlast |- *. cbn [find_map fst snd].
    rewrite documented by auto. rewrite (Hs a), (Hs b).
    assert (length (upcase <$> take k a) <> length (upcase <$> take k b)) as He' by (by rewrite !length_fmap).
    rewrite !length_take in He. destruct (Nat.lt_gt_cases (length (upcase <$> take k a)) (length (upcase <$> take k b))) as [Hlt _].
    destruct (Hlt He') as [Hl|Hl].
    + assert (drop k a = []) as -> by (apply drop_ge; rewrite !length_fmap, !length_take in Hl; lia).
      rewrite fmap_nil, app_nil_r. destruct (lex_compare_short Z.compare _ _ (upcase <$> drop k b) Hl) as [-> Hne].
      by destruct (ordinal _ _).
    + assert (drop k b = []) as -> by (apply drop_ge; rewrite !length_fmap, !length_take in Hl; lia).
      rewrite fmap_nil, app_nil_r. destruct (lex_compare_long Z.compare _ _ (upcase <$> drop k a) Hl) as [-> Hne].
      by destruct (ordinal _ _).
Qed.

Notation kcmp := (key_cmp CompareStringOrdinal).

Lemma key_cmp_rank a b : kcmp a b = by_rank rank ordinal a b.
Proof. apply cmp_ignore_case_spec. unfold MAX_CHUNK. lia. Qed.

Lemma key_eqb_rank a b : key_eqb CompareStringOrdinal a b = bool_decide (rank a = rank b).
Proof.
  unfold key_eqb. rewrite key_cmp_rank, <- bool_decide_and. apply bool_decide_ext. rewrite (by_rank_Eq _ _ (total_lex _ total_Z)).
  split; [by intros [_ H]|]. intros H. split; [|done]. apply (f_equal length) in H. unfold rank in H. by rewrite !length_fmap in H.
Qed.

(** The map operations, by rank. *)
Notation at_key := (at_rank rank).
Notation sorted := (StronglySorted (entry_lt rank ordinal)).

Lemma key_insert_at {V} k (v : V) m f :
  sorted m -> at_key f (bt_insert kcmp k v m) =
  if decide (rank k = f) then Some (from_option fst k (at_key f m), v) else at_key f m.
Proof. intros H. rewrite (bt_insert_ext _ _ _ _ _ key_cmp_rank). by apply (bt_insert_at _ _ (total_lex _ total_Z)). Qed.

Lemma key_remove_at {V} k (m : list (bytes * V)) f :
  sorted m -> at_key f (bt_remove kcmp k m) = if decide (rank k = f) then None else at_key f m.
Proof. intros H. rewrite (bt_remove_ext _ _ _ _ key_cmp_rank). by apply (bt_remove_at _ _ (total_lex _ total_Z)). Qed.

Lemma key_get_at {V} k (m : list (bytes * V)) : sorted m -> bt_get kcmp k m = snd <$> at_key (rank k) m.
Proof. intros H. rewrite (bt_get_ext _ _ _ _ key_cmp_rank). by apply (bt_get_at _ _ (total_lex _ total_Z)). Qed.

Lemma key_insert_sorted {V} k (v : V) m : sorted m -> sorted (bt_insert kcmp k v m).
Proof. intros H. rewrite (bt_insert_ext _ _ _ _ _ key_cmp_rank). by apply bt_insert_sorted, H; apply (total_lex _ total_Z). Qed.

Lemma key_remove_sorted {V} k (m : list (bytes * V)) : sorted m -> sorted (bt_remove kcmp k m).
Proof. intros H. rewrite (bt_remove_ext _ _ _ _ key_cmp_rank). by apply bt_remove_sorted. Qed.

(** * The reference: which operations count, and what they leave *)

Definition op_key (op : EnvOp) : option bytes := match op with EnvSet k _ | Remove k => Some k | Clear => None end.

Definition op_val (op : EnvOp) : option bytes := match op with EnvSet _ v => Some v | _ => None end.

Definition is_remove (op : EnvOp) : bool := match op with Remove _ => true | _ => false end.

(** The operations after the last [Clear]; [None] without one. *)
Fixpoint after_clear (ops : list EnvOp) : option (list EnvOp) :=
  match ops with
  | [] => None
  | op :: rest =>
      match after_clear rest with
      | Some l => Some l
      | None => if is_clear op then Some rest else None
      end
  end.

(** The operations after the last [Remove], all of them without one. *)
Fixpoint after_remove (ops : list EnvOp) : list EnvOp :=
  match ops with
  | [] => []
  | op :: rest => if is_remove op || existsb is_remove rest then after_remove rest else op :: rest
  end.

(** The operations on one variable. *)
Definition on (f : list Z) (ops : list EnvOp) : list EnvOp := filter (fun op => rank <$> op_key op = Some f) ops.

(** What is left of the variable of rank [f]: its name and value. *)
Definition final_entry (f : list Z) (base : list (bytes * bytes)) (ops : list EnvOp) : option (bytes * bytes) :=
  match after_clear ops with
  | Some ops' =>
      n ← head (omap op_key (after_remove (on f ops')));
      v ← last (on f ops') ≫= op_val; Some (n, v)
  | None =>
      let here := filter (fun kv : bytes * bytes => rank kv.1 = f) base in
      n ← head (here.*1 ++ omap op_key (on f ops));
      v ← (match last (on f ops) with Some op => op_val op | None => snd <$> last here end); Some (n, v)
  end.

Lemma after_clear_snoc ops op :
  after_clear (ops ++ [op]) = if is_clear op then Some [] else (fun l => l ++ [op]) <$> after_clear ops.
Proof.
  induction ops as [|o ops IH]; cbn; [done|]. rewrite IH. destruct (is_clear op) eqn:E; [done|].
  destruct (after_clear ops); [done|]. cbn. by destruct (is_clear o).
Qed.

Lemma after_clear_None ops : after_clear ops = None <-> existsb is_clear ops = false.
Proof.
  induction ops as [|o ops IH]; [done|]. cbn. rewrite orb_false_iff, <- IH.
  destruct (after_clear ops); [naive_solver|]. destruct (is_clear o); naive_solver.
Qed.

Lemma after_remove_snoc l op :
  after_remove (l ++ [op]) = if is_remove op then [] else after_remove l ++ [op].
Proof.
  induction l as [|o l IH]; cbn [after_remove app existsb]; [rewrite orb_false_r; by destruct (is_remove op)|].
  rewrite existsb_app, IH. cbn [existsb]. rewrite orb_false_r. destruct (is_remove op); [by rewrite !orb_true_r|].
  rewrite orb_false_r. by destruct (is_remove o || existsb is_remove l).
Qed.

Lemma on_snoc f l op : on f (l ++ [op]) = on f l ++ (if decide (rank <$> op_key op = Some f) then [op] else []).
Proof. unfold on. by rewrite filter_app. Qed.

(** A variable last set has a name since its last removal. *)
Lemma after_remove_named f l k v :
  last (on f l) = Some (EnvSet k v) -> is_Some (head (omap op_key (after_remove (on f l)))).
Proof.
  intros Hl. assert (Forall (fun op => is_Some (op_key op)) (after_remove (on f l))) as Hk.
  { assert (Forall (fun op => is_Some (op_key op)) (on f l)) as Ho.
    { apply Forall_forall. intros op [H _]%list_elem_of_filter. destruct (op_key op); [by eexists|done]. }
    induction (on f l) as [|o t IH] in Ho |- *; [constructor|]. cbn. inversion_clear Ho.
    destruct (_ || _); [by apply IH|by constructor]. }
  destruct (on f l) as [|o t _] using rev_ind; [done|]. rewrite last_snoc in Hl. injection Hl as ->.
  rewrite after_remove_snoc in Hk |- *. cbn in *. destruct (after_remove t) as [|o' t']; cbn; [by eexists|].
  inversion_clear Hk as [|? ? [n Hn] _]. rewrite Hn. by eexists.
Qed.

#[local] Arguments on : simpl never.
#[local] Arguments after_remove : simpl never.

(** * What std records *)

Notation recorded ops := (apply_env CompareStringOrdinal (command_env false []) ops).

(** The pending change of a rank. *)
Definition change_of (f : list Z) (ops : list EnvOp) : option (bytes * option bytes) :=
  match after_clear ops with
  | Some ops' =>
      match last (on f ops') with
      | Some (EnvSet _ v) => n ← head (omap op_key (after_remove (on f ops'))); Some (n, Some v)
      | _ => None
      end
  | None => n ← head (omap op_key (on f ops)); op ← last (on f ops); Some (n, op_val op)
  end.

Lemma recorded_snoc ops op : recorded (ops ++ [op]) = apply_op CompareStringOrdinal (recorded ops) op.
Proof. unfold apply_env. by rewrite foldl_app. Qed.

Lemma on_named f l op : last (on f l) = Some op -> exists k, op_key op = Some k /\ rank k = f.
Proof.
  intros H%last_Some_elem_of. apply list_elem_of_filter in H as [H _]. destruct (op_key op) as [k|]; [|done].
  injection H as H. by exists k.
Qed.

Lemma on_first f l : head (omap op_key (on f l)) = None -> last (on f l) = None.
Proof.
  intros H. destruct (on f l) as [|op t] eqn:E; [done|]. exfalso.
  assert (op ∈ on f l) as Hin by (rewrite E; by left). apply list_elem_of_filter in Hin as [Hk _].
  cbn in H. by destruct (op_key op).
Qed.

Lemma recorded_cleared ops : cleared (recorded ops) = existsb is_clear ops.
Proof.
  induction ops as [|op ops IH] using rev_ind; [done|]. rewrite recorded_snoc, existsb_app. cbn. rewrite orb_false_r.
  destruct op; cbn; rewrite ?orb_false_r, ?orb_true_r; done.
Qed.

Lemma recorded_sorted ops : sorted (changes (recorded ops)).
Proof.
  induction ops as [|op ops IH] using rev_ind; [constructor|]. rewrite recorded_snoc.
  destruct op; cbn; [by apply key_insert_sorted| |constructor].
  destruct (cleared _); [by apply key_remove_sorted|by apply key_insert_sorted].
Qed.

Lemma recorded_change ops f : at_key f (changes (recorded ops)) = change_of f ops.
Proof.
  induction ops as [|op ops IH] using rev_ind; [done|]. pose proof (recorded_sorted ops) as Hs.
  rewrite recorded_snoc. unfold change_of. rewrite after_clear_snoc.
  destruct op as [k v|k|]; cbn [apply_op changes is_clear]; [| |done].
  - rewrite key_insert_at, IH by done. unfold change_of. destruct (after_clear ops) as [l|] eqn:El; cbn; rewrite on_snoc; cbn.
    + destruct (decide (Some (rank k) = Some f)) as [[= Hk]|Hk].
      * rewrite decide_True, last_snoc, after_remove_snoc by done. cbn. rewrite omap_app. cbn.
        destruct (last (on f l)) as [[k' v'|k'|]|] eqn:E.
        -- destruct (after_remove_named f l k' v' E) as [n Hn]. rewrite Hn.
           by destruct (omap op_key (after_remove (on f l))); [done|injection Hn as ->].
        -- apply last_Some in E as [t ->]. by rewrite after_remove_snoc.
        -- apply on_named in E as (? & ? & _). done.
        -- apply last_None in E as ->. done.
      * rewrite decide_False by congruence. by rewrite app_nil_r.
    + destruct (decide (Some (rank k) = Some f)) as [[= Hk]|Hk].
      * rewrite decide_True, last_snoc, omap_app by done. cbn.
        destruct (omap op_key (on f ops)) as [|n t] eqn:E; [done|]. cbn.
        destruct (last (on f ops)) as [op|] eqn:Ela; [done|]. apply last_None in Ela as Hn. by rewrite Hn in E.
      * rewrite decide_False by congruence. by rewrite app_nil_r.
  - rewrite recorded_cleared. destruct (after_clear ops) as [l|] eqn:El; cbn; rewrite on_snoc; cbn.
    + assert (existsb is_clear ops = true) as ->.
      { apply not_false_is_true. rewrite <- after_clear_None. by rewrite El. }
      rewrite key_remove_at, IH by done. unfold change_of. rewrite El.
      destruct (decide (Some (rank k) = Some f)) as [[= Hk]|Hk].
      * by rewrite decide_True, last_snoc.
      * rewrite decide_False by congruence. by rewrite app_nil_r.
    + rewrite (proj1 (after_clear_None ops)) by done. rewrite key_insert_at, IH by done. unfold change_of. rewrite El.
      destruct (decide (Some (rank k) = Some f)) as [[= Hk]|Hk].
      * rewrite decide_True, last_snoc, omap_app by done. cbn.
        destruct (omap op_key (on f ops)) as [|n t] eqn:E; [done|]. cbn.
        destruct (last (on f ops)) as [op|] eqn:Ela; [done|]. apply last_None in Ela as Hn. by rewrite Hn in E.
      * rewrite decide_False by congruence. by rewrite app_nil_r.
Qed.

(** * The merge *)

Lemma collect_snoc base kv :
  collect CompareStringOrdinal (base ++ [kv]) = bt_insert kcmp kv.1 kv.2 (collect CompareStringOrdinal base).
Proof. unfold collect. by rewrite foldl_app. Qed.

Lemma collect_spec base :
  sorted (collect CompareStringOrdinal base) /\
  forall f, at_key f (collect CompareStringOrdinal base) =
    (let here := filter (fun kv : bytes * bytes => rank kv.1 = f) base in
     n ← head here.*1; v ← last here.*2; Some (n, v)).
Proof.
  induction base as [|[k v] base [Hs IH]] using rev_ind; [split; [constructor|done]|].
  rewrite collect_snoc. cbn [fst snd]. split; [by apply key_insert_sorted|]. intros f. cbv zeta.
  rewrite key_insert_at, IH by done. cbv zeta. rewrite filter_app, filter_cons, filter_nil. cbn [fst].
  case_decide as Hk; [|by rewrite app_nil_r]. rewrite !fmap_app. cbn. rewrite last_snoc. cbn.
  destruct (filter _ base) as [|[n w] t]; [done|]. cbn [fmap list_fmap head app from_option mbind option_bind fst].
  destruct (last ((n, w).2 :: t.*2)) eqn:E; [done|]. by apply last_None in E.
Qed.

Lemma merge_sorted m changes : sorted m -> sorted (merge CompareStringOrdinal m changes).
Proof.
  unfold merge. revert m. induction changes as [|[k [v|]] changes IH]; intros m Hs; cbn; [done|..]; apply IH.
  - by apply key_insert_sorted.
  - by apply key_remove_sorted.
Qed.

Lemma merge_at m changes f :
  sorted m -> StronglySorted (entry_lt rank ordinal) changes ->
  at_key f (merge CompareStringOrdinal m changes) =
  match at_key f changes with
  | Some (k, Some v) => Some (from_option fst k (at_key f m), v)
  | Some (k, None) => None
  | None => at_key f m
  end.
Proof.
  unfold merge. intros Hm Hc. revert m Hm. induction Hc as [|[k c] changes Hc IH Hk]; intros m Hm; [done|].
  cbn [foldl fst snd]. rewrite IH by (destruct c; [by apply key_insert_sorted|by apply key_remove_sorted]).
  rewrite at_rank_cons. case_decide as Hr.
  - rewrite (at_rank_above _ _ (total_lex _ total_Z) f changes k); [|exact Hk|done].
    destruct c; [rewrite key_insert_at by done|rewrite key_remove_at by done]; by rewrite decide_True.
  - destruct c; [rewrite key_insert_at by done|rewrite key_remove_at by done]; by rewrite decide_False.
Qed.

Lemma captured_sorted base ops : sorted (captured CompareStringOrdinal base ops).
Proof. apply merge_sorted. destruct (existsb _ _); [constructor|apply collect_spec]. Qed.

Lemma captured_at base ops f : at_key f (captured CompareStringOrdinal base ops) = final_entry f base ops.
Proof.
  unfold captured. rewrite merge_at; [|destruct (existsb _ _); [constructor|apply collect_spec]|apply recorded_sorted].
  rewrite recorded_change. unfold change_of, final_entry. destruct (after_clear ops) as [l|] eqn:El.
  - assert (existsb is_clear ops = true) as ->.
    { apply not_false_is_true. rewrite <- after_clear_None. by rewrite El. }
    destruct (last (on f l)) as [[k v|k|]|] eqn:E; cbn.
    + by destruct (head _).
    + by destruct (head _).
    + apply on_named in E as (? & ? & _). done.
    + by destruct (head _).
  - rewrite (proj1 (after_clear_None ops)), (proj2 (collect_spec base) f) by done. cbv zeta.
    set (here := filter _ base). destruct (head (omap op_key (on f ops))) as [n|] eqn:En.
    + destruct (last (on f ops)) as [op|] eqn:E; cbn.
      2: { apply last_None in E. by rewrite E in En. }
      destruct (omap op_key (on f ops)) as [|n' t]; [done|]. injection En as ->.
      destruct here as [|[k v] here'] eqn:Eh; cbn [fmap list_fmap head app mbind option_bind fst].
      * by destruct (op_val op).
      * destruct (op_val op); [|done].
        destruct (last ((k, v).2 :: here'.*2)) eqn:El2; [done|]. by apply last_None in El2.
    + rewrite (on_first _ _ En). cbn. destruct (omap op_key (on f ops)); [|done]. by rewrite app_nil_r, fmap_last.
Qed.

#[local] Arguments encode_wide : simpl never.

(** * The block reads back *)

Lemma encode_from_wide us : Forall is_u16 us -> encode_wide (from_wide us) = us.
Proof. intros Hu. destruct (decode_utf16_spec us Hu) as [Hb Hw]. unfold encode_wide, from_wide. by rewrite to_wide_items, Hb. Qed.

Lemma from_encode_wide s : wtf8 s -> from_wide (encode_wide s) = s.
Proof. intros (us & Hu & ->). by rewrite encode_from_wide. Qed.

(** A name that a block can hold: not empty, and no [=] after its first unit. *)
Definition name_ok (k : bytes) : Prop := wtf8 k /\ exists u t, encode_wide k = u :: t /\ 61 ∉ t.

Definition entry_ok (kv : bytes * bytes) : Prop := name_ok kv.1 /\ wtf8 kv.2.

Lemma entry_var_spec k v : entry_ok (k, v) -> entry_var (encode_wide k ++ [61] ++ encode_wide v) = Some (k, v).
Proof.
  intros [[Hk (u & t & Hu & Ht)] Hv]. cbn in *. rewrite Hu. cbn [entry_var app].
  rewrite position_app; [|done|apply Forall_forall; intros x Hx; apply Z.eqb_neq; by intros ->].
  cbn [mbind option_bind]. cbv zeta. change (S (length t)) with (length (u :: t)) at 1.
  change (u :: t ++ 61 :: encode_wide v) with ((u :: t) ++ 61 :: encode_wide v).
  rewrite take_app_length. assert (from_wide (u :: t) = k) as -> by (rewrite <- Hu; by apply from_encode_wide). cbn [drop app]. rewrite drop_app_ge by lia.
  replace (S (length t) - length t)%nat with 1%nat by lia. change (drop 1 (61 :: encode_wide v)) with (drop 0 (encode_wide v)). by rewrite drop_0, from_encode_wide.
Qed.

Lemma ensure_no_nul_Ok s : ensure_no_nul_wide s = Ok tt <-> 0 ∉ encode_wide s.
Proof. unfold ensure_no_nul_wide. case_bool_decide; naive_solver. Qed.

Lemma ensure_no_nul_Err s e : ensure_no_nul_wide s = Err e -> e = Io (of_kind InvalidInput) /\ 0 ∈ encode_wide s.
Proof. unfold ensure_no_nul_wide. case_bool_decide; naive_solver. Qed.

Lemma entries_cons_Ok k v m b :
  entries ((k, v) :: m) = Ok b ->
  0 ∉ encode_wide k /\ 0 ∉ encode_wide v /\
  exists b', entries m = Ok b' /\ b = (encode_wide k ++ [61] ++ encode_wide v) ++ 0 :: b'.
Proof.
  cbn [entries]. destruct (ensure_no_nul_wide k) as [[]|] eqn:Ek; [|done].
  destruct (ensure_no_nul_wide v) as [[]|] eqn:Ev; [|done]. apply ensure_no_nul_Ok in Ek, Ev.
  destruct (entries m) as [b'|]; [|done]. intros [= <-]. split; [done|]. split; [done|]. exists b'. split; [done|].
  by rewrite <- !app_assoc.
Qed.

Lemma entry_free k v : 0 ∉ encode_wide k -> 0 ∉ encode_wide v -> free (fun u => u =? 0) (encode_wide k ++ [61] ++ encode_wide v).
Proof.
  intros Hk Hv. apply Forall_forall. intros u Hu. apply Z.eqb_neq. intros ->. apply elem_of_app in Hu as [|Hu]; [done|].
  cbn in Hu. apply elem_of_cons in Hu as [|]; done.
Qed.

Lemma entries_read m b :
  Forall entry_ok m -> entries m = Ok b ->
  omap entry_var (filter (fun e => e <> []) (split_on (fun u => u =? 0) b)) = m.
Proof.
  intros Hm. revert b. induction Hm as [|[k v] m Hkv Hm IH]; intros b.
  { intros [= <-]. cbn. done. }
  intros (Hk & Hv & b' & Hb & ->)%entries_cons_Ok. rewrite split_on_app, split_on_free by (done || by apply entry_free).
  pose proof (entry_var_spec k v Hkv) as He. set (e := encode_wide k ++ [61] ++ encode_wide v) in *.
  cbn [app]. rewrite filter_cons_True by (intros E; by rewrite E in He). cbn [omap list_omap]. rewrite He. f_equal. by apply IH.
Qed.

(** The offset of the end, in an entry or between two. *)
Lemma scan_entries m b rest :
  Forall entry_ok m -> entries m = Ok b -> scan false (b ++ 0 :: rest) = Some (length b).
Proof.
  intros Hm. revert b. induction Hm as [|[k v] m [[_ (u & t & Hu & _)] _] Hm IH]; intros b; [by intros [= <-]|].
  intros (Hk & Hv & b' & Hb & ->)%entries_cons_Ok. pose proof (entry_free k v Hk Hv) as Hf.
  assert (forall e, free (fun u => u =? 0) e -> scan true ((e ++ 0 :: b') ++ 0 :: rest) = Some (length (e ++ 0 :: b'))) as Hin.
  { intros e He. induction He as [|x e Hx He IHe]; cbn; [by rewrite IH|]. by rewrite Hx, IHe. }
  cbn in Hu. rewrite Hu in Hf |- *. cbn [app] in Hf |- *. apply free_cons in Hf as [Hx Hf]. cbn [scan]. by rewrite Hx, (Hin _ Hf).
Qed.

Lemma scan_again b mem len junk : scan b mem = Some len -> scan b (take (len + 1) mem ++ junk) = Some len.
Proof.
  revert b len. induction mem as [|u mem IH]; intros b len; [done|]. cbn [scan].
  destruct (u =? 0) eqn:E; [destruct b|]; cbn.
  - destruct (scan false mem) as [n|] eqn:Es; [|done]. intros [= <-]. cbn. by rewrite E, (IH _ _ Es).
  - intros [= <-]. cbn. by rewrite E.
  - destruct (scan true mem) as [n|] eqn:Es; [|done]. intros [= <-]. cbn. by rewrite E, (IH _ _ Es).
Qed.

(** A captured block, read by the child as this process reads its own. *)
Lemma captured_block m blk junk :
  Forall entry_ok m -> into_block (Captured m) = Ok blk ->
  read (Ok (blk ++ junk)) (Ok tt) = Some (Ok blk) /\ vars blk = m.
Proof.
  intros Hm. cbn [into_block]. destruct (entries m) as [b|] eqn:Eb; [|done]. intros [= <-].
  destruct m as [|kv m]; [injection Eb as <-; by split|]. rewrite bool_decide_false by done. cbn [app].
  pose proof (scan_entries _ _ junk Hm Eb) as Hs.
  assert (b <> []) as Hb.
  { intros ->. destruct kv. apply entries_cons_Ok in Eb as (_ & _ & b' & _ & E). symmetry in E. by apply app_eq_nil in E as [_ E]. }
  split.
  - unfold read. rewrite <- app_assoc. cbn [app]. rewrite Hs. cbn [mbind option_bind]. f_equal. f_equal.
    rewrite take_app_add. cbn [take].
    unfold from_block. rewrite bool_decide_false; [done|]. rewrite length_app. cbn. destruct b; [done|]. cbn. lia.
  - unfold vars. rewrite removelast_last. by apply entries_read.
Qed.

Lemma scan_lt b mem len : scan b mem = Some len -> (len < length mem)%nat.
Proof.
  revert b len. induction mem as [|u mem IH]; intros b len; [done|]. cbn [scan length].
  destruct (u =? 0); [destruct b|]; [|intros [= <-]; lia|];
    (destruct (scan _ mem) as [n|] eqn:Es; [|done]); intros [= <-]; apply IH in Es; lia.
Qed.

Lemma snapshot_again mem snapshot junk :
  read (Ok mem) (Ok tt) = Some (Ok snapshot) -> read (Ok (snapshot ++ junk)) (Ok tt) = Some (Ok snapshot).
Proof.
  unfold read. destruct (scan false mem) as [len|] eqn:E; [|done]. cbn [mbind option_bind]. intros [= <-].
  pose proof (scan_lt _ _ _ E) as Hl. assert (length (take (len + 1) mem) = len + 1)%nat as Ht by (rewrite length_take; lia).
  unfold from_block. rewrite Ht. case_bool_decide as H1.
  - assert (len = O) as -> by lia. destruct mem as [|u mem]; [done|]. cbn in E.
    destruct (Z.eqb_spec u 0) as [->|]; [done|]. by destruct (scan true mem).
  - rewrite (scan_again _ _ _ junk E). cbn [mbind option_bind]. rewrite take_app_length' by done.
    by rewrite Ht, bool_decide_false.
Qed.

Lemma var_captured blk m name :
  vars blk = m -> var CompareStringOrdinal blk name = snd <$> at_key (rank name) m.
Proof.
  unfold var. intros ->. induction m as [|[k v] m IH]; [done|]. rewrite at_rank_cons. cbn [find_map fst snd].
  rewrite key_eqb_rank. by case_bool_decide; case_decide.
Qed.

(** The entries of a snapshot. *)
Lemma vars_ok block : Forall is_u16 block -> Forall (fun kv => entry_ok kv /\ 0 ∉ encode_wide kv.1 /\ 0 ∉ encode_wide kv.2) (vars block).
Proof.
  intros Hu. unfold vars. set (b := removelast block).
  assert (Forall is_u16 b) as Hb by (unfold b; rewrite removelast_firstn_len; by apply Forall_take).
  apply Forall_forall. intros [k v] Hkv. apply list_elem_of_omap in Hkv as (e & He & Hkv).
  apply list_elem_of_filter in He as [_ He]. pose proof (split_on_pieces (fun u => u =? 0) b) as Hp.
  assert (Forall is_u16 e) as Heu.
  { pose proof (split_on_Forall is_u16 (fun u => u =? 0) b Hb) as H. rewrite Forall_forall in H. by apply H. }
  assert (0 ∉ e) as Hz.
  { rewrite Forall_forall in Hp. specialize (Hp e He). unfold free in Hp. rewrite Forall_forall in Hp. by intros ?%Hp. }
  destruct e as [|u t]; [done|]. cbn [entry_var] in Hkv. destruct (position _ t) as [i|] eqn:Ei; [|done].
  apply position_Some in Ei as (l1 & x & l2 & -> & <- & Hx%Z.eqb_eq & Hf). subst x.
  cbn [mbind option_bind drop take] in Hkv. cbv zeta in Hkv. rewrite take_app_length in Hkv.
  rewrite drop_app_ge in Hkv by lia. replace (S (length l1) - length l1)%nat with 1%nat in Hkv by lia.
  change (drop 1 (61 :: l2)) with (drop 0 l2) in Hkv. rewrite drop_0 in Hkv. injection Hkv as <- <-.
  change (u :: l1 ++ 61 :: l2) with ((u :: l1) ++ 61 :: l2) in Heu, Hz. apply Forall_app in Heu as [Hu1 Hu2].
  inversion_clear Hu2 as [|? ? _ Hu2']. apply not_elem_of_app in Hz as [Hz1 [_ Hz2]%not_elem_of_cons]. unfold entry_ok, name_ok. cbn [fst snd].
  rewrite !encode_from_wide by done. split_and!; [by exists (u :: l1)|exists u, l1; split; [done|]|by exists l2|done|done].
  unfold free in Hf. rewrite Forall_forall in Hf. by intros ?%Hf.
Qed.

(** Where the entries of a captured block come from. *)
Definition from_sources (base : list (bytes * bytes)) (ops : list EnvOp) (Pk Pv : bytes -> Prop) : Prop :=
  Forall (fun kv : bytes * bytes => Pk kv.1 /\ Pv kv.2) base /\
  Forall (fun op => from_option Pk True (op_key op) /\ from_option Pv True (op_val op)) ops.

Lemma key_insert_Forall {V} (Pk : bytes -> Prop) (Pv : V -> Prop) k v (m : list (bytes * V)) :
  Forall (fun kv => Pk kv.1 /\ Pv kv.2) m -> Pk k -> Pv v ->
  Forall (fun kv => Pk kv.1 /\ Pv kv.2) (bt_insert kcmp k v m).
Proof.
  intros Hm Hk Hv. rewrite (bt_insert_ext _ _ _ _ _ key_cmp_rank). apply bt_insert_Forall; [done|]. cbn.
  intros k' [->|[w Hw]]; [done|]. rewrite Forall_forall in Hm. split; [|done]. apply (Hm _ Hw).
Qed.

Lemma key_remove_Forall {V} (P : bytes * V -> Prop) k m : Forall P m -> Forall P (bt_remove kcmp k m).
Proof. intros H. rewrite (bt_remove_ext _ _ _ _ key_cmp_rank). by apply bt_remove_Forall. Qed.

Lemma captured_sources base ops Pk Pv :
  from_sources base ops Pk Pv ->
  Forall (fun kv : bytes * bytes => Pk kv.1 /\ Pv kv.2) (captured CompareStringOrdinal base ops).
Proof.
  intros [Hb Ho]. unfold captured.
  assert (Forall (fun kc : bytes * option bytes => Pk kc.1 /\ from_option Pv True kc.2) (changes (recorded ops))) as Hc.
  { induction ops as [|op ops IH] using rev_ind; [constructor|]. apply Forall_app in Ho as [Ho [Hk Hv]%Forall_singleton].
    specialize (IH Ho). rewrite recorded_snoc. destruct op; cbn in *; [by apply key_insert_Forall| |constructor].
    destruct (cleared _); [by apply key_remove_Forall|by apply key_insert_Forall]. }
  assert (Forall (fun kv : bytes * bytes => Pk kv.1 /\ Pv kv.2) (if existsb is_clear ops then [] else collect CompareStringOrdinal base)) as Hm.
  { destruct (existsb _ _); [constructor|]. clear Hc Ho. induction base as [|kv base IH] using rev_ind; [constructor|].
    apply Forall_app in Hb as [Hb [Hk Hv]%Forall_singleton]. rewrite collect_snoc. apply key_insert_Forall; auto. }
  unfold merge. revert Hm. generalize (if existsb is_clear ops then [] else collect CompareStringOrdinal base).
  induction Hc as [|[k [v|]] cs [Hk Hv] _ IH]; intros m Hm; cbn; [done|..]; apply IH; cbn in *.
  - by apply key_insert_Forall.
  - by apply key_remove_Forall.
Qed.

(** A block is refused for a NUL in one of its entries, and for nothing else. *)
Lemma into_block_refused m :
  match into_block (Captured m) with
  | Ok _ => Forall (fun kv => 0 ∉ encode_wide kv.1 /\ 0 ∉ encode_wide kv.2) m
  | Err e => e = Io (of_kind InvalidInput) /\ Exists (fun kv => 0 ∈ encode_wide kv.1 \/ 0 ∈ encode_wide kv.2) m
  end.
Proof.
  cbn [into_block]. assert (match entries m with
    | Ok _ => Forall (fun kv => 0 ∉ encode_wide kv.1 /\ 0 ∉ encode_wide kv.2) m
    | Err e => e = Io (of_kind InvalidInput) /\ Exists (fun kv => 0 ∈ encode_wide kv.1 \/ 0 ∈ encode_wide kv.2) m end) as H.
  { induction m as [|[k v] m IH]; [constructor|]. cbn [entries].
    destruct (ensure_no_nul_wide k) as [[]|] eqn:Ek.
    2: { apply ensure_no_nul_Err in Ek as [-> H]. split; [done|]. apply Exists_cons_hd. by left. }
    destruct (ensure_no_nul_wide v) as [[]|] eqn:Ev.
    2: { apply ensure_no_nul_Err in Ev as [-> H]. split; [done|]. apply Exists_cons_hd. by right. }
    apply ensure_no_nul_Ok in Ek, Ev. destruct (entries m); [by constructor|]. destruct IH as [-> H]. split; [done|].
    by apply Exists_cons_tl. }
  by destruct (entries m).
Qed.

(** An operation std takes: its name can stand in a block. *)
Definition op_ok (op : EnvOp) : Prop := from_option name_ok True (op_key op) /\ from_option wtf8 True (op_val op).

Definition op_nul (op : EnvOp) : Prop :=
  from_option (fun k => 0 ∈ encode_wide k) False (op_key op) \/ from_option (fun v => 0 ∈ encode_wide v) False (op_val op).

Lemma nested_env_ok : op_ok (EnvSet NESTED_ENV (bs "1")) /\ ~ op_nul (EnvSet NESTED_ENV (bs "1")).
Proof.
  assert (NESTED_ENV = from_wide NESTED_ENV /\ encode_wide NESTED_ENV = NESTED_ENV) as [Hw He] by (split; vm_compute; reflexivity).
  assert (bs "1" = from_wide (bs "1") /\ encode_wide (bs "1") = bs "1") as [Hw1 He1] by (split; vm_compute; reflexivity).
  assert (Forall is_u16 NESTED_ENV /\ Forall is_u16 (bs "1")) as [Hu Hu1] by (split; repeat constructor; unfold is_u16; cbn; lia).
  split.
  - change (name_ok NESTED_ENV /\ wtf8 (bs "1")). split; [split; [by exists NESTED_ENV|]|by exists (bs "1")].
    rewrite He. exists 95, (drop 1 NESTED_ENV). split; [done|]. apply (bool_decide_unpack _). by vm_compute.
  - change (~ (0 ∈ encode_wide NESTED_ENV \/ 0 ∈ encode_wide (bs "1"))). rewrite He, He1.
    apply (bool_decide_unpack _). by vm_compute.
Qed.

Lemma child_ops_ok ops b : Forall op_ok ops -> Forall op_ok (child_ops ops b).
Proof. intros H. destruct b; [|done]. cbn. apply Forall_app. split; [done|]. constructor; [apply nested_env_ok|constructor]. Qed.

Lemma captured_entry_ok snapshot ops :
  Forall is_u16 snapshot -> Forall op_ok ops -> Forall entry_ok (captured CompareStringOrdinal (vars snapshot) ops).
Proof.
  intros Hs Ho. apply (captured_sources _ _ name_ok wtf8). split; [|done].
  eapply Forall_impl; [by apply vars_ok|]. by intros kv [H _].
Qed.

Lemma captured_nul snapshot ops b :
  Forall is_u16 snapshot ->
  Exists (fun kv => 0 ∈ encode_wide kv.1 \/ 0 ∈ encode_wide kv.2) (captured CompareStringOrdinal (vars snapshot) (child_ops ops b)) ->
  Exists op_nul ops.
Proof.
  intros Hs H. pose (clean := fun s : bytes => 0 ∉ encode_wide s \/ Exists op_nul ops).
  pose proof (captured_sources (vars snapshot) (child_ops ops b) clean clean) as Hc.
  apply Exists_exists in H as ([k v] & Hin & Hn).
  enough (from_sources (vars snapshot) (child_ops ops b) clean clean) as Hsrc.
  { specialize (Hc Hsrc). rewrite Forall_forall in Hc. specialize (Hc _ Hin). unfold clean in Hc. cbn in *. tauto. }
  assert (Forall (fun op => from_option clean True (op_key op) /\ from_option clean True (op_val op)) ops) as Ho.
  { apply Forall_forall. intros op Hop. unfold clean. assert (op_nul op -> Exists op_nul ops) as He by (intros; apply Exists_exists; eauto).
    unfold op_nul in He. destruct op as [k' v'|k'|]; cbn in *; [| |done];
      destruct (decide (0 ∈ encode_wide k')); try destruct (decide (0 ∈ encode_wide v')); tauto. }
  split; [eapply Forall_impl; [by apply vars_ok|]; intros kv (_ & ? & ?); unfold clean; tauto|].
  destruct b; [|done]. cbn. apply Forall_app. split; [done|]. constructor; [|constructor].
  destruct nested_env_ok as [_ H].
  split; left; intros H0; apply H; [by left|by right].
Qed.

Lemma final_entry_set base ops k v : snd <$> final_entry (rank k) base (ops ++ [EnvSet k v]) = Some v.
Proof.
  unfold final_entry. rewrite after_clear_snoc. cbn [is_clear].
  destruct (after_clear ops) as [l|]; cbn [fmap option_fmap option_map]; rewrite on_snoc; cbn [op_key];
    rewrite decide_True by done; rewrite last_snoc, ?after_remove_snoc; cbn [is_remove]; rewrite omap_app; cbn.
  - by destruct (omap op_key (after_remove _)).
  - by destruct (filter _ base) as [|[] ?]; [destruct (omap op_key (on _ ops))|].
Qed.

(** What a captured environment gives its child. *)
Lemma captured_child ops own junk b blk :
  Forall is_u16 own -> Forall op_ok ops ->
  into_block (Captured (captured CompareStringOrdinal (vars own) (child_ops ops b))) = Ok blk ->
  read (Ok (blk ++ junk)) (Ok tt) = Some (Ok blk) /\
  forall name, var CompareStringOrdinal blk name = snd <$> final_entry (rank name) (vars own) (child_ops ops b).
Proof.
  intros Hu Ho Hb. destruct (captured_block _ _ junk (captured_entry_ok own _ Hu (child_ops_ok _ b Ho)) Hb) as [Hr Hv].
  split; [done|]. intros name. by rewrite (var_captured _ _ _ Hv), captured_at.
Qed.

Lemma capture_path base ops : path CompareStringOrdinal (Captured (captured CompareStringOrdinal base ops)) = snd <$> final_entry (rank PATH) base ops.
Proof. cbn [path]. by rewrite key_get_at, captured_at by apply captured_sorted. Qed.

(** A spawn with a captured environment. *)
Lemma capture_spawn cmd own junk mark root :
  Forall is_u16 own -> Forall op_ok (env_ops cmd) ->
  let ops := child_ops (env_ops cmd) mark in
  match (let? blk := into_block (capture CompareStringOrdinal own ops) in
         Ok (spawn_env_ own (path CompareStringOrdinal (capture CompareStringOrdinal own ops)) blk root mark)) with
  | Err e => e = Io (of_kind InvalidInput) /\ Exists op_nul (env_ops cmd)
  | Ok se =>
      read (Ok (block se ++ junk)) (Ok tt) = Some (Ok (block se)) /\
      se_path se = var CompareStringOrdinal (block se) PATH /\
      (forall name, var CompareStringOrdinal (block se) name = snd <$> final_entry (rank name) (vars own) ops) /\
      (mark = true -> var CompareStringOrdinal (block se) NESTED_ENV = Some (bs "1"))
  end.
Proof.
  intros Hu Ho ops. unfold capture. pose proof (into_block_refused (captured CompareStringOrdinal (vars own) ops)) as Hn.
  destruct (into_block _) as [blk|e] eqn:Eb; [|destruct Hn as [-> Hn]; split; [done|by eapply captured_nul]].
  cbn [marker_env is_root block se_path]. destruct (captured_child _ _ junk _ _ Hu Ho Eb) as [Hrd Hvar].
  split; [done|]. split; [by rewrite capture_path, Hvar|]. split; [done|].
  intros Hm. rewrite Hvar. unfold child_ops. rewrite Hm. apply final_entry_set.
Qed.

(** * Properties *)

(** The environment of a command is what its operations say, variable by variable, names compared as
    the system compares them. A variable last set has that value, one last removed is gone, and one that
    no operation names, or none since the last clear, is the process's own, its last value, or gone.
    Its spelling is the first the process has for it, else that of the first operation on it; after a
    clear, that of the first setting since its last removal. No two entries are one variable and the
    entries are in the order the system asks for. *)
Theorem captured_env base ops :
  StronglySorted (entry_lt rank ordinal) (captured CompareStringOrdinal base ops) /\
  forall f, at_key f (captured CompareStringOrdinal base ops) = final_entry f base ops.
Proof. split; [apply captured_sorted|intros f; apply captured_at]. Qed.

(** A raw spawn decides on the very environment its child reads. The block handed over reads back
    whole; each variable in it has the value the operations give, and with nothing to change and nothing
    to contain it is the process's own block, verbatim; the PATH searched is the PATH read there; the
    spawn is a root exactly when this process is not contained already, and a marked root's child reads
    the marker whatever the command cleared. It is refused only for a NUL the command put in. *)
Theorem child_reads_env cmd mem own junk :
  read (Ok mem) (Ok tt) = Some (Ok own) -> Forall is_u16 own -> Forall op_ok (env_ops cmd) ->
  match spawn_env CompareStringOrdinal cmd own with
  | Err e => e = Io (of_kind InvalidInput) /\ Exists op_nul (env_ops cmd)
  | Ok se =>
      let ops := child_ops (env_ops cmd) (marker_env se) in
      read (Ok (block se ++ junk)) (Ok tt) = Some (Ok (block se)) /\
      se_path se = var CompareStringOrdinal (block se) PATH /\
      (ops = [] -> mode (contain cmd) = None -> block se = own) /\
      (ops <> [] \/ mode (contain cmd) <> None ->
       forall name, var CompareStringOrdinal (block se) name = snd <$> final_entry (rank name) (vars own) ops) /\
      (is_root se = true <-> var CompareStringOrdinal own NESTED_ENV = None) /\
      (marker_env se = true <-> mode (contain cmd) <> None /\ nesting (contain cmd) = Mark /\ is_root se = true) /\
      (marker_env se = true -> var CompareStringOrdinal (block se) NESTED_ENV = Some (bs "1"))
  end.
Proof.
  intros Hr Hu Ho. unfold spawn_env. set (present := bool_decide (is_Some (var _ own NESTED_ENV))).
  set (root := negb (is_nested present)). set (mark := (windows_contain_setup (contain cmd) root).2).
  assert (root = true <-> var CompareStringOrdinal own NESTED_ENV = None) as Hroot.
  { unfold root, is_nested, present. rewrite negb_true_iff, bool_decide_eq_false. by rewrite <- eq_None_not_Some. }
  assert (mark = true <-> mode (contain cmd) <> None /\ nesting (contain cmd) = Mark /\ root = true) as Hmark.
  { unfold mark, windows_contain_setup. destruct (mode (contain cmd)); cbn; [|naive_solver].
    rewrite andb_true_iff, bool_decide_eq_true. naive_solver. }
  pose proof (capture_spawn cmd own junk mark root Hu Ho) as Hcap. cbv zeta in Hcap. unfold child_env.
  destruct (bool_decide (child_ops (env_ops cmd) mark = []) && bool_decide (mode (contain cmd) = None)) eqn:Ei.
  - apply andb_true_iff in Ei as [Hops%bool_decide_eq_true Hmode%bool_decide_eq_true].
    cbn [into_block inherit path se_path block marker_env is_root]. cbv zeta. cbn [se_path block marker_env is_root].
    split; [by eapply snapshot_again|]. split; [done|]. split; [done|]. split; [naive_solver|]. split; [done|]. split; [done|].
    intros Hm. apply Hmark in Hm as [Hm _]. done.
  - apply andb_false_iff in Ei. rewrite !bool_decide_eq_false in Ei.
    destruct (into_block _) as [blk|e]; [|done]. cbn [marker_env is_root block se_path] in *. cbv zeta.
    destruct Hcap as (Hrd & Hp & Hvar & Hm). split; [done|]. split; [done|]. split; [tauto|]. by split.
Qed.

End Documented.

(** A system that upcases ASCII. *)
Definition demo_upcase (u : Z) : Z := if within 97 122 u then u - 32 else u.

Definition demo_compare (a b : list Z) : comparison := lex_compare Z.compare (demo_upcase <$> a) (demo_upcase <$> b).

Definition demo_env : list Z := bs "Path=C:\w" ++ [0] ++ bs "X=1" ++ [0; 0].

Lemma captured_env_witness :
  captured demo_compare (vars demo_env) [EnvSet (bs "PATH") (bs "D:"); Remove (bs "x"); EnvSet (bs "a") (bs "2")] =
    [(bs "a", bs "2"); (bs "Path", bs "D:")] /\
  at_rank (rank demo_upcase) (bs "PATH")
    (captured demo_compare (vars demo_env) [EnvSet (bs "PATH") (bs "D:"); Remove (bs "x"); EnvSet (bs "a") (bs "2")]) =
    Some (bs "Path", bs "D:").
Proof. split; [by vm_compute|]. rewrite (proj2 (captured_env demo_compare demo_upcase (fun _ _ _ _ => eq_refl) _ _)). by vm_compute. Defined.

Definition demo_contained : Command := contain_strongest (env_clear Command_default).

Lemma child_reads_env_witness :
  match spawn_env demo_compare demo_contained demo_env with
  | Ok se => var demo_compare (block se) NESTED_ENV = Some (bs "1") /\ var demo_compare (block se) PATH = None
  | Err _ => False
  end.
Proof.
  pose proof (child_reads_env demo_compare demo_upcase (fun _ _ _ _ => eq_refl) demo_contained demo_env demo_env []) as H.
  destruct (spawn_env demo_compare demo_contained demo_env) as [se|e] eqn:E; [|by vm_compute in E].
  destruct H as (_ & Hp & _ & _ & _ & _ & Hm).
  - by vm_compute.
  - apply (bool_decide_unpack _). by vm_compute.
  - by repeat constructor.
  - rewrite <- Hp. split; [apply Hm|]; vm_compute in E; by injection E as <-.
Defined.
