(* ===== verification/CrtFds.v ===== *)
(** The descriptor table a Windows child's C runtime reads back: [src/child/spawn/windows_raw/crt_fds.rs]
    and what [windows_raw.rs] makes of it ([ensure_fd_table_fits], [build_fd_table], [startup_info]). A
    handle is its number, 0 the null one; the width of a pointer in bytes is a parameter. *)
From S2P Require Import Prelude Numbers IoErrors CrateError.
From stdpp Require Import gmap fin_maps.
Local Open Scope Z_scope.

Definition FOPEN : Z := 0x01.

Definition FPIPE : Z := 0x08.

Definition FDEV : Z := 0x40.

Inductive FdKind := KPipe | KFile | KCharDev.

#[export] Instance FdKind_eq_dec : EqDecision FdKind.
Proof. solve_decision. Defined.

Record FdTable := fd_table { table_bytes : list Z; handles : list Z }.

Definition FILE_TYPE_DISK : Z := 1.

Definition FILE_TYPE_CHAR : Z := 2.

Definition FILE_TYPE_PIPE : Z := 3.

(** [classify]: what [GetFileType] answers, and the last error it leaves from none. *)
Definition classify (file_type last_error : Z) : result Error FdKind :=
  if file_type =? FILE_TYPE_PIPE then Ok KPipe
  else if file_type =? FILE_TYPE_CHAR then Ok KCharDev
  else if file_type =? FILE_TYPE_DISK then Ok KFile
  else if last_error =? 0 then Ok KFile
  else Err (Io (from_raw_os_error last_error)).

Definition present_flag (kind : FdKind) : Z :=
  Z.lor FOPEN (match kind with KPipe => FPIPE | KCharDev => FDEV | KFile => 0 end).

Definition U16_MAX : Z := 2 ^ 16 - 1.

Definition table_fits (byte_len : Z) : bool := byte_len <=? U16_MAX.

Section Pointer.
  (** [size_of::<HANDLE>()], which is [usize]'s width too. *)
  Variable HANDLE_SIZE : nat.

Definition usize_max : Z := 2 ^ (8 * Z.of_nat HANDLE_SIZE) - 1.

Definition checked (n : Z) : option Z := if n <=? usize_max then Some n else None.

Definition encoded_len (maxfd : Z) : Z :=
  match (m ← (if maxfd <? 0 then None else checked maxfd);
         n ← checked (m + 1);
         x ← checked (n * (1 + Z.of_nat HANDLE_SIZE));
         checked (x + 4)) with
  | Some len => if table_fits len then len else usize_max
  | None => usize_max
  end.

Definition INVALID_HANDLE_VALUE : Z := usize_max.

(** [keys().next_back().map_or(-1, ..)], and [max().unwrap_or(2)]. *)
Definition last_key {A} (none : Z) (m : gmap Z A) : Z :=
  match fst <$> map_to_list m with [] => none | k :: ks => foldr Z.max k ks end.

Definition encode (entries : gmap Z (Z * FdKind)) : FdTable :=
  let n := Z.to_nat (last_key (-1) entries + 1) in
  let slots := (fun i => entries !! Z.of_nat i) <$> seq 0 n in
  fd_table
    (le_bytes 4 (Z.of_nat n) ++
     ((fun e => match e with Some (_, kind) => present_flag kind | None => 0 end) <$> slots) ++
     (slots ≫= fun e => le_bytes HANDLE_SIZE (match e with Some (h, _) => h | None => INVALID_HANDLE_VALUE end)))
    (omap (fun e => fst <$> e) slots).

(** * [windows_raw.rs] *)

(** The largest configured slot; 0, 1 and 2 always resolve. *)
Definition ensure_fd_table_fits {A} (fds : gmap Z A) : result Error unit :=
  if negb (table_fits (encoded_len (last_key 2 fds))) then Err EUnsupported else Ok tt.

(** The kinds of the ends that are not null, in slot order; the first that cannot be told fails. *)
Fixpoint classify_ends (kind_of : Z -> result Error FdKind) (ends : list (Z * Z)) : result Error (gmap Z (Z * FdKind)) :=
  match ends with
  | [] => Ok ∅
  | (slot, h) :: rest =>
      if h =? 0 then classify_ends kind_of rest
      else
        let? kind := kind_of h in
        let? entries := classify_ends kind_of rest in
        Ok (<[slot := (h, kind)]> entries)
  end.

Definition build_fd_table (kind_of : Z -> result Error FdKind) (ends : list (Z * Z)) : result Error FdTable :=
  let? entries := classify_ends kind_of ends in Ok (encode entries).

(** What a [STARTUPINFOEXW] says: the std handles when [STARTF_USESTDHANDLES] is set, the table and its
    16-bit length, and the HANDLE_LIST when there is one. *)
Record Startup := startup {
  std_handles : option (Z * Z * Z); cbReserved2 : Z; lpReserved2 : list Z; handle_list : option (list Z) }.

(** [startup_info]: [null_end] opens the filler and [attribute_list] builds the list. *)
Definition startup_info (stdin stdout stderr : Z) (table : FdTable) (any_live : bool)
    (null_end : result Error Z) (attribute_list : list Z -> result Error unit) : result Error Startup :=
  let flagged := negb (stdin =? 0) || negb (stdout =? 0) || negb (stderr =? 0) || any_live in
  let? listed :=
    (if flagged && bool_decide (handles table = []) then let? nul := null_end in Ok [nul] else Ok (handles table)) in
  let? attr := (if bool_decide (listed = []) then Ok None else let? _ := attribute_list listed in Ok (Some listed)) in
  Ok (startup (if flagged then Some (stdin, stdout, stderr) else None)
        (Z.of_nat (length (table_bytes table)) mod 2 ^ 16) (table_bytes table) attr).

(** * What the child's runtime reads

    The count, then a flag byte per slot, then a handle per slot. *)

Definition crt_count (b : list Z) : Z := from_le (take 4 b).

Definition crt_slot (b : list Z) (i : nat) : option (Z * Z) :=
  if bool_decide (Z.of_nat i < crt_count b) then
    flag ← b !! (4 + i)%nat;
    Some (flag, from_le (take HANDLE_SIZE (drop (4 + Z.to_nat (crt_count b) + i * HANDLE_SIZE) b)))
  else None.

(** * Lemmas *)

Lemma foldr_max_ge k ks : Forall (fun x => x <= foldr Z.max k ks) (k :: ks) /\ foldr Z.max k ks ∈ k :: ks.
Proof.
  induction ks as [|x ks [IH1 IH2]]; cbn.
  { split; [constructor; [lia|constructor]|by left]. }
  apply Forall_cons in IH1 as [Hk Hks]. split.
  - constructor; [lia|]. constructor; [lia|]. eapply Forall_impl; [exact Hks|]. cbn. intros; lia.
  - apply elem_of_cons in IH2 as [->|IH2].
    + destruct (Z.max_spec x k) as [[_ ->]|[_ ->]]; [by left|right; by left].
    + destruct (Z.max_spec x (foldr Z.max k ks)) as [[_ ->]|[_ ->]]; [right; by right|right; by left].
Qed.

Lemma last_key_spec {A} none (m : gmap Z A) :
  m = ∅ /\ last_key none m = none \/ is_Some (m !! last_key none m) /\ forall k, is_Some (m !! k) -> k <= last_key none m.
Proof.
  unfold last_key. destruct (map_to_list m) as [|[k a] l] eqn:E; [left; by apply map_to_list_empty_iff in E|right].
  cbn [fmap list_fmap fst]. destruct (foldr_max_ge k (fst <$> l)) as [Hge Hin].
  assert (forall k', is_Some (m !! k') <-> k' ∈ k :: (fst <$> l)) as Hdom.
  { intros k'. change (k :: (fst <$> l)) with (fst <$> (k, a) :: l). rewrite <- E, list_elem_of_fmap. split.
    - intros [x Hx]. exists (k', x). split; [done|]. by apply elem_of_map_to_list.
    - intros ([k'' x] & -> & Hx). apply elem_of_map_to_list in Hx. by exists x. }
  split; [by apply Hdom|]. intros k' Hk'. rewrite Forall_forall in Hge. apply Hge. by apply Hdom.
Qed.

Lemma lookup_bind_const {A B} (f : A -> list B) n l i :
  (forall x, length (f x) = n) -> take n (drop (i * n) (l ≫= f)) = from_option f [] (l !! i).
Proof.
  intros Hf. revert i. induction l as [|x l IH]; intros i; [cbn; by rewrite drop_nil, take_nil|]. cbn [mbind list_bind].
  destruct i as [|i]; cbn [lookup list_lookup].
  - rewrite drop_0, <- (Hf x). cbn. apply take_app_length.
  - rewrite drop_app_ge by (rewrite Hf; lia). rewrite Hf. replace (S i * n - n)%nat with (i * n)%nat by lia. apply IH.
Qed.


Hypothesis pointer_width : HANDLE_SIZE = 4%nat \/ HANDLE_SIZE = 8%nat.

Lemma usize_max_large : 2 ^ 31 < usize_max.
Proof. unfold usize_max. by destruct pointer_width as [->| ->]. Qed.

(** The length is exact, or the sentinel that does not fit. *)
Lemma encoded_len_fits maxfd :
  maxfd < 2 ^ 31 ->
  table_fits (encoded_len maxfd) = true <-> 0 <= maxfd /\ 4 + (maxfd + 1) * (1 + Z.of_nat HANDLE_SIZE) <= U16_MAX.
Proof.
  intros Hm. pose proof usize_max_large as Hu. unfold encoded_len, checked.
  assert (table_fits usize_max = false) as Hs by (apply Z.leb_gt; unfold U16_MAX; lia).
  assert (U16_MAX < usize_max) as Hw by (unfold U16_MAX; lia).
  destruct (Z.ltb_spec maxfd 0); cbn; [rewrite Hs; split; [done|lia]|].
  rewrite (proj2 (Z.leb_le maxfd usize_max)) by lia. cbn. rewrite (proj2 (Z.leb_le (maxfd + 1) usize_max)) by lia. cbn.
  set (x := (maxfd + 1) * (1 + Z.of_nat HANDLE_SIZE)). destruct (Z.leb_spec x usize_max); cbn; [|rewrite Hs; split; [done|lia]].
  destruct (Z.leb_spec (x + 4) usize_max); cbn; [|rewrite Hs; split; [done|lia]].
  destruct (table_fits (x + 4)) eqn:E; [rewrite E|rewrite Hs]; unfold table_fits in E;
    [apply Z.leb_le in E|apply Z.leb_gt in E]; split; intros; try done; lia.
Qed.

(** The slots of a table. *)
Definition slots_of (entries : gmap Z (Z * FdKind)) : nat := Z.to_nat (last_key (-1) entries + 1).

Definition entries_ok (entries : gmap Z (Z * FdKind)) : Prop :=
  map_Forall (fun slot hk => 0 <= slot < 2 ^ 31 /\ 0 <= hk.1 <= usize_max) entries.

Lemma length_bind_const {A B} (f : A -> list B) n l : (forall x, length (f x) = n) -> length (l ≫= f) = (length l * n)%nat.
Proof. intros Hf. induction l as [|x l IH]; [done|]. cbn. by rewrite length_app, Hf, IH. Qed.

Lemma encode_length entries :
  length (table_bytes (encode entries)) = (4 + slots_of entries * (1 + HANDLE_SIZE))%nat.
Proof.
  unfold encode. cbn [table_bytes]. fold (slots_of entries). rewrite !length_app, length_le_bytes, length_fmap.
  rewrite (length_bind_const _ HANDLE_SIZE) by (intros; apply length_le_bytes). rewrite length_fmap, length_seq. lia.
Qed.


Lemma slots_of_spec entries slot hk :
  entries_ok entries -> entries !! slot = Some hk -> exists i, slot = Z.of_nat i /\ (i < slots_of entries)%nat.
Proof.
  intros Hok He. destruct (last_key_spec (-1) entries) as [[-> _]|[_ Hge]]; [by rewrite lookup_empty in He|].
  specialize (Hge slot ltac:(by rewrite He)). destruct (Hok _ _ He) as [Hs _]. exists (Z.to_nat slot). unfold slots_of. lia.
Qed.

Lemma encode_slot entries i :
  entries_ok entries -> Z.of_nat (slots_of entries) <= 2 ^ 31 ->
  crt_slot (table_bytes (encode entries)) i =
  if bool_decide (i < slots_of entries)%nat then
    Some (match entries !! Z.of_nat i with Some (h, k) => (present_flag k, h) | None => (0, INVALID_HANDLE_VALUE) end)
  else None.
Proof.
  intros Hok Hn. set (n := slots_of entries) in *. unfold encode. cbn [table_bytes]. fold (slots_of entries). fold n.
  set (slots := (fun i => entries !! Z.of_nat i) <$> seq 0 n).
  set (flags := (fun e : option (Z * FdKind) => match e with Some (_, kind) => present_flag kind | None => 0 end) <$> slots).
  set (hbytes := slots ≫= _). assert (length slots = n) as Hl by (unfold slots; by rewrite length_fmap, length_seq).
  assert (crt_count (le_bytes 4 (Z.of_nat n) ++ flags ++ hbytes) = Z.of_nat n) as Hc.
  { unfold crt_count. rewrite take_app_length' by done. apply from_le_bytes. cbn. lia. }
  unfold crt_slot. rewrite Hc. rewrite (bool_decide_ext (Z.of_nat i < Z.of_nat n) (i < n)%nat) by lia.
  case_bool_decide as Hi; [|done]. assert (slots !! i = Some (entries !! Z.of_nat i)) as Hsi.
  { unfold slots. rewrite list_lookup_fmap, lookup_seq_lt by done. done. }
  rewrite lookup_app_r by (rewrite length_le_bytes; lia). rewrite length_le_bytes.
  replace (4 + i - 4)%nat with i by lia. rewrite lookup_app_l by (unfold flags; rewrite length_fmap; lia).
  assert (flags !! i = Some (match entries !! Z.of_nat i with Some (_, kind) => present_flag kind | None => 0 end)) as ->
    by (unfold flags; by rewrite list_lookup_fmap, Hsi).
  cbn [mbind option_bind].
  rewrite Nat2Z.id. rewrite app_assoc.
  rewrite drop_app_ge by (rewrite length_app, length_le_bytes; unfold flags; rewrite length_fmap; lia).
  rewrite length_app, length_le_bytes. unfold flags. rewrite length_fmap, Hl.
  replace (4 + n + i * HANDLE_SIZE - (4 + n))%nat with (i * HANDLE_SIZE)%nat by lia.
  unfold hbytes. rewrite lookup_bind_const by (intros; apply length_le_bytes). rewrite Hsi. cbn [from_option].
  assert (usize_max < 2 ^ (8 * Z.of_nat HANDLE_SIZE)) as Hu by (unfold usize_max; lia). pose proof usize_max_large.
  destruct (entries !! Z.of_nat i) as [[h k]|] eqn:Ee; rewrite from_le_bytes; try done.
  - destruct (Hok _ _ Ee) as [_ Hh]. cbn in Hh. lia.
  - unfold INVALID_HANDLE_VALUE. lia.
Qed.

Lemma encode_handles entries h :
  entries_ok entries -> h ∈ handles (encode entries) <-> exists slot kind, entries !! slot = Some (h, kind).
Proof.
  intros Hok. unfold encode. cbn [handles]. fold (slots_of entries). rewrite list_elem_of_omap. split.
  - intros (e & He & Hh). apply list_elem_of_fmap in He as (i & -> & _). destruct (entries !! Z.of_nat i) as [[h' k]|] eqn:E; [|done].
    injection Hh as <-. eauto.
  - intros (slot & kind & He). destruct (slots_of_spec _ _ _ Hok He) as (i & -> & Hi).
    exists (Some (h, kind)). split; [|done]. apply list_elem_of_fmap. exists i. split; [done|]. apply elem_of_seq. lia.
Qed.

Lemma classify_ends_spec kind_of ends entries :
  NoDup ends.*1 -> classify_ends kind_of ends = Ok entries ->
  forall slot h k, entries !! slot = Some (h, k) <-> (slot, h) ∈ ends /\ h <> 0 /\ kind_of h = Ok k.
Proof.
  revert entries. induction ends as [|[s h] ends IH]; intros entries Hnd.
  { intros [= <-] slot h k. rewrite lookup_empty. split; [done|]. by intros [?%not_elem_of_nil _]. }
  cbn in Hnd. apply NoDup_cons in Hnd as [Hs Hnd]. cbn [classify_ends]. destruct (Z.eqb_spec h 0) as [->|Hh].
  - intros Hc slot h' k. rewrite (IH _ Hnd Hc), elem_of_cons. split; [naive_solver|].
    intros [[[= -> ->]|?] ?]; naive_solver.
  - destruct (kind_of h) as [kind|] eqn:Ek; [|done]. destruct (classify_ends kind_of ends) as [m|] eqn:Ec; [|done].
    intros [= <-] slot h' k. specialize (IH _ Hnd eq_refl slot h' k). rewrite elem_of_cons.
    assert ((slot, h') ∈ ends -> slot <> s) as Hne.
    { intros Hin ->. apply Hs. by apply (list_elem_of_fmap_2' fst _ _ _ Hin). }
    destruct (decide (slot = s)) as [->|Hss].
    + rewrite lookup_insert_eq. split; [intros [= -> ->]; naive_solver|]. intros [[[= ->]|Hin] [_ Hk]]; [congruence|by destruct (Hne Hin)].
    + rewrite lookup_insert_ne, IH by done. naive_solver.
Qed.

Lemma classify_ends_kinds kind_of ends entries :
  classify_ends kind_of ends = Ok entries -> forall slot h, (slot, h) ∈ ends -> h <> 0 -> exists k, kind_of h = Ok k.
Proof.
  revert entries. induction ends as [|[s h] ends IH]; intros entries Hc slot h'; [by intros ?%not_elem_of_nil|].
  cbn [classify_ends] in Hc. intros [[= -> ->]|Hin]%elem_of_cons Hh.
  - rewrite (proj2 (Z.eqb_neq h 0)) in Hc by done. destruct (kind_of h); [by eexists|done].
  - destruct (h =? 0); [by eapply IH|]. destruct (kind_of h); [|done]. destruct (classify_ends kind_of ends) eqn:E; [|done]. by eapply IH.
Qed.

Lemma ends_slots kind_of ends entries :
  NoDup ends.*1 -> Forall (fun e => 0 <= e.1 < 2 ^ 31 /\ 0 <= e.2 <= usize_max) ends ->
  classify_ends kind_of ends = Ok entries -> entries_ok entries.
Proof.
  intros Hnd Hr Hc slot [h k] He. apply (classify_ends_spec _ _ _ Hnd Hc) in He as [Hin _].
  rewrite Forall_forall in Hr. exact (Hr _ Hin).
Qed.

(** A table of configured slots, once it is let through. *)
Lemma ensured_length {A} (fds : gmap Z A) entries :
  entries_ok entries -> map_Forall (fun slot _ => slot < 2 ^ 31) fds ->
  (forall slot, is_Some (entries !! slot) -> slot <= 2 \/ is_Some (fds !! slot)) ->
  ensure_fd_table_fits fds = Ok tt ->
  Z.of_nat (slots_of entries) <= 2 ^ 31 /\ Z.of_nat (length (table_bytes (encode entries))) <= U16_MAX.
Proof.
  intros Hok Hf Hsub. unfold ensure_fd_table_fits. destruct (table_fits _) eqn:E; [|done]. intros _.
  assert (last_key 2 fds < 2 ^ 31) as Hl.
  { destruct (last_key_spec 2 fds) as [[_ ->]|[[a Ha] _]]; [done|]. exact (Hf _ _ Ha). }
  apply encoded_len_fits in E as [H0 Hlen]; [|done]. rewrite encode_length.
  assert (Z.of_nat (slots_of entries) <= Z.max 3 (last_key 2 fds + 1)) as Hs.
  { unfold slots_of. destruct (last_key_spec (-1) entries) as [[_ ->]|[Hin _]]; [cbn; lia|]. destruct (Hsub _ Hin) as [|Hin']; [lia|].
    destruct (last_key_spec 2 fds) as [[-> _]|[_ Hge]]; [by rewrite lookup_empty in Hin'; destruct Hin'|].
    specialize (Hge _ Hin'). lia. }
  split; [lia|]. unfold U16_MAX in *. destruct pointer_width as [Hp|Hp]; rewrite Hp in *; lia.
Qed.

Lemma startup_info_Ok h0 h1 h2 table live null_end attr s :
  startup_info h0 h1 h2 table live null_end attr = Ok s ->
  let flagged := negb (h0 =? 0) || negb (h1 =? 0) || negb (h2 =? 0) || live in
  std_handles s = (if flagged then Some (h0, h1, h2) else None) /\ lpReserved2 s = table_bytes table /\
  cbReserved2 s = Z.of_nat (length (table_bytes table)) mod 2 ^ 16 /\
  match handle_list s with
  | Some l => l <> [] /\ (l = handles table \/ flagged = true /\ handles table = [] /\ exists nul, null_end = Ok nul /\ l = [nul])
  | None => flagged = false /\ handles table = []
  end.
Proof.
  unfold startup_info. set (flagged := _ || live). cbv zeta. case_bool_decide as Hh.
  - destruct flagged; cbn [andb].
    + destruct null_end as [nul|]; [|done]. rewrite bool_decide_false by done. destruct (attr [nul]); [|done].
      intros [= <-]. cbn. naive_solver.
    + rewrite Hh. intros [= <-]. cbn. done.
  - rewrite andb_false_r. rewrite bool_decide_false by done. destruct (attr (handles table)); [|done].
    intros [= <-]. cbn. naive_solver.
Qed.

(** * Properties *)

(** C35: every descriptor configured for the child reaches it. Once the slots are let through, the table
    fits the 16-bit length it is passed with, whatever the descriptor numbers; the child's runtime finds
    each end that is not null at its own slot, open and of its kind, and every other slot closed; exactly
    the handles of those ends are inherited, so none is open without being inherited; and the spawn never
    asks to inherit without saying what: the list is then never empty, one NUL handle when there is no end. *)
Theorem descriptors_reach_child {A} kind_of (fds : gmap Z A) ends table h0 h1 h2 live null_end attr s :
  NoDup ends.*1 -> Forall (fun e => 0 <= e.1 < 2 ^ 31 /\ 0 <= e.2 <= usize_max) ends ->
  map_Forall (fun slot _ => slot < 2 ^ 31) fds -> Forall (fun e => e.1 <= 2 \/ is_Some (fds !! e.1)) ends ->
  ensure_fd_table_fits fds = Ok tt -> build_fd_table kind_of ends = Ok table ->
  startup_info h0 h1 h2 table live null_end attr = Ok s ->
  cbReserved2 s = Z.of_nat (length (lpReserved2 s)) /\
  (forall slot h, (slot, h) ∈ ends -> h <> 0 ->
     (exists k, kind_of h = Ok k /\ crt_slot (lpReserved2 s) (Z.to_nat slot) = Some (present_flag k, h)) /\
     exists l, handle_list s = Some l /\ h ∈ l) /\
  (forall i f h, crt_slot (lpReserved2 s) i = Some (f, h) -> (Z.of_nat i, h) ∈ ends /\ h <> 0 \/ f = 0) /\
  (forall l, handle_list s = Some l ->
     l <> [] /\ ((forall h, h ∈ l -> h <> 0 /\ exists slot, (slot, h) ∈ ends) \/ exists nul, null_end = Ok nul /\ l = [nul])) /\
  (std_handles s = None <-> h0 = 0 /\ h1 = 0 /\ h2 = 0 /\ live = false) /\
  (std_handles s <> None -> std_handles s = Some (h0, h1, h2) /\ handle_list s <> None).
Proof.
  intros Hnd Hr Hf Hsub He. unfold build_fd_table. destruct (classify_ends kind_of ends) as [entries|] eqn:Ec; [|done].
  intros [= <-] Hs. pose proof (ends_slots _ _ _ Hnd Hr Ec) as Hok. pose proof (classify_ends_spec _ _ _ Hnd Ec) as Hin.
  destruct (ensured_length fds entries Hok Hf) as [Hn Hlen]; [|done|].
  { intros slot [[h k] Hx]. apply Hin in Hx as [Hx _]. rewrite Forall_forall in Hsub. exact (Hsub _ Hx). }
  apply startup_info_Ok in Hs as (Hstd & Hbytes & Hcb & Hlist). set (flagged := _ || live) in *.
  assert (forall h, h ∈ handles (encode entries) <-> exists slot k, (slot, h) ∈ ends /\ h <> 0 /\ kind_of h = Ok k) as Hhandles.
  { intros h. rewrite (encode_handles _ _ Hok). split; intros (slot & k & Hx); exists slot, k; by apply Hin. }
  rewrite Hbytes. split; [rewrite Hcb; apply Z.mod_small; unfold U16_MAX in Hlen; lia|]. split.
  { intros slot h Hx Hh. destruct (classify_ends_kinds _ _ _ Ec _ _ Hx Hh) as [k Hk]. split.
    - exists k. split; [done|]. assert (entries !! slot = Some (h, k)) as Hxe by (by apply Hin).
      destruct (slots_of_spec _ _ _ Hok Hxe) as (i & -> & Hi). rewrite Nat2Z.id, encode_slot, bool_decide_true, Hxe by done. done.
    - assert (h ∈ handles (encode entries)) as Hm by (apply Hhandles; eauto). destruct (handle_list s) as [l|].
      + exists l. split; [done|]. destruct Hlist as [_ [->|(_ & Hnil & _)]]; [done|]. rewrite Hnil in Hm. by apply not_elem_of_nil in Hm.
      + destruct Hlist as [_ Hnil]. rewrite Hnil in Hm. by apply not_elem_of_nil in Hm. }
  split.
  { intros i f h. rewrite encode_slot by done. case_bool_decide; [|done].
    destruct (entries !! Z.of_nat i) as [[h' k]|] eqn:Ei; [|intros [= <- _]; by right].
    intros [= _ <-]. left. by apply Hin in Ei as (? & ? & _). }
  split; [|split].
  - intros l Hl. rewrite Hl in Hlist. destruct Hlist as [Hne [->|(_ & _ & nul & Hn' & ->)]]; (split; [done|]); [left|right; eauto].
    intros h Hm. apply Hhandles in Hm as (slot & k & ? & ? & _). eauto.
  - rewrite Hstd. unfold flagged. destruct (Z.eqb_spec h0 0), (Z.eqb_spec h1 0), (Z.eqb_spec h2 0), live; cbn; naive_solver.
  - rewrite Hstd. destruct flagged; [|done]. intros _. split; [done|]. intros Hl. rewrite Hl in Hlist. by destruct Hlist.
Qed.

End Pointer.

Definition demo_ends : list (Z * Z) := [(0, 100); (1, 0); (2, 102); (5, 105)].

Definition demo_kind (h : Z) : result Error FdKind := if h =? 105 then Ok KPipe else Ok KFile.

Definition demo_slots : gmap Z unit := {[ 0 := (); 5 := () ]}.

Lemma descriptors_reach_child_witness :
  match build_fd_table 8 demo_kind demo_ends with
  | Ok table =>
      match startup_info 100 0 102 table true (Ok 7) (fun _ => Ok tt) with
      | Ok s => cbReserved2 s = 58 /\ crt_slot 8 (lpReserved2 s) 5 = Some (9, 105)
      | Err _ => False
      end
  | Err _ => False
  end.
Proof.
  destruct (build_fd_table 8 demo_kind demo_ends) as [table|] eqn:Et; [|by vm_compute in Et].
  destruct (startup_info 100 0 102 table true (Ok 7) (fun _ => Ok tt)) as [s|] eqn:Es.
  2: { vm_compute in Et. injection Et as <-. by vm_compute in Es. }
  destruct (descriptors_reach_child 8 ltac:(by right) demo_kind demo_slots demo_ends table 100 0 102 true (Ok 7) (fun _ => Ok tt) s)
    as (Hcb & Hslot & _); try done.
  - apply (bool_decide_unpack _). by vm_compute.
  - repeat constructor; vm_compute; done.
  - intros slot u Hu. assert (slot ∈ (map_to_list demo_slots).*1) as Hin
      by (apply list_elem_of_fmap; exists (slot, u); split; [done|by apply elem_of_map_to_list]).
    vm_compute in Hin. apply elem_of_cons in Hin as [->|Hin]; [done|]. by apply list_elem_of_singleton in Hin as ->.
  - apply (bool_decide_unpack _). by vm_compute.
  - split; [|destruct (Hslot 5 105) as [(k & Hk & Hs) _]; [apply (bool_decide_unpack _); by vm_compute|done|]].
    2: { etransitivity; [exact Hs|]. vm_compute in Hk. by injection Hk as <-. }
    rewrite Hcb. vm_compute in Et. injection Et as <-. vm_compute in Es. by injection Es as <-.
Defined.
