(* ===== verification/SpawnStdio.v ===== *)
(** The redirections of a spawn, [resolve_stdio] of [src/child/spawn.rs] with the ends it makes
    ([src/child/spawn/windows_child_end.rs] for the absent one of Windows). An end is its handle and
    the open file behind it; what opening, cloning and duplicating answer is an argument. *)
From S2P Require Import Prelude IoErrors CrateError Command.
From stdpp Require Import gmap sorting.
Local Open Scope Z_scope.

(** The open file behind an end: a slot's pipe has two. *)
Inductive Object :=
| NullDevice
| UserFile (f : Z)
| ParentStream (slot : Z)
| PipeReader (slot : Z)
| PipeWriter (slot : Z)
| Absent.

#[export] Instance Object_eq_dec : EqDecision Object.
Proof. solve_decision. Defined.

Record ChildEnd := child_end { handle : Z; object : Object }.

Inductive ParentEnd := Reader (h : Z) (object : Object) | Writer (h : Z) (object : Object).

Definition absent : ChildEnd := child_end 0 Absent.

Inductive PipeOwnership := Owned | Deferred.

#[export] Instance PipeOwnership_eq_dec : EqDecision PipeOwnership.
Proof. solve_decision. Defined.

Section System.
  (** [std::io::pipe] for a slot: the handles of its two ends; opening the null device; cloning a file;
      duplicating a handle for a slot; this process's std streams, [None] being a null handle. *)
  Context (pipe : Z -> result IoError (Z * Z)) (open_null : Z -> result IoError Z) (clone_file : Z -> Z -> result IoError Z).
  Context (try_clone : Z -> Z -> result IoError Z) (stream : Z -> option (result IoError Z)).
  (** Windows, and which std handles were live when the spawn read them. *)
  Context (windows : bool) (live : Z -> bool).

Definition io {A} (r : result IoError A) : result Error A := match r with Ok a => Ok a | Err e => Err (Io e) end.

Definition make_pipe (slot : Z) (dir : Direction) : result Error (ChildEnd * option ParentEnd) :=
  let? p := io (pipe slot) in
  let '(reader, writer) := p in
  match dir with
  | Command.In => Ok (child_end reader (PipeReader slot), Some (Writer writer (PipeWriter slot)))
  | Command.Out => Ok (child_end writer (PipeWriter slot), Some (Reader reader (PipeReader slot)))
  end.

(** [dup]: an absent end stays absent. *)
Definition dup (slot : Z) (end_ : ChildEnd) : result Error ChildEnd :=
  if bool_decide (object end_ = Absent) then Ok absent
  else let? h := io (try_clone slot (handle end_)) in Ok (child_end h (object end_)).

Definition null_end (slot : Z) : result Error ChildEnd :=
  let? h := io (open_null slot) in Ok (child_end h NullDevice).

Definition file_end (slot f : Z) : result Error ChildEnd :=
  let? h := io (clone_file slot f) in Ok (child_end h (UserFile f)).

(** [dup_std_handle] on Windows, where the handle may be null; elsewhere the stream is duplicated. *)
Definition inherit_end (slot : Z) : result Error ChildEnd :=
  if (0 <=? slot) && (slot <? 3) then
    if windows && negb (live slot) then Ok absent
    else
      match stream slot with
      | None => Ok absent
      | Some r => let? h := io r in Ok (child_end h (ParentStream slot))
      end
  else Err EUnsupported.

(** [None] is the [unreachable!]. *)
Definition resolve_non_merge (slot : Z) (r : option ResolvedStdio) : option (result Error (ChildEnd * option ParentEnd)) :=
  match r with
  | None | Some Inherit => Some (let? e := inherit_end slot in Ok (e, None))
  | Some Null => Some (let? e := null_end slot in Ok (e, None))
  | Some (File f) => Some (let? e := file_end slot f in Ok (e, None))
  | Some (Pipe dir) => Some (make_pipe slot dir)
  | Some (Command.Merge _) => None
  end.

Section Fds.
  Variable fds : gmap Z ResolvedStdio.

Definition is_merge (r : option ResolvedStdio) : bool := match r with Some (Command.Merge _) => true | _ => false end.

Definition is_pipe (r : option ResolvedStdio) : bool := match r with Some (Pipe _) => true | _ => false end.

(** The refusal of a merge into a merge. *)
Definition chained (slots : list Z) : bool :=
  existsb (fun slot => match fds !! slot with Some (Command.Merge target) => is_merge (fds !! target) | _ => false end) slots.

Notation Ends := (gmap Z ChildEnd * gmap Z ParentEnd)%type.

(** Whether the first pass leaves a slot out: for the second pass, to tokio, or with nothing asked. *)
Definition skipped (pipe : PipeOwnership) (slot : Z) : bool :=
  match fds !! slot with
  | Some (Command.Merge _) => true
  | Some (Pipe _) => bool_decide (pipe = Deferred) && (slot <? 3)
  | None => 3 <=? slot
  | _ => false
  end.

Fixpoint first_pass (pipe : PipeOwnership) (slots : list Z) (ends : Ends) : option (result Error Ends) :=
  match slots with
  | [] => Some (Ok ends)
  | slot :: rest =>
      if skipped pipe slot then first_pass pipe rest ends
      else
        match resolve_non_merge slot (fds !! slot) with
        | None => None
        | Some (Err e) => Some (Err e)
        | Some (Ok (child, parent)) =>
            let parents := match parent with Some p => <[slot := p]> ends.2 | None => ends.2 end in
            first_pass pipe rest (<[slot := child]> ends.1, parents)
        end
  end.

Fixpoint second_pass (pipe : PipeOwnership) (slots : list Z) (ends : gmap Z ChildEnd) : result Error (gmap Z ChildEnd) :=
  match slots with
  | [] => Ok ends
  | slot :: rest =>
      match fds !! slot with
      | Some (Command.Merge target) =>
          if bool_decide (pipe = Deferred) && (target <? 3) && is_pipe (fds !! target) then Err EUnsupported
          else
            match ends !! target with
            | None => Err EUnsupported
            | Some src => let? e := dup slot src in second_pass pipe rest (<[slot := e]> ends)
            end
      | _ => second_pass pipe rest ends
      end
  end.

Definition resolve_stdio (slots : list Z) (pipe : PipeOwnership) : option (result Error Ends) :=
  if chained slots then Some (Err EUnsupported)
  else
    match first_pass pipe slots (∅, ∅) with
    | None => None
    | Some (Err e) => Some (Err e)
    | Some (Ok (children, parents)) =>
        Some (let? children := second_pass pipe slots children in Ok (children, parents))
    end.

(** The slots of a spawn on Unix: 0, 1 and 2, then every configured one from 3 up, ascending. *)
Definition spawn_slots : list Z :=
  [STDIN; STDOUT; STDERR] ++ filter (fun slot => 3 <= slot) (merge_sort Z.le (fst <$> map_to_list fds)).

End Fds.
End System.

(** * What the child's slots are

    The specification reads the redirections without the two passes: each slot's own object, and a
    merge its target's. *)

Section Spec.
  Context (pipe : Z -> result IoError (Z * Z)) (open_null : Z -> result IoError Z) (clone_file : Z -> Z -> result IoError Z).
  Context (try_clone : Z -> Z -> result IoError Z) (stream : Z -> option (result IoError Z)).
  Context (windows : bool) (live : Z -> bool) (fds : gmap Z ResolvedStdio).

Definition stream_object (slot : Z) : Object :=
  if windows && negb (live slot) then Absent else match stream slot with None => Absent | Some _ => ParentStream slot end.

Definition own_object (slot : Z) : Object :=
  match fds !! slot with
  | Some Null => NullDevice
  | Some (File f) => UserFile f
  | Some (Pipe Command.In) => PipeReader slot
  | Some (Pipe Command.Out) => PipeWriter slot
  | _ => stream_object slot
  end.

Definition slot_object (slot : Z) : Object :=
  match fds !! slot with Some (Command.Merge target) => own_object target | _ => own_object slot end.

Definition other_end (slot : Z) : option Object :=
  match fds !! slot with
  | Some (Pipe Command.In) => Some (PipeWriter slot)
  | Some (Pipe Command.Out) => Some (PipeReader slot)
  | _ => None
  end.

Definition parent_object (p : ParentEnd) : Object := match p with Reader _ o | Writer _ o => o end.

(** A slot left to tokio, or from 3 up with nothing asked of it. *)
Definition unowned (own : PipeOwnership) (slot : Z) : bool :=
  match fds !! slot with
  | Some (Pipe _) => bool_decide (own = Deferred) && (slot <? 3)
  | None => 3 <=? slot
  | _ => false
  end.

(** What no spawn accepts: a merge into a merge or into a slot that has no end of ours, and an
    inherited slot that is not a standard one. *)
Definition slot_refused (own : PipeOwnership) (slots : list Z) (slot : Z) : Prop :=
  match fds !! slot with
  | Some (Command.Merge target) => is_merge (fds !! target) = true \/ target ∉ slots \/ unowned own target = true
  | Some Inherit => ~ (0 <= slot < 3)
  | None => slot < 0
  | _ => False
  end.

Definition acquisition_failed (e : IoError) : Prop :=
  exists slot, pipe slot = Err e \/ open_null slot = Err e \/ (exists f, clone_file slot f = Err e)
    \/ (exists h, try_clone slot h = Err e) \/ stream slot = Some (Err e).

Definition error_of (refused : Prop) (e : Error) : Prop :=
  (e = EUnsupported /\ refused) \/ (exists ioe, e = Io ioe /\ acquisition_failed ioe).


Notation error_of_slots own slots dom := (error_of (exists slot, slot ∈ dom /\ slot_refused own slots slot)).

Lemma error_of_mono (P Q : Prop) e : (P -> Q) -> error_of P e -> error_of Q e.
Proof. intros HPQ [[-> HP]|Hf]; [left; auto | by right]. Qed.

Lemma io_error {A} (r : result IoError A) e (P : Prop) :
  (forall ioe, r = Err ioe -> acquisition_failed ioe) -> io r = Err e -> error_of P e.
Proof. destruct r as [a|ioe]; cbn; [done|]. intros H [= <-]. right. eauto. Qed.

Lemma skipped_unowned own slot : skipped fds own slot = is_merge (fds !! slot) || unowned own slot.
Proof. unfold skipped, unowned. by destruct (fds !! slot) as [[]|]. Qed.

Lemma inherit_end_spec slot :
  match inherit_end stream windows live slot with
  | Ok e => object e = stream_object slot /\ 0 <= slot < 3
  | Err e => error_of (~ (0 <= slot < 3)) e
  end.
Proof.
  unfold inherit_end, stream_object. destruct (0 <=? slot) eqn:E0; destruct (slot <? 3) eqn:E3; cbn [andb].
  2-4: left; split; [done|lia].
  destruct (windows && negb (live slot)) eqn:E; [split; [done|lia]|].
  destruct (stream slot) as [[h|ioe]|] eqn:Es; cbn; [split; [done|lia]| |split; [done|lia]].
  right. exists ioe. split; [done|]. exists slot. naive_solver.
Qed.

Lemma resolve_non_merge_spec own slots slot :
  skipped fds own slot = false ->
  match resolve_non_merge pipe open_null clone_file stream windows live slot (fds !! slot) with
  | None => False
  | Some (Ok (child, parent)) =>
      object child = own_object slot /\ parent_object <$> parent = other_end slot /\ ~ slot_refused own slots slot
  | Some (Err e) => error_of (slot_refused own slots slot) e
  end.
Proof.
  intros Hs. unfold skipped in Hs. unfold resolve_non_merge, own_object, other_end, slot_refused.
  pose proof (inherit_end_spec slot) as Hi.
  destruct (fds !! slot) as [[| |dir|f|t]|] eqn:Ef; [| | | |done|].
  - destruct (inherit_end _ _ _ slot) as [e|e]; [naive_solver|]. by eapply error_of_mono.
  - unfold null_end. destruct (io (open_null slot)) eqn:E; cbn; [by split_and!; auto|].
    eapply io_error; [|exact E]. intros ioe ?. exists slot. auto.
  - unfold make_pipe. destruct (io (pipe slot)) as [[r w]|] eqn:E; cbn; [by destruct dir; split_and!; auto|].
    eapply io_error; [|exact E]. intros ioe ?. exists slot. auto.
  - unfold file_end. destruct (io (clone_file slot f)) eqn:E; cbn; [by split_and!; auto|].
    eapply io_error; [|exact E]. intros ioe ?. exists slot. eauto.
  - apply Z.leb_gt in Hs. destruct (inherit_end _ _ _ slot) as [e|e].
    + destruct Hi as [-> ?]. split_and!; [done..|lia].
    + eapply error_of_mono; [|exact Hi]. cbn. lia.
Qed.

(** The ends after [done]: the slots the first pass keeps. *)
Definition passed (own : PipeOwnership) (done : list Z) (ends : gmap Z ChildEnd * gmap Z ParentEnd) : Prop :=
  forall slot,
    object <$> ends.1 !! slot =
      (if decide (slot ∈ done /\ skipped fds own slot = false) then Some (own_object slot) else None)
    /\ parent_object <$> ends.2 !! slot =
      (if decide (slot ∈ done /\ skipped fds own slot = false) then other_end slot else None).

Lemma passed_skip own done slot ends : skipped fds own slot = true -> passed own done ends -> passed own (done ++ [slot]) ends.
Proof.
  intros Hs Hp s. destruct (Hp s) as [H1 H2]. rewrite H1, H2.
  assert (Hd : s ∈ done ++ [slot] /\ skipped fds own s = false <-> s ∈ done /\ skipped fds own s = false).
  { rewrite elem_of_app, list_elem_of_singleton. split; [|by intuition].
    intros [[Hin| ->] Hf]; [done|congruence]. }
  split; apply decide_ext; by rewrite Hd.
Qed.

Lemma passed_insert own done slot ends child parent :
  skipped fds own slot = false -> object child = own_object slot -> parent_object <$> parent = other_end slot ->
  passed own done ends ->
  passed own (done ++ [slot]) (<[slot := child]> ends.1, match parent with Some p => <[slot := p]> ends.2 | None => ends.2 end).
Proof.
  intros Hs Hc Hpar Hp s. destruct (Hp s) as [H1 H2]. cbn. destruct (decide (s = slot)) as [->|Hne].
  - rewrite lookup_insert_eq, !decide_True by (rewrite elem_of_app, list_elem_of_singleton; auto).
    cbn. split; [by rewrite Hc|]. rewrite <- Hpar.
    destruct parent; [by rewrite lookup_insert_eq|]. rewrite H2, <- Hpar. by case_decide.
  - rewrite lookup_insert_ne, H1 by done.
    replace (parent_object <$> match parent with Some p => <[slot := p]> ends.2 | None => ends.2 end !! s)
      with (parent_object <$> ends.2 !! s) by (destruct parent; [by rewrite lookup_insert_ne by done|done]).
    rewrite H2. split; apply decide_ext; rewrite elem_of_app, list_elem_of_singleton; intuition.
Qed.

Lemma first_pass_spec own all slots done ends :
  passed own done ends ->
  match first_pass pipe open_null clone_file stream windows live fds own slots ends with
  | None => False
  | Some (Ok ends') =>
      passed own (done ++ slots) ends'
      /\ forall slot, slot ∈ slots -> is_merge (fds !! slot) = false -> ~ slot_refused own all slot
  | Some (Err e) => error_of (exists slot, slot ∈ slots /\ slot_refused own all slot) e
  end.
Proof.
  revert done ends. induction slots as [|slot rest IH]; intros done ends Hp; cbn.
  { rewrite app_nil_r. split; [done|]. intros slot H. by apply not_elem_of_nil in H. }
  replace (done ++ slot :: rest) with ((done ++ [slot]) ++ rest) by (by rewrite <- app_assoc).
  destruct (skipped fds own slot) eqn:Hs.
  - specialize (IH _ _ (passed_skip _ _ _ _ Hs Hp)).
    destruct (first_pass _ _ _ _ _ _ _ _ _ _) as [[ends'|e]|]; [|eapply error_of_mono; [|exact IH]; set_solver|done].
    destruct IH as [IH1 IH2]. split; [done|]. intros s [->|Hin]%elem_of_cons Hm; [|auto].
    unfold skipped in Hs. unfold slot_refused. destruct (fds !! slot) as [[]|]; try done; intros ?; try done; lia.
  - pose proof (resolve_non_merge_spec own all slot Hs) as Hr.
    destruct (resolve_non_merge _ _ _ _ _ _ _ _) as [[[child parent]|e]|]; [| |done].
    + destruct Hr as (Hc & Hpar & Hnot).
      specialize (IH _ _ (passed_insert _ _ _ _ _ _ Hs Hc Hpar Hp)).
      destruct (first_pass _ _ _ _ _ _ _ _ _ _) as [[ends'|e]|]; [|eapply error_of_mono; [|exact IH]; set_solver|done].
      destruct IH as [IH1 IH2]. split; [done|]. intros s [->|Hin]%elem_of_cons Hm; auto.
    + eapply error_of_mono; [|exact Hr]. set_solver.
Qed.

(** The ends the second pass has made of the merges in [done]. *)
Definition merged (own : PipeOwnership) (slots done : list Z) (ends : gmap Z ChildEnd) : Prop :=
  forall slot,
    object <$> ends !! slot =
      if decide ((slot ∈ slots /\ skipped fds own slot = false) \/ (slot ∈ done /\ is_merge (fds !! slot) = true))
      then Some (slot_object slot) else None.

Lemma merged_start own slots ends : passed own slots ends -> merged own slots [] ends.1.
Proof.
  intros Hp slot. destruct (Hp slot) as [-> _]. destruct (decide (slot ∈ slots /\ _)) as [[Hin Hs]|Hn].
  - rewrite decide_True by auto. f_equal. unfold slot_object, skipped in *. by destruct (fds !! slot) as [[]|].
  - rewrite decide_False; [done|]. intros [?|[?%not_elem_of_nil ?]]; auto.
Qed.

Lemma merged_target own slots done ends target :
  merged own slots done ends -> is_merge (fds !! target) = false ->
  object <$> ends !! target = if decide (target ∈ slots /\ unowned own target = false) then Some (own_object target) else None.
Proof.
  intros Hm Ht. rewrite (Hm target), skipped_unowned, Ht. cbn.
  destruct (decide (target ∈ slots /\ unowned own target = false)) as [H|H].
  - rewrite decide_True by auto. f_equal. unfold slot_object. by destruct (fds !! target) as [[]|].
  - rewrite decide_False; [done|]. intros [?|[_ ?]]; [auto|done].
Qed.

Lemma dup_object slot src :
  match dup try_clone slot src with
  | Ok e => object e = object src
  | Err e => forall P, error_of P e
  end.
Proof.
  unfold dup. destruct (bool_decide_reflect (object src = Absent)) as [E|E]; [done|].
  destruct (io (try_clone slot (handle src))) eqn:Eio; cbn; [done|].
  intros P. eapply io_error; [|exact Eio]. intros ioe ?. exists slot. eauto 6.
Qed.

Lemma merged_insert own slots done slot target ends e :
  fds !! slot = Some (Command.Merge target) -> object e = own_object target ->
  merged own slots done ends -> merged own slots (done ++ [slot]) (<[slot := e]> ends).
Proof.
  intros Hf He Hm s. destruct (decide (s = slot)) as [->|Hne].
  - rewrite lookup_insert_eq, decide_True by (right; rewrite elem_of_app, list_elem_of_singleton, Hf; auto).
    unfold slot_object. rewrite Hf. cbn. by rewrite He.
  - rewrite lookup_insert_ne, (Hm s) by done. apply decide_ext. rewrite elem_of_app, list_elem_of_singleton. intuition.
Qed.

Lemma merged_skip own slots done slot ends :
  is_merge (fds !! slot) = false -> merged own slots done ends -> merged own slots (done ++ [slot]) ends.
Proof.
  intros Hf Hm s. rewrite (Hm s). apply decide_ext. rewrite elem_of_app, list_elem_of_singleton.
  split; [tauto|]. intros [?|[[?| ->] ?]]; [tauto..|congruence].
Qed.

(** Given that the chained merges are refused beforehand. *)
Lemma second_pass_spec own all slots done ends :
  (forall slot target, slot ∈ slots -> fds !! slot = Some (Command.Merge target) -> is_merge (fds !! target) = false) ->
  merged own all done ends ->
  match second_pass try_clone fds own slots ends with
  | Ok ends' =>
      merged own all (done ++ slots) ends'
      /\ forall slot, slot ∈ slots -> is_merge (fds !! slot) = true -> ~ slot_refused own all slot
  | Err e => error_of (exists slot, slot ∈ slots /\ slot_refused own all slot) e
  end.
Proof.
  revert done ends. induction slots as [|slot rest IH]; intros done ends Hch Hm; cbn.
  { rewrite app_nil_r. split; [done|]. intros slot H. by apply not_elem_of_nil in H. }
  replace (done ++ slot :: rest) with ((done ++ [slot]) ++ rest) by (by rewrite <- app_assoc).
  assert (Hch' : forall s t, s ∈ rest -> fds !! s = Some (Command.Merge t) -> is_merge (fds !! t) = false) by set_solver.
  destruct (is_merge (fds !! slot)) eqn:Em.
  - destruct (fds !! slot) as [[| | | |target]|] eqn:Ef; try done.
    pose proof (Hch slot target ltac:(set_solver) Ef) as Ht. pose proof (merged_target _ _ _ _ _ Hm Ht) as Hl.
    assert (Href : target ∉ all \/ unowned own target = true -> exists s, s ∈ slot :: rest /\ slot_refused own all s).
    { intros H. exists slot. split; [set_solver|]. unfold slot_refused. rewrite Ef. auto. }
    destruct (bool_decide (own = Deferred) && (target <? 3) && is_pipe (fds !! target)) eqn:Ep.
    { left. split; [done|]. apply Href. right. unfold unowned. by destruct (fds !! target) as [[]|]; rewrite ?andb_false_r, ?andb_true_r in Ep. }
    destruct (decide (target ∈ all /\ unowned own target = false)) as [[Hin Hu]|Hn].
    + destruct (ends !! target) as [src|] eqn:Es; [|done]. injection Hl as Hl.
      pose proof (dup_object slot src) as Hd. destruct (dup try_clone slot src) as [e|e]; [|apply Hd].
      rewrite Hl in Hd. specialize (IH _ _ Hch' (merged_insert _ _ _ _ _ _ _ Ef Hd Hm)).
      destruct (second_pass _ _ _ _ _) as [ends'|e']; [|eapply error_of_mono; [|exact IH]; set_solver].
      destruct IH as [IH1 IH2]. split; [done|]. intros s [->|Hs]%elem_of_cons Hsm; [|auto].
      unfold slot_refused. rewrite Ef, Ht, Hu. naive_solver.
    + destruct (ends !! target); [done|]. left. split; [done|]. apply Href.
      destruct (decide (target ∈ all)); [right|by left]. destruct (unowned own target); [done|naive_solver].
  - specialize (IH _ _ Hch' (merged_skip _ _ _ _ _ Em Hm)).
    destruct (fds !! slot) as [[]|] eqn:Ef; try done.
    all: destruct (second_pass _ _ _ _ _) as [ends'|e']; [|eapply error_of_mono; [|exact IH]; set_solver].
    all: destruct IH as [IH1 IH2]; split; [done|]; intros s [->|Hs]%elem_of_cons Hsm; [by rewrite Ef in Hsm|auto].
Qed.

Lemma chained_spec slots :
  if chained fds slots then exists slot target, slot ∈ slots /\ fds !! slot = Some (Command.Merge target) /\ is_merge (fds !! target) = true
  else forall slot target, slot ∈ slots -> fds !! slot = Some (Command.Merge target) -> is_merge (fds !! target) = false.
Proof.
  unfold chained. destruct (existsb _ slots) eqn:E.
  - apply existsb_exists in E as (slot & Hin%list_elem_of_In & E).
    destruct (fds !! slot) as [[| | | |target]|] eqn:Ef; try done. eauto.
  - intros slot target Hin Ef. destruct (is_merge (fds !! target)) eqn:Em; [|done].
    rewrite (proj2 (existsb_exists _ slots)) in E; [done|]. exists slot. rewrite Ef. split; [by apply list_elem_of_In|done].
Qed.

(** A resolved spawn gives every slot asked of it the object its redirection names, and no
    other: its own stream, null device, file or pipe end, and for a merge the very object of its
    target, whatever the order of the slots; the parent holds exactly the opposite ends of the pipes
    of ours, and no accepted redirection is a refused one. A failure is a refused redirection, or an
    acquisition the system refused; the unreachable arm is not reached. *)
Theorem redirections_of_a_spawn (own : PipeOwnership) (slots : list Z) :
  match resolve_stdio pipe open_null clone_file try_clone stream windows live fds slots own with
  | None => False
  | Some (Ok (children, parents)) =>
      (forall slot, object <$> children !! slot =
         if decide (slot ∈ slots /\ unowned own slot = false) then Some (slot_object slot) else None)
      /\ (forall slot, parent_object <$> parents !! slot =
         if decide (slot ∈ slots /\ unowned own slot = false) then other_end slot else None)
      /\ (forall slot, slot ∈ slots -> ~ slot_refused own slots slot)
  | Some (Err e) => error_of (exists slot, slot ∈ slots /\ slot_refused own slots slot) e
  end.
Proof.
  unfold resolve_stdio. pose proof (chained_spec slots) as Hch. destruct (chained fds slots).
  { left. split; [done|]. destruct Hch as (slot & target & Hin & Ef & Em). exists slot. split; [done|].
    unfold slot_refused. rewrite Ef. auto. }
  assert (H0 : passed own [] (∅, ∅)).
  { intros slot. cbn. rewrite !lookup_empty, !decide_False; [done| |]; intros [[]%not_elem_of_nil _]. }
  pose proof (first_pass_spec own slots slots [] _ H0) as H1. cbn in H1.
  destruct (first_pass _ _ _ _ _ _ _ _ _ _) as [[[children parents]|e]|]; [|done|done].
  destruct H1 as [Hp Hr1]. pose proof (second_pass_spec own slots slots [] _ Hch (merged_start _ _ _ Hp)) as H2. cbn in H2.
  destruct (second_pass _ _ _ _ _) as [children'|e]; [|done]. destruct H2 as [Hm Hr2]. split_and!.
  - intros slot. rewrite (Hm slot). apply decide_ext. rewrite skipped_unowned. unfold unowned.
    destruct (fds !! slot) as [[]|]; cbn; intuition (try done).
  - intros slot. destruct (Hp slot) as [_ Hpar]. cbn in Hpar. rewrite Hpar, skipped_unowned. unfold unowned, other_end.
    destruct (fds !! slot) as [[| |dir| |]|]; cbn; try done; by repeat case_decide.
  - intros slot Hin. destruct (is_merge (fds !! slot)) eqn:Em; auto.
Qed.

End Spec.

(** Standard error into a piped standard output, of a child whose input is the null device. *)
Example stderr_into_stdout :
  (fun r => match r with Some (Ok (c, p)) => (object <$> c !! 2, object <$> c !! 0, parent_object <$> p !! 1) | _ => (None, None, None) end)
    (resolve_stdio (fun s => Ok (10 + s, 20 + s)) (fun s => Ok (30 + s)) (fun s f => Ok (40 + f)) (fun s h => Ok (50 + h))
       (fun s => Some (Ok (60 + s))) false (fun _ => true) (<[0 := Null]> (<[1 := Pipe Command.Out]> {[2 := Command.Merge 1]})) [0; 1; 2] Owned)
  = (Some (PipeWriter 1), Some NullDevice, Some (PipeReader 1)).
Proof. by vm_compute. Qed.
