(* ===== verification/Placement.v ===== *)
(** The placement exchange of a control group leaf: [src/containment/cgroup/channel.rs], the child's
    half [place_self_in_cgroup_pre_exec] and [placement_hook] of [leaf.rs], and what [take_placement]
    and [abandon_before_verdict] do with the channel. Parent, child and the processes the parent
    forks meanwhile interleave, one system call at a time. *)
From S2P Require Import Prelude Utf Numbers IoErrors.
Local Open Scope Z_scope.

(** [degrade.rs]. *)
Inductive PlacementReport := NotReported | Placed | WriteFailed (errno : Z).

#[export] Instance PlacementReport_eq_dec : EqDecision PlacementReport.
Proof. solve_decision. Defined.

Definition REPORT_PLACED : Z := -1.

Definition HANDLE_NONE : Z := 0.
Definition HANDLE_PIDFD : Z := 1.
Definition HANDLE_PROC_DIR : Z := 2.

Definition TAG_INTENT : Z := 1.
Definition TAG_REPORT : Z := 2.

Definition EIO : Z := 5.

(** * Messages

    A message is its bytes and the descriptor it carries, here the process that descriptor names. *)

Definition Message : Type := bytes * option Z.

Definition message (tag value handle : Z) (fd : option Z) : Message :=
  (le_bytes 4 tag ++ le_bytes 4 value ++ le_bytes 8 handle, fd).

(** [Received]: a descriptor is the process it names. *)
Record Received := received_ {
  report : option PlacementReport; rpid : option Z; pidfd : option Z; proc_dir : option Z }.

Definition Received_default : Received := received_ None None None None.

Definition placement (self : Received) : PlacementReport := default NotReported (report self).

Definition report_of (value : Z) : PlacementReport := if value =? REPORT_PLACED then Placed else WriteFailed value.

(** The body of [drain]'s loop for one message. *)
Definition take_in (r : Received) (m : Message) : Received :=
  let tag := i32_from_le (take 4 m.1) in
  let value := i32_from_le (take 4 (drop 4 m.1)) in
  let handle := from_le (drop 8 m.1) in
  if tag =? TAG_INTENT then
    received_ (report r) (if 0 <=? value then Some value else None)
      (if handle =? HANDLE_PIDFD then m.2 else pidfd r)
      (if handle =? HANDLE_PROC_DIR then m.2 else proc_dir r)
  else if tag =? TAG_REPORT then
    received_ (match report r with Some x => Some x | None => Some (report_of value) end) (rpid r) (pidfd r) (proc_dir r)
  else r.

(** * The child's half *)

(** What opening a handle on itself gave the child. *)
Inductive Handle := PidfdHandle | ProcDirHandle | NoHandle.

(** [send_intent]'s message of the process [pid]. *)
Definition intent (pid : Z) (h : Handle) : Message :=
  match h with
  | PidfdHandle => message TAG_INTENT pid HANDLE_PIDFD (Some pid)
  | ProcDirHandle => message TAG_INTENT pid HANDLE_PROC_DIR (Some pid)
  | NoHandle => message TAG_INTENT pid HANDLE_NONE None
  end.

Definition report_message (value : Z) : Message := message TAG_REPORT value 0 None.

(** What the child reports of its write of one byte, given its return and [errno]. *)
Definition report_value (ret errno : Z) : Z :=
  if ret =? 1 then REPORT_PLACED else if (ret =? -1) && (0 <? errno) then errno else EIO.

Inductive Delivery := Queued | Decided | Abandoned.

(** Where the child is: before its hook, in it, past it ([Ready]), in its program, or gone. *)
Inductive Pc := Forked | Hooked | Intended | Wrote (value : Z) | Ready | Execd | Exited.

#[export] Instance Pc_eq_dec : EqDecision Pc.
Proof. solve_decision. Defined.

(** Where the parent is: in [spawn]; reading in [wait], having seen the child's exit or not; in its
    poll; in [proceed], reading, before its send and before its close; done; in [shut], before its
    shutdown and reading; done. *)
Inductive ParentPc :=
| Spawning
| Reading (seen_exit : bool)
| Polling
| Proceeding (r : PlacementReport)
| Drained (r : PlacementReport)
| Sent (r : PlacementReport)
| Took (r : PlacementReport)
| Abandoning
| Shutting
| Shut.

#[export] Instance ParentPc_eq_dec : EqDecision ParentPc.
Proof. solve_decision. Defined.

(** * The world

    The socket: the messages queued for the parent, whether it was shut for reading, whether
    [PROCEED] is queued for the child, and who still holds its two ends: the parent, the child, and
    other processes the parent forked. [in_leaf]: the child's write placed it. *)
Record World := world {
  child : Pc; in_leaf : bool;
  parent : ParentPc; got : Received;
  queue : list Message; is_shut : bool; proceed_queued : bool;
  parent_has_read : bool; parent_has_write : bool; child_has_read : bool; others_have_read : bool; others_have_write : bool }.

Definition start : World :=
  world Forked false Spawning Received_default [] false false true true true false false.

(** Setters. *)
Definition set_child (w : World) (pc : Pc) : World :=
  world pc (in_leaf w) (parent w) (got w) (queue w) (is_shut w) (proceed_queued w)
    (parent_has_read w) (parent_has_write w) (child_has_read w) (others_have_read w) (others_have_write w).

Definition set_parent (w : World) (pc : ParentPc) : World :=
  world (child w) (in_leaf w) pc (got w) (queue w) (is_shut w) (proceed_queued w)
    (parent_has_read w) (parent_has_write w) (child_has_read w) (others_have_read w) (others_have_write w).

Definition set_queue (w : World) (q : list Message) (r : Received) : World :=
  world (child w) (in_leaf w) (parent w) r q (is_shut w) (proceed_queued w)
    (parent_has_read w) (parent_has_write w) (child_has_read w) (others_have_read w) (others_have_write w).

Definition set_ends (w : World) (pr pw cr othr othw : bool) : World :=
  world (child w) (in_leaf w) (parent w) (got w) (queue w) (is_shut w) (proceed_queued w) pr pw cr othr othw.

Definition set_in_leaf (w : World) (b : bool) : World :=
  world (child w) b (parent w) (got w) (queue w) (is_shut w) (proceed_queued w)
    (parent_has_read w) (parent_has_write w) (child_has_read w) (others_have_read w) (others_have_write w).

Definition set_flags (w : World) (shut proceed : bool) : World :=
  world (child w) (in_leaf w) (parent w) (got w) (queue w) shut proceed
    (parent_has_read w) (parent_has_write w) (child_has_read w) (others_have_read w) (others_have_write w).

(** The child has exited: its pidfd is readable. It holds its end until [exec] or its exit. *)
Definition exited (w : World) : bool := bool_decide (child w = Exited).

Definition child_has_write (w : World) : bool := negb (bool_decide (child w = Exited) || bool_decide (child w = Execd)).

(** Every copy of the child's end is closed; some copy of the parent's is open. *)
Definition write_closed (w : World) : bool := negb (parent_has_write w || child_has_write w || others_have_write w).

Definition read_open (w : World) : bool := parent_has_read w || child_has_write w && child_has_read w || others_have_read w.

(** * The child's steps *)

Section Child.
  (** The child's process number. *)
  Variable pid : Z.

(** [send] of the child: [err] is what [sendmsg] failed with, other than for an ended exchange. An
    ended exchange is told apart by [PROCEED], which the child then reads. *)
Definition send (w : World) (m : Message) (err : option Z) : World * result Z Delivery :=
  match err with
  | Some e => (w, Err e)
  | None =>
      if is_shut w || negb (read_open w) then
        if proceed_queued w then (set_flags w (is_shut w) false, Ok Decided) else (w, Ok Abandoned)
      else (set_queue w (queue w ++ [m]) (got w), Ok Queued)
  end.

(** [place_self_in_cgroup_pre_exec] after its intent: an abandoned child exits in [placement_hook],
    and one whose message could not be sent fails its spawn. *)
Definition after_intent (d : result Z Delivery) : Pc :=
  match d with
  | Ok Queued => Intended
  | Ok Decided => Ready
  | Ok Abandoned | Err _ => Exited
  end.

Definition after_report (d : result Z Delivery) : Pc :=
  match d with
  | Ok Queued | Ok Decided => Ready
  | Ok Abandoned | Err _ => Exited
  end.

Inductive ChildStep :=
| Hook
| SendIntent (h : Handle) (err : option Z)
| Write (ret errno : Z)
| SendReport (err : option Z)
| Exec
| Die.

Definition child_step (l : ChildStep) (w : World) : option World :=
  match l, child w with
  | Hook, Forked =>
      Some (set_child (set_ends w (parent_has_read w) (parent_has_write w) false (others_have_read w) (others_have_write w)) Hooked)
  | SendIntent h err, Hooked => let '(w', d) := send w (intent pid h) err in Some (set_child w' (after_intent d))
  | Write ret errno, Intended =>
      if within (- 2 ^ 31) (2 ^ 31 - 1) errno then
        Some (set_child (set_in_leaf w (ret =? 1)) (Wrote (report_value ret errno)))
      else None
  | SendReport err, Wrote value => let '(w', d) := send w (report_message value) err in Some (set_child w' (after_report d))
  | Exec, Ready => Some (set_child w Execd)
  | Die, Exited => None
  | Die, _ => Some (set_child w Exited)
  | _, _ => None
  end.

End Child.

(** * The parent's steps *)

Inductive ParentStep :=
| Take
| Recv
| Poll
| Proceed (delivered : bool)
| Close
| Abandon
| Shutdown.

(** The end of one [drain] in [wait]: [closed] is its answer. *)
Definition drained (w : World) (seen_exit closed : bool) : ParentPc :=
  if seen_exit then Proceeding (placement (got w))
  else
    match report (got w) with
    | Some r => Proceeding r
    | None => if closed then Proceeding NotReported else Polling
    end.

(** One [recvmsg] of a [drain], and what the reader does at its end. *)
Definition recv (w : World) (finish : bool -> ParentPc) : World :=
  match queue w with
  | m :: q => set_queue w q (take_in (got w) m)
  | [] => set_parent w (finish (is_shut w || write_closed w))
  end.

Definition parent_step (l : ParentStep) (w : World) : option World :=
  match l, parent w with
  | Take, Spawning =>
      Some (set_parent (set_ends w (parent_has_read w) false (child_has_read w) (others_have_read w) (others_have_write w)) (Reading false))
  | Recv, Reading seen => Some (recv w (drained w seen))
  | Poll, Polling =>
      if exited w then Some (set_parent w (Reading true))
      else if negb (bool_decide (queue w = [])) || write_closed w then Some (set_parent w (Reading false))
      else None
  | Recv, Proceeding r =>
      Some (match queue w with m :: q => set_queue w q (take_in (got w) m) | [] => set_parent w (Drained r) end)
  | Proceed delivered, Drained r =>
      Some (set_parent (set_flags w (is_shut w) (delivered && (child_has_write w || others_have_write w))) (Sent r))
  | Close, Sent r =>
      Some (set_parent (set_ends w false (parent_has_write w) (child_has_read w) (others_have_read w) (others_have_write w)) (Took r))
  | Abandon, Spawning =>
      Some (set_parent (set_ends w (parent_has_read w) false (child_has_read w) (others_have_read w) (others_have_write w)) Abandoning)
  | Shutdown, Abandoning => Some (set_parent (set_flags w true (proceed_queued w)) Shutting)
  | Recv, Shutting =>
      Some (match queue w with
            | m :: q => set_queue w q (take_in (got w) m)
            | [] => set_parent (set_ends w false (parent_has_write w) (child_has_read w) (others_have_read w) (others_have_write w)) Shut
            end)
  | _, _ => None
  end.

(** * The other processes: forked while the channel is open, closing it as they exec or exit. *)
Inductive OtherStep := Fork | Drop_.

Definition other_step (l : OtherStep) (w : World) : World :=
  match l with
  | Fork =>
      set_ends w (parent_has_read w) (parent_has_write w) (child_has_read w)
        (others_have_read w || parent_has_read w) (others_have_write w || parent_has_write w)
  | Drop_ => set_ends w (parent_has_read w) (parent_has_write w) (child_has_read w) false false
  end.

Inductive Label := ByChild (l : ChildStep) | ByParent (l : ParentStep) | ByOther (l : OtherStep).

Definition step (pid : Z) (w : World) (l : Label) : option World :=
  match l with
  | ByChild l => child_step pid l w
  | ByParent l => parent_step l w
  | ByOther l => Some (other_step l w)
  end.

Fixpoint run (pid : Z) (w : World) (ls : list Label) : option World :=
  match ls with
  | [] => Some w
  | l :: ls => w' ← step pid w l; run pid w' ls
  end.

(** * What was sent

    [exchange pc placed ran sent]: a child at [pc], placed by its write or not, whose program ran or
    not, has sent [sent]. *)

Section Exchange.
  Variable pid : Z.
  Hypothesis pid_ok : 0 < pid < 2 ^ 31.

Inductive exchange : Pc -> bool -> bool -> list Message -> Prop :=
| exchange_forked : exchange Forked false false []
| exchange_hooked : exchange Hooked false false []
| exchange_intended h : exchange Intended false false [intent pid h]
| exchange_wrote h ret errno :
    within (- 2 ^ 31) (2 ^ 31 - 1) errno = true ->
    exchange (Wrote (report_value ret errno)) (ret =? 1) false [intent pid h]
| exchange_ready h ret errno :
    within (- 2 ^ 31) (2 ^ 31 - 1) errno = true ->
    exchange Ready (ret =? 1) false [intent pid h; report_message (report_value ret errno)]
| exchange_execd placed sent : exchange Ready placed false sent -> exchange Execd placed true sent
| exchange_exited pc placed ran sent : exchange pc placed ran sent -> pc <> Exited -> exchange Exited placed ran sent.

Definition all_received (sent : list Message) : Received := foldl take_in Received_default sent.

Lemma within_spec lo hi v : within lo hi v = true <-> lo <= v <= hi.
Proof. unfold within. lia. Qed.

Lemma take_in_message r tag value handle fd :
  - 2 ^ 31 <= tag < 2 ^ 31 -> - 2 ^ 31 <= value < 2 ^ 31 -> 0 <= handle < 2 ^ 64 ->
  take_in r (message tag value handle fd) =
    if tag =? TAG_INTENT then
      received_ (report r) (if 0 <=? value then Some value else None)
        (if handle =? HANDLE_PIDFD then fd else pidfd r) (if handle =? HANDLE_PROC_DIR then fd else proc_dir r)
    else if tag =? TAG_REPORT then
      received_ (match report r with Some x => Some x | None => Some (report_of value) end) (rpid r) (pidfd r) (proc_dir r)
    else r.
Proof.
  intros Ht Hv Hh. unfold take_in, message. cbn [fst snd].
  rewrite take_app_length' by (by rewrite length_le_bytes). rewrite (drop_app_length' (le_bytes 4 tag)) by (by rewrite length_le_bytes).
  rewrite take_app_length' by (by rewrite length_le_bytes).
  replace (drop 8 (le_bytes 4 tag ++ le_bytes 4 value ++ le_bytes 8 handle)) with (le_bytes 8 handle).
  - rewrite !i32_from_le_bytes, from_le_bytes by (try lia; exact Hh). done.
  - rewrite app_assoc, drop_app_length'; [done|]. by rewrite length_app, !length_le_bytes.
Qed.

Lemma take_in_intent r h :
  take_in r (intent pid h) =
    received_ (report r) (Some pid) (match h with PidfdHandle => Some pid | _ => pidfd r end)
      (match h with ProcDirHandle => Some pid | _ => proc_dir r end).
Proof.
  unfold intent, HANDLE_PIDFD, HANDLE_PROC_DIR, HANDLE_NONE, TAG_INTENT.
  destruct h; rewrite take_in_message by lia; cbn; by destruct (Z.leb_spec 0 pid); [|lia].
Qed.

Lemma report_value_range ret errno :
  within (- 2 ^ 31) (2 ^ 31 - 1) errno = true -> - 2 ^ 31 <= report_value ret errno < 2 ^ 31.
Proof. rewrite within_spec. unfold report_value, REPORT_PLACED, EIO. repeat case_match; lia. Qed.

Lemma report_value_placed ret errno : (report_value ret errno =? REPORT_PLACED) = (ret =? 1).
Proof. unfold report_value, REPORT_PLACED, EIO. repeat case_match; lia. Qed.

Lemma take_in_report r ret errno :
  within (- 2 ^ 31) (2 ^ 31 - 1) errno = true ->
  take_in r (report_message (report_value ret errno)) =
    received_ (match report r with Some x => Some x | None => Some (report_of (report_value ret errno)) end)
      (rpid r) (pidfd r) (proc_dir r).
Proof.
  intros Hw. apply (report_value_range ret) in Hw. unfold report_message, TAG_REPORT.
  by rewrite take_in_message by lia.
Qed.

(** What a record of everything sent says of its sender. *)
Definition record_true (placed ran : bool) (r : Received) : Prop :=
  (report r = Some Placed -> placed = true)
  /\ (forall e, report r = Some (WriteFailed e) -> placed = false)
  /\ (report r = None -> ran = false)
  /\ report r <> Some NotReported
  /\ (rpid r = None -> placed = false /\ report r = None)
  /\ (forall p, rpid r = Some p \/ pidfd r = Some p \/ proc_dir r = Some p -> p = pid).

Lemma exchange_record pc placed ran sent : exchange pc placed ran sent -> record_true placed ran (all_received sent).
Proof.
  unfold record_true, all_received. induction 1 as [| |h|h ret errno Hw|h ret errno Hw|placed sent H IH|pc placed ran sent H IH _].
  all: cbn [foldl]; rewrite ?take_in_intent, ?(take_in_report _ _ _ Hw); cbn [report rpid pidfd proc_dir Received_default].
  1-4: try destruct h; naive_solver.
  - unfold report_of. rewrite report_value_placed. destruct h, (ret =? 1); naive_solver.
  - destruct IH as (H1 & H2 & _ & H4 & H5 & H6). split_and!; try done.
    intros Hn. inversion H as [| | | |? ? ? Hw| |]; subst. cbn [foldl] in Hn.
    by rewrite take_in_intent, (take_in_report _ _ _ Hw) in Hn.
  - done.
Qed.

(** A child past its report, or gone without it. *)
Definition settled (pc : Pc) (sent : list Message) (r : PlacementReport) : Prop :=
  (report (all_received sent) = Some r /\ (pc = Ready \/ pc = Execd \/ pc = Exited))
  \/ (r = NotReported /\ report (all_received sent) = None /\ pc = Exited).

Definition parent_ok (w : World) (sent : list Message) : Prop :=
  match parent w with
  | Spawning | Abandoning => is_shut w = false /\ proceed_queued w = false /\ parent_has_read w = true
  | Polling =>
      is_shut w = false /\ proceed_queued w = false /\ parent_has_read w = true /\ report (got w) = None
  | Reading seen =>
      is_shut w = false /\ proceed_queued w = false /\ parent_has_read w = true /\ (seen = true -> child w = Exited)
  | Proceeding r | Drained r => is_shut w = false /\ parent_has_read w = true /\ proceed_queued w = false /\ settled (child w) sent r
  | Sent r | Took r => is_shut w = false /\ settled (child w) sent r
  | Shutting => is_shut w = true /\ proceed_queued w = false
  | Shut => is_shut w = true /\ proceed_queued w = false /\ queue w = []
  end.

Definition inv (ran : bool) (w : World) : Prop :=
  exists sent read, sent = read ++ queue w /\ got w = all_received read
    /\ exchange (child w) (in_leaf w) ran sent /\ parent_ok w sent.

Lemma inv_start : inv false start.
Proof. exists [], []. split_and!; try done. constructor. Qed.

Lemma all_received_snoc read m : all_received (read ++ [m]) = take_in (all_received read) m.
Proof. unfold all_received. by rewrite foldl_app. Qed.

(** A child that has yet to send has a parent that has yet to decide. *)
Lemma not_settled w sent pc r : child w = pc -> pc <> Ready -> pc <> Execd -> pc <> Exited -> ~ settled (child w) sent r.
Proof. intros -> ? ? ? [(_ & H)|(_ & _ & H)]; naive_solver. Qed.

(** A send before the parent's act is queued, and one after it is refused. *)
Lemma send_cases w sent m err pc :
  child w = pc -> pc <> Ready -> pc <> Execd -> pc <> Exited -> parent_ok w sent ->
  send w m err =
    match err with
    | Some e => (w, Err e)
    | None => if is_shut w then (w, Ok Abandoned) else (set_queue w (queue w ++ [m]) (got w), Ok Queued)
    end.
Proof.
  intros Hpc H1 H2 H3 Hok. unfold send. destruct err; [done|].
  assert (Hn : forall r, ~ settled (child w) sent r) by (intros r; by eapply not_settled).
  assert (Hlive : is_shut w = false /\ parent_has_read w = true \/ is_shut w = true /\ proceed_queued w = false).
  { unfold parent_ok in Hok. destruct (parent w); naive_solver. }
  destruct Hlive as [[-> Hr]|[-> ->]]; [|done]. unfold read_open. by rewrite Hr.
Qed.

(** The parent's part of the invariant over a move of the child. *)
Lemma parent_ok_child w w' sent sent' :
  parent w' = parent w -> is_shut w' = is_shut w -> proceed_queued w' = proceed_queued w ->
  parent_has_read w' = parent_has_read w -> got w' = got w -> (queue w' = queue w \/ is_shut w = false) -> child w <> Exited ->
  (forall r, settled (child w) sent r -> settled (child w') sent' r) ->
  parent_ok w sent -> parent_ok w' sent'.
Proof.
  unfold parent_ok. intros -> -> -> -> -> Hq Hc Hs. destruct (parent w); try naive_solver.
  intros (Hshut & Hp & Hq'). destruct Hq as [->|Hq]; [done|congruence].
Qed.

Definition is_exec (l : Label) : bool := match l with ByChild Exec => true | _ => false end.

Lemma inv_child ran w l w' : inv ran w -> child_step pid l w = Some w' -> inv (ran || is_exec (ByChild l)) w'.
Proof.
  intros (sent & read & Hsent & Hgot & Hex & Hok) Hstep.
  assert (Hun : forall pc, child w = pc -> pc <> Ready -> pc <> Execd -> pc <> Exited -> forall sent' pc' r,
    settled (child w) sent r -> settled pc' sent' r) by (intros; exfalso; by eapply not_settled).
  destruct l as [|h err|ret errno|err| |]; cbn in Hstep |- *; rewrite ?orb_false_r.
  - destruct (child w) eqn:Ec; try done. injection Hstep as <-.
    inversion Hex; subst. exists [], read. split_and!; try done; [cbn; rewrite <- H; constructor|].
    eapply parent_ok_child, Hok; try done; [by left|by rewrite Ec|]. intros r. rewrite Ec. by apply (Hun Forked).
  - destruct (child w) eqn:Ec; try done. rewrite (send_cases _ _ _ _ _ Ec) in Hstep by done.
    assert (Hnil : sent = [] /\ in_leaf w = false /\ ran = false) by (by inversion Hex).
    destruct Hnil as (-> & Hl & ->).
    assert (Hx : inv false (set_child w Exited)).
    { exists [], read. split_and!; try done; [cbn; rewrite Hl; by eapply exchange_exited; [constructor|]|].
      eapply parent_ok_child, Hok; try done; [by left|by rewrite Ec|]. intros r. rewrite Ec. by apply (Hun Hooked). }
    destruct err; [by injection Hstep as <-|]. destruct (is_shut w) eqn:Es; injection Hstep as <-; [done|].
    symmetry in Hsent. apply app_nil in Hsent as [-> Hq].
    exists [intent pid h], []. cbn. rewrite Hq, Hl. split_and!; try done; [constructor|].
    eapply parent_ok_child, Hok; try done; [by right|by rewrite Ec|]. intros r. rewrite Ec. by apply (Hun Hooked).
  - destruct (child w) eqn:Ec; try done. destruct (within _ _ errno) eqn:Ew; [|done]. injection Hstep as <-.
    inversion Hex; subst. eexists _, read. split_and!; try done; [by constructor|].
    eapply parent_ok_child, Hok; try done; [by left|by rewrite Ec|]. intros r. rewrite Ec. by apply (Hun Intended).
  - destruct (child w) as [| | |value| | |] eqn:Ec; try done. rewrite (send_cases _ _ _ _ _ Ec) in Hstep by done.
    assert (Hx : inv ran (set_child w Exited)).
    { exists sent, read. split_and!; try done; [cbn; by eapply exchange_exited|].
      eapply parent_ok_child, Hok; try done; [by left|by rewrite Ec|]. intros r. rewrite Ec. by apply (Hun (Wrote value)). }
    destruct err; [by injection Hstep as <-|]. destruct (is_shut w) eqn:Es; injection Hstep as <-; [done|].
    exists (sent ++ [report_message value]), read. cbn. split_and!; try done.
    + by rewrite Hsent, app_assoc.
    + inversion Hex as [| | |h ret errno Hw Ev Hl| | |]; subst. by constructor.
    + eapply parent_ok_child, Hok; try done; [by right|by rewrite Ec|]. intros r. rewrite Ec. by apply (Hun (Wrote value)).
  - destruct (child w) eqn:Ec; try done. injection Hstep as <-. exists sent, read.
    assert (ran = false) as -> by (by inversion Hex). split_and!; try done.
    + by apply exchange_execd.
    + eapply parent_ok_child, Hok; try done; [by left|by rewrite Ec|]. unfold settled. cbn. intros r. rewrite Ec. naive_solver.
  - assert (Hne : child w <> Exited) by (intros E; by rewrite E in Hstep).
    assert (w' = set_child w Exited) as -> by (destruct (child w); naive_solver).
    exists sent, read. split_and!; try done.
    + by eapply exchange_exited.
    + eapply parent_ok_child, Hok; try done; [by left|]. unfold settled. cbn. naive_solver.
Qed.

Lemma inv_others ran w l : inv ran w -> inv ran (other_step l w).
Proof. intros (sent & read & H1 & H2 & H3 & H4). exists sent, read. by destruct l. Qed.

(** Reading one queued message keeps the invariant. *)
Lemma inv_read ran w m q : queue w = m :: q -> parent w <> Polling -> inv ran w -> inv ran (set_queue w q (take_in (got w) m)).
Proof.
  intros Hq Hne (sent & read & Hs & Hg & Hex & Hok). exists sent, (read ++ [m]). split_and!; try done.
  - by rewrite Hs, Hq, <- app_assoc.
  - cbn. by rewrite all_received_snoc, Hg.
  - unfold parent_ok in *. cbn. destruct (parent w); intuition congruence.
Qed.

(** The record once the queue is empty is that of everything sent. *)
Lemma got_all ran w : inv ran w -> queue w = [] -> exists sent,
  got w = all_received sent /\ sent = [] ++ sent /\ exchange (child w) (in_leaf w) ran sent /\ parent_ok w sent.
Proof. intros (sent & read & Hs & Hg & Hex & Hok) Hq. rewrite Hq, app_nil_r in Hs. subst. by exists read. Qed.

(** A child past its [exec] or its report has sent the report. *)
Lemma exchange_reported pc placed ran sent :
  exchange pc placed ran sent -> pc = Ready \/ pc = Execd -> exists r, report (all_received sent) = Some r.
Proof.
  intros Hex Hpc. assert (Hr : exchange Ready placed false sent).
  { destruct Hpc as [-> | ->]; inversion Hex; subst; done. }
  inversion Hr as [| | | |h ret errno Hw| |]; subst. unfold all_received. cbn [foldl].
  rewrite take_in_intent, (take_in_report _ _ _ Hw). cbn. eauto.
Qed.

(** Only a child that sent its report, or one that is gone, has a report or is past its hook. *)
Lemma exchange_report_pc pc placed ran sent r :
  exchange pc placed ran sent -> report (all_received sent) = Some r -> pc = Ready \/ pc = Execd \/ pc = Exited.
Proof.
  intros Hex Hr. inversion Hex; subst; auto; unfold all_received in Hr; cbn [foldl] in Hr; rewrite ?take_in_intent in Hr; done.
Qed.

Lemma drained_ok ran w seen :
  inv ran w -> parent w = Reading seen -> queue w = [] ->
  inv ran (set_parent w (drained w seen (is_shut w || write_closed w))).
Proof.
  intros Hi Hp Hq. destruct (got_all _ _ Hi Hq) as (sent & Hg & _ & Hex & Hok).
  exists sent, sent. split_and!; try done; [cbn; by rewrite Hq, app_nil_r|].
  unfold parent_ok in Hok. rewrite Hp in Hok. destruct Hok as (Hs & Hpq & Hr & Hseen).
  unfold parent_ok, drained, placement. cbn. rewrite Hs, Hg.
  destruct (report (all_received sent)) as [r|] eqn:Er; cbn.
  - assert (settled (child w) sent r) by (left; split; [done|by eapply exchange_report_pc]).
    destruct seen; cbn; auto.
  - destruct seen; cbn; [by split_and!; try done; right; auto|].
    destruct (write_closed w) eqn:Ew; cbn; [|done]. split_and!; try done. right. split_and!; try done.
    unfold write_closed, child_has_write in Ew.
    assert (Hpc : child w = Exited \/ child w = Execd).
    { destruct (bool_decide_reflect (child w = Exited)); [by left|]. destruct (bool_decide_reflect (child w = Execd)); [by right|].
      cbn in Ew. by rewrite orb_true_r in Ew. }
    destruct Hpc as [?|Hpc]; [done|]. destruct (exchange_reported _ _ _ _ Hex) as [r Hr']; [by right|congruence].
Qed.

Lemma inv_parent ran w l w' : inv ran w -> parent_step l w = Some w' -> inv ran w'.
Proof.
  intros Hi Hstep. pose proof Hi as (sent & read & Hs & Hg & Hex & Hok). unfold parent_ok in Hok.
  assert (Hmove : forall w1, queue w1 = queue w -> got w1 = got w -> child w1 = child w -> in_leaf w1 = in_leaf w ->
    parent_ok w1 sent -> inv ran w1).
  { intros w1 E1 E2 E3 E4 ?. exists sent, read. by rewrite E1, E2, E3, E4. }
  destruct l, (parent w) eqn:Ep; cbn in Hstep; rewrite Ep in Hstep; try done.
  - (* take *) injection Hstep as <-. apply Hmove; try done; unfold parent_ok; cbn; naive_solver.
  - (* wait's drain *) injection Hstep as <-. unfold recv. destruct (queue w) eqn:Eq; [by apply drained_ok|by apply inv_read; rewrite ?Ep].
  - (* proceed's drain *) injection Hstep as <-. destruct (queue w) eqn:Eq; [|by apply inv_read; rewrite ?Ep].
    apply Hmove; try done; unfold parent_ok; cbn; naive_solver.
  - (* shut's drain *) injection Hstep as <-. destruct (queue w) eqn:Eq; [|by apply inv_read; rewrite ?Ep].
    apply Hmove; try done; unfold parent_ok; cbn; naive_solver.
  - (* poll *) destruct (exited w) eqn:Ex.
    + injection Hstep as <-. apply bool_decide_eq_true in Ex. apply Hmove; try done; unfold parent_ok; cbn; naive_solver.
    + destruct (_ || _) in Hstep; [|done]. injection Hstep as <-. apply Hmove; try done; unfold parent_ok; cbn; naive_solver.
  - (* proceed *) injection Hstep as <-. apply Hmove; try done; unfold parent_ok; cbn; naive_solver.
  - (* close *) injection Hstep as <-. apply Hmove; try done.
  - (* abandon *) injection Hstep as <-. apply Hmove; try done; unfold parent_ok; cbn; naive_solver.
  - (* shutdown *) injection Hstep as <-. apply Hmove; try done; unfold parent_ok; cbn; naive_solver.
Qed.

Lemma inv_run ls : forall ran w w', inv ran w -> run pid w ls = Some w' -> inv (ran || existsb is_exec ls) w'.
Proof.
  induction ls as [|l ls IH]; intros ran w w' Hi Hrun; cbn in Hrun |- *.
  { injection Hrun as <-. by rewrite orb_false_r. }
  destruct (step pid w l) as [w1|] eqn:Es; [|done]. rewrite orb_assoc. apply (IH _ w1); [|done].
  destruct l as [l|l|l]; cbn in Es |- *.
  - by eapply inv_child in Es.
  - rewrite orb_false_r. by eapply inv_parent.
  - injection Es as <-. rewrite orb_false_r. by apply inv_others.
Qed.

Lemma not_exec ls : ByChild Exec ∉ ls <-> existsb is_exec ls = false.
Proof.
  split.
  - intros H. destruct (existsb is_exec ls) eqn:E; [|done]. apply existsb_exists in E as (l & Hin & Hl).
    destruct H. apply list_elem_of_In. by destruct l as [[]| |].
  - intros H Hin%list_elem_of_In. rewrite (proj2 (existsb_exists is_exec ls)) in H; [done|]. by exists (ByChild Exec).
Qed.

(** C7: The verdict a parent takes, and the record it keeps of a spawn it abandons, are the truth
    about the child whatever the interleaving, and stay so. *)
Theorem verdict_is_the_truth ls w :
  run pid start ls = Some w ->
  (forall r, parent w = Took r ->
     (r = Placed -> in_leaf w = true)
     /\ (forall e, r = WriteFailed e -> in_leaf w = false)
     /\ (r = NotReported -> child w = Exited /\ ByChild Exec ∉ ls)
     /\ (r <> Placed -> in_leaf w = true -> ByChild Exec ∉ ls))
  /\ (parent w = Shut ->
     (report (got w) = Some Placed -> in_leaf w = true)
     /\ (forall e, report (got w) = Some (WriteFailed e) -> in_leaf w = false)
     /\ (report (got w) = None -> ByChild Exec ∉ ls)
     /\ (rpid (got w) = None -> in_leaf w = false /\ report (got w) = None)
     /\ (forall p, rpid (got w) = Some p \/ pidfd (got w) = Some p \/ proc_dir (got w) = Some p -> p = pid)).
Proof.
  intros Hrun. apply (inv_run ls false) in Hrun; [|apply inv_start]. cbn in Hrun. split.
  - intros r Hp. destruct Hrun as (sent & read & Hs & Hg & Hex & Hok). unfold parent_ok in Hok. rewrite Hp in Hok.
    pose proof (exchange_record _ _ _ _ Hex) as (R1 & R2 & R3 & R4 & _).
    rewrite !not_exec. destruct Hok as [_ [[Hr Hpc]|(-> & Hr & Hpc)]]; [|naive_solver].
    split_and!; [naive_solver..| |].
    + intros ->. congruence.
    + intros Hne Hl. destruct r; [congruence|done|]. apply R2 in Hr. congruence.
  - intros Hp. assert (Hq : queue w = []). { destruct Hrun as (? & ? & _ & _ & _ & Hok). unfold parent_ok in Hok. rewrite Hp in Hok. naive_solver. }
    destruct (got_all _ _ Hrun Hq) as (sent & Hg & _ & Hex & _). rewrite Hg, not_exec.
    pose proof (exchange_record _ _ _ _ Hex) as (R1 & R2 & R3 & R4 & R5 & R6). naive_solver.
Qed.


(** * Neither act waits on anything but the child *)

(** What the parent does next, once it has begun to take the verdict or to abandon. *)
Definition next (w : World) : ParentStep :=
  match parent w with
  | Spawning => Take
  | Reading _ | Proceeding _ | Shutting => Recv
  | Polling => Poll
  | Drained _ => Proceed true
  | Abandoning => Shutdown
  | Sent _ | Took _ | Shut => Close
  end.

Definition done_ (w : World) : bool := match parent w with Took _ | Shut => true | _ => false end.

(** The parent alone, until it is done. *)
Fixpoint alone (fuel : nat) (w : World) : option World :=
  if done_ w then Some w
  else match fuel with O => None | S fuel => w' ← parent_step (next w) w; alone fuel w' end.

Definition weight (w : World) : nat :=
  3 * length (queue w) +
  match parent w with
  | Polling => if exited w then 6 else 8
  | Reading false => 7
  | Reading true => 5
  | Proceeding _ => 4
  | Drained _ => 3
  | Sent _ | Abandoning => 2
  | Shutting => 1
  | Spawning | Took _ | Shut => 0
  end.

Definition begun (w : World) : Prop := parent w <> Spawning.

Definition child_done (w : World) : Prop := child w = Ready \/ child w = Execd \/ child w = Exited.

Lemma next_step ran w :
  inv ran w -> begun w -> child_done w -> done_ w = false ->
  exists w', parent_step (next w) w = Some w' /\ begun w' /\ child_done w' /\ (weight w' < weight w)%nat.
Proof.
  intros Hi Hb Hc Hd. unfold begun, child_done, next, weight, done_ in *.
  destruct (parent w) eqn:Ep; try done; cbn; rewrite Ep.
  - unfold recv. destruct (queue w) as [|m q] eqn:Eq.
    + eexists. split; [done|]. cbn. split; [unfold drained; by repeat case_match|]. split; [done|].
      rewrite Eq. cbn. destruct (got_all _ _ Hi Eq) as (sent & Hg & _ & Hex & _).
      unfold drained. destruct seen_exit; cbn; [lia|]. destruct (report (got w)) eqn:Er; [lia|].
      destruct (_ || _); [lia|]. unfold exited. cbn. destruct (bool_decide_reflect (child w = Exited)) as [E|E]; [lia|].
      destruct (exchange_reported _ _ _ _ Hex) as [r Hr]; [naive_solver|]. rewrite Hg, Hr in Er. done.
    + eexists. split; [done|]. cbn. rewrite Ep. split_and!; try done. lia.
  - destruct (exited w) eqn:Ee.
    + eexists. split; [done|]. cbn. split_and!; try done. lia.
    + assert (Hq : negb (bool_decide (queue w = [])) = true).
      { destruct (bool_decide_reflect (queue w = [])) as [Eq|]; [|done].
        destruct Hi as (sent & read & Hs & Hg & Hex & Hok). rewrite Eq, app_nil_r in Hs. subst read.
        unfold parent_ok in Hok. rewrite Ep in Hok. destruct Hok as (_ & _ & _ & Hn). rewrite Hg in Hn.
        destruct (exchange_reported _ _ _ _ Hex) as [r Hr]; [|congruence].
        apply bool_decide_eq_false in Ee. naive_solver. }
      rewrite Hq. eexists. split; [done|]. cbn. split_and!; try done. lia.
  - destruct (queue w) as [|m q] eqn:Eq; eexists; (split; [done|]); cbn; rewrite ?Ep, ?Eq; cbn; split_and!; try done; lia.
  - eexists. split; [done|]. cbn. split_and!; try done. lia.
  - eexists. split; [done|]. cbn. split_and!; try done. lia.
  - eexists. split; [done|]. cbn. split_and!; try done. lia.
  - destruct (queue w) as [|m q] eqn:Eq; eexists; (split; [done|]); cbn; rewrite ?Ep, ?Eq; cbn; split_and!; try done; lia.
Qed.

Lemma alone_ends ran n w : (weight w <= n)%nat -> inv ran w -> begun w -> child_done w ->
  exists w', alone n w = Some w' /\ done_ w' = true.
Proof.
  revert w. induction n as [|n IH]; intros w Hn Hi Hb Hc; cbn.
  all: destruct (done_ w) eqn:Ed; [eauto|].
  { destruct (next_step _ _ Hi Hb Hc Ed) as (w' & _ & _ & _ & Hw). lia. }
  destruct (next_step _ _ Hi Hb Hc Ed) as (w' & Hs & Hb' & Hc' & Hw).
  rewrite Hs. cbn. apply IH; [lia|by eapply inv_parent|done|done].
Qed.

Lemma queue_bound ran w : inv ran w -> (length (queue w) <= 2)%nat.
Proof.
  intros (sent & read & Hs & _ & Hex & _).
  assert (length sent <= 2)%nat.
  { clear Hs. assert (forall pc b r l, exchange pc b r l -> (length l <= 2)%nat) as H; [|by eapply H].
    induction 1; cbn in *; lia. }
  rewrite Hs, length_app in H. lia.
Qed.

(** C8: Once begun, neither act waits for anything but the child: from the moment the child has
    sent its report or is gone, the parent's own steps, at most fourteen, end the exchange, whoever
    else still holds the channel. *)
Theorem exchange_ends ls w :
  run pid start ls = Some w -> begun w -> child_done w ->
  exists w', alone 14 w = Some w' /\ done_ w' = true.
Proof.
  intros Hrun Hb Hc. apply (inv_run ls false) in Hrun as Hi; [|apply inv_start].
  eapply alone_ends; try done. pose proof (queue_bound _ _ Hi). unfold weight. repeat case_match; lia.
Qed.

End Exchange.

(** A placed child that [exec]s; the parent polls once before the report. *)
Definition placed_run : list Label :=
  [ByParent Take; ByChild Hook; ByOther Fork; ByChild (SendIntent PidfdHandle None); ByParent Recv; ByParent Recv;
   ByChild (Write 1 0); ByChild (SendReport None); ByChild Exec; ByParent Poll; ByParent Recv; ByParent Recv;
   ByParent Recv; ByParent (Proceed true); ByParent Close].

(** A spawn abandoned between its child's write and its report. *)
Definition abandoned_run : list Label :=
  [ByChild Hook; ByChild (SendIntent NoHandle None); ByChild (Write 1 0); ByParent Abandon; ByParent Shutdown;
   ByChild (SendReport None); ByParent Recv; ByParent Recv].

Lemma verdict_is_the_truth_witness :
  match run 77 start placed_run, run 77 start abandoned_run with
  | Some w, Some w' =>
      (parent w = Took Placed /\ in_leaf w = true)
      /\ parent w' = Shut /\ report (got w') = None /\ in_leaf w' = true /\ ByChild Exec ∉ abandoned_run
  | _, _ => False
  end.
Proof.
  destruct (run 77 start placed_run) as [w|] eqn:E; [|by vm_compute in E].
  destruct (run 77 start abandoned_run) as [w'|] eqn:E'; [|by vm_compute in E'].
  assert (Hw : parent w = Took Placed) by (vm_compute in E; by injection E as <-).
  assert (Hw' : parent w' = Shut /\ report (got w') = None /\ in_leaf w' = true) by (vm_compute in E'; by injection E' as <-).
  destruct Hw' as (H1 & H2 & H3). assert (Hpid : 0 < 77 < 2 ^ 31) by lia. split; [split; [done|]|].
  - by apply (proj1 (verdict_is_the_truth 77 Hpid placed_run w E) Placed Hw).
  - split_and!; try done. by apply (proj2 (verdict_is_the_truth 77 Hpid abandoned_run w' E') H1).
Defined.

(** A child that reported before the spawn was abandoned still [exec]s. *)
Example execs_after_abandonment :
  (fun w => (parent w, child w)) <$> run 77 start
    [ByChild Hook; ByChild (SendIntent PidfdHandle None); ByChild (Write 1 0); ByChild (SendReport None);
     ByParent Abandon; ByParent Shutdown; ByParent Recv; ByParent Recv; ByParent Recv; ByChild Exec] = Some (Shut, Execd).
Proof. by vm_compute. Qed.

Definition died_run : list Label := [ByOther Fork; ByParent Take; ByChild Hook; ByChild Die; ByParent Recv].

Lemma exchange_ends_witness :
  match run 77 start died_run with Some w => exists w', alone 14 w = Some w' /\ done_ w' = true | None => False end.
Proof.
  destruct (run 77 start died_run) as [w|] eqn:E; [|by vm_compute in E].
  assert (Hw : parent w = Polling /\ child w = Exited) by (vm_compute in E; by injection E as <-).
  destruct Hw as [Hp Hc]. assert (Hpid : 0 < 77 < 2 ^ 31) by lia.
  apply (exchange_ends 77 Hpid died_run w E); [by (unfold begun; rewrite Hp)|right; by right].
Defined.
