(* ===== verification/History.v ===== *)
(** Code that makes calls whose answers it does not control. A computation carries the history of
    its calls with their answers; an answer may depend on all of it. *)
From S2P Require Import Prelude.

Section History.
  Context {E : Type}.

Definition Hist (A : Type) : Type := list E -> A * list E.

Definition ret {A} (a : A) : Hist A := fun h => (a, h).

Definition bind {A B} (m : Hist A) (k : A -> Hist B) : Hist B := fun h => let '(a, h1) := m h in k a h1.

(** A call: [answer] is what it answers after a history, [ev] its record. *)
Definition call {A} (answer : list E -> A) (ev : A -> E) : Hist A := fun h => (answer h, h ++ [ev (answer h)]).

Definition note (e : E) : Hist unit := fun h => (tt, h ++ [e]).

(** [m] after [h] gives [a] and makes the calls [t]. *)
Definition runs {A} (m : Hist A) (h : list E) (a : A) (t : list E) : Prop := m h = (a, h ++ t).

Lemma runs_ret {A} (a : A) h : runs (ret a) h a [].
Proof. unfold runs, ret. by rewrite app_nil_r. Qed.

Lemma runs_bind {A B} (m : Hist A) (k : A -> Hist B) h a b t t' :
  runs m h a t -> runs (k a) (h ++ t) b t' -> runs (bind m k) h b (t ++ t').
Proof. unfold runs, bind. intros -> ->. by rewrite app_assoc. Qed.

Lemma runs_call {A} (answer : list E -> A) ev h : runs (call answer ev) h (answer h) [ev (answer h)].
Proof. done. Qed.

Lemma runs_note e h : runs (note e) h tt [e].
Proof. done. Qed.

(** The run of [m] after [h] has an answer and calls in [Q]. *)
Definition wp {A} (m : Hist A) (h : list E) (Q : A -> list E -> Prop) : Prop := exists a t, runs m h a t /\ Q a t.

Lemma wp_ret {A} (a : A) h (Q : A -> list E -> Prop) : Q a [] -> wp (ret a) h Q.
Proof. intros HQ. exists a, []. split; [apply runs_ret|done]. Qed.

Lemma wp_call {A} (answer : list E -> A) ev h (Q : A -> list E -> Prop) :
  Q (answer h) [ev (answer h)] -> wp (call answer ev) h Q.
Proof. intros HQ. eexists _, _. split; [apply runs_call|done]. Qed.

Lemma wp_note e h (Q : unit -> list E -> Prop) : Q tt [e] -> wp (note e) h Q.
Proof. intros HQ. eexists _, _. split; [apply runs_note|done]. Qed.

(** An answer that leaves no record. *)
Lemma wp_look {A} (answer : list E -> A) h (Q : A -> list E -> Prop) : Q (answer h) [] -> wp (fun h => (answer h, h)) h Q.
Proof. intros HQ. eexists _, _. split; [|exact HQ]. unfold runs. by rewrite app_nil_r. Qed.

Lemma wp_bind {A B} (m : Hist A) (k : A -> Hist B) h (Q : B -> list E -> Prop) :
  wp m h (fun a t => wp (k a) (h ++ t) (fun b t' => Q b (t ++ t'))) -> wp (bind m k) h Q.
Proof.
  intros (a & t & Hr & b & t' & Hr' & HQ). exists b, (t ++ t'). split; [by eapply runs_bind|done].
Qed.

Lemma wp_mono {A} (m : Hist A) h (P Q : A -> list E -> Prop) : wp m h P -> (forall a t, P a t -> Q a t) -> wp m h Q.
Proof. intros (a & t & Hr & HP) HPQ. exists a, t. auto. Qed.

(** There is one run. *)
Lemma wp_runs {A} (m : Hist A) h (Q : A -> list E -> Prop) a t : wp m h Q -> runs m h a t -> Q a t.
Proof.
  intros (a' & t' & Hr' & HQ) Hr. unfold runs in *. rewrite Hr' in Hr.
  injection Hr as <- Ht. by apply app_inv_head in Ht as <-.
Qed.

End History.

Arguments Hist : clear implicits.

Declare Scope history_scope.
Notation "'do!' x ':=' m 'in' k" := (bind m (fun x => k))
  (at level 10, x pattern, m at level 100, k at level 200) : history_scope.
Notation "'do2!' a , b ':=' m 'in' k" := (bind m (fun p => let (a, b) := p in k))
  (at level 10, a name, b name, m at level 100, k at level 200) : history_scope.
Open Scope history_scope.

(** A call's step of a proof about a computation; a pure step; a recorded note. *)
Ltac wp_step :=
  lazymatch goal with
  | |- wp (bind _ _) _ _ => apply wp_bind
  | |- wp (ret _) _ _ => apply wp_ret
  | |- wp (call _ _) _ _ => apply wp_call
  | |- wp (note _) _ _ => apply wp_note
  | |- wp (fun h => (_, h)) _ _ => apply wp_look
  end.

(** Use a known specification of a part. *)
Ltac wp_use lem := eapply wp_mono; [apply lem|].

(** * Protocols: an automaton that the calls of a computation keep to, whatever they answer *)

Section Protocol.
  Context {E S : Type} (step : S -> E -> option S).

Fixpoint accepts (s : S) (t : list E) : option S :=
  match t with [] => Some s | e :: t => s' ← step s e; accepts s' t end.

(** From [s], the calls of [m] are accepted, and [Q] holds of its answer and the state reached. *)
Definition keeps {A} (s : S) (m : Hist E A) (Q : A -> S -> Prop) : Prop :=
  forall h, wp m h (fun a t => exists s', accepts s t = Some s' /\ Q a s').

Lemma accepts_app s t t' : accepts s (t ++ t') = (s' ← accepts s t; accepts s' t').
Proof. revert s. induction t as [|e t IH]; intros s; [done|]. cbn. destruct (step s e); [apply IH|done]. Qed.

Lemma keeps_ret {A} s (a : A) (Q : A -> S -> Prop) : Q a s -> keeps s (ret a) Q.
Proof. intros HQ h. apply wp_ret. by exists s. Qed.

Lemma keeps_call {A} s answer ev (Q : A -> S -> Prop) :
  (forall a, exists s', step s (ev a) = Some s' /\ Q a s') -> keeps s (call answer ev) Q.
Proof. intros Hs h. apply wp_call. destruct (Hs (answer h)) as (s' & He & HQ). exists s'. cbn. by rewrite He. Qed.

Lemma keeps_note s e (Q : unit -> S -> Prop) s' : step s e = Some s' -> Q tt s' -> keeps s (note e) Q.
Proof. intros He HQ h. apply wp_note. exists s'. cbn. by rewrite He. Qed.

Lemma keeps_look {A} s (answer : list E -> A) (Q : A -> S -> Prop) : (forall a, Q a s) -> keeps s (fun h => (answer h, h)) Q.
Proof. intros HQ h. apply wp_look. by exists s. Qed.

Lemma keeps_mono {A} s (m : Hist E A) (Q R : A -> S -> Prop) : keeps s m Q -> (forall a s', Q a s' -> R a s') -> keeps s m R.
Proof. intros Hm HQR h. eapply wp_mono; [apply Hm|]. intros a t (s' & Ht & HQ). eauto. Qed.

Lemma keeps_bind {A B} s (m : Hist E A) (k : A -> Hist E B) R :
  keeps s m (fun a s' => keeps s' (k a) R) -> keeps s (bind m k) R.
Proof.
  intros Hm h. apply wp_bind. eapply wp_mono; [apply Hm|]. intros a t (s' & Ht & HQ). eapply wp_mono; [apply HQ|].
  intros b t' (s'' & Ht' & HR). exists s''. by rewrite accepts_app, Ht.
Qed.

Lemma keeps_runs {A} s (m : Hist E A) (Q : A -> S -> Prop) h a t :
  keeps s m Q -> runs m h a t -> exists s', accepts s t = Some s' /\ Q a s'.
Proof. intros Hm Hr. exact (wp_runs _ _ _ _ _ (Hm h) Hr). Qed.

End Protocol.

(** A call's step of a proof that a computation keeps to a protocol; a part with a known lemma. *)
Ltac keeps_step :=
  lazymatch goal with
  | |- keeps _ _ (bind _ _) _ => apply keeps_bind
  | |- keeps _ _ (ret _) _ => apply keeps_ret
  | |- keeps _ _ (call _ _) _ => apply keeps_call; intros ?
  | |- keeps _ _ (note _) _ => eapply keeps_note; [reflexivity|]
  end.

Ltac keeps_use lem := eapply keeps_mono; [apply lem|].

(** Run a proof that a computation keeps to a protocol from a known state through all answers, taking
    apart the innermost choice the rest waits for. *)
Ltac choose_in x :=
  lazymatch x with
  | context [match ?y with _ => _ end] => choose_in y
  | _ => first [is_var x; destruct x | destruct x eqn:?]
  end.

Ltac keeps_go :=
  repeat first
    [ keeps_step
    | lazymatch goal with |- exists s', _ = Some s' /\ _ => eexists; split; [reflexivity|] end
    | progress cbn
    | match goal with |- keeps _ _ (match ?x with _ => _ end) _ => choose_in x end ].

(** * The kinds of call a computation makes *)

Section Only.
  Context {E : Type} (P : E -> bool).

(** All calls of [m] are in [P], whatever they answer. *)
Definition only {A} (m : Hist E A) : Prop := forall h, wp m h (fun _ t => Forall (fun e => P e = true) t).

Lemma only_ret {A} (a : A) : only (ret a).
Proof. intros h. apply wp_ret. constructor. Qed.

Lemma only_call {A} answer (ev : A -> E) : (forall a, P (ev a) = true) -> only (call answer ev).
Proof. intros HP h. apply wp_call. by repeat constructor. Qed.

Lemma only_note e : P e = true -> only (note e).
Proof. intros HP h. apply wp_note. by repeat constructor. Qed.

Lemma only_look {A} (answer : list E -> A) : only (fun h => (answer h, h)).
Proof. intros h. apply wp_look. constructor. Qed.

Lemma only_bind {A B} (m : Hist E A) (k : A -> Hist E B) : only m -> (forall a, only (k a)) -> only (bind m k).
Proof.
  intros Hm Hk h. apply wp_bind. wp_use Hm. intros a t Ht. wp_use Hk. intros b t' Ht'. by apply Forall_app.
Qed.

(** A protocol takes the calls in [P] in every state of [I], and stays in it. *)
Lemma only_keeps {A S} (step : S -> E -> option S) (I : S -> Prop) s (m : Hist E A) :
  only m -> I s -> (forall s e, I s -> P e = true -> exists s', step s e = Some s' /\ I s') -> keeps step s m (fun _ s' => I s').
Proof.
  intros Hm Hi Hs h. wp_use Hm. intros a t Ht. clear Hm. revert s Hi. induction Ht as [|e t He _ IH]; intros s Hi; [by exists s|].
  destruct (Hs s e Hi He) as (s' & Hst & Hi'). cbn. rewrite Hst. by apply IH.
Qed.

End Only.

(** Decide [only] for a computation whose definitions are unfolded. *)
Ltac only_auto :=
  repeat first
    [ assumption
    | apply only_bind; [|intros ?]
    | apply only_ret
    | apply only_call; intros ?; reflexivity
    | apply only_note; reflexivity
    | match goal with |- only _ (match ?x with _ => _ end) => destruct x end ].

(** * A computation within one that makes other calls too *)

Section Embed.
  Context {E F : Type} (inj : E -> F) (proj : F -> option E).

(** [m] sees the calls that are its own. *)
Definition embed {A} (m : Hist E A) : Hist F A :=
  fun h => let h0 := omap proj h in let '(a, h1) := m h0 in (a, h ++ (inj <$> drop (length h0) h1)).

Lemma wp_embed {A} (m : Hist E A) h (Q : A -> list F -> Prop) :
  wp m (omap proj h) (fun a t => Q a (inj <$> t)) -> wp (embed m) h Q.
Proof.
  intros (a & t & Hr & HQ). exists a, (inj <$> t). split; [|done]. unfold runs, embed in *. by rewrite Hr, drop_app_length.
Qed.

Lemma keeps_embed {A S T} (step : S -> E -> option S) (step' : T -> F -> option T) (f : S -> T) s (m : Hist E A) Q :
  (forall s e s', step s e = Some s' -> step' (f s) (inj e) = Some (f s')) ->
  keeps step s m Q -> keeps step' (f s) (embed m) (fun a s' => exists s1, s' = f s1 /\ Q a s1).
Proof.
  intros Hf Hm h. apply wp_embed. eapply wp_mono; [apply Hm|]. intros a t (s' & Ht & HQ). exists (f s'). split; [|by exists s'].
  clear HQ Hm. revert s Ht. induction t as [|e t IH]; intros s Ht; cbn in Ht |- *; [by injection Ht as <-|].
  destruct (step s e) as [s1|] eqn:Es; [|done]. rewrite (Hf _ _ _ Es). by apply IH.
Qed.

End Embed.
