(* ===== verification/LeafEnd.v ===== *)
(** Answering for the child of an abandoned spawn: [end_child], [end_front] and what they call, of
    [src/containment/cgroup/leaf.rs], with [wait_warning] of [src/wait/teardown_warn.rs]. The child is
    what it named itself ([Received] of the placement exchange); each call is recorded with its
    answer. A call interrupted by a signal is made again: its answer is the first other one. *)
From S2P Require Import Prelude IoErrors CrateError Placement UnixGroup History.
Local Open Scope Z_scope.

Definition ECHILD : Z := 10.

(** [FrontFate] of [src/child/spawn.rs]. *)
Inductive FrontFate := FrontReaped | FrontLeftUnreaped | FrontUnaccounted | FrontUnplaced.

(** [ChildFate] of [leaf.rs]; the reason of [Unkillable] is left out. *)
Inductive Fate := NeverReached | Gone_ | Killed_ | Unkillable.

Inductive Abandonment := Ended | MaybeUnreaped | OutOfReach | Front (f : FrontFate).

(** What names a child to its reaper. *)
Inductive WaitId := WaitPidfd (p : Z) | WaitPid (pid : Z).

(** A handle on the child: its pidfd, or its [/proc] directory. *)
Inductive Ev :=
| LookPidfd (p : Z) (a : result Z unit)
| LookProcDir (p : Z) (opens : bool)
| GroupThrough (p signo : Z) (a : result Z unit)
| GroupByNumber (pgid : Z) (a : result Z unit)
| KillThrough (p : Z) (a : result Z unit)
| SlowLook (ended : bool)
| WarnSlow
| Reap (by_ : WaitId) (a : result Z unit)
| Probe (by_ : WaitId) (a : result Z bool)
| BackgroundReap (by_ : WaitId)
| Placed_ (a : result IoError bool)
| TearDownThrough (p : Z)
| WatchFront (pid : Z) (place : option (result IoError bool))
| Rmdir (a : result IoError unit)
| WriteKill (a : result IoError unit)
| ReadEvents (a : result IoError bytes)
| WaitDrained (a : result Error unit)
| RemoveChildren (a : result IoError Z)
| LeftBehind
| LeftByRequest
| WarnOutOfReach.

Notation H := (Hist Ev).

(** The system's answers. *)
Class ChildSys := {
  waitid_nowait : list Ev -> Z -> result Z unit;
  proc_dir_opens : list Ev -> Z -> bool;
  group_through : list Ev -> Z -> result Z unit;
  group_probe : list Ev -> Z -> result Z unit;
  group_by_number : list Ev -> Z -> result Z unit;
  clones : list Ev -> bool;
  signal_handle : list Ev -> Z -> result Z unit;
  ended_in_time : list Ev -> bool;
  waitid_exited : list Ev -> WaitId -> result Z unit;
  waitid_nohang : list Ev -> WaitId -> result Z bool
}.

Section End_.
  Context `{ChildSys}.

(** [Pid::from_raw] of the pid the intent named: a positive [i32]. *)
Definition raw_pid (received : Received) : option Z :=
  pid ← rpid received; if (0 <? pid) && (pid <=? 2 ^ 31 - 1) then Some pid else None.

Definition wait_id (received : Received) (pid : Z) : WaitId :=
  match pidfd received with Some p => WaitPidfd p | None => WaitPid pid end.

(** [still_unreaped]: only [ECHILD] says reaped. *)
Definition still_unreaped (received : Received) : H bool :=
  match pidfd received, proc_dir received with
  | Some p, _ =>
      do! a := call (fun h => waitid_nowait h p) (LookPidfd p) in
      ret (negb (bool_decide (a = Err ECHILD)))
  | None, Some d => call (fun h => proc_dir_opens h d) (LookProcDir d)
  | None, None => ret false
  end.

(** [kill_group], through [send_to_group]: by the pidfd with the group flag; where the kernel refuses
    that, by number after the root's check, which asks the pidfd and then looks at the child. The
    handle may be a [/proc] directory, which the kernel takes as a pidfd here. *)
Definition kill_group (handle : Z) (received : Received) (pid : Z) : H (result Error (result Z unit)) :=
  do! sent := call (fun h => group_through h handle) (GroupThrough handle SIGKILL) in
  match sent with
  | Ok u => ret (Ok (Ok u))
  | Err e =>
      if e =? EINVAL then
        do! asked := call (fun h => group_probe h handle) (GroupThrough handle 0) in
        do! answer :=
          match pidfd_group_has_member asked with
          | Some true => ret (Ok tt)
          | Some false => ret (Err Empty)
          | None => do! u := still_unreaped received in ret (if u : bool then Ok tt else Err Unproven)
          end in
        match answer with
        | Err _ => ret (Err (Unassessable None))
        | Ok _ =>
            do! a := call (fun h => group_by_number h pid) (GroupByNumber pid) in
            ret (Ok a)
        end
      else ret (Ok (Err e))
  end.

Definition kill_group_outside_leaf (handle : Z) (received : Received) (pid : Z) : H (result Error bool) :=
  do! r := kill_group handle received pid in
  ret match r with
      | Err e => Err e
      | Ok (Ok _) => Ok true
      | Ok (Err e) => if e =? ESRCH then Ok false else Err (Io (from_raw_os_error e))
      end.

Definition kill_through (handle : Z) : H (result Z unit) := call (fun h => signal_handle h handle) (KillThrough handle).

(** [wait_warning]: [due] says whether there is a threshold. *)
Definition wait_warning {E R} (due : bool) (ended_by : Hist E bool) (warn : Hist E unit) (wait : Hist E R) : Hist E R :=
  do! _ := (if due then do! ended := ended_by in if ended : bool then ret tt else warn else ret tt) in
  wait.

Definition wait_for_exit_warning (received : Received) (pid : Z) (due : bool) : H (result Z unit) :=
  wait_warning due (call ended_in_time SlowLook) (note WarnSlow)
    (call (fun h => waitid_exited h (wait_id received pid)) (Reap (wait_id received pid))).

Definition write_failed (received : Received) : bool :=
  match report received with Some (WriteFailed _) => true | _ => false end.

Definition end_reaped_child (handle : Z) (received : Received) (pid : Z) : H Fate :=
  if negb (write_failed received) then ret Gone_
  else do! _ := kill_group_outside_leaf handle received pid in ret Gone_.

Definition handle_of (received : Received) : option Z :=
  match pidfd received with Some p => Some p | None => proc_dir received end.

(** [reap_in_background] of the child as [id_owned] names it: a pidfd that cannot be duplicated leaves
    its number. *)
Definition reap_in_background (received : Received) (pid : Z) : H unit :=
  do! _ := call (fun h => match pidfd received with Some p => if clones h then WaitPidfd p else WaitPid pid | None => WaitPid pid end)
             BackgroundReap in
  ret tt.

Definition end_child (received : Received) (due : bool) : H Fate :=
  match raw_pid received with
  | None => ret NeverReached
  | Some pid =>
      match handle_of received with
      | None => ret Unkillable
      | Some handle =>
          do! unreaped := still_unreaped received in
          if negb unreaped then end_reaped_child handle received pid
          else
            do! group :=
              (if write_failed received then do! g := kill_group_outside_leaf handle received pid in ret (Some g)
               else ret None) in
            do! killed := kill_through handle in
            match killed with
            | Err e =>
                if e =? ESRCH then ret (match group with Some (Ok true) => Killed_ | _ => Gone_ end)
                else
                  do! _ := reap_in_background received pid in
                  ret Unkillable
            | Ok _ =>
                do! _ := wait_for_exit_warning received pid due in
                ret Killed_
            end
      end
  end.

(** [end_front]; [reached] places the front. *)
Definition end_front (received : Received) (due : bool) (reached : H (result IoError bool)) : H Abandonment :=
  match raw_pid received with
  | None => ret MaybeUnreaped
  | Some pid =>
      match handle_of received with
      | None => ret (Front FrontUnaccounted)
      | Some _ =>
          do! placed := reached in
          do! unreaped := still_unreaped received in
          if negb unreaped then ret Ended
          else
            do! exited := call (fun h => waitid_nohang h (wait_id received pid)) (Probe (wait_id received pid)) in
            match exited with
            | Ok true => ret (Front FrontReaped)
            | Err e => ret (if e =? ECHILD then Ended else Front FrontUnaccounted)
            | Ok false =>
                match placed with
                | Ok false => ret (Front FrontLeftUnreaped)
                | Err _ => ret (Front FrontUnplaced)
                | Ok true =>
                    do! status := wait_for_exit_warning received pid due in
                    ret (match status with
                         | Ok _ => Front FrontReaped
                         | Err e => if e =? ECHILD then Front FrontReaped else Front FrontUnaccounted
                         end)
                end
            end
      end
  end.


(** * What a trace of calls says *)

Definition signals (e : Ev) : bool :=
  match e with
  | GroupThrough _ s _ => negb (s =? 0)
  | GroupByNumber _ _ | KillThrough _ _ | WriteKill _ | TearDownThrough _ => true
  | _ => false
  end.

(** The calls just before a send by the group's number, latest first: the pidfd shows a member of the
    group, or cannot tell and the child is seen unreaped. *)
Definition shown_its_group (last : list Ev) : bool :=
  match last with
  | GroupThrough _ 0 (Ok _) :: _ => true
  | LookPidfd _ a :: GroupThrough _ 0 (Err e) :: _ => negb (e =? ESRCH) && negb (bool_decide (a = Err ECHILD))
  | LookProcDir _ opens :: GroupThrough _ 0 (Err e) :: _ => negb (e =? ESRCH) && opens
  | _ => false
  end.

Fixpoint numbers_shown (last t : list Ev) : bool :=
  match t with
  | [] => true
  | e :: t => (match e with GroupByNumber _ _ => shown_its_group last | _ => true end) && numbers_shown (e :: last) t
  end.

(** [w] names the child to a wait: by its pidfd, or, where it has none, by the number it was started under. *)
Definition names_child (received : Received) (pid : Z) (w : WaitId) : bool :=
  match w with
  | WaitPidfd q => bool_decide (pidfd received = Some q)
  | WaitPid n => (n =? pid) && bool_decide (pidfd received = None)
  end.

(** A call on the child [pid] alone: through its handle [p], by its group's number, which is its own, or
    waiting for it. A signal to its group is a kill or the check that sends nothing. Only the background reaper
    may be left the number of a child that has a pidfd, which could not be duplicated. *)
Definition own_call (received : Received) (p pid : Z) (e : Ev) : bool :=
  match e with
  | LookPidfd q _ | LookProcDir q _ | KillThrough q _ => q =? p
  | GroupThrough q s _ => (q =? p) && ((s =? 0) || (s =? SIGKILL))
  | GroupByNumber n _ => n =? pid
  | Reap w _ | Probe w _ => names_child received pid w
  | BackgroundReap w => names_child received pid w || match w with WaitPid n => n =? pid | _ => false end
  | SlowLook _ | WarnSlow => true
  | _ => false
  end.

(** * The runs of the parts *)

Inductive look_of (received : Received) : bool -> list Ev -> Prop :=
| look_pidfd p a : pidfd received = Some p -> look_of received (negb (bool_decide (a = Err ECHILD))) [LookPidfd p a]
| look_dir d b : pidfd received = None -> proc_dir received = Some d -> look_of received b [LookProcDir d b]
| look_none : handle_of received = None -> look_of received false [].

Lemma still_unreaped_runs received h : wp (still_unreaped received) h (look_of received).
Proof.
  unfold still_unreaped. destruct (pidfd received) as [p|] eqn:Ep; [|destruct (proc_dir received) as [d|] eqn:Ed].
  - repeat wp_step. by constructor.
  - wp_step. by constructor.
  - wp_step. constructor. unfold handle_of. by rewrite Ep.
Qed.

Inductive group_sent (handle : Z) (received : Received) (pid : Z) : result Error (result Z unit) -> list Ev -> Prop :=
| sent_through a : a <> Err EINVAL -> group_sent handle received pid (Ok a) [GroupThrough handle SIGKILL a]
| sent_empty :
    group_sent handle received pid (Err (Unassessable None)) [GroupThrough handle SIGKILL (Err EINVAL); GroupThrough handle 0 (Err ESRCH)]
| sent_member u a :
    group_sent handle received pid (Ok a) [GroupThrough handle SIGKILL (Err EINVAL); GroupThrough handle 0 (Ok u); GroupByNumber pid a]
| sent_unproven e look : e <> ESRCH -> look_of received false look ->
    group_sent handle received pid (Err (Unassessable None))
      ([GroupThrough handle SIGKILL (Err EINVAL); GroupThrough handle 0 (Err e)] ++ look)
| sent_proven e look a : e <> ESRCH -> look_of received true look ->
    group_sent handle received pid (Ok a)
      ([GroupThrough handle SIGKILL (Err EINVAL); GroupThrough handle 0 (Err e)] ++ look ++ [GroupByNumber pid a]).

Lemma kill_group_runs handle received pid h : wp (kill_group handle received pid) h (group_sent handle received pid).
Proof.
  unfold kill_group. do 2 wp_step. destruct (group_through h handle) as [u|e] eqn:E1; [wp_step; by constructor|].
  destruct (Z.eqb_spec e EINVAL) as [->|He]; [|wp_step; constructor; congruence].
  do 2 wp_step. cbn [app]. destruct (group_probe _ handle) as [u|e] eqn:E2; cbn [pidfd_group_has_member].
  - repeat wp_step. cbn. by constructor.
  - destruct (Z.eqb_spec e ESRCH) as [->|He]; [repeat wp_step; constructor|].
    do 2 wp_step. wp_use still_unreaped_runs. intros u t Ht. wp_step. rewrite app_nil_r.
    destruct u; repeat wp_step; rewrite ?app_nil_r; by constructor.
Qed.

(** [kill_group_outside_leaf]'s answer to what was sent. *)
Definition group_answer (r : result Error (result Z unit)) : result Error bool :=
  match r with
  | Err e => Err e
  | Ok (Ok _) => Ok true
  | Ok (Err e) => if e =? ESRCH then Ok false else Err (Io (from_raw_os_error e))
  end.

Lemma kill_group_outside_leaf_runs handle received pid h :
  wp (kill_group_outside_leaf handle received pid) h (fun r t => exists s, group_sent handle received pid s t /\ r = group_answer s).
Proof.
  unfold kill_group_outside_leaf. wp_step. wp_use kill_group_runs. intros s t Hs. wp_step. rewrite app_nil_r. eauto.
Qed.

Lemma wait_for_exit_runs received pid due h :
  wp (wait_for_exit_warning received pid due) h
    (fun r t => exists slow, t = slow ++ [Reap (wait_id received pid) r] /\ (slow = [] \/ slow = [SlowLook true] \/ slow = [SlowLook false; WarnSlow])).
Proof.
  unfold wait_for_exit_warning, wait_warning. wp_step. destruct due; [|repeat wp_step; exists []; auto].
  do 2 wp_step. destruct (ended_in_time h); repeat wp_step; [exists [SlowLook true]|exists [SlowLook false; WarnSlow]]; auto.
Qed.

(** How [end_child] goes: reaped already, with or without a group to kill; or looked at and found
    unreaped, then the group's kill, the child's kill, and what follows from its answer. *)
Inductive child_ended (received : Received) : Fate -> list Ev -> Prop :=
| ended_unnamed : raw_pid received = None -> child_ended received NeverReached []
| ended_no_handle pid : raw_pid received = Some pid -> handle_of received = None -> child_ended received Unkillable []
| ended_reaped pid p look : raw_pid received = Some pid -> handle_of received = Some p ->
    look_of received false look -> write_failed received = false -> child_ended received Gone_ look
| ended_reaped_group pid p look s g : raw_pid received = Some pid -> handle_of received = Some p ->
    look_of received false look -> write_failed received = true -> group_sent p received pid s g ->
    child_ended received Gone_ (look ++ g)
| ended_killing pid p look group g a f t : raw_pid received = Some pid -> handle_of received = Some p ->
    look_of received true look ->
    (if write_failed received then exists s, group_sent p received pid s g /\ group = Some (group_answer s)
     else group = None /\ g = []) ->
    after_kill received pid group a f t ->
    child_ended received f (look ++ g ++ [KillThrough p a] ++ t)
with after_kill (received : Received) : Z -> option (result Error bool) -> result Z unit -> Fate -> list Ev -> Prop :=
| kill_found_none pid group :
    after_kill received pid group (Err ESRCH) (match group with Some (Ok true) => Killed_ | _ => Gone_ end) []
| kill_refused pid group e by_ : e <> ESRCH -> by_ = wait_id received pid \/ by_ = WaitPid pid ->
    after_kill received pid group (Err e) Unkillable [BackgroundReap by_]
| kill_sent pid group u slow r :
    slow = [] \/ slow = [SlowLook true] \/ slow = [SlowLook false; WarnSlow] ->
    after_kill received pid group (Ok u) Killed_ (slow ++ [Reap (wait_id received pid) r]).

Lemma after_kill_runs received pid due group a h :
  wp (match a with
      | Err e =>
          if e =? ESRCH then ret (match group with Some (Ok true) => Killed_ | _ => Gone_ end)
          else do! _ := reap_in_background received pid in ret Unkillable
      | Ok _ => do! _ := wait_for_exit_warning received pid due in ret Killed_
      end) h (after_kill received pid group a).
Proof.
  destruct a as [u|e].
  - wp_step. wp_use wait_for_exit_runs. intros r t (slow & -> & Hs). wp_step. rewrite app_nil_r. by constructor.
  - destruct (Z.eqb_spec e ESRCH) as [->|He]; [wp_step; constructor|]. wp_step. unfold reap_in_background. repeat wp_step.
    cbn. constructor; [done|]. unfold wait_id. destruct (pidfd received); [destruct (clones h)|]; auto.
Qed.

Lemma end_child_runs received due h : wp (end_child received due) h (child_ended received).
Proof.
  unfold end_child. destruct (raw_pid received) as [pid|] eqn:Ep; [|wp_step; by constructor].
  destruct (handle_of received) as [p|] eqn:Eh; [|wp_step; by econstructor].
  wp_step. wp_use still_unreaped_runs. intros u look Hl. destruct u; cbn [negb].
  - wp_step. eapply (wp_mono _ _ (fun group g => if write_failed received
      then exists s, group_sent p received pid s g /\ group = Some (group_answer s) else group = None /\ g = [])).
    { destruct (write_failed received); [|by wp_step]. wp_step. wp_use kill_group_outside_leaf_runs.
      intros r t (s & Hs & ->). wp_step. rewrite app_nil_r. eauto. }
    intros group g Hg. unfold kill_through. do 2 wp_step. wp_use after_kill_runs. intros f t Hk.
    cbn [app]. by eapply ended_killing.
  - unfold end_reaped_child. destruct (write_failed received) eqn:Ew; cbn [negb].
    + wp_step. wp_use kill_group_outside_leaf_runs. intros r t (s & Hs & _). wp_step. rewrite app_nil_r.
      by eapply ended_reaped_group.
    + wp_step. rewrite app_nil_r. by eapply ended_reaped.
Qed.

Lemma numbers_shown_app last t t' : numbers_shown last (t ++ t') = numbers_shown last t && numbers_shown (rev t ++ last) t'.
Proof.
  revert last. induction t as [|e t IH]; intros last; [done|]. cbn. rewrite IH, andb_assoc. f_equal.
  by rewrite <- app_assoc.
Qed.

Lemma look_shown received u look last : look_of received u look -> numbers_shown last look = true.
Proof. by destruct 1. Qed.

Lemma group_shown p received pid s g last : group_sent p received pid s g -> numbers_shown last g = true.
Proof.
  destruct 1 as [a Ha| |u a|e look He Hl|e look a He Hl]; cbn; try done.
  - by eapply look_shown.
  - rewrite numbers_shown_app, (look_shown _ _ _ _ Hl). cbn. rewrite andb_true_r.
    inversion Hl as [q b Hq Eb Et|d b Hq Hd Eb Et|]; subst; cbn; destruct (Z.eqb_spec e ESRCH); try done.
Qed.

(** A call that signals the child or its group by its handle or number. *)
Definition group_signal (e : Ev) : bool :=
  match e with GroupThrough _ s _ => negb (s =? 0) | GroupByNumber _ _ => true | _ => false end.

Definition blocking (e : Ev) : bool := match e with Reap _ _ | WaitDrained _ => true | _ => false end.

Lemma look_quiet received u look : look_of received u look ->
  Forall (fun e => signals e = false /\ blocking e = false) look.
Proof. by destruct 1; repeat constructor. Qed.

Definition group_killed (e : Ev) : bool :=
  match e with GroupThrough _ s (Ok _) => negb (s =? 0) | GroupByNumber _ (Ok _) => true | _ => false end.

Definition killed_by_handle (e : Ev) : bool := match e with KillThrough _ (Ok _) => true | _ => false end.

(** Calls on the child alone that neither take its kill nor wait. *)
Definition tame (received : Received) (p pid : Z) (e : Ev) : Prop :=
  blocking e = false /\ killed_by_handle e = false /\ own_call received p pid e = true.

Lemma look_tame received u look p pid : handle_of received = Some p -> look_of received u look ->
  Forall (fun e => tame received p pid e /\ group_signal e = false) look.
Proof.
  unfold handle_of, tame. intros Hp. destruct 1 as [q a Hq|d b Hq Hd|Hn]; repeat constructor; try done.
  - rewrite Hq in Hp. injection Hp as ->. cbn. apply Z.eqb_refl.
  - rewrite Hq, Hd in Hp. injection Hp as ->. cbn. apply Z.eqb_refl.
Qed.

Lemma group_tame received pid p s g : handle_of received = Some p -> group_sent p received pid s g -> Forall (tame received p pid) g.
Proof.
  intros Hp. assert (Hself : forall n, (n =? n) = true) by (intros; apply Z.eqb_refl).
  assert (Hlook : forall u look, look_of received u look -> Forall (tame received p pid) look).
  { intros u look Hl. eapply Forall_impl; [by eapply look_tame|]. by intros x []. }
  destruct 1 as [a Ha| |u a|e look He Hl|e look a He Hl]; rewrite ?Forall_app; repeat constructor; cbn; rewrite ?Hself; try done; eauto.
Qed.

Lemma group_answer_killed p received pid s g :
  group_sent p received pid s g -> group_answer s = Ok true -> exists e, e ∈ g /\ group_killed e = true.
Proof.
  destruct 1 as [a Ha| |u a|e look He Hl|e look a He Hl]; cbn; try done.
  all: destruct a as [v|e']; [intros _|by destruct (e' =? ESRCH)].
  - eexists. split; [by left|done].
  - eexists. split; [by right; right; left|done].
  - exists (GroupByNumber pid (Ok v)). split; [|done]. right. right. apply elem_of_app. right. by left.
Qed.

(** A blocking call after calls that are none is the last. *)
Lemma blocking_last pre x t1 e t2 :
  Forall (fun e => blocking e = false) pre -> pre ++ [x] = t1 ++ e :: t2 -> blocking e = true -> t2 = [] /\ t1 = pre.
Proof.
  intros Hpre Heq Hb. destruct t2 as [|y t2 _] using rev_ind.
  - by apply app_inj_tail in Heq as [-> ->].
  - rewrite app_comm_cons, app_assoc in Heq. apply app_inj_tail in Heq as [-> _].
    apply Forall_app in Hpre as [_ Hpre]. apply Forall_cons in Hpre as [He _]. congruence.
Qed.

Lemma no_blocking t t1 e t2 : Forall (fun e => blocking e = false) t -> t = t1 ++ e :: t2 -> blocking e = true -> False.
Proof. intros Ht -> Hb. apply Forall_app in Ht as [_ Ht]. apply Forall_cons in Ht as [He _]. congruence. Qed.

Lemma names_child_wait_id received pid : names_child received pid (wait_id received pid) = true.
Proof. unfold wait_id. destruct (pidfd received) eqn:E; cbn; rewrite E, ?Z.eqb_refl; by apply bool_decide_eq_true. Qed.

Lemma tame_split received p pid t : Forall (tame received p pid) t ->
  Forall (fun e => blocking e = false) t /\ Forall (fun e => killed_by_handle e = false) t /\ Forall (fun e => own_call received p pid e = true) t.
Proof. intros Ht. split_and!; (eapply Forall_impl; [exact Ht|]); by intros x (? & ? & ?). Qed.

Lemma after_kill_facts received pid group a f t p last :
  after_kill received pid group a f t ->
  numbers_shown last t = true /\ Forall (fun e => own_call received p pid e = true) t /\ Forall (fun e => group_signal e = false) t
  /\ Forall (fun e => killed_by_handle e = false) t.
Proof.
  destruct 1 as [pid group|pid group e by_ He [-> | ->]|pid group u slow r [->|[->| ->]]]; repeat constructor; cbn;
    rewrite ?names_child_wait_id, ?Z.eqb_refl, ?orb_true_r; done.
Qed.

(** The calls of a child killed through its handle. *)
Lemma killing_facts received pid p look group g a f t :
  handle_of received = Some p -> look_of received true look ->
  (if write_failed received then exists s, group_sent p received pid s g /\ group = Some (group_answer s)
   else group = None /\ g = []) ->
  after_kill received pid group a f t ->
  numbers_shown [] (look ++ g ++ [KillThrough p a] ++ t) = true
  /\ Forall (fun e => own_call received p pid e = true) (look ++ g ++ [KillThrough p a] ++ t)
  /\ (write_failed received = false -> Forall (fun e => group_signal e = false) (look ++ g ++ [KillThrough p a] ++ t))
  /\ (forall e t1 t2, look ++ g ++ [KillThrough p a] ++ t = t1 ++ e :: t2 -> blocking e = true ->
        t2 = [] /\ Exists (fun e => killed_by_handle e = true) t1)
  /\ match f with
     | NeverReached => raw_pid received = None
     | Gone_ => Forall (fun e => killed_by_handle e = false) (look ++ g ++ [KillThrough p a] ++ t)
     | Killed_ =>
         (Exists (fun e => killed_by_handle e = true) (look ++ g ++ [KillThrough p a] ++ t)
          /\ exists b r, last (look ++ g ++ [KillThrough p a] ++ t) = Some (Reap b r))
         \/ Exists (fun e => group_killed e = true) (look ++ g ++ [KillThrough p a] ++ t)
     | Unkillable => handle_of received = None \/ exists b, last (look ++ g ++ [KillThrough p a] ++ t) = Some (BackgroundReap b)
     end.
Proof.
  intros Hh Hl Hg Hk. pose proof (look_tame _ _ _ _ pid Hh Hl) as Htl.
  assert (Htg : Forall (tame received p pid) g /\ forall last, numbers_shown last g = true).
  { destruct (write_failed received); [|by destruct Hg as [_ ->]]. destruct Hg as (s & Hs & _).
    split; [by eapply group_tame|]. intros last. by eapply group_shown. }
  destruct Htg as [Htg Hng]. destruct (tame_split received p pid (look ++ g)) as (Hb & Hkf & Hthr).
  { apply Forall_app. split; [|done]. eapply Forall_impl; [exact Htl|]. by intros x []. }
  rewrite app_assoc. destruct (after_kill_facts _ _ _ _ _ _ p (KillThrough p a :: rev (look ++ g) ++ []) Hk) as (A1 & A2 & A3 & A4).
  split_and!.
  - rewrite numbers_shown_app, numbers_shown_app, (look_shown _ _ _ _ Hl), Hng. cbn. by rewrite A1.
  - rewrite Forall_app. split; [done|]. constructor; [cbn; apply Z.eqb_refl|done].
  - intros Hw. rewrite Hw in Hg. destruct Hg as [_ ->]. rewrite app_nil_r. rewrite Forall_app.
    split; [eapply Forall_impl; [exact Htl|]; by intros x []|]. by constructor.
  - intros e t1 t2 E Hbl. destruct Hk as [pid' group|pid' group e' by_ He Hb'|pid' group u slow r Hs].
    + exfalso. eapply no_blocking; [|exact E|exact Hbl]. rewrite Forall_app. split; [done|by repeat constructor].
    + exfalso. eapply no_blocking; [|exact E|exact Hbl]. rewrite Forall_app. split; [done|by repeat constructor].
    + rewrite !app_assoc in E. apply blocking_last in E as [-> ->]; [|apply Forall_app; split; [apply Forall_app; split; [done|by repeat constructor]|by destruct Hs as [->|[->| ->]]; repeat constructor]|done].
      split; [done|]. rewrite !Exists_app. left. right. by constructor.
  - destruct Hk as [pid' group|pid' group e' by_ He Hb'|pid' group u slow r Hs].
    + assert (Hf : Forall (fun e => killed_by_handle e = false) ((look ++ g) ++ [KillThrough p (Err ESRCH)] ++ [])).
      { rewrite Forall_app. split; [done|by repeat constructor]. }
      destruct group as [[[]|]|]; [|done..]. right. destruct (write_failed received); [|by destruct Hg].
      destruct Hg as (s & Hs & Ea). injection Ea as Ea. destruct (group_answer_killed _ _ _ _ _ Hs (eq_sym Ea)) as (e & Hin & He).
      rewrite !Exists_app. left. right. apply Exists_exists. eauto.
    + right. exists by_. by rewrite !last_app.
    + left. rewrite !Exists_app. split; [right; left; by constructor|]. by rewrite !last_app; eauto.
Qed.


(** How [end_front] goes, given where the front was placed. *)
Inductive front_ended (received : Received) (placed : result IoError bool) : Abandonment -> list Ev -> Prop :=
| front_collected look : look_of received false look -> front_ended received placed Ended look
| front_probed look by_ a : look_of received true look ->
    (a = Ok true \/ exists e, a = Err e) ->
    front_ended received placed
      (match a with Ok _ => Front FrontReaped | Err e => if e =? ECHILD then Ended else Front FrontUnaccounted end)
      (look ++ [Probe by_ a])
| front_left look by_ : look_of received true look -> placed = Ok false ->
    front_ended received placed (Front FrontLeftUnreaped) (look ++ [Probe by_ (Ok false)])
| front_unplaced look by_ e : look_of received true look -> placed = Err e ->
    front_ended received placed (Front FrontUnplaced) (look ++ [Probe by_ (Ok false)])
| front_waited look by_ slow by' r : look_of received true look -> placed = Ok true ->
    slow = [] \/ slow = [SlowLook true] \/ slow = [SlowLook false; WarnSlow] ->
    front_ended received placed
      (match r with Ok _ => Front FrontReaped | Err e => if e =? ECHILD then Front FrontReaped else Front FrontUnaccounted end)
      (look ++ [Probe by_ (Ok false)] ++ slow ++ [Reap by' r]).

Lemma end_front_runs received due reached h pid p placed t0 :
  raw_pid received = Some pid -> handle_of received = Some p -> runs reached h placed t0 ->
  wp (end_front received due reached) h (fun f t => exists t', t = t0 ++ t' /\ front_ended received placed f t').
Proof.
  intros Hp Hh Hr. unfold end_front. rewrite Hp, Hh. wp_step. exists placed, t0. split; [done|].
  wp_step. wp_use still_unreaped_runs. intros u look Hl. destruct u; cbn [negb].
  - do 2 wp_step. destruct (waitid_nohang _ _) as [[]|e] eqn:Ea.
    + wp_step. rewrite app_nil_r. eexists. split; [done|]. apply (front_probed _ _ _ _ (Ok true)); auto.
    + destruct placed as [[]|e].
      * wp_step. wp_use wait_for_exit_runs. intros r t (slow & -> & Hs). wp_step. rewrite app_nil_r.
        eexists. split; [done|]. by apply front_waited.
      * wp_step. rewrite app_nil_r. eexists. split; [done|]. by constructor.
      * wp_step. rewrite app_nil_r. eexists. split; [done|]. by eapply front_unplaced.
    + wp_step. rewrite app_nil_r. eexists. split; [done|]. apply (front_probed _ _ _ _ (Err e)); eauto.
  - wp_step. rewrite app_nil_r. exists look. split; [done|by constructor].
Qed.

Definition quiet (e : Ev) : Prop := signals e = false /\ blocking e = false.

Lemma look_quiet' received u look : look_of received u look -> Forall quiet look.
Proof. intros Hl. eapply Forall_impl; [by eapply look_quiet|]. done. Qed.

Lemma last_suffix {A} (t0 t : list A) x : last t = Some x -> last (t0 ++ t) = Some x.
Proof. intros Ht. by rewrite last_app, Ht. Qed.

Lemma front_ended_quiet received placed f t :
  front_ended received placed f t ->
  Forall (fun e => signals e = false) t
  /\ (Forall quiet t \/ exists pre b r, t = pre ++ [Reap b r] /\ Forall quiet pre /\ placed = Ok true).
Proof.
  assert (Hsig : forall l, Forall quiet l -> Forall (fun e => signals e = false) l).
  { intros l Hl. eapply Forall_impl; [exact Hl|]. by intros x []. }
  destruct 1 as [look Hl|look b a Hl Ha|look b Hl Hp|look b e Hl Hp|look b slow b' r Hl Hp Hs].
  1-4: assert (Hq : Forall quiet look) by (by eapply look_quiet').
  1: by auto.
  1-3: match goal with |- Forall _ ?l /\ _ => assert (Forall quiet l) by (apply Forall_app; split; [done|by repeat constructor]) end; by auto.
  assert (Hq : Forall quiet (look ++ [Probe b (Ok false)] ++ slow)).
  { apply Forall_app. split; [by eapply look_quiet'|]. by destruct Hs as [->|[->| ->]]; repeat constructor. }
  split; [|right; exists (look ++ [Probe b (Ok false)] ++ slow), b', r; rewrite <- !app_assoc; done].
  rewrite !app_assoc. apply Forall_app. split; [rewrite <- app_assoc; auto|by repeat constructor].
Qed.

Lemma front_ended_answer received placed f t :
  front_ended received placed f t ->
  match f with
  | MaybeUnreaped | OutOfReach => False
  | Ended => look_of received false t \/ exists b, last t = Some (Probe b (Err ECHILD))
  | Front FrontReaped =>
      (exists b, last t = Some (Probe b (Ok true))) \/ (exists b r, last t = Some (Reap b r) /\ placed = Ok true)
  | Front FrontLeftUnreaped => placed = Ok false /\ exists b, last t = Some (Probe b (Ok false))
  | Front FrontUnplaced => (exists e, placed = Err e) /\ exists b, last t = Some (Probe b (Ok false))
  | Front FrontUnaccounted => exists b e, e <> ECHILD /\ (last t = Some (Probe b (Err e)) \/ last t = Some (Reap b (Err e)))
  end.
Proof.
  destruct 1 as [look Hl|look b a Hl Ha|look b Hl Hp|look b e Hl Hp|look b slow b' r Hl Hp Hs].
  - by left.
  - assert (Hlast : last (look ++ [Probe b a]) = Some (Probe b a)) by apply last_snoc.
    destruct a as [x|e]; [|destruct (Z.eqb_spec e ECHILD) as [->|He]]; [left|right|]; eauto 6.
    exists b. rewrite Hlast. destruct Ha as [->|[? ?]]; done.
  - split; [done|]. exists b. apply last_snoc.
  - split; [eauto|]. exists b. apply last_snoc.
  - assert (Hlast : last (look ++ [Probe b (Ok false)] ++ slow ++ [Reap b' r]) = Some (Reap b' r)) by (by rewrite !last_app).
    destruct r as [x|e]; [|destruct (Z.eqb_spec e ECHILD) as [->|He]]; eauto 8.
Qed.

(** An abandoned elevation front is sent nothing, and is waited for only once its leaf's kill is
    known to have reached it, that wait coming last; it is said to be reaped only when it was, or
    when it was waited for in vain, and to have ended only when another reaper had it. *)
Theorem front_sent_nothing received due reached h placed t0 f t :
  runs reached h placed t0 -> Forall quiet t0 ->
  runs (end_front received due reached) h f t ->
  Forall (fun e => signals e = false) t
  /\ (forall e t1 t2, t = t1 ++ e :: t2 -> blocking e = true -> t2 = [] /\ placed = Ok true)
  /\ match f with
     | MaybeUnreaped => raw_pid received = None /\ t = []
     | Ended => look_of received false (drop (length t0) t) \/ exists b, last t = Some (Probe b (Err ECHILD))
     | OutOfReach => False
     | Front FrontReaped =>
         (exists b, last t = Some (Probe b (Ok true))) \/ (exists b r, last t = Some (Reap b r) /\ placed = Ok true)
     | Front FrontLeftUnreaped => placed = Ok false /\ exists b, last t = Some (Probe b (Ok false))
     | Front FrontUnplaced => (exists e, placed = Err e) /\ exists b, last t = Some (Probe b (Ok false))
     | Front FrontUnaccounted =>
         (handle_of received = None /\ t = []) \/ exists b e, e <> ECHILD /\ (last t = Some (Probe b (Err e)) \/ last t = Some (Reap b (Err e)))
     end.
Proof.
  intros Hr Hq Hrun. destruct (raw_pid received) as [pid|] eqn:Ep.
  2: { unfold end_front in Hrun. rewrite Ep in Hrun.
       apply (wp_runs _ _ _ _ _ (wp_ret _ h (fun f t => f = MaybeUnreaped /\ t = []) (conj eq_refl eq_refl))) in Hrun as [-> ->].
       split_and!; try done. intros e t1 t2 E. by destruct t1. }
  destruct (handle_of received) as [p|] eqn:Eh.
  2: { unfold end_front in Hrun. rewrite Ep, Eh in Hrun.
       apply (wp_runs _ _ _ _ _ (wp_ret _ h (fun f t => f = Front FrontUnaccounted /\ t = []) (conj eq_refl eq_refl))) in Hrun as [-> ->].
       split_and!; try done; [intros e t1 t2 E; by destruct t1|by left]. }
  destruct (wp_runs _ _ _ _ _ (end_front_runs received due reached h pid p placed t0 Ep Eh Hr) Hrun) as (t' & -> & Hf).
  pose proof (front_ended_answer _ _ _ _ Hf) as Ha. apply front_ended_quiet in Hf as [Hs Hb].
  split_and!.
  - apply Forall_app. split; [|done]. eapply Forall_impl; [exact Hq|]. by intros x [].
  - intros e t1 t2 E Hbl.
    assert (Hnb : forall l, Forall quiet l -> Forall (fun e => blocking e = false) l).
    { intros l Hl. eapply Forall_impl; [exact Hl|]. by intros x []. }
    destruct Hb as [Hb|(pre & b & r & -> & Hb & Hp)].
    + exfalso. eapply no_blocking; [|exact E|exact Hbl]. apply Forall_app. auto.
    + rewrite app_assoc in E. apply blocking_last in E as [-> _]; [done| |done]. apply Forall_app. auto.
  - rewrite drop_app_length. destruct f as [| | |[| | |]]; try done.
    + destruct Ha as [Ha|(b & Ha)]; [by left|right; exists b; by apply last_suffix].
    + destruct Ha as [(b & Ha)|(b & r & Ha & Hp)]; [left; exists b; by apply last_suffix|right; exists b, r; split; [by apply last_suffix|done]].
    + destruct Ha as [Hp (b & Ha)]. split; [done|]. exists b. by apply last_suffix.
    + destruct Ha as (b & e & He & [Ha|Ha]); right; exists b, e; (split; [done|]); [left|right]; by apply last_suffix.
    + destruct Ha as [Hp (b & Ha)]. split; [done|]. exists b. by apply last_suffix.
Qed.

End End_.

(** A kernel without the group flag, and a wait that is slow. *)
#[local] Instance demo_sys : ChildSys := {
  waitid_nowait _ _ := Ok tt;
  proc_dir_opens _ _ := true;
  group_through _ _ := Err EINVAL;
  group_probe _ _ := Err EPERM;
  group_by_number _ _ := Ok tt;
  clones _ := true;
  signal_handle _ _ := Ok tt;
  ended_in_time _ := false;
  waitid_exited _ _ := Ok tt;
  waitid_nohang _ _ := Ok false
}.

(** A child that could open no pidfd and failed its placement. *)
Definition demo_received : Received := received_ (Some (WriteFailed 16)) (Some 77) None (Some 5).

Definition demo_end : list Ev :=
  [LookProcDir 5 true; GroupThrough 5 9 (Err EINVAL); GroupThrough 5 0 (Err EPERM); LookProcDir 5 true;
   GroupByNumber 77 (Ok tt); KillThrough 5 (Ok tt); SlowLook false; WarnSlow; Reap (WaitPid 77) (Ok tt)].


Definition demo_front_end : list Ev := [LookProcDir 5 true; Probe (WaitPid 77) (Ok false); SlowLook false; WarnSlow; Reap (WaitPid 77) (Ok tt)].

Lemma front_sent_nothing_witness :
  runs (end_front demo_received true (ret (Ok true))) [] (Front FrontReaped) demo_front_end
  /\ Forall (fun e => signals e = false) demo_front_end.
Proof.
  assert (Hr : runs (end_front demo_received true (ret (Ok true))) [] (Front FrontReaped) demo_front_end) by reflexivity.
  split; [done|]. exact (proj1 (front_sent_nothing demo_received true (ret (Ok true)) [] (Ok true) [] _ _ eq_refl (Forall_nil_2 _) Hr)).
Defined.
