(* ===== verification/Leaf.v ===== *)
(** A control group leaf: [src/containment/cgroup/leaf.rs] with [leaf/slow_drain.rs] and
    [leaf/release.rs]. Killing through it, waiting for its drain, removing it, and giving it up; what
    its directory, its watch and its channel answer is the system's. *)
From S2P Require Import Prelude Utf Numbers IoErrors CrateError Placement UnixGroup History LeafEnd.
Local Open Scope Z_scope.

Definition ENODEV : Z := 19.
Definition EBUSY : Z := 16.

(** * [parse.rs]: the [populated] field of [cgroup.events] *)

Fixpoint parse_populated_lines (ls : list bytes) : option bool :=
  match ls with
  | [] => None
  | line :: ls =>
      match strip_prefix (bs "populated ") line with
      | Some rest =>
          if bool_decide (trim rest = bs "0") then Some false
          else if bool_decide (trim rest = bs "1") then Some true
          else None
      | None => parse_populated_lines ls
      end
  end.

Definition parse_populated (contents : bytes) : option bool := parse_populated_lines (lines contents).

(** * The leaf *)

(** [CgroupLeaf]: whether it still holds its channel; the flags of its teardown; the elevation front
    it watches and where that was; whether it has a path in the unified hierarchy, and a watch. *)
Record CgroupLeaf := leaf_ {
  channel : bool; entered : bool; abandoned : bool; armed : bool; killed : bool; kill_attempt_failed : bool;
  watched : option Z; placed : option (Z * bool); has_path : bool; has_watch : bool }.

Definition set_abandoned (l : CgroupLeaf) : CgroupLeaf :=
  leaf_ (channel l) (entered l) true (armed l) (killed l) (kill_attempt_failed l) (watched l) (placed l) (has_path l) (has_watch l).

Definition set_killed (l : CgroupLeaf) : CgroupLeaf :=
  leaf_ (channel l) (entered l) (abandoned l) (armed l) true (kill_attempt_failed l) (watched l) (placed l) (has_path l) (has_watch l).

Definition set_kill_attempt_failed (l : CgroupLeaf) : CgroupLeaf :=
  leaf_ (channel l) (entered l) (abandoned l) (armed l) (killed l) true (watched l) (placed l) (has_path l) (has_watch l).

Definition set_placed (l : CgroupLeaf) (p : option (Z * bool)) : CgroupLeaf :=
  leaf_ (channel l) (entered l) (abandoned l) (armed l) (killed l) (kill_attempt_failed l) (watched l) p (has_path l) (has_watch l).

(** The exchange has ended with [received]; [gone] as an abandonment. *)
Definition set_received (l : CgroupLeaf) (r : PlacementReport) (gone : bool) : CgroupLeaf :=
  leaf_ false (bool_decide (r = Placed)) gone (armed l) (killed l) (kill_attempt_failed l) (watched l) (placed l) (has_path l) (has_watch l).

(** [watch_front]. *)
Definition watch_front (l : CgroupLeaf) (pid : Z) : CgroupLeaf :=
  leaf_ (channel l) (entered l) (abandoned l) (armed l) (killed l) (kill_attempt_failed l) (Some pid) (placed l) (has_path l) (has_watch l).

(** [disarm]. *)
Definition disarm (l : CgroupLeaf) : CgroupLeaf :=
  leaf_ (channel l) (entered l) (abandoned l) false (killed l) (kill_attempt_failed l) (watched l) (placed l) (has_path l) (has_watch l).

Class LeafSys := {
  child_sys :: ChildSys;
  rmdir_answer : list Ev -> result IoError unit;
  kill_file : list Ev -> result IoError unit;
  events_file : list Ev -> result IoError bytes;
  drain_answer : list Ev -> result Error unit;
  sweep_answer : list Ev -> result IoError Z;
  front_place : list Ev -> Z -> result IoError bool;
  subtree_answer : list Ev -> result IoError unit;
  holds_answer : list Ev -> Z -> result IoError bool;
  shut_answer : list Ev -> Received;
  wait_report : list Ev -> PlacementReport
}.

Section Leaf.
  Context `{LeafSys}.

Definition removed_after_drain (e : IoError) : bool :=
  bool_decide (raw_os_error e = Some ENODEV) || bool_decide (raw_os_error e = Some ENOENT).

(** [read_populated]: a seek and a read of the held [cgroup.events]. *)
Definition read_populated (seek : result IoError unit) (read : result IoError bytes) : result Error bool :=
  let failed e := if removed_after_drain e then Ok false else Err (Io e) in
  match seek with
  | Err e => failed e
  | Ok _ =>
      match read with
      | Err e => failed e
      | Ok buf => ok_or (parse_populated buf) (Io (of_kind Other))
      end
  end.

(** [record_watched_place]. *)
Definition record_watched_place (l : CgroupLeaf) : H CgroupLeaf :=
  match watched l with
  | Some pid =>
      if has_path l then
        do! a := call (fun h => front_place h pid) (fun a => WatchFront pid (Some a)) in
        ret match a with
            | Ok inside => set_placed l (Some (pid, inside))
            | Err _ => set_placed l None
            end
      else ret l
  | None => ret l
  end.

Definition rmdir_leaf (l : CgroupLeaf) : H (result IoError unit * CgroupLeaf) :=
  do! l := record_watched_place l in
  do! a := call rmdir_answer Rmdir in
  ret (a, l).

Definition hard_kill (l : CgroupLeaf) : H (result Error unit * CgroupLeaf) :=
  do! written := call kill_file WriteKill in
  ret match written with
      | Ok _ => (Ok tt, set_killed l)
      | Err e => if removed_after_drain e then (Ok tt, l) else (Err (Io e), set_kill_attempt_failed l)
      end.

(** [TreeDrain] as whether members remain. *)
Definition drain_now : H (result Error bool) :=
  do! a := call events_file ReadEvents in
  ret match a with
      | Err e => if removed_after_drain e then Ok false else Err (Io e)
      | Ok events => ok_or (parse_populated events) (Io (of_kind Other))
      end.

(** [wait_drained_then_warn]. *)
Definition wait_drained_then_warn (l : CgroupLeaf) (due : bool) : H (result Error unit) :=
  if has_watch l then wait_warning due (call ended_in_time SlowLook) (note WarnSlow) (call drain_answer WaitDrained)
  else ret (Ok tt).

(** The last attempt of a removal: every failure but the leaf's absence is reported. *)
Definition final_rmdir (l : CgroupLeaf) : H CgroupLeaf :=
  do2! a, l := rmdir_leaf l in
  match a with
  | Ok _ => ret l
  | Err e => if removed_after_drain e then ret l else do! _ := note LeftBehind in ret l
  end.

Definition drain_and_remove (l : CgroupLeaf) (killed : bool) (due : bool) : H CgroupLeaf :=
  do2! kill, l := (if killed then ret (Ok tt, l) else hard_kill l) in
  match kill with
  | Err _ => do! _ := note LeftBehind in ret l
  | Ok _ =>
      do! drained := wait_drained_then_warn l due in
      match drained with
      | Err _ => do! _ := note LeftBehind in ret l
      | Ok _ =>
          do! swept := call sweep_answer RemoveChildren in
          match swept with
          | Err _ => do! _ := note LeftBehind in ret l
          | Ok _ => final_rmdir l
          end
      end
  end.

Definition remove_killing_through (l : CgroupLeaf) (killed due : bool) : H CgroupLeaf :=
  do2! a, l := rmdir_leaf l in
  match a with
  | Ok _ => ret l
  | Err e => if removed_after_drain e then ret l else drain_and_remove l killed due
  end.

Definition sweep_and_retry_rmdir (l : CgroupLeaf) : H CgroupLeaf :=
  do! swept := call sweep_answer RemoveChildren in
  match swept with
  | Err _ => do! _ := note LeftBehind in ret l
  | Ok _ => final_rmdir l
  end.

Definition remove_holding_nothing (l : CgroupLeaf) : H CgroupLeaf :=
  do2! a, l := rmdir_leaf l in
  match a with
  | Ok _ => ret l
  | Err e =>
      if removed_after_drain e then ret l
      else
        do! swept := call sweep_answer RemoveChildren in
        match swept with
        | Ok removed => if 0 <? removed then final_rmdir l else do! _ := note LeftBehind in ret l
        | Err _ => do! _ := note LeftBehind in ret l
        end
  end.

(** [Subtree::reached_by], of the subtree taken before the leaf's kill: the kill's own record is
    read when it is asked. *)
Definition reached_by (subtree : result IoError unit) (l : CgroupLeaf) (pid : Z) : H (result IoError bool) :=
  match subtree with
  | Err e => ret (Err e)
  | Ok _ => if killed l then call (fun h => holds_answer h pid) Placed_ else ret (Ok false)
  end.

Definition abandon_front (l : CgroupLeaf) (received : Received) (due : bool) : H (Abandonment * CgroupLeaf) :=
  do! subtree := (fun h => (subtree_answer h, h)) in
  do! l :=
    (if entered l then
       do2! kill, l := hard_kill l in
       remove_killing_through l (match kill with Ok _ => true | Err _ => false end) due
     else remove_holding_nothing l) in
  do! f := end_front received due (reached_by subtree l (default 0 (rpid received))) in
  ret (f, l).

(** The handshake's pidfd names the child where its intent named it by no handle. *)
Definition with_handshake (received : Received) (handshake : option Z) : Received :=
  match handle_of received with
  | None => received_ (report received) (rpid received) handshake (proc_dir received)
  | Some _ => received
  end.

(** What is said of an abandoned child, given what became of it and of a kill through its leaf. *)
Definition abandonment_of (fate : Fate) (through_leaf : option (result Error unit)) : H Abandonment :=
  match fate, through_leaf with
  | NeverReached, _ => ret MaybeUnreaped
  | Gone_, _ | Killed_, _ => ret Ended
  | Unkillable, Some (Ok _) => do! _ := note WarnOutOfReach in ret Ended
  | Unkillable, _ => ret OutOfReach
  end.

Definition abandon_before_verdict (l : CgroupLeaf) (front : bool) (handshake : option Z) (due : bool) :
    H (Abandonment * CgroupLeaf) :=
  if negb (channel l) then ret (Ended, l)
  else
    do! received := (fun h => (shut_answer h, h)) in
    let l := set_received l (placement received) true in
    let received := with_handshake received handshake in
    match rpid received, pidfd received with
    | None, Some p =>
        do! l := remove_holding_nothing l in
        do! _ := note (TearDownThrough p) in
        ret (Ended, l)
    | _, _ =>
        if front && bool_decide (report received <> None) then
          let l := match rpid received with Some pid => watch_front l pid | None => l end in
          abandon_front l received due
        else
          do! fate := end_child received due in
          if entered l then
            do2! kill, l := hard_kill l in
            do! l := remove_killing_through l (match kill with Ok _ => true | Err _ => false end) due in
            do! a := abandonment_of fate (Some kill) in
            ret (a, l)
          else
            do! l := remove_holding_nothing l in
            do! a := abandonment_of fate None in
            ret (a, l)
    end.

(** [take_placement]'s verdict; why a child is not placed is left out. *)
Definition take_placement (l : CgroupLeaf) : H (PlacementReport * CgroupLeaf) :=
  do! report := (fun h => (wait_report h, h)) in
  ret (report, set_received l report (abandoned l)).

(** [Drop], once the pump is stopped. *)
Definition tear_down (l : CgroupLeaf) (due : bool) : H CgroupLeaf :=
  do! l :=
    (if channel l then
       do2! a, l := abandon_before_verdict l false None due in
       match a with OutOfReach => do! _ := note WarnOutOfReach in ret l | _ => ret l end
     else ret l) in
  if abandoned l then ret l
  else
    do2! first, l := rmdir_leaf (set_abandoned l) in
    match first with
    | Ok _ => ret l
    | Err e =>
        if negb (entered l) then
          if removed_after_drain e then ret l else do! _ := note LeftBehind in ret l
        else if negb (armed l) then
          if removed_after_drain e then ret l
          else if killed l then drain_and_remove l false due
          else
            do! drained := drain_now in
            match drained with
            | Ok false => sweep_and_retry_rmdir l
            | _ =>
                if kill_attempt_failed l then do! _ := note LeftBehind in ret l
                else do! _ := note LeftByRequest in ret l
            end
        else if removed_after_drain e then ret l
        else drain_and_remove l false due
    end.

(** The rest of [release_without_waiting] for a tree it may not kill. *)
Definition release_undrained (l : CgroupLeaf) : H CgroupLeaf :=
  do! drained := drain_now in
  match drained with
  | Ok false => sweep_and_retry_rmdir l
  | _ =>
      if kill_attempt_failed l then do! _ := note LeftBehind in ret l
      else do! _ := note LeftByRequest in ret l
  end.

(** [release_without_waiting]; whether the leaf was killed is read before its own kill. *)
Definition release_without_waiting (l : CgroupLeaf) : H CgroupLeaf :=
  let l := set_abandoned l in
  do2! first, l := rmdir_leaf l in
  match first with
  | Ok _ => ret l
  | Err e =>
      if removed_after_drain e then ret l
      else if negb (entered l) then do! _ := note LeftBehind in ret l
      else if armed l || killed l then
        do2! kill, l := hard_kill l in
        match kill with
        | Err _ => do! _ := note LeftBehind in ret l
        | Ok _ =>
            do! drained := drain_now in
            match drained with
            | Ok false => sweep_and_retry_rmdir l
            | _ => do! _ := note LeftBehind in ret l
            end
        end
      else release_undrained l
  end.

(** * The calls that bear on the leaf

    Looks at the front and at a slow wait left out. *)

Definition is_core (e : Ev) : bool := match e with WatchFront _ _ | SlowLook _ | WarnSlow => false | _ => true end.

Definition core (t : list Ev) : list Ev := filter (fun e => is_core e = true) t.

(** Whether an [rmdir] or a kill's write was refused, other than for the leaf's absence. *)
Definition refused (a : result IoError unit) : bool := match a with Ok _ => false | Err e => negb (removed_after_drain e) end.

Definition report_if (b : bool) : list Ev := if b then [LeftBehind] else [].

(** Everything but the record of the front's place. *)
Definition same (l l' : CgroupLeaf) : Prop := l' = set_placed l (placed l').

Lemma core_app t t' : core (t ++ t') = core t ++ core t'.
Proof. apply filter_app. Qed.

Lemma same_refl l : same l l.
Proof. by destruct l. Qed.

Lemma same_trans l l' l'' : same l l' -> same l' l'' -> same l l''.
Proof. unfold same. intros -> Hl. rewrite Hl. by destruct l. Qed.

Lemma rmdir_leaf_runs l h : wp (rmdir_leaf l) h (fun r t => core t = [Rmdir r.1] /\ same l r.2).
Proof.
  unfold rmdir_leaf, record_watched_place. wp_step. destruct (watched l) as [pid|]; [destruct (has_path l)|].
  - repeat wp_step. cbn. split; [done|]. destruct (front_place h pid); by destruct l.
  - repeat wp_step. split; [done|apply same_refl].
  - repeat wp_step. split; [done|apply same_refl].
Qed.

Lemma final_rmdir_runs l h :
  wp (final_rmdir l) h (fun l' t => exists a, core t = Rmdir a :: report_if (refused a) /\ same l l').
Proof.
  unfold final_rmdir. wp_step. wp_use rmdir_leaf_runs. intros [a l'] t [Ht Hs]. cbn in Ht, Hs.
  destruct a as [u|e] eqn:E; cbn [refused]; [|destruct (removed_after_drain e) eqn:Er]; repeat wp_step; exists a; subst a;
    rewrite ?app_nil_r, ?core_app, Ht; cbn; rewrite ?Er; done.
Qed.

(** [drain_and_remove] after its kill. *)
Inductive drain_removes : list Ev -> Prop :=
| drain_unwatched e : drain_removes [WaitDrained (Err e); LeftBehind]
| drain_unswept e : drain_removes [WaitDrained (Ok tt); RemoveChildren (Err e); LeftBehind]
| drain_removed n a : drain_removes (WaitDrained (Ok tt) :: RemoveChildren (Ok n) :: Rmdir a :: report_if (refused a)).

Definition after_hard_kill (l : CgroupLeaf) (a : result IoError unit) : result Error unit * CgroupLeaf :=
  match a with
  | Ok _ => (Ok tt, set_killed l)
  | Err e => if removed_after_drain e then (Ok tt, l) else (Err (Io e), set_kill_attempt_failed l)
  end.

Lemma hard_kill_runs l h : wp (hard_kill l) h (fun r t => exists a, t = [WriteKill a] /\ r = after_hard_kill l a).
Proof. unfold hard_kill. repeat wp_step. by eexists. Qed.

Lemma wait_drained_runs l due h : has_watch l = true ->
  wp (wait_drained_then_warn l due) h (fun r t => core t = [WaitDrained r]).
Proof.
  intros Hw. unfold wait_drained_then_warn, wait_warning. rewrite Hw. wp_step. destruct due; [|by repeat wp_step].
  do 2 wp_step. by destruct (ended_in_time h); repeat wp_step.
Qed.

Lemma drain_and_remove_runs l due h : has_watch l = true ->
  wp (drain_and_remove l true due) h (fun l' t => drain_removes (core t) /\ same l l').
Proof.
  intros Hw. unfold drain_and_remove. wp_step. wp_step. wp_step. wp_use wait_drained_runs; [done|]. intros [[]|e] t Ht; cbn [app].
  2: { repeat wp_step. rewrite app_nil_r, core_app, Ht. split; [constructor|apply same_refl]. }
  do 2 wp_step. destruct (sweep_answer _) as [n|e].
  - wp_use final_rmdir_runs. intros l' t' (a & Ht' & Hs). rewrite !core_app, Ht, Ht'. split; [apply drain_removed|done].
  - repeat wp_step. rewrite !core_app, Ht. split; [constructor|apply same_refl].
Qed.

Lemma drain_and_remove_kills l due h : has_watch l = true ->
  wp (drain_and_remove l false due) h (fun l' t => exists a t', core t = WriteKill a :: t' /\ same (after_hard_kill l a).2 l'
    /\ if refused a then t' = [LeftBehind] else drain_removes t').
Proof.
  intros Hw. pose proof (fun l h => drain_and_remove_runs l due h) as Hd. unfold drain_and_remove in Hd |- *.
  wp_step. wp_use hard_kill_runs. intros r t (a & -> & ->).
  destruct (after_hard_kill l a) as [r l1] eqn:Ea.
  assert (Hr : if refused a then exists e, r = Err e else r = Ok tt).
  { unfold after_hard_kill in Ea. destruct a as [|e]; cbn; [naive_solver|]. destruct (removed_after_drain e); naive_solver. }
  assert (Hw1 : has_watch l1 = true).
  { unfold after_hard_kill in Ea. destruct a as [|e]; [naive_solver|]. destruct (removed_after_drain e); naive_solver. }
  cbn [snd]. destruct (refused a) eqn:Er.
  - destruct Hr as [e ->]. repeat wp_step. cbn. exists a, [LeftBehind]. rewrite Er, Ea. split_and!; [done|apply same_refl|done].
  - subst r. eapply wp_mono; [exact (Hd l1 (h ++ [WriteKill a]) Hw1)|]. intros l' t' [Ht Hs].
    exists a, (core t'). rewrite Er, Ea. by split_and!.
Qed.

(** [sweep_and_retry_rmdir]. *)
Inductive sweep_removes : list Ev -> Prop :=
| sweep_refused e : sweep_removes [RemoveChildren (Err e); LeftBehind]
| sweep_removed n a : sweep_removes (RemoveChildren (Ok n) :: Rmdir a :: report_if (refused a)).

Lemma sweep_runs l h : wp (sweep_and_retry_rmdir l) h (fun l' t => sweep_removes (core t) /\ same l l').
Proof.
  unfold sweep_and_retry_rmdir. do 2 wp_step. destruct (sweep_answer h) as [n|e].
  - wp_use final_rmdir_runs. intros l' t' (a & Ht' & Hs). rewrite core_app, Ht'. split; [constructor|done].
  - repeat wp_step. split; [constructor|apply same_refl].
Qed.

(** What [drain_now] reads of [cgroup.events]: no member left. *)
Definition reads_empty (a : result IoError bytes) : bool :=
  match a with Ok events => bool_decide (parse_populated events = Some false) | Err e => removed_after_drain e end.

Lemma drain_now_runs h : wp drain_now h (fun r t => exists a, t = [ReadEvents a] /\ (if reads_empty a then r = Ok false else r <> Ok false)).
Proof.
  unfold drain_now. repeat wp_step. eexists. split; [done|]. unfold reads_empty.
  destruct (events_file h) as [ev|e]; [|by destruct (removed_after_drain e)].
  by destruct (parse_populated ev) as [[]|].
Qed.

(** * The table of [Drop] *)

(** What follows a refused [rmdir] of a leaf that was to be dropped. *)
Inductive drop_after (l : CgroupLeaf) : list Ev -> Prop :=
| drop_unentered : entered l = false -> drop_after l [LeftBehind]
| drop_kill a t : entered l = true -> armed l || killed l = true ->
    (if refused a then t = [LeftBehind] else drain_removes t) -> drop_after l (WriteKill a :: t)
| drop_exited ev t : entered l = true -> armed l || killed l = false -> reads_empty ev = true ->
    sweep_removes t -> drop_after l (ReadEvents ev :: t)
| drop_running ev : entered l = true -> armed l || killed l = false -> reads_empty ev = false ->
    drop_after l [ReadEvents ev; if kill_attempt_failed l then LeftBehind else LeftByRequest].

Lemma tear_down_runs l due h :
  channel l = false -> abandoned l = false -> has_watch l = true ->
  wp (tear_down l due) h (fun l' t => exists a t', core t = Rmdir a :: t' /\ abandoned l' = true
    /\ if refused a then drop_after l t' else t' = []).
Proof.
  intros Hc Ha Hw. unfold tear_down. rewrite Hc. do 2 wp_step. rewrite Ha, app_nil_r. cbn [app]. wp_step. wp_use rmdir_leaf_runs.
  intros [a l1] t [Ht Hs]. cbn in Ht, Hs. cbn beta iota.
  assert (Hab : forall l2, same l1 l2 -> abandoned l2 = true) by (intros l2 ->; rewrite Hs; done).
  assert (Hf : entered l1 = entered l /\ armed l1 = armed l /\ killed l1 = killed l
    /\ kill_attempt_failed l1 = kill_attempt_failed l /\ has_watch l1 = true) by (rewrite Hs; by destruct l).
  destruct Hf as (-> & -> & -> & -> & Hw1).
  assert (Hdone : refused a = false -> wp (ret l1) (h ++ t) (fun l' t' => exists a' t'', core (t ++ t') = Rmdir a' :: t''
    /\ abandoned l' = true /\ if refused a' then drop_after l t'' else t'' = [])).
  { intros Hr. wp_step. rewrite app_nil_r. exists a, []. rewrite Hr. split_and!; [done|apply Hab, same_refl|done]. }
  assert (Hleft : forall e, e = LeftBehind \/ e = LeftByRequest -> refused a = true -> drop_after l [e] ->
    wp (do! _ := note e in ret l1) (h ++ t) (fun l' t' => exists a' t'', core (t ++ t') = Rmdir a' :: t''
    /\ abandoned l' = true /\ if refused a' then drop_after l t'' else t'' = [])).
  { intros e He Hr Hd. repeat wp_step. exists a, [e]. rewrite Hr, core_app, Ht.
    split_and!; [by destruct He as [-> | ->]|apply Hab, same_refl|done]. }
  assert (Hkill : refused a = true -> entered l = true -> armed l || killed l = true ->
    wp (drain_and_remove l1 false due) (h ++ t) (fun l' t' => exists a' t'', core (t ++ t') = Rmdir a' :: t''
    /\ abandoned l' = true /\ if refused a' then drop_after l t'' else t'' = [])).
  { intros Hr He Hk. wp_use drain_and_remove_kills; [done|]. intros l' t' (b & u & Hu & Hsm & Hd).
    exists a, (WriteKill b :: u). rewrite Hr, core_app, Ht, Hu. split_and!; [done| |by apply drop_kill].
    rewrite Hsm. unfold after_hard_kill. destruct b as [|e]; [|destruct (removed_after_drain e)]; cbn; apply Hab, same_refl. }
  destruct a as [u|e]; [by apply Hdone|]. cbn [refused] in *.
  destruct (entered l) eqn:Ee; cbn [negb].
  2: { destruct (removed_after_drain e); [by apply Hdone|]. apply Hleft; auto. by constructor. }
  destruct (armed l) eqn:Ear; cbn [negb].
  { destruct (removed_after_drain e); [by apply Hdone|]. by apply Hkill. }
  destruct (removed_after_drain e) eqn:Er; [by apply Hdone|]. destruct (killed l) eqn:Ek; [by apply Hkill|].
  wp_step. wp_use drain_now_runs. intros r t1 (ev & -> & Hr). destruct (reads_empty ev) eqn:Eev.
  - subst r. wp_use sweep_runs. intros l' t2 [Hsw Hsm]. exists (Err e), (ReadEvents ev :: core t2). rewrite !core_app, Ht.
    cbn [refused]. rewrite Er. split_and!; [done|by apply Hab|]. apply drop_exited; [done|by rewrite Ear, Ek|done|done].
  - assert (Hend : forall x, x = (if kill_attempt_failed l then LeftBehind else LeftByRequest) ->
      wp (do! _ := note x in ret l1) ((h ++ t) ++ [ReadEvents ev]) (fun l' t' => exists a' t'',
        core (t ++ [ReadEvents ev] ++ t') = Rmdir a' :: t'' /\ abandoned l' = true
        /\ if refused a' then drop_after l t'' else t'' = [])).
    { intros x Hx. repeat wp_step. exists (Err e), [ReadEvents ev; x]. rewrite !core_app, Ht. cbn [refused]. rewrite Er.
      split_and!; [by subst x; destruct (kill_attempt_failed l)|apply Hab, same_refl|]. subst x.
      apply drop_running; [done|by rewrite Ear, Ek|done]. }
    destruct r as [[]|]; [|done|]; destruct (kill_attempt_failed l); by apply Hend.
Qed.

(** * Observations on a trace *)

Definition is_kill (e : Ev) : bool := match e with WriteKill _ => true | _ => false end.

Definition is_rmdir (e : Ev) : bool := match e with Rmdir _ => true | _ => false end.

Definition count (f : Ev -> bool) (t : list Ev) : nat := length (List.filter f t).

Definition gone_at (e : Ev) : bool := match e with Rmdir a => negb (refused a) | _ => false end.

Definition by_request (e : Ev) : bool := match e with LeftByRequest => true | _ => false end.

Definition reported (e : Ev) : bool := match e with LeftBehind | LeftByRequest => true | _ => false end.

(** The order of a removal: a wait for the drain follows a kill that was not refused; child groups
    are removed once the leaf has drained or reads empty; a second [rmdir] comes right after that. *)
Fixpoint in_order (killed drained : bool) (last : option Ev) (t : list Ev) : bool :=
  match t with
  | [] => true
  | e :: t =>
      match e with
      | WriteKill a => in_order (negb (refused a)) drained (Some e) t
      | WaitDrained a => killed && in_order killed (match a with Ok _ => true | Err _ => drained end) (Some e) t
      | ReadEvents a => in_order killed (reads_empty a) (Some e) t
      | RemoveChildren _ => drained && in_order killed drained (Some e) t
      | Rmdir _ =>
          match last with None => true | Some (RemoveChildren (Ok _)) => true | _ => false end
          && in_order killed drained (Some e) t
      | _ => in_order killed drained (Some e) t
      end
  end.

Definition removal_ok (t : list Ev) : Prop :=
  (count is_rmdir t <= 2)%nat /\ in_order false false None t = true /\ existsb gone_at t = negb (existsb reported t).

Lemma report_after a : existsb gone_at (Rmdir a :: report_if (refused a)) = negb (existsb reported (Rmdir a :: report_if (refused a))).
Proof. cbn. by destruct (refused a). Qed.

(** What follows a refused first [rmdir]. *)
Definition tail_ok (killed drained : bool) (last : Ev) (t : list Ev) : Prop :=
  (count is_rmdir t <= 1)%nat /\ count is_kill t = 0%nat /\ in_order killed drained (Some last) t = true
  /\ existsb gone_at t = negb (existsb reported t) /\ existsb by_request t = false.

Lemma drain_removes_ok drained last t : drain_removes t -> tail_ok true drained last t.
Proof.
  destruct 1 as [e|e|n a]; unfold tail_ok, count; cbn; [| |destruct (refused a); cbn].
  all: split_and!; try done; lia.
Qed.

Lemma sweep_removes_ok killed last t : sweep_removes t -> tail_ok killed true last t.
Proof.
  destruct 1 as [e|n a]; unfold tail_ok, count; cbn; [|destruct (refused a); cbn].
  all: split_and!; try done; lia.
Qed.

Lemma left_ok killed drained last : tail_ok killed drained last [LeftBehind].
Proof. unfold tail_ok, count; cbn. split_and!; try done; lia. Qed.

(** The calls of a drop, from the table. *)
Lemma drop_after_ok l a rest :
  (if refused a then drop_after l rest else rest = []) ->
  removal_ok (Rmdir a :: rest)
  /\ count is_kill (Rmdir a :: rest) = (if refused a && entered l && (armed l || killed l) then 1 else 0)%nat
  /\ (existsb by_request rest = true -> entered l = true /\ armed l = false /\ killed l = false /\ kill_attempt_failed l = false).
Proof.
  unfold removal_ok. destruct (refused a) eqn:Er.
  2: { intros ->. unfold count. cbn. rewrite Er. split_and!; try done; lia. }
  destruct 1 as [He|k t He Hk Ht|ev t He Hk Hev Ht|ev He Hk Hev].
  - rewrite He. unfold count. cbn. rewrite Er. split_and!; try done; lia.
  - assert (Htl : tail_ok (negb (refused k)) false (WriteKill k) t).
    { destruct (refused k); [subst t; apply left_ok|by apply drain_removes_ok]. }
    destruct Htl as (H1 & H2 & H3 & H4 & H5). rewrite He, Hk. unfold count in *. cbn. rewrite Er. cbn.
    split_and!; try done; [lia|lia|]. intros E. cbn in H5. congruence.
  - destruct (sweep_removes_ok false (ReadEvents ev) t Ht) as (H1 & H2 & H3 & H4 & H5).
    rewrite He, Hk. unfold count in *. cbn. rewrite Er, Hev. cbn.
    split_and!; try done; [lia|]. intros E. cbn in H5. congruence.
  - rewrite He, Hk. unfold count. cbn. rewrite Er. apply orb_false_iff in Hk as [Ha Hkl].
    destruct (kill_attempt_failed l); cbn; split_and!; try done; lia.
Qed.

(** What dropping a leaf does. Its first call is an [rmdir]; it kills through the leaf, once,
    exactly when that is refused, the child reported entering, and the tree is armed or was killed
    already; it waits for the drain only after a kill that was not refused, removes child groups only
    once the leaf has drained, tries the [rmdir] at most once more, right after; and it ends with the
    leaf gone or with one report of what is left, which is not a warning only for a tree its caller
    opted out and never tried to kill. *)
Theorem drop_policy l due h l' t :
  channel l = false -> abandoned l = false -> has_watch l = true ->
  runs (tear_down l due) h l' t ->
  exists first rest, core t = Rmdir first :: rest
    /\ removal_ok (core t)
    /\ count is_kill (core t) = (if refused first && entered l && (armed l || killed l) then 1 else 0)%nat
    /\ (refused first = false -> rest = [])
    /\ (existsb by_request rest = true -> entered l = true /\ armed l = false /\ killed l = false /\ kill_attempt_failed l = false).
Proof.
  intros Hc Ha Hw Hr. destruct (wp_runs _ _ _ _ _ (tear_down_runs l due h Hc Ha Hw) Hr) as (a & rest & Hcore & _ & Hd).
  exists a, rest. rewrite Hcore. destruct (drop_after_ok l a rest Hd) as (H1 & H2 & H3). split_and!; try done.
  intros Hf. by rewrite Hf in Hd.
Qed.

(** * Giving up without waiting *)

Inductive release_after (l : CgroupLeaf) : list Ev -> Prop :=
| release_unentered : entered l = false -> release_after l [LeftBehind]
| release_refused k : entered l = true -> armed l || killed l = true -> refused k = true ->
    release_after l [WriteKill k; LeftBehind]
| release_drained k ev t : entered l = true -> armed l || killed l = true -> refused k = false ->
    reads_empty ev = true -> sweep_removes t -> release_after l (WriteKill k :: ReadEvents ev :: t)
| release_members k ev : entered l = true -> armed l || killed l = true -> refused k = false ->
    reads_empty ev = false -> release_after l [WriteKill k; ReadEvents ev; LeftBehind]
| release_exited ev t : entered l = true -> armed l || killed l = false -> reads_empty ev = true ->
    sweep_removes t -> release_after l (ReadEvents ev :: t)
| release_running ev : entered l = true -> armed l || killed l = false -> reads_empty ev = false ->
    release_after l [ReadEvents ev; if kill_attempt_failed l then LeftBehind else LeftByRequest].

(** [drain_now] and what follows: a sweep if the leaf reads empty, else one report. *)
Lemma undrained_runs l (left_ : Ev) h : left_ = LeftBehind \/ left_ = LeftByRequest ->
  wp (do! drained := drain_now in
      match drained with Ok false => sweep_and_retry_rmdir l | _ => do! _ := note left_ in ret l end) h
    (fun _ t => exists ev t', core t = ReadEvents ev :: t' /\ if reads_empty ev then sweep_removes t' else t' = [left_]).
Proof.
  intros Hl. wp_step. wp_use drain_now_runs. intros r t (ev & -> & Hr). destruct (reads_empty ev) eqn:Ee.
  - subst r. wp_use sweep_runs. intros l' t [Ht _]. exists ev, (core t). by rewrite Ee, core_app.
  - assert (Hn : wp (do! _ := note left_ in ret l) (h ++ [ReadEvents ev]) (fun _ t' => exists ev' t'',
        core ([ReadEvents ev] ++ t') = ReadEvents ev' :: t'' /\ if reads_empty ev' then sweep_removes t'' else t'' = [left_])).
    { repeat wp_step. exists ev, [left_]. rewrite Ee. by destruct Hl as [-> | ->]. }
    by destruct r as [[]|].
Qed.

Lemma release_runs l h :
  wp (release_without_waiting l) h (fun _ t => exists a rest, core t = Rmdir a :: rest
    /\ if refused a then release_after l rest else rest = []).
Proof.
  unfold release_without_waiting. wp_step. wp_use rmdir_leaf_runs. intros [a l1] t [Ht Hs]. cbn in Ht, Hs. cbn beta iota.
  assert (Hf : entered l1 = entered l /\ armed l1 = armed l /\ killed l1 = killed l
    /\ kill_attempt_failed l1 = kill_attempt_failed l) by (rewrite Hs; by destruct l).
  destruct Hf as (-> & -> & -> & Hk1).
  destruct a as [u|e].
  { wp_step. rewrite app_nil_r. by exists (Ok u), []. }
  destruct (removed_after_drain e) eqn:Er.
  { wp_step. rewrite app_nil_r. exists (Err e), []. cbn. by rewrite Er. }
  assert (Hw : forall m : H CgroupLeaf, wp m (h ++ t) (fun _ t' => release_after l (core t')) ->
    wp m (h ++ t) (fun _ t' => exists a rest, core (t ++ t') = Rmdir a :: rest /\ if refused a then release_after l rest else rest = [])).
  { intros m Hm. wp_use Hm. intros l' t' Hr. exists (Err e), (core t'). rewrite core_app, Ht. cbn. by rewrite Er. }
  apply Hw. destruct (entered l) eqn:Ee; cbn [negb]; [|repeat wp_step; by constructor].
  destruct (armed l || killed l) eqn:Ek.
  - wp_step. wp_use hard_kill_runs. intros r t1 (k & -> & ->). unfold after_hard_kill. cbn [app].
    assert (Hgo : forall l2, refused k = false -> wp (do! drained := drain_now in
        match drained with Ok false => sweep_and_retry_rmdir l2 | _ => do! _ := note LeftBehind in ret l2 end)
        ((h ++ t) ++ [WriteKill k]) (fun _ t' => release_after l (core (WriteKill k :: t')))).
    { intros l2 Hk. wp_use undrained_runs; [auto|]. intros _ t' (ev & t'' & Ht' & Hev).
      change (WriteKill k :: t') with ([WriteKill k] ++ t'). rewrite core_app, Ht'. destruct (reads_empty ev) eqn:Eev.
      - by apply release_drained.
      - subst t''. by apply release_members. }
    destruct k as [u|e']; [by apply Hgo|]. destruct (removed_after_drain e') eqn:Er'.
    + apply Hgo. cbn. by rewrite Er'.
    + repeat wp_step. apply release_refused; [done|done|]. cbn. by rewrite Er'.
  - unfold release_undrained. rewrite Hk1.
    assert (Hgo : forall x, x = (if kill_attempt_failed l then LeftBehind else LeftByRequest) ->
      wp (do! drained := drain_now in match drained with Ok false => sweep_and_retry_rmdir l1 | _ => do! _ := note x in ret l1 end)
        (h ++ t) (fun _ t' => release_after l (core t'))).
    { intros x Hx. wp_use undrained_runs; [subst x; destruct (kill_attempt_failed l); auto|].
      intros _ t' (ev & t'' & Ht' & Hev). rewrite Ht'. destruct (reads_empty ev) eqn:Eev.
      - by apply release_exited.
      - subst. by apply release_running. }
    specialize (Hgo _ eq_refl). by destruct (kill_attempt_failed l).
Qed.

Lemma sweep_never_blocks t : sweep_removes t -> Forall (fun e => blocking e = false) t.
Proof. destruct 1 as [e|n a]; [|destruct (refused a)]; repeat constructor. Qed.

Lemma release_after_ok l a rest :
  (if refused a then release_after l rest else rest = []) ->
  Forall (fun e => blocking e = false) (Rmdir a :: rest)
  /\ removal_ok (Rmdir a :: rest)
  /\ count is_kill (Rmdir a :: rest) = (if refused a && entered l && (armed l || killed l) then 1 else 0)%nat
  /\ (existsb by_request rest = true -> entered l = true /\ armed l = false /\ killed l = false /\ kill_attempt_failed l = false).
Proof.
  unfold removal_ok. destruct (refused a) eqn:Er.
  2: { intros ->. unfold count. cbn. rewrite Er. split_and!; try done; [by repeat constructor|lia]. }
  destruct 1 as [He|k He Hk Hkr|k ev t He Hk Hkr Hev Ht|k ev He Hk Hkr Hev|ev t He Hk Hev Ht|ev He Hk Hev]; rewrite He.
  - unfold count. cbn. rewrite Er. split_and!; try done; [by repeat constructor|lia].
  - rewrite Hk. unfold count. cbn. rewrite Er. split_and!; try done; [by repeat constructor|lia].
  - destruct (sweep_removes_ok true (ReadEvents ev) t Ht) as (H1 & H2 & H3 & H4 & H5). rewrite Hk. unfold count in *. cbn.
    rewrite Er, Hkr, Hev. cbn. split_and!; try done; [|lia|lia|intros E; cbn in H5; congruence].
    repeat constructor. by apply sweep_never_blocks.
  - rewrite Hk. unfold count. cbn. rewrite Er. split_and!; try done; [by repeat constructor|lia].
  - destruct (sweep_removes_ok false (ReadEvents ev) t Ht) as (H1 & H2 & H3 & H4 & H5). rewrite Hk. unfold count in *. cbn.
    rewrite Er, Hev. cbn. split_and!; try done; [|lia|intros E; cbn in H5; congruence].
    repeat constructor. by apply sweep_never_blocks.
  - rewrite Hk. unfold count. cbn. rewrite Er. apply orb_false_iff in Hk as [Ha Hkl].
    destruct (kill_attempt_failed l); cbn; split_and!; try done; try lia; by repeat constructor.
Qed.

(** Giving a leaf up without waiting never waits: two [rmdir]s, one write of the kill and one
    read at most, and no call that blocks. It kills and reports as a drop does. *)
Theorem release_policy l h l' t :
  runs (release_without_waiting l) h l' t ->
  exists first rest, core t = Rmdir first :: rest
    /\ Forall (fun e => blocking e = false) (core t)
    /\ removal_ok (core t)
    /\ count is_kill (core t) = (if refused first && entered l && (armed l || killed l) then 1 else 0)%nat
    /\ (refused first = false -> rest = [])
    /\ (existsb by_request rest = true -> entered l = true /\ armed l = false /\ killed l = false /\ kill_attempt_failed l = false).
Proof.
  intros Hr. destruct (wp_runs _ _ _ _ _ (release_runs l h) Hr) as (a & rest & Hcore & Hd). exists a, rest. rewrite Hcore.
  destruct (release_after_ok l a rest Hd) as (H1 & H2 & H3 & H4). split_and!; try done. intros Hf. by rewrite Hf in Hd.
Qed.

(** * Abandoning a spawn *)

(** [remove_holding_nothing]: never a kill. *)
Inductive removed_unentered : list Ev -> Prop :=
| unentered_gone a : refused a = false -> removed_unentered [Rmdir a]
| unentered_unswept a s : refused a = true -> (forall n, s = Ok n -> n <= 0) ->
    removed_unentered [Rmdir a; RemoveChildren s; LeftBehind]
| unentered_swept a n b : refused a = true -> 0 < n ->
    removed_unentered (Rmdir a :: RemoveChildren (Ok n) :: Rmdir b :: report_if (refused b)).

Lemma remove_holding_nothing_runs l h : wp (remove_holding_nothing l) h (fun l' t => removed_unentered (core t) /\ same l l').
Proof.
  unfold remove_holding_nothing. wp_step. wp_use rmdir_leaf_runs. intros [a l1] t [Ht Hs]. cbn in Ht, Hs. cbn beta iota.
  destruct a as [u|e].
  { wp_step. rewrite app_nil_r, Ht. split; [by constructor|done]. }
  destruct (removed_after_drain e) eqn:Er.
  { wp_step. rewrite app_nil_r, Ht. split; [constructor; cbn; by rewrite Er|done]. }
  assert (Hr : refused (Err e) = true) by (cbn; by rewrite Er).
  do 2 wp_step. destruct (sweep_answer _) as [n|e'].
  - destruct (Z.ltb_spec 0 n) as [Hn|Hn].
    + wp_use final_rmdir_runs. intros l' t' (b & Ht' & Hs'). rewrite !core_app, Ht, Ht'.
      split; [by apply unentered_swept|by eapply same_trans].
    + repeat wp_step. rewrite !core_app, Ht. split; [|done]. apply unentered_unswept; [done|]. intros m [= ->]. lia.
  - repeat wp_step. rewrite !core_app, Ht. split; [|done]. by apply unentered_unswept.
Qed.

(** [remove_killing_through] after a kill that was answered [k]. *)
Inductive removed_killing (killed : bool) : list Ev -> Prop :=
| killing_gone a : refused a = false -> removed_killing killed [Rmdir a]
| killing_drained a t : refused a = true -> killed = true -> drain_removes t -> removed_killing killed (Rmdir a :: t)
| killing_again a k t : refused a = true -> killed = false -> (if refused k then t = [LeftBehind] else drain_removes t) ->
    removed_killing killed (Rmdir a :: WriteKill k :: t).

Lemma remove_killing_through_runs l killed due h : has_watch l = true ->
  wp (remove_killing_through l killed due) h (fun l' t => removed_killing killed (core t) /\ abandoned l' = abandoned l /\ channel l' = channel l).
Proof.
  intros Hw. unfold remove_killing_through. wp_step. wp_use rmdir_leaf_runs. intros [a l1] t [Ht Hs]. cbn in Ht, Hs. cbn beta iota.
  assert (Hl : forall l2, same l1 l2 -> abandoned l2 = abandoned l /\ channel l2 = channel l).
  { intros l2 ->. rewrite Hs. by destruct l. }
  assert (Hw1 : has_watch l1 = true) by (rewrite Hs; by destruct l).
  destruct a as [u|e].
  { wp_step. rewrite app_nil_r, Ht. split; [by constructor|by apply Hl, same_refl]. }
  destruct (removed_after_drain e) eqn:Er.
  { wp_step. rewrite app_nil_r, Ht. split; [constructor; cbn; by rewrite Er|by apply Hl, same_refl]. }
  assert (Hr : refused (Err e) = true) by (cbn; by rewrite Er). destruct killed.
  - wp_use drain_and_remove_runs; [done|]. intros l' t' [Hd Hs']. rewrite core_app, Ht. split; [by apply killing_drained|by apply Hl].
  - wp_use drain_and_remove_kills; [done|]. intros l' t' (k & u & Hu & Hs' & Hd). rewrite core_app, Ht, Hu.
    split; [by apply killing_again|]. rewrite Hs'.
    unfold after_hard_kill. destruct k as [|e']; [|destruct (removed_after_drain e')]; cbn; apply (Hl l1), same_refl.
Qed.

(** What a removal on abandonment does to the leaf: it is killed through exactly when its child entered
    it, and it ends gone or reported. *)
Definition leaf_ok (placed : bool) (t : list Ev) : Prop :=
  existsb is_kill (core t) = placed /\ (count is_rmdir (core t) <= 2)%nat
  /\ existsb gone_at (core t) = negb (existsb reported (core t)).

(** The leaf's kill is all it sends. *)
Definition only_kills (t : list Ev) : Prop := Forall (fun e => signals e = true -> is_kill e = true) t.

(** A call not on the leaf. *)
Definition off_leaf (e : Ev) : bool := negb (is_kill e || is_rmdir e || reported e).

Lemma unentered_ok t : removed_unentered t ->
  existsb is_kill t = false /\ (count is_rmdir t <= 2)%nat /\ existsb gone_at t = negb (existsb reported t) /\ only_kills t.
Proof.
  unfold only_kills, count. destruct 1 as [a Ha|a s Ha Hs|a n b Ha Hn]; cbn; rewrite ?Ha; [| |destruct (refused b); cbn].
  all: split_and!; try done; try lia; by repeat constructor.
Qed.

Lemma drain_removes_kills t : drain_removes t -> only_kills t.
Proof. unfold only_kills. destruct 1 as [e|e|n a]; [| |destruct (refused a)]; by repeat constructor. Qed.

Lemma killing_ok k t : removed_killing (negb (refused k)) t ->
  (count is_rmdir t <= 2)%nat /\ existsb gone_at t = negb (existsb reported t) /\ only_kills t.
Proof.
  unfold only_kills. destruct 1 as [a Ha|a t Ha Hk Ht|a k' t Ha Hk Ht].
  - unfold count. cbn. rewrite Ha. split_and!; [lia|done|by repeat constructor].
  - destruct (drain_removes_ok false (Rmdir a) t Ht) as (H1 & H2 & H3 & H4 & H5). apply drain_removes_kills in Ht.
    unfold count in *. cbn. rewrite Ha. cbn. split_and!; [lia|done|by constructor].
  - assert (Htl : (count is_rmdir t <= 1)%nat /\ existsb gone_at t = negb (existsb reported t) /\ only_kills t).
    { destruct (refused k'); [subst t; unfold count, only_kills; cbn; split_and!; [lia|done|by repeat constructor]|].
      destruct (drain_removes_ok false (Rmdir a) t Ht) as (H1 & H2 & H3 & H4 & H5). apply drain_removes_kills in Ht. done. }
    destruct Htl as (H1 & H2 & H3). unfold count in *. cbn. rewrite Ha. cbn. split_and!; [lia|done|by repeat constructor].
Qed.

Lemma only_kills_core t : only_kills (core t) -> only_kills t.
Proof.
  unfold only_kills. rewrite !Forall_forall. intros Ht e He Hs. apply Ht; [|done]. apply list_elem_of_filter. split; [|done].
  by destruct e.
Qed.

Lemma off_leaf_core t : Forall (fun e => off_leaf e = true) t ->
  count is_rmdir (core t) = 0%nat /\ existsb is_kill (core t) = false /\ existsb gone_at (core t) = false /\ existsb reported (core t) = false.
Proof.
  induction 1 as [|e t He Ht IH]; [done|]. destruct IH as (I1 & I2 & I3 & I4). unfold count in *. by destruct e; cbn in *.
Qed.

Lemma count_app f t t' : count f (t ++ t') = (count f t + count f t')%nat.
Proof. unfold count. by rewrite List.filter_app, length_app. Qed.

(** Calls off the leaf, before and after, change nothing of that. *)
Lemma leaf_ok_around placed t1 t t2 : Forall (fun e => off_leaf e = true) t1 -> Forall (fun e => off_leaf e = true) t2 ->
  leaf_ok placed t -> leaf_ok placed (t1 ++ t ++ t2).
Proof.
  intros (A1 & A2 & A3 & A4)%off_leaf_core (B1 & B2 & B3 & B4)%off_leaf_core (H1 & H2 & H3). unfold leaf_ok.
  rewrite !core_app, !existsb_app, !count_app, A1, A2, A3, A4, B1, B2, B3, B4, H1, H3, !orb_false_r. split_and!; [done|lia|done].
Qed.

Lemma after_hard_kill_facts l k r l1 : after_hard_kill l k = (r, l1) ->
  has_watch l1 = has_watch l /\ abandoned l1 = abandoned l /\ channel l1 = channel l
  /\ (match r with Ok _ => true | Err _ => false end) = negb (refused k).
Proof. unfold after_hard_kill. destruct k as [|e]; cbn; [|destruct (removed_after_drain e)]; intros [= <- <-]; done. Qed.

(** The leaf is left given up. *)
Definition given_up (l : CgroupLeaf) : Prop := abandoned l = true /\ channel l = false.

(** [hard_kill] and [remove_killing_through], and what comes after. *)
Lemma killing_part {B} (K : result Error unit -> CgroupLeaf -> H B) l due h Q :
  has_watch l = true -> given_up l ->
  (forall k l' t, leaf_ok true t -> only_kills t -> given_up l' -> wp (K k l') (h ++ t) (fun b t' => Q b (t ++ t'))) ->
  wp (do2! kill, l := hard_kill l in
      do! l := remove_killing_through l (match kill with Ok _ => true | Err _ => false end) due in K kill l) h Q.
Proof.
  intros Hw [Ha Hc] HK. wp_step. wp_use hard_kill_runs. intros r t (k & -> & ->).
  destruct (after_hard_kill l k) as [r l1] eqn:Ek. apply after_hard_kill_facts in Ek as (Hw1 & Ha1 & Hc1 & ->). wp_step.
  wp_use remove_killing_through_runs; [congruence|]. intros l2 t (Ht & Ha2 & Hc2).
  rewrite <- app_assoc. eapply wp_mono; [|intros b t' Hq; rewrite app_assoc; exact Hq].
  apply killing_ok in Ht as (H1 & H2 & H3). apply HK; [| |split; congruence].
  - unfold leaf_ok, count in *. by cbn.
  - apply only_kills_core. by constructor.
Qed.

Lemma holding_nothing_part l h : given_up l ->
  wp (remove_holding_nothing l) h (fun l' t => leaf_ok false t /\ only_kills t /\ given_up l').
Proof.
  intros Hg. wp_use remove_holding_nothing_runs. intros l' t [Ht Hs]. apply unentered_ok in Ht as (H1 & H2 & H3 & H4).
  split_and!; [done|by apply only_kills_core|]. rewrite Hs. by destruct l.
Qed.

Lemma look_off_leaf received u look : look_of received u look -> Forall (fun e => off_leaf e = true) look.
Proof. by destruct 1; repeat constructor. Qed.

Lemma child_off_leaf received fate t : child_ended received fate t -> Forall (fun e => off_leaf e = true) t.
Proof.
  assert (Hg : forall p pid s g, group_sent p received pid s g -> Forall (fun e => off_leaf e = true) g).
  { destruct 1 as [a Ha| |u a|e look He Hl|e look a He Hl]; rewrite ?Forall_app; repeat constructor; try done; by eapply look_off_leaf. }
  destruct 1 as [Hp|pid Hp Hh|pid p look Hp Hh Hl Hw|pid p look s g Hp Hh Hl Hw Hg'|pid p look group g a f t Hp Hh Hl Hg' Hk].
  - constructor.
  - constructor.
  - by eapply look_off_leaf.
  - apply Forall_app. split; [by eapply look_off_leaf|by eapply Hg].
  - rewrite !Forall_app. split_and!; [by eapply look_off_leaf| |by repeat constructor|].
    + destruct (write_failed received); [destruct Hg' as (s & Hs & _); by eapply Hg|destruct Hg' as [_ ->]; constructor].
    + by destruct Hk as [pid' group|pid' group e' by_ He Hb'|pid' group u slow r [->|[->| ->]]]; repeat constructor.
Qed.

Lemma child_answer received fate t : child_ended received fate t ->
  match fate with
  | NeverReached => raw_pid received = None
  | Unkillable => handle_of received = None \/ exists b, BackgroundReap b ∈ t
  | _ => True
  end.
Proof.
  destruct 1 as [Hp|pid Hp Hh|pid p look Hp Hh Hl Hw|pid p look s g Hp Hh Hl Hw Hg|pid p look group g a f t Hp Hh Hl Hg Hk]; auto.
  destruct Hk as [pid' group|pid' group e' by_ He Hb'|pid' group u slow r Hs]; [by destruct group as [[[]|]|]| |done].
  right. exists by_. rewrite !elem_of_app. right. right. right. by left.
Qed.

(** What an abandonment answers means. *)
Definition answered (received : Received) (front : bool) (a : Abandonment) (t : list Ev) : Prop :=
  match a with
  | Ended => True
  | MaybeUnreaped => raw_pid received = None
  | OutOfReach => handle_of received = None \/ exists b, BackgroundReap b ∈ t
  | Front _ => front = true /\ report received <> None
  end.

(** What an abandonment is. *)
Definition abandons (received : Received) (placed front : bool) (r : Abandonment * CgroupLeaf) (t : list Ev) : Prop :=
  leaf_ok placed t /\ (front = true -> report received <> None -> only_kills t) /\ given_up r.2 /\ answered received front r.1 t.

Lemma abandonment_of_runs fate kill h :
  wp (abandonment_of fate kill) h (fun a w => (w = [] \/ w = [WarnOutOfReach])
    /\ match a with MaybeUnreaped => fate = NeverReached | OutOfReach => fate = Unkillable | Front _ => False | Ended => True end).
Proof. unfold abandonment_of. destruct fate, kill as [[]|]; repeat wp_step; auto. Qed.

(** The child's end, the leaf's, and what is said. *)
Lemma child_part received placed front l' fate kill t t' h :
  (front = true -> report received = None) -> child_ended received fate t -> leaf_ok placed t' -> given_up l' ->
  wp (do! a := abandonment_of fate kill in ret (a, l')) h (fun r w => abandons received placed front r (t ++ t' ++ w)).
Proof.
  intros Hf Hc Ht Hg. wp_step. wp_use abandonment_of_runs. intros a w [Hw Ha]. wp_step. rewrite app_nil_r.
  unfold abandons. cbn. split_and!; [| intros Hfr Hr; by destruct Hr; apply Hf|done|].
  - apply leaf_ok_around; [by eapply child_off_leaf|by destruct Hw as [->| ->]; repeat constructor|done].
  - apply child_answer in Hc. destruct a; try done; subst fate; [done|]. destruct Hc as [Hc|(b & Hb)]; [by left|right].
    exists b. apply elem_of_app. by left.
Qed.

(** A look: nothing sent, nothing done to the leaf. *)
Definition mere_look (e : Ev) : Prop := signals e = false /\ off_leaf e = true.

Lemma front_mere_looks received placed f t : front_ended received placed f t -> Forall mere_look t.
Proof.
  intros Hf. pose proof (front_ended_quiet _ _ _ _ Hf) as [Hs _].
  assert (Ho : Forall (fun e => off_leaf e = true) t).
  { destruct Hf as [look Hl|look b a Hl Ha|look b Hl Hp|look b e Hl Hp|look b slow b' r Hl Hp [->|[->| ->]]];
      rewrite ?Forall_app; split_and?; first [by eapply look_off_leaf|by repeat constructor]. }
  rewrite Forall_forall in *. intros e He. split; auto.
Qed.

Lemma reached_by_runs subtree l pid h : wp (reached_by subtree l pid) h (fun _ t => Forall mere_look t).
Proof.
  unfold reached_by. destruct subtree; [destruct (killed l)|].
  - wp_step. by repeat constructor.
  - wp_step. constructor.
  - wp_step. constructor.
Qed.

Lemma front_part received subtree l due h : report received <> None ->
  wp (end_front received due (reached_by subtree l (default 0 (rpid received)))) h
    (fun f t => Forall mere_look t /\ answered received true f t).
Proof.
  intros Hr. destruct (raw_pid received) as [pid|] eqn:Ep.
  2: { unfold end_front. rewrite Ep. wp_step. by split; [constructor|]. }
  destruct (handle_of received) as [p|] eqn:Eh.
  2: { unfold end_front. rewrite Ep, Eh. wp_step. by split; [constructor|]. }
  destruct (reached_by_runs subtree l (default 0 (rpid received)) h) as (placed & t0 & Hrun & Ht0).
  eapply wp_mono; [by eapply end_front_runs|]. intros f t (t' & -> & Hf). split.
  - apply Forall_app. split; [done|by eapply front_mere_looks].
  - apply front_ended_answer in Hf. by destruct f.
Qed.

(** The leaf's end, then the front's. *)
Lemma leaf_then_front received placed subtree l due h t :
  report received <> None -> leaf_ok placed t -> only_kills t -> given_up l ->
  wp (do! f := end_front received due (reached_by subtree l (default 0 (rpid received))) in ret (f, l)) h
    (fun r t' => abandons received placed true r (t ++ t')).
Proof.
  intros Hr Ht Hk Hg. wp_step. wp_use front_part; [done|]. intros f t' [Hm Ha]. wp_step. rewrite app_nil_r.
  assert (Hoff : Forall (fun e => off_leaf e = true) t') by (eapply Forall_impl; [exact Hm|]; by intros e []).
  unfold abandons. cbn. split_and!; [exact (leaf_ok_around placed [] t t' (Forall_nil_2 _) Hoff Ht)| |done|].
  - intros _ _. apply Forall_app. split; [done|]. eapply Forall_impl; [exact Hm|]. intros e [He _] Hs. congruence.
  - destruct f; try done. destruct Ha as [Ha|(b & Hb)]; [by left|right; exists b; apply elem_of_app; by right].
Qed.

Lemma abandon_front_runs l received due h :
  has_watch l = true -> given_up l -> report received <> None ->
  wp (abandon_front l received due) h (abandons received (entered l) true).
Proof.
  intros Hw Hg Hr. unfold abandon_front. do 2 wp_step. cbn [app]. rewrite app_nil_r. wp_step. destruct (entered l) eqn:He.
  - eapply (wp_mono _ _ (fun l' t => leaf_ok true t /\ only_kills t /\ given_up l')).
    + pose proof (fun Q => killing_part (fun _ l => ret l) l due h Q Hw Hg) as Hp.
      destruct (Hp (fun l' t => leaf_ok true t /\ only_kills t /\ given_up l')) as (a & t & Hrun & HQ).
      { intros k l' t H1 H2 H3. wp_step. by rewrite app_nil_r. }
      exists a, t. split; [|done]. unfold runs, bind, ret in *. destruct (hard_kill l h) as [[k l1] h1].
      by destruct (remove_killing_through l1 _ due h1).
    + intros l' t (H1 & H2 & H3). by apply leaf_then_front.
  - wp_use holding_nothing_part; [done|]. intros l' t (H1 & H2 & H3). by apply leaf_then_front.
Qed.

(** The child's end, then the leaf's. *)
Lemma child_then_leaf received front l due h :
  has_watch l = true -> given_up l -> (front = true -> report received = None) ->
  wp (do! fate := end_child received due in
      if entered l then
        do2! kill, l := hard_kill l in
        do! l := remove_killing_through l (match kill with Ok _ => true | Err _ => false end) due in
        do! a := abandonment_of fate (Some kill) in
        ret (a, l)
      else
        do! l := remove_holding_nothing l in
        do! a := abandonment_of fate None in
        ret (a, l)) h (abandons received (entered l) front).
Proof.
  intros Hw Hg Hf. wp_step. wp_use end_child_runs. intros fate t Hc. destruct (entered l) eqn:He.
  - apply killing_part; [done|done|]. intros kill l' t' H1 _ H3. by apply child_part.
  - wp_step. wp_use holding_nothing_part; [done|]. intros l' t' (H1 & _ & H3). by apply child_part.
Qed.

Lemma with_handshake_report received hs : report (with_handshake received hs) = report received.
Proof. unfold with_handshake. by destruct (handle_of received). Qed.

Lemma with_handshake_rpid received hs : rpid (with_handshake received hs) = rpid received.
Proof. unfold with_handshake. by destruct (handle_of received). Qed.

Lemma abandon_runs l front handshake due h :
  channel l = true -> has_watch l = true -> (rpid (shut_answer h) = None -> report (shut_answer h) = None) ->
  wp (abandon_before_verdict l front handshake due) h
    (abandons (with_handshake (shut_answer h) handshake) (bool_decide (placement (shut_answer h) = Placed)) front).
Proof.
  intros Hc Hw Hn. unfold abandon_before_verdict. rewrite Hc. cbn [negb]. do 2 wp_step. rewrite app_nil_r. cbn zeta.
  set (received := with_handshake (shut_answer h) handshake).
  set (l1 := set_received l (placement (shut_answer h)) true).
  assert (Hw1 : has_watch l1 = true) by done. assert (Hg : given_up l1) by done.
  assert (He : entered l1 = bool_decide (placement (shut_answer h) = Placed)) by done. rewrite <- He.
  assert (Hmain : wp
    (if front && bool_decide (report received <> None) then
       let l := match rpid received with Some pid => watch_front l1 pid | None => l1 end in abandon_front l received due
     else
       do! fate := end_child received due in
       if entered l1 then
         do2! kill, l := hard_kill l1 in
         do! l := remove_killing_through l (match kill with Ok _ => true | Err _ => false end) due in
         do! a := abandonment_of fate (Some kill) in
         ret (a, l)
       else
         do! l := remove_holding_nothing l1 in
         do! a := abandonment_of fate None in
         ret (a, l)) h (abandons received (entered l1) front)).
  { destruct front; cbn [andb]; [destruct (report received) eqn:Hr|].
    - rewrite bool_decide_true by done. cbn zeta. assert (H1 : report received <> None) by congruence. destruct (rpid received) as [pid|].
      + exact (abandon_front_runs (watch_front l1 pid) received due h Hw1 Hg H1).
      + by apply abandon_front_runs.
    - rewrite bool_decide_false by (intros E; by destruct E). by apply child_then_leaf.
    - by apply child_then_leaf. }
  clearbody l1. cbn [app]. destruct (rpid received) as [pid|] eqn:Ep; [exact Hmain|].
  destruct (pidfd received) as [p|]; [|exact Hmain].
  unfold received in Ep. rewrite with_handshake_rpid in Ep. apply Hn in Ep.
  wp_step. wp_use holding_nothing_part; [done|]. intros l' t (H1 & H2 & H3). do 3 wp_step. rewrite app_nil_r.
  assert (Hpl : placement (shut_answer h) <> Placed) by (unfold placement; by rewrite Ep).
  rewrite He, bool_decide_false by done. unfold abandons. cbn [fst snd]. split_and!; [| |done|done].
  - by apply (leaf_ok_around false [] t [TearDownThrough p]); [|repeat constructor|].
  - intros _ Hr. unfold received in Hr. by rewrite with_handshake_report in Hr.
Qed.

(** Abandoning a spawn. The leaf is killed through exactly when the child reported entering it,
    its [rmdir] is tried at most twice, and it ends gone or with a report; an elevation front that
    reported anything is sent nothing but what its leaf's kill reaches; a child said to be out of
    reach is one without a handle or one left to a background reaper; and dropping the leaf
    afterwards does nothing more. *)
Theorem abandon_policy l front handshake due h a l' t :
  channel l = true -> has_watch l = true -> (rpid (shut_answer h) = None -> report (shut_answer h) = None) ->
  runs (abandon_before_verdict l front handshake due) h (a, l') t ->
  existsb is_kill (core t) = bool_decide (placement (shut_answer h) = Placed)
  /\ (count is_rmdir (core t) <= 2)%nat
  /\ existsb gone_at (core t) = negb (existsb reported (core t))
  /\ (front = true -> report (shut_answer h) <> None -> Forall (fun e => signals e = true -> is_kill e = true) t)
  /\ match a with
     | Ended => True
     | MaybeUnreaped => raw_pid (shut_answer h) = None
     | OutOfReach => handle_of (with_handshake (shut_answer h) handshake) = None \/ exists b, BackgroundReap b ∈ t
     | Front _ => front = true /\ report (shut_answer h) <> None
     end
  /\ forall due' h', runs (tear_down l' due') h' l' [].
Proof.
  intros Hc Hw Hn Hr. destruct (wp_runs _ _ _ _ _ (abandon_runs l front handshake due h Hc Hw Hn) Hr) as ((H1 & H2 & H3) & H4 & [Ha Hch] & H6).
  rewrite with_handshake_report in H4. cbn [fst snd] in *. split_and!; try done.
  - unfold answered in H6. rewrite with_handshake_report in H6. destruct a; try done.
    unfold raw_pid in *. by rewrite with_handshake_rpid in H6.
  - intros due' h'. unfold tear_down, runs, bind, ret. rewrite Hch, Ha. by rewrite app_nil_r.
Qed.

End Leaf.

(** A leaf whose first [rmdir] finds it busy; the child reported entering it. *)
#[local] Instance demo_leaf : LeafSys := {
  child_sys := {|
    waitid_nowait _ _ := Ok tt;
    proc_dir_opens _ _ := true;
    group_through _ _ := Ok tt;
    group_probe _ _ := Ok tt;
    group_by_number _ _ := Ok tt;
    clones _ := true;
    signal_handle _ _ := Ok tt;
    ended_in_time _ := true;
    waitid_exited _ _ := Ok tt;
    waitid_nohang _ _ := Ok false |};
  rmdir_answer h := if existsb (fun e => match e with RemoveChildren _ => true | _ => false end) h then Ok tt
                    else Err (from_raw_os_error EBUSY);
  kill_file _ := Ok tt;
  events_file _ := Ok (bs "populated 0");
  drain_answer _ := Ok tt;
  sweep_answer _ := Ok 1;
  front_place _ _ := Ok true;
  subtree_answer _ := Ok tt;
  holds_answer _ _ := Ok true;
  shut_answer _ := received_ (Some Placed) (Some 41) (Some 5) None;
  wait_report _ := Placed
}.

Definition demo (channel entered : bool) : CgroupLeaf := leaf_ channel entered false true false false None None true true.

Definition demo_drop : list Ev :=
  [Rmdir (Err (from_raw_os_error EBUSY)); WriteKill (Ok tt); SlowLook true; WaitDrained (Ok tt); RemoveChildren (Ok 1); Rmdir (Ok tt)].

Lemma drop_policy_witness :
  (exists l', runs (tear_down (demo false true) true) [] l' demo_drop) /\ removal_ok (core demo_drop) /\ count is_kill (core demo_drop) = 1%nat.
Proof.
  assert (Hr : exists l', runs (tear_down (demo false true) true) [] l' demo_drop) by (eexists; vm_compute; reflexivity).
  split; [done|]. destruct Hr as [l' Hr].
  destruct (drop_policy (demo false true) true [] l' demo_drop eq_refl eq_refl eq_refl Hr) as (first & rest & Hc & H1 & H2 & _).
  split; [done|]. rewrite H2. cbn in Hc. by injection Hc as <- <-.
Defined.

Definition demo_release : list Ev :=
  [Rmdir (Err (from_raw_os_error EBUSY)); WriteKill (Ok tt); ReadEvents (Ok (bs "populated 0")); RemoveChildren (Ok 1); Rmdir (Ok tt)].

Lemma release_policy_witness :
  (exists l', runs (release_without_waiting (demo false true)) [] l' demo_release)
  /\ Forall (fun e => blocking e = false) (core demo_release).
Proof.
  assert (Hr : exists l', runs (release_without_waiting (demo false true)) [] l' demo_release) by (eexists; vm_compute; reflexivity).
  split; [done|]. destruct Hr as [l' Hr].
  by destruct (release_policy (demo false true) [] l' demo_release Hr) as (first & rest & _ & H1 & _).
Defined.

Definition demo_abandon : list Ev :=
  [WriteKill (Ok tt); WatchFront 41 (Some (Ok true)); Rmdir (Err (from_raw_os_error EBUSY)); SlowLook true; WaitDrained (Ok tt);
   RemoveChildren (Ok 1); WatchFront 41 (Some (Ok true)); Rmdir (Ok tt); Placed_ (Ok true); LookPidfd 5 (Ok tt);
   Probe (WaitPidfd 5) (Ok false); SlowLook true; Reap (WaitPidfd 5) (Ok tt)].

(** The front is known to be in the leaf, and waited for. *)
Lemma abandon_policy_witness :
  (exists l', runs (abandon_before_verdict (demo true false) true None true) []
     (Front FrontReaped, l') demo_abandon)
  /\ existsb is_kill demo_abandon = true.
Proof.
  assert (Hr : exists l', runs (abandon_before_verdict (demo true false) true None true) []
     (Front FrontReaped, l') demo_abandon) by (eexists; vm_compute; reflexivity).
  split; [done|]. destruct Hr as [l' Hr].
  assert (Hn : rpid (shut_answer []) = None -> report (shut_answer []) = None) by (intros E; vm_compute in E; discriminate E).
  by destruct (abandon_policy (demo true false) true None true [] _ l' _ eq_refl eq_refl Hn Hr) as (H1 & _).
Defined.
