(* ===== verification/OsChild.v ===== *)
(** A parent's view of its child: [src/os_process/child.rs], [src/wait/exit_only.rs] with its Linux
    and macOS backends, [src/os_process/linux.rs], the signals of [src/signal.rs], and
    [status_of_outcome] of [src/child/lifecycle.rs]. What the kernel answers a call is an argument;
    a call interrupted by a signal is made again, so its answer is the first other one. *)
From S2P Require Import Prelude Numbers IoErrors CrateError History.
Local Open Scope Z_scope.

Inductive Sig := SigKill | SigTerm.

Inductive Sent := Delivered | SentGone | Unverified.

(** * What a parent learns of an exit *)

(** A [waitid] record. *)
Record WaitRecord := wait_record { si_code : Z; si_status : Z }.

(** [ExitRecord]: a wait status, as [ExitStatus::from_raw] takes it, or a code that is no exit. *)
Inductive ExitRecord := Status (raw : Z) | Unreadable (si_code : Z).

Inductive Foreign := ForeignGone | ForeignOther | ForeignOrphaned.

Inductive PeekOutcome := PeekExit (r : ExitRecord) | PeekRunning | PeekForeign (f : Foreign).

Inductive Reap := Reaped (r : ExitRecord) | ReapRunning | ReapForeign (f : Foreign).

(** What a [try_reap] through a handle says; [Running] carries what to wait on. *)
Inductive TryReapOutcome := TryReaped (r : ExitRecord) | TryRunning | TryRecheck | TryForeign (f : Foreign).

Inductive ChildWaitOutcome := Exited (r : ExitRecord) | WaitForeign (f : Foreign) | DeadlinePassed.

#[export] Instance ExitRecord_eq_dec : EqDecision ExitRecord.
Proof. solve_decision. Defined.
#[export] Instance Foreign_eq_dec : EqDecision Foreign.
Proof. solve_decision. Defined.
#[export] Instance PeekOutcome_eq_dec : EqDecision PeekOutcome.
Proof. solve_decision. Defined.
#[export] Instance TryReapOutcome_eq_dec : EqDecision TryReapOutcome.
Proof. solve_decision. Defined.
#[export] Instance Sent_eq_dec : EqDecision Sent.
Proof. solve_decision. Defined.
#[export] Instance Sig_eq_dec : EqDecision Sig.
Proof. solve_decision. Defined.

(** [Foreign::fate]. *)
Definition foreign_fate (f : Foreign) (kill_delivered : bool) : ChildFate :=
  if kill_delivered then Killed else FateGone.

Definition CLD_EXITED : Z := 1.
Definition CLD_KILLED : Z := 2.
Definition CLD_DUMPED : Z := 3.

Definition is_exit_record (si_code : Z) : bool :=
  (si_code =? CLD_EXITED) || (si_code =? CLD_KILLED) || (si_code =? CLD_DUMPED).

Definition exit_record_of (r : WaitRecord) : ExitRecord :=
  if si_code r =? CLD_EXITED then Status (Z.shiftl (Z.land (si_status r) 0xFF) 8)
  else if si_code r =? CLD_KILLED then Status (Z.land (si_status r) 0x7F)
  else if si_code r =? CLD_DUMPED then Status (Z.lor (Z.land (si_status r) 0x7F) 0x80)
  else Unreadable (si_code r).

(** The standard library's [ExitStatus]: [code], [signal] and [core_dumped] of a wait status. *)
Definition status_code (raw : Z) : option Z :=
  if Z.land raw 0x7F =? 0 then Some (Z.land (Z.shiftr raw 8) 0xFF) else None.

Definition status_signal (raw : Z) : option Z :=
  let s := Z.land raw 0x7F in if (s =? 0) || (s =? 0x7F) then None else Some s.

Definition core_dumped (raw : Z) : bool :=
  bool_decide (is_Some (status_signal raw)) && negb (Z.land raw 0x80 =? 0).

(** [status_of_outcome]: the status a [Child] answers, [None] for a passed deadline. *)
Definition status_of_outcome (o : ChildWaitOutcome) : result Error (option Z) :=
  match o with
  | Exited (Status status) => Ok (Some status)
  | Exited (Unreadable _) => Err (Io (io_new InvalidData))
  | WaitForeign _ => Err (Io (from_raw_os_error 10))
  | DeadlinePassed => Ok None
  end.

(** [RootState], of [signal.rs]. *)
Inductive RootState := Unreaped | RootReaped (own : bool) | RootUnknown (e : IoError) | Unpinned.

(** [RootState::of_peek]. *)
Definition of_peek (peeked : result IoError PeekOutcome) : RootState :=
  match peeked with
  | Ok (PeekRunning | PeekExit _) => Unreaped
  | Ok (PeekForeign ForeignOrphaned) => Unpinned
  | Ok (PeekForeign _) => RootReaped false
  | Err e => RootUnknown e
  end.
