(* ===== verification/Owned.v ===== *)
(** The handle on a spawned child that any number of threads wait on and signal at once:
    [src/child/owned.rs], [owned/holder.rs] and [owned/waiting.rs], with the wait loop of
    [src/os_process/drive.rs]. Threads are interleaved steps between their lock operations, clock
    readings and calls of the child's [OsChild]; the child, the clock and the scheduler are the
    environment's. [exited_by], which takes no lock, reaps nothing and leaves the handle's state alone, is
    not one of the operations interleaved: it may ask a child that was reaped meanwhile. *)
From S2P Require Import Prelude IoErrors CrateError OsChild.
From stdpp Require Import gmap.
Local Open Scope Z_scope.

(** * The child, as the OS has it *)

(** Running, a zombie of ours with its record, reaped through this handle, or no longer ours. A
    zombie launchd holds may come back to us. *)
Inductive OsState := Alive | Zombie (r : ExitRecord) | Consumed (r : ExitRecord) | NotOurs (f : Foreign).

#[export] Instance OsState_eq_dec : EqDecision OsState.
Proof. solve_decision. Defined.

(** What [OsChild] promises of its answers: [try_reap] hands back the record of an exit and consumes
    it, or finds the child running, held, or not ours; [peek] sees the same and consumes nothing. Of
    a child already reaped nothing is promised. *)
Definition reap_allowed (os : OsState) (a : result Error TryReapOutcome) : bool :=
  match os, a with
  | _, Err _ => true
  | Alive, Ok TryRunning => true
  | Zombie r, Ok (TryReaped r') => bool_decide (r = r')
  | Zombie _, Ok TryRecheck => true
  | NotOurs f, Ok (TryForeign f') => bool_decide (f = f')
  | Consumed _, Ok _ => true
  | _, _ => false
  end.

Definition after_reap (os : OsState) (a : result Error TryReapOutcome) : OsState :=
  match a with Ok (TryReaped r) => Consumed r | _ => os end.

Definition peek_allowed (os : OsState) (a : result Error PeekOutcome) : bool :=
  match os, a with
  | _, Err _ => true
  | Alive, Ok PeekRunning => true
  | Zombie r, Ok (PeekExit r') => bool_decide (r = r')
  | NotOurs f, Ok (PeekForeign f') => bool_decide (f = f')
  | Consumed _, Ok _ => true
  | _, _ => false
  end.

(** * The handle *)

(** [State]. *)
Inductive State := N | W (token : Z) | E (record : ExitRecord).

#[export] Instance State_eq_dec : EqDecision State.
Proof. solve_decision. Defined.

(** What a thread asked of the handle: a [wait], a [signal], or a [hold]. *)
Inductive Op := Wait_ (deadline : option Z) | Signal_ (s : Sig) | Hold.

(** How an operation ended. A wait that panicked unwound. *)
Inductive Outcome :=
| Waited (r : result Error ChildWaitOutcome)
| Signalled (r : result Error Sent)
| Released
| Panicked.

(** What the holder does next in [run], given its look: block on the child, or pause. *)
Inductive Next := ToBlock | ToPause.

(** Where a thread is. [Entering], [Look], [Relock] and an unlocked [Dropping] want the lock; a thread
    at [Dispatch], [Signalling], [Held], [Looking], a locked [Top] or [Dropping], and before a pause,
    has it. [Blocked] and [Sleeping] are on the condition variable, notified or not. *)
Inductive Pc :=
| Entering (op : Op)
| Dispatch (d : option Z)
| Signalling (s : Sig)
| Held
| Blocked (d : option Z) (notified : bool)
| Top (token : Z) (d : option Z) (locked : bool)
| Look (token : Z) (d : option Z) (final : bool)
| Looking (token : Z) (d : option Z) (final : bool)
| Between (token : Z) (d : option Z) (next : Next)
| Sleeping (token : Z) (d : option Z) (notified : bool)
| Relock (token : Z) (d : option Z)
| OnChild (token : Z) (d : option Z)
| Dropping (token : Z) (d : option Z) (locked : bool) (out : Outcome)
| Done (op : Op) (out : Outcome).

(** What the child was asked, with what it was then. *)
Inductive Asked := AskedReap (os : OsState) | AskedPeek (os : OsState) | AskedSignal (os : OsState) (s : Sig).

Record World := world {
  state : State; next_token : Z; lock : option Z; threads : gmap Z Pc;
  os : OsState; exit : option ExitRecord; now : Z; asked : list Asked }.

Definition start (time : Z) : World := world N 0 None ∅ Alive None time [].

Definition set_state (w : World) (s : State) : World :=
  world s (next_token w) (lock w) (threads w) (os w) (exit w) (now w) (asked w).

Definition set_lock (w : World) (l : option Z) : World :=
  world (state w) (next_token w) l (threads w) (os w) (exit w) (now w) (asked w).

Definition set_pc (w : World) (t : Z) (pc : Pc) : World :=
  world (state w) (next_token w) (lock w) (<[t := pc]> (threads w)) (os w) (exit w) (now w) (asked w).

Definition set_token (w : World) (k : Z) : World :=
  world (state w) k (lock w) (threads w) (os w) (exit w) (now w) (asked w).

Definition set_os (w : World) (o : OsState) : World :=
  world (state w) (next_token w) (lock w) (threads w) o (exit w) (now w) (asked w).

Definition ask (w : World) (a : Asked) : World :=
  world (state w) (next_token w) (lock w) (threads w) (os w) (exit w) (now w) (asked w ++ [a]).

(** [notify_all]. *)
Definition notified (pc : Pc) : Pc :=
  match pc with
  | Blocked d _ => Blocked d true
  | Sleeping k d _ => Sleeping k d true
  | pc => pc
  end.

Definition notify (w : World) : World :=
  world (state w) (next_token w) (lock w) (notified <$> threads w) (os w) (exit w) (now w) (asked w).

(** [Inner::set] and [OwnedChild::notify], in one critical section. *)
Definition write (w : World) (s : State) : World := notify (set_state w s).

(** [crate::wait::remaining] is zero. *)
Definition passed (d : option Z) (now : Z) : bool := match d with Some d => d <=? now | None => false end.

(** The thread [t] lets the lock go, and is at [pc]. *)
Definition unlock (w : World) (t : Z) (pc : Pc) : World := set_pc (set_lock w None) t pc.

(** ** [OwnedChild::wait] and [HolderGuard::arm] *)

(** The dispatch on the state, under the lock. [peek] answers an expired wait's one look. *)
Definition dispatch (w : World) (t : Z) (d : option Z) (peek : result Error PeekOutcome) : option World :=
  match state w with
  | E r => Some (unlock w t (Done (Wait_ d) (Waited (Ok (Exited r)))))
  | N =>
      let token := next_token w in
      Some (set_pc (write (set_token w (token + 1)) (W token)) t (Top token d true))
  | W _ =>
      if passed d (now w) then
        if peek_allowed (os w) peek then
          let out := match peek with
                     | Ok (PeekExit r) => Ok (Exited r)
                     | Ok PeekRunning => Ok DeadlinePassed
                     | Ok (PeekForeign f) => Ok (WaitForeign f)
                     | Err e => Err e
                     end in
          Some (unlock (ask w (AskedPeek (os w))) t (Done (Wait_ d) (Waited out)))
        else None
      else Some (unlock w t (Blocked d false))
  end.

(** ** The holder *)

(** [HolderGuard::drop]: [N] is restored and the waiters woken. *)
Definition drop_guard (w : World) (t : Z) (d : option Z) (out : Outcome) : World :=
  unlock (write w N) t (Done (Wait_ d) out).

(** [Holder::look] with what [run] makes of it; [final] is read before the look. *)
Definition look (w : World) (t token : Z) (d : option Z) (final : bool) (a : result Error TryReapOutcome) : World :=
  let w' := set_os (ask w (AskedReap (os w))) (after_reap (os w) a) in
  match a with
  | Err e => drop_guard w' t d (Waited (Err e))
  | Ok (TryReaped r) => unlock (write w' (E r)) t (Done (Wait_ d) (Waited (Ok (Exited r))))
  | Ok (TryForeign f) => unlock (write w' N) t (Done (Wait_ d) (Waited (Ok (WaitForeign f))))
  | Ok TryRecheck =>
      if final then drop_guard w' t d (Waited (Ok DeadlinePassed))
      else set_pc w' t (Between token d ToPause)
  | Ok TryRunning =>
      if final then unlock w' t (Dropping token d false (Waited (Ok DeadlinePassed)))
      else unlock w' t (Between token d ToBlock)
  end.

(** [run]'s top, which reads the clock: [look] takes the lock unless the holder has it. *)
Definition top (w : World) (t token : Z) (d : option Z) (locked : bool) : World :=
  let final := passed d (now w) in
  set_pc w t (if locked then Looking token d final else Look token d final).

(** [run] after a look that was not done, which reads the clock again: block on what the look
    returned, or [HolderGuard::sleep]. *)
Definition between (w : World) (t token : Z) (d : option Z) (next : Next) : World :=
  match next with
  | ToBlock => set_pc w t (if passed d (now w) then Top token d false else OnChild token d)
  | ToPause => if passed d (now w) then set_pc w t (Top token d true) else unlock w t (Sleeping token d false)
  end.

(** [signal_locked]; a [ReapHold] goes on after it. *)
Definition signal (w : World) (t : Z) (s : Sig) (a : result Error Sent) : World * result Error Sent :=
  match state w with
  | E _ => (w, Ok SentGone)
  | _ => (ask w (AskedSignal (os w) s), a)
  end.

(** [peek_locked] of a [ReapHold]. *)
Definition held_peek (w : World) (a : result Error PeekOutcome) : option World :=
  match state w with
  | E _ => Some w
  | _ => if peek_allowed (os w) a then Some (ask w (AskedPeek (os w))) else None
  end.

(** ** Steps *)

Inductive Label :=
| Call (t : Z) (op : Op)
| Acquire (t : Z)
| Act (t : Z)
| ActPeek (t : Z) (a : result Error PeekOutcome)
| ActReap (t : Z) (a : result Error TryReapOutcome)
| ActSignal (t : Z) (s : Sig) (a : result Error Sent)
| Wake (t : Z)
| Unwind (t : Z)
| BlockFails (t : Z) (e : Error)
| Spurious (t : Z)
| Tick (by_ : Z)
| Exits (r : ExitRecord)
| Leaves (f : Foreign).

(** The thread takes the free lock. *)
Definition acquire (w : World) (t : Z) : option World :=
  match lock w, threads w !! t with
  | None, Some pc =>
      pc' ← match pc with
            | Entering (Wait_ d) => Some (Dispatch d)
            | Entering (Signal_ s) => Some (Signalling s)
            | Entering Hold => Some Held
            | Look token d final => Some (Looking token d final)
            | Relock token d => Some (Top token d true)
            | Dropping token d false out => Some (Dropping token d true out)
            | _ => None
            end;
      Some (set_pc (set_lock w (Some t)) t pc')
  | _, _ => None
  end.

(** A step with no answer of the OS. *)
Definition act (w : World) (t : Z) : option World :=
  match threads w !! t with
  | Some (Dispatch d) =>
      match state w with W _ => if passed d (now w) then None else dispatch w t d (Ok PeekRunning) | _ => dispatch w t d (Ok PeekRunning) end
  | Some Held => Some (unlock w t (Done Hold Released))
  | Some (Top token d locked) => Some (top w t token d locked)
  | Some (Between token d next) => Some (between w t token d next)
  | Some (Dropping token d true out) => Some (drop_guard w t d out)
  | _ => None
  end.

(** A thread on the condition variable wakes when notified or timed out, a holder when the child's
    exit or its deadline is there to see. A timed block may end early: the clock decides. *)
Definition wake (w : World) (t : Z) : option World :=
  match threads w !! t with
  | Some (Blocked d n) => if n || bool_decide (d <> None) then Some (set_pc w t (Entering (Wait_ d))) else None
  | Some (Sleeping token d n) => Some (set_pc w t (Relock token d))
  | Some (OnChild token d) =>
      if bool_decide (os w <> Alive) || passed d (now w) then Some (set_pc w t (Top token d false)) else None
  | _ => None
  end.

(** A panic of the holder; its guard drops. *)
Definition unwind (w : World) (t : Z) : option World :=
  match threads w !! t with
  | Some (Top token d locked) => Some (set_pc w t (Dropping token d locked Panicked))
  | Some (Look token d _) | Some (OnChild token d) | Some (Between token d ToBlock) => Some (set_pc w t (Dropping token d false Panicked))
  | Some (Looking token d _) | Some (Between token d ToPause) => Some (set_pc w t (Dropping token d true Panicked))
  | _ => None
  end.

Definition step (w : World) (l : Label) : option World :=
  match l with
  | Call t op =>
      match threads w !! t with
      | None | Some (Done _ _) => Some (set_pc w t (Entering op))
      | _ => None
      end
  | Acquire t => acquire w t
  | Act t => act w t
  | ActPeek t a =>
      match threads w !! t with
      | Some (Dispatch d) =>
          match state w with W _ => if passed d (now w) then dispatch w t d a else None | _ => None end
      | Some Held => held_peek w a
      | _ => None
      end
  | ActReap t a =>
      match threads w !! t with
      | Some (Looking token d final) => if reap_allowed (os w) a then Some (look w t token d final a) else None
      | _ => None
      end
  | ActSignal t s a =>
      match threads w !! t with
      | Some (Signalling s') =>
          if bool_decide (s = s') then let '(w', r) := signal w t s a in Some (unlock w' t (Done (Signal_ s) (Signalled r))) else None
      | Some Held => Some (signal w t s a).1
      | _ => None
      end
  | Wake t => wake w t
  | Unwind t => unwind w t
  | BlockFails t e =>
      match threads w !! t with
      | Some (OnChild token d) => Some (set_pc w t (Dropping token d false (Waited (Err e))))
      | _ => None
      end
  | Spurious t =>
      match threads w !! t with
      | Some (Blocked d _) => Some (set_pc w t (Entering (Wait_ d)))
      | Some (OnChild token d) => Some (set_pc w t (Top token d false))
      | _ => None
      end
  | Tick by_ => if 0 <=? by_ then Some (world (state w) (next_token w) (lock w) (threads w) (os w) (exit w) (now w + by_) (asked w)) else None
  | Exits r =>
      if (bool_decide (os w = Alive) || bool_decide (os w = NotOurs ForeignOrphaned)) && bool_decide (default r (exit w) = r) then
        Some (world (state w) (next_token w) (lock w) (threads w) (Zombie r) (Some r) (now w) (asked w))
      else None
  | Leaves f =>
      match os w with
      | Alive | Zombie _ | NotOurs ForeignOrphaned => Some (set_os w (NotOurs f))
      | _ => None
      end
  end.

Fixpoint run (w : World) (ls : list Label) : option World :=
  match ls with
  | [] => Some w
  | l :: ls => w' ← step w l; run w' ls
  end.

(** * The invariant *)

(** The thread has the lock. *)
Definition holds (pc : Pc) : bool :=
  match pc with
  | Dispatch _ | Signalling _ | Held | Looking _ _ _ | Top _ _ true | Between _ _ ToPause | Dropping _ _ true _ => true
  | _ => false
  end.

(** The thread is the holder, and its token. *)
Definition token_of (pc : Pc) : option Z :=
  match pc with
  | Top k _ _ | Look k _ _ | Looking k _ _ | Between k _ _ | Sleeping k _ _ | Relock k _ | OnChild k _ | Dropping k _ _ _ => Some k
  | _ => None
  end.

Definition unwoken (pc : Pc) : bool := match pc with Blocked _ false => true | _ => false end.

(** What an answered wait says. *)
Definition truthful (w : World) (d : option Z) (out : Outcome) : Prop :=
  match out with
  | Waited (Ok (Exited r)) => exit w = Some r
  | Waited (Ok DeadlinePassed) => passed d (now w) = true
  | Waited (Ok (WaitForeign f)) => f <> ForeignOrphaned -> os w = NotOurs f
  | _ => True
  end.

Definition pc_good (w : World) (pc : Pc) : Prop :=
  match pc with
  | Look _ d true | Looking _ d true => passed d (now w) = true
  | Dropping _ d _ out => truthful w d out
  | Done (Wait_ d) out => truthful w d out
  | _ => True
  end.

Definition pc_ok (w : World) (t : Z) (pc : Pc) : Prop :=
  (holds pc = true <-> lock w = Some t)
  /\ (forall k, token_of pc = Some k -> state w = W k)
  /\ (unwoken pc = true -> exists k, state w = W k)
  /\ pc_good w pc.

Definition os_ok (w : World) : Prop :=
  (forall r, state w = E r <-> os w = Consumed r)
  /\ (forall r, os w = Zombie r \/ os w = Consumed r -> exit w = Some r)
  /\ (os w = Alive -> exit w = None).

Definition asked_of (a : Asked) : OsState := match a with AskedReap os | AskedPeek os | AskedSignal os _ => os end.

Definition unasked_after_reap (w : World) : Prop := Forall (fun a => forall r, asked_of a <> Consumed r) (asked w).

Record inv (w : World) : Prop := {
  inv_pc : forall t pc, threads w !! t = Some pc -> pc_ok w t pc;
  inv_lock : forall t, lock w = Some t -> is_Some (threads w !! t);
  inv_one : forall t t' pc pc', threads w !! t = Some pc -> threads w !! t' = Some pc' ->
      is_Some (token_of pc) -> is_Some (token_of pc') -> t = t';
  inv_some : forall k, state w = W k -> exists t pc, threads w !! t = Some pc /\ token_of pc = Some k;
  inv_os : os_ok w;
  inv_asked : unasked_after_reap w }.

Lemma inv_at_start time : inv (start time).
Proof.
  split; try done; [|constructor]. split_and!; [by intros r|by intros r [|]|done].
Qed.

(** What the world keeps. *)
Definition later (w w' : World) : Prop :=
  now w <= now w' /\ (forall r, exit w = Some r -> exit w' = Some r)
  /\ (forall f, f <> ForeignOrphaned -> os w = NotOurs f -> os w' = NotOurs f).

Lemma later_same w w' : now w' = now w -> exit w' = exit w -> os w' = os w -> later w w'.
Proof. intros Hn He Ho. split_and!; [lia|congruence|congruence]. Qed.

Lemma passed_mono d n n' : n <= n' -> passed d n = true -> passed d n' = true.
Proof. destruct d; cbn; [lia|done]. Qed.

Lemma pc_good_later w w' pc : later w w' -> pc_good w pc -> pc_good w' pc.
Proof.
  intros (Hn & He & Hf).
  assert (Ht : forall d out, truthful w d out -> truthful w' d out).
  { intros d out. unfold truthful. repeat case_match; eauto using passed_mono. }
  unfold pc_good. repeat case_match; eauto using passed_mono.
Qed.

Lemma notified_facts pc : holds (notified pc) = holds pc /\ token_of (notified pc) = token_of pc
  /\ unwoken (notified pc) = false /\ forall w, pc_good w pc -> pc_good w (notified pc).
Proof. by destruct pc. Qed.

(** The other threads after a step of [t]. *)
Definition others (wakes : bool) (ths : gmap Z Pc) : gmap Z Pc := if wakes then notified <$> ths else ths.

Lemma others_lookup wakes ths t pc' : others wakes ths !! t = Some pc' ->
  exists pc, ths !! t = Some pc /\ holds pc' = holds pc /\ token_of pc' = token_of pc
    /\ (if wakes then unwoken pc' = false else unwoken pc' = unwoken pc)
    /\ forall w, pc_good w pc -> pc_good w pc'.
Proof.
  destruct wakes; cbn; [|by eauto 10]. rewrite lookup_fmap. destruct (ths !! t) as [pc|]; [|done].
  cbn. intros [= <-]. destruct (notified_facts pc) as (? & ? & ? & ?). exists pc. by split_and!.
Qed.

(** How a step of [t] from [pc] to [pc'] moves the lock and the state. *)
Inductive lock_moves (t : Z) (pc pc' : Pc) : option Z -> option Z -> Prop :=
| lock_kept l : holds pc' = holds pc -> lock_moves t pc pc' l l
| lock_taken : holds pc' = true -> lock_moves t pc pc' None (Some t)
| lock_freed : holds pc = true -> holds pc' = false -> lock_moves t pc pc' (Some t) None.

Inductive state_moves (pc pc' : Pc) : bool -> State -> State -> Prop :=
| state_kept st : token_of pc' = token_of pc -> (unwoken pc' = true -> exists k, st = W k) -> state_moves pc pc' false st st
| state_settled k st : token_of pc = Some k -> token_of pc' = None -> unwoken pc' = false ->
    (forall k', st <> W k') -> state_moves pc pc' true (W k) st
| state_armed k : token_of pc' = Some k -> unwoken pc' = false -> state_moves pc pc' true N (W k).

(** A thread that never called yet is one that is done. *)
Definition there (w : World) (t : Z) (pc : Pc) : Prop :=
  threads w !! t = Some pc \/ threads w !! t = None /\ pc = Done Hold Released.

Lemma there_ok w t pc : inv w -> there w t pc -> pc_ok w t pc.
Proof.
  intros Hi [Ht|[Ht ->]]; [by apply inv_pc|]. split_and!; [split; [done|]|done|done|done].
  intros Hl. apply (inv_lock w Hi) in Hl as [pc Hp]. congruence.
Qed.

Lemma inv_step w w' t pc pc' wakes :
  inv w -> there w t pc -> threads w' = <[t := pc']> (others wakes (threads w)) ->
  lock_moves t pc pc' (lock w) (lock w') -> state_moves pc pc' wakes (state w) (state w') ->
  later w w' -> pc_good w' pc' -> os_ok w' -> unasked_after_reap w' -> inv w'.
Proof.
  intros Hi Ht Hths Hl Hs Hlater Hg Hos Hasked. destruct (there_ok w t pc Hi Ht) as (L1 & L2 & L3 & L4).
  assert (Htok : is_Some (token_of pc) -> threads w !! t = Some pc) by (destruct Ht as [Ht|[_ ->]]; [done|by intros [? ?]]).
  destruct Hi as [Ip Il Io Is _ _].
  assert (Hother : forall t' pc'', t' <> t -> threads w' !! t' = Some pc'' ->
    exists pc0, threads w !! t' = Some pc0 /\ holds pc'' = holds pc0 /\ token_of pc'' = token_of pc0
      /\ (if wakes then unwoken pc'' = false else unwoken pc'' = unwoken pc0) /\ forall w, pc_good w pc0 -> pc_good w pc'').
  { intros t' pc'' Hne. rewrite Hths, lookup_insert_ne by done. apply others_lookup. }
  assert (Hmine : threads w' !! t = Some pc') by (rewrite Hths; apply lookup_insert_eq).
  assert (Hheld : holds pc' = true <-> lock w' = Some t).
  { destruct Hl as [l Hh|Hh|Hh Hh']; [by rewrite Hh|by rewrite Hh|by rewrite Hh']. }
  split; [| | | |done|done].
  - intros t' pc'' Hlk. destruct (decide (t' = t)) as [->|Hne].
    + rewrite Hmine in Hlk. injection Hlk as <-. split_and!; [done| | |done].
      * intros k Hk. destruct Hs as [st Htk Hb|k' st Htk Htk' Hu Hst|k' Htk Hu]; [|congruence|congruence].
        apply L2. congruence.
      * intros Hu. destruct Hs as [st Htk Hb|k' st Htk Htk' Hu' Hst|k' Htk Hu']; [by apply Hb|congruence|by eauto].
    + destruct (Hother t' pc'' Hne Hlk) as (pc0 & H0 & E1 & E2 & E3 & E4). destruct (Ip t' pc0 H0) as (M1 & M2 & M3 & M4).
      split_and!.
      * rewrite E1, M1. destruct Hl as [l Hh|Hh|Hh Hh']; split; congruence.
      * intros k Hk. rewrite E2 in Hk. specialize (M2 k Hk). destruct Hs as [st Htk Hb|k' st Htk Htk' Hu Hst|k' Htk Hu]; [done| |congruence].
        exfalso. apply Hne. apply (Io t' t pc0 pc); eauto using mk_is_Some.
      * intros Hu. destruct Hs as [st Htk Hb|k' st Htk Htk' Hu' Hst|k' Htk Hu']; [apply M3; congruence|congruence|congruence].
      * apply E4. by eapply pc_good_later.
  - intros t' Hlk. destruct (decide (t' = t)) as [->|Hne]; [by eauto|].
    assert (Hl' : lock w = Some t') by (destruct Hl; congruence).
    destruct (Il t' Hl') as [pc0 H0]. rewrite Hths, lookup_insert_ne by done. destruct wakes; cbn; rewrite ?lookup_fmap, H0; eauto.
  - assert (Hu : forall t1 pc1, t1 <> t -> threads w' !! t1 = Some pc1 -> is_Some (token_of pc1) -> is_Some (token_of pc') -> False).
    { intros t1 pc1 Hne Hlk Hk1 Htok'. destruct (Hother t1 pc1 Hne Hlk) as (pc0 & H0 & _ & E2 & _). rewrite E2 in Hk1.
      destruct (Ip t1 pc0 H0) as (_ & M2 & _). destruct Hs as [st Htk Hb|k' st Htk Htk' Hu Hst|k' Htk Hu].
      - rewrite Htk in Htok'. apply Hne. by apply (Io t1 t pc0 pc); [|apply Htok| |].
      - rewrite Htk' in Htok'. by destruct Htok'.
      - destruct Hk1 as [k Hk]. by apply M2 in Hk. }
    intros t1 t2 pc1 pc2 H1 H2 Hk1 Hk2. destruct (decide (t1 = t)) as [->|N1], (decide (t2 = t)) as [->|N2]; [done| | |].
    + exfalso. rewrite Hmine in H1. injection H1 as <-. by eapply (Hu t2).
    + exfalso. rewrite Hmine in H2. injection H2 as <-. by eapply (Hu t1).
    + destruct (Hother t1 pc1 N1 H1) as (q1 & G1 & _ & E1 & _), (Hother t2 pc2 N2 H2) as (q2 & G2 & _ & E2 & _).
      rewrite E1 in Hk1. rewrite E2 in Hk2. by apply (Io t1 t2 q1 q2).
  - intros k Hst. destruct Hs as [st Htk Hb|k' st Htk Htk' Hu Hst'|k' Htk Hu].
    + destruct (Is k Hst) as (t1 & pc1 & H1 & Hk1). destruct (decide (t1 = t)) as [->|Hne].
      * exists t, pc'. split; [done|]. destruct Ht as [Ht|[Ht ->]]; congruence.
      * exists t1, pc1. by rewrite Hths, lookup_insert_ne.
    + by destruct (Hst' k).
    + injection Hst as ->. eauto.
Qed.

(** Steps of the environment. *)
Lemma inv_env w w' :
  inv w -> threads w' = threads w -> lock w' = lock w -> state w' = state w -> later w w' -> os_ok w' -> asked w' = asked w -> inv w'.
Proof.
  intros [Ip Il Io Is _ Ia] Ht Hl Hs Hlater Hos Hask. split; rewrite ?Ht; try done.
  - intros t pc Hlk. destruct (Ip t pc Hlk) as (M1 & M2 & M3 & M4). unfold pc_ok. rewrite Hl, Hs.
    split_and!; try done. by eapply pc_good_later.
  - intros t. by rewrite Hl; apply Il.
  - intros k. rewrite Hs. apply Is.
  - unfold unasked_after_reap. by rewrite Hask.
Qed.

(** A state that is not [E] is one the child was not reaped in. *)
Lemma unreaped w r : inv w -> (forall r, state w <> E r) -> os w <> Consumed r.
Proof. intros Hi Hs Ho. apply (inv_os w Hi) in Ho. by destruct (Hs r). Qed.

Lemma asked_snoc w w' a : inv w -> (forall r, state w <> E r) -> asked_of a = os w -> asked w' = asked w ++ [a] -> unasked_after_reap w'.
Proof.
  intros Hi Hs Ha Hw. unfold unasked_after_reap. rewrite Hw. apply Forall_app. split; [apply Hi|].
  constructor; [|constructor]. intros r. rewrite Ha. by apply unreaped.
Qed.

Lemma not_reaped_W w k r : state w = W k -> state w <> E r.
Proof. congruence. Qed.

Lemma os_ok_same w w' : os_ok w -> (forall r, state w' = E r <-> state w = E r) -> os w' = os w -> exit w' = exit w -> os_ok w'.
Proof. intros (H1 & H2 & H3) Hs Ho He. unfold os_ok. setoid_rewrite Hs. by rewrite Ho, He. Qed.

Lemma acquire_inv w t w' : inv w -> acquire w t = Some w' -> inv w'.
Proof.
  intros Hi. unfold acquire. destruct (lock w) eqn:El; [done|]. destruct (threads w !! t) as [pc|] eqn:Et; [|done].
  intros Hs. apply bind_Some in Hs as (pc' & Hpc & [= <-]).
  eapply (inv_step w _ t pc pc' false); [done|by left|done|by rewrite El; constructor; repeat case_match; simplify_eq|..]; cbn.
  - apply state_kept; repeat case_match; simplify_eq; done.
  - by apply later_same.
  - destruct (inv_pc w Hi t pc Et) as (_ & _ & _ & Hg). repeat case_match; simplify_eq; cbn in *; done.
  - exact (inv_os w Hi).
  - exact (inv_asked w Hi).
Qed.

(** A step of a thread that changes nothing but where it is, or lets the lock go. *)
Lemma inv_local w w' t pc pc' :
  inv w -> there w t pc -> threads w' = <[t := pc']> (threads w) -> state w' = state w -> os w' = os w -> exit w' = exit w ->
  now w' = now w -> lock_moves t pc pc' (lock w) (lock w') -> token_of pc' = token_of pc ->
  (unwoken pc' = true -> exists k, state w = W k) -> pc_good w' pc' ->
  (asked w' = asked w \/ (exists a, asked w' = asked w ++ [a] /\ asked_of a = os w /\ forall r, state w <> E r)) -> inv w'.
Proof.
  intros Hi Ht Hths Hs Ho He Hn Hl Htok Hu Hg Ha.
  eapply (inv_step w w' t pc pc' false); try done.
  - rewrite Hs. by constructor.
  - split_and!; [lia|congruence|congruence].
  - apply (os_ok_same w); [exact (inv_os w Hi)|by rewrite Hs|done|done].
  - destruct Ha as [Ha|(a & Ha & Hao & Hst)]; [unfold unasked_after_reap; rewrite Ha; exact (inv_asked w Hi)|by eapply asked_snoc].
Qed.

(** A step that writes the state, and wakes the waiters. *)
Lemma inv_write w w' t pc pc' k st :
  inv w -> threads w !! t = Some pc -> token_of pc = Some k -> holds pc = true ->
  threads w' = <[t := pc']> (notified <$> threads w) -> state w' = st -> lock w' = None -> (forall k', st <> W k') ->
  token_of pc' = None -> unwoken pc' = false -> holds pc' = false -> later w w' -> pc_good w' pc' -> os_ok w' -> unasked_after_reap w' -> inv w'.
Proof.
  intros Hi Ht Hk Hh Hths Hs Hl Hst Htok Hu Hh' Hlater Hg Hos Ha.
  destruct (inv_pc w Hi t pc Ht) as (M1 & M2 & _ & _).
  eapply (inv_step w w' t pc pc' true); try done; [by left| |].
  - rewrite Hl, (proj1 M1 Hh). by constructor.
  - rewrite Hs, (M2 k Hk). by eapply state_settled.
Qed.

Lemma holds_lock w t pc : inv w -> threads w !! t = Some pc -> holds pc = true -> lock w = Some t.
Proof. intros Hi Ht Hh. destruct (inv_pc w Hi t pc Ht) as (M1 & _). by apply M1. Qed.

(** The holder drops its guard. *)
Lemma drop_guard_inv w t d pc k out :
  inv w -> threads w !! t = Some pc -> token_of pc = Some k -> holds pc = true -> truthful w d out -> inv (drop_guard w t d out).
Proof.
  intros Hi Ht Hk Hh Hg. destruct (inv_pc w Hi t pc Ht) as (_ & M2 & _ & _).
  eapply (inv_write w _ t pc _ k N); try done; cbn; try (by apply later_same); try exact (inv_asked w Hi).
  destruct (inv_os w Hi) as (O1 & O2 & O3). split_and!; [|done|done].
  intros r. cbn. rewrite <- O1, (M2 k Hk). done.
Qed.

Lemma dispatch_inv w t d a w' :
  inv w -> threads w !! t = Some (Dispatch d) -> dispatch w t d a = Some w' -> inv w'.
Proof.
  intros Hi Ht Hd. pose proof (holds_lock w t _ Hi Ht eq_refl) as Hlk. unfold dispatch in Hd. destruct (state w) as [|k|r] eqn:Es.
  - injection Hd as <-. eapply (inv_step w _ t (Dispatch d) _ true); try done; cbn.
    + by left.
    + by constructor.
    + rewrite Es. by constructor.
    + apply (os_ok_same w); [exact (inv_os w Hi)| |done|done]. cbn. by rewrite Es.
    + exact (inv_asked w Hi).
  - destruct (passed d (now w)) eqn:Ep.
    + destruct (peek_allowed (os w) a) eqn:Ea; [|done]. injection Hd as <-.
      eapply (inv_local w _ t (Dispatch d)); try done; [by left|cbn; rewrite Hlk; by constructor| |].
      * destruct (inv_os w Hi) as (O1 & O2 & O3). unfold peek_allowed in Ea. cbn.
        destruct a as [[r| |f]|e]; cbn; [|done| |done].
        -- destruct (os w) as [|r'|r'|f'] eqn:Eo; try done; [|by assert (state w = E r') by (by apply O1); congruence].
           apply bool_decide_eq_true in Ea as ->. apply O2. by left.
        -- intros Hf. destruct (os w) as [|r'|r'|f'] eqn:Eo; try done; [by assert (state w = E r') by (by apply O1); congruence|].
           by apply bool_decide_eq_true in Ea as ->.
      * right. eexists. split_and!; [done|done|congruence].
    + injection Hd as <-. eapply (inv_local w _ t (Dispatch d)); try done; [by left|cbn; rewrite Hlk; by constructor|by eauto|by left].
  - injection Hd as <-. eapply (inv_local w _ t (Dispatch d)); try done; [by left|cbn; rewrite Hlk; by constructor| |by left].
    destruct (inv_os w Hi) as (O1 & O2 & O3). cbn. apply O2. right. by apply O1.
Qed.

(** The child asked something, and nothing else. *)
Lemma asked_inv w a : inv w -> (forall r, state w <> E r) -> asked_of a = os w -> inv (ask w a).
Proof.
  intros Hi Hs Ha. destruct Hi as [Ip Il Io Is Ios Ia]. split; try done.
  unfold unasked_after_reap. cbn. apply Forall_app. split; [done|]. constructor; [|constructor].
  intros r. rewrite Ha. intros Ho. apply Ios in Ho. by destruct (Hs r).
Qed.

(** The look of a holder. *)
Lemma look_inv w t k d final a :
  inv w -> threads w !! t = Some (Looking k d final) -> reap_allowed (os w) a = true -> inv (look w t k d final a).
Proof.
  intros Hi Ht Ha. pose proof (holds_lock w t _ Hi Ht eq_refl) as Hlk.
  destruct (inv_pc w Hi t _ Ht) as (_ & M2 & _ & Mg). specialize (M2 k eq_refl).
  pose proof (inv_os w Hi) as (O1 & O2 & O3).
  assert (Hne : forall r, os w <> Consumed r) by (intros r; apply unreaped; [done|congruence]).
  assert (Hi1 : inv (ask w (AskedReap (os w)))) by (apply asked_inv; [done|congruence|done]).
  assert (Hw1 : set_os (ask w (AskedReap (os w))) (os w) = ask w (AskedReap (os w))) by done.
  unfold look. destruct a as [[r| | |f]|e]; cbn [after_reap]; rewrite ?Hw1; clear Hw1.
  - assert (Ho : os w = Zombie r).
    { destruct (os w) as [|r'|r'|f'] eqn:Eo; try done; [by apply bool_decide_eq_true in Ha as ->|by destruct (Hne r')]. }
    assert (He : exit w = Some r) by (apply O2; by left).
    eapply (inv_write w _ t (Looking k d final) _ k (E r)); try done; cbn;
      [by split_and!; cbn; [lia|done|congruence]| |exact (inv_asked _ Hi1)].
    split_and!; cbn; [intros r'; split; congruence|by intros r' [[=]|[= <-]]|done].
  - destruct final; eapply (inv_local (ask w (AskedReap (os w))) _ t (Looking k d _)); try done.
    all: first [by left|by cbn; rewrite Hlk; constructor].
  - destruct final.
    + by eapply (drop_guard_inv _ t d (Looking k d true) k).
    + eapply (inv_local (ask w (AskedReap (os w))) _ t (Looking k d false)); try done; [by left|by constructor|by left].
  - assert (Ho : os w = NotOurs f).
    { destruct (os w) as [|r'|r'|f'] eqn:Eo; try done; [by destruct (Hne r')|by apply bool_decide_eq_true in Ha as ->]. }
    eapply (drop_guard_inv _ t d (Looking k d final) k (Waited (Ok (WaitForeign f)))); try done. by intros _.
  - by eapply (drop_guard_inv _ t d (Looking k d final) k (Waited (Err e))).
Qed.

Lemma passed_flag w d (locked : bool) k :
  pc_good w (if locked then Looking k d (passed d (now w)) else Look k d (passed d (now w))).
Proof. destruct locked; cbn; by destruct (passed d (now w)) eqn:E. Qed.

Ltac kept :=
  try done; try (by left); try (by right); try (by constructor);
  try (match goal with H : lock _ = Some _ |- _ => by cbn; rewrite H; constructor end).

Lemma act_inv w t w' : inv w -> act w t = Some w' -> inv w'.
Proof.
  intros Hi. unfold act. destruct (threads w !! t) as [pc|] eqn:Ht; [|done].
  pose proof (inv_pc w Hi t pc Ht) as (M1 & M2 & M3 & Mg).
  destruct pc as [op|d|s| |d n|k d locked|k d fin|k d fin|k d next|k d n|k d|k d|k d [] out|op out]; try done.
  - intros Hd. destruct (state w) eqn:Es; [|destruct (passed d (now w)); [done|]|]; by eapply dispatch_inv.
  - intros [= <-]. pose proof (holds_lock w t _ Hi Ht eq_refl) as Hlk.
    eapply (inv_local w _ t Held); kept.
  - intros [= <-]. unfold top. destruct locked.
    + eapply (inv_local w _ t (Top k d true)); kept; exact (passed_flag w d true k).
    + eapply (inv_local w _ t (Top k d false)); kept; exact (passed_flag w d false k).
  - intros [= <-]. unfold between. destruct next, (passed d (now w)).
    1-3: eapply (inv_local w _ t (Between k d _)); kept.
    pose proof (holds_lock w t _ Hi Ht eq_refl) as Hlk.
    eapply (inv_local w _ t (Between k d ToPause)); kept.
  - intros [= <-]. by eapply (drop_guard_inv _ t d (Dropping k d true out) k).
Qed.

Lemma wake_inv w t w' : inv w -> wake w t = Some w' -> inv w'.
Proof.
  intros Hi. unfold wake. destruct (threads w !! t) as [pc|] eqn:Ht; [|done].
  destruct pc as [op|d|s| |d n|k d locked|k d fin|k d fin|k d next|k d n|k d|k d|k d [] out|op out]; try done.
  - destruct (n || _); [|done]. intros [= <-]. eapply (inv_local w _ t (Blocked d n)); kept.
  - intros [= <-]. eapply (inv_local w _ t (Sleeping k d n)); kept.
  - destruct (_ || _); [|done]. intros [= <-]. eapply (inv_local w _ t (OnChild k d)); kept.
Qed.

Lemma unwind_inv w t w' : inv w -> unwind w t = Some w' -> inv w'.
Proof.
  intros Hi. unfold unwind. destruct (threads w !! t) as [pc|] eqn:Ht; [|done].
  destruct pc as [op|d|s| |d n|k d locked|k d fin|k d fin|k d []|k d n|k d|k d|k d [] out|op out]; try done; intros [= <-].
  all: match type of Ht with _ = Some ?pc => eapply (inv_local w _ t pc) end; kept.
  all: destruct locked; kept.
Qed.

Lemma signal_inv w t s a : inv w -> inv (signal w t s a).1.
Proof.
  intros Hi. unfold signal. destruct (state w) eqn:Es; cbn; [| |done]; apply asked_inv; try done; congruence.
Qed.

Lemma signal_keeps w t s a : threads (signal w t s a).1 = threads w /\ lock (signal w t s a).1 = lock w /\ state (signal w t s a).1 = state w.
Proof. unfold signal. destruct (state w) eqn:Es; cbn; by rewrite ?Es. Qed.

Lemma preserved w l w' : inv w -> step w l = Some w' -> inv w'.
Proof.
  intros Hi. destruct l as [t op|t|t|t a|t a|t s a|t|t|t e|t|b|r|f]; cbn.
  - destruct (threads w !! t) as [[]|] eqn:Ht; try done; intros [= <-].
    + eapply (inv_local w _ t (Done op0 out)); kept.
    + eapply (inv_local w _ t (Done Hold Released)); kept.
  - by apply acquire_inv.
  - by apply act_inv.
  - destruct (threads w !! t) as [[]|] eqn:Ht; try done.
    + destruct (state w); try done. destruct (passed d (now w)); [|done]. by apply dispatch_inv.
    + unfold held_peek. destruct (state w) eqn:Es; [| |by intros [= <-]]; (destruct (peek_allowed _ _); [|done]);
        intros [= <-]; apply asked_inv; try done; congruence.
  - destruct (threads w !! t) as [[]|] eqn:Ht; try done. destruct (reap_allowed (os w) a) eqn:Ea; [|done]. intros [= <-]. by eapply look_inv.
  - destruct (threads w !! t) as [[]|] eqn:Ht; try done.
    + case_bool_decide; [|done]. subst s0. destruct (signal w t s a) as [w1 r] eqn:Es. intros [= <-].
      pose proof (signal_inv w t s a Hi) as Hi1. destruct (signal_keeps w t s a) as (K1 & K2 & K3). rewrite Es in *. cbn in *.
      rewrite <- K1 in Ht. pose proof (holds_lock w1 t _ Hi1 Ht eq_refl) as Hlk.
      eapply (inv_local w1 _ t (Signalling s)); kept.
    + intros [= <-]. by apply signal_inv.
  - by apply wake_inv.
  - by apply unwind_inv.
  - destruct (threads w !! t) as [[]|] eqn:Ht; try done. intros [= <-].
    eapply (inv_local w _ t (OnChild token d)); kept.
  - destruct (threads w !! t) as [[]|] eqn:Ht; try done; intros [= <-].
    + eapply (inv_local w _ t (Blocked d notified0)); kept.
    + eapply (inv_local w _ t (OnChild token d)); kept.
  - destruct (Z.leb_spec 0 b); [|done]. intros [= <-]. eapply inv_env; try done; [split_and!; cbn; [lia|done|done]|exact (inv_os w Hi)].
  - destruct (_ && _) eqn:Ec; [|done]. intros [= <-]. apply andb_true_iff in Ec as [Eo Er]. apply bool_decide_eq_true in Er.
    pose proof (inv_os w Hi) as (O1 & O2 & O3).
    assert (Ho : os w = Alive \/ os w = NotOurs ForeignOrphaned) by (apply orb_true_iff in Eo as [H|H]; apply bool_decide_eq_true in H; auto).
    eapply (inv_env w); try done.
    + split_and!; cbn; [lia| |intros f Hf Hn; destruct Ho; congruence]. intros r' Hr'. by rewrite Hr' in Er; cbn in Er; subst.
    + split_and!; cbn; [|by intros r' [[=]|[=]]; subst|done]. intros r'. rewrite O1. split; [destruct Ho; congruence|done].
  - pose proof (inv_os w Hi) as (O1 & O2 & O3).
    assert (Hgo : (forall r, os w <> Consumed r) -> (os w <> NotOurs ForeignGone /\ os w <> NotOurs ForeignOther) -> inv (set_os w (NotOurs f))).
    { intros Hc [Hg Hf]. eapply (inv_env w); try done; [split_and!; cbn; [lia|done|]|].
      - intros f' Hne Ho. destruct f'; try done.
      - split_and!; cbn; [|by intros r [|]|done]. intros r. rewrite O1. split; [intros Ho; by destruct (Hc r)|done]. }
    destruct (os w) as [| | |[]] eqn:Eo; try done; intros [= <-]; by apply Hgo.
Qed.

Lemma inv_ran ls w w' : inv w -> run w ls = Some w' -> inv w'.
Proof.
  revert w. induction ls as [|l ls IH]; intros w Hi; cbn; [by intros [= <-]|].
  intros (w1 & Hs & Hr)%bind_Some. apply (IH w1); [by eapply preserved|done].
Qed.

(** C26: a child's handle, under any interleaving of any number of threads. It is reaped at most once,
    after which it is asked and sent nothing more, and one thread at a time waits on it; every wait
    that answers with an exit answers with the child's own, one that gives up does so at its deadline
    and not before; a lock is held by one thread; and nobody sleeps on the condition variable without
    a holder to wake it. *)
Theorem handle_safe time ls w :
  run (start time) ls = Some w ->
  (forall r, state w = E r <-> os w = Consumed r)
  /\ (forall r, os w = Consumed r -> exit w = Some r)
  /\ Forall (fun a => forall r, asked_of a <> Consumed r) (asked w)
  /\ (forall t t' pc pc', threads w !! t = Some pc -> threads w !! t' = Some pc' ->
        (is_Some (token_of pc) -> is_Some (token_of pc') -> t = t') /\ (holds pc = true -> holds pc' = true -> t = t'))
  /\ (forall t d, threads w !! t = Some (Blocked d false) ->
        exists k t' pc, state w = W k /\ threads w !! t' = Some pc /\ token_of pc = Some k)
  /\ (forall t d out, threads w !! t = Some (Done (Wait_ d) out) ->
        match out with
        | Waited (Ok (Exited r)) => exit w = Some r
        | Waited (Ok DeadlinePassed) => exists time, d = Some time /\ time <= now w
        | Waited (Ok (WaitForeign f)) => f <> ForeignOrphaned -> os w = NotOurs f
        | _ => True
        end).
Proof.
  intros Hr. apply inv_ran in Hr as Hi; [|apply inv_at_start]. pose proof (inv_os w Hi) as (O1 & O2 & O3).
  split_and!; [done|by auto|apply Hi| | |].
  - intros t t' pc pc' Ht Ht'. split; [by apply (inv_one w Hi)|]. intros Hh Hh'.
    apply (holds_lock w t pc Hi Ht) in Hh. apply (holds_lock w t' pc' Hi Ht') in Hh'. congruence.
  - intros t d Ht. destruct (inv_pc w Hi t _ Ht) as (_ & _ & M3 & _). destruct (M3 eq_refl) as [k Hk].
    destruct (inv_some w Hi k Hk) as (t' & pc & H1 & H2). eauto 8.
  - intros t d out Ht. destruct (inv_pc w Hi t _ Ht) as (_ & _ & _ & Mg). cbn in Mg. unfold truthful in Mg.
    destruct out as [[[r|f|]|e]|[]| |]; try done. unfold passed in Mg. destruct d as [d|]; [|done]. exists d. split; [done|lia].
Qed.

(** * Progress *)

(** The operation at a thread is over. *)
Definition finished (pc : Pc) : bool := match pc with Done _ _ => true | _ => false end.

(** The child's honest answer to the holder's look. *)
Definition honest (os : OsState) : TryReapOutcome :=
  match os with Alive => TryRunning | Zombie r | Consumed r => TryReaped r | NotOurs f => TryForeign f end.

Lemma honest_allowed o : (forall r, o <> Consumed r) -> reap_allowed o (Ok (honest o)) = true.
Proof. destruct o; cbn; intros Ho; rewrite ?bool_decide_true; done. Qed.

(** A step of a thread: no call, and nothing of the environment's. *)
Definition by_thread (l : Label) : bool :=
  match l with Acquire _ | Act _ | ActPeek _ _ | ActReap _ _ | ActSignal _ _ _ | Wake _ => true | _ => false end.

(** What a holder waits for. *)
Definition waits_on_child (w : World) : Prop :=
  exists t k d, threads w !! t = Some (OnChild k d) /\ os w = Alive /\ passed d (now w) = false.

(** Some thread can take a step, and is elsewhere after it. *)
Definition thread_can_move (w : World) : Prop :=
  exists l w' t, by_thread l = true /\ step w l = Some w' /\ threads w' !! t <> threads w !! t.

Lemma moves l t w : by_thread l = true -> (exists w', step w l = Some w' /\ threads w' !! t <> threads w !! t) -> thread_can_move w.
Proof. intros Hl (w' & Hs & Ht). by exists l, w', t. Qed.

Ltac moved :=
  eexists; (split; [reflexivity|]); cbn; unfold top, between; repeat case_match; cbn; rewrite ?lookup_insert_eq; congruence.

Lemma holding_steps w t pc : inv w -> threads w !! t = Some pc -> holds pc = true ->
  thread_can_move w.
Proof.
  intros Hi Ht Hh. destruct pc as [op|d|s| |d n|k d [|]|k d fin|k d fin|k d []|k d n|k d|k d|k d [] out|op out]; try done.
  - destruct (state w) as [|k|r] eqn:Es.
    + apply (moves (Act t) t); [done|]. cbn. unfold act. rewrite Ht. unfold dispatch. rewrite Es. moved.
    + destruct (passed d (now w)) eqn:Ep.
      * apply (moves (ActPeek t (Err (Io (io_new Other)))) t); [done|]. cbn. rewrite Ht, Es, Ep. unfold dispatch. rewrite Es, Ep.
        destruct (os w); cbn; moved.
      * apply (moves (Act t) t); [done|]. cbn. unfold act. rewrite Ht, Es, Ep. unfold dispatch. rewrite Es, Ep. moved.
    + apply (moves (Act t) t); [done|]. cbn. unfold act. rewrite Ht. unfold dispatch. rewrite Es. moved.
  - apply (moves (ActSignal t s (Ok Delivered)) t); [done|]. cbn. rewrite Ht, bool_decide_true by done. unfold signal. destruct (state w); moved.
  - apply (moves (Act t) t); [done|]. cbn. unfold act. rewrite Ht. moved.
  - apply (moves (Act t) t); [done|]. cbn. unfold act. rewrite Ht. moved.
  - destruct (inv_pc w Hi t _ Ht) as (_ & M2 & _). specialize (M2 k eq_refl).
    apply (moves (ActReap t (Ok (honest (os w)))) t); [done|]. cbn. rewrite Ht, honest_allowed; [destruct (os w), fin; moved|].
    intros r. apply unreaped; [done|congruence].
  - apply (moves (Act t) t); [done|]. cbn. unfold act. rewrite Ht. moved.
  - apply (moves (Act t) t); [done|]. cbn. unfold act. rewrite Ht. moved.
Qed.

(** A holder without the lock, the lock being free. *)
Lemma holder_steps w t pc k : lock w = None -> threads w !! t = Some pc -> token_of pc = Some k -> holds pc = false ->
  thread_can_move w \/ waits_on_child w.
Proof.
  intros Hl Ht Hk Hh. destruct pc as [op|d|s| |d n|k' d [|]|k' d fin|k' d fin|k' d []|k' d n|k' d|k' d|k' d [] out|op out]; try done.
  - left. apply (moves (Act t) t); [done|]. cbn. unfold act. rewrite Ht. moved.
  - left. apply (moves (Acquire t) t); [done|]. cbn. unfold acquire. rewrite Hl, Ht. moved.
  - left. apply (moves (Act t) t); [done|]. cbn. unfold act. rewrite Ht. moved.
  - left. apply (moves (Wake t) t); [done|]. cbn. unfold wake. rewrite Ht. moved.
  - left. apply (moves (Acquire t) t); [done|]. cbn. unfold acquire. rewrite Hl, Ht. moved.
  - destruct (bool_decide (os w <> Alive) || passed d (now w)) eqn:Ec.
    + left. apply (moves (Wake t) t); [done|]. cbn. unfold wake. rewrite Ht, Ec. moved.
    + right. apply orb_false_iff in Ec as [Ea Ep]. apply bool_decide_eq_false in Ea. exists t, k', d. split_and!; [done| |done].
      destruct (os w); [done|by destruct Ea..].
  - left. apply (moves (Acquire t) t); [done|]. cbn. unfold acquire. rewrite Hl, Ht. moved.
Qed.

Lemma never_stuck w t pc : inv w -> threads w !! t = Some pc -> finished pc = false ->
  thread_can_move w \/ waits_on_child w.
Proof.
  intros Hi Ht Hf. destruct (lock w) as [t0|] eqn:Hl.
  { destruct (inv_lock w Hi t0 Hl) as [pc0 H0]. left. eapply holding_steps; [done|done|]. by apply (inv_pc w Hi t0 pc0 H0). }
  assert (Hh : forall t pc, threads w !! t = Some pc -> holds pc = false).
  { intros t1 pc1 H1. destruct (holds pc1) eqn:E; [|done]. apply (inv_pc w Hi t1 pc1 H1) in E. congruence. }
  assert (Hlt : forall t1 pc1 k, threads w !! t1 = Some pc1 -> token_of pc1 = Some k ->
    thread_can_move w \/ waits_on_child w).
  { intros t1 pc1 k H1 Hk. eapply holder_steps; eauto. }
  destruct (token_of pc) as [k|] eqn:Hk; [by eauto|]. specialize (Hh t pc Ht).
  destruct pc as [op|d|s| |d [|]|k' d [|]|k' d fin|k' d fin|k' d []|k' d n|k' d|k' d|k' d [] out|op out]; try done.
  - left. apply (moves (Acquire t) t); [done|]. cbn. unfold acquire. rewrite Hl, Ht. destruct op; moved.
  - left. apply (moves (Wake t) t); [done|]. cbn. unfold wake. rewrite Ht. moved.
  - destruct (inv_pc w Hi t _ Ht) as (_ & _ & M3 & _). destruct (M3 eq_refl) as [k Hst].
    destruct (inv_some w Hi k Hst) as (t' & pc' & H1 & Hk1). by eapply Hlt.
Qed.

(** The steps a thread has left once the exit is recorded. *)
Definition weigh (pc : Pc) : nat :=
  match pc with
  | Done _ _ => 0
  | Dispatch _ | Signalling _ | Held => 1
  | Entering _ => 2
  | Blocked _ _ => 3
  | _ => 4
  end.

Definition total (ths : gmap Z Pc) : nat := map_fold (fun _ pc n => weigh pc + n)%nat 0%nat ths.

Definition weight (w : World) : nat := total (threads w).

Lemma total_insert ths t pc pc' : ths !! t = Some pc -> (total (<[t := pc']> ths) + weigh pc = total ths + weigh pc')%nat.
Proof.
  intros Ht. assert (Hc : forall (m : gmap Z Pc) q, m !! t = None -> total (<[t := q]> m) = (weigh q + total m)%nat).
  { intros m q Hn. apply (map_fold_insert_L (fun (_ : Z) q n => (weigh q + n)%nat)); [intros; lia|done]. }
  assert (Hm : ths = <[t := pc]> (delete t ths)) by (by rewrite insert_delete_id).
  rewrite Hm at 2. rewrite <- (insert_delete_eq ths t pc'). rewrite !Hc by apply lookup_delete_eq. lia.
Qed.

(** A step after the exit is recorded: nobody holds, and nobody writes the state. *)
Lemma settled_step w l w' r : inv w -> state w = E r -> step w l = Some w' ->
  state w' = E r
  /\ (threads w' = threads w
      \/ exists t pc', threads w' = <[t := pc']> (threads w)
         /\ match threads w !! t with
            | Some pc =>
                match l with Call _ _ => True | _ => (weigh pc' < weigh pc)%nat end
                /\ forall d, (pc = Entering (Wait_ d) \/ pc = Dispatch d \/ exists n, pc = Blocked d n) ->
                     pc' = Entering (Wait_ d) \/ pc' = Dispatch d \/ pc' = Done (Wait_ d) (Waited (Ok (Exited r)))
            | None => match l with Call _ _ => True | _ => False end
            end).
Proof.
  intros Hi Hs. assert (Hno : forall t pc, threads w !! t = Some pc -> token_of pc = None).
  { intros t pc Ht. destruct (inv_pc w Hi t pc Ht) as (_ & M2 & _). destruct (token_of pc) as [k|]; [|done]. specialize (M2 k eq_refl). congruence. }
  assert (Hu : forall t d, threads w !! t <> Some (Blocked d false)).
  { intros t d Ht. destruct (inv_pc w Hi t _ Ht) as (_ & _ & M3 & _). destruct (M3 eq_refl). congruence. }
  destruct l as [t op|t|t|t a|t a|t s a|t|t|t e|t|b|r'|f]; cbn.
  - destruct (threads w !! t) as [pc|] eqn:Ht; [destruct pc; try done|]; intros [= <-]; (split; [done|]); right; exists t, (Entering op);
      rewrite Ht; (split; [done|]); [split; [done|]|done]. intros d [?|[?|[? ?]]]; done.
  - unfold acquire. destruct (lock w); [done|]. destruct (threads w !! t) as [pc|] eqn:Ht; [|done]. specialize (Hno t pc Ht).
    intros (pc' & Hpc & [= <-])%bind_Some. split; [done|]. right. exists t, pc'. rewrite Ht. split; [done|].
    destruct pc as [[d|s|]|d|s| |d n|k d locked|k d fin|k d fin|k d next|k d n|k d|k d|k d [] out|op out]; try done; injection Hpc as <-; cbn;
      (split; [lia|]); intros d0 [[= E1]|[E1|[? E1]]]; try done; subst; auto.
  - unfold act. destruct (threads w !! t) as [pc|] eqn:Ht; [|done]. specialize (Hno t pc Ht).
    destruct pc as [[d|s|]|d|s| |d n|k d locked|k d fin|k d fin|k d next|k d n|k d|k d|k d [] out|op out]; try done.
    + unfold dispatch. rewrite Hs. intros [= <-]. split; [done|]. right. eexists t, _. rewrite Ht. split; [done|].
      split; [cbn; lia|]. intros d0 [E1|[[= ->]|[? E1]]]; try done; auto.
    + intros [= <-]. split; [done|]. right. eexists t, _. rewrite Ht. split; [done|]. split; [cbn; lia|]. intros d0 [?|[?|[? ?]]]; done.
  - destruct (threads w !! t) as [pc|] eqn:Ht; [|done]. destruct pc; try done; [by rewrite Hs|].
    unfold held_peek. rewrite Hs. intros [= <-]. split; [done|by left].
  - destruct (threads w !! t) as [pc|] eqn:Ht; [|done]. specialize (Hno t pc Ht). by destruct pc.
  - destruct (threads w !! t) as [pc|] eqn:Ht; [|done]. unfold signal. rewrite Hs. destruct pc; try done.
    + case_bool_decide; [|done]. intros [= <-]. split; [done|]. right. eexists t, _. rewrite Ht. split; [done|].
      split; [cbn; lia|]. intros d0 [?|[?|[? ?]]]; done.
    + intros [= <-]. split; [done|by left].
  - unfold wake. destruct (threads w !! t) as [pc|] eqn:Ht; [|done]. specialize (Hno t pc Ht). destruct pc; try done.
    destruct (_ || _); [|done]. intros [= <-]. split; [done|]. right. eexists t, _. rewrite Ht. split; [done|].
    split; [cbn; lia|]. intros d0 [E1|[E1|[? [= -> _]]]]; try done; auto.
  - unfold unwind. destruct (threads w !! t) as [pc|] eqn:Ht; [|done]. specialize (Hno t pc Ht). by destruct pc.
  - destruct (threads w !! t) as [pc|] eqn:Ht; [|done]. specialize (Hno t pc Ht). by destruct pc.
  - destruct (threads w !! t) as [pc|] eqn:Ht; [|done]. specialize (Hno t pc Ht). destruct pc; try done.
    intros [= <-]. split; [done|]. right. eexists t, _. rewrite Ht. split; [done|].
    split; [cbn; lia|]. intros d0 [E1|[E1|[? [= -> _]]]]; try done; auto.
  - destruct (0 <=? b); [|done]. intros [= <-]. split; [done|by left].
  - destruct (_ && _); [|done]. intros [= <-]. split; [done|by left].
  - destruct (os w) as [| | |[]]; try done; intros [= <-]; split; [done|by left|done|by left|done|by left].
Qed.

Definition is_call (l : Label) : bool := match l with Call _ _ => true | _ => false end.

(** The steps of a run that take a thread on. *)
Fixpoint moved_steps (w : World) (ls : list Label) : nat :=
  match ls with
  | [] => 0
  | l :: ls =>
      match step w l with
      | Some w' => (if (weight w' =? weight w)%nat then 0 else 1) + moved_steps w' ls
      | None => 0
      end
  end.

(** In a wait with deadline [d], or answered with [r]. *)
Definition waiting (d : option Z) (pc : Pc) : Prop := pc = Entering (Wait_ d) \/ pc = Dispatch d \/ exists n, pc = Blocked d n.

Definition answered (d : option Z) (r : ExitRecord) (pc : Pc) : Prop := pc = Done (Wait_ d) (Waited (Ok (Exited r))).

Lemma settled_run ls w w' r : inv w -> state w = E r -> forallb (fun l => negb (is_call l)) ls = true -> run w ls = Some w' ->
  state w' = E r /\ (moved_steps w ls + weight w' <= weight w)%nat
  /\ forall t d pc, threads w !! t = Some pc -> waiting d pc \/ answered d r pc ->
       exists pc', threads w' !! t = Some pc' /\ (waiting d pc' \/ answered d r pc').
Proof.
  revert w. induction ls as [|l ls IH]; intros w Hi Hs Hc; cbn.
  { intros [= ->]. split_and!; [done|lia|eauto]. }
  intros (w1 & Hst & Hr)%bind_Some. rewrite Hst. cbn in Hc. apply andb_true_iff in Hc as [Hl Hc].
  destruct (settled_step w l w1 r Hi Hs Hst) as [Hs1 Hth].
  destruct (IH w1 (preserved _ _ _ Hi Hst) Hs1 Hc Hr) as (H1 & H2 & H3). split; [done|].
  destruct Hth as [Hsame|(t' & pc' & Hth & Hpc)].
  { unfold weight in *. rewrite Hsame in *. rewrite Nat.eqb_refl. split; [lia|done]. }
  destruct (threads w !! t') as [pc0|] eqn:Ht; [|by destruct l].
  assert (Hlt : (weigh pc' < weigh pc0)%nat) by (by destruct l; destruct Hpc). destruct Hpc as [_ Hpc].
  split.
  - pose proof (total_insert (threads w) t' pc0 pc' Ht). unfold weight in *. rewrite Hth in *. destruct (_ =? _)%nat; lia.
  - intros t d pc Hlk Hw. destruct (decide (t' = t)) as [->|Hne]; [|apply (H3 t d pc); [by rewrite Hth, lookup_insert_ne|done]].
    assert (pc0 = pc) as -> by congruence. destruct Hw as [Hw| ->]; [|cbn in Hlt; lia].
    apply (H3 t d pc'); [by rewrite Hth, lookup_insert_eq|]. unfold waiting, answered in *. destruct (Hpc d Hw) as [|[|]]; auto.
Qed.

(** C39: once the exit is recorded, everyone learns it, whatever the scheduler does: it stays recorded,
    the threads take at most [weight] steps more, while an operation is unfinished some thread can
    step, and a wait that was under way ends with the recorded exit. *)
Theorem exit_reaches_everyone time ls w r ls' w' :
  run (start time) ls = Some w -> state w = E r ->
  forallb (fun l => negb (is_call l)) ls' = true -> run w ls' = Some w' ->
  state w' = E r
  /\ (moved_steps w ls' + weight w' <= weight w)%nat
  /\ (forall t pc, threads w' !! t = Some pc -> finished pc = false ->
        exists l w'', by_thread l = true /\ step w' l = Some w'' /\ (weight w'' < weight w')%nat)
  /\ (forall t d pc, threads w !! t = Some pc -> waiting d pc ->
        exists pc', threads w' !! t = Some pc' /\ (finished pc' = true -> pc' = Done (Wait_ d) (Waited (Ok (Exited r))))).
Proof.
  intros Hr Hs Hc Hr'. apply inv_ran in Hr as Hi; [|apply inv_at_start]. apply (inv_ran ls' w w' Hi) in Hr' as Hi'.
  destruct (settled_run ls' w w' r Hi Hs Hc Hr') as (H1 & H2 & H3). split_and!; [done|done| |].
  - intros t pc Ht Hf. pose proof (inv_os w' Hi') as (O1 & _).
    destruct (never_stuck w' t pc Hi' Ht Hf) as [(l & w'' & t' & Hl & Hst & Hmv)|(t' & k & d & _ & Ho & _)]; [|apply O1 in H1; congruence].
    exists l, w''. split; [done|]. split; [done|]. destruct (settled_step w' l w'' r Hi' H1 Hst) as [_ [Hsame|(t1 & pc1 & Hth & Hpc)]]; [congruence|].
    destruct (threads w' !! t1) as [pc0|] eqn:Ht1; [|by destruct l].
    assert (Hlt : (weigh pc1 < weigh pc0)%nat) by (by destruct l; destruct Hpc).
    pose proof (total_insert (threads w') t1 pc0 pc1 Ht1). unfold weight. rewrite Hth. lia.
  - intros t d pc Ht Hw. destruct (H3 t d pc Ht (or_introl Hw)) as (pc' & Ht' & Hw'). exists pc'. split; [done|].
    intros Hf. destruct Hw' as [[->|[->|[n ->]]]|?]; done.
Qed.

(** Nobody waits for anything but the child's exit or a deadline: while an operation is
    unfinished, some thread can step, unless a holder waits for a child that still runs, with its
    deadline ahead. *)
Theorem waits_only_for_the_child time ls w t pc :
  run (start time) ls = Some w -> threads w !! t = Some pc -> finished pc = false ->
  (exists l w' t', by_thread l = true /\ step w l = Some w' /\ threads w' !! t' <> threads w !! t')
  \/ exists t' k d, threads w !! t' = Some (OnChild k d) /\ os w = Alive /\ passed d (now w) = false.
Proof. intros Hr Ht Hf. apply inv_ran in Hr as Hi; [|apply inv_at_start]. by eapply never_stuck. Qed.

(** Two waits and a signal: the child ends, the holder reaps it, and the other wait learns of it. *)
Definition demo_reap : list Label :=
  [Call 1 (Wait_ None); Acquire 1; Act 1; Act 1; ActReap 1 (Ok TryRunning); Act 1;
   Call 2 (Wait_ (Some 50)); Acquire 2; Act 2;
   Call 3 (Signal_ SigTerm); Acquire 3; ActSignal 3 SigTerm (Ok Delivered);
   Exits (Status 15); Wake 1; Act 1; Acquire 1; ActReap 1 (Ok (TryReaped (Status 15)))].

Definition demo_learn : list Label := [Wake 2; Acquire 2; Act 2].

Lemma handle_safe_witness :
  match run (start 0) demo_reap with
  | Some w => os w = Consumed (Status 15) /\ exit w = Some (Status 15) /\ length (asked w) = 3%nat
  | None => False
  end.
Proof.
  destruct (run (start 0) demo_reap) as [w|] eqn:Er; [|by vm_compute in Er].
  assert (Hw : os w = Consumed (Status 15) /\ length (asked w) = 3%nat) by (vm_compute in Er; by injection Er as <-).
  destruct Hw as [Ho Ha]. split_and!; [done| |done]. by apply (proj1 (proj2 (handle_safe 0 demo_reap w Er))).
Defined.

Lemma exit_reaches_everyone_witness :
  match run (start 0) demo_reap with
  | Some w =>
      match run w demo_learn with
      | Some w' => state w' = E (Status 15) /\ weight w' = 0%nat
          /\ threads w' !! 2 = Some (Done (Wait_ (Some 50)) (Waited (Ok (Exited (Status 15)))))
      | None => False
      end
  | None => False
  end.
Proof.
  destruct (run (start 0) demo_reap) as [w|] eqn:Er; [|by vm_compute in Er].
  assert (Hw : state w = E (Status 15) /\ threads w !! 2 = Some (Blocked (Some 50) true)) by (vm_compute in Er; by injection Er as <-).
  destruct Hw as [Hs Ht].
  assert (Hl : exists w', run w demo_learn = Some w' /\ weight w' = 0%nat /\ (exists op out, threads w' !! 2 = Some (Done op out))).
  { vm_compute in Er. injection Er as <-. eexists. split; [by vm_compute|]. split; [by vm_compute|]. do 2 eexists. by vm_compute. }
  destruct Hl as (w' & Hr & Hw' & op & out & Hd). rewrite Hr.
  destruct (exit_reaches_everyone 0 demo_reap w (Status 15) demo_learn w' Er Hs eq_refl Hr) as (H1 & _ & _ & H4).
  split_and!; [done|done|]. destruct (H4 2 (Some 50) _ Ht) as (pc' & Hp & Hf); [right; right; by exists true|].
  rewrite Hd in Hp. injection Hp as <-. rewrite Hd. f_equal. by apply Hf.
Defined.

Lemma waits_only_for_the_child_witness :
  match run (start 0) (take 9 demo_reap) with
  | Some w => threads w !! 2 = Some (Blocked (Some 50) false) /\
      ((exists l w' t', by_thread l = true /\ step w l = Some w' /\ threads w' !! t' <> threads w !! t')
       \/ exists t' k d, threads w !! t' = Some (OnChild k d) /\ os w = Alive /\ passed d (now w) = false)
  | None => False
  end.
Proof.
  destruct (run (start 0) (take 9 demo_reap)) as [w|] eqn:Er; [|by vm_compute in Er].
  assert (Ht : threads w !! 2 = Some (Blocked (Some 50) false)) by (vm_compute in Er; by injection Er as <-).
  split; [done|]. exact (waits_only_for_the_child 0 _ w 2 _ Er Ht eq_refl).
Defined.
