(* ===== verification/Reaping.v ===== *)
(** How a child's exit is looked at and collected: [src/wait/exit_only.rs] with its Linux and macOS
    backends, [held_by] of [src/identity/macos.rs], and the [try_reap] of [src/os_process/linux.rs] and
    [src/os_process/macos/child.rs]. What the kernel answers is an argument; a call interrupted by a
    signal is made again, so its answer is the first other one. *)
From S2P Require Import Prelude Numbers IoErrors CrateError History LeafEnd OsChild.
Local Open Scope Z_scope.

Definition LAUNCHD : Z := 1.

(** [UniqRead], of a unique id, and [Held]. *)
Inductive UniqRead := UniqFound (unique : Z) | UniqGone | UniqRefused (errno : Z).

Inductive Held := HeldParent (ppid : Z) | HeldOther | HeldGone | HeldRefused (errno : Z).

(** [OnTracer]. *)
Inductive OnTracer := Block | RecheckTracer.

(** The calls, with their answers: a [waitid] that consumes or not and blocks or not, reads of a
    process by its number, and looks at the two queues of a macOS child. *)
Inductive Call :=
| Waitid (consume block : bool) (a : result Z (option WaitRecord))
| IsReadable (a : result IoError bool)
| UniqInfo (a : UniqRead)
| ShortPpid (a : result Z Z)
| DrainReap (a : result IoError (bool * bool))
| TracerHeld (tracer : Z) (a : result IoError OnTracer)
| ExitSeen (a : result IoError bool).

Notation H := (Hist Call).

(** The kernel's answers; [me] is this process. A parent's number that cannot be read is gone, or
    refused with its code. *)
Class Kernel := {
  me : Z;
  waitid_answer : list Call -> bool -> bool -> result Z (option WaitRecord);
  readable_answer : list Call -> result IoError bool;
  uniq_answer : list Call -> UniqRead;
  ppid_answer : list Call -> result Z Z;
  drain_reap_answer : list Call -> result IoError (bool * bool);
  tracer_answer : list Call -> Z -> result IoError OnTracer;
  exit_seen_answer : list Call -> result IoError bool
}.

Section Reaping.
  Context `{Kernel}.

Definition waitid (consume block : bool) : H (result Z (option WaitRecord)) :=
  call (fun h => waitid_answer h consume block) (Waitid consume block).

Definition uniq_info : H UniqRead := call uniq_answer UniqInfo.

(** ** Linux *)

(** [linux::peek]. *)
Definition peek_of (a : result Z (option WaitRecord)) : result IoError PeekOutcome :=
  match a with
  | Ok (Some record) => Ok (if is_exit_record (si_code record) then PeekExit (exit_record_of record) else PeekRunning)
  | Ok None => Ok PeekRunning
  | Err e => if e =? ECHILD then Ok (PeekForeign ForeignGone) else Err (from_raw_os_error e)
  end.

Definition linux_peek : H (result IoError PeekOutcome) := do! a := waitid false false in ret (peek_of a).

(** [linux::try_reap] after its peek. *)
Definition consumed_of (a : result Z (option WaitRecord)) : result IoError Reap :=
  match a with
  | Ok (Some record) => Ok (Reaped (exit_record_of record))
  | Ok None => Ok ReapRunning
  | Err e => if e =? ECHILD then Ok (ReapForeign ForeignGone) else Err (from_raw_os_error e)
  end.

Definition linux_try_reap : H (result IoError Reap) :=
  do! peeked := linux_peek in
  match peeked with
  | Err e => ret (Err e)
  | Ok PeekRunning => ret (Ok ReapRunning)
  | Ok (PeekForeign f) => ret (Ok (ReapForeign f))
  | Ok (PeekExit _) => do! a := waitid true false in ret (consumed_of a)
  end.

(** [linux::wait_visible_exit]. *)
Definition wait_visible_exit : H (result IoError PeekOutcome) :=
  do! a := waitid false true in
  ret match a with Ok None => Err (io_new Other) | a => peek_of a end.

(** [linux::reap_blocking], for at most [fuel] stops. *)
Fixpoint reap_blocking (fuel : nat) : H (option (result IoError (result Foreign ExitRecord))) :=
  match fuel with
  | O => ret None
  | S fuel =>
      do! a := waitid true true in
      match a with
      | Ok (Some record) => if is_exit_record (si_code record) then ret (Some (Ok (Ok (exit_record_of record)))) else reap_blocking fuel
      | Ok None => ret (Some (Err (io_new Other)))
      | Err e => ret (Some (if e =? ECHILD then Ok (Err ForeignGone) else Err (from_raw_os_error e)))
      end
  end.

(** [LinuxProcess::try_reap]: readable before a reap that finds no record is a zombie a tracer holds. *)
Definition linux_child_try_reap : H (result IoError TryReapOutcome) :=
  do! readable := call readable_answer IsReadable in
  match readable with
  | Err e => ret (Err e)
  | Ok readable =>
      do! r := linux_try_reap in
      ret match r with
          | Err e => Err e
          | Ok (Reaped record) => Ok (TryReaped record)
          | Ok (ReapForeign f) => Ok (TryForeign f)
          | Ok ReapRunning => Ok (if readable : bool then TryRecheck else TryRunning)
          end
  end.

(** ** macOS *)

(** [peek_raw], and [check_unique]. *)
Inductive IdCheck := Matches | OtherId | GoneId | UnreadableId (errno : Z).

Definition check_unique (unique : Z) : H IdCheck :=
  do! r := uniq_info in
  ret match r with
      | UniqFound now => if now =? unique then Matches else OtherId
      | UniqGone => GoneId
      | UniqRefused errno => UnreadableId errno
      end.

(** [held_by]. *)
Definition same_id (expected : Z) (r : UniqRead) : result Held unit :=
  match r with
  | UniqFound now => if now =? expected then Ok tt else Err HeldOther
  | UniqGone => Err HeldGone
  | UniqRefused errno => Err (HeldRefused errno)
  end.

Definition held_by (expected : Z) : H Held :=
  do! a := uniq_info in
  match same_id expected a with
  | Err held => ret held
  | Ok _ =>
      do! ppid := call ppid_answer ShortPpid in
      do! b := uniq_info in
      ret match same_id expected b with
          | Err held => held
          | Ok _ => match ppid with Ok ppid => HeldParent ppid | Err e => if e =? ESRCH then HeldGone else HeldRefused e end
          end
  end.

Definition unreadable (errno : Z) : IoError := io_new (kind (from_raw_os_error errno)).

(** [peek_holder]: the outcome, and the tracer that holds a running child. *)
Definition peek_holder (unique : option Z) (verified : bool) : H (result IoError (PeekOutcome * option Z)) :=
  do! peeked := linux_peek in
  match peeked, unique with
  | Err e, _ => ret (Err e)
  | Ok p, None => ret (Ok (p, None))
  | Ok (PeekExit r), Some unique =>
      do! c := check_unique unique in
      ret match c with
          | Matches => Ok (PeekExit r, None)
          | OtherId => Ok (PeekForeign ForeignOther, None)
          | GoneId => Ok (PeekForeign ForeignGone, None)
          | UnreadableId errno => Err (unreadable errno)
          end
  | Ok PeekRunning, Some unique =>
      do! c := check_unique unique in
      ret match c with
          | OtherId => Ok (PeekForeign ForeignOther, None)
          | GoneId => Ok (PeekForeign ForeignGone, None)
          | Matches => Ok (PeekRunning, None)
          | UnreadableId errno => if verified then Err (unreadable errno) else Ok (PeekRunning, None)
          end
  | Ok (PeekForeign ForeignGone), Some unique =>
      do! held := held_by unique in
      ret match held with
          | HeldOther => Ok (PeekForeign ForeignOther, None)
          | HeldParent ppid =>
              if ppid =? LAUNCHD then Ok (PeekForeign ForeignOrphaned, None)
              else if ppid =? me then Ok (PeekRunning, None)
              else Ok (PeekRunning, Some ppid)
          | HeldGone => Ok (PeekForeign ForeignGone, None)
          | HeldRefused errno => if verified then Err (unreadable errno) else Ok (PeekForeign ForeignGone, None)
          end
  | Ok p, Some _ => ret (Ok (p, None))
  end.

(** [second_reap]. *)
Definition second_reap (unique : option Z) : H unit :=
  do! peeked := linux_peek in
  match peeked, unique with
  | Ok (PeekExit _), Some unique =>
      do! c := check_unique unique in
      match c with
      | Matches => do! _ := waitid true false in ret tt
      | _ => ret tt
      end
  | _, _ => ret tt
  end.

(** macOS [try_reap]. *)
Definition macos_try_reap (unique : option Z) : H (result IoError Reap) :=
  do! peeked := peek_holder unique false in
  match peeked with
  | Err e => ret (Err e)
  | Ok (PeekRunning, _) => ret (Ok ReapRunning)
  | Ok (PeekForeign f, _) => ret (Ok (ReapForeign f))
  | Ok (PeekExit _, _) =>
      do! second_unique :=
        match unique with
        | Some u => ret (Some u)
        | None => do! r := uniq_info in ret (match r with UniqFound now => Some now | _ => None end)
        end in
      do! a := waitid true false in
      match a with
      | Ok (Some record) => do! _ := second_reap second_unique in ret (Ok (Reaped (exit_record_of record)))
      | Ok None => ret (Ok (ReapForeign ForeignGone))
      | Err e => ret (if e =? ECHILD then Ok (ReapForeign ForeignGone) else Err (from_raw_os_error e))
      end
  end.

(** [MacChild::try_reap]. *)
Definition mac_child_try_reap (unique : Z) : H (result IoError TryReapOutcome) :=
  do! drained := call drain_reap_answer DrainReap in
  match drained with
  | Err e => ret (Err e)
  | Ok (true, _) => ret (Ok (TryForeign ForeignGone))
  | Ok (false, _) =>
      do! peeked := peek_holder (Some unique) false in
      match peeked with
      | Err e => ret (Err e)
      | Ok (PeekExit _, _) =>
          do! r := macos_try_reap (Some unique) in
          ret match r with
              | Err e => Err e
              | Ok (Reaped record) => Ok (TryReaped record)
              | Ok (ReapForeign f) => Ok (TryForeign f)
              | Ok ReapRunning => Ok TryRecheck
              end
      | Ok (PeekForeign f, _) => ret (Ok (TryForeign f))
      | Ok (PeekRunning, Some holder) =>
          do! on := call (fun h => tracer_answer h holder) (TracerHeld holder) in
          ret match on with Err e => Err e | Ok Block => Ok TryRunning | Ok RecheckTracer => Ok TryRecheck end
      | Ok (PeekRunning, None) =>
          do! seen := call exit_seen_answer ExitSeen in
          ret match seen with Err e => Err e | Ok true => Ok TryRecheck | Ok false => Ok TryRunning end
      end
  end.

(** * What a trace of calls says *)

Definition exit_peek (c : Call) : bool :=
  match c with Waitid false false (Ok (Some record)) => is_exit_record (si_code record) | _ => false end.

(** A consuming [waitid] comes right after a look that showed an exit; of a child named by its
    number, with its unique id read in between. *)
Definition shown_exited (unique : option Z) (last : list Call) : bool :=
  match unique, last with
  | None, c :: _ => exit_peek c
  | Some u, UniqInfo (UniqFound now) :: c :: _ => (now =? u) && exit_peek c
  | _, _ => false
  end.

Definition consumes (c : Call) : bool := match c with Waitid true _ _ => true | _ => false end.

Fixpoint guarded (unique : option Z) (last t : list Call) : bool :=
  match t with
  | [] => true
  | c :: t => (if consumes c then shown_exited unique last else true) && guarded unique (c :: last) t
  end.

Definition never_waits (t : list Call) : Prop := Forall (fun c => match c with Waitid _ block _ => block = false | _ => True end) t.

(** A record was collected. *)
Definition collected (record : ExitRecord) (c : Call) : Prop :=
  exists r, c = Waitid true false (Ok (Some r)) /\ record = exit_record_of r.

Definition no_record (c : Call) : Prop := forall r, c <> Waitid true false (Ok (Some r)).

(** What one reap says of its calls. *)
Definition reap_says (r : result IoError Reap) (t : list Call) : Prop :=
  match r with
  | Ok (Reaped record) => exists c, c ∈ t /\ collected record c
  | Ok _ => Forall no_record t
  | Err _ => Forall no_record t
  end.

Definition child_says (r : result IoError TryReapOutcome) (t : list Call) : Prop :=
  match r with
  | Ok (TryReaped record) => exists c, c ∈ t /\ collected record c
  | _ => Forall no_record t
  end.

Lemma linux_try_reap_runs h :
  wp linux_try_reap h (fun r t => (forall last, guarded None last t = true) /\ never_waits t /\ reap_says r t).
Proof.
  unfold linux_try_reap, linux_peek, waitid, never_waits, reap_says, no_record. do 3 wp_step.
  destruct (waitid_answer h false false) as [[record|]|e] eqn:Ea; cbn [peek_of].
  - wp_step. destruct (is_exit_record (si_code record)) eqn:Ex.
    + do 3 wp_step. cbn [app guarded consumes shown_exited exit_peek].
      destruct (waitid_answer _ true false) as [[r2|]|e2] eqn:E2; cbn [consumed_of].
      * rewrite Ex. split_and!; [done|by repeat constructor|]. eexists. split; [by right; left|]. by exists r2.
      * rewrite Ex. split_and!; [done|by repeat constructor|by repeat constructor].
      * rewrite Ex. destruct (e2 =? ECHILD); (split_and!; [done|by repeat constructor|by repeat constructor]).
    + wp_step. cbn. by split_and!; repeat constructor.
  - repeat wp_step. cbn. by split_and!; repeat constructor.
  - wp_step. destruct (e =? ECHILD); repeat wp_step; cbn; by split_and!; repeat constructor.
Qed.

Lemma linux_child_runs h :
  wp linux_child_try_reap h (fun r t => guarded None [] t = true /\ never_waits t /\ child_says r t).
Proof.
  unfold linux_child_try_reap. do 2 wp_step. destruct (readable_answer h) as [b|e].
  - wp_step. wp_use linux_try_reap_runs. intros r t (Hg & Hn & Hs). wp_step. rewrite app_nil_r. cbn [app guarded consumes andb].
    split_and!; [apply Hg|by constructor|]. unfold reap_says, child_says in *.
    destruct r as [[record| |f]|e]; [|destruct b| |]; try by constructor.
    destruct Hs as (c & Hc & Hr). exists c. split; [by right|done].
  - wp_step. cbn. by split_and!; repeat constructor.
Qed.

(** A look: nothing consumed, nothing waited for. *)
Definition looks (t : list Call) : Prop := Forall (fun c => consumes c = false) t /\ never_waits t.

Lemma looks_nil : looks [].
Proof. split; constructor. Qed.

Lemma looks_guarded unique last t : looks t -> guarded unique last t = true.
Proof.
  intros [Hc _]. revert last. induction Hc as [|c t Hc _ IH]; intros last; [done|]. cbn. by rewrite Hc, IH.
Qed.

Lemma looks_no_record t : looks t -> Forall no_record t.
Proof. intros [Hc _]. eapply Forall_impl; [exact Hc|]. intros c Hn r ->. done. Qed.

Lemma looks_app t t' : looks t -> looks t' -> looks (t ++ t').
Proof. unfold looks, never_waits. rewrite !Forall_app. tauto. Qed.

Lemma reaps_guarded_app unique last t t' : guarded unique last (t ++ t') = guarded unique last t && guarded unique (rev t ++ last) t'.
Proof.
  revert last. induction t as [|c t IH]; intros last; [done|]. cbn. rewrite IH, andb_assoc. f_equal. by rewrite <- app_assoc.
Qed.

(** A look that showed an exit, tied to the child's unique id where there is one. *)
Definition showed_exit (unique : option Z) (t : list Call) : Prop :=
  exists c, exit_peek c = true /\ t = c :: match unique with Some u => [UniqInfo (UniqFound u)] | None => [] end.

Lemma showed_exit_shown unique t last : showed_exit unique t -> shown_exited unique (rev t ++ last) = true.
Proof. intros (c & Hc & ->). destruct unique; cbn; [by rewrite Z.eqb_refl|done]. Qed.

Lemma check_unique_runs u h : wp (check_unique u) h (fun c t => looks t /\ (c = Matches -> t = [UniqInfo (UniqFound u)])).
Proof.
  unfold check_unique, uniq_info. repeat wp_step. split; [by split; repeat constructor|].
  destruct (uniq_answer h) as [now| |]; [|done..]. destruct (Z.eqb_spec now u); [by subst|done].
Qed.

Lemma held_by_runs u h : wp (held_by u) h (fun _ t => looks t).
Proof.
  unfold held_by, uniq_info. do 2 wp_step. destruct (same_id u _); [|wp_step; by split; repeat constructor].
  repeat wp_step. by split; repeat constructor.
Qed.

Lemma peek_holder_runs unique verified h :
  wp (peek_holder unique verified) h
    (fun r t => looks t /\ forall record tr, r = Ok (PeekExit record, tr) -> showed_exit unique t).
Proof.
  unfold peek_holder, linux_peek, waitid. do 4 wp_step. cbn [app]. set (a := waitid_answer h false false).
  assert (Hex : forall r, peek_of a = Ok (PeekExit r) -> exit_peek (Waitid false false a) = true).
  { intros r. unfold peek_of. destruct a as [[record|]|e]; cbn; [|done|by destruct (e =? ECHILD)]. by destruct (is_exit_record _). }
  assert (Hl : forall t, looks t -> looks (Waitid false false a :: t)).
  { intros t [H1 H2]. split; by constructor. }
  destruct (peek_of a) as [p|e] eqn:Ep; [|wp_step; split; [by apply Hl; repeat constructor|done]].
  destruct p as [r| |f], unique as [u|].
  - wp_step. wp_use check_unique_runs. intros c t [Ht Hm]. wp_step. rewrite app_nil_r. split; [by apply Hl|].
    intros record tr E. exists (Waitid false false a). split; [by eapply Hex|]. cbn. destruct c; try done. by rewrite Hm.
  - wp_step. split; [by apply Hl; repeat constructor|]. intros record tr E. exists (Waitid false false a). split; [by eapply Hex|done].
  - wp_step. wp_use check_unique_runs. intros c t [Ht Hm]. wp_step. rewrite app_nil_r. split; [by apply Hl|]. by destruct c, verified.
  - wp_step. split; [by apply Hl; repeat constructor|done].
  - destruct f; [|wp_step; split; [by apply Hl; repeat constructor|done]..].
    wp_step. wp_use held_by_runs. intros c t Ht. wp_step. rewrite app_nil_r. split; [by apply Hl|].
    intros record tr. destruct c; [|done|done|by destruct verified]. by repeat case_match.
  - destruct f; wp_step; (split; [by apply Hl; repeat constructor|done]).
Qed.

Lemma second_reap_runs unique h :
  wp (second_reap (Some unique)) h (fun _ t => (forall last, guarded (Some unique) last t = true) /\ never_waits t).
Proof.
  unfold second_reap, linux_peek, waitid. do 4 wp_step. cbn [app]. set (a := waitid_answer h false false).
  assert (Hl : forall t, looks t -> (forall last, guarded (Some unique) last (Waitid false false a :: t) = true) /\ never_waits (Waitid false false a :: t)).
  { intros t [H1 H2]. split; [|by constructor]. intros last. cbn. by apply looks_guarded. }
  destruct (peek_of a) as [[r| |f]|e] eqn:Ep; [|wp_step; by apply Hl; repeat constructor..].
  wp_step. wp_use check_unique_runs. intros c t [Ht Hm]. destruct c; [|wp_step; rewrite app_nil_r; by apply Hl..].
  rewrite (Hm eq_refl). repeat wp_step. cbn [app]. split; [|by repeat constructor]. intros last. cbn.
  rewrite Z.eqb_refl. unfold peek_of in Ep. destruct a as [[record|]|e]; [|done|by destruct (e =? ECHILD)].
  cbn in *. by destruct (is_exit_record (si_code record)).
Qed.

Lemma macos_try_reap_runs u h :
  wp (macos_try_reap (Some u)) h (fun r t => (forall last, guarded (Some u) last t = true) /\ never_waits t /\ reap_says r t).
Proof.
  unfold macos_try_reap. wp_step. wp_use peek_holder_runs. intros peeked t [Hl Hx].
  assert (Hq : forall r : result IoError Reap, (forall record, r <> Ok (Reaped record)) ->
    wp (ret r) (h ++ t) (fun r t' => (forall last, guarded (Some u) last (t ++ t') = true) /\ never_waits (t ++ t') /\ reap_says r (t ++ t'))).
  { intros r Hr. wp_step. rewrite app_nil_r. split_and!; [intros last; by apply looks_guarded|by destruct Hl|].
    pose proof (looks_no_record t Hl). unfold reap_says. destruct r as [[record| |f]|e]; try done. by destruct (Hr record). }
  destruct peeked as [[[record| |f] tr]|e]; [|by apply Hq..]. specialize (Hx record tr eq_refl).
  do 2 wp_step. cbn [app]. unfold waitid. do 2 wp_step. set (a := waitid_answer _ true false).
  assert (Hg : forall last, guarded (Some u) last (t ++ [Waitid true false a]) = true).
  { intros last. rewrite reaps_guarded_app, (looks_guarded _ _ _ Hl). cbn [guarded consumes]. by rewrite (showed_exit_shown _ _ last Hx). }
  assert (Hn : never_waits (t ++ [Waitid true false a])).
  { apply Forall_app. split; [by destruct Hl|by repeat constructor]. }
  destruct a as [[r|]|e] eqn:Ea; rewrite ?app_nil_l.
  - wp_step. rewrite app_nil_r. wp_use second_reap_runs. intros _ t2 [Hg2 Hn2]. wp_step. rewrite app_nil_r.
    rewrite app_assoc. split_and!; [|by apply Forall_app|].
    + intros last. by rewrite reaps_guarded_app, Hg, Hg2.
    + exists (Waitid true false (Ok (Some r))). split; [|by exists r]. rewrite !elem_of_app. left. right. by left.
  - wp_step. rewrite app_nil_r. split_and!; [done|done|]. apply Forall_app. split; [by apply looks_no_record|by repeat constructor].
  - wp_step. rewrite app_nil_r. split_and!; [done|done|]. assert (Hf : Forall no_record (t ++ [Waitid true false (Err e)])).
    { apply Forall_app. split; [by apply looks_no_record|by repeat constructor]. }
    by destruct (e =? ECHILD).
Qed.

Lemma mac_child_runs u h :
  wp (mac_child_try_reap u) h (fun r t => guarded (Some u) [] t = true /\ never_waits t /\ child_says r t).
Proof.
  unfold mac_child_try_reap. do 2 wp_step.
  assert (Hq : forall (r : result IoError TryReapOutcome) t, (forall record, r <> Ok (TryReaped record)) -> looks t -> child_says r t).
  { intros r t Hr Hl. pose proof (looks_no_record t Hl). unfold child_says. destruct r as [[record| | |f]|e]; try done. by destruct (Hr record). }
  assert (Hd : forall t, looks t -> looks (DrainReap (drain_reap_answer h) :: t)) by (intros t [H1 H2]; split; by constructor).
  destruct (drain_reap_answer h) as [[[] ex]|e] eqn:Edr.
  - wp_step. cbn. split_and!; [done|by repeat constructor|apply (Hq (Ok (TryForeign ForeignGone))); [done|apply (Hd [] looks_nil)]].
  - wp_step. wp_use peek_holder_runs. intros peeked t [Hl Hx].
    assert (Hret : forall r, (forall record, r <> Ok (TryReaped record)) -> forall t', looks t' ->
      guarded (Some u) [] ([DrainReap (Ok (false, ex))] ++ t ++ t') = true /\ never_waits ([DrainReap (Ok (false, ex))] ++ t ++ t')
      /\ child_says r ([DrainReap (Ok (false, ex))] ++ t ++ t')).
    { intros r Hr t' Hl'. assert (Hall : looks (DrainReap (Ok (false, ex)) :: t ++ t')) by (apply Hd; by apply looks_app).
      split_and!; [by apply looks_guarded|by destruct Hall|by apply Hq]. }
    destruct peeked as [[[record| |f] tr]|e].
    + wp_step. wp_use macos_try_reap_runs. intros r t2 (Hg2 & Hn2 & Hs2). wp_step. rewrite app_nil_r. cbn [app].
      split_and!.
      * cbn. by rewrite reaps_guarded_app, (looks_guarded _ _ _ Hl), Hg2.
      * constructor; [done|]. apply Forall_app. split; [by destruct Hl|done].
      * assert (Hno : Forall no_record t2 -> Forall no_record (DrainReap (Ok (false, ex)) :: t ++ t2)).
        { intros Hf. constructor; [done|]. apply Forall_app. split; [by apply looks_no_record|done]. }
        unfold reap_says, child_says in *. destruct r as [[record'| |f]|e]; try by apply Hno.
        destruct Hs2 as (c & Hc & Hr). exists c. split; [|done]. right. apply elem_of_app. by right.
    + destruct tr as [holder|].
      * do 3 wp_step. apply Hret; [by destruct (tracer_answer _ holder) as [[]|]|by split; repeat constructor].
      * do 3 wp_step. apply Hret; [by destruct (exit_seen_answer _) as [[]|]|by split; repeat constructor].
    + destruct tr; wp_step; (apply Hret; [done|by split; repeat constructor]).
    + wp_step. apply Hret; [done|by split; repeat constructor].
  - wp_step. cbn. split_and!; [done|by repeat constructor|apply (Hq (Err e)); [done|apply (Hd [] looks_nil)]].
Qed.

(** C25: a look of a handle at its child, on Linux and on macOS. A [waitid] that consumes comes right
    after a look that showed an exit, on macOS with the child's own unique id read in between; nothing
    waits; and an exit is reported exactly when its record was collected, as that record. *)
Theorem reaps_only_an_exit unique h :
  (forall r t, runs linux_child_try_reap h r t ->
     guarded None [] t = true /\ never_waits t
     /\ match r with
        | Ok (TryReaped record) => exists c, c ∈ t /\ collected record c
        | _ => Forall no_record t
        end)
  /\ (forall r t, runs (mac_child_try_reap unique) h r t ->
     guarded (Some unique) [] t = true /\ never_waits t
     /\ match r with
        | Ok (TryReaped record) => exists c, c ∈ t /\ collected record c
        | _ => Forall no_record t
        end).
Proof.
  split; intros r t Hr.
  - exact (wp_runs _ _ _ _ _ (linux_child_runs h) Hr).
  - exact (wp_runs _ _ _ _ _ (mac_child_runs unique h) Hr).
Qed.

End Reaping.

(** * The wait status of a record *)

Lemma land_7f s : Z.land s 0x7F = s mod 128.
Proof. change 0x7F with (Z.ones 7). by rewrite Z.land_ones by lia. Qed.

Lemma land_ff s : Z.land s 0xFF = s mod 256.
Proof. change 0xFF with (Z.ones 8). by rewrite Z.land_ones by lia. Qed.

(** The status reported of a record is the one the standard library reads back: the exit code's
    low byte, or the signal, with the core dump; whatever XNU left in the high bits. Any other code is
    no status. *)
Theorem status_reads_back code s :
  match exit_record_of (wait_record code s) with
  | Status raw =>
      (code = CLD_EXITED /\ status_code raw = Some (s mod 256) /\ status_signal raw = None /\ core_dumped raw = false)
      \/ ((code = CLD_KILLED \/ code = CLD_DUMPED)
          /\ (0 < s mod 128 < 127 ->
              status_code raw = None /\ status_signal raw = Some (s mod 128) /\ core_dumped raw = bool_decide (code = CLD_DUMPED)))
  | Unreadable c => c = code /\ is_exit_record code = false
  end.
Proof.
  unfold exit_record_of, is_exit_record, status_code, status_signal, core_dumped. cbn [si_code si_status].
  destruct (Z.eqb_spec code CLD_EXITED) as [->|H1]; [|destruct (Z.eqb_spec code CLD_KILLED) as [->|H2];
    [|destruct (Z.eqb_spec code CLD_DUMPED) as [->|H3]; [|done]]].
  - left. unfold status_signal. rewrite land_ff, Z.shiftl_mul_pow2, Z.shiftr_div_pow2, land_7f, land_ff by lia.
    replace (((s mod 256) * 2 ^ 8) mod 128) with 0 by (symmetry; apply Z.mod_divide; [done|]; exists (s mod 256 * 2); lia).
    cbn. rewrite Z.div_mul by done. rewrite Z.mod_mod by done. split_and!; done.
  - right. split; [auto|]. intros Hs. unfold status_signal. rewrite !land_7f, Z.mod_mod by done.
    destruct (Z.eqb_spec (s mod 128) 0); [lia|]. destruct (Z.eqb_spec (s mod 128) 127); [lia|]. cbn. repeat (split; [done|]).
    replace (Z.land (s mod 128) 128) with 0; [done|]. rewrite <- land_7f, <- Z.land_assoc. by rewrite Z.land_0_r.
  - right. split; [auto|]. intros Hs. unfold status_signal. rewrite Z.land_lor_distr_l, <- Z.land_assoc. cbn [Z.land Pos.land].
    change (Z.land 127 127) with 127. change (Z.land 128 127) with 0. rewrite Z.lor_0_r, land_7f.
    destruct (Z.eqb_spec (s mod 128) 0); [lia|]. destruct (Z.eqb_spec (s mod 128) 127); [lia|]. cbn. repeat (split; [done|]).
    rewrite Z.land_lor_distr_l, <- land_7f, <- Z.land_assoc.
    change (Z.land 127 128) with 0. by rewrite Z.land_0_r.
Qed.

Lemma status_reads_back_witness :
  status_code 9 = None /\ status_signal 9 = Some 9 /\ core_dumped 9 = false.
Proof.
  destruct (status_reads_back CLD_KILLED 9) as [[Hc _]|[_ Hs]]; [done|]. exact (Hs ltac:(vm_compute; split; congruence)).
Defined.

(** A child killed by signal 9, named by its number and its unique id 70. *)
#[local] Instance demo_kernel : Kernel := {
  me := 500;
  waitid_answer _ _ _ := Ok (Some (wait_record CLD_KILLED 9));
  readable_answer _ := Ok true;
  uniq_answer _ := UniqFound 70;
  ppid_answer _ := Ok 500;
  drain_reap_answer _ := Ok (false, true);
  tracer_answer _ _ := Ok Block;
  exit_seen_answer _ := Ok true
}.

Definition demo_look : Call := Waitid false false (Ok (Some (wait_record CLD_KILLED 9))).
Definition demo_consume : Call := Waitid true false (Ok (Some (wait_record CLD_KILLED 9))).
Definition demo_id : Call := UniqInfo (UniqFound 70).

Lemma reaps_only_an_exit_witness :
  guarded None [] [IsReadable (Ok true); demo_look; demo_consume] = true
  /\ guarded (Some 70) [] [DrainReap (Ok (false, true)); demo_look; demo_id; demo_look; demo_id; demo_consume; demo_look; demo_id; demo_consume] = true.
Proof.
  destruct (reaps_only_an_exit 70 []) as [Hl Hm]. split.
  - exact (proj1 (Hl (Ok (TryReaped (Status 9))) _ eq_refl)).
  - exact (proj1 (Hm (Ok (TryReaped (Status 9))) _ eq_refl)).
Defined.
