(* ===== verification/BatchGate.v ===== *)
(** The batch gate, [src/child/spawn/batch_gate.rs] with its [streams.rs] and [walk.rs]: every
    program Windows would resolve to a [.bat] or [.cmd] is refused before a spawn. The gate reads the
    program's text and predicts the name it resolves to with a stack. It is proved equal to a resolver
    that works on the path's components, from the last one backwards and without a stack, for paths of
    any length and any mixture of separators; a verbatim path, which resolves against nothing, is judged
    by its last component, and the gate is proved equal to that rule too. Messages are left out. *)
From S2P Require Import Prelude PathComponent Utf OsStrWide WindowsPath Filesystem ResolveNames ResolveJoin Identity IoErrors CrateError.
Local Open Scope Z_scope.

(** * Streams *)

(** [str::trim_end_matches]. *)
Definition trim_end_matches (p : Z -> bool) (s : bytes) : bytes := reverse (span p (reverse s)).2.

Definition is_dot_or_space (b : Z) : bool := (b =? 32) || (b =? 46).

Definition drive_prefix_len (text : bytes) : option nat := ResolveNames.drive_len text.

Definition ntfs_stream_names (name : bytes) : list bytes :=
  let rest := match drive_prefix_len name with Some len => drop len name | None => name end in
  trim_end_matches is_dot_or_space <$> split_on (fun b => b =? 58) rest.

Definition is_batch_by_shell (name : bytes) : bool :=
  match rposition (fun b => b =? 46) name with
  | Some dot =>
      let ext := to_ascii_lowercase <$> drop (S dot) name in
      bool_decide (ext = bs "bat") || bool_decide (ext = bs "cmd")
  | None => false
  end.

Definition is_batch_program (file_name : bytes) : bool := existsb is_batch_by_shell (ntfs_stream_names file_name).

(** * The walk *)

Definition is_separator (b : Z) : bool := is_sep true b.

Definition starts_with_two_separators (text : bytes) : bool := sep_at text 0 && sep_at text 1.

Definition is_drive_prefix (component : bytes) : bool := bool_decide (drive_prefix_len component = Some (length component)).

Definition unc_root_name (server share : bytes) : option bytes :=
  let server := trim_end_matches is_dot_or_space server in
  if is_batch_program server then Some server
  else
    let share := trim_end_matches is_dot_or_space share in
    if bool_decide (share = []) then None else Some share.

(** The body of the loop; the stack's top is the list's head. *)
Definition walk_segment (stack : list (bytes * bool)) (segment : nat * bytes) : list (bytes * bool) :=
  let '(position, segment) := segment in
  if bool_decide (segment = []) then stack
  else if bool_decide (segment = bs ".") then stack
  else if bool_decide (segment = bs "..") then tail stack
  else (trim_end_matches is_dot_or_space segment, bool_decide (position = 0%nat)) :: stack.

(** [while stack.last().is_some_and(..)]. *)
Fixpoint drop_unnamed (stack : list (bytes * bool)) : list (bytes * bool) :=
  match stack with
  | (name, _) :: below => if bool_decide (name = []) then drop_unnamed below else stack
  | [] => []
  end.

(** The end of the walk, under the root found. *)
Definition walk_end (root : option (bytes * bytes)) (segments : list (nat * bytes)) : option bytes :=
  let stack := drop_unnamed (foldl walk_segment [] segments) in
  match stack, root with
  | [], Some (server, share) => unc_root_name server share
  | [], None => None
  | (last, leading) :: _, _ => if leading && is_drive_prefix last then None else Some last
  end.

Definition win32_effective_file_name (text : bytes) : option bytes :=
  let segments := imap pair (split_on is_separator text) in
  if starts_with_two_separators text then
    match drop 2 segments with
    | [] => None
    | (_, server) :: segments =>
        if bool_decide (server = bs ".") || bool_decide (server = bs "?") then walk_end None segments
        else match segments with
             | [] => None
             | (_, share) :: segments => walk_end (Some (server, share)) segments
             end
    end
  else walk_end None segments.

(** * The gate *)

(** The refusal's reason; a message in the code. *)
Inductive Refusal := BATCH | NO_FILE | VERBATIM_DOTDOT.

#[export] Instance Refusal_eq_dec : EqDecision Refusal.
Proof. solve_decision. Defined.

(** [windows] is the host's [cfg]; a program is WTF-8 there, and bytes on Unix. *)
Definition win32_prefix (windows : bool) (prog : bytes) : bytes :=
  if windows then
    match to_wide prog with
    | Some units => match position (fun u => u =? 0) units with Some i => from_wide (take i units) | None => prog end
    | None => prog
    end
  else match position (fun b => b =? 0) prog with Some i => take i prog | None => prog end.

(** [str::rsplit]'s first piece. *)
Definition rsplit_next (sep : Z) (text : bytes) : bytes := default [] (last (split_on (fun b => b =? sep) text)).

Definition verbatim_refusal (text : bytes) : option Refusal :=
  if ends_with_ignore_ascii_case text (bs ".bat") || ends_with_ignore_ascii_case text (bs ".cmd") then Some BATCH
  else
    let last := rsplit_next 92 text in
    let after_slash := rsplit_next 47 last in
    if is_batch_program last || is_batch_program after_slash then Some BATCH
    else if bool_decide (last = bs "..") then Some VERBATIM_DOTDOT
    else None.

(** [OsStr::to_string_lossy] on Windows, as UTF-8; a string that is not WTF-8 does not arise. *)
Definition lossy (prog : bytes) : bytes :=
  match to_string_lossy prog with Some cs => cs ≫= encode_utf8 | None => prog end.

Definition refusal_of (text : bytes) : option Refusal :=
  if starts_with VERBATIM text then verbatim_refusal text
  else match win32_effective_file_name text with
       | Some name => if is_batch_program name then Some BATCH else None
       | None => Some NO_FILE
       end.

Definition refused (r : option Refusal) : result Error unit :=
  match r with
  | None => Ok tt
  | Some BATCH => Err EUnsupported
  | Some _ => Err (Io (io_new InvalidInput))
  end.

Definition reject_batch_path_on (windows : bool) (prog : bytes) (win32 : bool) : result Error unit :=
  if negb (bool_decide (win32_prefix windows prog = prog)) then Err (Io (io_new InvalidInput))
  else if negb win32 then Ok tt
  else refused (refusal_of (lossy prog)).

Definition reject_batch_path (windows : bool) (prog : bytes) : result Error unit := reject_batch_path_on windows prog windows.

(** * The resolver on components

    A path's components are given, each with the separator before it. *)

Definition join (first : bytes) (rest : list (Z * bytes)) : bytes :=
  first ++ (rest ≫= fun '(sep, segment) => sep :: segment).

(** std's [has_bat_extension], applied to the resolved path. *)
Definition has_bat_extension (s : bytes) : bool :=
  ends_with_ignore_ascii_case s (bs ".bat") || ends_with_ignore_ascii_case s (bs ".cmd").

(** A name reaches a batch file if it, or a stream it spells, is one once trimmed. *)
Definition reaches_batch (name : bytes) : bool :=
  existsb (fun stream => has_bat_extension (trim_end_matches is_dot_or_space stream))
    (split_on (fun b => b =? 58) match drive_prefix_len name with Some len => drop len name | None => name end).

(** The last component nothing later pops, from the end; [pops] are the later [..] not yet spent, and
    a component of dots and spaces can only be popped. *)
Fixpoint unpopped (pops : nat) (from_end : list bytes) : option (bytes * list bytes) :=
  match from_end with
  | [] => None
  | c :: before =>
      if bool_decide (c = []) || bool_decide (c = bs ".") then unpopped pops before
      else if bool_decide (c = bs "..") then unpopped (S pops) before
      else match pops with
           | S pops => unpopped pops before
           | O => let name := trim_end_matches is_dot_or_space c in
                  if bool_decide (name = []) then unpopped 0 before else Some (name, before)
           end
  end.

Inductive Landing := Lands (name : bytes) | AtRoot.

Definition landing (components : list bytes) (plain : bool) : Landing :=
  match unpopped 0 (reverse components) with
  | Some (name, before) =>
      if plain && bool_decide (before = []) && is_drive_prefix name then AtRoot else Lands name
  | None => AtRoot
  end.

(** Where the components lead: under [\\.\] or [\\?\] spelled with a slash, under a share, or plainly.
    A bare root names no file, but a share is a name. *)
Definition resolve_components (components : list bytes) : option bytes :=
  let named l := match l with Lands n => Some n | AtRoot => None end in
  match components with
  | [] :: [] :: server :: rest =>
      if bool_decide (server = bs ".") || bool_decide (server = bs "?") then named (landing rest false)
      else match rest with
           | [] => None
           | share :: rest =>
               match landing rest false with
               | Lands n => Some n
               | AtRoot => let name := trim_end_matches is_dot_or_space share in if bool_decide (name = []) then None else Some name
               end
           end
  | _ => named (landing components true)
  end.

(** The declared over-refusal: a path that ends on its share, of a server named like a batch file. *)
Definition batch_server (components : list bytes) : bool :=
  match components with
  | [] :: [] :: server :: share :: rest =>
      negb (bool_decide (server = bs ".") || bool_decide (server = bs "?")) &&
      match landing rest false with Lands _ => false | AtRoot => reaches_batch (trim_end_matches is_dot_or_space server) end
  | _ => false
  end.

Definition resolver_verdict (components : list bytes) : option Refusal :=
  if batch_server components then Some BATCH
  else match resolve_components components with
       | Some name => if reaches_batch name then Some BATCH else None
       | None => Some NO_FILE
       end.

(** ** The rule for a verbatim path

    [piece] is what follows the last [sep] of [text]: all of it, if there is none. *)
Inductive after_last (sep : Z) : bytes -> bytes -> Prop :=
| after_none text : sep ∉ text -> after_last sep text text
| after_some before piece : sep ∉ piece -> after_last sep (before ++ sep :: piece) piece.

(** The refusal of a verbatim [text] whose last component is [last], and [tail] what [last] has after a slash:
    std's literal test of the text, then the plain rule of both names, then a file no one may name. *)
Definition verbatim_verdict (text last tail : bytes) : option Refusal :=
  if has_bat_extension text || reaches_batch last || reaches_batch tail then Some BATCH
  else if bool_decide (last = bs "..") then Some VERBATIM_DOTDOT
  else None.

(** * Lemmas on names *)

Lemma free_not_elem sep (s : bytes) : free (fun b => b =? sep) s <-> sep ∉ s.
Proof.
  unfold free. rewrite Forall_forall. split.
  - intros H Hin. by specialize (H sep Hin); rewrite Z.eqb_refl in H.
  - intros H x Hx. apply Z.eqb_neq. by intros ->.
Qed.

Lemma last_split p (l1 : bytes) x l2 : p x = true -> free p l2 -> last (split_on p (l1 ++ x :: l2)) = Some l2.
Proof. intros Hx Hf. rewrite split_on_app by done. by rewrite (split_on_free _ l2), last_snoc by done. Qed.

(** [rsplit]'s first piece is what follows the last separator. *)
Lemma rsplit_next_after sep text : after_last sep text (rsplit_next sep text).
Proof.
  unfold rsplit_next. destruct (rposition (fun b => b =? sep) text) as [i|] eqn:E.
  - apply rposition_Some in E as (l1 & x & l2 & -> & _ & Hx & Hf). apply Z.eqb_eq in Hx as ->.
    rewrite last_split by (done || apply Z.eqb_refl). constructor. by apply free_not_elem.
  - apply rposition_None in E. rewrite split_on_free by done. constructor. by apply free_not_elem.
Qed.

Lemma trim_end_keeps p w d : p d = false -> trim_end_matches p (w ++ [d]) = w ++ [d].
Proof. intros H. unfold trim_end_matches. rewrite reverse_snoc. simpl span. rewrite H. cbn [snd]. by rewrite <- reverse_snoc, reverse_involutive. Qed.

(** An extension is four bytes at the end of a name: a dot and letters. *)
Lemma ends_with_four name b c d :
  Forall (fun x => 97 <= x <= 122) [b; c; d] ->
  ends_with_ignore_ascii_case name [46; b; c; d] = true <->
  exists w x y z, name = w ++ [46; x; y; z] /\ to_ascii_lowercase <$> [x; y; z] = [b; c; d].
Proof.
  rewrite !Forall_cons. intros (Hb & Hc & Hd & _).
  assert (forall x, 97 <= x <= 122 -> to_ascii_lowercase x = x) as Hlow.
  { intros x Hx. unfold to_ascii_lowercase. destruct (Z.leb_spec 65 x), (Z.leb_spec x 90); cbn; lia. }
  assert (to_ascii_lowercase <$> [46; b; c; d] = [46; b; c; d]) as Hsuf by (cbn [fmap list_fmap]; rewrite (Hlow b Hb), (Hlow c Hc), (Hlow d Hd); done).
  unfold ends_with_ignore_ascii_case, eq_ignore_ascii_case. rewrite andb_true_iff, !bool_decide_eq_true, Hsuf. cbn [length]. split.
  - intros [Hl H]. rewrite <- (take_drop (length name - 4) name).
    assert (length (drop (length name - 4) name) = 4%nat) as Hn by (rewrite length_drop; lia).
    destruct (drop (length name - 4) name) as [|a [|x [|y [|z [|]]]]]; try discriminate Hn.
    cbn [fmap list_fmap] in H. injection H as Ha Hx Hy Hz. exists (take (length name - 4) name), x, y, z. split; [|cbn [fmap list_fmap]; congruence].
    enough (a = 46) as -> by done. unfold to_ascii_lowercase in Ha. destruct (Z.leb_spec 65 a), (Z.leb_spec a 90); cbn in Ha; lia.
  - intros (w & x & y & z & -> & H). rewrite length_app. cbn [length]. split; [lia|].
    replace (length w + 4 - 4)%nat with (length w) by lia. rewrite drop_app_length. cbn [fmap list_fmap] in *. by rewrite H.
Qed.

Lemma lower_letter x b : to_ascii_lowercase x = b -> 97 <= b <= 122 -> 65 <= x <= 122.
Proof. unfold to_ascii_lowercase. destruct (Z.leb_spec 65 x), (Z.leb_spec x 90); cbn; lia. Qed.

(** A name with such an extension. *)
Definition batch_ending (l : bytes) : Prop :=
  exists x y z, l = [46; x; y; z] /\ 65 <= x <= 122 /\ 65 <= y <= 122 /\ 65 <= z <= 122 /\
    (to_ascii_lowercase <$> [x; y; z] = bs "bat" \/ to_ascii_lowercase <$> [x; y; z] = bs "cmd").

Lemma has_bat_extension_spec name : has_bat_extension name = true <-> exists w l, name = w ++ l /\ batch_ending l.
Proof.
  unfold has_bat_extension. rewrite orb_true_iff.
  change (bs ".bat") with [46; 98; 97; 116]. change (bs ".cmd") with [46; 99; 109; 100].
  rewrite !ends_with_four by (rewrite !Forall_cons; repeat split; try lia; constructor). split.
  - intros [(w & x & y & z & -> & H)|(w & x & y & z & -> & H)]; exists w, [46; x; y; z]; (split; [done|]); exists x, y, z;
      cbn [fmap list_fmap] in H; injection H as Hx Hy Hz; (split; [done|]); repeat split; try (eapply lower_letter; [eassumption|lia]);
      cbn [fmap list_fmap]; rewrite Hx, Hy, Hz; auto.
  - intros (w & l & -> & x & y & z & -> & _ & _ & _ & [H|H]); [left|right]; by exists w, x, y, z.
Qed.

Lemma drop_S_app (l1 : bytes) x l2 : drop (S (length l1)) (l1 ++ x :: l2) = l2.
Proof. by induction l1. Qed.

(** The shell's reading of a name and std's are one predicate. *)
Lemma shell_reads_as_std name : is_batch_by_shell name = has_bat_extension name.
Proof.
  unfold is_batch_by_shell. apply eq_true_iff_eq. rewrite has_bat_extension_spec. split.
  - destruct (rposition _ name) as [i|] eqn:E; [|done]. apply rposition_Some in E as (l1 & x & l2 & -> & <- & Hx & Hf).
    apply Z.eqb_eq in Hx; subst x. rewrite drop_S_app.
    rewrite orb_true_iff, !bool_decide_eq_true. intros H. exists l1, (46 :: l2). split; [done|].
    assert (length l2 = 3%nat) as Hl by (rewrite <- (length_fmap to_ascii_lowercase); destruct H as [->| ->]; done).
    destruct l2 as [|x [|y [|z [|]]]]; try discriminate Hl. exists x, y, z. split; [done|].
    assert (forall u v w, to_ascii_lowercase <$> [x; y; z] = [u; v; w] -> 97 <= u <= 122 -> 97 <= v <= 122 -> 97 <= w <= 122 ->
      65 <= x <= 122 /\ 65 <= y <= 122 /\ 65 <= z <= 122) as HL.
    { cbn [fmap list_fmap]. intros u v w Huvw ???. injection Huvw as Hx Hy Hz. repeat split; try (eapply lower_letter; [eassumption|lia]). }
    assert (65 <= x <= 122 /\ 65 <= y <= 122 /\ 65 <= z <= 122) as (Hx & Hy & Hz) by (destruct H as [H|H]; [apply (HL 98 97 116)|apply (HL 99 109 100)]; (exact H || lia)).
    done.
  - intros (w & l & -> & x & y & z & -> & Hx & Hy & Hz & H).
    rewrite rposition_app.
    + rewrite drop_S_app, orb_true_iff, !bool_decide_eq_true. done.
    + done.
    + repeat constructor; apply Z.eqb_neq; lia.
Qed.

Lemma reaches_batch_eq name : is_batch_program name = reaches_batch name.
Proof.
  unfold is_batch_program, reaches_batch, ntfs_stream_names. induction (split_on _ _) as [|s l IH]; [done|].
  cbn [existsb fmap list_fmap]. by rewrite IH, shell_reads_as_std.
Qed.

(** The last piece of a text that ends in [l] ends in [l], where [l] holds no separator. *)
Lemma last_piece_app p (w l : bytes) : free p l -> exists u, last (split_on p (w ++ l)) = Some (u ++ l).
Proof.
  intros Hl. induction w as [|x w [u IH]]; simpl app; [by exists []; rewrite split_on_free|].
  cbn [split_on]. pose proof (split_on_ne p (w ++ l)) as Hne. destruct (split_on p (w ++ l)) as [|v vs] eqn:E; [done|].
  destruct (p x); [by exists u|]. destruct vs as [|v' vs]; [|by exists u].
  cbn [last] in *. injection IH as ->. by exists (x :: u).
Qed.

(** A drive prefix ends before the extension. *)
Lemma drive_before_ending w l len : batch_ending l -> drive_prefix_len (w ++ l) = Some len -> (len <= length w)%nat.
Proof.
  intros (x & y & z & -> & Hx & Hy & Hz & _) H. apply ResolveJoin.drive_len_lookup in H as [H Hlen].
  rewrite length_app in Hlen. cbn [length] in Hlen. destruct (decide (len <= length w)%nat) as [|Hn]; [done|exfalso].
  rewrite lookup_app_r in H by lia. destruct (len - 1 - length w)%nat as [|[|[|[|n]]]]; cbn in H; try discriminate H; injection H; lia.
Qed.

(** Whatever std reads as a batch file, the gate's reading of streams does. *)
Lemma streams_subsume_std name : has_bat_extension name = true -> is_batch_program name = true.
Proof.
  rewrite has_bat_extension_spec. intros (w & l & -> & Hl). unfold is_batch_program, ntfs_stream_names.
  assert (exists w', match drive_prefix_len (w ++ l) with Some len => drop len (w ++ l) | None => w ++ l end = w' ++ l) as [w' ->].
  { destruct (drive_prefix_len (w ++ l)) as [len|] eqn:E; [|by exists w]. apply drive_before_ending in E; [|done].
    exists (drop len w). by rewrite drop_app_le by lia. }
  assert (free (fun b => b =? 58) l) as Hfree.
  { destruct Hl as (x & y & z & -> & Hx & Hy & Hz & _). repeat constructor; apply Z.eqb_neq; lia. }
  destruct (last_piece_app _ w' l Hfree) as [u Hu]. apply existsb_exists. exists (u ++ l). split.
  - apply list_elem_of_In, list_elem_of_fmap. exists (u ++ l). split; [|by apply last_Some_elem_of].
    destruct Hl as (x & y & z & -> & Hx & Hy & Hz & _). change ([46; x; y; z]) with ([46; x; y] ++ [z]). rewrite !app_assoc. symmetry.
    apply trim_end_keeps. unfold is_dot_or_space. destruct (Z.eqb_spec z 32), (Z.eqb_spec z 46); lia || done.
  - rewrite shell_reads_as_std. apply has_bat_extension_spec. by exists u, l.
Qed.

(** * Lemmas on the walk *)

(** The segments of a path, numbered from [k]. *)
Definition numbered (k : nat) (segs : list bytes) : list (nat * bytes) := imap (fun i s => ((k + i)%nat, s)) segs.

Lemma numbered_cons k s segs : numbered k (s :: segs) = (k, s) :: numbered (S k) segs.
Proof. unfold numbered. cbn [imap]. f_equal; [by rewrite Nat.add_0_r|]. apply imap_ext. intros i x _. unfold compose. f_equal. lia. Qed.

Lemma numbered_snoc k s segs : numbered k (segs ++ [s]) = numbered k segs ++ [((k + length segs)%nat, s)].
Proof. unfold numbered. rewrite imap_app. cbn [imap]. unfold compose. by rewrite Nat.add_0_r. Qed.

(** The stack's named top after [pops] more pops is what the component view finds from the end. *)
Lemma walk_unpopped k segs pops :
  head (drop_unnamed (drop pops (foldl walk_segment [] (numbered k segs)))) =
  (fun '(name, before) => (name, bool_decide ((k + length before)%nat = 0%nat))) <$> unpopped pops (reverse segs).
Proof.
  revert pops. induction segs as [|s segs IH] using rev_ind; intros pops; [by destruct pops|].
  rewrite numbered_snoc, foldl_app, reverse_snoc. cbn [foldl walk_segment unpopped].
  destruct (decide (s = [])) as [->|Hn]; [apply IH|]. rewrite (bool_decide_false (s = [])) by done. cbn [orb].
  destruct (decide (s = bs ".")) as [->|Hd]; [apply IH|]. rewrite (bool_decide_false (s = bs ".")) by done.
  destruct (decide (s = bs "..")) as [->|Hu].
  - change (bool_decide (bs ".." = bs "..")) with true. cbn [andb orb]. rewrite <- IH. destruct (foldl _ _ _); [by destruct pops|done].
  - rewrite (bool_decide_false (s = bs "..")) by done. destruct pops as [|pops]; cbn [drop]; [|apply IH].
    cbn [drop_unnamed]. destruct (decide (trim_end_matches is_dot_or_space s = [])) as [E|E].
    + rewrite E. cbn. apply (IH 0%nat).
    + rewrite !(bool_decide_false (_ = [])) by done. cbn [head fmap option_fmap option_map]. by rewrite length_reverse.
Qed.

(** What the walk ends on, as a component view. *)
Definition landed (root : option (bytes * bytes)) (l : Landing) : option bytes :=
  match l, root with
  | Lands n, _ => Some n
  | AtRoot, Some (server, share) => unc_root_name server share
  | AtRoot, None => None
  end.

Lemma walk_end_landing root segs k :
  (k = 0%nat -> root = None) -> walk_end root (numbered k segs) = landed root (landing segs (bool_decide (k = 0%nat))).
Proof.
  intros Hk. unfold walk_end, landing. pose proof (walk_unpopped k segs 0) as H. cbn [drop] in H.
  destruct (drop_unnamed _) as [|[n leading] st]; destruct (unpopped 0 (reverse segs)) as [[n' before]|]; try discriminate H.
  - done.
  - cbn in H. injection H as <- ->. destruct (decide (k = 0%nat)) as [->|Hne].
    + rewrite (Hk eq_refl). cbn [Nat.add]. destruct before as [|b before]; cbn; [by destruct (is_drive_prefix n)|done].
    + rewrite (bool_decide_false (k = _)), (bool_decide_false ((k + _)%nat = _)) by lia. by destruct root as [[]|].
Qed.

(** * Lemmas on a joined path *)

(** A path's components hold no separator; what separates them is one of the two. *)
Definition joins (first : bytes) (rest : list (Z * bytes)) : Prop :=
  free is_separator first /\ Forall (fun '(sep, segment) => is_separator sep = true /\ free is_separator segment) rest.

Lemma split_path_join first rest : joins first rest -> split_on is_separator (join first rest) = first :: rest.*2.
Proof.
  intros [Hf Hr]. revert first Hf. induction Hr as [|[sep seg] rest [Hs Hg] _ IH]; intros first Hf.
  - unfold join. cbn. rewrite app_nil_r. by apply split_on_free.
  - unfold join in *. rewrite bind_cons. cbn [app]. rewrite split_on_app by done. rewrite split_on_free by done. cbn [fmap list_fmap snd]. by rewrite <- IH.
Qed.

(** A path that opens with two separators has two empty components and another. *)
Definition unc_opening (components : list bytes) : bool := match components with [] :: [] :: _ :: _ => true | _ => false end.

Lemma unc_start first rest :
  joins first rest -> starts_with_two_separators (join first rest) = unc_opening (first :: rest.*2).
Proof.
  intros [Hf Hr]. unfold starts_with_two_separators, sep_at, join. destruct first as [|c first].
  2:{ cbn. apply free_cons in Hf as [Hc _]. unfold is_separator in Hc. by rewrite Hc. }
  destruct Hr as [|[s w] rest [Hs Hw] Hr]; [done|]. rewrite bind_cons. cbn. unfold is_separator in *. rewrite Hs. cbn.
  destruct w as [|c w]; [|apply free_cons in Hw as [Hc _]; cbn; by rewrite Hc].
  destruct Hr as [|[s' w'] rest [Hs' _] _]; [done|]. rewrite bind_cons. cbn. by rewrite Hs'.
Qed.

(** * Lemmas on embedded NULs *)

Definition is_nul (b : Z) : bool := b =? 0.

#[local] Ltac Zify.zify_post_hook ::= Z.to_euclidean_division_equations.

Lemma nul_item i : wf_item i -> free is_nul (item_bytes i) <-> free is_nul (units_of i).
Proof.
  assert (forall x, 0 < x -> is_nul x = false) as Hp by (intros x Hx; apply Z.eqb_neq; lia).
  destruct i as [c|u]; cbn [wf_item item_bytes units_of]; intros Hi.
  - unfold is_scalar in Hi. destruct (decide (c = 0)) as [->|Hc]; [by cbn|].
    assert (free is_nul (encode_utf8 c) /\ free is_nul (encode_utf16 c)); [|tauto].
    unfold encode_utf8, encode_utf16. split.
    + destruct (Z.ltb_spec c 0x80); [|destruct (Z.ltb_spec c 0x800); [|destruct (Z.ltb_spec c 0x10000)]]; repeat (constructor; [apply Hp; lia|]); constructor.
    + destruct (Z.ltb_spec c 0x10000); repeat (constructor; [apply Hp; lia|]); constructor.
  - destruct (surrogate_bytes_spec u Hi) as (b1 & b2 & -> & H1 & H2 & _).
    assert (free is_nul [0xED; b1; b2] /\ free is_nul [u]); [|tauto].
    split; repeat (constructor; [apply Hp; lia|]); constructor.
Qed.

Lemma nul_units us : Forall is_u16 us -> free is_nul (from_wide us) <-> free is_nul us.
Proof.
  intros Hu. destruct (decode_utf16_spec us Hu) as [Hb Hw]. rewrite <- Hb at 2. unfold from_wide. clear Hb.
  induction Hw as [|i items Hi _ IH]; [done|]. by rewrite !bind_cons, !free_app, IH, nul_item.
Qed.

(** A prefix up to a NUL is shorter; without one nothing is cut. *)
Lemma cut_at_nul (l : bytes) : match position is_nul l with Some i => take i l <> l /\ ~ free is_nul l | None => free is_nul l end.
Proof.
  destruct (position is_nul l) as [i|] eqn:E; [|by apply position_None].
  apply position_Some in E as (l1 & x & l2 & -> & <- & Hx & _). split.
  - intros H%(f_equal length). rewrite take_app_length, length_app in H. cbn in H. lia.
  - rewrite free_app, free_cons. intros (_ & H & _). congruence.
Qed.

Lemma win32_prefix_spec windows prog :
  (windows = true -> wtf8 prog) -> win32_prefix windows prog = prog <-> free is_nul prog.
Proof.
  intros Hw. unfold win32_prefix. destruct windows.
  - destruct (Hw eq_refl) as (us & Hu & ->). rewrite to_wide_from_wide, nul_units by done. fold is_nul.
    pose proof (cut_at_nul us) as H. destruct (position _ us) as [i|] eqn:E; [|done]. destruct H as [Hne Hf].
    split; [|done]. intros H%(f_equal to_wide). rewrite (to_wide_from_wide us), (to_wide_from_wide (take i us)) in H by (try apply Forall_take; done). by injection H.
  - fold is_nul. pose proof (cut_at_nul prog) as H. destruct (position _ prog) as [i|]; tauto.
Qed.

(** * The gate is the resolver *)

Lemma verbatim_refusal_eq text :
  verbatim_refusal text = verbatim_verdict text (rsplit_next 92 text) (rsplit_next 47 (rsplit_next 92 text)).
Proof.
  unfold verbatim_refusal, verbatim_verdict. rewrite !reaches_batch_eq. fold (has_bat_extension text).
  by destruct (has_bat_extension text).
Qed.

Lemma refusal_of_plain text first rest :
  text = join first rest -> joins first rest -> starts_with VERBATIM text = false ->
  refusal_of text = resolver_verdict (first :: rest.*2).
Proof.
  intros -> Hj Hv. unfold refusal_of. rewrite Hv. unfold win32_effective_file_name. rewrite unc_start, split_path_join by done.
  generalize (first :: rest.*2). intros segs. unfold resolver_verdict, resolve_components, batch_server.
  assert (forall l : Landing, match landed None l with Some name => if is_batch_program name then Some BATCH else None | None => Some NO_FILE end
    = match (match l with Lands n => Some n | AtRoot => None end) with Some name => if reaches_batch name then Some BATCH else None | None => Some NO_FILE end) as Hl.
  { intros [n|]; cbn; [by rewrite reaches_batch_eq|done]. }
  change (imap pair segs) with (numbered 0 segs). rewrite walk_end_landing by done. change (bool_decide (0%nat = 0%nat)) with true.
  destruct segs as [|[|c a] [|[|d b] [|server segs]]]; try match goal with |- context [landed None (landing ?x true)] => exact (Hl (landing x true)) end.
  rewrite !numbered_cons. cbn [drop].
  destruct (bool_decide (server = bs ".") || bool_decide (server = bs "?")); cbn [negb andb].
  - rewrite walk_end_landing by done. change (bool_decide (3%nat = 0%nat)) with false. cbn [unc_opening].
    specialize (Hl (landing segs false)). destruct segs; exact Hl.
  - destruct segs as [|share segs]; [done|]. rewrite numbered_cons, walk_end_landing by done. change (bool_decide (4%nat = 0%nat)) with false. cbn [unc_opening].
    destruct (landing segs false) as [n|]; cbn [landed]; [by rewrite reaches_batch_eq|]. unfold unc_root_name.
    rewrite !reaches_batch_eq. destruct (reaches_batch (trim_end_matches _ server)) eqn:Es; [by rewrite reaches_batch_eq, Es|].
    destruct (bool_decide _); [done|]. by rewrite reaches_batch_eq.
Qed.

(** C21: Under Win32 the gate refuses exactly the programs that the rule for their kind of path refuses, and
    with the same error. A path that is not verbatim, of any mixture of separators, is judged by the resolver on
    components: refused if its last unpopped name reaches a batch file, the share of a path that ends on one
    included, or if it names no file of its own; a program it passes resolves to a name std does not take for a
    batch file. A verbatim path is judged as written: refused if its text ends like a batch file, if its last
    component, or what that has after a slash, reaches one, and if that component is [..]; one that ends in a
    separator, say, is left for the system to refuse. A program with an embedded NUL is refused first, and no
    other program is refused off Win32. *)
Theorem gate_is_the_resolver windows prog first rest :
  (windows = true -> wtf8 prog) -> lossy prog = join first rest -> joins first rest ->
  (~ free is_nul prog -> forall win32, reject_batch_path_on windows prog win32 = Err (Io (io_new InvalidInput))) /\
  (free is_nul prog ->
    reject_batch_path_on windows prog false = Ok tt /\
    (starts_with VERBATIM (lossy prog) = true -> exists last tail, after_last 92 (lossy prog) last /\ after_last 47 last tail /\
      reject_batch_path_on windows prog true = refused (verbatim_verdict (lossy prog) last tail)) /\
    (starts_with VERBATIM (lossy prog) = false ->
      reject_batch_path_on windows prog true = refused (resolver_verdict (first :: rest.*2)) /\
      (reject_batch_path_on windows prog true = Ok tt ->
        exists name, resolve_components (first :: rest.*2) = Some name /\ has_bat_extension name = false))).
Proof.
  intros Hw Ht Hj. pose proof (win32_prefix_spec windows prog Hw) as Hp. unfold reject_batch_path_on. split.
  - intros Hn win32. rewrite (bool_decide_false (win32_prefix _ _ = _)); [done|]. by rewrite Hp.
  - intros Hn. rewrite (bool_decide_true (win32_prefix _ _ = _)) by (by rewrite Hp). cbn [negb]. split; [done|]. split; intros Hv.
    + unfold refusal_of. rewrite Hv, verbatim_refusal_eq. do 2 eexists. split_and!; [apply rsplit_next_after..|done].
    + rewrite (refusal_of_plain _ first rest) by done. split; [done|]. unfold resolver_verdict.
      destruct (batch_server _); [done|]. destruct (resolve_components _) as [n|]; [|done].
      destruct (reaches_batch n) eqn:E; [done|]. intros _. exists n. split; [done|]. destruct (has_bat_extension n) eqn:En; [|done].
      by rewrite <- reaches_batch_eq, streams_subsume_std in E.
Qed.

Lemma gate_is_the_resolver_witness :
  let first := [] in let rest := [(92, []); (47, bs "srv"); (92, bs "x.bat"); (47, bs "y"); (92, bs ".."); (92, bs "..")] in
  let prog := join first rest in
  prog = bs "\/srv\x.bat/y\..\.." /\ reject_batch_path_on true prog true = refused (Some BATCH) /\
  resolve_components (first :: rest.*2) = Some (bs "x.bat").
Proof.
  cbv zeta. set (prog := join _ _). split; [reflexivity|].
  assert (wtf8 prog) as Hw.
  { exists prog. split; [|vm_compute; reflexivity]. vm_compute. repeat (apply List.Forall_cons; [split; reflexivity || discriminate|]). apply List.Forall_nil. }
  assert (lossy prog = join [] [(92, []); (47, bs "srv"); (92, bs "x.bat"); (47, bs "y"); (92, bs ".."); (92, bs "..")]) as Hl by (vm_compute; reflexivity).
  destruct (proj2 (gate_is_the_resolver true prog _ _ (fun _ => Hw) Hl
    ltac:(split; vm_compute; repeat constructor)) ltac:(vm_compute; repeat constructor)) as (_ & _ & H).
  split; [|reflexivity]. rewrite (proj1 (H ltac:(vm_compute; reflexivity))). vm_compute. reflexivity.
Defined.

(** A verbatim path to a batch file that a separator follows is not refused; its plain spelling is. *)
Example verbatim_trailing_separator :
  reject_batch_path_on true (bs "\\?\C:\x.bat\") true = Ok tt /\
  reject_batch_path_on true (bs "C:\x.bat\") true = Err EUnsupported /\
  reject_batch_path_on true (bs "\\?\C:\x.bat. ") true = Err EUnsupported /\
  reject_batch_path_on true (bs "\\?\C:\a\..") true = Err (Io (io_new InvalidInput)).
Proof. vm_compute. split_and!; reflexivity. Qed.
