(* ===== verification/FdMarker.v ===== *)
(** The marker pipe of a tree on macOS, [src/containment/fdmarker.rs]: reading a process's descriptors
    and a pipe's handle through [proc_pidinfo] and [proc_pidfdinfo], and the pipe a spawn installs. The
    kernel's answers are arguments; the calls that fill a buffer are recorded with its size. The
    sweep over the marker's holders is in [MarkerSweep]. *)
From S2P Require Import Prelude Identity IoErrors History.
Local Open Scope Z_scope.

(** * Descriptors of a process *)

Inductive PipeQuery := PFound (fds : list Z) | PGone | PDenied.

Record PipeFdInfo := pipe_fd_info { pipe_handle : Z; pipe_peerhandle : Z; fi_status : Z }.

Inductive FdPipeInfoQuery := IFound (info : PipeFdInfo) | IAbsent | IDenied.

Definition PROC_FP_CLEXEC : Z := 2.
Definition EBADF : Z := 9.

(** [size_of::<libc::proc_fdinfo>()], [size_of::<PipeFdInfo>()] and [PROX_FDTYPE_PIPE]. *)
Definition FDINFO_SIZE : Z := 8.
Definition PIPE_INFO_SIZE : Z := 184.
Definition PROX_FDTYPE_PIPE : Z := 6.

(** An answer of [proc_pidinfo]: what it returned, [errno], cleared before, and the buffer's records of
    a descriptor and its type. *)
Record Pidinfo := pidinfo { returned : Z; errno : Z; records : list (Z * Z) }.

Definition fd_pipe_info (n errno : Z) (info : PipeFdInfo) : FdPipeInfoQuery :=
  if n =? PIPE_INFO_SIZE then IFound info
  else if (errno =? 0) || (errno =? ESRCH) || (errno =? EBADF) then IAbsent
  else IDenied.

Definition pipe_handle_of (q : FdPipeInfoQuery) : option Z :=
  match q with IFound info => Some (pipe_handle info) | IAbsent | IDenied => None end.

(** [checked_mul] on [usize], then [c_int::try_from]. *)
Definition fd_list_buf_bytes (cap entry : Z) : result unit Z :=
  if 2 ^ 64 <=? cap * entry then Err tt
  else if i32_max <? cap * entry then Err tt
  else Ok (cap * entry).

Definition classify_pidlistfds_failure (errno : Z) : PipeQuery :=
  if errno =? 0 then PFound [] else if errno =? ESRCH then PGone else PDenied.

(** The pipes among the first [count] records. *)
Definition pipes_of (count : Z) (records : list (Z * Z)) : list Z :=
  (filter (fun r => r.2 = PROX_FDTYPE_PIPE) (take (Z.to_nat count) records)).*1.

(** A call that fills a buffer of [cap] records, told its size in bytes. *)
Record Fill := fill { fcap : Z; fbytes : Z; fanswer : Pidinfo }.

Section read.
(** What the kernel answers a fill of so many bytes, after the calls made so far. *)
Context (fill_answer : list Fill -> Z -> Pidinfo).

(** The [loop]; [None] is fuel run out. *)
Fixpoint fill_loop (fuel : nat) (cap : Z) : Hist Fill (option PipeQuery) :=
  match fuel with
  | O => ret None
  | S fuel =>
      match fd_list_buf_bytes cap FDINFO_SIZE with
      | Err _ => ret (Some PDenied)
      | Ok buf_bytes =>
          do! w := call (fun h => fill_answer h buf_bytes) (fill cap buf_bytes) in
          if returned w <=? 0 then ret (Some (classify_pidlistfds_failure (errno w)))
          else
            let count := returned w / FDINFO_SIZE in
            if cap <? count then ret (Some PDenied)
            else if count =? cap then fill_loop fuel (cap * 2)
            else ret (Some (PFound (pipes_of count (records w))))
      end
  end.

(** [sized] answers the sizing call. *)
Definition pipe_fds_of (fuel : nat) (sized : Pidinfo) : Hist Fill (option PipeQuery) :=
  if returned sized <=? 0 then ret (Some (classify_pidlistfds_failure (errno sized)))
  else fill_loop fuel (returned sized / FDINFO_SIZE + 16).
End read.

(** * Installing the marker *)

Definition HIGH_FLOOR : Z := 64.

(** [i32::saturating_add(1)]. *)
Definition saturating_succ (m : Z) : Z := Z.min (m + 1) i32_max.

Definition max_of (l : list Z) : option Z := match l with [] => None | m :: l => Some (foldl Z.max m l) end.

Definition safe_marker_fd (candidate : Z) (reserved : list Z) : Z :=
  let floor := Z.max match max_of reserved with Some m => saturating_succ m | None => HIGH_FLOOR end HIGH_FLOOR in
  Z.max candidate floor.

Record PreparedMarker := prepared_marker { phandle : Z; pread_handle : Z; pfd : Z }.

(** The answers to [install]'s calls: the number of the new pipe's write end, where [F_DUPFD_CLOEXEC]
    placed it, and the handles read of the two ends. *)
Record InstallAnswers := install_answers {
  created : option Z; placed : Z -> result Z Z; write_handle : option Z; own_handle : option Z }.

(** The marker, and the descriptor handed to the in-child steps ([preserve]). *)
Definition install (reserved : list Z) (a : InstallAnswers) : option PreparedMarker * option Z :=
  match created a with
  | None => (None, None)
  | Some candidate =>
      match placed a (safe_marker_fd candidate reserved) with
      | Err _ => (None, None)
      | Ok fd =>
          match write_handle a with
          | None => (None, None)
          | Some handle =>
              if handle =? 0 then (None, None)
              else match own_handle a with
              | None => (None, None)
              | Some read => if read =? 0 then (None, None) else (Some (prepared_marker handle read fd), Some fd)
              end
          end
      end
  end.

(** * Lemmas *)

Lemma fd_list_buf_bytes_Ok cap b :
  0 <= cap -> fd_list_buf_bytes cap FDINFO_SIZE = Ok b <-> b = cap * FDINFO_SIZE /\ b <= i32_max.
Proof.
  intros Hc. unfold fd_list_buf_bytes. destruct (Z.leb_spec (2 ^ 64) (cap * FDINFO_SIZE)).
  - split; [done|]. unfold i32_max. intros [-> ?]. lia.
  - destruct (Z.ltb_spec i32_max (cap * FDINFO_SIZE)); [|naive_solver]. split; [done|]. intros [-> ?]. lia.
Qed.

(** A fill the loop makes: its size is that of its buffer, and an [int]. *)
Definition sized_right (f : Fill) : Prop := 0 < fcap f /\ fbytes f = fcap f * FDINFO_SIZE /\ fbytes f <= i32_max.

(** The evidence of an answer: a call that failed, an empty table, or a buffer with room to spare. *)
Definition shown_by (t : list Fill) (q : PipeQuery) : Prop :=
  match q with
  | PFound fds => exists f, last t = Some f /\
      (returned (fanswer f) <= 0 /\ errno (fanswer f) = 0 /\ fds = [] \/
       0 < returned (fanswer f) /\ returned (fanswer f) / FDINFO_SIZE < fcap f /\
       fds = pipes_of (returned (fanswer f) / FDINFO_SIZE) (records (fanswer f)))
  | PGone => exists f, last t = Some f /\ returned (fanswer f) <= 0 /\ errno (fanswer f) = ESRCH
  | PDenied => True
  end.

Lemma classify_shown (t : list Fill) f :
  returned (fanswer f) <= 0 -> last t = Some f -> shown_by t (classify_pidlistfds_failure (errno (fanswer f))).
Proof.
  intros Hr Hl. unfold classify_pidlistfds_failure. destruct (Z.eqb_spec (errno (fanswer f)) 0) as [E|]; [exists f; auto|].
  destruct (Z.eqb_spec (errno (fanswer f)) ESRCH) as [E|]; [exists f; auto|done].
Qed.

Lemma shown_by_cons f t q : shown_by t q -> shown_by (f :: t) q.
Proof. destruct t as [|g t]; [|by destruct q]. destruct q; cbn; [by intros (? & ? & _)|by intros (? & ? & _)|done]. Qed.

(** Arithmetic over the sizes. *)
Local Ltac sizes := unfold FDINFO_SIZE, i32_max in *; lia.

(** The capacity doubles, so the fuel is enough. *)
Lemma fill_loop_ends fill_answer fuel cap h :
  0 < cap -> i32_max < cap * 2 ^ (Z.of_nat fuel) * FDINFO_SIZE ->
  wp (fill_loop fill_answer (S fuel) cap) h (fun q t => Forall sized_right t /\ (length t <= fuel)%nat /\
    match q with Some q => shown_by t q | None => False end).
Proof.
  revert cap h. induction fuel as [|fuel IH]; intros cap h Hc Hf; cbn [fill_loop];
    (destruct (fd_list_buf_bytes cap FDINFO_SIZE) as [b|] eqn:Eb; [|apply wp_ret; split; [constructor|split; [cbn; lia|done]]]);
    (apply fd_list_buf_bytes_Ok in Eb as [-> Hb]; [|lia]); [sizes|].
  apply wp_bind, wp_call. set (f := fill cap _ _).
  assert (sized_right f) as Hs by (unfold sized_right, f; cbn [fcap fbytes]; lia). change (fill_answer h (cap * FDINFO_SIZE)) with (fanswer f).
  destruct (Z.leb_spec (returned (fanswer f)) 0) as [Hr|Hr].
  { apply wp_ret. split; [by constructor|]. split; [cbn; lia|]. by apply classify_shown. }
  destruct (Z.ltb_spec cap (returned (fanswer f) / FDINFO_SIZE)).
  { apply wp_ret. split; [by constructor|]. split; [cbn; lia|done]. }
  destruct (Z.eqb_spec (returned (fanswer f) / FDINFO_SIZE) cap) as [E|Hlt].
  - eapply wp_mono; [apply (IH (cap * 2)); [lia|]|].
    + rewrite Nat2Z.inj_succ, Z.pow_succ_r in Hf by lia. sizes.
    + intros q t (Ht & Hl & Hq). split; [by constructor|]. split; [cbn; lia|]. destruct q as [q|]; [by apply shown_by_cons|done].
  - apply wp_ret. split; [by constructor|]. split; [cbn; lia|]. exists f. split; [done|]. right. split; [done|]. split; [change (fcap f) with cap; lia|done].
Qed.

(** What a kernel that keeps to its contract answers about a process with the descriptors [table]: the
    records that fit, told as bytes. *)
Definition lists (table : list (Z * Z)) (w : Pidinfo) (bytes : Z) : Prop :=
  exists n, n = Z.min (bytes / FDINFO_SIZE) (Z.of_nat (length table)) /\ returned w = n * FDINFO_SIZE /\
    take (Z.to_nat n) (records w) = take (Z.to_nat n) table.

Lemma fill_loop_finds fill_answer table fuel cap h :
  (forall h b, lists table (fill_answer h b) b) -> 0 < Z.of_nat (length table) < 67108864 -> 0 < cap <= 134217728 ->
  wp (fill_loop fill_answer fuel cap) h (fun q _ => q = None \/ q = Some (PFound (pipes_of (Z.of_nat (length table)) table))).
Proof.
  intros Hk Hl. revert cap h. induction fuel as [|fuel IH]; intros cap h Hc; cbn [fill_loop]; [apply wp_ret; by left|].
  destruct (fd_list_buf_bytes cap FDINFO_SIZE) as [b|] eqn:Eb.
  2:{ exfalso. enough (fd_list_buf_bytes cap FDINFO_SIZE = Ok (cap * FDINFO_SIZE)) by congruence. apply fd_list_buf_bytes_Ok; [lia|]. split; [done|sizes]. }
  apply fd_list_buf_bytes_Ok in Eb as [-> Hb]; [|lia]. apply wp_bind, wp_call. set (w := fill_answer h _).
  destruct (Hk h (cap * FDINFO_SIZE)) as (n & Hn & Hr & Ht). fold w in Hr, Ht. rewrite Z.div_mul in Hn by done.
  destruct (Z.leb_spec (returned w) 0); [sizes|]. rewrite Hr, Z.div_mul by done.
  destruct (Z.ltb_spec cap n); [lia|]. destruct (Z.eqb_spec n cap) as [E|Hne].
  - eapply wp_mono; [apply IH; lia|]. done.
  - apply wp_ret. right. assert (n = Z.of_nat (length table)) as E by lia. unfold pipes_of. by rewrite Ht, E.
Qed.

(** The marker's number. *)
Lemma max_of_spec l m : max_of l = Some m -> Forall (fun x => x <= m) l.
Proof.
  destruct l as [|a l]; [done|]. intros [= <-]. revert a. induction l as [|b l IH]; intros a; cbn [foldl]; [repeat constructor; lia|].
  specialize (IH (Z.max a b)). apply Forall_cons in IH as [H H']. repeat constructor; [lia..|done].
Qed.

(** * Theorems *)

(** C24: Reading a process's pipes always ends, within 24 fills and whatever the kernel answers, and never
    hands it a size that is not that of the buffer or does not fit an [int]. It reports descriptors only
    from a fill that left room in its buffer, or an empty answer without an error, so never a cut-off
    list, and a process as gone only after [ESRCH]; and of a kernel that keeps to its contract it
    reports exactly the pipes of the table, a table of up to 67108863 descriptors. *)
Theorem fd_table_read fill_answer sized h :
  let fuel := 25%nat in
  wp (pipe_fds_of fill_answer fuel sized) h (fun q t =>
    Forall sized_right t /\ (length t < fuel)%nat /\
    match q with
    | None => False
    | Some q => shown_by t q \/ t = [] /\ returned sized <= 0 /\ q = classify_pidlistfds_failure (errno sized)
    end /\
    forall table, (forall h b, lists table (fill_answer h b) b) -> 0 < returned sized <= 1073741696 ->
      0 < Z.of_nat (length table) < 67108864 -> q = Some (PFound (pipes_of (Z.of_nat (length table)) table))).
Proof.
  cbn zeta. unfold pipe_fds_of. destruct (Z.leb_spec (returned sized) 0) as [Hr|Hr].
  { apply wp_ret. split; [constructor|]. split; [cbn; lia|]. split; [by right|]. intros table _ Hs. lia. }
  set (cap := returned sized / FDINFO_SIZE + 16). assert (16 <= cap) as Hc by (pose proof (Z.div_pos (returned sized) FDINFO_SIZE ltac:(lia) ltac:(done)); unfold cap; lia).
  destruct (fill_loop_ends fill_answer 24 cap h) as (q & t & Hruns & Hs & Hl & Hq); [lia|sizes|].
  exists q, t. split; [done|]. split; [done|]. split; [lia|]. split.
  - destruct q as [q|]; [by left|done].
  - intros table Hk Hsz Ht. assert (cap <= 134217728) as Hc2.
    { assert (returned sized / FDINFO_SIZE <= 1073741696 / FDINFO_SIZE) by (apply Z.div_le_mono; [done|lia]). unfold cap. change (1073741696 / FDINFO_SIZE) with 134217712 in *. lia. }
    pose proof (wp_runs _ _ _ _ _ (fill_loop_finds fill_answer table 25 cap h Hk Ht ltac:(lia)) Hruns) as [->| ->]; [done|done].
Qed.

(** The marker lands on a number no lower than the pipe's own and than 64, and above every number the
    spawn maps; one at the top of the range is matched, not passed. *)
Theorem safe_marker_fd_clear candidate reserved :
  let fd := safe_marker_fd candidate reserved in
  candidate <= fd /\ HIGH_FLOOR <= fd /\ Forall (fun m => m < i32_max -> m < fd) reserved /\
  (candidate <= i32_max -> fd <= i32_max).
Proof.
  unfold safe_marker_fd. destruct (max_of reserved) as [m|] eqn:E.
  - apply max_of_spec in E. unfold saturating_succ, HIGH_FLOOR. split; [lia|]. split; [lia|]. split; [|unfold i32_max; lia].
    eapply Forall_impl; [exact E|]. cbn. lia.
  - destruct reserved; [|done]. unfold HIGH_FLOOR. split; [lia|]. split; [lia|]. split; [constructor|unfold i32_max; lia].
Qed.

(** A marker is installed only whole: its write end goes to the in-child steps exactly when the
    supervisor gets the marker, under the number it was placed at, and with both handles read and none of
    them the number that matches no pipe. *)
Theorem install_whole reserved a :
  match install reserved a with
  | (Some m, fd) => fd = Some (pfd m) /\ phandle m <> 0 /\ pread_handle m <> 0 /\
      write_handle a = Some (phandle m) /\ own_handle a = Some (pread_handle m) /\
      exists candidate, created a = Some candidate /\ placed a (safe_marker_fd candidate reserved) = Ok (pfd m)
  | (None, fd) => fd = None
  end.
Proof.
  unfold install. destruct (created a) as [c|]; [|done]. destruct (placed a _) as [fd|] eqn:Ep; [|done].
  destruct (write_handle a) as [w|]; [|done]. destruct (Z.eqb_spec w 0); [done|].
  destruct (own_handle a) as [r|]; [|done]. destruct (Z.eqb_spec r 0); [done|]. cbn. eauto 10.
Qed.

(** A process with 20 descriptors, 10 of them pipes, that the sizing call saw with one. *)
Definition demo_table : list (Z * Z) := (fun i => (i, if Z.even i then PROX_FDTYPE_PIPE else 1)) <$> seqZ 0 20.

Definition demo_fill (h : list Fill) (bytes : Z) : Pidinfo :=
  let n := Z.min (bytes / FDINFO_SIZE) 20 in pidinfo (n * FDINFO_SIZE) 0 (take (Z.to_nat n) demo_table).

Lemma fd_table_read_witness :
  (pipe_fds_of demo_fill 25 (pidinfo 8 0 []) []).1 = Some (PFound [0; 2; 4; 6; 8; 10; 12; 14; 16; 18]) /\
  length (pipe_fds_of demo_fill 25 (pidinfo 8 0 []) []).2 = 2%nat.
Proof.
  destruct (fd_table_read demo_fill (pidinfo 8 0 []) []) as (q & t & Hr & _ & _ & _ & H). unfold runs in Hr. rewrite Hr.
  assert (length t = 2%nat) as Ht by (apply (f_equal (fun x => length x.2)) in Hr; vm_compute in Hr; symmetry; exact Hr).
  split; [|exact Ht]. cbn [fst]. rewrite (H demo_table).
  - vm_compute. reflexivity.
  - intros h' b. exists (Z.min (b / FDINFO_SIZE) 20). split; [reflexivity|]. split; [reflexivity|]. cbn [records demo_fill]. apply take_idemp.
  - cbn [returned]. lia.
  - change (length demo_table) with 20%nat. lia.
Defined.
