(* ===== verification/MarkerSweep.v ===== *)
(** The sweep of a marked tree on macOS, [src/containment/fdmarker.rs]: the holders of the marker, the
    three channels of a pass, and the kill that repeats its passes. Every call's answer is the
    system's and is recorded; the walk, the kill of a process and the kill of the group are those of
    [TreeWalk] and [UnixGroup]. *)
From S2P Require Import Prelude Identity IoErrors CrateError TreeWalk UnixGroup History FdMarker.
From stdpp Require Import sets.
Local Open Scope Z_scope.

Local Notation is_err r := (match r with Ok _ => false | Err _ => true end).

(** * Calls *)

Inductive Ev :=
| ReadEnd (q : FdPipeInfoQuery)
| Snapshot (pids : list Z) (parents : list (Z * Z))
| Walk (found : list ProcessId)
| ListFds (pid : Z) (q : PipeQuery)
| PipeInfo (pid fd : Z) (q : FdPipeInfoQuery)
| Resolve (pid : Z) (r : Resolved ProcessId)
| GetPgid (pid : Z) (r : option Z)
| GroupKill (g signal : Z) (steps : list GroupStep) (r : result Error unit)
| Kill (id : ProcessId) (signal : Z) (now : Resolved ProcessId) (r : KillOutcome * list Z)
| LogNotHeld (id : ProcessId)
| LogDenied (id : ProcessId).

(** What the system answers each call, given all the calls before it. *)
Class Sys := {
  own_pid : Z;
  read_end_answer : list Ev -> FdPipeInfoQuery;
  snapshot_answer : list Ev -> list Z * list (Z * Z);
  resolve_answer : list Ev -> Z -> Resolved ProcessId;
  fds_answer : list Ev -> Z -> PipeQuery;
  info_answer : list Ev -> Z -> Z -> FdPipeInfoQuery;
  pgid_answer : list Ev -> Z -> option Z;
  group_answers_of : list Ev -> GroupAnswers;
  listed_answer : list Ev -> result IoError (list (Member * MemberAnswers));
  send_answer : list Ev -> Z -> result Z unit
}.

(** * The marker *)

Record Marker := marker { handle : Z; read_handle : Z; root : option ProcessId; pgid : option Z }.

Definition new (p : PreparedMarker) (root : ProcessId) (pgid : option Z) : Marker :=
  marker (phandle p) (pread_handle p) (Some root) pgid.

Definition without_root (p : PreparedMarker) : Marker := marker (phandle p) (pread_handle p) None None.

(** The group of [Full] and [GroupAndHolders] is reached with the root's check, in [kill_group]. *)
Inductive Scope := Full | HoldersOnly (except : option ProcessId) | GroupAndHolders.

Record Holder := holder { hpid : Z; clexec : bool }.

Inductive MarkerQuery := Held | NotHeld | MDenied.

(** ** Errors *)

Definition is_teardown_mechanism_failure (e : Error) : bool :=
  match e with Io _ | EUnsupported => true | Unassessable (Some _) => true | _ => false end.

Definition combine_group_errors (first latest : Error) : Error :=
  if is_teardown_mechanism_failure first || is_teardown_mechanism_failure latest then Io (io_new Other) else EContainment.

Definition finish_sweep (group_result : result Error unit) (incomplete : bool) : result Error unit :=
  if incomplete then
    match group_result with
    | Ok _ => Err (Unassessable None)
    | Err group_err => Err (combine_group_errors (Unassessable None) group_err)
    end
  else group_result.

Section sweep.
Context `{Sys}.
Notation M := (Hist Ev).

Definition is_signalable (pid : Z) : bool := (1 <? pid) && negb (pid =? own_pid).

(** ** Holders *)

Definition pipe_fds_of (pid : Z) : M PipeQuery := call (fun h => fds_answer h pid) (ListFds pid).
Definition fd_pipe_info (pid fd : Z) : M FdPipeInfoQuery := call (fun h => info_answer h pid fd) (PipeInfo pid fd).

(** The inner loop of [holders]: [found] and [all_clexec]. *)
Fixpoint scan_fds (handle pid : Z) (fds : list Z) (found all_clexec : bool) : M (bool * bool) :=
  match fds with
  | [] => ret (found, all_clexec)
  | fd :: fds =>
      do! q := fd_pipe_info pid fd in
      match q with
      | IFound info =>
          if pipe_handle info =? handle
          then scan_fds handle pid fds true (all_clexec && negb (Z.land (fi_status info) PROC_FP_CLEXEC =? 0))
          else scan_fds handle pid fds found all_clexec
      | IAbsent | IDenied => scan_fds handle pid fds found all_clexec
      end
  end.

Fixpoint holders (handle : Z) (pids : list Z) : M (list Holder) :=
  match pids with
  | [] => ret []
  | pid :: pids =>
      do! q := pipe_fds_of pid in
      match q with
      | PFound fds =>
          do! r := scan_fds handle pid fds false true in
          do! out := holders handle pids in
          ret (if r.1 then holder pid r.2 :: out else out)
      | PGone | PDenied => holders handle pids
      end
  end.

Fixpoint query_fds (handle pid : Z) (fds : list Z) : M MarkerQuery :=
  match fds with
  | [] => ret NotHeld
  | fd :: fds =>
      do! q := fd_pipe_info pid fd in
      match q with
      | IFound info => if pipe_handle info =? handle then ret Held else query_fds handle pid fds
      | IAbsent => query_fds handle pid fds
      | IDenied => ret MDenied
      end
  end.

Definition holds_marker_query (pid handle : Z) : M MarkerQuery :=
  do! q := pipe_fds_of pid in
  match q with
  | PFound fds => query_fds handle pid fds
  | PGone => ret NotHeld
  | PDenied => ret MDenied
  end.

(** ** Kills *)

(** [treewalk::kill_by_identity]: it resolves the pid again and signals only the process it names. *)
Definition kill_by_identity (id : ProcessId) (signal : Z) : M KillOutcome := fun h =>
  let now := resolve_answer h (pid id) in
  let r := TreeWalk.kill_by_identity id now (send_answer h) in
  (r.1, h ++ [Kill id signal now r]).

(** Whether the holder may be left running. *)
Definition kill_holder (m : Marker) (id : ProcessId) (signal : Z) : M bool :=
  do! q := holds_marker_query (pid id) (handle m) in
  match q with
  | NotHeld => do! _ := note (LogNotHeld id) in ret false
  | MDenied => do! _ := note (LogDenied id) in ret true
  | Held => do! outcome := kill_by_identity id signal in ret (bool_decide (outcome = NotAttempted))
  end.

(** ** A pass *)

(** What the passes of a sweep share; [seen] is the [HashSet]. *)
Record Sweep := sweep { seen : list ProcessId; group_result : result Error unit; incomplete : bool }.

Definition mark_incomplete (b : bool) (s : Sweep) : Sweep := sweep (seen s) (group_result s) (incomplete s || b).

(** The elements of [ids] that [HashSet::insert] finds new, and the set with them. *)
Fixpoint insert_new (seen ids : list ProcessId) : list ProcessId * list ProcessId :=
  match ids with
  | [] => ([], seen)
  | id :: ids =>
      if bool_decide (id ∈ seen) then insert_new seen ids
      else let '(new, seen) := insert_new (id :: seen) ids in (id :: new, seen)
  end.

Definition except_of (scope : Scope) : option ProcessId := match scope with HoldersOnly except => except | _ => None end.
Definition walks (scope : Scope) : bool := match scope with Full => true | _ => false end.
Definition signals_group (scope : Scope) : bool := match scope with HoldersOnly _ => false | _ => true end.

Definition snapshot : M (list Z * list (Z * Z)) := call snapshot_answer (fun r => Snapshot r.1 r.2).

Definition descendants (root : ProcessId) (parents : list (Z * Z)) : M (list ProcessId) :=
  call (fun h => default [] (TreeWalk.descendants root parents (resolve_answer h))) Walk.

(** Channels 1 and 2: the root, then what the walk finds below it. *)
Definition walk_channel (m : Marker) (scope : Scope) (blind : bool) (parents : list (Z * Z)) (s : Sweep) : M (list ProcessId * Sweep) :=
  match root m with
  | Some r =>
      if walks scope then
        let '(first, seen1) := insert_new (seen s) [r] in
        if blind then ret (first, sweep seen1 (group_result s) (incomplete s))
        else
          do! below := descendants r parents in
          let '(more, seen2) := insert_new seen1 below in
          ret (first ++ more, sweep seen2 (group_result s) (incomplete s))
      else ret ([], s)
  | None => ret ([], s)
  end.

(** Channel 3: the loop over [this_pass_holders]. *)
Fixpoint holder_channel (except : option ProcessId) (hs : list Holder) (s : Sweep) : M (list ProcessId * Sweep) :=
  match hs with
  | [] => ret ([], s)
  | hd :: hs =>
      if negb (is_signalable (hpid hd)) then holder_channel except hs s
      else
        do! r := call (fun h => resolve_answer h (hpid hd)) (Resolve (hpid hd)) in
        match r with
        | Gone => holder_channel except hs s
        | Unknown => holder_channel except hs (mark_incomplete true s)
        | Found id =>
            if bool_decide (Some id = except) then holder_channel except hs s
            else
              let '(new, seen1) := insert_new (seen s) [id] in
              do! r := holder_channel except hs (sweep seen1 (group_result s) (incomplete s)) in
              ret (new ++ r.1, r.2)
        end
  end.

Definition getpgid (pid : Z) : M (option Z) := call (fun h => pgid_answer h pid) (GetPgid pid).

(** [this_pass_holders.iter().any(..)]. *)
Fixpoint any_in_group (pgid : Z) (hs : list Holder) : M bool :=
  match hs with
  | [] => ret false
  | hd :: hs =>
      if is_signalable (hpid hd) then
        do! g := getpgid (hpid hd) in
        if bool_decide (g = Some pgid) then ret true else any_in_group pgid hs
      else any_in_group pgid hs
  end.

Definition confirms_pgid (m : Marker) (blind : bool) (hs : list Holder) : M bool :=
  if blind then ret false else match pgid m with Some g => any_in_group g hs | None => ret false end.

(** [unix::kill_group] or [term_group], with their own checks of the root. *)
Definition kill_or_term_group (g signal : Z) : M (result Error unit) := fun h =>
  let r := UnixGroup.signal_group false g signal (group_answers_of h) (listed_answer h) in
  (r.2, h ++ [GroupKill g signal r.1 r.2]).

(** The results of two passes' group signals. *)
Definition fold_group (earlier latest : result Error unit) : result Error unit :=
  match earlier, latest with
  | Ok _, r => r
  | Err e, Ok _ => Err e
  | Err first, Err latest => Err (combine_group_errors first latest)
  end.

Definition group_channel (m : Marker) (scope : Scope) (signal : Z) (should_fire : bool) (s : Sweep) : M Sweep :=
  if signals_group scope && should_fire then
    match pgid m with
    | Some g => do! r := kill_or_term_group g signal in ret (sweep (seen s) (fold_group (group_result s) r) (incomplete s))
    | None => ret s
    end
  else ret s.

(** The kills of the walk's processes and of the holders; the flags are [progressed] and [incomplete]. *)
Fixpoint kill_walk (signal : Z) (ids : list ProcessId) (progressed : bool) (s : Sweep) : M (bool * Sweep) :=
  match ids with
  | [] => ret (progressed, s)
  | id :: ids =>
      do! outcome := kill_by_identity id signal in
      if bool_decide (outcome = NotAttempted) then kill_walk signal ids progressed (mark_incomplete true s)
      else kill_walk signal ids true s
  end.

Fixpoint kill_holders (m : Marker) (signal : Z) (ids : list ProcessId) (progressed : bool) (s : Sweep) : M (bool * Sweep) :=
  match ids with
  | [] => ret (progressed, s)
  | id :: ids =>
      do! stays := kill_holder m id signal in
      if (stays : bool) then kill_holders m signal ids progressed (mark_incomplete true s)
      else kill_holders m signal ids true s
  end.

Definition sweep_pass (m : Marker) (scope : Scope) (signal : Z) (first_pass : bool) (s : Sweep) : M (bool * Sweep) :=
  do! table := snapshot in
  let '(pids, parents) := table in
  let blind := bool_decide (pids = []) in
  let s := mark_incomplete blind s in
  do! w := walk_channel m scope blind parents s in
  let '(new_walk, s) := w in
  do! hs := if blind then ret [] else holders (handle m) pids in
  do! n := holder_channel (except_of scope) hs s in
  let '(new_holders, s) := n in
  do! confirmed := confirms_pgid m blind hs in
  do! s := group_channel m scope signal (first_pass || confirmed) s in
  do! k := kill_walk signal new_walk false s in
  kill_holders m signal new_holders k.1 k.2.

(** ** The sweeps *)

Definition check_read_end_still_valid (m : Marker) : M (result Error unit) :=
  do! q := call read_end_answer ReadEnd in
  ret match q with
      | IFound info => if pipe_handle info =? read_handle m then Ok tt else Err (Io (io_new Other))
      | IAbsent | IDenied => Err (Io (io_new Other))
      end.

(** The [loop]; [None] is fuel run out. *)
Fixpoint sweep_loop (m : Marker) (scope : Scope) (fuel : nat) (first_pass : bool) (s : Sweep) : M (option Sweep) :=
  match fuel with
  | O => ret None
  | S fuel =>
      do! r := sweep_pass m scope SIGKILL first_pass s in
      if (r.1 : bool) then sweep_loop m scope fuel false r.2 else ret (Some r.2)
  end.

Definition fresh : Sweep := sweep [] (Ok tt) false.

Definition hard_kill_impl (m : Marker) (scope : Scope) (fuel : nat) : M (option (result Error unit)) :=
  do! ok := check_read_end_still_valid m in
  match ok with
  | Err e => ret (Some (Err e))
  | Ok _ =>
      do! s := sweep_loop m scope fuel true fresh in
      ret ((fun s => finish_sweep (group_result s) (incomplete s)) <$> s)
  end.

Definition terminate_impl (m : Marker) (scope : Scope) : M (result Error unit) :=
  do! ok := check_read_end_still_valid m in
  match ok with
  | Err e => ret (Err e)
  | Ok _ => do! r := sweep_pass m scope SIGTERM true fresh in ret (finish_sweep (group_result r.2) (incomplete r.2))
  end.
End sweep.

(** * The protocol of a sweep

    An automaton over the calls: what one pass has shown, and what the sweep still owes. *)

Record St := st {
  begun : bool;            (* a pass has started *)
  blind_now : bool;        (* this pass has no process table *)
  holding : list Z;        (* pids this pass showed to hold the marker *)
  confirmed_now : bool;    (* this pass saw a live holder in the group *)
  signalling : bool;       (* this pass has signalled *)
  owed_walk : list ProcessId; owed_holders : list ProcessId;
                           (* found and not dealt with, in order *)
  known : list ProcessId;  (* every process found *)
  shown : option Z;        (* the pid the last call showed to hold the marker *)
  moved : bool;            (* this pass resolved a process *)
  gap : bool; group_failed : bool }.

Definition start : St := st false false [] false false [] [] [] None false false false.

Section protocol.
Context (m : Marker) (scope : Scope) (signal : Z) (signalable : Z -> bool).

Definition names_marker (q : FdPipeInfoQuery) : bool := match q with IFound i => pipe_handle i =? handle m | _ => false end.

(** What the kill by identity may have sent: to the process it was asked about, which its pid named. *)
Definition sent_to_it (id : ProcessId) (now : Resolved ProcessId) (sent : list Z) : bool :=
  bool_decide (sent = []) || (bool_decide (now = Found id) && bool_decide (sent = [pid id])).

(** Looks: they may show holders. *)
Definition looked (s : St) (hold : list Z) (sh : option Z) : St :=
  st (begun s) (blind_now s) hold (confirmed_now s) (signalling s) (owed_walk s) (owed_holders s) (known s) sh (moved s) (gap s) (group_failed s).

(** Processes found before this pass signals anything. *)
Definition found_walk (s : St) (new kn : list ProcessId) : St :=
  st (begun s) (blind_now s) (holding s) (confirmed_now s) false (owed_walk s ++ new) (owed_holders s) kn None (moved s) (gap s) (group_failed s).

Definition found_holders (s : St) (new kn : list ProcessId) (gp : bool) : St :=
  st (begun s) (blind_now s) (holding s) (confirmed_now s) false (owed_walk s) (owed_holders s ++ new) kn None (moved s) gp (group_failed s).

Definition seen_group (s : St) (cf : bool) : St :=
  st (begun s) (blind_now s) (holding s) cf false (owed_walk s) (owed_holders s) (known s) None (moved s) (gap s) (group_failed s).

Definition group_sent (s : St) (failed : bool) : St :=
  st (begun s) (blind_now s) (holding s) (confirmed_now s) true (owed_walk s) (owed_holders s) (known s) None (moved s) (gap s) failed.

(** A process is dealt with: [mv] if it was resolved, [gp] if it may be left running. *)
Definition settled (s : St) (walk rest : list ProcessId) (mv gp : bool) : St :=
  st (begun s) (blind_now s) (holding s) (confirmed_now s) true walk rest (known s) None (moved s || mv) (gap s || gp) (group_failed s).

(** The root is found with the first pass's table. *)
Definition root_found (kn : list ProcessId) : list ProcessId * list ProcessId :=
  match root m with Some r => if walks scope then insert_new kn [r] else ([], kn) | None => ([], kn) end.

(** A pass begins; the first may signal the group unseen. *)
Definition pass_begun (s : St) (blind : bool) : St :=
  st true blind [] (negb (begun s)) false (root_found (known s)).1 [] (root_found (known s)).2 None false (gap s || blind) (group_failed s).

Definition step (s : St) (e : Ev) : option St :=
  match e with
  | ReadEnd _ => if begun s then None else Some s
  | Snapshot pids _ =>
      if bool_decide (owed_walk s = []) && bool_decide (owed_holders s = []) && (negb (begun s) || moved s)
      then Some (pass_begun s (bool_decide (pids = []))) else None
  | Walk found =>
      if walks scope && negb (blind_now s) && negb (signalling s)
      then Some (found_walk s (insert_new (known s) found).1 (insert_new (known s) found).2) else None
  | ListFds _ _ => Some (looked s (holding s) None)
  | PipeInfo p _ q => Some (if names_marker q then looked s (p :: holding s) (Some p) else looked s (holding s) None)
  | Resolve p r =>
      if negb (signalling s) && signalable p && bool_decide (p ∈ holding s) then
        Some match r with
             | Found id =>
                 if bool_decide (Some id = except_of scope) then found_holders s [] (known s) (gap s)
                 else found_holders s (insert_new (known s) [id]).1 (insert_new (known s) [id]).2 (gap s)
             | Gone => found_holders s [] (known s) (gap s)
             | Unknown => found_holders s [] (known s) true
             end
      else None
  | GetPgid p r =>
      if negb (signalling s) && signalable p && bool_decide (p ∈ holding s)
      then Some (seen_group s (confirmed_now s || bool_decide (r = pgid m))) else None
  | GroupKill g sg steps r =>
      if signals_group scope && bool_decide (Some g = pgid m) && bool_decide (sg = signal) && negb (signalling s) && confirmed_now s &&
         guarded false steps
      then Some (group_sent s (group_failed s || is_err r)) else None
  | Kill id sg now (outcome, sent) =>
      if bool_decide (sg = signal) && sent_to_it id now sent then
        let failed := bool_decide (outcome = NotAttempted) in
        match owed_walk s, owed_holders s with
        | w :: ws, hs => if bool_decide (w = id) then Some (settled s ws hs (negb failed) failed) else None
        | [], w :: hs => if bool_decide (w = id) && bool_decide (shown s = Some (pid id)) then Some (settled s [] hs (negb failed) failed) else None
        | [], [] => None
        end
      else None
  | LogNotHeld id =>
      match owed_walk s, owed_holders s with
      | [], w :: hs => if bool_decide (w = id) then Some (settled s [] hs true false) else None
      | _, _ => None
      end
  | LogDenied id =>
      match owed_walk s, owed_holders s with
      | [], w :: hs => if bool_decide (w = id) then Some (settled s [] hs false true) else None
      | _, _ => None
      end
  end.
End protocol.

(** * Lemmas *)

Section lemmas.
Context `{Sys} (m : Marker) (scope : Scope) (signal : Z).
Notation keeps_ s c Q := (keeps (step m scope signal is_signalable) s c Q).

(** A call whose answer is worked out from the system's. *)
Lemma keeps_at {A} s (answer : list Ev -> A) ev (Q : A -> St -> Prop) :
  (forall h, exists s', step m scope signal is_signalable s (ev h) = Some s' /\ Q (answer h) s') ->
  keeps_ s (fun h => (answer h, h ++ [ev h])) Q.
Proof.
  intros Hs h. destruct (Hs h) as (s' & He & HQ). exists (answer h), [ev h]. split; [done|]. exists s'. cbn [accepts]. by rewrite He.
Qed.

Lemma scan_fds_ok s p fds found all :
  keeps_ s (scan_fds (handle m) p fds found all) (fun r s' =>
    exists hold sh, s' = looked s hold sh /\ (forall x, x ∈ holding s -> x ∈ hold) /\ (r.1 = true -> found = true \/ p ∈ hold)).
Proof.
  revert s found all. induction fds as [|fd fds IH]; intros s found all; cbn [scan_fds].
  { apply keeps_ret. exists (holding s), (shown s). split; [by destruct s|]. auto. }
  unfold fd_pipe_info. keeps_step. keeps_step. eexists. split; [reflexivity|]. unfold names_marker. destruct a as [info| |].
  - destruct (pipe_handle info =? handle m).
    + eapply keeps_mono; [apply IH|]. intros r s' (hold & sh & -> & Hsub & Hf). exists hold, sh. split; [done|].
      split; [intros x Hx; apply Hsub; by right|]. intros _. right. apply Hsub. by left.
    + eapply keeps_mono; [apply IH|]. intros r s' (hold & sh & -> & Hsub & Hf). exists hold, sh. auto.
  - eapply keeps_mono; [apply IH|]. intros r s' (hold & sh & -> & Hsub & Hf). exists hold, sh. auto.
  - eapply keeps_mono; [apply IH|]. intros r s' (hold & sh & -> & Hsub & Hf). exists hold, sh. auto.
Qed.

Lemma holders_ok s pids :
  keeps_ s (holders (handle m) pids) (fun hs s' =>
    exists hold sh, s' = looked s hold sh /\ (forall x, x ∈ holding s -> x ∈ hold) /\ Forall (fun hd => hpid hd ∈ hold) hs).
Proof.
  revert s. induction pids as [|p pids IH]; intros s; cbn [holders].
  { apply keeps_ret. exists (holding s), (shown s). split; [by destruct s|]. auto. }
  unfold pipe_fds_of. keeps_step. keeps_step. eexists. split; [reflexivity|].
  assert (keeps_ (looked s (holding s) None) (holders (handle m) pids) (fun hs s' =>
    exists hold sh, s' = looked s hold sh /\ (forall x, x ∈ holding s -> x ∈ hold) /\ Forall (fun hd => hpid hd ∈ hold) hs)) as Hrest.
  { eapply keeps_mono; [apply IH|]. intros hs s' (hold & sh & -> & ?). by exists hold, sh. }
  destruct a as [fds| |]; [|exact Hrest..]. clear Hrest. keeps_step. eapply keeps_mono; [apply scan_fds_ok|].
  intros r s' (hold & sh & -> & Hsub & Hf). keeps_step. eapply keeps_mono; [apply IH|].
  intros hs s' (hold' & sh' & -> & Hsub' & Hall). apply keeps_ret. exists hold', sh'. split; [done|]. split; [auto|].
  destruct r as [[] c]; cbn [fst] in *; [|done]. constructor; [|done]. apply Hsub'. destruct (Hf eq_refl); done.
Qed.

Lemma query_fds_ok s p fds :
  keeps_ s (query_fds (handle m) p fds) (fun q s' => exists hold sh, s' = looked s hold sh /\ (q = Held -> sh = Some p)).
Proof.
  revert s. induction fds as [|fd fds IH]; intros s; cbn [query_fds].
  { apply keeps_ret. exists (holding s), (shown s). split; [by destruct s|done]. }
  unfold fd_pipe_info. keeps_step. keeps_step. eexists. split; [reflexivity|].
  assert (forall hold sh, keeps_ (looked s hold sh) (query_fds (handle m) p fds) (fun q s' => exists hold sh, s' = looked s hold sh /\ (q = Held -> sh = Some p))) as Hrest.
  { intros hold sh. eapply keeps_mono; [apply IH|]. intros q s' (hold' & sh' & -> & ?). by exists hold', sh'. }
  unfold names_marker. destruct a as [info| |]; [|apply Hrest|].
  - destruct (pipe_handle info =? handle m); [|apply Hrest]. apply keeps_ret. by eexists _, _.
  - apply keeps_ret. by eexists _, _.
Qed.

Lemma holds_marker_query_ok s p :
  keeps_ s (holds_marker_query p (handle m)) (fun q s' => exists hold sh, s' = looked s hold sh /\ (q = Held -> sh = Some p)).
Proof.
  unfold holds_marker_query, pipe_fds_of. keeps_step. keeps_step. eexists. split; [reflexivity|].
  destruct a as [fds| |]; [|apply keeps_ret; by eexists _, _..].
  eapply keeps_mono; [apply query_fds_ok|]. intros q s' (hold & sh & -> & ?). by exists hold, sh.
Qed.

(** The automaton's account and the sweep's agree. *)
Definition agrees (s : St) (w : Sweep) : Prop :=
  known s = seen w /\ gap s = incomplete w /\ group_failed s = is_err (group_result w).

(** Field by field. *)
Local Ltac fields := unfold agrees in *; destruct_and?; cbn; split_and!; try done; try congruence.

Lemma walk_channel_ok s bl parents w kn :
  blind_now s = bl -> signalling s = false -> owed_walk s = (root_found m scope kn).1 -> seen w = kn ->
  known s = (root_found m scope kn).2 -> gap s = incomplete w -> group_failed s = is_err (group_result w) ->
  keeps_ s (walk_channel m scope bl parents w) (fun r s' => agrees s' r.2 /\ owed_walk s' = r.1 /\
    begun s' = begun s /\ moved s' = moved s /\ signalling s' = false /\ confirmed_now s' = confirmed_now s /\
    owed_holders s' = owed_holders s /\ holding s' = holding s).
Proof.
  intros Hb Hs Ho Hk Hkn Hg Hf. unfold walk_channel, root_found in *. destruct (root m) as [r|].
  2:{ apply keeps_ret. cbn in *. subst kn. fields. }
  destruct (walks scope) eqn:Ew.
  2:{ apply keeps_ret. cbn in *. subst kn. fields. }
  subst kn. destruct (insert_new (seen w) [r]) as [first seen1]. cbn [fst snd] in *. destruct bl.
  { apply keeps_ret. fields. }
  keeps_step. unfold descendants. keeps_step. cbn [step]. rewrite Ew, Hb, Hs, Hkn. cbn [andb negb].
  eexists. split; [reflexivity|]. destruct (insert_new seen1 a) as [more seen2]. apply keeps_ret.
  cbn [fst snd found_walk owed_walk known gap group_failed begun moved signalling confirmed_now owed_holders holding seen incomplete group_result agrees].
  rewrite Ho. fields.
Qed.

Lemma holder_channel_ok hs s w :
  signalling s = false -> agrees s w -> Forall (fun hd => hpid hd ∈ holding s) hs ->
  keeps_ s (holder_channel (except_of scope) hs w) (fun r s' => agrees s' r.2 /\ owed_holders s' = owed_holders s ++ r.1 /\
    owed_walk s' = owed_walk s /\ begun s' = begun s /\ moved s' = moved s /\ signalling s' = false /\
    confirmed_now s' = confirmed_now s /\ holding s' = holding s).
Proof.
  revert s w. induction hs as [|hd hs IH]; intros s w Hs Hw Hh; cbn [holder_channel].
  { apply keeps_ret. rewrite app_nil_r. split_and!; done. }
  apply Forall_cons in Hh as [Hd Hh]. destruct (is_signalable (hpid hd)) eqn:Esig; cbn [negb]; [|by apply IH].
  keeps_step. keeps_step. cbn [step]. rewrite Hs, Esig, bool_decide_true by done. cbn [andb negb]. eexists. split; [reflexivity|].
  destruct Hw as (Hk & Hg & Hf).
  assert (forall gp w', seen w' = seen w -> incomplete w' = gp -> is_err (group_result w') = is_err (group_result w) ->
    keeps_ (found_holders s [] (known s) gp) (holder_channel (except_of scope) hs w') (fun r s' => agrees s' r.2 /\ owed_holders s' = owed_holders s ++ r.1 /\
    owed_walk s' = owed_walk s /\ begun s' = begun s /\ moved s' = moved s /\ signalling s' = false /\
    confirmed_now s' = confirmed_now s /\ holding s' = holding s)) as Hskip.
  { intros gp w' H1 H2 H3. eapply keeps_mono; [apply IH; [done|split_and!; cbn; congruence|done]|].
    intros r s' Hr. cbn in Hr. by rewrite app_nil_r in Hr. }
  destruct a as [id| |]; [|by apply Hskip|apply Hskip; cbn; [done|apply orb_true_r|done]].
  case_bool_decide as He; [by apply Hskip|].
  rewrite Hk. destruct (insert_new (seen w) [id]) as [new seen1]. cbn [fst snd]. keeps_step.
  eapply keeps_mono; [apply IH; [done|split_and!; done|done]|]. intros r s' (Ha & Ho & Hrest).
  apply keeps_ret. cbn in *. split; [done|]. split; [by rewrite Ho, app_assoc|done].
Qed.

Lemma any_in_group_ok g hs s :
  pgid m = Some g -> signalling s = false -> Forall (fun hd => hpid hd ∈ holding s) hs ->
  keeps_ s (any_in_group g hs) (fun r s' => known s' = known s /\ gap s' = gap s /\ group_failed s' = group_failed s /\
    owed_holders s' = owed_holders s /\ owed_walk s' = owed_walk s /\ begun s' = begun s /\ moved s' = moved s /\
    signalling s' = false /\ confirmed_now s' = confirmed_now s || r).
Proof.
  intros Hg. revert s. induction hs as [|hd hs IH]; intros s Hs Hh; cbn [any_in_group].
  { apply keeps_ret. rewrite orb_false_r. fields. }
  apply Forall_cons in Hh as [Hd Hh]. destruct (is_signalable (hpid hd)) eqn:Esig; [|by apply IH].
  unfold getpgid. keeps_step. keeps_step. cbn [step]. rewrite Hs, Esig, bool_decide_true by done. cbn [andb negb].
  eexists. split; [reflexivity|]. rewrite Hg. destruct (bool_decide (a = Some g)); [apply keeps_ret; fields|].
  eapply keeps_mono; [by apply IH|]. intros r s' Hr. cbn in Hr. by rewrite orb_false_r in Hr.
Qed.

Lemma confirms_pgid_ok bl hs s :
  signalling s = false -> Forall (fun hd => hpid hd ∈ holding s) hs ->
  keeps_ s (confirms_pgid m bl hs) (fun r s' => known s' = known s /\ gap s' = gap s /\ group_failed s' = group_failed s /\
    owed_holders s' = owed_holders s /\ owed_walk s' = owed_walk s /\ begun s' = begun s /\ moved s' = moved s /\
    signalling s' = false /\ confirmed_now s' = confirmed_now s || r).
Proof.
  intros Hs Hh. unfold confirms_pgid. destruct bl; [apply keeps_ret; rewrite orb_false_r; fields|].
  destruct (pgid m) as [g|] eqn:Eg; [by apply any_in_group_ok|apply keeps_ret; rewrite orb_false_r; fields].
Qed.

Lemma group_channel_ok fire s w :
  signalling s = false -> confirmed_now s = fire -> agrees s w ->
  keeps_ s (group_channel m scope signal fire w) (fun w' s' => agrees s' w' /\ seen w' = seen w /\
    owed_holders s' = owed_holders s /\ owed_walk s' = owed_walk s /\ begun s' = begun s /\ moved s' = moved s).
Proof.
  intros Hs Hc (Hk & Hg & Hf). unfold group_channel. destruct (signals_group scope) eqn:Esc; [|apply keeps_ret; fields].
  destruct fire; [|apply keeps_ret; fields]. cbn [andb]. destruct (pgid m) as [g|] eqn:Eg; [|apply keeps_ret; fields].
  keeps_step. unfold kill_or_term_group.
  apply (keeps_at s (fun h => (UnixGroup.signal_group false g signal (group_answers_of h) (listed_answer h)).2)
    (fun h => GroupKill g signal (UnixGroup.signal_group false g signal (group_answers_of h) (listed_answer h)).1 _)).
  intros h. cbn [step]. rewrite Esc, Eg, Hs, Hc, !bool_decide_true, signal_group_guarded by done. cbn [andb negb].
  eexists. split; [reflexivity|]. apply keeps_ret. cbn. fields. rewrite Hf.
  by destruct (group_result w), ((UnixGroup.signal_group _ _ _ _ _).2).
Qed.

Lemma sent_to_it_ok id now kill : sent_to_it id now (TreeWalk.kill_by_identity id now kill).2 = true.
Proof.
  unfold sent_to_it. apply orb_true_iff. unfold TreeWalk.kill_by_identity. destruct now as [live| |]; [|by left..].
  destruct (base.decide (live = id)) as [->|E]; [|left; by rewrite (bool_decide_false (live = id))].
  rewrite (bool_decide_true (id = id)) by done. destruct (signal_target (pid id)) as [u|] eqn:Eu; [|by left].
  apply signal_target_Some in Eu as [-> _]. right. cbn. by rewrite !bool_decide_true.
Qed.

(** A kill of the process the sweep owes next. *)
Lemma kill_owed id s w ow oh :
  owed_walk s = id :: ow /\ owed_holders s = oh \/ owed_walk s = [] /\ ow = [] /\ owed_holders s = id :: oh /\ shown s = Some (pid id) ->
  agrees s w ->
  keeps_ s (kill_by_identity id signal) (fun o s' => let failed := bool_decide (o = NotAttempted) in
    agrees s' (mark_incomplete failed w) /\ owed_walk s' = ow /\ owed_holders s' = oh /\ begun s' = begun s /\
    moved s' = moved s || negb failed).
Proof.
  intros Ho (Hk & Hg & Hf). unfold kill_by_identity.
  apply (keeps_at s (fun h => (TreeWalk.kill_by_identity id (resolve_answer h (pid id)) (send_answer h)).1)
    (fun h => Kill id signal (resolve_answer h (pid id)) (TreeWalk.kill_by_identity id (resolve_answer h (pid id)) (send_answer h)))).
  intros h. pose proof (sent_to_it_ok id (resolve_answer h (pid id)) (send_answer h)) as Hs.
  destruct (TreeWalk.kill_by_identity _ _ _) as [o sent]. cbn [step fst snd] in *. rewrite Hs, bool_decide_true by done. cbn [andb].
  destruct Ho as [[-> ->]|(-> & -> & -> & ->)]; rewrite !bool_decide_true by done; cbn [andb]; (eexists; split; [reflexivity|]);
    cbn; fields; by rewrite Hg.
Qed.

Lemma kill_walk_ok ids s w :
  owed_walk s = ids -> agrees s w ->
  keeps_ s (kill_walk signal ids (moved s) w) (fun r s' => agrees s' r.2 /\ owed_walk s' = [] /\ owed_holders s' = owed_holders s /\
    begun s' = begun s /\ moved s' = r.1).
Proof.
  revert s w. induction ids as [|id ids IH]; intros s w Ho Ha; cbn [kill_walk]; [apply keeps_ret; fields|].
  keeps_step. eapply keeps_mono; [apply (kill_owed id s w ids (owed_holders s)); [by left|done]|].
  cbn zeta. intros o s' (Ha' & Hw & Hh & Hb & Hm).
  destruct (bool_decide (o = NotAttempted)); rewrite ?orb_false_r, ?orb_true_r in Hm; cbn [negb] in Hm.
  - rewrite ?orb_false_r in Hm. rewrite <- Hm. eapply keeps_mono; [by apply IH|]. intros r s'' (? & ? & ? & ? & ?). fields.
  - rewrite ?orb_true_r in Hm. rewrite <- Hm. eapply keeps_mono; [apply IH; [done|]|].
    + destruct Ha' as (? & Hg & ?). split_and!; try done. cbn in Hg. by rewrite orb_false_r in Hg.
    + intros r s'' (? & ? & ? & ? & ?). fields.
Qed.

Lemma kill_holder_ok id ids s w :
  owed_walk s = [] -> owed_holders s = id :: ids -> agrees s w ->
  keeps_ s (kill_holder m id signal) (fun stays s' => agrees s' (mark_incomplete stays w) /\ owed_walk s' = [] /\ owed_holders s' = ids /\
    begun s' = begun s /\ moved s' = moved s || negb stays).
Proof.
  intros Hw Hh (Hk & Hg & Hf). unfold kill_holder. keeps_step. eapply keeps_mono; [apply holds_marker_query_ok|].
  intros q s' (hold & sh & -> & Hsh). destruct q.
  - rewrite (Hsh eq_refl). keeps_step. eapply keeps_mono; [apply (kill_owed id _ w [] ids); [by right|done]|].
    cbn zeta. intros o s' (? & ? & ? & ? & ?). by apply keeps_ret.
  - keeps_step. eapply keeps_note; [cbn; by rewrite Hw, Hh, bool_decide_true|]. apply keeps_ret. fields.
  - keeps_step. eapply keeps_note; [cbn; by rewrite Hw, Hh, bool_decide_true|]. apply keeps_ret. fields.
Qed.

Lemma kill_holders_ok ids s w :
  owed_walk s = [] -> owed_holders s = ids -> agrees s w ->
  keeps_ s (kill_holders m signal ids (moved s) w) (fun r s' => agrees s' r.2 /\ owed_walk s' = [] /\ owed_holders s' = [] /\
    begun s' = begun s /\ moved s' = r.1).
Proof.
  revert s w. induction ids as [|id ids IH]; intros s w Hw Hh Ha; cbn [kill_holders]; [apply keeps_ret; fields|].
  keeps_step. eapply keeps_mono; [by apply (kill_holder_ok id ids s w)|]. intros [] s' (Ha' & Hw' & Hh' & Hb & Hm); cbn [negb] in Hm.
  - rewrite ?orb_false_r in Hm. rewrite <- Hm. eapply keeps_mono; [by apply IH|]. intros r s'' (? & ? & ? & ? & ?). fields.
  - rewrite ?orb_true_r in Hm. rewrite <- Hm. eapply keeps_mono; [apply IH; [done|done|]|].
    + destruct Ha' as (? & Hg & ?). split_and!; try done. cbn in Hg. by rewrite orb_false_r in Hg.
    + intros r s'' (? & ? & ? & ? & ?). fields.
Qed.

(** One pass, from a state that owes nothing and may begin it. *)
Lemma sweep_pass_ok s w :
  owed_walk s = [] -> owed_holders s = [] -> negb (begun s) || moved s = true -> agrees s w ->
  keeps_ s (sweep_pass m scope signal (negb (begun s)) w) (fun r s' => agrees s' r.2 /\ owed_walk s' = [] /\ owed_holders s' = [] /\
    begun s' = true /\ moved s' = r.1).
Proof.
  intros Hw Hh Hgo (Hk & Hg & Hf). unfold sweep_pass, snapshot. keeps_step. keeps_step. destruct a as [pids parents].
  cbn [step fst snd]. rewrite Hw, Hh, Hgo, bool_decide_true by done. cbn [andb]. eexists. split; [reflexivity|].
  set (bl := bool_decide (pids = [])). set (s1 := pass_begun m scope s bl). keeps_step.
  eapply keeps_mono; [apply (walk_channel_ok s1 bl parents (mark_incomplete bl w) (known s)); try done; cbn; congruence|].
  intros [new_walk w1] s2 (Ha2 & Ho2 & Hb2 & Hm2 & Hs2 & Hc2 & Hoh2 & Hhd2). cbn [fst snd] in *. keeps_step.
  eapply keeps_mono with (Q := fun hs s' => exists hold sh, s' = looked s2 hold sh /\ Forall (fun hd => hpid hd ∈ hold) hs).
  { destruct bl; [apply keeps_ret; exists (holding s2), (shown s2); split; [by destruct s2|constructor]|].
    eapply keeps_mono; [apply holders_ok|]. intros hs s' (hold & sh & -> & _ & ?). by exists hold, sh. }
  intros hs s3 (hold & sh & -> & Hhs). keeps_step.
  eapply keeps_mono; [apply (holder_channel_ok hs (looked s2 hold sh) w1); done|].
  intros [new_holders w2] s4 (Ha4 & Ho4 & Hw4 & Hb4 & Hm4 & Hs4 & Hc4 & Hhd4). cbn [fst snd] in *. keeps_step.
  eapply keeps_mono; [apply (confirms_pgid_ok bl hs s4); [done|by rewrite Hhd4]|].
  intros cf s5 (Hk5 & Hg5 & Hf5 & Ho5 & Hw5 & Hb5 & Hm5 & Hs5 & Hc5). keeps_step.
  assert (agrees s5 w2) as Ha5 by (destruct Ha4 as (? & ? & ?); fields).
  eapply keeps_mono; [apply (group_channel_ok (negb (begun s) || cf) s5 w2); [done| |done]|].
  { rewrite Hc5, Hc4. cbn [looked confirmed_now]. by rewrite Hc2. }
  intros w3 s6 (Ha6 & _ & Ho6 & Hw6 & Hb6 & Hm6). keeps_step.
  assert (moved s6 = false) as Em by (rewrite Hm6, Hm5, Hm4; cbn; by rewrite Hm2). rewrite <- Em.
  eapply keeps_mono; [apply (kill_walk_ok new_walk s6 w3); [|done]|].
  { rewrite Hw6, Hw5, Hw4. cbn. by rewrite Ho2. }
  intros [mv w4] s7 (Ha7 & Hw7 & Ho7 & Hb7 & Hm7). cbn [fst snd] in *. rewrite <- Hm7.
  eapply keeps_mono; [apply (kill_holders_ok new_holders s7 w4); [done| |done]|].
  { rewrite Ho7, Ho6, Ho5, Ho4. cbn. by rewrite Hoh2. }
  intros r s8 (Ha8 & Hw8 & Ho8 & Hb8 & Hm8). fields. rewrite Hb8, Hb7, Hb6, Hb5, Hb4. cbn. by rewrite Hb2.
Qed.
End lemmas.

(** ** The automaton's account of a trace *)

Lemma insert_new_spec ids kn :
  (insert_new kn ids).2 ≡ₚ (insert_new kn ids).1 ++ kn /\ (NoDup kn -> NoDup (insert_new kn ids).2) /\
  (forall id, id ∈ ids -> id ∈ (insert_new kn ids).2) /\ (forall id, id ∈ (insert_new kn ids).1 -> id ∈ ids).
Proof.
  revert kn. induction ids as [|id ids IH]; intros kn; cbn [insert_new].
  { split_and!; [done|done|set_solver|set_solver]. }
  case_bool_decide as Hin.
  - destruct (IH kn) as (Hp & Hn & Hi & Ho). split_and!; [done|done| |set_solver].
    intros x [->|Hx]%elem_of_cons; [|by apply Hi]. rewrite Hp. set_solver.
  - destruct (IH (id :: kn)) as (Hp & Hn & Hi & Ho). destruct (insert_new (id :: kn) ids) as [new kn']. cbn [fst snd] in *.
    split_and!; [|intros Hk; apply Hn; by constructor| |set_solver].
    + rewrite Hp. cbn. by rewrite Permutation_middle.
    + intros x [->|Hx]%elem_of_cons; [|by apply Hi]. rewrite Hp. set_solver.
Qed.

(** The processes a trace deals with, and those its holders resolved to. *)
Definition dealt (t : list Ev) : list ProcessId :=
  omap (fun e => match e with Kill id _ _ _ | LogNotHeld id | LogDenied id => Some id | _ => None end) t.

Definition resolved (t : list Ev) : list ProcessId :=
  omap (fun e => match e with Resolve _ (Found id) => Some id | _ => None end) t.

Section account.
Context (m : Marker) (scope : Scope) (signal : Z) (signalable : Z -> bool).
Notation step_ := (step m scope signal signalable).

(** What was found is owed or dealt with, once each. *)
Definition accounted (s : St) (t : list Ev) : Prop :=
  known s ≡ₚ owed_walk s ++ owed_holders s ++ dealt t /\ NoDup (known s) /\
  forall id, id ∈ resolved t -> id ∈ known s \/ Some id = except_of scope.

Lemma accounted_settled s t w rest mv gp e id :
  owed_walk s ++ owed_holders s = id :: (w ++ rest) -> dealt [e] = [id] -> resolved [e] = [] ->
  accounted s t -> accounted (settled s w rest mv gp) (t ++ [e]).
Proof.
  intros Ho Hd Hr (Hp & Hn & Hi). unfold accounted, dealt, resolved in *. cbn [settled known owed_walk owed_holders]. rewrite !omap_app, Hd, Hr, app_nil_r.
  split; [|by split]. rewrite Hp, !app_assoc, Ho. cbn. by rewrite Permutation_cons_append, <- !app_assoc.
Qed.

Lemma accounted_same s s' t e :
  known s' = known s -> owed_walk s' = owed_walk s -> owed_holders s' = owed_holders s -> dealt [e] = [] ->
  (forall id, id ∈ resolved [e] -> Some id = except_of scope) -> accounted s t -> accounted s' (t ++ [e]).
Proof.
  intros Hk Hw Hh Hd Hr (Hp & Hn & Hi). unfold accounted, dealt, resolved in *. rewrite !omap_app, Hd, Hk, Hw, Hh, app_nil_r.
  split; [done|]. split; [done|]. intros id [Hin|Hin]%elem_of_app; auto.
Qed.

Lemma accounted_new s s' t e ids ow oh :
  known s' = (insert_new (known s) ids).2 -> owed_walk s' = owed_walk s ++ ow -> owed_holders s' = owed_holders s ++ oh ->
  ow ++ oh = (insert_new (known s) ids).1 -> dealt [e] = [] -> (forall id, id ∈ resolved [e] -> id ∈ ids) ->
  accounted s t -> accounted s' (t ++ [e]).
Proof.
  intros Hk Hw Hh Hnew Hd Hr (Hp & Hn & Hi). destruct (insert_new_spec ids (known s)) as (Hp' & Hn' & Hi' & _).
  unfold accounted, dealt, resolved in *. rewrite !omap_app, Hd, Hk, Hw, Hh, app_nil_r. split; [|split; [by apply Hn'|]].
  - rewrite Hp', <- Hnew, Hp. solve_Permutation.
  - intros id [Hin|Hin]%elem_of_app; [|by left; auto]. destruct (Hi id Hin) as [H|H]; [left|by right]. rewrite Hp'. set_solver.
Qed.

Lemma accounted_begun s t e bl :
  owed_walk s = [] -> owed_holders s = [] -> dealt [e] = [] -> resolved [e] = [] ->
  accounted s t -> accounted (pass_begun m scope s bl) (t ++ [e]).
Proof.
  intros Hw Hh Hd Hr Ha. destruct (root_found m scope (known s)) as [new kn] eqn:E.
  assert (exists ids, (new, kn) = insert_new (known s) ids) as [ids Hids].
  { unfold root_found in E. destruct (root m) as [r|]; [|by exists []]. destruct (walks scope); [by exists [r]|by exists []]. }
  apply (accounted_new s _ t e ids new []); try done; cbn [pass_begun known owed_walk owed_holders]; rewrite ?E, ?Hw, ?Hh, ?app_nil_r; try done.
  all: first [by rewrite <- Hids | rewrite Hr; set_solver].
Qed.

(** Every accepted call keeps the account. *)
Lemma step_accounted s e s' t : step_ s e = Some s' -> accounted s t -> accounted s' (t ++ [e]).
Proof.
  intros Hs Ha. destruct e as [q|pids parents|found|p q|p fd q|p r|p r|g sg steps r|id sg now [o sent]|id|id]; cbn [step] in Hs.
  - destruct (begun s); [done|]. injection Hs as <-. apply (accounted_same s); try done. set_solver.
  - destruct (bool_decide_reflect (owed_walk s = [])); [|done]. destruct (bool_decide_reflect (owed_holders s = [])); [|done]. cbn in Hs.
    destruct (_ || _); [|done]. injection Hs as <-. by apply accounted_begun.
  - destruct (_ && _); [|done]. injection Hs as <-. eapply (accounted_new s _ t _ found _ []); try done; cbn; rewrite ?app_nil_r; try done. set_solver.
  - injection Hs as <-. apply (accounted_same s); try done. set_solver.
  - injection Hs as <-. destruct (names_marker m q); (apply (accounted_same s); try done; set_solver).
  - destruct (_ && _); [|done]. injection Hs as <-. destruct r as [id| |].
    + case_bool_decide as He.
      * apply (accounted_same s); try done; cbn; rewrite ?app_nil_r; try done. by intros x ->%list_elem_of_singleton.
      * eapply (accounted_new s _ t _ [id] []); try done; cbn; rewrite ?app_nil_r; done.
    + apply (accounted_same s); try done; cbn; rewrite ?app_nil_r; try done. set_solver.
    + apply (accounted_same s); try done; cbn; rewrite ?app_nil_r; try done. set_solver.
  - destruct (_ && _); [|done]. injection Hs as <-. apply (accounted_same s); try done. set_solver.
  - destruct (_ && _); [|done]. injection Hs as <-. apply (accounted_same s); try done. set_solver.
  - destruct (_ && _); [|done]. destruct (owed_walk s) as [|w ws] eqn:Ew.
    + destruct (owed_holders s) as [|w hs] eqn:Eh; [done|]. case_bool_decide as Hw; [subst w|done]. destruct (bool_decide _); [|done]. injection Hs as <-.
      eapply accounted_settled; [by rewrite Ew, Eh|done..].
    + case_bool_decide as Hw; [subst w|done]. injection Hs as <-. eapply accounted_settled; [by rewrite Ew|done..].
  - destruct (owed_walk s) as [|w ws] eqn:Ew; [|done]. destruct (owed_holders s) as [|w hs] eqn:Eh; [done|].
    case_bool_decide as Hw; [subst w|done]. injection Hs as <-. eapply accounted_settled; [by rewrite Ew, Eh|done..].
  - destruct (owed_walk s) as [|w ws] eqn:Ew; [|done]. destruct (owed_holders s) as [|w hs] eqn:Eh; [done|].
    case_bool_decide as Hw; [subst w|done]. injection Hs as <-. eapply accounted_settled; [by rewrite Ew, Eh|done..].
Qed.

Lemma accepts_accounted s t t' s' : accepts step_ s t' = Some s' -> accounted s t -> accounted s' (t ++ t').
Proof.
  revert s t. induction t' as [|e t' IH]; intros s t; cbn [accepts]; [intros [= <-]; by rewrite app_nil_r|].
  destruct (step_ s e) as [s1|] eqn:E; [|done]. cbn. intros Ht Ha. rewrite cons_middle, app_assoc. eapply IH; [exact Ht|]. by eapply step_accounted.
Qed.

Lemma accounted_start : accounted start [].
Proof. split; [done|]. split; [constructor|]. cbn. set_solver. Qed.

(** A signal of the sweep, as the trace shows it. *)
Definition in_scope (e : Ev) : Prop :=
  match e with
  | Walk _ => walks scope = true
  | GroupKill g sg steps _ => signals_group scope = true /\ Some g = pgid m /\ sg = signal /\ guarded false steps = true
  | Kill id sg now (_, sent) => sg = signal /\ (sent = [] \/ now = Found id /\ sent = [pid id])
  | Resolve p _ | GetPgid p _ => signalable p = true
  | _ => True
  end.

Lemma step_in_scope s e s' : step_ s e = Some s' -> in_scope e.
Proof.
  destruct e as [q|pids parents|found|p q|p fd q|p r|p r|g sg steps r|id sg now [o sent]|id|id]; cbn [step in_scope]; try done; intros Hs.
  - by destruct (walks scope).
  - destruct (signalable p); [done|]. by rewrite andb_false_r in Hs.
  - destruct (signalable p); [done|]. by rewrite andb_false_r in Hs.
  - destruct (signals_group scope); [|done]. case_bool_decide; [|done]. case_bool_decide; [|done]. cbn in Hs.
    destruct (guarded false steps); [done|]. by rewrite !andb_false_r in Hs.
  - case_bool_decide; [|done]. split; [done|]. unfold sent_to_it in Hs. case_bool_decide; [by left|]. right. cbn in Hs.
    case_bool_decide; [|done]. by case_bool_decide.
Qed.

Lemma accepts_in_scope s t s' : accepts step_ s t = Some s' -> Forall in_scope t.
Proof.
  revert s. induction t as [|e t IH]; intros s; cbn [accepts]; [constructor|].
  destruct (step_ s e) as [s1|] eqn:E; [|done]. cbn. intros Ht. constructor; [by eapply step_in_scope|by eapply IH].
Qed.
End account.

Section sweeps.
Context `{Sys} (m : Marker) (scope : Scope).

(** A sweep that ends owes nothing. *)
Definition at_rest (s : St) : Prop := owed_walk s = [] /\ owed_holders s = [].

Lemma sweep_loop_ok fuel s w :
  at_rest s -> negb (begun s) || moved s = true -> agrees s w ->
  keeps (step m scope SIGKILL is_signalable) s (sweep_loop m scope fuel (negb (begun s)) w) (fun r s' => at_rest s' /\
    forall w', r = Some w' -> agrees s' w' /\ begun s' = true /\ moved s' = false).
Proof.
  revert s w. induction fuel as [|fuel IH]; intros s w Hr Hgo Ha; cbn [sweep_loop]; [by apply keeps_ret|].
  destruct Hr as [Hw Hh]. keeps_step. eapply keeps_mono; [by apply sweep_pass_ok|].
  intros [mv w'] s' (Ha' & Hw' & Hh' & Hb & Hm). cbn [fst snd] in *. destruct mv.
  - assert (negb (begun s') || moved s' = true) as Hgo' by (by rewrite Hm, orb_true_r).
    pose proof (IH s' w' (conj Hw' Hh') Hgo' Ha') as Hn. rewrite Hb in Hn. exact Hn.
  - apply keeps_ret. split; [done|]. by intros ? [= <-].
Qed.

Lemma finish_sweep_Ok gr inc : finish_sweep gr inc = Ok tt <-> inc = false /\ is_err gr = false.
Proof. destruct inc, gr as [[]|e]; cbn; naive_solver. Qed.

(** What an answer says of the state the sweep ends in. *)
Definition honest (s : St) (v : result Error unit) : Prop :=
  v = Ok tt <-> begun s = true /\ gap s = false /\ group_failed s = false.

Lemma check_then {A} signal (k : result Error unit -> Hist Ev A) Q :
  (forall e, keeps (step m scope signal is_signalable) start (k (Err e)) Q) -> keeps (step m scope signal is_signalable) start (k (Ok tt)) Q ->
  keeps (step m scope signal is_signalable) start (bind (check_read_end_still_valid m) k) Q.
Proof.
  intros He Hok. keeps_step. unfold check_read_end_still_valid. keeps_step. keeps_step. eexists. split; [reflexivity|].
  apply keeps_ret. destruct a as [i| |]; [|apply He..]. destruct (_ =? _); [exact Hok|apply He].
Qed.

Lemma hard_kill_ok fuel :
  keeps (step m scope SIGKILL is_signalable) start (hard_kill_impl m scope fuel) (fun r s' => at_rest s' /\
    forall v, r = Some v -> moved s' = false /\ honest s' v).
Proof.
  unfold hard_kill_impl. apply check_then; [intros e; apply keeps_ret; split; [done|]; intros ? [= <-]; split; [done|]; split; [done|by intros [? _]]|].
  keeps_step. eapply keeps_mono; [by apply (sweep_loop_ok fuel start fresh)|]. intros r s' [Hr Hw]. apply keeps_ret. split; [done|].
  intros v Hv. destruct r as [w|]; [|done]. injection Hv as <-. destruct (Hw w eq_refl) as ((_ & Hg & Hf) & Hb & Hm).
  split; [done|]. unfold honest. rewrite finish_sweep_Ok, <- Hg, <- Hf. naive_solver.
Qed.

Lemma terminate_ok :
  keeps (step m scope SIGTERM is_signalable) start (terminate_impl m scope) (fun v s' => at_rest s' /\ honest s' v).
Proof.
  unfold terminate_impl. apply check_then; [intros e; apply keeps_ret; split; [done|]; split; [done|by intros [? _]]|].
  keeps_step. eapply keeps_mono; [by apply (sweep_pass_ok m scope SIGTERM start fresh)|].
  intros r s' ((_ & Hg & Hf) & Hw & Hh & Hb & Hm). apply keeps_ret. split; [done|]. unfold honest. rewrite finish_sweep_Ok, <- Hg, <- Hf. naive_solver.
Qed.

(** What a trace of a sweep shows: every signal in its scope, no process dealt with twice, none found
    and passed over. *)
Definition orderly (signal : Z) (t : list Ev) (s : St) : Prop :=
  accepts (step m scope signal is_signalable) start t = Some s /\ Forall (in_scope m scope signal is_signalable) t /\
  NoDup (dealt t) /\ forall id, id ∈ resolved t -> id ∈ dealt t \/ Some id = except_of scope.

Lemma orderly_of signal t s :
  accepts (step m scope signal is_signalable) start t = Some s -> at_rest s -> orderly signal t s.
Proof.
  intros Ht [Hw Hh]. destruct (accepts_accounted m scope signal is_signalable start [] t s Ht (accounted_start scope)) as (Hp & Hn & Hi).
  rewrite Hw, Hh in Hp. cbn [app] in Hp. split; [done|]. split; [by eapply accepts_in_scope|]. rewrite <- Hp. split; [done|].
  intros id Hid. destruct (Hi id Hid) as [Hk|Hk]; [left; by rewrite <- Hp|by right].
Qed.

End sweeps.

(** * Termination *)

Section ends.
Context `{Sys} (m : Marker) (scope : Scope) (U : list ProcessId).
(** The processes that the pids ever name; and the root. *)
Hypothesis named : forall h p id, resolve_answer h p = Found id -> pid id = p /\ id ∈ U.
Hypothesis root_named : forall r, root m = Some r -> r ∈ U.

Definition within (w : Sweep) : Prop := NoDup (seen w) /\ forall id, id ∈ seen w -> id ∈ U.

Lemma within_length w : within w -> (length (seen w) <= length U)%nat.
Proof. intros [Hn Hs]. by apply submseteq_length, NoDup_submseteq. Qed.

Lemma insert_within kn ids :
  NoDup kn -> (forall id, id ∈ kn -> id ∈ U) -> (forall id, id ∈ ids -> id ∈ U) ->
  NoDup (insert_new kn ids).2 /\ (forall id, id ∈ (insert_new kn ids).2 -> id ∈ U) /\
  length (insert_new kn ids).2 = (length kn + length (insert_new kn ids).1)%nat.
Proof.
  intros Hn Hk Hi. destruct (insert_new_spec ids kn) as (Hp & Hn' & _ & Ho). split; [by apply Hn'|]. split.
  - intros id. rewrite Hp, elem_of_app. intros [Hx|Hx]; auto.
  - rewrite Hp, length_app. lia.
Qed.

(** [r] found as many processes as it added. *)
Definition adds (w : Sweep) (r : list ProcessId * Sweep) : Prop := within r.2 /\ length (seen r.2) = (length (seen w) + length r.1)%nat.

Lemma walk_channel_adds bl parents w h : within w -> wp (walk_channel m scope bl parents w) h (fun r _ => adds w r).
Proof.
  intros [Hn Hs]. unfold walk_channel. destruct (root m) as [r|] eqn:Er; [|apply wp_ret; split; [done|cbn; lia]].
  destruct (walks scope); [|apply wp_ret; split; [done|cbn; lia]].
  destruct (insert_within (seen w) [r] Hn Hs) as (Hn1 & Hs1 & Hl1).
  { intros id ->%list_elem_of_singleton. by apply root_named. }
  destruct (insert_new (seen w) [r]) as [first seen1]. cbn [fst snd] in *. destruct bl; [apply wp_ret; split; [done|done]|].
  wp_step. unfold descendants. wp_step.
  destruct (descendants_live r parents (resolve_answer h)) as (ids & He & _ & Hb); [intros p id Hp; by apply (named h)|]. rewrite He. change (default [] (Some ids)) with ids.
  destruct (insert_within seen1 ids Hn1 Hs1) as (Hn2 & Hs2 & Hl2).
  { intros id Hid. apply Hb in Hid as [_ Hid]. by apply (named h (pid id)). }
  destruct (insert_new seen1 ids) as [more seen2]. cbn [fst snd] in *. apply wp_ret. split; [done|]. cbn. rewrite length_app. lia.
Qed.

Lemma holder_channel_adds hs w h : within w -> wp (holder_channel (except_of scope) hs w) h (fun r _ => adds w r).
Proof.
  revert w h. induction hs as [|hd hs IH]; intros w h Hw; cbn [holder_channel]; [apply wp_ret; split; [done|cbn; lia]|].
  destruct (negb _); [by apply IH|]. wp_step. wp_step. destruct (resolve_answer h (hpid hd)) as [id| |] eqn:Ea; [|by apply IH|by apply (IH (mark_incomplete true w))].
  case_bool_decide; [by apply IH|]. destruct Hw as [Hn Hs]. destruct (insert_within (seen w) [id] Hn Hs) as (Hn1 & Hs1 & Hl1).
  { intros x ->%list_elem_of_singleton. by apply (named _ _ _ Ea). }
  destruct (insert_new (seen w) [id]) as [new seen1]. cbn [fst snd] in *. wp_step. eapply wp_mono; [by apply IH|].
  intros r t [Hw' Hl]. apply wp_ret. split; [done|]. cbn in *. rewrite length_app. lia.
Qed.

(** Kills leave the set of processes found, and resolve none of none. *)
Definition kept (w : Sweep) (ids : list ProcessId) (progressed : bool) (r : bool * Sweep) : Prop :=
  seen r.2 = seen w /\ (r.1 = true -> progressed = true \/ ids <> []).

Lemma kill_walk_kept ids pr w h : wp (kill_walk SIGKILL ids pr w) h (fun r _ => kept w ids pr r).
Proof.
  revert pr w h. induction ids as [|id ids IH]; intros pr w h; cbn [kill_walk]; [apply wp_ret; split; [done|by left]|].
  wp_step. eexists _, _. split; [reflexivity|].
  destruct (bool_decide _); (eapply wp_mono; [apply IH|]; intros r t [Hs _]; split; [done|by right]).
Qed.

Lemma kill_holder_any id h : wp (kill_holder m id SIGKILL) h (fun _ _ => True).
Proof.
  unfold kill_holder. wp_step. eapply wp_mono; [apply (holds_marker_query_ok m scope SIGKILL start (pid id) h)|]. intros [] t _.
  - wp_step. eexists _, _. split; [reflexivity|]. by apply wp_ret.
  - wp_step. wp_step. by apply wp_ret.
  - wp_step. wp_step. by apply wp_ret.
Qed.

Lemma kill_holders_kept ids pr w h : wp (kill_holders m SIGKILL ids pr w) h (fun r _ => kept w ids pr r).
Proof.
  revert pr w h. induction ids as [|id ids IH]; intros pr w h; cbn [kill_holders]; [apply wp_ret; split; [done|by left]|].
  wp_step. eapply wp_mono; [apply kill_holder_any|]. intros [] t _; (eapply wp_mono; [apply IH|]; intros r t' [Hs _]; split; [done|by right]).
Qed.

Lemma group_channel_keeps fire w h : wp (group_channel m scope SIGKILL fire w) h (fun w' _ => seen w' = seen w).
Proof.
  unfold group_channel. destruct (_ && fire); [|by apply wp_ret]. destruct (pgid m) as [g|]; [|by apply wp_ret].
  wp_step. eexists _, _. split; [reflexivity|]. by apply wp_ret.
Qed.

Lemma any_in_group_any g hs h : wp (any_in_group g hs) h (fun _ _ => True).
Proof.
  revert h. induction hs as [|hd hs IH]; intros h; cbn [any_in_group]; [by apply wp_ret|]. destruct (is_signalable _); [|apply IH].
  wp_step. unfold getpgid. wp_step. destruct (bool_decide _); [by apply wp_ret|apply IH].
Qed.

(** A pass that resolved a process found a new one. *)
Lemma sweep_pass_grows first w h :
  within w -> wp (sweep_pass m scope SIGKILL first w) h (fun r _ => within r.2 /\ (length (seen w) <= length (seen r.2))%nat /\
    (r.1 = true -> (length (seen w) < length (seen r.2))%nat)).
Proof.
  intros Hw. unfold sweep_pass, snapshot. wp_step. wp_step. destruct (snapshot_answer h) as [pids parents]. wp_step.
  eapply wp_mono; [apply walk_channel_adds; exact Hw|]. intros [nw w1] t1 [Hw1 Hl1]. cbn [fst snd] in *. wp_step.
  eapply wp_mono with (P := fun _ _ => True).
  { destruct (bool_decide _); [by apply wp_ret|]. eapply wp_mono; [apply (holders_ok m scope SIGKILL start)|done]. }
  intros hs t2 _. wp_step. eapply wp_mono; [by apply holder_channel_adds|]. intros [nh w2] t3 [Hw2 Hl2]. cbn [fst snd] in *. wp_step.
  eapply wp_mono with (P := fun _ _ => True).
  { unfold confirms_pgid. destruct (bool_decide _); [by apply wp_ret|]. destruct (pgid m); [apply any_in_group_any|by apply wp_ret]. }
  intros cf t4 _. wp_step. eapply wp_mono; [apply group_channel_keeps|]. intros w3 t5 Hw3. wp_step.
  eapply wp_mono; [apply kill_walk_kept|]. intros [p1 w4] t6 [Hs4 Hp4]. cbn [fst snd] in *.
  eapply wp_mono; [apply kill_holders_kept|]. intros [p2 w5] t7 [Hs5 Hp5]. cbn [fst snd] in *.
  assert (seen w5 = seen w2) as E by congruence. unfold within. rewrite E. split; [done|]. cbn in Hl1. split; [lia|].
  intros Hp. assert (nw <> [] \/ nh <> []) as Hne by (destruct (Hp5 Hp) as [Hx|]; [destruct (Hp4 Hx)|]; auto; done).
  destruct nw, nh; cbn in *; [by destruct Hne|lia..].
Qed.

Lemma sweep_loop_ends fuel first w h :
  within w -> (length U < length (seen w) + fuel)%nat -> wp (sweep_loop m scope fuel first w) h (fun r _ => is_Some r).
Proof.
  revert first w h. induction fuel as [|fuel IH]; intros first w h Hw Hf; cbn [sweep_loop].
  { pose proof (within_length w Hw). lia. }
  wp_step. eapply wp_mono; [by apply sweep_pass_grows|]. intros [[] w'] t (Hw' & _ & Hlt); cbn [fst snd] in *; [|apply wp_ret; by eexists].
  eapply wp_mono; [apply IH; [done|]|done]. specialize (Hlt eq_refl). lia.
Qed.

(** C23: A kill of a marked tree ends: its passes outnumber the processes that ever take part by at most
    one, whatever the tree forks, whichever kills are refused and whatever a pass cannot read. *)
Theorem hard_kill_ends h : wp (hard_kill_impl m scope (S (length U))) h (fun r _ => is_Some r).
Proof.
  unfold hard_kill_impl, check_read_end_still_valid. wp_step. wp_step. wp_step. apply wp_ret.
  destruct (read_end_answer h) as [i| |]; [|by apply wp_ret..]. destruct (_ =? _); [|by apply wp_ret]. wp_step.
  eapply wp_mono; [apply sweep_loop_ends; [split; [constructor|set_solver]|cbn; lia]|]. intros r t [w ->]. by apply wp_ret.
Qed.
End ends.

(** * A tree of three: the root 100, its child 101, and 102, reparented but holding the marker *)

Definition demo_ids : list ProcessId := [process_id 1 1; process_id 100 5; process_id 101 6; process_id 102 7].

Definition demo_gone (h : list Ev) (p : Z) : bool :=
  existsb (fun e => match e with Kill id _ _ (Terminated, _) => pid id =? p | _ => false end) h.

Definition demo_sys : Sys := {|
  own_pid := 50;
  read_end_answer h := IFound (pipe_fd_info 78 77 0);
  snapshot_answer h := (filter (fun p => demo_gone h p = false) [1; 100; 101; 102], [(101, 100); (102, 1)]);
  resolve_answer h p := if demo_gone h p then Gone else match list_find (fun id => pid id = p) demo_ids with Some (_, id) => Found id | None => Gone end;
  fds_answer h p := if demo_gone h p then PGone else PFound [64];
  info_answer h p fd := IFound (pipe_fd_info (if p =? 1 then 5 else 77) 0 0);
  pgid_answer h p := if p =? 102 then Some 102 else Some 100;
  group_answers_of h := group_answers None (root_answer None (Some true)) (Ok tt) None (root_answer None (Some true)) (Ok tt);
  listed_answer h := Ok [];
  send_answer h p := Ok tt |}.

Definition demo_marker : Marker := marker 77 78 (Some (process_id 100 5)) (Some 100).

Lemma demo_named h p id : @resolve_answer demo_sys h p = Found id -> pid id = p /\ id ∈ demo_ids.
Proof.
  cbn [resolve_answer demo_sys]. destruct (demo_gone h p); [done|]. destruct (list_find _ demo_ids) as [[i x]|] eqn:E; [|done].
  intros [= ->]. apply list_find_Some in E as (Hl & Hp & _). split; [done|]. by apply list_elem_of_lookup_2 in Hl.
Qed.

Lemma hard_kill_ends_witness :
  exists t, @hard_kill_impl demo_sys demo_marker Full 5 [] = (Some (Ok tt), t) /\ pid <$> dealt t = [100; 101; 102] /\
    omap (fun e => match e with GroupKill g _ steps _ => Some (g, steps) | _ => None end) t = [(100, [UnixGroup.Check (Ok tt); GroupSend ByNumber SIGKILL])].
Proof.
  assert (forall r, root demo_marker = Some r -> r ∈ demo_ids) as Hroot by (intros r [= <-]; right; left).
  destruct (@hard_kill_ends demo_sys demo_marker Full demo_ids demo_named Hroot []) as (r & t & Hr & _).
  exists t. unfold runs in Hr. change (S (length demo_ids)) with 5%nat in Hr. cbn [app] in Hr. rewrite Hr.
  assert (t = (@hard_kill_impl demo_sys demo_marker Full 5 []).2) as -> by (by rewrite Hr).
  assert (r = (@hard_kill_impl demo_sys demo_marker Full 5 []).1) as -> by (by rewrite Hr).
  split; [|split]; vm_compute; reflexivity.
Defined.

(** The same tree with a fourth member, 103, reparented as 102 is, whose descriptors the kernel does not show:
    no channel finds it, and the sweep that leaves it running answers Ok. *)
Definition denied_sys : Sys := {|
  own_pid := 50;
  read_end_answer := @read_end_answer demo_sys;
  snapshot_answer h := (filter (fun p => demo_gone h p = false) [1; 100; 101; 102; 103], [(101, 100); (102, 1); (103, 1)]);
  resolve_answer h p := if p =? 103 then Found (process_id 103 8) else @resolve_answer demo_sys h p;
  fds_answer h p := if p =? 103 then PDenied else @fds_answer demo_sys h p;
  info_answer := @info_answer demo_sys;
  pgid_answer := @pgid_answer demo_sys;
  group_answers_of := @group_answers_of demo_sys;
  listed_answer := @listed_answer demo_sys;
  send_answer := @send_answer demo_sys |}.

Example denied_member_unseen :
  let '(v, t) := @hard_kill_impl denied_sys demo_marker Full 5 [] in
  v = Some (Ok tt) /\ pid <$> dealt t = [100; 101; 102] /\
  omap (fun e => match e with ListFds 103 q => Some q | _ => None end) t = [PDenied; PDenied].
Proof. vm_compute. split_and!; reflexivity. Qed.
