(* ===== verification/ChildCalls.v ===== *)
(** What a [Child] asks of its root's handle, of the root's number and of its tree's mechanism:
    [Attached], [TreeKilled] and the sends of [src/containment/dispatch.rs], [Containment] and
    [TreeDrain] of [src/containment.rs], and the [ReapHold] of [src/child/owned.rs]. Every call is
    recorded with its answer, which is the system's; the handle itself is modelled in Owned, and the
    sends of the mechanisms in UnixGroup, Leaf and TreeWalk. *)
From S2P Require Import Prelude Identity IoErrors CrateError History OsChild.
Local Open Scope Z_scope.

Inductive Platform := Linux | Macos.

Inductive TreeSignal := TKill | TTerm.

(** [Attached]: a leaf and a job are their mechanisms' own; a marker is its root and its group. *)
Inductive Attached :=
| AttachedNone
| AttachedDelegated
| ProcessGroup (pgid : Z)
| Cgroup
| JobObject
| FdMarker (root : option ProcessId) (pgid : option Z)
| WalkFrom (root : ProcessId).

Inductive Containment :=
| CgroupV2_ | JobObject_ | ProcessGroup_ | Session_ | FdMarker_ | TreeWalk_ | Delegated_ | Contained_None.

Inductive TreeDrain := AllMembersExited | AllMarkersClosed | MembersRemain.

#[export] Instance Platform_eq_dec : EqDecision Platform.
Proof. solve_decision. Defined.
#[export] Instance TreeSignal_eq_dec : EqDecision TreeSignal.
Proof. solve_decision. Defined.
#[export] Instance Attached_eq_dec : EqDecision Attached.
Proof. solve_decision. Defined.
#[export] Instance TreeDrain_eq_dec : EqDecision TreeDrain.
Proof. solve_decision. Defined.

Definition can_teardown (c : Containment) : bool :=
  match c with
  | CgroupV2_ | JobObject_ | ProcessGroup_ | Session_ | FdMarker_ | TreeWalk_ => true
  | Contained_None | Delegated_ => false
  end.

(** [Containment::can_observe_drain]. *)
Definition containment_drains (c : Containment) : bool :=
  match c with CgroupV2_ | JobObject_ | FdMarker_ => true | _ => false end.

Definition permits_skipping_sweep (d : TreeDrain) : bool :=
  match d with AllMembersExited => true | AllMarkersClosed | MembersRemain => false end.

Definition is_actionable (a : Attached) : bool :=
  match a with AttachedNone | AttachedDelegated => false | _ => true end.

(** [Attached::can_observe_drain]. *)
Definition can_observe_drain (a : Attached) : bool :=
  match a with Cgroup | JobObject | FdMarker _ _ => true | _ => false end.

Definition is_cgroup (a : Attached) : bool := match a with Cgroup => true | _ => false end.

Definition needs_root_check (a : Attached) : bool := match a with ProcessGroup _ | FdMarker _ _ => true | _ => false end.

(** [named_by_root_number]: whether it says anything. *)
Definition named_by_root_number (a : Attached) : bool :=
  match a with ProcessGroup _ | FdMarker _ _ | WalkFrom _ => true | _ => false end.

(** * Calls *)

(** The kinds of part of a drop's report. *)
Inductive LeftWhat := LeftAlive | LookFailed_ | ReapFailed_ | LaunchdHolds | FrontLeft.

Inductive PartKey := Described | TreeFailed | LeftOf (what : LeftWhat).

#[export] Instance LeftWhat_eq_dec : EqDecision LeftWhat.
Proof. solve_decision. Defined.
#[export] Instance PartKey_eq_dec : EqDecision PartKey.
Proof. solve_decision. Defined.

(** [held]: through a [ReapHold], which has the handle's lock; otherwise the call takes it. *)
Inductive Ev :=
| Hold
| Release
| LookState (held : bool) (a : RootState)
| LookExit (a : result IoError PeekOutcome)
| SignalRoot (held : bool) (s : Sig) (a : result Error Sent)
| Wait (bounded : bool) (a : result Error ChildWaitOutcome)
| WatchExit (a : result Error bool)
| WarnSlow
| IsReaped (a : bool)
| ReadNumber (a : Resolved ProcessId)
| HasMember (a : option bool)
| SendTree (m : Attached) (s : TreeSignal) (a : result Error bool)
| SendHolders (s : TreeSignal) (except : option ProcessId) (a : result Error unit)
| SendGroupAndHolders (s : TreeSignal) (a : result Error unit)
| LeafHolds (a : result IoError bool)
| LeafNames (a : result IoError bool)
| LeafSubtree (a : result IoError unit)
| DropTree (m : Attached)
| Reached (a : result IoError bool)
| WaitDrain (a : result Error TreeDrain)
| Disarm (m : Attached)
| MarkKilled
| Warn (parts : list PartKey)
| WarnSkipped.

Notation H := (Hist Ev).

Class Sys := {
  platform : Platform;
  state_answer : list Ev -> RootState;
  peek_answer : list Ev -> result IoError PeekOutcome;
  signal_answer : list Ev -> Sig -> result Error Sent;
  wait_answer : list Ev -> bool -> result Error ChildWaitOutcome;
  watch_answer : list Ev -> result Error bool;
  reaped_answer : list Ev -> bool;
  number_answer : list Ev -> Resolved ProcessId;
  member_answer : list Ev -> option bool;
  tree_answer : list Ev -> Attached -> TreeSignal -> result Error bool;
  holders_answer : list Ev -> TreeSignal -> option ProcessId -> result Error unit;
  group_and_holders_answer : list Ev -> TreeSignal -> result Error unit;
  leaf_holds_answer : list Ev -> result IoError bool;
  leaf_names_answer : list Ev -> result IoError bool;
  subtree_answer : list Ev -> result IoError unit;
  reached_answer : list Ev -> result IoError bool;
  drain_answer : list Ev -> result Error TreeDrain
}.

Section Calls.
  Context `{Sys}.

(** [OwnedChild::hold], and the hold's drop. *)
Definition hold : H unit := note Hold.
Definition release : H unit := note Release.

(** [OwnedChild::state], and [ReapHold::state]. *)
Definition root_state (held : bool) : H RootState := call state_answer (LookState held).

(** [root_running]: whether the root shows no exit. *)
Definition root_running : H (result IoError bool) :=
  do! p := call peek_answer LookExit in
  ret match p with Ok PeekRunning => Ok true | Ok _ => Ok false | Err e => Err e end.

Definition signal_root (held : bool) (s : Sig) : H (result Error Sent) :=
  call (fun h => signal_answer h s) (SignalRoot held s).

Definition wait (bounded : bool) : H (result Error ChildWaitOutcome) := call (fun h => wait_answer h bounded) (Wait bounded).

(** [exited_by]: the child is watched without the handle's lock. *)
Definition exited_by : H (result Error bool) := call watch_answer WatchExit.

Definition is_reaped : H bool := call reaped_answer IsReaped.

(** [root_identity_now]. *)
Definition root_identity_now : H (Resolved ProcessId) := call number_answer ReadNumber.

Definition has_member : H (option bool) := call member_answer HasMember.

Definition send_tree (m : Attached) (s : TreeSignal) : H (result Error bool) :=
  call (fun h => tree_answer h m s) (SendTree m s).

Definition send_holders (s : TreeSignal) (except : option ProcessId) : H (result Error unit) :=
  call (fun h => holders_answer h s except) (SendHolders s except).

Definition send_group_and_holders (s : TreeSignal) : H (result Error unit) :=
  call (fun h => group_and_holders_answer h s) (SendGroupAndHolders s).

(** [kill_reaches_across_credentials], and [cgroup_names]: only a leaf is asked. *)
Definition kill_reaches_across_credentials (a : Attached) : H (result IoError bool) :=
  if is_cgroup a then call leaf_holds_answer LeafHolds else ret (Ok false).

Definition cgroup_names (a : Attached) : H (result IoError bool) :=
  if is_cgroup a then call leaf_names_answer LeafNames else ret (Ok false).

(** [Attached::wait_drained]. *)
Definition wait_drained (a : Attached) : H (result Error TreeDrain) :=
  if can_observe_drain a then call drain_answer WaitDrain else ret (Err EUnsupported).

(** [TreeKilled::mark], and [is_set]: a handle's flag is set by its own calls. *)
Definition mark : H unit := note MarkKilled.

Definition is_mark (e : Ev) : bool := match e with MarkKilled => true | _ => false end.

Definition is_set : H bool := fun h => (existsb is_mark h, h).

(** ** [Attached]'s sends *)

(** [hard_kill_report]: the result, and whether the kill was complete. *)
Definition hard_kill_report (a : Attached) : H (result Error unit * bool) :=
  match a with
  | AttachedNone | AttachedDelegated => ret (Ok tt, true)
  | WalkFrom _ =>
      do! r := send_tree a TKill in
      ret match r with Ok complete => (Ok tt, complete) | Err e => (Err e, false) end
  | _ =>
      do! r := send_tree a TKill in
      ret match r with Ok _ => (Ok tt, true) | Err e => (Err e, false) end
  end.

Definition hard_kill (a : Attached) : H (result Error unit) := do! r := hard_kill_report a in ret r.1.

Definition hard_kill_marking (a : Attached) : H (result Error unit) :=
  do2! result, complete := hard_kill_report a in
  match result with
  | Ok _ => do! _ := (if complete : bool then mark else ret tt) in ret result
  | Err _ => ret result
  end.

Definition hard_kill_refused_to_walk (a : Attached) (r : result Error unit) : bool :=
  match a, r with WalkFrom _, Err _ => true | _, _ => false end.

(** [Attached::terminate]. *)
Definition terminate_tree (a : Attached) : H (result Error unit) :=
  match a with
  | AttachedNone | AttachedDelegated => ret (Err EUnsupported)
  | _ => do! r := send_tree a TTerm in ret match r with Ok _ => Ok tt | Err e => Err e end
  end.

Definition disarm (a : Attached) : H unit :=
  match a with Cgroup | JobObject => note (Disarm a) | _ => ret tt end.

Definition honor_kill_on_drop (a : Attached) (kill_on_drop : bool) : H unit :=
  if kill_on_drop then ret tt else disarm a.

(** [signal_holders_only]: [None] without a marker. *)
Definition mark_if (b : bool) (s : TreeSignal) (r : result Error unit) : H unit :=
  match r, s with Ok _, TKill => if b then mark else ret tt | _, _ => ret tt end.

Definition signal_holders_only (a : Attached) (s : TreeSignal) (marks : bool) : H (option (result Error unit)) :=
  match a with
  | FdMarker _ _ =>
      do! r := send_holders s None in
      do! _ := mark_if marks s r in
      ret (Some r)
  | _ => ret None
  end.

Definition signal_group_and_holders (a : Attached) (s : TreeSignal) (marks : bool) : H (option (result Error unit)) :=
  match a with
  | FdMarker _ _ =>
      do! r := send_group_and_holders s in
      do! _ := mark_if marks s r in
      ret (Some r)
  | _ => ret None
  end.

Definition fd_marker_has_group (a : Attached) : option bool :=
  match a with FdMarker _ pgid => Some (bool_decide (is_Some pgid)) | _ => None end.

Definition names_tree_by_identity (a : Attached) : bool := match a with FdMarker _ _ => true | _ => false end.

(** The marker's root, left out of a sweep of a root this process does not pin. *)
Definition except_root (a : Attached) (unpinned : bool) : option ProcessId :=
  match a with FdMarker root _ => if unpinned then root else None | _ => None end.

(** [signal_tree_untrusted]. *)
Definition is_unpinned_state (s : RootState) : bool := match s with Unpinned => true | _ => false end.

Definition signal_tree_untrusted (a : Attached) (s : TreeSignal) (root : RootState) : H (option (result Error unit)) :=
  if negb (named_by_root_number a) then ret None
  else
    match a with
    | FdMarker _ _ =>
        do! r := send_holders s (except_root a (is_unpinned_state root)) in
        do! _ := mark_if true s r in
        ret (Some r)
    | _ => ret (Some (Err (Unassessable None)))
    end.

End Calls.
