(* ===== verification/LeafWatch.v ===== *)
(** Waiting for a control group leaf to drain: [src/containment/cgroup/watcher.rs], the watch of
    [drain.rs], and [drain_step] and [drain_seen] of [leaf.rs] with the loop around them. The kernel, the
    leaf's pump and any number of waits interleave, one call at a time. Notifications go through the class
    [Notifier], what [event_listener] documents. A leaf is dropped with no wait under way, so the stop of
    its pump is left out. *)
From S2P Require Import Prelude IoErrors CrateError ChildCalls.
Local Open Scope Z_scope.

(** * The notifier *)

(** [event_listener::Event], a listener being named by its wait: [listen], [notify(usize::MAX)], a
    listener's drop, and whether it was notified. *)
Class Notifier := {
  Event : Type;
  event_new : Event;
  listen : nat -> Event -> Event;
  notify_all : Event -> Event;
  drop_listener : nat -> Event -> Event;
  listening : nat -> Event -> bool;
  notified : nat -> Event -> bool
}.

Class NotifierLaws (N : Notifier) := {
  listening_listen i e : listening i (listen i e) = true;
  listening_listen_ne i j e : i <> j -> listening i (listen j e) = listening i e;
  listening_notify i e : listening i (notify_all e) = listening i e;
  listening_drop_ne i j e : i <> j -> listening i (drop_listener j e) = listening i e;
  notified_listen_ne i j e : i <> j -> notified i (listen j e) = notified i e;
  notified_notify i e : listening i e = true -> notified i (notify_all e) = true;
  notified_drop_ne i j e : i <> j -> notified i (drop_listener j e) = notified i e
}.

(** * The watch *)

(** An inotify event. *)
Record InEvent := in_event { wd : Z; DELETE : bool; MODIFY : bool; QUEUE_OVERFLOW : bool; IGNORED : bool; file_name : option bytes }.

(** [DrainWatch]'s watches and name. *)
Record DrainWatch := drain_watch { parent : Z; events_watch : Z; name : bytes }.

(** One event of [consume]: whether it says the leaf was removed, and whether it bears on the leaf. *)
Definition take_event (self : DrainWatch) (e : InEvent) : bool * bool :=
  let named_us := bool_decide (file_name e = Some (name self)) in
  let gone := (wd e =? parent self) && DELETE e && named_us in
  (gone, gone || QUEUE_OVERFLOW e || IGNORED e || (wd e =? events_watch self) && MODIFY e).

(** * The world *)

(** The pump: not started; in its poll; in [consume], having found a change or not; past it; before its
    notification; with a failure to record; before the notification of that; stopped. *)
Inductive PumpPc :=
| Absent
| Polling
| Taking (changed : bool)
| Taken (changed : bool)
| Stored (changed : bool)
| Failing
| Failed
| Stopped.

(** A wait, in its first or second [drain_seen]: before it asks whether the leaf is gone, before it reads,
    before it asks whether the pump failed; before it looks at its deadline, before it listens, before it
    starts the pump; blocked; done. *)
Inductive WaitPc :=
| AskGone (second : bool)
| AskDrain (second : bool)
| AskFailure (second : bool)
| AskClock
| Listen
| StartPump
| Blocked
| Done (r : result unit TreeDrain).

Definition upd (i : nat) (pc : WaitPc) (f : nat -> WaitPc) : nat -> WaitPc := fun j => if decide (j = i) then pc else f j.

Section Watch.
  Context `{N : Notifier}.

(** [populated], [removed]: the leaf. [pending]: a postponed notification of [cgroup.events]. [queue]: the
    watch's events. [watch_gone]: what the watch saw; [gone], [failure] and [changed]: what the pump
    shares. *)
Record World := world {
  populated : bool; removed : bool; pending : bool; queue : list InEvent;
  pump : PumpPc; watch_gone : bool; gone : bool; failure : bool; changed : Event; waits : nat -> WaitPc }.

Definition set_leaf (w : World) (p r pend : bool) (q : list InEvent) : World :=
  world p r pend q (pump w) (watch_gone w) (gone w) (failure w) (changed w) (waits w).
Definition set_pump (w : World) (pc : PumpPc) : World :=
  world (populated w) (removed w) (pending w) (queue w) pc (watch_gone w) (gone w) (failure w) (changed w) (waits w).
Definition set_taken (w : World) (q : list InEvent) (g : bool) (pc : PumpPc) : World :=
  world (populated w) (removed w) (pending w) q pc g (gone w) (failure w) (changed w) (waits w).
Definition set_shared (w : World) (g f : bool) (e : Event) (pc : PumpPc) : World :=
  world (populated w) (removed w) (pending w) (queue w) pc (watch_gone w) g f e (waits w).
Definition set_wait (w : World) (i : nat) (e : Event) (pc : WaitPc) : World :=
  world (populated w) (removed w) (pending w) (queue w) (pump w) (watch_gone w) (gone w) (failure w) e (upd i pc (waits w)).

(** A leaf without a member: a removed leaf reads as drained. *)
Definition is_empty (w : World) : bool := removed w || negb (populated w).

Definition start (p : bool) : World := world p false false [] Absent false false false event_new (fun _ => AskGone false).

  Variables (self : DrainWatch) (cap : nat).

(** ** The kernel *)

Definition modified : InEvent := in_event (events_watch self) false true false false None.
Definition deleted : InEvent := in_event (parent self) true false false false (Some (name self)).
Definition overflow : InEvent := in_event (-1) false false true false None.

(** A full queue loses its events, and says so once. *)
Definition enqueue (q : list InEvent) (e : InEvent) : list InEvent :=
  if (length q <? cap)%nat then q ++ [e] else if existsb QUEUE_OVERFLOW q then q else q ++ [overflow].

(** What the kernel says of the leaf's removal, and of nothing else: a deletion, under the parent's watch, of
    the leaf's own name. *)
Definition removal_of_leaf (e : InEvent) : Prop := wd e = parent self /\ DELETE e = true /\ file_name e = Some (name self).

#[export] Instance removal_of_leaf_dec e : Decision (removal_of_leaf e).
Proof. unfold removal_of_leaf. apply _. Defined.

(** The leaf's members come and go, and its notification is sent now or postponed; a postponed one fires;
    the leaf is removed, which cancels one; or any event that is not the leaf's removal: a sibling's removal,
    another change under the parent, a write. *)
Inductive KernelStep := Populate (p now : bool) | Fire | Remove | Noise (e : InEvent).

Definition kernel_step (l : KernelStep) (w : World) : option World :=
  match l with
  | Populate p now =>
      if removed w || bool_decide (populated w = p) then None
      else Some (if now then set_leaf w p false (pending w) (enqueue (queue w) modified) else set_leaf w p false true (queue w))
  | Fire => if pending w then Some (set_leaf w (populated w) (removed w) false (enqueue (queue w) modified)) else None
  | Remove => if is_empty w && negb (removed w) then Some (set_leaf w false true false (enqueue (queue w) deleted)) else None
  | Noise e => if decide (removal_of_leaf e) then None else Some (set_leaf w (populated w) (removed w) (pending w) (enqueue (queue w) e))
  end.

(** ** The pump *)

(** [run_pump], [consume] and [fail]; [fails] says whether the poll or the read did. *)
Definition pump_step (fails : bool) (w : World) : option World :=
  match pump w with
  | Polling =>
      if fails then Some (set_pump w Failing)
      else if bool_decide (queue w = []) then None else Some (set_pump w (Taking false))
  | Taking c =>
      if fails then Some (set_pump w Failing)
      else match queue w with
           | e :: q => let '(g, c') := take_event self e in Some (set_taken w q (watch_gone w || g) (Taking (c || c')))
           | [] => Some (set_pump w (Taken c))
           end
  | Taken c => Some (set_shared w (gone w || watch_gone w) (failure w) (changed w) (Stored c))
  | Stored c => Some (set_shared w (gone w) (failure w) (if c then notify_all (changed w) else changed w) Polling)
  | Failing => Some (set_shared w (gone w) true (changed w) Failed)
  | Failed => Some (set_shared w (gone w) (failure w) (notify_all (changed w)) Stopped)
  | Absent | Stopped => None
  end.

(** ** A wait *)

(** What a call of a wait finds: it succeeds, it fails, or the deadline has passed. *)
Inductive Found := Plain | Fails | Passed.

(** The end of a wait drops the listener it may hold. *)
Definition done (w : World) (i : nat) (r : result unit TreeDrain) : World := set_wait w i (drop_listener i (changed w)) (Done r).

(** [drain_seen] and [drain_step_on], and the loop of [wait_drained]. *)
Definition wait_step (i : nat) (a : Found) (w : World) : option World :=
  match waits w i with
  | AskGone second =>
      Some (if gone w then done w i (Ok AllMembersExited) else set_wait w i (changed w) (AskDrain second))
  | AskDrain second =>
      Some match a with
           | Fails => done w i (Err tt)
           | _ => if is_empty w then done w i (Ok AllMembersExited) else set_wait w i (changed w) (AskFailure second)
           end
  | AskFailure second =>
      Some (if failure w then done w i (Err tt) else set_wait w i (changed w) (if second then Blocked else AskClock))
  | AskClock => Some match a with Passed => done w i (Ok MembersRemain) | _ => set_wait w i (changed w) Listen end
  | Listen => Some (set_wait w i (listen i (changed w)) StartPump)
  | StartPump =>
      match pump w, a with
      | Absent, Fails => Some (done w i (Err tt))
      | Absent, _ => Some (set_wait (set_pump w Polling) i (changed w) (AskGone true))
      | _, _ => Some (set_wait w i (changed w) (AskGone true))
      end
  | Blocked =>
      if notified i (changed w) || match a with Passed => true | _ => false end then
        Some (set_wait w i (drop_listener i (changed w)) (AskGone false))
      else None
  | Done _ => None
  end.

Inductive Label := ByKernel (l : KernelStep) | ByPump (fails : bool) | ByWait (i : nat) (a : Found).

Definition step (w : World) (l : Label) : option World :=
  match l with
  | ByKernel l => kernel_step l w
  | ByPump fails => pump_step fails w
  | ByWait i a => wait_step i a w
  end.

Fixpoint run (w : World) (ls : list Label) : option World :=
  match ls with
  | [] => Some w
  | l :: ls => w' ← step w l; run w' ls
  end.

(** ** The pump alone *)

(** What happens next if nothing else does: a postponed notification, and then the pump. *)
Definition next (w : World) : Label := if pending w then ByKernel Fire else ByPump false.

(** Until the wait [i] is notified. *)
Fixpoint alone (i fuel : nat) (w : World) : option World :=
  if notified i (changed w) then Some w
  else match fuel with O => None | S fuel => w' ← step w (next w); alone i fuel w' end.

Definition left_ (w : World) : nat :=
  (if pending w then 2 else 0) + length (queue w) +
  match pump w with
  | Stored false => 5 | Polling => 4 | Taking _ => 3 | Taken true => 2 | Stored true => 1
  | Taken false => 6 | Failing => 2 | Failed => 1 | Absent | Stopped => 0
  end.

(** ** What holds throughout *)

Definition relevant (e : InEvent) : bool := (take_event self e).2.

(** A notification is on its way to the waits. *)
Definition coming (w : World) : Prop :=
  pending w = true \/ existsb relevant (queue w) = true
  \/ match pump w with Taking true | Taken true | Stored true | Failing | Failed => True | _ => False end.

Definition wait_ok (w : World) (i : nat) : Prop :=
  let hears := listening i (changed w) = true in
  match waits w i with
  | StartPump => hears
  | AskGone true | AskDrain true => hears /\ pump w <> Absent
  | AskFailure true => hears /\ pump w <> Absent /\ (notified i (changed w) = true \/ (is_empty w = true -> coming w))
  | Blocked =>
      hears /\ pump w <> Absent
      /\ (notified i (changed w) = true \/ (is_empty w = true -> coming w) /\ (failure w = true -> pump w = Failed) /\ pump w <> Stopped)
  | _ => True
  end.

Record inv (w : World) : Prop := {
  lw_gone : gone w = true \/ watch_gone w = true -> removed w = true;
  lw_removed : removed w = true -> populated w = false;
  lw_queue : Forall (fun e => (take_event self e).1 = true -> removed w = true) (queue w);
  lw_failure : failure w = true <-> pump w = Failed \/ pump w = Stopped;
  lw_waits : forall i, wait_ok w i }.

Lemma leaf_watch_start p : inv (start p).
Proof. split; try done; [by intros []|split; [done|by intros []]]. Qed.

(** The watch takes for the leaf's removal what the kernel says of it. *)
Lemma gone_is_removal e : (take_event self e).1 = true -> removal_of_leaf e.
Proof. unfold take_event, removal_of_leaf. cbn. rewrite !andb_true_iff, Z.eqb_eq, bool_decide_eq_true. tauto. Qed.

Lemma overflow_relevant : relevant overflow = true.
Proof. unfold relevant, take_event. cbn. by rewrite !orb_true_r. Qed.

Lemma relevant_enqueue q e : relevant e = true -> existsb relevant (enqueue q e) = true.
Proof.
  intros He. unfold enqueue. case_match; [by rewrite existsb_app; cbn [existsb]; rewrite He, !orb_true_r|]. case_match eqn:Eo.
  - apply existsb_exists in Eo as (o & Hin & Ho). apply existsb_exists. exists o. split; [done|].
    unfold relevant, take_event. cbn. by rewrite Ho, orb_true_r.
  - by rewrite existsb_app; cbn [existsb]; rewrite overflow_relevant, !orb_true_r.
Qed.

Lemma relevant_enqueue_old q e : existsb relevant q = true -> existsb relevant (enqueue q e) = true.
Proof. intros Hq. unfold enqueue. case_match; [|case_match; [done|]]; by rewrite existsb_app, Hq. Qed.

Lemma length_enqueue q e : (length (enqueue q e) <= S (length q))%nat.
Proof. unfold enqueue. repeat case_match; rewrite ?length_app; cbn; lia. Qed.

Lemma enqueue_Forall (P : InEvent -> Prop) q e : Forall P q -> P e -> P overflow -> Forall P (enqueue q e).
Proof. intros Hq He Ho. unfold enqueue. repeat case_match; try done; apply Forall_app; by split; [|apply Forall_singleton]. Qed.

Lemma overflow_not_gone : (take_event self overflow).1 = false.
Proof. unfold take_event. cbn. by rewrite andb_false_r. Qed.

Lemma modified_relevant : relevant modified = true.
Proof. unfold relevant, take_event, modified. cbn. by rewrite Z.eqb_refl, !orb_true_r. Qed.

Lemma modified_not_gone : (take_event self modified).1 = false.
Proof. unfold take_event, modified. cbn. by rewrite andb_false_r. Qed.

Lemma deleted_gone : take_event self deleted = (true, true).
Proof. unfold take_event, deleted. cbn. by rewrite Z.eqb_refl, bool_decide_true. Qed.


Context `{!NotifierLaws N}.

(** The rest of the world as a wait sees it. *)
Lemma wait_ok_waits w w' i :
  waits w' i = waits w i -> pump w' <> Absent \/ pump w' = pump w ->
  (listening i (changed w) = true -> listening i (changed w') = true) ->
  (notified i (changed w) = true -> notified i (changed w') = true) ->
  (waits w i = AskFailure true \/ waits w i = Blocked -> pump w <> Absent ->
     notified i (changed w') = true \/ (is_empty w' = true -> is_empty w = true /\ (coming w -> coming w') \/ coming w')
       /\ ((failure w = true -> pump w = Failed) -> failure w' = true -> pump w' = Failed)
       /\ (pump w <> Stopped -> pump w' <> Stopped)) ->
  wait_ok w i -> wait_ok w' i.
Proof.
  unfold wait_ok. intros -> Hp Hl Hn Hx. destruct (waits w i) as [[]|[]|[]| | | | |r]; try done; try by auto.
  - intros [H1 H2]. split; [auto|]. destruct Hp as [|Hp]; congruence.
  - intros [H1 H2]. split; [auto|]. destruct Hp as [|Hp]; congruence.
  - intros (H1 & H2 & H3). split; [auto|]. split; [destruct Hp as [|Hp]; congruence|].
    destruct H3 as [|H3]; [auto|]. destruct (Hx (or_introl eq_refl) H2) as [|(Ha & _)]; [auto|]. right. intros He. destruct (Ha He) as [[? ?]|]; auto.
  - intros (H1 & H2 & H3). split; [auto|]. split; [destruct Hp as [|Hp]; congruence|].
    destruct H3 as [|(H3 & H4 & H5)]; [auto|]. destruct (Hx (or_intror eq_refl) H2) as [|(Ha & Hb & Hc)]; [auto|]. right. split_and!; auto.
    intros He. destruct (Ha He) as [[? ?]|]; auto.
Qed.

Lemma kernel_keeps l w w' : inv w -> kernel_step l w = Some w' -> inv w'.
Proof.
  intros [Hg Hr Hq Hf Hw] H.
  assert (Hx : forall p r pend q, (removed w = true -> r = true) -> (r = true -> p = false) ->
    Forall (fun e => (take_event self e).1 = true -> r = true) q ->
    (r || negb p = true -> is_empty w = true /\ (coming w -> coming (set_leaf w p r pend q)) \/ coming (set_leaf w p r pend q)) ->
    inv (set_leaf w p r pend q)).
  { intros p r pend q H1 H2 H3 H4. split; try done; [cbn; auto|]. intros i.
    apply (wait_ok_waits w); try done; [by right|]. intros _ _. right. split_and!; try done. }
  destruct l as [p now| | |e]; unfold kernel_step in H.
  - destruct (removed w) eqn:Er; [done|]. cbn in H. destruct (bool_decide _); [done|]. destruct now; injection H as <-; apply Hx; try done.
    + apply enqueue_Forall; [done|by rewrite modified_not_gone|by rewrite overflow_not_gone].
    + intros _. right. right. left. cbn. apply relevant_enqueue, modified_relevant.
    + intros _. right. by left.
  - destruct (pending w) eqn:Ep; [|done]. injection H as <-. apply Hx; try done.
    + apply enqueue_Forall; [done|by rewrite modified_not_gone|by rewrite overflow_not_gone].
    + intros _. right. right. left. cbn. apply relevant_enqueue, modified_relevant.
  - destruct (is_empty w && _) eqn:Ee; [|done]. injection H as <-. apply Hx; try done.
    + apply enqueue_Forall; [|done|done]. eapply Forall_impl; [apply Hq|]. auto.
    + intros _. right. right. left. cbn. apply relevant_enqueue. unfold relevant. by rewrite deleted_gone.
  - destruct (decide (removal_of_leaf e)) as [|Hn]; [done|]. injection H as <-. apply Hx; try done.
    + apply enqueue_Forall; [done|by intros ?%gone_is_removal|by rewrite overflow_not_gone].
    + intros He. left. split; [done|]. intros [Hc|[Hc|Hc]]; [by left| |by right; right]. right. left. cbn. by apply relevant_enqueue_old.
Qed.

Lemma wait_ok_notify w w' i :
  waits w' i = waits w i -> pump w' <> Absent -> changed w' = notify_all (changed w) -> wait_ok w i -> wait_ok w' i.
Proof.
  unfold wait_ok. intros -> Hp ->. rewrite listening_notify. pose proof (notified_notify i (changed w)) as Hn.
  destruct (waits w i) as [[]|[]|[]| | | | |r]; try done; naive_solver.
Qed.

Lemma pump_keeps fails w w' : inv w -> pump_step fails w = Some w' -> inv w'.
Proof.
  intros [Hg Hr Hq Hf Hw] H.
  assert (Hx : forall w1 : World, populated w1 = populated w -> removed w1 = removed w -> waits w1 = waits w ->
    (gone w1 = true \/ watch_gone w1 = true -> removed w = true) -> Forall (fun e => (take_event self e).1 = true -> removed w = true) (queue w1) ->
    (failure w1 = true <-> pump w1 = Failed \/ pump w1 = Stopped) -> pump w1 <> Absent ->
    changed w1 = notify_all (changed w) \/ changed w1 = changed w /\ (coming w -> coming w1) /\ pump w1 <> Stopped -> inv w1).
  { intros w1 E1 E2 E3 H1 H2 H3 H4 H5. split; rewrite ?E1, ?E2; try done. intros i.
    destruct H5 as [H5|(H5 & H6 & H7)]; [by apply (wait_ok_notify w); rewrite ?E3|].
    apply (wait_ok_waits w); rewrite ?E3, ?H5; try done; [by left|]. intros _ _. right. split_and!; try done.
    - intros He. left. split; [|done]. revert He. unfold is_empty. by rewrite E1, E2.
    - intros _ Hf1. apply H3 in Hf1 as [|]; [done|]. done. }
  assert (Hnf : pump w <> Failed -> pump w <> Stopped -> failure w = true <-> False) by (split; [intros [|]%Hf; done|done]).
  unfold pump_step in H. destruct (pump w) as [| |c|c|c| | |] eqn:Ep; try done.
  - destruct fails; [|destruct (bool_decide _) eqn:Eq; [done|]]; injection H as <-; apply Hx; try done; cbn; try (rewrite Hnf by done; naive_solver).
    all: right; split_and!; try done; unfold coming; cbn; rewrite Ep; tauto.
  - destruct fails; [|destruct (queue w) as [|e q] eqn:Eq; [|destruct (take_event self e) as [g c'] eqn:Et]].
    + injection H as <-; apply Hx; try done; cbn; try (rewrite Hnf by done; naive_solver).
      right; split_and!; try done; unfold coming; cbn; rewrite Ep; tauto.
    + injection H as <-; apply Hx; try done; cbn; try (rewrite Hnf by done; naive_solver). { by rewrite Eq. }
      right; split_and!; try done; unfold coming; cbn; rewrite Ep, Eq; cbn. destruct c; tauto.
    + apply Forall_cons in Hq as [He Hq]. injection H as <-; apply Hx; try done; cbn; try (rewrite Hnf by done; naive_solver).
      * intros [|Hd]; [by apply Hg; left|]. apply orb_true_iff in Hd as [|Hd]; [by apply Hg; right|]. apply He. by rewrite Et.
      * right; split_and!; try done; unfold coming; cbn; rewrite Ep, Eq; cbn [existsb]. unfold relevant at 1. rewrite Et. cbn.
        destruct c, c'; cbn; tauto.
  - injection H as <-; apply Hx; try done; cbn; try (rewrite Hnf by done; naive_solver).
    + rewrite orb_true_iff. tauto.
    + right; split_and!; try done; unfold coming; cbn; rewrite Ep; tauto.
  - injection H as <-; apply Hx; try done; cbn; try (rewrite Hnf by done; naive_solver).
    destruct c; [by left|]. right; split_and!; try done; unfold coming; cbn; rewrite Ep; tauto.
  - injection H as <-; apply Hx; try done; cbn; [naive_solver|].
    right; split_and!; try done; unfold coming; cbn; rewrite Ep; tauto.
  - injection H as <-; apply Hx; try done; cbn; [naive_solver|by left].
Qed.

Lemma wait_ok_other w w' i j :
  i <> j -> (forall k, k <> j -> waits w' k = waits w k) -> (pump w' = pump w \/ pump w = Absent /\ pump w' = Polling) ->
  populated w' = populated w -> removed w' = removed w -> pending w' = pending w -> queue w' = queue w -> failure w' = failure w ->
  listening i (changed w') = listening i (changed w) -> notified i (changed w') = notified i (changed w) ->
  wait_ok w i -> wait_ok w' i.
Proof.
  intros Hne Hwt Hp E1 E2 E3 E4 E5 El En. apply wait_ok_waits; rewrite ?El, ?En; try done.
  - by apply Hwt.
  - destruct Hp as [|[_ ->]]; [by right|by left].
  - intros _ Ha. right. destruct Hp as [Hp|[Hp _]]; [|done]. rewrite Hp, E5. split_and!; try done. intros He. left.
    split; [revert He; unfold is_empty; by rewrite E1, E2|]. unfold coming. by rewrite E3, E4, Hp.
Qed.

Lemma watch_wait_keeps i a w w' : inv w -> wait_step i a w = Some w' -> inv w'.
Proof.
  intros [Hg Hr Hq Hf Hw] H.
  assert (Hx : forall e pc, (forall j, i <> j -> listening j e = listening j (changed w)) ->
    (forall j, i <> j -> notified j e = notified j (changed w)) -> wait_ok (set_wait w i e pc) i -> inv (set_wait w i e pc)).
  { intros e pc Hl Hn Hi. split; try done. intros j. destruct (decide (i = j)) as [<-|Hne]; [done|].
    apply (wait_ok_other w _ j i); try done; cbn; [|by left|by auto|by auto].
    intros k Hk. unfold upd. by destruct (decide (k = i)). }
  assert (Hd : forall r, inv (done w i r)).
  { intros r. apply Hx; [intros; apply listening_drop_ne; congruence|intros; apply notified_drop_ne; congruence|]. unfold wait_ok. cbn. unfold upd. by destruct (decide _). }
  pose proof (Hw i) as Hi. unfold wait_ok in Hi. unfold wait_step in H.
  assert (Hs : forall e pc, waits (set_wait w i e pc) i = pc) by (intros; cbn; unfold upd; by destruct (decide (i = i))).
  destruct (waits w i) as [second|second|second| | | | |r] eqn:Ew; try done.
  - injection H as <-. destruct (gone w); [apply Hd|]. apply Hx; try done. unfold wait_ok. rewrite Hs. by destruct second.
  - injection H as <-. destruct a; [|apply Hd|]; (destruct (is_empty w) eqn:Ee; [apply Hd|]); apply Hx; try done; unfold wait_ok; rewrite Hs.
    all: destruct second; [|done]; destruct Hi as [H1 H2]; split_and!; try done; right; unfold is_empty in *; cbn; congruence.
  - injection H as <-. destruct (failure w) eqn:Ef; [apply Hd|]. apply Hx; try done. unfold wait_ok. rewrite Hs. destruct second; [|done].
    destruct Hi as (H1 & H2 & H3). split_and!; try done. cbn. rewrite Ef. destruct H3 as [|H3]; [by left|right]. split_and!; try done.
    intros Hst. assert (false = true) by (apply Hf; by right). done.
  - injection H as <-. destruct a; [| |apply Hd]; apply Hx; try done; unfold wait_ok; by rewrite Hs.
  - injection H as <-. apply Hx; [intros; apply listening_listen_ne; congruence|intros; apply notified_listen_ne; congruence|]. unfold wait_ok. rewrite Hs. cbn.
    apply listening_listen.
  - destruct (pump w) eqn:Ep; [|injection H as <-; apply Hx; try done; unfold wait_ok; rewrite Hs; cbn; by rewrite Ep..].
    assert (inv (set_wait (set_pump w Polling) i (changed w) (AskGone true))) as Hp.
    { split; try done; [cbn; naive_solver|]. intros j. destruct (decide (i = j)) as [<-|Hne].
      - unfold wait_ok. cbn. unfold upd. by destruct (decide (i = i)).
      - apply (wait_ok_other w _ j i); try done; cbn; [|by right]. intros k Hk. unfold upd. by destruct (decide (k = i)). }
    destruct a; injection H as <-; first [apply Hd | exact Hp].
  - destruct (_ || _); [|done]. injection H as <-. apply Hx; [intros; apply listening_drop_ne; congruence|
      intros; apply notified_drop_ne; congruence|]. unfold wait_ok. by rewrite Hs.
Qed.

Lemma watch_keeps ls : forall w w', inv w -> run w ls = Some w' -> inv w'.
Proof.
  induction ls as [|l ls IH]; intros w w' Hi H; cbn in H; [by injection H as <-|].
  destruct (step w l) as [w1|] eqn:Es; [|done]. apply (IH w1); [|done].
  destruct l; cbn in Es; [by eapply kernel_keeps|by eapply pump_keeps|by eapply watch_wait_keeps].
Qed.

#[local] Arguments left_ : simpl never.

(** ** A wait that is due its answer gets it *)

Lemma fire_left w : pending w = true ->
  let w' := set_leaf w (populated w) (removed w) false (enqueue (queue w) modified) in (left_ w' < left_ w)%nat.
Proof. intros Hp. unfold left_. cbn. rewrite Hp. pose proof (length_enqueue (queue w) modified). lia. Qed.

Ltac on_its_way :=
  cbn; split_and!; try done; right; unfold coming, left_; cbn;
  repeat match goal with H : pending _ = false |- _ => rewrite H | H : queue _ = _ |- _ => rewrite H; clear H end; cbn [length existsb];
  split_and!; try done; first [lia | intuition congruence].

(** With nothing pending, a pump that is on its way takes a step, gets nearer, and stays on its way. *)
Lemma pump_on_its_way w i :
  inv w -> pending w = false -> coming w -> pump w <> Absent -> pump w <> Stopped -> listening i (changed w) = true ->
  exists w', pump_step false w = Some w' /\ waits w' = waits w
  /\ is_empty w' = is_empty w /\ (notified i (changed w') = true \/ coming w' /\ (left_ w' < left_ w)%nat /\ changed w' = changed w /\ pump w' <> Absent /\ pump w' <> Stopped).
Proof.
  intros Hi Hp Hc Ha Hs Hl. unfold pump_step, left_. unfold coming in Hc. rewrite Hp in *.
  destruct (pump w) as [| |c|c|c| | |] eqn:Ep; try done.
  - destruct Hc as [|[Hc|]]; try done. destruct (bool_decide_reflect (queue w = [])) as [Eq|Eq]; [by rewrite Eq in Hc|].
    eexists. split; [done|]. on_its_way.
  - destruct (queue w) as [|e q] eqn:Eq.
    + destruct c; [|by destruct Hc as [|[|]]]. eexists. split; [done|]. on_its_way.
    + destruct (take_event self e) as [g c'] eqn:Et. eexists. split; [done|]. cbn [existsb] in Hc. unfold relevant at 1 in Hc. rewrite Et in Hc.
      cbn in Hc. destruct c, c'; cbn [orb] in *; on_its_way.
  - eexists. split; [done|]. destruct c; on_its_way.
  - eexists. split; [done|]. destruct c; [|on_its_way]. cbn. split_and!; try done. left. by apply notified_notify.
  - eexists. split; [done|]. on_its_way.
  - eexists. split; [done|]. cbn. split_and!; try done. left. by apply notified_notify.
Qed.

Lemma alone_notified i fuel w : notified i (changed w) = true -> alone i fuel w = Some w.
Proof. intros Hn. destruct fuel; cbn; by rewrite Hn. Qed.

Lemma alone_notifies i fuel : forall w,
  inv w -> waits w i = Blocked -> is_empty w = true -> (left_ w <= fuel)%nat ->
  exists w', alone i fuel w = Some w' /\ waits w' = waits w /\ is_empty w' = true /\ notified i (changed w') = true /\ inv w'.
Proof.
  induction fuel as [|fuel IH]; intros w Hi Hw He Hl.
  { assert (Hn : notified i (changed w) = true); [|cbn; rewrite Hn; by exists w].
    pose proof (lw_waits _ Hi i) as Hx. unfold wait_ok in Hx. rewrite Hw in Hx. destruct Hx as (Hl1 & Ha & [|(Hc & _ & Hs)]); [done|].
    exfalso. specialize (Hc He). unfold left_ in Hl. unfold coming in Hc.
    destruct (pump w) as [| |c|[]|[]| | |]; try done; try lia. }
  cbn. destruct (notified i (changed w)) eqn:En; [by exists w|].
  pose proof (lw_waits _ Hi i) as Hx. unfold wait_ok in Hx. rewrite Hw in Hx. destruct Hx as (Hl1 & Ha & [|(Hc & _ & Hs)]); [congruence|].
  specialize (Hc He). unfold next. destruct (pending w) eqn:Ep.
  - assert (Hk : kernel_step Fire w = Some (set_leaf w (populated w) (removed w) false (enqueue (queue w) modified))) by (cbn; by rewrite Ep).
    cbn [step]. rewrite Hk. cbn. pose proof (fire_left w Ep) as Hf. cbv zeta in Hf.
    destruct (IH (set_leaf w (populated w) (removed w) false (enqueue (queue w) modified))) as (w' & H1 & H2 & H3 & H4 & H5); try done.
    + by eapply kernel_keeps.
    + lia.
    + exists w'. by split_and!.
  - destruct (pump_on_its_way w i Hi Ep Hc Ha Hs Hl1) as (w1 & Hst & Hwt & Hem & Hor). cbn [step]. rewrite Hst. cbn.
    assert (Hi1 : inv w1) by (by eapply pump_keeps).
    destruct Hor as [Hor|(_ & Hlt & _)]; [exists w1; rewrite alone_notified, Hem, Hwt by done; done|].
    destruct (IH w1) as (w' & H1 & H2 & H3 & H4 & H5).
    + done.
    + by rewrite Hwt.
    + by rewrite Hem.
    + lia.
    + exists w'. split_and!; try done. by rewrite H2.
Qed.


Lemma upd_same i pc f : upd i pc f i = pc.
Proof. unfold upd. by destruct (decide (i = i)). Qed.

(** A notified wait on an empty leaf answers so. *)
Lemma notified_answers i w :
  waits w i = Blocked -> notified i (changed w) = true -> is_empty w = true ->
  exists n w', (n <= 3)%nat /\ run w (replicate n (ByWait i Plain)) = Some w' /\ waits w' i = Done (Ok AllMembersExited).
Proof.
  intros Hw Hn He. set (w1 := set_wait w i (drop_listener i (changed w)) (AskGone false)).
  assert (H1 : wait_step i Plain w = Some w1) by (unfold wait_step; by rewrite Hw, Hn).
  assert (Hw1 : waits w1 i = AskGone false) by (apply upd_same). destruct (gone w) eqn:Eg.
  - exists 2%nat, (done w1 i (Ok AllMembersExited)). split; [lia|]. split; [|apply upd_same]. cbn [replicate run step]. rewrite H1.
    cbn [mbind option_bind]. unfold wait_step. rewrite Hw1. unfold w1 at 1. cbn [gone set_wait]. by rewrite Eg.
  - set (w2 := set_wait w1 i (changed w1) (AskDrain false)).
    assert (H2 : wait_step i Plain w1 = Some w2) by (unfold wait_step; rewrite Hw1; unfold w1 at 1; cbn [gone set_wait]; by rewrite Eg).
    assert (Hw2 : waits w2 i = AskDrain false) by (apply upd_same).
    exists 3%nat, (done w2 i (Ok AllMembersExited)). split; [lia|]. split; [|apply upd_same]. cbn [replicate run step]. rewrite H1.
    cbn [mbind option_bind]. rewrite H2. cbn [mbind option_bind]. unfold wait_step. rewrite Hw2. unfold is_empty in *. cbn. by rewrite He.
Qed.

(** An answer is so when it is given. *)
Lemma answer_so w i a w' r :
  inv w -> wait_step i a w = Some w' -> waits w' i = Done (Ok r) ->
  r = AllMembersExited /\ is_empty w = true \/ r = MembersRemain /\ a = Passed.
Proof.
  intros [Hg _ _ _ _] H Hr. unfold wait_step in H. destruct (waits w i) as [second|second|second| | | | |r'] eqn:Ew; try done.
  - injection H as <-. destruct (gone w) eqn:Eg; cbn in Hr; rewrite upd_same in Hr; [|done]. injection Hr as <-. left. split; [done|].
    unfold is_empty. by rewrite Hg by auto.
  - injection H as <-. destruct a; [| by cbn in Hr; rewrite upd_same in Hr|];
      (destruct (is_empty w); cbn in Hr; rewrite upd_same in Hr; [injection Hr as <-; auto|done]).
  - injection H as <-. destruct (failure w); cbn in Hr; rewrite upd_same in Hr; [done|by destruct second].
  - injection H as <-. destruct a; cbn in Hr; rewrite upd_same in Hr; try done. injection Hr as <-. by right.
  - injection H as <-. cbn in Hr. by rewrite upd_same in Hr.
  - destruct (pump w), a; injection H as <-; cbn in Hr; by rewrite upd_same in Hr.
  - destruct (_ || _); [|done]. injection H as <-. cbn in Hr. by rewrite upd_same in Hr.
Qed.

(** C40: A wait on a leaf's drain is not missed. Whatever the interleaving of the kernel, the pump and
    any number of waits, a leaf with no member wakes every wait that blocks on it: the pump alone, after a
    notification the kernel postponed, notifies it within a bound, and it then answers that all
    members have exited. A wait answers so only of a leaf that is empty at that moment, whatever else is
    removed or written beside it, and that members remain only once its deadline has passed. *)
Theorem drained_wait_ends p ls w i :
  run (start p) ls = Some w ->
  (waits w i = Blocked -> is_empty w = true ->
     exists w1 n w2, alone i (left_ w) w = Some w1 /\ waits w1 i = Blocked /\ (n <= 3)%nat
     /\ run w1 (replicate n (ByWait i Plain)) = Some w2 /\ waits w2 i = Done (Ok AllMembersExited))
  /\ (forall a w' r, wait_step i a w = Some w' -> waits w' i = Done (Ok r) ->
        r = AllMembersExited /\ is_empty w = true \/ r = MembersRemain /\ a = Passed).
Proof.
  intros H. apply watch_keeps in H; [|apply leaf_watch_start]. split.
  - intros Hw He. destruct (alone_notifies i (left_ w) w H Hw He) as (w1 & H1 & H2 & H3 & H4 & _); [done|].
    assert (Hw1 : waits w1 i = Blocked) by (by rewrite H2).
    destruct (notified_answers i w1 Hw1 H4 H3) as (n & w2 & Hn & Hr & Hd). by exists w1, n, w2.
  - intros a w' r Hs Hr. by eapply answer_so.
Qed.

End Watch.

(** Notified once for all: a listener that hears at most one notification. *)
#[local] Instance demo_notifier : Notifier := {
  Event := nat -> option bool;
  event_new _ := None;
  listen i e j := if decide (j = i) then Some false else e j;
  notify_all e j := match e j with Some _ => Some true | None => None end;
  drop_listener i e j := if decide (j = i) then None else e j;
  listening i e := bool_decide (is_Some (e i));
  notified i e := bool_decide (e i = Some true)
}.

#[local] Instance demo_laws : NotifierLaws demo_notifier.
Proof.
  split; cbn; intros.
  - by rewrite decide_True.
  - by rewrite decide_False by congruence.
  - by destruct (e i).
  - by rewrite decide_False by congruence.
  - by rewrite decide_False by congruence.
  - by destruct (e i) as [[]|].
  - by rewrite decide_False by congruence.
Qed.

Definition demo_watch : DrainWatch := drain_watch 1 2 (bs "leaf").

(** A wait blocks; the leaf drains, its notification is postponed, and its removal cancels that. *)
Definition demo_trace : list Label :=
  [ByWait 0 Plain; ByWait 0 Plain; ByWait 0 Plain; ByWait 0 Plain; ByWait 0 Plain; ByWait 0 Plain; ByWait 0 Plain; ByWait 0 Plain;
   ByWait 0 Plain; ByKernel (Noise (in_event 1 true false false false (Some (bs "other")))); ByPump false;
   ByKernel (Populate false false); ByKernel Remove].

Definition demo_end : World := default (start true) (run demo_watch 4 (start true) demo_trace).

Lemma drained_wait_ends_witness :
  run demo_watch 4 (start true) demo_trace = Some demo_end /\ waits demo_end 0%nat = Blocked /\ is_empty demo_end = true
  /\ pending demo_end = false /\ left_ demo_end = 5%nat /\ is_Some (alone demo_watch 4 0 (left_ demo_end) demo_end).
Proof.
  assert (Hr : run demo_watch 4 (start true) demo_trace = Some demo_end).
  { unfold demo_end. destruct (run demo_watch 4 (start true) demo_trace) eqn:E; [reflexivity|]. vm_compute in E. discriminate E. }
  assert (Hw : waits demo_end 0%nat = Blocked) by (vm_compute; reflexivity). assert (He : is_empty demo_end = true) by (vm_compute; reflexivity).
  split; [exact Hr|]. split; [exact Hw|]. split; [exact He|]. split; [vm_compute; reflexivity|]. split; [vm_compute; reflexivity|].
  destruct (proj1 (drained_wait_ends demo_watch 4 true demo_trace demo_end 0 Hr) Hw He) as (w1 & _ & _ & H & _).
  exists w1. exact H.
Defined.
