(* ===== verification/WinResume.v ===== *)
(** Starting a contained child on Windows, [src/containment/windows.rs]: the frozen child is assigned to
    a job that kills on close, then the threads of the child, and no others, are resumed. The calls'
    answers are the system's; each is recorded, with the handle it is made on. *)
From S2P Require Import Prelude History.
Local Open Scope Z_scope.

(** * Calls *)

Definition ERROR_ACCESS_DENIED : Z := 5.
Definition ERROR_INVALID_PARAMETER : Z := 87.
Definition U32_MAX : Z := 4294967295.

(** A Win32 call's result: its failure is the plain code. *)
Notation win32 A := (result Z A).

Inductive Ev :=
| CreateJob (r : win32 Z)
| SetKillOnClose (job : Z) (r : win32 unit)
| AssignProcess (job : Z) (r : win32 unit)
| TerminateJob (job : Z) (r : win32 unit)
| CloseJob (job : Z)
| ProcessPid (r : win32 Z)
| ThreadSnapshot (r : win32 (list (Z * Z)))
| OpenThread (resume : bool) (tid : Z) (r : win32 Z)
| Owner (thread : Z) (r : win32 Z)
| ThreadTimes (thread : Z) (r : win32 Z)
| ResumeThread (thread : Z) (r : win32 Z)
| CloseThread (thread : Z).

(** What the system answers each call, given the calls before it. Where a call answers through a number
    and the thread's last error, both are given. *)
Class Win := {
  create_answer : list Ev -> win32 Z;
  set_answer : list Ev -> Z -> win32 unit;
  assign_answer : list Ev -> Z -> win32 unit;
  terminate_answer : list Ev -> Z -> win32 unit;
  pid_answer : list Ev -> Z * Z;
  snapshot_answer : list Ev -> win32 (list (Z * Z));
  open_answer : list Ev -> bool -> Z -> win32 Z;
  owner_answer : list Ev -> Z -> Z * Z;
  times_answer : list Ev -> Z -> win32 Z;
  resume_answer : list Ev -> Z -> Z * Z
}.

(** * Results *)

Inductive SuspendCount := Any | ExactlyOne.

#[export] Instance SuspendCount_eq_dec : EqDecision SuspendCount.
Proof. solve_decision. Defined.

Inductive Visit := Resumed | Foreign (owner : Z) | Gone | Denied | Failed.

(** A failed call, with its code, or a finding of the walk's own. *)
Inductive Failure :=
| Call (code : Z)
| OtherThread (owner : Z)
| WrongCount (previous : Z)
| Unidentified (first second : Z)
| NoneResumed (last_skip : bool).

Record Walk := walk { expected : SuspendCount; resumed : Z; last_err : option Failure; last_skip : bool }.

Definition skip (w : Walk) : Walk := walk (expected w) (resumed w) (last_err w) true.

(** [fail], [fail_win32] and [fail_unidentified]: the first failure is kept. *)
Definition fail (e : Failure) (w : Walk) : Walk :=
  walk (expected w) (resumed w) (match last_err w with Some e => Some e | None => Some e end) (last_skip w).

Definition resumed_one (w : Walk) : Walk := walk (expected w) (resumed w + 1) (last_err w) (last_skip w).

Inductive Earliest := NoThread | Unique (tid : Z) | Tie (first second : Z).

(** The loop's [best] and [tied]. *)
Definition earliest_step (acc : option (Z * Z) * option Z) (entry : Z * Z) : option (Z * Z) * option Z :=
  let '(created, tid) := entry in
  match acc.1 with
  | Some (time, _) =>
      if time <? created then acc
      else if created =? time then (acc.1, Some (default tid acc.2))
      else (Some (created, tid), None)
  | None => (Some (created, tid), None)
  end.

Definition earliest_created (times : list (Z * Z)) : Earliest :=
  match foldl earliest_step (None, None) times with
  | (None, _) => NoThread
  | (Some (_, tid), None) => Unique tid
  | (Some (_, first), Some second) => Tie first second
  end.

Definition walk_verdict (w : Walk) : result Failure unit :=
  match last_err w with
  | Some e => Err e
  | None => if resumed w =? 0 then Err (NoneResumed (last_skip w)) else Ok tt
  end.

Section calls.
Context `{Win}.
Notation M := (Hist Ev).

Definition close (thread : Z) : M unit := note (CloseThread thread).
Definition open_query (tid : Z) : M (win32 Z) := call (fun h => open_answer h false tid) (OpenThread false tid).
Definition open_for_resume (tid : Z) : M (win32 Z) := call (fun h => open_answer h true tid) (OpenThread true tid).

Definition owner_of (thread : Z) : M (win32 Z) :=
  call (fun h => let '(pid, e) := owner_answer h thread in if pid =? 0 then Err e else Ok pid) (Owner thread).

Definition resume_thread (thread : Z) : M (win32 Z) :=
  call (fun h => let '(previous, e) := resume_answer h thread in if previous =? U32_MAX then Err e else Ok previous) (ResumeThread thread).

Definition process_pid_of : M (win32 Z) :=
  call (fun h => let '(pid, e) := pid_answer h in if pid =? 0 then Err e else Ok pid) ProcessPid.

(** [CreateToolhelp32Snapshot] and the walk over its entries: thread and owner ids. *)
Definition thread_entries : M (win32 (list (Z * Z))) := call snapshot_answer ThreadSnapshot.

(** ** One thread *)

(** The end of [resume_if_owned], on the resume handle whose owner was checked. *)
Definition resume_checked (resume : Z) (w : Walk) : M (Visit * Walk) :=
  do! r := resume_thread resume in
  ret match r with
      | Ok previous =>
          if previous =? 1 then (Resumed, resumed_one w)
          else if bool_decide (expected w = Any) then (Resumed, resumed_one w)
          else (Failed, fail (WrongCount previous) w)
      | Err e => (Failed, fail (Call e) w)
      end.

(** From the second open on. *)
Definition reopen_and_resume (tid process_pid : Z) (w : Walk) : M (Visit * Walk) :=
  do! r := open_for_resume tid in
  match r with
  | Err e => ret (Failed, fail (Call e) w)
  | Ok resume =>
      do! o := owner_of resume in
      do! v := match o with
        | Ok again => if again =? process_pid then resume_checked resume w else ret (Failed, fail (OtherThread again) w)
        | Err e => ret (Failed, fail (Call e) w)
        end in
      do! _ := close resume in
      ret v
  end.

Definition resume_if_owned (tid process_pid : Z) (w : Walk) : M (Visit * Walk) :=
  do! r := open_query tid in
  match r with
  | Err e =>
      ret (if e =? ERROR_INVALID_PARAMETER then (Gone, skip w)
           else if e =? ERROR_ACCESS_DENIED then (Denied, skip w)
           else (Failed, fail (Call e) w))
  | Ok query =>
      do! o := owner_of query in
      do! v := match o with
        | Ok owner => if owner =? process_pid then reopen_and_resume tid process_pid w else ret (Foreign owner, skip w)
        | Err e => ret (Failed, fail (Call e) w)
        end in
      do! _ := close query in
      ret v
  end.

Definition creation_time_if_owned (tid process_pid : Z) : M (win32 (option Z)) :=
  do! r := open_query tid in
  match r with
  | Err e => ret (if (e =? ERROR_INVALID_PARAMETER) || (e =? ERROR_ACCESS_DENIED) then Ok None else Err e)
  | Ok thread =>
      do! o := owner_of thread in
      do! v := match o with
        | Ok owner =>
            if owner =? process_pid then
              do! t := call (fun h => times_answer h thread) (ThreadTimes thread) in
              ret match t with Ok created => Ok (Some created) | Err e => Err e end
            else ret (Ok None)
        | Err e => ret (Err e)
        end in
      do! _ := close thread in
      ret v
  end.

(** ** The walk *)

(** The loop of [initial_thread_id]: the times read, or the walk that failed. *)
Fixpoint read_times (process_pid : Z) (tids : list Z) (times : list (Z * Z)) (w : Walk) : M (option (list (Z * Z)) * Walk) :=
  match tids with
  | [] => ret (Some times, w)
  | tid :: tids =>
      do! r := creation_time_if_owned tid process_pid in
      match r with
      | Ok (Some created) => read_times process_pid tids (times ++ [(created, tid)]) w
      | Ok None => read_times process_pid tids times (skip w)
      | Err e => ret (None, fail (Call e) w)
      end
  end.

Definition initial_thread_id (process_pid : Z) (tids : list Z) (w : Walk) : M (option Z * Walk) :=
  do! r := read_times process_pid tids [] w in
  ret match r with
      | (None, w) => (None, w)
      | (Some times, w) =>
          match earliest_created times with
          | NoThread => (None, w)
          | Unique tid => (Some tid, w)
          | Tie first second => (None, fail (Unidentified first second) w)
          end
      end.

(** [visit_thread_entry] for each entry of the snapshot. *)
Fixpoint visit_entries (process_pid : Z) (entries : list (Z * Z)) (w : Walk) : M Walk :=
  match entries with
  | [] => ret w
  | (tid, owner) :: entries =>
      if owner =? process_pid then
        do! v := resume_if_owned tid process_pid w in visit_entries process_pid entries v.2
      else visit_entries process_pid entries w
  end.

(** The child's threads that the snapshot lists. *)
Definition own_threads (process_pid : Z) (entries : list (Z * Z)) : list Z :=
  (filter (fun e => e.2 = process_pid) entries).*1.

Definition resume_initial_threads (expected : SuspendCount) : M (result Failure unit) :=
  do! p := process_pid_of in
  match p with
  | Err e => ret (Err (Call e))
  | Ok process_pid =>
      do! s := thread_entries in
      match s with
      | Err e => ret (Err (Call e))
      | Ok entries =>
          let w := walk expected 0 None false in
          do! w := match expected with
            | ExactlyOne =>
                do! i := initial_thread_id process_pid (own_threads process_pid entries) w in
                match i with
                | (Some initial, w) => do! v := resume_if_owned initial process_pid w in ret v.2
                | (None, w) => ret w
                end
            | Any => visit_entries process_pid entries w
            end in
          ret (walk_verdict w)
      end
  end.

(** ** The job *)

(** [assign_to_kill_on_close_job], [set_kill_on_close_or_close] and [assign_or_close]. *)
Definition assign_held : M (win32 Z) :=
  do! j := call create_answer CreateJob in
  match j with
  | Err e => ret (Err e)
  | Ok job =>
      do! s := call (fun h => set_answer h job) (SetKillOnClose job) in
      match s with
      | Err e => do! _ := note (CloseJob job) in ret (Err e)
      | Ok _ =>
          do! a := call (fun h => assign_answer h job) (AssignProcess job) in
          match a with
          | Err e => do! _ := note (CloseJob job) in ret (Err e)
          | Ok _ => ret (Ok job)
          end
      end
  end.

(** [JobHandle::hard_kill] on a handle no one else has. *)
Definition hard_kill (job : Z) : M (win32 unit) :=
  do! r := call (fun h => terminate_answer h job) (TerminateJob job) in
  do! _ := note (CloseJob job) in
  ret r.

Definition attach_job : M (result Failure (option Z)) :=
  do! job_result := assign_held in
  do! resumed := resume_initial_threads Any in
  match resumed with
  | Err resume_err =>
      do! _ := match job_result with Ok job => do! _ := hard_kill job in ret tt | Err _ => ret tt end in
      ret (Err resume_err)
  | Ok _ => ret (Ok match job_result with Ok job => Some job | Err _ => None end)
  end.
End calls.

(** * The protocol *)

Inductive JobSt := JNone | JMade (job : Z) | JSet (job : Z) | JIn (job : Z) | JDoomed (job : Z) | JClosed.

#[export] Instance JobSt_eq_dec : EqDecision JobSt.
Proof. solve_decision. Defined.

(** A held thread: its handle, its id, and whether its owner was just shown to be the child. *)
Record Held := held { hthread : Z; htid : Z; own : bool }.

Record St := st {
  job : JobSt; decided : bool;           (* the assignment's outcome is known *)
  child : option Z; listed : list Z;     (* the child's pid, and its threads in the snapshot *)
  query : option Held; rsm : option Held;
  seen : list Z; times : list (Z * Z);   (* threads opened for a query, and creation times read *)
  tried : bool; woken : Z; bad : bool }.

Definition set_job (s : St) (j : JobSt) (d : bool) : St :=
  st j d (child s) (listed s) (query s) (rsm s) (seen s) (times s) (tried s) (woken s) (bad s).
Definition set_child (s : St) (c : option Z) (l : list Z) : St :=
  st (job s) (decided s) c l (query s) (rsm s) (seen s) (times s) (tried s) (woken s) (bad s).
Definition set_query (s : St) (q : option Held) (sn : list Z) (b : bool) : St :=
  st (job s) (decided s) (child s) (listed s) q (rsm s) sn (times s) (tried s) (woken s) b.
Definition set_rsm (s : St) (r : option Held) (k : Z) (b : bool) : St :=
  st (job s) (decided s) (child s) (listed s) (query s) r (seen s) (times s) (tried s) k b.
Definition set_tried (s : St) (r : option Held) (b : bool) : St :=
  st (job s) (decided s) (child s) (listed s) (query s) r (seen s) (times s) true (woken s) b.
Definition set_times (s : St) (ts : list (Z * Z)) (b : bool) : St :=
  st (job s) (decided s) (child s) (listed s) (query s) (rsm s) (seen s) ts (tried s) (woken s) b.

Definition start : St := st JNone false None [] None None [] [] false 0 false.

Local Notation is_err r := (match r with Ok _ => false | Err _ => true end).

(** The initial thread is told: every listed thread was examined, none of them in vain, and one was
    created before all others. *)
Definition initial (s : St) (tid : Z) : bool :=
  negb (tried s) && negb (bad s) && (woken s =? 0) && forallb (fun t => bool_decide (t ∈ seen s)) (listed s) &&
  match earliest_created (times s) with Unique t => t =? tid | _ => false end.

Definition step (mode : SuspendCount) (s : St) (e : Ev) : option St :=
  match e with
  | CreateJob r =>
      if bool_decide (job s = JNone) && negb (decided s) then
        Some match r with Ok j => set_job s (JMade j) false | Err _ => set_job s JNone true end
      else None
  | SetKillOnClose j r =>
      if bool_decide (job s = JMade j) then Some (set_job s (if is_err r then JDoomed j else JSet j) false) else None
  | AssignProcess j r =>
      if bool_decide (job s = JSet j) then Some (if is_err r then set_job s (JDoomed j) false else set_job s (JIn j) true) else None
  | TerminateJob j _ =>
      (* only of a job whose child could not be started *)
      if bool_decide (job s = JIn j) && negb ((0 <? woken s) && negb (bad s)) then Some (set_job s (JDoomed j) true) else None
  | CloseJob j => if bool_decide (job s = JDoomed j) then Some (set_job s JClosed true) else None
  | ProcessPid r =>
      if decided s && bool_decide (child s = None)
      then Some (set_child s (match r with Ok p => Some p | Err _ => None end) []) else None
  | ThreadSnapshot r =>
      match child s with
      | Some p => Some (set_child s (Some p) (match r with Ok l => own_threads p l | Err _ => [] end))
      | None => None
      end
  | OpenThread false tid r =>
      if bool_decide (query s = None) && bool_decide (rsm s = None) && bool_decide (tid ∈ listed s) then
        Some match r with
             | Ok h => set_query s (Some (held h tid false)) (tid :: seen s) (bad s)
             | Err e => set_query s None (tid :: seen s) (bad s || negb ((e =? ERROR_INVALID_PARAMETER) || (e =? ERROR_ACCESS_DENIED)))
             end
      else None
  | OpenThread true tid r =>
      match query s, rsm s with
      | Some q, None =>
          (* on the id the query handle pins, while its owner is the child *)
          if (htid q =? tid) && own q && (bool_decide (mode = Any) || initial s tid) then
            Some match r with Ok h => set_tried s (Some (held h tid false)) (bad s) | Err _ => set_tried s None true end
          else None
      | _, _ => None
      end
  | Owner h r =>
      let is_child := match child s with Some p => bool_decide (r = Ok p) | None => false end in
      match rsm s, query s with
      | Some x, _ => if hthread x =? h then Some (set_rsm s (Some (held h (htid x) is_child)) (woken s) (bad s || negb is_child)) else None
      | None, Some q => if hthread q =? h then Some (set_query s (Some (held h (htid q) is_child)) (seen s) (bad s || is_err r)) else None
      | None, None => None
      end
  | ThreadTimes h r =>
      match query s, rsm s with
      | Some q, None =>
          if (hthread q =? h) && own q then
            Some match r with Ok t => set_times s (times s ++ [(t, htid q)]) (bad s) | Err _ => set_times s (times s) true end
          else None
      | _, _ => None
      end
  | ResumeThread h r =>
      match rsm s, query s with
      | Some x, Some q =>
          if (hthread x =? h) && own x && own q && (htid x =? htid q) && (bool_decide (mode = Any) || (woken s =? 0)) then
            Some match r with
                 | Ok c => if (c =? 1) || bool_decide (mode = Any) then set_rsm s (Some (held h (htid x) false)) (woken s + 1) (bad s)
                           else set_rsm s (Some (held h (htid x) false)) (woken s) true
                 | Err _ => set_rsm s (Some (held h (htid x) false)) (woken s) true
                 end
          else None
      | _, _ => None
      end
  | CloseThread h =>
      match rsm s, query s with
      | Some x, _ => if hthread x =? h then Some (set_rsm s None (woken s) (bad s)) else None
      | None, Some q => if hthread q =? h then Some (set_query s None (seen s) (bad s)) else None
      | None, None => None
      end
  end.

(** * Lemmas *)

(** ** The thread created first *)

Definition earliest_inv (times : list (Z * Z)) (acc : option (Z * Z) * option Z) : Prop :=
  match acc with
  | (None, t) => times = [] /\ t = None
  | (Some (c, first), None) => exists l1 l2, times = l1 ++ (c, first) :: l2 /\ Forall (fun x => c < x.1) (l1 ++ l2)
  | (Some (c, first), Some second) => exists l1 l2 l3, times = l1 ++ (c, first) :: l2 ++ (c, second) :: l3 /\
      Forall (fun x => c < x.1) (l1 ++ l2) /\ Forall (fun x => c <= x.1) l3
  end.

Lemma earliest_fold times : earliest_inv times (foldl earliest_step (None, None) times).
Proof.
  induction times as [|[c tid] times IH] using rev_ind; [done|]. rewrite foldl_snoc.
  destruct (foldl earliest_step (None, None) times) as [[[b first]|] [second|]]; cbn [earliest_inv earliest_step fst snd] in *.
  - destruct IH as (l1 & l2 & l3 & -> & Hlt & Hle). destruct (Z.ltb_spec b c); [|destruct (Z.eqb_spec c b) as [->|]].
    + exists l1, l2, (l3 ++ [(c, tid)]). rewrite <- !app_assoc. cbn. rewrite <- app_assoc. split; [done|]. split; [done|]. apply Forall_app. split; [done|]. repeat constructor. cbn. lia.
    + exists l1, l2, (l3 ++ [(b, tid)]). rewrite <- !app_assoc. cbn. rewrite <- app_assoc. split; [done|]. split; [done|]. apply Forall_app. split; [done|]. repeat constructor. cbn. lia.
    + exists (l1 ++ (b, first) :: l2 ++ (b, second) :: l3), []. split; [done|]. rewrite app_nil_r. apply Forall_app in Hlt as [H1 H2].
      rewrite Forall_app, Forall_cons, Forall_app, Forall_cons. cbn.
      split_and!; try lia; (eapply Forall_impl; [eassumption|cbn; lia]).
  - destruct IH as (l1 & l2 & -> & Hlt). destruct (Z.ltb_spec b c); [|destruct (Z.eqb_spec c b) as [->|]].
    + exists l1, (l2 ++ [(c, tid)]). rewrite <- app_assoc. split; [done|]. rewrite app_assoc. apply Forall_app. split; [done|]. repeat constructor. cbn. lia.
    + exists l1, l2, []. rewrite <- app_assoc. split; [done|]. split; [done|constructor].
    + exists (l1 ++ (b, first) :: l2), []. split; [done|]. rewrite app_nil_r. apply Forall_app in Hlt as [H1 H2].
      rewrite Forall_app, Forall_cons. cbn. split_and!; try lia; (eapply Forall_impl; [eassumption|cbn; lia]).
  - by destruct IH.
  - destruct IH as [-> _]. exists [], []. split; [done|constructor].
Qed.

(** One thread was created before all others. *)
Lemma earliest_Unique times tid :
  earliest_created times = Unique tid -> exists l1 c l2, times = l1 ++ (c, tid) :: l2 /\ Forall (fun x => c < x.1) (l1 ++ l2).
Proof.
  unfold earliest_created. pose proof (earliest_fold times) as H. destruct (foldl _ _ _) as [[[b first]|] [second|]]; try done.
  intros [= <-]. destruct H as (l1 & l2 & ? & ?). by exists l1, b, l2.
Qed.

Section lemmas.
Context `{Win} (mode : SuspendCount).
Notation keeps_ s c Q := (keeps (step mode) s c Q).

Definition is_failed (w : Walk) : bool := match last_err w with Some _ => true | None => false end.

(** The automaton's account and the walk's agree. *)
Definition agrees (s : St) (w : Walk) : Prop := expected w = mode /\ resumed w = woken s /\ 0 <= woken s /\ is_failed w = bad s.

(** What the walk leaves alone. *)
Definition frame (s s' : St) : Prop := job s' = job s /\ decided s' = decided s /\ child s' = child s /\ listed s' = listed s.

Definition free_ (s : St) : Prop := query s = None /\ rsm s = None.

Local Ltac fields := unfold agrees, frame, free_ in *; destruct_and?; cbn; split_and!; try done; try congruence.

Lemma is_failed_fail e w : is_failed (fail e w) = true.
Proof. unfold is_failed. cbn. by destruct (last_err w). Qed.

Definition allowed (s : St) (tid : Z) : Prop := mode = Any \/ initial s tid = true.

Lemma resume_checked_ok s x q w :
  rsm s = Some x -> own x = true -> query s = Some q -> own q = true -> htid x = htid q -> bool_decide (mode = Any) || (woken s =? 0) = true -> agrees s w ->
  keeps_ s (resume_checked (hthread x) w) (fun r s' => frame s s' /\ query s' = query s /\ seen s' = seen s /\
    (exists y, rsm s' = Some y /\ hthread y = hthread x) /\ agrees s' r.2).
Proof.
  intros Hr Hx Hq Hqo Ht Hone Ha. unfold resume_checked, resume_thread. keeps_step. keeps_step.
  cbn [step]. rewrite Hr, Hq, Hx, Hqo, Ht, Hone, !Z.eqb_refl. cbn [andb]. eexists. split; [reflexivity|].
  apply keeps_ret. destruct Ha as (He & Hw & Hp & Hf). rewrite He. destruct a as [c|e].
  - destruct (c =? 1); cbn [orb]; [fields; [by eexists|lia..]|].
    case_bool_decide; [fields; [by eexists|lia..]|]. fields; [by eexists|apply is_failed_fail].
  - fields; [by eexists|apply is_failed_fail].
Qed.

Lemma reopen_ok s tid p q w :
  query s = Some q -> htid q = tid -> own q = true -> rsm s = None -> child s = Some p -> allowed s tid -> agrees s w ->
  keeps_ s (reopen_and_resume tid p w) (fun r s' => frame s s' /\ query s' = query s /\ rsm s' = None /\ seen s' = seen s /\ agrees s' r.2).
Proof.
  intros Hq Ht Ho Hr Hc Hall Ha. unfold reopen_and_resume, open_for_resume. keeps_step. keeps_step.
  cbn [step]. rewrite Hq, Hr, Ht, Ho, Z.eqb_refl. cbn [andb].
  assert (bool_decide (mode = Any) || initial s tid = true) as -> by (destruct Hall as [->| ->]; [by rewrite bool_decide_true|apply orb_true_r]).
  eexists. split; [reflexivity|]. destruct a as [rh|e].
  2:{ apply keeps_ret. fields. apply is_failed_fail. }
  unfold owner_of. keeps_step. keeps_step. cbn [step set_tried rsm query child hthread htid]. rewrite Hc, Z.eqb_refl.
  eexists. split; [reflexivity|]. keeps_step.
  eapply keeps_mono with (Q := fun v s' => frame s s' /\ query s' = query s /\ seen s' = seen s /\
    (exists y, rsm s' = Some y /\ hthread y = rh) /\ agrees s' v.2).
  - destruct a as [again|e].
    + destruct (Z.eqb_spec again p) as [->|Hne].
      * rewrite bool_decide_true by done. set (s1 := set_rsm _ _ _ _). change rh with (hthread (held rh tid true)).
        eapply keeps_mono; [apply (resume_checked_ok s1 (held rh tid true) q w); try done; [|fields; by rewrite orb_false_r]|].
        { destruct Hall as [->|Hi]; [done|]. unfold initial in Hi. rewrite !andb_true_iff in Hi. destruct Hi as [[[_ Hk] _] _].
          unfold s1. cbn. by rewrite Hk, orb_true_r. }
        intros r s' ?. fields.
      * rewrite bool_decide_false by congruence. apply keeps_ret. fields; [by eexists|]. by rewrite is_failed_fail, orb_true_r.
    + rewrite bool_decide_false by done. apply keeps_ret. fields; [by eexists|]. by rewrite is_failed_fail, orb_true_r.
  - intros v s' (Hf & Hq' & Hs' & (y & Hy & Hyh) & Ha'). keeps_step. unfold close.
    eapply keeps_note; [cbn; by rewrite Hy, Hyh, Z.eqb_refl|]. apply keeps_ret. fields.
Qed.

Lemma initial_query s q tid t : initial s tid = true -> initial (set_query s q (t :: seen s) (bad s)) tid = true.
Proof.
  unfold initial. cbn. intros Hi. apply andb_true_iff in Hi as [Hi ->]. apply andb_true_iff in Hi as [Hi Hl]. rewrite Hi. cbn.
  rewrite andb_true_r. rewrite forallb_forall in Hl |- *. intros x Hx. specialize (Hl x Hx).
  apply bool_decide_eq_true in Hl. apply bool_decide_eq_true. by right.
Qed.

(** A query handle is opened, its owner read, something done with it, and it is closed. *)
Lemma close_query s q : query s = Some q -> rsm s = None -> step mode s (CloseThread (hthread q)) = Some (set_query s None (seen s) (bad s)).
Proof. intros Hq Hr. cbn. by rewrite Hr, Hq, Z.eqb_refl. Qed.

Lemma resume_if_owned_ok s tid p w :
  free_ s -> tid ∈ listed s -> child s = Some p -> allowed s tid -> agrees s w ->
  keeps_ s (resume_if_owned tid p w) (fun r s' => frame s s' /\ free_ s' /\ seen s' = tid :: seen s /\ agrees s' r.2).
Proof.
  intros [Hq Hr] Hl Hc Hall Ha. unfold resume_if_owned, open_query. keeps_step. keeps_step.
  cbn [step]. rewrite Hq, Hr, !bool_decide_true by done. cbn [andb]. eexists. split; [reflexivity|]. destruct a as [qh|e].
  2:{ apply keeps_ret. destruct Ha as (He & Hw & Hp & Hf). unfold is_failed in Hf.
      destruct (e =? ERROR_INVALID_PARAMETER); [fields; by rewrite orb_false_r|].
      destruct (e =? ERROR_ACCESS_DENIED); [fields; by rewrite orb_false_r|]. fields. by rewrite is_failed_fail, orb_true_r. }
  unfold owner_of. keeps_step. keeps_step. cbn [step set_query rsm query child hthread htid]. rewrite Hr, Hc, Z.eqb_refl.
  eexists. split; [reflexivity|]. keeps_step. set (b := bool_decide (a = Ok p)). set (s1 := set_query _ (Some (held qh tid b)) _ _).
  eapply keeps_mono with (Q := fun v s' => frame s s' /\ (exists q, query s' = Some q /\ hthread q = qh) /\ rsm s' = None /\
    seen s' = tid :: seen s /\ agrees s' v.2).
  - destruct a as [owner|e].
    + destruct (Z.eqb_spec owner p) as [->|Hne].
      * eapply keeps_mono; [apply (reopen_ok s1 tid p (held qh tid b) w); try done|].
        -- unfold b. by apply bool_decide_true.
        -- destruct Hall as [?|Hi]; [by left|right]. pose proof (initial_query s (Some (held qh tid b)) tid tid Hi) as Hi'.
           unfold initial, s1 in *. cbn in *. by rewrite orb_false_r.
        -- unfold s1. fields. by rewrite orb_false_r.
        -- intros v s' (Hf & Hq' & Hr' & Hs' & Ha'). split; [done|]. split; [by exists (held qh tid b); rewrite Hq'|]. done.
      * apply keeps_ret. unfold s1. split; [done|]. split; [by eexists|]. split; [done|]. split; [done|]. fields. by rewrite orb_false_r.
    + apply keeps_ret. unfold s1. split; [done|]. split; [by eexists|]. split; [done|]. split; [done|]. fields. by rewrite is_failed_fail, orb_true_r.
  - intros v s' (Hf & (q & Hq' & Hqh) & Hr' & Hs' & Ha'). keeps_step. unfold close. subst qh.
    eapply keeps_note; [by apply close_query|]. apply keeps_ret. fields.
Qed.

Lemma creation_ok s tid p :
  free_ s -> tid ∈ listed s -> child s = Some p -> bad s = false ->
  keeps_ s (creation_time_if_owned tid p) (fun r s' => frame s s' /\ free_ s' /\ seen s' = tid :: seen s /\ tried s' = tried s /\
    woken s' = woken s /\ match r with
      | Ok (Some c) => times s' = times s ++ [(c, tid)] /\ bad s' = false
      | Ok None => times s' = times s /\ bad s' = false
      | Err _ => bad s' = true
      end).
Proof.
  intros [Hq Hr] Hl Hc Hb. unfold creation_time_if_owned, open_query. keeps_step. keeps_step.
  cbn [step]. rewrite Hq, Hr, !bool_decide_true by done. cbn [andb]. eexists. split; [reflexivity|]. destruct a as [qh|e].
  2:{ apply keeps_ret. destruct ((e =? ERROR_INVALID_PARAMETER) || (e =? ERROR_ACCESS_DENIED)); cbn; rewrite Hb; fields. }
  unfold owner_of. keeps_step. keeps_step. cbn [step set_query rsm query child hthread htid]. rewrite Hr, Hc, Z.eqb_refl.
  eexists. split; [reflexivity|]. keeps_step. set (b := bool_decide (a = Ok p)). set (s1 := set_query _ (Some (held qh tid b)) _ _).
  eapply keeps_mono with (Q := fun r s' => frame s s' /\ (exists q, query s' = Some q /\ hthread q = qh) /\ rsm s' = None /\
    seen s' = tid :: seen s /\ tried s' = tried s /\ woken s' = woken s /\ match r with
      | Ok (Some c) => times s' = times s ++ [(c, tid)] /\ bad s' = false
      | Ok None => times s' = times s /\ bad s' = false
      | Err _ => bad s' = true
      end).
  - destruct a as [owner|e].
    + destruct (Z.eqb_spec owner p) as [->|Hne].
      * keeps_step. keeps_step. cbn [step s1 set_query query rsm hthread htid own]. rewrite Hr, Z.eqb_refl. unfold b.
        rewrite bool_decide_true by done. cbn [andb]. eexists. split; [reflexivity|].
        apply keeps_ret. destruct a as [t|e]; cbn; (split; [done|]); (split; [by eexists|]); rewrite ?Hb; fields.
      * apply keeps_ret. unfold s1. cbn. split; [done|]. split; [by eexists|]. rewrite Hb. fields.
    + apply keeps_ret. unfold s1. cbn. split; [done|]. split; [by eexists|]. rewrite Hb. fields.
  - intros r s' (Hf & (q & Hq' & Hqh) & Hr' & Hs' & Ht' & Hw' & Hm). keeps_step. unfold close. subst qh.
    eapply keeps_note; [by apply close_query|]. apply keeps_ret. split; [fields|]. split; [done|]. split; [done|]. by destruct r as [[c|]|e].
Qed.

Lemma read_times_ok tids s p w :
  free_ s -> (forall t, t ∈ tids -> t ∈ listed s) -> child s = Some p -> bad s = false -> agrees s w ->
  keeps_ s (read_times p tids (times s) w) (fun r s' => frame s s' /\ free_ s' /\ agrees s' r.2 /\ tried s' = tried s /\ woken s' = woken s /\
    (forall t, t ∈ seen s -> t ∈ seen s') /\
    match r.1 with Some ts => times s' = ts /\ bad s' = false /\ (forall t, t ∈ tids -> t ∈ seen s') /\ (forall x, x ∈ ts -> x ∈ times s \/ x.2 ∈ tids) | None => bad s' = true end).
Proof.
  revert s w. induction tids as [|tid tids IH]; intros s w Hf Hl Hc Hb Ha; cbn [read_times].
  { apply keeps_ret. split_and!; try done. cbn. split_and!; try done; [intros t Ht; by apply not_elem_of_nil in Ht|by left]. }
  keeps_step. eapply keeps_mono; [apply creation_ok; [done|apply Hl; left|done|done]|].
  intros r s' (Hfr & Hfree & Hs & Ht & Hw & Hm). pose proof Hfr as (_ & _ & Hc' & Hl').
  assert (forall w', expected w' = mode -> resumed w' = resumed w -> is_failed w' = bad s' -> agrees s' w') as Hag.
  { intros w' H1 H2 H3. fields. }
  assert (forall ts w', times s' = ts -> bad s' = false -> agrees s' w' ->
    keeps_ s' (read_times p tids ts w') (fun r s' => frame s s' /\ free_ s' /\ agrees s' r.2 /\ tried s' = tried s /\ woken s' = woken s /\
    (forall t, t ∈ seen s -> t ∈ seen s') /\
    match r.1 with Some ts' => times s' = ts' /\ bad s' = false /\ (forall t, t ∈ tid :: tids -> t ∈ seen s') /\ (forall x, x ∈ ts' -> x ∈ ts \/ x.2 ∈ tids) | None => bad s' = true end)) as Hrest.
  { intros ts w' <- Hb' Ha'. eapply keeps_mono; [apply IH; try done|].
    - intros t Hin. rewrite Hl'. apply Hl. by right.
    - by rewrite Hc'.
    - intros r' s2 (Hfr2 & Hfree2 & Ha2 & Ht2 & Hw2 & Hs2 & Hm2). split; [fields|]. split; [done|]. split; [done|]. split; [congruence|]. split; [congruence|].
      split; [intros t Hin; apply Hs2; rewrite Hs; by right|]. destruct r'.1; [|done]. destruct Hm2 as (? & ? & Hin & ?). split; [done|]. split; [done|]. split; [|done].
      intros t [->|Hi]%elem_of_cons; [apply Hs2; rewrite Hs; left|by apply Hin]. }
  assert (forall ts w', (forall x, x ∈ ts -> x ∈ times s \/ x.2 ∈ tid :: tids) -> times s' = ts -> bad s' = false -> agrees s' w' ->
    keeps_ s' (read_times p tids ts w') (fun r s' => frame s s' /\ free_ s' /\ agrees s' r.2 /\ tried s' = tried s /\ woken s' = woken s /\
    (forall t, t ∈ seen s -> t ∈ seen s') /\
    match r.1 with Some ts => times s' = ts /\ bad s' = false /\ (forall t, t ∈ tid :: tids -> t ∈ seen s') /\
      (forall x, x ∈ ts -> x ∈ times s \/ x.2 ∈ tid :: tids) | None => bad s' = true end)) as Hstep.
  { intros ts w' Hts H1 H2 H3. eapply keeps_mono; [by apply Hrest|]. intros r' s2 (? & ? & ? & ? & ? & ? & Hm2). split_and!; try done.
    destruct r'.1; [|done]. destruct Hm2 as (? & ? & ? & Hx). split_and!; try done. intros x Hxi. destruct (Hx x Hxi) as [Hi|Hi]; [by apply Hts|right; by right]. }
  destruct Ha as (He & Hwk & Hp & Hfl). destruct r as [[c|]|e].
  - destruct Hm as [Hts Hb']. apply Hstep; [|done|done|apply Hag; congruence].
    intros x [Hx|Hx]%elem_of_app; [by left|]. apply list_elem_of_singleton in Hx as ->. right; left.
  - destruct Hm as [Hts Hb']. apply Hstep; [by left|done|done|]. apply Hag; [done|done|]. rewrite Hb'. unfold is_failed in *. cbn. congruence.
  - apply keeps_ret. split; [done|]. split; [done|]. split; [apply Hag; [done|done|cbn [snd]; rewrite is_failed_fail; by rewrite Hm]|].
    split; [done|]. split; [done|]. split; [|done]. intros t Hin. rewrite Hs. by right.
Qed.

Lemma visit_entries_ok entries s p w :
  free_ s -> (forall t, t ∈ own_threads p entries -> t ∈ listed s) -> child s = Some p -> mode = Any -> agrees s w ->
  keeps_ s (visit_entries p entries w) (fun w' s' => frame s s' /\ free_ s' /\ agrees s' w' /\
    (forall t, t ∈ seen s -> t ∈ seen s') /\ (forall t, t ∈ own_threads p entries -> t ∈ seen s')).
Proof.
  intros Hf Hl Hc Hm. revert s w Hf Hl Hc. induction entries as [|[tid owner] entries IH]; intros s w Hf Hl Hc Ha; cbn [visit_entries].
  { apply keeps_ret. split_and!; try done. intros t Ht. by apply not_elem_of_nil in Ht. }
  destruct (Z.eqb_spec owner p) as [->|Hne].
  - assert (own_threads p ((tid, p) :: entries) = tid :: own_threads p entries) as Hot by (unfold own_threads; by rewrite filter_cons_True).
    rewrite Hot in *. keeps_step. eapply keeps_mono; [apply resume_if_owned_ok; try done; [apply Hl; left|by left]|].
    intros r s' (Hfr & Hfree & Hs & Ha'). pose proof Hfr as (_ & _ & Hc' & Hl'). eapply keeps_mono; [apply IH; try done|].
    + intros t Hin. rewrite Hl'. apply Hl. by right.
    + by rewrite Hc'.
    + intros w' s2 (Hfr2 & Hfree2 & Ha2 & Hs2 & Hin2). split; [fields|]. split; [done|]. split; [done|].
      split; [intros t Hin; apply Hs2; rewrite Hs; by right|]. intros t [->|Hin]%elem_of_cons; [apply Hs2; rewrite Hs; left|by apply Hin2].
  - assert (own_threads p ((tid, owner) :: entries) = own_threads p entries) as Hot by (unfold own_threads; by rewrite filter_cons_False).
    rewrite Hot in *. by apply IH.
Qed.

(** What the verdict says of the threads. *)
Definition verdict_of (s : St) (r : result Failure unit) : Prop :=
  (r = Ok tt <-> 0 < woken s /\ bad s = false) /\ (r = Ok tt -> forall t, t ∈ listed s -> t ∈ seen s).

Lemma walk_verdict_ok s w :
  agrees s w -> (forall t, t ∈ listed s -> t ∈ seen s) -> verdict_of s (walk_verdict w).
Proof.
  intros (He & Hw & Hp & Hf) Hs. split; [|done]. unfold walk_verdict, is_failed in *. rewrite Hw.
  destruct (last_err w); [split; [done|intros [_ Hb]; congruence]|]. destruct (Z.eqb_spec (woken s) 0); [split; [done|lia]|].
  split; [|done]. intros _. split; [lia|done].
Qed.

(** A frozen child's start, with nothing to wake. *)
Lemma unwoken_verdict s (e : Failure) : woken s = 0 -> verdict_of s (Err e).
Proof. intros Hw. split; [|done]. split; [done|lia]. Qed.

Definition untouched (s : St) : Prop :=
  decided s = true /\ child s = None /\ listed s = [] /\ free_ s /\ seen s = [] /\ times s = [] /\ tried s = false /\ woken s = 0 /\ bad s = false.

Lemma resume_initial_ok s :
  untouched s -> keeps_ s (resume_initial_threads mode) (fun r s' => job s' = job s /\ decided s' = true /\ free_ s' /\ verdict_of s' r).
Proof.
  intros (Hd & Hc & Hl & Hf & Hs & Ht & Htr & Hw & Hb). pose proof Hf as [Hq Hr]. unfold resume_initial_threads, process_pid_of, thread_entries.
  keeps_step. keeps_step. cbn [step]. rewrite Hd, Hc, bool_decide_true by done. cbn [andb]. eexists. split; [reflexivity|].
  destruct a as [p|e]; [|apply keeps_ret; split_and!; try done; by apply unwoken_verdict].
  keeps_step. keeps_step. cbn [step set_child child]. eexists. split; [reflexivity|].
  destruct a as [entries|e]; [|apply keeps_ret; split_and!; try done; by apply unwoken_verdict].
  set (s1 := set_child _ (Some p) (own_threads p entries)). set (w := walk mode 0 None false).
  assert (agrees s1 w) as Ha by (split_and!; [done|cbn; by rewrite Hw|cbn; lia|cbn; by rewrite Hb]).
  destruct mode eqn:Em.
  - keeps_step. rewrite <- Em in *. eapply keeps_mono; [apply (visit_entries_ok entries s1 p w); done|].
    intros w' s' (Hfr & Hfree & Ha' & _ & Hin). apply keeps_ret. destruct Hfr as (Hj & Hd' & _ & Hl'). cbn in Hj, Hd', Hl'.
    split; [done|]. split; [congruence|]. split; [done|]. apply walk_verdict_ok; [done|]. rewrite Hl'. done.
  - keeps_step. unfold initial_thread_id. keeps_step. keeps_step. rewrite <- Em in *.
    assert (times s1 = []) as Ht1 by done. rewrite <- Ht1.
    eapply keeps_mono; [apply (read_times_ok (own_threads p entries) s1 p w); done|].
    intros [ots w'] s' (Hfr & Hfree & Ha' & Htr' & Hw' & _ & Hm). pose proof Hfr as (Hj & Hd' & Hc' & Hl'). cbn in Hj, Hd', Hc', Hl', Htr', Hw'. cbn [fst snd] in *.
    assert (forall w2, resumed w2 = 0 -> last_err w2 = last_err w2 -> verdict_of s' (walk_verdict w2)) as Hnone.
    { intros w2 Hr2 _. unfold walk_verdict. destruct (last_err w2); [by apply unwoken_verdict; congruence|]. rewrite Hr2. apply unwoken_verdict. congruence. }
    assert (resumed w' = 0) as Hr0 by (destruct Ha' as (_ & -> & _); congruence).
    destruct ots as [ts|]; [|apply keeps_ret, keeps_ret, keeps_ret; split_and!; try done; [congruence|by apply Hnone]].
    destruct Hm as (Hts & Hb' & Hin & Hsub). apply keeps_ret. destruct (earliest_created ts) as [|tid|t1 t2] eqn:Ee.
    + apply keeps_ret, keeps_ret. split_and!; try done; [congruence|by apply Hnone].
    + keeps_step. eapply keeps_mono; [apply (resume_if_owned_ok s' tid p w'); try done|].
      * rewrite Hl'. apply earliest_Unique in Ee as (l1 & c & l2 & -> & _).
        destruct (Hsub (c, tid)) as [Hx|Hx]; [apply elem_of_app; right; left|by rewrite Ht1 in Hx; apply not_elem_of_nil in Hx|done].
      * right. unfold initial. rewrite Htr', Htr, Hb', Hw', Hw, Hts, Ee, !Z.eqb_refl. cbn. rewrite ?andb_true_r, Hl'.
        apply forallb_forall. intros t Hi. apply bool_decide_eq_true, Hin. by apply list_elem_of_In.
      * intros r s2 (Hfr2 & Hfree2 & Hs2 & Ha2). apply keeps_ret, keeps_ret. destruct Hfr2 as (Hj2 & Hd2 & _ & Hl2).
        split; [congruence|]. split; [congruence|]. split; [done|]. apply walk_verdict_ok; [done|]. rewrite Hl2, Hl', Hs2. intros t Hi. right. by apply Hin.
    + apply keeps_ret, keeps_ret. split_and!; try done; [congruence|by apply Hnone].
Qed.

Lemma walk_alone s : untouched s -> job s = JNone -> keeps_ s (resume_initial_threads mode) (fun r s' => free_ s' /\ verdict_of s' r).
Proof. intros Hu _. eapply keeps_mono; [by apply resume_initial_ok|]. by intros r s' (_ & _ & ? & ?). Qed.
End lemmas.

(** A frozen child whose job is decided. *)
Definition frozen : St := set_job start JNone true.

Lemma step_once s e s' : step ExactlyOne s e = Some s' -> woken s <= 1 -> woken s' <= 1.
Proof.
  intros Hs Hw. destruct e; cbn [step] in Hs; repeat case_match; simplify_eq; try done; cbn in *; try lia.
  all: change (bool_decide (ExactlyOne = Any)) with false in *; cbn [orb] in *; rewrite !andb_true_iff, !Z.eqb_eq in *; destruct_and?; lia.
Qed.

Lemma accepts_once t s s' : accepts (step ExactlyOne) s t = Some s' -> woken s <= 1 -> woken s' <= 1.
Proof.
  revert s. induction t as [|e t IH]; intros s; cbn [accepts]; [by intros [= <-]|].
  destruct (step ExactlyOne s e) as [s1|] eqn:E; [|done]. cbn. intros Ht Hw. eapply IH; [exact Ht|]. by eapply step_once.
Qed.

Section attach.
Context `{Win}.

Lemma assign_held_ok :
  keeps (step Any) start assign_held (fun r s => untouched s /\ match r with Ok j => job s = JIn j | Err _ => job s = JNone \/ job s = JClosed end).
Proof.
  unfold assign_held. repeat first [progress keeps_go | rewrite bool_decide_true by done].
  all: try (eapply keeps_note; [cbn; by rewrite bool_decide_true|]; apply keeps_ret); (split; [by split_and!|by auto]).
Qed.

(** What an attach leaves: no handle of a thread, and the job as the answer says. *)
Definition attached (r : result Failure (option Z)) (s : St) : Prop :=
  free_ s /\
  match r with
  | Ok j => job s = match j with Some j => JIn j | None => job s end /\ (j = None -> job s = JNone \/ job s = JClosed) /\
      verdict_of s (Ok tt)
  | Err e => (job s = JNone \/ job s = JClosed) /\ ~ (0 < woken s /\ bad s = false)
  end.

Lemma attach_job_ok : keeps (step Any) start attach_job (fun r s => attached r s).
Proof.
  unfold attach_job. keeps_step. eapply keeps_mono; [apply assign_held_ok|]. intros jr s [Hu Hj]. keeps_step.
  eapply keeps_mono; [by apply resume_initial_ok|]. intros r s' (Hj' & Hd & Hf & Hv). destruct r as [[]|e].
  - apply keeps_ret. destruct jr as [j|e]; (split; [done|]).
    + split; [congruence|]. split; [done|exact Hv].
    + split; [done|]. split; [intros _; rewrite Hj'; exact Hj|exact Hv].
  - assert (~ (0 < woken s' /\ bad s' = false)) as Hn by (destruct Hv as [Hv _]; intros Hx; by apply Hv in Hx).
    destruct jr as [j|e']; [|keeps_step; apply keeps_ret; apply keeps_ret; split; [done|]; split; [rewrite Hj'; exact Hj|done]].
    keeps_step. keeps_step. unfold hard_kill. keeps_step. keeps_step. cbn [step]. rewrite Hj', Hj, bool_decide_true by done.
    assert (negb ((0 <? woken s') && negb (bad s')) = true) as ->.
    { destruct (Z.ltb_spec 0 (woken s')), (bad s'); try done. exfalso. by apply Hn. }
    cbn [andb]. eexists. split; [reflexivity|]. keeps_step. eapply keeps_note; [cbn; by rewrite bool_decide_true|].
    apply keeps_ret, keeps_ret, keeps_ret. split; [done|]. split; [by right|done].
Qed.

(** C37: A contained child is started safely. Nothing of it is resumed before the assignment to its job is
    decided, and only a thread that the snapshot lists under the child, opened while a handle pins its id
    and shown through both handles to be the child's; every handle opened is closed. The start succeeds
    exactly if a thread was resumed and no call failed on a thread of the child, and then each listed
    thread was looked at; its job is handed on exactly if the child is in it, and a child that did not
    start is killed through its job and the job closed. A frozen child's release resumes one thread at
    most, the one created before all the others, after all of them were looked at. *)
Theorem child_started_safely h :
  wp attach_job h (fun r t => exists s, accepts (step Any) start t = Some s /\ attached r s) /\
  wp (resume_initial_threads ExactlyOne) h (fun r t => exists s, accepts (step ExactlyOne) frozen t = Some s /\ free_ s /\
    woken s <= 1 /\ verdict_of s r).
Proof.
  split; [apply (attach_job_ok h)|]. eapply wp_mono; [apply (resume_initial_ok ExactlyOne frozen ltac:(by split_and!) h)|].
  intros r t (s & Ht & _ & _ & Hf & Hv). exists s. split; [done|]. split; [done|]. split; [|done]. by eapply accepts_once.
Qed.
End attach.

(** The thread taken for the initial one is the only one created at its time and before all others;
    equal earliest times are told as a tie, in the order listed. *)
Theorem earliest_created_spec times :
  match earliest_created times with
  | NoThread => times = []
  | Unique tid => exists l1 c l2, times = l1 ++ (c, tid) :: l2 /\ Forall (fun x => c < x.1) (l1 ++ l2)
  | Tie first second => exists l1 c l2 l3, times = l1 ++ (c, first) :: l2 ++ (c, second) :: l3 /\
      Forall (fun x => c < x.1) (l1 ++ l2) /\ Forall (fun x => c <= x.1) l3
  end.
Proof.
  unfold earliest_created. pose proof (earliest_fold times) as H. destruct (foldl _ _ _) as [[[b first]|] [second|]]; cbn in H.
  - destruct H as (l1 & l2 & l3 & ? & ? & ?). by exists l1, b, l2, l3.
  - destruct H as (l1 & l2 & ? & ?). by exists l1, b, l2.
  - by destruct H.
  - by destruct H.
Qed.

(** * A child with two threads, the second started by someone else *)

Definition demo_win : Win := {|
  create_answer h := Ok 40; set_answer h j := Ok tt; assign_answer h j := Ok tt; terminate_answer h j := Ok tt;
  pid_answer h := (7, 0); snapshot_answer h := Ok [(100, 7); (101, 7); (200, 9)];
  open_answer h resume tid := Ok (if resume then tid + 1000 else tid + 500);
  owner_answer h thread := (7, 0);
  times_answer h thread := Ok (if thread =? 600 then 20 else 10);
  resume_answer h thread := (1, 0) |}.

(** The release resumes thread 101, created first, and leaves 100 alone. *)
Lemma child_started_safely_witness :
  (@resume_initial_threads demo_win ExactlyOne []).1 = Ok tt /\
  omap (fun e => match e with ResumeThread h _ => Some h | _ => None end) (@resume_initial_threads demo_win ExactlyOne []).2 = [1101] /\
  exists s, accepts (step ExactlyOne) frozen (@resume_initial_threads demo_win ExactlyOne []).2 = Some s /\ woken s <= 1.
Proof.
  destruct (proj2 (@child_started_safely demo_win [])) as (r & t & Hr & s & Hs & _ & Hw & _).
  split; [vm_compute; reflexivity|]. split; [vm_compute; reflexivity|]. exists s. unfold runs in Hr. cbn [app] in Hr. rewrite Hr. by split.
Defined.
