(* ===== verification/JobHandle.v ===== *)
(** The handle of a contained child's job, [JobHandle] of [src/containment/windows.rs], used by several
    threads at once: the lock, the handle's value, and the kernel's table of handles, where a closed
    value may come to name another object. Threads' steps interleave freely. *)
From S2P Require Import Prelude.
From stdpp Require Import gmap.
Local Open Scope Z_scope.

(** * The kernel's handles *)

(** What a handle's value names: this job, or some other object of the process. *)
Inductive Obj := Ours | Other.

#[export] Instance Obj_eq_dec : EqDecision Obj.
Proof. solve_decision. Defined.

(** * Threads *)

(** What [with_handle] is given: [disarm]'s call, a query of the job, or [duplicate_job]. *)
Inductive Op := Disarm | Query | Duplicate.

Inductive Pc :=
| Idle
| Holding (op : Op)            (* the read lock is held *)
| Calling (op : Op) (v : Z)    (* the value was read *)
| Unlocking
| UnlockingDup (d : Z)         (* with a duplicate *)
| Waiting (d : Z)              (* on the duplicate, without the lock *)
| Taking (kill : bool)         (* the write lock is held: [take] *)
| Terminating (v : Z)          (* [hard_kill], after [take] *)
| Closing (v : Z).             (* [hard_kill], [drop], or the end of a wait *)

Record World := world {
  raw : option Z; readers : list nat; writer : option nat; pcs : nat -> Pc;
  handles : gmap Z Obj;
  armed : bool; terminated : bool; killed : bool;
  acts : list (Z * option Obj)  (* the calls made: the value, and what it named then *) }.

Definition upd (i : nat) (pc : Pc) (f : nat -> Pc) : nat -> Pc := fun j => if decide (j = i) then pc else f j.

Definition set_pc (w : World) (i : nat) (pc : Pc) : World :=
  world (raw w) (readers w) (writer w) (upd i pc (pcs w)) (handles w) (armed w) (terminated w) (killed w) (acts w).
Definition set_lock (w : World) (rs : list nat) (wr : option nat) : World :=
  world (raw w) rs wr (pcs w) (handles w) (armed w) (terminated w) (killed w) (acts w).
Definition set_raw (w : World) (r : option Z) : World :=
  world r (readers w) (writer w) (pcs w) (handles w) (armed w) (terminated w) (killed w) (acts w).
Definition set_handles (w : World) (h : gmap Z Obj) : World :=
  world (raw w) (readers w) (writer w) (pcs w) h (armed w) (terminated w) (killed w) (acts w).
Definition set_job (w : World) (a t k : bool) : World :=
  world (raw w) (readers w) (writer w) (pcs w) (handles w) a t k (acts w).

(** A call on a handle: it acts on whatever the value names then. *)
Definition act (w : World) (v : Z) : World :=
  world (raw w) (readers w) (writer w) (pcs w) (handles w) (armed w) (terminated w) (killed w) (acts w ++ [(v, handles w !! v)]).

Definition is_ours (o : option Obj) : bool := match o with Some Ours => true | _ => false end.

Definition any_ours (h : gmap Z Obj) : bool := existsb (fun x => is_ours (Some x.2)) (map_to_list h).

(** [SetInformationJobObject], where it succeeds; it changes the job only if the value names it. *)
Definition disarm_call (w : World) (v : Z) (ok : bool) : World :=
  let w' := act w v in if ok && is_ours (handles w !! v) then set_job w' false (terminated w) (killed w) else w'.

Definition terminate_call (w : World) (v : Z) (ok : bool) : World :=
  let w' := act w v in if ok && is_ours (handles w !! v) then set_job w' (armed w) true true else w'.

(** [CloseHandle]: the last handle of an armed job kills its members. *)
Definition close_call (w : World) (v : Z) : World :=
  let w' := set_handles (act w v) (delete v (handles w)) in
  if is_ours (handles w !! v) && negb (any_ours (delete v (handles w))) && armed w
  then set_job w' (armed w) (terminated w) true else w'.

(** * Steps *)

Inductive Label :=
| Begin (i : nat) (op : Op)
| BeginTake (i : nat) (kill : bool)  (* [hard_kill], or [drop] *)
| Run (i : nat) (ok : bool) (d : Z)  (* a thread goes on; a call's answers *)
| OpenOther (v : Z)                  (* the rest of the process *)
| CloseOther (v : Z).

Definition remove (i : nat) (l : list nat) : list nat := filter (fun j => j <> i) l.

(** What [take] leaves its caller with. *)
Definition after_take (w : World) (kill : bool) : Pc :=
  match raw w with Some v => if kill then Terminating v else Closing v | None => Idle end.

Definition run_thread (w : World) (i : nat) (ok : bool) (d : Z) : option World :=
  match pcs w i with
  | Idle => None
  | Holding op => Some (set_pc w i (match raw w with Some v => Calling op v | None => Unlocking end))
  | Calling Disarm v => Some (set_pc (disarm_call w v ok) i Unlocking)
  | Calling Query v => Some (set_pc (act w v) i Unlocking)
  | Calling Duplicate v =>
      if negb ok then Some (set_pc (act w v) i Unlocking)
      else match handles w !! d, handles w !! v with
      | None, Some o => Some (set_pc (set_handles (act w v) (<[d := o]> (handles w))) i (UnlockingDup d))
      | _, _ => None
      end
  | Unlocking => Some (set_pc (set_lock w (remove i (readers w)) (writer w)) i Idle)
  | UnlockingDup d' => Some (set_pc (set_lock w (remove i (readers w)) (writer w)) i (Waiting d'))
  | Waiting d' => Some (set_pc (act w d') i (if ok then Closing d' else Waiting d'))
  | Taking kill => Some (set_pc (set_lock (set_raw w None) (readers w) None) i (after_take w kill))
  | Terminating v => Some (set_pc (terminate_call w v ok) i (Closing v))
  | Closing v => Some (set_pc (if ok then close_call w v else act w v) i Idle)  (* a failed close leaks the handle *)
  end.

Definition step (w : World) (l : Label) : option World :=
  match l with
  | Begin i op =>
      match pcs w i, writer w with
      | Idle, None => Some (set_pc (set_lock w (i :: readers w) None) i (Holding op))
      | _, _ => None
      end
  | BeginTake i kill =>
      match pcs w i, writer w, readers w with
      | Idle, None, [] => Some (set_pc (set_lock w [] (Some i)) i (Taking kill))
      | _, _, _ => None
      end
  | Run i ok d => run_thread w i ok d
  | OpenOther v => match handles w !! v with None => Some (set_handles w (<[v := Other]> (handles w))) | Some _ => None end
  | CloseOther v => match handles w !! v with Some Other => Some (set_handles w (delete v (handles w))) | _ => None end
  end.

Fixpoint run (w : World) (ls : list Label) : option World :=
  match ls with [] => Some w | l :: ls => w' ← step w l; run w' ls end.

(** [JobHandle::new], on an armed job. *)
Definition start (v : Z) : World := world (Some v) [] None (fun _ => Idle) {[v := Ours]} true false false [].

(** * The invariant *)

(** The handle a thread owns. *)
Definition owned (pc : Pc) : option Z :=
  match pc with UnlockingDup d | Waiting d => Some d | Terminating v | Closing v => Some v | _ => None end.

Definition reading (pc : Pc) : bool :=
  match pc with Holding _ | Calling _ _ | Unlocking | UnlockingDup _ => true | _ => false end.

Record inv (w : World) : Prop := {
  raw_ours : forall v, raw w = Some v -> handles w !! v = Some Ours;
  call_raw : forall i op v, pcs w i = Calling op v -> raw w = Some v;
  owned_ours : forall i v, owned (pcs w i) = Some v -> handles w !! v = Some Ours /\ raw w <> Some v;
  owned_once : forall i j v, owned (pcs w i) = Some v -> owned (pcs w j) = Some v -> i = j;
  reading_held : forall i, reading (pcs w i) = true -> i ∈ readers w;
  taking_held : forall i k, pcs w i = Taking k -> writer w = Some i;
  held_alone : writer w <> None -> readers w = [];
  acts_ours : Forall (fun a => a.2 = Some Ours) (acts w);
  killed_by : killed w = true -> terminated w = true \/ armed w = true /\ forall v, handles w !! v <> Some Ours;
  backstop : armed w = true -> (forall v, handles w !! v <> Some Ours) -> killed w = true }.

Lemma upd_eq i pc f : upd i pc f i = pc.
Proof. unfold upd. by rewrite decide_True. Qed.
Lemma upd_ne i j pc f : j <> i -> upd i pc f j = f j.
Proof. intros. unfold upd. by rewrite decide_False. Qed.

(** A property of every thread's counter after one changed. *)
Lemma upd_all (P : nat -> Pc -> Prop) i pc f :
  P i pc -> (forall j, j <> i -> P j (f j)) -> forall j, P j (upd i pc f j).
Proof. intros Hi Hj j. destruct (decide (j = i)) as [->|Hne]; [by rewrite upd_eq|]. rewrite upd_ne by done. auto. Qed.

Lemma any_ours_false h : any_ours h = false <-> forall v, h !! v <> Some Ours.
Proof.
  unfold any_ours. rewrite <- not_true_iff_false, existsb_exists. split.
  - intros Hn v Hv. apply Hn. exists (v, Ours). split; [|done]. by apply list_elem_of_In, elem_of_map_to_list.
  - intros Hn ([v o] & Hin & Ho). apply list_elem_of_In, elem_of_map_to_list in Hin. destruct o; [|done]. by apply (Hn v).
Qed.

(** The invariant by threads: one changes its counter. *)
Local Ltac at_thread i := let j := fresh "j" in intros j; destruct (decide (j = i)) as [->|?]; rewrite ?upd_eq, ?upd_ne by done.

(** Fields that a step of thread [i] leaves as they are. *)
Local Ltac easy_field := cbn in *; try done; try (by eauto); try congruence.

Lemma job_start_inv v : inv (start v).
Proof.
  split; cbn; try done.
  - intros ? [= <-]. by rewrite lookup_singleton_eq.
  - intros _ Hn. by destruct (Hn v); rewrite lookup_singleton_eq.
Qed.

(** A thread moves on, with the lock and the handles as they are. *)
Lemma job_move_inv w i pc :
  inv w -> (forall op v, pc = Calling op v -> raw w = Some v) ->
  (forall v, owned pc = Some v -> owned (pcs w i) = Some v) -> (reading pc = true -> i ∈ readers w) ->
  (forall k, pc = Taking k -> writer w = Some i) -> inv (set_pc w i pc).
Proof.
  intros [] Hc Ho Hr Ht. split; cbn; try done.
  - at_thread i; eauto.
  - at_thread i; eauto.
  - intros j k v. destruct (decide (j = i)) as [->|Hj], (decide (k = i)) as [->|Hk]; rewrite ?upd_eq, ?upd_ne by done; eauto.
  - at_thread i; eauto.
  - at_thread i; eauto.
Qed.

Lemma job_act_inv w v : inv w -> handles w !! v = Some Ours -> inv (act w v).
Proof. intros [] Hv. split; cbn; try done. apply Forall_app. split; [done|]. by repeat constructor. Qed.

Lemma job_lock_in_inv w i :
  inv w -> writer w = None -> inv (set_lock w (i :: readers w) None).
Proof.
  intros [] Hw. split; cbn; try done.
  - intros j Hj. right. by apply reading_held0.
  - intros j k Hj. apply taking_held0 in Hj. congruence.
Qed.

(** A reader lets go of the lock. *)
Lemma job_unlock_inv w i pc :
  inv w -> owned pc = owned (pcs w i) -> reading pc = false -> (forall k, pc <> Taking k) -> inv (set_pc (set_lock w (remove i (readers w)) (writer w)) i pc).
Proof.
  intros [] Ho Hr Ht. split; cbn; try done.
  - at_thread i; [|eauto]. intros op v ->. done.
  - at_thread i; [rewrite Ho|]; eauto.
  - intros j k v. destruct (decide (j = i)) as [->|Hj], (decide (k = i)) as [->|Hk]; rewrite ?upd_eq, ?upd_ne, ?Ho by done; eauto.
  - at_thread i; [by rewrite Hr|]. intros Hj. apply list_elem_of_filter. auto.
  - at_thread i; [intros k Hk; by destruct (Ht k)|eauto].
  - intros Hwn. by rewrite held_alone0.
Qed.

Lemma job_disarm_inv w v ok : inv w -> handles w !! v = Some Ours -> inv (disarm_call w v ok).
Proof.
  intros Hi Hv. unfold disarm_call. pose proof (job_act_inv w v Hi Hv) as Ha. destruct (ok && _); [|done]. destruct Ha; split; try done.
  intros Hk. destruct (killed_by0 Hk) as [|[_ Hn]]; [by left|]. by destruct (Hn v).
Qed.

Lemma job_terminate_inv w v ok : inv w -> handles w !! v = Some Ours -> inv (terminate_call w v ok).
Proof.
  intros Hi Hv. unfold terminate_call. pose proof (job_act_inv w v Hi Hv) as Ha. destruct (ok && _); [|done]. destruct Ha; split; try done. by left.
Qed.

(** The owner of a handle closes it, which may be the last of the job. *)
Lemma job_close_inv w i v : inv w -> owned (pcs w i) = Some v -> inv (set_pc (close_call w v) i Idle).
Proof.
  intros Hi Ho. pose proof (owned_ours w Hi i v Ho) as [Hv Hr]. pose proof (job_act_inv w v Hi Hv) as Ha. destruct Ha.
  set (h := delete v (handles w)).
  assert (forall b, ((forall u, h !! u <> Some Ours) -> armed w = true -> b = true) ->
    (b = true -> killed w = true \/ armed w = true /\ forall u, h !! u <> Some Ours) ->
    inv (set_pc (set_job (set_handles (act w v) h) (armed w) (terminated w) b) i Idle)) as Hd.
  { intros b Hlast Hb. subst h. split; cbn in *; try done.
    - intros u Hu. rewrite lookup_delete_ne by congruence. by apply raw_ours0.
    - at_thread i; [done|eauto].
    - at_thread i; [done|]. intros u Hu. destruct (owned_ours0 j u Hu) as [Hu' Hru]. split; [|done].
      rewrite lookup_delete_ne; [done|]. intros ->. by assert (j = i) as -> by eauto.
    - intros j l u. destruct (decide (j = i)) as [->|Hj], (decide (l = i)) as [->|Hl]; rewrite ?upd_eq, ?upd_ne by done; eauto; done.
    - at_thread i; [done|eauto].
    - at_thread i; [done|eauto].
    - intros [Hk|]%Hb; [|by right]. destruct (killed_by0 Hk) as [|[_ Hn]]; [by left|by destruct (Hn v)].
    - auto. }
  unfold close_call. fold h. rewrite Hv. destruct (is_ours (Some Ours) && negb (any_ours h) && armed w) eqn:E.
  - apply Hd; [done|]. rewrite !andb_true_iff, negb_true_iff, any_ours_false in E. by destruct E as [[_ E] ?]; right.
  - apply (Hd (killed w)); [|by left]. intros Hn Harm. rewrite Harm in E. apply any_ours_false in Hn. by rewrite Hn in E.
Qed.

(** A duplicate of the job's handle, made under the lock. *)
Lemma job_duplicate_inv w i v d :
  inv w -> raw w = Some v -> i ∈ readers w -> handles w !! d = None -> inv (set_pc (set_handles (act w v) (<[d := Ours]> (handles w))) i (UnlockingDup d)).
Proof.
  intros Hi Hr Hin Ed. pose proof (raw_ours w Hi v Hr) as Hv. pose proof (job_act_inv w v Hi Hv) as Ha. destruct Ha. split; cbn in *; try done.
  - intros u Hu. rewrite lookup_insert_ne; [by apply raw_ours0|]. intros ->. specialize (raw_ours0 _ Hu). congruence.
  - at_thread i; [done|eauto].
  - at_thread i.
    + intros u [= <-]. rewrite lookup_insert_eq. split; [done|]. intros Hu. specialize (raw_ours0 _ Hu). congruence.
    + intros u Hu. destruct (owned_ours0 j u Hu) as [Hu' ?]. split; [|done]. rewrite lookup_insert_ne; [done|]. congruence.
  - intros j k u. destruct (decide (j = i)) as [->|Hj], (decide (k = i)) as [->|Hk]; rewrite ?upd_eq, ?upd_ne by done; eauto.
    + intros [= <-] Hu. destruct (owned_ours0 k d Hu). congruence.
    + intros Hu [= <-]. destruct (owned_ours0 j d Hu). congruence.
  - at_thread i; [done|eauto].
  - at_thread i; [done|eauto].
  - intros Hk. destruct (killed_by0 Hk) as [|[_ Hn]]; [by left|]. by destruct (Hn v).
  - intros _ Hn. destruct (Hn d). by rewrite lookup_insert_eq.
Qed.

Lemma after_take_owned w k v : owned (after_take w k) = Some v -> raw w = Some v.
Proof. unfold after_take. by destruct (raw w), k. Qed.

(** [take] moves the handle from the lock to its caller: no thread was reading, and no other thread owned it. *)
Lemma job_take_inv w i k : inv w -> pcs w i = Taking k -> inv (set_pc (set_lock (set_raw w None) (readers w) None) i (after_take w k)).
Proof.
  intros Hi Epc. pose proof (taking_held w Hi i k Epc) as Hw. destruct Hi. rewrite held_alone0 in * by congruence.
  assert (reading (after_take w k) = false /\ (forall k', after_take w k <> Taking k') /\ forall op v, after_take w k <> Calling op v) as (Hr & Ht & Hc).
  { unfold after_take. by destruct (raw w), k. }
  assert (forall j v, owned (pcs w j) = Some v -> raw w <> Some v) as Hne by (intros j v Hj; by apply (owned_ours0 j)).
  split; cbn in *; try done.
  - at_thread i; [by intros op v Hj%Hc|]. intros op v Hj. assert (reading (pcs w j) = true) as Hrj by (by rewrite Hj).
    apply reading_held0 in Hrj. by apply not_elem_of_nil in Hrj.
  - at_thread i; [|intros v Hv; split; [by apply (owned_ours0 j)|done]]. intros v Hv%after_take_owned. split; [|done]. by apply raw_ours0.
  - intros j l v. destruct (decide (j = i)) as [->|Hj], (decide (l = i)) as [->|Hl]; rewrite ?upd_eq, ?upd_ne by done; eauto.
    + intros H1%after_take_owned H2. by destruct (Hne l v).
    + intros H1 H2%after_take_owned. by destruct (Hne j v).
  - at_thread i; [by rewrite Hr|eauto].
  - at_thread i; [by intros k' Hk'%Ht|]. intros k' Hj. apply taking_held0 in Hj. congruence.
Qed.

Lemma job_run_inv w i ok d w' : run_thread w i ok d = Some w' -> inv w -> inv w'.
Proof.
  intros Hs Hi. unfold run_thread in Hs. destruct (pcs w i) as [|op|op v| |d'|d'|k|v|v] eqn:Epc; [done|..].
  - injection Hs as <-. apply job_move_inv; [done|..].
    + intros op' v. destruct (raw w); [|done]. by intros [= _ <-].
    + by destruct (raw w).
    + intros _. apply (reading_held w Hi). by rewrite Epc.
    + by destruct (raw w).
  - pose proof (call_raw w Hi i op v Epc) as Hr. pose proof (raw_ours w Hi v Hr) as Hv.
    assert (i ∈ readers w) as Hin by (apply (reading_held w Hi); by rewrite Epc). destruct op.
    + injection Hs as <-. apply job_move_inv; try done; [by apply job_disarm_inv|]. intros _. unfold disarm_call. by destruct (ok && is_ours (handles w !! v)).
    + injection Hs as <-. apply job_move_inv; try done; by apply job_act_inv.
    + destruct ok; cbn [negb] in Hs; [|injection Hs as <-; apply job_move_inv; try done; by apply job_act_inv].
      rewrite Hv in Hs. destruct (handles w !! d) eqn:Ed; [done|]. injection Hs as <-. by apply job_duplicate_inv.
  - injection Hs as <-. apply job_unlock_inv; try done. by rewrite Epc.
  - injection Hs as <-. apply job_unlock_inv; try done. by rewrite Epc.
  - injection Hs as <-. destruct (owned_ours w Hi i d') as [Hd _]; [by rewrite Epc|].
    apply job_move_inv; [by apply job_act_inv|by destruct ok|cbn; rewrite Epc; by destruct ok|by destruct ok|by destruct ok].
  - injection Hs as <-. by apply job_take_inv.
  - injection Hs as <-. destruct (owned_ours w Hi i v) as [Hv _]; [by rewrite Epc|]. apply job_move_inv; try done; [by apply job_terminate_inv|].
    intros u. unfold terminate_call. destruct (ok && is_ours (handles w !! v)); cbn; by rewrite Epc.
  - injection Hs as <-. destruct ok; [apply job_close_inv; [done|by rewrite Epc]|].
    apply job_move_inv; try done. apply job_act_inv; [done|]. apply (owned_ours w Hi i v). by rewrite Epc.
Qed.

(** What the rest of the process does with its own handles. *)
Lemma job_others_inv w h :
  inv w -> (forall v, h !! v = Some Ours <-> handles w !! v = Some Ours) -> inv (set_handles w h).
Proof.
  intros [] Hh. split; cbn; try done.
  - intros v Hv. apply Hh. auto.
  - intros i v Hv. rewrite Hh. eauto.
  - intros Hk. destruct (killed_by0 Hk) as [|[? Hn]]; [by left|]. right. split; [done|]. intros v. by rewrite Hh.
  - intros Harm Hn. apply backstop0; [done|]. intros v. by rewrite <- Hh.
Qed.

Lemma job_step_inv w l w' : step w l = Some w' -> inv w -> inv w'.
Proof.
  intros Hs Hi. destruct l as [i op|i kill|i ok d|v|v]; cbn in Hs.
  - destruct (pcs w i) eqn:Epc, (writer w) eqn:Ew; try done. injection Hs as <-. apply job_move_inv; try done; [by apply job_lock_in_inv|].
    intros _. cbn. by left.
  - destruct (pcs w i) eqn:Epc, (writer w) eqn:Ew; try done. destruct (readers w) eqn:Er; [|done]. injection Hs as <-.
    destruct Hi. split; cbn; try done.
    + at_thread i; [done|eauto].
    + at_thread i; [done|eauto].
    + intros j k v. destruct (decide (j = i)) as [->|Hj], (decide (k = i)) as [->|Hk]; rewrite ?upd_eq, ?upd_ne by done; eauto; done.
    + at_thread i; [done|]. intros Hj%reading_held0. by rewrite Er in Hj.
    + at_thread i; [done|]. intros k Hj%taking_held0. congruence.
  - by eapply job_run_inv.
  - destruct (handles w !! v) eqn:Ev; [done|]. injection Hs as <-. apply job_others_inv; [done|]. intros u.
    destruct (decide (u = v)) as [->|]; [rewrite lookup_insert_eq, Ev|rewrite lookup_insert_ne]; done.
  - destruct (handles w !! v) as [[]|] eqn:Ev; try done. injection Hs as <-. apply job_others_inv; [done|]. intros u.
    destruct (decide (u = v)) as [->|]; [rewrite lookup_delete_eq, Ev|rewrite lookup_delete_ne]; done.
Qed.

Lemma job_reach_inv ls : forall w w', run w ls = Some w' -> inv w -> inv w'.
Proof.
  induction ls as [|l ls IH]; cbn; intros w w' Hr Hi; [by injection Hr as <-|].
  destruct (step w l) as [w1|] eqn:Es; [|done]. eapply IH; [exact Hr|]. by eapply job_step_inv.
Qed.

(** C14: however the threads that share the handle of a child's job interleave, and whatever the process does
    with the values that closing frees, every call they make acts on this job, never on an object that took a
    freed value: the taken handle and the duplicates are each one thread's, and a reader's value stays the
    handle's while it calls. A tree is killed only by a [TerminateJobObject] or, while the job is
    armed, by the close of its last handle, so after a disarm only a kill ends it; and an armed job left
    without a handle has killed its tree. *)
Theorem job_handle_safe v ls w (Hrun : run (start v) ls = Some w) :
  Forall (fun a => a.2 = Some Ours) (acts w) /\
  (forall i j u, owned (pcs w i) = Some u -> owned (pcs w j) = Some u -> i = j) /\
  (forall i op u, pcs w i = Calling op u -> raw w = Some u /\ handles w !! u = Some Ours) /\
  (killed w = true -> terminated w = true \/ armed w = true /\ forall u, handles w !! u <> Some Ours) /\
  (armed w = true -> (forall u, handles w !! u <> Some Ours) -> killed w = true).
Proof.
  pose proof (job_reach_inv ls _ _ Hrun (job_start_inv v)) as Hi. split_and!; try apply Hi.
  intros i op u Hc. pose proof (call_raw w Hi i op u Hc) as Hr. split; [done|]. by apply Hi.
Qed.

(** Thread 1 waits on a duplicate while thread 2 kills and another object takes the freed value; thread 3,
    which comes late, calls nothing. *)
Definition shared_use : list Label :=
  [Begin 1 Duplicate; Begin 2 Query; Run 1 true 0; Run 2 true 0; Run 1 true 8; Run 2 true 0; Run 2 true 0; Run 1 true 0;
   BeginTake 2 true; Run 2 true 0; Run 2 true 0; Run 2 true 0; OpenOther 4; Begin 3 Disarm; Run 3 true 0; Run 3 true 0;
   Run 1 true 0; Run 1 true 0].

Lemma job_handle_safe_witness : exists w, run (start 4) shared_use = Some w /\
  Forall (fun a => a.2 = Some Ours) (acts w) /\ length (acts w) = 6%nat /\ terminated w = true /\ handles w !! 4 = Some Other.
Proof.
  destruct (run (start 4) shared_use) as [w|] eqn:E; [|vm_compute in E; discriminate E]. exists w. split; [reflexivity|].
  destruct (job_handle_safe 4 shared_use w E) as (Ha & _). split; [exact Ha|].
  vm_compute in E. injection E as <-. split_and!; reflexivity.
Defined.
