(* ===== verification/OwnedTeardown.v ===== *)
(** The teardown of a child through its handle: [src/child/owned/teardown.rs], with [fate_of_a_look]
    of [src/child/spawn.rs]. The reach of a kill sent elsewhere is [Reached] of the calls; what a
    warning says is left out, and so is the fault seams' part. *)
From S2P Require Import Prelude Identity IoErrors CrateError History LeafEnd OsChild ChildCalls.
Local Open Scope Z_scope.

Notation H := (Hist Ev).

(** [TeardownKind]: a look carries whether there is a kill elsewhere to ask about, or that the subtree
    it went through could not be read. *)
Inductive TeardownKind := KillIt | LookAtIt (reach : result IoError bool).

Inductive LookOutcome :=
| LookReaped (status : Z)
| ReapedElsewhere
| LookFailed (e : Error)
| ReapFailed (e : Error)
| LeftRunning
| PlaceUnreadable (e : IoError)
| SubtreeUnreadable (e : IoError).

Record TeardownOutcome := teardown_outcome { torn_fate : ChildFate; torn_look : option LookOutcome; torn_left : option LeftWhat }.

(** [TeardownOutcome::new] and [of_front]. *)
Definition outcome_new (f : ChildFate) : TeardownOutcome := teardown_outcome f None None.
Definition of_front (f : ChildFate) (l : LookOutcome) : TeardownOutcome := teardown_outcome f (Some l) None.

Inductive Unreaped_ := Elsewhere (f : Foreign) | UnreapedFailed (e : Error) | UnreapedDeadline.

(** [fate_of_a_look]. *)
Definition fate_of_a_look (looked : result (option Z) (option Z)) (id : option ProcessId) : ChildFate :=
  match looked with
  | Ok (Some _) => Reaped_
  | Ok None => Running id
  | Err (Some e) => if e =? ECHILD then FateGone else FateUnknown
  | Err None => FateUnknown
  end.

Section Teardown.
  Context `{Sys}.

Definition wait_after_kill (due : bool) : H (result Unreaped_ Z) :=
  do! outcome :=
    wait_warning due (do! r := exited_by in ret match r with Ok b => b | Err _ => true end) (note WarnSlow) (wait false) in
  ret match outcome with
      | Err e => Err (UnreapedFailed e)
      | Ok (WaitForeign f) => Err (Elsewhere f)
      | Ok o =>
          match status_of_outcome o with
          | Ok (Some status) => Ok status
          | Ok None => Err UnreapedDeadline
          | Err e => Err (UnreapedFailed e)
          end
      end.

Definition settle_unreaped (delivered : bool) (u : Unreaped_) : TeardownOutcome :=
  let failed := fun left => teardown_outcome (if delivered then Killed else FateUnknown) None left in
  match u with
  | Elsewhere f =>
      teardown_outcome (foreign_fate f delivered) None (if bool_decide (f = ForeignOrphaned) then Some LaunchdHolds else None)
  | UnreapedFailed _ => failed (Some ReapFailed_)
  | UnreapedDeadline => failed None
  end.

(** A wait's outcome as the looks take it. *)
Definition looked_status (w : result Error ChildWaitOutcome) : result Error (option Z) :=
  match w with Ok o => status_of_outcome o | Err e => Err e end.

Definition look_after_refused_kill (id : option ProcessId) : H TeardownOutcome :=
  do! looked := wait true in
  match looked with
  | Ok (WaitForeign f) => ret (outcome_new (foreign_fate f false))
  | _ =>
      let r := looked_status looked in
      let fate := fate_of_a_look match r with Ok s => Ok s | Err e => Err (raw_os_error (into_io e)) end id in
      let left := match fate, r with
                  | Running _, _ => Some LeftAlive
                  | FateUnknown, Err _ => Some LookFailed_
                  | _, _ => None
                  end in
      ret (teardown_outcome fate None left)
  end.

Definition kill_and_settle (id : option ProcessId) (due : bool) : H TeardownOutcome :=
  do! sent := signal_root false SigKill in
  match sent with
  | Ok sent =>
      do! r := wait_after_kill due in
      ret match r with
          | Ok _ => outcome_new Reaped_
          | Err u => settle_unreaped (bool_decide (sent = Delivered)) u
          end
  | Err _ => look_after_refused_kill id
  end.

Definition reap_after_tree_kill : H TeardownOutcome :=
  do! r := wait_after_kill false in
  ret match r with Ok _ => outcome_new Reaped_ | Err u => settle_unreaped true u end.

Definition look_at_front (id : option ProcessId) (reach : result IoError bool) (due : bool) : H TeardownOutcome :=
  do! looked := wait true in
  match looked with
  | Ok (WaitForeign f) => ret (of_front (foreign_fate f false) ReapedElsewhere)
  | _ =>
      match looked_status looked with
      | Ok (Some status) => ret (of_front Reaped_ (LookReaped status))
      | Err e => ret (of_front FateUnknown (LookFailed e))
      | Ok None =>
          match reach with
          | Err e => ret (of_front FateUnknown (SubtreeUnreadable e))
          | Ok false => ret (of_front (Running id) LeftRunning)
          | Ok true =>
              do! reached := call reached_answer Reached in
              match reached with
              | Ok false => ret (of_front (Running id) LeftRunning)
              | Err e => ret (of_front FateUnknown (PlaceUnreadable e))
              | Ok true =>
                  do! r := wait_after_kill due in
                  ret match r with
                      | Ok status => of_front Reaped_ (LookReaped status)
                      | Err (Elsewhere f) => of_front (foreign_fate f true) ReapedElsewhere
                      | Err (UnreapedFailed e) => of_front Killed (ReapFailed e)
                      | Err UnreapedDeadline => outcome_new Killed
                      end
              end
          end
      end
  end.

Definition tear_down (id : option ProcessId) (kind : TeardownKind) (due : bool) : H TeardownOutcome :=
  match kind with
  | KillIt => kill_and_settle id due
  | LookAtIt reach => look_at_front id reach due
  end.

(** * What a trace of calls says *)

(** The child's status was collected, or seen by a wait. *)
Definition status_seen (st : Z) (t : list Ev) : Prop := exists b, Wait b (Ok (Exited (Status st))) ∈ t.

Definition never_seen (t : list Ev) : Prop := forall st, ~ status_seen st t.

(** A kill the child took, or was shown to have taken. *)
Definition kill_took (e : Ev) : bool :=
  match e with
  | SignalRoot _ SigKill (Ok Delivered) | Reached (Ok true) | LeafNames (Ok true) => true
  | LookExit (Ok PeekRunning) => false
  | LookExit (Ok _) => true
  | _ => false
  end.

(** Nothing is left to wait for but the child's own exit. *)
Definition bounds_the_wait (e : Ev) : bool :=
  match e with SignalRoot _ SigKill (Ok _) => true | e => kill_took e end.

Fixpoint bounded_by (last : list Ev) : bool :=
  match last with
  | (WatchExit _ | WarnSlow | Release) :: last => bounded_by last
  | e :: _ => bounds_the_wait e
  | [] => false
  end.

(** Each call of [t], after [last], latest first. *)
Fixpoint each (ok : list Ev -> Ev -> bool) (last t : list Ev) : bool :=
  match t with [] => true | e :: t => ok last e && each ok (e :: last) t end.

(** A wait without a deadline comes only once the child has taken a kill, or is gone. *)
Definition waits_bounded (last : list Ev) (e : Ev) : bool :=
  match e with Wait false _ => bounded_by last | _ => true end.

(** What a fate says of the calls that found it. *)
Definition fate_shown (id : option ProcessId) (f : ChildFate) (t : list Ev) : Prop :=
  match f with
  | Reaped_ => exists st, status_seen st t
  | Killed => never_seen t /\ exists e, e ∈ t /\ kill_took e = true
  | FateGone =>
      never_seen t /\ Forall (fun e => kill_took e = false) t
      /\ ((exists b f, Wait b (Ok (WaitForeign f)) ∈ t) \/ exists e, Wait true (Err e) ∈ t /\ raw_os_error (into_io e) = Some ECHILD)
  | Running id' => id' = id /\ never_seen t /\ Wait true (Ok DeadlinePassed) ∈ t /\ Forall (fun e => bounds_the_wait e = false) t
  | FateUnknown => never_seen t
  end.

Definition sends (e : Ev) : bool :=
  match e with
  | SignalRoot _ _ _ | SendTree _ _ _ | SendHolders _ _ _ | SendGroupAndHolders _ _ | DropTree _ => true
  | _ => false
  end.

(** What is left is said: a child left running, and a failed look or reap. *)
Definition left_said (o : TeardownOutcome) : Prop :=
  match torn_fate o with
  | Running _ => torn_left o = Some LeftAlive \/ torn_look o = Some LeftRunning
  | Reaped_ => torn_left o = None
  | _ => True
  end.

(** ** The runs of the parts *)

(** The watch before an unbounded wait. *)
Definition slow_watch (t : list Ev) : Prop := t = [] \/ (exists a, t = [WatchExit a]) \/ exists a, t = [WatchExit a; WarnSlow].

(** What the wait after a kill makes of its answer. *)
Definition after_wait (a : result Error ChildWaitOutcome) : result Unreaped_ Z :=
  match a with
  | Err e => Err (UnreapedFailed e)
  | Ok (WaitForeign f) => Err (Elsewhere f)
  | Ok (Exited (Status st)) => Ok st
  | Ok (Exited (Unreadable _)) => Err (UnreapedFailed (Io (io_new InvalidData)))
  | Ok DeadlinePassed => Err UnreapedDeadline
  end.

Lemma wait_after_kill_runs due h :
  wp (wait_after_kill due) h (fun r t => exists slow a, t = slow ++ [Wait false a] /\ slow_watch slow /\ r = after_wait a).
Proof.
  unfold wait_after_kill, wait_warning, exited_by, wait. wp_step. wp_step.
  eapply (wp_mono _ _ (fun _ t => slow_watch t)).
  - destruct due; [|wp_step; by left]. do 3 wp_step. wp_step.
    destruct (watch_answer h) as [[]|e]; wp_step; cbn; unfold slow_watch; eauto.
  - intros _ slow Hs. do 2 wp_step. exists slow. eexists. split; [by rewrite app_nil_r|]. split; [done|].
    by destruct (wait_answer _ false) as [[[]| |]|].
Qed.

Lemma each_app ok last t t' : each ok last (t ++ t') = each ok last t && each ok (rev t ++ last) t'.
Proof.
  revert last. induction t as [|e t IH]; intros last; [done|]. cbn. rewrite IH, andb_assoc. f_equal.
  by rewrite <- app_assoc.
Qed.

(** A kill's call, and then the wait it bounds. *)
Lemma killed_then_waits last e slow a :
  waits_bounded last e = true -> bounds_the_wait e = true -> slow_watch slow ->
  each waits_bounded last (e :: slow ++ [Wait false a]) = true.
Proof.
  intros Hw Hb Hs. cbn. rewrite Hw. assert (Hl : bounded_by (e :: last) = true) by (by destruct e).
  destruct Hs as [->|[[b ->]|[b ->]]]; cbn -[bounded_by].
  - by rewrite Hl.
  - change (bounded_by (WatchExit b :: e :: last)) with (bounded_by (e :: last)). by rewrite Hl.
  - change (bounded_by (WarnSlow :: WatchExit b :: e :: last)) with (bounded_by (e :: last)). by rewrite Hl.
Qed.

Lemma slow_quiet slow : slow_watch slow ->
  Forall (fun e => sends e = false /\ kill_took e = false) slow /\ never_seen slow.
Proof.
  intros [->|[[b ->]|[b ->]]]; (split; [repeat constructor|]); intros st [? Hin]; rewrite ?elem_of_cons, elem_of_nil in Hin; naive_solver.
Qed.

Lemma seen_last pre b a st : never_seen pre -> status_seen st (pre ++ [Wait b a]) <-> a = Ok (Exited (Status st)).
Proof.
  intros Hn. split.
  - intros [b' [Hin|Hin]%elem_of_app]; [by destruct (Hn st); exists b'|]. apply elem_of_cons in Hin as [Hin|Hin%elem_of_nil]; [congruence|done].
  - intros ->. exists b. apply elem_of_app. right. by left.
Qed.

Lemma never_seen_last pre b a : never_seen pre -> (forall st, a <> Ok (Exited (Status st))) -> never_seen (pre ++ [Wait b a]).
Proof. intros Hn Ha st. rewrite seen_last by done. apply Ha. Qed.

(** The outcome of a wait after a kill. *)
Definition settled (delivered : bool) (a : result Error ChildWaitOutcome) : TeardownOutcome :=
  match after_wait a with Ok _ => outcome_new Reaped_ | Err u => settle_unreaped delivered u end.

Lemma settled_shown id pre a (delivered : bool) :
  never_seen pre ->
  (if delivered then exists e, e ∈ pre /\ kill_took e = true else Forall (fun e => kill_took e = false) pre) ->
  fate_shown id (torn_fate (settled delivered a)) (pre ++ [Wait false a]) /\ left_said (settled delivered a).
Proof.
  intros Hn Hd. set (t := pre ++ [Wait false a]).
  assert (Hkill : delivered = true -> exists e, e ∈ t /\ kill_took e = true).
  { intros ->. destruct Hd as (e & He & Hk). exists e. split; [|done]. apply elem_of_app. by left. }
  assert (Hin : Wait false a ∈ t) by (apply elem_of_app; right; by left).
  assert (Hns : (forall st, a <> Ok (Exited (Status st))) -> never_seen t) by (intros Ha; by apply never_seen_last).
  unfold settled. destruct a as [[[st|c]|f|]|e]; cbn [after_wait settle_unreaped torn_fate fate_shown].
  - split; [|done]. exists st. by apply seen_last.
  - destruct delivered; (split; [|done]); cbn; [split; [by apply Hns|by apply Hkill]|by apply Hns].
  - split; [|by destruct delivered, f]. unfold foreign_fate. destruct delivered; cbn; [split; [by apply Hns|by apply Hkill]|].
    split; [by apply Hns|]. split; [by apply Forall_app; split; [|repeat constructor]|left; eauto].
  - destruct delivered; (split; [|done]); cbn; [split; [by apply Hns|by apply Hkill]|by apply Hns].
  - destruct delivered; (split; [|done]); cbn; [split; [by apply Hns|by apply Hkill]|by apply Hns].
Qed.

(** The fate a look at the present moment shows; [pre] are the calls before it. *)
Lemma look_shown_ id pre w :
  never_seen pre -> Forall (fun e => bounds_the_wait e = false) pre ->
  let f := match w with
           | Ok (WaitForeign f) => foreign_fate f false
           | _ => fate_of_a_look match looked_status w with Ok s => Ok s | Err e => Err (raw_os_error (into_io e)) end id
           end in
  fate_shown id f (pre ++ [Wait true w]).
Proof.
  intros Hn Hb. set (t := pre ++ [Wait true w]). assert (Hin : Wait true w ∈ t) by (apply elem_of_app; right; by left).
  assert (Hns : (forall st, w <> Ok (Exited (Status st))) -> never_seen t) by (intros Ha; by apply never_seen_last).
  assert (Hbt : Forall (fun e => bounds_the_wait e = false) t) by (by apply Forall_app; split; [|repeat constructor]).
  assert (Hk : Forall (fun e => kill_took e = false) t).
  { eapply Forall_impl; [exact Hbt|]. intros e. unfold bounds_the_wait. destruct e; try done. cbn. by repeat case_match. }
  destruct w as [[[st|c]|f|]|e]; cbn.
  - exists st. by apply seen_last.
  - by apply Hns.
  - split; [by apply Hns|]. split; [done|]. left. eauto.
  - split_and!; [done|by apply Hns|done|done].
  - destruct (raw_os_error (into_io e)) as [c|] eqn:Ec; [|by apply Hns].
    destruct (Z.eqb_spec c ECHILD) as [->|]; cbn; [|by apply Hns].
    split; [by apply Hns|]. split; [done|]. right. eauto.
Qed.

(** What a teardown does, as the fate it answers, its calls and its outcome. *)
Definition tears_down (id : option ProcessId) (o : TeardownOutcome) (t : list Ev) : Prop :=
  fate_shown id (torn_fate o) t /\ each waits_bounded [] t = true /\ left_said o.

Lemma quiet_never_seen pre : Forall (fun e => match e with Wait _ _ => False | _ => True end) pre -> never_seen pre.
Proof. intros Hp st [b Hin]. by rewrite Forall_forall in Hp; apply Hp in Hin. Qed.

Lemma slow_never_seen pre slow : never_seen pre -> slow_watch slow -> never_seen (pre ++ slow).
Proof.
  intros Hp Hs st [b [Hin|Hin]%elem_of_app]; [by apply (Hp st); exists b|].
  by apply (proj2 (slow_quiet slow Hs) st); exists b.
Qed.

(** A kill [e], which is [delivered] or not, then the wait it bounds, with its watch. *)
Lemma kill_then_settled id pre e slow a (delivered : bool) :
  never_seen (pre ++ [e]) -> each waits_bounded [] (pre ++ [e]) = true -> bounds_the_wait e = true -> kill_took e = delivered ->
  (delivered = false -> Forall (fun e => kill_took e = false) pre) -> slow_watch slow ->
  tears_down id (settled delivered a) (pre ++ e :: slow ++ [Wait false a]).
Proof.
  intros Hn Hw Hb Hk Hp Hs.
  replace (pre ++ e :: slow ++ [Wait false a]) with (((pre ++ [e]) ++ slow) ++ [Wait false a])
    by (by rewrite <- !app_assoc).
  destruct (settled_shown id ((pre ++ [e]) ++ slow) a delivered) as [Hf Hl].
  - by apply slow_never_seen.
  - destruct delivered.
    + exists e. split; [|done]. apply elem_of_app. left. apply elem_of_app. right. by left.
    + apply Forall_app. split; [apply Forall_app; split; [by apply Hp|by repeat constructor]|].
      eapply Forall_impl; [apply (slow_quiet slow Hs)|]. by intros x [].
  - split; [done|]. split; [|done]. rewrite each_app in Hw. apply andb_true_iff in Hw as [Hw He].
    rewrite <- !app_assoc, each_app, Hw. cbn [app andb]. apply killed_then_waits; [|done|done].
    cbn in He. by rewrite andb_true_r in He.
Qed.

Lemma kill_and_settle_runs id due h :
  wp (kill_and_settle id due) h (fun o t =>
    tears_down id o t /\ exists a t', t = SignalRoot false SigKill a :: t' /\ Forall (fun e => sends e = false) t').
Proof.
  unfold kill_and_settle, signal_root, wait. do 2 wp_step. destruct (signal_answer h SigKill) as [sent|e] eqn:Es.
  - wp_step. wp_use wait_after_kill_runs. intros r t (slow & a & -> & Hs & ->). wp_step. rewrite app_nil_r. split.
    + eassert (Heq : match after_wait a with Ok _ => _ | Err u => _ end = settled (bool_decide (sent = Delivered)) a) by reflexivity.
      rewrite Heq. apply (kill_then_settled id [] (SignalRoot false SigKill (Ok sent)) slow a); try done.
      * by apply quiet_never_seen; repeat constructor.
      * by destruct sent.
    + do 2 eexists. split; [done|]. apply Forall_app. split; [|by repeat constructor].
      eapply Forall_impl; [apply (slow_quiet slow Hs)|]. by intros x [].
  - unfold look_after_refused_kill, wait. do 2 wp_step. set (w := wait_answer _ true).
    pose proof (look_shown_ id [SignalRoot false SigKill (Err e)] w) as Hf. cbn [app] in Hf.
    assert (Hn : never_seen [SignalRoot false SigKill (Err e)]) by (by apply quiet_never_seen; repeat constructor).
    specialize (Hf Hn ltac:(by repeat constructor)). revert Hf. unfold tears_down, left_said.
    destruct w as [[r|f|]|e2]; intros Hf; wp_step; cbn [app]; (split; [split_and!; [exact Hf|done|]|by do 2 eexists; split; [|repeat constructor]]).
    + by destruct r.
    + by destruct f.
    + by left.
    + cbn. destruct (raw_os_error (into_io e2)) as [c|]; [|done]. cbn. by destruct (c =? ECHILD).
Qed.

(** A front's outcome after a wait: the same fate, worded by its look. *)
Lemma front_settled id a t o :
  o = match after_wait a with
      | Ok status => of_front Reaped_ (LookReaped status)
      | Err (Elsewhere f) => of_front (foreign_fate f true) ReapedElsewhere
      | Err (UnreapedFailed e) => of_front Killed (ReapFailed e)
      | Err UnreapedDeadline => outcome_new Killed
      end ->
  tears_down id (settled true a) t -> tears_down id o t.
Proof. intros -> (Hf & Hw & _). destruct a as [[[st|c]|f|]|e]; by split. Qed.

(** A front that is only looked at; [pre] is nothing, or the look and what places it. *)
Lemma look_only id pre w o :
  never_seen pre -> Forall (fun e => bounds_the_wait e = false) pre -> each waits_bounded [] pre = true ->
  torn_fate o = match w with
           | Ok (WaitForeign f) => foreign_fate f false
           | _ => fate_of_a_look match looked_status w with Ok s => Ok s | Err e => Err (raw_os_error (into_io e)) end id
           end \/ torn_fate o = FateUnknown /\ (forall st, w <> Ok (Exited (Status st))) ->
  left_said o -> tears_down id o (pre ++ [Wait true w]).
Proof.
  intros Hn Hb Hw Hf Hl. pose proof (look_shown_ id pre w Hn Hb) as Hs. split; [|split; [by rewrite each_app, Hw|done]].
  destruct Hf as [->|[-> Ha]]; [done|]. by apply never_seen_last.
Qed.

Lemma tears_down_snoc id o t e :
  tears_down id o t -> bounds_the_wait e = false -> match e with Wait _ _ => False | _ => True end ->
  tears_down id o (t ++ [e]).
Proof.
  intros (Hf & Hw & Hl) Hb Hq. assert (Hk : kill_took e = false) by (destruct e; try done; cbn in *; by repeat case_match).
  assert (Hns : never_seen t -> never_seen (t ++ [e])).
  { intros Hn st [b [Hin|Hin]%elem_of_app]; [by apply (Hn st); exists b|].
    apply elem_of_cons in Hin as [<-|Hin%elem_of_nil]; done. }
  split; [|split; [|done]].
  - unfold fate_shown in *. destruct (torn_fate o).
    + destruct Hf as (st & b & Hin). exists st, b. apply elem_of_app. by left.
    + destruct Hf as (Hn & x & Hin & Hx). split; [by apply Hns|]. exists x. split; [apply elem_of_app; by left|done].
    + destruct Hf as (-> & Hn & Hin & Hf). split_and!; [done|by apply Hns|apply elem_of_app; by left|].
      apply Forall_app. by split; [|repeat constructor].
    + destruct Hf as (Hn & Hf & Hd). split_and!; [by apply Hns|by apply Forall_app; split; [|repeat constructor]|].
      destruct Hd as [(b & f & Hin)|(x & Hin & Hx)]; [left; exists b, f|right; exists x; split; [|done]]; (apply elem_of_app; by left).
    + by apply Hns.
  - rewrite each_app, Hw. cbn. unfold waits_bounded. by destruct e as [| | | | |[]| | | | | | | | | | | | | | | | | |].
Qed.

Lemma look_at_front_runs id reach due h :
  wp (look_at_front id reach due) h (fun o t => tears_down id o t /\ Forall (fun e => sends e = false) t).
Proof.
  unfold look_at_front, wait. do 2 wp_step. set (w := wait_answer h true).
  assert (Hlook : forall o, torn_fate o = match w with
           | Ok (WaitForeign f) => foreign_fate f false
           | _ => fate_of_a_look match looked_status w with Ok s => Ok s | Err e => Err (raw_os_error (into_io e)) end id
           end \/ torn_fate o = FateUnknown /\ (forall st, w <> Ok (Exited (Status st))) ->
    left_said o -> tears_down id o [Wait true w]).
  { intros o Hf Hl. by apply (look_only id [] w); [apply quiet_never_seen; constructor|constructor|..]. }
  assert (Hq : Forall (fun e => sends e = false) [Wait true w]) by (by repeat constructor).
  destruct w as [[[st|c]|f|]|e] eqn:Ew; cbn [looked_status status_of_outcome].
  - wp_step. split; [apply Hlook; [by left|done]|done].
  - wp_step. split; [apply Hlook; [by left|done]|done].
  - wp_step. split; [apply Hlook; [by left|by destruct f]|done].
  - destruct reach as [[]|e]; [|wp_step; split; [apply Hlook; [by left|by right]|done]|wp_step; split; [apply Hlook; [by right|done]|done]].
    do 2 wp_step. destruct (reached_answer _) as [[]|e] eqn:Er.
    + wp_step. wp_use wait_after_kill_runs. intros r t (slow & a & -> & Hs & ->). wp_step. rewrite app_nil_r. split.
      * apply (front_settled id a _ _ eq_refl). cbn [app].
        apply (kill_then_settled id [Wait true (Ok DeadlinePassed)] (Reached (Ok true)) slow a true); try done.
        intros st [b Hin]. cbn in Hin. rewrite !elem_of_cons, elem_of_nil in Hin. by destruct Hin as [?|[?|?]].
      * cbn [app]. do 2 (constructor; [done|]). apply Forall_app. split; [|by repeat constructor].
        eapply Forall_impl; [apply (slow_quiet slow Hs)|]. by intros x [].
    + wp_step. split; [|by repeat constructor]. cbn [app].
      apply (tears_down_snoc id _ [Wait true (Ok DeadlinePassed)]); [apply Hlook; [by left|by right]|done|done].
    + wp_step. split; [|by repeat constructor]. cbn [app].
      apply (tears_down_snoc id _ [Wait true (Ok DeadlinePassed)]); [apply Hlook; [by right|done]|done|done].
  - wp_step. split; [apply Hlook; [by right|done]|done].
Qed.

(** C29: a teardown's fate is what its calls show, and it waits without a deadline only for a child
    that took a kill or is gone, so a child whose kill was refused is looked at and never waited for.
    A child it may kill is sent one [SIGKILL], through its handle, and an elevation front nothing; and
    a child left running is said to be. *)
Theorem teardown_settles id kind due h o t :
  runs (tear_down id kind due) h o t ->
  fate_shown id (torn_fate o) t
  /\ each waits_bounded [] t = true
  /\ (forall i, torn_fate o = Running i -> torn_left o = Some LeftAlive \/ torn_look o = Some LeftRunning)
  /\ match kind with
     | KillIt => exists a t', t = SignalRoot false SigKill a :: t' /\ Forall (fun e => sends e = false) t'
     | LookAtIt _ => Forall (fun e => sends e = false) t
     end.
Proof.
  intros Hr. assert (Hall : tears_down id o t /\ match kind with
     | KillIt => exists a t', t = SignalRoot false SigKill a :: t' /\ Forall (fun e => sends e = false) t'
     | LookAtIt _ => Forall (fun e => sends e = false) t
     end).
  { destruct kind as [|reach].
    - exact (wp_runs _ _ _ _ _ (kill_and_settle_runs id due h) Hr).
    - exact (wp_runs _ _ _ _ _ (look_at_front_runs id reach due h) Hr). }
  destruct Hall as [(Hf & Hw & Hl) Hs]. split_and!; [done|done| |done].
  intros i Hi. unfold left_said in Hl. by rewrite Hi in Hl.
Qed.

End Teardown.

(** A child that refuses its kill and still runs. *)
#[local] Instance demo_sys : Sys := {
  platform := Linux;
  state_answer _ := Unreaped;
  peek_answer _ := Ok PeekRunning;
  signal_answer _ _ := Err (Io (from_raw_os_error 1));
  wait_answer _ _ := Ok DeadlinePassed;
  watch_answer _ := Ok false;
  reaped_answer _ := false;
  number_answer _ := Identity.Unknown;
  member_answer _ := None;
  tree_answer _ _ _ := Ok true;
  holders_answer _ _ _ := Ok tt;
  group_and_holders_answer _ _ := Ok tt;
  leaf_holds_answer _ := Ok false;
  leaf_names_answer _ := Ok false;
  subtree_answer _ := Ok tt;
  reached_answer _ := Ok false;
  drain_answer _ := Ok MembersRemain
}.

Lemma teardown_settles_witness :
  let t := [SignalRoot false SigKill (Err (Io (from_raw_os_error 1))); Wait true (Ok DeadlinePassed)] in
  runs (tear_down None KillIt true) [] (teardown_outcome (Running None) None (Some LeftAlive)) t
  /\ Wait true (Ok DeadlinePassed) ∈ t /\ each waits_bounded [] t = true.
Proof.
  intros t. assert (Hr : runs (tear_down None KillIt true) [] (teardown_outcome (Running None) None (Some LeftAlive)) t) by reflexivity.
  destruct (teardown_settles None KillIt true [] _ t Hr) as ((_ & _ & Hin & _) & Hw & _). by split_and!.
Defined.
