(* ===== verification/TreeCall.v ===== *)
(** What a tree call or a drop may send by its root's number: [src/child/tree_call.rs], and [DropView]
    and the drops of [src/containment/dispatch.rs]. What a refusal or a warning says is left out. *)
From S2P Require Import Prelude Identity IoErrors CrateError ElevationPlan History LeafEnd OsChild ChildCalls.
Local Open Scope Z_scope.

Notation H := (Hist Ev).

(** [RootNumber]. *)
Inductive RootNumber :=
| Trusted
| Untrusted (s : RootState)
| NoWalk
| EmptyGroup
| MayNameAnother (exact_root : bool)
| GroupGone.

Inductive RootView := ViewReaped | ViewUnknown (e : IoError) | ViewUnpinned | ViewTrusted.

Record DropView := drop_view { view_root : RootView; tree_killed : bool }.

Inductive DropReach := ReachKill | ReachGone | ReachSkip.

(** [Graceful]. *)
Inductive Graceful :=
| GSignal
| GSent (result : result Error unit) (earlier : bool)
| GEnd (e : Error)
| GRootThroughPidfd
| GHoldersOnly.

(** [root_reaped]. *)
Definition root_reaped (own_reap : bool) (id : ProcessId) (now : Resolved ProcessId) : bool :=
  own_reap || match now with Found now => bool_decide (now <> id) | Gone => true | Identity.Unknown => false end.

Definition unsettled (v : DropView) : bool := match view_root v with ViewUnknown _ | ViewUnpinned => true | _ => false end.
Definition number_untrusted (v : DropView) : bool := match view_root v with ViewTrusted => false | _ => true end.
Definition unpinned_root (v : DropView) : bool := match view_root v with ViewUnpinned => true | _ => false end.
Definition leaves_root_alone (v : DropView) : bool := match view_root v with ViewReaped | ViewUnpinned => true | _ => false end.

(** [skipped_action]: whether there is one. *)
Definition skipped_action (v : DropView) (a : Attached) : bool := named_by_root_number a && number_untrusted v.

Section TreeCall.
  Context `{Sys}.

(** ** The look at the root *)

Definition own_reaped_free (a : Attached) : RootNumber :=
  match platform with
  | Macos => match fd_marker_has_group a with Some true => NoWalk | Some false => EmptyGroup | None => Trusted end
  | Linux => Trusted
  end.

(** [root_number] of a mechanism that needs the check, from the state of the root. *)
Definition number_of_state (a : Attached) (s : RootState) : H RootNumber :=
  match s with
  | Unreaped => ret Trusted
  | RootReaped true =>
      do! now := root_identity_now in
      ret match now with
          | Gone => own_reaped_free a
          | Found _ => EmptyGroup
          | Identity.Unknown => MayNameAnother false
          end
  | RootReaped false => ret (MayNameAnother false)
  | RootUnknown _ => ret (MayNameAnother (bool_decide (platform = Linux)))
  | Unpinned => ret (MayNameAnother false)
  end.

Definition root_number (a : Attached) (state : H RootState) : H RootNumber :=
  match platform with
  | Macos =>
      do! looked := state in
      match looked with
      | Unpinned | RootUnknown _ => ret (Untrusted looked)
      | _ => if needs_root_check a then number_of_state a looked else ret Trusted
      end
  | Linux => if needs_root_check a then do! looked := state in number_of_state a looked else ret Trusted
  end.

(** [group_number_holds], the check before each send by the group's number. *)
Definition group_number_holds (s : RootState) : H bool :=
  match s with
  | Unreaped => ret true
  | RootReaped true =>
      do! now := root_identity_now in
      ret match now with Gone => true | Found _ | Identity.Unknown => false end
  | RootReaped false => ret false
  | RootUnknown _ => ret false
  | Unpinned => ret false
  end.

(** [through_the_pidfd]: Linux only. *)
Definition through_the_pidfd (a : Attached) (number : RootNumber) : H RootNumber :=
  match number, a with
  | MayNameAnother exact_root, ProcessGroup _ =>
      do! member := has_member in
      ret match member with
          | Some true => Trusted
          | Some false => if exact_root then number else GroupGone
          | None => number
          end
  | _, _ => ret number
  end.

(** ** [TreeCall] *)

Definition call_root_number (a : Attached) (state : H RootState) : H RootNumber :=
  do! number := root_number a state in
  match platform with Linux => through_the_pidfd a number | Macos => ret number end.

(** [untrusted]: a [Kill] that reached every holder marks the tree killed. *)
Definition untrusted (a : Attached) (s : TreeSignal) (root : RootState) : H (option (result Error unit)) :=
  signal_tree_untrusted a s root.

Definition no_walk (a : Attached) (s : TreeSignal) : H (result Error unit) :=
  do! r := signal_group_and_holders a s true in
  ret (default (Ok tt) r).

Definition group_gone (s : TreeSignal) : H unit := match s with TKill => mark | TTerm => ret tt end.

Definition empty_group (a : Attached) (s : TreeSignal) : H (option (result Error unit)) := signal_holders_only a s true.

(** [number_skipped]; [root] is what the signal to the root through its handle answered, if sent. *)
Definition number_skipped (a : Attached) (s : TreeSignal) (root : option (result Error Sent)) : H Error :=
  do! holders := signal_holders_only a s false in
  do! _ := note WarnSkipped in
  ret match holders, root with
      | Some (Err e), _ => e
      | None, Some (Err e) => e
      | _, _ => Unassessable None
      end.

(** [root_checked]: [None] signals as usual. *)
Definition root_checked (a : Attached) (s : TreeSignal) (state : H RootState) (signal_root : H (result Error Sent)) :
    H (option (result Error unit)) :=
  do! number := call_root_number a state in
  match number with
  | Trusted => ret None
  | Untrusted root => untrusted a s root
  | NoWalk => do! r := no_walk a s in ret (Some r)
  | EmptyGroup =>
      do! r := empty_group a s in
      match r with
      | Some r => ret (Some r)
      | None => do! _ := group_gone s in ret (Some (Ok tt))
      end
  | GroupGone => do! _ := group_gone s in ret (Some (Ok tt))
  | MayNameAnother exact_root =>
      do! root := (if exact_root then do! r := signal_root in ret (Some r) else ret None) in
      do! e := number_skipped a s root in
      ret (Some (Err e))
  end.

(** [graceful]: the decision for a [SIGTERM]. *)
Definition graceful (a : Attached) (state : H RootState) : H Graceful :=
  do! number := call_root_number a state in
  match number with
  | Trusted => ret GSignal
  | Untrusted root =>
      do! r := untrusted a TTerm root in
      ret match r with
          | Some (Err e) => if names_tree_by_identity a then GSent (Err e) true else GEnd e
          | None => GSignal
          | Some r => GSent r true
          end
  | NoWalk => do! r := no_walk a TTerm in ret (GSent r true)
  | GroupGone => ret (GSent (Ok tt) false)
  | EmptyGroup =>
      do! r := empty_group a TTerm in
      ret (GSent (default (Ok tt) r) (bool_decide (is_Some r)))
  | MayNameAnother exact_root =>
      if exact_root && bool_decide (platform = Linux) then ret GRootThroughPidfd
      else if names_tree_by_identity a then ret GHoldersOnly
      else do! e := number_skipped a TTerm None in ret (GEnd e)
  end.

(** [holders_only], [holders_term] and [holders_shutdown_error]. *)
Definition holders_only (a : Attached) (s : TreeSignal) : H (result Error unit) :=
  do! r := signal_holders_only a s false in
  ret (default (Ok tt) r).

Definition holders_shutdown_error (a : Attached) : H Error :=
  do! kill := holders_only a TKill in
  do! _ := note WarnSkipped in
  ret match kill with Err e => e | Ok _ => Unassessable None end.

(** ** [PidfdShutdown] *)

Definition pidfd_shutdown_start (gate : Gate) (term : H (result Error Sent)) : H (result Error (result Error Sent)) :=
  match gate with
  | Closed unkillable => ret (Err unkillable)
  | _ => do! r := term in ret (Ok r)
  end.

Definition needs_grace (term : result Error Sent) : bool := match term with Ok Delivered => true | _ => false end.

Definition pidfd_shutdown_finish (term : result Error Sent) (exited : option (result Error bool)) (kill_gate : H Gate)
    (kill : H (result Error Sent)) : H Error :=
  do! killed :=
    match exited with
    | None | Some (Ok true) => ret None
    | Some _ =>
        do! gate := kill_gate in
        match gate with
        | Closed unkillable => ret (Some (Err unkillable))
        | _ => do! r := kill in ret (Some r)
        end
    end in
  do! _ := note WarnSkipped in
  ret match term, killed with
      | Err e, _ => e
      | _, Some (Err e) => e
      | _, _ => Unassessable None
      end.

Definition status_unless_reaped_elsewhere (waited : result Error Z) : result Error Z :=
  match waited with
  | Err (Io e) => if bool_decide (raw_os_error e = Some ECHILD) then Err (Unassessable None) else Err (Io e)
  | other => other
  end.

(** ** Drops *)

(** [DropView::read]: the number, and then the handle. *)
Definition view_of (id : ProcessId) (now : Resolved ProcessId) (state : RootState) : RootView :=
  let handle_reaped := match state with RootReaped _ => true | _ => false end in
  if root_reaped handle_reaped id now then ViewReaped
  else
    match state with
    | Unreaped => ViewTrusted
    | RootUnknown e => ViewUnknown e
    | Unpinned => ViewUnpinned
    | RootReaped _ => ViewReaped
    end.

Definition read_view (id : ProcessId) : H DropView :=
  do! now := root_identity_now in
  do! state := root_state false in
  do! killed := is_set in
  ret (drop_view (view_of id now state) killed).

(** [drop_reach]. *)
Definition drop_reach (a : Attached) (v : DropView) : H DropReach :=
  if skipped_action v a then
    match platform with
    | Linux =>
        let exact_root := match view_root v with ViewUnknown _ => true | _ => false end in
        do! number := through_the_pidfd a (MayNameAnother exact_root) in
        ret match number with Trusted => ReachKill | GroupGone => ReachGone | _ => ReachSkip end
    | Macos => ret ReachSkip
    end
  else ret ReachKill.

(** The marker's holders, where the rest of the tree is skipped. *)
Definition kill_holders_of (a : Attached) (v : DropView) : H (result Error unit) :=
  match a with FdMarker _ _ => send_holders TKill (except_root a (unpinned_root v)) | _ => ret (Ok tt) end.

(** [hard_kill_for_drop]: the result, and whether what names the tree by the number was skipped, with
    the tree not known to be killed. *)
Definition hard_kill_for_drop (a : Attached) (v : DropView) : H (result Error unit * bool) :=
  do! reach := drop_reach a v in
  match reach with
  | ReachKill => do! r := hard_kill a in ret (r, false)
  | ReachGone => ret (Ok tt, false)
  | ReachSkip => do! r := kill_holders_of a v in ret (r, negb (tree_killed v))
  end.

(** [hard_kill_marking_unless_reaped]: [Ok true] says that something was skipped. *)
Definition hard_kill_marking_unless_reaped (a : Attached) (v : DropView) : H (result Error bool) :=
  do! reach := drop_reach a v in
  match reach with
  | ReachKill => do! r := hard_kill_marking a in ret match r with Ok _ => Ok false | Err e => Err e end
  | ReachGone => do! _ := mark in ret (Ok false)
  | ReachSkip => do! r := kill_holders_of a v in ret match r with Ok _ => Ok true | Err e => Err e end
  end.

End TreeCall.
