(* ===== verification/ChildOps.v ===== *)
(** [Child]'s operations on its root and its tree, on Unix: the kills, the terminations and the drop of
    [src/child.rs], the graceful shutdowns of [src/child/graceful.rs], and the drop's report of
    [src/child/drop_report.rs]. They are composed of the calls of ChildCalls, the decisions of TreeCall
    and the teardown of OwnedTeardown; what an error or a warning says is left out. *)
From S2P Require Import Prelude Identity IoErrors CrateError History LeafEnd ElevationPlan OsChild ChildCalls OwnedTeardown TreeCall.
Local Open Scope Z_scope.

Notation H := (Hist Ev).

(** [Child]: what its operations read. [wrapper] is [is_elevated_wrapper]; [reported] what an earlier
    step of a failed spawn warned of. *)
Record Child := child_ {
  id : ProcessId; attached : Attached; front : option Front; wrapper : bool; containment : Containment;
  kill_on_drop : bool; reported : list PartKey }.

Section ChildOps.
  Context `{Sys}.

(** ** Gates *)

Definition child_kill_gate (c : Child) : H Gate :=
  match front c with
  | None => ret Open
  | Some _ =>
      do! r1 := root_running in
      match r1 with
      | Ok false => ret ElevationPlan.Exited
      | _ =>
          do! placed := kill_reaches_across_credentials (attached c) in
          match placed with
          | Ok true => ret CgroupOnly
          | _ => do! r2 := root_running in ret (ElevationPlan.kill_gate (front c) r1 placed r2)
          end
      end
  end.

Definition root_exited : H (result IoError bool) :=
  do! r := root_running in ret match r with Ok b => Ok (negb b) | Err e => Err e end.

Definition child_cgroup_kill_reached (c : Child) : H (result Error unit) :=
  match front c with
  | None => ret (Err EContainment)
  | Some _ =>
      do! e1 := root_exited in
      match e1 with
      | Ok true => ret (Ok tt)
      | _ =>
          do! placed := cgroup_names (attached c) in
          match placed with
          | Ok true => ret (Ok tt)
          | _ => do! e2 := root_exited in ret (ElevationPlan.cgroup_kill_reached (front c) e1 placed e2)
          end
      end
  end.

Definition child_terminate_gate (c : Child) : H Gate :=
  match front c with
  | Some f => if relays_term f then ret Open else do! r := root_running in ret (ElevationPlan.terminate_gate (front c) r)
  | None => ret Open
  end.

(** ** The root *)

(** [is_unpinned], and [refuse_unpinned]: only macOS looks. *)
Definition root_is_unpinned : H bool :=
  match platform with
  | Macos => do! s := root_state false in ret (is_unpinned_state s)
  | Linux => ret false
  end.

Definition refuse_unpinned : H (result Error unit) :=
  do! u := root_is_unpinned in ret (if u : bool then Err (Unassessable None) else Ok tt).

Definition kill_root : H (result IoError Sent) :=
  do! r := signal_root false SigKill in ret match r with Ok s => Ok s | Err e => Err (into_io e) end.

(** A kill of the root whose refusal an elevated wrapper's is named for. *)
Definition kill_root_typed (c : Child) : H (result Error Sent) :=
  do! r := kill_root in ret match r with Ok s => Ok s | Err e => Err (map_elevated_kill_error e (wrapper c)) end.

(** The kill of an exited front: an exit is permanent, so its refusal changes nothing. *)
Definition kill_exited_front : H (result Error Sent) :=
  do! r := kill_root in
  ret match r with
      | Ok s => Ok s
      | Err e => if bool_decide (kind e = PermissionDenied) then Ok Delivered else Err (Io e)
      end.

(** The kill of a live front through its cgroup. *)
Definition kill_through_cgroup (c : Child) : H (result Error unit) :=
  do! r := hard_kill_marking (attached c) in
  match r with
  | Err e => ret (Err (cgroup_kill_failed (front c) e))
  | Ok _ => child_cgroup_kill_reached c
  end.

Definition kill_sent_gated (c : Child) (gate : Gate) : H (result Error Sent) :=
  match gate with
  | Open => kill_root_typed c
  | ElevationPlan.Exited => kill_exited_front
  | CgroupOnly => do! r := kill_through_cgroup c in ret match r with Ok _ => Ok Delivered | Err e => Err e end
  | Closed unkillable => ret (Err unkillable)
  end.

Definition is_closed (g : Gate) : bool := match g with Closed _ => true | _ => false end.

Definition kill_sent (c : Child) : H (result Error Sent) :=
  do! gate := child_kill_gate c in
  if is_closed gate then kill_sent_gated c gate
  else
    do! r := refuse_unpinned in
    match r with Err e => ret (Err e) | Ok _ => kill_sent_gated c gate end.

Definition kill (c : Child) : H (result Error unit) :=
  do! r := kill_sent c in ret match r with Ok _ => Ok tt | Err e => Err e end.

(** [Child::terminate], whose mechanism is [Process] on Unix. *)
Definition terminate (c : Child) : H (result Error unit) :=
  do! gate := child_terminate_gate c in
  match gate with
  | Closed unkillable => ret (Err unkillable)
  | _ =>
      do! r := refuse_unpinned in
      match r with
      | Err e => ret (Err e)
      | Ok _ => do! s := signal_root false SigTerm in ret match s with Ok _ => Ok tt | Err e => Err e end
      end
  end.

(** [wait_root] with a deadline or without, and [wait_root_unbounded]. *)
Definition wait_root (bounded : bool) : H (result Error (option Z)) :=
  do! w := wait bounded in ret match w with Ok o => status_of_outcome o | Err e => Err e end.

Definition wait_root_unbounded : H (result Error Z) :=
  do! r := wait_root false in
  ret match r with Ok (Some st) => Ok st | Ok None => Err (Io (io_new Other)) | Err e => Err e end.

(** ** The tree *)

Definition require_contained (c : Child) : result Error unit :=
  if is_actionable (attached c) then Ok tt else Err EUnsupported.

Definition require_drainable (c : Child) : result Error unit :=
  if can_observe_drain (attached c) then Ok tt else Err EUnsupported.

(** The signal of a tree call to the root through its handle, under the hold. *)
Definition held_kill (c : Child) : H (result Error Sent) :=
  do! r := signal_root true SigKill in
  ret match r with Ok s => Ok s | Err e => Err (map_elevated_kill_error (into_io e) (wrapper c)) end.

(** [kill_tree_after] once its gate is decided; [front_in_cgroup] is a front's answer. *)
Definition kill_tree_gated (c : Child) (front_in_cgroup : option bool) : H (result Error unit) :=
  do! _ := hold in
  do! decided := root_checked (attached c) TKill (root_state true) (held_kill c) in
  match decided with
  | Some result => do! _ := release in ret result
  | None =>
      do! group_result := hard_kill_marking (attached c) in
      do! _ := release in
      if hard_kill_refused_to_walk (attached c) group_result then ret group_result
      else
        match front_in_cgroup with
        | Some true =>
            match group_result with
            | Ok _ => child_cgroup_kill_reached c
            | Err e => ret (Err (cgroup_kill_failed (front c) e))
            end
        | Some false => ret group_result
        | None =>
            do! unpinned := root_is_unpinned in
            do! backstop :=
              (if unpinned : bool then ret (Ok tt)
               else do! r := kill_root_typed c in ret match r with Ok _ => Ok tt | Err e => Err e end) in
            ret match group_result with Err e => Err e | Ok _ => backstop end
        end
  end.

Definition kill_tree (c : Child) : H (result Error unit) :=
  match require_contained c with
  | Err e => ret (Err e)
  | Ok _ =>
      do! gate := child_kill_gate c in
      match gate with
      | Closed unkillable => ret (Err unkillable)
      | Open => kill_tree_gated c None
      | ElevationPlan.Exited => kill_tree_gated c (Some false)
      | CgroupOnly => kill_tree_gated c (Some true)
      end
  end.

(** [Child::terminate_tree]. *)
Definition child_terminate_tree (c : Child) : H (result Error unit) :=
  match require_contained c with
  | Err e => ret (Err e)
  | Ok _ =>
      do! _ := hold in
      do! decided := root_checked (attached c) TTerm (root_state true) (signal_root true SigTerm) in
      do! r := match decided with Some result => ret result | None => terminate_tree (attached c) end in
      do! _ := release in
      ret r
  end.

Definition wait_tree (c : Child) : H (result Error TreeDrain) :=
  match require_drainable c with Err e => ret (Err e) | Ok _ => wait_drained (attached c) end.

(** ** Graceful shutdowns; [bounded] says that the grace is a deadline the clock can reach. *)

(** The kill and the reap that follow a grace which showed no status. *)
Definition kill_after_grace (c : Child) (watch : result Error (option Z)) : H (result Error Z) :=
  do! refused := refuse_unpinned in
  match refused with
  | Err e => ret (Err e)
  | Ok _ =>
      do! gate := child_kill_gate c in
      do! killed :=
        match gate with
        | Closed unkillable => ret (Err unkillable)
        | ElevationPlan.Exited => do! r := kill_exited_front in ret match r with Ok _ => Ok tt | Err e => Err e end
        | Open => do! r := kill_root in ret match r with Ok _ => Ok tt | Err e => Err (Io e) end
        | CgroupOnly => kill_through_cgroup c
        end in
      match killed with
      | Err e => ret (Err e)
      | Ok _ =>
          do! status := wait_root_unbounded in
          ret match status, watch with
              | Err e, _ => Err e
              | Ok _, Err e => Err e
              | Ok status, Ok _ => Ok status
              end
      end
  end.

Definition graceful_shutdown (c : Child) (bounded : bool) : H (result Error Z) :=
  do! sent := terminate c in
  match sent with
  | Err e => ret (Err e)
  | Ok _ =>
      do! watch := wait_root bounded in
      match watch with
      | Ok (Some status) => ret (Ok status)
      | _ => kill_after_grace c watch
      end
  end.

(** The grace wait of a tree: whether the sweep may be skipped, whether the root was seen to exit, and
    a failed watch. *)
Definition grace_wait (c : Child) : H (bool * bool * option Error) :=
  if containment_drains (containment c) then
    do! drained := wait_drained (attached c) in
    match drained with
    | Ok verdict =>
        if permits_skipping_sweep verdict then ret (true, true, None)
        else
          do! r := exited_by in
          ret match r with Ok exited => (false, exited, None) | Err e => (false, false, Some e) end
    | Err e => ret (false, false, Some e)
    end
  else
    do! r := exited_by in
    ret match r with Ok exited => (false, exited, None) | Err e => (false, false, Some e) end.

(** A refusal the grace and the sweep go on after. *)
Definition held_refusal (e : Error) : bool := match e with EContainment | Unassessable None => true | _ => false end.

(** The sweep, the reap and the answer, after the grace. *)
Definition sweep_and_reap (c : Child) (drained root_exited : bool) (watch_err : option Error) : H (result Error Z) :=
  do! swept := (if drained then ret (Ok tt) else kill_tree c) in
  match swept with
  | Err sweep =>
      do! _ :=
        (if root_exited then
           do! unpinned := root_is_unpinned in
           if unpinned : bool then ret tt else do! _ := wait_root_unbounded in ret tt
         else ret tt) in
      ret (Err sweep)
  | Ok _ =>
      do! unpinned := root_is_unpinned in
      if unpinned : bool then ret (Err (Unassessable None))
      else
        do! waited := wait_root_unbounded in
        ret match status_unless_reaped_elsewhere waited, watch_err with
            | Err e, _ => Err e
            | Ok _, Some e => Err e
            | Ok status, None => Ok status
            end
  end.

(** The rest of a shutdown whose [SIGTERM] went out. *)
Definition after_term (c : Child) : H (result Error Z) :=
  do! g := grace_wait c in
  let '(drained, root_exited, watch_err) := g in
  sweep_and_reap c drained root_exited watch_err.

Definition shut_down_root_through_pidfd (c : Child) : H Error :=
  do! gate := child_terminate_gate c in
  do! started := pidfd_shutdown_start gate (signal_root false SigTerm) in
  match started with
  | Err unkillable => ret unkillable
  | Ok term =>
      do! exited := (if needs_grace term then do! r := exited_by in ret (Some r) else ret None) in
      pidfd_shutdown_finish term exited (child_kill_gate c) (kill_root_typed c)
  end.

Definition shut_down_holders_only (c : Child) : H Error :=
  do! _ := holders_only (attached c) TTerm in
  do! _ := wait_drained (attached c) in
  holders_shutdown_error (attached c).

Definition graceful_shutdown_tree (c : Child) : H (result Error Z) :=
  match require_contained c with
  | Err e => ret (Err e)
  | Ok _ =>
      do! _ := hold in
      do! decided := TreeCall.graceful (attached c) (root_state true) in
      match decided with
      | GEnd e => do! _ := release in ret (Err e)
      | GRootThroughPidfd => do! _ := release in do! e := shut_down_root_through_pidfd c in ret (Err e)
      | GHoldersOnly => do! _ := release in do! e := shut_down_holders_only c in ret (Err e)
      | GSignal | GSent _ _ =>
          do! term := match decided with GSent result _ => ret result | _ => terminate_tree (attached c) end in
          do! _ := release in
          match term with
          | Ok _ => after_term c
          | Err e => if held_refusal e then after_term c else ret (Err e)
          end
      end
  end.

(** ** The drop *)

(** [DropReport::parts] of a drop, which forgets nothing. *)
Definition report_parts (v : DropView) (skipped tree : bool) (left : list LeftWhat) : list PartKey :=
  (if unsettled v then [Described] else [])
  ++ (if negb (unsettled v) && number_untrusted v && skipped then [Described] else [])
  ++ (if tree then [TreeFailed] else [])
  ++ (LeftOf <$> left).

(** [emit]. *)
Definition emit (parts reported : list PartKey) : H unit :=
  if forallb (fun p => bool_decide (p ∈ reported)) parts then ret tt else note (Warn parts).

(** [word_front]. *)
Definition word_front (torn : TeardownOutcome) : TeardownOutcome :=
  match torn_look torn with
  | None => torn
  | Some look =>
      teardown_outcome (torn_fate torn) None
        match look with
        | LookReaped _ | ReapedElsewhere => None
        | LookFailed _ => Some LookFailed_
        | ReapFailed _ => Some ReapFailed_
        | LeftRunning | PlaceUnreadable _ | SubtreeUnreadable _ => Some FrontLeft
        end
  end.

(** [tear_down_leaf_and_look_at_front]: the mechanism is dropped here, and not with the child. Only a
    Linux leaf has a subtree to ask about. *)
Definition has_subtree (a : Attached) : bool := is_cgroup a && bool_decide (platform = Linux).

Definition tear_down_leaf_and_look_at_front (c : Child) : H TeardownOutcome :=
  do! subtree := (if has_subtree (attached c) then call subtree_answer LeafSubtree else ret (Ok tt)) in
  do! _ := note (DropTree (attached c)) in
  let reach := match subtree with Err e => Err e | Ok _ => Ok (has_subtree (attached c)) end in
  do! torn := tear_down (Some (id c)) (LookAtIt reach) false in
  ret (word_front torn).

Definition left_list (o : TeardownOutcome) : list LeftWhat := match torn_left o with Some l => [l] | None => [] end.

(** [drop_unix]: the fate, and what is left of the mechanism for the child's own drop. *)
Definition drop_unix (c : Child) : H (ChildFate * Attached) :=
  do! gate := child_kill_gate c in
  do! view := read_view (id c) in
  match gate with
  | Closed _ =>
      do! torn := tear_down_leaf_and_look_at_front c in
      do! _ := emit (report_parts view false false (left_list torn)) (reported c) in
      ret (torn_fate torn, AttachedNone)
  | _ =>
      do! _ := hold in
      do2! result, skipped := hard_kill_for_drop (attached c) view in
      do! _ := release in
      let tree := match result with Ok _ => false | Err _ => true end in
      if leaves_root_alone view then
        do! own := is_reaped in
        do! _ := emit (report_parts view skipped tree []) (reported c) in
        ret (if own : bool then Reaped_ else FateGone, attached c)
      else
        do2! torn, left_attached :=
          match gate with
          | CgroupOnly =>
              do! reached := match result with Err e => ret (Err e) | Ok _ => child_cgroup_kill_reached c end in
              match reached with
              | Ok _ => do! o := reap_after_tree_kill in ret (o, attached c)
              | Err _ => do! o := tear_down_leaf_and_look_at_front c in ret (o, AttachedNone)
              end
          | _ => do! o := tear_down (Some (id c)) KillIt false in ret (o, attached c)
          end in
        do! _ := emit (report_parts view skipped tree (left_list torn)) (reported c) in
        ret (torn_fate torn, left_attached)
  end.

(** [Child]'s drop, and then its fields'. *)
Definition drop_child (c : Child) : H unit :=
  do! left_attached := (if kill_on_drop c then do! r := drop_unix c in ret r.2 else ret (attached c)) in
  note (DropTree left_attached).

Definition keep_alive (c : Child) : Child :=
  child_ (id c) (attached c) (front c) (wrapper c) (containment c) false (reported c).

(** [tear_down_now]: the fate, and the child its drop is left with. *)
Definition tear_down_now (c : Child) : H (ChildFate * Child) :=
  if kill_on_drop c then
    do2! fate, left_attached := drop_unix c in
    ret (fate, child_ (id c) left_attached (front c) (wrapper c) (containment c) false (reported c))
  else
    do! own := is_reaped in
    ret (if own : bool then Reaped_ else Running (Some (id c)), c).

(** [detach], whose child is dropped at once. *)
Definition detach (c : Child) : H unit :=
  do! _ := disarm (attached c) in
  drop_child (keep_alive c).

Definition commit_kill_on_drop (c : Child) : H unit := honor_kill_on_drop (attached c) (kill_on_drop c).

End ChildOps.
