(* ===== verification/ChildPolicy.v ===== *)
(** What [Child]'s operations never do, whatever the system answers: the protocol their calls keep to,
    as an automaton over the calls of ChildCalls. *)
From S2P Require Import Prelude Identity IoErrors CrateError History LeafEnd ElevationPlan OsChild ChildCalls OwnedTeardown TreeCall ChildOps.
Local Open Scope Z_scope.

Notation H := (Hist Ev).

(** What the last looks say of the root's number: it names the root, or its group; this handle reaped
    the root; or nothing. *)
Inductive Num := Names | OwnReaped | Unnamed.

(** An elevation front: none, running for all it is known, seen to have exited, or held by its leaf. *)
Inductive FrontNow := NoFront | Live | Over | InLeaf.

#[export] Instance Num_eq_dec : EqDecision Num.
Proof. solve_decision. Defined.
#[export] Instance FrontNow_eq_dec : EqDecision FrontNow.
Proof. solve_decision. Defined.

(** Whether the handle's lock is held; whether the root is not known to be launchd's; what its number
    says; its front; and whether it is known to have been killed, or to be gone. *)
Record St := st { held : bool; pinned : bool; num : Num; now_ : FrontNow; ended : bool }.

Section Policy.
  Context `{Sys}.
  (** Whether the front, if any, relays a [SIGTERM]; whether a look must be under the hold; and whether the
      caller asked to wait without a deadline. *)
  Variables relays strict patient : bool.

(** A front that may be sent a signal of its own; and one that may be sent a [SIGTERM], alone or with its tree. *)
Definition may_signal (f : FrontNow) : bool := match f with NoFront | Over => true | Live | InLeaf => false end.
Definition may_term (f : FrontNow) : bool := relays || may_signal f.

Definition number_after (s : RootState) : Num :=
  match s with Unreaped => Names | RootReaped true => OwnReaped | _ => Unnamed end.

(** The tree's mechanism is signalled: by the root's number only while it names the root or its group,
    under the hold; killed with a live front in it only if that is in the leaf; and sent a [SIGTERM] with a live
    front in it only if that relays it. *)
Definition tree_ok (s : St) (m : Attached) (sig : TreeSignal) : bool :=
  match m with ProcessGroup _ | FdMarker _ _ => held s && bool_decide (num s = Names) | _ => true end
  && match sig with
     | TKill => may_signal (now_ s) || (is_cgroup m && bool_decide (now_ s = InLeaf))
     | TTerm => may_term (now_ s)
     end.

Definition signal_ok (s : St) (by_hold : bool) (sig : Sig) : bool :=
  eqb by_hold (held s) && pinned s
  && match sig with SigKill => may_signal (now_ s) | SigTerm => may_term (now_ s) end.

Definition set_ended (s : St) (b : bool) : St := st (held s) (pinned s) (num s) (now_ s) (ended s || b).

(** The protocol. *)
Definition step (s : St) (e : Ev) : option St :=
  match e with
  | Hold => if held s then None else Some (st true (pinned s) (if strict then Unnamed else num s) (now_ s) (ended s))
  | Release => if held s then Some (st false (pinned s) Unnamed (now_ s) (ended s)) else None
  | LookState h a =>
      if eqb h (held s) then
        Some (st (held s) (negb (bool_decide (platform = Macos) && is_unpinned_state a)) (number_after a) (now_ s)
                (ended s || match a with RootReaped _ | Unpinned => true | _ => false end))
      else None
  | LookExit a =>
      if held s then None
      else
        match a with
        | Ok PeekRunning | Err _ => Some s
        | Ok _ => Some (st (held s) (pinned s) (num s) (if bool_decide (now_ s = NoFront) then NoFront else Over) true)
        end
  | SignalRoot h sig a =>
      if signal_ok s h sig then Some (set_ended s match sig, a with SigKill, Ok _ => true | _, _ => false end) else None
  | Wait bounded _ =>
      if negb (held s) && (bounded || patient || (pinned s && ended s)) then Some (st (held s) (pinned s) Unnamed (now_ s) (ended s)) else None
  | WatchExit a => if held s then None else Some (set_ended s match a with Ok b => b | Err _ => false end)
  | WaitDrain a => if held s then None else Some (set_ended s match a with Ok AllMembersExited => true | _ => false end)
  | IsReaped _ => if held s then None else Some s
  | ReadNumber a =>
      Some (st (held s) (pinned s) (match a with Gone => if bool_decide (num s = OwnReaped) then Names else Unnamed | _ => Unnamed end)
              (now_ s) (ended s))
  | HasMember a =>
      if held s then
        Some (st (held s) (pinned s) (match a with Some true => Names | _ => Unnamed end) (now_ s)
                (ended s || bool_decide (a = Some false)))
      else None
  | SendTree m sig a => if tree_ok s m sig then Some s else None
  | SendHolders sig except a =>
      if match sig with TKill => may_signal (now_ s) | TTerm => may_term (now_ s) end
      then Some (set_ended s match sig, a with TKill, Ok _ => true | _, _ => false end) else None
  | SendGroupAndHolders sig a => if tree_ok s (FdMarker None None) sig then Some s else None
  | LeafHolds a =>
      Some (st (held s) (pinned s) (num s)
              match a, now_ s with Ok true, Live => InLeaf | _, f => f end (ended s))
  | LeafNames a | Reached a => Some (set_ended s match a with Ok b => b | Err _ => false end)
  | DropTree _ => if held s then None else Some s
  | WarnSlow | LeafSubtree _ | Disarm _ | MarkKilled | Warn _ | WarnSkipped => Some s
  end.

Notation keeps := (keeps step).

(** ** What the parts keep *)

(** The front of the child is the one the state tracks. *)
Definition tracks (c : Child) (s : St) : Prop := (front c = None <-> now_ s = NoFront).

(** Between two moments of an operation: the lock is where it was, a front that could be signalled
    still can, and what is ended stays so. *)
Record goes_on (s s' : St) : Prop := {
  go_held : held s' = held s;
  go_front : now_ s = NoFront <-> now_ s' = NoFront;
  go_may : may_signal (now_ s) = true -> may_signal (now_ s') = true;
  go_ended : ended s = true -> ended s' = true;
  go_linux : platform = Linux -> pinned s = true -> pinned s' = true }.

Lemma goes_on_refl s : goes_on s s.
Proof. by split. Qed.

Lemma goes_on_trans s1 s2 s3 : goes_on s1 s2 -> goes_on s2 s3 -> goes_on s1 s3.
Proof. intros [A1 A2 A3 A4 A5] [B1 B2 B3 B4 B5]. split; [congruence|tauto|auto|auto|auto]. Qed.

(** The mechanism may be killed. *)
Definition may_kill_tree (a : Attached) (s : St) : Prop := may_signal (now_ s) = true \/ is_cgroup a = true /\ now_ s = InLeaf.

Lemma front_seen s a : held s = false ->
  exists s', step s (LookExit a) = Some s' /\ goes_on s s' /\ pinned s' = pinned s /\ num s' = num s
    /\ (forall b, a = Ok b -> b <> PeekRunning -> ended s' = true /\ (now_ s <> NoFront -> now_ s' = Over))
    /\ (match a with Ok PeekRunning | Err _ => s' = s | _ => True end).
Proof.
  intros Hh. cbn. rewrite Hh. destruct s as [hd p n f e]. cbn in *.
  destruct a as [[r| |fo]|e']; eexists; (split; [reflexivity|]); cbn.
  2,4: split_and!; [apply goes_on_refl|done|done|naive_solver|done].
  all: split_and!; [|done|done|by intros; split; [|destruct f]|done].
  all: split; cbn; [done|by destruct f|by destruct f|done|done].
Qed.

(** What is known once [root_running] answered. *)
Lemma root_running_keeps s :
  held s = false ->
  keeps s root_running (fun r s' => goes_on s s' /\ pinned s' = pinned s /\ num s' = num s
    /\ (r = Ok false -> ended s' = true /\ (now_ s <> NoFront -> now_ s' = Over))
    /\ (r <> Ok false -> s' = s)).
Proof.
  intros Hh. unfold root_running. keeps_step. keeps_step. destruct (front_seen s a Hh) as (s' & Hs & Hg & Hp & Hn & Hx & Hq).
  exists s'. split; [done|]. keeps_step. split_and!; [done|done|done| |].
  - intros Hr. destruct a as [[]|]; try done; by eapply Hx.
  - intros Hr. destruct a as [[]|]; try done; by destruct Hr.
Qed.

(** What a kill gate says of the front. *)
Definition gated (c : Child) (g : Gate) (s : St) : Prop :=
  match g with
  | Open => front c = None
  | ElevationPlan.Exited => now_ s = Over /\ ended s = true
  | CgroupOnly => is_cgroup (attached c) = true /\ may_kill_tree (attached c) s /\ front c <> None
  | Closed _ => True
  end.

Lemma second_look_keeps c f s r1 placed :
  held s = false -> now_ s <> NoFront -> placed <> Ok true -> r1 <> Ok false ->
  keeps s (do! r2 := root_running in ret (ElevationPlan.kill_gate (Some f) r1 placed r2))
    (fun g s' => goes_on s s' /\ pinned s' = pinned s /\ num s' = num s /\ gated c g s').
Proof.
  intros Hh Hf Hp Hr. keeps_step. keeps_use root_running_keeps; [done|].
  intros r2 s' (G & P & N & X & Q). keeps_step. split_and!; [done..|].
  destruct r1 as [[]|]; try done; destruct placed as [[]|]; try done; destruct r2 as [[]|]; try done; cbn;
    destruct (X eq_refl) as [? Hx]; auto.
Qed.

Lemma leaf_held s a : exists s', step s (LeafHolds a) = Some s' /\ goes_on s s' /\ pinned s' = pinned s /\ num s' = num s
  /\ (a <> Ok true -> s' = s) /\ (a = Ok true -> now_ s <> NoFront -> may_signal (now_ s') = true \/ now_ s' = InLeaf).
Proof.
  destruct s as [hd p n f e]. eexists. split; [reflexivity|]. cbn.
  destruct a as [[]|x]; (split_and!; [split; cbn; by destruct f|done|done|by destruct f|intros; destruct f; auto; done]).
Qed.

Lemma kill_gate_keeps c s :
  held s = false -> tracks c s ->
  keeps s (child_kill_gate c) (fun g s' => goes_on s s' /\ pinned s' = pinned s /\ num s' = num s /\ gated c g s').
Proof.
  intros Hh Ht. unfold child_kill_gate. destruct (front c) as [f|] eqn:Ef; [|keeps_step; split_and!; [apply goes_on_refl|done..]].
  assert (Hf : now_ s <> NoFront) by (intros Hn; apply Ht in Hn; congruence).
  keeps_step. keeps_use root_running_keeps; [done|]. intros r1 s1 (G1 & P1 & N1 & X1 & Q1).
  assert (Hr : r1 = Ok false \/ r1 <> Ok false) by (destruct r1 as [[]|]; auto).
  destruct Hr as [->|Hr].
  { keeps_step. split_and!; [done..|]. destruct (X1 eq_refl) as [? Hx]. cbn. auto. }
  rewrite (Q1 Hr). assert (Hrest : keeps s (do! placed := kill_reaches_across_credentials (attached c) in
    match placed with Ok true => ret CgroupOnly | _ => do! r2 := root_running in ret (ElevationPlan.kill_gate (Some f) r1 placed r2) end)
    (fun g s' => goes_on s s' /\ pinned s' = pinned s /\ num s' = num s /\ gated c g s')); [|by destruct r1 as [[]|]].
  keeps_step. unfold kill_reaches_across_credentials. destruct (is_cgroup (attached c)) eqn:Ec; [|keeps_step; by apply second_look_keeps].
  keeps_step. destruct (leaf_held s a) as (s' & Hs & G & P & N & Q & M). exists s'. split; [done|].
  assert (Ha : a = Ok true \/ a <> Ok true) by (destruct a as [[]|]; auto). destruct Ha as [->|Ha].
  - keeps_step. split_and!; [done..|]. cbn. split; [done|]. split; [|congruence]. destruct (M eq_refl Hf); [by left|by right].
  - rewrite (Q Ha). destruct a as [[]|]; [done|by apply second_look_keeps..].
Qed.

Lemma root_exited_keeps s :
  held s = false -> keeps s root_exited (fun r s' => goes_on s s' /\ pinned s' = pinned s /\ (r = Ok true -> ended s' = true)).
Proof.
  intros Hh. unfold root_exited. keeps_step. keeps_use root_running_keeps; [done|]. intros r s' (G & P & _ & X & _).
  keeps_step. split_and!; [done|done|]. destruct r as [[]|]; try done. intros _. by apply X.
Qed.

Lemma names_step s a : exists s', step s (LeafNames a) = Some s' /\ goes_on s s' /\ pinned s' = pinned s /\ (a = Ok true -> ended s' = true).
Proof.
  destruct s as [hd p n f e]. eexists. split; [reflexivity|]. cbn. unfold set_ended; cbn.
  split_and!; [split; cbn; try done; by intros ->|done|by intros ->; rewrite orb_true_r].
Qed.

Lemma cgroup_kill_reached_keeps c s :
  held s = false ->
  keeps s (child_cgroup_kill_reached c) (fun r s' => goes_on s s' /\ pinned s' = pinned s /\ (r = Ok tt -> ended s' = true)).
Proof.
  intros Hh. unfold child_cgroup_kill_reached. destruct (front c) as [f|]; [|keeps_step; by split_and!; [apply goes_on_refl|..]].
  keeps_step. keeps_use root_exited_keeps; [done|]. intros e1 s1 (G1 & P1 & X1).
  assert (Hh1 : held s1 = false) by (by rewrite (go_held _ _ G1)).
  assert (He : e1 = Ok true \/ e1 <> Ok true) by (destruct e1 as [[]|]; auto). destruct He as [->|He].
  { keeps_step. by split_and!; [..|intros _; apply X1]. }
  assert (Hlast : forall placed s2, goes_on s s2 -> pinned s2 = pinned s -> placed <> Ok true ->
    keeps s2 (do! e2 := root_exited in ret (ElevationPlan.cgroup_kill_reached (Some f) e1 placed e2))
      (fun r s' => goes_on s s' /\ pinned s' = pinned s /\ (r = Ok tt -> ended s' = true))).
  { intros placed s2 G2 P2 Hp. keeps_step. keeps_use root_exited_keeps; [by rewrite (go_held _ _ G2)|].
    intros e2 s3 (G3 & P3 & X3). keeps_step. split_and!; [by eapply goes_on_trans|congruence|].
    destruct e1 as [[]|]; try done; destruct placed as [[]|]; try done; destruct e2 as [[]|]; try done; intros _; by apply X3. }
  assert (Hrest : keeps s1 (do! placed := cgroup_names (attached c) in
    match placed with Ok true => ret (Ok tt) | _ => do! e2 := root_exited in ret (ElevationPlan.cgroup_kill_reached (Some f) e1 placed e2) end)
      (fun r s' => goes_on s s' /\ pinned s' = pinned s /\ (r = Ok tt -> ended s' = true))); [|by destruct e1 as [[]|]].
  keeps_step. unfold cgroup_names. destruct (is_cgroup (attached c)); [|keeps_step; by apply Hlast].
  keeps_step. destruct (names_step s1 a) as (s2 & Hs & G2 & P2 & X2). exists s2. split; [done|].
  destruct a as [[]|]; [keeps_step; split_and!; [by eapply goes_on_trans|congruence|auto]|apply Hlast; [by eapply goes_on_trans|congruence|done]..].
Qed.

(** The state's [relays] is the front's. *)
Definition relays_of (c : Child) : Prop := match front c with Some f => relays = relays_term f | None => True end.

Lemma terminate_gate_keeps c s :
  held s = false -> tracks c s -> relays_of c ->
  keeps s (child_terminate_gate c) (fun g s' => goes_on s s' /\ pinned s' = pinned s
    /\ match g with Closed _ => True | _ => relays || may_signal (now_ s') = true end).
Proof.
  intros Hh Ht Hr. unfold child_terminate_gate, relays_of in *. unfold tracks in Ht. destruct (front c) as [f|].
  - destruct (relays_term f) eqn:Ef; [keeps_step; split_and!; [apply goes_on_refl|done|by rewrite Hr]|].
    keeps_step. keeps_use root_running_keeps; [done|]. intros r s' (G & P & _ & X & _). keeps_step. split_and!; [done..|].
    cbn. rewrite Ef. destruct r as [[]|]; try done. destruct (X eq_refl) as [_ Hx]. rewrite Hx; [by rewrite orb_true_r|].
    intros Hn. apply Ht in Hn. done.
  - keeps_step. split_and!; [apply goes_on_refl|done|]. destruct Ht as [Ht _]. rewrite (Ht eq_refl). by rewrite orb_true_r.
Qed.

Lemma look_state_step s a : exists s', step s (LookState (held s) a) = Some s' /\ goes_on s s' /\ num s' = number_after a
  /\ pinned s' = negb (bool_decide (platform = Macos) && is_unpinned_state a)
  /\ (forall o, a = RootReaped o -> ended s' = true) /\ (a = Unpinned -> ended s' = true) /\ now_ s' = now_ s.
Proof.
  destruct s as [hd p n f e]. eexists. split; [cbn; by rewrite eqb_reflx|]. cbn.
  split_and!; [split; cbn; try done|done|done|by intros o ->; rewrite orb_true_r|by intros ->; rewrite orb_true_r|done]; [by intros ->|by intros ->].
Qed.

(** The root is not launchd's, as far as it was looked at. *)
Lemma root_is_unpinned_keeps s :
  held s = false -> (platform = Linux -> pinned s = true) ->
  keeps s root_is_unpinned (fun u s' => goes_on s s' /\ (u = false -> pinned s' = true) /\ (u = true -> ended s' = true) /\ now_ s' = now_ s).
Proof.
  intros Hh Hl. unfold root_is_unpinned, root_state. destruct platform eqn:Ep; [keeps_step; split_and!; [apply goes_on_refl|auto|done|done]|].
  keeps_step. keeps_step. destruct (look_state_step s a) as (s' & Hs & G & _ & P & _ & U & N). rewrite Hh in Hs. exists s'.
  split; [done|]. keeps_step. split_and!; [done| | |done].
  - intros Hu. by rewrite P, Hu, andb_false_r.
  - intros Hu. apply U. by destruct a.
Qed.

Lemma signal_root_keeps by_hold sig s :
  signal_ok s by_hold sig = true ->
  keeps s (signal_root by_hold sig) (fun r s' => goes_on s s' /\ pinned s' = pinned s /\ num s' = num s
    /\ (sig = SigKill -> (exists x, r = Ok x) -> ended s' = true)).
Proof.
  intros Hok. unfold signal_root. keeps_step. eexists. split; [cbn; by rewrite Hok|]. destruct s as [hd p n f e].
  split_and!; [split; cbn; try done; by intros ->|done|done|]. intros -> [x ->]. cbn. by rewrite orb_true_r.
Qed.

Lemma kill_root_keeps s :
  held s = false -> pinned s = true -> may_signal (now_ s) = true ->
  keeps s kill_root (fun r s' => goes_on s s' /\ pinned s' = pinned s /\ ((exists x, r = Ok x) -> ended s' = true)).
Proof.
  intros Hh Hp Hm. unfold kill_root. keeps_step. keeps_use signal_root_keeps; [unfold signal_ok; by rewrite Hh, Hp, Hm|].
  intros r s' (G & P & _ & X). keeps_step. split_and!; [done..|]. destruct r; [|by intros [? ?]]. intros _. apply X; eauto.
Qed.

Lemma kill_root_typed_keeps c s :
  held s = false -> pinned s = true -> may_signal (now_ s) = true ->
  keeps s (kill_root_typed c) (fun r s' => goes_on s s' /\ pinned s' = pinned s /\ ((exists x, r = Ok x) -> ended s' = true)).
Proof.
  intros Hh Hp Hm. unfold kill_root_typed. keeps_step. keeps_use kill_root_keeps; [done..|].
  intros r s' (G & P & X). keeps_step. split_and!; [done..|]. destruct r; [|by intros [? ?]]. intros _. apply X; eauto.
Qed.

Lemma kill_exited_front_keeps s :
  held s = false -> pinned s = true -> may_signal (now_ s) = true -> ended s = true ->
  keeps s kill_exited_front (fun r s' => goes_on s s' /\ pinned s' = pinned s /\ ended s' = true).
Proof.
  intros Hh Hp Hm He. unfold kill_exited_front. keeps_step. keeps_use kill_root_keeps; [done..|].
  intros r s' (G & P & _). keeps_step. split_and!; [done..|]. by apply (go_ended _ _ G).
Qed.

(** ** The look at the root *)

(** The front is where it was. *)
Definition looks_on (s s' : St) : Prop := goes_on s s' /\ now_ s' = now_ s.

Lemma looks_on_refl s : looks_on s s.
Proof. split; [apply goes_on_refl|done]. Qed.

Lemma looks_on_trans s1 s2 s3 : looks_on s1 s2 -> looks_on s2 s3 -> looks_on s1 s3.
Proof. intros [] []. split; [by eapply goes_on_trans|congruence]. Qed.

(** What a call may do about a root's number. *)
Definition number_known (a : Attached) (n : RootNumber) (s : St) : Prop :=
  match n with
  | Trusted => needs_root_check a = true -> num s = Names
  | Untrusted _ => True
  | NoWalk => num s = Names /\ ended s = true
  | EmptyGroup | GroupGone => ended s = true
  | MayNameAnother exact_root => exact_root = true -> platform = Linux /\ needs_root_check a = true
  end.

Lemma read_number_step s a : exists s', step s (ReadNumber a) = Some s' /\ looks_on s s' /\ ended s' = ended s
  /\ (a = Gone -> num s = OwnReaped -> num s' = Names).
Proof. destruct s as [hd p n f e]. eexists. split; [reflexivity|]. split_and!; [by split; [split|]|done|by intros -> [= ->]]. Qed.

Lemma has_member_step s a : held s = true -> exists s', step s (HasMember a) = Some s' /\ looks_on s s'
  /\ (a = Some true -> num s' = Names) /\ (a = Some false -> ended s' = true).
Proof.
  destruct s as [hd p n f e]. cbn. intros ->. eexists. split; [reflexivity|].
  split_and!; [split; [split; cbn; try done; by intros ->|done]|by intros ->|intros ->; cbn; by rewrite orb_true_r].
Qed.

Lemma number_of_state_keeps a s looked :
  needs_root_check a = true -> num s = number_after looked -> (forall o, looked = RootReaped o -> ended s = true) ->
  keeps s (number_of_state a looked) (fun n s' => looks_on s s' /\ number_known a n s').
Proof.
  intros Hn Hs He. unfold number_of_state. destruct looked as [|[]|e|].
  - keeps_step. split; [apply looks_on_refl|by intros _].
  - unfold root_identity_now. do 2 keeps_step. destruct (read_number_step s a0) as (s' & Hst & G & E & N). exists s'. split; [done|].
    keeps_step. split; [done|]. destruct a0 as [id'| |].
    + cbn. rewrite E. by eapply He.
    + unfold own_reaped_free. destruct platform; [cbn; auto|]. destruct (fd_marker_has_group a) as [[]|]; cbn; rewrite ?E; eauto.
    + done.
  - keeps_step. split; [apply looks_on_refl|done].
  - keeps_step. split; [apply looks_on_refl|]. cbn. intros Hp. apply bool_decide_eq_true in Hp. by split.
  - keeps_step. split; [apply looks_on_refl|done].
Qed.

Lemma root_number_keeps a s :
  held s = true -> keeps s (root_number a (root_state true)) (fun n s' => looks_on s s' /\ number_known a n s').
Proof.
  intros Hh.
  assert (Hlook : forall k, (forall looked s', looks_on s s' -> num s' = number_after looked -> (forall o, looked = RootReaped o -> ended s' = true) ->
      keeps s' (k looked) (fun n s' => looks_on s s' /\ number_known a n s')) ->
    keeps s (do! looked := root_state true in k looked) (fun n s' => looks_on s s' /\ number_known a n s')).
  { intros k Hk. unfold root_state. do 2 keeps_step. destruct (look_state_step s a0) as (s' & Hs & G & N & _ & E & _ & F).
    rewrite Hh in Hs. exists s'. split; [done|]. apply Hk; [by split|done|done]. }
  assert (Hstate : forall looked s', looks_on s s' -> num s' = number_after looked -> (forall o, looked = RootReaped o -> ended s' = true) ->
      needs_root_check a = true -> keeps s' (number_of_state a looked) (fun n s' => looks_on s s' /\ number_known a n s')).
  { intros looked s' G N E Hn. keeps_use number_of_state_keeps; [done..|]. intros n s'' [G' K]. split; [by eapply looks_on_trans|done]. }
  unfold root_number. destruct platform eqn:Ep.
  - destruct (needs_root_check a) eqn:En; [|keeps_step; split; [apply looks_on_refl|by intros ?; congruence]].
    apply Hlook. intros looked s' G N E. by apply Hstate.
  - apply Hlook. intros looked s' G N E. destruct (needs_root_check a) eqn:En.
    + destruct looked; try (by apply Hstate); (keeps_step; by split).
    + destruct looked; keeps_step; (split; [done|]); try done; cbn; congruence.
Qed.

Lemma call_root_number_keeps a s :
  held s = true -> keeps s (call_root_number a (root_state true)) (fun n s' => looks_on s s' /\ number_known a n s').
Proof.
  intros Hh. unfold call_root_number. keeps_step. keeps_use root_number_keeps; [done|]. intros n s' [G K].
  destruct platform; [|by keeps_step]. unfold through_the_pidfd.
  assert (Hq : keeps s' (ret n) (fun n s'' => looks_on s s'' /\ number_known a n s'')) by (by keeps_step).
  destruct n as [| | | |x|]; try done. destruct a; try done. unfold has_member. do 2 keeps_step.
  assert (Hh' : held s' = true) by (rewrite (go_held _ _ (proj1 G)); done).
  destruct (has_member_step s' a Hh') as (s'' & Hs & G' & N & E). exists s''. split; [done|]. keeps_step.
  split; [by eapply looks_on_trans|]. destruct a as [[]|]; cbn; auto. destruct x; cbn; auto.
Qed.

(** ** Sends to the tree *)

Lemma may_term_relays f : relays = true -> may_term f = true.
Proof. unfold may_term. by intros ->. Qed.

Lemma tree_ok_known a sig s :
  (sig = TTerm -> relays = true) ->
  held s = true \/ needs_root_check a = false -> (needs_root_check a = true -> num s = Names) ->
  (sig = TKill -> may_kill_tree a s) -> tree_ok s a sig = true.
Proof.
  intros Ht Hh Hn Hk. unfold tree_ok. apply andb_true_iff. split.
  - destruct a; try done; cbn in *; (destruct Hh as [Hh|]; [|done]); by rewrite Hh, (Hn eq_refl).
  - destruct sig; [|by apply may_term_relays; auto]. destruct (Hk eq_refl) as [->|[-> ->]]; [done|]. by rewrite orb_true_r.
Qed.

Lemma send_tree_keeps a sig s : tree_ok s a sig = true -> keeps s (send_tree a sig) (fun _ s' => s' = s).
Proof. intros Hok. unfold send_tree. keeps_step. exists s. cbn. by rewrite Hok. Qed.

Lemma hard_kill_report_keeps a s : tree_ok s a TKill = true -> keeps s (hard_kill_report a) (fun _ s' => s' = s).
Proof.
  intros Hok. unfold hard_kill_report. destruct a; try (by keeps_step);
    (keeps_step; keeps_use send_tree_keeps; [done|]; intros r s' ->; by keeps_step).
Qed.

Lemma hard_kill_keeps a s : tree_ok s a TKill = true -> keeps s (hard_kill a) (fun _ s' => s' = s).
Proof. intros Hok. unfold hard_kill. keeps_step. keeps_use hard_kill_report_keeps; [done|]. intros r s' ->. by keeps_step. Qed.

Lemma mark_keeps s : keeps s mark (fun _ s' => s' = s).
Proof. unfold mark. by keeps_step. Qed.

Lemma hard_kill_marking_keeps a s : tree_ok s a TKill = true -> keeps s (hard_kill_marking a) (fun _ s' => s' = s).
Proof.
  intros Hok. unfold hard_kill_marking. keeps_step. keeps_use hard_kill_report_keeps; [done|]. intros [[u|e] complete] s' ->; [|by keeps_step].
  keeps_step. destruct complete; [keeps_use mark_keeps; intros u' s' ->|keeps_step]; by keeps_step.
Qed.

Lemma terminate_tree_keeps a s : tree_ok s a TTerm = true -> keeps s (terminate_tree a) (fun _ s' => s' = s).
Proof.
  intros Hok. unfold terminate_tree. destruct a; try (by keeps_step);
    (keeps_step; keeps_use send_tree_keeps; [done|]; intros r s' ->; by keeps_step).
Qed.

Lemma set_ended_looks s b : looks_on s (set_ended s b).
Proof. destruct s. split; [split; cbn; try done; by intros ->|done]. Qed.

Lemma send_holders_keeps sig except s :
  (sig = TTerm -> relays = true) ->
  (sig = TKill -> may_signal (now_ s) = true) ->
  keeps s (send_holders sig except) (fun r s' => looks_on s s' /\ num s' = num s /\ (sig = TKill -> r = Ok tt -> ended s' = true)).
Proof.
  intros Hterm Hm. unfold send_holders. keeps_step. exists (set_ended s match sig, a with TKill, Ok _ => true | _, _ => false end).
  split; [cbn; by destruct sig; [rewrite Hm|rewrite may_term_relays by auto]|]. split_and!; [apply set_ended_looks|done|].
  intros -> ->. cbn. by rewrite orb_true_r.
Qed.

Lemma mark_if_keeps b sig r s : keeps s (mark_if b sig r) (fun _ s' => s' = s).
Proof. unfold mark_if. destruct r, sig; try (by keeps_step). destruct b; [apply mark_keeps|by keeps_step]. Qed.

(** The holders of a marker: nothing is sent without one. *)
Lemma signal_holders_only_keeps a sig marks s :
  (sig = TTerm -> relays = true) ->
  (sig = TKill -> names_tree_by_identity a = true -> may_signal (now_ s) = true) ->
  keeps s (signal_holders_only a sig marks) (fun _ s' => looks_on s s' /\ num s' = num s).
Proof.
  intros Hterm Hm. unfold signal_holders_only. destruct a; try (keeps_step; by split; [apply looks_on_refl|]).
  keeps_step. keeps_use send_holders_keeps; [done|auto|]. intros r s' (G & N & _). keeps_step. keeps_use mark_if_keeps.
  intros u s'' ->. by keeps_step.
Qed.

Lemma no_walk_keeps a sig s :
  (sig = TTerm -> relays = true) ->
  held s = true -> num s = Names -> (sig = TKill -> needs_root_check a = true -> may_signal (now_ s) = true) -> keeps s (no_walk a sig) (fun _ s' => s' = s).
Proof.
  intros Hterm Hh Hn Hm. unfold no_walk, signal_group_and_holders. keeps_step. destruct a; try (by repeat keeps_step).
  unfold send_group_and_holders. do 2 keeps_step. exists s. split.
  - cbn. replace (tree_ok s (FdMarker None None) sig) with true; [done|]. symmetry. apply tree_ok_known; [done|by left|done|]. left. auto.
  - keeps_step. keeps_use mark_if_keeps. intros u s' ->. by repeat keeps_step.
Qed.

Lemma untrusted_keeps a sig root s :
  (sig = TTerm -> relays = true) ->
  (sig = TKill -> needs_root_check a = true -> may_signal (now_ s) = true) ->
  keeps s (untrusted a sig root) (fun r s' => looks_on s s' /\ match r with
    | None => needs_root_check a = false
    | Some (Ok _) => sig = TKill -> ended s' = true
    | Some (Err _) => True
    end).
Proof.
  intros Hterm Hm. unfold untrusted, signal_tree_untrusted. destruct (named_by_root_number a) eqn:En; cbn [negb].
  - destruct a; try done; try (keeps_step; by split; [apply looks_on_refl|]).
    keeps_step. keeps_use send_holders_keeps; [done|by auto|]. intros r s' (G & _ & E). keeps_step. keeps_use mark_if_keeps.
    intros u s'' ->. keeps_step. split; [done|]. destruct r as [[]|]; [|done]. auto.
  - keeps_step. split; [apply looks_on_refl|]. by destruct a.
Qed.

Lemma group_gone_keeps sig s : keeps s (group_gone sig) (fun _ s' => s' = s).
Proof. unfold group_gone. destruct sig; [apply mark_keeps|by keeps_step]. Qed.

Lemma number_skipped_keeps a sig root s :
  (sig = TTerm -> relays = true) ->
  (sig = TKill -> names_tree_by_identity a = true -> may_signal (now_ s) = true) ->
  keeps s (number_skipped a sig root) (fun _ s' => looks_on s s').
Proof.
  intros Hterm Hm. unfold number_skipped. keeps_step. keeps_use signal_holders_only_keeps; [done|done|]. intros r s' [G _].
  keeps_step. keeps_step. by keeps_step.
Qed.

(** A tree call's decision under the hold: [None] is a mechanism that may be signalled, and an [Ok]
    kill of a tree is one whose root is ended. *)
Lemma root_checked_keeps a sig sr s :
  (sig = TTerm -> relays = true) ->
  held s = true -> (platform = Linux -> pinned s = true) -> (sig = TKill -> may_kill_tree a s) ->
  (forall s1, looks_on s s1 -> pinned s1 = true -> platform = Linux -> needs_root_check a = true -> keeps s1 sr (fun _ s' => looks_on s1 s')) ->
  keeps s (root_checked a sig (root_state true) sr) (fun r s' => looks_on s s' /\ match r with
    | None => tree_ok s' a sig = true
    | Some (Ok _) => sig = TKill -> ended s' = true
    | Some (Err _) => True
    end).
Proof.
  intros Hterm Hh Hp Hk Hsr. unfold root_checked. keeps_step. keeps_use call_root_number_keeps; [done|]. intros n s1 [G K].
  assert (Hh1 : held s1 = true) by (rewrite (go_held _ _ (proj1 G)); done).
  assert (Hmay : sig = TKill -> needs_root_check a = true -> may_signal (now_ s1) = true).
  { intros Hs Hn. rewrite (proj2 G). destruct (Hk Hs) as [?|[Hc _]]; [done|by destruct a]. }
  assert (Hmark : names_tree_by_identity a = true -> needs_root_check a = true) by (by destruct a).
  destruct n as [|root| | |x|]; cbn in K.
  - keeps_step. split; [done|]. apply tree_ok_known; [done|by left|done|]. intros Hs. unfold may_kill_tree. rewrite (proj2 G). exact (Hk Hs).
  - keeps_use untrusted_keeps; [done|done|]. intros r s2 [G2 Hr]. split; [by eapply looks_on_trans|]. destruct r as [[]|]; [done|done|].
    apply tree_ok_known; [done|by right|congruence|]. intros Hs. unfold may_kill_tree. rewrite (proj2 G2), (proj2 G). exact (Hk Hs).
  - destruct K as [N E]. keeps_step. keeps_use no_walk_keeps; [done|done|done|done|]. intros r s2 ->. keeps_step. split; [done|]. by destruct r.
  - keeps_step. unfold empty_group. keeps_use signal_holders_only_keeps; [done|by auto|]. intros r s2 [G2 _].
    assert (He : ended s2 = true) by (by apply (go_ended _ _ (proj1 G2))).
    destruct r as [r|].
    + keeps_step. split; [by eapply looks_on_trans|]. by destruct r.
    + keeps_step. keeps_use group_gone_keeps. intros u s3 ->. keeps_step. split; [by eapply looks_on_trans|done].
  - keeps_step. eapply keeps_mono with (Q := fun _ s2 => looks_on s1 s2).
    { destruct x; [|keeps_step; apply looks_on_refl]. destruct (K eq_refl) as [Hl Hn]. keeps_step.
      eapply keeps_mono; [apply Hsr; [done| |done|done]|intros r s2 G2; by keeps_step].
      apply (go_linux _ _ (proj1 G)); auto. }
    intros root s2 G2. keeps_step. keeps_use number_skipped_keeps; [done|rewrite (proj2 G2); by auto|].
    intros e s3 G3. keeps_step. split; [|done]. eapply looks_on_trans; [done|]. by eapply looks_on_trans.
  - keeps_step. keeps_use group_gone_keeps. intros u s2 ->. keeps_step. split; [done|done].
Qed.

(** ** Under the hold *)

Lemma hold_keeps s :
  held s = false -> keeps s hold (fun _ s' => exists n, s' = st true (pinned s) n (now_ s) (ended s) /\ (strict = false -> n = num s)).
Proof.
  intros Hh. unfold hold. eapply keeps_note; [cbn; by rewrite Hh|]. eexists. split; [done|]. by intros ->.
Qed.

Definition released (s : St) : St := st false (pinned s) Unnamed (now_ s) (ended s).

Lemma release_keeps s : held s = true -> keeps s release (fun _ s' => s' = released s).
Proof. intros Hh. unfold release. by eapply keeps_note; [cbn; by rewrite Hh|]. Qed.

Lemma bracket s n s2 : held s = false -> goes_on (st true (pinned s) n (now_ s) (ended s)) s2 -> goes_on s (released s2).
Proof. intros Hh [A1 A2 A3 A4 A5]. cbn in *. by split. Qed.

Lemma held_kill_keeps c s :
  held s = true -> pinned s = true -> may_signal (now_ s) = true -> keeps s (held_kill c) (fun _ s' => looks_on s s').
Proof.
  intros Hh Hp Hm. unfold held_kill, signal_root. do 2 keeps_step. eexists.
  split; [cbn; unfold signal_ok; by rewrite Hh, Hp, Hm|]. keeps_step. apply set_ended_looks.
Qed.

(** What an operation that ends with the lock free leaves. *)
Definition left_free (s s' : St) : Prop := goes_on s s' /\ held s' = false.

Lemma kill_tree_gated_keeps c fic s :
  held s = false -> (platform = Linux -> pinned s = true) -> may_kill_tree (attached c) s ->
  (fic = None -> may_signal (now_ s) = true) -> (fic = Some false -> ended s = true) ->
  keeps s (kill_tree_gated c fic) (fun r s' => goes_on s s' /\ (r = Ok tt -> ended s' = true)).
Proof.
  intros Hh Hl Hk Hnone Hover. unfold kill_tree_gated. keeps_step. keeps_use hold_keeps; [done|]. intros u s1 (n & -> & _).
  set (s1 := st true _ n _ _). keeps_step. keeps_use root_checked_keeps; [done|done|done|done| |].
  { intros s2 G Hp _ Hn. apply held_kill_keeps; [by rewrite (go_held _ _ (proj1 G))|done|].
    rewrite (proj2 G). cbn. destruct Hk as [?|[Hc _]]; [done|]. by destruct (attached c). }
  intros r s2 [G Hr]. assert (Hh2 : held s2 = true) by (by rewrite (go_held _ _ (proj1 G))).
  pose proof (bracket s n s2 Hh (proj1 G)) as Gs.
  destruct r as [r|]; keeps_step.
  { keeps_use release_keeps; [done|]. intros u2 s3 ->. keeps_step. split; [done|]. by intros ->; apply Hr. }
  keeps_use hard_kill_marking_keeps; [done|]. intros gr s3 ->. keeps_step. keeps_use release_keeps; [done|]. intros u2 s3 ->.
  assert (Hh3 : held (released s2) = false) by done.
  destruct (hard_kill_refused_to_walk (attached c) gr) eqn:Ew.
  { keeps_step. split; [done|]. intros ->. by destruct (attached c). }
  destruct fic as [[]|].
  - destruct gr as [gu|ge]; [|by keeps_step]. keeps_use cgroup_kill_reached_keeps; [done|]. intros r s3 (G3 & _ & E).
    split; [by eapply goes_on_trans|done].
  - keeps_step. split; [done|]. intros _. by apply (go_ended _ _ Gs), Hover.
  - keeps_step. keeps_use root_is_unpinned_keeps; [done|by intros Hx; apply (go_linux _ _ Gs); auto|].
    intros un s3 (G3 & P3 & U3 & N3). keeps_step.
    eapply keeps_mono with (Q := fun r s4 => goes_on s s4 /\ (r = Ok tt -> ended s4 = true)).
    + destruct un; [keeps_step; split; [by eapply goes_on_trans|auto]|]. keeps_step.
      keeps_use kill_root_typed_keeps; [by rewrite (go_held _ _ G3)|auto|rewrite N3; apply (go_may _ _ Gs); auto|].
      intros r s4 (G4 & _ & E4). keeps_step. split; [eapply goes_on_trans; [done|by eapply goes_on_trans]|].
      destruct r as [x|]; [|done]. intros _. apply E4. eauto.
    + intros bs s4 [G4 E4]. keeps_step. split; [done|]. by destruct gr.
Qed.

Lemma gated_may c g s : tracks c s -> gated c g s -> ~ is_closed g -> may_kill_tree (attached c) s.
Proof.
  intros Ht Hg Hc. destruct g; cbn in *.
  - left. apply Ht in Hg. by rewrite Hg.
  - left. destruct Hg as [-> _]. done.
  - tauto.
  - by destruct Hc.
Qed.

Lemma tracks_on c s s' : tracks c s -> goes_on s s' -> tracks c s'.
Proof. unfold tracks. intros Ht G. rewrite Ht. apply G. Qed.

Lemma kill_tree_keeps c s :
  held s = false -> (platform = Linux -> pinned s = true) -> tracks c s ->
  keeps s (kill_tree c) (fun r s' => goes_on s s' /\ (r = Ok tt -> ended s' = true)).
Proof.
  intros Hh Hl Ht. unfold kill_tree. destruct (require_contained c); [|keeps_step; by split; [apply goes_on_refl|]].
  keeps_step. keeps_use kill_gate_keeps; [done|done|]. intros g s1 (G1 & P1 & _ & Hg).
  assert (Hh1 : held s1 = false) by (by rewrite (go_held _ _ G1)). assert (Ht1 := tracks_on c s s1 Ht G1).
  assert (Hl1 : platform = Linux -> pinned s1 = true) by (rewrite P1; auto).
  assert (Hrun : forall fic, may_kill_tree (attached c) s1 -> (fic = None -> may_signal (now_ s1) = true) ->
    (fic = Some false -> ended s1 = true) ->
    keeps s1 (kill_tree_gated c fic) (fun r s' => goes_on s s' /\ (r = Ok tt -> ended s' = true))).
  { intros fic ? ? ?. keeps_use kill_tree_gated_keeps; [done..|]. intros r s2 [G2 E2]. split; [by eapply goes_on_trans|done]. }
  assert (Hm := gated_may c g s1 Ht1 Hg).
  destruct g; cbn in Hg; [apply Hrun|apply Hrun|apply Hrun|keeps_step; by split]; try done; try (by apply Hm; intros ?).
  - intros _. apply Ht1 in Hg. by rewrite Hg.
  - by intros _; destruct Hg.
Qed.

(** ** The root alone *)

Lemma refuse_unpinned_keeps s :
  held s = false -> (platform = Linux -> pinned s = true) ->
  keeps s refuse_unpinned (fun r s' => goes_on s s' /\ (r = Ok tt -> pinned s' = true) /\ now_ s' = now_ s).
Proof.
  intros Hh Hl. unfold refuse_unpinned. keeps_step. keeps_use root_is_unpinned_keeps; [done|done|].
  intros u s' (G & P & _ & N). keeps_step. split_and!; [done| |done]. destruct u; [done|auto].
Qed.

Lemma kill_through_cgroup_keeps c s :
  held s = false -> is_cgroup (attached c) = true -> may_kill_tree (attached c) s ->
  keeps s (kill_through_cgroup c) (fun r s' => goes_on s s' /\ pinned s' = pinned s /\ (r = Ok tt -> ended s' = true)).
Proof.
  intros Hh Hc Hk. unfold kill_through_cgroup. keeps_step.
  keeps_use hard_kill_marking_keeps; [apply tree_ok_known; [done|by right; destruct (attached c)|by destruct (attached c)|done]|].
  intros r s' ->. destruct r; [by apply cgroup_kill_reached_keeps|keeps_step; by split_and!; [apply goes_on_refl|..]].
Qed.

Lemma gated_on c g s s' : goes_on s s' -> now_ s' = now_ s -> gated c g s -> gated c g s'.
Proof.
  intros G N. destruct g; cbn; try done.
  - rewrite N. intros [-> He]. split; [done|by apply (go_ended _ _ G)].
  - unfold may_kill_tree. by rewrite N.
Qed.

Lemma kill_sent_gated_keeps c g s :
  held s = false -> pinned s = true -> tracks c s -> gated c g s ->
  keeps s (kill_sent_gated c g) (fun r s' => goes_on s s' /\ ((exists x, r = Ok x) -> ended s' = true)).
Proof.
  intros Hh Hp Ht Hg. unfold kill_sent_gated. destruct g as [| | |e]; cbn in Hg.
  - keeps_use kill_root_typed_keeps; [done|done|apply Ht in Hg; by rewrite Hg|]. intros r s' (G & _ & E). by split.
  - destruct Hg as [Hn He]. keeps_use kill_exited_front_keeps; [done|done|by rewrite Hn|done|]. intros r s' (G & _ & E). by split.
  - destruct Hg as (Hc & Hk & _). keeps_step. keeps_use kill_through_cgroup_keeps; [done..|]. intros r s' (G & _ & E).
    keeps_step. split; [done|]. destruct r as [[]|]; [auto|by intros [? ?]].
  - keeps_step. split; [apply goes_on_refl|by intros [? ?]].
Qed.

Lemma kill_keeps c s :
  held s = false -> (platform = Linux -> pinned s = true) -> tracks c s -> keeps s (kill c) (fun r s' => goes_on s s').
Proof.
  intros Hh Hl Ht. unfold kill, kill_sent. keeps_step. keeps_step. keeps_use kill_gate_keeps; [done|done|].
  intros g s1 (G1 & P1 & _ & Hg). assert (Hh1 : held s1 = false) by (by rewrite (go_held _ _ G1)).
  destruct (is_closed g) eqn:Ec; [destruct g; try done; unfold kill_sent_gated; by repeat keeps_step|].
  keeps_step. keeps_use refuse_unpinned_keeps; [done|by rewrite P1|]. intros r s2 (G2 & P2 & N2).
  assert (G : goes_on s s2) by (by eapply goes_on_trans). destruct r as [[]|]; [|by repeat keeps_step].
  keeps_use kill_sent_gated_keeps; [by rewrite (go_held _ _ G)|auto|by eapply tracks_on|by apply (gated_on c g s1 s2)|].
  intros x s3 [G3 _]. keeps_step. by eapply goes_on_trans.
Qed.

Lemma terminate_keeps c s :
  held s = false -> (platform = Linux -> pinned s = true) -> tracks c s -> relays_of c ->
  keeps s (terminate c) (fun r s' => goes_on s s').
Proof.
  intros Hh Hl Ht Hr. unfold terminate. keeps_step. keeps_use terminate_gate_keeps; [done..|]. intros g s1 (G1 & P1 & Hg).
  assert (Hh1 : held s1 = false) by (by rewrite (go_held _ _ G1)).
  assert (Hend : relays || may_signal (now_ s1) = true ->
    keeps s1 (do! r := refuse_unpinned in match r with Err e => ret (Err e) | Ok _ =>
      do! s := signal_root false SigTerm in ret match s with Ok _ => Ok tt | Err e => Err e end end) (fun r s' => goes_on s s')).
  { intros Hm. keeps_step. keeps_use refuse_unpinned_keeps; [done|by rewrite P1|]. intros r s2 (G2 & P2 & N2).
    assert (G : goes_on s s2) by (by eapply goes_on_trans). destruct r as [[]|]; [|by repeat keeps_step].
    keeps_step. keeps_use signal_root_keeps.
    { unfold signal_ok. rewrite (go_held _ _ G), Hh, (P2 eq_refl), N2. exact Hm. }
    intros r s3 (G3 & _). keeps_step. by eapply goes_on_trans. }
  destruct g; [by apply Hend..|by keeps_step].
Qed.

Lemma wait_keeps b s :
  held s = false -> (b = false -> patient = true \/ pinned s = true /\ ended s = true) -> keeps s (wait b) (fun _ s' => goes_on s s' /\ pinned s' = pinned s /\ now_ s' = now_ s).
Proof.
  intros Hh Hw. unfold wait. keeps_step. eexists. split.
  - cbn. rewrite Hh. destruct b; [done|]. destruct (Hw eq_refl) as [->|[-> ->]]; [done|]. by rewrite orb_true_r.
  - by destruct s.
Qed.

Lemma wait_root_unbounded_keeps s :
  held s = false -> pinned s = true -> ended s = true -> keeps s wait_root_unbounded (fun _ s' => goes_on s s').
Proof.
  intros Hh Hp He. unfold wait_root_unbounded, wait_root. do 2 keeps_step. keeps_use wait_keeps; [done|by right|].
  intros w s' (G & _). by repeat keeps_step.
Qed.

(** A wait that the caller asks for. *)
Lemma wait_root_keeps b s :
  held s = false -> (b = false -> patient = true) -> keeps s (wait_root b) (fun _ s' => goes_on s s').
Proof.
  intros Hh Hb. unfold wait_root. keeps_step. keeps_use wait_keeps; [done|by intros ->; left; auto|].
  intros w s' (G & _). by keeps_step.
Qed.

Lemma child_wait_keeps s : held s = false -> patient = true -> keeps s wait_root_unbounded (fun _ s' => goes_on s s').
Proof. intros Hh Hb. unfold wait_root_unbounded. keeps_step. keeps_use wait_root_keeps; [done|done|]. intros w s' G. by keeps_step. Qed.

Lemma graceful_shutdown_keeps c b s :
  held s = false -> (platform = Linux -> pinned s = true) -> tracks c s -> relays_of c -> (b = false -> patient = true) ->
  keeps s (graceful_shutdown c b) (fun r s' => goes_on s s').
Proof.
  intros Hh Hl Ht Hr Hb. unfold graceful_shutdown. keeps_step. keeps_use terminate_keeps; [done..|]. intros sent s1 G1.
  assert (Hh1 : held s1 = false) by (by rewrite (go_held _ _ G1)).
  destruct sent; [|by keeps_step]. unfold wait_root. keeps_step. keeps_step. keeps_use wait_keeps; [done|by left; auto|].
  intros w s2 (G2 & P2 & N2). keeps_step. set (watch := match w with Ok o => status_of_outcome o | Err e => Err e end).
  assert (G12 : goes_on s s2) by (by eapply goes_on_trans).
  assert (Hrest : keeps s2 (kill_after_grace c watch) (fun _ s' => goes_on s s')); [|destruct watch as [[st|]|]; [by keeps_step|done|done]].
  unfold kill_after_grace.
  keeps_step. keeps_use refuse_unpinned_keeps; [by rewrite (go_held _ _ G12)|intros Hx; apply (go_linux _ _ G12); auto|].
  intros r s3 (G3 & P3 & N3). assert (G13 : goes_on s s3) by (by eapply goes_on_trans). destruct r as [[]|]; [|by keeps_step].
  assert (Hh3 : held s3 = false) by (by rewrite (go_held _ _ G13)). specialize (P3 eq_refl).
  keeps_step. keeps_use kill_gate_keeps; [done|by eapply tracks_on|]. intros g s4 (G4 & P4 & _ & Hg).
  assert (G14 : goes_on s s4) by (by eapply goes_on_trans). assert (Hh4 : held s4 = false) by (by rewrite (go_held _ _ G14)).
  assert (Hp4 : pinned s4 = true) by congruence. assert (Ht4 := tracks_on c s s4 Ht G14).
  keeps_step. eapply keeps_mono with (Q := fun r s5 => goes_on s s5 /\ pinned s5 = pinned s4 /\ (r = Ok tt -> ended s5 = true)).
  - destruct g; cbn in Hg.
    + keeps_step. keeps_use kill_root_keeps; [done|done|apply Ht4 in Hg; by rewrite Hg|]. intros r s5 (G5 & P5 & E5). keeps_step.
      split_and!; [by eapply goes_on_trans|done|]. destruct r; [|done]. intros _. apply E5. eauto.
    + destruct Hg as [Hn He]. keeps_step. keeps_use kill_exited_front_keeps; [done|done|by rewrite Hn|done|]. intros r s5 (G5 & P5 & E5).
      keeps_step. by split_and!; [eapply goes_on_trans|..].
    + destruct Hg as (Hc & Hk & _). keeps_use kill_through_cgroup_keeps; [done..|]. intros r s5 (G5 & P5 & E5).
      by split_and!; [eapply goes_on_trans|..].
    + keeps_step. by split_and!.
  - intros r s5 (G5 & P5 & E5). destruct r as [[]|]; [|by keeps_step]. keeps_step.
    keeps_use wait_root_unbounded_keeps; [by rewrite (go_held _ _ G5)|congruence|auto|]. intros st s6 G6. keeps_step. by eapply goes_on_trans.
Qed.

(** ** Shutting a tree down *)

Lemma signal_root_looks by_hold sig s :
  signal_ok s by_hold sig = true -> keeps s (signal_root by_hold sig) (fun _ s' => looks_on s s').
Proof. intros Hok. unfold signal_root. keeps_step. eexists. split; [cbn; by rewrite Hok|]. apply set_ended_looks. Qed.

(** A child whose tree may be signalled at all has no front that would not relay. *)
Definition term_reaches (c : Child) : Prop := require_contained c = Ok tt -> relays = true.

Lemma child_terminate_tree_keeps c s :
  held s = false -> (platform = Linux -> pinned s = true) -> term_reaches c -> keeps s (child_terminate_tree c) (fun r s' => goes_on s s').
Proof.
  intros Hh Hl Hc. unfold child_terminate_tree. destruct (require_contained c) as [[]|] eqn:Ec; [|keeps_step; apply goes_on_refl].
  assert (Hterm : relays = true) by auto.
  keeps_step. keeps_use hold_keeps; [done|]. intros u s1 (n & -> & _). set (s1 := st true _ n _ _).
  keeps_step. keeps_use root_checked_keeps; [done|done|done|done| |].
  { intros s2 G Hp _ Hn. apply signal_root_looks. unfold signal_ok. by rewrite (go_held _ _ (proj1 G)), Hp, may_term_relays. }
  intros r s2 [G Hr]. assert (Hh2 : held s2 = true) by (by rewrite (go_held _ _ (proj1 G))).
  pose proof (bracket s n s2 Hh (proj1 G)) as Gs.
  keeps_step. eapply keeps_mono with (Q := fun _ s3 => s3 = s2).
  { destruct r; [by keeps_step|by apply terminate_tree_keeps]. }
  intros x s3 ->. keeps_step. keeps_use release_keeps; [done|]. intros u2 s3 ->. by keeps_step.
Qed.

(** A shutdown's decision: what it goes on to is allowed. *)
Definition shuts (a : Attached) (g : Graceful) (s : St) : Prop :=
  match g with
  | GSignal => tree_ok s a TTerm = true
  | GRootThroughPidfd => platform = Linux /\ is_cgroup a = false
  | _ => True
  end.

Lemma graceful_keeps a s :
  relays = true -> held s = true -> keeps s (TreeCall.graceful a (root_state true)) (fun g s' => looks_on s s' /\ shuts a g s').
Proof.
  intros Hterm Hh. unfold TreeCall.graceful. keeps_step. keeps_use call_root_number_keeps; [done|]. intros n s1 [G K].
  assert (Hh1 : held s1 = true) by (rewrite (go_held _ _ (proj1 G)); done).
  destruct n as [|root| | |x|]; cbn in K.
  - keeps_step. split; [done|]. apply tree_ok_known; [done|by left|done|done].
  - keeps_step. keeps_use untrusted_keeps; [done|done|]. intros r s2 [G2 Hr]. keeps_step. split; [by eapply looks_on_trans|].
    destruct r as [[|e]|]; [done|by destruct (names_tree_by_identity a)|]. apply tree_ok_known; [done|by right|congruence|done].
  - destruct K as [N E]. keeps_step. keeps_use no_walk_keeps; [done|done|done|done|]. intros r s2 ->. by keeps_step.
  - keeps_step. unfold empty_group. keeps_use signal_holders_only_keeps; [done|done|]. intros r s2 [G2 _]. keeps_step.
    by split; [eapply looks_on_trans|].
  - destruct (x && bool_decide (platform = Linux)) eqn:Ex.
    + apply andb_true_iff in Ex as [-> Hp]. apply bool_decide_eq_true in Hp. destruct (K eq_refl) as [_ Hn]. keeps_step.
      split; [done|]. split; [done|]. by destruct a.
    + destruct (names_tree_by_identity a); [by keeps_step|]. keeps_step. keeps_use number_skipped_keeps; [done|done|].
      intros e s2 G2. keeps_step. by split; [eapply looks_on_trans|].
  - by keeps_step.
Qed.

Lemma watch_step s a : held s = false -> exists s', step s (WatchExit a) = Some s' /\ looks_on s s' /\ pinned s' = pinned s /\ (a = Ok true -> ended s' = true).
Proof.
  intros Hh. eexists. split; [cbn; by rewrite Hh|]. split_and!; [apply set_ended_looks|done|]. intros ->. cbn. by rewrite orb_true_r.
Qed.

Lemma drain_step s a : held s = false ->
  exists s', step s (WaitDrain a) = Some s' /\ looks_on s s' /\ pinned s' = pinned s /\ (a = Ok AllMembersExited -> ended s' = true).
Proof.
  intros Hh. eexists. split; [cbn; by rewrite Hh|]. split_and!; [apply set_ended_looks|done|]. intros ->. cbn. by rewrite orb_true_r.
Qed.

Lemma exited_by_keeps s :
  held s = false -> keeps s exited_by (fun r s' => looks_on s s' /\ (r = Ok true -> ended s' = true)).
Proof.
  intros Hh. unfold exited_by. keeps_step. destruct (watch_step s a Hh) as (s' & Hs & G & _ & E). by exists s'.
Qed.

Lemma wait_drained_keeps a s :
  held s = false -> keeps s (wait_drained a) (fun r s' => looks_on s s' /\ (r = Ok AllMembersExited -> ended s' = true)).
Proof.
  intros Hh. unfold wait_drained. destruct (can_observe_drain a); [|keeps_step; by split; [apply looks_on_refl|]].
  keeps_step. destruct (drain_step s a0 Hh) as (s' & Hs & G & _ & E). by exists s'.
Qed.

Lemma grace_wait_keeps c s :
  held s = false -> keeps s (grace_wait c) (fun g s' => looks_on s s' /\ (g.1.1 = true \/ g.1.2 = true -> ended s' = true)).
Proof.
  intros Hh. unfold grace_wait.
  assert (Hexit : forall s1, looks_on s s1 ->
    keeps s1 (do! r := exited_by in ret match r with Ok exited => (false, exited, None) | Err e => (false, false, Some e) end)
      (fun g s' => looks_on s s' /\ (g.1.1 = true \/ g.1.2 = true -> ended s' = true))).
  { intros s1 G1. keeps_step. keeps_use exited_by_keeps; [by rewrite (go_held _ _ (proj1 G1))|]. intros r s2 [G2 E]. keeps_step.
    split; [by eapply looks_on_trans|]. destruct r as [[]|]; cbn; [auto|by intros [|]..]. }
  destruct (containment_drains (containment c)); [|by apply Hexit; apply looks_on_refl].
  keeps_step. keeps_use wait_drained_keeps; [done|]. intros r s1 [G1 E1]. destruct r as [v|e]; [|keeps_step; by split; [|intros [|]]].
  destruct (permits_skipping_sweep v) eqn:Ev; [|by apply Hexit]. keeps_step. split; [done|]. intros _. destruct v; try done. auto.
Qed.

Lemma sweep_and_reap_keeps c drained exited_ we s :
  held s = false -> (platform = Linux -> pinned s = true) -> tracks c s -> (drained = true \/ exited_ = true -> ended s = true) ->
  keeps s (sweep_and_reap c drained exited_ we) (fun _ s' => goes_on s s').
Proof.
  intros Hh Hl Ht He. unfold sweep_and_reap. keeps_step.
  eapply keeps_mono with (Q := fun r s1 => goes_on s s1 /\ (r = Ok tt -> ended s1 = true)).
  { destruct drained; [keeps_step; split; [apply goes_on_refl|auto]|by apply kill_tree_keeps]. }
  intros r s1 [G1 E1]. assert (Hh1 : held s1 = false) by (by rewrite (go_held _ _ G1)).
  assert (Hl1 : platform = Linux -> pinned s1 = true) by (intros Hx; apply (go_linux _ _ G1); auto).
  assert (Hreap : forall {A} (k : bool -> H A) (Q : St -> Prop), ended s1 = true ->
    (forall s2, goes_on s s2 -> keeps s2 (k true) (fun _ s' => Q s')) ->
    (forall s2, goes_on s s2 -> held s2 = false -> pinned s2 = true -> ended s2 = true -> keeps s2 (k false) (fun _ s' => Q s')) ->
    keeps s1 (do! u := root_is_unpinned in k u) (fun _ s' => Q s')).
  { intros A k Q E Ku Kp. keeps_step. keeps_use root_is_unpinned_keeps; [done|done|]. intros u s2 (G2 & P2 & _ & _).
    assert (G : goes_on s s2) by (by eapply goes_on_trans).
    destruct u; [by apply Ku|]. apply Kp; [done|by rewrite (go_held _ _ G)|auto|by apply (go_ended _ _ G2)]. }
  destruct r as [[]|sweep].
  - apply Hreap; [auto|intros s2 G2; by keeps_step|]. intros s2 G2 Hh2 P2 E2. keeps_step.
    keeps_use wait_root_unbounded_keeps; [done..|]. intros w s3 G3. keeps_step. by eapply goes_on_trans.
  - keeps_step. eapply keeps_mono with (Q := fun _ s2 => goes_on s s2); [|intros u s2 G2; by keeps_step].
    destruct exited_; [|by keeps_step]. apply Hreap; [apply (go_ended _ _ G1); auto|intros s2 G2; by keeps_step|].
    intros s2 G2 Hh2 P2 E2. keeps_step. keeps_use wait_root_unbounded_keeps; [done..|]. intros w s3 G3. keeps_step. by eapply goes_on_trans.
Qed.

Lemma after_term_keeps c s :
  held s = false -> (platform = Linux -> pinned s = true) -> tracks c s -> keeps s (after_term c) (fun _ s' => goes_on s s').
Proof.
  intros Hh Hl Ht. unfold after_term. keeps_step. keeps_use grace_wait_keeps; [done|]. intros [[drained exited_] we] s1 [G1 E1]. cbn in E1.
  keeps_use sweep_and_reap_keeps.
  - by rewrite (go_held _ _ (proj1 G1)).
  - intros Hx. apply (go_linux _ _ (proj1 G1)); auto.
  - by apply (tracks_on c s s1 Ht (proj1 G1)).
  - done.
  - intros r s2 G2. cbn. eapply goes_on_trans; [apply G1|done].
Qed.

Lemma shut_down_root_keeps c s :
  held s = false -> platform = Linux -> pinned s = true -> is_cgroup (attached c) = false -> tracks c s -> relays_of c ->
  keeps s (shut_down_root_through_pidfd c) (fun _ s' => goes_on s s').
Proof.
  intros Hh Hp Hl Hc Ht Hr. unfold shut_down_root_through_pidfd. keeps_step. keeps_use terminate_gate_keeps; [done..|].
  intros g s1 (G1 & P1 & Hg). assert (Hh1 : held s1 = false) by (by rewrite (go_held _ _ G1)).
  keeps_step. eapply keeps_mono with (Q := fun _ s2 => goes_on s s2).
  { unfold pidfd_shutdown_start.
    assert (Hterm : relays || may_signal (now_ s1) = true ->
      keeps s1 (do! r := signal_root false SigTerm in ret (Ok r)) (fun (_ : result Error (result Error Sent)) s2 => goes_on s s2)).
    { intros Hm. keeps_step. keeps_use signal_root_looks.
      - unfold signal_ok. rewrite Hh1, P1, Hl. exact Hm.
      - intros r s2 [G2 _]. keeps_step. by eapply goes_on_trans. }
    destruct g; [by apply Hterm..|by keeps_step]. }
  intros started s2 G2. destruct started as [term|]; [|by keeps_step].
  assert (Hh2 : held s2 = false) by (by rewrite (go_held _ _ G2)).
  keeps_step. eapply keeps_mono with (Q := fun _ s3 => goes_on s s3).
  { destruct (needs_grace term); [|by keeps_step]. keeps_step. keeps_use exited_by_keeps; [done|]. intros r s3 [[G3 _] _].
    keeps_step. by eapply goes_on_trans. }
  intros ex s3 G3. unfold pidfd_shutdown_finish. keeps_step.
  eapply keeps_mono with (Q := fun _ s4 => goes_on s s4); [|intros k s4 G4; by repeat keeps_step].
  assert (Hh3 : held s3 = false) by (by rewrite (go_held _ _ G3)).
  assert (Hkill : keeps s3 (do! gate := child_kill_gate c in match gate with Closed unkillable => ret (Some (Err unkillable)) | _ => do! r := kill_root_typed c in ret (Some r) end)
    (fun (_ : option (result Error Sent)) s4 => goes_on s s4)); [|destruct ex as [[[]|]|]; [by keeps_step|done|done|by keeps_step]].
  keeps_step. keeps_use kill_gate_keeps; [done|by eapply tracks_on|]. intros g4 s4 (G4 & P4 & _ & Hg4).
  assert (G : goes_on s s4) by (by eapply goes_on_trans). assert (Ht4 := tracks_on c s s4 Ht G).
  assert (Hrun : may_signal (now_ s4) = true -> keeps s4 (do! r := kill_root_typed c in ret (Some r)) (fun (_ : option (result Error Sent)) s5 => goes_on s s5)).
  { intros Hm. keeps_step. keeps_use kill_root_typed_keeps; [by rewrite (go_held _ _ G)|apply (go_linux _ _ G); auto|done|].
    intros r s5 (G5 & _). keeps_step. by eapply goes_on_trans. }
  destruct g4; cbn in Hg4; [apply Hrun; apply Ht4 in Hg4; by rewrite Hg4|apply Hrun; destruct Hg4 as [-> _]; done|destruct Hg4; congruence|by keeps_step].
Qed.

(** An elevated child has no marker: its spawn installs none. *)
Definition front_unmarked (c : Child) : Prop := front c <> None -> names_tree_by_identity (attached c) = false.

Lemma unmarked_may c s : front_unmarked c -> tracks c s -> names_tree_by_identity (attached c) = true -> may_signal (now_ s) = true.
Proof.
  intros Hu Ht Hn. destruct (front c) as [f|] eqn:Ef; [by rewrite (Hu ltac:(congruence)) in Hn|]. apply Ht in Ef. by rewrite Ef.
Qed.

Lemma holders_only_keeps a sig s :
  (sig = TTerm -> relays = true) ->
  (sig = TKill -> names_tree_by_identity a = true -> may_signal (now_ s) = true) -> keeps s (holders_only a sig) (fun _ s' => looks_on s s').
Proof. intros Hterm Hm. unfold holders_only. keeps_step. keeps_use signal_holders_only_keeps; [done|done|]. intros r s' [G _]. by keeps_step. Qed.

Lemma shut_down_holders_keeps c s :
  held s = false -> relays = true -> tracks c s -> front_unmarked c -> keeps s (shut_down_holders_only c) (fun _ s' => goes_on s s').
Proof.
  intros Hh Hterm Ht Hu. unfold shut_down_holders_only. keeps_step. keeps_use holders_only_keeps; [done|done|]. intros r s1 G1.
  keeps_step. keeps_use wait_drained_keeps; [by rewrite (go_held _ _ (proj1 G1))|]. intros d s2 [G2 _].
  assert (G : looks_on s s2) by (by apply (looks_on_trans s s1 s2)). unfold holders_shutdown_error. keeps_step.
  keeps_use holders_only_keeps; [done|intros _; by apply unmarked_may; [|apply (tracks_on c s s2 Ht (proj1 G))]|].
  intros k s3 G3. keeps_step. keeps_step. keeps_step. eapply goes_on_trans; [apply G|apply G3].
Qed.

Lemma graceful_shutdown_tree_keeps c s :
  held s = false -> (platform = Linux -> pinned s = true) -> tracks c s -> relays_of c -> front_unmarked c -> term_reaches c ->
  keeps s (graceful_shutdown_tree c) (fun _ s' => goes_on s s').
Proof.
  intros Hh Hl Ht Hr Hu Hc. unfold graceful_shutdown_tree. destruct (require_contained c) as [[]|] eqn:Ec; [|keeps_step; apply goes_on_refl].
  assert (Hterm : relays = true) by auto.
  keeps_step. keeps_use hold_keeps; [done|]. intros u s1 (n & -> & _). set (s1 := st true _ n _ _).
  keeps_step. keeps_use graceful_keeps; [done|done|]. intros g s2 [G Hg].
  assert (Hh2 : held s2 = true) by (by rewrite (go_held _ _ (proj1 G))). pose proof (bracket s n s2 Hh (proj1 G)) as Gs.
  assert (Hrest : keeps s2 (do! term := match g with GSent result _ => ret result | _ => terminate_tree (attached c) end in
      do! _ := release in match term with Ok _ => after_term c | Err e => if held_refusal e then after_term c else ret (Err e) end)
      (fun _ s' => goes_on s s') \/ match g with GSignal | GSent _ _ => False | _ => True end).
  { destruct g; try (by right); left; keeps_step; eapply keeps_mono with (Q := fun _ s3 => s3 = s2);
      try (by keeps_step); try (by apply terminate_tree_keeps).
    all: intros term s3 ->; keeps_step; keeps_use release_keeps; [done|]; intros u2 s3 ->.
    all: assert (Hafter : keeps (released s2) (after_term c) (fun _ s' => goes_on s s'))
      by (keeps_use after_term_keeps; [done|by intros Hx; apply (go_linux _ _ Gs); auto|by eapply tracks_on|intros r s3 G3; by eapply goes_on_trans]).
    all: destruct term as [|e]; [done|destruct (held_refusal e); [done|by keeps_step]]. }
  destruct Hrest as [Hrest|Hg2]; [destruct g; [done|done|..]|destruct g; [done|done|..]].
  all: keeps_step; keeps_use release_keeps; [done|]; intros u2 s3 ->.
  1,4: by keeps_step.
  1,3: destruct Hg as [Hpl Hcg]; keeps_step; keeps_use shut_down_root_keeps;
    [done|done|apply (go_linux _ _ Gs); auto|done|by eapply tracks_on|done|intros e s3 G3; keeps_step; by eapply goes_on_trans].
  all: keeps_step; keeps_use shut_down_holders_keeps; [done|done|by eapply tracks_on|done|intros e s3 G3; keeps_step; by eapply goes_on_trans].
Qed.

(** ** The drop *)

Lemma wait_after_kill_keeps due s :
  held s = false -> pinned s = true -> ended s = true -> keeps s (wait_after_kill due) (fun _ s' => goes_on s s').
Proof.
  intros Hh Hp He. unfold wait_after_kill, wait_warning. keeps_step. keeps_step.
  eapply keeps_mono with (Q := fun _ s1 => looks_on s s1 /\ pinned s1 = true).
  { destruct due; [|keeps_step; by split; [apply looks_on_refl|]]. do 2 keeps_step. unfold exited_by. keeps_step.
    destruct (watch_step s a Hh) as (s1 & Hs & G & P & _). exists s1. split; [done|]. keeps_step.
    assert (Hd : keeps s1 (ret tt) (fun (_ : unit) s2 => looks_on s s2 /\ pinned s2 = true)) by (keeps_step; by split; [|congruence]).
    destruct a as [[]|]; [done| |done]. keeps_step. by split; [|congruence]. }
  intros u s1 [[G1 _] P1]. keeps_use wait_keeps; [by rewrite (go_held _ _ G1)|intros _; right; split; [done|by apply (go_ended _ _ G1)]|].
  intros w s2 (G2 & _). keeps_step. by eapply goes_on_trans.
Qed.

Lemma reap_after_tree_kill_keeps s :
  held s = false -> pinned s = true -> ended s = true -> keeps s reap_after_tree_kill (fun _ s' => goes_on s s').
Proof.
  intros Hh Hp He. unfold reap_after_tree_kill. keeps_step. keeps_use wait_after_kill_keeps; [done..|]. intros r s' G. by keeps_step.
Qed.

Lemma kill_and_settle_keeps i due s :
  held s = false -> pinned s = true -> may_signal (now_ s) = true -> keeps s (kill_and_settle i due) (fun _ s' => goes_on s s').
Proof.
  intros Hh Hp Hm. unfold kill_and_settle. keeps_step. keeps_use signal_root_keeps; [unfold signal_ok; by rewrite Hh, Hp, Hm|].
  intros r s1 (G1 & P1 & _ & E1). assert (Hh1 : held s1 = false) by (by rewrite (go_held _ _ G1)). destruct r as [sent|e].
  - keeps_step. keeps_use wait_after_kill_keeps; [done|congruence|by eapply E1; eauto|]. intros x s2 G2. keeps_step. by eapply goes_on_trans.
  - unfold look_after_refused_kill. keeps_step. keeps_use wait_keeps; [done|done|]. intros w s2 (G2 & _).
    assert (G : goes_on s s2) by (by eapply goes_on_trans). by destruct w as [[]|]; keeps_step.
Qed.

Lemma look_at_front_keeps i reach due s :
  held s = false -> (reach = Ok true -> pinned s = true) -> keeps s (look_at_front i reach due) (fun _ s' => goes_on s s').
Proof.
  intros Hh Hp. unfold look_at_front. keeps_step. keeps_use wait_keeps; [done|done|]. intros w s1 (G1 & P1 & _).
  assert (Hh1 : held s1 = false) by (by rewrite (go_held _ _ G1)).
  assert (Hrest : keeps s1 (do! reached := call reached_answer Reached in
      match reached with
      | Ok false => ret (of_front (Running i) LeftRunning)
      | Err e => ret (of_front FateUnknown (PlaceUnreadable e))
      | Ok true =>
          do! r := wait_after_kill due in
          ret match r with
              | Ok status => of_front Reaped_ (LookReaped status)
              | Err (Elsewhere f) => of_front (foreign_fate f true) ReapedElsewhere
              | Err (UnreapedFailed e) => of_front Killed (ReapFailed e)
              | Err UnreapedDeadline => outcome_new Killed
              end
      end) (fun _ s' => goes_on s s') \/ reach <> Ok true).
  { destruct reach as [[]|]; [|by right..]. left. do 2 keeps_step. eexists. split; [reflexivity|].
    set (s2 := set_ended s1 _). assert (G2 : goes_on s s2) by (eapply goes_on_trans; [done|apply set_ended_looks]).
    destruct a as [[]|]; [|by keeps_step..]. keeps_step. keeps_use wait_after_kill_keeps; [done|unfold s2; cbn; rewrite P1; auto|unfold s2; cbn; by rewrite orb_true_r|].
    intros r s3 G3. keeps_step. by eapply goes_on_trans. }
  assert (Hdone : forall o, keeps s1 (ret o) (fun (_ : TeardownOutcome) s' => goes_on s s')) by (intros o; by keeps_step).
  destruct w as [[[]| |]|]; cbn [looked_status status_of_outcome]; try apply Hdone.
  destruct reach as [[]|]; try apply Hdone. by destruct Hrest.
Qed.

Lemma tear_down_leaf_keeps c s :
  held s = false -> (platform = Linux -> pinned s = true) -> keeps s (tear_down_leaf_and_look_at_front c) (fun _ s' => goes_on s s').
Proof.
  intros Hh Hl. unfold tear_down_leaf_and_look_at_front. keeps_step. eapply keeps_mono with (Q := fun _ s1 => s1 = s).
  { destruct (has_subtree (attached c)); [keeps_step; by eexists|by keeps_step]. }
  intros subtree s1 ->. keeps_step. eapply keeps_note; [cbn; by rewrite Hh|]. keeps_step. unfold tear_down.
  keeps_use look_at_front_keeps; [done| |intros o s2 G2; by keeps_step].
  intros Hr. apply Hl. destruct subtree; [|done]. injection Hr as Hr. unfold has_subtree in Hr.
  apply andb_true_iff in Hr as [_ Hr]. by apply bool_decide_eq_true in Hr.
Qed.

(** What a drop's view says of its root. *)
Definition viewed (v : DropView) (s : St) : Prop :=
  (view_root v = ViewTrusted -> num s = Names) /\ (leaves_root_alone v = false -> pinned s = true).

Lemma is_set_keeps s : keeps s is_set (fun _ s' => s' = s).
Proof. apply keeps_look. done. Qed.

Lemma read_view_keeps i s : held s = false -> keeps s (read_view i) (fun v s' => looks_on s s' /\ viewed v s').
Proof.
  intros Hh. unfold read_view, root_identity_now, root_state. do 2 keeps_step.
  destruct (read_number_step s a) as (s1 & Hs1 & G1 & _ & _). exists s1. split; [done|]. do 2 keeps_step.
  destruct (look_state_step s1 a0) as (s2 & Hs2 & G2 & N2 & P2 & _ & _ & F2). rewrite (go_held _ _ (proj1 G1)), Hh in Hs2.
  exists s2. split; [done|]. keeps_step. keeps_use is_set_keeps. intros k s3 ->. keeps_step.
  split; [apply (looks_on_trans s s1 s2); [done|by split]|]. unfold viewed, view_of, leaves_root_alone. cbn [view_root].
  destruct (root_reaped _ i a); [done|]. destruct a0 as [|o|e|]; cbn in *; (split; [try done; by rewrite N2|]); try done; by rewrite P2, andb_false_r.
Qed.

Lemma drop_reach_keeps a v s :
  held s = true -> viewed v s -> keeps s (drop_reach a v) (fun r s' => looks_on s s' /\ pinned s' = pinned s
    /\ (r = ReachKill -> needs_root_check a = true -> num s' = Names)).
Proof.
  intros Hh [Hv _]. unfold drop_reach. destruct (skipped_action v a) eqn:Es.
  - destruct platform; [|keeps_step; by split_and!; [apply looks_on_refl|..]]. keeps_step. unfold through_the_pidfd.
    destruct a; try (keeps_step; keeps_step; by split_and!; [apply looks_on_refl|..]).
    unfold has_member. do 2 keeps_step. destruct (has_member_step s a Hh) as (s' & Hs & G & N & _). exists s'. split; [done|].
    do 2 keeps_step. assert (P : pinned s' = pinned s) by (cbn in Hs; rewrite Hh in Hs; by injection Hs as <-).
    split_and!; [done|done|]. destruct a as [[]|]; cbn; auto; by destruct (view_root v).
  - keeps_step. split_and!; [apply looks_on_refl|done|]. intros _ Hn. apply Hv. unfold skipped_action, number_untrusted in Es.
    destruct a; try done; cbn in Es; by destruct (view_root v).
Qed.

Lemma kill_holders_of_keeps a v s :
  (names_tree_by_identity a = true -> may_signal (now_ s) = true) -> keeps s (kill_holders_of a v) (fun _ s' => looks_on s s' /\ pinned s' = pinned s).
Proof.
  intros Hm. unfold kill_holders_of. destruct a; try (keeps_step; by split; [apply looks_on_refl|]).
  unfold send_holders. keeps_step. eexists. split; [cbn; by rewrite Hm|]. split; [apply set_ended_looks|done].
Qed.

Lemma hard_kill_for_drop_keeps a v s :
  held s = true -> viewed v s -> may_kill_tree a s ->
  keeps s (hard_kill_for_drop a v) (fun _ s' => looks_on s s' /\ pinned s' = pinned s).
Proof.
  intros Hh Hv Hk. unfold hard_kill_for_drop. keeps_step. keeps_use drop_reach_keeps; [done|done|]. intros r s1 (G1 & P1 & N1).
  assert (Hh1 : held s1 = true) by (rewrite (go_held _ _ (proj1 G1)); done).
  assert (Hk1 : may_kill_tree a s1) by (unfold may_kill_tree; by rewrite (proj2 G1)).
  destruct r; keeps_step.
  - keeps_use hard_kill_keeps; [apply tree_ok_known; [done|by left|auto|done]|]. intros x s2 ->. by keeps_step.
  - done.
  - keeps_use kill_holders_of_keeps.
    { intros Hn. destruct Hk1 as [?|[Hc _]]; [done|]. by destruct a. }
    intros x s2 [G2 P2]. keeps_step. split; [by apply (looks_on_trans s s1 s2)|congruence].
Qed.

Lemma emit_keeps parts rep s : keeps s (emit parts rep) (fun _ s' => s' = s).
Proof. unfold emit. destruct (forallb _ _); by keeps_step. Qed.

Lemma is_reaped_keeps s : held s = false -> keeps s is_reaped (fun _ s' => s' = s).
Proof. intros Hh. unfold is_reaped. keeps_step. exists s. cbn. by rewrite Hh. Qed.

(** The teardown of a root that is killed, or that its tree's kill reached. *)
Lemma drop_root_keeps c g (result : result Error unit) s :
  held s = false -> (platform = Linux -> pinned s = true) -> pinned s = true -> gated c g s -> tracks c s -> ~ is_closed g ->
  keeps s (match g with
    | CgroupOnly =>
        do! reached := match result with Err e => ret (Err e) | Ok _ => child_cgroup_kill_reached c end in
        match reached with
        | Ok _ => do! o := reap_after_tree_kill in ret (o, attached c)
        | Err _ => do! o := tear_down_leaf_and_look_at_front c in ret (o, AttachedNone)
        end
    | _ => do! o := tear_down (Some (id c)) KillIt false in ret (o, attached c)
    end) (fun (_ : TeardownOutcome * Attached) s' => goes_on s s').
Proof.
  intros Hh Hl Hp Hg Ht Hc.
  assert (Hkill : may_signal (now_ s) = true -> keeps s (do! o := tear_down (Some (id c)) KillIt false in ret (o, attached c)) (fun _ s' => goes_on s s')).
  { intros Hm. keeps_step. keeps_use kill_and_settle_keeps; [done..|]. intros o s1 G1. by keeps_step. }
  destruct g; cbn in Hg; [apply Hkill; apply Ht in Hg; by rewrite Hg|apply Hkill; destruct Hg as [-> _]; done| |by destruct Hc].
  assert (Hleaf : forall s1, goes_on s s1 -> keeps s1 (do! o := tear_down_leaf_and_look_at_front c in ret (o, AttachedNone)) (fun (_ : TeardownOutcome * Attached) s' => goes_on s s')).
  { intros s1 G1. keeps_step. keeps_use tear_down_leaf_keeps; [by rewrite (go_held _ _ G1)|intros Hx; apply (go_linux _ _ G1); auto|].
    intros o s2 G2. keeps_step. by eapply goes_on_trans. }
  keeps_step. destruct result as [u|e]; [|keeps_step; apply Hleaf, goes_on_refl].
  keeps_use cgroup_kill_reached_keeps; [done|]. intros r s1 (G1 & P1 & E1). destruct r as [[]|]; [|by apply Hleaf].
  keeps_step. keeps_use reap_after_tree_kill_keeps; [by rewrite (go_held _ _ G1)|congruence|auto|].
  intros o s2 G2. keeps_step. by eapply goes_on_trans.
Qed.

Lemma drop_unix_keeps c s :
  strict = false -> held s = false -> (platform = Linux -> pinned s = true) -> tracks c s ->
  keeps s (drop_unix c) (fun _ s' => goes_on s s').
Proof.
  intros Hst Hh Hl Ht. unfold drop_unix. keeps_step. keeps_use kill_gate_keeps; [done|done|]. intros g s1 (G1 & P1 & _ & Hg).
  assert (Hh1 : held s1 = false) by (by rewrite (go_held _ _ G1)).
  keeps_step. keeps_use read_view_keeps; [done|]. intros v s2 [G2 Hv].
  assert (Hh2 : held s2 = false) by (by rewrite (go_held _ _ (proj1 G2))).
  assert (G : goes_on s s2) by (eapply goes_on_trans; [done|apply G2]). assert (Ht2 := tracks_on c s s2 Ht G).
  assert (Hg2 : gated c g s2) by (apply (gated_on c g s1 s2); [apply G2|apply G2|done]).
  assert (Hl2 : platform = Linux -> pinned s2 = true) by (intros Hx; apply (go_linux _ _ G); auto).
  destruct (is_closed g) eqn:Ec.
  { destruct g; try done. keeps_step. keeps_use tear_down_leaf_keeps; [done|done|]. intros o s3 G3. keeps_step.
    keeps_use emit_keeps. intros u s4 ->. keeps_step. by eapply goes_on_trans. }
  assert (Hnc : ~ is_closed g) by (rewrite Ec; intros []).
  assert (Hrest : keeps s2 (do! _ := hold in
      do2! result, skipped := hard_kill_for_drop (attached c) v in
      do! _ := release in
      let tree := match result with Ok _ => false | Err _ => true end in
      if leaves_root_alone v then
        do! own := is_reaped in
        do! _ := emit (report_parts v skipped tree []) (reported c) in
        ret (if own : bool then Reaped_ else FateGone, attached c)
      else
        do2! torn, left_attached :=
          match g with
          | CgroupOnly =>
              do! reached := match result with Err e => ret (Err e) | Ok _ => child_cgroup_kill_reached c end in
              match reached with
              | Ok _ => do! o := reap_after_tree_kill in ret (o, attached c)
              | Err _ => do! o := tear_down_leaf_and_look_at_front c in ret (o, AttachedNone)
              end
          | _ => do! o := tear_down (Some (id c)) KillIt false in ret (o, attached c)
          end in
        do! _ := emit (report_parts v skipped tree (left_list torn)) (reported c) in
        ret (torn_fate torn, left_attached)) (fun _ s' => goes_on s s')); [|by destruct g].
  keeps_step. keeps_use hold_keeps; [done|]. intros u s3 (n & -> & Hn). specialize (Hn Hst). subst n. set (s3 := st true _ _ _ _).
  keeps_step. keeps_use (hard_kill_for_drop_keeps (attached c) v s3); [done|exact Hv|exact (gated_may c g s2 Ht2 Hg2 Hnc)|].
  intros [result skipped] s4 [G4 P4]. cbn beta iota. assert (Hh4 : held s4 = true) by (by rewrite (go_held _ _ (proj1 G4))).
  keeps_step. keeps_use release_keeps; [done|]. intros u2 s5 ->. pose proof (bracket s2 (num s2) s4 Hh2 (proj1 G4)) as G5.
  assert (Gs : goes_on s (released s4)) by (by eapply goes_on_trans).
  destruct (leaves_root_alone v) eqn:El; cbv zeta.
  - keeps_step. keeps_use is_reaped_keeps; [done|]. intros own s6 ->. keeps_step. keeps_use emit_keeps. intros u3 s6 ->. by keeps_step.
  - keeps_step. eapply keeps_mono; [apply (drop_root_keeps c g result (released s4))|].
    + done.
    + intros Hx. apply (go_linux _ _ Gs); auto.
    + cbn. rewrite P4. by apply Hv.
    + apply (gated_on c g s2); [done|cbn; apply G4|done].
    + by eapply tracks_on.
    + done.
    + intros [torn left_] s6 G6. keeps_step. keeps_use emit_keeps. intros u3 s7 ->. keeps_step. by eapply goes_on_trans.
Qed.

End Policy.

(** * What every operation keeps to *)

Section Operations.
  Context `{Sys}.

(** An operation of a [Child]: the waits and the rest of the public calls that look at or signal its processes.
    [OpWait] is [wait], and what [communicate] calls on the child once its pump is done; [OpWaitBy] is [wait_timeout], [wait_deadline] and [try_wait], whose deadline is out of
    reach if the timeout overflows the clock; a shutdown's grace may be, too. *)
Inductive Operation :=
| OpWait | OpWaitBy (bounded : bool) | OpWaitTree
| OpKill | OpTerminate | OpKillTree | OpTerminateTree
| OpShutdown (bounded : bool) | OpShutdownTree
| OpTearDown | OpDrop | OpDetach.

(** The operation's calls. *)
Definition operate (c : Child) (op : Operation) : H unit :=
  let drop {A} (m : H A) : H unit := do! _ := m in ret tt in
  match op with
  | OpWait => drop wait_root_unbounded
  | OpWaitBy bounded => drop (wait_root bounded)
  | OpWaitTree => drop (wait_tree c)
  | OpKill => drop (kill c)
  | OpTerminate => drop (terminate c)
  | OpKillTree => drop (kill_tree c)
  | OpTerminateTree => drop (child_terminate_tree c)
  | OpShutdown bounded => drop (graceful_shutdown c bounded)
  | OpShutdownTree => drop (graceful_shutdown_tree c)
  | OpTearDown => drop (tear_down_now c)
  | OpDrop => drop_child c
  | OpDetach => detach c
  end.

(** A drop owns the child outright, so its look may come before its hold. *)
Definition strict_of (op : Operation) : bool :=
  match op with OpTearDown | OpDrop | OpDetach => false | _ => true end.

(** The caller asks to wait for the root for ever. *)
Definition patient_of (op : Operation) : bool :=
  match op with OpWait | OpWaitBy false | OpShutdown false => true | _ => false end.

Definition relays (c : Child) : bool := match front c with Some f => relays_term f | None => true end.

(** Before an operation: the lock is free, and nothing is known. *)
Definition at_rest (c : Child) : St := st false true Unnamed (match front c with Some _ => Live | None => NoFront end) false.

(** What a spawn makes of an elevated child: it installs no marker for one, and a macOS graphical elevation
    refuses containment ([reject_structural_gui_config]), so an osascript front has no tree to signal. *)
Record elevated_as_spawned (c : Child) : Prop := {
  unmarked : front_unmarked c;
  osascript_uncontained : front c = Some FOsascript -> is_actionable (attached c) = false }.

Lemma elevated_term_reaches c : elevated_as_spawned c -> term_reaches (relays c) c.
Proof.
  intros [_ Ho]. unfold term_reaches, require_contained, relays. destruct (front c) as [[]|]; try done. by rewrite Ho.
Qed.

Lemma drop_child_keeps p c s :
  held s = false -> (platform = Linux -> pinned s = true) -> tracks c s ->
  keeps (step (relays c) false p) s (drop_child c) (fun _ s' => goes_on s s').
Proof.
  intros Hh Hl Ht. unfold drop_child. keeps_step. eapply keeps_mono with (Q := fun _ s1 => goes_on s s1).
  - destruct (kill_on_drop c); [|keeps_step; apply goes_on_refl]. keeps_step.
    keeps_use drop_unix_keeps; [done..|]. intros r s1 G1. by keeps_step.
  - intros a s1 G1. eapply keeps_note; [cbn; by rewrite (go_held _ _ G1), Hh|done].
Qed.

Lemma tear_down_now_keeps p c s :
  held s = false -> (platform = Linux -> pinned s = true) -> tracks c s ->
  keeps (step (relays c) false p) s (tear_down_now c) (fun _ s' => goes_on s s').
Proof.
  intros Hh Hl Ht. unfold tear_down_now. destruct (kill_on_drop c); keeps_step.
  - keeps_use drop_unix_keeps; [done..|]. intros [f a] s1 G1. by keeps_step.
  - keeps_use is_reaped_keeps; [done|]. intros own s1 ->. keeps_step. apply goes_on_refl.
Qed.

Lemma ignored_keeps {A} (m : H A) stp (s : St) (Q : St -> Prop) :
  keeps stp s m (fun _ s' => Q s') -> keeps stp s (do! _ := m in ret tt) (fun _ s' => Q s').
Proof. intros Hm. keeps_step. eapply keeps_mono; [apply Hm|]. intros a s' HQ. by keeps_step. Qed.

Lemma operate_keeps c op :
  elevated_as_spawned c -> keeps (step (relays c) (strict_of op) (patient_of op)) (at_rest c) (operate c op) (fun _ s' => held s' = false).
Proof.
  intros Hu. pose proof (elevated_term_reaches c Hu) as Hc. apply unmarked in Hu. set (s := at_rest c).
  assert (Hl : platform = Linux -> pinned s = true) by done. assert (Ht : tracks c s) by (unfold tracks, s, at_rest; cbn; by destruct (front c)).
  assert (Hr : relays_of (relays c) c) by (unfold relays_of, relays; by destruct (front c)).
  assert (Hend : forall A stp (m : H A), keeps stp s m (fun _ s' => goes_on s s') -> keeps stp s m (fun _ s' => held s' = false)).
  { intros A stp m Hm. eapply keeps_mono; [apply Hm|]. intros a s' G. by rewrite (go_held _ _ G). }
  destruct op as [|b| | | | | |b| | | |]; cbn [operate strict_of]; try apply ignored_keeps; try apply Hend.
  - by apply child_wait_keeps.
  - apply wait_root_keeps; [done|by intros ->].
  - unfold wait_tree. destruct (require_drainable c); [|keeps_step; apply goes_on_refl].
    keeps_use wait_drained_keeps; [done|]. by intros r s' [[] _].
  - by apply kill_keeps.
  - by apply terminate_keeps.
  - eapply keeps_mono; [by apply kill_tree_keeps|]. by intros r s' [].
  - by apply child_terminate_tree_keeps.
  - apply graceful_shutdown_keeps; try done. by intros ->.
  - by apply graceful_shutdown_tree_keeps.
  - by apply tear_down_now_keeps.
  - by apply drop_child_keeps.
  - unfold detach. keeps_step. eapply keeps_mono with (Q := fun _ s1 => s1 = s).
    { unfold disarm. destruct (attached c); try (by keeps_step); (eapply keeps_note; [reflexivity|done]). }
    intros u s1 ->. exact (drop_child_keeps false (keep_alive c) s eq_refl Hl Ht).
Qed.

(** C27: whatever the system answers, the calls of an operation on a child, its waits, kills,
    terminations, shutdowns, teardown, drop and detachment, keep to the protocol [step]. The tree is
    signalled by the root's number only while the last looks, under the lock still held, show that the
    number names the root or its group; a signal to the root never follows a look that found it
    launchd's. A live elevation front is killed only through the leaf that holds it, and is sent a
    [SIGTERM], alone or with its tree, only if it relays it. A wait without a deadline is the caller's
    own, or comes once the root was killed or is gone and was not launchd's at the last look. No call
    that takes the handle's lock is made under it, no wait is either, and the lock is free at the end. *)
Theorem operations_keep_to_protocol c op h t :
  elevated_as_spawned c -> runs (operate c op) h tt t ->
  exists s, accepts (step (relays c) (strict_of op) (patient_of op)) (at_rest c) t = Some s /\ held s = false.
Proof. intros Hu Hr. exact (keeps_runs _ _ _ _ _ _ _ (operate_keeps c op Hu) Hr). Qed.

End Operations.

(** A root in its group: looked at, killed with its group, and killed through its handle. *)
#[local] Instance demo_sys : Sys := {
  platform := Linux;
  state_answer _ := Unreaped;
  peek_answer _ := Ok PeekRunning;
  signal_answer _ _ := Ok Delivered;
  wait_answer _ _ := Ok (Exited (Status 9));
  watch_answer _ := Ok true;
  reaped_answer _ := false;
  number_answer _ := Found (process_id 70 5);
  member_answer _ := Some true;
  tree_answer _ _ _ := Ok true;
  holders_answer _ _ _ := Ok tt;
  group_and_holders_answer _ _ := Ok tt;
  leaf_holds_answer _ := Ok true;
  leaf_names_answer _ := Ok true;
  subtree_answer _ := Ok tt;
  reached_answer _ := Ok true;
  drain_answer _ := Ok AllMembersExited
}.

Definition demo_child : Child := child_ (process_id 70 5) (ProcessGroup 70) None false ProcessGroup_ true [].

Definition demo_kill_tree : list Ev :=
  [Hold; LookState true Unreaped; SendTree (ProcessGroup 70) TKill (Ok true); MarkKilled; Release;
   SignalRoot false SigKill (Ok Delivered)].

Lemma operations_keep_to_protocol_witness :
  runs (operate demo_child OpKillTree) [] tt demo_kill_tree
  /\ exists s, accepts (step true true false) (at_rest demo_child) demo_kill_tree = Some s /\ held s = false.
Proof.
  assert (Hr : runs (operate demo_child OpKillTree) [] tt demo_kill_tree) by reflexivity.
  split; [done|]. exact (operations_keep_to_protocol demo_child OpKillTree [] demo_kill_tree ltac:(split; done) Hr).
Defined.

(** The protocol refuses a group's signal without a look, a call that locks under the hold, a kill of a live
    front, a [SIGTERM] to one that does not relay it, by the hold or with its tree, and a wait for ever that
    nobody asked for. *)
Example refused_by_the_protocol :
  accepts (step true true false) (at_rest demo_child) [Hold; SendTree (ProcessGroup 70) TKill (Ok true)] = None
  /\ accepts (step true true false) (at_rest demo_child) [Hold; LookState true (RootReaped false); SendTree (ProcessGroup 70) TKill (Ok true)] = None
  /\ accepts (step true true false) (at_rest demo_child) [Hold; SignalRoot false SigKill (Ok Delivered)] = None
  /\ accepts (step true true false) (st false true Unnamed Live false) [SignalRoot false SigKill (Ok Delivered)] = None
  /\ accepts (step false true false) (st false true Unnamed Live false) [Hold; SignalRoot true SigTerm (Ok Delivered)] = None
  /\ accepts (step false true false) (st false true Unnamed Live false) [SendTree Cgroup TTerm (Ok true)] = None
  /\ accepts (step true true false) (at_rest demo_child) [Wait false (Ok DeadlinePassed)] = None.
Proof. by vm_compute. Qed.
