(* ===== verification/ChildGrace.v ===== *)
(** The graceful shutdowns of [src/child/graceful.rs]: the order of their signals and waits, whatever
    the system answers, and the status they answer. *)
From S2P Require Import Prelude Identity IoErrors CrateError History LeafEnd ElevationPlan OsChild ChildCalls OwnedTeardown TreeCall ChildOps.
Local Open Scope Z_scope.

Notation H := (Hist Ev).

(** What a call is to a shutdown: a signal of either kind, with whether it was taken; a wait that can
    be its grace; a reap; or a look. *)
Inductive Role := TermRole (taken : bool) | KillRole | GraceRole | ReapRole (status : option Z) | LookRole.

Definition taken {A} (r : result Error A) : bool := match r with Ok _ => true | Err _ => false end.

Definition role (e : Ev) : Role :=
  match e with
  | SignalRoot _ SigTerm a => TermRole (taken a)
  | SendTree _ TTerm a => TermRole (taken a)
  | SendHolders TTerm _ a | SendGroupAndHolders TTerm a => TermRole (taken a)
  | SignalRoot _ SigKill _ | SendTree _ TKill _ | SendHolders TKill _ _ | SendGroupAndHolders TKill _ => KillRole
  | WatchExit _ | WaitDrain _ => GraceRole
  | Wait _ a => ReapRole match a with Ok (Exited (Status st)) => Some st | _ => None end
  | _ => LookRole
  end.

(** Whether a [SIGTERM] was taken; whether the grace was waited for; the status the reap gave. *)
Record Shut := shut { termed : bool; graced : bool; got : option Z }.

Section Grace.
  Context `{Sys}.
  (** Whether a kill is only for a child that took its [SIGTERM]. *)
  Variable term_first : bool.

(** A [SIGTERM] goes out before the grace, and a kill after it, while no status was seen; once a status
    was seen nothing is signalled. *)
Definition step (s : Shut) (e : Ev) : option Shut :=
  match role e with
  | TermRole b => if graced s then None else Some (shut (termed s || b) false (got s))
  | KillRole => if graced s && (negb term_first || termed s) && negb (bool_decide (is_Some (got s))) then Some s else None
  | GraceRole => Some (shut (termed s) true (got s))
  | ReapRole o => if bool_decide (is_Some (got s)) then None else Some (shut (termed s) true o)
  | LookRole => Some s
  end.

Notation keeps := (keeps step).

(** ** Looks and sweeps *)

Definition is_look (e : Ev) : bool := match role e with LookRole => true | _ => false end.
Definition is_sweep (e : Ev) : bool := match role e with LookRole | KillRole => true | _ => false end.

(** Before the grace. *)
Definition is_start (e : Ev) : bool := match role e with LookRole | TermRole _ => true | _ => false end.

Lemma looks {A} (m : H A) s : only is_look m -> keeps s m (fun _ s' => s' = s).
Proof. intros Hm. apply (only_keeps is_look); [done..|]. intros s' e ->. unfold is_look, step. destruct (role e); eauto; done. Qed.

Lemma starts {A} (m : H A) s :
  only is_start m -> graced s = false -> got s = None -> keeps s m (fun _ s' => graced s' = false /\ got s' = None).
Proof.
  intros Hm Hg Hn. apply (only_keeps is_start); [done..|]. intros s' e [Hg' Hn']. unfold is_start, step.
  destruct (role e); try done; [rewrite Hg'|]; eauto.
Qed.

(** A state a kill may come in. *)
Definition may_kill (s : Shut) : Prop := graced s = true /\ got s = None /\ (term_first = false \/ termed s = true).

Lemma sweeps {A} (m : H A) s : only is_sweep m -> may_kill s -> keeps s m (fun _ s' => s' = s).
Proof.
  intros Hm (Hg & Hn & Ht). apply (only_keeps is_sweep); [done..|]. intros s' e ->. unfold is_sweep, step.
  destruct (role e); try done; [|eauto]. intros _. rewrite Hg, Hn. exists s. split; [|done].
  by destruct Ht as [-> | ->]; [|rewrite orb_true_r].
Qed.

Ltac keeps_looks lem := eapply keeps_mono; [exact (looks _ _ lem)|cbv beta; let a := fresh in intros a ? ->; revert a].
Ltac keeps_sweeps lem := eapply keeps_mono; [apply (sweeps _ _ lem); done|cbv beta; let a := fresh in intros a ? ->; revert a].

Ltac unfold_looks :=
  unfold child_kill_gate, child_terminate_gate, refuse_unpinned, child_cgroup_kill_reached, root_is_unpinned,
    kill_reaches_across_credentials, cgroup_names, root_exited, root_running, root_state.

Lemma kill_gate_looks c : only is_look (child_kill_gate c).
Proof. unfold_looks. only_auto. Qed.

Lemma terminate_gate_looks c : only is_look (child_terminate_gate c).
Proof. unfold_looks. only_auto. Qed.

Lemma unpinned_looks : only is_look root_is_unpinned.
Proof. unfold_looks. only_auto. Qed.

Lemma refuse_unpinned_looks : only is_look refuse_unpinned.
Proof. unfold_looks. only_auto. Qed.

Lemma look_sweeps {A} (m : H A) : only is_look m -> only is_sweep m.
Proof.
  intros Hm h. wp_use Hm. intros a t Ht. eapply Forall_impl; [exact Ht|]. intros e. unfold is_look, is_sweep. by destruct (role e).
Qed.

Lemma kill_root_sweeps : only is_sweep kill_root.
Proof. unfold kill_root, signal_root. only_auto. Qed.

Lemma kill_exited_front_sweeps : only is_sweep kill_exited_front.
Proof. unfold kill_exited_front, kill_root, signal_root. only_auto. Qed.

Lemma hard_kill_marking_sweeps a : only is_sweep (hard_kill_marking a).
Proof. unfold hard_kill_marking, hard_kill_report, send_tree, mark. only_auto. Qed.

Lemma kill_through_cgroup_sweeps c : only is_sweep (kill_through_cgroup c).
Proof.
  unfold kill_through_cgroup. apply only_bind; [apply hard_kill_marking_sweeps|]. intros r. unfold_looks. only_auto.
Qed.

Lemma kill_sweeps c gate : only is_sweep (match gate with
    | Closed unkillable => ret (Err unkillable)
    | ElevationPlan.Exited => do! r := kill_exited_front in ret match r with Ok _ => Ok tt | Err e => Err e end
    | Open => do! r := kill_root in ret match r with Ok _ => Ok tt | Err e => Err (Io e) end
    | CgroupOnly => kill_through_cgroup c
    end).
Proof.
  destruct gate; [apply only_bind; [apply kill_root_sweeps|] | apply only_bind; [apply kill_exited_front_sweeps|] |
    apply kill_through_cgroup_sweeps | apply only_ret]; intros; only_auto.
Qed.

(** ** The root *)

Lemma terminate_shut c s :
  graced s = false -> got s = None -> termed s = false ->
  keeps s (terminate c) (fun r s' => graced s' = false /\ got s' = None /\ termed s' = taken r).
Proof.
  intros Hg Hn Ht. unfold terminate. keeps_step. keeps_looks (terminate_gate_looks c). intros gate.
  assert (Hgo : keeps s (do! r := refuse_unpinned in
      match r with
      | Err e => ret (Err e)
      | Ok _ => do! s := signal_root false SigTerm in ret match s with Ok _ => Ok tt | Err e => Err e end
      end) (fun r s' => graced s' = false /\ got s' = None /\ termed s' = taken r)).
  { keeps_step. keeps_looks refuse_unpinned_looks. intros r. destruct r as [[]|]; [|by keeps_step].
    unfold signal_root. do 2 keeps_step. eexists. split; [cbn; by rewrite Hg|]. rewrite Ht. destruct a; keeps_step; by split_and!. }
  destruct gate; [done..|by keeps_step].
Qed.

(** The reap's answer, and what it leaves. *)
Lemma wait_root_shut bounded s :
  got s = None ->
  keeps s (wait_root bounded) (fun r s' => graced s' = true /\ termed s' = termed s
    /\ got s' = match r with Ok o => o | Err _ => None end).
Proof.
  intros Hn. unfold wait_root, wait. do 2 keeps_step. eexists. split; [unfold step; cbn [role]; by rewrite Hn|].
  keeps_step. split_and!; [done..|]. by destruct a as [[[]| |]|].
Qed.

Lemma wait_root_unbounded_shut s :
  got s = None ->
  keeps s wait_root_unbounded (fun r s' => graced s' = true /\ termed s' = termed s /\ (forall st, r = Ok st -> got s' = Some st)).
Proof.
  intros Hn. unfold wait_root_unbounded. keeps_step. keeps_use wait_root_shut; [done|]. intros r s' (Hg & Ht & Ho). keeps_step.
  split_and!; [done..|]. destruct r as [[x|]|e]; [|done|done]. intros st [= ->]. done.
Qed.

Lemma graceful_shutdown_shut c bounded :
  keeps (shut false false None) (graceful_shutdown c bounded) (fun r s => forall st, r = Ok st -> got s = Some st /\ termed s = true).
Proof.
  unfold graceful_shutdown. keeps_step. keeps_use terminate_shut; [done..|]. intros r s (Hg & Hn & Ht).
  destruct r; [|by keeps_step]. cbn in Ht. keeps_step. keeps_use wait_root_shut; [done|]. intros watch s1 (Hg1 & Ht1 & Hn1).
  assert (Hw : (exists st, watch = Ok (Some st)) \/ forall st, watch <> Ok (Some st)) by (destruct watch as [[]|]; eauto; by right).
  destruct Hw as [[st ->]|Hw].
  { keeps_step. intros st' [= <-]. by split; [|congruence]. }
  assert (Hn2 : got s1 = None) by (rewrite Hn1; destruct watch as [[x|]|]; [by destruct (Hw x)|done|done]).
  assert (Hm : may_kill s1) by (by split_and!; [..|right; congruence]).
  assert (Hrest : keeps s1 (kill_after_grace c watch) (fun r s => forall st, r = Ok st -> got s = Some st /\ termed s = true));
    [|by destruct watch as [[x|]|]; [destruct (Hw x)|exact Hrest|exact Hrest]].
  unfold kill_after_grace. keeps_step. keeps_looks (refuse_unpinned_looks). intros refused. destruct refused; [|by keeps_step].
  keeps_step. keeps_looks (kill_gate_looks c). intros gate. keeps_step. keeps_sweeps (kill_sweeps c gate). intros killed. destruct killed; [|by keeps_step]. keeps_step. keeps_use wait_root_unbounded_shut; [done|].
  intros status s2 (Hg2 & Ht2 & Hs2). keeps_step. intros st Hst. destruct status as [x|], watch; try done. injection Hst as ->.
  split; [by apply Hs2|congruence].
Qed.

(** ** The tree *)

Ltac unfold_tree :=
  unfold root_checked, TreeCall.graceful, call_root_number, root_number, number_of_state, through_the_pidfd, root_identity_now, has_member,
    untrusted, signal_tree_untrusted, no_walk, empty_group, group_gone, number_skipped, signal_group_and_holders, signal_holders_only,
    mark_if, send_holders, send_group_and_holders, terminate_tree, send_tree, held_kill, signal_root, root_state, mark, hold, release.

Lemma call_root_number_looks a : only is_look (call_root_number a (root_state true)).
Proof. unfold_tree. only_auto. Qed.

(** What [graceful] decides: only a marker has holders to signal alone. *)
Lemma graceful_shut a s :
  graced s = false -> got s = None ->
  keeps s (TreeCall.graceful a (root_state true)) (fun d s' => (graced s' = false /\ got s' = None)
    /\ (d = GHoldersOnly -> can_observe_drain a = true)).
Proof.
  intros Hg Hn. unfold TreeCall.graceful. keeps_step. keeps_looks (call_root_number_looks a). intros number.
  assert (Hthen : forall A (m : H A) (k : A -> Graceful), only is_start m -> (forall x, k x <> GHoldersOnly) ->
    keeps s (do! x := m in ret (k x)) (fun d s' => (graced s' = false /\ got s' = None) /\ (d = GHoldersOnly -> can_observe_drain a = true))).
  { intros A m k Hm Hk. keeps_step. eapply keeps_mono; [by apply starts|]. intros x s' Hs. keeps_step. split; [done|]. by intros ?%Hk. }
  destruct number as [|root| | |exact_root|].
  - by keeps_step.
  - apply Hthen; [unfold_tree; only_auto|]. intros [[]|]; [done| |done]. by destruct (names_tree_by_identity a).
  - apply Hthen; [unfold_tree; only_auto|done].
  - apply Hthen; [unfold_tree; only_auto|done].
  - destruct (exact_root && _); [by keeps_step|]. destruct (names_tree_by_identity a) eqn:En.
    + keeps_step. split; [done|]. by destruct a.
    + apply Hthen; [unfold_tree; only_auto|done].
  - by keeps_step.
Qed.

Lemma terminate_tree_starts a : only is_start (terminate_tree a).
Proof. unfold_tree. only_auto. Qed.

Lemma root_checked_sweeps c : only is_sweep (root_checked (attached c) TKill (root_state true) (held_kill c)).
Proof. unfold_tree. only_auto. Qed.

Lemma hold_looks : only is_look hold.
Proof. unfold hold. only_auto. Qed.

Lemma release_looks : only is_look release.
Proof. unfold release. only_auto. Qed.

Lemma kill_root_typed_sweeps c : only is_sweep (kill_root_typed c).
Proof. unfold kill_root_typed. apply only_bind; [apply kill_root_sweeps|intros; only_auto]. Qed.

Lemma kill_tree_gated_sweeps c f : only is_sweep (kill_tree_gated c f).
Proof.
  unfold kill_tree_gated. apply only_bind; [apply look_sweeps, hold_looks|intros _].
  apply only_bind; [apply root_checked_sweeps|]. intros [r|]; [apply only_bind; [apply look_sweeps, release_looks|intros; only_auto]|].
  apply only_bind; [apply hard_kill_marking_sweeps|]. intros r. apply only_bind; [apply look_sweeps, release_looks|intros _].
  destruct (hard_kill_refused_to_walk _ _); [only_auto|]. destruct f as [[]|].
  - destruct r; [|only_auto]. unfold_looks. only_auto.
  - only_auto.
  - apply only_bind; [apply look_sweeps, unpinned_looks|]. intros u. apply only_bind; [|intros; only_auto].
    destruct u; [only_auto|]. apply only_bind; [apply kill_root_typed_sweeps|intros; only_auto].
Qed.

Lemma kill_tree_sweeps c : only is_sweep (kill_tree c).
Proof.
  unfold kill_tree. destruct (require_contained c); [|only_auto]. apply only_bind; [apply look_sweeps, kill_gate_looks|].
  intros []; [apply kill_tree_gated_sweeps..|only_auto].
Qed.

(** The grace of a tree is waited for. *)
Definition drains_as_said (c : Child) : Prop := containment_drains (containment c) = true -> can_observe_drain (attached c) = true.

Lemma exited_by_shut s : keeps s exited_by (fun _ s' => graced s' = true /\ got s' = got s).
Proof. unfold exited_by. keeps_step. by eexists. Qed.

Lemma wait_drained_shut a s :
  can_observe_drain a = true -> keeps s (wait_drained a) (fun _ s' => graced s' = true /\ got s' = got s).
Proof. intros Hd. unfold wait_drained. rewrite Hd. keeps_step. by eexists. Qed.

Lemma grace_wait_shut c s : drains_as_said c -> got s = None -> keeps s (grace_wait c) (fun _ s' => graced s' = true /\ got s' = None).
Proof.
  intros Hd Hn. unfold grace_wait. assert (Hw : forall s', got s' = None -> keeps s' (do! r := exited_by in
    ret match r with Ok exited => (false, exited, None) | Err e => (false, false, Some e) end) (fun _ s' => graced s' = true /\ got s' = None)).
  { intros s' Hn'. keeps_step. keeps_use exited_by_shut. intros r s'' [Hg Hs]. keeps_step. split; congruence. }
  destruct (containment_drains _) eqn:Ec; [|by apply Hw]. keeps_step. keeps_use wait_drained_shut; [by apply Hd|].
  intros r s' [Hg Hs]. assert (Hn' : got s' = None) by congruence.
  destruct r as [verdict|]; [|by keeps_step]. destruct (permits_skipping_sweep verdict); [by keeps_step|by apply Hw].
Qed.

Hypothesis Hany : term_first = false.

Lemma sweep_and_reap_shut c s drained exited err :
  graced s = true -> got s = None ->
  keeps s (sweep_and_reap c drained exited err) (fun r s' => forall st, r = Ok st -> got s' = Some st).
Proof.
  intros Hg Hn. assert (Hm : may_kill s) by (by split_and!; [..|left]). unfold sweep_and_reap. keeps_step.
  apply keeps_mono with (Q := fun _ s' => s' = s); [destruct drained; [by keeps_step|by apply (sweeps _ _ (kill_tree_sweeps c))]|].
  intros swept s' ->. destruct swept as [[]|e].
  - keeps_step. keeps_looks unpinned_looks. intros []; [by keeps_step|]. keeps_step. keeps_use wait_root_unbounded_shut; [done|].
    intros waited s1 (_ & _ & Hs). keeps_step. intros st Hst. apply Hs.
    destruct waited as [x|[]], err; cbn in Hst; repeat case_match; congruence.
  - keeps_step. apply keeps_mono with (Q := fun _ _ => True); [|intros u s' _; by keeps_step]. destruct exited; [|by keeps_step].
    keeps_step. keeps_looks unpinned_looks. intros []; [by keeps_step|]. keeps_step. keeps_use wait_root_unbounded_shut; [done|].
    intros waited s1 _. by keeps_step.
Qed.

Lemma after_term_shut c s :
  drains_as_said c -> got s = None -> keeps s (after_term c) (fun r s' => forall st, r = Ok st -> got s' = Some st).
Proof.
  intros Hd Hn. unfold after_term. keeps_step. keeps_use grace_wait_shut; [done..|]. intros [[drained exited] err] s' [Hg Hn'].
  by apply sweep_and_reap_shut.
Qed.

Lemma through_pidfd_shut c s :
  graced s = false -> got s = None -> keeps s (shut_down_root_through_pidfd c) (fun _ _ => True).
Proof.
  intros Hg Hn. unfold shut_down_root_through_pidfd. keeps_step. keeps_looks (terminate_gate_looks c). intros gate. keeps_step.
  unfold pidfd_shutdown_start, signal_root.
  apply keeps_mono with (Q := fun _ s' => graced s' = false /\ got s' = None).
  { apply starts; [|done..]. destruct gate; only_auto. }
  intros started s1 [Hg1 Hn1]. destruct started as [term|]; [|by keeps_step]. keeps_step.
  apply keeps_mono with (Q := fun exited s' => got s' = None /\ (exited <> None -> graced s' = true)).
  { destruct (needs_grace term); [|by keeps_step]. keeps_step. keeps_use exited_by_shut. intros r s' [Hg' Hs]. keeps_step. by split; [congruence|]. }
  intros exited s2 [Hn2 Hg2]. unfold pidfd_shutdown_finish. keeps_step.
  apply keeps_mono with (Q := fun _ _ => True).
  - destruct exited as [r|]; [|by keeps_step]. assert (Hm : may_kill s2) by (by split_and!; [apply Hg2|..|left]).
    assert (Hk : keeps s2 (do! gate := child_kill_gate c in
      match gate with Closed unkillable => ret (Some (Err unkillable)) | _ => do! r := kill_root_typed c in ret (Some r) end) (fun _ _ => True)).
    { keeps_step. keeps_looks (kill_gate_looks c). intros g. destruct g; [..|by keeps_step]; (keeps_step; keeps_sweeps (kill_root_typed_sweeps c);
        intros ?; by keeps_step). }
    destruct r as [[]|]; [by keeps_step|done|done].
  - intros killed s3 _. keeps_step. eapply keeps_note; [done|]. by keeps_step.
Qed.

Lemma holders_only_shut c s :
  can_observe_drain (attached c) = true -> graced s = false -> got s = None -> keeps s (shut_down_holders_only c) (fun _ _ => True).
Proof.
  intros Hd Hg Hn. unfold shut_down_holders_only. keeps_step.
  eapply keeps_mono; [apply starts; [unfold holders_only; unfold_tree; only_auto|done..]|]. intros u s1 [Hg1 Hn1].
  keeps_step. keeps_use wait_drained_shut; [done|]. intros r s2 [Hg2 Hn2]. assert (Hm : may_kill s2) by (by split_and!; [|congruence|left]).
  eapply keeps_mono; [apply sweeps; [|exact Hm]|done]. unfold holders_shutdown_error, holders_only. unfold_tree. only_auto.
Qed.

Lemma graceful_shutdown_tree_shut c :
  drains_as_said c -> keeps (shut false false None) (graceful_shutdown_tree c) (fun r s => forall st, r = Ok st -> got s = Some st).
Proof.
  intros Hd. unfold graceful_shutdown_tree. destruct (require_contained c); [|by keeps_step]. keeps_step. keeps_looks hold_looks. intros _.
  keeps_step. keeps_use graceful_shut; [done..|]. intros d s1 [[Hg Hn] Hh].
  assert (Hend : forall (m : H Error) s', keeps s' m (fun _ _ => True) ->
    keeps s' (do! e := m in ret (Err e)) (fun r s => forall st : Z, r = Ok st -> got s = Some st)).
  { intros m s' Hm. keeps_step. keeps_use Hm. intros e s'' _. by keeps_step. }
  assert (Hgo : forall (m : H (result Error unit)), only is_start m -> keeps s1 (do! term := m in do! _ := release in
    match term with Ok _ => after_term c | Err e => if held_refusal e then after_term c else ret (Err e) end)
    (fun (r : result Error Z) s => forall st, r = Ok st -> got s = Some st)).
  { intros m Hm. keeps_step. eapply keeps_mono; [by apply starts|]. intros term s2 [Hg2 Hn2]. keeps_step. keeps_looks release_looks.
    intros _. destruct term as [u|e]; [by apply after_term_shut|]. destruct (held_refusal e); [by apply after_term_shut|by keeps_step]. }
  destruct d as [|result earlier|e| |].
  - apply Hgo, terminate_tree_starts.
  - apply Hgo. only_auto.
  - keeps_step. keeps_looks release_looks. intros _. by keeps_step.
  - keeps_step. keeps_looks release_looks. intros _. apply Hend. by apply through_pidfd_shut.
  - keeps_step. keeps_looks release_looks. intros _. apply Hend. by apply holders_only_shut; auto.
Qed.

End Grace.

(** * What a shutdown asks for *)

(** Whether a [SIGTERM] was sent or, what stands for it, the group of this handle's reaped root was shown to be
    empty: by its number's new holder, or by its pidfd. *)
Inductive Asked := NotYet | OwnReaped | AskedFor.

(** Nothing is waited for, reaped or killed before that. *)
Definition ask_step (s : Asked) (e : Ev) : option Asked :=
  match role e with
  | TermRole _ => Some AskedFor
  | KillRole | GraceRole | ReapRole _ => match s with AskedFor => Some AskedFor | _ => None end
  | LookRole =>
      Some match s, e with
           | AskedFor, _ | _, HasMember (Some false) => AskedFor
           | _, LookState _ looked => match looked with RootReaped true => OwnReaped | _ => NotYet end
           | OwnReaped, ReadNumber (Found _) => AskedFor
           | s, _ => s
           end
  end.

Section Asks.
  Context `{Sys}.

Notation asks := (keeps ask_step).
Notation total := (only (fun _ : Ev => true)).

Lemma looks_ask {A} (m : H A) s : only is_look m -> asks s m (fun _ s' => s = AskedFor -> s' = AskedFor).
Proof.
  intros Hm. apply (only_keeps is_look); [done..|]. intros s' e Hs. unfold is_look, ask_step. destruct (role e); try done.
  intros _. eexists. split; [done|]. intros Ha. by rewrite (Hs Ha).
Qed.

(** Once asked for, the rest may follow in any order. *)
Lemma rest_asks {A} (m : H A) : total m -> asks AskedFor m (fun _ s' => s' = AskedFor).
Proof.
  intros Hm. apply (only_keeps (fun _ => true)); [done..|]. intros s' e -> _. unfold ask_step. destruct (role e); eauto.
Qed.

Lemma keeps_total {S A} (stp : S -> Ev -> option S) s (m : H A) Q : keeps stp s m Q -> total m.
Proof. intros Hm h. eapply wp_mono; [apply Hm|]. intros a t _. by apply Forall_true. Qed.

Lemma only_total {A} p (m : H A) : only p m -> total m.
Proof. intros Hm h. eapply wp_mono; [apply Hm|]. intros a t _. by apply Forall_true. Qed.

Lemma wait_root_total b : total (wait_root b).
Proof. unfold wait_root, wait. only_auto. Qed.

Lemma kill_after_grace_total c watch : total (kill_after_grace c watch).
Proof.
  unfold kill_after_grace. apply only_bind; [apply (only_total is_look), refuse_unpinned_looks|]. intros []; [|only_auto].
  apply only_bind; [apply (only_total is_look), kill_gate_looks|]. intros gate.
  apply only_bind; [apply (only_total is_sweep), kill_sweeps|]. intros []; [|only_auto].
  unfold wait_root_unbounded, wait_root, wait. only_auto.
Qed.

Lemma after_term_total c : drains_as_said c -> total (after_term c).
Proof. intros Hd. eapply keeps_total. by apply (after_term_shut false eq_refl c (shut true false None)). Qed.

(** What the look at the root's number shows of its group. *)
Definition number_asked (a : Attached) (n : RootNumber) (s : Asked) : Prop :=
  match n with
  | EmptyGroup => names_tree_by_identity a = false -> s = AskedFor
  | GroupGone => s = AskedFor
  | NoWalk => names_tree_by_identity a = true
  | _ => True
  end.

Lemma number_of_state_asks a s looked :
  (looked = RootReaped true -> s <> NotYet) -> asks s (number_of_state a looked) (number_asked a).
Proof.
  intros Hs. unfold number_of_state, own_reaped_free. destruct looked as [|[]|e|]; try by keeps_step.
  unfold root_identity_now. do 2 keeps_step. eexists. split; [reflexivity|]. destruct a0 as [i| |]; keeps_step; cbn.
  - intros _. specialize (Hs eq_refl). by destruct s.
  - destruct platform; [done|]. by destruct a as [| | | | |? []|].
  - done.
Qed.

Lemma root_number_asks a s : asks s (root_number a (root_state true)) (number_asked a).
Proof.
  assert (Hlook : forall k : RootState -> H RootNumber,
    (forall looked s', (looked = RootReaped true -> s' <> NotYet) -> asks s' (k looked) (number_asked a)) ->
    asks s (do! looked := root_state true in k looked) (number_asked a)).
  { intros k Hk. unfold root_state. do 2 keeps_step. eexists. split; [reflexivity|]. apply Hk. intros ->. by destruct s. }
  unfold root_number. destruct platform.
  - destruct (needs_root_check a); [|by keeps_step]. apply Hlook. intros. by apply number_of_state_asks.
  - apply Hlook. intros looked s' Hs.
    destruct looked; try (by keeps_step); (destruct (needs_root_check a); [by apply number_of_state_asks|by keeps_step]).
Qed.

Lemma call_root_number_asks a s : asks s (call_root_number a (root_state true)) (number_asked a).
Proof.
  unfold call_root_number. keeps_step. keeps_use root_number_asks. intros n s' Hn. destruct platform; [|by keeps_step].
  unfold through_the_pidfd. destruct n as [| | | |x|]; try (by keeps_step). destruct a; try (by keeps_step).
  unfold has_member. do 2 keeps_step. eexists. split; [reflexivity|]. keeps_step. destruct a as [[]|]; [done| |done].
  destruct x; [done|]. cbn. by destruct s'.
Qed.

Lemma send_holders_asks except s : asks s (send_holders TTerm except) (fun _ s' => s' = AskedFor).
Proof. unfold send_holders. keeps_step. by eexists. Qed.

Lemma terminate_tree_asks a s : is_actionable a = true -> asks s (terminate_tree a) (fun _ s' => s' = AskedFor).
Proof.
  intros Ha. unfold terminate_tree, send_tree. destruct a; try done;
    (do 2 keeps_step; eexists; split; [reflexivity|]; by keeps_step).
Qed.

(** A decision that goes on to the grace was asked for. *)
Lemma graceful_asks a s :
  asks s (TreeCall.graceful a (root_state true)) (fun d s' =>
    match d with GSent _ _ => s' = AskedFor | GHoldersOnly => names_tree_by_identity a = true | _ => True end).
Proof.
  unfold TreeCall.graceful. keeps_step. keeps_use call_root_number_asks. intros n s' Hn. destruct n as [|root| | |x|].
  - by keeps_step.
  - keeps_step. unfold untrusted, signal_tree_untrusted. destruct a; cbn [named_by_root_number negb]; try (by repeat keeps_step).
    keeps_step. keeps_use send_holders_asks. intros r s1 ->. keeps_step. unfold mark_if.
    destruct r; do 2 keeps_step; by keeps_step.
  - keeps_step. unfold no_walk, signal_group_and_holders, send_group_and_holders, mark_if. destruct a; try done. do 3 keeps_step.
    eexists. split; [reflexivity|]. keeps_step. destruct a; repeat keeps_step; done.
  - keeps_step. unfold empty_group, signal_holders_only. destruct a; try (repeat keeps_step; by apply Hn).
    keeps_step. keeps_use send_holders_asks. intros r s1 ->. keeps_step. unfold mark_if. destruct r; by repeat keeps_step.
  - destruct (x && bool_decide (platform = Linux)); [by keeps_step|]. destruct (names_tree_by_identity a) eqn:En; [by keeps_step|].
    keeps_step. unfold number_skipped, signal_holders_only. destruct a; try done; (keeps_step; keeps_step; keeps_step; by repeat keeps_step).
  - by keeps_step.
Qed.

Lemma terminate_asks c s : asks s (terminate c) (fun r s' => r = Ok tt -> s' = AskedFor).
Proof.
  unfold terminate. keeps_step. eapply keeps_mono; [apply looks_ask, terminate_gate_looks|]. intros gate s1 _.
  assert (Hgo : asks s1 (do! r := refuse_unpinned in
      match r with
      | Err e => ret (Err e)
      | Ok _ => do! s := signal_root false SigTerm in ret match s with Ok _ => Ok tt | Err e => Err e end
      end) (fun r s' => r = Ok tt -> s' = AskedFor)); [|destruct gate; [done..|by keeps_step]].
  keeps_step. eapply keeps_mono; [apply looks_ask, refuse_unpinned_looks|]. intros [[]|] s2 _; [|by keeps_step].
  unfold signal_root. do 2 keeps_step. eexists. split; [reflexivity|]. by keeps_step.
Qed.

Lemma graceful_shutdown_asks c bounded : asks NotYet (graceful_shutdown c bounded) (fun _ _ => True).
Proof.
  unfold graceful_shutdown. keeps_step. keeps_use terminate_asks. intros [[]|] s Hs; [|by keeps_step]. rewrite (Hs eq_refl). keeps_step.
  eapply keeps_mono; [apply rest_asks, wait_root_total|]. intros watch s' ->.
  assert (Hk : asks AskedFor (kill_after_grace c watch) (fun _ _ => True)).
  { eapply keeps_mono; [apply rest_asks, kill_after_grace_total|done]. }
  destruct watch as [[]|]; [by keeps_step|done..].
Qed.

Lemma through_pidfd_asks c s : asks s (shut_down_root_through_pidfd c) (fun _ _ => True).
Proof.
  unfold shut_down_root_through_pidfd. keeps_step. eapply keeps_mono; [apply looks_ask, terminate_gate_looks|]. intros gate s1 _. keeps_step.
  eapply keeps_mono with (Q := fun started s' => forall term, started = Ok term -> s' = AskedFor).
  { unfold pidfd_shutdown_start, signal_root.
    destruct gate; try (by keeps_step); (do 2 keeps_step; eexists; split; [reflexivity|]; by keeps_step). }
  intros [term|] s2 Hs; [|by keeps_step]. rewrite (Hs _ eq_refl).
  eapply keeps_mono; [apply rest_asks|done]. unfold pidfd_shutdown_finish, exited_by. apply only_bind; [only_auto|]. intros exited.
  apply only_bind; [|intros; only_auto]. destruct exited as [[[]|]|]; try solve [only_auto];
    (apply only_bind; [apply (only_total is_look), kill_gate_looks|]; intros []; try solve [only_auto];
     (apply only_bind; [apply (only_total is_sweep), kill_root_typed_sweeps|intros; only_auto])).
Qed.

Lemma holders_only_asks c s :
  drains_as_said c -> names_tree_by_identity (attached c) = true -> asks s (shut_down_holders_only c) (fun _ _ => True).
Proof.
  intros Hd Hn. unfold shut_down_holders_only, holders_only at 1, signal_holders_only. destruct (attached c) as [| | | | |root pgid|] eqn:Ea; try done.
  do 3 keeps_step. keeps_use send_holders_asks. intros r s1 ->. eapply keeps_mono; [apply rest_asks|].
  { unfold mark_if. destruct r; only_auto. }
  intros u s2 ->. keeps_step.
  eapply keeps_mono; [apply rest_asks|done]. unfold wait_drained, holders_shutdown_error, holders_only, signal_holders_only, send_holders, mark_if, mark. only_auto.
Qed.

Lemma graceful_shutdown_tree_asks c : drains_as_said c -> asks NotYet (graceful_shutdown_tree c) (fun _ _ => True).
Proof.
  intros Hd. unfold graceful_shutdown_tree, require_contained. destruct (is_actionable (attached c)) eqn:Ea; [|by keeps_step].
  keeps_step. eapply keeps_mono; [apply looks_ask, hold_looks|]. intros _ s _. keeps_step. keeps_use graceful_asks. intros d s1 Hs.
  assert (Hgo : forall m : H (result Error unit), asks s1 m (fun _ s' => s' = AskedFor) -> asks s1 (do! term := m in do! _ := release in
    match term with Ok _ => after_term c | Err e => if held_refusal e then after_term c else ret (Err e) end) (fun _ _ => True)).
  { intros m Hm. keeps_step. eapply keeps_mono; [exact Hm|]. intros term s2 ->. eapply keeps_mono; [apply rest_asks|done].
    apply only_bind; [apply (only_total is_look), release_looks|]. intros _. pose proof (after_term_total c Hd).
    destruct term as [|e]; [done|]. destruct (held_refusal e); [done|only_auto]. }
  assert (Hrel : forall B (k : unit -> H B), (forall s2, asks s2 (k tt) (fun _ _ => True)) -> asks s1 (do! u := release in k u) (fun _ _ => True)).
  { intros B k Hk. keeps_step. eapply keeps_mono; [apply looks_ask, release_looks|]. intros [] s2 _. apply Hk. }
  destruct d as [|result earlier|e| |].
  - by apply Hgo, terminate_tree_asks.
  - apply Hgo. by keeps_step.
  - apply (Hrel _ (fun _ => ret (Err e))). intros s2. by keeps_step.
  - apply (Hrel _ (fun _ => do! e := shut_down_root_through_pidfd c in ret (Err e))). intros s2. keeps_step.
    keeps_use through_pidfd_asks. intros e s3 _. by keeps_step.
  - apply (Hrel _ (fun _ => do! e := shut_down_holders_only c in ret (Err e))). intros s2. keeps_step.
    eapply keeps_mono; [by apply holders_only_asks|]. intros e s3 _. by keeps_step.
Qed.
End Asks.

(** * In order *)

Section Order.
  Context `{Sys}.

(** What a shutdown's calls show: the protocol's last state, from a fresh child. *)
Definition shut_down (term_first : bool) (t : list Ev) : option Shut := accepts (step term_first) (shut false false None) t.

(** Every wait, reap and kill of [t] comes after its [SIGTERM] was asked for. *)
Definition asks_first (t : list Ev) : Prop := is_Some (accepts ask_step NotYet t).

(** C28: whatever the system answers, a graceful shutdown sends its [SIGTERM] before it waits for, reaps or
    kills anything, the root's as the tree's; the one tree that is not sent one is a group shown to be empty, by
    the root's pidfd or, once this handle reaped the root, by the new holder of its number. It kills only
    after a wait that was its grace and that showed no status, sends no [SIGTERM] after that wait, and signals
    nothing once it has a status; a root's kill comes only after a [SIGTERM] that was taken. The status it
    answers is one its own reap gave; and a [terminate] answers [Ok] if and only if its [SIGTERM] was taken. *)
Theorem graceful_shutdowns_in_order c h :
  drains_as_said c ->
  (forall bounded r t, runs (graceful_shutdown c bounded) h r t ->
    asks_first t /\ exists s, shut_down true t = Some s /\ (forall st, r = Ok st -> got s = Some st /\ termed s = true))
  /\ (forall r t, runs (graceful_shutdown_tree c) h r t ->
    asks_first t /\ exists s, shut_down false t = Some s /\ (forall st, r = Ok st -> got s = Some st))
  /\ (forall r t, runs (terminate c) h r t -> exists s, shut_down true t = Some s /\ (termed s = true <-> r = Ok tt)).
Proof.
  intros Hd. split_and!.
  - intros bounded r t Hr. split; [|exact (keeps_runs _ _ _ _ _ _ _ (graceful_shutdown_shut true c bounded) Hr)].
    destruct (keeps_runs _ _ _ _ _ _ _ (graceful_shutdown_asks c bounded) Hr) as (s & Hs & _). by exists s.
  - intros r t Hr. split; [|exact (keeps_runs _ _ _ _ _ _ _ (graceful_shutdown_tree_shut false eq_refl c Hd) Hr)].
    destruct (keeps_runs _ _ _ _ _ _ _ (graceful_shutdown_tree_asks c Hd) Hr) as (s & Hs & _). by exists s.
  - intros r t Hr. destruct (keeps_runs _ _ _ _ _ _ _ (terminate_shut true c (shut false false None) eq_refl eq_refl eq_refl) Hr)
      as (s & Hs & _ & _ & Ht). exists s. split; [done|]. rewrite Ht. destruct r as [[]|]; done.
Qed.

End Order.

(** A child that takes its [SIGTERM] and does not end by it. *)
Definition killed_event (e : Ev) : bool := match e with SignalRoot _ SigKill (Ok _) | SendTree _ TKill (Ok _) => true | _ => false end.

#[local] Instance demo_stubborn : Sys := {
  platform := Linux;
  state_answer _ := Unreaped;
  peek_answer _ := Ok PeekRunning;
  signal_answer _ _ := Ok Delivered;
  wait_answer h _ := if existsb killed_event h then Ok (Exited (Status 9)) else Ok DeadlinePassed;
  watch_answer _ := Ok false;
  reaped_answer _ := false;
  number_answer _ := Identity.Unknown;
  member_answer _ := None;
  tree_answer _ _ _ := Ok true;
  holders_answer _ _ _ := Ok tt;
  group_and_holders_answer _ _ := Ok tt;
  leaf_holds_answer _ := Ok false;
  leaf_names_answer _ := Ok false;
  subtree_answer _ := Ok tt;
  reached_answer _ := Ok false;
  drain_answer _ := Ok MembersRemain
}.

Definition demo_stubborn_child : Child := child_ (process_id 7 5) Cgroup None false CgroupV2_ true [].

Lemma graceful_shutdowns_in_order_witness :
  let t := [SignalRoot false SigTerm (Ok Delivered); Wait true (Ok DeadlinePassed); SignalRoot false SigKill (Ok Delivered);
            Wait false (Ok (Exited (Status 9)))] in
  runs (graceful_shutdown demo_stubborn_child true) [] (Ok 9) t
  /\ (exists s, shut_down true t = Some s /\ got s = Some 9) /\ asks_first t
  /\ asks_first (graceful_shutdown_tree demo_stubborn_child []).2
  /\ take 4 (graceful_shutdown_tree demo_stubborn_child []).2 = [Hold; SendTree Cgroup TTerm (Ok true); Release; WaitDrain (Ok MembersRemain)].
Proof.
  intros t. assert (Hd : drains_as_said demo_stubborn_child) by done.
  assert (Hr : runs (graceful_shutdown demo_stubborn_child true) [] (Ok 9) t) by reflexivity.
  destruct (graceful_shutdowns_in_order demo_stubborn_child [] Hd) as (Hroot & Htree & _). destruct (Hroot true _ t Hr) as (Ha & s & Hs & Ho).
  split; [exact Hr|]. split; [exists s; split; [exact Hs|by apply Ho]|]. split; [exact Ha|].
  split; [|reflexivity]. exact (proj1 (Htree _ _ (surjective_pairing (graceful_shutdown_tree demo_stubborn_child [])))).
Defined.

(** The protocols refuse a kill with no grace, and a tree's grace, or its root's reap, with no [SIGTERM]. *)
Example refused_shutdowns :
  shut_down true [SignalRoot false SigTerm (Ok Delivered); SignalRoot false SigKill (Ok Delivered)] = None
  /\ accepts ask_step NotYet [Hold; Release; WaitDrain (Ok MembersRemain)] = None
  /\ accepts ask_step NotYet [Wait true (Ok DeadlinePassed)] = None.
Proof. done. Qed.
