(* ===== verification/Attach.v ===== *)
(** How a child gets its containment on Unix: [prepare] and [attach_tree] of
    [src/containment/dispatch.rs], the in-child steps of [src/child/spawn/in_child.rs], and
    [marker_wanted] of [src/containment/fdmarker.rs]. Whether a leaf or a marker could be made, and
    what a leaf's verdict is, are arguments; [Command] has Windows' flags. *)
From S2P Require Import Prelude Identity Command ChildCalls.
Local Open Scope Z_scope.

(** * Before the spawn *)

Inductive UnixSetup := SetupSession | SetupProcessGroup | SetupNone.

Definition unix_setup_for (m : option ContainMode) : UnixSetup :=
  match m with
  | Some Session => SetupSession
  | Some TreeWalk => SetupNone
  | _ => SetupProcessGroup
  end.

Definition is_nested (marker_present : bool) : bool := marker_present.

Definition marker_wanted (m : option ContainMode) (is_root suppressed : bool) : bool :=
  bool_decide (is_Some m) && is_root && negb suppressed.

(** [Prepared]: a leaf is Linux's, a marker macOS's. *)
Record Prepared := prepared { mode_ : option ContainMode; is_root : bool; cgroup_leaf : bool; marker : bool }.

(** What [prepare] sets on the command: std's [process_group(0)], the in-child steps, the variable
    that tells descendants of the root. *)
Record Setup := setup { process_group : bool; session : bool; placement : bool; preserved : bool; marker_env : bool }.

Definition prepare (pl : Platform) (req : ContainRequest) (marker_present suppressed leaf_made marker_made : bool) : Prepared * Setup :=
  let root := negb (is_nested marker_present) in
  match mode req with
  | None => (prepared None false false false, setup false false false false false)
  | Some m =>
      let env := root && bool_decide (nesting req = Mark) in
      match pl with
      | Linux =>
          if root then
            match unix_setup_for (Some m) with
            | SetupSession => (prepared (Some m) root false false, setup false true false false env)
            | SetupNone => (prepared (Some m) root false false, setup false false false false env)
            | SetupProcessGroup => (prepared (Some m) root leaf_made false, setup true false leaf_made false env)
            end
          else (prepared (Some m) root false false, setup false false false false env)
      | Macos =>
          let group := root && match unix_setup_for (Some m) with SetupProcessGroup => true | _ => false end in
          let leads := root && match unix_setup_for (Some m) with SetupSession => true | _ => false end in
          let mk := marker_wanted (Some m) root suppressed && marker_made in
          (prepared (Some m) root false mk, setup group leads false mk env)
      end
  end.

(** * Between fork and exec *)

(** The steps of [InChild], in the order its hook runs them. *)
Inductive Step := Enter | Setsid | Place | Preserve | MapFds.

#[export] Instance Step_eq_dec : EqDecision Step.
Proof. solve_decision. Defined.

Record InChild := in_child { enter : bool; steps : Setup; fd_map : bool }.

Definition step_if (b : bool) (s : Step) : list Step := if b then [s] else [].

Definition in_order (c : InChild) : list Step :=
  step_if (enter c) Enter ++ step_if (session (steps c)) Setsid ++ step_if (placement (steps c)) Place
  ++ step_if (preserved (steps c)) Preserve ++ step_if (fd_map c) MapFds.

Definition is_empty (c : InChild) : bool :=
  negb (enter c) && negb (session (steps c)) && negb (placement (steps c) || preserved (steps c)) && negb (fd_map c).

(** What runs in the child: each step changes the child or fails the spawn with a code. *)
Fixpoint run_steps {A} (step : Step -> A -> result Z A) (l : list Step) (a : A) : result Z A :=
  match l with
  | [] => Ok a
  | s :: l => let? a := step s a in run_steps step l a
  end.

(** [register]: a command with no step has no hook. *)
Definition register {A} (step : Step -> A -> result Z A) (c : InChild) (a : A) : result Z A :=
  if is_empty c then Ok a else run_steps step (in_order c) a.

(** * After the spawn *)

(** [Prepared::group_is_containment]; [entered] is the leaf's verdict, where there is a leaf. *)
Definition group_is_containment (pl : Platform) (p : Prepared) (entered : bool) : bool :=
  let taken_by_a_leaf := match pl with Linux => cgroup_leaf p && entered | Macos => false end in
  is_root p && negb taken_by_a_leaf && match mode_ p with Some TreeWalk | None => false | Some _ => true end.

Definition leafless_group_is_containment (p : Prepared) : bool := negb (cgroup_leaf p) && group_is_containment Linux p false.

(** [attach_tree]; [entered] is the verdict [take_placement] takes. *)
Definition attach_tree (pl : Platform) (id : ProcessId) (p : Prepared) (entered : bool) : Containment * Attached :=
  match mode_ p with
  | None => (Contained_None, AttachedNone)
  | Some m =>
      if negb (is_root p) then (Delegated_, AttachedDelegated)
      else
        match pl with
        | Linux =>
            match m with
            | TreeWalk => (TreeWalk_, WalkFrom id)
            | Session => (Session_, ProcessGroup (pid id))
            | Strongest =>
                if cgroup_leaf p && entered then (CgroupV2_, Cgroup) else (ProcessGroup_, ProcessGroup (pid id))
            end
        | Macos =>
            if marker p then
              (FdMarker_, FdMarker (Some id) match m with TreeWalk => None | _ => Some (pid id) end)
            else
              match m with
              | TreeWalk => (TreeWalk_, WalkFrom id)
              | Session => (Session_, ProcessGroup (pid id))
              | Strongest => (ProcessGroup_, ProcessGroup (pid id))
              end
        end
  end.

(** * The child's group *)

(** A process to its kernel: its number, its group and its session. *)
Record Proc := proc { number : Z; pgid : Z; sid : Z }.

Definition EPERM : Z := 1.

(** [setpgid(0, 0)], which a session leader is refused; [setsid], which a group leader is. *)
Definition setpgid (p : Proc) : result Z Proc :=
  if sid p =? number p then Err EPERM else Ok (proc (number p) (number p) (sid p)).

Definition setsid (p : Proc) : result Z Proc :=
  if pgid p =? number p then Err EPERM else Ok (proc (number p) (number p) (number p)).

(** The in-child steps of a child whose other steps succeed. *)
Definition kernel_step (s : Step) (p : Proc) : result Z Proc := match s with Setsid => setsid p | _ => Ok p end.

(** A forked child up to its [exec]: std groups it, and then the hook runs. *)
Definition to_exec (c : InChild) (p : Proc) : result Z Proc :=
  let? p := (if process_group (steps c) then setpgid p else Ok p) in register kernel_step c p.

(** The group a mechanism kills by number, if it does. *)
Definition group_of (a : Attached) : option Z :=
  match a with ProcessGroup g | FdMarker _ (Some g) => Some g | _ => None end.

Lemma register_runs {A} (step : Step -> A -> result Z A) c a : register step c a = run_steps step (in_order c) a.
Proof.
  unfold register. destruct (is_empty c) eqn:E; [|done]. unfold is_empty in E. unfold in_order, step_if.
  destruct (enter c), (session _), (placement _), (preserved _), (fd_map c); done.
Qed.

(** A child is grouped by its setup, once. *)
Lemma to_exec_groups c n g s :
  n <> g -> n <> s -> process_group (steps c) && session (steps c) = false ->
  to_exec c (proc n g s)
  = Ok (if session (steps c) then proc n n n else if process_group (steps c) then proc n n s else proc n g s).
Proof.
  intros Hg Hs Hx. assert (setpgid (proc n g s) = Ok (proc n n s)) as Hpg by (unfold setpgid; cbn; by destruct (Z.eqb_spec s n); [subst|]).
  assert (setsid (proc n g s) = Ok (proc n n n)) as Hss by (unfold setsid; cbn; by destruct (Z.eqb_spec g n); [subst|]).
  unfold to_exec. destruct (process_group (steps c)) eqn:Ep.
  - rewrite Hpg, register_runs. unfold in_order, step_if. cbn in Hx. rewrite Hx.
    by destruct (enter c), (placement _), (preserved _), (fd_map c).
  - rewrite register_runs. unfold in_order, step_if.
    destruct (session _), (enter c), (placement _), (preserved _), (fd_map c); cbn; rewrite ?Hss; done.
Qed.

(** C32: what [attach] reports is what [prepare] set up. Whatever was asked for and could be made, the
    child is never refused its group; the mechanism names a group by number exactly if the failed
    spawn's cleanup would, and that group is the child's own, which it leads; of the
    others only a child whose leaf took it leads a group. A containment tears down and shows its
    drain exactly if its mechanism does, only a root has one of its own, and its descendants are told
    of it unless they are to ignore it. *)
Theorem attached_as_prepared pl req marker_present suppressed leaf_made marker_made entered id enters maps g s :
  pid id <> g -> pid id <> s ->
  let (p, su) := prepare pl req marker_present suppressed leaf_made marker_made in
  let (c, a) := attach_tree pl id p entered in
  exists child, to_exec (in_child enters su maps) (proc (pid id) g s) = Ok child
  /\ (forall n, group_of a = Some n -> n = pid id /\ pgid child = n)
  /\ (group_is_containment pl p entered = true <-> is_Some (group_of a))
  /\ (pgid child = pid id <-> is_Some (group_of a) \/ a = Cgroup)
  /\ can_teardown c = is_actionable a /\ containment_drains c = can_observe_drain a
  /\ (a = Cgroup -> leaf_made = true /\ entered = true)
  /\ (is_actionable a = true <-> is_Some (mode req) /\ marker_present = false)
  /\ (marker_env su = true <-> is_actionable a = true /\ nesting req = Mark).
Proof.
  intros Hg Hs. destruct (prepare pl req marker_present suppressed leaf_made marker_made) as [p su] eqn:Ep.
  assert (Hx : process_group su && session su = false).
  { unfold prepare in Ep. destruct (mode req) as [[]|], pl, marker_present; cbn in Ep; injection Ep as <- <-; done. }
  assert (Hc := to_exec_groups (in_child enters su maps) _ _ _ Hg Hs Hx).
  unfold prepare, marker_wanted in Ep. destruct (mode req) as [[]|] eqn:Em, pl, marker_present; cbn in Ep; injection Ep as <- <-; cbn in *;
    try destruct suppressed; try destruct leaf_made; try destruct marker_made; try destruct entered; cbn;
    (eexists; split; [exact Hc|]; cbn); rewrite ?bool_decide_eq_true;
    split_and!; first [done | by intuition (simplify_eq; eauto) | naive_solver].
Qed.

Definition demo_request : ContainRequest := contain_request (Some Strongest) Mark.

Lemma attached_as_prepared_witness :
  attach_tree Linux (process_id 70 5) (prepare Linux demo_request false false true false).1 true = (CgroupV2_, Cgroup)
  /\ attach_tree Macos (process_id 70 5) (prepare Macos demo_request false false false true).1 false
     = (FdMarker_, FdMarker (Some (process_id 70 5)) (Some 70))
  /\ to_exec (in_child false (setup true true false false false) false) (proc 70 10 10) = Err EPERM
  /\ (exists child, to_exec (in_child true (prepare Linux demo_request false false true false).2 true) (proc 70 10 10) = Ok child
      /\ pgid child = 70).
Proof.
  split; [reflexivity|]. split; [reflexivity|]. split; [reflexivity|].
  destruct (attached_as_prepared Linux demo_request false false true false true (process_id 70 5) true true 10 10 ltac:(done) ltac:(done))
    as (child & Hc & _ & _ & Hg & _).
  exists child. split; [exact Hc|]. apply Hg. by right.
Defined.
