(* ===== verification/SpawnTeardown.v ===== *)
(** The child of a spawn that failed after its fork, on Linux: [PidfdChild] and the teardowns of
    [src/child/spawn.rs] that kill and reap it through its pidfd, or leave an elevation front, and the
    rest of a spawn from its held child on. Each
    call is recorded with its answer; the reads behind a peek and a reap are modelled in Reaping. A
    contract violation is logged before its debug assertion, which is left out. *)
From S2P Require Import Prelude Identity IoErrors CrateError History LeafEnd ElevationPlan OsChild OwnedTeardown ChildCalls Attach.
Local Open Scope Z_scope.

(** [Settle] is the take of a leaf's verdict, [Attach] of the whole [attach], which drops what it does
    not keep; [Warn] has whether it carries the diagnosis of the identity check. *)
Inductive Ev :=
| Kill (a : result IoError Sent)
| TryReap (a : result IoError Reap)
| ReapBlocking (a : result IoError (result Foreign ExitRecord))
| Peek (a : result IoError PeekOutcome)
| ReachedBy (a : result IoError bool)
| SlowLook (a : bool)
| WarnStillWaiting
| ReapInBackground
| ReadSubtree (a : bool)
| WatchFront
| ReadIdentity (a : Resolved ProcessId) (cause : option Error)
| Settle (entered : bool)
| KillGroup (a : result Z unit)
| AttachTo (a : result Error (Containment * Attached))
| DropPrepared
| Warn (diagnosis : bool).

Notation H := (Hist Ev).

Class Sys := {
  kill_answer : list Ev -> result IoError Sent;
  try_reap_answer : list Ev -> result IoError Reap;
  reap_answer : list Ev -> result IoError (result Foreign ExitRecord);
  peek_answer : list Ev -> result IoError PeekOutcome;
  reached_answer : list Ev -> result IoError bool;
  slow_answer : list Ev -> bool;
  subtree_answer : list Ev -> bool;
  identity_answer : list Ev -> Resolved ProcessId * option Error;
  entered_answer : list Ev -> bool;
  group_answer : list Ev -> result Z unit;
  attach_answer : list Ev -> result Error (Containment * Attached)
}.

(** [PidfdChild]; [HeldStdChild] is one whose pid is known. *)
Record PidfdChild := pidfd_child { cpid : option Z; creaped : option Z; delivered : bool }.

Definition pidfd_child_new (pid : option Z) : PidfdChild := pidfd_child pid None false.

Definition unreadable_record : IoError := io_new InvalidData.
Definition echild : IoError := from_raw_os_error ECHILD.

(** [Diagnosis]: whether one is owed. A warning that folds it in pays it. *)
Definition Diagnosis := bool.

Section SpawnTeardown.
  Context `{Sys}.

Definition fold (why : Diagnosis) : H Diagnosis := do! _ := note (Warn why) in ret false.

(** [Diagnosis]'s drop. *)
Definition drop_diagnosis (why : Diagnosis) : H unit := if why then note (Warn true) else ret tt.

(** ** [Unadopted] *)

Definition kill (c : PidfdChild) : H (result IoError unit * PidfdChild) :=
  do! a := call kill_answer Kill in
  ret match a with
      | Err e => (Err e, c)
      | Ok sent => (Ok tt, pidfd_child (cpid c) (creaped c) (bool_decide (sent = Delivered)))
      end.

Definition set_reaped (c : PidfdChild) (status : Z) : PidfdChild := pidfd_child (cpid c) (Some status) (delivered c).

Definition try_wait (c : PidfdChild) : H (result IoError (option Z) * PidfdChild) :=
  match creaped c with
  | Some status => ret (Ok (Some status), c)
  | None =>
      do! a := call try_reap_answer TryReap in
      ret match a with
          | Err e => (Err e, c)
          | Ok (Reaped (Status status)) => (Ok (Some status), set_reaped c status)
          | Ok (Reaped (Unreadable _)) => (Err unreadable_record, c)
          | Ok ReapRunning => (Ok None, c)
          | Ok (ReapForeign _) => (Err echild, c)
          end
  end.

Definition wait (c : PidfdChild) : H (result IoError Z * PidfdChild) :=
  match creaped c with
  | Some status => ret (Ok status, c)
  | None =>
      do! a := call reap_answer ReapBlocking in
      ret match a with
          | Err e => (Err e, c)
          | Ok (Ok (Status status)) => (Ok status, set_reaped c status)
          | Ok (Ok (Unreadable _)) => (Err unreadable_record, c)
          | Ok (Err _) => (Err echild, c)
          end
  end.

(** [wait_unadopted_warning] with the wait; [warn] says whether there is a threshold. *)
Definition wait_unadopted_warning (c : PidfdChild) (warn : bool) : H (result IoError Z * PidfdChild) :=
  wait_warning warn (call slow_answer SlowLook) (note WarnStillWaiting) (wait c).

(** ** Teardowns *)

(** The fate one look shows. *)
Definition fate_looked (looked : result IoError (option Z)) (id : option ProcessId) : ChildFate :=
  fate_of_a_look match looked with Ok s => Ok s | Err e => Err (raw_os_error e) end id.

Definition kill_unadopted (c : PidfdChild) : H (result IoError unit * PidfdChild) :=
  do2! killed, c := kill c in
  match killed with
  | Ok _ => ret (Ok tt, c)
  | Err e =>
      do2! looked, c := try_wait c in
      ret match looked with Ok (Some _) => (Ok tt, c) | _ => (Err e, c) end
  end.

Definition teardown_unadopted_noting (c : PidfdChild) (id : option ProcessId) (warn : bool) (why : Diagnosis) :
    H (ChildFate * Diagnosis) :=
  do2! killed, c := kill_unadopted c in
  match killed with
  | Err _ =>
      do! why := fold why in
      do2! looked, c := try_wait c in
      do! _ := match looked with Ok (Some _) => ret tt | _ => note ReapInBackground end in
      ret (fate_looked looked id, why)
  | Ok _ =>
      do2! reaped, c := wait_unadopted_warning c warn in
      match reaped with
      | Ok _ => ret (Reaped_, why)
      | Err e =>
          if bool_decide (raw_os_error e = Some ECHILD) then ret (foreign_fate ForeignGone (delivered c), why)
          else do! why := fold why in ret (Killed, why)
      end
  end.

(** [subtree] says whether the leaf's subtree was read. *)
Definition leave_unadopted_front_noting (c : PidfdChild) (id : option ProcessId) (warn subtree : bool) (why : Diagnosis) :
    H (FrontFate * ChildFate * Diagnosis) :=
  do2! tried, c := try_wait c in
  let fate := fate_looked tried id in
  match tried with
  | Ok (Some _) => ret (FrontReaped, fate, why)
  | Err _ => ret (FrontUnaccounted, fate, why)
  | Ok None =>
      do! placed := (if subtree && bool_decide (is_Some (cpid c)) then call reached_answer ReachedBy else ret (Ok false)) in
      match placed with
      | Ok true =>
          do2! waited, c := wait_unadopted_warning c warn in
          match waited with
          | Ok _ => ret (FrontReaped, Reaped_, why)
          | Err _ => do! why := fold why in ret (FrontUnaccounted, Killed, why)
          end
      | _ =>
          do! why := fold why in
          ret match placed with
              | Err _ => (FrontUnplaced, FateUnknown, why)
              | Ok _ => (FrontLeftUnreaped, fate, why)
              end
      end
  end.

Definition teardown_unadopted_or_front_noting (c : PidfdChild) (front : option ElevationPlan.Front) (id : option ProcessId)
    (warn subtree : bool) (why : Diagnosis) : H (option FrontFate * ChildFate * Diagnosis) :=
  match front with
  | None => do2! fate, why := teardown_unadopted_noting c id warn why in ret (None, fate, why)
  | Some _ =>
      do! r := leave_unadopted_front_noting c id warn subtree why in
      let '(fate, child_fate, why) := r in ret (Some fate, child_fate, why)
  end.

Definition teardown_through_pidfd_noting (pid : option Z) (id : option ProcessId) (warn : bool) (why : Diagnosis) :
    H (ChildFate * Diagnosis) :=
  do! peeked := call peek_answer Peek in
  match peeked with
  | Ok (PeekForeign f) => ret (foreign_fate f false, why)
  | Err _ => do! why := fold why in ret (FateUnknown, why)
  | Ok _ => teardown_unadopted_noting (pidfd_child_new pid) id warn why
  end.

(** [teardown_through_pidfd] and [leave_front_through_pidfd_noting]; and a teardown to its end, where
    the diagnosis is dropped. *)
Definition teardown_through_pidfd (pid : option Z) (id : option ProcessId) (warn : bool) : H (ChildFate * Diagnosis) :=
  teardown_through_pidfd_noting pid id warn false.

Definition leave_front_through_pidfd_noting (pid : option Z) (id : option ProcessId) (warn subtree : bool) (why : Diagnosis) :
    H (FrontFate * ChildFate * Diagnosis) :=
  leave_unadopted_front_noting (pidfd_child_new pid) id warn subtree why.

(** A failed spawn's teardown of the child it holds, and the drop of its diagnosis. *)
Definition tear_down_held (pid : Z) (front : option ElevationPlan.Front) (id : option ProcessId) (warn subtree : bool) (why : Diagnosis) :
    H (option FrontFate * ChildFate) :=
  do! r := teardown_unadopted_or_front_noting (pidfd_child_new (Some pid)) front id warn subtree why in
  let '(fate, child_fate, why) := r in
  do! _ := drop_diagnosis why in
  ret (fate, child_fate).

(** ** The identity of a spawned child *)

(** [resolve_identity], given the read; with whether a diagnosis is owed. *)
Definition resolve_identity (read : Resolved ProcessId) : H (Resolved ProcessId * Diagnosis) :=
  match read with
  | Found _ =>
      do! peeked := call peek_answer Peek in
      ret match peeked with
          | Ok (PeekRunning | PeekExit _) => (read, false)
          | Ok (PeekForeign ForeignOrphaned) => (Gone, true)
          | Ok (PeekForeign _) => (Gone, false)
          | Err _ => (Identity.Unknown, true)
          end
  | _ => ret (read, false)
  end.

(** [spawn_identity_error]; [cause] is the error of an unavailable view. *)
Definition spawn_identity_error (outcome : Resolved ProcessId) (cause : option Error) : Error :=
  match outcome with
  | Identity.Unknown => default (Unassessable None) cause
  | _ => Io (io_new Other)
  end.

(** ** From the held child to its adoption *)

(** [kill_group_through_pidfd], and [kill_group_before_teardown]: a refusal is owed. *)
Definition ESRCH : Z := 3.

Definition kill_group_through_pidfd : H (result Z unit) :=
  do! a := call group_answer KillGroup in
  ret match a with Ok _ => Ok tt | Err e => if e =? ESRCH then Ok tt else Err e end.

Definition kill_group_before_attach (p : Prepared) (entered : bool) : H (result Z unit) :=
  if group_is_containment Linux p entered then kill_group_through_pidfd else ret (Ok tt).

Definition kill_group_before_teardown (p : Prepared) (entered : bool) (why : Diagnosis) : H Diagnosis :=
  do! r := kill_group_before_attach p entered in
  ret match r with Ok _ => why | Err _ => true end.

Definition settle_before_teardown (p : Prepared) : H bool :=
  if cgroup_leaf p then call entered_answer Settle else ret false.

Definition front_subtree (front : option ElevationPlan.Front) (p : Prepared) : H bool :=
  if bool_decide (is_Some front) && cgroup_leaf p then call subtree_answer ReadSubtree else ret false.

(** How a spawn goes on after its fork: with the identity and what was attached, or with the error, a
    front's fate and the child's. *)
Definition adopt_held (pid : Z) (front : option ElevationPlan.Front) (p : Prepared) :
    H (result (Error * option FrontFate * ChildFate) (ProcessId * (Containment * Attached))) :=
  do! subtree := front_subtree front p in
  do! _ := match front with Some _ => note WatchFront | None => ret tt end in
  do2! read, cause := call identity_answer (fun a => ReadIdentity a.1 a.2) in
  do2! resolved, why := resolve_identity read in
  match resolved with
  | Found id =>
      do! attached := call attach_answer AttachTo in
      match attached with
      | Ok a => ret (Ok (id, a))
      | Err e =>
          do2! fate, child_fate := tear_down_held pid front (Some id) false subtree false in
          ret (Err (e, fate, child_fate))
      end
  | other =>
      do! entered := settle_before_teardown p in
      do! why := match front with None => kill_group_before_teardown p entered why | Some _ => ret why end in
      do! _ := match front with Some _ => note DropPrepared | None => ret tt end in
      do2! fate, child_fate := tear_down_held pid front None false subtree why in
      do! _ := match front with None => note DropPrepared | Some _ => ret tt end in
      ret (Err (spawn_identity_error other cause, fate, child_fate))
  end.

End SpawnTeardown.

(** * What a teardown does *)

(** What the calls so far show: whether a kill was tried, taken and delivered; whether the leaf's kill
    reached the front; the status collected; whether the last look saw the child running; whether it
    was seen to be another's; whether it was handed on; the diagnoses and warnings logged; whether the
    leaf has no verdict left to take; whether the containment is dropped; and the identity last read,
    with whether a look through the handle since then shows it to be the child's. *)
Record Seen := seen {
  tried : bool; took : bool; sent : bool; reached : bool; got : option Z; running : bool; lost : bool; handed : bool;
  diagnoses : nat; warnings : nat; settled : bool; dropped : bool; named : option ProcessId; ours : bool }.

Definition fresh (settled dropped : bool) : Seen := seen false false false false None false false false 0 0 settled dropped None false.

Definition is_echild (e : IoError) : bool := bool_decide (raw_os_error e = Some ECHILD).

(** A child dying of a kill. *)
Definition dying (s : Seen) : bool := took s || reached s.

(** A child that may still be looked at. *)
Definition held (s : Seen) : bool := settled s && negb (handed s) && negb (bool_decide (is_Some (got s))).

Definition set_kill (s : Seen) (took sent : bool) : Seen :=
  seen true took sent (reached s) (got s) (running s) (lost s) (handed s) (diagnoses s) (warnings s) (settled s) (dropped s) (named s) (ours s).

Definition set_look (s : Seen) (status : option Z) (runs elsewhere : bool) : Seen :=
  seen (tried s) (took s) (sent s) (reached s) status runs (lost s || elsewhere) (handed s) (diagnoses s) (warnings s) (settled s) (dropped s) (named s) (ours s).

Definition set_reached (s : Seen) (b : bool) : Seen :=
  seen (tried s) (took s) (sent s) b (got s) (running s) (lost s) (handed s) (diagnoses s) (warnings s) (settled s) (dropped s) (named s) (ours s).

Definition set_handed (s : Seen) : Seen :=
  seen (tried s) (took s) (sent s) (reached s) (got s) (running s) (lost s) true (diagnoses s) (warnings s) (settled s) (dropped s) (named s) (ours s).

Definition set_warned (s : Seen) (d : bool) : Seen :=
  seen (tried s) (took s) (sent s) (reached s) (got s) (running s) (lost s) (handed s)
    (if d then S (diagnoses s) else diagnoses s) (S (warnings s)) (settled s) (dropped s) (named s) (ours s).

Definition set_place (s : Seen) (settled dropped : bool) : Seen :=
  seen (tried s) (took s) (sent s) (reached s) (got s) (running s) (lost s) (handed s) (diagnoses s) (warnings s) settled dropped (named s) (ours s).

Definition set_named (s : Seen) (named : option ProcessId) (ours : bool) : Seen :=
  seen (tried s) (took s) (sent s) (reached s) (got s) (running s) (lost s) (handed s) (diagnoses s) (warnings s) (settled s) (dropped s)
    named ours.

Definition shows_ours (a : result IoError PeekOutcome) : bool := match a with Ok (PeekRunning | PeekExit _) => true | _ => false end.

(** A child is killed once, and not once it is collected, and a front never; it is waited for without a
    bound only while it is dying; a collected child is asked nothing; only one whose kill was refused
    is handed on, last. Its leaf's verdict is taken before any of it, its group is killed only before
    its own kill, and a front's containment is dropped before the front is looked at. *)
Definition step (is_front : bool) (s : Seen) (e : Ev) : option Seen :=
  match e with
  | Kill a =>
      if held s && negb is_front && negb (tried s) then
        Some (set_kill s match a with Ok _ => true | Err _ => false end match a with Ok Delivered => true | _ => false end)
      else None
  | TryReap a =>
      if held s && (negb is_front || dropped s) then
        Some (set_look s match a with Ok (Reaped (Status st)) => Some st | _ => None end
                match a with Ok ReapRunning => true | _ => false end
                match a with Ok (ReapForeign _) => true | Err e => is_echild e | _ => false end)
      else None
  | ReapBlocking a =>
      if held s && dying s then
        Some (set_look s match a with Ok (Ok (Status st)) => Some st | _ => None end false
                match a with Ok (Err _) => true | Err e => is_echild e | _ => false end)
      else None
  | ReachedBy a => if held s && is_front then Some (set_reached s match a with Ok b => b | Err _ => false end) else None
  | SlowLook _ | WarnStillWaiting => if dying s || bool_decide (is_Some (got s)) then Some s else None
  | ReapInBackground => if held s && tried s && negb (took s) then Some (set_handed s) else None
  | ReadSubtree _ | WatchFront => if tried s || dropped s then None else Some s
  | ReadIdentity a _ => if tried s || dropped s then None else Some (set_named s match a with Found id => Some id | _ => None end false)
  | Peek a => if tried s then None else Some (set_named s (named s) (shows_ours a))
  | Settle _ => if settled s then None else Some (set_place s true (dropped s))
  | KillGroup _ => if settled s && negb is_front && negb (tried s) && negb (dropped s) then Some s else None
  | AttachTo a =>
      if tried s || dropped s || negb (ours s) then None else Some (set_place s true match a with Ok _ => false | Err _ => true end)
  | DropPrepared => if dropped s then None else Some (set_place s (settled s) true)
  | Warn d => Some (set_warned s d)
  end.

(** What a fate says is so. *)
Definition fate_so (id : option ProcessId) (f : ChildFate) (s : Seen) : Prop :=
  match f with
  | Reaped_ => is_Some (got s)
  | Killed => got s = None /\ dying s = true
  | Running i => i = id /\ got s = None /\ dying s = false /\ running s = true
  | FateGone => got s = None /\ sent s = false /\ reached s = false /\ lost s = true
  | FateUnknown => got s = None /\ dying s = false
  end.

Definition front_so (f : option FrontFate) (cf : ChildFate) : Prop :=
  match f with
  | None => True
  | Some FrontReaped => cf = Reaped_
  | Some FrontLeftUnreaped => exists i, cf = Running i
  | Some FrontUnplaced => cf = FateUnknown
  | Some FrontUnaccounted => cf = Killed \/ cf = FateGone \/ cf = FateUnknown
  end.

(** How a teardown ends. *)
Record ends (front : option ElevationPlan.Front) (id : option ProcessId) (why : Diagnosis) (f : option FrontFate) (cf : ChildFate)
    (s : Seen) : Prop := {
  end_fate : fate_so id cf s;
  end_front : front_so f cf;
  end_of_front : is_Some f <-> is_Some front;
  end_killed : tried s = bool_decide (front = None);
  end_reached : reached s = true -> is_Some front;
  end_handed : handed s = bool_decide (front = None) && negb (took s) && negb (bool_decide (is_Some (got s)));
  end_diagnosed : diagnoses s = if why then 1%nat else 0%nat;
  end_warned : (warnings s <= 1)%nat }.

Section Settled.
  Context `{Sys}.


(** A look's fate. *)
Lemma look_errs id e : fate_looked (Err e) id = if is_echild e then FateGone else FateUnknown.
Proof.
  unfold fate_looked, is_echild. cbn. destruct (raw_os_error e) as [c|]; [|done].
  destruct (Z.eqb_spec c ECHILD) as [->|Hc]; cbn; [done|]. rewrite bool_decide_false; [done|]. by intros [= ->].
Qed.

#[local] Arguments fate_looked : simpl never.

Lemma look_unreadable id : fate_looked (Err unreadable_record) id = FateUnknown.
Proof. done. Qed.

Ltac settle :=
  rewrite ?look_unreadable, ?look_errs; unfold fate_looked, fate_of_a_look, is_echild in *;
  repeat match goal with
  | H : bool_decide (raw_os_error _ = _) = _ |- _ => rewrite ?H; clear H
  | a : Sent |- _ => destruct a
  | |- context [bool_decide (raw_os_error ?e = _)] => destruct (bool_decide (raw_os_error e = _)) eqn:?
  | why : Diagnosis |- _ => destruct why
  | r : ExitRecord |- _ => destruct r
  end; split; cbn; naive_solver (auto with lia).

Lemma tear_down_child pid id warn subtree why gone nm us :
  keeps (step false) (set_named (fresh true gone) nm us) (tear_down_held pid None id warn subtree why)
    (fun r s => ends None id why r.1 r.2 s /\ dropped s = gone /\ named s = nm /\ ours s = us).
Proof.
  unfold tear_down_held, teardown_unadopted_or_front_noting, teardown_unadopted_noting, kill_unadopted, kill, wait_unadopted_warning,
    wait_warning, try_wait, wait, drop_diagnosis, fold.
  keeps_go. all: split_and!; [settle|done..].
Qed.

Lemma tear_down_front pid f id warn subtree why nm us :
  keeps (step true) (set_named (fresh true true) nm us) (tear_down_held pid (Some f) id warn subtree why)
    (fun r s => ends (Some f) id why r.1 r.2 s /\ dropped s = true /\ named s = nm /\ ours s = us).
Proof.
  unfold tear_down_held, teardown_unadopted_or_front_noting, leave_unadopted_front_noting, wait_unadopted_warning, wait_warning,
    try_wait, wait, drop_diagnosis, fold.
  keeps_go. all: split_and!; [settle|done..].
Qed.

(** How a spawn ends after its fork: adopted, with nothing sent or collected, under an identity shown
    to be the child's; or failed, with its child settled and its containment dropped. *)
Definition adoption_ends (front : option ElevationPlan.Front) (r : result (Error * option FrontFate * ChildFate) (ProcessId * (Containment * Attached)))
    (s : Seen) : Prop :=
  match r with
  | Ok (id, _) =>
      named s = Some id /\ ours s = true /\ tried s = false /\ got s = None /\ warnings s = 0%nat /\ settled s = true /\ dropped s = false
  | Err (_, fate, child_fate) =>
      exists id why, ends front id why fate child_fate s /\ dropped s = true
      /\ match id with Some i => named s = Some i /\ ours s = true | None => ours s = false end
  end.

Lemma ends_place front id why f cf s a b : ends front id why f cf s -> ends front id why f cf (set_place s a b).
Proof. by intros []. Qed.

Ltac torn_down lem :=
  repeat match goal with
  | |- context [set_place (set_named (set_named (fresh ?a ?b) ?n ?o) ?n' ?o') ?c ?d] =>
      change (set_place (set_named (set_named (fresh a b) n o) n' o') c d) with (set_named (fresh c d) n' o')
  | |- context [set_place (set_named (fresh ?a ?b) ?n ?o) ?c ?d] =>
      change (set_place (set_named (fresh a b) n o) c d) with (set_named (fresh c d) n o)
  end;
  eapply keeps_mono; [apply lem|]; intros [f' cf'] s' (He & Hd & Hn & Ho); destruct s'; cbn in Hd, Hn, Ho; subst; keeps_go;
  eexists _, _; (split; [first [exact He | exact (ends_place _ _ _ _ _ _ _ _ He)]|cbn; auto]).

Lemma adopt_held_keeps pid front p :
  keeps (step (bool_decide (is_Some front))) (fresh (negb (cgroup_leaf p)) false) (adopt_held pid front p) (adoption_ends front).
Proof.
  unfold adopt_held, front_subtree, resolve_identity, settle_before_teardown, kill_group_before_teardown, kill_group_before_attach,
    kill_group_through_pidfd.
  destruct front as [f|], (cgroup_leaf p); cbn.
  all: keeps_go. all: first [done | by split_and! | torn_down tear_down_front | torn_down tear_down_child].
Qed.

End Settled.

Section HeldChild.
  Context `{Sys}.


End HeldChild.

(** A child whose identity cannot be checked, which refuses its kill and runs on. *)
#[local] Instance demo_sys : Sys := {
  kill_answer _ := Err (from_raw_os_error 1);
  try_reap_answer _ := Ok ReapRunning;
  reap_answer _ := Ok (Err ForeignGone);
  peek_answer _ := Err (from_raw_os_error 5);
  reached_answer _ := Ok false;
  slow_answer _ := false;
  subtree_answer _ := false;
  identity_answer _ := (Found (process_id 70 5), None);
  entered_answer _ := false;
  group_answer _ := Err ESRCH;
  attach_answer _ := Err EContainment
}.

Definition demo_prepared : Prepared := prepared (Some Command.Session) true false false.

Definition demo_trace : list Ev :=
  [ReadIdentity (Found (process_id 70 5)) None; Peek (Err (from_raw_os_error 5)); KillGroup (Err ESRCH);
   Kill (Err (from_raw_os_error 1)); TryReap (Ok ReapRunning); Warn true; TryReap (Ok ReapRunning); ReapInBackground; DropPrepared].

