(* ===== verification/LateTeardown.v ===== *)
(** macOS: the child of a failed spawn, killed and reaped by its pid under its unique id, with its tree:
    [kill_and_reap_noting], [reap_verified], [LateTree], [kill_and_reap_unreported] and
    [abandon_unadopted] of [src/child/spawn.rs]. Each call is recorded with its answer; what a note says
    beyond its kind is left out, and so are the assertions behind a logged breach. *)
From S2P Require Import Prelude Identity IoErrors CrateError History ElevationPlan LeafEnd OsChild ChildCalls Attach.
Local Open Scope Z_scope.

(** [Waited] of [src/wait/macos.rs]. *)
Inductive Waited := Reapable | WaitedGone | WaitedOrphaned | WaitedDeadlinePassed.

(** [KillOutcome], and which sweep a call is. *)
Inductive KillOutcome := KillDelivered | NotSent | KillUnverified | Refused.
Inductive Sweep := RootAlive | RootKilled (zombie : bool).

(** [Reach]: the marker's holders are reached without the root. *)
Inductive Reach := ReachNone | ReachAttached (a : Attached) | ReachHolders.

(** The notes a teardown's one warning carries. *)
Inductive Note :=
| TreeNotKilled
| OnlyItsHolders
| HoldersNotAllKilled
| NotSweptAgain
| TreeMayNotBeKilled
| TreeNotFullyKilled
| Unverifiable
| StillRunning
| NotWaitedFor
| UnreadableReap
| NotReaped
| CouldNotBeKilled
| WasUnverified
| LeftRunning_.

#[export] Instance KillOutcome_eq_dec : EqDecision KillOutcome.
Proof. solve_decision. Defined.
#[export] Instance Note_eq_dec : EqDecision Note.
Proof. solve_decision. Defined.

(** [ResolveIdentity] is the read and the look through the unique id that checks it; the sends to the
    tree look at the root again before each use of its number. *)
Inductive Ev :=
| ResolveIdentity (a : Resolved ProcessId)
| KillTree (m : Attached) (a : result unit bool)
| KillHolders (except : option ProcessId) (a : result unit unit)
| KillByToken (a : result IoError Sent)
| AwaitReapable (bounded : bool) (a : result IoError Waited)
| WarnSlow
| PeekVerified (a : result IoError PeekOutcome)
| TryReap (a : result IoError Reap)
| Warn (notes : list Note).

Notation H := (Hist Ev).

Class Sys := {
  resolve_answer : list Ev -> Resolved ProcessId;
  tree_answer : list Ev -> Attached -> result unit bool;
  holders_answer : list Ev -> option ProcessId -> result unit unit;
  token_answer : list Ev -> result IoError Sent;
  reapable_answer : list Ev -> bool -> result IoError Waited;
  peek_answer : list Ev -> result IoError PeekOutcome;
  reap_answer : list Ev -> result IoError Reap
}.

(** [LateTree]. *)
Record LateTree := late_tree {
  reach : Reach; root_id : option ProcessId; failed : bool; succeeded_after : bool; notes : list Note }.

Section LateTeardown.
  Context `{Sys}.

(** ** The tree *)

(** A tree of its own. *)
Definition has_root (p : Prepared) : bool := bool_decide (is_Some (mode_ p)) && is_root p.

Definition attach (p : Prepared) : H LateTree :=
  if negb (has_root p) then ret (late_tree ReachNone None false false [])
  else
    do! resolved := call resolve_answer ResolveIdentity in
    ret match resolved with
        | Found id => late_tree (ReachAttached (attach_tree Macos id p false).2) (Some id) false false []
        | _ =>
            if marker p then late_tree ReachHolders None false false [OnlyItsHolders]
            else late_tree ReachNone None false false [TreeNotKilled]
        end.

Definition add_note (t : LateTree) (n : Note) : LateTree :=
  late_tree (reach t) (root_id t) (failed t) (succeeded_after t) (notes t ++ [n]).

(** [LateTree::fold]. *)
Definition fold (t : LateTree) (ok : bool) : LateTree :=
  match ok, failed t with
  | false, false => late_tree (reach t) (root_id t) true (succeeded_after t) (notes t)
  | false, true => late_tree (reach t) (root_id t) true false (notes t)
  | true, f => late_tree (reach t) (root_id t) f f (notes t)
  end.

Definition kill_holders_only (except : option ProcessId) : H (result unit unit) :=
  call (fun h => holders_answer h except) (KillHolders except).

(** [LateTree::kill]. *)
Definition sweep (t : LateTree) (s : Sweep) : H LateTree :=
  match reach t, s with
  | ReachNone, _ => ret t
  | ReachAttached a, (RootAlive | RootKilled true) =>
      do! r := call (fun h => tree_answer h a) (KillTree a) in
      ret (fold t match r with Ok complete => complete | Err _ => false end)
  | ReachAttached (FdMarker root _), RootKilled false =>
      do! r := kill_holders_only root in
      ret (add_note match r with Err _ => add_note t HoldersNotAllKilled | Ok _ => t end NotSweptAgain)
  | ReachAttached _, RootKilled false => ret (add_note t NotSweptAgain)
  | ReachHolders, _ =>
      do! r := kill_holders_only None in
      ret (fold t match r with Ok _ => true | Err _ => false end)
  end.

(** [failure_note]. *)
Definition failure_note (t : LateTree) : list Note :=
  if failed t then [if succeeded_after t then TreeMayNotBeKilled else TreeNotFullyKilled] else [].

(** ** The root *)

Definition reap_foreign (f : Foreign) (killed : bool) : ChildFate * list Note :=
  (foreign_fate f killed, match f with ForeignOrphaned => [Unverifiable] | _ => [] end).

Definition reap_verified (id : option ProcessId) (killed : bool) : H (ChildFate * list Note) :=
  do! peeked := call peek_answer PeekVerified in
  match peeked with
  | Err _ => ret (FateUnknown, [Unverifiable])
  | Ok (PeekForeign f) => ret (reap_foreign f killed)
  | Ok PeekRunning => ret (Running id, [StillRunning])
  | Ok (PeekExit _) =>
      do! a := call reap_answer TryReap in
      ret match a with
          | Ok (Reaped (Status _)) => (Reaped_, [])
          | Ok (Reaped (Unreadable _)) => (Reaped_, [UnreadableReap])
          | Ok ReapRunning => (Running id, [StillRunning])
          | Ok (ReapForeign f) => reap_foreign f killed
          | Err _ => (FateUnknown, [NotReaped])
          end
  end.

Definition await_reapable (bounded : bool) : H (result IoError Waited) :=
  call (fun h => reapable_answer h bounded) (AwaitReapable bounded).

(** [await_exit_warning]; [due] says whether there is a threshold. *)
Definition await_exit_warning (due : bool) : H (result IoError Waited) :=
  if due then
    do! found := await_reapable true in
    match found with
    | Ok WaitedDeadlinePassed => do! _ := note WarnSlow in await_reapable false
    | done => ret done
    end
  else await_reapable false.

Definition is_reapable (w : result IoError Waited) : bool := match w with Ok Reapable => true | _ => false end.

(** [kill_and_reap_noting]; [tree] is [after_kill]'s. *)
Definition kill_and_reap_noting (id : option ProcessId) (due : bool) (tree : LateTree) :
    H (ChildFate * KillOutcome * list Note * LateTree) :=
  do! killed := call token_answer KillByToken in
  match killed with
  | Ok Delivered =>
      do! waited := await_exit_warning due in
      do! tree := sweep tree (RootKilled (is_reapable waited)) in
      match waited with
      | Ok Reapable => do2! fate, said := reap_verified id true in ret (fate, KillDelivered, said, tree)
      | Ok WaitedGone => ret (foreign_fate ForeignGone true, KillDelivered, [], tree)
      | Ok WaitedOrphaned => ret (foreign_fate ForeignOrphaned true, KillDelivered, [Unverifiable], tree)
      | Ok WaitedDeadlinePassed => ret (Running id, KillDelivered, [StillRunning], tree)
      | Err _ => ret (Killed, KillDelivered, [NotWaitedFor], tree)
      end
  | Ok SentGone => do! tree := sweep tree (RootKilled false) in ret (foreign_fate ForeignGone false, NotSent, [], tree)
  | Ok Unverified => do! tree := sweep tree (RootKilled false) in ret (Running id, KillUnverified, [], tree)
  | Err _ =>
      do! tree := sweep tree (RootKilled false) in
      do2! fate, said := reap_verified id false in
      ret (fate, Refused, said, tree)
  end.

(** [kill_and_reap_verified], which has no tree to sweep, and warns once if there is a note. *)
Definition no_tree : LateTree := late_tree ReachNone None false false [].

Definition is_running (f : ChildFate) : bool := match f with Running _ => true | _ => false end.

Definition kill_and_reap_verified (id : option ProcessId) (due : bool) : H ChildFate :=
  do! r := kill_and_reap_noting id due no_tree in
  let '(fate, kill, said, _) := r in
  let said := match kill with Refused => CouldNotBeKilled :: said | KillUnverified => WasUnverified :: said | _ => said end in
  let said := if is_running fate then said ++ [LeftRunning_] else said in
  do! _ := (if bool_decide (said = []) then ret tt else note (Warn said)) in
  ret fate.

(** [kill_and_reap_unreported]. *)
Definition kill_and_reap_unreported (p : Prepared) (due : bool) : H (ChildFate * KillOutcome * list Note) :=
  do! tree := attach p in
  do! tree := sweep tree RootAlive in
  do! r := kill_and_reap_noting (root_id tree) due tree in
  let '(fate, kill, said, tree) := r in
  ret (fate, kill, notes tree ++ failure_note tree ++ said).

(** ** A child that was not adopted *)

Inductive Unadoptable := DiedBeforeExec | Late | NotVerified.

(** [abandon_unadopted]: whether the program may have started, with the front's fate and the child's. *)
Definition abandon_unadopted (why : Unadoptable) (front : option ElevationPlan.Front) (p : Prepared) :
    H (option (option FrontFate * ChildFate)) :=
  match why with
  | DiedBeforeExec => do! _ := note (Warn []) in ret None
  | Late =>
      match front with
      | Some _ => do! _ := note (Warn []) in ret (Some (Some FrontLeftUnreaped, Running None))
      | None =>
          do! r := kill_and_reap_unreported p false in
          let '(fate, kill, said) := r in
          do! _ := note (Warn said) in
          ret (Some (None, fate))
      end
  | NotVerified => do! _ := note (Warn []) in ret (Some (match front with Some _ => Some FrontLeftUnreaped | None => None end, Running None))
  end.

End LateTeardown.

(** * What a teardown does *)

(** What the calls so far show: the identity shown to be the child's; whether the tree was killed, and
    killed again once the root was a zombie, and whether one of its kills failed; whether the root's
    kill was tried and delivered; whether the root is shown a zombie; whether the last look found its
    exit; and whether a reap was tried and collected it. *)
Record Seen := seen {
  shown : option ProcessId; swept : bool; again : bool; bad : bool; tried : bool; sent : bool; zombie : bool; peeked : bool;
  reaping : bool; collected : bool }.

Definition nothing_seen : Seen := seen None false false false false false false false false false.

Definition set_shown (id : option ProcessId) : Seen := seen id false false false false false false false false false.

Definition names_root (id : option ProcessId) (m : Attached) : bool :=
  match id, group_of m with Some id, Some g => bool_decide (g = pid id) | Some _, None => true | None, _ => false end.

(** The tree is killed by the root's number only while that names the root: before the root's kill,
    with the identity shown, or once the root is shown a zombie, and never after its reap. The root is
    killed once, waited for only after its kill was delivered, and reaped only right after a look
    showed its exit. *)
Definition step (s : Seen) (e : Ev) : option Seen :=
  match e with
  | ResolveIdentity a =>
      if swept s || tried s then None
      else Some (seen match a with Found id => Some id | _ => None end false false (bad s) false (sent s) (zombie s) false (reaping s) (collected s))
  | KillTree m a =>
      if names_root (shown s) m && negb (reaping s) && (negb (tried s) || zombie s) then
        Some (seen (shown s) (swept s || negb (tried s)) (tried s) (bad s || match a with Ok complete => negb complete | Err _ => true end)
                (tried s) (sent s) (zombie s) false (reaping s) (collected s))
      else None
  | KillHolders _ a =>
      if reaping s then None
      else Some (seen (shown s) (swept s || negb (tried s)) (again s) (bad s || match a with Ok _ => false | Err _ => true end)
                   (tried s) (sent s) (zombie s) false (reaping s) (collected s))
  | KillByToken a =>
      if tried s then None
      else Some (seen (shown s) (swept s) (again s) (bad s) true match a with Ok Delivered => true | _ => false end (zombie s) false
                   (reaping s) (collected s))
  | AwaitReapable _ a =>
      if sent s && negb (reaping s) then
        Some (seen (shown s) (swept s) (again s) (bad s) (tried s) (sent s) (is_reapable a) false (reaping s) (collected s))
      else None
  | WarnSlow => if sent s then Some s else None
  | PeekVerified a =>
      if tried s && negb (reaping s) then
        Some (seen (shown s) (swept s) (again s) (bad s) (tried s) (sent s) (zombie s) match a with Ok (PeekExit _) => true | _ => false end
                (reaping s) (collected s))
      else None
  | TryReap a =>
      if peeked s && negb (reaping s) then
        Some (seen (shown s) (swept s) (again s) (bad s) (tried s) (sent s) (zombie s) false true match a with Ok (Reaped _) => true | _ => false end)
      else None
  | Warn _ => Some s
  end.

(** What a fate says is so. *)
Definition fate_so (id : option ProcessId) (f : ChildFate) (s : Seen) : Prop :=
  match f with
  | Reaped_ => collected s = true
  | Killed => collected s = false /\ sent s = true
  | Running i => collected s = false /\ i = id
  | FateGone => collected s = false /\ sent s = false
  | FateUnknown => collected s = false
  end.

Definition of_tree (n : Note) : bool :=
  match n with
  | TreeNotKilled | OnlyItsHolders | HoldersNotAllKilled | NotSweptAgain | TreeMayNotBeKilled | TreeNotFullyKilled => true
  | _ => false
  end.

(** A tree nothing is said of was killed in full, before its root and after it. *)
Definition tree_so (p : Prepared) (said : list Note) (s : Seen) : Prop :=
  has_root p = true -> Forall (fun n => of_tree n = false) said -> is_Some (shown s) /\ swept s = true /\ again s = true /\ bad s = false.

Section Torn.
  Context `{Sys}.

Lemma attach_names_root p id : has_root p = true -> names_root (Some id) (attach_tree Macos id p false).2 = true.
Proof.
  unfold has_root, attach_tree. destruct (mode_ p) as [[]|], (is_root p), (marker p); cbn; try done;
    by rewrite ?bool_decide_true.
Qed.

Notation keeps := (keeps step).

(** The tree a teardown holds, as the calls show it. *)
Record tree_now (t : LateTree) (s : Seen) : Prop := {
  now_id : root_id t = shown s;
  now_reach : match reach t with
              | ReachAttached a => names_root (shown s) a = true
              | ReachHolders => OnlyItsHolders ∈ notes t
              | ReachNone => True
              end;
  now_bad : bad s = true -> failed t = true \/ HoldersNotAllKilled ∈ notes t }.

Definition has_reach (t : LateTree) : bool := match reach t with ReachNone => false | _ => true end.

(** What a sweep leaves as it was, and what it adds. *)
Record swept_ (w : Sweep) (t : LateTree) (s : Seen) (t' : LateTree) (s' : Seen) : Prop := {
  sw_now : tree_now t' s';
  sw_same : shown s' = shown s /\ tried s' = tried s /\ sent s' = sent s /\ zombie s' = zombie s /\ reaping s' = false
            /\ collected s' = collected s;
  sw_reach : reach t' = reach t;
  sw_notes : forall n, n ∈ notes t -> n ∈ notes t';
  sw_swept : swept s' = swept s || (match w with RootAlive => has_reach t | _ => false end);
  sw_again : match w, reach t with
             | RootKilled true, ReachAttached _ => again s' = true
             | RootKilled false, ReachAttached _ => NotSweptAgain ∈ notes t'
             | _, _ => True
             end }.

Lemma fold_now t s s' ok :
  tree_now t s -> shown s' = shown s -> bad s' = bad s || negb ok -> tree_now (fold t ok) s'.
Proof.
  intros [Hi Hr Hb] Hs Hb'. split; [destruct t as [r i f a n], ok, f; cbn in *; congruence| |].
  - rewrite Hs. by destruct t as [r i f a n], ok, f.
  - rewrite Hb'. destruct t as [r i f a n], ok, f; cbn in *; rewrite ?orb_false_r; auto.
Qed.

Lemma fold_same t ok : reach (fold t ok) = reach t /\ notes (fold t ok) = notes t.
Proof. by destruct t as [r i [] a n], ok. Qed.

Lemma now_ext t s s' : tree_now t s -> shown s' = shown s -> bad s' = bad s -> tree_now t s'.
Proof. intros [Hi Hr Hb] Hs Hb'. split; rewrite ?Hs, ?Hb'; done. Qed.

Lemma add_note_now t s n : tree_now t s -> tree_now (add_note t n) s.
Proof.
  intros [Hi Hr Hb]. split; [done| |].
  - cbn. destruct (reach t); [done|done|]. apply elem_of_app. by left.
  - intros Hx. destruct (Hb Hx); [by left|]. right. apply elem_of_app. by left.
Qed.

Lemma added t n : n ∈ notes (add_note t n).
Proof. apply elem_of_app. right. by left. Qed.

Lemma added_keeps t n m : m ∈ notes t -> m ∈ notes (add_note t n).
Proof. intros Hm. apply elem_of_app. by left. Qed.

(** A tree whose root is not shown a zombie once its kill was tried. *)
Lemma unswept_keeps t s a :
  tree_now t s -> reaping s = false -> tried s = true -> zombie s = false -> reach t = ReachAttached a ->
  keeps s (sweep t (RootKilled false)) (swept_ (RootKilled false) t s).
Proof.
  intros Hn Hr Ht Hz Ha. unfold sweep. rewrite Ha.
  assert (Hplain : keeps s (ret (add_note t NotSweptAgain)) (swept_ (RootKilled false) t s)).
  { keeps_step. split; [by apply add_note_now|by split_and!|done|intros n; apply added_keeps|by rewrite orb_false_r|].
    rewrite Ha. apply added. }
  destruct a as [| | | | |root pgid|]; try done. unfold kill_holders_only. do 2 keeps_step. eexists. split; [cbn; by rewrite Hr|].
  keeps_step.
  rewrite Ht. destruct a as [u|u].
  - rewrite !orb_false_r. split; [|by split_and!|done|intros n; apply added_keeps|by cbn; rewrite orb_false_r|rewrite Ha; apply added].
    apply add_note_now. by apply now_ext with s.
  - split; [|by split_and!|done|intros n Hx; by do 2 apply added_keeps|done|rewrite Ha; apply added].
    destruct Hn as [Hi Hrch Hb]. split; [done| |].
    + cbn. rewrite Ha in *. done.
    + intros _. right. apply added_keeps, added.
Qed.

Lemma sweep_keeps w t s :
  tree_now t s -> reaping s = false ->
  match w with RootAlive => tried s = false | RootKilled z => tried s = true /\ zombie s = z end ->
  keeps s (sweep t w) (swept_ w t s).
Proof.
  intros Hn Hr Hw. pose proof Hn as [Hi Hrch Hb]. unfold sweep, kill_holders_only.
  assert (Htree : forall a, reach t = ReachAttached a -> w <> RootKilled false ->
    keeps s (do! r := call (fun h => tree_answer h a) (KillTree a) in ret (fold t match r with Ok complete => complete | Err _ => false end))
      (swept_ w t s)).
  { intros a Ha Hf. rewrite Ha in Hrch. assert (Hgo : negb (tried s) || zombie s = true)
      by (destruct w as [|[]]; [by rewrite Hw|by destruct Hw as [_ ->]; rewrite orb_true_r|done]).
    do 2 keeps_step. eexists. split; [cbn; by rewrite Hrch, Hr, Hgo|]. keeps_step.
    set (ok := match a0 with Ok complete => complete | Err _ => false end). destruct (fold_same t ok) as [Hfr Hfn].
    split; [apply fold_now with s; [done|done|by subst ok; destruct a0]|by split_and!|done|by rewrite Hfn|..].
    - cbn. unfold has_reach. rewrite Ha. destruct w as [|[]]; [by rewrite Hw|by destruct Hw as [-> _]|done].
    - rewrite Ha. destruct w as [|[]]; [done|by destruct Hw as [Hw _]|done]. }
  assert (Hheld : reach t = ReachHolders ->
    keeps s (do! r := kill_holders_only None in ret (fold t match r with Ok _ => true | Err _ => false end)) (swept_ w t s)).
  { intros Ha. unfold kill_holders_only. do 2 keeps_step. eexists. split; [cbn; by rewrite Hr|]. keeps_step.
    set (ok := match a with Ok _ => true | Err _ => false end). destruct (fold_same t ok) as [Hfr Hfn].
    split; [apply fold_now with s; [done|done|by subst ok; destruct a]|by split_and!|done|by rewrite Hfn|..].
    - cbn. unfold has_reach. rewrite Ha. destruct w as [|[]]; [by rewrite Hw|by destruct Hw as [-> _]|by destruct Hw as [-> _]].
    - rewrite Ha. by destruct w as [|[]]. }
  destruct (reach t) as [|a|] eqn:Ea; [|destruct w as [|[]]|by apply Hheld].
  - keeps_step. split; [done|by split_and!|done|done| |by rewrite Ea; destruct w as [|[]]].
    unfold has_reach. rewrite Ea. by destruct w; rewrite orb_false_r.
  - destruct a; by apply Htree.
  - destruct a; by apply Htree.
  - destruct Hw as [Ht Hz]. pose proof (unswept_keeps t s a Hn Hr Ht Hz Ea) as Hu. unfold sweep in Hu. by rewrite Ea in Hu.
Qed.

(** The reap keeps all but the reap. *)
Definition same_tree (s s' : Seen) : Prop :=
  shown s' = shown s /\ swept s' = swept s /\ again s' = again s /\ bad s' = bad s /\ tried s' = tried s /\ sent s' = sent s.

Lemma reap_verified_keeps id s :
  tried s = true -> reaping s = false -> collected s = false ->
  keeps s (reap_verified id (sent s)) (fun r s' => fate_so id r.1 s' /\ same_tree s s').
Proof.
  intros Ht Hr Hc. destruct s as [sh sw ag bd tr se zo pe re co]; cbn in *; subst. unfold reap_verified, reap_foreign, foreign_fate.
  keeps_go. all: (split; [|by split_and!]). all: try done. all: destruct se; try done.
  all: by destruct a as [[[]| |]|]; cbn; repeat case_match.
Qed.

(** What a teardown's tree is after its root's kill. *)
Definition tree_after (t : LateTree) (s : Seen) (t' : LateTree) (s' : Seen) : Prop :=
  tree_now t' s' /\ (forall n, n ∈ notes t -> n ∈ notes t') /\ shown s' = shown s /\ swept s' = swept s /\ tried s' = true
  /\ (forall a, reach t = ReachAttached a -> again s' = true \/ NotSweptAgain ∈ notes t').

Lemma swept_after z t s s0 t' s' :
  swept_ (RootKilled z) t s0 t' s' -> tried s0 = true -> shown s0 = shown s -> swept s0 = swept s ->
  tree_after t s t' s'.
Proof.
  intros [Hn (Hs & Ht & _) _ Hin Hw Ha] Ht0 Hs0 Hw0. split_and!; [done|done|congruence|by rewrite Hw, orb_false_r|congruence|].
  intros a Hr. rewrite Hr in Ha. destruct z; auto.
Qed.

Lemma tree_after_same t s t' s1 s2 : tree_after t s t' s1 -> same_tree s1 s2 -> tree_after t s t' s2.
Proof.
  intros (Hn & Hin & Hs & Hw & Ht & Ha) (Es & Ew & Ea & Eb & Et & _).
  split_and!; [by apply now_ext with s1|done|congruence|congruence|congruence|]. intros a Hr. rewrite Ea. eauto.
Qed.

Lemma await_keeps due s :
  sent s = true -> tried s = true -> reaping s = false -> collected s = false ->
  keeps s (await_exit_warning due) (fun w s' => same_tree s s' /\ zombie s' = is_reapable w /\ reaping s' = false /\ collected s' = false).
Proof.
  intros Hs Ht Hr Hc. destruct s as [sh sw ag bd tr se zo pe re co]; cbn in *; subst. unfold await_exit_warning, await_reapable.
  destruct due; keeps_go; by split_and!.
Qed.

(** The fate, what became of the kill, and the tree. *)
Definition torn_so (id : option ProcessId) (t : LateTree) (s : Seen) (r : ChildFate * KillOutcome * list Note * LateTree) (s' : Seen) : Prop :=
  let '(fate, kill, _, t') := r in fate_so id fate s' /\ tree_after t s t' s' /\ (sent s' = true <-> kill = KillDelivered).

Lemma noting_keeps id due t s :
  tree_now t s -> tried s = false -> sent s = false -> zombie s = false -> reaping s = false -> collected s = false ->
  keeps s (kill_and_reap_noting id due t) (torn_so id t s).
Proof.
  intros Hn Ht Hs Hz Hr Hc. unfold kill_and_reap_noting. do 2 keeps_step. eexists. split; [cbn; by rewrite Ht|].
  set (s0 := seen _ _ _ _ true _ _ _ _ _). assert (Hn0 : tree_now t s0) by (by apply now_ext with s).
  assert (Hunswept : forall (k : LateTree -> Hist Ev (ChildFate * KillOutcome * list Note * LateTree)),
    (forall t' s', tree_after t s t' s' -> tried s' = true -> reaping s' = false -> collected s' = false -> sent s' = sent s0 ->
      keeps s' (k t') (torn_so id t s)) -> keeps s0 (do! tree := sweep t (RootKilled false) in k tree) (torn_so id t s)).
  { intros k Hk. keeps_step. keeps_use (sweep_keeps (RootKilled false)); [done|done|by split|]. intros t' s' Hw.
    pose proof (sw_same _ _ _ _ _ Hw) as (Es & Et & Ese & Ez & Er & Ec). apply Hk; [by apply (swept_after _ _ _ _ _ _ Hw)|..]; cbn in *; congruence. }
  destruct a as [[| |]|e].
  - keeps_step. keeps_use await_keeps; [done..|]. intros w s1 (Hsame & Hz1 & Hr1 & Hc1).
    destruct Hsame as (Es & Ew & Ea & Eb & Et & Ese). keeps_step.
    keeps_use (sweep_keeps (RootKilled (is_reapable w))); [by apply now_ext with s0|done|by split|]. intros t' s' Hw.
    pose proof (sw_same _ _ _ _ _ Hw) as (Es' & Et' & Ese' & Ez' & Er' & Ec').
    assert (Hta : tree_after t s t' s') by (by apply (swept_after _ _ _ _ _ _ Hw)).
    assert (Hse : sent s' = true) by (rewrite Ese', Ese; done).
    destruct w as [[]|e]; [|by keeps_step; split_and!; [split; congruence|done|by split]..].
    keeps_step. rewrite <- Hse. keeps_use reap_verified_keeps; [by rewrite Et', Et|congruence..|]. intros [fate said] s2 [Hf Hsame]. keeps_step.
    split_and!; [done|by eapply tree_after_same|]. destruct Hsame as (_ & _ & _ & _ & _ & Hx). rewrite Hx, Hse. by split.
  - apply Hunswept. intros t' s' Hta Ht' Hr' Hc' Hs'. keeps_step. split_and!; [by split|done|by rewrite Hs'].
  - apply Hunswept. intros t' s' Hta Ht' Hr' Hc' Hs'. keeps_step. split_and!; [by split|done|by rewrite Hs'].
  - apply Hunswept. intros t' s' Hta Ht' Hr' Hc' Hs'. keeps_step. assert (Hse : sent s' = false) by (by rewrite Hs').
    rewrite <- Hse. keeps_use reap_verified_keeps; [done..|]. intros [fate said] s2 [Hf Hsame]. keeps_step.
    split_and!; [done|by eapply tree_after_same|]. destruct Hsame as (_ & _ & _ & _ & _ & Hx). rewrite Hx, Hse. by split.
Qed.

Lemma attach_keeps p :
  keeps nothing_seen (attach p) (fun t s => tree_now t s /\ s = set_shown (root_id t)
    /\ (has_root p = true -> (exists a, reach t = ReachAttached a) \/ exists n, n ∈ notes t /\ of_tree n = true)).
Proof.
  unfold attach. destruct (has_root p) eqn:Er; cbn; [|by keeps_step; split_and!; [split|..]].
  do 2 keeps_step. eexists. split; [reflexivity|]. keeps_step. destruct a as [id| |].
  - split_and!; [split; [done|by apply attach_names_root|done]|done|]. intros _. left. by eexists.
  - destruct (marker p); (split_and!; [split; [done|try done; by left|done]|done|]); intros _; right; eexists; (split; [by left|done]).
  - destruct (marker p); (split_and!; [split; [done|try done; by left|done]|done|]); intros _; right; eexists; (split; [by left|done]).
Qed.

Lemma late_keeps p due :
  keeps nothing_seen (kill_and_reap_unreported p due) (fun r s =>
    let '(fate, kill, said) := r in fate_so (shown s) fate s /\ tree_so p said s /\ (sent s = true <-> kill = KillDelivered)).
Proof.
  unfold kill_and_reap_unreported. keeps_step. keeps_use attach_keeps. intros t s (Hn & -> & Hroot). keeps_step.
  keeps_use (sweep_keeps RootAlive); [done..|]. intros t1 s1 Hw.
  pose proof (sw_same _ _ _ _ _ Hw) as (Es & Et & Ese & Ez & Er & Ec). pose proof (sw_now _ _ _ _ _ Hw) as Hn1.
  keeps_step. keeps_use noting_keeps; [done..|]. intros [[[fate kill] said] t2] s2 (Hf & Hta & Hk). keeps_step.
  destruct Hta as (Hn2 & Hin & Hs2 & Hsw2 & Ht2 & Ha2). split_and!; [by rewrite Hs2, <- (now_id _ _ Hn1)| |done].
  intros Hr Hquiet. apply Forall_app in Hquiet as [Hq [Hqf _]%Forall_app]. rewrite Forall_forall in Hq, Hqf.
  assert (Hno : forall n, n ∈ notes t2 -> of_tree n = true -> False) by (intros n Hx Hy; specialize (Hq n Hx); congruence).
  destruct (Hroot Hr) as [[a Ha]|(n & Hx & Hy)]; [|by destruct (Hno n); [apply Hin, (sw_notes _ _ _ _ _ Hw)|]].
  assert (Ha1 : reach t1 = ReachAttached a) by (by rewrite (sw_reach _ _ _ _ _ Hw)).
  split_and!.
  - rewrite Hs2, Es. pose proof (now_reach _ _ Hn) as Hx. rewrite Ha in Hx. by destruct (root_id t); [eexists|].
  - rewrite Hsw2, (sw_swept _ _ _ _ _ Hw). unfold has_reach. rewrite Ha. apply orb_true_r.
  - destruct (Ha2 a Ha1) as [|Hx]; [done|by destruct (Hno _ Hx)].
  - destruct (bad s2) eqn:Eb; [|done]. destruct (now_bad _ _ Hn2 Eb) as [Hfl|Hx]; [|by destruct (Hno _ Hx)].
    unfold failure_note in Hqf. rewrite Hfl in Hqf. specialize (Hqf _ ltac:(by left)). by destruct (succeeded_after t2).
Qed.

(** MacOS: whatever the system answers, a child whose id came late is killed once, through that id,
    and its tree before it. The tree is killed by the root's number only while the number names the
    root: with the identity shown to be the child's before the kill, or with the root shown a zombie
    after it, and never after the reap; the reap comes right after a look that showed the exit. The
    fate is what the answers show, and a contained tree that no note speaks of was killed in full
    both before its root and after it. An elevation front is sent nothing. *)
Theorem late_child_torn_down p due h :
  (forall fate kill said t, runs (kill_and_reap_unreported p due) h (fate, kill, said) t ->
    exists s, accepts step nothing_seen t = Some s /\ fate_so (shown s) fate s /\ tree_so p said s /\ (sent s = true <-> kill = KillDelivered))
  /\ (forall id fate t, runs (kill_and_reap_verified id due) h fate t ->
    exists s, accepts step nothing_seen t = Some s /\ fate_so id fate s)
  /\ (forall why f r t, runs (abandon_unadopted why (Some f) p) h r t -> t = [Warn []]).
Proof.
  split_and!.
  - intros fate kill said t Hr. exact (keeps_runs _ _ _ _ _ _ _ (late_keeps p due) Hr).
  - intros id fate t Hr. refine (keeps_runs _ _ _ (fun f s => fate_so id f s) _ _ _ _ Hr). unfold kill_and_reap_verified. keeps_step.
    keeps_use noting_keeps; [done..|]. intros [[[f k] said] t'] s (Hf & _). keeps_step.
    eapply keeps_mono with (Q := fun _ s' => s' = s); [case_match; by keeps_step|]. intros [] s' ->. by keeps_step.
  - intros why f r t Hr. by destruct why; injection Hr as _ Ht%app_inv_head.
Qed.

End Torn.

(** A contained child that takes its kill. *)
#[local] Instance demo_sys : Sys := {
  resolve_answer _ := Found (process_id 70 5);
  tree_answer _ _ := Ok true;
  holders_answer _ _ := Ok tt;
  token_answer _ := Ok Delivered;
  reapable_answer _ _ := Ok Reapable;
  peek_answer _ := Ok (PeekExit (Status 9));
  reap_answer _ := Ok (Reaped (Status 9))
}.

Definition demo_prepared : Prepared := prepared (Some Command.Strongest) true false false.

Definition demo_trace : list Ev :=
  [ResolveIdentity (Found (process_id 70 5)); KillTree (ProcessGroup 70) (Ok true); KillByToken (Ok Delivered);
   AwaitReapable false (Ok Reapable); KillTree (ProcessGroup 70) (Ok true); PeekVerified (Ok (PeekExit (Status 9)));
   TryReap (Ok (Reaped (Status 9)))].

Lemma late_child_torn_down_witness :
  runs (kill_and_reap_unreported demo_prepared false) [] (Reaped_, KillDelivered, []) demo_trace
  /\ (exists s, accepts step nothing_seen demo_trace = Some s /\ swept s = true /\ again s = true /\ bad s = false)
  /\ accepts step nothing_seen (demo_trace ++ [KillTree (ProcessGroup 70) (Ok true)]) = None.
Proof.
  assert (Hr : runs (kill_and_reap_unreported demo_prepared false) [] (Reaped_, KillDelivered, []) demo_trace) by reflexivity.
  split; [exact Hr|]. split; [|by vm_compute].
  destruct (late_child_torn_down demo_prepared false []) as (Hall & _ & _).
  destruct (Hall _ _ _ _ Hr) as (s & Hs & _ & Ht & _). exists s. split; [exact Hs|].
  destruct (Ht eq_refl (Forall_nil_2 _)) as (_ & Hsw & Ha & Hb). by split_and!.
Defined.
