(* ===== verification/SpawnFailure.v ===== *)
(** A failed spawn's answer to whether the program could have started, [src/child/spawn/failure.rs],
    and the end of a POSIX elevated spawn whose password was not written: [finish_elevated] of
    [src/child/spawn.rs], over the operations of ChildOps. The texts of notes are left out. *)
From S2P Require Import Prelude Identity IoErrors CrateError History LeafEnd ElevationPlan OsChild ChildCalls OwnedTeardown TreeCall ChildOps ChildPolicy.
Local Open Scope Z_scope.

Notation H := (Hist Ev).

(** * A failed spawn *)

Inductive SpawnFailure :=
| NotStarted (e : Error)
| NotStartedWithChild (cause : Error) (fate : ChildFate)
| NotStartedUnreaped (e : Error)
| SpawnMayHaveStarted (cause : Error) (fate : ChildFate) (wrapper_elevated : bool).

Definition started (cause : Error) (fate : ChildFate) : SpawnFailure := SpawnMayHaveStarted cause fate false.

Definition map (f : Error -> Error) (self : SpawnFailure) : SpawnFailure :=
  match self with
  | NotStarted e => NotStarted (f e)
  | NotStartedWithChild cause fate => NotStartedWithChild (f cause) fate
  | NotStartedUnreaped e => NotStartedUnreaped (f e)
  | SpawnMayHaveStarted cause fate w => SpawnMayHaveStarted (f cause) fate w
  end.

Definition behind_wrapper (self : SpawnFailure) : SpawnFailure :=
  match self with SpawnMayHaveStarted cause fate _ => SpawnMayHaveStarted cause fate true | not_started => not_started end.

Definition answered_by (f : Error -> Error * ChildFate) (self : SpawnFailure) : SpawnFailure :=
  match self with
  | SpawnMayHaveStarted cause _ w => let (cause, fate) := f cause in SpawnMayHaveStarted cause fate w
  | not_started => not_started
  end.

Definition error_of (self : SpawnFailure) : Error :=
  match self with
  | NotStarted e | NotStartedUnreaped e | SpawnMayHaveStarted e _ _ => e
  | NotStartedWithChild cause _ => cause
  end.

Definition left_child_unreaped (self : SpawnFailure) : bool := match self with NotStartedUnreaped _ => true | _ => false end.

Definition ended_child (self : SpawnFailure) : option ChildFate :=
  match self with
  | NotStartedWithChild _ fate | SpawnMayHaveStarted _ fate _ =>
      match fate with Reaped_ | Killed | FateGone => Some fate | _ => None end
  | _ => None
  end.

(** [Error::from]. *)
Definition into_error (self : SpawnFailure) : Error :=
  match self with
  | NotStarted e | NotStartedUnreaped e => e
  | NotStartedWithChild e _ => e
  | SpawnMayHaveStarted cause fate w => MayHaveStarted fate w cause
  end.

Definition after_the_spawn (cause : Error) (fate : ChildFate) (wrapper : bool) : Error :=
  let failure := started cause fate in into_error (if wrapper then behind_wrapper failure else failure).

(** [Classify::not_started]. *)
Definition not_started {A} (r : result Error A) : result SpawnFailure A :=
  match r with Ok a => Ok a | Err e => Err (NotStarted e) end.

(** * A password that was not written *)

Section Finish.
  Context `{Sys}.

(** The root's kill, once the tree's was tried: its answer. *)
Definition finish_root (c : Child) (gate : Gate) : H (result Error Sent) :=
  match gate with
  | CgroupOnly =>
      do! killed := is_set in
      if killed : bool then do! r := child_cgroup_kill_reached c in ret match r with Ok _ => Ok Delivered | Err e => Err e end
      else ret (Err (cgroup_not_killed_of (front c)))
  | Closed unkillable => ret (Err unkillable)
  | _ => kill_sent_gated c gate
  end.

(** The root's fate, whether it is settled, and what is left to say of it. *)
Definition settle_root (c : Child) (gate : Gate) : H (ChildFate * bool * list LeftWhat) :=
  do! root := finish_root c gate in
  match root with
  | Ok SentGone => ret (FateGone, true, [])
  | Ok Unverified => ret (Running (Some (id c)), true, [])
  | Ok Delivered =>
      do! w := wait_root_unbounded in
      ret match w with Ok _ => (Reaped_, true, []) | Err _ => (Killed, false, [ReapFailed_]) end
  | Err _ =>
      do! looked := wait_root true in
      ret (fate_of_a_look match looked with Ok s => Ok s | Err e => Err (error_raw_os_error e) end (Some (id c)), is_closed gate, [])
  end.

(** The cleanup: the child's fate, and the handle it drops. *)
Definition finish_failed (c : Child) : H (ChildFate * Child) :=
  do! gate := child_kill_gate c in
  do! view := read_view (id c) in
  do! tree :=
    (if can_teardown (containment c) && negb (is_closed gate) then
       do! _ := hold in
       do! r := hard_kill_marking_unless_reaped (attached c) view in
       do! _ := release in
       ret (Some r)
     else ret None) in
  do! killed := is_set in
  let tree_failed := match tree with Some (Err _) => true | _ => false end in
  let skipped := match tree with Some (Ok b) => b | _ => false end in
  let tree_settled := match tree with None => true | Some _ => false end || killed || (skipped && leaves_root_alone view) in
  do! root :=
    (if unpinned_root view then ret (foreign_fate ForeignGone false, true, []) else settle_root c gate) in
  let '(fate, root_settled, left_) := root in
  let parts := report_parts view false tree_failed left_ in
  do! _ := emit parts [] in
  ret (fate, child_ (id c) (attached c) (front c) (wrapper c) (containment c)
               (kill_on_drop c && negb (tree_settled && root_settled)) parts).

(** [finish_elevated]: a failed write ends the child, whose handle is dropped. *)
Definition finish_elevated (c : Child) (written : result Error unit) : H (result SpawnFailure Child) :=
  match written with
  | Ok _ => ret (Ok c)
  | Err _ =>
      do2! fate, c := finish_failed c in
      do! _ := drop_child c in
      ret (Err (started (Elevation AuthFailed) fate))
  end.

End Finish.

(** * What the cleanup keeps to *)

Section Kept.
  Context `{Sys}.
  Variable relays : bool.

Notation keeps := (keeps (step relays false false)).

Lemma kill_unless_reaped_keeps a v s :
  held s = true -> viewed v s -> may_kill_tree a s ->
  keeps s (hard_kill_marking_unless_reaped a v) (fun _ s' => looks_on s s').
Proof.
  intros Hh Hv Hk. unfold hard_kill_marking_unless_reaped. keeps_step. keeps_use drop_reach_keeps; [done|done|]. intros r s1 (G1 & _ & N1).
  assert (Hh1 : held s1 = true) by (rewrite (go_held _ _ (proj1 G1)); done).
  assert (Hk1 : may_kill_tree a s1) by (unfold may_kill_tree; by rewrite (proj2 G1)).
  destruct r; keeps_step.
  - keeps_use hard_kill_marking_keeps; [apply tree_ok_known; [done|by left|auto|done]|]. intros x s2 ->. by keeps_step.
  - keeps_use mark_keeps. intros x s2 ->. by keeps_step.
  - keeps_use kill_holders_of_keeps.
    { intros Hn. destruct Hk1 as [?|[Hc _]]; [done|]. by destruct a. }
    intros x s2 [G2 P2]. keeps_step. by apply (looks_on_trans s s1 s2).
Qed.

Hypothesis Hlinux : platform = Linux.

Lemma finish_root_keeps c g s :
  held s = false -> pinned s = true -> tracks c s -> gated c g s ->
  keeps s (finish_root c g) (fun r s' => goes_on s s' /\ (r = Ok Delivered -> ended s' = true)).
Proof.
  intros Hh Hp Ht Hg. unfold finish_root.
  assert (Hgate : keeps s (kill_sent_gated c g) (fun r s' => goes_on s s' /\ (r = Ok Delivered -> ended s' = true))).
  { keeps_use kill_sent_gated_keeps; [done..|]. intros r s' [G E]. split; [done|]. intros ->. apply E. eauto. }
  destruct g; [done|done| |keeps_step; split; [apply goes_on_refl|done]].
  keeps_step. keeps_use is_set_keeps. intros [] s' ->; [|keeps_step; split; [apply goes_on_refl|done]].
  keeps_step. keeps_use cgroup_kill_reached_keeps; [done|]. intros r s1 (G1 & _ & E1). keeps_step. split; [done|].
  destruct r as [[]|]; [by intros _; apply E1|done].
Qed.

Lemma settle_root_keeps c g s :
  held s = false -> pinned s = true -> tracks c s -> gated c g s -> keeps s (settle_root c g) (fun _ s' => goes_on s s').
Proof.
  intros Hh Hp Ht Hg. unfold settle_root. keeps_step. keeps_use finish_root_keeps; [done..|]. intros root s1 (G1 & E1).
  assert (Hh1 : held s1 = false) by (by rewrite (go_held _ _ G1)). assert (Hp1 : pinned s1 = true) by (by apply (go_linux _ _ G1)).
  destruct root as [[| |]|e]; [|by keeps_step..|].
  - keeps_step. keeps_use wait_root_unbounded_keeps; [done|done|by apply E1|]. intros w s2 G2. keeps_step. by eapply goes_on_trans.
  - unfold wait_root. do 2 keeps_step. keeps_use wait_keeps; [done|done|]. intros w s2 (G2 & _). do 2 keeps_step. by eapply goes_on_trans.
Qed.

Lemma finish_failed_keeps c s :
  held s = false -> pinned s = true -> tracks c s -> keeps s (finish_failed c) (fun r s' => goes_on s s' /\ front r.2 = front c).
Proof.
  intros Hh Hp Ht. unfold finish_failed. keeps_step. keeps_use kill_gate_keeps; [done|done|]. intros g s1 (G1 & _ & _ & Hg).
  assert (Hh1 : held s1 = false) by (by rewrite (go_held _ _ G1)). keeps_step. keeps_use read_view_keeps; [done|]. intros v s2 [G2 Hv].
  assert (Hh2 : held s2 = false) by (by rewrite (go_held _ _ (proj1 G2))).
  assert (G : goes_on s s2) by (eapply goes_on_trans; [done|apply G2]). assert (Ht2 := tracks_on c s s2 Ht G).
  assert (Hg2 : gated c g s2) by (apply (gated_on c g s1 s2); [apply G2|apply G2|done]).
  keeps_step. apply keeps_mono with (Q := fun _ s3 => goes_on s2 s3 /\ now_ s3 = now_ s2).
  - destruct (can_teardown (containment c) && negb (is_closed g)) eqn:Ec; [|keeps_step; by split; [apply goes_on_refl|]].
    apply andb_true_iff in Ec as [_ Ec%negb_true_iff].
    keeps_step. keeps_use hold_keeps; [done|]. intros u s3 (n & -> & Hn). specialize (Hn eq_refl). subst n. set (s3 := st true _ _ _ _).
    keeps_step. keeps_use (kill_unless_reaped_keeps (attached c) v s3);
      [done|exact Hv|apply (gated_may c g s2 Ht2 Hg2); rewrite Ec; by intros []|].
    intros r s4 G4. keeps_step. keeps_use release_keeps; [by rewrite (go_held _ _ (proj1 G4))|]. intros u2 s5 ->. keeps_step.
    split; [exact (bracket s2 (num s2) s4 Hh2 (proj1 G4))|]. cbn. by rewrite (proj2 G4).
  - intros tree s3 [G3 N3]. assert (Hg3 := gated_on c g s2 s3 G3 N3 Hg2). assert (G03 : goes_on s s3) by (by eapply goes_on_trans).
    assert (Hh3 : held s3 = false) by (by rewrite (go_held _ _ G03)). assert (Hp3 : pinned s3 = true) by (by apply (go_linux _ _ G03)).
    keeps_step. keeps_use is_set_keeps. intros killed s4 ->. cbv zeta. keeps_step.
    apply keeps_mono with (Q := fun _ s5 => goes_on s s5).
    + destruct (unpinned_root v); [by keeps_step|]. keeps_use settle_root_keeps; [done|done|by apply (tracks_on c s s3)|done|].
      intros r s5 G5. by eapply goes_on_trans.
    + intros [[fate settled] left_] s5 G5. keeps_step. keeps_use emit_keeps. intros u s6 ->. by keeps_step.
Qed.

End Kept.

(** * The handle it leaves *)

Section Left.
  Context `{Sys}.

Notation total := (only (fun _ : Ev => true)).

Lemma kill_gate_total c : total (child_kill_gate c).
Proof. unfold child_kill_gate, kill_reaches_across_credentials, root_running. only_auto. Qed.

Lemma finish_root_total c g : total (finish_root c g).
Proof.
  unfold finish_root, kill_sent_gated, kill_root_typed, kill_exited_front, kill_through_cgroup, kill_root, hard_kill_marking,
    hard_kill_report, child_cgroup_kill_reached, signal_root, send_tree, mark, cgroup_names, root_exited, root_running.
  only_auto. all: apply only_look.
Qed.

Lemma kill_unless_reaped_total a v : total (hard_kill_marking_unless_reaped a v).
Proof.
  unfold hard_kill_marking_unless_reaped, hard_kill_marking, hard_kill_report, drop_reach, through_the_pidfd, has_member, kill_holders_of,
    send_tree, send_holders, mark. only_auto.
Qed.

(** A call that shows the root reaped, or launchd's. *)
Definition shows_left (i : ProcessId) (e : Ev) : bool :=
  match e with
  | LookState _ (RootReaped _ | Unpinned) | ReadNumber Gone => true
  | ReadNumber (Found now) => bool_decide (now <> i)
  | _ => false
  end.

Lemma read_view_shows i h :
  wp (read_view i) h (fun v t => leaves_root_alone v = true -> exists e, e ∈ t /\ shows_left i e = true).
Proof.
  unfold read_view, root_identity_now, root_state, is_set. do 2 wp_step. do 2 wp_step. do 2 wp_step. wp_step. cbn [app].
  set (now := number_answer h). set (s := state_answer _). unfold leaves_root_alone, view_of. cbn [view_root].
  destruct (root_reaped _ i now) eqn:Er.
  - intros _. apply orb_true_iff in Er as [Er|Er].
    + exists (LookState false s). split; [by right; left|]. by destruct s.
    + exists (ReadNumber now). split; [by left|]. by destruct now.
  - destruct s; try done. intros _. exists (LookState false Unpinned). split; [by right; left|done].
Qed.

Lemma fate_of_a_look_open r i : fate_of_a_look r i <> Killed.
Proof. destruct r as [[]|[]]; cbn; try done. by case_match. Qed.

(** A child that was killed and not collected is not settled. *)
Lemma settle_root_fate c g h : wp (settle_root c g) h (fun r _ => r.1.1 = Killed -> r.1.2 = false).
Proof.
  unfold settle_root, wait_root_unbounded, wait_root, wait. wp_step. wp_use finish_root_total. intros root t _.
  destruct root as [[| |]|e]; [|by wp_step..|].
  - repeat wp_step. by destruct (wait_answer _ _) as [[[]| |]|].
  - repeat wp_step. cbn. by intros []%fate_of_a_look_open.
Qed.

Lemma marked_in h : existsb is_mark h = true -> MarkKilled ∈ h.
Proof. intros (e & Hin & He)%existsb_exists. apply list_elem_of_In in Hin. by destruct e. Qed.

(** A look that does not show an exit. *)
Definition unseen (a : result IoError PeekOutcome) : Prop := match a with Ok PeekRunning | Err _ => True | Ok _ => False end.

(** The cleanup found a front it may not kill: two looks, one before and one after its leaf was asked, did not show
    it to have exited, and no leaf of the child's was shown to hold it. *)
Definition front_closed (c : Child) (t : list Ev) : Prop :=
  front c <> None /\ exists a1 place a2 t', t = LookExit a1 :: place ++ LookExit a2 :: t' /\ unseen a1 /\ unseen a2
    /\ if is_cgroup (attached c) then exists p, place = [LeafHolds p] /\ p <> Ok true else place = [].

(** A disarmed handle leaves a child that is not a corpse of cosca's making, and a tree that was killed,
    or was left alone for a root that was shown to be gone, or for a front that may not be killed. *)
Definition disarmed_so (c : Child) (h : list Ev) (r : ChildFate * Child) (t : list Ev) : Prop :=
  kill_on_drop c = true -> kill_on_drop r.2 = false ->
  r.1 <> Killed
  /\ (can_teardown (containment c) = true ->
        MarkKilled ∈ h ++ t \/ (exists e, e ∈ t /\ shows_left (id c) e = true) \/ front_closed c t).

Lemma front_closed_app c t t' : front_closed c t -> front_closed c (t ++ t').
Proof.
  intros (Hf & a1 & place & a2 & t2 & -> & H1 & H2 & Hp). split; [done|]. exists a1, place, a2, (t2 ++ t').
  split; [by rewrite <- app_comm_cons, <- app_assoc|done].
Qed.

Lemma kill_gate_closed c h : wp (child_kill_gate c) h (fun g t => is_closed g = true -> front_closed c t).
Proof.
  unfold child_kill_gate, front_closed. destruct (front c) as [f|] eqn:Ef; [|by wp_step].
  assert (Hrun : forall h, wp root_running h (fun r t => exists a, t = [LookExit a] /\ (r <> Ok false -> unseen a))).
  { intros h'. unfold root_running. repeat wp_step. eexists. split; [done|]. by destruct (peek_answer h') as [[]|]. }
  wp_step. wp_use Hrun. intros r1 t1 (a1 & -> & H1).
  assert (Hrest : r1 <> Ok false -> wp (do! placed := kill_reaches_across_credentials (attached c) in
      match placed with Ok true => ret CgroupOnly | _ => do! r2 := root_running in ret (ElevationPlan.kill_gate (Some f) r1 placed r2) end)
      (h ++ [LookExit a1]) (fun g t => is_closed g = true -> Some f <> None /\ exists a1' place a2 t', [LookExit a1] ++ t = LookExit a1' :: place ++ LookExit a2 :: t'
        /\ unseen a1' /\ unseen a2 /\ if is_cgroup (attached c) then exists p, place = [LeafHolds p] /\ p <> Ok true else place = [])).
  { intros Hr. wp_step. apply wp_mono with (P := fun placed t => if is_cgroup (attached c) then t = [LeafHolds placed] else t = [] /\ placed = Ok false).
    { unfold kill_reaches_across_credentials. destruct (is_cgroup (attached c)); [by repeat wp_step|by wp_step]. }
    intros placed t2 Hp.
    assert (Hlook : placed <> Ok true -> forall h', wp (do! r2 := root_running in ret (ElevationPlan.kill_gate (Some f) r1 placed r2)) h'
      (fun g t => is_closed g = true -> Some f <> None /\ exists a1' place a2 t', [LookExit a1] ++ t2 ++ t = LookExit a1' :: place ++ LookExit a2 :: t'
        /\ unseen a1' /\ unseen a2 /\ if is_cgroup (attached c) then exists p, place = [LeafHolds p] /\ p <> Ok true else place = [])).
    { intros Hpl h'. wp_step. wp_use Hrun. intros r2 t3 (a2 & -> & H2). wp_step. intros Hc. split; [done|].
      exists a1, t2, a2, []. split_and!; [by rewrite app_nil_r|auto| |].
      - apply H2. intros ->. cbn in Hc. destruct r1 as [[]|], placed as [[]|]; done.
      - destruct (is_cgroup (attached c)); [eauto|by destruct Hp]. }
    destruct placed as [[]|]; [by wp_step|by apply Hlook..]. }
  destruct r1 as [[]|]; [by apply Hrest|by wp_step|by apply Hrest].
Qed.

Lemma finish_failed_disarms c h : wp (finish_failed c) h (disarmed_so c h).
Proof.
  unfold finish_failed. wp_step. wp_use kill_gate_closed. intros g t1 Hg. wp_step. wp_use read_view_shows. intros v t2 Hv. wp_step.
  apply wp_mono with (P := fun tree _ => can_teardown (containment c) = true -> tree = None -> front_closed c t1).
  { destruct (can_teardown (containment c)) eqn:Ec; cbn [andb]; [|by wp_step]. destruct (is_closed g) eqn:Ecl; cbn [negb].
    - wp_step. intros _ _. by apply Hg.
    - wp_step. unfold hold. wp_step. wp_step. wp_use kill_unless_reaped_total. intros r t _. wp_step. unfold release. wp_step. by wp_step. }
  intros tree t3 Htree. wp_step. unfold is_set. wp_step. set (killed := existsb is_mark _). cbv zeta.
  wp_step. apply wp_mono with (P := fun r _ => r.1.1 = Killed -> r.1.2 = false).
  { destruct (unpinned_root v); [by wp_step|apply settle_root_fate]. }
  intros [[fate settled] left_] t4 Hf. cbn in Hf. wp_step. unfold emit.
  apply wp_mono with (P := fun _ _ => True); [case_match; by wp_step|]. intros u t5 _. wp_step. unfold disarmed_so. cbn [fst snd kill_on_drop].
  intros Hk Hd. rewrite Hk in Hd. cbn [andb] in Hd. apply negb_false_iff, andb_true_iff in Hd as [Hts Hs]. split.
  - intros HK. specialize (Hf HK). congruence.
  - intros Hcan. specialize (Htree Hcan). destruct tree as [r|]; [|right; right; by apply front_closed_app, Htree]. cbn [orb] in Hts.
    apply orb_true_iff in Hts as [Hm|Hl].
    + left. apply marked_in in Hm. rewrite ?app_nil_r in Hm. repeat (rewrite !elem_of_app in *). naive_solver.
    + right. left. apply andb_true_iff in Hl as [_ Hl]. destruct (Hv Hl) as (e & Hin & He). exists e. split; [|done].
      rewrite !elem_of_app. naive_solver.
Qed.

End Left.

Section Settles.
  Context `{Sys}.

Lemma finish_elevated_keeps c e :
  platform = Linux ->
  keeps (step (relays c) false false) (at_rest c) (finish_elevated c (Err e)) (fun _ s => held s = false).
Proof.
  intros Hp. assert (Ht : tracks c (at_rest c)) by (unfold tracks, at_rest; cbn; by destruct (front c)).
  unfold finish_elevated. keeps_step. keeps_use finish_failed_keeps; [done..|]. intros [fate c'] s [G Hf]. cbn in Hf.
  assert (Hr : relays c' = relays c) by (unfold relays; by rewrite Hf). keeps_step.
  eapply keeps_mono with (Q := fun _ s' => goes_on s s'); [|intros u s' G'; keeps_step; by rewrite (go_held _ _ G'), (go_held _ _ G)].
  rewrite <- Hr. apply drop_child_keeps; [by rewrite (go_held _ _ G)|intros _; by apply (go_linux _ _ G)|].
  unfold tracks. rewrite Hf. by apply (tracks_on c (at_rest c) s).
Qed.

Lemma finish_elevated_answer c e h :
  wp (finish_elevated c (Err e)) h (fun r t => exists fate left_ t1 t2, r = Err (started (Elevation AuthFailed) fate) /\ t = t1 ++ t2 /\
    runs (finish_failed c) h (fate, left_) t1 /\ disarmed_so c h (fate, left_) t1).
Proof.
  unfold finish_elevated. wp_step. destruct (finish_failed_disarms c h) as ([fate left_] & t1 & Hr & Hd).
  exists (fate, left_), t1. split; [done|]. wp_step.
  assert (Ht : tracks left_ (at_rest left_)) by (unfold tracks, at_rest; cbn; by destruct (front left_)).
  eapply wp_mono; [apply (drop_child_keeps false left_ (at_rest left_)); done|]. intros u t2 _. wp_step. rewrite app_nil_r.
  exists fate, left_, t1, t2. by split_and!.
Qed.


End Settles.

(** A sudo that cannot be killed: it runs on in a leaf that does not hold it. *)
#[local] Instance demo_sys : Sys := {
  platform := Linux;
  state_answer _ := Unreaped;
  peek_answer _ := Ok PeekRunning;
  signal_answer _ _ := Err (Io (from_raw_os_error 1));
  wait_answer _ _ := Ok DeadlinePassed;
  watch_answer _ := Ok false;
  reaped_answer _ := false;
  number_answer _ := Found (process_id 70 5);
  member_answer _ := Some true;
  tree_answer _ _ _ := Err EContainment;
  holders_answer _ _ _ := Ok tt;
  group_and_holders_answer _ _ := Ok tt;
  leaf_holds_answer _ := Ok false;
  leaf_names_answer _ := Ok false;
  subtree_answer _ := Ok tt;
  reached_answer _ := Ok false;
  drain_answer _ := Ok MembersRemain
}.

Definition demo_wrapper : Child := child_ (process_id 70 5) Cgroup (Some FSudo) true CgroupV2_ true [].

