(* ===== verification/Handshake.v ===== *)
(** The pidfd handshake of a spawn on Linux, [src/child/spawn/pidfd_handshake.rs] up to [conclude]:
    the child's hook, the helper thread and the spawning thread, one system call at a time. The world
    is the channel, the three and the processes forked meanwhile. std's spawn is its contract: [Ok] of
    a child that runs its program or is gone, [Err] of one that reported a failure and was collected;
    with stdio closed it can return early, and tokio's can fail after it succeeded. Panics, and std's
    own wait on copies of its status pipe, are left out. Integers are little-endian. *)
From S2P Require Import Prelude Utf Numbers IoErrors CrateError Pidfd.
Local Open Scope Z_scope.

(** * Messages *)

Definition GO : Z := 1.
Definition REPORT_PIDFD : Z := 1.
Definition REPORT_ERRNO : Z := 2.
Definition REPORT_LEN : nat := 8.

(** A message is its bytes and the descriptor it carries, here the process that descriptor names. *)
Definition Message : Type := bytes * option Z.

(** What [send_report] sends. *)
Definition report_message (tag value : Z) (pidfd : option Z) : Message := (le_bytes 4 tag ++ le_bytes 4 value, pidfd).

Record ReturnFlags := flags { CTRUNC : bool; TRUNC : bool }.

Inductive Report := ReportPidfd (p : Z) | ReportErrno (errno : Z) | ReportEof.

(** [parse_report]'s [violation], after its debug assertion. *)
Definition violation : result Error Report := Err (Io (io_new Other)).

Definition parse_report (n : nat) (fl : ReturnFlags) (message : bytes) (fds : list Z) (foreign : nat) : result Error Report :=
  if CTRUNC fl then Err (Io (io_new Other))
  else if Nat.eqb n 0 && bool_decide (fds = []) && Nat.eqb foreign 0 then Ok ReportEof
  else if negb (Nat.eqb n REPORT_LEN) || TRUNC fl || negb (Nat.eqb foreign 0) then violation
  else
    let tag := i32_from_le (take 4 message) in
    let value := i32_from_le (drop 4 message) in
    if tag =? REPORT_PIDFD then match fds with [pidfd] => Ok (ReportPidfd pidfd) | _ => violation end
    else if (tag =? REPORT_ERRNO) && bool_decide (fds = []) && (0 <? value) then Ok (ReportErrno value)
    else violation.

(** [recv_report] of a message; the kernel drops a descriptor it cannot install. *)
Definition received (m : Message) (dropped : bool) : result Error Report :=
  parse_report (length m.1) (flags (dropped && bool_decide (is_Some m.2)) false) m.1
    (match m.2 with Some p => if dropped then [] else [p] | None => [] end) 0.

(** ... of the end of the channel, and of an error. *)
Definition received_end : result Error Report := parse_report 0 (flags false false) (replicate REPORT_LEN 0) [] 0.

Definition receive_error (errno : Z) : result Error Report := Err (Io (io_context (from_raw_os_error errno))).

Inductive Delivery := Delivered | DeliveryGone | DeliveryFailed (e : IoError).

Definition EPIPE : Z := 32.
Definition ECONNRESET : Z := 104.
Definition EMSGSIZE : Z := 90.
Definition EINTR : Z := 4.
Definition EINVAL : Z := 22.

Definition classify_send (sent : result Z Z) : option Delivery :=
  match sent with
  | Ok n => Some (if n =? 1 then Delivered else DeliveryFailed (from_raw_os_error EMSGSIZE))
  | Err e =>
      if e =? EINTR then None
      else if (e =? EPIPE) || (e =? ECONNRESET) then Some DeliveryGone
      else Some (DeliveryFailed (from_raw_os_error e))
  end.

(** [above_stdio_keeping], of a descriptor's number; [dup] is what [fcntl_dupfd_cloexec] answers. *)
Definition above_stdio_keeping (fd : Z) (dup : result Z Z) : result Z Z := if 3 <=? fd then Ok fd else dup.

(** * The three *)

(** [Unwatched] is [NoReport] once the spawning thread has joined. *)
Inductive Outcome :=
| Opened (pidfd : Z)
| Gone (pidfd : Z)
| Failed (e : Error) (pidfd : option Z)
| NoReport
| Unwatched.

(** Where the child is: before its hook; its hook's steps; past them; in its program; failing, to
    report that to std; dead, having reported a failure or not. *)
Inductive Pc :=
| Unforked
| Forked
| Hooked
| Holding
| Refused (errno : Z)
| Awaiting
| Cleared
| Execd
| Failing
| Dead (reported : bool).

#[export] Instance Pc_eq_dec : EqDecision Pc.
Proof. solve_decision. Defined.

(** The helper: in [recvmsg]; with a pidfd to move; to send GO; with an outcome, before its end is
    shut, before it says it is done, done. *)
Inductive HelperPc :=
| NotStarted
| Receiving
| Moving (p : Z)
| Sending (p : Z)
| Ending (o : Outcome)
| HasShut (o : Outcome)
| Done (o : Outcome).

(** [Watch]. *)
Inductive Watch := Running | Exited | Unwatchable.

(** What the watch opened by number names: the child, or a process that took its number. *)
Inductive Target := Own | Another.

Inductive SpawnerPc :=
| Starting
| InSpawn
| Returned (ok : bool)
| Looking
| Opening
| Peeking (t : Target)
| Polling (t : Target)
| Decided (ok : bool) (w : Watch)
| Joining (ok : bool) (w : Watch)
| Joined (ok : bool) (o : Outcome)
| NoHelper (e : Error).

(** ** The helper: [help] and its end *)

Definition after_report (r : result Error Report) : HelperPc :=
  match r with
  | Ok (ReportPidfd p) => Moving p
  | Ok (ReportErrno errno) => Ending (Failed (spawn_open_error errno) None)
  | Ok ReportEof => Ending NoReport
  | Err e => Ending (Failed e None)
  end.

Definition after_move (p : Z) (moved : result Z Z) : HelperPc :=
  match moved with
  | Ok _ => Sending p
  | Err e => Ending (Failed (Io (io_context (from_raw_os_error e))) (Some p))
  end.

Definition after_send (p : Z) (d : Delivery) : HelperPc :=
  Ending match d with
         | Delivered => Opened p
         | DeliveryGone => Gone p
         | DeliveryFailed e => Failed (Io (io_context e)) (Some p)
         end.

Definition helper_start_error (errno : Z) : Error := Io (io_context (from_raw_os_error errno)).

(** * The world

    [mine] and [others]: the spawning thread and processes it forked hold the child's end.
    [cut]: the parent's end is shut for reading. [ran]: the program ran. [taken]: another process
    reaped the child. [another_gone]: the process that took its number is ready. *)
Record World := world {
  child : Pc; ran : bool; helper : HelperPc; spawner : SpawnerPc;
  queue : list Message; go : bool; cut : bool; mine : bool; others : bool; taken : bool; another_gone : bool }.

Definition start : World := world Unforked false NotStarted Starting [] false false true false false false.

Definition set_child (w : World) (pc : Pc) : World :=
  world pc (ran w) (helper w) (spawner w) (queue w) (go w) (cut w) (mine w) (others w) (taken w) (another_gone w).
Definition set_ran (w : World) : World :=
  world Execd true (helper w) (spawner w) (queue w) (go w) (cut w) (mine w) (others w) (taken w) (another_gone w).
Definition set_helper (w : World) (pc : HelperPc) : World :=
  world (child w) (ran w) pc (spawner w) (queue w) (go w) (cut w) (mine w) (others w) (taken w) (another_gone w).
Definition set_spawner (w : World) (pc : SpawnerPc) : World :=
  world (child w) (ran w) (helper w) pc (queue w) (go w) (cut w) (mine w) (others w) (taken w) (another_gone w).
Definition set_queue (w : World) (q : list Message) : World :=
  world (child w) (ran w) (helper w) (spawner w) q (go w) (cut w) (mine w) (others w) (taken w) (another_gone w).
Definition set_go (w : World) (b : bool) : World :=
  world (child w) (ran w) (helper w) (spawner w) (queue w) b (cut w) (mine w) (others w) (taken w) (another_gone w).
Definition set_cut (w : World) : World :=
  world (child w) (ran w) (helper w) (spawner w) (queue w) (go w) true (mine w) (others w) (taken w) (another_gone w).
Definition set_ends (w : World) (mine others : bool) : World :=
  world (child w) (ran w) (helper w) (spawner w) (queue w) (go w) (cut w) mine others (taken w) (another_gone w).
Definition set_number (w : World) (taken another_gone : bool) : World :=
  world (child w) (ran w) (helper w) (spawner w) (queue w) (go w) (cut w) (mine w) (others w) taken another_gone.

(** [ShutOnDrop] shuts the parent's end both ways, and then says it is done. *)
Definition is_shut (w : World) : bool := match helper w with HasShut _ | Done _ => true | _ => false end.

Definition is_done (w : World) : bool := match helper w with Done _ => true | _ => false end.

Definition is_dead (w : World) : bool := match child w with Dead _ => true | _ => false end.

(** The child holds its end until [exec] or its exit. *)
Definition child_holds (w : World) : bool := match child w with Unforked | Execd | Dead _ => false | _ => true end.

(** Every copy of the child's end is closed. *)
Definition child_end_closed (w : World) : bool := negb (mine w || child_holds w || others w).

Section Handshake.
  (** The child's number; whether an [Err] of the spawn proves that nothing ran; whether the spawn can
      return before the child's hooks run. *)
  Variables (pid : Z) (ERR_PROVES_NO_EXEC early : bool).

(** ** The child *)

Inductive ChildStep :=
| FailEarly
| Hook
| OpenSelf (a : result Z unit)
| SendReport (a : option Z)
| RecvVerdict (a : option Z)
| Exec (a : option Z)
| Exit
| Die.

(** Sending to a parent's end that is shut fails. *)
Definition sends (w : World) (m : Message) (err : option Z) : World * bool :=
  if bool_decide (is_Some err) || cut w || is_shut w then (w, false) else (set_queue w (queue w ++ [m]), true).

(** [hold_child], then the rest of the way to [exec]. *)
Definition child_step (l : ChildStep) (w : World) : option World :=
  match l, child w with
  | FailEarly, Forked => Some (set_child w Failing)
  | Hook, Forked => Some (set_child w Hooked)
  | OpenSelf (Ok _), Hooked => Some (set_child w Holding)
  | OpenSelf (Err e), Hooked => if (0 <? e) && (e <? 2 ^ 31) then Some (set_child w (Refused e)) else None
  | SendReport err, Holding =>
      let '(w, sent) := sends w (report_message REPORT_PIDFD 0 (Some pid)) err in
      Some (set_child w (if sent then Awaiting else Failing))
  | SendReport err, Refused e =>
      let '(w, _) := sends w (report_message REPORT_ERRNO e None) err in Some (set_child w Failing)
  | RecvVerdict err, Awaiting =>
      if bool_decide (is_Some err) then Some (set_child w Failing)
      else if go w then Some (set_child (set_go w false) Cleared)
      else if is_shut w then Some (set_child w Failing)
      else None
  | Exec err, Cleared => Some (if bool_decide (is_Some err) then set_child w Failing else set_ran w)
  | Exit, Failing => Some (set_child w (Dead true))
  | Die, (Unforked | Dead _) => None
  | Die, _ => Some (set_child w (Dead false))
  | _, _ => None
  end.

(** ** The helper *)

Inductive HelperStep :=
| Recv (err : option Z) (dropped : bool)
| Move (fd : Z) (dup : result Z Z)
| SendGo (err : option Z)
| ShutEnd
| SayDone.

Definition recv (w : World) (err : option Z) (dropped : bool) : option World :=
  match err with
  | Some e => Some (set_helper w (after_report (receive_error e)))
  | None =>
      match queue w with
      | m :: q => Some (set_helper (set_queue w q) (after_report (received m dropped)))
      | [] => if cut w || child_end_closed w then Some (set_helper w (after_report received_end)) else None
      end
  end.

(** [send_go]: an interrupted one is made again. *)
Definition send_go (w : World) (p : Z) (err : option Z) : option World :=
  let sent := match err with Some e => Err e | None => if child_end_closed w then Err EPIPE else Ok 1 end in
  d ← classify_send sent;
  Some (set_helper (match d with Delivered => set_go w true | _ => w end) (after_send p d)).

Definition helper_step (l : HelperStep) (w : World) : option World :=
  match l, helper w with
  | Recv err dropped, Receiving => recv w err dropped
  | Move fd dup, Moving p => Some (set_helper w (after_move p (above_stdio_keeping fd dup)))
  | SendGo err, Sending p => send_go w p err
  | ShutEnd, Ending o => Some (set_helper w (HasShut o))
  | SayDone, HasShut o => Some (set_helper w (Done o))
  | _, _ => None
  end.

(** ** The spawning thread: [run], [child_exited_before_the_helper_finished] *)

Inductive Peeked := PeekRunning | PeekExit | PeekFailed.

Inductive SpawnerStep :=
| StartHelper (a : option Z)
| ForkChild
| Return (ok : bool)
| DropEnd
| Look (failed : bool)
| OpenWatch (a : result Z Target) (moved : bool)
| Peek (a : Peeked)
| Poll (failed : bool)
| Force
| Join.

(** When the spawn can return [Ok], and [Err]. *)
Definition returns_ok (w : World) : bool :=
  match child w with Unforked => false | Execd | Dead false => true | _ => early end.

Definition returns_err (w : World) : bool :=
  match child w with Unforked => true | Dead true => negb (ran w) | _ => false end || negb ERR_PROVES_NO_EXEC && returns_ok w.

(** The watch opens what the child's number names; the number names another process only once the
    child was reaped. *)
Definition opens (w : World) (a : result Z Target) : bool :=
  match a with Ok Own => negb (taken w) | Ok Another => taken w | Err _ => true end.

Definition after_open (a : result Z Target) (moved : bool) : SpawnerPc :=
  match a with
  | Ok t => if moved then Peeking t else Decided true Unwatchable
  | Err e => Decided true (if (e =? ESRCH) || (e =? EINVAL) || (e =? ENOENT) then Exited else Unwatchable)
  end.

(** A peek at the child finds it running until it has exited. *)
Definition peeks (w : World) (t : Target) (a : Peeked) : bool :=
  match t, a with Own, PeekRunning => negb (is_dead w) | Own, PeekExit => is_dead w | _, _ => true end.

Definition after_peek (t : Target) (a : Peeked) : SpawnerPc :=
  match a with
  | PeekRunning => Polling t
  | PeekExit => Decided true Exited
  | PeekFailed => Decided true Unwatchable
  end.

Definition watch_ready (w : World) (t : Target) : bool := match t with Own => is_dead w | Another => another_gone w end.

(** [finished]: nothing is left to report. *)
Definition finished (ok : bool) (watch : Watch) : bool := negb ok || match watch with Running => false | _ => true end.

(** What is joined: an end without a report, forced because the child could not be watched, says so. *)
Definition joined (o : Outcome) (watch : Watch) : Outcome :=
  match o, watch with NoReport, Unwatchable => Unwatched | _, _ => o end.

Definition spawner_step (l : SpawnerStep) (w : World) : option World :=
  match l, spawner w with
  | StartHelper None, Starting => Some (set_helper (set_spawner w InSpawn) Receiving)
  | StartHelper (Some e), Starting => Some (set_spawner w (NoHelper (helper_start_error e)))
  | ForkChild, InSpawn => match child w with Unforked => Some (set_child w Forked) | _ => None end
  | Return true, InSpawn => if returns_ok w then Some (set_spawner w (Returned true)) else None
  | Return false, InSpawn => if returns_err w then Some (set_spawner w (Returned false)) else None
  | DropEnd, Returned ok =>
      Some (set_spawner (set_ends w false (others w)) (if ok then Looking else Decided false Running))
  | Look failed, Looking =>
      Some (set_spawner w (if failed then Decided true Unwatchable else if is_done w then Decided true Running else Opening))
  | OpenWatch a moved, Opening => if opens w a then Some (set_spawner w (after_open a moved)) else None
  | Peek a, Peeking t => if peeks w t a then Some (set_spawner w (after_peek t a)) else None
  | Poll failed, Polling t =>
      if failed then Some (set_spawner w (Decided true Unwatchable))
      else if is_done w then Some (set_spawner w (Decided true Running))
      else if watch_ready w t then Some (set_spawner w (Decided true Exited))
      else None
  | Force, Decided ok watch => Some (set_spawner (if finished ok watch then set_cut w else w) (Joining ok watch))
  | Join, Joining ok watch => match helper w with Done o => Some (set_spawner w (Joined ok (joined o watch))) | _ => None end
  | _, _ => None
  end.

(** ** The other processes: forked while the child's end is open, reaping the child, taking its number *)

Inductive OtherStep := ForkOther | DropOther | Reap | AnotherReady.

Definition other_step (l : OtherStep) (w : World) : option World :=
  match l with
  | ForkOther => Some (set_ends w (mine w) (others w || mine w))
  | DropOther => Some (set_ends w (mine w) false)
  | Reap => if is_dead w then Some (set_number w true (another_gone w)) else None
  | AnotherReady => if taken w then Some (set_number w true true) else None
  end.

Inductive Label := ByChild (l : ChildStep) | ByHelper (l : HelperStep) | BySpawner (l : SpawnerStep) | ByOther (l : OtherStep).

Definition step (w : World) (l : Label) : option World :=
  match l with
  | ByChild l => child_step l w
  | ByHelper l => helper_step l w
  | BySpawner l => spawner_step l w
  | ByOther l => other_step l w
  end.

Fixpoint run (w : World) (ls : list Label) : option World :=
  match ls with
  | [] => Some w
  | l :: ls => w' ← step w l; run w' ls
  end.

(** ** Its end *)

Definition ended (w : World) : bool := match spawner w with Joined _ _ | NoHelper _ => true | _ => false end.

(** A step of the three that is no failure and no death. *)
Definition prompt (l : Label) : bool :=
  match l with
  | ByChild (FailEarly | Die | OpenSelf (Err _) | SendReport (Some _) | RecvVerdict (Some _) | Exec (Some _)) => false
  | ByChild _ => true
  | ByHelper (Recv (Some _) _ | Recv _ true | Move _ (Err _) | SendGo (Some _)) => false
  | ByHelper _ => true
  | BySpawner (StartHelper (Some _) | Look true | OpenWatch (Err _) _ | OpenWatch _ false | Peek PeekFailed | Poll true) => false
  | BySpawner _ => true
  | ByOther _ => false
  end.

(** The window in which the wait for a report waits for another process: the child died before it
    reported and was reaped by another, its number taken by a process that runs on, and a copy of
    its end is held. *)
Definition window (w : World) : Prop :=
  spawner w = Polling Another /\ is_dead w = true /\ helper w = Receiving /\ queue w = []
  /\ taken w = true /\ another_gone w = false /\ others w = true.

(** What is left for the three to do, at most. *)
Definition child_left (pc : Pc) : nat :=
  match pc with
  | Unforked => 8 | Forked => 7 | Hooked => 6 | Holding | Refused _ => 5 | Awaiting => 4 | Cleared => 3
  | Execd | Failing => 1 | Dead _ => 0
  end.

Definition helper_left (pc : HelperPc) : nat :=
  match pc with
  | NotStarted => 6 | Receiving => 5 | Moving _ => 4 | Sending _ => 3 | Ending _ => 2 | HasShut _ => 1 | Done _ => 0
  end.

Definition spawner_left (pc : SpawnerPc) : nat :=
  match pc with
  | Starting => 9 | InSpawn => 8 | Returned _ => 7 | Looking => 6 | Opening => 5 | Peeking _ => 4 | Polling _ => 3
  | Decided _ _ => 2 | Joining _ _ => 1 | Joined _ _ | NoHelper _ => 0
  end.

Definition left_ (w : World) : nat := child_left (child w) + helper_left (helper w) + spawner_left (spawner w).

Definition by_the_three (l : Label) : bool := match l with ByOther _ => false | _ => true end.

(** ** What holds throughout *)

Definition outcome (pc : HelperPc) : option Outcome :=
  match pc with Ending o | HasShut o | Done o => Some o | _ => None end.

(** The pidfd an outcome carries. *)
Definition carried (o : Outcome) : option Z :=
  match o with Opened p | Gone p => Some p | Failed _ p => p | _ => None end.

Definition helper_names (pc : HelperPc) : option Z :=
  match pc with Moving p | Sending p => Some p | _ => o ← outcome pc; carried o end.

Definition told (w : World) : Prop := outcome (helper w) = Some (Opened pid).

Definition a_report (m : Message) : Prop :=
  m = report_message REPORT_PIDFD 0 (Some pid) \/ exists e, 0 < e < 2 ^ 31 /\ m = report_message REPORT_ERRNO e None.

Definition returned (pc : SpawnerPc) : option bool :=
  match pc with
  | Starting | InSpawn | NoHelper _ => None
  | Returned ok | Decided ok _ | Joining ok _ | Joined ok _ => Some ok
  | Looking | Opening | Peeking _ | Polling _ => Some true
  end.

Definition child_ok (w : World) : Prop :=
  match child w with
  | Refused e => 0 < e < 2 ^ 31 /\ ran w = false
  | Awaiting => ran w = false /\ (helper w = Receiving -> queue w <> [])
  | Cleared => ran w = false /\ told w
  | Execd => ran w = true /\ told w
  | Dead false => ran w = true -> told w
  | _ => ran w = false
  end.

Definition spawner_ok (w : World) : Prop :=
  match spawner w with
  | Starting | NoHelper _ => helper w = NotStarted /\ child w = Unforked /\ cut w = false
  | InSpawn | Returned _ => helper w <> NotStarted /\ cut w = false
  | Looking | Opening => helper w <> NotStarted /\ cut w = false /\ mine w = false
  | Peeking t | Polling t => helper w <> NotStarted /\ cut w = false /\ mine w = false /\ (t = Another -> taken w = true)
  | Decided ok watch => helper w <> NotStarted /\ mine w = false /\ (finished ok watch = false -> is_done w = true)
  | Joining ok watch => helper w <> NotStarted /\ mine w = false /\ (is_done w = true \/ cut w = true)
  | Joined ok o => exists o' watch, helper w = Done o' /\ o = joined o' watch
  end.

Definition returned_ok (w : World) : Prop :=
  match returned (spawner w) with
  | Some true => child w <> Unforked
  | Some false => ERR_PROVES_NO_EXEC = true -> child w = Unforked \/ child w = Dead true
  | None => True
  end.

Record inv (w : World) : Prop := {
  hs_child : child_ok w;
  hs_spawner : spawner_ok w;
  hs_returned : returned_ok w;
  hs_go : go w = true -> told w;
  hs_names : forall p, helper_names (helper w) = Some p -> p = pid;
  hs_queue : Forall a_report (queue w);
  hs_taken : taken w = true -> is_dead w = true }.

Lemma hs_start : inv start.
Proof. by split. Qed.

(** The messages as they arrive. *)
Lemma received_pidfd dropped :
  received (report_message REPORT_PIDFD 0 (Some pid)) dropped = if dropped then Err (Io (io_new Other)) else Ok (ReportPidfd pid).
Proof. by destruct dropped. Qed.

Lemma received_errno e dropped : 0 < e < 2 ^ 31 -> received (report_message REPORT_ERRNO e None) dropped = Ok (ReportErrno e).
Proof.
  intros He. unfold received, report_message, parse_report. cbn [fst snd CTRUNC TRUNC].
  rewrite andb_false_r, length_app, !length_le_bytes. cbn [Nat.add Nat.eqb REPORT_LEN negb orb andb].
  rewrite take_app_length', drop_app_length' by (by rewrite length_le_bytes). rewrite !i32_from_le_bytes by (unfold REPORT_ERRNO; lia).
  cbn. by destruct (Z.ltb_spec 0 e); [|lia].
Qed.

Lemma after_received m dropped p : a_report m -> helper_names (after_report (received m dropped)) = Some p -> p = pid.
Proof.
  intros [-> | (e & He & ->)]; [rewrite received_pidfd; destruct dropped; cbn; congruence|].
  rewrite received_errno by done. done.
Qed.

(** What a report leaves the helper to do is not to tell the child. *)
Lemma after_report_not_told r : outcome (after_report r) <> Some (Opened pid) /\ after_report r <> Receiving /\ after_report r <> NotStarted.
Proof. destruct r as [[]|]; done. Qed.


(** A child that moves on leaves the rest alone. *)
Lemma child_moves w pc rn q g :
  inv w -> child w <> Unforked -> is_dead w = false -> pc <> Unforked -> (g = true -> told w) -> Forall a_report q ->
  let w' := world pc rn (helper w) (spawner w) q g (cut w) (mine w) (others w) (taken w) (another_gone w) in
  child_ok w' -> inv w'.
Proof.
  intros [Hc Hs Hr Hg Hn Hq Ht] Hu Hd Hp Hg' Hq' w' Hc'. split; try done.
  - unfold spawner_ok in *. cbn. destruct (spawner w); naive_solver.
  - unfold returned_ok in *. cbn. destruct (returned (spawner w)) as [[]|]; try done.
    intros He. destruct (Hr He) as [|E]; [done|]. unfold is_dead in Hd. by rewrite E in Hd.
  - intros Hx. specialize (Ht Hx). congruence.
Qed.

Lemma child_keeps l w w' : inv w -> child_step l w = Some w' -> inv w'.
Proof.
  intros Hi H. pose proof Hi as [Hc _ _ Hg _ Hq _]. destruct (child w) eqn:Ec; destruct l as [| |[]|err|err|err| |]; cbn in H; rewrite Ec in H; try done.
  all: unfold child_ok in Hc; rewrite Ec in Hc; unfold sends in H; repeat case_match; simplify_eq.
  all: match goal with H : inv ?w |- _ => eapply (child_moves w) end; [exact Hi|by rewrite Ec|unfold is_dead; by rewrite Ec|..]; unfold child_ok; cbn; try done.
  all: unfold told in *; cbn in *.
  all: first
    [ apply Forall_app; split; [done|]; apply Forall_singleton; unfold a_report; naive_solver
    | split; [by destruct_and?|]; intros _; by destruct (queue w)
    | destruct_and?; split_and?; first [done | lia | congruence | auto | by intros; exfalso; congruence] ].
Qed.

(** The helper's moves: what it has is the child's, and it tells the child with GO alone. *)
Lemma helper_moves w pc q g :
  inv w -> helper w <> NotStarted -> (forall o, helper w <> Done o) -> pc <> NotStarted -> pc <> Receiving -> Forall a_report q ->
  (forall p, helper_names pc = Some p -> p = pid) -> (go w = true \/ told w -> outcome pc = Some (Opened pid)) ->
  (g = true -> go w = true \/ outcome pc = Some (Opened pid)) ->
  inv (world (child w) (ran w) pc (spawner w) q g (cut w) (mine w) (others w) (taken w) (another_gone w)).
Proof.
  intros [Hc Hs Hr Hg Hn Hq Ht] Hst Hd Hp Hp' Hq' Hn' Ho Hg'.
  assert (Hnd : is_done w = false) by (unfold is_done; destruct (helper w); naive_solver).
  split; try done.
  - unfold child_ok, told in *. cbn. destruct (child w) as [| | | | | | | | |[]]; try done; destruct_and?; split_and?; auto; by intros.
  - unfold spawner_ok in *. cbn. rewrite Hnd in Hs. destruct (spawner w) as [| | | | |t|t|ok watch|ok watch|ok o|]; try done; destruct_and?; split_and?; try done.
    + intros E. match goal with H : _ = false -> _ |- _ => by specialize (H E) end.
    + match goal with H : _ \/ _ |- _ => destruct H; [done|by right] end.
    + by destruct Hs as (o' & watch & E & _); destruct (Hd o').

  - unfold told. cbn. intros Hx. destruct (Hg' Hx); auto.
Qed.

Lemma helper_keeps l w w' : inv w -> helper_step l w = Some w' -> inv w'.
Proof.
  intros Hi H. pose proof Hi as [Hc _ _ Hg Hn Hq _].
  destruct (helper w) eqn:Eh; destruct l as [err dropped|fd dup|err| |]; cbn in H; rewrite Eh in H; try done.
  - assert (Hx : forall r q, Forall a_report q -> (forall p, helper_names (after_report r) = Some p -> p = pid) ->
      inv (set_helper (set_queue w q) (after_report r))).
    { intros r q Hfq Hr. destruct (after_report_not_told r) as (H1 & H2 & H3). apply (helper_moves w); try done; try (by rewrite Eh); [|by intros ?; left].
      unfold told in *. rewrite Eh in *. intros [E|E]; [by apply Hg in E|done]. }
    unfold recv in H. destruct err as [e|]; [|destruct (queue w) as [|m q] eqn:Eq].
    + injection H as <-. apply (Hx (receive_error e) (queue w)); [done|]. by cbn.
    + destruct (_ || _); [|done]. injection H as <-. apply (Hx received_end (queue w)); [by rewrite Eq|by cbn].
    + injection H as <-. apply Forall_cons in Hq as [Hm Hq]. apply Hx; [done|]. intros p. by apply after_received.
  - injection H as <-. apply (helper_moves w); try done; rewrite ?Eh; try done; unfold told in *; rewrite ?Eh in *; cbn in *.
    all: destruct (above_stdio_keeping fd dup); cbn; naive_solver.
  - unfold send_go in H. destruct (classify_send _) as [d|]; [|done]. injection H as <-.
    destruct d; apply (helper_moves w); try done; rewrite ?Eh; try done; unfold told in *; rewrite ?Eh in *; cbn in *.
    all: naive_solver.
  - injection H as <-. apply (helper_moves w); try done; rewrite ?Eh; try done; unfold told in *; rewrite ?Eh in *; cbn in *; naive_solver.
  - injection H as <-. apply (helper_moves w); try done; rewrite ?Eh; try done; unfold told in *; rewrite ?Eh in *; cbn in *; naive_solver.
Qed.

Lemma spawner_moves w pc k m :
  inv w -> let w' := world (child w) (ran w) (helper w) pc (queue w) (go w) k m (others w) (taken w) (another_gone w) in
  spawner_ok w' -> returned_ok w' -> inv w'.
Proof. intros [Hc Hs Hr Hg Hn Hq Ht] w' Hs' Hr'. by split. Qed.

Lemma returns_ok_forked w : returns_ok w = true -> child w <> Unforked.
Proof. unfold returns_ok. by destruct (child w). Qed.

Lemma returns_err_dead w : returns_err w = true -> ERR_PROVES_NO_EXEC = true -> child w = Unforked \/ child w = Dead true.
Proof. unfold returns_err. intros H ->. cbn in H. rewrite orb_false_r in H. destruct (child w) as [| | | | | | | | |[]]; auto; done. Qed.

Lemma finished_or_done ok watch w :
  (finished ok watch = false -> is_done w = true) -> is_done w = true \/ cut (if finished ok watch then set_cut w else w) = true.
Proof. destruct (finished ok watch); auto. Qed.

Ltac so := try done; unfold spawner_ok, is_done in *; cbn in *; repeat case_match; destruct_and?; split_and?; try done; auto.

Lemma spawner_keeps l w w' : inv w -> spawner_step l w = Some w' -> inv w'.
Proof.
  intros Hi H. pose proof Hi as [Hc Hs Hr Hg Hn Hq Ht]. unfold spawner_ok in Hs. unfold returned_ok in Hr.
  destruct (spawner w) as [| |ok| | |t|t|ok watch|ok watch|ok o|e] eqn:Es; destruct l as [[errno|]| |[]| |failed|a moved|a|failed| |]; cbn in H; rewrite Es in H; try done; cbn in Hr.
  - injection H as <-. by apply (spawner_moves w).
  - injection H as <-. destruct Hs as (Hh & Hu & Hk). unfold told in *. rewrite Hh in *. unfold child_ok in Hc. rewrite Hu in Hc.
    split; try done; unfold child_ok, spawner_ok, told in *; cbn; rewrite ?Hu; try done.
  - destruct (child w) eqn:Ec; try done. injection H as <-. unfold child_ok in Hc. rewrite Ec in Hc.
    split; try done; unfold spawner_ok, returned_ok; cbn; try by rewrite Es.
    intros Hx. specialize (Ht Hx). unfold is_dead in Ht. by rewrite Ec in Ht.
  - destruct (returns_ok w) eqn:Er; [|done]. injection H as <-. apply (spawner_moves w); [done|done|]. by apply returns_ok_forked.
  - destruct (returns_err w) eqn:Er; [|done]. injection H as <-. apply (spawner_moves w); [done|done|]. unfold returned_ok. cbn.
    by apply returns_err_dead.
  - injection H as <-. destruct ok; apply (spawner_moves w); so.
  - injection H as <-. destruct failed; [|destruct (is_done w) eqn:Ed]; apply (spawner_moves w).
    all: so.
  - destruct (opens w a) eqn:Eo; [|done]. injection H as <-.
    destruct a as [[]|e]; [destruct moved..|]; cbn in Eo; apply (spawner_moves w); so.
  - destruct (peeks w t a) eqn:Eo; [|done]. injection H as <-. destruct a; apply (spawner_moves w); so.
  - destruct failed; [|destruct (is_done w) eqn:Ed; [|destruct (watch_ready w t); [|done]]]; injection H as <-; apply (spawner_moves w); so.
  - injection H as <-. assert (Hf := finished_or_done ok watch w (proj2 (proj2 Hs))).
    destruct (finished ok watch); apply (spawner_moves w); so.
  - destruct (helper w) eqn:Eh; try done. injection H as <-. apply (spawner_moves w); [done| |done]. unfold spawner_ok. cbn. rewrite Eh. eauto.
Qed.

Lemma other_keeps l w w' : inv w -> other_step l w = Some w' -> inv w'.
Proof.
  intros [Hc Hs Hr Hg Hn Hq Ht] H. destruct l; cbn in H; [| |destruct (is_dead w) eqn:Ed; [|done]|destruct (taken w) eqn:Ea; [|done]].
  all: injection H as <-; split; try done; try (intros _; by apply Ht); so.
Qed.

Lemma run_keeps ls : forall w w', inv w -> run w ls = Some w' -> inv w'.
Proof.
  induction ls as [|l ls IH]; intros w w' Hi H; cbn in H; [by injection H as <-|].
  destruct (step w l) as [w1|] eqn:Es; [|done]. apply (IH w1); [|done].
  destruct l; cbn in Es; [by eapply child_keeps|by eapply helper_keeps|by eapply spawner_keeps|by eapply other_keeps].
Qed.

(** ** The three go on *)

Definition goes (w : World) : Prop := exists l w', prompt l = true /\ step w l = Some w'.

Lemma helper_goes w : inv w -> helper w <> NotStarted -> helper w <> Receiving -> is_done w = false -> goes w.
Proof.
  intros _ H1 H2 H3. destruct (helper w) as [| |p|p|o|o|o] eqn:Eh; try done; [| | | |unfold is_done in H3; by rewrite Eh in H3].
  - exists (ByHelper (Move 3 (Ok 3))). eexists. split; [done|]. cbn. by rewrite Eh.
  - exists (ByHelper (SendGo None)). cbn. rewrite Eh. unfold send_go. destruct (child_end_closed w); eexists; done.
  - exists (ByHelper ShutEnd). cbn. rewrite Eh. by eexists.
  - exists (ByHelper SayDone). cbn. rewrite Eh. by eexists.
Qed.

(** A helper that waits reads what is queued, or the end. *)
Lemma waiting_goes w : helper w = Receiving -> queue w <> [] \/ cut w = true \/ child_end_closed w = true -> goes w.
Proof.
  intros Eh H. exists (ByHelper (Recv None false)). cbn. rewrite Eh. unfold recv. destruct (queue w) as [|m q]; [|by eexists].
  destruct (_ || _) eqn:E; [by eexists|]. apply orb_false_iff in E as [E1 E2]. destruct H as [|[|]]; congruence.
Qed.

Lemma receiving w : helper w = Receiving \/ helper w <> Receiving.
Proof. destruct (helper w); auto. Qed.

Lemma started w : inv w -> child w <> Unforked -> helper w <> NotStarted.
Proof. intros [_ Hs _ _ _ _ _] Hc. unfold spawner_ok in Hs. destruct (spawner w); try (by destruct_and?); by destruct Hs as (o' & watch & -> & _). Qed.

Lemma live_goes w : inv w -> child_holds w = true -> goes w.
Proof.
  intros Hi Hh. unfold child_holds in Hh. pose proof (hs_child _ Hi) as Hc. unfold child_ok in Hc.
  assert (Hx : forall l w', prompt (ByChild l) = true -> child_step l w = Some w' -> goes w) by (intros l w' ? ?; by exists (ByChild l), w').
  destruct (child w) as [| | | |e| | | | |b] eqn:Ec; try done.
  - eapply (Hx (Hook)); [done|]. cbn. by rewrite Ec.
  - eapply (Hx ((OpenSelf (Ok tt)))); [done|]. cbn. by rewrite Ec.
  - destruct (sends w (report_message REPORT_PIDFD 0 (Some pid)) None) as [w' s] eqn:E.
    eapply (Hx ((SendReport None))); [done|]. cbn. by rewrite Ec, E.
  - destruct (sends w (report_message REPORT_ERRNO e None) None) as [w' s] eqn:E.
    eapply (Hx ((SendReport None))); [done|]. cbn. by rewrite Ec, E.
  - destruct Hc as [_ Hq]. assert (Hn : helper w <> NotStarted) by (apply started; [done|by rewrite Ec]).
    destruct (receiving w) as [Hr|Hr]; [apply waiting_goes; auto|].
    destruct (is_done w) eqn:Ed; [|by apply helper_goes].
    exists (ByChild (RecvVerdict None)). cbn. rewrite Ec. destruct (go w); [by eexists|]. unfold is_shut. unfold is_done in Ed.
    destruct (helper w); try done. by eexists.
  - eapply (Hx ((Exec None))); [done|]. cbn. by rewrite Ec.
  - eapply (Hx (Exit)); [done|]. cbn. by rewrite Ec.
Qed.

Lemma spawn_goes w : inv w -> spawner w = InSpawn -> goes w.
Proof.
  intros Hi Es. destruct (child_holds w) eqn:Eh; [by apply live_goes|]. pose proof (hs_child _ Hi) as Hc. unfold child_ok in Hc. unfold child_holds in Eh.
  destruct (child w) as [| | | |e| | | | |[]] eqn:Ec; try done.
  - exists (BySpawner ForkChild). cbn. rewrite Es, Ec. by eexists.
  - exists (BySpawner (Return true)). cbn. rewrite Es. unfold returns_ok. rewrite Ec. by eexists.
  - exists (BySpawner (Return false)). cbn. rewrite Es. unfold returns_err. rewrite Ec, Hc. by eexists.
  - exists (BySpawner (Return true)). cbn. rewrite Es. unfold returns_ok. rewrite Ec. by eexists.
Qed.

Lemma poll_goes w t : inv w -> spawner w = Polling t -> goes w \/ window w.
Proof.
  intros Hi Es. pose proof Hi as [Hc Hs Hr _ _ _ Ht]. unfold spawner_ok in Hs. rewrite Es in Hs. destruct Hs as (Hn & Hk & Hm & Ha).
  unfold returned_ok in Hr. rewrite Es in Hr. cbn in Hr.
  destruct (is_done w) eqn:Ed.
  { left. exists (BySpawner (Poll false)). cbn. rewrite Es, Ed. by eexists. }
  destruct (watch_ready w t) eqn:Ew.
  { left. exists (BySpawner (Poll false)). cbn. rewrite Es, Ed, Ew. by eexists. }
  destruct (child_holds w) eqn:Eh; [left; by apply live_goes|].
  destruct (receiving w) as [Er|Er]; [|left; by apply helper_goes].
  destruct (decide (queue w = [])) as [Eq|Eq]; [|left; apply waiting_goes; auto].
  destruct (child_end_closed w) eqn:Ee; [left; apply waiting_goes; auto|].
  unfold child_end_closed in Ee. rewrite Hm, Eh in Ee. apply negb_false_iff in Ee. cbn in Ee.
  assert (Hd : is_dead w = true).
  { unfold child_ok, told in Hc. rewrite Er in Hc. unfold is_dead, child_holds in *. destruct (child w) as [| | | | | | | | |[]]; try done. by destruct Hc. }
  destruct t; [unfold watch_ready in Ew; congruence|]. right. by split_and!; auto.
Qed.

(** No state but the window and the ends leaves the three nothing to do. *)
Lemma three_go w : inv w -> goes w \/ window w \/ ended w = true /\ child_holds w = false.
Proof.
  intros Hi. destruct (child_holds w) eqn:Eh; [left; by apply live_goes|]. pose proof Hi as [_ Hs _ _ _ _ Ht]. unfold spawner_ok in Hs.
  assert (Hx : forall l w', prompt (BySpawner l) = true -> spawner_step l w = Some w' -> goes w \/ window w \/ ended w = true /\ false = false)
    by (intros l w' ? ?; left; by exists (BySpawner l), w').
  destruct (spawner w) as [| |ok| | |t|t|ok watch|ok watch|ok o|e] eqn:Es.
  - eapply (Hx (StartHelper None)); [done|]. cbn. by rewrite Es.
  - left. by apply spawn_goes.
  - eapply (Hx DropEnd); [done|]. cbn. by rewrite Es.
  - eapply (Hx (Look false)); [done|]. cbn. by rewrite Es.
  - eapply (Hx (OpenWatch (Ok (if taken w then Another else Own)) true)); [done|]. unfold spawner_step. rewrite Es.
    assert (opens w (Ok (if taken w then Another else Own)) = true) as -> by (unfold opens; by destruct (taken w)). done.
  - set (a := match t with Own => if is_dead w then PeekExit else PeekRunning | Another => PeekRunning end).
    assert (Ha : peeks w t a = true /\ a <> PeekFailed) by (unfold a, peeks; by destruct t, (is_dead w)). destruct Ha as [Hp Ha].
    eapply (Hx (Peek a)); [by destruct a|]. unfold spawner_step. by rewrite Es, Hp.
  - destruct (poll_goes w t Hi Es); auto.
  - eapply (Hx Force); [done|]. cbn. by rewrite Es.
  - destruct Hs as (Hn & _ & Hk). destruct (is_done w) eqn:Ed.
    { unfold is_done in Ed. destruct (helper w) eqn:Eh'; try done. eapply (Hx Join); [done|]. cbn. by rewrite Es, Eh'. }
    left. destruct (receiving w) as [Er|Er]; [|by apply helper_goes]. apply waiting_goes; [done|]. destruct Hk; [done|auto].
  - right. right. split; [|done]. unfold ended. by rewrite Es.
  - right. right. split; [|done]. unfold ended. by rewrite Es.
Qed.

(** ** What is left to do shrinks *)

Lemma after_report_left r : (helper_left (after_report r) <= 4)%nat.
Proof. destruct r as [[]|]; cbn; lia. Qed.

Lemma child_left_step l w w' :
  child_step l w = Some w' -> helper w' = helper w /\ spawner w' = spawner w /\ (child_left (child w') < child_left (child w))%nat.
Proof.
  intros H. destruct (child w) eqn:Ec; destruct l as [| |[]|err|err|err| |]; cbn in H; rewrite Ec in H; try done.
  all: unfold sends in H; repeat case_match; simplify_eq; cbn; split_and!; try done; lia.
Qed.

Lemma helper_left_step l w w' :
  helper_step l w = Some w' -> child w' = child w /\ spawner w' = spawner w /\ (helper_left (helper w') < helper_left (helper w))%nat.
Proof.
  intros H. destruct (helper w) eqn:Eh; destruct l as [err dropped|fd dup|err| |]; cbn in H; rewrite Eh in H; try done.
  - unfold recv in H. repeat case_match; simplify_eq; cbn; (split_and!; [done..|]); try lia.
    all: match goal with |- context [after_report ?r] => pose proof (after_report_left r) end; lia.
  - injection H as <-. destruct (above_stdio_keeping fd dup); cbn; split_and!; try done; lia.
  - unfold send_go in H. destruct (classify_send _) as [[]|]; [..|done]; injection H as <-; cbn; split_and!; try done; lia.
  - injection H as <-. cbn. split_and!; try done; lia.
  - injection H as <-. cbn. split_and!; try done; lia.
Qed.

Lemma after_open_left a moved : (spawner_left (after_open a moved) <= 4)%nat.
Proof. destruct a as [[]|]; [destruct moved..|]; cbn; lia. Qed.

Lemma after_peek_left t a : (spawner_left (after_peek t a) <= 3)%nat.
Proof. destruct a; cbn; lia. Qed.

Lemma spawner_left_step l w w' : inv w -> spawner_step l w = Some w' -> (left_ w' < left_ w)%nat.
Proof.
  intros Hi H. pose proof (hs_spawner _ Hi) as Hs. unfold spawner_ok in Hs. unfold left_.
  destruct (spawner w) eqn:Es; destruct l as [[]| |[]| |[]|a moved|a|[]| |]; cbn in H; rewrite Es in H; try done.
  all: repeat case_match; simplify_eq; cbn; rewrite ?Es; cbn.
  all: try (destruct Hs as [-> _]); cbn; try lia.
  - pose proof (after_open_left a moved). lia.
  - pose proof (after_peek_left t a). lia.
  - match goal with H : helper w = _ |- _ => rewrite H end. cbn. lia.
Qed.

Lemma step_left l w w' : inv w -> step w l = Some w' -> (left_ w' + (if by_the_three l then 1 else 0) <= left_ w)%nat.
Proof.
  intros Hi H. destruct l as [l|l|l|l]; cbn [step by_the_three] in *.
  - apply child_left_step in H as (H1 & H2 & H3). unfold left_. rewrite H1, H2. lia.
  - apply helper_left_step in H as (H1 & H2 & H3). unfold left_. rewrite H1, H2. lia.
  - apply (spawner_left_step _ _ _ Hi) in H. lia.
  - destruct l; cbn in H; repeat case_match; simplify_eq; cbn; unfold left_; cbn; lia.
Qed.

Lemma run_left ls : forall w w', inv w -> run w ls = Some w' -> (left_ w' + length (filter by_the_three ls) <= left_ w)%nat.
Proof.
  induction ls as [|l ls IH]; intros w w' Hi H; cbn [run] in H.
  { injection H as <-. cbn. lia. }
  destruct (step w l) as [w1|] eqn:Es; [|done]. pose proof (step_left _ _ _ Hi Es) as Hl.
  assert (Hi1 : inv w1) by (apply (run_keeps [l] w); [done|]; cbn; by rewrite Es).
  specialize (IH _ _ Hi1 H). rewrite filter_cons. destruct (by_the_three l); cbn; destruct (decide _); cbn; try done; lia.
Qed.

(** C6: No interleaving leaves the handshake waiting. Whatever the system answers and whatever other
    processes are forked meanwhile, the three make at most 23 calls; and until the spawning thread has
    its answer and the child runs or is gone, one of them can make its next without failing, except in
    one window: a child that died before its report, reaped by another process, while its number
    names a process that runs on and a copy of its end of the channel is held. *)
Theorem handshake_ends ls w :
  run start ls = Some w ->
  (length (filter by_the_three ls) <= 23)%nat
  /\ ((exists l w', prompt l = true /\ step w l = Some w') \/ window w \/ ended w = true /\ child_holds w = false).
Proof.
  intros H. pose proof hs_start as Hi. split.
  - apply run_left in H; [|done]. cbn in H. lia.
  - apply three_go. by eapply run_keeps.
Qed.

(** What the spawning thread joins is so of the child, and stays so. *)
Lemma joined_is_so ls w ok o :
  run start ls = Some w -> spawner w = Joined ok o ->
  (forall p, carried o = Some p -> p = pid) /\ (ran w = true -> o = Opened pid)
  /\ (ok = false -> ERR_PROVES_NO_EXEC = true -> ran w = false) /\ (ok = true -> child w <> Unforked).
Proof.
  intros H Es. apply run_keeps in H; [|apply hs_start]. destruct H as [Hc Hs Hr _ Hn _ _].
  unfold spawner_ok in Hs. rewrite Es in Hs. destruct Hs as (o' & watch & Eh & ->). unfold returned_ok in Hr. rewrite Es in Hr. cbn in Hr.
  rewrite Eh in Hn. cbn in Hn. split_and!.
  - intros p Hp. apply Hn. destruct o', watch; done.
  - intros Hran. assert (Ht : o' = Opened pid); [|by subst].
    unfold child_ok, told in Hc. rewrite Eh, Hran in Hc. cbn in Hc.
    destruct (child w) as [| | | | | | | | |[]]; destruct_and?; try done; try congruence. specialize (Hc eq_refl). congruence.
  - intros -> He. unfold child_ok in Hc. destruct (Hr He) as [E|E]; by rewrite E in Hc.
  - intros ->. done.
Qed.

(** A helper that could not be started left nothing to run. *)
Lemma not_started_is_so ls w e : run start ls = Some w -> spawner w = NoHelper e -> child w = Unforked /\ ran w = false.
Proof.
  intros H Es. apply run_keeps in H; [|apply hs_start]. destruct H as [Hc Hs _ _ _ _ _]. unfold spawner_ok in Hs. rewrite Es in Hs.
  destruct Hs as (_ & Hu & _). unfold child_ok in Hc. by rewrite Hu in Hc.
Qed.

End Handshake.

(** A spawn whose program runs, and one in its window. *)
Definition demo_spawn : list Label :=
  [BySpawner (StartHelper None); BySpawner ForkChild; ByChild Hook; ByChild (OpenSelf (Ok tt)); ByOther ForkOther;
   ByChild (SendReport None); ByHelper (Recv None false); ByHelper (Move 2 (Ok 5)); ByHelper (SendGo None);
   ByChild (RecvVerdict None); ByHelper ShutEnd; ByChild (Exec None); BySpawner (Return true); BySpawner DropEnd;
   BySpawner (Look false); BySpawner (OpenWatch (Ok Own) true); ByHelper SayDone; BySpawner (Peek PeekRunning);
   BySpawner (Poll false); BySpawner Force; BySpawner Join].

Definition demo_window : list Label :=
  [BySpawner (StartHelper None); BySpawner ForkChild; ByOther ForkOther; ByChild Hook; ByChild Die; BySpawner (Return true);
   BySpawner DropEnd; BySpawner (Look false); ByOther Reap; BySpawner (OpenWatch (Ok Another) true);
   BySpawner (Peek PeekRunning)].

Definition demo_joined : World :=
  world Execd true (Done (Opened 70)) (Joined true (Opened 70)) [] false false false true false false.

Definition demo_waiting : World := world (Dead false) false Receiving (Polling Another) [] false false false true true false.

Lemma handshake_ends_witness :
  run 70 true false start demo_spawn = Some demo_joined /\ (length (filter by_the_three demo_spawn) <= 23)%nat
  /\ run 70 true false start demo_window = Some demo_waiting /\ window demo_waiting.
Proof.
  assert (Hr : run 70 true false start demo_spawn = Some demo_joined) by (vm_compute; reflexivity).
  split; [exact Hr|]. split; [exact (proj1 (handshake_ends 70 true false demo_spawn demo_joined Hr))|].
  split; [vm_compute; reflexivity|]. by split_and!.
Defined.

Lemma window_waits l : prompt l = true -> step 70 true false demo_waiting l = None.
Proof. destruct l as [[| |[]|[]|[]|[]| |]|[[] []|? []|[]| |]|[[]| |[]| |[]|[[]|] []|[]|[]| |]|[]]; done. Qed.
