(* ===== verification/HandshakeEnd.v ===== *)
(** The end of the pidfd handshake, [conclude] of [src/child/spawn/pidfd_handshake.rs]: what becomes of
    the child once the spawn and the helper have answered, over both kinds of spawned child, std's and
    tokio's ([src/tokio/spawn.rs]). The teardowns are SpawnTeardown's, within it. *)
From S2P Require Import Prelude Handshake Identity IoErrors CrateError History LeafEnd ElevationPlan OsChild OwnedTeardown ChildCalls SpawnTeardown SpawnFailure.
Local Open Scope Z_scope.

(** The calls: a teardown's, and those of [conclude] itself. The first peek of a failed spawn's child is
    [LookCollected]. *)
Inductive Ev :=
| Td (e : SpawnTeardown.Ev)
| LookCollected (a : result IoError PeekOutcome)
| LeaveHandle
| LeaveCopy (copied : bool)
| LeftUnreaped
| LeftToTokio
| KillUnexecuted (a : result IoError Sent)
| SlowExit (a : bool)
| WarnSlowExit
| AwaitExit (a : result IoError unit)
| TokioTryWait (a : result IoError (option Z)).

Notation K := (Hist Ev).

Definition of_teardown (e : Ev) : option SpawnTeardown.Ev := match e with Td e => Some e | _ => None end.

Notation within m := (embed Td of_teardown m).

Class Calls := {
  collected_answer : list Ev -> result IoError PeekOutcome;
  copy_answer : list Ev -> bool;
  kill_unexecuted_answer : list Ev -> result IoError Sent;
  slow_exit_answer : list Ev -> bool;
  await_exit_answer : list Ev -> result IoError unit;
  tokio_try_wait_answer : list Ev -> result IoError (option Z)
}.

(** [LeftFront]. *)
Inductive LeftFront := NotAFront | LeafHeld | GroupRoot | Here (f : ElevationPlan.Front) | ToLeaf.

Definition leaving_front (front : option ElevationPlan.Front) (leaf : bool) : LeftFront :=
  match front, leaf with
  | Some _, true => ToLeaf
  | Some f, false => Here f
  | None, true => LeafHeld
  | None, false => NotAFront
  end.

Definition killing_group (self : LeftFront) (yes : bool) : LeftFront :=
  match self with NotAFront => if yes then GroupRoot else self | _ => self end.

(** [Spawned]; [warn] says whether there is a threshold. *)
Class Spawned := {
  ERR_PROVES_NO_EXEC : bool;
  reap_unexecuted : bool -> K ChildFate;
  abandon_unreported : K unit
}.

Section Teardowns.
  Context `{SpawnTeardown.Sys, Calls}.

(** A teardown to the drop of its diagnosis. *)
Definition torn_down (pid : option Z) (warn : bool) (why : Diagnosis) : SpawnTeardown.H ChildFate :=
  do2! fate, why := teardown_through_pidfd_noting pid None warn why in
  do! _ := drop_diagnosis why in
  ret fate.

(** [leave_front_through_pidfd]: no subtree, so no wait and no threshold. *)
Definition left_front : SpawnTeardown.H (FrontFate * ChildFate) :=
  do! r := leave_front_through_pidfd_noting None None false false false in
  let '(fate, child_fate, why) := r in
  do! _ := drop_diagnosis why in
  ret (fate, child_fate).

(** The group first: it holds the root too. *)
Definition group_torn_down (warn : bool) : SpawnTeardown.H ChildFate :=
  do! r := kill_group_through_pidfd in
  torn_down None warn match r with Ok _ => false | Err _ => true end.

(** ** The two kinds of child *)

Definition leave_unreaped : K unit := note LeftUnreaped.

(** std's. *)
Definition StdChild (pid : Z) : Spawned := {|
  ERR_PROVES_NO_EXEC := true;
  reap_unexecuted warn := within (torn_down (Some pid) warn false);
  abandon_unreported := leave_unreaped |}.

(** [await_unexecuted_exit]: whether the kill was delivered. *)
Definition await_unexecuted_exit (warn : bool) : K bool :=
  do! sent := call kill_unexecuted_answer KillUnexecuted in
  do! _ := wait_warning warn (call slow_exit_answer SlowExit) (note WarnSlowExit) (call await_exit_answer AwaitExit) in
  ret match sent with Ok s => bool_decide (s = Delivered) | Err _ => false end.

(** tokio's. *)
Definition TokioChild : Spawned := {|
  ERR_PROVES_NO_EXEC := false;
  reap_unexecuted warn :=
    do! delivered := await_unexecuted_exit warn in
    do! looked := call tokio_try_wait_answer TokioTryWait in
    ret match looked with
        | Ok (Some _) => Reaped_
        | Ok None => Killed
        | Err _ => foreign_fate ForeignGone delivered
        end;
  abandon_unreported := note LeftToTokio |}.

(** ** [conclude] *)

(** [opened_teardown]: the front's fate goes into the error. *)
Definition opened_teardown (front : LeftFront) (warn : bool) : K (option FrontFate * ChildFate) :=
  do! peeked := call collected_answer LookCollected in
  let collected := match peeked with Ok (PeekForeign _) => true | _ => false end in
  match front, collected with
  | ToLeaf, _ => do! _ := note LeaveHandle in ret (None, FateUnknown)
  | Here _, false => do2! fate, child_fate := within left_front in ret (Some fate, child_fate)
  | GroupRoot, _ => do! fate := within (group_torn_down warn) in ret (None, fate)
  | LeafHeld, _ =>
      do! _ := call copy_answer LeaveCopy in
      do! fate := within (torn_down None warn false) in ret (None, fate)
  | _, _ => do! fate := within (torn_down None warn false) in ret (None, fate)
  end.

Definition died_before (k : ErrorKind) : Error := Io (io_new k).

Context `{Spawned}.

Definition not_started_unreaped (e : Error) : SpawnFailure :=
  if ERR_PROVES_NO_EXEC then NotStarted e else NotStartedUnreaped e.

(** [spawned] is the spawn's answer; the child's pidfd, or the failure with a front's fate. *)
Definition conclude (spawned : result IoError unit) (outcome : Handshake.Outcome) (front : LeftFront) (warn : bool) :
    K (result (SpawnFailure * option FrontFate) Z) :=
  let teardown := within (torn_down None warn false) in
  let with_child cause fate := Err (NotStartedWithChild cause fate, None) in
  match spawned, outcome with
  | Ok _, Handshake.Opened pidfd => ret (Ok pidfd)
  | Ok _, Handshake.Gone _ => do! fate := reap_unexecuted warn in ret (with_child (died_before Other) fate)
  | Ok _, Handshake.Failed e (Some _) => do! fate := reap_unexecuted warn in ret (with_child e fate)
  | Ok _, Handshake.Failed e None => do! _ := abandon_unreported in ret (with_child e Killed)
  | Ok _, (Handshake.NoReport | Handshake.Unwatched) =>
      do! _ := abandon_unreported in ret (with_child (died_before Other) Killed)
  | Err e, Handshake.Opened _ =>
      do2! fate, child_fate := opened_teardown front warn in
      ret (Err (if ERR_PROVES_NO_EXEC then NotStarted (Io e) else started (Io e) child_fate, fate))
  | Err e, Handshake.Gone _ => do! fate := teardown in ret (with_child (Io e) fate)
  | Err _, Handshake.Failed e (Some _) => do! fate := teardown in ret (with_child e fate)
  | Err _, Handshake.Failed e None => ret (Err (not_started_unreaped e, None))
  | Err e, (Handshake.NoReport | Handshake.Unwatched) => ret (Err (not_started_unreaped (Io e), None))
  end.

End Teardowns.

(** * What it does *)

(** What a teardown's calls show, whether the child is a front still there, which is sent nothing;
    whether its handle was left to its leaf, the child left to a reaper, and its exit waited for. *)
Record Facts := facts { shown : Seen; sparing : bool; gave : bool; left_alone : bool; waited : bool }.

Definition fresh_facts (sparing : bool) : Facts := facts (fresh true sparing) sparing false false false.

(** A front that was told to go may be there. *)
Definition may_be_there (front : LeftFront) (o : Handshake.Outcome) : bool :=
  match front, o with (Here _ | ToLeaf), Handshake.Opened _ => true | _, _ => false end.

Definition initial (front : LeftFront) (o : Handshake.Outcome) : Facts := fresh_facts (may_be_there front o).

Definition in_hand (s : Facts) : bool := negb (gave s) && negb (left_alone s).

(** A child in hand is killed once, and not a front that may still be there; it is waited for after its
    kill, and looked at after its wait; a handle is left to a leaf, and a child to a reaper, only of a child
    that was sent nothing. *)
Definition step (s : Facts) (e : Ev) : option Facts :=
  if negb (in_hand s) then None
  else match e with
  | Td e => s' ← SpawnTeardown.step (sparing s) (shown s) e; Some (facts s' (sparing s) false false (waited s))
  | LookCollected a =>
      if tried (shown s) then None
      else Some (facts (shown s) (sparing s && negb match a with Ok (PeekForeign _) => true | _ => false end) false false (waited s))
  | LeaveCopy _ => if tried (shown s) then None else Some s
  | LeaveHandle => if tried (shown s) then None else Some (facts (shown s) (sparing s) true false (waited s))
  | LeftUnreaped | LeftToTokio => if tried (shown s) then None else Some (facts (shown s) (sparing s) false true (waited s))
  | KillUnexecuted a =>
      if negb (sparing s) && held (shown s) && negb (tried (shown s)) then
        Some (facts (set_kill (shown s) match a with Ok _ => true | Err _ => false end match a with Ok Delivered => true | _ => false end)
                (sparing s) false false (waited s))
      else None
  | SlowExit _ | WarnSlowExit => if tried (shown s) then Some s else None
  | AwaitExit _ => if tried (shown s) then Some (facts (shown s) (sparing s) false false true) else None
  | TokioTryWait a =>
      if waited s && held (shown s) then
        Some (facts (set_look (shown s) match a with Ok (Some st) => Some st | _ => None end
                       match a with Ok None => true | _ => false end match a with Err _ => true | _ => false end)
                (sparing s) false false true)
      else None
  end.

(** What a fate says is so. *)
Definition fate_shown (f : ChildFate) (s : Facts) : Prop :=
  gave s = false /\
  match f with
  | Reaped_ => is_Some (got (shown s))
  | Killed => got (shown s) = None /\ (dying (shown s) = true \/ waited s = true \/ left_alone s = true)
  | Running id => id = None /\ got (shown s) = None /\ dying (shown s) = false /\ running (shown s) = true
  | FateGone => got (shown s) = None /\ sent (shown s) = false
  | FateUnknown => got (shown s) = None /\ dying (shown s) = false
  end.

Section Concluded.
  Context `{SpawnTeardown.Sys, Calls}.

(** ** Teardowns *)

Definition torn_so (f : ChildFate) (s : Seen) : Prop := forall sp w, fate_shown f (facts s sp false false w).

#[local] Arguments fate_looked : simpl never.

Ltac shown_go :=
  unfold torn_so, fate_shown; intros; rewrite ?look_unreadable, ?look_errs; unfold fate_looked, fate_of_a_look, is_echild; cbn;
  repeat match goal with
  | a : Sent |- _ => destruct a
  | r : ExitRecord |- _ => destruct r
  | |- context [bool_decide (raw_os_error ?e = _)] => destruct (bool_decide (raw_os_error e = _)) eqn:?
  end; cbn; naive_solver (auto with lia).

Lemma torn_down_keeps pid warn why here :
  keeps (SpawnTeardown.step false) (fresh true here) (torn_down pid warn why) torn_so.
Proof.
  unfold torn_down, teardown_through_pidfd_noting, teardown_unadopted_noting, kill_unadopted, kill, wait_unadopted_warning, wait_warning,
    try_wait, wait, drop_diagnosis, fold.
  keeps_go. all: shown_go.
Qed.

Lemma group_torn_down_keeps warn : keeps (SpawnTeardown.step false) (fresh true false) (group_torn_down warn) torn_so.
Proof.
  unfold group_torn_down, kill_group_through_pidfd. repeat keeps_step. eexists. split; [reflexivity|]. repeat keeps_step.
  apply torn_down_keeps.
Qed.

Lemma left_front_keeps :
  keeps (SpawnTeardown.step true) (fresh true true) left_front (fun r s => torn_so r.2 s /\ front_so (Some r.1) r.2 /\ tried s = false).
Proof.
  unfold left_front, leave_front_through_pidfd_noting, leave_unadopted_front_noting, try_wait, drop_diagnosis, fold.
  keeps_go. all: (split; [|split; [|reflexivity]]); [shown_go|]; cbn.
  all: rewrite ?look_unreadable, ?look_errs; unfold is_echild; try case_bool_decide; unfold fate_looked; cbn; eauto.
Qed.

(** Within [conclude]. *)
Lemma within_keeps {A} sp w0 s (m : SpawnTeardown.H A) Q :
  keeps (SpawnTeardown.step sp) s m Q ->
  keeps step (facts s sp false false w0) (within m) (fun a f => exists s', f = facts s' sp false false w0 /\ Q a s').
Proof.
  apply (keeps_embed Td of_teardown _ _ (fun s => facts s sp false false w0)).
  intros s1 e s2 He. cbn. by rewrite He.
Qed.

Lemma torn_down_within pid warn why here :
  keeps step (facts (fresh true here) false false false false) (within (torn_down pid warn why)) fate_shown.
Proof. eapply keeps_mono; [apply within_keeps, torn_down_keeps|]. intros f s (s' & -> & Hf). apply Hf. Qed.

(** ** The two kinds of child keep what [conclude] relies on *)

Class SpawnedKeeps `{Spawned} := {
  reap_keeps : forall warn, keeps step (fresh_facts false) (reap_unexecuted warn) fate_shown;
  abandon_keeps : keeps step (fresh_facts false) abandon_unreported (fun _ s => s = facts (fresh true false) false false true false) }.

#[export] Instance StdChild_keeps pid : @SpawnedKeeps (StdChild pid).
Proof. split; [intros warn; apply torn_down_within|]. cbn. by eapply keeps_note. Qed.

#[export] Instance TokioChild_keeps : @SpawnedKeeps TokioChild.
Proof.
  split; [|by eapply keeps_note]. intros warn. cbn. unfold await_unexecuted_exit, wait_warning.
  keeps_go. all: unfold fate_shown; cbn; split; [done|].
  all: repeat match goal with |- context [match ?x with _ => _ end] => is_var x; destruct x end; cbn; naive_solver.
Qed.

(** ** [conclude] *)

Context `{SpawnedKeeps}.

Definition concluded_so (ok : bool) (front : LeftFront) (o : Handshake.Outcome) (r : result (SpawnFailure * option FrontFate) Z) (s : Facts) : Prop :=
  match r with
  | Ok p => ok = true /\ o = Handshake.Opened p /\ s = initial front o
  | Err (NotStartedWithChild _ fate, ff) => fate_shown fate s /\ ff = None /\ forall p, o <> Handshake.Opened p
  | Err (SpawnMayHaveStarted _ fate w, ff) =>
      ok = false /\ w = false /\ ERR_PROVES_NO_EXEC = false /\ (exists p, o = Handshake.Opened p)
      /\ (gave s = true /\ fate = FateUnknown /\ front = ToLeaf \/ fate_shown fate s /\ front_so ff fate)
  | Err (NotStarted _, _) => ok = false /\ ERR_PROVES_NO_EXEC = true
  | Err (NotStartedUnreaped _, ff) => ok = false /\ ERR_PROVES_NO_EXEC = false /\ ff = None /\ carried o = None
  end.

Definition is_ok {E A} (r : result E A) : bool := match r with Ok _ => true | Err _ => false end.

Lemma opened_teardown_keeps front warn p :
  keeps step (initial front (Handshake.Opened p)) (opened_teardown front warn)
    (fun r s => gave s = true /\ r.2 = FateUnknown /\ front = ToLeaf \/ fate_shown r.2 s /\ front_so r.1 r.2).
Proof.
  unfold opened_teardown. keeps_step. keeps_step. eexists. split; [reflexivity|].
  set (collected := match a with Ok (PeekForeign _) => true | _ => false end).
  assert (Ht : forall here, keeps step (facts (fresh true here) false false false false)
    (do! fate := within (torn_down None warn false) in ret (None : option FrontFate, fate))
    (fun r s => gave s = true /\ r.2 = FateUnknown /\ front = ToLeaf \/ fate_shown r.2 s /\ front_so r.1 r.2)).
  { intros here. keeps_step. keeps_use torn_down_within. intros f s Hf. keeps_step. right. by split. }
  destruct front as [| | |f|]; cbn [initial may_be_there fresh_facts shown sparing waited andb].
  - apply (Ht false).
  - keeps_step. keeps_step. eexists. split; [reflexivity|]. apply (Ht false).
  - keeps_step. eapply keeps_mono; [apply within_keeps, group_torn_down_keeps|]. intros fate s (s' & -> & Hf). keeps_step. right. by split.
  - destruct collected; cbn; [apply (Ht true)|]. keeps_step.
    eapply keeps_mono; [apply within_keeps, left_front_keeps|]. intros [ff fate] s (s' & -> & Hf & Hff & _). keeps_step. right. by split.
  - by destruct collected; keeps_go; left.
Qed.

Lemma conclude_keeps spawned o front warn :
  keeps step (initial front o) (conclude spawned o front warn) (concluded_so (is_ok spawned) front o).
Proof.
  unfold conclude. destruct spawned as [?|e], o as [p|p|e' [p|]| |].
  all: try (replace (initial front _) with (fresh_facts false) by (by destruct front)).
  1: by keeps_step.
  1,2: keeps_step; keeps_use reap_keeps; intros fate s Hf; keeps_step; by split.
  1-3: keeps_step; keeps_use abandon_keeps; intros ? s ->; keeps_step; split; [|done]; unfold fate_shown; cbn; auto.
  1: keeps_step; keeps_use opened_teardown_keeps; intros [ff fate] s Hf; keeps_step; unfold concluded_so.
  1: destruct ERR_PROVES_NO_EXEC eqn:Ee; cbn; [done|split_and!; eauto].
  1,2: keeps_step; keeps_use (torn_down_within None warn false false); intros fate s Hf; keeps_step; by split.
  all: keeps_step; unfold concluded_so, not_started_unreaped; by destruct ERR_PROVES_NO_EXEC.
Qed.

End Concluded.

Section Truthful.
  Context `{SpawnTeardown.Sys, Calls, SpawnedKeeps}.


End Truthful.

(** An elevation front whose program ran when tokio's spawn failed, and std's child killed on its way. *)
#[local] Instance demo_sys : SpawnTeardown.Sys := {
  kill_answer _ := Ok Delivered;
  try_reap_answer _ := Ok ReapRunning;
  reap_answer _ := Ok (Ok (Status 9));
  peek_answer _ := Ok PeekRunning;
  reached_answer _ := Ok false;
  slow_answer _ := false;
  subtree_answer _ := false;
  identity_answer _ := (Identity.Unknown, None);
  entered_answer _ := false;
  group_answer _ := Ok tt;
  attach_answer _ := Err EContainment
}.

#[local] Instance demo_calls : Calls := {
  collected_answer _ := Ok PeekRunning;
  copy_answer _ := true;
  kill_unexecuted_answer _ := Ok Delivered;
  slow_exit_answer _ := false;
  await_exit_answer _ := Ok tt;
  tokio_try_wait_answer _ := Ok (Some 9)
}.

Definition demo_started : list Label :=
  [BySpawner (StartHelper None); BySpawner ForkChild; ByChild Hook; ByChild (OpenSelf (Ok tt)); ByChild (SendReport None);
   ByHelper (Recv None false); ByHelper (Move 4 (Ok 4)); ByHelper (SendGo None); ByChild (RecvVerdict None); ByChild (Exec None);
   BySpawner (Return false); BySpawner DropEnd; BySpawner Force; ByHelper ShutEnd; ByHelper SayDone; BySpawner Join].

Definition demo_started_end : World :=
  world Execd true (Done (Handshake.Opened 70)) (Joined false (Handshake.Opened 70)) [] false true false false false false.

Definition demo_error : IoError := io_new Other.

