(* ===== verification/FdMap.v ===== *)
(** The descriptors of a spawned child: [src/child/spawn/fd_map.rs], over the child's descriptor
    table, and the order of the steps between [fork] and [exec], [src/child/spawn/in_child.rs]. An
    open file is a number; a table maps a descriptor to its file and its close-on-exec flag; the
    calls are POSIX's, those interrupted by a signal repeated, below the process's limit. *)
From S2P Require Import Prelude IoErrors.
From stdpp Require Import gmap sorting.
Local Open Scope Z_scope.

(** * The table *)

Notation Table := (gmap Z (Z * bool)).

Definition EBADF : Z := 9.

Definition EMFILE : Z := 24.

Definition i32_top : Z := 2 ^ 31 - 1.

Section Limit.
  (** [RLIMIT_NOFILE]: every descriptor is below it. *)
  Variable limit : Z.

(** [F_DUPFD_CLOEXEC]: the lowest free number at or above [min]. *)
Definition dup_fd_cloexec_at_or_above (t : Table) (fd min : Z) : result IoError (Z * Table) :=
  match t !! fd with
  | None => Err (from_raw_os_error EBADF)
  | Some (file, _) =>
      if limit <=? min then Err (from_raw_os_error EINVAL)
      else
        match find_map (fun n => if bool_decide (t !! n = None) then Some n else None) (seqZ min (limit - min)) with
        | Some n => Ok (n, <[n := (file, true)]> t)
        | None => Err (from_raw_os_error EMFILE)
        end
  end.

(** [dup2] of two different descriptors. *)
Definition dup2_onto (t : Table) (oldfd newfd : Z) : result IoError Table :=
  match t !! oldfd with
  | None => Err (from_raw_os_error EBADF)
  | Some (file, _) => if newfd <? limit then Ok (<[newfd := (file, false)]> t) else Err (from_raw_os_error EBADF)
  end.

Definition clear_cloexec (t : Table) (fd : Z) : result IoError Table :=
  match t !! fd with
  | None => Err (from_raw_os_error EBADF)
  | Some (file, _) => Ok (<[fd := (file, false)]> t)
  end.

(** The flags of [fds] cleared, one by one: [preserve], on macOS. *)
Fixpoint preserve (t : Table) (fds : list Z) : result IoError Table :=
  match fds with
  | [] => Ok t
  | fd :: rest => let? t := clear_cloexec t fd in preserve t rest
  end.

(** The loop of [dup_avoiding] from [min] on; [None] is out of fuel. *)
Fixpoint dup_avoiding_from (fuel : nat) (t : Table) (fd : Z) (forbidden : list Z) (min : Z)
  : option (result IoError (Z * Table)) :=
  match fuel with
  | O => None
  | S fuel =>
      match dup_fd_cloexec_at_or_above t fd min with
      | Err e => Some (Err e)
      | Ok (tmp, t') =>
          if bool_decide (tmp ∈ forbidden) then
            let t'' := delete tmp t' in
            if tmp <? i32_top then dup_avoiding_from fuel t'' fd forbidden (tmp + 1)
            else Some (Err (of_kind InvalidInput))
          else Some (Ok (tmp, t'))
      end
  end.

Definition dup_avoiding (t : Table) (fd : Z) (forbidden : list Z) : option (result IoError (Z * Table)) :=
  dup_avoiding_from (S (length forbidden)) t fd forbidden 3.

(** * The plan *)

Record FdMapping := fd_mapping { parent_fd : Z; child_fd : Z }.

(** [_retired] holds the sources below 3 that [install] replaced. *)
Record Plan := plan { mappings : list FdMapping; child_fds : list Z; retired : list Z }.

(** [Vec::dedup]. *)
Fixpoint dedup (l : list Z) : list Z :=
  match l with
  | x :: (y :: _) as t => if x =? y then dedup t else x :: dedup t
  | _ => l
  end.

Definition Plan_build (ms : list FdMapping) (retired : list Z) : Plan :=
  plan ms (dedup (merge_sort Z.le (child_fd <$> ms))) retired.

(** [windows(2).find(|w| w[0] == w[1])]. *)
Fixpoint equal_neighbours (l : list Z) : option Z :=
  match l with
  | x :: (y :: _) as t => if x =? y then Some x else equal_neighbours t
  | _ => None
  end.

(** The parent's relocation of the sources below 3: the mappings, the retired numbers and the parent's
    table. *)
Fixpoint relocate (t : Table) (ms : list FdMapping) : result IoError (list FdMapping * list Z * Table) :=
  match ms with
  | [] => Ok ([], [], t)
  | m :: rest =>
      let? mt := (if parent_fd m <? 3 then
                    let? r := dup_fd_cloexec_at_or_above t (parent_fd m) 3 in
                    let '(tmp, t) := r in Ok (fd_mapping tmp (child_fd m), [parent_fd m], t)
                  else Ok (m, [], t)) in
      let '(m, gone, t) := mt in
      let? r := relocate t rest in
      let '(ms, retired, t) := r in Ok (m :: ms, gone ++ retired, t)
  end.

(** [install]: no plan for no mapping. *)
Definition install (t : Table) (ms : list FdMapping) : result IoError (option Plan * Table) :=
  if bool_decide (ms = []) then Ok (None, t)
  else
    match equal_neighbours (merge_sort Z.le (child_fd <$> ms)) with
    | Some _ => Err (of_kind InvalidInput)
    | None =>
        let? r := relocate t ms in
        let '(ms, retired, t) := r in Ok (Some (Plan_build ms retired), t)
    end.

(** Pass 1 of [apply]; replacing a mapping's source closes it. *)
Fixpoint pass1 (t : Table) (child_fds : list Z) (ms : list FdMapping)
  : option (result IoError (list FdMapping * Table)) :=
  match ms with
  | [] => Some (Ok ([], t))
  | m :: rest =>
      let moved :=
        if negb (parent_fd m =? child_fd m) && bool_decide (parent_fd m ∈ child_fds) then
          match dup_avoiding t (parent_fd m) child_fds with
          | None => None
          | Some (Err e) => Some (Err e)
          | Some (Ok (tmp, t)) => Some (Ok (fd_mapping tmp (child_fd m), delete (parent_fd m) t))
          end
        else Some (Ok (m, t)) in
      match moved with
      | None => None
      | Some (Err e) => Some (Err e)
      | Some (Ok (m, t)) =>
          match pass1 t child_fds rest with
          | None => None
          | Some (Err e) => Some (Err e)
          | Some (Ok (ms, t)) => Some (Ok (m :: ms, t))
          end
      end
  end.

(** Pass 2 of [apply]. *)
Fixpoint pass2 (t : Table) (ms : list FdMapping) : result IoError Table :=
  match ms with
  | [] => Ok t
  | m :: rest =>
      let? t := (if parent_fd m =? child_fd m then clear_cloexec t (parent_fd m)
                 else dup2_onto t (parent_fd m) (child_fd m)) in
      pass2 t rest
  end.

(** [Plan::apply]; [None] is out of fuel, which a theorem excludes. *)
Definition apply (self : Plan) (t : Table) : option (result IoError Table) :=
  match pass1 t (child_fds self) (mappings self) with
  | None => None
  | Some (Err e) => Some (Err e)
  | Some (Ok (ms, t)) => Some (pass2 t ms)
  end.

End Limit.

(** * [in_child.rs] *)

(** The steps of one spawn; a directory is its name, a placement its descriptor. *)
Record InChild := in_child {
  enter : option bytes; session : bool; placement : option Z; preserved : list Z; fd_map : option Plan }.

Definition InChild_default : InChild := in_child None false None [] None.

Definition is_empty (self : InChild) : bool :=
  bool_decide (enter self = None) && negb (session self) && bool_decide (placement self = None) &&
  bool_decide (preserved self = []) && match fd_map self with None => true | Some _ => false end.

(** [run] over the child's table: [chdir], [setsid] and [place] are what those calls answer, the last
    with the table as the placement leaves it. *)
Definition run (limit : Z) (self : InChild) (chdir : bytes -> result IoError unit) (setsid : result IoError unit)
    (place : Z -> Table -> result IoError Table) (t : Table) : option (result IoError Table) :=
  match (match enter self with Some dir => chdir dir | None => Ok tt end) with
  | Err e => Some (Err e)
  | Ok _ =>
      match (if session self then setsid else Ok tt) with
      | Err e => Some (Err e)
      | Ok _ =>
          match (match placement self with Some procs_fd => place procs_fd t | None => Ok t end) with
          | Err e => Some (Err e)
          | Ok t =>
              match preserve t (preserved self) with
              | Err e => Some (Err e)
              | Ok t => match fd_map self with Some p => apply limit p t | None => Some (Ok t) end
              end
          end
      end
  end.

(** What a table leaves a program across [exec]: the files without the close-on-exec flag. *)
Definition exec (t : Table) : gmap Z Z := omap (fun fc : Z * bool => if fc.2 then None else Some fc.1) t.

(** * Lemmas: the calls *)

Lemma dup_fd_Ok limit t fd min n t' :
  dup_fd_cloexec_at_or_above limit t fd min = Ok (n, t') ->
  exists file c, t !! fd = Some (file, c) /\ min <= n < limit /\ t !! n = None /\ t' = <[n := (file, true)]> t /\
    forall k, min <= k < n -> t !! k <> None.
Proof.
  unfold dup_fd_cloexec_at_or_above. destruct (t !! fd) as [[file c]|]; [|done]. destruct (Z.leb_spec limit min); [done|].
  destruct (find_map _ _) as [n'|] eqn:E; [|done]. intros [= -> <-].
  apply find_map_split in E as (l1 & x & l2 & Hs & Hx & Hl). case_bool_decide as Hn; [|done]. injection Hx as ->.
  exists file, c. split; [done|].
  assert (seqZ min (limit - min) !! length l1 = Some n) as Hi by (rewrite Hs; by apply list_lookup_middle).
  apply lookup_seqZ in Hi as [-> Hi]. split; [lia|]. split; [done|]. split; [done|].
  intros k Hk Hnone. assert (k ∈ l1) as Hin.
  { assert (seqZ min (limit - min) !! Z.to_nat (k - min) = Some k) as Hk' by (apply lookup_seqZ; lia).
    rewrite Hs, lookup_app_l in Hk' by lia. by eapply list_elem_of_lookup_2. }
  rewrite Forall_forall in Hl. specialize (Hl _ Hin). by rewrite bool_decide_true in Hl.
Qed.

Lemma dup_fd_Err limit t fd min e :
  dup_fd_cloexec_at_or_above limit t fd min = Err e -> t !! fd <> None ->
  forall k, min <= k < limit -> t !! k <> None.
Proof.
  unfold dup_fd_cloexec_at_or_above. destruct (t !! fd) as [[file c]|]; [|done]. destruct (Z.leb_spec limit min); [lia|].
  destruct (find_map _ _) as [n'|] eqn:E; [done|]. intros _ _ k Hk Hn. apply find_map_None in E. rewrite Forall_forall in E.
  assert (k ∈ seqZ min (limit - min)) as Hin by (apply elem_of_seqZ; lia).
  specialize (E _ Hin). by rewrite bool_decide_true in E.
Qed.

(** How many forbidden numbers are left at or above [min]. *)
Definition left_above (forbidden : list Z) (min : Z) : nat := length (filter (fun x => min <= x) forbidden).

Lemma left_above_drops forbidden min tmp :
  tmp ∈ forbidden -> min <= tmp -> (left_above forbidden (tmp + 1) < left_above forbidden min)%nat.
Proof.
  unfold left_above. intros Hin Hm.
  assert (forall l : list Z, (length (filter (fun x => tmp + 1 <= x)%Z l) <= length (filter (fun x => min <= x)%Z l))%nat) as Hle.
  { intros l. induction l as [|x l IH]; [done|]. rewrite !filter_cons. repeat case_decide; simpl; lia. }
  induction forbidden as [|x l IH]; [by apply not_elem_of_nil in Hin|]. specialize (Hle l).
  apply elem_of_cons in Hin as [->|Hin].
  - rewrite filter_cons_False by lia. rewrite filter_cons_True by lia. simpl. lia.
  - specialize (IH Hin). rewrite !filter_cons. repeat case_decide; simpl; lia.
Qed.

(** What a temporary is: free, outside the forbidden numbers and within the limit. *)
Definition temporary (limit : Z) (t : Table) (forbidden : list Z) (n : Z) : Prop :=
  3 <= n < limit /\ t !! n = None /\ n ∉ forbidden.

Lemma dup_avoiding_from_spec limit fuel t fd file c forbidden min :
  t !! fd = Some (file, c) -> 3 <= min -> (left_above forbidden min < fuel)%nat -> limit <= 2 ^ 31 ->
  match dup_avoiding_from limit fuel t fd forbidden min with
  | None => False
  | Some (Ok (n, t')) => temporary limit t forbidden n /\ t' = <[n := (file, true)]> t
  | Some (Err _) => forall n, min <= n -> ~ temporary limit t forbidden n
  end.
Proof.
  intros Hfd Hm Hfuel Hlim. revert min Hm Hfuel. induction fuel as [|fuel IH]; intros min Hm Hfuel; [lia|].
  cbn [dup_avoiding_from].
  destruct (dup_fd_cloexec_at_or_above limit t fd min) as [[tmp t']|e] eqn:Ed.
  2: { intros n Hn (Hr & Hf & _). apply (dup_fd_Err _ _ _ _ _ Ed) with (k := n); [by rewrite Hfd|lia|done]. }
  apply dup_fd_Ok in Ed as (file' & c' & Hfd' & Hr & Hfree & -> & Hlow). rewrite Hfd in Hfd'. injection Hfd' as <- <-.
  case_bool_decide as Hin; [|by split; [split; [lia|done]|done]].
  cbv zeta. rewrite delete_insert_id by done. assert (tmp < i32_top \/ tmp = i32_top) as [Ht|Ht] by (unfold i32_top; lia).
  - rewrite (proj2 (Z.ltb_lt tmp i32_top) Ht). pose proof (left_above_drops forbidden min tmp Hin ltac:(lia)).
    specialize (IH (tmp + 1) ltac:(lia) ltac:(lia)).
    destruct (dup_avoiding_from limit fuel t fd forbidden (tmp + 1)) as [[[n t']|e]|]; [done| |done].
    intros n Hn Htmp. apply (IH n); [|done]. destruct Htmp as (_ & Hf & Hnf). destruct (Z.eq_dec n tmp) as [->|]; [done|].
    destruct (Z.lt_ge_cases n tmp); [|lia]. by destruct (Hlow n).
  - rewrite (proj2 (Z.ltb_ge tmp i32_top)) by lia. intros n Hn (Hr' & Hf & Hnf).
    destruct (Z.eq_dec n tmp) as [->|]; [done|]. destruct (Z.lt_ge_cases n tmp); [by destruct (Hlow n)|]. unfold i32_top in Ht. lia.
Qed.

Lemma dup_avoiding_spec limit t fd file c forbidden :
  t !! fd = Some (file, c) -> limit <= 2 ^ 31 ->
  match dup_avoiding limit t fd forbidden with
  | None => False
  | Some (Ok (n, t')) => temporary limit t forbidden n /\ t' = <[n := (file, true)]> t
  | Some (Err _) => forall n, ~ temporary limit t forbidden n
  end.
Proof.
  intros Hfd Hlim. unfold dup_avoiding.
  pose proof (dup_avoiding_from_spec limit (S (length forbidden)) t fd file c forbidden 3 Hfd ltac:(lia)) as H.
  assert (left_above forbidden 3 < S (length forbidden))%nat as Hf.
  { unfold left_above. pose proof (length_filter (fun x => 3 <= x) forbidden). lia. }
  specialize (H Hf Hlim). destruct (dup_avoiding_from _ _ _ _ _ _) as [[[n t']|e]|]; [done| |done].
  intros n Ht. apply (H n); [|done]. by destruct Ht as ((? & _) & _).
Qed.

(** * Lemmas: the passes *)

Definition file_at (t : Table) (n : Z) : option Z := fst <$> t !! n.

(** [t'] is [t], but for new descriptors that do not survive [exec]. *)
Definition same_but_temporary (t t' : Table) (n : Z) : Prop :=
  t' !! n = t !! n \/ t !! n = None /\ exists file, t' !! n = Some (file, true).

Lemma same_but_temporary_trans t1 t2 t3 n :
  same_but_temporary t1 t2 n -> same_but_temporary t2 t3 n -> same_but_temporary t1 t3 n.
Proof. unfold same_but_temporary. intros [H1|[H1 [f1 H1']]] [H2|[H2 [f2 H2']]]; rewrite ?H2, ?H1; naive_solver congruence. Qed.

(** A mapping whose source is ready for the second pass: it has the file of the original, and no
    [dup2] onto another mapping's number touches it. *)
Definition ready (t0 t : Table) (C : list Z) (m m' : FdMapping) : Prop :=
  child_fd m' = child_fd m /\ file_at t (parent_fd m') = file_at t0 (parent_fd m) /\ is_Some (t !! parent_fd m') /\
  (parent_fd m' = child_fd m \/ parent_fd m' ∉ C).

(** Moving a source away: the other sources keep their files, and only the temporary is new. *)
Lemma pass1_moved t0 t m ms tmp file :
  parent_fd m ∉ (parent_fd <$> ms) -> t !! tmp = None -> is_Some (t !! parent_fd m) ->
  Forall (fun m => is_Some (t !! parent_fd m) /\ file_at t (parent_fd m) = file_at t0 (parent_fd m)) ms ->
  let t1 := delete (parent_fd m) (<[tmp := (file, true)]> t) in
  Forall (fun m => is_Some (t1 !! parent_fd m) /\ file_at t1 (parent_fd m) = file_at t0 (parent_fd m)) ms /\
  t1 !! tmp = Some (file, true) /\ (forall n, n <> parent_fd m -> n <> tmp -> t1 !! n = t !! n).
Proof.
  intros Hm Hfree Hs Ho t1. assert (tmp <> parent_fd m) as Htm by (intros ->; rewrite Hfree in Hs; by destruct Hs).
  assert (forall n, n <> parent_fd m -> n <> tmp -> t1 !! n = t !! n) as Hsame.
  { intros n Hn1 Hn2. subst t1. by rewrite lookup_delete_ne, lookup_insert_ne. }
  split; [|split; [|done]].
  - apply Forall_forall. intros m' Hm'. rewrite Forall_forall in Ho. destruct (Ho m' Hm') as [Hs' Hf'].
    unfold file_at in *. rewrite Hsame; [done| |].
    + intros E. apply Hm. rewrite <- E. by apply list_elem_of_fmap_2.
    + intros E. rewrite E, Hfree in Hs'. by destruct Hs'.
  - subst t1. by rewrite lookup_delete_ne, lookup_insert_eq.
Qed.

Lemma pass1_spec limit t0 t C ms ms' t' :
  limit <= 2 ^ 31 -> NoDup (parent_fd <$> ms) ->
  Forall (fun m => is_Some (t !! parent_fd m) /\ file_at t (parent_fd m) = file_at t0 (parent_fd m)) ms ->
  pass1 limit t C ms = Some (Ok (ms', t')) ->
  Forall2 (ready t0 t' C) ms ms' /\
  forall n, n ∉ (parent_fd <$> ms) \/ n ∉ C -> same_but_temporary t t' n.
Proof.
  intros Hlim. revert t ms' t'. induction ms as [|m ms IH]; intros t ms' t' Hnd Ho Hp.
  { injection Hp as <- <-. split; [constructor|]. intros n _. by left. }
  rewrite fmap_cons in Hnd. apply NoDup_cons in Hnd as [Hm Hnd]. apply Forall_cons in Ho as [[[[file c] Hpm] Hf] Ho].
  cbn [pass1] in Hp. destruct (negb (parent_fd m =? child_fd m) && bool_decide (parent_fd m ∈ C)) eqn:Ec.
  - pose proof (dup_avoiding_spec limit t (parent_fd m) file c C Hpm Hlim) as Hd.
    destruct (dup_avoiding limit t (parent_fd m) C) as [[[tmp t1]|e]|]; [|done|done]. destruct Hd as [(Hr & Hfree & HC) ->].
    destruct (pass1_moved t0 t m ms tmp file Hm Hfree ltac:(by eexists) Ho) as (Ho1 & Htmp & Hsame).
    set (t1 := delete (parent_fd m) _) in *.
    destruct (pass1 limit t1 C ms) as [[[ms1 t2]|e]|] eqn:E1; [|done|done]. injection Hp as <- <-.
    apply andb_true_iff in Ec as [Hne%negb_true_iff%Z.eqb_neq HpC%bool_decide_eq_true].
    destruct (IH t1 ms1 t2 Hnd Ho1 E1) as [Hready Hframe]. split.
    + constructor; [|done]. destruct (Hframe tmp (or_intror HC)) as [Ht2|[H _]]; [|congruence]. rewrite Htmp in Ht2.
      unfold ready, file_at in *. cbn. rewrite Ht2, <- Hf, Hpm. split; [done|]. split; [done|]. split; [done|]. by right.
    + intros n Hn. rewrite fmap_cons, not_elem_of_cons in Hn. destruct (Z.eq_dec n (parent_fd m)) as [->|Hnp]; [naive_solver|].
      eapply (same_but_temporary_trans _ t1); [|apply Hframe; naive_solver].
      destruct (Z.eq_dec n tmp) as [->|Hnt]; [right; eauto|left; by apply Hsame].
  - destruct (pass1 limit t C ms) as [[[ms1 t2]|e]|] eqn:E1; [|done|done]. injection Hp as <- <-.
    destruct (IH t ms1 t2 Hnd Ho E1) as [Hready Hframe]. split.
    + constructor; [|done]. destruct (Hframe (parent_fd m) (or_introl Hm)) as [Ht2|[H _]]; [|congruence].
      unfold ready, file_at in *. rewrite Ht2, Hf. split; [done|]. split; [done|]. split; [by rewrite Hpm|].
      apply andb_false_iff in Ec as [Ec%negb_false_iff%Z.eqb_eq|Ec%bool_decide_eq_false]; [by left|by right].
    + intros n Hn. apply Hframe. rewrite fmap_cons, not_elem_of_cons in Hn. tauto.
Qed.

(** Landing one mapping leaves the later ones ready. *)
Lemma ready_insert t0 t C m ms ms1 x :
  Forall2 (ready t0 t C) ms ms1 -> child_fd m ∉ (child_fd <$> ms) -> NoDup (child_fd <$> ms) ->
  (forall m', m' ∈ m :: ms -> child_fd m' ∈ C) -> Forall2 (ready t0 (<[child_fd m := x]> t) C) ms ms1.
Proof.
  intros Hrest. induction Hrest as [|y y1 l l1 Hy _ IHl]; intros Hm Hnd HC; [constructor|].
  rewrite fmap_cons, not_elem_of_cons in Hm. rewrite fmap_cons, NoDup_cons in Hnd. destruct Hnd as [_ Hnd].
  destruct Hm as [Hmy Hm]. constructor; [|apply IHl; [done|done|]; intros m' Hm'; apply HC; set_solver].
  destruct Hy as (Hcy & Hfy & Hsy & Hoy). unfold ready, file_at. split; [done|].
  assert (parent_fd y1 <> child_fd m) as Hne.
  { intros E. destruct Hoy as [Hoy|Hoy]; [congruence|]. apply Hoy. rewrite E. apply HC. by left. }
  rewrite lookup_insert_ne by done. done.
Qed.

Lemma pass2_spec limit t0 t C ms ms' t' :
  Forall2 (ready t0 t C) ms ms' -> NoDup (child_fd <$> ms) -> (forall m, m ∈ ms -> child_fd m ∈ C) ->
  pass2 limit t ms' = Ok t' ->
  (forall m, m ∈ ms -> exists file, file_at t0 (parent_fd m) = Some file /\ t' !! child_fd m = Some (file, false)) /\
  forall n, n ∉ (child_fd <$> ms) -> t' !! n = t !! n.
Proof.
  intros H. revert ms' t H t'. induction ms as [|m ms IH]; intros ms' t H t' Hnd HC Hp.
  { apply Forall2_nil_inv_l in H as ->. injection Hp as <-. split; [|done]. by intros m ?%not_elem_of_nil. }
  apply Forall2_cons_inv_l in H as (m1 & ms1 & (Hc & Hf & [[file c] Hpm] & Hor) & Hrest & ->).
  rewrite fmap_cons in Hnd. apply NoDup_cons in Hnd as [Hm Hnd]. cbn [pass2] in Hp. rewrite Hc in Hp.
  unfold clear_cloexec, dup2_onto in Hp. rewrite Hpm in Hp.
  set (t1 := <[child_fd m := (file, false)]> t).
  assert (pass2 limit t1 ms1 = Ok t') as Hp1.
  { destruct (Z.eqb_spec (parent_fd m1) (child_fd m)) as [E|E]; [by rewrite E in Hp|]. by destruct (child_fd m <? limit). }
  assert (Forall2 (ready t0 t1 C) ms ms1) as Hrest1 by (by apply (ready_insert t0 t C m ms ms1 (file, false))).
  destruct (IH ms1 t1 Hrest1 t' Hnd ltac:(intros m' Hm'; apply HC; by right) Hp1) as [Hall Hframe]. split.
  - intros m' [->|Hm']%elem_of_cons; [|by apply Hall]. exists file. split; [unfold file_at in *; by rewrite <- Hf, Hpm|].
    rewrite Hframe by done. subst t1. by rewrite lookup_insert_eq.
  - intros n Hn. rewrite fmap_cons, not_elem_of_cons in Hn. rewrite Hframe by tauto. subst t1. rewrite lookup_insert_ne by naive_solver. done.
Qed.

(** * Lemmas: the plan *)

Lemma dedup_elem l x : x ∈ dedup l <-> x ∈ l.
Proof.
  induction l as [|y l IH]; [done|]. destruct l as [|z l]; [done|].
  change (dedup (y :: z :: l)) with (if y =? z then dedup (z :: l) else y :: dedup (z :: l)).
  rewrite (elem_of_cons (z :: l)), <- IH.
  destruct (Z.eqb_spec y z) as [->|]; [|by rewrite elem_of_cons]. rewrite IH, elem_of_cons. tauto.
Qed.

Lemma child_fds_elem ms gone x : x ∈ child_fds (Plan_build ms gone) <-> x ∈ (child_fd <$> ms).
Proof. cbn. rewrite dedup_elem. by rewrite (merge_sort_Permutation Z.le). Qed.

Lemma neighbours_NoDup l : StronglySorted Z.le l -> equal_neighbours l = None -> NoDup l.
Proof.
  induction 1 as [|x l Hs IH Hx]; [by constructor|]. cbn [equal_neighbours]. destruct l as [|y l]; [by repeat constructor; apply not_elem_of_nil|].
  destruct (Z.eqb_spec x y) as [|Hne]; [done|]. intros H. constructor; [|by apply IH].
  apply Forall_cons in Hx as [Hxy Hxl]. intros [->|Hin]%elem_of_cons; [done|].
  inversion Hs as [|? ? ? Hy]; subst. rewrite Forall_forall in Hy. specialize (Hy _ Hin). lia.
Qed.

(** Numbers that a list of sources may take: their own, or ones free before. *)
Definition taken_from (t : Table) (ms : list FdMapping) (n : Z) : Prop := n ∈ (parent_fd <$> ms) \/ t !! n = None.

Definition relocated (t t' : Table) (m m' : FdMapping) : Prop :=
  child_fd m' = child_fd m /\ 3 <= parent_fd m' /\ file_at t' (parent_fd m') = file_at t (parent_fd m) /\
  is_Some (t' !! parent_fd m').

Lemma relocate_spec limit t0 t ms ms' gone t' :
  (forall n, is_Some (t0 !! n) -> t !! n = t0 !! n) ->
  NoDup (parent_fd <$> ms) -> Forall (fun m => is_Some (t0 !! parent_fd m)) ms ->
  relocate limit t ms = Ok (ms', gone, t') ->
  Forall2 (relocated t0 t') ms ms' /\ (forall n, is_Some (t !! n) -> t' !! n = t !! n) /\
  NoDup (parent_fd <$> ms') /\ Forall (taken_from t ms) (parent_fd <$> ms').
Proof.
  revert t ms' gone t'. induction ms as [|m ms IH]; intros t ms' gone t' Hext Hnd Ho Hr.
  { injection Hr as <- <- <-. split; [constructor|]. split; [done|]. split; constructor. }
  rewrite fmap_cons in Hnd. apply NoDup_cons in Hnd as [Hm Hnd]. apply Forall_cons in Ho as [Hpm Ho]. cbn [relocate] in Hr.
  set (moved := if parent_fd m <? 3 then _ else _) in Hr. destruct moved as [[[m1 gone1] t1]|e] eqn:Em; [|done].
  assert (child_fd m1 = child_fd m /\ 3 <= parent_fd m1 /\ file_at t1 (parent_fd m1) = file_at t0 (parent_fd m) /\
    is_Some (t1 !! parent_fd m1) /\ (forall n, is_Some (t !! n) -> t1 !! n = t !! n) /\
    (parent_fd m1 = parent_fd m \/ t !! parent_fd m1 = None)) as (Hc & H3 & Hf & Hs & Hext1 & Hfrom).
  { subst moved. destruct (Z.ltb_spec (parent_fd m) 3).
    - destruct (dup_fd_cloexec_at_or_above limit t (parent_fd m) 3) as [[tmp t2]|] eqn:Ed; [|done]. injection Em as <- _ <-.
      apply dup_fd_Ok in Ed as (file & c & Hfd & Hr3 & Hfree & -> & _). cbn.
      rewrite Hext in Hfd by done. unfold file_at. rewrite lookup_insert_eq, Hfd.
      split; [done|]. split; [lia|]. split; [done|]. split; [done|]. split; [|by right].
      intros n Hn. rewrite lookup_insert_ne; [done|]. intros ->. rewrite Hfree in Hn. by destruct Hn.
    - injection Em as <- _ <-. unfold file_at. rewrite Hext by done. split; [done|]. split; [lia|]. split; [done|]. split; [done|].
      split; [done|]. by left. }
  destruct (relocate limit t1 ms) as [[[ms1 gone2] t2]|] eqn:Er; [|done]. injection Hr as <- _ <-.
  assert (forall n, is_Some (t0 !! n) -> t1 !! n = t0 !! n) as Hext01 by (intros n Hn; rewrite Hext1; rewrite Hext; done).
  destruct (IH t1 ms1 gone2 t2 Hext01 Hnd Ho Er) as (Hall & Hext2 & Hnd2 & Hfrom2).
  split; [constructor; [|done]; unfold relocated, file_at in *; by rewrite Hext2|].
  split; [intros n Hn; rewrite Hext2; rewrite Hext1; done|]. rewrite !fmap_cons. split.
  - constructor; [|done]. intros Hin. rewrite Forall_forall in Hfrom2. destruct (Hfrom2 _ Hin) as [Hin2|Hn2].
    + destruct Hfrom as [E|Hfree]; [by rewrite E in Hin2|]. apply list_elem_of_fmap in Hin2 as (m' & E & Hm').
      rewrite Forall_forall in Ho. specialize (Ho _ Hm'). rewrite E, (Hext _ Ho) in Hfree.
      rewrite Hfree in Ho. by destruct Ho.
    + rewrite Hn2 in Hs. by destruct Hs.
  - constructor; [unfold taken_from; rewrite fmap_cons, elem_of_cons; naive_solver|].
    eapply Forall_impl; [exact Hfrom2|]. intros n [Hn|Hn]; unfold taken_from; rewrite fmap_cons, elem_of_cons; [by left; right|].
    right. destruct (t !! n) eqn:E; [|done]. rewrite Hext1 in Hn by (by rewrite E). congruence.
Qed.

Lemma apply_spec limit p t ms t' :
  limit <= 2 ^ 31 -> mappings p = ms -> (forall m, m ∈ ms -> child_fd m ∈ child_fds p) ->
  (forall n, n ∈ child_fds p -> n ∈ (child_fd <$> ms)) ->
  NoDup (parent_fd <$> ms) -> NoDup (child_fd <$> ms) -> Forall (fun m => is_Some (t !! parent_fd m)) ms ->
  apply limit p t = Some (Ok t') ->
  (forall m, m ∈ ms -> exists file, file_at t (parent_fd m) = Some file /\ t' !! child_fd m = Some (file, false)) /\
  forall n, n ∉ (child_fd <$> ms) -> same_but_temporary t t' n.
Proof.
  intros Hlim Hms HC HC' Hnp Hnc Ho Ha. unfold apply in Ha. rewrite Hms in Ha.
  destruct (pass1 limit t (child_fds p) ms) as [[[ms1 t1]|e]|] eqn:E1; [|done|done]. injection Ha as Ha.
  destruct (pass1_spec limit t t (child_fds p) ms ms1 t1 Hlim Hnp) as [Hready Hframe]; [|done|].
  { eapply Forall_impl; [exact Ho|]. by intros m Hm. }
  destruct (pass2_spec limit t t1 (child_fds p) ms ms1 t' Hready Hnc HC Ha) as [Hall Hframe2]. split; [done|].
  intros n Hn. unfold same_but_temporary. rewrite Hframe2 by done. apply Hframe. right. naive_solver.
Qed.

(** The second pass succeeds within the limit. *)
Lemma pass2_total limit t0 t C ms ms' :
  Forall2 (ready t0 t C) ms ms' -> NoDup (child_fd <$> ms) -> (forall m, m ∈ ms -> child_fd m ∈ C) ->
  Forall (fun m => child_fd m < limit) ms -> exists t', pass2 limit t ms' = Ok t'.
Proof.
  intros H. revert ms' t H. induction ms as [|m ms IH]; intros ms' t H Hnd HC Hl.
  { apply Forall2_nil_inv_l in H as ->. by eexists. }
  apply Forall2_cons_inv_l in H as (m1 & ms1 & (Hc & Hf & [[file c] Hpm] & Hor) & Hrest & ->).
  rewrite fmap_cons in Hnd. apply NoDup_cons in Hnd as [Hm Hnd]. apply Forall_cons in Hl as [Hlm Hl].
  cbn [pass2]. rewrite Hc. unfold clear_cloexec, dup2_onto. rewrite Hpm, (proj2 (Z.ltb_lt _ _) Hlm).
  set (t1 := <[child_fd m := (file, false)]> t).
  assert (Forall2 (ready t0 t1 C) ms ms1) as Hrest1 by (by apply (ready_insert t0 t C m ms ms1 (file, false))).
  destruct (IH ms1 t1 Hrest1 Hnd ltac:(intros m' Hm'; apply HC; by right) Hl) as [t' Ht']. exists t'.
  destruct (Z.eqb_spec (parent_fd m1) (child_fd m)) as [E|E]; [by rewrite E|done].
Qed.

Lemma filter_one_out (l : list Z) x : NoDup l -> (length l <= S (length (filter (fun n => n <> x) l)))%nat.
Proof.
  induction 1 as [|y l Hy Hnd IH]; [simpl; lia|]. destruct (Z.eq_dec y x) as [->|Hne].
  - rewrite filter_cons_False by tauto. cbn [length]. enough (filter (fun n => n <> x) l = l) as -> by lia.
    clear IH Hnd. induction l as [|z l IHl]; [done|]. rewrite not_elem_of_cons in Hy.
    rewrite filter_cons_True by naive_solver. by rewrite IHl by tauto.
  - rewrite filter_cons_True by done. simpl. lia.
Qed.

(** The first pass succeeds with a free number for each mapping. *)
Lemma pass1_total limit t C ms free :
  limit <= 2 ^ 31 -> NoDup (parent_fd <$> ms) -> Forall (fun m => is_Some (t !! parent_fd m)) ms ->
  pass1 limit t C ms <> None /\
  (NoDup free -> Forall (temporary limit t C) free -> (length ms <= length free)%nat ->
   exists r, pass1 limit t C ms = Some (Ok r)).
Proof.
  intros Hlim. revert t free. induction ms as [|m ms IH]; intros t free Hnd Ho; [split; [done|]; intros; by eexists|].
  rewrite fmap_cons in Hnd. apply NoDup_cons in Hnd as [Hm Hnd]. apply Forall_cons in Ho as [[[file c] Hpm] Ho].
  cbn [pass1]. destruct (negb (parent_fd m =? child_fd m) && bool_decide (parent_fd m ∈ C)) eqn:Ec.
  - pose proof (dup_avoiding_spec limit t (parent_fd m) file c C Hpm Hlim) as Hd.
    destruct (dup_avoiding limit t (parent_fd m) C) as [[[tmp t1]|e]|]; [| |done].
    + destruct Hd as [(Hr & Hfree & HC) ->].
      destruct (pass1_moved t t m ms tmp file Hm Hfree ltac:(by eexists)) as (Ho1 & _ & Hsame); [by eapply Forall_impl|].
      destruct (IH (delete (parent_fd m) (<[tmp:=(file, true)]> t)) (filter (fun n => n <> tmp) free) Hnd) as [Hne Hok].
      { eapply Forall_impl; [exact Ho1|]. by intros ? [? _]. }
      split; [by destruct (pass1 _ _ _ ms) as [[[]|]|]|]. intros Hndf Hall Hlen.
      destruct Hok as [[ms1 t1] ->]; [by apply NoDup_filter| | |by eexists].
      * apply Forall_forall. intros n [Hn Hin]%list_elem_of_filter. rewrite Forall_forall in Hall.
        destruct (Hall _ Hin) as (? & Hnf & ?). split; [done|]. split; [|done].
        rewrite Hsame; [done| |done]. intros ->. by rewrite Hpm in Hnf.
      * pose proof (filter_one_out free tmp Hndf). cbn in Hlen. lia.
    + split; [done|]. intros _ Hall Hlen. destruct free as [|n free]; [simpl in Hlen; lia|].
      apply Forall_cons in Hall as [Hn _]. by destruct (Hd n).
  - destruct (IH t free Hnd Ho) as [Hne Hok]. split; [by destruct (pass1 _ _ _ ms) as [[[]|]|]|].
    intros Hndf Hall Hlen. destruct Hok as [[ms1 t1] ->]; [done|done|simpl in Hlen; lia|by eexists].
Qed.

Lemma install_Ok limit t ms p t1 :
  NoDup (parent_fd <$> ms) -> Forall (fun m => is_Some (t !! parent_fd m)) ms ->
  install limit t ms = Ok (Some p, t1) ->
  Forall2 (relocated t t1) ms (mappings p) /\ (forall n, is_Some (t !! n) -> t1 !! n = t !! n) /\
  NoDup (parent_fd <$> mappings p) /\ NoDup (child_fd <$> ms) /\
  (forall n, n ∈ child_fds p <-> n ∈ (child_fd <$> ms)).
Proof.
  intros Hnd Ho. unfold install. case_bool_decide; [done|].
  destruct (equal_neighbours _) eqn:Ee; [done|]. destruct (relocate limit t ms) as [[[ms1 gone] t2]|] eqn:Er; [|done].
  intros [= <- <-]. destruct (relocate_spec limit t t ms ms1 gone t2 (fun _ _ => eq_refl) Hnd Ho Er) as (Hall & Hext & Hnd1 & _).
  split; [done|]. split; [done|]. split; [done|]. split.
  - apply (neighbours_NoDup (merge_sort Z.le (child_fd <$> ms))) in Ee; [|apply (StronglySorted_merge_sort Z.le)].
    by rewrite (merge_sort_Permutation Z.le) in Ee.
  - intros n. rewrite child_fds_elem. enough (child_fd <$> ms1 = child_fd <$> ms) as -> by done.
    clear -Hall. induction Hall as [|m m1 l l1 (Hc & _) _ IH]; [done|]. by rewrite !fmap_cons, Hc, IH.
Qed.

(** The sources of a plan, in a child whose numbers from 3 on are the parent's. *)
Lemma child_sources t t1 tc ms ms1 :
  Forall2 (relocated t t1) ms ms1 -> (forall n, 3 <= n -> tc !! n = t1 !! n) ->
  Forall (fun m => is_Some (tc !! parent_fd m)) ms1 /\
  child_fd <$> ms1 = child_fd <$> ms /\
  forall m, m ∈ ms -> exists m1, m1 ∈ ms1 /\ child_fd m1 = child_fd m /\ file_at tc (parent_fd m1) = file_at t (parent_fd m).
Proof.
  intros H Htc. induction H as [|m m1 l l1 (Hc & H3 & Hf & Hs) _ (IH1 & IH2 & IH3)].
  { split; [constructor|]. split; [done|]. by intros m ?%not_elem_of_nil. }
  split; [constructor; [by rewrite Htc|done]|]. split; [by rewrite !fmap_cons, Hc, IH2|].
  intros m' [->|Hm']%elem_of_cons.
  - exists m1. split; [by left|]. split; [done|]. unfold file_at in *. by rewrite Htc.
  - destruct (IH3 m' Hm') as (m1' & ? & ?). exists m1'. split; [by right|done].
Qed.

(** * Properties *)

(** C4: the mappings are one simultaneous assignment: whatever their numbers, crossed, cyclic or in
    place, and whatever std left at 0, 1 and 2, the program finds at each number asked for the file
    that its source had when the spawn was asked for, and every other number it inherits as before;
    no source is overwritten before it is read and no temporary survives. *)
Theorem mapped_across_exec limit t ms p t1 tc t' :
  limit <= 2 ^ 31 -> NoDup (parent_fd <$> ms) -> Forall (fun m => is_Some (t !! parent_fd m)) ms ->
  install limit t ms = Ok (Some p, t1) -> (forall n, 3 <= n -> tc !! n = t1 !! n) ->
  apply limit p tc = Some (Ok t') ->
  NoDup (child_fd <$> ms) /\
  (forall m, m ∈ ms -> exec t' !! child_fd m = file_at t (parent_fd m) /\ is_Some (exec t' !! child_fd m)) /\
  (forall n, n ∉ (child_fd <$> ms) -> exec t' !! n = exec tc !! n).
Proof.
  intros Hlim Hnd Ho Hi Htc Ha. destruct (install_Ok _ _ _ _ _ Hnd Ho Hi) as (Hall & _ & Hnd1 & Hndc & HC).
  destruct (child_sources t t1 tc ms (mappings p) Hall Htc) as (Ho1 & Ec & Hsrc).
  destruct (apply_spec limit p tc (mappings p) t' Hlim eq_refl) as [Hland Hframe]; try done.
  { intros m Hm. apply HC. rewrite <- Ec. by apply list_elem_of_fmap_2. }
  { intros n. rewrite Ec. apply HC. }
  { by rewrite Ec. }
  split; [done|]. rewrite Ec in Hframe. split.
  - intros m Hm. destruct (Hsrc m Hm) as (m1 & Hm1 & Hc1 & Hf1). destruct (Hland m1 Hm1) as (file & Hf & Ht').
    rewrite <- Hf1, Hf. rewrite Hc1 in Ht'. unfold exec. rewrite lookup_omap, Ht'. done.
  - intros n Hn. unfold exec. rewrite !lookup_omap. destruct (Hframe n Hn) as [->|[-> [file ->]]]; done.
Qed.

(** The shuffle always ends, and it succeeds whenever it can: the search for a temporary never runs
    past its bound, and with every target below the limit and one free, unwanted number above stdio for
    each mapping the child's table is remapped without an error. *)
Theorem fd_map_succeeds limit t ms p t1 tc free :
  limit <= 2 ^ 31 -> NoDup (parent_fd <$> ms) -> Forall (fun m => is_Some (t !! parent_fd m)) ms ->
  install limit t ms = Ok (Some p, t1) -> (forall n, 3 <= n -> tc !! n = t1 !! n) ->
  apply limit p tc <> None /\
  (Forall (fun m => child_fd m < limit) ms -> NoDup free -> Forall (temporary limit tc (child_fds p)) free ->
   (length ms <= length free)%nat -> exists t', apply limit p tc = Some (Ok t')).
Proof.
  intros Hlim Hnd Ho Hi Htc. destruct (install_Ok _ _ _ _ _ Hnd Ho Hi) as (Hall & _ & Hnd1 & Hndc & HC).
  destruct (child_sources t t1 tc ms (mappings p) Hall Htc) as (Ho1 & Ec & _).
  destruct (pass1_total limit tc (child_fds p) (mappings p) free Hlim Hnd1 Ho1) as [Hne Hok]. unfold apply. split.
  - by destruct (pass1 limit tc (child_fds p) (mappings p)) as [[[]|]|].
  - intros Hcl Hndf Hfree Hlen. destruct Hok as [[ms1 t2] Hp1]; [done|done|by rewrite <- (Forall2_length _ _ _ Hall)|].
    rewrite Hp1. destruct (pass1_spec limit tc tc (child_fds p) (mappings p) ms1 t2 Hlim Hnd1) as [Hready _]; [|done|].
    { eapply Forall_impl; [exact Ho1|]. by intros m Hm. }
    destruct (pass2_total limit tc t2 (child_fds p) (mappings p) ms1 Hready) as [t' ->]; [by rewrite Ec| | |by eexists].
    + intros m Hm. apply HC. rewrite <- Ec. by apply list_elem_of_fmap_2.
    + rewrite <- (Forall_fmap child_fd (fun n => n < limit)), Ec. by rewrite Forall_fmap.
Qed.

(** Two sources that trade places. *)
Definition demo_table : Table := {[ 0 := (10, false); 1 := (11, false); 2 := (12, false); 3 := (30, true); 4 := (40, true) ]}.

Definition demo_swap : list FdMapping := [fd_mapping 3 4; fd_mapping 4 3].

Lemma demo_swap_open : NoDup (parent_fd <$> demo_swap) /\ Forall (fun m => is_Some (demo_table !! parent_fd m)) demo_swap.
Proof. split; [apply (bool_decide_unpack _); by vm_compute|]. by repeat constructor. Qed.

Definition demo_plan : Plan := Plan_build demo_swap [].

Lemma mapped_across_exec_witness :
  match apply 16 demo_plan demo_table with
  | Some (Ok t') => exec t' !! 4 = Some 30 /\ exec t' !! 3 = Some 40
  | _ => False
  end.
Proof.
  destruct (apply 16 demo_plan demo_table) as [[t'|e]|] eqn:E; [|by vm_compute in E..].
  destruct (mapped_across_exec 16 demo_table demo_swap demo_plan demo_table demo_table t' ltac:(lia)
    (proj1 demo_swap_open) (proj2 demo_swap_open) eq_refl (fun _ _ => eq_refl) E) as (_ & Hm & _).
  split; [apply (Hm (fd_mapping 3 4)); by left|apply (Hm (fd_mapping 4 3)); right; by left].
Defined.

Lemma fd_map_succeeds_witness : exists t', apply 16 demo_plan demo_table = Some (Ok t').
Proof.
  apply (fd_map_succeeds 16 demo_table demo_swap demo_plan demo_table demo_table [5; 6] ltac:(lia)
    (proj1 demo_swap_open) (proj2 demo_swap_open) eq_refl (fun _ _ => eq_refl)).
  - by repeat constructor.
  - apply (bool_decide_unpack _). by vm_compute.
  - repeat constructor; try lia; apply (bool_decide_unpack _); by vm_compute.
  - by vm_compute.
Defined.
