(* ===== verification/Waiting.v ===== *)
(** Waiting: the deadline arithmetic and the re-arming loop of [src/wait.rs], the polls of
    [src/os_process/poll.rs] and the wait loop of [src/os_process/drive.rs]. Durations and instants
    are nanoseconds; what the clock and the system answer, round by round, is an argument. Test
    clocks and probes are left out; [None] is the answers having run out. *)
From S2P Require Import Prelude IoErrors Identity CrateError.
Local Open Scope Z_scope.

(** * Deadlines *)

Definition MS : Z := 1000000.

Section Clock.
  (** The platform's last instant. *)
  Variable ceiling : Z.

Definition checked_add (at_ d : Z) : option Z := if at_ + d <=? ceiling then Some (at_ + d) else None.

Definition TOKIO_TIMER_ROUNDING_MARGIN : Z := MS.

Definition clears_tokio_timer_margin (at_ : Z) : bool :=
  match checked_add at_ TOKIO_TIMER_ROUNDING_MARGIN with Some _ => true | None => false end.

Definition deadline_at (now duration : Z) : option Z :=
  match checked_add now duration with
  | Some at_ => if clears_tokio_timer_margin at_ then Some at_ else None
  | None => None
  end.

(** [absolute] of [drive.rs], read at [now]. *)
Definition absolute (timeout : option Z) (now : Z) : option Z := timeout ≫= deadline_at now.

End Clock.

(** [saturating_duration_since]. *)
Definition remaining_at (deadline : option Z) (now : Z) : option Z := (fun at_ => Z.max 0 (at_ - now)) <$> deadline.

(** Whether a deadline has passed: [remaining(deadline) == Some(Duration::ZERO)]. *)
Definition passed (deadline : option Z) (now : Z) : bool := bool_decide (remaining_at deadline now = Some 0).

Definition ceil_millis (d : Z) : Z := - ((- d) / 1000000).

Definition WIN32_INFINITE : Z := 2 ^ 32 - 1.

Definition win32_wait_clamp : Z := WIN32_INFINITE - 1.

Definition win32_timeout_ms (remaining : option Z) : Z :=
  match remaining with
  | None => WIN32_INFINITE
  | Some d => Z.min (ceil_millis d) win32_wait_clamp mod 2 ^ 32
  end.

Definition MAX_BLOCK : Z := 0xFFFFFFFE * MS.

Definition clamp_block (remaining : Z) : Z := Z.min remaining MAX_BLOCK.

(** * [rearm_until] *)

(** One round: when it reads the clock first, what it answers for the time left, and when it reads the
    clock again. *)
Record Round (E T : Type) := round { start : Z; answer : option Z -> result E (option T); finish : Z }.

Arguments round {E T}.
Arguments start {E T}.
Arguments answer {E T}.
Arguments finish {E T}.

Fixpoint rearm_until {E T} (deadline : option Z) (rounds : list (Round E T)) : option (result E (option T)) :=
  match rounds with
  | [] => None
  | r :: rest =>
      match answer r (remaining_at deadline (start r)) with
      | Err e => Some (Err e)
      | Ok out =>
          if match out with Some _ => true | None => false end || passed deadline (finish r) then Some (Ok out)
          else rearm_until deadline rest
      end
  end.

(** [wait_until]: the event, [None] being [WAIT_TIMEOUT]; a round answers for the milliseconds armed. *)
Definition wait_until {T} (deadline : option Z) (rounds : list (Z * (Z -> option T) * Z)) : option (option T) :=
  match rearm_until (E := Empty_set) deadline
    ((fun r : Z * (Z -> option T) * Z =>
        round r.1.1 (fun remaining => @Ok Empty_set _ (r.1.2 (win32_timeout_ms remaining))) r.2) <$> rounds) with
  | Some (Ok out) => Some out
  | Some (Err e) => match e with end
  | None => None
  end.

(** * [poll.rs] *)

(** The events of a ready descriptor that [readable] tells apart. *)
Inductive Revents := RNval | RErr | RReadable.

Definition readable (r : Revents) : result IoError unit :=
  match r with RNval | RErr => Err (of_kind Other) | RReadable => Ok tt end.

(** What a [poll] answers: nothing in the time it was given, an error, or the events. *)
Inductive PollAnswer := PNothing | PErrno (e : IoError) | PReady (r : Revents).

(** [any_ready_now] then [readable]: [is_readable], over its polls; one that a signal interrupted is
    repeated. *)
Fixpoint is_readable (polls : list PollAnswer) : option (result IoError bool) :=
  match polls with
  | [] => None
  | PNothing :: _ => Some (Ok false)
  | PErrno e :: rest => if bool_decide (kind e = Interrupted) then is_readable rest else Some (Err e)
  | PReady r :: _ => Some (let? _ := readable r in Ok true)
  end.

Definition MAX_POLL_BLOCK : Z := (2 ^ 31 - 1) * MS.

(** The round of [poll_readable]. *)
Definition poll_round (poll : option Z -> PollAnswer) (remaining : option Z) : result IoError (option unit) :=
  match poll ((fun d => Z.min d MAX_POLL_BLOCK) <$> remaining) with
  | PNothing => Ok None
  | PErrno e => if bool_decide (kind e = Interrupted) then Ok None else Err e
  | PReady r => let? u := readable r in Ok (Some u)
  end.

(** [poll_readable] without a deadline: polls until one is not interrupted. *)
Fixpoint poll_forever (polls : list PollAnswer) : option (result IoError bool) :=
  match polls with
  | [] => None
  | PErrno e :: rest => if bool_decide (kind e = Interrupted) then poll_forever rest else Some (Err e)
  | PNothing :: _ => Some (Ok true)
  | PReady r :: _ => Some (let? _ := readable r in Ok true)
  end.

Definition poll_readable (deadline : Z) (rounds : list (Z * (option Z -> PollAnswer) * Z)) : option (result IoError bool) :=
  match rearm_until (Some deadline)
    ((fun r : Z * (option Z -> PollAnswer) * Z => round r.1.1 (poll_round r.1.2) r.2) <$> rounds) with
  | Some (Ok seen) => Some (Ok (match seen with Some _ => true | None => false end))
  | Some (Err e) => Some (Err e)
  | None => None
  end.

(** * [drive.rs] *)

(** What a look answers; what it waits for is the system's. *)
Inductive Step (T : Type) := Done (out : T) | Wait | Recheck.

Arguments Done {T}.
Arguments Wait {T}.
Arguments Recheck {T}.

Inductive RunOutcome (T : Type) := RDone (out : T) | DeadlinePassed.

Arguments RDone {T}.
Arguments DeadlinePassed {T}.

(** One turn of the loop: when it reads the clock before the look, the look, when it reads the clock
    after it, what blocking answers and what the waitable makes of a failed block. *)
Record Turn (T : Type) := turn {
  before : Z; look : result Error (Step T); after : Z; blocked : result Error unit; block_failed : Error -> result Error unit }.

Arguments turn {T}.
Arguments before {T}.
Arguments look {T}.
Arguments after {T}.
Arguments blocked {T}.
Arguments block_failed {T}.

(** What the loop does between two looks: it blocks until the deadline, or it pauses. *)
Inductive Act := Block (deadline : option Z) | Pause (d : Z).

Section Drive.
  (** The delays of the backoff, from its first on. *)
  Variable delay : nat -> Z.
  Context {T : Type}.

(** [run]: its result and what it did, [step] being the backoff's position. *)
Fixpoint run_from (step : nat) (deadline : option Z) (turns : list (Turn T))
  : option (result Error (RunOutcome T) * list Act) :=
  match turns with
  | [] => None
  | u :: rest =>
      let final_look := passed deadline (before u) in
      match look u with
      | Err e => Some (Err e, [])
      | Ok (Done out) => Some (Ok (RDone out), [])
      | Ok Wait =>
          if final_look then Some (Ok DeadlinePassed, [])
          else if passed deadline (after u) then run_from step deadline rest
          else
            match (match blocked u with Err e => block_failed u e | Ok _ => Ok tt end) with
            | Err e => Some (Err e, [Block deadline])
            | Ok _ => (fun ra => (ra.1, Block deadline :: ra.2)) <$> run_from 0 deadline rest
            end
      | Ok Recheck =>
          if final_look then Some (Ok DeadlinePassed, [])
          else
            let time_left := remaining_at deadline (after u) in
            if passed deadline (after u) then run_from step deadline rest
            else
              let pause := match time_left with Some d => Z.min (delay step) d | None => delay step end in
              (fun ra => (ra.1, Pause pause :: ra.2)) <$> run_from (S step) deadline rest
      end
  end.

Definition run (deadline : option Z) (turns : list (Turn T)) : option (result Error (RunOutcome T) * list Act) :=
  run_from 0 deadline turns.

End Drive.

(** [exited]: a process's exit, whose looks never ask for a recheck. *)
Definition exited {delay : nat -> Z} (deadline : option Z) (turns : list (Turn unit)) : option (result Error bool) :=
  match run delay deadline turns with
  | Some (Ok (RDone _), _) => Some (Ok true)
  | Some (Ok DeadlinePassed, _) => Some (Ok false)
  | Some (Err e, _) => Some (Err e)
  | None => None
  end.

(** * Lemmas *)

Lemma passed_true deadline now : passed deadline now = true <-> exists at_, deadline = Some at_ /\ at_ <= now.
Proof.
  unfold passed, remaining_at. rewrite bool_decide_eq_true. destruct deadline as [at_|]; cbn; [|naive_solver].
  split.
  - intros [= H]. exists at_. split; [done|lia].
  - intros (a & [= <-] & H). f_equal. lia.
Qed.

Lemma passed_false deadline now : passed deadline now = false <-> forall at_, deadline = Some at_ -> now < at_.
Proof.
  rewrite <- not_true_iff_false, passed_true. split.
  - intros H a Ha. destruct (Z.lt_ge_cases now a); [done|]. exfalso. eauto.
  - intros H (a & Ha & Hle). specialize (H a Ha). lia.
Qed.

Lemma ceil_millis_bounds d : ceil_millis d * 1000000 - 1000000 < d <= ceil_millis d * 1000000.
Proof. unfold ceil_millis. pose proof (Z.div_mod (- d) 1000000). pose proof (Z.mod_pos_bound (- d) 1000000). lia. Qed.

(** A turn that does not end the loop. *)
Definition unfinished {T} (deadline : option Z) (u : Turn T) : Prop :=
  (look u = Ok Wait \/ look u = Ok Recheck) /\ passed deadline (before u) = false.

Definition earlier {T} (deadline : option Z) (turns : list (Turn T)) (i : nat) : Prop :=
  Forall (unfinished deadline) (take i turns).

Definition act_ok {T} (delay : nat -> Z) (deadline : option Z) (turns : list (Turn T)) (a : Act) : Prop :=
  match a with
  | Block d => d = deadline
  | Pause p => exists u k, u ∈ turns /\ p <= delay k /\ forall at_, deadline = Some at_ -> after u + p <= at_
  end.

(** What an outcome says of the turns. *)
Definition outcome_ok {T} (deadline : option Z) (turns : list (Turn T)) (r : option (result Error (RunOutcome T))) : Prop :=
  match r with
  | None => Forall (unfinished deadline) turns
  | Some r =>
      exists i u, turns !! i = Some u /\ earlier deadline turns i /\
        match r with
        | Ok (RDone out) => look u = Ok (Done out)
        | Ok DeadlinePassed =>
            (look u = Ok Wait \/ look u = Ok Recheck) /\ exists at_, deadline = Some at_ /\ at_ <= before u
        | Err e => look u = Err e \/ exists e', blocked u = Err e' /\ block_failed u e' = Err e
        end
  end.

Lemma outcome_ok_cons {T} deadline (u : Turn T) turns r :
  unfinished deadline u -> outcome_ok deadline turns r -> outcome_ok deadline (u :: turns) r.
Proof.
  intros Hu. destruct r as [r|]; cbn; [|by constructor]. intros (i & u' & Hi & He & Hr).
  exists (S i), u'. split; [done|]. split; [|done]. unfold earlier. cbn. by constructor.
Qed.

Lemma act_ok_cons {T} delay deadline (u : Turn T) turns a : act_ok delay deadline turns a -> act_ok delay deadline (u :: turns) a.
Proof. destruct a; cbn; [done|]. intros (v & k & Hv & H). exists v, k. split; [by right|done]. Qed.

Lemma pause_ok {T} delay step deadline (u : Turn T) turns :
  passed deadline (after u) = false ->
  act_ok delay deadline (u :: turns)
    (Pause (match remaining_at deadline (after u) with Some d => Z.min (delay step) d | None => delay step end)).
Proof.
  intros Ha. exists u, step. split; [by left|]. rewrite passed_false in Ha.
  destruct deadline as [at_|]; cbn; [|by split; [lia|]]. specialize (Ha at_ eq_refl). split; [lia|]. intros b [= <-]. lia.
Qed.

Lemma run_from_spec {T} delay step deadline (turns : list (Turn T)) :
  let ra := run_from delay step deadline turns in
  outcome_ok deadline turns (fst <$> ra) /\ forall a, a ∈ from_option snd [] ra -> act_ok delay deadline turns a.
Proof.
  revert step. induction turns as [|u turns IH]; intros step; cbn [run_from].
  { split; [constructor|]. by intros a ?%not_elem_of_nil. }
  assert (forall r, look u = Ok Wait \/ look u = Ok Recheck -> passed deadline (before u) = true -> r = @DeadlinePassed T ->
    outcome_ok deadline (u :: turns) (Some (Ok r))) as Hfinal.
  { intros r Hl Hp ->. exists 0%nat, u. split; [done|]. split; [constructor|]. split; [done|]. by apply passed_true. }
  assert (forall r, (match r with Ok (RDone out) => look u = Ok (Done out) | Ok DeadlinePassed => False
    | Err e => look u = Err e \/ exists e', blocked u = Err e' /\ block_failed u e' = Err e end) ->
    outcome_ok deadline (u :: turns) (Some r)) as Hhere.
  { intros r Hr. exists 0%nat, u. split; [done|]. split; [constructor|]. by destruct r as [[]|]. }
  destruct (look u) as [[out| |]|e] eqn:El.
  - split; [by apply Hhere|]. by intros a ?%not_elem_of_nil.
  - destruct (passed deadline (before u)) eqn:Ep; [split; [apply Hfinal; auto|by intros a ?%not_elem_of_nil]|].
    assert (unfinished deadline u) as Hu by (split; [by left|done]).
    destruct (passed deadline (after u)) eqn:Ea.
    + destruct (IH step) as [Ho Hact]. split; [by apply outcome_ok_cons|]. intros a Ha. by apply act_ok_cons, Hact.
    + destruct (match blocked u with Err e => _ | Ok _ => _ end) as [[]|e] eqn:Eb.
      * destruct (IH 0%nat) as [Ho Hact]. destruct (run_from delay 0 deadline turns) as [[r acts]|]; cbn in *.
        -- split; [by apply (outcome_ok_cons _ _ _ (Some r))|].
           intros x Hx. apply elem_of_cons in Hx as [->|Hx]; [done|by apply act_ok_cons, Hact].
        -- split; [by constructor|]. by intros a ?%not_elem_of_nil.
      * cbn. split; [|by intros a ->%list_elem_of_singleton]. apply (Hhere (Err e)). right.
        destruct (blocked u) as [|e']; [done|]. by exists e'.
  - destruct (passed deadline (before u)) eqn:Ep; [split; [apply Hfinal; auto|by intros a ?%not_elem_of_nil]|].
    assert (unfinished deadline u) as Hu by (split; [by right|done]).
    destruct (passed deadline (after u)) eqn:Ea.
    + destruct (IH step) as [Ho Hact]. split; [by apply outcome_ok_cons|]. intros a Ha. by apply act_ok_cons, Hact.
    + destruct (IH (S step)) as [Ho Hact]. destruct (run_from delay (S step) deadline turns) as [[r acts]|]; cbn in *.
      * split; [by apply (outcome_ok_cons _ _ _ (Some r))|].
        intros x Hx. apply elem_of_cons in Hx as [->|Hx]; [|by apply act_ok_cons, Hact]. by apply pause_ok.
      * split; [by constructor|]. by intros a ?%not_elem_of_nil.
  - split; [apply (Hhere (Err e)); by left|]. by intros a ?%not_elem_of_nil.
Qed.

Lemma rearm_until_spec {E T} deadline (rounds : list (Round E T)) :
  match rearm_until deadline rounds with
  | Some r =>
      exists i rd, rounds !! i = Some rd /\ answer rd (remaining_at deadline (start rd)) = r /\
        (r = Ok None -> exists at_, deadline = Some at_ /\ at_ <= finish rd) /\
        Forall (fun rd => answer rd (remaining_at deadline (start rd)) = Ok None /\ passed deadline (finish rd) = false) (take i rounds)
  | None => Forall (fun rd => answer rd (remaining_at deadline (start rd)) = Ok None /\ passed deadline (finish rd) = false) rounds
  end.
Proof.
  induction rounds as [|rd rounds IH]; [constructor|]. cbn [rearm_until].
  destruct (answer rd (remaining_at deadline (start rd))) as [out|e] eqn:Ea.
  2: { exists 0%nat, rd. split; [done|]. split; [done|]. split; [done|constructor]. }
  destruct out as [x|]; cbn [orb].
  { exists 0%nat, rd. split; [done|]. split; [done|]. split; [done|constructor]. }
  destruct (passed deadline (finish rd)) eqn:Ep.
  { exists 0%nat, rd. split; [done|]. split; [done|]. split; [intros _; by apply passed_true|constructor]. }
  destruct (rearm_until deadline rounds) as [r|]; [|by constructor].
  destruct IH as (i & rd' & Hi & Hr & Hd & Hf). exists (S i), rd'. split; [done|]. split; [done|]. split; [done|]. by constructor.
Qed.

(** * Properties *)

(** A wait never gives up early and never sleeps past its deadline: it says the deadline passed only
    after a look that began at or past it found nothing, it is done exactly as soon as a look is, an
    error is the look's or a block's that could not be excused, and it is still going only while every
    turn began before the deadline, so it ends with the first look from the deadline on; every block is
    for the whole deadline, every pause within the backoff and the time left. *)
Theorem run_outcome {T} delay deadline (turns : list (Turn T)) :
  let ra := run delay deadline turns in
  outcome_ok deadline turns (fst <$> ra) /\ forall a, a ∈ from_option snd [] ra -> act_ok delay deadline turns a.
Proof. apply run_from_spec. Qed.

(** The milliseconds armed for a wait are a 32-bit number that is never the infinite one, never 0
    before the deadline and never more than a millisecond past it, unless the wait is longer than the
    largest, which is armed then; and a deadline is the instant asked for exactly when it, with the
    timer's margin, is an instant of the platform. *)
Theorem timeout_bounds d ceiling now duration :
  0 <= d ->
  let ms := win32_timeout_ms (Some d) in
  0 <= ms < WIN32_INFINITE /\ (ms = 0 <-> d = 0) /\ ms * 1000000 < d + 1000000 /\
  (ms < win32_wait_clamp -> d <= ms * 1000000) /\ (win32_wait_clamp * 1000000 < d -> ms = win32_wait_clamp) /\
  (forall at_, deadline_at ceiling now duration = Some at_ <-> at_ = now + duration /\ now + duration <= ceiling /\ at_ + MS <= ceiling).
Proof.
  intros Hd ms. pose proof (ceil_millis_bounds d) as Hc.
  assert (ms = Z.min (ceil_millis d) win32_wait_clamp) as Hms.
  { subst ms. unfold win32_timeout_ms. apply Z.mod_small. unfold win32_wait_clamp, WIN32_INFINITE. lia. }
  unfold win32_wait_clamp, WIN32_INFINITE in *. split; [lia|]. split; [lia|]. split; [lia|]. split; [lia|]. split; [lia|].
  intros at_. unfold deadline_at, clears_tokio_timer_margin, checked_add, TOKIO_TIMER_ROUNDING_MARGIN.
  destruct (Z.leb_spec (now + duration) ceiling); [|by split; [|lia]].
  destruct (Z.leb_spec (now + duration + MS) ceiling); split; intros H'; simplify_eq; try lia; naive_solver lia.
Qed.

Lemma timeout_bounds_witness : 0 <= win32_timeout_ms (Some 1) < WIN32_INFINITE /\ win32_timeout_ms (Some 1) <> 0.
Proof.
  destruct (timeout_bounds 1 0 0 0 ltac:(lia)) as (H & H0 & _). split; [exact H|]. intros E. by apply H0 in E.
Defined.

(** A bounded poll of a descriptor says readable only when a poll saw it readable, and unreadable
    only at or past the deadline; an error is a poll's own, signals excepted, or an event that says the
    descriptor is broken; it is still polling only before the deadline; and no poll is armed for longer
    than the time left or than poll can wait. *)
Theorem poll_readable_answers deadline rounds :
  let armed (r : Z * (option Z -> PollAnswer) * Z) := Z.min (Z.max 0 (deadline - r.1.1)) MAX_POLL_BLOCK in
  match poll_readable deadline rounds with
  | Some (Ok true) => exists r, r ∈ rounds /\ r.1.2 (Some (armed r)) = PReady RReadable
  | Some (Ok false) => exists r, r ∈ rounds /\ deadline <= r.2
  | Some (Err e) => exists r, r ∈ rounds /\
      (r.1.2 (Some (armed r)) = PErrno e /\ kind e <> Interrupted \/
       exists v, r.1.2 (Some (armed r)) = PReady v /\ v <> RReadable /\ e = of_kind Other)
  | None => Forall (fun r : Z * (option Z -> PollAnswer) * Z => r.2 < deadline) rounds
  end.
Proof.
  intros armed. unfold poll_readable.
  pose proof (rearm_until_spec (Some deadline)
    ((fun r : Z * (option Z -> PollAnswer) * Z => round r.1.1 (poll_round r.1.2) r.2) <$> rounds)) as H.
  destruct (rearm_until (Some deadline) _) as [res|].
  - destruct H as (i & rd & Hi & Ha & Hd & _). apply list_lookup_fmap_Some in Hi as (r & -> & Hr).
    apply list_elem_of_lookup_2 in Hr. unfold poll_round in Ha. cbn in Ha, Hd. fold (armed r) in Ha.
    destruct (r.1.2 (Some (armed r))) as [|e|v] eqn:Ep.
    + subst res. destruct (Hd eq_refl) as (a & [= <-] & Hle). by exists r.
    + case_bool_decide; subst res; [|exists r; split; [done|by left]].
      destruct (Hd eq_refl) as (a & [= <-] & Hle). by exists r.
    + destruct v; cbn in Ha; subst res; exists r; (split; [done|]); [right; by exists RNval|right; by exists RErr|done].
  - rewrite Forall_fmap in H. eapply Forall_impl; [exact H|]. intros r [_ Hp]. cbn in Hp. rewrite passed_false in Hp. by apply Hp.
Qed.
