(* ===== verification/JobDrain.v ===== *)
(** Waiting for a job's tree to exit, on Windows: [query_job_pid_list], [member_to_watch],
    [wait_drained_raw] and [wait_drained] of [src/containment/windows.rs]. A round is what the system
    answers in it; the calls on processes are recorded. *)
From stdpp Require Import sets.
From S2P Require Import Prelude IoErrors Identity CrateError Waiting ChildCalls.
Local Open Scope Z_scope.

Definition WAIT_OBJECT_0 : Z := 0.
Definition WAIT_TIMEOUT : Z := 258.
Definition WAIT_FAILED : Z := 2 ^ 32 - 1.
Definition ERROR_INVALID_PARAMETER : Z := 87.
Definition MAXIMUM_WAIT_OBJECTS : nat := 64.

(** * What the system answers *)

(** A query of the job: its failure, and what it wrote. *)
Record QueryAnswer := query_answer { failure : option Z; assigned : Z; process_ids : list Z }.

(** An [OpenProcess], with what [IsProcessInJob] says of the process. *)
Inductive Opening := OpenedAs (h : Z) (in_job : result Z bool) | OpenFailed (code : Z).

Record DrainRound := drain_round_answers {
  cancel_state : Z;                   (* a look at the cancel event *)
  queries : list QueryAnswer;
  open_process : Z -> Opening;
  clock : Z;
  waits : list (Z * (Z -> Z) * Z);    (* each [WaitForMultipleObjects]: the clock, the event for its milliseconds, the clock *)
  wait_error : Z }.

Inductive Call :=
| OpenProcess (pid : Z) (r : result Z Z)
| IsProcessInJob (h : Z) (r : result Z bool)
| CloseProcess (h : Z)
| WaitForMultiple (hs : list Z).

(** * The job's members *)

Definition U32 : Z := 2 ^ 32.

Fixpoint query_job_pid_list (capacity : Z) (answers : list QueryAnswer) : option (result Z (list Z)) :=
  match answers with
  | [] => None
  | a :: answers =>
      match failure a with
      | Some code => if capacity <? assigned a then query_job_pid_list (assigned a) answers else Some (Err code)
      | None => Some (Ok ((fun raw => raw mod U32) <$> take (Z.to_nat capacity) (process_ids a)))
      end
  end.

Definition member_to_watch (opened : Opening) : result Z (option Z) * list Call :=
  match opened with
  | OpenedAs h r =>
      match r with
      | Ok true => (Ok (Some h), [IsProcessInJob h r])
      | Ok false => (Ok None, [IsProcessInJob h r; CloseProcess h])
      | Err e => (Err e, [IsProcessInJob h r; CloseProcess h])
      end
  | OpenFailed code => (if code =? ERROR_INVALID_PARAMETER then Ok None else Err code, [])
  end.

Definition opening_result (o : Opening) : result Z Z := match o with OpenedAs h _ => Ok h | OpenFailed code => Err code end.

(** The members opened, the last failure, and the calls. *)
Fixpoint open_members (open_ : Z -> Opening) (pids handles : list Z) (denied : option Z) (calls : list Call) : list Z * option Z * list Call :=
  match pids with
  | [] => (handles, denied, calls)
  | pid :: pids =>
      let (found, cs) := member_to_watch (open_ pid) in
      let calls := calls ++ OpenProcess pid (opening_result (open_ pid)) :: cs in
      match found with
      | Ok (Some h) => open_members open_ pids (handles ++ [h]) denied calls
      | Ok None => open_members open_ pids handles denied calls
      | Err e => open_members open_ pids handles (Some e) calls
      end
  end.

(** * The wait *)

Section Drain.
  (** The standard library's kind for a Win32 code. *)
  Variable decode_error_kind : Z -> ErrorKind.
  Variable deadline : option Z.
  Variable cancel : option Z.

Definition win32_io (code : Z) : IoError := io_error (decode_error_kind code) (Some code).

Definition budget : nat := MAXIMUM_WAIT_OBJECTS - 1 - (if cancel then 1 else 0).

Definition wait_many (r : DrainRound) : option Z :=
  default WAIT_TIMEOUT <$> wait_until deadline
    ((fun w : Z * (Z -> Z) * Z => (w.1.1, (fun ms => let e := w.1.2 ms in if e =? WAIT_TIMEOUT then None else Some e), w.2)) <$> waits r).

(** The end of a round that waits on [handles]: [None] goes round again. *)
Definition after_wait (r : DrainRound) (handles : list Z) (waited : Z) : option (result Error TreeDrain) :=
  if waited =? WAIT_TIMEOUT then Some (Ok MembersRemain)
  else if waited =? WAIT_FAILED then Some (Err (Io (win32_io (wait_error r))))
  else
    let idx := (waited - WAIT_OBJECT_0) mod U32 in
    if bool_decide (is_Some cancel) && (idx =? Z.of_nat (length handles)) then Some (Ok MembersRemain) else None.

(** One round, as far as it is answered: its verdict, if it has one, and its calls. *)
Definition drain_round (r : DrainRound) : option (option (result Error TreeDrain)) * list Call :=
  if bool_decide (is_Some cancel) && (cancel_state r =? WAIT_OBJECT_0) then (Some (Some (Ok MembersRemain)), [])
  else match query_job_pid_list 64 (queries r) with
  | None => (None, [])
  | Some (Err code) => (Some (Some (Err (Io (win32_io code)))), [])
  | Some (Ok []) => (Some (Some (Ok AllMembersExited)), [])
  | Some (Ok pids) =>
      let '(handles, denied, calls) := open_members (open_process r) (take budget pids) [] None [] in
      match handles with
      | [] =>
          match denied with
          | Some e => (Some (Some (Err (Unassessable (Some (win32_io e))))), calls)
          | None => (Some (if passed deadline (clock r) then Some (Ok MembersRemain) else None), calls)
          end
      | _ =>
          let calls := calls ++ [WaitForMultiple (handles ++ option_list cancel)] in
          match wait_many r with
          | None => (None, calls)
          | Some waited => (Some (after_wait r handles waited), calls ++ (CloseProcess <$> handles))
          end
      end
  end.

Fixpoint wait_drained_raw (rounds : list DrainRound) : option (result Error TreeDrain) * list Call :=
  match rounds with
  | [] => (None, [])
  | r :: rounds =>
      match drain_round r with
      | (None, calls) => (None, calls)
      | (Some (Some v), calls) => (Some v, calls)
      | (Some None, calls) => let (v, calls') := wait_drained_raw rounds in (v, calls ++ calls')
      end
  end.

(** [JobHandle::wait_drained], on what [with_handle(duplicate_job)] answers; the duplicate is closed after. *)
Definition wait_drained (duplicate : option (result Z Z)) (rounds : list DrainRound) : option (result Error TreeDrain) * list Call :=
  match duplicate with
  | None => (Some (Err (Unassessable None)), [])
  | Some (Err code) => (Some (Err (Io (win32_io code))), [])
  | Some (Ok _) => wait_drained_raw rounds
  end.

End Drain.

(** * The calls of a wait *)

Definition opened (cs : list Call) : list Z := omap (fun c => match c with OpenProcess _ (Ok h) => Some h | _ => None end) cs.
Definition closed (cs : list Call) : list Z := omap (fun c => match c with CloseProcess h => Some h | _ => None end) cs.
Definition confirmed (cs : list Call) : list Z := omap (fun c => match c with IsProcessInJob h (Ok true) => Some h | _ => None end) cs.
Definition waited_on (cs : list Call) : list (list Z) := omap (fun c => match c with WaitForMultiple hs => Some hs | _ => None end) cs.

Lemma closed_all hs : closed (CloseProcess <$> hs) = hs /\ opened (CloseProcess <$> hs) = [] /\ waited_on (CloseProcess <$> hs) = [].
Proof. induction hs as [|h hs (IH1 & IH2 & IH3)]; [done|]. unfold closed, opened, waited_on in *. cbn. by rewrite IH1, IH2, IH3. Qed.

(** The handles held are the ones opened and not closed, each a confirmed member, and nothing was waited on. *)
Record holds (hs : list Z) (cs : list Call) : Prop := {
  held_open : opened cs ≡ₚ closed cs ++ hs;
  held_members : hs ⊆ confirmed cs;
  held_unwaited : waited_on cs = [] }.

Lemma calls_app {A} (f : Call -> option A) cs cs' : omap f (cs ++ cs') = omap f cs ++ omap f cs'.
Proof. apply omap_app. Qed.

(** What [open_members] found of a process. *)
Definition found (open_ : Z -> Opening) (pid : Z) : result Z (option Z) := (member_to_watch (open_ pid)).1.

Lemma holds_next open_ pid hs cs :
  holds hs cs ->
  holds (match found open_ pid with Ok (Some h) => hs ++ [h] | _ => hs end)
    (cs ++ OpenProcess pid (opening_result (open_ pid)) :: (member_to_watch (open_ pid)).2).
Proof.
  intros [Ho Hm Hw]. unfold found, member_to_watch.
  destruct (open_ pid) as [h [[]|e]|code]; [..|cbn; destruct (code =? ERROR_INVALID_PARAMETER)]; cbn; split;
    unfold opened, closed, confirmed, waited_on in *; rewrite ?calls_app; cbn; rewrite ?app_nil_r, ?Ho, ?Hw;
    first [done|set_solver|solve_Permutation|idtac].
Qed.

(** The members among [pids]: the handles opened on those the system says are in the job. *)
Definition members (open_ : Z -> Opening) (pids : list Z) : list Z :=
  omap (fun pid => match open_ pid with OpenedAs h (Ok true) => Some h | _ => None end) pids.

Lemma members_cons open_ pid pids :
  members open_ (pid :: pids) = match found open_ pid with Ok (Some h) => [h] | _ => [] end ++ members open_ pids.
Proof.
  unfold members, found, member_to_watch. cbn. destruct (open_ pid) as [h [[]|e]|code]; try done. by destruct (code =? ERROR_INVALID_PARAMETER).
Qed.

Lemma open_members_spec open_ : forall pids hs d cs hs' d' cs',
  open_members open_ pids hs d cs = (hs', d', cs') -> holds hs cs ->
  holds hs' cs' /\ (length hs' <= length hs + length pids)%nat /\
  hs' = hs ++ members open_ pids /\
  (forall e, d' = Some e -> d = Some e \/ exists pid, pid ∈ pids /\ found open_ pid = Err e) /\
  (d' = None -> d = None /\ Forall (fun pid => forall e, found open_ pid <> Err e) pids) /\
  (hs' = [] -> hs = [] /\ Forall (fun pid => forall h, found open_ pid <> Ok (Some h)) pids).
Proof.
  induction pids as [|pid pids IH]; cbn [open_members]; intros hs d cs hs' d' cs' Hrun Hh.
  { injection Hrun as <- <- <-. rewrite app_nil_r. split_and!; auto with lia. }
  rewrite members_cons.
  pose proof (holds_next open_ pid hs cs Hh) as Hn.
  assert (found open_ pid = (member_to_watch (open_ pid)).1) as Hf by done.
  destruct (member_to_watch (open_ pid)) as [f cs1]. cbn [fst] in Hf. rewrite Hf in Hn |- *. cbn [snd length] in *.
  destruct f as [[h|]|e]; (destruct (IH _ _ _ _ _ _ Hrun Hn) as (? & Hl & Hm & He & Hd & Hz); clear IH); split_and!; try done.
  - rewrite length_app in Hl. cbn in Hl. lia.
  - by rewrite Hm, <- app_assoc.
  - intros e Hd'. destruct (He e Hd') as [|(p & Hp & ?)]; [by left|]. right. exists p. split; [by right|done].
  - intros Hd'. destruct (Hd Hd') as [? ?]. split; [done|]. constructor; [|done]. intros e. by rewrite Hf.
  - intros Hz'. destruct (Hz Hz') as [Hx _]. by destruct hs.
  - lia.
  - intros e Hd'. destruct (He e Hd') as [|(p & Hp & ?)]; [by left|]. right. exists p. split; [by right|done].
  - intros Hd'. destruct (Hd Hd') as [? ?]. split; [done|]. constructor; [|done]. intros e. by rewrite Hf.
  - intros Hz'. destruct (Hz Hz') as [? ?]. split; [done|]. constructor; [|done]. intros h. by rewrite Hf.
  - lia.
  - intros e' Hd'. destruct (He e' Hd') as [[= ->]|(p & Hp & ?)]; right; [exists pid; split; [by left|done]|]. exists p. split; [by right|done].
  - intros Hd'. by destruct (Hd Hd').
  - intros Hz'. destruct (Hz Hz') as [? ?]. split; [done|]. constructor; [|done]. intros h. by rewrite Hf.
Qed.

Section Verdicts.
  Variable decode : Z -> ErrorKind.
  Variable deadline cancel : option Z.

(** The deadline had passed when the clock was read at [now]. *)
Definition late (now : Z) : Prop := exists at_, deadline = Some at_ /\ at_ <= now.

(** The processes a round opens, of those its query listed. *)
Definition watched (r : DrainRound) (pids : list Z) : Prop :=
  exists all, all <> [] /\ query_job_pid_list 64 (queries r) = Some (Ok all) /\ pids = take (budget cancel) all.

(** What a round's verdict says of what the system answered in it. *)
Definition justified (r : DrainRound) (v : result Error TreeDrain) : Prop :=
  match v with
  | Ok AllMembersExited => query_job_pid_list 64 (queries r) = Some (Ok [])
  | Ok AllMarkersClosed => False
  | Ok MembersRemain =>
      is_Some cancel /\ cancel_state r = WAIT_OBJECT_0 \/
      exists pids, watched r pids /\
        (members (open_process r) pids = [] /\ late (clock r) \/
         members (open_process r) pids <> [] /\ exists waited, wait_many deadline r = Some waited /\
           (is_Some cancel /\ waited mod U32 = Z.of_nat (length (members (open_process r) pids)) \/
            waited = WAIT_TIMEOUT /\ exists w, w ∈ waits r /\ late w.2))
  | Err e =>
      (exists code, e = Io (win32_io decode code) /\
        (query_job_pid_list 64 (queries r) = Some (Err code) \/ wait_many deadline r = Some WAIT_FAILED /\ code = wait_error r)) \/
      (exists code pids pid, e = Unassessable (Some (win32_io decode code)) /\ watched r pids /\ pid ∈ pids /\
        found (open_process r) pid = Err code /\ Forall (fun pid => forall h, found (open_process r) pid <> Ok (Some h)) pids)
  end.

(** Why a round is not the last: the processes it opened had all gone and the deadline had not come; or their
    wait was answered, not by the clock, and where the answer names a handle of the set, it is a member's:
    never the cancel event's, which is the last. *)
Definition goes_on (r : DrainRound) : Prop :=
  exists pids, watched r pids /\
    (Forall (fun pid => found (open_process r) pid = Ok None) pids /\ passed deadline (clock r) = false \/
     members (open_process r) pids <> [] /\ exists waited, wait_many deadline r = Some waited /\
       waited <> WAIT_TIMEOUT /\ waited <> WAIT_FAILED /\
       (waited mod U32 < Z.of_nat (length (members (open_process r) pids ++ option_list cancel)) ->
        waited mod U32 < Z.of_nat (length (members (open_process r) pids)))).

(** What a round's calls leave: no handle, and every wait on at most 63 of them, of confirmed members and the cancel event. *)
Record tidy (cs : list Call) : Prop := {
  all_closed : opened cs ≡ₚ closed cs;
  waits_ok : Forall (fun set => exists hs, set = hs ++ option_list cancel /\ hs <> [] /\ (length set < MAXIMUM_WAIT_OBJECTS)%nat /\ hs ⊆ confirmed cs) (waited_on cs) }.

Lemma tidy_nil : tidy [].
Proof. by split. Qed.

Lemma tidy_app cs cs' : tidy cs -> tidy cs' -> tidy (cs ++ cs').
Proof.
  intros [Ha Hw] [Ha' Hw']. split; unfold opened, closed, waited_on, confirmed in *; rewrite !calls_app; [by rewrite Ha, Ha'|].
  apply Forall_app. split; (eapply Forall_impl; [eassumption|]); intros set (hs & -> & ? & ? & ?); exists hs; split_and!; set_solver.
Qed.

(** A round that waited on [hs] and closed them. *)
Lemma tidy_waited hs cs :
  holds hs cs -> hs <> [] -> (length hs <= budget cancel)%nat ->
  tidy ((cs ++ [WaitForMultiple (hs ++ option_list cancel)]) ++ (CloseProcess <$> hs)).
Proof.
  intros [Ho Hm Hw] Hne Hl. destruct (closed_all hs) as (Hc & Hno & Hnw).
  split; unfold opened, closed, waited_on, confirmed in *; rewrite !calls_app; cbn.
  - by rewrite Hno, Hc, !app_nil_r.
  - rewrite Hw, Hnw. constructor; [|done]. exists hs. split_and!; [done|done| |set_solver].
    rewrite length_app. unfold budget, MAXIMUM_WAIT_OBJECTS in *. destruct cancel; cbn in *; lia.
Qed.

(** [WAIT_TIMEOUT] is the deadline's. *)
Lemma wait_many_timeout r : wait_many deadline r = Some WAIT_TIMEOUT -> exists w, w ∈ waits r /\ late w.2.
Proof.
  unfold wait_many, wait_until. match goal with |- context [rearm_until _ ?l] => set (rs := l) end.
  pose proof (rearm_until_spec deadline rs) as Hs. destruct (rearm_until deadline rs) as [[out|[]]|]; [|done].
  destruct Hs as (i & rd & Hi & Ha & Hl & _). unfold rs in Hi. rewrite <- list_fmap_compose, list_lookup_fmap_Some in Hi.
  destruct Hi as (w & -> & Hw). cbn in *. intros [= He]. exists w. split; [by eapply list_elem_of_lookup_2|].
  injection Ha as Ha. destruct (w.1.2 _ =? WAIT_TIMEOUT) eqn:Et in Ha; [subst out; by apply Hl|]. subst out. cbn in He. by rewrite He in Et.
Qed.

Lemma drain_round_spec r o cs :
  drain_round decode deadline cancel r = (Some o, cs) -> tidy cs /\ match o with Some v => justified r v | None => goes_on r end.
Proof.
  unfold drain_round. destruct (bool_decide (is_Some cancel) && (cancel_state r =? WAIT_OBJECT_0)) eqn:Ec.
  { intros [= <- <-]. split; [apply tidy_nil|]. rewrite andb_true_iff, bool_decide_eq_true, Z.eqb_eq in Ec. left. tauto. }
  destruct (query_job_pid_list 64 (queries r)) as [[[|p ps]|code]|] eqn:Eq; [..|done].
  1: { intros [= <- <-]. split; [apply tidy_nil|done]. }
  2: { intros [= <- <-]. split; [apply tidy_nil|]. left. eauto. }
  assert (watched r (take (budget cancel) (p :: ps))) as Hwatch by (by exists (p :: ps)).
  assert (length (take (budget cancel) (p :: ps)) <= budget cancel)%nat as Hlen by (rewrite length_take; lia).
  generalize dependent (take (budget cancel) (p :: ps)). intros pids Hwatch Hlen.
  destruct (open_members (open_process r) pids [] None []) as [[hs d] cs1] eqn:Eo.
  apply open_members_spec in Eo as (Hh & Hl & Hm & He & Hd & Hz); [|by split]. cbn in Hl, Hm. destruct hs as [|h hs].
  { assert (tidy cs1) as Ht by (destruct Hh as [Ho _ Hw]; rewrite app_nil_r in Ho; split; [done|by rewrite Hw]).
    destruct (Hz eq_refl) as [_ Hnone]. destruct d as [code|].
    - intros [= <- <-]. split; [done|]. right. destruct (He code eq_refl) as [|(pid & ? & ?)]; [done|]. by exists code, pids, pid.
    - intros [= <- <-]. split; [done|]. destruct (passed deadline (clock r)) eqn:Ep; [right; exists pids; split; [done|]; left; split; [done|by apply passed_true]|].
      exists pids. split; [done|]. left. split; [|done]. destruct (Hd eq_refl) as [_ Hd']. rewrite Forall_forall in *.
      intros q Hq. destruct (found (open_process r) q) as [[x|]|e] eqn:Ef; [by destruct (Hnone q Hq x)|done|by destruct (Hd' q Hq e)]. }
  destruct (wait_many deadline r) as [waited|] eqn:Ew; [|done]. intros [= <- <-].
  split; [apply (tidy_waited (h :: hs)); [done|done|lia]|]. unfold after_wait.
  destruct (waited =? WAIT_TIMEOUT) eqn:Et. { apply Z.eqb_eq in Et as ->. right. exists pids. split; [done|]. right. rewrite <- Hm. split; [done|].
    exists WAIT_TIMEOUT. split; [done|]. right. split; [done|]. by apply wait_many_timeout. }
  apply Z.eqb_neq in Et. destruct (waited =? WAIT_FAILED) eqn:Ef. { apply Z.eqb_eq in Ef as ->. left. eauto. }
  apply Z.eqb_neq in Ef. unfold WAIT_OBJECT_0. rewrite Z.sub_0_r, Hm in *.
  destruct (bool_decide (is_Some cancel)) eqn:Ei; cbn [andb]; [apply bool_decide_eq_true in Ei as [c Hc]|apply bool_decide_eq_false in Ei].
  - destruct (Z.eqb_spec (waited mod U32) (Z.of_nat (length (members (open_process r) pids)))) as [He'|He'].
    + right. exists pids. split; [done|]. right. rewrite <- Hm at 1. split; [done|]. exists waited. eauto.
    + exists pids. split; [done|]. right. rewrite <- Hm at 1. split; [done|]. exists waited. split_and!; try done.
      rewrite length_app, Nat2Z.inj_add. rewrite Hc. change (length (option_list (Some c))) with 1%nat. lia.
  - exists pids. split; [done|]. right. rewrite <- Hm at 1. split; [done|]. exists waited. split_and!; try done.
    destruct cancel; [by destruct Ei|]. by rewrite app_nil_r.
Qed.

Lemma wait_drained_raw_spec rounds : forall v cs,
  wait_drained_raw decode deadline cancel rounds = (Some v, cs) ->
  tidy cs /\ exists i r, rounds !! i = Some r /\ justified r v /\ Forall goes_on (take i rounds).
Proof.
  induction rounds as [|r rounds IH]; [done|]. cbn [wait_drained_raw]. intros v cs Hrun.
  destruct (drain_round decode deadline cancel r) as [[[v1|]|] cs1] eqn:Er; [..|done].
  - injection Hrun as <- <-. apply drain_round_spec in Er as [Ht Hj]. split; [done|]. exists 0%nat, r. by split_and!.
  - destruct (wait_drained_raw decode deadline cancel rounds) as [v2 cs2]. injection Hrun as -> <-.
    apply drain_round_spec in Er as [Ht Hg]. destruct (IH v cs2 eq_refl) as (Ht' & i & r' & Hi & Hj & Hf).
    split; [by apply tidy_app|]. exists (S i), r'. split_and!; [done|done|]. by constructor.
Qed.

(** The answers a round needs, of a wait with no deadline that nothing cancels. *)
Definition answered (r : DrainRound) : Prop :=
  is_Some (query_job_pid_list 64 (queries r)) /\ is_Some (wait_many deadline r).

(** How many processes a round's query lists. *)
Definition listed (r : DrainRound) : nat :=
  match query_job_pid_list 64 (queries r) with Some (Ok pids) => length pids | _ => 0 end.

Lemma drain_ends_from rounds : forall n,
  Forall answered rounds -> (forall i r, rounds !! i = Some r -> (listed r + i <= n)%nat) -> (n < length rounds)%nat ->
  is_Some (wait_drained_raw decode deadline cancel rounds).1.
Proof.
  induction rounds as [|r rounds IH]; cbn [length]; intros n Ha Hs Hn; [lia|]. apply Forall_cons in Ha as [[Hq Hw] Ha]. cbn [wait_drained_raw].
  destruct (drain_round decode deadline cancel r) as [[[v|]|] cs] eqn:Er; cbn [fst].
  - done.
  - destruct n as [|n].
    { exfalso. apply drain_round_spec in Er as [_ (pids & (all & Hne & Hall & _) & _)]. specialize (Hs 0%nat r eq_refl).
      unfold listed in Hs. rewrite Hall in Hs. destruct all; [done|]. cbn in Hs. lia. }
    specialize (IH n Ha). destruct (wait_drained_raw decode deadline cancel rounds) as [v2 cs2]. apply IH; [|lia].
    intros i r' Hi. specialize (Hs (S i) r' Hi). lia.
  - exfalso. revert Er. unfold drain_round. destruct Hq as [q ->], Hw as [w Hw].
    destruct (bool_decide _ && _); [done|]. destruct q as [[|p ps]|]; [done| |done].
    destruct (open_members _ _ _ _ _) as [[[|h hs] [e|]] cs1]; try done; by rewrite Hw.
Qed.

End Verdicts.


(** Two members and a recycled pid: a member exits, the other has gone by its open, then the list is empty. *)
Definition two_members : list DrainRound :=
  let quiet q o ws := drain_round_answers WAIT_TIMEOUT q o 0 ws 0 in
  let lists := query_answer None 3 in
  [quiet [query_answer (Some 234) 70 []; lists [10; 11; 12]]
     (fun pid => if pid =? 10 then OpenedAs 100 (Ok true) else if pid =? 11 then OpenedAs 104 (Ok false) else OpenedAs 108 (Ok true))
     [(0, fun _ => WAIT_TIMEOUT, 1); (1, fun _ => 1, 2)];
   quiet [lists [10]] (fun _ => OpenFailed ERROR_INVALID_PARAMETER) [];
   quiet [lists []] (fun _ => OpenFailed 5) []].


(** The wait ends: of a tree of [n] members where every round's query is answered and its wait is too, and where
    each round finds one member fewer (none joins and an answered wait is an exit), it has its verdict
    within [n + 1] rounds. *)
Theorem drain_ends decode deadline cancel rounds n
    (Hanswered : Forall (answered deadline) rounds)
    (Hleave : forall i r, rounds !! i = Some r -> (listed r + i <= n)%nat)
    (Hrounds : (n < length rounds)%nat) :
  exists v, (wait_drained_raw decode deadline cancel rounds).1 = Some v.
Proof. exact (drain_ends_from decode deadline cancel rounds n Hanswered Hleave Hrounds). Qed.

Lemma drain_ends_witness : exists v, (wait_drained_raw (fun _ => Other) None None
  ((fun pids => drain_round_answers WAIT_TIMEOUT [query_answer None 0 pids] (fun pid => OpenedAs pid (Ok true)) 0 [(0, fun _ => WAIT_OBJECT_0, 1)] 0) <$>
     [[10; 11]; [11]; []])).1 = Some v.
Proof.
  apply (drain_ends _ _ _ _ 2).
  - repeat constructor; vm_compute; eexists; reflexivity.
  - intros [|[|[|i]]] r Hr; vm_compute in Hr; [injection Hr as <-..|discriminate Hr]; apply Nat.leb_le; reflexivity.
  - apply Nat.leb_le. reflexivity.
Defined.
