(* ===== verification/CgroupTree.v ===== *)
(** The cgroups under a leaf, [src/containment/cgroup/dir.rs]: the one traversal of a leaf's tree, the walk
    that looks for a cgroup by its id, and the sweep that removes the tree. The tree may change between the
    calls: every answer is the system's, given the calls before it. A descriptor is named by the path it
    was opened at, relative to the leaf. *)
From stdpp Require Import sets sorting.
From S2P Require Import Prelude IoErrors History.
Local Open Scope Z_scope.

Definition ENODEV : Z := 19.
Definition EBUSY : Z := 16.

Notation Name := (list Z) (only parsing).
Notation Path := (list (list Z)) (only parsing).

Inductive FileType := Directory | Unknown | OtherType.

(** A file handle: its type, its length, its bytes. *)
Record Handle := handle { handle_type : Z; handle_bytes : Z; f_handle : list Z }.

(** A descriptor: of a cgroup, of its listing, of the root's [cgroup.events]. *)
Inductive Fd := OfCgroup (p : Path) | OfListing (p : Path) | OfEvents.

Inductive Ev :=
| OpenBeneath (from piece : Path) (r : result Z unit)
| OpenListing (p : Path) (r : result Z unit)
| OpenEvents (r : result Z unit)
| ReadHandle (p : Path) (r : result Z Handle)
| Entries (p : Path) (r : list (Name * FileType) * option Z)   (* the entries listed, and the error that ended them *)
| Stat (p : Path) (n : Name) (r : result Z bool)               (* whether it is a directory *)
| Unlink (p : Path) (n : Name) (r : result Z unit)
| Close (f : Fd).

Class Host := {
  big_endian : bool;
  open_answer : list Ev -> Path -> Path -> result Z unit;
  listing_answer : list Ev -> Path -> result Z unit;
  events_answer : list Ev -> result Z unit;
  handle_answer : list Ev -> Path -> result Z Handle;
  entries_answer : list Ev -> Path -> list (Name * FileType) * option Z;
  stat_answer : list Ev -> Path -> Name -> result Z bool;
  unlink_answer : list Ev -> Path -> Name -> result Z unit }.

Definition gone (e : Z) : bool := (e =? ENOENT) || (e =? ENODEV).

Definition gone_io (e : IoError) : bool := match raw_os_error e with Some errno => gone errno | None => false end.

(** * Cgroup ids *)

Definition FILEID_KERNFS : Z := 0xfe.

Definition from_ne_bytes (big : bool) (bytes : list Z) : Z :=
  foldl (fun acc b => acc * 256 + b) 0 (if big then bytes else rev bytes).

Definition id_of_handle (big : bool) (h : Handle) : result IoError Z :=
  if negb (handle_type h =? FILEID_KERNFS) || negb (handle_bytes h =? 8) then Err (of_kind InvalidData)
  else Ok (from_ne_bytes big (f_handle h)).

(** * The tree of a traversal *)

Record Node := node { parent : nat; name : Name }.

Definition ROOT : nat := 0.

Definition new_tree : list Node := [node ROOT []].

(** [Tree::names]: a parent comes before its children, so a node's number bounds the way up. *)
Fixpoint names_up (fuel : nat) (tree : list Node) (at_ : nat) (below : Path) : Path :=
  match fuel with
  | O => below
  | S fuel =>
      if (at_ =? ROOT)%nat then below
      else match tree !! at_ with Some n => names_up fuel tree (parent n) (name n :: below) | None => below end
  end.

Definition names (tree : list Node) (at_ : nat) : Path := names_up at_ tree at_ [].

(** * Opening by pieces *)

Definition PATH_MAX_BYTES : nat := 4095.

(** The loop of [pieces] at [i], over the names from it on. *)
Fixpoint pieces_from (max : nat) (i start len : nat) (rest : Path) : list (nat * nat) :=
  match rest with
  | [] => if (start <? i)%nat then [(start, i)] else []
  | n :: rest =>
      let joined := (len + (if (start <? i)%nat then 1 else 0) + length n)%nat in
      if (start <? i)%nat && (max <? joined)%nat then (start, i) :: pieces_from max (S i) i (length n) rest
      else pieces_from max (S i) start joined rest
  end.

Definition pieces (names : Path) (max : nat) : list (nat * nat) := pieces_from max 0 0 0 names.

(** The names of a run. *)
Definition run_names (names : Path) (run : nat * nat) : Path := take (run.2 - run.1) (drop run.1 names).

Section calls.
Context `{Host}.
Notation M := (Hist Ev).

Definition close (f : Fd) : M unit := note (Close f).

Definition open_beneath (from piece : Path) : M (result Z unit) :=
  call (fun h => open_answer h from piece) (OpenBeneath from piece).

(** [open_cgroup], from the cgroup held at [from]: each piece's descriptor replaces the one before it. *)
Fixpoint open_runs (from : Path) (runs : list Path) : M (result Z unit) :=
  match runs with
  | [] => ret (Ok tt)
  | piece :: runs =>
      do! r := open_beneath from piece in
      do! _ := match from with [] => ret tt | _ => close (OfCgroup from) end in
      match r with
      | Err e => ret (Err e)
      | Ok _ => open_runs (from ++ piece) runs
      end
  end.

Definition open_cgroup (names : Path) : M (result Z unit) :=
  match pieces names PATH_MAX_BYTES with
  | [] => open_beneath [] []
  | runs => open_runs [] (run_names names <$> runs)
  end.

Definition cgroup_id (p : Path) : M (result IoError Z) :=
  do! r := call (fun h => handle_answer h p) (ReadHandle p) in
  ret match r with Ok h => id_of_handle big_endian h | Err e => Err (from_raw_os_error e) end.

Definition is_dir (p : Path) (entry : Name * FileType) : M (result IoError bool) :=
  match entry.2 with
  | Directory => ret (Ok true)
  | OtherType => ret (Ok false)
  | Unknown =>
      do! r := call (fun h => stat_answer h p entry.1) (Stat p entry.1) in
      ret match r with Ok b => Ok b | Err e => if gone e then Ok false else Err (from_raw_os_error e) end
  end.

(** * The traversal *)

Inductive Visit := Continue | Skip | Stop.

Inductive Failure := RootGone (e : IoError) | OtherFailure (e : IoError).

Definition into_error (f : Failure) : IoError := match f with RootGone e | OtherFailure e => e end.

Inductive Traversed := Stopped | Listed (behind_a_mount : bool).

Definition is_dot (n : Name) : bool := bool_decide (n = [46] \/ n = [46; 46]).

(** The entries of a listing: the children pushed, or the failure of one. *)
Fixpoint push_children (at_ : nat) (p : Path) (entries : list (Name * FileType)) (tree : list Node) (pending : list nat) :
    M (result IoError (list Node * list nat)) :=
  match entries with
  | [] => ret (Ok (tree, pending))
  | entry :: entries =>
      do! d := (if is_dot entry.1 then ret (Ok false) else is_dir p entry) in
      match d with
      | Err e => ret (Err e)
      | Ok true => push_children at_ p entries (tree ++ [node at_ entry.1]) (pending ++ [length tree])
      | Ok false => push_children at_ p entries tree pending
      end
  end.

Definition failed (at_ : nat) (e : Z) : Failure :=
  if (at_ =? ROOT)%nat && gone e then RootGone (from_raw_os_error e) else OtherFailure (from_raw_os_error e).

Definition skippable (at_ : nat) (e : Z) : bool := gone e && negb (at_ =? ROOT)%nat.

(** The listing of an opened cgroup: the tree and the queue with its children. *)
Definition list_cgroup (confirm_root : bool) (tree : list Node) (at_ : nat) (p : Path) (pending : list nat) :
    M (result Failure (list Node * list nat)) :=
  do! l := call (fun h => listing_answer h p) (OpenListing p) in
  match l with
  | Err e => ret (if skippable at_ e then Ok (tree, pending) else Err (failed at_ e))
  | Ok _ =>
      do! es := call (fun h => entries_answer h p) (Entries p) in
      do! c := push_children at_ p es.1 tree pending in
      do! r := match c with
        | Err e => ret (Err (OtherFailure e))
        | Ok found =>
            match es.2 with
            | Some e => if skippable at_ e then ret (Ok found) else ret (Err (failed at_ e))
            | None =>
                if (at_ =? ROOT)%nat && confirm_root then
                  do! a := call events_answer OpenEvents in
                  match a with
                  | Ok _ => do! _ := close OfEvents in ret (Ok found)
                  | Err e => ret (Err (failed at_ e))
                  end
                else ret (Ok found)
            end
        end in
      do! _ := close (OfListing p) in
      ret r
  end.

(** [traverse]: [visit] keeps a state of its own. [None]: the fuel ran out. *)
Fixpoint traverse {A} (confirm_root : bool) (visit : A -> list Node -> nat -> Path -> M (result IoError Visit * A))
    (fuel : nat) (tree : list Node) (pending : list nat) (behind : bool) (st : A) :
    M (option (result Failure Traversed) * list Node * A) :=
  match fuel, pending with
  | _, [] => ret (Some (Ok (Listed behind)), tree, st)
  | O, _ => ret (None, tree, st)
  | S fuel, at_ :: pending =>
      let p := names tree at_ in
      let again := traverse confirm_root visit fuel in
      do! o := open_cgroup p in
      match o with
      | Err e =>
          if skippable at_ e then again tree pending behind st
          else if e =? EXDEV then again tree pending true st
          else ret (Some (Err (failed at_ e)), tree, st)
      | Ok _ =>
          do! v := (if (at_ =? ROOT)%nat then ret (Ok Continue, st) else visit st tree at_ p) in
          let (r, st) := v : result IoError Visit * A in
          match r with
          | Err e => do! _ := close (OfCgroup p) in ret (Some (Err (OtherFailure e)), tree, st)
          | Ok Skip => do! _ := close (OfCgroup p) in again tree pending behind st
          | Ok Stop => do! _ := close (OfCgroup p) in ret (Some (Ok Stopped), tree, st)
          | Ok Continue =>
              do! l := list_cgroup confirm_root tree at_ p pending in
              do! _ := close (OfCgroup p) in
              match l with
              | Err f => ret (Some (Err f), tree, st)
              | Ok (tree, pending) => again tree pending behind st
              end
          end
      end
  end.

(** * The walk *)

Inductive Walked := Found | Absent | Unlisted (e : IoError).

(** [walk]'s visitor. *)
Definition look_for (id : Z) (st : unit) (tree : list Node) (at_ : nat) (p : Path) : M (result IoError Visit * unit) :=
  do! r := cgroup_id p in
  ret (match r with
       | Ok found => Ok (if found =? id then Stop else Continue)
       | Err e => if gone_io e then Ok Skip else Err e
       end, st).

Definition walked (r : result Failure Traversed) : Walked :=
  match r with
  | Err f => Unlisted (into_error f)
  | Ok Stopped => Found
  | Ok (Listed false) => Absent
  | Ok (Listed true) => Unlisted (from_raw_os_error EXDEV)
  end.

Definition find_descendant (fuel : nat) (id : Z) : M (option Walked) :=
  do! r := traverse true (look_for id) fuel new_tree [ROOT] false tt in
  ret (walked <$> r.1.1).

(** * The sweep *)

Definition record_found (st : list (nat * option Z)) (tree : list Node) (at_ : nat) (p : Path) : M (result IoError Visit * list (nat * option Z)) :=
  do! r := cgroup_id p in
  ret match r with
      | Ok id => (Ok Continue, st ++ [(at_, Some id)])
      | Err e => if gone_io e then (Ok Skip, st) else (Ok Continue, st ++ [(at_, None)])
      end.

(** The removals, of [found] reversed: the count and the ids recorded, or the failure that ends them. *)
Fixpoint remove_found (tree : list Node) (found : list (nat * option Z)) (removed : Z) (swept : list Z) : M (result IoError Z * list Z) :=
  match found with
  | [] => ret (Ok removed, swept)
  | (at_, id) :: found =>
      let up := names tree (default ROOT (parent <$> tree !! at_)) in
      let n := default [] (name <$> tree !! at_) in
      do! o := open_cgroup up in
      match o with
      | Err e => if gone e || (e =? EXDEV) then remove_found tree found removed swept else ret (Err (from_raw_os_error e), swept)
      | Ok _ =>
          do! u := call (fun h => unlink_answer h up n) (Unlink up n) in
          do! _ := close (OfCgroup up) in
          match u with
          | Ok _ => remove_found tree found (removed + 1) (swept ++ option_list id)
          | Err e => if gone e || (e =? EBUSY) then remove_found tree found removed swept else ret (Err (from_raw_os_error e), swept)
          end
      end
  end.

Definition remove_children (fuel : nat) (swept : list Z) : M (option (result IoError Z) * list Z) :=
  do! t := traverse false record_found fuel new_tree [ROOT] false [] in
  let '(r, tree, found) := t : option (result Failure Traversed) * list Node * list (nat * option Z) in
  do2! removed, swept := remove_found tree (rev found) 0 swept in
  ret (match removed with
       | Err e => Some (Err e)
       | Ok n => (fun r => match r with Ok _ | Err (RootGone _) => Ok n | Err (OtherFailure e) => Err e end) <$> r
       end, swept).
End calls.

(** * Paths of nodes *)

Record wf (tree : list Node) : Prop := {
  wf_root : (0 < length tree)%nat;
  wf_parent : forall k n, k <> ROOT -> tree !! k = Some n -> (parent n < k)%nat }.

Lemma wf_new : wf new_tree.
Proof. split; [cbn; lia|]. intros [|[|k]] n Hk Hn; [done|done|]. by destruct k. Qed.

Lemma names_up_enough tree : wf tree -> forall k fuel below,
  (k <= fuel)%nat -> (k < length tree)%nat -> names_up fuel tree k below = names tree k ++ below.
Proof.
  intros Hwf k. induction (lt_wf k) as [k _ IH]. intros fuel below Hf Hk. unfold names. destruct k as [|k]; [by destruct fuel|].
  destruct fuel as [|fuel]; [lia|]. cbn [names_up Nat.eqb ROOT]. destruct (tree !! S k) as [n|] eqn:En; [|by apply lookup_ge_None in En; lia].
  pose proof (wf_parent tree Hwf _ _ (Nat.neq_succ_0 k) En) as Hp. rewrite (IH (parent n)), (IH (parent n) Hp k) by lia. by rewrite <- app_assoc.
Qed.

Lemma node_names_step tree k n :
  wf tree -> k <> ROOT -> tree !! k = Some n -> names tree k = names tree (parent n) ++ [name n].
Proof.
  intros Hwf Hk Hn. pose proof (wf_parent tree Hwf _ _ Hk Hn) as Hp. pose proof (lookup_lt_Some _ _ _ Hn) as Hl.
  destruct k as [|k]; [done|]. unfold names at 1. cbn [names_up Nat.eqb ROOT]. rewrite Hn. by apply names_up_enough; try done; lia.
Qed.

Lemma wf_app tree at_ ns : wf tree -> (at_ < length tree)%nat -> wf (tree ++ (node at_ <$> ns)).
Proof.
  intros [Hr Hp] Ha. split; [rewrite length_app; lia|]. intros k n Hk [Hn|[Hl Hn]]%lookup_app_Some; [by eauto|].
  apply list_lookup_fmap_Some in Hn as (x & -> & _). cbn. lia.
Qed.

Lemma names_app tree l k : wf tree -> (k < length tree)%nat -> names (tree ++ l) k = names tree k.
Proof.
  intros Hwf. induction (lt_wf k) as [k _ IH]. intros Hk.
  enough (forall fuel below, names_up fuel (tree ++ l) k below = names_up fuel tree k below) as He by apply He.
  clear IH. intros fuel. revert k Hk. induction fuel as [|fuel IHf]; intros k Hk below; [done|]. cbn [names_up].
  destruct (Nat.eqb_spec k ROOT) as [->|Hk0]; [done|]. rewrite lookup_app_l by done. destruct (tree !! k) as [n|] eqn:En; [|done].
  apply IHf. pose proof (wf_parent tree Hwf _ _ Hk0 En). lia.
Qed.

(** The path of the [i]th child pushed. *)
Lemma names_child tree at_ ns i n :
  wf tree -> (at_ < length tree)%nat -> ns !! i = Some n ->
  names (tree ++ (node at_ <$> ns)) (length tree + i) = names tree at_ ++ [n].
Proof.
  intros Hwf Ha Hi. rewrite (node_names_step _ _ (node at_ n)); [|by apply wf_app|pose proof (wf_root _ Hwf); unfold ROOT; lia|].
  - cbn [parent name]. by rewrite names_app.
  - rewrite lookup_app_r by lia. replace (length tree + i - length tree)%nat with i by lia. by rewrite list_lookup_fmap, Hi.
Qed.

(** * Pieces *)

(** The bytes of a path, its names joined with slashes. *)
Definition joined_length (p : Path) : nat := length (intercalate 47 p).

Lemma joined_length_app p n : p <> [] -> joined_length (p ++ [n]) = (joined_length p + 1 + length n)%nat.
Proof.
  unfold joined_length. induction p as [|a p IH]; [done|]. intros _. destruct p as [|b p]; cbn in *; rewrite ?length_app; cbn; [lia|].
  rewrite IH by done. cbn. rewrite ?length_app. cbn. lia.
Qed.

Lemma run_names_snoc all start i n :
  (start <= i)%nat -> all !! i = Some n -> run_names all (start, S i) = run_names all (start, i) ++ [n].
Proof.
  intros Hs Hn. unfold run_names. cbn [fst snd]. rewrite <- (take_S_r _ _ n); [by replace (S i - start)%nat with (S (i - start)) by lia|].
  rewrite lookup_drop. by replace (start + (i - start))%nat with i by lia.
Qed.

(** Runs follow one another from [start], each no longer than [max] unless it is one name, and
    each but the last is cut only where its next name would make it longer than [max]. *)
Inductive runs_ok (all : Path) (max : nat) : nat -> list (nat * nat) -> Prop :=
| runs_done : runs_ok all max (length all) []
| runs_run start stop rest :
    (start < stop <= length all)%nat ->
    (joined_length (run_names all (start, stop)) <= max \/ stop = S start)%nat ->
    (stop < length all -> max < joined_length (run_names all (start, S stop)))%nat ->
    runs_ok all max stop rest -> runs_ok all max start ((start, stop) :: rest).

Lemma pieces_from_ok all max rest : forall i start len,
  (start <= i)%nat -> drop i all = rest -> (i <= length all)%nat ->
  len = joined_length (run_names all (start, i)) -> (len <= max \/ i <= S start)%nat ->
  runs_ok all max start (pieces_from max i start len rest).
Proof.
  induction rest as [|n rest IH]; intros i start len Hs Hd Hi -> Hm; cbn [pieces_from].
  - assert (length all <= i)%nat as Hl by (apply (f_equal length) in Hd; rewrite length_drop in Hd; cbn in Hd; lia).
    destruct (Nat.ltb_spec start i).
    + assert (i = length all) as -> by lia. constructor; [lia|destruct Hm; [by left|right; lia]|lia|constructor].
    + assert (start = length all) as -> by lia. constructor.
  - assert (all !! i = Some n) as Hn by (by rewrite <- (Nat.add_0_r i), <- lookup_drop, Hd).
    assert (drop (S i) all = rest) as Hd' by (by rewrite <- Nat.add_1_r, <- drop_drop, Hd).
    apply lookup_lt_Some in Hn as Hl. pose proof (run_names_snoc all start i n Hs Hn) as Hsn.
    assert (start < i -> joined_length (run_names all (start, S i)) = joined_length (run_names all (start, i)) + 1 + length n)%nat as Hj.
    { intros Hlt. rewrite Hsn. apply joined_length_app. intros He. apply (f_equal length) in He. unfold run_names in He.
      rewrite length_take, length_drop in He. cbn in He. lia. }
    destruct (Nat.ltb_spec start i) as [Hlt|Hge]; cbn [andb].
    + rewrite <- Hj by done. destruct (Nat.ltb_spec max (joined_length (run_names all (start, S i)))) as [Hmax|Hmax].
      * constructor; [lia|destruct Hm; [by left|right; lia]|done|]. apply IH; try done; try lia.
        rewrite (run_names_snoc all i i n) by done. unfold run_names. cbn. by rewrite Nat.sub_diag.
      * apply IH; try done; try lia.
    + assert (i = start) as -> by lia. apply IH; try done; try lia. rewrite Hsn. unfold run_names, joined_length. cbn. rewrite Nat.sub_diag. rewrite take_0. cbn. lia.
Qed.

Lemma pieces_ok all max : runs_ok all max 0 (pieces all max).
Proof. apply pieces_from_ok; try done; lia. Qed.

Lemma runs_concat all max start runs : runs_ok all max start runs -> concat (run_names all <$> runs) = drop start all.
Proof.
  induction 1 as [|start stop rest Hr _ _ _ IH]; [by rewrite drop_all|]. cbn. rewrite IH. unfold run_names. cbn.
  rewrite <- (take_drop (stop - start) (drop start all)) at 2. rewrite drop_drop. do 2 f_equal. lia.
Qed.

Lemma runs_nonempty all max start runs : runs_ok all max start runs -> Forall (fun run => run <> []) (run_names all <$> runs).
Proof.
  induction 1 as [|start stop rest Hr _ _ _ IH]; [constructor|]. cbn. constructor; [|done]. intros He.
  apply (f_equal length) in He. unfold run_names in He. rewrite length_take, length_drop in He. cbn in He. lia.
Qed.

(** * Descriptors *)

#[export] Instance Fd_eq_dec : EqDecision Fd.
Proof. solve_decision. Defined.

(** At most two descriptors at a time, a third for the root's file alone. *)
Definition limit (f : Fd) : nat := match f with OfEvents => 3 | _ => 2 end.

Definition opened (s : list Fd) (f : Fd) (ok : bool) : option (list Fd) :=
  if negb ok then Some s else if bool_decide (f ∉ s) && (length s <? limit f)%nat then Some (f :: s) else None.

Definition needs (s : list Fd) (f : Fd) (s' : option (list Fd)) : option (list Fd) := if bool_decide (f ∈ s) then s' else None.

Definition close_fd (f : Fd) (s : list Fd) : list Fd := filter (fun g => g <> f) s.
#[local] Arguments close_fd : simpl never.

Local Notation is_ok r := (match r with Ok _ => true | Err _ => false end).

(** The descriptors held: each call goes through one that is. *)
Definition held (s : list Fd) (e : Ev) : option (list Fd) :=
  match e with
  | OpenBeneath [] piece r => opened s (OfCgroup piece) (is_ok r)
  | OpenBeneath from piece r => needs s (OfCgroup from) (opened s (OfCgroup (from ++ piece)) (is_ok r))
  | OpenListing p r => needs s (OfCgroup p) (opened s (OfListing p) (is_ok r))
  | OpenEvents r => needs s (OfCgroup []) (opened s OfEvents (is_ok r))
  | ReadHandle p _ | Stat p _ _ | Unlink p _ _ => needs s (OfCgroup p) (Some s)
  | Entries p _ => needs s (OfListing p) (Some s)
  | Close f => needs s f (Some (close_fd f s))
  end.

Lemma close_fd_eq f s : close_fd f (f :: s) = close_fd f s.
Proof. unfold close_fd. by rewrite filter_cons_False by tauto. Qed.
Lemma close_fd_ne f g s : g <> f -> close_fd f (g :: s) = g :: close_fd f s.
Proof. intros. unfold close_fd. by rewrite filter_cons_True. Qed.

(** A held descriptor is closed. *)
Lemma keeps_close `{Host} s f s' Q : f ∈ s -> close_fd f s = s' -> Q tt s' -> keeps held s (close f) Q.
Proof. intros Hf <- HQ. eapply keeps_note; [|exact HQ]. cbn. unfold needs. by rewrite bool_decide_true. Qed.

Section descriptors.
Context `{Host}.

Lemma open_runs_held runs from :
  Forall (fun run => run <> []) runs -> (from <> [] \/ runs <> []) ->
  keeps held (match from with [] => [] | _ => [OfCgroup from] end) (open_runs from runs)
    (fun r s => s = match r with Ok _ => [OfCgroup (from ++ concat runs)] | Err _ => [] end).
Proof.
  revert from. induction runs as [|run runs IH]; intros from Hne Hor; cbn [open_runs].
  { destruct Hor; [|done]. destruct from; [done|]. apply keeps_ret. cbn. by rewrite app_nil_r. }
  apply Forall_cons in Hne as [Hrun Hne]. cbn [concat]. specialize (IH (from ++ run) Hne).
  assert (from ++ run <> []) as Hfr by (by intros [? ?]%app_nil).
  destruct (from ++ run) as [|a l] eqn:Efr; [done|]. rewrite (assoc_L (++) from run), Efr.
  keeps_step. unfold open_beneath. destruct from as [|b from].
  - keeps_step. cbn [held]. cbn in Efr. subst run. destruct a0 as [[]|e]; cbn; eexists; (split; [reflexivity|]); keeps_step; keeps_step.
    + apply IH. by left.
    + by apply keeps_ret.
  - keeps_step. cbn [held]. unfold needs. rewrite bool_decide_true by (by left).
    destruct a0 as [[]|e]; cbn [opened negb].
    + assert (OfCgroup (a :: l) <> OfCgroup (b :: from)) as Hnew.
      { intros [= -> ->]. apply (f_equal length) in Efr. cbn in Efr. rewrite length_app in Efr. destruct run; [done|cbn in Efr; lia]. }
      rewrite Efr, bool_decide_true by (by intros ?%list_elem_of_singleton).
      eexists. split; [reflexivity|]. keeps_step. eapply keeps_close; [by right; left|by rewrite close_fd_ne, close_fd_eq|].
      apply IH. by left.
    + eexists. split; [reflexivity|]. keeps_step. eapply keeps_close; [by left|by rewrite close_fd_eq|]. by apply keeps_ret.
Qed.

Lemma open_cgroup_held p : keeps held [] (open_cgroup p) (fun r s => s = match r with Ok _ => [OfCgroup p] | Err _ => [] end).
Proof.
  unfold open_cgroup. pose proof (pieces_ok p PATH_MAX_BYTES) as Hp. pose proof (runs_concat _ _ _ _ Hp) as Hc. rewrite drop_0 in Hc.
  destruct (pieces p PATH_MAX_BYTES) as [|run runs] eqn:E.
  - rewrite <- Hc. unfold open_beneath. keeps_step. destruct a as [[]|e]; cbn; by eexists.
  - rewrite <- E in *. eapply keeps_mono; [apply (open_runs_held _ []); [by eapply runs_nonempty|right; by rewrite E]|].
    cbn. intros r s ->. destruct r; [by rewrite Hc|done].
Qed.

(** The descriptors held are seen to hold the one needed. *)
Local Ltac held_step := cbn [held needs]; unfold needs; rewrite bool_decide_true by (repeat first [by left | right]); cbn [opened negb].

Lemma is_dir_held s p entry : OfCgroup p ∈ s -> keeps held s (is_dir p entry) (fun _ s' => s' = s).
Proof.
  intros Hp. unfold is_dir. destruct entry.2; try by apply keeps_ret. keeps_step. keeps_step. cbn. unfold needs. rewrite bool_decide_true by done.
  eexists. split; [reflexivity|]. by apply keeps_ret.
Qed.

Lemma push_children_held s at_ p entries tree pending :
  OfCgroup p ∈ s -> keeps held s (push_children at_ p entries tree pending) (fun _ s' => s' = s).
Proof.
  intros Hp. revert tree pending. induction entries as [|entry entries IH]; intros tree pending; cbn [push_children]; [by apply keeps_ret|].
  keeps_step. eapply (keeps_mono _ _ _ (fun _ s' => s' = s)); [destruct (is_dot entry.1); [by apply keeps_ret|by apply is_dir_held]|].
  intros d s' ->. destruct d as [[]|e]; [apply IH|apply IH|by apply keeps_ret].
Qed.

Lemma list_cgroup_held confirm tree at_ p pending :
  (at_ = ROOT -> p = []) -> keeps held [OfCgroup p] (list_cgroup confirm tree at_ p pending) (fun _ s => s = [OfCgroup p]).
Proof.
  intros Hroot. unfold list_cgroup. keeps_step. keeps_step. held_step. destruct a as [[]|e]; cbn [opened negb].
  2: { eexists. split; [reflexivity|]. by apply keeps_ret. }
  rewrite bool_decide_true by (by intros ?%list_elem_of_singleton). eexists. split; [reflexivity|]. keeps_step. keeps_step. held_step.
  eexists. split; [reflexivity|]. keeps_step. eapply keeps_mono; [apply push_children_held; right; left|]. intros c s ->. keeps_step.
  eapply (keeps_mono _ _ _ (fun _ s' => s' = [OfListing p; OfCgroup p])).
  - destruct c as [found|e]; [|by apply keeps_ret]. destruct a.2 as [e|]; [by destruct (skippable at_ e); apply keeps_ret|].
    destruct ((at_ =? ROOT)%nat && confirm) eqn:Ec; [|by apply keeps_ret]. apply andb_true_iff in Ec as [Ec%Nat.eqb_eq _]. rewrite (Hroot Ec) in *.
    keeps_step. keeps_step. held_step. destruct a0 as [[]|e]; cbn [opened negb].
    + rewrite bool_decide_true by set_solver. eexists. split; [reflexivity|]. keeps_step.
      eapply keeps_close; [by left|by rewrite close_fd_eq, !close_fd_ne|]. by apply keeps_ret.
    + eexists. split; [reflexivity|]. by apply keeps_ret.
  - intros r s ->. keeps_step. eapply keeps_close; [by left|by rewrite close_fd_eq, close_fd_ne|]. by apply keeps_ret.
Qed.

Lemma traverse_held {A} confirm (visit : A -> list Node -> nat -> Path -> Hist Ev (result IoError Visit * A)) fuel :
  (forall st tree at_ p, keeps held [OfCgroup p] (visit st tree at_ p) (fun _ s => s = [OfCgroup p])) ->
  forall tree pending behind st, keeps held [] (traverse confirm visit fuel tree pending behind st) (fun _ s => s = []).
Proof.
  intros Hv. induction fuel as [|fuel IH]; intros tree pending behind st; cbn [traverse]; (destruct pending as [|at_ pending]; [by apply keeps_ret|]); [by apply keeps_ret|].
  keeps_step. eapply keeps_mono; [apply open_cgroup_held|]. intros o s ->. destruct o as [[]|e].
  2: { destruct (skippable at_ e); [apply IH|]. destruct (e =? EXDEV); [apply IH|by apply keeps_ret]. }
  set (p := names tree at_). assert (close_fd (OfCgroup p) [OfCgroup p] = []) as Hc by apply close_fd_eq.
  keeps_step. eapply (keeps_mono _ _ _ (fun _ s' => s' = [OfCgroup p])); [destruct (at_ =? ROOT)%nat; [by apply keeps_ret|apply Hv]|].
  intros [[[| |]|e] st'] s ->.
  - keeps_step. eapply keeps_mono; [apply list_cgroup_held; unfold p; by intros ->|]. intros l s ->. keeps_step.
    eapply keeps_close; [by left|exact Hc|]. destruct l as [[tree' pending']|f]; [apply IH|by apply keeps_ret].
  - keeps_step. eapply keeps_close; [by left|exact Hc|]. apply IH.
  - keeps_step. eapply keeps_close; [by left|exact Hc|]. by apply keeps_ret.
  - keeps_step. eapply keeps_close; [by left|exact Hc|]. by apply keeps_ret.
Qed.

Lemma cgroup_id_held s p : OfCgroup p ∈ s -> keeps held s (cgroup_id p) (fun _ s' => s' = s).
Proof.
  intros Hp. unfold cgroup_id. keeps_step. keeps_step. cbn. unfold needs. rewrite bool_decide_true by done. eexists. split; [reflexivity|]. by apply keeps_ret.
Qed.

Lemma find_descendant_held fuel id : keeps held [] (find_descendant fuel id) (fun _ s => s = []).
Proof.
  unfold find_descendant. keeps_step. eapply keeps_mono; [apply traverse_held|by intros r s ->; apply keeps_ret].
  intros st tree at_ p. unfold look_for. keeps_step. eapply keeps_mono; [apply cgroup_id_held; by left|]. intros r s ->. by apply keeps_ret.
Qed.

Lemma remove_found_held tree found removed swept : keeps held [] (remove_found tree found removed swept) (fun _ s => s = []).
Proof.
  revert removed swept. induction found as [|[at_ id] found IH]; intros removed swept; cbn [remove_found]; [by apply keeps_ret|].
  set (up := names _ _). keeps_step. eapply keeps_mono; [apply open_cgroup_held|]. intros o s ->. destruct o as [[]|e].
  2: { destruct (gone e || (e =? EXDEV)); [apply IH|by apply keeps_ret]. }
  keeps_step. keeps_step. held_step. eexists. split; [reflexivity|]. keeps_step. eapply keeps_close; [by left|apply close_fd_eq|].
  destruct a as [[]|e]; [apply IH|]. destruct (gone e || (e =? EBUSY)); [apply IH|by apply keeps_ret].
Qed.

Lemma remove_children_held fuel swept : keeps held [] (remove_children fuel swept) (fun _ s => s = []).
Proof.
  unfold remove_children. keeps_step. eapply keeps_mono; [apply traverse_held|].
  - intros st tree at_ p. unfold record_found. keeps_step. eapply keeps_mono; [apply cgroup_id_held; by left|]. intros r s ->. by apply keeps_ret.
  - intros [[r tree] found] s ->. keeps_step. eapply keeps_mono; [apply remove_found_held|]. intros [? ?] s ->. by apply keeps_ret.
Qed.
End descriptors.

(** * What a walk finds *)

(** Cgroups under the leaf, and the leaf itself ([[]]), that stay through every call, with their ids: what
    the kernel says of one that is there. *)
Record stays `{Host} (stable : Path -> option Z) : Prop := {
  stays_up : forall p n, is_Some (stable (p ++ [n])) -> is_Some (stable p) /\ is_dot n = false;
  stays_open : forall h from piece e, is_Some (stable (from ++ piece)) -> open_answer h from piece = Err e -> gone e = false;
  stays_id : forall h p id, stable p = Some id ->
    match handle_answer h p with Ok hd => id_of_handle big_endian hd = Ok id | Err e => gone e = false end;
  stays_list : forall h p e, is_Some (stable p) -> listing_answer h p = Err e -> gone e = false;
  stays_listed : forall h p, is_Some (stable p) ->
    match (entries_answer h p).2 with
    | Some e => gone e = false
    | None => forall n, is_Some (stable (p ++ [n])) -> exists ty, (n, ty) ∈ (entries_answer h p).1 /\ ty <> OtherType
    end;
  stays_dir : forall h p n, is_Some (stable (p ++ [n])) ->
    match stat_answer h p n with Ok b => b = true | Err e => gone e = false end }.

Section walk.
Context `{Host}.

Lemma push_children_spec at_ p entries : forall tree pending h,
  wp (push_children at_ p entries tree pending) h (fun r _ =>
    match r with
    | Ok (tree', pending') => exists ns, tree' = tree ++ (node at_ <$> ns) /\ pending' = pending ++ seq (length tree) (length ns) /\
        ns `sublist_of` entries.*1 /\ Forall (fun n => is_dot n = false) ns /\
        (forall stable n ty, stays stable -> is_Some (stable (p ++ [n])) -> (n, ty) ∈ entries -> ty <> OtherType -> n ∈ ns)
    | Err _ => True
    end).
Proof.
  induction entries as [|[n ty] entries IH]; intros tree pending h; cbn [push_children].
  { wp_step. exists []. cbn. rewrite !app_nil_r. split_and!; try done. intros ???? _ Hin. by apply not_elem_of_nil in Hin. }
  wp_step. cbn [fst].
  eapply (wp_mono _ _ (fun d _ => match d with Ok true => is_dot n = false | Ok false => forall stable, stays stable -> is_Some (stable (p ++ [n])) -> ty <> OtherType -> False | Err _ => True end)).
  { destruct (is_dot n) eqn:Ed; [wp_step; intros stable Hs Hn _; destruct (stays_up _ Hs p n Hn); congruence|].
    unfold is_dir. destruct ty; cbn; wp_step; [done| |by intros].
    wp_step. cbn. wp_step. destruct (stat_answer h p n) as [[]|e] eqn:Es; [done| |].
    - intros stable Hs Hn _. pose proof (stays_dir _ Hs h p n Hn) as Hd. by rewrite Es in Hd.
    - destruct (gone e) eqn:Eg; [|done]. intros stable Hs Hn _. pose proof (stays_dir _ Hs h p n Hn) as Hd. rewrite Es in Hd. congruence. }
  intros d t Hd. destruct d as [[]|e]; [| |by wp_step].
  - wp_use IH. intros [[tree' pending']|e] t' Hr; [|done]. destruct Hr as (ns & -> & -> & Hsub & Hdots & Hall). exists (n :: ns). split_and!.
    + by rewrite <- app_assoc.
    + rewrite <- app_assoc. cbn. by rewrite length_app, Nat.add_1_r.
    + cbn. by constructor.
    + by constructor.
    + intros stable n' ty' Hs Hn [[= -> ->]|Hin]%elem_of_cons Hty; [by left|right; by eapply Hall].
  - wp_use IH. intros [[tree' pending']|e] t' Hr; [|done]. destruct Hr as (ns & -> & -> & Hsub & Hdots & Hall). exists ns. split_and!; [done|done| |done|].
    + cbn. by constructor.
    + intros stable n' ty' Hs Hn [[= -> ->]|Hin]%elem_of_cons Hty; [by destruct (Hd stable Hs Hn Hty)|by eapply Hall].
Qed.

Lemma list_cgroup_spec confirm tree at_ p pending h :
  wp (list_cgroup confirm tree at_ p pending) h (fun r t =>
    match r with
    | Ok (tree', pending') => exists ns, tree' = tree ++ (node at_ <$> ns) /\ pending' = pending ++ seq (length tree) (length ns) /\
        (ns = [] \/ exists h', ns `sublist_of` (entries_answer h' p).1.*1) /\ Forall (fun n => is_dot n = false) ns /\
        (forall stable n, stays stable -> is_Some (stable p) -> is_Some (stable (p ++ [n])) -> n ∈ ns) /\
        (at_ = ROOT -> confirm = true -> OpenEvents (Ok tt) ∈ t)
    | Err _ => True
    end).
Proof.
  unfold list_cgroup. wp_step. wp_step. destruct (listing_answer h p) as [[]|e] eqn:El.
  2: { wp_step. destruct (skippable at_ e) eqn:Es; [|done]. apply andb_true_iff in Es as [Eg Er]. exists []. cbn. rewrite !app_nil_r. split_and!; [done..|by left|done| |].
       - intros stable n Hs Hp _. rewrite (stays_list _ Hs h p e Hp El) in Eg. done.
       - intros ->. done. }
  wp_step. wp_step. set (h1 := h ++ _). wp_step. wp_use push_children_spec. intros c t1 Hc. wp_step.
  eapply (wp_mono _ _ (fun r t => match r with Err _ => True | Ok found => c = Ok found /\
    match (entries_answer h1 p).2 with Some e => skippable at_ e = true | None => at_ = ROOT -> confirm = true -> OpenEvents (Ok tt) ∈ t end end)).
  { destruct c as [found|e]; [|by wp_step]. destruct (entries_answer h1 p).2 as [e|]; [by destruct (skippable at_ e) eqn:Es; wp_step|].
    destruct ((at_ =? ROOT)%nat && confirm) eqn:Ec.
    - wp_step. wp_step. match goal with |- context [events_answer ?h] => destruct (events_answer h) as [[]|e] end; [|by wp_step].
      wp_step. unfold close. wp_step. wp_step. split; [done|]. intros _ _. by left.
    - wp_step. split; [done|]. intros -> ->. done. }
  intros r t2 Hr. wp_step. unfold close. wp_step. wp_step. destruct r as [[tree' pending']|f]; [|done]. destruct Hr as [-> Hr].
  destruct Hc as (ns & -> & -> & Hsub & Hdots & Hall). exists ns. split_and!; [done..|by right; exists h1|done| |].
  - intros stable n Hs Hp Hn. pose proof (stays_listed _ Hs h1 p Hp) as Hl. destruct (entries_answer h1 p).2 as [e|].
    + apply andb_true_iff in Hr as [Eg _]. congruence.
    + destruct (Hl n Hn) as (ty & Hin & Hty). by eapply Hall.
  - intros -> Hconf. destruct (entries_answer h1 p).2 as [e|]; [by unfold skippable in Hr; rewrite andb_false_r in Hr|]. set_solver.
Qed.

(** A finite tree: of its cgroups, a listing gives each name once. *)
Record finite (all : list Path) : Prop := {
  listed_once : forall h p, NoDup (entries_answer h p).1.*1;
  listed_in : forall h p n, n ∈ (entries_answer h p).1.*1 -> is_dot n = false -> p ++ [n] ∈ all }.

(** The nodes from [popped] on are the ones pending, and no path is two nodes'. *)
Record growing (all : list Path) (tree : list Node) (pending : list nat) (popped : nat) : Prop := {
  grown_wf : wf tree;
  grown_pending : pending = seq popped (length tree - popped);
  grown_popped : (popped <= length tree)%nat;
  grown_nodup : NoDup (names tree <$> seq 0 (length tree));
  grown_in : forall k, (0 < k < length tree)%nat -> names tree k ∈ all;
  grown_parent : forall k n, k <> ROOT -> tree !! k = Some n -> (parent n < popped)%nat }.

Lemma growing_new all : growing all new_tree [ROOT] 0.
Proof. split; cbn; try done; [apply wf_new|lia|apply NoDup_singleton|lia|]. intros [|[|k]] n Hk Hn; by destruct Hk || by destruct k. Qed.

(** Each path is pushed once, so the tree is no larger than the cgroups there ever are. *)
Lemma growing_bound all tree pending popped : growing all tree pending popped -> (length tree <= S (length all))%nat.
Proof.
  intros [Hwf _ _ Hnd Hin _]. pose proof (wf_root _ Hwf) as Hr. destruct (length tree) as [|m] eqn:El; [lia|]. cbn in Hnd. apply NoDup_cons in Hnd as [_ Hnd].
  enough (length (names tree <$> seq 1 m) <= length all)%nat as Hl by (rewrite length_fmap, length_seq in Hl; lia).
  apply submseteq_length, NoDup_submseteq; [done|]. intros q (k & -> & Hk)%list_elem_of_fmap. apply elem_of_seq in Hk. apply Hin. lia.
Qed.

Lemma growing_pop all tree at_ pending popped :
  growing all tree (at_ :: pending) popped -> at_ = popped /\ (at_ < length tree)%nat /\ growing all tree pending (S popped).
Proof.
  intros [Hwf Hp Hl Hnd Hin Hpar]. destruct (length tree - popped)%nat as [|m] eqn:Em; [done|]. cbn in Hp. injection Hp as -> ->.
  split; [done|]. split; [lia|]. split; [done| |lia|done|done|]; [by replace (length tree - S popped)%nat with m by lia|].
  intros k n Hk Hn. specialize (Hpar k n Hk Hn). lia.
Qed.

Lemma names_inj tree i j :
  NoDup (names tree <$> seq 0 (length tree)) -> (i < length tree)%nat -> (j < length tree)%nat -> names tree i = names tree j -> i = j.
Proof.
  intros Hnd Hi Hj He. apply (NoDup_lookup _ i j (names tree i) Hnd).
  - by rewrite list_lookup_fmap, lookup_seq_lt.
  - by rewrite list_lookup_fmap, lookup_seq_lt, He.
Qed.

Lemma growing_push all tree pending at_ ns :
  growing all tree (at_ :: pending) at_ -> (at_ < length tree)%nat -> NoDup ns -> Forall (fun n => names tree at_ ++ [n] ∈ all) ns ->
  growing all (tree ++ (node at_ <$> ns)) (pending ++ seq (length tree) (length ns)) (S at_).
Proof.
  intros Hg Ha Hns Hall. rewrite Forall_forall in Hall. pose proof (growing_pop _ _ _ _ _ Hg) as (_ & _ & [_ Hp _ _ _ _]). destruct Hg as [Hwf _ _ Hnd Hin Hpar].
  assert (names (tree ++ (node at_ <$> ns)) <$> seq 0 (length tree) = names tree <$> seq 0 (length tree)) as Hold.
  { apply list_fmap_ext. intros i k Hk. apply lookup_seq in Hk as [-> Hk]. by apply names_app. }
  assert (names (tree ++ (node at_ <$> ns)) <$> seq (length tree) (length ns) = (fun n => names tree at_ ++ [n]) <$> ns) as Hnew.
  { apply list_eq. intros i. rewrite !list_lookup_fmap. destruct (ns !! i) as [n|] eqn:Ei.
    - rewrite lookup_seq_lt by (by eapply lookup_lt_Some). cbn. f_equal. by apply names_child.
    - apply lookup_ge_None in Ei. by rewrite lookup_seq_ge. }
  split; rewrite ?length_app, ?length_fmap.
  - by apply wf_app.
  - rewrite Hp. replace (length tree + length ns - S at_)%nat with ((length tree - S at_) + length ns)%nat by lia.
    rewrite seq_app. by replace (S at_ + (length tree - S at_))%nat with (length tree) by lia.
  - lia.
  - rewrite seq_app, fmap_app, Hold, Nat.add_0_l, Hnew. apply NoDup_app. split_and!; [done| |].
    + intros q (k & -> & Hk)%list_elem_of_fmap (n & Hq & _)%list_elem_of_fmap. apply elem_of_seq in Hk as [_ Hk]. cbn in Hk.
      destruct (decide (k = ROOT)) as [->|Hk0]; [by destruct (names tree at_)|].
      destruct (lookup_lt_is_Some_2 tree k Hk) as [x Hx]. rewrite (node_names_step _ _ x Hwf Hk0 Hx) in Hq. apply app_inj_tail in Hq as [Hq _].
      pose proof (Hpar k x Hk0 Hx). pose proof (wf_parent _ Hwf _ _ Hk0 Hx). apply names_inj in Hq; [lia|done|lia|done].
    + apply NoDup_fmap_2; [intros x y Hxy; by apply app_inj_tail in Hxy as [_ ?]|done].
  - intros k Hk. destruct (decide (k < length tree)%nat) as [Hkl|]; [rewrite names_app by done; apply Hin; lia|].
    destruct (lookup_lt_is_Some_2 ns (k - length tree)) as [x Hx]; [lia|].
    replace k with (length tree + (k - length tree))%nat by lia. rewrite (names_child _ _ _ _ x) by done. apply Hall. by eapply list_elem_of_lookup_2.
  - intros k n Hk [Hn|[_ Hn]]%lookup_app_Some; [specialize (Hpar k n Hk Hn); lia|]. apply list_lookup_fmap_Some in Hn as (x & -> & _). cbn. lia.
Qed.

Lemma growing_listed all tree at_ pending ns :
  finite all -> growing all tree (at_ :: pending) at_ -> (at_ < length tree)%nat ->
  ns = [] \/ (exists h', ns `sublist_of` (entries_answer h' (names tree at_)).1.*1) -> Forall (fun n => is_dot n = false) ns ->
  growing all (tree ++ (node at_ <$> ns)) (pending ++ seq (length tree) (length ns)) (S at_).
Proof.
  intros [Honce Hin] Hg Ha Hns Hdots. apply growing_push; [done|done| |].
  - destruct Hns as [->|[h' Hs]]; [constructor|]. by eapply sublist_NoDup.
  - rewrite Forall_forall in *. intros n Hn. destruct Hns as [->|[h' Hs]]; [by apply not_elem_of_nil in Hn|].
    apply (Hin h'); [|by apply Hdots]. by apply (elem_of_submseteq ns); [|apply sublist_submseteq].
Qed.

(** A traversal of a finite tree ends, whatever the visitor and the answers. *)
Lemma traverse_ends {A} confirm (visit : A -> list Node -> nat -> Path -> Hist Ev (result IoError Visit * A)) all :
  finite all -> (forall st tree at_ p h, wp (visit st tree at_ p) h (fun _ _ => True)) -> forall fuel tree pending popped behind st h,
  growing all tree pending popped -> (length all < fuel + popped)%nat ->
  wp (traverse confirm visit fuel tree pending behind st) h (fun r _ => is_Some r.1.1).
Proof.
  intros Hfin Hv. induction fuel as [|fuel IH]; intros tree pending popped behind st h Hg Hf; cbn [traverse];
    (destruct pending as [|at_ pending]; [by wp_step|]); pose proof (growing_bound _ _ _ _ Hg) as Hb;
    pose proof (growing_pop _ _ _ _ _ Hg) as (-> & Ha & Hg'); [lia|].
  assert (forall behind st h, wp (traverse confirm visit fuel tree pending behind st) h (fun r _ => is_Some r.1.1)) as Hagain.
  { intros ???. eapply IH; [exact Hg'|lia]. }
  wp_step. wp_use (open_cgroup_held (names tree popped)). intros o t _. destruct o as [[]|e].
  2: { destruct (skippable popped e); [apply Hagain|]. destruct (e =? EXDEV); [apply Hagain|by wp_step]. }
  wp_step. eapply (wp_mono _ _ (fun _ _ => True)); [destruct (popped =? ROOT)%nat; [by wp_step|apply Hv]|].
  intros [[[| |]|e] st'] t1 _; try (wp_step; unfold close; wp_step; first [apply Hagain | by wp_step]).
  wp_step. wp_use list_cgroup_spec. intros l t2 Hl. wp_step. unfold close. wp_step. destruct l as [[tree' pending']|f]; [|by wp_step].
  destruct Hl as (ns & -> & -> & Hns & Hdots & _). eapply IH; [by apply growing_listed|lia].
Qed.

Lemma stays_prefix stable p q : stays stable -> is_Some (stable q) -> p `prefix_of` q -> is_Some (stable p).
Proof.
  intros Hs Hq [l ->]. revert Hq. induction l as [|n l IH] using rev_ind; [by rewrite app_nil_r|].
  rewrite (assoc_L (++)). intros Hq. by apply IH, (stays_up _ Hs _ n).
Qed.

(** Whatever stays is opened, unless something else than its absence prevents it. *)
Definition open_stays (p : Path) (r : result Z unit) : Prop :=
  match r with Ok _ => True | Err e => forall stable, stays stable -> is_Some (stable p) -> gone e = false end.

Lemma open_runs_stays runs : forall from h, wp (open_runs from runs) h (fun r _ => open_stays (from ++ concat runs) r).
Proof.
  induction runs as [|run runs IH]; intros from h; cbn [open_runs concat]; [by wp_step|]. wp_step. unfold open_beneath. wp_step. wp_step.
  set (r := open_answer h from run).
  assert (wp (match from with [] => ret tt | _ => close (OfCgroup from) end) (h ++ [OpenBeneath from run r]) (fun _ _ => True)) as Hc.
  { destruct from; [by wp_step|unfold close; by wp_step]. }
  wp_use Hc. intros _ t _. destruct r as [[]|e] eqn:Er; [rewrite (assoc_L (++)); apply IH|]. wp_step. intros stable Hs Hp.
  apply (stays_open _ Hs h from run); [|done]. eapply stays_prefix; [done|exact Hp|]. rewrite (assoc_L (++)). by apply prefix_app_r.
Qed.

Lemma open_cgroup_stays p h : wp (open_cgroup p) h (fun r _ => open_stays p r).
Proof.
  unfold open_cgroup. pose proof (pieces_ok p PATH_MAX_BYTES) as Hp. pose proof (runs_concat _ _ _ _ Hp) as Hc. rewrite drop_0 in Hc.
  destruct (pieces p PATH_MAX_BYTES) as [|run runs] eqn:E.
  - rewrite <- Hc. unfold open_beneath. wp_step. destruct (open_answer h [] []) as [|e] eqn:Eo; [done|]. intros stable Hs Hr. by apply (stays_open _ Hs h [] []).
  - wp_use (open_runs_stays (run_names p <$> run :: runs) []). cbn [app]. by rewrite Hc.
Qed.

Lemma look_for_stays id tree at_ p h :
  wp (look_for id tt tree at_ p) h (fun v t =>
    match v.1 with
    | Ok Stop => exists hd, ReadHandle p (Ok hd) ∈ t /\ id_of_handle big_endian hd = Ok id
    | Ok Continue => forall stable, stays stable -> stable p <> Some id
    | Ok Skip => forall stable, stays stable -> stable p = None
    | Err _ => True
    end).
Proof.
  unfold look_for, cgroup_id. repeat wp_step. cbn [fst]. destruct (handle_answer h p) as [hd|e] eqn:Eh.
  - destruct (id_of_handle big_endian hd) as [found|e] eqn:Ei.
    + destruct (Z.eqb_spec found id) as [->|Hne]; [exists hd; split; [set_solver|done]|].
      intros stable Hs Hp. pose proof (stays_id _ Hs h p id Hp) as Hi. rewrite Eh in Hi. congruence.
    + unfold id_of_handle in Ei. destruct (_ || _); [|done]. by injection Ei as <-.
  - destruct (gone_io (from_raw_os_error e)) eqn:Eg; [|done]. intros stable Hs. destruct (stable p) as [i|] eqn:Ep; [|done].
    pose proof (stays_id _ Hs h p i Ep) as Hi. rewrite Eh in Hi. unfold gone_io in Eg. cbn in Eg. congruence.
Qed.

(** Every cgroup that stays and has the id is under one still pending. *)
Definition covered (stable : Path -> option Z) (id : Z) (tree : list Node) (pending : list nat) : Prop :=
  forall q, q <> [] -> stable q = Some id -> exists k, k ∈ pending /\ names tree k `prefix_of` q.

Lemma covered_pop stable id tree at_ pending :
  stays stable -> covered stable id tree (at_ :: pending) -> stable (names tree at_) = None -> covered stable id tree pending.
Proof.
  intros Hs Hc Hn q Hq Hid. destruct (Hc q Hq Hid) as (k & [->|Hk]%elem_of_cons & Hp); [|by exists k].
  destruct (stays_prefix stable _ q Hs (ltac:(by rewrite Hid)) Hp) as [? He]. congruence.
Qed.

Lemma covered_listed stable id tree at_ pending ns :
  stays stable -> wf tree -> Forall (fun k => k < length tree)%nat (at_ :: pending) -> covered stable id tree (at_ :: pending) ->
  (at_ <> ROOT -> stable (names tree at_) <> Some id) ->
  (forall n, is_Some (stable (names tree at_)) -> is_Some (stable (names tree at_ ++ [n])) -> n ∈ ns) ->
  covered stable id (tree ++ (node at_ <$> ns)) (pending ++ seq (length tree) (length ns)).
Proof.
  intros Hs Hwf [Ha Hpend]%Forall_cons Hc Hid Hns q Hq Hqid. rewrite Forall_forall in Hpend.
  destruct (Hc q Hq Hqid) as (k & [->|Hk]%elem_of_cons & Hp).
  - destruct Hp as [[|n l] ->].
    { rewrite app_nil_r in *. destruct (decide (at_ = ROOT)) as [->|Hr]; [done|by destruct (Hid Hr)]. }
    assert (forall l', is_Some (stable (names tree at_ ++ l')) -> is_Some (stable (names tree at_))) as Hup.
    { intros l' Hl'. eapply stays_prefix; [done|exact Hl'|by apply prefix_app_r]. }
    assert (is_Some (stable (names tree at_ ++ [n]))) as Hn.
    { eapply stays_prefix; [done|by rewrite Hqid|]. exists l. by rewrite <- app_assoc. }
    apply Hns in Hn as Hin; [|by eapply Hup]. apply list_elem_of_lookup in Hin as [i Hi]. exists (length tree + i)%nat. split.
    + apply elem_of_app. right. apply elem_of_seq. apply lookup_lt_Some in Hi. lia.
    + rewrite (names_child _ _ _ _ n) by done. exists l. by rewrite <- app_assoc.
  - exists k. split; [apply elem_of_app; by left|]. rewrite names_app by auto. done.
Qed.

(** What a traversal that looks for [id] from [pending] on answers. *)
Definition walk_post (id : Z) (tree : list Node) (pending : list nat) (behind : bool) (r : option (result Failure Traversed)) (t : list Ev) : Prop :=
  match r with
  | Some (Ok Stopped) => exists p hd, p <> [] /\ ReadHandle p (Ok hd) ∈ t /\ id_of_handle big_endian hd = Ok id
  | Some (Ok (Listed false)) => behind = false /\ (ROOT ∈ pending -> OpenEvents (Ok tt) ∈ t) /\
      (forall stable q, stays stable -> covered stable id tree pending -> q <> [] -> stable q <> Some id)
  | _ => True
  end.

Lemma walk_post_later id tree tree' pending pending' behind r t t' :
  walk_post id tree' pending' behind r t' ->
  (ROOT ∈ pending -> ROOT ∈ pending' \/ OpenEvents (Ok tt) ∈ t) ->
  (forall stable, stays stable -> covered stable id tree pending -> covered stable id tree' pending') ->
  walk_post id tree pending behind r (t ++ t').
Proof.
  intros Hp Hr Hc. unfold walk_post in *. destruct r as [[[|[|]]|]|]; try done.
  - destruct Hp as (q & hd & ? & Hin & ?). exists q, hd. split_and!; [done|set_solver|done].
  - destruct Hp as (? & Hev & Hcov). split_and!; [done| |by eauto]. intros Hroot. destruct (Hr Hroot); set_solver.
Qed.

Lemma walk_post_behind id tree tree' pending pending' behind r t t' :
  walk_post id tree' pending' true r t' -> walk_post id tree pending behind r (t ++ t').
Proof.
  unfold walk_post. destruct r as [[[|[|]]|]|]; try done; [|by intros [? _]].
  intros (q & hd & ? & Hin & ?). exists q, hd. split_and!; [done|set_solver|done].
Qed.

Lemma walk_post_end id tree behind : walk_post id tree [] behind (Some (Ok (Listed behind))) [].
Proof.
  destruct behind; [done|]. split_and!; [done|by intros ?%not_elem_of_nil|].
  intros stable q Hs Hc Hq Hid. by destruct (Hc q Hq Hid) as (k & ?%not_elem_of_nil & _).
Qed.

Lemma find_walk id fuel : forall tree pending behind h, wf tree -> Forall (fun k => k < length tree)%nat pending ->
  wp (traverse true (look_for id) fuel tree pending behind tt) h (fun r t => walk_post id tree pending behind r.1.1 t).
Proof.
  induction fuel as [|fuel IH]; intros tree pending behind h Hwf Hpend; cbn [traverse];
    (destruct pending as [|at_ pending]; [wp_step; apply walk_post_end|]); [by wp_step|].
  pose proof Hpend as [Ha Hpend']%Forall_cons. set (p := names tree at_).
  assert (forall h t1, at_ <> ROOT -> (forall stable, stays stable -> stable p = None) ->
    wp (traverse true (look_for id) fuel tree pending behind tt) h (fun r t => walk_post id tree (at_ :: pending) behind r.1.1 (t1 ++ t))) as Hgone.
  { intros h' t1 Hr Hn. eapply wp_mono; [by apply IH|]. intros r t Hp. eapply walk_post_later; [exact Hp| |].
    - intros [Hr0|Hin]%elem_of_cons; [by destruct Hr|by left].
    - intros stable Hs Hcov. eapply covered_pop; [done|exact Hcov|by apply Hn]. }
  wp_step. wp_use (open_cgroup_stays p). intros o t1 Ho. destruct o as [[]|e].
  2: { destruct (skippable at_ e) eqn:Es.
       - apply andb_true_iff in Es as [Eg Er%negb_true_iff%Nat.eqb_neq]. apply Hgone; [done|]. intros stable Hs.
         destruct (stable p) eqn:Ep; [|done]. rewrite (Ho stable Hs) in Eg; [done|by rewrite Ep].
       - destruct (e =? EXDEV); [|by wp_step]. eapply wp_mono; [by apply IH|]. intros r t. apply walk_post_behind. }
  wp_step. eapply (wp_mono _ _ (fun v t => match v.1 with
    | Ok Stop => at_ <> ROOT /\ exists hd, ReadHandle p (Ok hd) ∈ t /\ id_of_handle big_endian hd = Ok id
    | Ok Continue => at_ <> ROOT -> forall stable, stays stable -> stable p <> Some id
    | Ok Skip => at_ <> ROOT /\ forall stable, stays stable -> stable p = None
    | Err _ => True end)).
  { destruct (Nat.eqb_spec at_ ROOT); [wp_step; cbn; by intros ?|]. wp_use look_for_stays. intros [[[| |]|] ?] t; cbn; auto. }
  intros [[[| |]|e] []] t2 Hv; cbn [fst] in Hv; wp_step.
  - wp_use list_cgroup_spec. intros l t3 Hl. wp_step. unfold close. wp_step. destruct l as [[tree' pending']|f]; [|by wp_step].
    destruct Hl as (ns & -> & -> & _ & _ & Hns & Hev). eapply wp_mono; [apply IH; [by apply wf_app|]|].
    { rewrite length_app, length_fmap. apply Forall_app. split; [eapply Forall_impl; [exact Hpend'|]; cbn; lia|].
      apply Forall_forall. intros k Hk%elem_of_seq. lia. }
    intros r t Hp. rewrite !(assoc_L (++)). eapply walk_post_later; [exact Hp| |].
    + intros [Hr|Hin]%elem_of_cons; [right; specialize (Hev (eq_sym Hr) eq_refl); set_solver|left; apply elem_of_app; by left].
    + intros stable Hs Hcov. eapply covered_listed; try done; [by auto|]. intros n. by apply (Hns stable n Hs).
  - unfold close. wp_step. destruct Hv as [Hr Hn]. eapply wp_mono; [by apply (Hgone _ (t1 ++ t2 ++ [Close (OfCgroup p)]))|].
    intros r t Hp. cbv beta in Hp. rewrite <- !(assoc_L (++)) in Hp. exact Hp.
  - unfold close. wp_step. wp_step. destruct Hv as (Hr & hd & Hin & Hid). exists p, hd. split_and!; [|set_solver|done].
    destruct (lookup_lt_is_Some_2 tree at_ Ha) as [x Hx]. unfold p. rewrite (node_names_step _ _ x) by done. by intros [_ ?]%app_nil.
  - unfold close. wp_step. by wp_step.
Qed.
End walk.

(** * What a sweep removes *)

Definition removes (e : Ev) : option (Path * result Z unit) := match e with Unlink p n r => Some (p ++ [n], r) | _ => None end.

(** The removals tried, in order, and those that succeeded. *)
Definition unlinked (t : list Ev) : list Path := (omap removes t).*1.
Definition removed_ok (t : list Ev) : list Path := omap (fun x => match x.2 with Ok _ => Some x.1 | Err _ => None end) (omap removes t).

Definition no_removal (e : Ev) : bool := match removes e with None => true | Some _ => false end.

Lemma no_removals t : Forall (fun e => no_removal e = true) t -> omap removes t = [].
Proof. induction 1 as [|e t He _ IH]; [done|]. unfold no_removal in He. cbn. by destruct (removes e). Qed.

Section sweep.
Context `{Host}.

Local Ltac only_step := repeat first [assumption | apply only_bind; [|intros ?] | apply only_ret | apply only_call; intros ?; reflexivity | apply only_note; reflexivity].

Lemma open_cgroup_only p : only no_removal (open_cgroup p).
Proof.
  assert (forall runs from, only no_removal (open_runs from runs)) as Hr.
  { induction runs as [|run runs IH]; intros from; cbn [open_runs]; [apply only_ret|]. unfold open_beneath, close. only_step; [by destruct from; only_step|].
    destruct a as [[]|e]; [apply IH|apply only_ret]. }
  unfold open_cgroup. destruct (pieces p PATH_MAX_BYTES); [unfold open_beneath; only_step|apply Hr].
Qed.

Lemma push_children_only at_ p entries : forall tree pending, only no_removal (push_children at_ p entries tree pending).
Proof.
  induction entries as [|entry entries IH]; intros tree pending; cbn [push_children]; [apply only_ret|]. only_step.
  - destruct (is_dot entry.1); [apply only_ret|]. unfold is_dir. destruct entry.2; only_step.
  - destruct a as [[]|e]; [apply IH|apply IH|apply only_ret].
Qed.

Lemma list_cgroup_only confirm tree at_ p pending : only no_removal (list_cgroup confirm tree at_ p pending).
Proof.
  unfold list_cgroup, close. only_step. destruct a as [[]|e]; only_step; [apply push_children_only|].
  destruct a0 as [found|e]; [|apply only_ret]. destruct a.2 as [e|]; [destruct (skippable at_ e); apply only_ret|].
  destruct ((at_ =? ROOT)%nat && confirm); only_step. destruct a0 as [[]|e]; only_step.
Qed.

Lemma traverse_only {A} confirm (visit : A -> list Node -> nat -> Path -> Hist Ev (result IoError Visit * A)) fuel :
  (forall st tree at_ p, only no_removal (visit st tree at_ p)) ->
  forall tree pending behind st, only no_removal (traverse confirm visit fuel tree pending behind st).
Proof.
  intros Hv. induction fuel as [|fuel IH]; intros tree pending behind st; cbn [traverse]; (destruct pending as [|at_ pending]; [apply only_ret|]); [apply only_ret|].
  apply only_bind; [apply open_cgroup_only|intros [[]|e]]. 2: { destruct (skippable at_ e), (e =? EXDEV); first [apply IH|apply only_ret]. }
  apply only_bind; [destruct (at_ =? ROOT)%nat; [apply only_ret|apply Hv]|]. unfold close.
  intros [[[| |]|e] st'].
  - apply only_bind; [apply list_cgroup_only|]. intros l. only_step. destruct l as [[tree' pending']|f]; [apply IH|apply only_ret].
  - only_step. apply IH.
  - only_step.
  - only_step.
Qed.

Lemma record_found_only st tree at_ p : only no_removal (record_found st tree at_ p).
Proof. unfold record_found, cgroup_id. only_step. Qed.

(** A cgroup above a node's is an earlier node's. *)
Lemma names_above tree q l : forall j, wf tree -> (j < length tree)%nat -> names tree j = q ++ l -> exists k, (k <= j)%nat /\ names tree k = q.
Proof.
  induction l as [|x l IH] using rev_ind; intros j Hwf Hj Hn; [exists j; by rewrite app_nil_r in Hn|].
  destruct (decide (j = ROOT)) as [->|Hj0]; [by destruct q, l|]. destruct (lookup_lt_is_Some_2 tree j Hj) as [y Hy].
  rewrite (node_names_step _ _ y), (assoc_L (++)) in Hn by done. apply app_inj_tail in Hn as [Hn _].
  pose proof (wf_parent _ Hwf _ _ Hj0 Hy) as Hp. destruct (IH (parent y) Hwf) as (k & Hk & ?); [lia|done|]. exists k. split; [lia|done].
Qed.

(** The nodes found, in the order visited, with ids read from them. *)
Record found_ok (tree : list Node) (found : list (nat * option Z)) (popped : nat) (t : list Ev) : Prop := {
  found_sorted : StronglySorted lt found.*1;
  found_in : forall k id, (k, id) ∈ found -> k <> ROOT /\ (k < popped)%nat;
  found_read : forall k id, (k, Some id) ∈ found -> exists hd, ReadHandle (names tree k) (Ok hd) ∈ t /\ id_of_handle big_endian hd = Ok id }.

Lemma found_ok_nil tree popped t : found_ok tree [] popped t.
Proof. split; [constructor|..]; intros k id ?%not_elem_of_nil; done. Qed.

Lemma found_ok_later tree l found popped popped' t t' :
  found_ok tree found popped t -> wf tree -> (popped <= length tree)%nat -> (popped <= popped')%nat -> found_ok (tree ++ l) found popped' (t ++ t').
Proof.
  intros [Hs Hi Hr] Hwf Hl Hp. split; [done| |].
  - intros k id Hk. destruct (Hi k id Hk). split; [done|lia].
  - intros k id Hk. destruct (Hr k id Hk) as (hd & Hin & ?). destruct (Hi _ _ Hk). rewrite names_app by (done || lia). exists hd. split; [set_solver|done].
Qed.

Lemma found_ok_snoc tree found popped id t :
  found_ok tree found popped t -> popped <> ROOT ->
  (forall i, id = Some i -> exists hd, ReadHandle (names tree popped) (Ok hd) ∈ t /\ id_of_handle big_endian hd = Ok i) ->
  found_ok tree (found ++ [(popped, id)]) (S popped) t.
Proof.
  intros [Hs Hi Hr] Hroot Hid. split.
  - rewrite fmap_app. apply StronglySorted_app. split_and!; [|done|repeat constructor]. intros x y Hx ->%list_elem_of_singleton.
    apply list_elem_of_fmap in Hx as ([k i] & -> & Hk). by destruct (Hi k i Hk).
  - intros k i [Hk|[= -> ->]%list_elem_of_singleton]%elem_of_app; [destruct (Hi k i Hk); split; [done|lia]|split; [done|lia]].
  - intros k i [Hk|[= -> Hi']%list_elem_of_singleton]%elem_of_app; [by apply Hr|by apply Hid].
Qed.

Lemma record_found_spec found tree popped h t0 :
  found_ok tree found popped t0 -> popped <> ROOT ->
  wp (record_found found tree popped (names tree popped)) h (fun v t => found_ok tree v.2 (S popped) (t0 ++ t)).
Proof.
  intros Hf Hr. unfold record_found, cgroup_id. repeat wp_step. set (t := [_] ++ []).
  assert (found_ok tree found popped (t0 ++ t)) as Hf'.
  { destruct Hf as [? ? Hr']. split; [done..|]. intros k id Hk. destruct (Hr' k id Hk) as (hd & ? & ?). exists hd. split; [set_solver|done]. }
  assert (found_ok tree found (S popped) (t0 ++ t)) as Hskip.
  { destruct Hf' as [? Hi ?]. split; [done| |done]. intros k id Hk. destruct (Hi k id Hk). split; [done|lia]. }
  destruct (handle_answer h (names tree popped)) as [hd|e] eqn:Eh.
  - destruct (id_of_handle big_endian hd) as [i|e] eqn:Ei; [|by destruct (gone_io e); [|apply found_ok_snoc]].
    apply found_ok_snoc; [done|done|]. intros j [= <-]. exists hd. split; [subst t; set_solver|done].
  - destruct (gone_io _); [done|]. by apply found_ok_snoc.
Qed.

(** What a traversal has found, with the calls [t] made. *)
Definition found_post (all : list Path) (tree : list Node) (found : list (nat * option Z)) (t : list Ev) : Prop :=
  exists pending popped, growing all tree pending popped /\ found_ok tree found popped t.

Lemma found_post_stop all tree found pending popped t t' :
  growing all tree pending popped -> found_ok tree found popped t -> t ⊆ t' -> found_post all tree found t'.
Proof.
  intros Hg [Hs Hi Hr] Ht. exists pending, popped. split; [done|]. split; [done..|].
  intros k id Hk. destruct (Hr k id Hk) as (hd & ? & ?). exists hd. split; [by apply Ht|done].
Qed.

Lemma traverse_found all fuel : finite all -> forall tree pending popped behind found h t0,
  growing all tree pending popped -> found_ok tree found popped t0 ->
  wp (traverse false record_found fuel tree pending behind found) h (fun r t => found_post all r.1.2 r.2 (t0 ++ t)).
Proof.
  intros Hfin. induction fuel as [|fuel IH]; intros tree pending popped behind found h t0 Hg Hf; cbn [traverse];
    (destruct pending as [|at_ pending]; [wp_step; exists [], popped; by rewrite app_nil_r|]).
  { wp_step. exists (at_ :: pending), popped. by rewrite app_nil_r. }
  pose proof (growing_pop _ _ _ _ _ Hg) as (-> & Ha & Hg'). pose proof (grown_wf _ _ _ _ Hg) as Hwf.
  assert (forall t, found_ok tree found (S popped) (t0 ++ t)) as Hskip.
  { intros t. rewrite <- (app_nil_r tree). by apply (found_ok_later _ _ _ popped); try lia. }
  assert (forall h behind found t1, found_ok tree found (S popped) (t0 ++ t1) -> wp (traverse false record_found fuel tree pending behind found) h
    (fun r t => found_post all r.1.2 r.2 (t0 ++ t1 ++ t))) as Hagain.
  { intros h' b f t1 Hf1. eapply wp_mono; [by apply (IH _ _ _ b f h' (t0 ++ t1) Hg')|]. intros r t Hp. by rewrite (assoc_L (++)). }
  wp_step. wp_use (open_cgroup_held (names tree popped)). intros o t1 _. destruct o as [[]|e].
  2: { destruct (skippable popped e); [by apply Hagain|]. destruct (e =? EXDEV); [by apply Hagain|]. wp_step. exists pending, (S popped). by rewrite app_nil_r. }
  wp_step. eapply (wp_mono _ _ (fun v t => found_ok tree v.2 (S popped) (t0 ++ t1 ++ t))).
  { destruct (Nat.eqb_spec popped ROOT); [by wp_step|]. eapply wp_mono; [by apply record_found_spec|]. intros v t [Hs Hi Hr].
    split; [done..|]. intros k id Hk. destruct (Hr k id Hk) as (hd & ? & ?). exists hd. split; [set_solver|done]. }
  intros [[[| |]|e] found'] t2 Hv; cbn [fst snd] in Hv; wp_step.
  - wp_use list_cgroup_spec. intros l t3 Hl. wp_step. unfold close. wp_step. rewrite !(assoc_L (++)) in Hv.
    assert (forall l, found_ok (tree ++ l) found' (S popped) (t0 ++ t1 ++ t2 ++ t3 ++ [Close (OfCgroup (names tree popped))])) as Hv'.
    { intros l'. rewrite !(assoc_L (++)). rewrite <- (assoc_L (++) _ t3). apply (found_ok_later _ _ _ (S popped)); by try lia. }
    destruct l as [[tree' pending']|f].
    + destruct Hl as (ns & -> & -> & Hns & Hdots & _). eapply wp_mono; [eapply IH; [by apply growing_listed|apply Hv']|].
      intros r t Hp. cbv beta in Hp. by rewrite <- !(assoc_L (++)) in Hp.
    + wp_step. eapply found_post_stop; [exact Hg'|specialize (Hv' []); rewrite app_nil_r in Hv'; exact Hv'|set_solver].
  - unfold close. wp_step. eapply wp_mono; [apply (Hagain _ _ _ (t1 ++ t2 ++ [Close (OfCgroup (names tree popped))]))|].
    + pose proof (found_ok_later tree [] found' _ (S popped) _ [Close (OfCgroup (names tree popped))] Hv Hwf ltac:(lia) ltac:(lia)) as Hv'.
      rewrite app_nil_r, <- !(assoc_L (++)) in Hv'. exact Hv'.
    + intros r t Hp. cbv beta in Hp. by rewrite <- !(assoc_L (++)) in Hp.
  - unfold close. wp_step. wp_step. eapply found_post_stop; [exact Hg'|exact Hv|set_solver].
  - unfold close. wp_step. wp_step. eapply found_post_stop; [exact Hg'|exact Hv|set_solver].
Qed.

Lemma unlinked_app t t' : unlinked (t ++ t') = unlinked t ++ unlinked t'.
Proof. unfold unlinked. by rewrite omap_app, fmap_app. Qed.

Lemma removed_ok_app t t' : removed_ok (t ++ t') = removed_ok t ++ removed_ok t'.
Proof. unfold removed_ok. by rewrite !omap_app. Qed.

Lemma quiet_removals t : Forall (fun e => no_removal e = true) t -> unlinked t = [] /\ removed_ok t = [].
Proof. intros Ht. unfold unlinked, removed_ok. by rewrite (no_removals t Ht). Qed.

(** The cgroup a node of the tree stands for is removed from its parent, by its own name. *)
Lemma remove_found_spec tree l : wf tree -> Forall (fun f => f.1 <> ROOT /\ f.1 < length tree)%nat l -> forall n swept h,
  wp (remove_found tree l n swept) h (fun r t =>
    unlinked t `sublist_of` (names tree <$> l.*1) /\
    (forall k, r.1 = Ok k -> k = n + Z.of_nat (length (removed_ok t))) /\
    (forall id, id ∈ r.2 -> id ∈ swept \/ exists at_, (at_, Some id) ∈ l /\ names tree at_ ∈ removed_ok t)).
Proof.
  intros Hwf. induction l as [|[at_ id] l IH]; intros Hl n swept h; cbn [remove_found].
  { wp_step. cbn. split_and!; [done|intros k [= <-]; lia|by left]. }
  apply Forall_cons in Hl as [[Hr Ha] Hl]. specialize (IH Hl). cbn [fst] in Hr, Ha. destruct (lookup_lt_is_Some_2 tree at_ Ha) as [x Hx].
  rewrite Hx. cbn [default fmap option_fmap option_map]. pose proof (node_names_step _ _ x Hwf Hr Hx) as Hn. set (up := names tree (parent x)) in *.
  wp_step. wp_use (open_cgroup_only up). intros o t1 Ht1. apply quiet_removals in Ht1 as [Hu1 Hr1].
  assert (forall n swept h t0, unlinked t0 = [] -> removed_ok t0 = [] -> wp (remove_found tree l n swept) h (fun r t =>
    unlinked (t0 ++ t) `sublist_of` (names tree <$> ((at_, id) :: l).*1) /\
    (forall k, r.1 = Ok k -> k = n + Z.of_nat (length (removed_ok (t0 ++ t)))) /\
    (forall i, i ∈ r.2 -> i ∈ swept \/ exists k, (k, Some i) ∈ (at_, id) :: l /\ names tree k ∈ removed_ok (t0 ++ t)))) as Hquiet.
  { intros n' swept' h' t0 Hu0 Hr0. wp_use IH. intros r t (Hs & Hk & Hi). rewrite unlinked_app, removed_ok_app, Hu0, Hr0. cbn. split_and!; [by constructor|done|].
    intros i Hin. destruct (Hi i Hin) as [|(k & ? & ?)]; [by left|]. right. exists k. split; [by right|done]. }
  destruct o as [[]|e].
  2: { destruct (gone e || (e =? EXDEV)); [by apply Hquiet|]. wp_step. rewrite app_nil_r, Hu1, Hr1. split_and!; [apply sublist_nil_l|done|by left]. }
  wp_step. wp_step. unfold close. wp_step. wp_step.
  match goal with |- context [unlink_answer ?h ?u ?m] => set (a := unlink_answer h u m) end.
  assert (forall t, unlinked (t1 ++ [Unlink up (name x) a] ++ [Close (OfCgroup up)] ++ t) = names tree at_ :: unlinked t) as Hun.
  { intros t. rewrite !unlinked_app, Hu1, Hn. done. }
  assert (forall t, removed_ok (t1 ++ [Unlink up (name x) a] ++ [Close (OfCgroup up)] ++ t) =
    match a with Ok _ => [names tree at_] | Err _ => [] end ++ removed_ok t) as Hrm.
  { intros t. rewrite !removed_ok_app, Hr1, Hn. unfold removed_ok at 1. cbn. by destruct a. }
  destruct a as [[]|e].
  - wp_use IH. intros r t (Hs & Hk & Hi). rewrite Hun, Hrm. cbn [app length fmap list_fmap fst]. split_and!; [by constructor|intros k E; rewrite (Hk k E); lia|].
    intros i Hin. destruct (Hi i Hin) as [[|Hid]%elem_of_app|(k & ? & ?)]; [by left|right; exists at_|right; exists k; split; by right].
    destruct id as [j|]; cbn in Hid; [|by apply not_elem_of_nil in Hid]. apply list_elem_of_singleton in Hid as ->. split; left.
  - destruct (gone e || (e =? EBUSY)).
    + wp_use IH. intros r t (Hs & Hk & Hi). rewrite Hun, Hrm. cbn [app length fmap list_fmap fst]. split_and!; [by constructor|done|].
      intros i Hin. destruct (Hi i Hin) as [|(k & ? & ?)]; [by left|]. right. exists k. split; [by right|done].
    + wp_step. rewrite Hun, Hrm. cbn. split_and!; [constructor; apply sublist_nil_l|done|by left].
Qed.

Lemma sublist_sorted {A} (R : A -> A -> Prop) (l k : list A) : l `sublist_of` k -> StronglySorted R k -> StronglySorted R l.
Proof.
  induction 1 as [|x l k Hs IH|x l k Hs IH]; [done| |].
  - intros [Hf Hk]%StronglySorted_cons. apply StronglySorted_cons. split; [|by apply IH]. rewrite Forall_forall in *.
    intros y Hy. by eapply Hf, elem_of_sublist.
  - intros [_ Hk]%StronglySorted_cons. by apply IH.
Qed.

(** Deepest first: the nodes found, reversed. *)
Lemma found_deepest_first all tree found pending popped t :
  growing all tree pending popped -> found_ok tree found popped t ->
  StronglySorted (fun p q => ~ p `prefix_of` q) (names tree <$> (rev found).*1).
Proof.
  intros Hg [Hs Hi _]. pose proof (grown_wf _ _ _ _ Hg) as Hwf. pose proof (grown_popped _ _ _ _ Hg) as Hp.
  induction found as [|[k id] found IH]; [constructor|]. cbn in Hs. apply StronglySorted_cons in Hs as [Hk Hs]. cbn [rev].
  rewrite fmap_app, fmap_app. apply StronglySorted_app. split_and!; [|apply IH; [done|intros ???; by apply (Hi _ id0); right]|repeat constructor].
  intros p q Hpin ->%list_elem_of_singleton [l Hq]. cbn in Hq. apply list_elem_of_fmap in Hpin as (j & -> & Hj).
  apply list_elem_of_fmap in Hj as ([j' id'] & -> & Hj%list_elem_of_In%in_rev%list_elem_of_In). cbn in Hq.
  rewrite Forall_forall in Hk. assert (k < j')%nat as Hlt by (apply Hk; by apply (list_elem_of_fmap_2 fst _ (j', id'))).
  destruct (Hi k id) as [_ Hkp]; [by left|]. destruct (Hi j' id') as [_ Hjp]; [by right|].
  destruct (names_above tree (names tree j') l k Hwf) as (m & Hm & Heq); [lia|done|].
  apply (names_inj tree) in Heq; [lia|apply Hg|lia|lia].
Qed.
End sweep.

(** * Properties *)

Lemma wp_both {E A} (m : Hist E A) h (P Q : A -> list E -> Prop) : wp m h P -> wp m h Q -> wp m h (fun a t => P a t /\ Q a t).
Proof. intros (a & t & Hr & HP) HQ. exists a, t. split; [done|]. split; [done|]. exact (wp_runs _ _ _ _ _ HQ Hr). Qed.

Lemma find_descendant_finds `{Host} all fuel id h (Hfinite : finite all) (Hfuel : (length all < fuel)%nat) :
  wp (find_descendant fuel id) h (fun r t => accepts held [] t = Some [] /\
    match r with
    | Some Found => exists p hd, p <> [] /\ ReadHandle p (Ok hd) ∈ t /\ id_of_handle big_endian hd = Ok id
    | Some Absent => OpenEvents (Ok tt) ∈ t /\ forall stable p, stays stable -> p <> [] -> stable p <> Some id
    | Some (Unlisted _) => True
    | None => False
    end).
Proof.
  apply wp_both; [wp_use (find_descendant_held fuel id); intros r t (s & Ht & ->); done|]. unfold find_descendant. wp_step.
  eapply wp_mono; [apply wp_both|].
  - eapply (traverse_ends true (look_for id) all Hfinite); [|apply growing_new|lia].
    intros [] tree at_ p h'. wp_use (look_for_stays id tree at_ p). done.
  - apply (find_walk id fuel new_tree [ROOT] false); [apply wf_new|repeat constructor].
  - intros [[r tree] st] t [[v Hv] Hp]. cbn in Hv, Hp. subst r. wp_step. rewrite app_nil_r. cbn [fst fmap option_fmap option_map].
    destruct v as [[|[|]]|f]; cbn in Hp |- *; [done|done| |done]. destruct Hp as (_ & Hev & Hc). split; [apply Hev; left|].
    intros stable p Hs Hp. apply Hc; [done| |done]. intros q Hq _. exists ROOT. split; [left|]. apply prefix_nil.
Qed.

(** C13: A walk of a finite tree for a cgroup id ends, however the tree changes under it. It says that a cgroup
    under the leaf has the id only where it read that id of one, and that none has only where every cgroup
    that stayed through the walk was looked at, and the leaf itself was still there after its listing. It
    goes through descriptors it holds, two at most and a third for the leaf's own file, and closes each. *)
Theorem walk_finds `{Host} all fuel id h (Hfinite : finite all) (Hfuel : (length all < fuel)%nat) :
  wp (find_descendant fuel id) h (fun r t => accepts held [] t = Some [] /\
    match r with
    | Some Found => exists p hd, p <> [] /\ ReadHandle p (Ok hd) ∈ t /\ id_of_handle big_endian hd = Ok id
    | Some Absent => OpenEvents (Ok tt) ∈ t /\ forall stable p, stays stable -> p <> [] -> stable p <> Some id
    | Some (Unlisted _) => True
    | None => False
    end).
Proof. by apply find_descendant_finds with all. Qed.

(** A sweep of a finite tree ends, however the tree changes under it. It tries each cgroup it found after
    all those it found under it, never twice and never the leaf itself; the count it answers is of the removals that
    succeeded, and an id it records was read of a cgroup whose removal did. It goes through descriptors it
    holds and closes each. *)
Theorem sweep_deepest_first `{Host} all fuel swept h (Hfinite : finite all) (Hfuel : (length all < fuel)%nat) :
  wp (remove_children fuel swept) h (fun r t => accepts held [] t = Some [] /\
    StronglySorted (fun p q => ~ p `prefix_of` q) (unlinked t) /\ [] ∉ unlinked t /\
    (exists v, r.1 = Some v /\ forall n, v = Ok n -> n = Z.of_nat (length (removed_ok t))) /\
    (forall id, id ∈ r.2 -> id ∈ swept \/ exists p hd, ReadHandle p (Ok hd) ∈ t /\ id_of_handle big_endian hd = Ok id /\ p ∈ removed_ok t)).
Proof.
  apply wp_both; [wp_use (remove_children_held fuel swept); intros r t (s & Ht & ->); done|]. unfold remove_children. wp_step.
  eapply wp_mono; [apply wp_both; [eapply (traverse_ends false record_found all Hfinite); [|apply growing_new|lia]|apply wp_both]|].
  - intros st tree at_ p h'. unfold record_found, cgroup_id. by repeat wp_step.
  - apply (traverse_found all fuel Hfinite new_tree [ROOT] 0 false [] h []); [apply growing_new|apply found_ok_nil].
  - apply (traverse_only false record_found fuel record_found_only).
  - intros [[o tree] found] t1 ([v Hv] & (pending & popped & Hg & Hf) & Ht1). cbn in Hv, Hg, Hf. subst o.
    apply quiet_removals in Ht1 as [Hu1 Hr1]. pose proof (grown_wf _ _ _ _ Hg) as Hwf. pose proof (found_deepest_first _ _ _ _ _ _ Hg Hf) as Hsort.
    destruct Hf as [_ Hi Hread]. assert (Forall (fun f => f.1 <> ROOT /\ f.1 < length tree)%nat (rev found)) as Hl.
    { apply Forall_forall. intros [k id] Hk%list_elem_of_In%in_rev%list_elem_of_In. destruct (Hi k id Hk). pose proof (grown_popped _ _ _ _ Hg). cbn. split; [done|lia]. }
    wp_step. wp_use (remove_found_spec tree (rev found) Hwf Hl). intros [res sw] t2 (Hs & Hk & Hid). wp_step.
    rewrite app_nil_r, unlinked_app, removed_ok_app, Hu1, Hr1. cbn [app fst snd] in *. split_and!.
    + by eapply sublist_sorted.
    + intros Hin. eapply elem_of_sublist in Hin; [|exact Hs]. apply list_elem_of_fmap in Hin as (k & Hn & ([k' id] & -> & Hk')%list_elem_of_fmap).
      rewrite Forall_forall in Hl. destruct (Hl _ Hk') as [Hr Hlt]. cbn [fst] in Hr, Hlt, Hn. destruct (lookup_lt_is_Some_2 tree k' Hlt) as [x Hx].
      rewrite (node_names_step _ _ x) in Hn by done. by destruct (names tree (parent x)).
    + destruct res as [n|e]; cbn; [|by eexists]. eexists. split; [reflexivity|]. intros m Hm. apply (Hk m). by destruct v as [|[|]]; simplify_eq.
    + intros id Hin. destruct (Hid id Hin) as [|(k & Hk' & Hrm)]; [by left|right]. apply list_elem_of_In, in_rev, list_elem_of_In in Hk'.
      destruct (Hread k id Hk') as (hd & Hrd & He). exists (names tree k), hd. split_and!; [set_solver|done|done].
Qed.

(** * A leaf with three cgroups *)

Definition demo_a : Name := [97].
Definition demo_b : Name := [98].
Definition demo_c : Name := [99].

Definition demo_entries (p : Path) : list (Name * FileType) :=
  if bool_decide (p = []) then [([46], Directory); (demo_a, Directory); (demo_c, Unknown)]
  else if bool_decide (p = [demo_a]) then [([46], Directory); (demo_b, Directory)] else [].

Definition demo_id (p : Path) : Z := if bool_decide (p = [demo_a; demo_b]) then 12 else if bool_decide (p = [demo_a]) then 11 else 13.

Definition demo_host : Host := {|
  big_endian := false;
  open_answer := fun _ _ _ => Ok tt;
  listing_answer := fun _ _ => Ok tt;
  events_answer := fun _ => Ok tt;
  handle_answer := fun _ p => Ok (handle FILEID_KERNFS 8 [demo_id p; 0; 0; 0; 0; 0; 0; 0]);
  entries_answer := fun _ p => (demo_entries p, None);
  stat_answer := fun _ _ _ => Ok true;
  unlink_answer := fun _ _ _ => Ok tt |}.

Lemma demo_finite : finite (H := demo_host) [[demo_a]; [demo_c]; [demo_a; demo_b]].
Proof.
  split; cbn; intros h p; unfold demo_entries.
  - do 2 (case_bool_decide; [by repeat constructor; set_solver|]). constructor.
  - intros n Hn Hdot. case_bool_decide; [|case_bool_decide]; subst; set_solver.
Qed.

Lemma walk_finds_witness : exists t, runs (find_descendant (H := demo_host) 4 12) [] (Some Found) t /\
  exists p hd, p <> [] /\ ReadHandle p (Ok hd) ∈ t /\ id_of_handle false hd = Ok 12.
Proof.
  destruct (walk_finds (H := demo_host) [[demo_a]; [demo_c]; [demo_a; demo_b]] 4 12 [] demo_finite (proj1 (Nat.ltb_lt 3 4) eq_refl)) as (r & t & Hr & _ & Hm).
  assert (r = Some Found) as -> by (unfold runs in Hr; vm_compute in Hr; injection Hr as <- _; reflexivity).
  exists t. split; [exact Hr|exact Hm].
Defined.

Lemma sweep_deepest_first_witness : exists t swept, runs (remove_children (H := demo_host) 4 []) [] (Some (Ok 3), swept) t /\
  unlinked t = [[demo_a; demo_b]; [demo_c]; [demo_a]] /\ swept = [12; 13; 11].
Proof.
  destruct (sweep_deepest_first (H := demo_host) [[demo_a]; [demo_c]; [demo_a; demo_b]] 4 [] [] demo_finite (proj1 (Nat.ltb_lt 3 4) eq_refl)) as (r & t & Hr & _ & Hs & _).
  unfold runs in Hr. pose proof Hr as Hr'. vm_compute in Hr'. injection Hr' as <- <-. eexists _, _. split; [exact Hr|]. split; vm_compute; reflexivity.
Defined.

(** The walk holds three descriptors while it looks whether the leaf is still there: its cgroup, its listing,
    and the file. *)
Lemma walk_holds_three : exists t t' s, runs (find_descendant (H := demo_host) 4 12) [] (Some Found) (t ++ t') /\
  accepts held [] t = Some s /\ length s = 3%nat.
Proof.
  eexists (take 5 (find_descendant (H := demo_host) 4 12 []).2), (drop 5 (find_descendant (H := demo_host) 4 12 []).2), _.
  split; [vm_compute; reflexivity|]. split; vm_compute; reflexivity.
Qed.
