(* ===== verification/Reach.v ===== *)
(** Whether a task is in a leaf's cgroup subtree: [src/containment/cgroup/reach.rs] up to the placement
    probe, with [parse.rs]'s readers of [/proc/<pid>/cgroup]. The reads' answers are the system's. *)
From S2P Require Import Prelude Utf Numbers IoErrors Identity CrateError ProcView History CgroupTree.
Local Open Scope Z_scope.

(** * [parse.rs] *)

Definition is_at_or_under (path leaf : bytes) : bool :=
  match strip_prefix leaf path with
  | Some rest => bool_decide (rest = []) || starts_with (bs "/") rest
  | None => false
  end.

Definition parse_v2_relative_path (proc_self_cgroup : bytes) : option bytes :=
  find_map (strip_prefix (bs "0::")) (lines proc_self_cgroup).

(** * [reach.rs] *)

Definition ENOTTY : Z := 25.
Definition PIDFD_INFO_CGROUPID : Z := Z.shiftl 1 2.

(** [pidfd_cgroup_id], on what the [ioctl] answers: the mask and the id it wrote. *)
Definition pidfd_cgroup_id (ioctl : result Z (Z * Z)) : result IoError (option Z) :=
  match ioctl with
  | Ok (mask, cgroupid) => if Z.land mask PIDFD_INFO_CGROUPID =? 0 then Ok None else Ok (Some cgroupid)
  | Err e => if (e =? ENOTTY) || (e =? EINVAL) then Ok None else Err (from_raw_os_error e)
  end.

Definition DELETED : bytes := bs " (deleted)".

Definition strip_suffix (suffix s : bytes) : option bytes := reverse <$> strip_prefix (reverse suffix) (reverse s).

Definition names_leaf (path leaf_path : bytes) (other_id : bool) (recorded : option bool) : result IoError bool :=
  if is_at_or_under path leaf_path then Ok true
  else if negb (bool_decide (strip_suffix DELETED path = Some leaf_path)) || other_id then Ok false
  else ok_or recorded (io_new Other).

(** [PlacedAtRemoval]: [record] and [clear] set it. *)
Definition PlacedAtRemoval : Type := option (Z * bool).

Definition placed_of (placed : PlacedAtRemoval) (pid : Z) : option bool :=
  match placed with Some (recorded, inside) => if recorded =? pid then Some inside else None | None => None end.

Definition dying_in (text : list Z) : option Z :=
  find_map (fun line => rest ← strip_prefix (bs "nr_dying_descendants ") line; parse_unsigned u64_max (trim rest)) (lines text).

(** A leaf's [Subtree]: whether it holds the leaf's directory; the ids its sweep removed; the path is of the
    unified hierarchy. *)
Record Subtree := subtree {
  leaf_id : option Z; dir : bool; path : option bytes; swept : list Z; placed : PlacedAtRemoval; killed : bool }.

(** What the reads answer, each when it is made. *)
Class Reads := {
  info : result Z (Z * Z);          (* the task's [PIDFD_GET_INFO] *)
  walk_for : Z -> Walked;           (* [find_descendant] of the leaf's directory *)
  stat_text : result IoError bytes  (* the leaf's [cgroup.stat], read after the walk *) }.

Section place.
Context {D : Type} `{K : Kernel D} `{R : Reads}.

Definition proc_names (leaf_path : bytes) (pid : Z) (recorded : option bool) (other_id : bool) : result IoError bool :=
  match proc_view_with (D := D) with
  | Diverged => Err (io_new Other)
  | ViewUnassessable why => Err (io_new (match vsource why with Some e => kind e | None => Other end))
  | Same proc_dir =>
      let? text := read_text proc_dir (show pid ++ bs "/cgroup") in
      let? p := ok_or (parse_v2_relative_path text) (io_new InvalidData) in
      names_leaf p leaf_path other_id recorded
  end.

(** [CgroupLeaf::record_watched_place] of [leaf.rs], of the front [pid]; [opens] says whether the leaf's
    [cgroup.events] opens, which says that the leaf is live. *)
Definition record_watched_place (leaf_path : bytes) (pid : Z) (opens : bool) : PlacedAtRemoval :=
  match proc_names leaf_path pid (if opens then Some false else None) false with
  | Ok inside => Some (pid, inside)
  | Err _ => None
  end.

Definition dying (s : Subtree) : result IoError (option Z) :=
  if negb (dir s) then Err (io_new Other)
  else let? b := stat_text in let? text := utf8 b in Ok (dying_in text).

Definition walk_places (s : Subtree) (id : Z) : option bool :=
  if negb (dir s) then None
  else match walk_for id with
  | Found => Some true
  | Absent => match dying s with Ok (Some n) => if n =? 0 then Some false else None | _ => None end
  | Unlisted _ => None
  end.

(** The place by [/proc], [elsewhere] saying that the pidfd's id is not the leaf's. *)
Definition place_by_proc (s : Subtree) (pid : Z) (elsewhere : bool) : result IoError bool :=
  match path s with
  | None => Ok false
  | Some p =>
      match proc_names p pid (placed_of (placed s) pid) elsewhere with
      | Ok b => Ok b
      | Err e => Err (if elsewhere then io_new (kind e) else e)
      end
  end.

Definition holds (s : Subtree) (pid : Z) (pidfd : bool) : result IoError bool :=
  match (if pidfd then leaf_id s else None) with
  | None => place_by_proc s pid false
  | Some leaf_id =>
      let? id := pidfd_cgroup_id info in
      match id with
      | None => place_by_proc s pid false
      | Some id =>
          if (id =? leaf_id) || bool_decide (id ∈ swept s) then Ok true
          else match walk_places s id with
          | Some under => Ok under
          | None => place_by_proc s pid true
          end
      end
  end.

Definition reached_by (s : Subtree) (pid : Z) (pidfd : bool) : result IoError bool :=
  if negb (killed s) then Ok false else holds s pid pidfd.

(** [Reach::reached], of a child with its pid and whether it has a pidfd. *)
Definition reached (s : Subtree) (pid : option Z) (pidfd : bool) : result IoError bool :=
  match pid with Some pid => reached_by s pid pidfd | None => Err (io_new Other) end.
End place.

(** * What the kernel prints

    A cgroup's place is the names on the way to it from the root. *)

Definition render (names : list (list Z)) : list Z := names ≫= cons 47.

(** A cgroup's path, with what the kernel prints after a removed one's. *)
Definition path_text (names : list (list Z)) (dead : bool) : list Z :=
  match names with [] => bs "/" | _ => render names end ++ (if dead then bs " (deleted)" else []).

(** A cgroup's name, without what [str::lines] would take for a part of the line's end. *)
Definition name_ok (n : list Z) : Prop := n <> [] /\ 47 ∉ n /\ 10 ∉ n /\ last n <> Some 13.

(** [/proc/<pid>/cgroup]: a line for each hierarchy, the unified one's among them. *)
Definition cgroup_file (names : list (list Z)) (dead : bool) (text : list Z) : Prop :=
  exists before after, Forall (fun l => 10 ∉ l /\ ~ bs "0::" `prefix_of` l) before /\
    text = (before ≫= fun l => l ++ [10]) ++ bs "0::" ++ path_text names dead ++ 10 :: after.

(** [cgroup.stat]: the live and the dying cgroups under it, and what newer kernels add. *)
Definition stat_file (live dying : Z) (text : list Z) : Prop :=
  0 <= live <= u64_max /\ 0 <= dying <= u64_max /\
  exists rest, text = bs "nr_descendants " ++ show live ++ 10 :: bs "nr_dying_descendants " ++ show dying ++ 10 :: rest.

(** ** The program reads it right *)

Lemma lines_cons l s : 10 ∉ l -> lines (l ++ 10 :: s) = strip_cr l :: lines s.
Proof.
  intros Hl. unfold lines. rewrite split_on_app by done. rewrite (split_on_free _ l).
  2: { apply Forall_forall. intros x Hx. apply Z.eqb_neq. by intros ->. }
  pose proof (split_on_ne (fun c => c =? 10) s) as Hne. destruct (split_on (fun c => c =? 10) s) as [|w ws] eqn:E; [done|]. done.
Qed.

Lemma strip_cr_id l : last l <> Some 13 -> strip_cr l = l.
Proof. unfold strip_cr. intros Hl. repeat case_match; done. Qed.

Lemma strip_cr_prefix l : strip_cr l `prefix_of` l.
Proof.
  unfold strip_cr. destruct l as [|x l _] using rev_ind; [done|]. rewrite last_snoc, removelast_last.
  repeat (case_match; try reflexivity); by eexists.
Qed.

Lemma strip_prefix_None (p l : list Z) : strip_prefix p l = None <-> ~ p `prefix_of` l.
Proof.
  split.
  - intros Hn [k ->]. by rewrite (proj2 (strip_prefix_Some p (p ++ k) k) eq_refl) in Hn.
  - intros Hn. destruct (strip_prefix p l) as [k|] eqn:E; [|done]. apply strip_prefix_Some in E as ->. destruct Hn. by eexists.
Qed.

Lemma last_path_text names dead : Forall name_ok names -> last (path_text names dead) <> Some 13.
Proof.
  intros Hok. unfold path_text. destruct dead; [by rewrite last_app|]. rewrite app_nil_r.
  destruct names as [|n names _] using rev_ind; [done|]. apply Forall_app in Hok as [_ Hok]. apply Forall_cons in Hok as [Hok _]. destruct Hok as (Hne & _ & _ & Hl).
  assert (render (names ++ [n]) = render names ++ 47 :: n) as Hr by (unfold render; by rewrite bind_app; cbn; rewrite app_nil_r).
  destruct (names ++ [n]) as [|m ms] eqn:E; [by destruct names|]. rewrite Hr, last_app. destruct n as [|x n]; [done|].
  rewrite last_cons. by destruct (last (x :: n)) eqn:El.
Qed.

Lemma newline_free_path names dead : Forall name_ok names -> 10 ∉ path_text names dead.
Proof.
  intros Hok. unfold path_text. rewrite elem_of_app. intros [Hin|Hin].
  - destruct names as [|n0 ns] eqn:E; [by apply list_elem_of_singleton in Hin|]. unfold render in Hin.
    apply list_elem_of_bind in Hin as (n & Hin & Hn). rewrite Forall_forall in Hok. destruct (Hok n Hn) as (_ & _ & Hnl & _).
    apply elem_of_cons in Hin as [|]; done.
  - destruct dead; [|by apply not_elem_of_nil in Hin]. revert Hin. apply (bool_decide_unpack _). by vm_compute.
Qed.

Lemma parse_v2_relative_path_tells names dead text :
  Forall name_ok names -> cgroup_file names dead text -> parse_v2_relative_path text = Some (path_text names dead).
Proof.
  intros Hok (before & after & Hb & ->). unfold parse_v2_relative_path. induction Hb as [|l before [Hnl Hnp] _ IH].
  - cbn [mbind list_bind app]. rewrite app_assoc, lines_cons; [|rewrite not_elem_of_app; split; [|by apply newline_free_path]].
    2: { apply (bool_decide_unpack _). by vm_compute. }
    rewrite strip_cr_id.
    + cbn [find_map]. by rewrite (proj2 (strip_prefix_Some (bs "0::") _ (path_text names dead)) eq_refl).
    + rewrite last_app. pose proof (last_path_text names dead Hok). by destruct (last (path_text names dead)).
  - rewrite bind_cons, <- !app_assoc. cbn [app]. rewrite lines_cons by done. cbn [find_map].
    rewrite (proj2 (strip_prefix_None (bs "0::") (strip_cr l))); [exact IH|]. intros Hp. apply Hnp. etrans; [exact Hp|]. apply strip_cr_prefix.
Qed.

Lemma trim_word w : is_word w -> trim w = w.
Proof.
  intros [Hne Hf]. assert (forall s, free is_whitespace s -> trim_start s = s) as Hs.
  { intros [|x s]; [done|]. intros [Hx _]%free_cons. unfold trim_start. cbn. by rewrite Hx. }
  unfold trim. rewrite (Hs w Hf), Hs, reverse_involutive; [done|]. unfold free in *. by apply Forall_reverse.
Qed.

Lemma dying_in_tells live n text : stat_file live n text -> dying_in text = Some n.
Proof.
  intros (Hl & Hn & rest & ->). unfold dying_in.
  assert (forall m, 0 <= m <= u64_max -> 10 ∉ show m /\ last (show m) <> Some 13) as Hshow.
  { intros m Hm. pose proof (show_clean m Hm) as Hc. rewrite Forall_forall in Hc. split.
    - intros Hin. specialize (Hc 10 Hin). cbn in Hc. lia.
    - intros Hlast%last_Some_elem_of. specialize (Hc 13 Hlast). cbn in Hc. lia. }
  assert (forall pre m rest, 10 ∉ pre -> 0 <= m <= u64_max -> lines (pre ++ show m ++ 10 :: rest) = (pre ++ show m) :: lines rest) as Hline.
  { intros pre m rest' Hp Hm. destruct (Hshow m Hm) as [Hnl Hlast]. rewrite app_assoc, lines_cons by (rewrite not_elem_of_app; done).
    f_equal. apply strip_cr_id. rewrite last_app. destruct (show_word m Hm) as [Hne _]. by destruct (last (show m)) eqn:El; [|apply last_None in El]. }
  rewrite Hline by (done || (apply (bool_decide_unpack _); by vm_compute)). cbn [find_map].
  change (strip_prefix (bs "nr_dying_descendants ") (bs "nr_descendants " ++ show live)) with (@None bytes). cbn [mbind option_bind].
  rewrite Hline by (done || (apply (bool_decide_unpack _); by vm_compute)). cbn [find_map].
  rewrite (proj2 (strip_prefix_Some (bs "nr_dying_descendants ") _ (show n)) eq_refl). cbn [mbind option_bind].
  by rewrite trim_word, parse_unsigned_show by (done || by apply show_word).
Qed.

Lemma strip_suffix_Some suffix s r : strip_suffix suffix s = Some r <-> s = r ++ suffix.
Proof.
  unfold strip_suffix. rewrite fmap_Some. setoid_rewrite strip_prefix_Some. split.
  - intros (x & Hx & ->). apply (f_equal reverse) in Hx. by rewrite reverse_involutive, reverse_app, !reverse_involutive in Hx.
  - intros ->. exists (reverse r). by rewrite reverse_app, reverse_involutive.
Qed.

(** A path is under the leaf exactly if the leaf's names begin it. *)
Lemma is_at_or_under_true path leaf : is_at_or_under path leaf = true <-> path = leaf \/ exists rest, path = leaf ++ bs "/" ++ rest.
Proof.
  unfold is_at_or_under. split.
  - destruct (strip_prefix leaf path) as [rest|] eqn:E; [|done]. apply strip_prefix_Some in E as ->.
    intros [H|[r ->]%starts_with_true]%orb_true_iff; [|by right; exists r]. apply bool_decide_eq_true in H as ->. left. by rewrite app_nil_r.
  - intros [->|[rest ->]].
    + by rewrite (proj2 (strip_prefix_Some leaf leaf [])) by (by rewrite app_nil_r).
    + rewrite (proj2 (strip_prefix_Some leaf _ (bs "/" ++ rest)) eq_refl). apply orb_true_iff. right. apply starts_with_true. by exists rest.
Qed.

(** ** Paths *)

(** The names as they stand in the path: a removed cgroup's last one has the suffix. *)
Definition printed (names : list (list Z)) (dead : bool) : list (list Z) :=
  match last names with
  | Some n => removelast names ++ [n ++ (if dead then bs " (deleted)" else [])]
  | None => [if dead then bs " (deleted)" else []]
  end.

Definition is_slash (c : Z) : bool := c =? 47.

Lemma free_slash n : 47 ∉ n -> free is_slash n.
Proof. intros Hn. apply Forall_forall. intros x Hx. apply Z.eqb_neq. by intros ->. Qed.

Lemma render_app ns ms : render (ns ++ ms) = render ns ++ render ms.
Proof. apply bind_app. Qed.

Lemma printed_text names dead : path_text names dead = render (printed names dead).
Proof.
  unfold path_text, printed. destruct names as [|n names _] using rev_ind; [cbn; by rewrite app_nil_r|].
  rewrite last_snoc, removelast_last, !render_app. destruct (names ++ [n]) eqn:E; [by destruct names|]. cbn. by rewrite !app_nil_r, <- app_assoc.
Qed.

Lemma printed_free names dead : Forall name_ok names -> Forall (free is_slash) (printed names dead).
Proof.
  assert (free is_slash (if dead then bs " (deleted)" else [])) as Hs by (destruct dead; [by repeat constructor|constructor]).
  intros Hok. unfold printed. destruct names as [|n names _] using rev_ind; [by repeat constructor|].
  rewrite last_snoc, removelast_last. apply Forall_app in Hok as [Hok Hn]. apply Forall_cons in Hn as [(_ & Hn & _) _]. apply Forall_app. split.
  - eapply Forall_impl; [exact Hok|]. intros m (_ & Hm & _). by apply free_slash.
  - constructor; [|constructor]. apply free_app. by split; [apply free_slash|].
Qed.

(** A path falls into its names again. *)
Lemma split_render names : Forall (free is_slash) names -> split_on is_slash (render names) = [] :: names.
Proof.
  induction 1 as [|n names Hn _ IH]; [done|]. unfold render. rewrite bind_cons. cbn [app]. fold (render names).
  change (47 :: n ++ render names) with ([] ++ 47 :: (n ++ render names)). rewrite split_on_app by done. cbn [split_on app]. f_equal.
  destruct names as [|m names]; [cbn; rewrite app_nil_r; by apply split_on_free|]. unfold render in *. rewrite bind_cons in *. cbn [app] in *.
  rewrite split_on_app by done. rewrite (split_on_free _ n) by done. cbn [app]. f_equal.
  change (47 :: m ++ (names ≫= cons 47)) with ([] ++ 47 :: (m ++ (names ≫= cons 47))) in IH. rewrite split_on_app in IH by done. by injection IH.
Qed.

Lemma printed_prefix ns names dead : ns `prefix_of` printed names dead -> length ns <> length (printed names dead) -> ns `prefix_of` names /\ (names = ns -> ns = []).
Proof.
  unfold printed. destruct names as [|n names _] using rev_ind.
  - intros Hp%prefix_length Hl. cbn in *. destruct ns; [|cbn in *; lia]. by split.
  - rewrite last_snoc, removelast_last, length_app. cbn. intros [k Hk] Hl.
    destruct k as [|x k _] using rev_ind; [rewrite app_nil_r in Hk; apply (f_equal length) in Hk; rewrite length_app in Hk; cbn in Hk; lia|].
    rewrite app_assoc in Hk. apply app_inj_tail in Hk as [-> _]. split; [rewrite <- app_assoc; by eexists|].
    intros Hx%(f_equal length). rewrite !length_app in Hx. cbn in Hx. lia.
Qed.

(** A leaf's path as cosca has it: of well-formed names, and not as a removed cgroup's reads. *)
Record leaf_named (leaf_names : list (list Z)) : Prop := {
  leaf_below_root : leaf_names <> [];
  leaf_names_ok : Forall name_ok leaf_names;
  leaf_unsuffixed : ~ bs " (deleted)" `suffix_of` render leaf_names }.

(** The program tells a path under the leaf's, but for the removed leaf's own. *)
Lemma is_at_or_under_tells leaf_names names dead :
  leaf_named leaf_names -> Forall name_ok names ->
  is_at_or_under (path_text names dead) (render leaf_names) = true <-> leaf_names `prefix_of` names /\ ~ (dead = true /\ names = leaf_names).
Proof.
  intros [Hne Hlok Hsuf] Hok. rewrite is_at_or_under_true, printed_text.
  assert (Forall (free is_slash) leaf_names) as Hlf by (eapply Forall_impl; [exact Hlok|]; intros m (_ & Hm & _); by apply free_slash).
  pose proof (printed_free names dead Hok) as Hf. split.
  - intros [H|[rest H]].
    + assert (printed names dead = leaf_names) as Hp by (apply (f_equal (split_on is_slash)) in H; rewrite !split_render in H by done; by injection H).
      assert (dead = false) as ->.
      { destruct dead; [|done]. exfalso. apply Hsuf. rewrite <- Hp, <- printed_text. unfold path_text. by eexists. }
      split; [|by intros []]. rewrite <- Hp. unfold printed. destruct names as [|n names _] using rev_ind.
      * exfalso. cbn in Hp. subst leaf_names. apply Forall_cons in Hlok as [(Hx & _) _]. done.
      * by rewrite last_snoc, removelast_last, app_nil_r.
    + apply (f_equal (split_on is_slash)) in H. change (bs "/" ++ rest) with (47 :: rest) in H.
      rewrite split_on_app, !split_render in H by done. injection H as Hp.
      destruct (printed_prefix leaf_names names dead) as [Hpre Hx]; [by eexists| |].
      * rewrite Hp, length_app. pose proof (split_on_ne is_slash rest). destruct (split_on is_slash rest); [done|cbn; lia].
      * split; [done|]. intros [_ E]. by apply Hne, Hx.
  - intros [[more ->] Hd]. destruct more as [|m more].
    + left. rewrite app_nil_r in *. destruct dead; [by destruct Hd|]. rewrite <- printed_text. unfold path_text. rewrite app_nil_r.
      by destruct leaf_names.
    + right. rewrite <- printed_text. unfold path_text. destruct (leaf_names ++ m :: more) eqn:E; [by destruct leaf_names|]. rewrite <- E, render_app.
      unfold render at 2. rewrite bind_cons. cbn [app]. eexists. rewrite <- !app_assoc. cbn [app]. reflexivity.
Qed.

Section truth.
  Context {D : Type}.
  (** The task's pid, whether it has a pidfd, what its [PIDFD_GET_INFO] and the leaf's [cgroup.stat] answer. *)
  Variables (pid : Z) (pidfd : bool) (info_answer : result Z (Z * Z)) (stat_answer_ : result IoError bytes) (fuel : nat).
  (** Where each cgroup id's cgroup is, or was until it was removed; the leaf's place; the id of the task's cgroup;
      and how many cgroups under the leaf are live, and dying, when its [cgroup.stat] is read. *)
  Variables (place : Z -> list (list Z)) (leaf_names : list (list Z)) (c live dying_ : Z).

(** The truth: the task's cgroup is the leaf or under it, live or removed. *)
Definition in_tree : Prop := leaf_names `prefix_of` place c.

Definition walk_answer `{Host} (id : Z) : Walked := default (Unlisted (io_new Other)) (find_descendant fuel id []).1.

Definition reads `{Host} : Reads := {| info := info_answer; walk_for := walk_answer; stat_text := stat_answer_ |}.

(** A handle that was read below the leaf names a cgroup there. *)
Definition handles_below `{Host} (t : list Ev) : Prop :=
  forall p hd id, ReadHandle p (Ok hd) ∈ t -> id_of_handle big_endian hd = Ok id -> leaf_names `prefix_of` place id.

(** What [/proc] reads as while the task's cgroup is live, or removed. *)
Definition proc_tells (K : Kernel D) (dead : bool) : Prop :=
  forall dir text, proc_view_with (D := D) = Same dir -> read_text dir (show pid ++ bs "/cgroup") = Ok text -> cgroup_file (place c) dead text.

(** The ids the leaf's own sweeps recorded, each sweep of a tree of its own. *)
Inductive swept_by : list Z -> Prop :=
| swept_none : swept_by []
| swept_again `{Host} all n ids h r t : swept_by ids -> finite all -> (length all < n)%nat -> handles_below t ->
    runs (remove_children n ids) h r t -> swept_by r.2.

(** The record of the task's place before the leaf's removal, made on the reads of that moment; a leaf whose file
    opened then was live. *)
Inductive recorded_by (leaf : bytes) : PlacedAtRemoval -> Prop :=
| recorded_none : recorded_by leaf None
| recorded_other p b : p <> pid -> recorded_by leaf (Some (p, b))
| recorded_then (K' : Kernel D) dead opens : proc_tells K' dead -> (opens = true -> place c = leaf_names -> dead = false) ->
    recorded_by leaf (record_watched_place (D := D) leaf pid opens).

Context `{K : Kernel D} `{Host}.

(** What the kernel promises of a task that no one moves meanwhile, and what the leaf's records are made of. *)
Record kernel_tells (s : Subtree) (dead : bool) : Prop := {
  tells_id : forall mask id, info_answer = Ok (mask, id) -> Z.land mask PIDFD_INFO_CGROUPID <> 0 -> id = c;
  tells_path : proc_tells K dead;
  tells_handles : handles_below (find_descendant fuel c []).2;
  tells_stat : forall b text, stat_answer_ = Ok b -> utf8 b = Ok text -> stat_file live dying_ text;
  (* a cgroup with a task in it is not freed: one under the leaf stays through the walk, or is dying after it *)
  stays_or_dies : in_tree -> place c <> leaf_names -> c ∉ swept s ->
    (exists stable p, stays stable /\ p <> [] /\ stable p = Some c) \/ 0 < dying_;
  place_ok : Forall name_ok (place c);
  leaf_ok : leaf_named leaf_names;
  leaf_path : path s = Some (render leaf_names);
  (* no other cgroup has or had the leaf's place *)
  leaf_is : forall l, leaf_id s = Some l -> place l = leaf_names /\ (place c = leaf_names -> c = l);
  swept_so : swept_by (swept s);
  placed_so : recorded_by (render leaf_names) (placed s) }.

Lemma swept_by_below ids : swept_by ids -> Forall (fun id => leaf_names `prefix_of` place id) ids.
Proof.
  induction 1 as [|H' all n ids h r t _ IH Hf Hn Hb Hr]; [constructor|].
  destruct (wp_runs _ _ _ _ _ (sweep_deepest_first all n ids h Hf Hn) Hr) as (_ & _ & _ & _ & Hid).
  rewrite Forall_forall in *. intros id Hin. destruct (Hid id Hin) as [|(p & hd & Hread & Hh & _)]; [by apply IH|by eapply Hb].
Qed.

(** What [proc_names] makes of a path the kernel prints. *)
Lemma names_leaf_truth dead recorded elsewhere b :
  leaf_named leaf_names -> Forall name_ok (place c) ->
  (elsewhere = true -> place c <> leaf_names) ->
  (dead = true -> place c = leaf_names -> forall r, recorded = Some r -> r = true) ->
  (~ in_tree -> forall r, recorded = Some r -> r = false) ->
  names_leaf (path_text (place c) dead) (render leaf_names) elsewhere recorded = Ok b -> b = true <-> in_tree.
Proof.
  intros Hl Hok He Hin Hout. pose proof (is_at_or_under_tells leaf_names (place c) dead Hl Hok) as Hu. unfold names_leaf.
  destruct (is_at_or_under _ _) eqn:Eu; [intros [= <-]; split; [intros _; by apply Hu|done]|].
  assert (in_tree -> dead = true /\ place c = leaf_names) as Hd.
  { intros Hi. destruct dead.
    - destruct (base.decide (place c = leaf_names)) as [|Hne]; [done|]. exfalso. assert (false = true) by (apply Hu; split; [done|by intros []]). done.
    - exfalso. assert (false = true) by (apply Hu; split; [done|by intros []]). done. }
  destruct (bool_decide (strip_suffix DELETED _ = _)) eqn:Es; cbn [negb orb].
  - destruct elsewhere; cbn.
    + intros [= <-]. split; [done|]. intros Hi. destruct (Hd Hi) as [_ Hp]. by destruct (He eq_refl Hp).
    + destruct recorded as [r|]; cbn; [|done]. intros [= <-]. split.
      * intros ->. destruct (base.decide in_tree) as [|Hn]; [done|]. by specialize (Hout Hn true eq_refl).
      * intros Hi. destruct (Hd Hi) as [Hdd Hp]. by apply (Hin Hdd Hp).
  - intros [= <-]. split; [done|]. intros Hi. destruct (Hd Hi) as [-> Hp]. apply bool_decide_eq_false in Es. destruct Es.
    apply strip_suffix_Some. rewrite Hp. unfold path_text. by destruct leaf_names as [|n ns]; [destruct (leaf_below_root _ Hl)|].
Qed.

Lemma proc_names_truth (K' : Kernel D) dead recorded elsewhere b :
  leaf_named leaf_names -> Forall name_ok (place c) -> proc_tells K' dead ->
  (elsewhere = true -> place c <> leaf_names) ->
  (dead = true -> place c = leaf_names -> forall r, recorded = Some r -> r = true) ->
  (~ in_tree -> forall r, recorded = Some r -> r = false) ->
  proc_names (D := D) (render leaf_names) pid recorded elsewhere = Ok b -> b = true <-> in_tree.
Proof.
  intros Hl Hok Ht He Hin Hout. unfold proc_names. destruct (proc_view_with (D := D)) as [dir'| |why] eqn:Ev; try done.
  destruct (read_text dir' (show pid ++ bs "/cgroup")) as [text|e] eqn:Er; cbn; [|done].
  rewrite (parse_v2_relative_path_tells (place c) dead text Hok (Ht _ _ Ev Er)). cbn. by eapply names_leaf_truth.
Qed.

(** A record holds the truth. *)
Lemma recorded_truth pl b :
  leaf_named leaf_names -> Forall name_ok (place c) -> recorded_by (render leaf_names) pl -> placed_of pl pid = Some b -> b = true <-> in_tree.
Proof.
  intros Hl Hok Hr. destruct Hr as [|p b' Hne|K' dead opens Ht Ho]; [done|cbn; by rewrite (proj2 (Z.eqb_neq p pid))|].
  unfold record_watched_place. destruct (proc_names _ _ _ _) as [inside|e] eqn:Ep; [|done]. cbn. rewrite Z.eqb_refl. intros [= <-].
  revert Ep. apply (proc_names_truth K' dead); [done..| |].
  - intros -> Hp r. destruct opens; [|done]. by specialize (Ho eq_refl Hp).
  - intros _ r. destruct opens; [|done]. by intros [= <-].
Qed.

Lemma place_by_proc_truth s dead elsewhere b :
  kernel_tells s dead -> (elsewhere = true -> exists l, leaf_id s = Some l /\ l <> c) ->
  place_by_proc (D := D) s pid elsewhere = Ok b -> b = true <-> in_tree.
Proof.
  intros Ht He. unfold place_by_proc. rewrite (leaf_path s dead Ht).
  destruct (proc_names _ _ _ _) as [b'|e] eqn:Ep; [|done]. intros [= <-]. revert Ep.
  assert (forall r, placed_of (placed s) pid = Some r -> r = true <-> in_tree) as Hrec
    by (intros r; by apply recorded_truth; [apply (leaf_ok s dead)|apply (place_ok s dead)|apply (placed_so s dead)]).
  apply (proc_names_truth K dead); [by apply (leaf_ok s dead)|by apply (place_ok s dead)|by apply (tells_path s dead)| | |].
  - intros E Hp. destruct (He E) as (l & Hl & Hne). destruct (leaf_is s dead Ht l Hl) as [_ Hx]. by destruct Hne, (Hx Hp).
  - intros _ Hp r Hr. apply (Hrec r Hr). unfold in_tree. by rewrite Hp.
  - intros Hn r Hr. destruct r; [|done]. by destruct Hn; apply (Hrec true Hr).
Qed.

End truth.

(** * A task in the cgroup [a/b] of a leaf with three *)

Definition demo_leaf_names : list (list Z) := [bs "jobs"; bs "leaf"].

Definition demo_place (id : Z) : list (list Z) :=
  demo_leaf_names ++ (if id =? 12 then [demo_a; demo_b] else if id =? 11 then [demo_a] else if id =? 13 then [demo_c] else []).

(** A [/proc] that shows the task 41 the cgroup. *)
Definition demo_proc : Kernel unit := {|
  open_proc := Ok tt;
  read := fun _ path =>
    if bool_decide (path = bs "self/status") then Ok (bs "NSpid:	9" ++ [10])
    else if bool_decide (path = bs "41/cgroup") then Ok (bs "4:cpu:/" ++ 10 :: bs "0::/jobs/leaf/a/b" ++ [10])
    else Err (io_new Other);
  kernel_signal_probe := fun _ => Ok tt;
  read_link := fun _ _ => Err (io_new Other);
  link_exists := fun _ _ => Ok true |}.

Definition demo_stat : list Z := bs "nr_descendants 3" ++ 10 :: bs "nr_dying_descendants 1" ++ [10].

Definition demo_leaf : Subtree := subtree (Some 7) true (Some (bs "/jobs/leaf")) [] None true.

(** Whether an event's handle, if it has one, is of a cgroup under the leaf. *)
Definition demo_handle_below (e : Ev) : bool :=
  match e with
  | ReadHandle _ (Ok hd) =>
      match id_of_handle false hd with Ok id => bool_decide (demo_leaf_names `prefix_of` demo_place id) | Err _ => true end
  | _ => true
  end.


(** A live cgroup beside the leaf whose name is the leaf's with a carriage return is taken for the leaf: [str::lines]
    takes the return for a part of the line's end. *)
Example carriage_return_dropped :
  parse_v2_relative_path (bs "0::" ++ path_text [bs "jobs"; bs "leaf" ++ [13]] false ++ [10]) = Some (bs "/jobs/leaf").
Proof. by vm_compute. Qed.

(** A sibling whose name the leaf's begins is not under it. *)
Example sibling_is_outside : is_at_or_under (path_text [bs "jobs"; bs "leaf2"] false) (render demo_leaf_names) = false.
Proof. by vm_compute. Qed.
