(* ===== verification/ProbeFds.v ===== *)
(** The descriptors of the placement probe's child, [src/containment/cgroup/reach.rs]: [ranges_around],
    [keep_only_own] and [close_by_walk]. The child's table of descriptors is a set of numbers; what
    [close_range], [getdents64] and the open of its [/proc/self/fd] answer is the kernel's. *)
From stdpp Require Import gmap sets.
From S2P Require Import Prelude Numbers History CgroupTree.
Local Open Scope Z_scope.

Notation Fds := (gset Z).

(** * [ranges_around] *)

Definition checked_sub (a b : Z) : option Z := if b <=? a then Some (a - b) else None.
Definition checked_add (a b : Z) : option Z := if a + b <=? u32_max then Some (a + b) else None.

Definition ranges_around (kept dir : Z) : list (option (Z * Z)) :=
  let low := Z.min kept dir in
  let high := Z.max kept dir in
  [(fun last => (0, last)) <$> checked_sub low 1;
   if 1 <? high - low then Some (low + 1, high - 1) else None;
   (fun first => (first, u32_max)) <$> checked_add high 1].

(** * [close_by_walk] *)

Definition RECLEN : nat := 16.
Definition NAME : nat := 19.

Definition i32_wrap (z : Z) : Z := (z + 2 ^ 31) mod 2 ^ 32 - 2 ^ 31.

(** The number a name spells, up to its NUL; [None] if [digits] is 0 at the end. *)
Fixpoint number_of (fd : Z) (digits : Z) (name : list Z) : option Z :=
  match name with
  | [] => if digits =? 0 then None else Some fd
  | b :: name =>
      if b =? 0 then if digits =? 0 then None else Some fd
      else if is_ascii_digit b then number_of (i32_wrap (i32_wrap (fd * 10) + (b - 48))) (digits + 1) name
      else None
  end.

Section child.
  Variable big_endian : bool.

(** The names of the records in the first [n] bytes of [buf]; [None] is an index out of its bounds. *)
Fixpoint names_in (fuel : nat) (buf : list Z) (n at_ : nat) : option (list (list Z)) :=
  match fuel with
  | O => Some []
  | S fuel =>
      if (at_ <? n)%nat then
        b0 ← buf !! (at_ + RECLEN)%nat;
        b1 ← buf !! (at_ + RECLEN + 1)%nat;
        let reclen := Z.to_nat (from_ne_bytes big_endian [b0; b1]) in
        if (NAME <=? reclen)%nat && (at_ + reclen <=? length buf)%nat then
          rest ← names_in fuel buf n (at_ + reclen);
          Some (take (reclen - NAME) (drop (at_ + NAME) buf) :: rest)
        else None
      else Some []
  end.

(** A [getdents64]: the bytes it gives, [n] of them records, and the stream's next position. *)
Record Listing := listing { buf : list Z; count : nat; next : Z }.

  (** The kernel: what a listing of the table answers at a position, whether a close of a range is
      done, and whether the stream is rewound. *)
  Variable getdents : Fds -> Z -> option Listing.
  Variable close_range : Fds -> Z * Z -> bool.
  Variable rewind : Fds -> bool.

(** The names of one listing: what is closed, and whether anything was. *)
Fixpoint close_named (dir keep : Z) (names : list (list Z)) (fds : Fds) (closed : bool) : Fds * bool :=
  match names with
  | [] => (fds, closed)
  | name :: names =>
      match number_of 0 0 name with
      | None => close_named dir keep names fds closed
      | Some fd =>
          if (fd =? dir) || (fd =? keep) then close_named dir keep names fds closed
          else close_named dir keep names (fds ∖ {[fd]}) true
      end
  end.

(** [close_by_walk]: the table it leaves and its answer; [None] if the fuel ran out or an index was out of
    bounds. *)
Fixpoint close_by_walk (fuel : nat) (dir keep : Z) (fds : Fds) (pos : Z) : option (Fds * bool) :=
  match fuel with
  | O => None
  | S fuel =>
      match getdents fds pos with
      | None => Some (fds ∖ {[dir]}, false)
      | Some l =>
          if (count l =? 0)%nat then Some (fds ∖ {[dir]}, true)
          else
            names ← names_in (count l) (buf l) (count l) 0;
            let (fds, closed) := close_named dir keep names fds false in
            if closed then if rewind fds then close_by_walk fuel dir keep fds 0 else Some (fds ∖ {[dir]}, false)
            else close_by_walk fuel dir keep fds (next l)
      end
  end.

(** * [keep_only_own] *)

Definition in_range (r : Z * Z) (f : Z) : Prop := r.1 <= f <= r.2.

#[export] Instance in_range_dec r f : Decision (in_range r f).
Proof. unfold in_range. apply _. Defined.

(** [all] of the ranges, up to the first that is refused. *)
Fixpoint close_ranges (ranges : list (option (Z * Z))) (fds : Fds) : Fds * bool :=
  match ranges with
  | [] => (fds, true)
  | None :: ranges => close_ranges ranges fds
  | Some r :: ranges => if close_range fds r then close_ranges ranges (filter (fun f => ~ in_range r f) fds) else (fds, false)
  end.

(** [keep_only_own]: [opened] is the number its [/proc/self/fd] opens at, once the parent's end is closed. *)
Definition keep_only_own (fuel : nat) (opened : Fds -> option Z) (child parent : Z) (fds : Fds) : option (Fds * bool) :=
  let fds := fds ∖ {[parent]} in
  match opened fds with
  | None => Some (fds, false)
  | Some dir =>
      let fds := fds ∪ {[dir]} in
      let (fds, all) := close_ranges (ranges_around child dir) fds in
      if all then Some (fds ∖ {[dir]}, true) else close_by_walk fuel dir child fds 0
  end.
End child.

(** * The ranges *)

Lemma ranges_around_cover kept dir f :
  0 <= kept <= u32_max -> 0 <= dir <= u32_max -> 0 <= f <= u32_max -> kept <> dir ->
  (exists r, Some r ∈ ranges_around kept dir /\ in_range r f) <-> f <> kept /\ f <> dir.
Proof.
  intros Hk Hd Hf Hne. unfold ranges_around, in_range, checked_sub, checked_add. set (low := Z.min kept dir). set (high := Z.max kept dir).
  assert (low < high /\ (f = kept \/ f = dir <-> f = low \/ f = high)) as [Hlh Hsame] by lia.
  split.
  - intros (r & Hr & Hin). enough (~ (f = low \/ f = high)) by tauto. revert Hr. rewrite !elem_of_cons.
    destruct (Z.leb_spec 1 low), (Z.ltb_spec 1 (high - low)), (Z.leb_spec (high + 1) u32_max); cbn;
      intros [[= ->]|[[= ->]|[[= ->]|?%not_elem_of_nil]]]; cbn in Hin; try done; lia.
  - intros [H1 H2]. assert (~ (f = low \/ f = high)) as Hn by tauto.
    destruct (Z.lt_ge_cases f low); [|destruct (Z.lt_ge_cases f high)].
    + exists (0, low - 1). rewrite (proj2 (Z.leb_le 1 low)) by lia. cbn. split; [left|lia].
    + exists (low + 1, high - 1). rewrite (proj2 (Z.ltb_lt 1 (high - low))) by lia. cbn. split; [right; left|lia].
    + exists (high + 1, u32_max). rewrite (proj2 (Z.leb_le (high + 1) u32_max)) by lia. cbn. split; [right; right; left|lia].
Qed.

(** No range is empty, which [close_range] refuses. *)
Lemma ranges_around_nonempty kept dir r :
  0 <= kept <= u32_max -> 0 <= dir <= u32_max -> Some r ∈ ranges_around kept dir -> 0 <= r.1 <= r.2 /\ r.2 <= u32_max.
Proof.
  intros Hk Hd. unfold ranges_around, checked_sub, checked_add. rewrite !elem_of_cons.
  destruct (Z.leb_spec 1 (Z.min kept dir)), (Z.ltb_spec 1 (Z.max kept dir - Z.min kept dir)), (Z.leb_spec (Z.max kept dir + 1) u32_max); cbn;
    intros [[= ->]|[[= ->]|[[= ->]|?%not_elem_of_nil]]]; cbn; try done; lia.
Qed.

Lemma close_ranges_spec close ranges : forall fds fds' all, close_ranges close ranges fds = (fds', all) ->
  fds' ⊆ fds /\ (forall f, f ∈ fds -> (forall r, Some r ∈ ranges -> ~ in_range r f) -> f ∈ fds') /\
  (all = true -> forall f r, f ∈ fds' -> Some r ∈ ranges -> ~ in_range r f).
Proof.
  induction ranges as [|[r|] ranges IH]; intros fds fds' all; cbn [close_ranges].
  - intros [= <- <-]. split_and!; [done|done|]. by intros _ f r _ ?%not_elem_of_nil.
  - destruct (close fds r).
    + intros Hc. destruct (IH _ _ _ Hc) as (Hs & Hk & Ha). split_and!; [set_solver| |].
      * intros f Hf Hn. apply Hk; [|intros r' Hr'; apply Hn; by right]. apply elem_of_filter. split; [apply Hn; left|done].
      * intros Hall f r' Hf [[= ->]|Hr']%elem_of_cons; [|by eapply Ha]. apply Hs, elem_of_filter in Hf. tauto.
    + intros [= <- <-]. split_and!; done.
  - intros Hc. destruct (IH _ _ _ Hc) as (Hs & Hk & Ha). split_and!; [done| |].
    + intros f Hf Hn. apply Hk; [done|]. intros r' Hr'. apply Hn. by right.
    + intros Hall f r' Hf [|Hr']%elem_of_cons; [done|by eapply Ha].
Qed.

(** * The records *)

(** A [linux_dirent64]: inode and offset, type, name, and the padding after its NUL. *)
Record Dirent := dirent { d_head : list Z; d_type : Z; d_name : list Z; d_pad : list Z }.

Definition reclen_of (e : Dirent) : nat := (NAME + length (d_name e) + 1 + length (d_pad e))%nat.

Definition u16_bytes (big : bool) (v : Z) : list Z := if big then [v / 256; v mod 256] else [v mod 256; v / 256].

Definition encode_dirent (big : bool) (e : Dirent) : list Z :=
  d_head e ++ u16_bytes big (Z.of_nat (reclen_of e)) ++ d_type e :: d_name e ++ 0 :: d_pad e.

Definition dirent_ok (e : Dirent) : Prop := length (d_head e) = 16%nat /\ Z.of_nat (reclen_of e) < 2 ^ 16.

Lemma from_ne_u16 big v : 0 <= v < 2 ^ 16 -> exists b0 b1, u16_bytes big v = [b0; b1] /\ from_ne_bytes big [b0; b1] = v.
Proof.
  intros Hv. pose proof (Z.div_mod v 256 ltac:(lia)). unfold u16_bytes, from_ne_bytes. destruct big; eexists _, _; (split; [reflexivity|]); cbn; lia.
Qed.

(** What [names_in] reads of a record in its place. *)
Lemma record_at (pre head : list Z) (b0 b1 ty : Z) (nm tail : list Z) :
  length head = 16%nat -> let buf := pre ++ (head ++ b0 :: b1 :: ty :: nm) ++ tail in let at_ := length pre in
  buf !! (at_ + RECLEN)%nat = Some b0 /\ buf !! (at_ + RECLEN + 1)%nat = Some b1 /\ take (length nm) (drop (at_ + NAME) buf) = nm.
Proof.
  intros Hh buf at_. unfold buf, at_, RECLEN, NAME. split_and!.
  - replace (pre ++ (head ++ b0 :: b1 :: ty :: nm) ++ tail) with ((pre ++ head) ++ b0 :: (b1 :: ty :: nm) ++ tail) by (by rewrite <- !app_assoc).
    apply list_lookup_middle. rewrite length_app. lia.
  - replace (pre ++ (head ++ b0 :: b1 :: ty :: nm) ++ tail) with ((pre ++ head ++ [b0]) ++ b1 :: (ty :: nm) ++ tail) by (by rewrite <- !app_assoc).
    apply list_lookup_middle. rewrite !length_app. cbn. lia.
  - replace (pre ++ (head ++ b0 :: b1 :: ty :: nm) ++ tail) with ((pre ++ head ++ [b0; b1; ty]) ++ nm ++ tail) by (by rewrite <- !app_assoc).
    rewrite (drop_app_length' (pre ++ head ++ [b0; b1; ty])) by (rewrite !length_app; cbn; lia). by rewrite take_app_length.
Qed.

Lemma encode_dirent_eq big e : dirent_ok e -> exists b0 b1,
  encode_dirent big e = d_head e ++ b0 :: b1 :: d_type e :: (d_name e ++ 0 :: d_pad e) /\ from_ne_bytes big [b0; b1] = Z.of_nat (reclen_of e) /\
  length (encode_dirent big e) = reclen_of e.
Proof.
  intros [Hh Hr]. destruct (from_ne_u16 big (Z.of_nat (reclen_of e)) ltac:(lia)) as (b0 & b1 & Hb & Hv). exists b0, b1.
  unfold encode_dirent. rewrite Hb. split_and!; [done|done|]. rewrite length_app, Hh. cbn. rewrite length_app. unfold reclen_of, NAME. cbn. lia.
Qed.

Lemma names_in_encoded big es post : forall pre fuel, Forall dirent_ok es -> (length es <= fuel)%nat ->
  names_in big fuel (pre ++ concat (encode_dirent big <$> es) ++ post) (length pre + length (concat (encode_dirent big <$> es))) (length pre) =
    Some ((fun e => d_name e ++ 0 :: d_pad e) <$> es).
Proof.
  induction es as [|e es IH]; intros pre fuel Hok Hf.
  { cbn. rewrite Nat.add_0_r. destruct fuel; cbn [names_in]; [done|]. by rewrite Nat.ltb_irrefl. }
  apply Forall_cons in Hok as [He Hok]. destruct fuel as [|fuel]; [cbn in Hf; lia|]. cbn [fmap list_fmap concat names_in].
  destruct (encode_dirent_eq big e He) as (b0 & b1 & Henc & Hv & Hl). specialize (IH (pre ++ encode_dirent big e) fuel Hok ltac:(cbn in Hf; lia)).
  change (list_fmap _ _ (encode_dirent big) es) with (encode_dirent big <$> es) in *. set (rest := concat (encode_dirent big <$> es)) in *.
  assert (NAME <= reclen_of e)%nat as Hpos by (unfold reclen_of, NAME; lia).
  rewrite (proj2 (Nat.ltb_lt _ _)) by (rewrite length_app, Hl; unfold NAME in Hpos; lia).
  destruct (record_at pre (d_head e) b0 b1 (d_type e) (d_name e ++ 0 :: d_pad e) (rest ++ post) (proj1 He)) as (H0 & H1 & Hn). rewrite <- Henc in H0, H1, Hn.
  replace (pre ++ (encode_dirent big e ++ rest) ++ post) with (pre ++ encode_dirent big e ++ rest ++ post) by (by rewrite <- !app_assoc).
  rewrite H0, H1. cbn [mbind option_bind]. rewrite Hv, Nat2Z.id, (proj2 (Nat.leb_le NAME _) Hpos). cbn [andb].
  rewrite (proj2 (Nat.leb_le _ _)) by (rewrite !length_app, Hl; lia).
  replace (length pre + reclen_of e)%nat with (length (pre ++ encode_dirent big e)) by (rewrite length_app, Hl; done).
  replace (length pre + length (encode_dirent big e ++ rest))%nat with (length (pre ++ encode_dirent big e) + length rest)%nat by (rewrite !length_app; lia).
  replace (pre ++ encode_dirent big e ++ rest ++ post) with ((pre ++ encode_dirent big e) ++ rest ++ post) in * by (by rewrite <- !app_assoc).
  rewrite IH. cbn [mbind option_bind]. do 2 f_equal. rewrite <- Hn. f_equal. unfold reclen_of. rewrite length_app. cbn. lia.
Qed.

(** * The names *)

Lemma i32_wrap_id z : - 2 ^ 31 <= z < 2 ^ 31 -> i32_wrap z = z.
Proof. intros Hz. unfold i32_wrap. rewrite Z.mod_small; lia. Qed.

Lemma digits_grow ds : forall v, 0 <= v -> Forall (fun b => 48 <= b <= 57) ds -> v <= foldl (fun v b => 10 * v + (b - 48)) v ds.
Proof.
  induction ds as [|d ds IH]; intros v Hv Hd; [done|]. apply Forall_cons in Hd as [Hd Hds]. cbn [foldl].
  etrans; [|apply IH; [lia|done]]. lia.
Qed.

Lemma number_of_digits ds pad : forall fd k, 0 <= fd -> 0 <= k -> Forall (fun b => 48 <= b <= 57) ds ->
  foldl (fun v b => 10 * v + (b - 48)) fd ds < 2 ^ 31 -> 0 < k + Z.of_nat (length ds) ->
  number_of fd k (ds ++ 0 :: pad) = Some (foldl (fun v b => 10 * v + (b - 48)) fd ds).
Proof.
  induction ds as [|d ds IH]; intros fd k Hfd Hk Hd Hb Hl; cbn [number_of app foldl length] in *.
  - rewrite Z.eqb_refl. by rewrite (proj2 (Z.eqb_neq k 0)) by lia.
  - apply Forall_cons in Hd as [Hd Hds]. rewrite (proj2 (Z.eqb_neq d 0)), (proj2 (is_ascii_digit_true d)) by lia.
    pose proof (digits_grow ds (10 * fd + (d - 48)) ltac:(lia) Hds) as Hg. rewrite (i32_wrap_id (fd * 10)), i32_wrap_id by lia.
    replace (fd * 10 + (d - 48)) with (10 * fd + (d - 48)) by lia. apply IH; try done; lia.
Qed.

(** A descriptor's name spells its number. *)
Lemma number_of_show fd pad : 0 <= fd < 2 ^ 31 -> number_of 0 0 (show fd ++ 0 :: pad) = Some fd.
Proof.
  intros Hfd. unfold show. destruct (show_digits_spec 20 fd) as [(Hne & Hd & _) Hv]; [simpl; lia|lia|].
  unfold digits_value in Hv. rewrite number_of_digits; [by rewrite Hv|done|done|done|rewrite Hv; lia|]. destruct (show_digits 20 fd); [done|cbn; lia].
Qed.

(** * The child keeps its end alone *)

Section walk.
  Variable big : bool.
  Variable getdents : Fds -> Z -> option Listing.
  Variable close_range : Fds -> Z * Z -> bool.
  Variable rewind : Fds -> bool.
  (** The largest descriptor number there can be. *)
  Variable top : Z.

Definition bounded (fds : Fds) : Prop := forall f, f ∈ fds -> 0 <= f <= top.

(** What a listing of [/proc/self/fd] promises: whole records; the numbers of open descriptors, each at its own
    place in the stream, which goes on; no record past the last. *)
Record lists_descriptors : Prop := {
  lists_records : forall fds pos l, bounded fds -> getdents fds pos = Some l -> exists es post, Forall dirent_ok es /\
    buf l = concat (encode_dirent big <$> es) ++ post /\ count l = length (concat (encode_dirent big <$> es)) /\
    Forall (fun e => (exists f, f ∈ fds /\ d_name e = show f) \/ d_name e = bs "." \/ d_name e = bs "..") es /\
    forall f, f ∈ fds -> pos <= f + 2 < next l -> exists e, e ∈ es /\ d_name e = show f;
  lists_on : forall fds pos l, bounded fds -> getdents fds pos = Some l -> count l <> 0%nat -> pos < next l /\ pos <= top + 2;
  lists_end : forall fds pos l, bounded fds -> getdents fds pos = Some l -> count l = 0%nat -> forall f, f ∈ fds -> f + 2 < pos }.

Lemma close_named_spec dir keep names : forall (fds fds' : Fds) closed closed',
  close_named dir keep names fds closed = (fds', closed') ->
  fds' ⊆ fds /\ (dir ∈ fds -> dir ∈ fds') /\ (keep ∈ fds -> keep ∈ fds') /\
  (closed' = false -> closed = false /\ fds' = fds /\ forall name f, name ∈ names -> number_of 0 0 name = Some f -> f = dir \/ f = keep) /\
  (closed' = true -> closed = true \/ exists name f, name ∈ names /\ number_of 0 0 name = Some f /\ f <> dir /\ f <> keep /\ f ∉ fds').
Proof.
  induction names as [|name names IH]; intros fds fds' closed closed'; cbn [close_named].
  { intros [= <- <-]. split_and!; try done; [|by left]. intros ->. split_and!; try done. by intros ? ? ?%not_elem_of_nil. }
  destruct (number_of 0 0 name) as [fd|] eqn:En.
  - destruct (Z.eqb_spec fd dir) as [->|Hd]; [|destruct (Z.eqb_spec fd keep) as [->|Hk]]; cbn [orb]; intros Hc; destruct (IH _ _ _ _ Hc) as (Hs & Hdir & Hkeep & Hf & Ht).
    + split_and!; try done.
      * intros Hcl. destruct (Hf Hcl) as (? & ? & Hall). split_and!; try done. intros n f [->|Hin]%elem_of_cons Hn; [left; congruence|by eapply Hall].
      * intros Hcl. destruct (Ht Hcl) as [|(n & f & ? & ?)]; [by left|]. right. exists n, f. split; [by right|done].
    + split_and!; try done.
      * intros Hcl. destruct (Hf Hcl) as (? & ? & Hall). split_and!; try done. intros n f [->|Hin]%elem_of_cons Hn; [right; congruence|by eapply Hall].
      * intros Hcl. destruct (Ht Hcl) as [|(n & f & ? & ?)]; [by left|]. right. exists n, f. split; [by right|done].
    + split_and!; [set_solver|intros; apply Hdir; set_solver|intros; apply Hkeep; set_solver| |].
      * intros Hcl. by destruct (Hf Hcl).
      * intros _. right. exists name, fd. split_and!; [left|done|done|done|set_solver].
  - intros Hc. destruct (IH _ _ _ _ Hc) as (Hs & Hdir & Hkeep & Hf & Ht). split_and!; try done.
    + intros Hcl. destruct (Hf Hcl) as (? & ? & Hall). split_and!; try done. intros n f [->|Hin]%elem_of_cons Hn; [congruence|by eapply Hall].
    + intros Hcl. destruct (Ht Hcl) as [|(n & f & ? & ?)]; [by left|]. right. exists n, f. split; [by right|done].
Qed.

Lemma dots_no_number pad : number_of 0 0 (bs "." ++ 0 :: pad) = None /\ number_of 0 0 (bs ".." ++ 0 :: pad) = None.
Proof. split; reflexivity. Qed.

(** The names of a listing spell open descriptors. *)
Lemma listed_open (fds : Fds) es name f :
  bounded fds -> top < 2 ^ 31 -> Forall (fun e => (exists f, f ∈ fds /\ d_name e = show f) \/ d_name e = bs "." \/ d_name e = bs "..") es ->
  name ∈ ((fun e => d_name e ++ 0 :: d_pad e) <$> es) -> number_of 0 0 name = Some f -> f ∈ fds.
Proof.
  intros Hb Htop Hes (e & -> & He)%list_elem_of_fmap Hn. rewrite Forall_forall in Hes. destruct (Hes e He) as [(g & Hg & Hd)|[Hd|Hd]]; rewrite Hd in Hn.
  - rewrite number_of_show in Hn by (specialize (Hb g Hg); lia). by injection Hn as <-.
  - by rewrite (proj1 (dots_no_number _)) in Hn.
  - by rewrite (proj2 (dots_no_number _)) in Hn.
Qed.

(** Steps left: the descriptors that may still be closed, each with a pass, and this pass. *)
Definition measure (fds : Fds) (pos : Z) : Z := Z.of_nat (size fds) * (top + 4) + Z.max 0 (top + 3 - pos).

Lemma close_by_walk_ends dir keep : lists_descriptors -> 0 <= top < 2 ^ 31 -> dir <> keep -> forall fuel (fds : Fds) pos,
  bounded fds -> dir ∈ fds -> keep ∈ fds -> 0 <= pos -> (forall f, f ∈ fds -> f + 2 < pos -> f = dir \/ f = keep) ->
  measure fds pos < Z.of_nat fuel ->
  exists fds' b, close_by_walk big getdents rewind fuel dir keep fds pos = Some (fds', b) /\ keep ∈ fds' /\ fds' ⊆ fds /\ (b = true -> fds' = {[keep]}).
Proof.
  intros Hk Htop Hne. induction fuel as [|fuel IH]; intros fds pos Hb Hd Hkeep Hpos Hinv Hm; [unfold measure in Hm; nia|]. cbn [close_by_walk].
  destruct (getdents fds pos) as [l|] eqn:El; [|exists (fds ∖ {[dir]}), false; split_and!; [done|set_solver|set_solver|done]].
  destruct (Nat.eqb_spec (count l) 0) as [H0|H0].
  { exists (fds ∖ {[dir]}), true. split_and!; [done|set_solver|set_solver|]. intros _. apply set_eq. intros f. rewrite elem_of_difference, !elem_of_singleton. split; [|intros ->; split; [done|by intros ?]].
    intros [Hf Hfd]. destruct (Hinv f Hf); [|done|done]. by apply (lists_end Hk fds pos l Hb). }
  destruct (lists_records Hk fds pos l Hb El) as (es & post & Hok & Hbuf & Hcnt & Hnames & Hall).
  destruct (lists_on Hk fds pos l Hb El H0) as [Hnext Hle].
  assert (length es <= count l)%nat as Hlen.
  { rewrite Hcnt. clear -Hok. induction Hok as [|e es He _ IH]; [done|]. cbn. rewrite length_app.
    destruct (encode_dirent_eq big e He) as (? & ? & _ & _ & ->). unfold reclen_of, NAME. change (list_fmap _ _ (encode_dirent big) es) with (encode_dirent big <$> es). lia. }
  pose proof (names_in_encoded big es post [] (count l) Hok Hlen) as Hn. cbn [app length Nat.add] in Hn.
  rewrite <- Hcnt, <- Hbuf in Hn. rewrite Hn. cbn [mbind option_bind].
  set (names := (fun e => d_name e ++ 0 :: d_pad e) <$> es). destruct (close_named dir keep names fds false) as [fds1 closed] eqn:Ec.
  destruct (close_named_spec dir keep names _ _ _ _ Ec) as (Hs & Hd1 & Hk1 & Hf & Ht).
  assert (bounded fds1) as Hb1 by (intros f Hf1; by apply Hb, Hs). destruct closed.
  - destruct (Ht eq_refl) as [|(name & f & Hin & Hnum & Hfd & Hfk & Hf1)]; [done|].
    assert (f ∈ fds) as Hfin by (by eapply listed_open; [exact Hb|lia|exact Hnames|exact Hin|]).
    destruct (rewind fds1); [|exists (fds1 ∖ {[dir]}), false; split_and!; [done|set_solver|set_solver|done]].
    assert (size fds1 < size fds)%nat as Hsz by (apply subset_size; split; [done|set_solver]).
    destruct (IH fds1 0) as (fds' & b & Hr & Hk' & Hs' & Hb'); try auto; [lia|intros g Hg ?; specialize (Hb1 g Hg); lia|unfold measure in *; nia|].
    exists fds', b. split_and!; [done|done|set_solver|done].
  - destruct (Hf eq_refl) as (_ & -> & Hno).
    destruct (IH fds (next l)) as (fds' & b & Hr & Hk' & Hs' & Hb'); try auto; [lia| |unfold measure in *; lia|].
    + intros f Hfin Hlt. destruct (Z.lt_ge_cases (f + 2) pos) as [Hp|Hp]; [by apply Hinv|]. destruct (Hall f Hfin ltac:(lia)) as (e & He & Hde).
      apply (Hno (d_name e ++ 0 :: d_pad e)); [by apply (list_elem_of_fmap_2 (fun e => d_name e ++ 0 :: d_pad e))|]. rewrite Hde. apply number_of_show. specialize (Hb f Hfin). lia.
    + exists fds', b. split_and!; done.
Qed.

(** C36: the probe's child is left with its end of the socket alone, whichever calls the kernel refuses: where
    [keep_only_own] says so its table holds that one descriptor, in its place; where it does not the
    child still holds it and exits. Around any two descriptors, the ranges given to [close_range] are
    non-empty, which it would refuse otherwise, lie within 32 bits, and span exactly the other numbers.
    The walk reads every record within its buffer, spells every number right, and ends. *)
Theorem child_keeps_its_end opened child parent (fds : Fds) fuel
    (Hkernel : lists_descriptors) (Htop : 0 <= top < 2 ^ 31) (Hfds : bounded fds)
    (Hends : child ∈ fds /\ parent ∈ fds /\ child <> parent)
    (Hopened : forall dir, opened (fds ∖ {[parent]}) = Some dir -> dir ∉ fds ∖ {[parent]} /\ 0 <= dir <= top)
    (Hfuel : (Z.of_nat (size fds) + 1) * (top + 4) + top + 3 < Z.of_nat fuel) :
  (exists fds' b, keep_only_own big getdents close_range rewind fuel opened child parent fds = Some (fds', b) /\
    child ∈ fds' /\ (b = true -> fds' = {[child]})) /\
  (forall kept dir, 0 <= kept <= u32_max -> 0 <= dir <= u32_max -> kept <> dir ->
    (forall r, Some r ∈ ranges_around kept dir -> 0 <= r.1 <= r.2 /\ r.2 <= u32_max) /\
    (forall f, 0 <= f <= u32_max -> (exists r, Some r ∈ ranges_around kept dir /\ r.1 <= f <= r.2) <-> f <> kept /\ f <> dir)).
Proof.
  split.
  2: { intros kept dir' Hk Hd Hne. split; [intros r; by apply ranges_around_nonempty|]. intros f Hf. by apply ranges_around_cover. }
  unfold keep_only_own. set (fds0 := fds ∖ {[parent]}) in *. assert (child ∈ fds0) as Hc by set_solver.
  destruct (opened fds0) as [dir|] eqn:Eo; [|by exists fds0, false]. destruct (Hopened dir eq_refl) as [Hd Hdir].
  assert (dir <> child) as Hne by set_solver. specialize (Hfds child ltac:(set_solver)) as Hcb.
  assert (forall z, 0 <= z <= top -> 0 <= z <= u32_max) as Hu by (unfold u32_max; lia).
  destruct (close_ranges close_range (ranges_around child dir) (fds0 ∪ {[dir]})) as [fds1 all] eqn:Ec.
  apply close_ranges_spec in Ec as (Hs & Hkeep & Hall).
  assert (forall f r, f = child \/ f = dir -> Some r ∈ ranges_around child dir -> ~ in_range r f) as Hout.
  { intros f r Hf Hr Hin. assert (0 <= f <= u32_max) as Hfb by (destruct Hf as [->| ->]; auto).
    destruct (proj1 (ranges_around_cover child dir f (Hu _ Hcb) (Hu _ Hdir) Hfb (not_eq_sym Hne))); [by exists r|]. tauto. }
  assert (child ∈ fds1 /\ dir ∈ fds1) as [Hc1 Hd1].
  { split; (apply Hkeep; [|intros r Hr; eapply Hout; [|exact Hr]; auto]); apply elem_of_union; [by left|right; by apply elem_of_singleton]. }
  assert (bounded (fds0 ∪ {[dir]})) as Hb0 by (intros f [Hf| ->%elem_of_singleton]%elem_of_union; [apply Hfds; set_solver|done]).
  assert (bounded fds1) as Hb1 by (intros f Hf; by apply Hb0, Hs).
  destruct all.
  - exists (fds1 ∖ {[dir]}), true. split_and!; [done|set_solver|]. intros _. apply set_eq. intros f. rewrite elem_of_difference, !elem_of_singleton.
    split; [|intros ->; split; [done|by intros ->]]. intros [Hf Hfd]. destruct (decide (f = child)) as [|Hfc]; [done|]. exfalso.
    destruct (proj2 (ranges_around_cover child dir f (Hu _ Hcb) (Hu _ Hdir) (Hu _ (Hb1 f Hf)) (not_eq_sym Hne))) as (r & Hr & Hin); [done|]. by eapply Hall.
  - destruct (close_by_walk_ends dir child Hkernel Htop Hne fuel fds1 0) as (fds' & b & Hr & Hk' & _ & Hb'); try done.
    + intros f Hf ?. specialize (Hb1 f Hf). lia.
    + assert (size fds1 <= S (size fds))%nat as Hsz.
      { etrans; [apply subseteq_size, Hs|]. etrans; [apply (subseteq_size _ (fds ∪ {[dir]})); set_solver|]. 
        pose proof (size_union_alt fds {[dir]}). pose proof (subseteq_size ({[dir]} ∖ fds) {[dir]} ltac:(set_solver)) as Hx. rewrite size_singleton in Hx. lia. }
      unfold measure. nia.
    + exists fds', b. by split_and!.
Qed.
End walk.

(** * A kernel without [close_range] *)

Definition demo_entry (f : Z) : Dirent := dirent (repeat 0 16) 10 (show f) [].

(** It lists the descriptors from a position on, all at once. *)
Definition demo_getdents (top : Z) (fds : Fds) (pos : Z) : option Listing :=
  let es := demo_entry <$> filter (fun f => pos <= f + 2) (elements fds) in
  let b := concat (encode_dirent false <$> es) in
  Some (listing b (length b) (top + 3)).

Lemma length_show_digits fuel : forall n, (length (show_digits fuel n) <= fuel)%nat.
Proof.
  induction fuel as [|fuel IH]; intros n; [done|]. cbn [show_digits]. destruct (n <? 10); [cbn; lia|]. rewrite length_app. specialize (IH (n / 10)). cbn. lia.
Qed.

Lemma demo_lists top : 0 <= top -> lists_descriptors false (demo_getdents top) top.
Proof.
  intros Htop. split; intros fds pos l Hb [= <-]; cbn [buf count next].
  - exists (demo_entry <$> filter (fun f => pos <= f + 2) (elements fds)), []. split_and!.
    + apply Forall_fmap, Forall_forall. intros f _. split; [done|]. pose proof (length_show_digits 20 f) as Hl. change (show_digits 20 f) with (show f) in Hl.
      unfold reclen_of, demo_entry. cbn [d_name d_pad length]. unfold NAME. lia.
    + by rewrite app_nil_r.
    + done.
    + apply Forall_fmap, Forall_forall. intros f [_ Hf%elem_of_elements]%list_elem_of_filter. left. by exists f.
    + intros f Hf Hp. exists (demo_entry f). split; [|done]. apply list_elem_of_fmap_2, list_elem_of_filter. split; [lia|by apply elem_of_elements].
  - intros Hc. destruct (filter (fun f => pos <= f + 2) (elements fds)) as [|f fs] eqn:E; [done|].
    assert (f ∈ filter (fun f => pos <= f + 2) (elements fds)) as Hf by (rewrite E; left). apply list_elem_of_filter in Hf as [Hp Hf%elem_of_elements].
    specialize (Hb f Hf). lia.
  - intros Hc f Hf. destruct (filter (fun f => pos <= f + 2) (elements fds)) as [|g gs] eqn:E; [|done].
    destruct (Z.lt_ge_cases (f + 2) pos) as [|Hge]; [done|]. assert (f ∈ filter (fun f => pos <= f + 2) (elements fds)) as Hin.
    { apply list_elem_of_filter. split; [lia|by apply elem_of_elements]. }
    rewrite E in Hin. by apply not_elem_of_nil in Hin.
Qed.

Lemma child_keeps_its_end_witness :
  let run := keep_only_own false (demo_getdents 9) (fun _ _ => false) (fun _ => true) 200 (fun _ => Some 2) 7 2 ({[0; 1; 2; 5; 7; 9]} : Fds) in
  run = Some ({[7]}, true) /\ (exists fds' b, run = Some (fds', b) /\ 7 ∈ fds') /\
  ranges_around 0 1 = [None; None; Some (2, u32_max)] /\ ~ in_range (2, u32_max) 1.
Proof.
  intros run. destruct (child_keeps_its_end false (demo_getdents 9) (fun _ _ => false) (fun _ => true) 9 (fun _ => Some 2) 7 2 ({[0; 1; 2; 5; 7; 9]} : Fds) 200)
    as ((fds' & b & Hr & Hin & _) & Hranges).
  - apply demo_lists. done.
  - done.
  - intros f Hf. rewrite !elem_of_union, !elem_of_singleton in Hf. lia.
  - split_and!; [set_solver|set_solver|done].
  - intros dir [= <-]. split; [set_solver|done].
  - vm_compute. reflexivity.
  - split; [vm_compute; reflexivity|]. split; [exists fds', b; split; [exact Hr|exact Hin]|]. split; [reflexivity|].
    intros Hin1. destruct (Hranges 0 1 ltac:(done) ltac:(done) ltac:(done)) as [_ Hc].
    destruct (proj1 (Hc 1 ltac:(done))) as [_ H1]; [exists (2, u32_max); split; [by right; right; left|exact Hin1]|]. by apply H1.
Defined.
