(* ===== verification/Probe.v ===== *)
(** Whether a host can place an elevation front: [front_placement] of [src/containment/cgroup/reach.rs] and
    the probe child it forks, as calls with the system's answers. A call that a signal interrupted is made
    again, so an answer is the last one's. What the child does to its descriptors is in [ProbeFds]; an
    unwind's drop of a probe, which ends it the same way, and messages are left out. *)
From S2P Require Import Prelude IoErrors Identity CrateError History Reach.
Local Open Scope Z_scope.

Definition EOPNOTSUPP : Z := 95.
Definition ECHILD : Z := 10.
Definition SIGKILL : Z := 9.

(** * The child *)

Definition RELEASED : Z := 0.
Definition ABANDONED : Z := 1.

(** [probe_child]: what it reports, and its exit status once its wait answers [n]: whether it kept its end
    alone, whether its parent is still its parent, and what its [prctl]s read back. *)
Definition probe_child (kept same_parent : bool) (dumpable pdeathsig n : Z) : option (list Z) * Z :=
  if negb kept then (None, ABANDONED)
  else if negb same_parent then (None, ABANDONED)
  else (Some [dumpable mod 256; pdeathsig mod 256], if n =? 1 then RELEASED else ABANDONED).

(** * Calls *)

Inductive View := VSame | VOther.

Inductive ProbeEnd := Signal (signo : Z) | Exit (status : Z) | Elsewhere.

Inductive Ev :=
| LeafId (r : result IoError Z)
| OpenSelf (r : result Z unit)
| SelfInfo (r : result Z (Z * Z))
| CloseSelf
| ProcView (v : View)
| Lock
| Unlock
| Pair (r : result IoError unit)
| Fork (r : result Z Z)
| CloseChildEnd
| PinOpen (pid : Z) (r : result Z unit)
| Peek (r : result Z unit)
| ClosePin
| ReadReport (r : result IoError (list Z))
| ReadCgroup (pid : Z) (r : result IoError unit)
| KillPin (r : result Z unit)
| KillNumber (pid : Z) (r : result Z unit)
| Release (r : result Z unit)
| CloseChannel
| WaitPin (r : result Z ProbeEnd)
| WaitNumber (pid : Z) (r : result Z ProbeEnd).

Class System := {
  leaf_id_answer : list Ev -> result IoError Z;
  open_self_answer : list Ev -> result Z unit;
  self_info_answer : list Ev -> result Z (Z * Z);
  view_answer : list Ev -> View;
  pair_answer : list Ev -> result IoError unit;
  fork_answer : list Ev -> result Z Z;
  pin_answer : list Ev -> Z -> result Z unit;
  peek_answer : list Ev -> result Z unit;
  report_answer : list Ev -> result IoError (list Z);
  cgroup_answer : list Ev -> Z -> result IoError unit;
  kill_answer : list Ev -> result Z unit;
  release_answer : list Ev -> result Z unit;
  wait_answer : list Ev -> result Z ProbeEnd }.

Inductive Unreadable := Hidden (e : IoError) | UnreadableView | ProbeFailed (e : IoError).

Inductive Hold := ByPidfd | ByNumber.

Inductive Unpinned := GoneChild | NotPinned.

Section calls.
Context `{System}.
Notation M := (Hist Ev).

Definition confirm_child : M (result Unpinned unit) :=
  do! r := call peek_answer Peek in
  match r with
  | Err e => do! _ := note ClosePin in ret (Err (if e =? ECHILD then GoneChild else NotPinned))
  | Ok _ => ret (Ok tt)
  end.

Definition own_child_pidfd (pid : Z) : M (result Unpinned unit) :=
  do! r := call (fun h => pin_answer h pid) (PinOpen pid) in
  match r with
  | Ok _ => confirm_child
  | Err e => ret (Err (if e =? ESRCH then GoneChild else NotPinned))
  end.

(** [fork_probe]: the probe, its pid and how it is held. *)
Definition fork_probe : M (result IoError (Z * Hold)) :=
  do! _ := note Lock in
  do! p := call pair_answer Pair in
  match p with
  | Err e => do! _ := note Unlock in ret (Err e)
  | Ok _ =>
      do! f := call fork_answer Fork in
      do! _ := note CloseChildEnd in
      match f with
      | Err e => do! _ := note CloseChannel in do! _ := note Unlock in ret (Err (from_raw_os_error e))
      | Ok pid =>
          do! own := own_child_pidfd pid in
          match own with
          | Err GoneChild => do! _ := note CloseChannel in do! _ := note Unlock in ret (Err (io_new Other))
          | Err NotPinned => do! _ := note Unlock in ret (Ok (pid, ByNumber))
          | Ok _ => do! _ := note Unlock in ret (Ok (pid, ByPidfd))
          end
      end
  end.

(** [reap_through] and [reap_by_number]. *)
Definition reaped (r : result Z ProbeEnd) : result IoError ProbeEnd :=
  match r with Ok end_ => Ok end_ | Err e => if e =? ECHILD then Ok Elsewhere else Err (from_raw_os_error e) end.

(** [Probe::end]: [kill_and_reap], the release in it, and the drop of the hold. *)
Definition kill_and_reap (pid : Z) (hold : Hold) : M (result IoError ProbeEnd) :=
  do! _ := match hold with ByPidfd => call kill_answer KillPin | ByNumber => call kill_answer (KillNumber pid) end in
  do! _ := call release_answer Release in
  do! _ := note CloseChannel in
  match hold with
  | ByPidfd => do! r := call wait_answer WaitPin in do! _ := note ClosePin in ret (reaped r)
  | ByNumber => do! r := call wait_answer (WaitNumber pid) in ret (reaped r)
  end.

(** What the report and the read say; [None]: the child ended before it reported. *)
Definition read_untraceable (pid : Z) : M (option (result Unreadable unit)) :=
  do! readied := call report_answer ReadReport in
  match readied with
  | Err e => ret (Some (Err (ProbeFailed e)))
  | Ok [dumpable; pdeathsig] =>
      if negb (dumpable =? 0) then ret (Some (Err (ProbeFailed (io_new Other))))
      else if negb (pdeathsig =? SIGKILL) then ret (Some (Err (ProbeFailed (io_new Other))))
      else
        do! r := call (fun h => cgroup_answer h pid) (ReadCgroup pid) in
        ret (Some match r with
                  | Ok _ => Ok tt
                  | Err e => Err (if bool_decide (raw_os_error e = Some ENOENT \/ raw_os_error e = Some EPERM \/ raw_os_error e = Some EACCES)
                                  then Hidden e else ProbeFailed e)
                  end)
  | Ok _ => ret None
  end.

Definition untraceable_cgroup_readable : M (result Unreadable unit) :=
  do! v := call view_answer ProcView in
  match v with
  | VOther => ret (Err UnreadableView)
  | VSame =>
      do! probe := fork_probe in
      match probe with
      | Err e => ret (Err (ProbeFailed e))
      | Ok (pid, hold) =>
          do! read := read_untraceable pid in
          do! end_ := kill_and_reap pid hold in
          ret match end_ with
              | Err e => Err (ProbeFailed e)
              | Ok _ => default (Err (ProbeFailed (io_new Other))) read
              end
      end
  end.

Definition refusal (why : Unreadable) : Error :=
  match why with Hidden _ | UnreadableView => EUnsupported | ProbeFailed e => Io (io_context e) end.

Definition front_placement : M (result Error unit) :=
  do! leaf := call leaf_id_answer LeafId in
  match leaf with
  | Err e =>
      ret (Err (if bool_decide (raw_os_error e = Some ENOSYS \/ raw_os_error e = Some EOPNOTSUPP \/ raw_os_error e = Some EPERM)
                then EUnsupported else Io (io_context e)))
  | Ok _ =>
      do! own := call open_self_answer OpenSelf in
      match own with
      | Err e => ret (Err (Io (io_context (from_raw_os_error e))))
      | Ok _ =>
          do! info := call self_info_answer SelfInfo in
          do! _ := note CloseSelf in
          match pidfd_cgroup_id info with
          | Ok (Some _) => ret (Ok tt)
          | Err _ => ret (Err EUnsupported)
          | Ok None =>
              do! r := untraceable_cgroup_readable in
              ret match r with Ok _ => Ok tt | Err why => Err (refusal why) end
          end
      end
  end.
End calls.

(** The child reports only once it keeps its end alone under its own parent, and what it reports passes for ready
    exactly if it is not dumpable and dies with its parent. *)
Definition passes (report : list Z) : bool :=
  match report with [dumpable; pdeathsig] => (dumpable =? 0) && (pdeathsig =? SIGKILL) | _ => false end.

Lemma probe_child_reports kept same_parent dumpable pdeathsig n :
  0 <= dumpable < 256 -> 0 <= pdeathsig < 256 ->
  let (report, status) := probe_child kept same_parent dumpable pdeathsig n in
  (status = RELEASED \/ status = ABANDONED) /\ (status = RELEASED -> n = 1) /\
  match report with
  | Some r => kept = true /\ same_parent = true /\ (passes r = true <-> dumpable = 0 /\ pdeathsig = SIGKILL)
  | None => status = ABANDONED
  end.
Proof.
  intros Hd Hp. unfold probe_child. destruct kept; cbn [negb]; [|by split_and!; [right|..]]. destruct same_parent; cbn [negb]; [|by split_and!; [right|..]].
  split_and!; [destruct (n =? 1); auto|destruct (Z.eqb_spec n 1); done|done|done|]. unfold passes. rewrite !Z.mod_small by lia. rewrite andb_true_iff, !Z.eqb_eq. done.
Qed.

(** * The protocol *)

Inductive Stage :=
| NoChild
| Raw (pid : Z)        (* forked *)
| Opened (pid : Z)     (* its pidfd is not shown yet to name a child of this process *)
| Held (pid : Z) (hold : Hold)
| Killed (pid : Z) (hold : Hold)
| Released_ (pid : Z) (hold : Hold)
| GoneElsewhere
| Reaped
| Unreaped.            (* its wait failed *)

#[export] Instance Hold_eq_dec : EqDecision Hold.
Proof. solve_decision. Defined.
#[export] Instance Stage_eq_dec : EqDecision Stage.
Proof. solve_decision. Defined.

(** The answers a verdict may rest on. *)
Inductive Evidence := NoEvidence | LeafRefused | LeafKnown | OwnId | NoInfo | InfoRefused | NoView | ReadyChild | HiddenChild | ShownChild.

#[export] Instance Evidence_eq_dec : EqDecision Evidence.
Proof. solve_decision. Defined.

(** The child, the ends of its socket and its pidfd that the parent holds, the spawn lock, the parent's own pidfd,
    and the evidence. *)
Record St := st { stage : Stage; chan : bool; cend : bool; pin : bool; locked : bool; self : bool; ev : Evidence }.

Definition start : St := st NoChild false false false false false NoEvidence.

Definition set_stage (s : St) (g : Stage) : St := st g (chan s) (cend s) (pin s) (locked s) (self s) (ev s).
Definition set_fds (s : St) (c e p : bool) : St := st (stage s) c e p (locked s) (self s) (ev s).
Definition set_locked (s : St) (b : bool) : St := st (stage s) (chan s) (cend s) (pin s) b (self s) (ev s).
Definition set_self (s : St) (b : bool) (e : Evidence) : St := st (stage s) (chan s) (cend s) (pin s) (locked s) b e.
Definition set_ev (s : St) (e : Evidence) : St := st (stage s) (chan s) (cend s) (pin s) (locked s) (self s) e.

Definition errno_in (e : IoError) (es : list Z) : bool := existsb (fun x => bool_decide (raw_os_error e = Some x)) es.
#[local] Arguments errno_in : simpl never.

Definition ready (r : result IoError (list Z)) : bool := match r with Ok report => passes report | Err _ => false end.

Definition reap (s : St) (pid : Z) (hold : Hold) (r : result Z ProbeEnd) : option St :=
  if bool_decide (stage s = Released_ pid hold) && negb (chan s) then
    Some (set_stage s match r with Ok _ => Reaped | Err e => if e =? ECHILD then Reaped else Unreaped end)
  else None.

Definition step (s : St) (e : Ev) : option St :=
  match e with
  | LeafId r =>
      Some (set_ev s match r with Ok _ => LeafKnown | Err e => if errno_in e [ENOSYS; EOPNOTSUPP; EPERM] then LeafRefused else NoEvidence end)
  | OpenSelf r => if bool_decide (ev s = LeafKnown) then Some (set_self s (match r with Ok _ => true | Err _ => false end) (ev s)) else None
  | SelfInfo r =>
      if self s then Some (set_self s true match pidfd_cgroup_id r with Ok (Some _) => OwnId | Ok None => NoInfo | Err _ => InfoRefused end) else None
  | CloseSelf => if self s then Some (set_self s false (ev s)) else None
  | ProcView v => if bool_decide (ev s = NoInfo) && negb (self s) then Some (set_ev s match v with VSame => NoInfo | VOther => NoView end) else None
  | Lock => if locked s then None else Some (set_locked s true)
  | Unlock => if locked s then Some (set_locked s false) else None
  | Pair r => if locked s && negb (chan s) then Some (match r with Ok _ => set_fds s true true (pin s) | Err _ => s end) else None
  | Fork r =>
      if bool_decide (stage s = NoChild) && locked s && chan s && cend s && negb (self s) then
        Some (match r with Ok pid => set_stage s (Raw pid) | Err _ => s end)
      else None
  | CloseChildEnd => if cend s && locked s then Some (set_fds s (chan s) false (pin s)) else None
  | PinOpen pid r =>
      if bool_decide (stage s = Raw pid) && negb (cend s) then
        Some match r with
             | Ok _ => set_fds (set_stage s (Opened pid)) (chan s) false true
             | Err e => set_stage s (if e =? ESRCH then GoneElsewhere else Held pid ByNumber)
             end
      else None
  | Peek r =>
      match stage s with
      | Opened pid => Some (set_stage s match r with Ok _ => Held pid ByPidfd | Err e => if e =? ECHILD then GoneElsewhere else Held pid ByNumber end)
      | _ => None
      end
  | ClosePin =>
      if pin s && match stage s with GoneElsewhere | Held _ ByNumber | Reaped | Unreaped => true | _ => false end then Some (set_fds s (chan s) (cend s) false) else None
  | ReadReport r =>
      match stage s with
      | Held _ _ => if chan s && negb (locked s) then Some (if ready r then set_ev s ReadyChild else s) else None
      | _ => None
      end
  | ReadCgroup pid r =>
      match stage s with
      | Held p _ =>
          if (p =? pid) && bool_decide (ev s = ReadyChild) then
            Some (set_ev s match r with Ok _ => ShownChild | Err e => if errno_in e [ENOENT; EPERM; EACCES] then HiddenChild else ReadyChild end)
          else None
      | _ => None
      end
  | KillPin _ => match stage s with Held pid ByPidfd => if pin s then Some (set_stage s (Killed pid ByPidfd)) else None | _ => None end
  | KillNumber pid _ => if bool_decide (stage s = Held pid ByNumber) && negb (pin s) then Some (set_stage s (Killed pid ByNumber)) else None
  | Release _ => match stage s with Killed pid hold => if chan s then Some (set_stage s (Released_ pid hold)) else None | _ => None end
  | CloseChannel =>
      if chan s && negb (cend s) && match stage s with NoChild | GoneElsewhere | Released_ _ _ => true | _ => false end then Some (set_fds s false (cend s) (pin s)) else None
  | WaitPin r => match stage s with Released_ pid ByPidfd => if pin s then reap s pid ByPidfd r else None | _ => None end
  | WaitNumber pid r => reap s pid ByNumber r
  end.

(** Nothing is left of the probe, unless its wait failed. *)
Definition cleaned (s : St) : Prop :=
  chan s = false /\ cend s = false /\ pin s = false /\ locked s = false /\ self s = false /\
  match stage s with NoChild | GoneElsewhere | Reaped | Unreaped => True | _ => False end.

(** The verdict of the evidence. *)
Definition verdict (s : St) (r : result Error unit) : Prop :=
  (r = Ok tt <-> ev s = OwnId \/ ev s = ShownChild /\ stage s = Reaped) /\
  (r = Err EUnsupported <-> ev s = LeafRefused \/ ev s = InfoRefused \/ ev s = NoView \/ ev s = HiddenChild /\ stage s = Reaped) /\
  match r with Ok _ => True | Err EUnsupported => True | Err (Io _) => True | Err _ => False end.

Local Ltac fields := cbn in *; try done; try congruence; try tauto.

(** Run through all answers, a state that waits for one taken apart. *)
Local Ltac probe_go :=
  repeat first
    [ progress keeps_go
    | progress unfold set_stage, set_fds, set_locked, set_self, set_ev, reap
    | rewrite bool_decide_true by (cbn; done)
    | match goal with
      | |- keeps _ (match ?x with _ => _ end) _ _ => destruct x eqn:?
      | |- keeps _ (st (if ?b then _ else _) _ _ _ _ _ _) _ _ => destruct b eqn:?
      | |- keeps _ (st _ _ _ _ _ _ (match ?x with _ => _ end)) _ _ => destruct x eqn:?
      | |- exists s', (if ?b then _ else _) = Some s' /\ _ => destruct b eqn:?
      end ].

(** Before a probe. *)
Definition unprobed (s : St) : Prop := s = st NoChild false false false false false NoInfo.

Definition holding (s : St) (pid : Z) (hold : Hold) (e : Evidence) : Prop :=
  s = st (Held pid hold) true false (bool_decide (hold = ByPidfd)) false false e.

Section lemmas.
Context `{System}.

Lemma fork_probe_ok s :
  unprobed s -> keeps step s fork_probe (fun r s' =>
    match r with Ok (pid, hold) => holding s' pid hold NoInfo | Err _ => cleaned s' /\ ev s' = NoInfo /\ (stage s' = NoChild \/ stage s' = GoneElsewhere) end).
Proof.
  intros ->. unfold fork_probe, own_child_pidfd, confirm_child. probe_go; first [done | by split_and!; auto].
Qed.

(** What the read of the child says, and the evidence for it. *)
Definition read_of (e : Evidence) (read : option (result Unreadable unit)) : Prop :=
  match read with
  | Some (Ok _) => e = ShownChild
  | Some (Err (Hidden _)) => e = HiddenChild
  | Some (Err UnreadableView) => False
  | Some (Err (ProbeFailed _)) | None => e = NoInfo \/ e = ReadyChild
  end.

Lemma errno_in3 e x y z :
  errno_in e [x; y; z] = bool_decide (raw_os_error e = Some x \/ raw_os_error e = Some y \/ raw_os_error e = Some z).
Proof. unfold errno_in. cbn. repeat case_bool_decide; cbn; tauto. Qed.

Lemma read_untraceable_ok s pid hold :
  holding s pid hold NoInfo -> keeps step s (read_untraceable pid) (fun read s' => exists e, holding s' pid hold e /\ read_of e read).
Proof.
  intros ->. unfold read_untraceable. keeps_step. keeps_step. cbn. eexists. split; [reflexivity|].
  assert (forall e, e = NoInfo \/ e = ReadyChild -> holding (st (Held pid hold) true false (bool_decide (hold = ByPidfd)) false false e) pid hold e) as Hh by done.
  destruct a as [[|d [|p [|x l]]]|err]; try (apply keeps_ret; exists NoInfo; split; [done|by left]).
  unfold ready, passes. destruct (d =? 0); cbn [negb andb]; [|apply keeps_ret; exists NoInfo; split; [done|by left]].
  destruct (p =? SIGKILL); cbn [negb]; [|apply keeps_ret; exists NoInfo; split; [done|by left]].
  keeps_step. keeps_step. cbn. rewrite Z.eqb_refl. cbn. eexists. split; [reflexivity|]. apply keeps_ret.
  destruct a as [[]|err]; [by exists ShownChild|]. pose proof (errno_in3 err ENOENT EPERM EACCES) as He. destruct (errno_in err _); symmetry in He.
  - apply bool_decide_eq_true in He. exists HiddenChild. by rewrite (bool_decide_true (_ \/ _)) by done.
  - apply bool_decide_eq_false in He. exists ReadyChild. rewrite (bool_decide_false (_ \/ _)) by done. split; [done|by right].
Qed.

Lemma kill_and_reap_ok s pid hold e :
  holding s pid hold e -> keeps step s (kill_and_reap pid hold) (fun r s' =>
    cleaned s' /\ ev s' = e /\ stage s' = match r with Ok _ => Reaped | Err _ => Unreaped end).
Proof.
  intros ->. unfold kill_and_reap, reaped. destruct hold; probe_go.
  all: match goal with r : result Z ProbeEnd |- _ => destruct r as [|err]; [|destruct (err =? ECHILD)] end; probe_go; by split_and!.
Qed.

Lemma untraceable_ok s :
  unprobed s -> keeps step s untraceable_cgroup_readable (fun r s' => cleaned s' /\
    match r with
    | Ok _ => ev s' = ShownChild /\ stage s' = Reaped
    | Err (Hidden _) => ev s' = HiddenChild /\ stage s' = Reaped
    | Err UnreadableView => ev s' = NoView
    | Err (ProbeFailed _) => ev s' = NoInfo \/ ev s' = ReadyChild \/ stage s' = Unreaped /\ (ev s' = ShownChild \/ ev s' = HiddenChild)
    end).
Proof.
  intros Hs. unfold untraceable_cgroup_readable. keeps_step. keeps_step. rewrite Hs. cbn. eexists. split; [reflexivity|].
  destruct a; [|by apply keeps_ret]. keeps_step. eapply keeps_mono; [by apply fork_probe_ok|]. intros [[pid hold]|err] s1 Hp; [|apply keeps_ret; split; [apply Hp|left; apply Hp]].
  keeps_step. eapply keeps_mono; [by apply read_untraceable_ok|]. intros read s2 (e & Hh & Hr). keeps_step.
  eapply keeps_mono; [by apply kill_and_reap_ok|]. intros r s3 (Hc & He & Hst). apply keeps_ret. split; [done|]. rewrite He.
  destruct r as [end_|err], read as [[[]|[h| |f]]|]; cbn in Hr |- *; tauto.
Qed.

Lemma front_placement_ok : keeps step start front_placement (fun r s => cleaned s /\ verdict s r).
Proof.
  unfold front_placement. keeps_step. keeps_step. cbn. eexists. split; [reflexivity|]. destruct a as [id|e].
  2: { apply keeps_ret. pose proof (errno_in3 e ENOSYS EOPNOTSUPP EPERM) as He. destruct (errno_in e _); symmetry in He.
       - apply bool_decide_eq_true in He. rewrite bool_decide_true by done. split; [done|]. unfold verdict; cbn; intuition congruence.
       - apply bool_decide_eq_false in He. rewrite bool_decide_false by done. split; [done|]. unfold verdict; cbn; intuition congruence. }
  keeps_step. keeps_step. cbn. eexists. split; [reflexivity|]. destruct a as [[]|e].
  2: { apply keeps_ret. split; [done|]. unfold verdict; cbn; intuition congruence. }
  keeps_step. keeps_step. cbn. eexists. split; [reflexivity|]. keeps_step. keeps_step.
  destruct (pidfd_cgroup_id a) as [[own|]|e]; cbn.
  - apply keeps_ret. split; [done|]. unfold verdict; cbn; intuition congruence.
  - keeps_step. eapply keeps_mono; [by apply untraceable_ok|]. intros r s (Hc & Hr). apply keeps_ret. split; [done|].
    unfold verdict. destruct r as [[]|[h| |f]]; cbn in Hr |- *; intuition congruence.
  - apply keeps_ret. split; [done|]. unfold verdict; cbn; intuition congruence.
Qed.
End lemmas.

(** C31: whether a host can place a front is decided on evidence, and the probe leaves nothing behind.
    Whatever the system answers: a forked child that is this process's is killed once, then released, and waited
    for once only after the parent's end is closed, all through its pidfd, or all by its number where no
    pidfd could be shown to be its; one reaped by others is sent nothing and not waited for; its
    [/proc] entry is read only while it is unreaped and after it reported that it is untraceable and dies with
    its parent; the fork is under the spawn lock; and every descriptor is closed. The host is accepted
    exactly if its kernel gives a pidfd's cgroup id, or a child was shown and reaped, with the leaf's own id
    readable; it is unsupported exactly if the leaf's id is refused, the kernel fails on its own
    pidfd, [/proc] is not this namespace's, or it hid the child; any other failure is an [Io]. *)
Theorem probe_leaves_nothing `{System} h :
  wp front_placement h (fun r t => exists s, accepts step start t = Some s /\ cleaned s /\ verdict s r).
Proof. apply (front_placement_ok h). Qed.
