(* ===== verification/ProcSource.v ===== *)
(** The process behind an asynchronous child, on Unix: [ProcSource] of
    [src/tokio/child/proc_source.rs]. tokio's [Child] collects a status by its pid, in its [try_wait]
    and in its drop; this backend decides when it may, and forgets it otherwise. A look, a signal and a
    wait go through the child's handle. Calls are recorded with the system's answers; those of
    ChildCalls are among them. A future is dropped where its wakes run out. The teardown through a
    pidfd is SpawnTeardown's; the child of a late report, on macOS, is LateTeardown's; messages are left
    out. *)
From S2P Require Import Prelude Identity IoErrors CrateError History LeafEnd LateTeardown OsChild ChildCalls OwnedTeardown TreeCall.
Local Open Scope Z_scope.

(** * The backend *)

(** [Waited] and [Forgotten]. *)
Inductive WaitedFor := ForExited | ForForeign | ForOrphaned | ForUnverified.
Inductive Forgotten := ElsewhereReaped | HeldByLaunchd | Unproven.

(** The streams tokio has not handed out. *)
Record Streams := streams { stdin : bool; stdout : bool; stderr : bool }.

(** [collected] is the status tokio's [Child] holds once it has reaped, where its [id] is [None];
    [identity] is read on macOS only. A forgotten child on Linux keeps its pidfd; [known] says whether
    its pid was kept too. *)
Inductive ProcSource :=
| Tokio (collected : option Z) (st : Streams) (identity : option Z)
| ForeignSrc (st : Streams) (fate : Forgotten) (known : bool).

#[export] Instance WaitedFor_eq_dec : EqDecision WaitedFor.
Proof. solve_decision. Defined.
#[export] Instance Forgotten_eq_dec : EqDecision Forgotten.
Proof. solve_decision. Defined.

(** [Forgot]: whether the handle was asked again, and what it said; whether a wait says why. *)
Record Forgot := forgot { now : option RootState; cause : bool }.

(** [Forgot::reaped_elsewhere]. *)
Definition reaped_elsewhere (f : Forgot) : bool := match now f with Some (RootUnknown _) => false | _ => true end.

(** [Waited::forgotten], [Forgotten::of] and [Forgotten::gone]. *)
Definition forgotten (w : WaitedFor) : option Forgotten :=
  match w with
  | ForExited => None
  | ForForeign => Some ElsewhereReaped
  | ForOrphaned => Some HeldByLaunchd
  | ForUnverified => Some Unproven
  end.

Definition of_state (s : RootState) : Forgotten :=
  match s with RootUnknown _ => Unproven | Unpinned => HeldByLaunchd | Unreaped | RootReaped _ => ElsewhereReaped end.

Definition gone (f : Forgotten) : bool := match f with Unproven => false | _ => true end.

(** Why a reap on events stopped without a status. *)
Inductive Halt :=
| HaltState (s : RootState)
| ReapedBetween
| HaltReapFailed (e : IoError)
| HaltWatch (e : Error).

(** [KqueueWatch::held_by]. *)
Inductive Held := LookAgain | KeepWaiting | HeldIdentity (e : IoError) | HeldWatch (e : IoError).

(** * Calls *)

(** A [ForgetTokio] is [mem::forget] of tokio's [Child], and a [DropTokio] its own drop. [HandOver] is
    the teardown of a child through its pidfd, and [LeaveFront] that of an elevation front;
    [ReapPidfd] a blocking reap through the pidfd. [ReleaseTree], [AwaitDrain], [DropAfterDrain] and
    [TermById], a [SIGTERM] by identity, are the child's. [dropped_answer] says where a future is dropped
    that waits for no event of the backend. *)
Inductive Ev :=
| Own (e : ChildCalls.Ev)
| TryWait (a : result IoError (option Z))
| ForgetTokio
| DropTokio
| ArmWatch (a : result Error unit)
| AwaitWake (a : result Error unit)
| NoteReap (a : result Error bool)
| LookTraced (a : result IoError PeekOutcome * bool)
| HeldBy (a : Held)
| BlockWait (a : result IoError PeekOutcome)
| AwaitReapable (a : result IoError Waited)
| SeesExit (a : bool)
| WarnLate
| WarnForgot
| WarnRefused
| HandOver (a : ChildFate)
| LeaveFront (a : FrontFate * ChildFate)
| ReapPidfd (a : result IoError (result OsChild.Foreign ExitRecord))
| ReleaseTree (m : Attached)
| AwaitDrain (a : option (result Error unit))
| DropAfterDrain (m : Attached)
| TermById (a : result Error unit).

Definition own_ev (e : Ev) : option ChildCalls.Ev := match e with Own e => Some e | _ => None end.

Notation T := (Hist Ev).

(** The calls of ChildCalls, among the others. *)
Definition own {A} (m : Hist ChildCalls.Ev A) : T A := embed Own own_ev m.

Class TokioSys := {
  try_wait_answer : list Ev -> result IoError (option Z);
  arm_answer : list Ev -> result Error unit;
  wake_answer : list Ev -> result Error unit;
  note_reap_answer : list Ev -> result Error bool;
  traced_answer : list Ev -> result IoError PeekOutcome * bool;
  held_by_answer : list Ev -> Held;
  block_answer : list Ev -> result IoError PeekOutcome;
  reapable_answer : list Ev -> result IoError Waited;
  sees_exit_answer : list Ev -> bool;
  hand_over_answer : list Ev -> ChildFate;
  leave_front_answer : list Ev -> FrontFate * ChildFate;
  reap_pidfd_answer : list Ev -> result IoError (result OsChild.Foreign ExitRecord);
  drain_await_answer : list Ev -> option (result Error unit);
  term_answer : list Ev -> result Error unit;
  dropped_answer : list Ev -> bool
}.

Section ProcSource.
  Context `{ChildCalls.Sys} `{TokioSys}.

(** The answer of a wait where nothing of ours is left. *)
Definition gone_error : Error := Io (from_raw_os_error ECHILD).

(** ** Looks and signals, through the handle *)

(** [state_of] a backend whose tokio child is unreaped: a peek; on macOS without a unique id nothing
    shows that the pid still names the child, and the answer is known; it is recorded all the same. *)
Definition look (known : option RootState) : Hist ChildCalls.Ev RootState :=
  call (fun h => default (of_peek (ChildCalls.peek_answer h)) known) (LookState false).

Definition state_of (p : ProcSource) : Hist ChildCalls.Ev RootState :=
  match p with
  | ForeignSrc _ _ _ => ret (RootReaped false)
  | Tokio _ _ identity =>
      match platform, identity with
      | Macos, None => look (Some (RootUnknown (io_new Other)))
      | _, _ => look None
      end
  end.

Definition state (p : ProcSource) : Hist ChildCalls.Ev RootState :=
  match p with
  | ForeignSrc _ ElsewhereReaped _ => ret (RootReaped false)
  | ForeignSrc _ HeldByLaunchd _ => ret Unpinned
  | ForeignSrc _ Unproven _ => ret (RootUnknown (io_new Other))
  | Tokio (Some _) _ _ => ret (RootReaped true)
  | Tokio None _ _ => state_of p
  end.

(** [elsewhere]: the state of a child that is not shown ours. *)
Definition is_unreaped (s : RootState) : bool := match s with Unreaped => true | _ => false end.

Definition elsewhere (p : ProcSource) : Hist ChildCalls.Ev (option RootState) :=
  match p with
  | Tokio None _ _ => do! s := state_of p in ret (if is_unreaped s then None else Some s)
  | _ => ret None
  end.

(** A send through the handle: it is delivered, or the child is gone. *)
Definition send (sig : Sig) : Hist ChildCalls.Ev (result Error Sent) :=
  call (fun h => match signal_answer h sig with Ok Unverified => Ok SentGone | r => r end) (SignalRoot false sig).

(** [signal]: by pidfd on Linux, by audit token on macOS, where a child without a unique id is sent
    nothing. *)
Definition signal (p : ProcSource) (sig : Sig) : Hist ChildCalls.Ev (result Error Sent) :=
  match p with
  | ForeignSrc _ fate known =>
      match platform, fate, known with
      | Linux, Unproven, true => send sig
      | _, _, _ => ret (Ok (if gone fate then SentGone else Unverified))
      end
  | Tokio (Some _) _ _ => ret (Ok SentGone)
  | Tokio None _ identity =>
      match platform, identity with
      | Macos, None => ret (Ok Unverified)
      | _, _ => send sig
      end
  end.

(** [is_reaped]. *)
Definition src_is_reaped (p : ProcSource) : bool :=
  match p with Tokio c _ _ => bool_decide (is_Some c) | ForeignSrc _ _ _ => true end.

Definition is_running (p : ProcSource) : Hist ChildCalls.Ev (result IoError bool) :=
  match platform, p with
  | Linux, ForeignSrc _ Unproven _ => root_running
  | _, _ =>
      if src_is_reaped p then ret (Ok false)
      else
        match platform, p with
        | Macos, Tokio _ _ None => ret (Err (io_new Other))
        | _, _ => root_running
        end
  end.

Definition holds_unreaped_child (p : ProcSource) : bool := match p with Tokio None _ _ => true | _ => false end.

Definition forgot_unproven (p : ProcSource) : bool := match p with ForeignSrc _ Unproven _ => true | _ => false end.

Definition forgotten_fate (id : option ProcessId) (p : ProcSource) : option ChildFate :=
  match p with ForeignSrc _ f _ => Some (if gone f then FateGone else Running id) | _ => None end.

(** ** Forgetting *)

(** [forget_quietly]: whether it forgot. *)
Definition forget_quietly (fate : Forgotten) (p : ProcSource) : T (bool * ProcSource) :=
  match p with
  | ForeignSrc _ _ _ => ret (false, p)
  | Tokio c st _ => do! _ := note ForgetTokio in ret (true, ForeignSrc st fate (negb (bool_decide (is_Some c))))
  end.

(** [forget_noting]. *)
Definition forget_noting (fate : Forgotten) (p : ProcSource) : T (bool * ProcSource) :=
  do2! f, p' := forget_quietly fate p in
  do! _ := (if f : bool then note WarnForgot else ret tt) in
  ret (f, p').

(** [forget_for]. *)
Definition forget_for (v : DropView) (p : ProcSource) : T (option Forgot * ProcSource) :=
  let forget := fun now =>
    do2! f, p' := forget_quietly match now with None => ElsewhereReaped | Some s => of_state s end p in
    ret (if f : bool then Some (forgot now false) else None, p') in
  match view_root v with
  | ViewReaped => if holds_unreaped_child p then forget None else ret (None, p)
  | _ =>
      do! s := own (elsewhere p) in
      match s with Some s => forget (Some s) | None => ret (None, p) end
  end.

(** [forget_for_wait]. *)
Definition forget_for_wait (w : WaitedFor) (because : bool) (p : ProcSource) : T (option Forgot * ProcSource) :=
  match forgotten w with
  | None => ret (None, p)
  | Some fate =>
      do2! f, p' := forget_quietly fate p in
      ret (if f : bool then Some (forgot None because) else None, p')
  end.

(** [forget_if_foreign], and [forget_if_foreign_quietly], which answers what became of the child. *)
Definition forget_if_foreign (p : ProcSource) : T ProcSource :=
  do! s := own (elsewhere p) in
  match s with Some s => do! r := forget_noting (of_state s) p in ret r.2 | None => ret p end.

Definition forget_if_foreign_quietly (id : option ProcessId) (p : ProcSource) : T (option ChildFate * ProcSource) :=
  do! s := own (elsewhere p) in
  match s with
  | None => ret (None, p)
  | Some s =>
      do2! f, p' := forget_quietly (of_state s) p in
      ret (if f : bool then Some (if gone (of_state s) then FateGone else Running id) else None, p')
  end.

(** ** Collecting the status *)

(** tokio's own [try_wait]: it answers the status it holds, and else asks [waitpid] by pid. *)
Definition tokio_try_wait (p : ProcSource) : T (result IoError (option Z) * ProcSource) :=
  match p with
  | ForeignSrc _ _ _ => ret (Ok None, p)
  | Tokio (Some status) _ _ => ret (Ok (Some status), p)
  | Tokio None st identity =>
      do! a := call try_wait_answer TryWait in
      ret (a, match a with Ok (Some status) => Tokio (Some status) st identity | _ => p end)
  end.

(** [refuse]. *)
Definition refuse (s : RootState) (p : ProcSource) : T (Error * ProcSource) :=
  match s with
  | RootUnknown e => ret (Unassessable (Some e), p)
  | Unpinned => ret (Unassessable None, p)
  | RootReaped _ | Unreaped => do! r := forget_noting ElsewhereReaped p in ret (gone_error, r.2)
  end.

(** [gate]. *)
Definition gate (p : ProcSource) : T (option Error * ProcSource) :=
  match p with
  | Tokio None _ _ =>
      do! s := own (state_of p) in
      if is_unreaped s then ret (None, p) else do2! e, p' := refuse s p in ret (Some e, p')
  | _ => ret (None, p)
  end.

Definition try_wait (p : ProcSource) : T (result Error (option Z) * ProcSource) :=
  do2! refused, p := gate p in
  match refused with
  | Some e => ret (Err e, p)
  | None =>
      match p with
      | ForeignSrc _ _ _ => ret (Err gone_error, p)
      | Tokio _ _ _ =>
          do2! r, p := tokio_try_wait p in
          ret (match r with Ok o => Ok o | Err e => Err (Io e) end, p)
      end
  end.

(** [reap_after_look]: [None] while there is nothing to reap. *)
Definition reap_after_look (looked : result IoError PeekOutcome) (p : ProcSource) : T (option (result Halt Z) * ProcSource) :=
  match looked with
  | Ok (PeekExit _) =>
      do2! r, p := tokio_try_wait p in
      ret (Some match r with
                | Ok (Some status) => Ok status
                | Ok None => Err ReapedBetween
                | Err e => if bool_decide (raw_os_error e = Some ECHILD) then Err ReapedBetween else Err (HaltReapFailed e)
                end, p)
  | Ok PeekRunning => ret (None, p)
  | other => ret (Some (Err (HaltState (of_peek other))), p)
  end.

(** The looks of [reap_on_events] on Linux, and of [look_on_events]: [None] is a future dropped before
    it ended, having been woken [n] times. *)
Fixpoint looks_linux (n : nat) (p : ProcSource) : T (option (result Halt Z) * ProcSource) :=
  match n with
  | O => ret (None, p)
  | S n =>
      do! ready := call wake_answer AwaitWake in
      match ready with
      | Err e => ret (Some (Err (HaltWatch e)), p)
      | Ok _ =>
          do! looked := own (call ChildCalls.peek_answer LookExit) in
          do2! r, p := reap_after_look looked p in
          match r with Some _ => ret (r, p) | None => looks_linux n p end
      end
  end.

Definition held_by (held : bool) : T (option (option Halt)) :=
  if held then
    do! a := call held_by_answer HeldBy in
    ret match a with
        | LookAgain => None
        | KeepWaiting => Some None
        | HeldIdentity e => Some (Some (HaltState (RootUnknown e)))
        | HeldWatch e => Some (Some (HaltWatch (Io e)))
        end
  else ret (Some None).

Fixpoint look_on_events (n : nat) (p : ProcSource) : T (option (result Halt Z) * ProcSource) :=
  match n with
  | O => ret (None, p)
  | S n =>
      do! reaped := call note_reap_answer NoteReap in
      match reaped with
      | Err e => ret (Some (Err (HaltWatch e)), p)
      | Ok true => ret (Some (Err (HaltState (RootReaped false))), p)
      | Ok false =>
          do! a := call traced_answer LookTraced in
          do2! r, p := reap_after_look a.1 p in
          match r with
          | Some _ => ret (r, p)
          | None =>
              do! holder := held_by match a.1 with Ok _ => a.2 | Err _ => false end in
              match holder with
              | None => look_on_events n p
              | Some (Some halt) => ret (Some (Err halt), p)
              | Some None =>
                  do! woken := call wake_answer AwaitWake in
                  match woken with
                  | Err e => ret (Some (Err (HaltWatch e)), p)
                  | Ok _ => look_on_events n p
                  end
              end
          end
      end
  end.

(** [reap_on_events]. *)
Definition reap_on_events (n : nat) (p : ProcSource) : T (option (result Halt Z) * ProcSource) :=
  match p with
  | ForeignSrc _ _ _ => do! s := own (state p) in ret (Some (Err (HaltState s)), p)
  | Tokio (Some status) _ _ => ret (Some (Ok status), p)
  | Tokio None _ identity =>
      match platform, identity with
      | Macos, None => do! s := own (state_of p) in ret (Some (Err (HaltState s)), p)
      | _, _ =>
          do! armed := call arm_answer ArmWatch in
          match armed with
          | Err e => ret (Some (Err (HaltWatch e)), p)
          | Ok _ => match platform with Linux => looks_linux n p | Macos => look_on_events n p end
          end
      end
  end.

Definition close_stdin (p : ProcSource) : ProcSource :=
  match p with Tokio c st i => Tokio c (streams false (stdout st) (stderr st)) i | _ => p end.

(** [wait]: [None] is a future dropped before it ended. *)
Definition wait (n : nat) (p : ProcSource) : T (option (result Error Z) * ProcSource) :=
  match p with
  | ForeignSrc _ _ _ => ret (Some (Err gone_error), p)
  | Tokio _ _ _ =>
      do2! refused, p := gate (close_stdin p) in
      match refused with
      | Some e => ret (Some (Err e), p)
      | None =>
          do2! r, p := reap_on_events n p in
          match r with
          | None => ret (None, p)
          | Some (Ok status) => ret (Some (Ok status), p)
          | Some (Err (HaltState s)) => do2! e, p := refuse s p in ret (Some (Err e), p)
          | Some (Err ReapedBetween) => do! f := forget_noting ElsewhereReaped p in ret (Some (Err gone_error), f.2)
          | Some (Err (HaltReapFailed e)) => ret (Some (Err (Io e)), p)
          | Some (Err (HaltWatch e)) => ret (Some (Err e), p)
          end
      end
  end.

(** [verdict_of]. *)
Definition verdict_of (s : RootState) : WaitedFor :=
  match s with
  | Unreaped | RootReaped _ => ForForeign
  | Unpinned => match platform with Macos => ForOrphaned | Linux => ForUnverified end
  | RootUnknown _ => ForUnverified
  end.

(** [wait_and_reap_awaiting]. *)
Definition wait_and_reap_awaiting (n : nat) (p : ProcSource) : T (option (result Error WaitedFor) * ProcSource) :=
  do2! r, p := reap_on_events n p in
  ret (match r with
       | None => None
       | Some (Ok _) => Some (Ok ForExited)
       | Some (Err (HaltState s)) => Some (Ok (verdict_of s))
       | Some (Err ReapedBetween) => Some (Ok ForForeign)
       | Some (Err (HaltReapFailed _)) => Some (Ok ForUnverified)
       | Some (Err (HaltWatch e)) => Some (Err e)
       end, p).

(** ** Blocking *)

(** [exit_visible_by]: a look that ends at a deadline. *)
Definition exit_visible_by (p : ProcSource) : T bool :=
  match platform, p with
  | _, ForeignSrc _ _ _ | Macos, Tokio _ _ None => ret true
  | _, _ => call sees_exit_answer SeesExit
  end.

(** [wait_on_pidfd] and [wait_reapable]. *)
Definition wait_on_pidfd : T WaitedFor :=
  do! a := call block_answer BlockWait in
  ret match a with
      | Ok (PeekExit _) => ForExited
      | Ok (PeekForeign _) => ForForeign
      | Ok PeekRunning | Err _ => ForUnverified
      end.

Definition wait_reapable : T WaitedFor :=
  do! a := call reapable_answer AwaitReapable in
  ret match a with
      | Ok Reapable => ForExited
      | Ok WaitedGone => ForForeign
      | Ok WaitedOrphaned => ForOrphaned
      | Ok WaitedDeadlinePassed | Err _ => ForUnverified
      end.

(** [wait_and_reap_caused]: the verdict, and whether there is a cause. *)
Definition wait_and_reap_caused (p : ProcSource) : T (WaitedFor * bool) :=
  match p with
  | ForeignSrc _ _ _ => ret (ForUnverified, false)
  | Tokio (Some _) _ _ => ret (ForExited, false)
  | Tokio None _ identity =>
      match platform, identity with
      | Linux, _ => do! w := wait_on_pidfd in ret (w, negb (bool_decide (w = ForExited)))
      | Macos, None => do! _ := own (state_of p) in ret (ForUnverified, true)
      | Macos, Some _ => do! w := wait_reapable in ret (w, negb (bool_decide (w = ForExited)))
      end
  end.

(** The wait of a teardown: [late] says that it has a threshold to warn at. *)
Definition waited_warning (late : bool) (p : ProcSource) : T (WaitedFor * bool) :=
  wait_warning late (exit_visible_by p) (note WarnLate) (wait_and_reap_caused p).

(** [collect_exit]. *)
Definition collect_exit (id : option ProcessId) (p : ProcSource) : T (ChildFate * ProcSource) :=
  do2! r, p := tokio_try_wait p in
  ret (fate_of_a_look match r with Ok s => Ok s | Err e => Err (raw_os_error e) end id, p).

(** ** Consuming the backend *)

Definition release (p : ProcSource) : T unit :=
  match p with Tokio _ _ _ => note DropTokio | ForeignSrc _ _ _ => ret tt end.

(** The backend's own drop, with neither done before it. *)
Definition drop_source (p : ProcSource) : T unit :=
  match p with
  | ForeignSrc _ _ _ => ret tt
  | Tokio (Some _) _ _ => note DropTokio
  | Tokio None _ _ =>
      do! s := own (state_of p) in
      note (if is_unreaped s then DropTokio else ForgetTokio)
  end.

(** [hand_to_pidfd_reaper]: Linux. *)
Definition hand_to_pidfd_reaper (p : ProcSource) : T (option ChildFate) :=
  do2! f, _ := forget_quietly Unproven p in
  if f : bool then do! fate := call hand_over_answer HandOver in ret (Some fate) else ret None.

(** [after_refused_kill]. *)
Definition after_refused_kill (handed forgot : option ChildFate) (id : option ProcessId) : ChildFate :=
  match handed, forgot with
  | Some fate, _ | None, Some fate => fate
  | None, None => Running id
  end.

Definition refused_kill (id : option ProcessId) (p : ProcSource) : T ChildFate :=
  do2! foreign, p := forget_if_foreign_quietly id p in
  do! handed := match platform with
                | Linux => hand_to_pidfd_reaper p
                | Macos => do! _ := release p in ret None
                end in
  do! _ := note WarnRefused in
  ret (after_refused_kill handed foreign id).

(** [reap_now_noting]. *)
Definition reap_now_noting (id : option ProcessId) (late : bool) (p : ProcSource) : T ChildFate :=
  do! killed := own (signal p SigKill) in
  match killed with
  | Err _ => refused_kill id p
  | Ok sent =>
      do2! waited, _ := waited_warning late p in
      do2! fate, p :=
        match waited with
        | ForExited => collect_exit id p
        | ForUnverified => ret (if bool_decide (sent = Delivered) then Killed else Running id, p)
        | _ => ret (foreign_fate ForeignGone (bool_decide (sent = Delivered)), p)
        end in
      do! p := match forgotten waited with
               | Some f => do! r := forget_noting f p in ret r.2
               | None => ret p
               end in
      do! _ := release p in
      ret fate
  end.

(** [teardown_through_pidfd]: Linux. *)
Definition teardown_through_pidfd (id : option ProcessId) (late : bool) (p : ProcSource) : T ChildFate :=
  do! killed := own (signal p SigKill) in
  match killed with
  | Err _ =>
      do2! foreign, p := forget_if_foreign_quietly id p in
      do! handed := hand_to_pidfd_reaper p in
      do! _ := note WarnRefused in
      ret (after_refused_kill handed foreign id)
  | Ok sent =>
      do! reaped := wait_warning late (exit_visible_by p) (note WarnLate) (call reap_pidfd_answer ReapPidfd) in
      do! _ := forget_noting Unproven p in
      ret match reaped with
          | Ok (Ok _) => Reaped_
          | Ok (Err foreign) => foreign_fate foreign (bool_decide (sent = Delivered))
          | Err _ => Killed
          end
  end.

(** [leave_front_noting]: Linux. *)
Definition leave_front_noting (p : ProcSource) : T (FrontFate * ChildFate) :=
  do! s := own (elsewhere p) in
  match s with
  | Some s =>
      do! _ := forget_quietly (of_state s) p in
      ret (FrontUnaccounted, match s with RootUnknown _ => FateUnknown | _ => FateGone end)
  | None =>
      match p with
      | ForeignSrc _ _ _ => ret (FrontUnaccounted, FateUnknown)
      | Tokio _ _ _ =>
          do! _ := forget_quietly Unproven p in
          call leave_front_answer LeaveFront
      end
  end.

End ProcSource.
