(* ===== verification/ProcPolicy.v ===== *)
(** When tokio's [Child] may act by its pid, and what becomes of it: the protocol of ProcSource's calls,
    whatever the system answers, as an automaton; and that each operation of the backend keeps to it. *)
From S2P Require Import Prelude Identity IoErrors CrateError History LeafEnd LateTeardown OsChild ChildCalls OwnedTeardown TreeCall ProcSource.
Local Open Scope Z_scope.

(** Where tokio's [Child] is: held, with a status to collect or collected; given to its own drop; or
    forgotten, where [Owed] is a child shown ours that a teardown must still be handed. *)
Inductive Place := HoldsChild | Collected | Dropped | ForgottenChild | Owed.

(** What the last look through the handle said: the child is ours, and maybe has an exit to collect; tokio
    was asked for that exit since, and had none; or the child is not shown ours. *)
Inductive Look := Shown (exit : bool) | AskedSince | NotShown.

#[export] Instance Place_eq_dec : EqDecision Place.
Proof. solve_decision. Defined.
#[export] Instance Look_eq_dec : EqDecision Look.
Proof. solve_decision. Defined.

Definition is_shown (l : Look) : bool := match l with Shown _ => true | _ => false end.
#[global] Arguments is_shown : simpl never.
Definition not_denied (l : Look) : bool := match l with NotShown => false | _ => true end.
Definition asked (l : Look) : Look := match l with Shown false => Shown false | _ => AskedSince end.

(** [ours]: what the last look said. [number]: the root's number, last
    read, did not name another process. [ended]: the root is known killed, or gone. [reaped]: a status was
    collected. [leaf_killed]: the last kill of the leaf was taken. [given_up]: the mechanism of the tree was
    released. *)
Record St := st { place : Place; ours : Look; number : bool; ended : bool; reaped : bool; leaf_killed : bool; given_up : bool }.

Definition set_place (x : Place) (s : St) : St := st x (ours s) (number s) (ended s) (reaped s) (leaf_killed s) (given_up s).
Definition set_ours (l : Look) (e : bool) (s : St) : St :=
  st (place s) l (number s) (ended s || e) (reaped s) (leaf_killed s) (given_up s).
Definition set_ended (b : bool) (s : St) : St :=
  st (place s) (ours s) (number s) (ended s || b) (reaped s) (leaf_killed s) (given_up s).

Definition shows_ours (a : result IoError PeekOutcome) : Look :=
  match a with Ok (PeekExit _) => Shown true | Ok PeekRunning => Shown false | _ => NotShown end.
Definition shown_if (exit b : bool) : Look := if b then Shown exit else NotShown.
Definition shows_exit (a : result IoError PeekOutcome) : bool := match a with Ok (PeekExit _ | PeekForeign _) => true | _ => false end.

Definition is_killed (f : ChildFate) : bool := match f with Killed => true | _ => false end.
Definition is_reaped_fate (f : ChildFate) : bool := match f with Reaped_ => true | _ => false end.

(** The backend is gone: dropped or forgotten, with nothing owed. *)
Definition is_away (x : Place) : bool := match x with Dropped | ForgottenChild => true | _ => false end.

Section Policy.
  Context `{ChildCalls.Sys} `{TokioSys}.
  (** The child's identity. *)
  Variable me : ProcessId.

Definition still_named (a : Resolved ProcessId) : bool :=
  match a with Found n => bool_decide (n = me) | Gone => false | Identity.Unknown => true end.

(** The calls of ChildCalls. A signal goes through the handle: a forgotten child keeps its pidfd on Linux
    alone. *)
Definition own_step (s : St) (e : ChildCalls.Ev) : option St :=
  match e with
  | LookState _ a => Some (set_ours (shown_if false (is_unreaped a)) match a with RootReaped _ | Unpinned => true | _ => false end s)
  | LookExit a => Some (set_ours (shows_ours a) (shows_exit a) s)
  | SignalRoot _ sig a =>
      if bool_decide (place s = HoldsChild) || (bool_decide (place s = ForgottenChild) && bool_decide (platform = Linux)) then
        Some (set_ended match sig, a with SigKill, Ok (Delivered | SentGone) => true | _, _ => false end s)
      else None
  | ReadNumber a =>
      Some (st (place s) (ours s) (still_named a) (ended s || negb (still_named a)) (reaped s) (leaf_killed s) (given_up s))
  | SendTree m sig a =>
      if given_up s then None
      else
        Some (match m, sig with
              | Cgroup, TKill =>
                  st (place s) (ours s) (number s) (ended s) (reaped s) (match a with Ok _ => true | Err _ => false end) (given_up s)
              | _, _ => s
              end)
  | LeafNames a => Some (set_ended match a with Ok b => b | Err _ => false end s)
  | _ => Some s
  end.

(** By its pid, tokio's [try_wait] collects a child only after a look through the handle showed it ours; its
    drop, which collects too, also runs where tokio was asked since that look and had nothing, but not
    where the number names another process. A child shown ours is forgotten only for a teardown
    through its pidfd. What blocks is a child known to be killed or gone; the mechanism is released once,
    after the backend, and with a wait for the drain only if the kill that bounds it was taken. *)
Definition step (s : St) (e : Ev) : option St :=
  match e with
  | Own e => own_step s e
  | TryWait a =>
      if bool_decide (place s = HoldsChild) && is_shown (ours s) then
        Some match a with
             | Ok (Some _) => st Collected (ours s) (number s) true true (leaf_killed s) (given_up s)
             | _ => set_ours (asked (ours s)) false s
             end
      else None
  | ForgetTokio =>
      match place s with
      | HoldsChild => Some (set_place (if is_shown (ours s) && number s then Owed else ForgottenChild) s)
      | Collected => Some (set_place ForgottenChild s)
      | _ => None
      end
  | DropTokio =>
      match place s with
      | Collected => Some (set_place Dropped s)
      | HoldsChild => if not_denied (ours s) && number s then Some (set_place Dropped s) else None
      | _ => None
      end
  | NoteReap a => Some match a with Ok true => set_ours NotShown true s | _ => s end
  | LookTraced a => Some (set_ours (shows_ours a.1) (shows_exit a.1) s)
  | BlockWait a =>
      if bool_decide (place s = HoldsChild) && ended s then
        Some (set_ours (shown_if true match a with Ok (PeekExit _) => true | _ => false end) false s)
      else None
  | AwaitReapable a =>
      if bool_decide (place s = HoldsChild) && ended s then
        Some (set_ours (shown_if true match a with Ok Reapable => true | _ => false end) false s)
      else None
  | ReapPidfd a =>
      if bool_decide (place s = HoldsChild) && ended s then
        Some (st (place s) NotShown (number s) true (reaped s || match a with Ok (Ok _) => true | _ => false end) (leaf_killed s) (given_up s))
      else None
  | HandOver f | LeaveFront (_, f) =>
      match place s with
      | Owed | ForgottenChild =>
          Some (st ForgottenChild (ours s) (number s) (ended s || is_killed f) (reaped s || is_reaped_fate f)
                  (leaf_killed s) (given_up s))
      | _ => None
      end
  | ReleaseTree _ =>
      if is_away (place s) && negb (given_up s) then
        Some (st (place s) (ours s) (number s) (ended s) (reaped s) (leaf_killed s) true)
      else None
  | AwaitDrain _ => if is_away (place s) && ended s && leaf_killed s then Some s else None
  | DropAfterDrain m =>
      if is_away (place s) && negb (given_up s) && ended s && (leaf_killed s || negb (is_cgroup m)) then
        Some (st (place s) (ours s) (number s) (ended s) (reaped s) (leaf_killed s) true)
      else None
  | HeldBy a => Some match a with HeldIdentity _ => set_ours NotShown false s | _ => s end
  | ArmWatch _ | AwaitWake _ | SeesExit _ | WarnLate | WarnForgot | WarnRefused | TermById _ => Some s
  end.

Notation keeps := (keeps step).
Notation okeeps := (History.keeps own_step).

(** ** The calls of ChildCalls *)

Lemma keeps_own {A} s (m : Hist ChildCalls.Ev A) Q : okeeps s m Q -> keeps s (own m) Q.
Proof.
  intros Hm. eapply keeps_mono; [exact (keeps_embed Own own_ev own_step step (fun s => s) s m Q (fun _ _ _ H => H) Hm)|].
  by intros a s' (s1 & -> & HQ).
Qed.

(** What calls leave alone that are no part of a teardown. *)
Record calm (s s' : St) : Prop := {
  calm_place : place s' = place s;
  calm_ended : ended s = true -> ended s' = true;
  calm_reaped : reaped s' = reaped s;
  calm_given : given_up s' = given_up s }.

Lemma calm_refl s : calm s s.
Proof. by split. Qed.

Lemma calm_trans s1 s2 s3 : calm s1 s2 -> calm s2 s3 -> calm s1 s3.
Proof. intros [A1 A2 A3 A4] [B1 B2 B3 B4]. split; [congruence|auto|congruence|congruence]. Qed.

Lemma calm_ours b e s : calm s (set_ours b e s).
Proof. split; cbn; try done. by intros ->. Qed.

Lemma calm_set_ended b s : calm s (set_ended b s).
Proof. split; cbn; try done. by intros ->. Qed.

(** A signal may go through the handle. *)
Definition may_send (s : St) : Prop := place s = HoldsChild \/ (place s = ForgottenChild /\ platform = Linux).

(** All calls but a signal of the root; and those, where one may be sent. *)
Definition allowed (sends : bool) (e : ChildCalls.Ev) : bool := match e with SignalRoot _ _ _ => sends | _ => true end.

Lemma own_step_calm (sends : bool) s e : given_up s = false -> (sends = true -> may_send s) -> allowed sends e = true ->
  exists s', own_step s e = Some s' /\ calm s s'.
Proof.
  intros Hg Hs He. destruct e; cbn in He |- *; rewrite ?Hg;
    try (eexists; split; [reflexivity|]; apply calm_refl || apply calm_ours || apply calm_set_ended).
  - assert (Hm : may_send s) by auto. assert (Hb : bool_decide (place s = HoldsChild) || (bool_decide (place s = ForgottenChild) && bool_decide (platform = Linux)) = true).
    { destruct Hm as [E|[E1 E2]]; [by rewrite E|by rewrite E1, E2]. }
    rewrite Hb. eexists. split; [reflexivity|]. apply calm_set_ended.
  - eexists. split; [reflexivity|]. split; cbn; try done. by intros ->.
  - eexists. split; [reflexivity|]. destruct m, s0; by split.
Qed.

Lemma keeps_calm {A} (sends : bool) s (m : Hist ChildCalls.Ev A) :
  only (allowed sends) m -> given_up s = false -> (sends = true -> may_send s) -> okeeps s m (fun _ s' => calm s s').
Proof.
  intros Hm Hg Hs. apply (only_keeps (allowed sends) own_step (fun s' => calm s s')); [done|apply calm_refl|].
  intros s1 e Hc He. destruct (own_step_calm sends s1 e) as (s' & Hst & Hc'); [by rewrite (calm_given _ _ Hc)| |done|].
  - intros Hb. unfold may_send. rewrite (calm_place _ _ Hc). by apply Hs.
  - exists s'. split; [done|by eapply calm_trans].
Qed.

(** ** The backend *)

(** The backend is as the state has it. *)
Definition matches (p : ProcSource) (s : St) : Prop :=
  match p with
  | Tokio None _ _ => place s = HoldsChild
  | Tokio (Some _) _ _ => place s = Collected /\ reaped s = true /\ ended s = true
  | ForeignSrc _ f _ => place s = ForgottenChild /\ (gone f = true -> ended s = true)
  end.

Lemma matches_calm p s s' : calm s s' -> matches p s -> matches p s'.
Proof. intros [Hp He Hr _]. destruct p as [[c|] st i|st f k]; cbn; rewrite ?Hp, ?Hr; intuition. Qed.

(** A backend's operation: it stays as the state has it; what is ended or collected stays so. *)
Record moves (s s' : St) : Prop := {
  moves_ended : ended s = true -> ended s' = true;
  moves_reaped : reaped s = true -> reaped s' = true;
  moves_number : number s' = number s;
  moves_leaf : leaf_killed s' = leaf_killed s;
  moves_given : given_up s' = given_up s;
  moves_held : place s' = HoldsChild -> place s = HoldsChild }.

Lemma moves_refl s : moves s s.
Proof. by split. Qed.

Lemma moves_trans s1 s2 s3 : moves s1 s2 -> moves s2 s3 -> moves s1 s3.
Proof. intros [A1 A2 A3 A4 A5 A6] [B1 B2 B3 B4 B5 B6]. split; auto; congruence. Qed.

Lemma moves_ours b e s : moves s (set_ours b e s).
Proof. split; cbn; try done. by intros ->. Qed.

Lemma moves_place x s : x <> HoldsChild -> moves s (set_place x s).
Proof. by split. Qed.

#[local] Hint Resolve moves_refl moves_trans moves_ours moves_place : core.
#[local] Hint Extern 1 (_ <> HoldsChild) => discriminate : core.

(** A look at a child that is held. *)
Record looked (s : St) (a : RootState) (s' : St) : Prop := {
  looked_moves : moves s s';
  looked_place : place s' = place s;
  looked_reaped : reaped s' = reaped s;
  looked_ours : ours s' = shown_if false (is_unreaped a);
  looked_ended : match a with RootReaped _ | Unpinned => ended s' = true | _ => True end }.

Lemma look_keeps known s : okeeps s (look known) (fun a s' => looked s a s').
Proof.
  unfold look. keeps_step. eexists. split; [reflexivity|]. split; cbn; auto.
  destruct a; try done; by rewrite orb_true_r.
Qed.

Lemma state_of_keeps p s : holds_unreaped_child p = true -> okeeps s (state_of p) (fun a s' => looked s a s').
Proof. destruct p as [[c|] t i|]; try done. intros _. unfold state_of. destruct platform, i; apply look_keeps. Qed.

Lemma matches_held p s : matches p s -> holds_unreaped_child p = true <-> place s = HoldsChild.
Proof. destruct p as [[c|] t i|t f k]; cbn; [intros [-> _]|intros ->|intros [-> _]]; done. Qed.

Lemma matches_looked p s a s' : looked s a s' -> matches p s -> matches p s'.
Proof. intros [M Hp Hr _ _]. pose proof (moves_ended _ _ M). destruct p as [[c|] t i|t f k]; cbn; rewrite ?Hp, ?Hr; intuition. Qed.

(** [elsewhere]: where it says nothing, a child that is held was shown ours. *)
Lemma elsewhere_keeps p s : matches p s ->
  okeeps s (elsewhere p) (fun a s' => moves s s' /\ matches p s'
    /\ (holds_unreaped_child p = false -> a = None /\ s' = s)
    /\ (holds_unreaped_child p = true -> ours s' = shown_if false (negb (bool_decide (is_Some a))))
    /\ (match a with Some x => is_unreaped x = false /\ holds_unreaped_child p = true
          /\ (gone (of_state x) = true -> ended s' = true) | None => True end)).
Proof.
  intros Hm. unfold elsewhere. destruct p as [[c|] t i|t f k]; [by keeps_step; split_and!; auto| |by keeps_step; split_and!; auto].
  keeps_step. keeps_use state_of_keeps; [done|]. intros a s' Hl. keeps_step.
  split_and!; [apply Hl|by eapply matches_looked|done| |].
  - intros _. rewrite (looked_ours _ _ _ Hl). by destruct a.
  - pose proof (looked_ended _ _ _ Hl). by destruct a.
Qed.

(** Forgetting a child not shown ours. *)
Lemma forget_quietly_keeps fate p s : matches p s -> (place s = HoldsChild -> is_shown (ours s) && number s = false) ->
  (gone fate = true -> ended s = true) ->
  keeps s (forget_quietly fate p) (fun r s' => moves s s' /\ matches r.2 s' /\ holds_unreaped_child r.2 = false
    /\ place s' = ForgottenChild /\ (holds_unreaped_child p = true -> r.1 = true)).
Proof.
  intros Hm Ho Hg. unfold forget_quietly. destruct p as [[c|] t i|t f k]; cbn in Hm.
  - destruct Hm as [Hp Hr]. keeps_step. eapply keeps_note; [cbn; by rewrite Hp|]. keeps_step. by split_and!; [auto|..].
  - keeps_step. eapply keeps_note; [cbn; by rewrite Hm, (Ho Hm)|]. keeps_step. by split_and!; [auto|..].
  - keeps_step. destruct Hm. by split_and!; auto.
Qed.

Lemma forget_noting_keeps fate p s : matches p s -> (place s = HoldsChild -> is_shown (ours s) && number s = false) ->
  (gone fate = true -> ended s = true) ->
  keeps s (forget_noting fate p) (fun r s' => moves s s' /\ matches r.2 s' /\ holds_unreaped_child r.2 = false /\ place s' = ForgottenChild).
Proof.
  intros Hm Ho Hg. unfold forget_noting. keeps_step. keeps_use forget_quietly_keeps; [done..|]. intros [f p'] s' (M & Mt & Hh & Hp & _).
  cbn. destruct f; keeps_go; by split_and!.
Qed.

(** What [forget_for] leaves: nothing that is held is not shown ours. *)
Lemma forget_for_keeps v p s : matches p s -> (view_root v = ViewReaped -> place s = HoldsChild -> is_shown (ours s) && number s = false) ->
  (view_root v = ViewReaped -> ended s = true) ->
  keeps s (forget_for v p) (fun r s' => moves s s' /\ matches r.2 s'
    /\ (holds_unreaped_child r.2 = true -> ours s' = Shown false /\ view_root v <> ViewReaped)
    /\ match r.1 with
       | Some f => place s' = ForgottenChild /\ (reaped_elsewhere f = true -> ended s' = true)
       | None => match p with Tokio None _ _ => r.2 = p | _ => r.2 = p /\ s' = s end
       end).
Proof.
  intros Hm Hv Hve. unfold forget_for.
  assert (Hrest : view_root v <> ViewReaped ->
    keeps s (do! s0 := own (elsewhere p) in
      match s0 with
      | Some s1 => do2! f, p' := forget_quietly (of_state s1) p in ret (if f : bool then Some (forgot (Some s1) false) else None, p')
      | None => ret (None, p)
      end)
      (fun r s' => moves s s' /\ matches r.2 s' /\ (holds_unreaped_child r.2 = true -> ours s' = Shown false /\ view_root v <> ViewReaped)
        /\ match r.1 with
           | Some f => place s' = ForgottenChild /\ (reaped_elsewhere f = true -> ended s' = true)
           | None => match p with Tokio None _ _ => r.2 = p | _ => r.2 = p /\ s' = s end
           end)).
  { intros Hn. keeps_step. apply keeps_own. keeps_use elsewhere_keeps; [done|]. intros a s1 (M & Mt & Hno & Ho & Ha).
    destruct a as [x|].
    - destruct Ha as (Hx & Hh & He). specialize (Ho Hh). cbn in Ho. keeps_step. keeps_use forget_quietly_keeps; [done|by rewrite Ho|done|].
      intros [f p'] s2 (M2 & Mt2 & Hh2 & Hp2 & Hf2). keeps_step. cbn in *. rewrite (Hf2 Hh). split_and!; [eauto|done|by rewrite Hh2|done|].
      intros Hre. apply (moves_ended _ _ M2), He. by destruct x.
    - keeps_step. cbn. split_and!; [done|done|intros Hh; split; [by rewrite (Ho Hh)|done]|].
      destruct p as [[c|] t i|t f k]; [|done|]; by destruct (Hno eq_refl) as [_ ->]. }
  destruct (view_root v) eqn:Ev; try (apply Hrest; congruence).
  destruct (holds_unreaped_child p) eqn:Eh.
  - keeps_step. keeps_use forget_quietly_keeps; [done|by intros; apply Hv|by intros; apply Hve|]. intros [f p'] s2 (M2 & Mt2 & Hh2 & Hp2 & Hf2). keeps_step. cbn in *.
    rewrite (Hf2 Eh). split_and!; [done|done|by rewrite Hh2|done|]. intros _. apply (moves_ended _ _ M2). by apply Hve.
  - keeps_step. cbn. split_and!; [auto|done|by rewrite Eh|]. by destruct p as [[c|] t i|t f k].
Qed.

Lemma matches_ours p l b s : matches p s -> matches p (set_ours l b s).
Proof. destruct p as [[c|] t i|t f k]; cbn; intuition (auto; try by apply orb_true_intro; left). Qed.

#[local] Hint Resolve matches_ours : core.

(** tokio's [try_wait]. *)
Lemma tokio_try_wait_keeps p s : matches p s -> (place s = HoldsChild -> is_shown (ours s) = true) ->
  keeps s (tokio_try_wait p) (fun r s' => moves s s' /\ matches r.2 s'
    /\ match r.1 with
       | Ok (Some _) => reaped s' = true /\ place s' = Collected
       | _ => place s' = place s /\ (place s = HoldsChild -> ours s' = asked (ours s))
       end).
Proof.
  intros Hm Ho. unfold tokio_try_wait. destruct p as [[c|] t i|t f k]; cbn in Hm.
  - destruct Hm as (Hp & Hr & He). keeps_step. by split_and!; auto.
  - keeps_step. keeps_step. unfold step. rewrite (bool_decide_true _ Hm), (Ho Hm).
    destruct a as [[c|]|e]; eexists; (split; [reflexivity|]); keeps_step; cbn; split_and!; auto.
    split; cbn; auto.
  - keeps_step. split; [auto|]. cbn. intuition congruence.
Qed.

(** [refuse]: a child reaped elsewhere is forgotten. *)
Lemma refuse_keeps x p s : matches p s -> is_unreaped x = false -> (place s = HoldsChild -> is_shown (ours s) = false) ->
  (gone (of_state x) = true -> ended s = true) ->
  keeps s (refuse x p) (fun r s' => moves s s' /\ matches r.2 s').
Proof.
  intros Hm Hx Ho Hg. unfold refuse.
  assert (Hf : ended s = true -> keeps s (do! r := forget_noting ElsewhereReaped p in ret (gone_error, r.2)) (fun r s' => moves s s' /\ matches r.2 s')).
  { intros He. keeps_step. keeps_use forget_noting_keeps; [done|by intros Hp; rewrite (Ho Hp)|done|].
    intros r s' (M & Mt & _). by keeps_step. }
  destruct x; [done|by apply Hf, Hg|by keeps_step; auto..].
Qed.

(** [gate]: it lets a child through that was shown ours, or that tokio has collected. *)
Lemma gate_keeps p s : matches p s ->
  keeps s (gate p) (fun r s' => moves s s' /\ matches r.2 s'
    /\ (r.1 = None -> r.2 = p /\ (place s' = HoldsChild -> ours s' = Shown false))).
Proof.
  intros Hm. unfold gate. destruct p as [[c|] t i|t f k].
  1,3: keeps_step; split_and!; [auto|done|]; intros _; split; [done|]; cbn in Hm; intuition congruence.
  keeps_step. apply keeps_own. keeps_use state_of_keeps; [done|]. intros a s1 Hl.
  pose proof (matches_looked (Tokio None t i) _ _ _ Hl Hm) as Mt1. pose proof (looked_ours _ _ _ Hl) as Ho. destruct (is_unreaped a) eqn:Ea.
  - keeps_step. cbn. split_and!; [apply Hl|done|done].
  - keeps_step. pose proof (looked_ended _ _ _ Hl). keeps_use refuse_keeps; [done|done|by rewrite Ho|by destruct a|]. intros [e p'] s2 (M2 & Mt2). keeps_step. cbn.
    split_and!; [apply (moves_trans s s1); [apply Hl|done]|done|done].
Qed.

Theorem try_wait_keeps p s : matches p s ->
  keeps s (try_wait p) (fun r s' => moves s s' /\ matches r.2 s'
    /\ match r.1 with Ok (Some _) => reaped s' = true /\ place s' = Collected | _ => True end).
Proof.
  intros Hm. unfold try_wait. keeps_step. keeps_use gate_keeps; [done|]. intros [g p1] s1 (M1 & Mt1 & Hg). cbn in *.
  destruct g as [e|]; [by keeps_step|]. destruct (Hg eq_refl) as [-> Ho]. destruct p as [c t i|t f k]; [|by keeps_step].
  keeps_step. keeps_use tokio_try_wait_keeps; [done|by intros Hp; rewrite (Ho Hp)|]. intros [r p2] s2 (M2 & Mt2 & Hr). keeps_step. cbn in *.
  split_and!; [eauto|done|]. by destruct r as [[]|].
Qed.

(** How a reap on events ended: with a status; or on a child not shown ours, or one tokio was asked for
    since the look that showed its exit. *)
Definition halted (r : option (result Halt Z)) (s : St) : Prop :=
  match r with
  | Some (Ok _) => reaped s = true /\ place s = Collected
  | Some (Err (HaltState x)) =>
      is_unreaped x = false /\ (place s = HoldsChild -> is_shown (ours s) = false) /\ (gone (of_state x) = true -> ended s = true)
  | Some (Err ReapedBetween) => (place s = HoldsChild -> is_shown (ours s) = false) /\ ended s = true
  | Some (Err (HaltReapFailed _)) => place s = HoldsChild -> is_shown (ours s) = false
  | Some (Err (HaltWatch _)) | None => True
  end.

Lemma reap_after_look_keeps a p s : matches p s -> (holds_unreaped_child p = true -> ours s = shows_ours a) ->
  (shows_exit a = true -> ended s = true) ->
  keeps s (reap_after_look a p) (fun r s' => moves s s' /\ matches r.2 s' /\ halted r.1 s'
    /\ (r.1 = None -> r.2 = p)).
Proof.
  intros Hm Ho He. unfold reap_after_look. pose proof (matches_held _ _ Hm) as Hh. destruct a as [[x| |f]|e]; cbn in Ho, He.
  - keeps_step. keeps_use tokio_try_wait_keeps; [done|by intros Hp; rewrite (Ho (proj2 Hh Hp))|].
    intros [r p'] s' (M & Mt & Hr). keeps_step. cbn in *. split_and!; [done|done| |done].
    assert (Hs : place s' = place s /\ (place s = HoldsChild -> ours s' = asked (ours s)) -> place s' = HoldsChild -> is_shown (ours s') = false).
    { intros [Hp' Hx] Hp. rewrite Hp' in Hp. by rewrite (Hx Hp), (Ho (proj2 Hh Hp)). }
    pose proof (moves_ended _ _ M (He eq_refl)). destruct r as [[c|]|e]; [done|by auto|].
    destruct (bool_decide _); [by auto|exact (Hs Hr)].
  - keeps_step. by split_and!; auto.
  - assert (Hn : place s = HoldsChild -> is_shown (ours s) = false) by (intros Hp; by rewrite (Ho (proj2 Hh Hp))).
    destruct f; keeps_step; (split; [auto|]); (split; [done|]); (split; [|done]); by split_and!; auto.
  - assert (Hn : place s = HoldsChild -> is_shown (ours s) = false) by (intros Hp; by rewrite (Ho (proj2 Hh Hp))).
    keeps_step. split; [auto|]. split; [done|]. split; [|done]. by split_and!.
Qed.

Definition looks_so (s : St) (p : ProcSource) (r : option (result Halt Z) * ProcSource) (s' : St) : Prop :=
  moves s s' /\ matches r.2 s' /\ halted r.1 s'.

(** After a call that leaves the state alone. *)
Lemma keeps_idle {A B} (answer : list Ev -> A) (ev : A -> Ev) (k : A -> T B) s Q :
  (forall a, step s (ev a) = Some s) -> (forall a, keeps s (k a) Q) -> keeps s (bind (call answer ev) k) Q.
Proof. intros Hs Hk. keeps_step. keeps_step. exists s. split; [apply Hs|apply Hk]. Qed.

Lemma looks_linux_keeps n p s : matches p s -> keeps s (looks_linux n p) (looks_so s p).
Proof.
  revert p s. induction n as [|n IH]; intros p s Hm; cbn [looks_linux]; [by keeps_step; split_and!|].
  apply keeps_idle; [done|]. intros [[]|e]; [|by keeps_step].
  keeps_step. apply keeps_own. keeps_step. eexists. split; [reflexivity|].
  assert (Mt : matches p (set_ours (shows_ours a) (shows_exit a) s)) by auto.
  keeps_step. keeps_use reap_after_look_keeps; [done|done|by cbn; intros ->; rewrite orb_true_r|]. intros [r p'] s' (M & Mt' & Hr & Hp). cbn in *.
  destruct r as [r|]; [keeps_step; split_and!; eauto|].
  keeps_use IH; [done|]. intros r2 s2 (M2 & Mt2 & Hr2). split_and!; eauto.
Qed.

Lemma look_on_events_keeps n p s : matches p s -> keeps s (look_on_events n p) (looks_so s p).
Proof.
  revert p s. induction n as [|n IH]; intros p s Hm; cbn [look_on_events]; [by keeps_step; split_and!|].
  assert (Hs : forall l b, matches p (set_ours l b s)) by auto.
  keeps_step. keeps_step. destruct a as [[]|e]; (eexists; split; [reflexivity|]); [|
    |by keeps_step].
  { keeps_step. split; [auto|]. split; [by auto|]. split_and!; [done|done|]. cbn. by rewrite orb_true_r. }
  keeps_step. keeps_step. eexists. split; [reflexivity|].
  keeps_step. keeps_use reap_after_look_keeps; [done|done|by cbn; intros ->; rewrite orb_true_r|]. intros [r p'] s' (M & Mt' & Hr & Hp). cbn in *.
  assert (Hret : forall h, halted h s' -> looks_so s p (h, p') s') by (intros h Hh; split_and!; eauto).
  destruct r as [r|]; [keeps_step; auto|].
  assert (Hrest : keeps s' (look_on_events n p') (looks_so s p)).
  { keeps_use IH; [done|]. intros r2 s2 (M2 & Mt2 & Hr2). split_and!; eauto. }
  assert (Hwake : keeps s' (do! woken := call wake_answer AwaitWake in
    match woken with Err e => ret (Some (Err (HaltWatch e)), p') | Ok _ => look_on_events n p' end) (looks_so s p)).
  { apply keeps_idle; [done|]. intros [[]|e]; [done|keeps_step; by apply Hret]. }
  keeps_step. unfold held_by. destruct (match a.1 with Ok _ => a.2 | Err _ => false end); [|by keeps_step].
  keeps_step. keeps_step. eexists. split; [reflexivity|]. keeps_step. destruct a0; [done|done| |keeps_step; by apply Hret].
  keeps_step. split; [eauto|]. split; [by auto|]. by split_and!.
Qed.

(** A look whose answer is known. *)
Lemma known_look_keeps x s : okeeps s (look (Some x)) (fun a s' => a = x /\ looked s x s').
Proof.
  intros h. unfold look. apply wp_call. eexists. split; [reflexivity|]. split; [done|]. split; cbn; auto.
  destruct x; try done; by rewrite orb_true_r.
Qed.

Lemma reap_on_events_keeps n p s : matches p s -> keeps s (reap_on_events n p) (looks_so s p).
Proof.
  intros Hm. unfold reap_on_events. destruct p as [[c|] t i|t f k].
  - destruct Hm as (Hp & Hr & He). keeps_step. by split_and!; auto.
  - assert (Hw : keeps s (do! armed := call arm_answer ArmWatch in
      match armed with
      | Err e => ret (Some (Err (HaltWatch e)), Tokio None t i)
      | Ok _ => match platform with Linux => looks_linux n (Tokio None t i) | Macos => look_on_events n (Tokio None t i) end
      end) (looks_so s (Tokio None t i))).
    { apply keeps_idle; [done|]. intros [[]|e]; [|by keeps_step]. destruct platform; [by apply looks_linux_keeps|by apply look_on_events_keeps]. }
    destruct platform eqn:Ep, i as [i|]; try exact Hw.
    keeps_step. apply keeps_own. unfold state_of. rewrite Ep. keeps_use known_look_keeps. intros x s' [-> Hl]. keeps_step.
    split; [apply Hl|]. split; [by eapply matches_looked|]. split_and!; [done| |done]. intros _. by rewrite (looked_ours _ _ _ Hl).
  - pose proof Hm as [Hp Hg]. keeps_step. apply keeps_own. unfold state.
    destruct f; keeps_step; keeps_step; (split; [auto|]); (split; [done|]); (split_and!; [done|cbn; congruence|by auto]).
Qed.

(** [wait]: a status it answers was collected. *)
Theorem source_wait_keeps n p s : matches p s ->
  keeps s (wait n p) (fun r s' => moves s s' /\ matches r.2 s' /\ match r.1 with Some (Ok _) => reaped s' = true | _ => True end).
Proof.
  intros Hm. unfold wait. destruct p as [c t i|t f k]; [|by keeps_step; split; auto].
  keeps_step. keeps_use gate_keeps; [by destruct c|]. intros [g p1] s1 (M1 & Mt1 & _). cbn in *.
  destruct g as [e|]; [by keeps_step|].
  keeps_step. keeps_use reap_on_events_keeps; [done|]. intros [r p2] s2 (M2 & Mt2 & Hr). cbn in *.
  destruct r as [[st|[x| |e|e]]|]; [keeps_step; by split_and!; eauto; destruct Hr| | |by keeps_step; split_and!; eauto..].
  - destruct Hr as (Hx & Ho & Hg). keeps_step. keeps_use refuse_keeps; [done..|]. intros [e p3] s3 [M3 Mt3]. keeps_step. by split_and!; eauto.
  - keeps_step. destruct Hr as [Hr He]. keeps_use forget_noting_keeps; [done|by intros Hp; rewrite (Hr Hp)|done|]. intros [f p3] s3 (M3 & Mt3 & _). keeps_step.
    by split_and!; eauto.
Qed.

(** A wait that found the child reaped elsewhere, or held by launchd. *)
Definition shows_gone (w : WaitedFor) : bool := match w with ForForeign | ForOrphaned => true | _ => false end.

Lemma wait_and_reap_awaiting_keeps n p s : matches p s ->
  keeps s (wait_and_reap_awaiting n p) (fun r s' => moves s s' /\ matches r.2 s'
    /\ match r.1 with
       | Some (Ok ForExited) => reaped s' = true /\ place s' = Collected
       | Some (Ok w) => (place s' = HoldsChild -> is_shown (ours s') = false) /\ (shows_gone w = true -> ended s' = true)
       | _ => True
       end).
Proof.
  intros Hm. unfold wait_and_reap_awaiting. keeps_step. keeps_use reap_on_events_keeps; [done|]. intros [r p'] s' (M & Mt & Hr). keeps_step.
  cbn in *. split_and!; [done|done|]. destruct r as [[st|[x| |e|e]]|]; try done; [|by destruct Hr].
  destruct Hr as (Hx & Ho & Hg). unfold verdict_of. destruct x, platform; auto; done.
Qed.

Lemma forget_for_wait_keeps w b p s : matches p s -> (w <> ForExited -> place s = HoldsChild -> is_shown (ours s) = false) ->
  (shows_gone w = true -> ended s = true) ->
  keeps s (forget_for_wait w b p) (fun r s' => moves s s' /\ matches r.2 s'
    /\ (w <> ForExited -> place s' = ForgottenChild) /\ (w = ForExited -> s' = s /\ r.2 = p)).
Proof.
  intros Hm Ho Hg. unfold forget_for_wait. destruct (forgotten w) as [fate|] eqn:Ef.
  - assert (Hw : w <> ForExited) by (by intros ->). keeps_step.
    keeps_use forget_quietly_keeps; [done|by intros Hp; rewrite (Ho Hw Hp)|intros Hf; apply Hg; destruct w; cbn in Ef; by simplify_eq|]. intros [f p'] s' (M & Mt & _ & Hp & _). keeps_step.
    by split_and!.
  - keeps_step. by destruct w.
Qed.

(** macOS: a child whose unique id is not known. *)
Definition blind (p : ProcSource) : Prop := platform = Macos /\ exists c t, p = Tokio c t None.

(** What a wait of a teardown leaves: a child that exited is there to collect, and any other is not shown
    ours. *)
Record waited_so (p : ProcSource) (s : St) (r : WaitedFor * bool) (s' : St) : Prop := {
  waited_moves : moves s s';
  waited_matches : matches p s';
  waited_place : place s' = place s;
  waited_held : place s = HoldsChild -> if bool_decide (r.1 = ForExited) then ours s' = Shown true else is_shown (ours s') = false;
  waited_not_held : place s <> HoldsChild -> r.1 = ForExited -> place s = Collected;
  waited_gone : shows_gone r.1 = true -> ended s' = true }.

(** A wait that blocks is for a child known to be killed or gone. *)
Lemma wait_and_reap_caused_keeps p s : matches p s -> (place s = HoldsChild -> ended s = true \/ blind p) ->
  keeps s (wait_and_reap_caused p) (waited_so p s).
Proof.
  intros Hm He. unfold wait_and_reap_caused. destruct p as [[c|] t i|t f k].
  - destruct Hm as (Hp & Hr & Hen). keeps_step. split; auto; cbn; intuition congruence.
  - assert (Hb : ended s = true -> bool_decide (place s = HoldsChild) && ended s = true) by (intros Hx; by rewrite (bool_decide_true _ Hm)).
    specialize (He Hm).
    assert (Hq : forall w b s', moves s s' -> place s' = place s ->
      (if bool_decide (w = ForExited) then ours s' = Shown true else is_shown (ours s') = false) -> (shows_gone w = true -> ended s = true) ->
      waited_so (Tokio None t i) s (w, b) s').
    { intros w b s' M Hp Ho Hg. split; [done|cbn; by rewrite Hp|done|by intros _; exact Ho| |by intros Hw; apply (moves_ended _ _ M), Hg].
      cbn in Hm. by rewrite Hm. }
    destruct platform eqn:Ep; [|destruct i as [i|]].
    + assert (Hen : ended s = true) by (destruct He as [?|[? _]]; congruence).
      keeps_step. unfold wait_on_pidfd. keeps_step. keeps_step. unfold step. rewrite (Hb Hen). eexists. split; [reflexivity|]. keeps_step. keeps_step.
      apply Hq; [auto|done| |done]. by destruct a as [[]|].
    + assert (Hen : ended s = true) by (destruct He as [?|(_ & ? & ? & ?)]; congruence).
      keeps_step. unfold wait_reapable. keeps_step. keeps_step. unfold step. rewrite (Hb Hen). eexists. split; [reflexivity|]. keeps_step. keeps_step.
      apply Hq; [auto|done| |done]. by destruct a as [[]|].
    + keeps_step. apply keeps_own. unfold state_of. rewrite Ep. keeps_use known_look_keeps. intros x s' [-> Hl]. keeps_step.
      apply Hq; [apply Hl|apply Hl| |done]. cbn. by rewrite (looked_ours _ _ _ Hl).
  - pose proof Hm as [Hp _]. keeps_step. split; auto; cbn; congruence.
Qed.

(** A wait's warning leaves the state alone. *)
Lemma keeps_warning {R} s (late : bool) p (m : T R) Q : keeps s m Q -> keeps s (wait_warning late (exit_visible_by p) (note WarnLate) m) Q.
Proof.
  intros Hm. unfold wait_warning. keeps_step. destruct late; [|by keeps_step].
  keeps_step. unfold exit_visible_by. destruct platform, p as [c t [i|]|t f k];
    first [keeps_step; eexists; split; [reflexivity|]; destruct a | keeps_step]; (try keeps_step); first [exact Hm|by keeps_step].
Qed.

Lemma waited_warning_keeps late p s : matches p s -> (place s = HoldsChild -> ended s = true \/ blind p) ->
  keeps s (waited_warning late p) (waited_so p s).
Proof. intros Hm He. apply keeps_warning. by apply wait_and_reap_caused_keeps. Qed.

(** [collect_exit], after a wait that saw the exit: a status it says was reaped was collected. *)
Lemma collect_exit_keeps id p s : matches p s -> (place s = HoldsChild -> ours s = Shown true) -> place s <> ForgottenChild ->
  keeps s (collect_exit id p) (fun r s' => moves s s' /\ matches r.2 s' /\ (r.1 = Reaped_ -> reaped s' = true)
    /\ place s' <> ForgottenChild /\ (place s' = HoldsChild -> ours s' = AskedSince) /\ r.1 <> Killed).
Proof.
  intros Hm Ho Hp. unfold collect_exit. keeps_step. keeps_use tokio_try_wait_keeps; [done|by intros Hh; rewrite (Ho Hh)|].
  intros [r p'] s' (M & Mt & Hr). keeps_step. cbn in *. destruct r as [[c|]|e]; cbn.
  - destruct Hr as [Hr Hp']. by split_and!; rewrite ?Hp'.
  - destruct Hr as [Hp' Hr]. split_and!; [done|done|done|by rewrite Hp'| |done]. rewrite Hp'. intros Hh. by rewrite (Hr Hh), (Ho Hh).
  - destruct Hr as [Hp' Hr]. split_and!; [done|done| |by rewrite Hp'| |].
    + by destruct (raw_os_error e) as [x|]; [destruct (x =? ECHILD)|].
    + rewrite Hp'. intros Hh. by rewrite (Hr Hh), (Ho Hh).
    + by destruct (raw_os_error e) as [x|]; [destruct (x =? ECHILD)|].
Qed.

(** tokio's own drop, for a child that is ours or was asked for since. *)
Lemma release_source_keeps p s : matches p s -> (place s = HoldsChild -> not_denied (ours s) && number s = true) ->
  keeps s (release p) (fun _ s' => moves s s' /\ is_away (place s') = true /\ ended s' = ended s /\ reaped s' = reaped s).
Proof.
  intros Hm Ho. unfold release. destruct p as [[c|] t i|t f k]; cbn in Hm.
  - destruct Hm as [Hp _]. eapply keeps_note; [cbn; by rewrite Hp|]. by split_and!; auto.
  - eapply keeps_note; [cbn; by rewrite Hm, (Ho Hm)|]. by split_and!; auto.
  - destruct Hm as [Hp _]. keeps_step. split_and!; auto. by rewrite Hp.
Qed.

(** The drop of a backend that nothing released. *)
Theorem drop_source_keeps p s : matches p s -> number s = true ->
  keeps s (drop_source p) (fun _ s' => moves s s' /\ is_away (place s') = true).
Proof.
  intros Hm Hn. unfold drop_source. destruct p as [[c|] t i|t f k]; [destruct Hm as [Hp _]|cbn in Hm|destruct Hm as [Hp _]].
  - eapply keeps_note; [cbn; by rewrite Hp|]. by split; auto.
  - keeps_step. apply keeps_own. keeps_use state_of_keeps; [done|]. intros a s' Hl. pose proof (looked_ours _ _ _ Hl) as Ho.
    pose proof (looked_moves _ _ _ Hl) as M. pose proof (looked_place _ _ _ Hl) as Hp. rewrite Hm in Hp.
    destruct (is_unreaped a); eapply keeps_note; try (cbn; rewrite Hp, Ho; cbn; rewrite ?(moves_number _ _ M), ?Hn; reflexivity); by split; eauto.
  - keeps_step. rewrite Hp. by split; auto.
Qed.

(** The signal of a teardown: it goes through the handle. *)
Lemma source_signal_keeps p sig s : matches p s ->
  okeeps s (signal p sig) (fun r s' => moves s s' /\ matches p s' /\ place s' = place s /\ ours s' = ours s /\ reaped s' = reaped s
    /\ (sig = SigKill -> holds_unreaped_child p = true -> (exists x, r = Ok x) -> ended s' = true \/ blind p)
    /\ (sig = SigKill -> r = Ok Delivered \/ r = Ok SentGone -> ended s' = true)
    /\ (holds_unreaped_child p = true -> r = Ok Unverified -> blind p)).
Proof.
  intros Hm. assert (Hsend : may_send s -> ~ blind p -> okeeps s (send sig) (fun r s' => moves s s' /\ matches p s' /\ place s' = place s
    /\ ours s' = ours s /\ reaped s' = reaped s /\ (sig = SigKill -> holds_unreaped_child p = true -> (exists x, r = Ok x) -> ended s' = true \/ blind p)
    /\ (sig = SigKill -> r = Ok Delivered \/ r = Ok SentGone -> ended s' = true)
    /\ (holds_unreaped_child p = true -> r = Ok Unverified -> blind p))).
  { intros Hs Hb h. unfold send. apply wp_call. set (a := match signal_answer h sig with Ok Unverified => Ok SentGone | r => r end).
    assert (Ha : a <> Ok Unverified) by (unfold a; by destruct (signal_answer h sig) as [[]|]).
    assert (Hp : bool_decide (place s = HoldsChild) || (bool_decide (place s = ForgottenChild) && bool_decide (platform = Linux)) = true).
    { destruct Hs as [E|[E1 E2]]; [by rewrite E|by rewrite E1, E2]. }
    cbn. rewrite Hp. eexists. split; [reflexivity|]. split_and!; try done.
    - split; cbn; try done. by intros ->.
    - apply (matches_calm _ s); [apply calm_set_ended|done].
    - intros -> _ Ho. left. cbn. destruct a as [[]|]; [by rewrite orb_true_r..|done|by destruct Ho].
    - intros -> Ho. cbn. destruct a as [[]|]; [by rewrite orb_true_r..|done|by destruct Ho]. }
  unfold signal. destruct p as [[c|] t i|t f k]; cbn in Hm.
  - pose proof Hm as (Hp & Hr & He). keeps_step. split; [auto|]. by split_and!.
  - destruct platform eqn:Ep, i as [i|]; try (apply Hsend; [by left|intros [? (? & ? & ?)]; congruence]).
    keeps_step. split; [auto|]. split_and!; try done; [intros; right| |]; [|by intros _ [?|?]|intros]; (split; [done|]); by eexists _, _.
  - destruct platform eqn:Ep, f, k; try (keeps_step; split; [auto|]; split_and!; try done; intros _ [?|?]; simplify_eq; by apply Hm).
    apply Hsend; [right; by split; [apply Hm|]|]. intros [? _]; congruence.
Qed.

(** ** Consuming the backend *)

(** A forget whatever is known: a child shown ours is owed a teardown. *)
Lemma forget_owing fate p s : matches p s ->
  keeps s (forget_quietly fate p) (fun r s' => moves s s' /\ (place s' = ForgottenChild \/ place s' = Owed /\ r.1 = true)).
Proof.
  intros Hm. unfold forget_quietly. destruct p as [[c|] t i|t f k]; cbn in Hm.
  - destruct Hm as [Hp Hr]. keeps_step. eapply keeps_note; [cbn; by rewrite Hp|]. keeps_step. cbn. split; auto.
  - keeps_step. eapply keeps_note; [cbn; by rewrite Hm|]. keeps_step. destruct (is_shown (ours s) && number s); cbn; split; auto.
  - destruct Hm. keeps_step. auto.
Qed.

(** What became of the child is so, and its backend is gone. *)
Definition settled (fate : ChildFate) (s : St) : Prop :=
  is_away (place s) = true /\ (fate = Reaped_ -> reaped s = true) /\ (fate = Killed -> ended s = true).

Lemma hand_over_keeps p s : matches p s ->
  keeps s (hand_to_pidfd_reaper p) (fun r s' => is_away (place s') = true
    /\ match r with Some f => settled f s' | None => True end).
Proof.
  intros Hm. unfold hand_to_pidfd_reaper. keeps_step. keeps_use forget_owing; [done|]. intros [f p'] s' [M Hp]. cbn in *.
  destruct f; [|keeps_step; by destruct Hp as [->|[_ ?]]].
  keeps_step. keeps_step. unfold step. destruct Hp as [->|[-> _]]; eexists; (split; [reflexivity|]); keeps_step;
    (split; [done|]); (split; [done|]); cbn; (split; intros ->; by rewrite orb_true_r).
Qed.

Lemma forget_foreign_quietly_keeps id p s : matches p s ->
  keeps s (forget_if_foreign_quietly id p) (fun r s' => moves s s' /\ matches r.2 s'
    /\ (holds_unreaped_child r.2 = true -> ours s' = Shown false)
    /\ match r.1 with Some f => f = FateGone \/ f = Running id | None => True end).
Proof.
  intros Hm. unfold forget_if_foreign_quietly. keeps_step. apply keeps_own. keeps_use elsewhere_keeps; [done|].
  intros a s1 (M & Mt & Hno & Ho & Ha). destruct a as [x|].
  - destruct Ha as (Hx & Hh & He). specialize (Ho Hh). cbn in Ho. keeps_step. keeps_use forget_quietly_keeps; [done|by rewrite Ho|done|].
    intros [f p'] s2 (M2 & Mt2 & Hh2 & Hp2 & Hf2). keeps_step. cbn in *. rewrite (Hf2 Hh). split_and!; [eauto|done|by rewrite Hh2|].
    destruct (gone (of_state x)); auto.
  - keeps_step. cbn. split_and!; [done|done|intros Hh; by rewrite (Ho Hh)|done].
Qed.

(** A fate that no reap and no kill of the code's own stands behind. *)
Definition unclaimed (f : ChildFate) : Prop := f <> Reaped_ /\ f <> Killed.

Lemma settled_unclaimed f s : unclaimed f -> is_away (place s) = true -> settled f s.
Proof. by intros [? ?] ?. Qed.

Lemma refused_kill_keeps id p s : matches p s -> number s = true ->
  keeps s (refused_kill id p) (fun f s' => settled f s').
Proof.
  intros Hm Hn. unfold refused_kill. keeps_step. keeps_use forget_foreign_quietly_keeps; [done|]. intros [foreign p1] s1 (M1 & Mt1 & Ho1 & Hf). cbn in *.
  assert (Hn1 : number s1 = true) by (by rewrite (moves_number _ _ M1)).
  assert (Hu : unclaimed (after_refused_kill None foreign id)) by (destruct foreign as [f|]; [by destruct Hf as [->| ->]|done]).
  destruct platform.
  - keeps_step. keeps_use hand_over_keeps; [done|]. intros [f|] s2 [Ha Hs]; keeps_step; (eapply keeps_note; [reflexivity|]); keeps_step; [done|].
    by apply settled_unclaimed.
  - keeps_step. keeps_step. keeps_use release_source_keeps; [done| |].
    { intros Hp. by rewrite (Ho1 (proj2 (matches_held _ _ Mt1) Hp)), Hn1. }
    intros _ s2 (M2 & Ha & _). keeps_step. keeps_step. eapply keeps_note; [reflexivity|]. keeps_step. by apply settled_unclaimed.
Qed.

(** The guaranteed teardown of a spawn that failed: the child is killed through its handle and waited for, or
    told apart, and its backend ends dropped or forgotten. *)
Theorem reap_now_keeps id late p s : matches p s -> number s = true ->
  keeps s (reap_now_noting id late p) (fun f s' => settled f s').
Proof.
  intros Hm Hn. unfold reap_now_noting. keeps_step. apply keeps_own. keeps_use source_signal_keeps; [done|].
  intros killed s1 (M1 & Mt1 & Hp1 & Ho1 & Hr1 & He1 & Hd1 & _). assert (Hn1 : number s1 = true) by (by rewrite (moves_number _ _ M1)).
  destruct killed as [sent|e]; [|by apply refused_kill_keeps].
  keeps_step. keeps_use waited_warning_keeps; [done| |].
  { intros Hp. apply He1; [done|by apply (matches_held p s1)|by eexists]. }
  intros [w b] s2 [M2 Mt2 Hp2 Ho2 Hx2 Hg2]. cbn in *.
  assert (Hn2 : number s2 = true) by (by rewrite (moves_number _ _ M2)).
  assert (Hd2 : sent = Delivered -> ended s2 = true) by (intros ->; apply (moves_ended _ _ M2), Hd1; auto).
  destruct (decide (w = ForExited)) as [->|Hw].
  - cbn in Ho2. keeps_step. keeps_use collect_exit_keeps; [done|by rewrite Hp2| |].
    { rewrite Hp2. intros Hp. by rewrite Hx2 in Hp; [|congruence|]. }
    intros [f p3] s3 (M3 & Mt3 & Hr3 & _ & Ho3 & Hk). cbn in *. keeps_step. keeps_step. keeps_step.
    keeps_use release_source_keeps; [done|intros Hp; rewrite (Ho3 Hp); by rewrite (moves_number _ _ M3), Hn2|].
    intros _ s4 (M4 & Ha & He & Hr). keeps_step. split_and!; [done|rewrite Hr; exact Hr3|done].
  - rewrite bool_decide_false in Ho2 by done. set (f := match w with ForUnverified => if bool_decide (sent = Delivered) then Killed else Running id | _ => foreign_fate ForeignGone (bool_decide (sent = Delivered)) end).
    assert (Hf : f <> Reaped_ /\ (f = Killed -> sent = Delivered)) by (unfold f, foreign_fate; destruct w, (bool_decide_reflect (sent = Delivered)); done).
    destruct (forgotten w) as [fate|] eqn:Efw; [|by destruct w].
    assert (Hk : keeps s2 (do! p0 := (do! r := forget_noting fate p in ret r.2) in do! _ := release p0 in ret f) (fun f s' => settled f s')).
    { keeps_step. keeps_step. keeps_use forget_noting_keeps; [done|intros Hp; rewrite Ho2 by congruence; done|intros Hf0; apply Hg2; destruct w; cbn in Efw; by simplify_eq|].
      intros [ff p3] s3 (M3 & Mt3 & Hh3 & Hp3). keeps_step. cbn in *. keeps_step. keeps_use release_source_keeps; [done|congruence|].
      intros _ s4 (M4 & Ha & He & Hr). keeps_step. split_and!; [done|by destruct Hf|]. intros Hk. rewrite He. apply (moves_ended _ _ M3), Hd2. by apply Hf. }
    keeps_step. destruct w; try done; keeps_step; exact Hk.
Qed.

(** The teardown of a child whose identity check could not answer, on Linux: a status it says was reaped was
    collected through the pidfd, and tokio's [Child] never acts by the pid again. *)
Theorem pidfd_teardown_keeps id late p s : platform = Linux -> place s = HoldsChild -> matches p s ->
  keeps s (teardown_through_pidfd id late p) (fun f s' => settled f s').
Proof.
  intros Hl Hp Hm. pose proof (proj2 (matches_held _ _ Hm) Hp) as Hh. unfold teardown_through_pidfd. keeps_step. apply keeps_own.
  keeps_use source_signal_keeps; [done|]. intros killed s1 (M1 & Mt1 & Hp1 & Ho1 & Hr1 & He1 & _). rewrite Hp in Hp1. destruct killed as [sent|e].
  - destruct (He1 eq_refl Hh) as [He|[? _]]; [by eexists| |congruence].
    keeps_step. apply keeps_warning. keeps_step. unfold step. rewrite (bool_decide_true _ Hp1), He. eexists. split; [reflexivity|].
    set (s2 := st _ _ _ _ _ _ _). assert (Mt2 : matches p s2) by (destruct p as [[c|] t i|]; [by destruct Mt1; congruence|done|by destruct Mt1; congruence]).
    keeps_step. keeps_use forget_noting_keeps; [done..|]. intros r s3 (M3 & _ & _ & Hp3). keeps_step. split; [by rewrite Hp3|].
    pose proof (moves_reaped _ _ M3). pose proof (moves_ended _ _ M3). split; intros Hf; [|by auto].
    destruct a as [[r'|f]|e]; [|by unfold foreign_fate in Hf; destruct (bool_decide _)|done]. cbn in *. rewrite orb_true_r in *. auto.
  - keeps_step. keeps_use forget_foreign_quietly_keeps; [done|]. intros [foreign p1] s2 (M2 & Mt2 & _ & Hf). cbn in *.
    assert (Hu : unclaimed (after_refused_kill None foreign id)) by (destruct foreign as [f|]; [by destruct Hf as [->| ->]|done]).
    keeps_step. keeps_use hand_over_keeps; [done|]. intros [f|] s3 [Ha Hs]; keeps_step; (eapply keeps_note; [reflexivity|]); keeps_step; [done|].
    by apply settled_unclaimed.
Qed.

(** The teardown of an elevation front, on Linux: it is sent nothing here, and tokio's [Child] is
    forgotten. *)
Theorem leave_front_keeps p s : matches p s -> place s = HoldsChild ->
  keeps s (leave_front_noting p) (fun r s' => settled r.2 s').
Proof.
  intros Hm Hp. pose proof (proj2 (matches_held _ _ Hm) Hp) as Hh. unfold leave_front_noting. keeps_step. apply keeps_own.
  keeps_use elsewhere_keeps; [done|]. intros a s1 (M & Mt & _ & Ho & Ha). destruct a as [x|].
  - specialize (Ho Hh). cbn in Ho. keeps_step. destruct Ha as (_ & _ & Hg).
    keeps_use forget_quietly_keeps; [done|by rewrite Ho|done|]. intros r s2 (_ & _ & _ & Hp2 & _).
    keeps_step. apply settled_unclaimed; [by destruct x|by rewrite Hp2].
  - destruct p as [c t i|t f k]; [|done]. keeps_step. keeps_use forget_owing; [done|]. intros r s2 [M2 Hp2]. keeps_step. unfold step.
    destruct a as [ff f]. destruct Hp2 as [->|[-> _]]; eexists; (split; [reflexivity|]); (split; [done|]); cbn; (split; intros ->; by rewrite orb_true_r).
Qed.

End Policy.
