(* ===== verification/TokioChild.v ===== *)
(** The asynchronous child, on Unix: [Child] of [src/tokio/child.rs] and the drop's report of
    [src/child/drop_report.rs], composed of the backend of ProcSource, the decisions of TreeCall and the
    calls of ChildCalls. Its kills and its teardown; a future is dropped where its wakes run out. Streams,
    pipes, an unwind and what an error or a warning says are left out. *)
From S2P Require Import Prelude Identity IoErrors CrateError History LeafEnd ElevationPlan OsChild ChildCalls OwnedTeardown TreeCall ChildOps ProcSource.
Local Open Scope Z_scope.

(** [Child]: what a [Child] of ChildOps has, with the backend, which only a teardown takes. *)
Record AsyncChild := async { base : ChildOps.Child; proc : option ProcSource }.

(** [Settle] and [DropSignals]. *)
Inductive Settle := SettleNothing | SettleDrain | SettleReapAndDrain.

#[export] Instance Settle_eq_dec : EqDecision Settle.
Proof. solve_decision. Defined.

Record DropSignals := drop_signals {
  fate : ChildFate; skipped : bool; forgot_ : option Forgot; tree_failed : bool; left : list LeftWhat; settle : Settle }.

Definition signals_new (f : ChildFate) : DropSignals := drop_signals f false None false [] SettleNothing.
Definition set_fate (f : ChildFate) (d : DropSignals) : DropSignals :=
  drop_signals f (skipped d) (forgot_ d) (tree_failed d) (left d) (settle d).
Definition set_settle (f : ChildFate) (x : Settle) (d : DropSignals) : DropSignals :=
  drop_signals f (skipped d) (forgot_ d) (tree_failed d) (left d) x.
Definition set_forgot (f : ChildFate) (x : option Forgot) (d : DropSignals) : DropSignals :=
  drop_signals f (skipped d) x (tree_failed d) (left d) (settle d).
Definition add_left (f : ChildFate) (x : LeftWhat) (d : DropSignals) : DropSignals :=
  drop_signals f (skipped d) (forgot_ d) (tree_failed d) (left d ++ [x]) (settle d).

(** [Signalled]. *)
Record Signalled := signalled {
  sig_proc : option ProcSource; sig_attached : Attached; signals : DropSignals; own_reap : bool;
  forgotten_before : option ChildFate; sig_view : DropView; front_left : bool }.

Section TokioChild.
  Context `{ChildCalls.Sys} `{TokioSys}.

Notation O := (Hist ChildCalls.Ev).

(** ** The root, through its backend *)

Definition with_proc (c : AsyncChild) (p : ProcSource) : AsyncChild := async (base c) (Some p).

Definition root_state_of (p : option ProcSource) : O RootState := match p with Some p => state p | None => ret (RootReaped false) end.
Definition running_of (p : option ProcSource) : O (result IoError bool) := match p with Some p => is_running p | None => ret (Ok false) end.
Definition signal_of (p : option ProcSource) (sig : Sig) : O (result Error Sent) :=
  match p with Some p => signal p sig | None => ret (Ok SentGone) end.

(** [kill_gate] and [cgroup_kill_reached]. *)
Definition async_kill_gate (f : option Front) (p : option ProcSource) (a : Attached) : O Gate :=
  match f with
  | None => ret Open
  | Some _ =>
      do! r1 := running_of p in
      match r1 with
      | Ok false => ret ElevationPlan.Exited
      | _ =>
          do! placed := kill_reaches_across_credentials a in
          match placed with
          | Ok true => ret CgroupOnly
          | _ => do! r2 := running_of p in ret (ElevationPlan.kill_gate f r1 placed r2)
          end
      end
  end.

Definition exited_of (p : option ProcSource) : O (result IoError bool) :=
  do! r := running_of p in ret match r with Ok b => Ok (negb b) | Err e => Err e end.

Definition async_cgroup_kill_reached (f : option Front) (p : option ProcSource) (a : Attached) : O (result Error unit) :=
  match f with
  | None => ret (Err EContainment)
  | Some _ =>
      do! e1 := exited_of p in
      match e1 with
      | Ok true => ret (Ok tt)
      | _ =>
          do! placed := cgroup_names a in
          match placed with
          | Ok true => ret (Ok tt)
          | _ => do! e2 := exited_of p in ret (ElevationPlan.cgroup_kill_reached f e1 placed e2)
          end
      end
  end.

(** [root_is_unpinned] and [refuse_unpinned]. *)
Definition async_root_is_unpinned (c : AsyncChild) : O bool :=
  match platform with Macos => do! s := root_state_of (proc c) in ret (is_unpinned_state s) | Linux => ret false end.

Definition async_refuse_unpinned (c : AsyncChild) : O (result Error unit) :=
  do! u := async_root_is_unpinned c in ret (if u : bool then Err (Unassessable None) else Ok tt).

(** ** Kills *)

(** [signal_gated]. *)
Definition signal_gated (c : AsyncChild) (gate : Gate) : O (result Error Sent) :=
  match gate with
  | CgroupOnly =>
      do! r := hard_kill_marking (attached (base c)) in
      match r with
      | Err e => ret (Err (cgroup_kill_failed (front (base c)) e))
      | Ok _ =>
          do! reached := async_cgroup_kill_reached (front (base c)) (proc c) (attached (base c)) in
          ret match reached with Ok _ => Ok Delivered | Err e => Err e end
      end
  | Closed unkillable => ret (Err unkillable)
  | Open | ElevationPlan.Exited =>
      do! r := signal_of (proc c) SigKill in
      ret match r with
          | Err (Io e) =>
              if match gate with ElevationPlan.Exited => bool_decide (kind e = PermissionDenied) | _ => false end
              then Ok Delivered else Err (map_elevated_kill_error e (wrapper (base c)))
          | other => other
          end
  end.

(** [kill_sent_gated]: a child not shown ours is forgotten. *)
Definition async_kill_sent_gated (c : AsyncChild) (gate : Gate) : T (result Error Sent * AsyncChild) :=
  do! sent := own (signal_gated c gate) in
  match sent, proc c with
  | Ok (SentGone | Unverified), Some p => do! p := forget_if_foreign p in ret (sent, with_proc c p)
  | _, _ => ret (sent, c)
  end.

Definition async_kill_sent (c : AsyncChild) : T (result Error Sent * AsyncChild) :=
  do! gate := own (async_kill_gate (front (base c)) (proc c) (attached (base c))) in
  if is_closed gate then async_kill_sent_gated c gate
  else
    do! r := own (async_refuse_unpinned c) in
    match r with Err e => ret (Err e, c) | Ok _ => async_kill_sent_gated c gate end.

(** [kill_root_through_handle]. *)
Definition kill_root_through_handle (c : AsyncChild) : O (result Error Sent) :=
  do! r := signal_of (proc c) SigKill in
  ret match r with Err (Io e) => Err (map_elevated_kill_error e (wrapper (base c))) | other => other end.

(** [kill_tree_after] once its gate is decided. *)
Definition async_kill_tree_gated (c : AsyncChild) (front_in_cgroup : option bool) : T (result Error unit * AsyncChild) :=
  let a := attached (base c) in
  do! decided := own (root_checked a TKill (root_state_of (proc c)) (kill_root_through_handle c)) in
  match decided with
  | Some result => ret (result, c)
  | None =>
      do! group_result := own (hard_kill_marking a) in
      if hard_kill_refused_to_walk a group_result then ret (group_result, c)
      else
        match front_in_cgroup with
        | Some true =>
            match group_result with
            | Ok _ => do! r := own (async_cgroup_kill_reached (front (base c)) (proc c) a) in ret (r, c)
            | Err e => ret (Err (cgroup_kill_failed (front (base c)) e), c)
            end
        | Some false => ret (group_result, c)
        | None =>
            do! unpinned := own (async_root_is_unpinned c) in
            do2! backstop, c :=
              (if unpinned : bool then ret (Ok tt, c)
               else do2! r, c := async_kill_sent_gated c Open in ret (match r with Ok _ => Ok tt | Err e => Err e end, c)) in
            ret (match group_result with Err e => Err e | Ok _ => backstop end, c)
        end
  end.

(** [kill_tree_after]. *)
Definition async_kill_tree (c : AsyncChild) : T (result Error unit * AsyncChild) :=
  match require_contained (base c) with
  | Err e => ret (Err e, c)
  | Ok _ =>
      do! gate := own (async_kill_gate (front (base c)) (proc c) (attached (base c))) in
      match gate with
      | Closed unkillable => ret (Err unkillable, c)
      | Open => async_kill_tree_gated c None
      | ElevationPlan.Exited => async_kill_tree_gated c (Some false)
      | CgroupOnly => async_kill_tree_gated c (Some true)
      end
  end.

(** [terminate_tree]. *)
Definition async_terminate_tree (c : AsyncChild) : O (result Error unit) :=
  match require_contained (base c) with
  | Err e => ret (Err e)
  | Ok _ =>
      do! decided := root_checked (attached (base c)) TTerm (root_state_of (proc c)) (signal_of (proc c) SigTerm) in
      match decided with Some result => ret result | None => ChildCalls.terminate_tree (attached (base c)) end
  end.

(** ** The cleanup of a failed spawn *)

(** [read_root_view], and the drop's own read. *)
Definition read_root_view (c : AsyncChild) : O DropView :=
  do! now := root_identity_now in
  do! s := root_state_of (proc c) in
  do! killed := is_set in
  ret (drop_view (view_of (id (base c)) now s) killed).

(** [kill_tree_members_unless_reaped]. *)
Definition kill_tree_members_unless_reaped (c : AsyncChild) (v : DropView) : O (result Error bool) :=
  hard_kill_marking_unless_reaped (attached (base c)) v.

(** [wait_and_reap_blocking], of a child already killed. *)
Definition wait_and_reap_blocking (c : AsyncChild) (late : bool) : T (option (ChildFate * option Forgot) * AsyncChild) :=
  match proc c with
  | None => ret (None, c)
  | Some p =>
      do2! waited, because := waited_warning late p in
      match waited with
      | ForExited => do2! f, p := collect_exit (Some (id (base c))) p in ret (Some (f, None), with_proc c p)
      | _ => do2! f, p := forget_for_wait waited because p in ret (Some (Killed, f), with_proc c p)
      end
  end.

(** ** The teardown *)

(** [parts] of a report. *)
Definition is_reaped_state (s : option RootState) : bool := match s with Some (RootReaped _) => true | _ => false end.

Definition async_report_parts (s : Signalled) : list PartKey :=
  let v := sig_view s in
  let d := signals s in
  let reaped_now := is_reaped_state (forgot_ d ≫= now) in
  let reaped := reaped_now || match view_root v with ViewReaped => true | _ => false end in
  (if unsettled v || bool_decide (is_Some (forgot_ d)) then [Described] else [])
  ++ (if match view_root v with ViewReaped => skipped d | _ => false end then [Described] else [])
  ++ (if front_left s && negb reaped then [Described] else [])
  ++ (if tree_failed d then [TreeFailed] else [])
  ++ (LeftOf <$> left d)
  ++ match forgot_ d with
     | Some f => (if cause f then [Described] else []) ++ [Described]
     | None => []
     end.

(** [report]: what is left to release, the child's fate, and whether the tree's kill failed. *)
Definition reported_fate (s : Signalled) : ChildFate :=
  if own_reap s then
    match forgotten_before s, fate (signals s) with
    | Some (Running _), (Killed | FateGone) => fate (signals s)
    | Some f, _ => f
    | None, _ => Reaped_
    end
  else fate (signals s).

Definition report (c : AsyncChild) (s : Signalled) : T ChildFate :=
  do! _ := own (emit (async_report_parts s) (reported (base c))) in
  ret (reported_fate s).

(** The releases of [OsResources]. *)
Definition release_backend (p : option ProcSource) : T unit := match p with Some p => release p | None => ret tt end.

Definition drop_after_drain (a : Attached) : T unit := match a with AttachedNone => ret tt | _ => note (DropAfterDrain a) end.

Definition release_tree (a : Attached) : T unit := match a with AttachedNone => ret tt | _ => note (ReleaseTree a) end.

Definition release_without_waiting (p : option ProcSource) (a : Attached) : T unit :=
  do! _ := release_backend p in release_tree a.

Definition is_leaf (a : Attached) : bool := is_cgroup a && bool_decide (platform = Linux).

(** [release_backend_and_rekill]: whether the drain is bounded. *)
Definition release_backend_and_rekill (p : option ProcSource) (a : Attached) (tree_failed : bool) : T bool :=
  do! _ := release_backend p in
  if is_leaf a && tree_failed then
    do! r := own (hard_kill a) in
    match r with Err _ => do! _ := release_tree a in ret false | Ok _ => ret true end
  else ret true.

Definition release_after_drain (p : option ProcSource) (a : Attached) (tree_failed : bool) : T unit :=
  do! bounded := release_backend_and_rekill p a tree_failed in
  if bounded : bool then drop_after_drain a else ret tt.

(** A drain that cannot be watched, or whose future is dropped, is waited for on the thread. *)
Definition release_after_drain_awaiting (p : option ProcSource) (a : Attached) (tree_failed : bool) : T unit :=
  do! bounded := release_backend_and_rekill p a tree_failed in
  if bounded : bool then
    do! _ := (if is_leaf a then do! _ := call drain_await_answer AwaitDrain in ret tt else ret tt) in
    drop_after_drain a
  else ret tt.

(** [signal_on_drop], once the tree was killed: the root. *)
Definition kill_root_on_drop (id_ : ProcessId) (v : DropView) (p : option ProcSource) (d : DropSignals) :
    T (DropSignals * option ProcSource) :=
  match p with
  | None => ret (d, None)
  | Some p =>
      do! killed := own (signal p SigKill) in
      match killed with
      | Ok SentGone => ret (set_settle FateGone SettleDrain d, Some p)
      | Ok Unverified => ret (set_fate (Running (Some id_)) d, Some p)
      | Ok Delivered => ret (set_settle Killed SettleReapAndDrain d, Some p)
      | Err _ =>
          do2! f, p := forget_for v p in
          match f with
          | Some g => ret (set_forgot (if reaped_elsewhere g then FateGone else Running (Some id_)) (Some g) d, Some p)
          | None =>
              match forgotten_fate (Some id_) p with
              | Some f => ret (add_left f LeftAlive d, Some p)
              | None =>
                  if src_is_reaped p then ret (set_fate Reaped_ d, Some p)
                  else
                    do2! looked, p := try_wait p in
                    let f := fate_of_a_look match looked with Ok s => Ok s | Err e => Err (raw_os_error (into_io e)) end (Some id_) in
                    ret (match looked with Ok (Some _) => set_fate f d | _ => add_left f LeftAlive d end, Some p)
              end
          end
      end
  end.

Definition signal_on_drop (id_ : ProcessId) (v : DropView) (cgroup_front : option Front) (p : option ProcSource) (a : Attached) :
    T (DropSignals * option ProcSource) :=
  do2! tree, skip := own (hard_kill_for_drop a v) in
  let d := drop_signals FateUnknown skip None match tree with Ok _ => false | Err _ => true end [] SettleNothing in
  if leaves_root_alone v then ret (set_settle FateGone SettleDrain d, p)
  else
    match cgroup_front with
    | Some f =>
        do! reached := match tree with Err e => ret (Err e) | Ok _ => own (async_cgroup_kill_reached (Some f) p a) end in
        ret (match reached with
             | Ok _ => set_settle Killed SettleReapAndDrain d
             | Err _ => add_left (Running (Some id_)) FrontLeft d
             end, p)
    | None => kill_root_on_drop id_ v p d
    end.

(** The second look of [signal_for_teardown]: a child not shown ours is forgotten. *)
Definition look_again (v : DropView) (own : bool) (p : option ProcSource) (d : DropSignals) : T (DropSignals * option ProcSource) :=
  match p with
  | Some p' =>
      if negb own && negb (bool_decide (is_Some (forgot_ d))) then
        do2! f, p' := forget_for v p' in
        ret (match f with
             | Some g =>
                 set_forgot (if reaped_elsewhere g && negb match fate d with Killed => true | _ => false end then FateGone else fate d)
                   (Some g) d
             | None => d
             end, Some p')
      else ret (d, p)
  | None => ret (d, p)
  end.

(** [signal_for_teardown] up to its release: the backend and the mechanism are taken. *)
Definition signal_for_teardown (c : AsyncChild) : T Signalled :=
  let a := attached (base c) in
  let own_reap := match proc c with Some p => src_is_reaped p | None => true end in
  let forgotten := proc c ≫= forgotten_fate (Some (id (base c))) in
  let armed := kill_on_drop (base c) in
  do! gate := (if armed then do! g := own (async_kill_gate (front (base c)) (proc c) a) in ret (Some g) else ret None) in
  do! view := own (read_root_view c) in
  let running := signals_new (Running (Some (id (base c)))) in
  do2! d, p :=
    match gate with
    | None | Some (Closed _) => ret (running, proc c)
    | Some g =>
        signal_on_drop (id (base c)) view match g with CgroupOnly => front (base c) | _ => None end (proc c) a
    end in
  do2! d, p := look_again view own_reap p d in
  ret (signalled p a d own_reap forgotten view match gate with Some (Closed _) => true | _ => false end).

(** Whether the teardown waits. *)
Definition waits (c : AsyncChild) (s : Signalled) : bool :=
  kill_on_drop (base c) && negb (bool_decide (settle (signals s) = SettleNothing)).

(** The child whose resources are taken. *)
Definition taken (c : AsyncChild) (armed : bool) : AsyncChild :=
  let b := base c in
  async (child_ (id b) AttachedNone (front b) (wrapper b) (containment b) armed (reported b)) None.

Definition finish_without_waiting (c : AsyncChild) (s : Signalled) : T ChildFate :=
  do! f := report c s in
  do! _ := release_without_waiting (sig_proc s) (sig_attached s) in
  ret f.

(** [reap_killed_root]. *)
Definition with_signals (s : Signalled) (p : option ProcSource) (d : DropSignals) : Signalled :=
  signalled p (sig_attached s) d (own_reap s) (forgotten_before s) (sig_view s) (front_left s).

Definition after_wait (c : AsyncChild) (s : Signalled) (w : WaitedFor) (because : bool) (p : ProcSource) : T Signalled :=
  match w with
  | ForExited => do2! f, p := collect_exit (Some (id (base c))) p in ret (with_signals s (Some p) (set_fate f (signals s)))
  | _ =>
      do2! f, p := forget_for_wait w because p in
      ret (with_signals s (Some p) (set_forgot (fate (signals s)) f (signals s)))
  end.

Definition reap_killed_root (c : AsyncChild) (late : bool) (s : Signalled) : T Signalled :=
  match sig_proc s with
  | None => ret s
  | Some p =>
      if src_is_reaped p then ret s
      else do2! w, because := waited_warning late p in after_wait c s w because p
  end.

(** [settle]. *)
Definition settle_teardown (c : AsyncChild) (late : bool) (s : Signalled) : T ChildFate :=
  do! s := (if bool_decide (settle (signals s) = SettleReapAndDrain) then reap_killed_root c late s else ret s) in
  do! f := report c s in
  do! _ := release_after_drain (sig_proc s) (sig_attached s) (tree_failed (signals s)) in
  ret f.

(** [tear_down]: what the drop does. *)
Definition async_tear_down (c : AsyncChild) (late : bool) : T (ChildFate * AsyncChild) :=
  do! s := signal_for_teardown c in
  do! f := (if waits c s then settle_teardown c late s else finish_without_waiting c s) in
  ret (f, taken c (kill_on_drop (base c))).

(** [tear_down_now]. *)
Definition async_tear_down_now (c : AsyncChild) (late : bool) : T (ChildFate * AsyncChild) :=
  do2! f, c := async_tear_down c late in ret (f, taken c false).

(** [reap_killed_root_awaiting]: [None] is a future dropped before it ended, with the backend as it left
    it. *)
Definition reap_killed_root_awaiting (c : AsyncChild) (n : nat) (s : Signalled) : T (option (result Error unit) * Signalled) :=
  match sig_proc s with
  | None => ret (Some (Ok tt), s)
  | Some p =>
      if src_is_reaped p then ret (Some (Ok tt), s)
      else
        do2! r, p := wait_and_reap_awaiting n p in
        match r with
        | None => ret (None, with_signals s (Some p) (signals s))
        | Some (Err e) => ret (Some (Err e), with_signals s (Some p) (signals s))
        | Some (Ok w) => do! s := after_wait c s w (negb (bool_decide (w = ForExited))) p in ret (Some (Ok tt), s)
        end
  end.

(** [tear_down_awaiting], whose future, dropped, settles the rest: no fate is answered then. *)
Definition tear_down_awaiting (c : AsyncChild) (n : nat) (late : bool) : T (option ChildFate * AsyncChild) :=
  do! s := signal_for_teardown c in
  let rest := taken c false in
  if waits c s then
    do2! reaped, s :=
      (if bool_decide (settle (signals s) = SettleReapAndDrain) then reap_killed_root_awaiting c n s else ret (Some (Ok tt), s)) in
    match reaped with
    | None => do! _ := settle_teardown c late s in ret (None, rest)
    | Some (Err _) => do! f := settle_teardown c late s in ret (Some f, rest)
    | Some (Ok _) =>
        do! f := report c s in
        do! _ := release_after_drain_awaiting (sig_proc s) (sig_attached s) (tree_failed (signals s)) in
        ret (Some f, rest)
    end
  else do! f := finish_without_waiting c s in ret (Some f, rest).

(** [detach]. *)
Definition async_detach (c : AsyncChild) : O AsyncChild :=
  let b := base c in
  do! _ := disarm (attached b) in
  ret (async (child_ (id b) (attached b) (front b) (wrapper b) (containment b) false (reported b)) (proc c)).

(** [end_cleanup]. *)
Definition end_cleanup (c : AsyncChild) (settled : bool) (warned : list PartKey) : AsyncChild :=
  let b := base c in
  async (child_ (id b) (attached b) (front b) (wrapper b) (containment b) (kill_on_drop b && negb settled) warned) (proc c).

End TokioChild.
