(* ===== verification/TokioGrace.v ===== *)
(** The graceful shutdowns of an asynchronous child, on Unix: [src/tokio/child/graceful.rs], and the child's
    waits of [src/tokio/child.rs]. A shutdown sends its [SIGTERM], waits the grace and kills what is left; its
    future may be dropped at each of its waits, which [None] is. *)
From S2P Require Import Prelude Identity IoErrors CrateError History LeafEnd ElevationPlan OsChild ChildCalls OwnedTeardown TreeCall ChildOps ProcSource TokioChild.
Local Open Scope Z_scope.

Section TokioGrace.
  Context `{ChildCalls.Sys} `{TokioSys}.

Notation O := (Hist ChildCalls.Ev).

(** [m] is waited for, unless the future that waits is dropped first. *)
Definition awaiting {A} (m : T A) : T (option A) :=
  do! dropped := (fun h => (dropped_answer h, h)) in
  if dropped : bool then ret None else do! a := m in ret (Some a).

(** [wait] and [try_wait] of the child. *)
Definition async_wait (n : nat) (c : AsyncChild) : T (option (result Error Z) * AsyncChild) :=
  match proc c with None => ret (None, c) | Some p => do2! r, p := ProcSource.wait n p in ret (r, with_proc c p) end.

Definition async_try_wait (c : AsyncChild) : T (option (result Error (option Z)) * AsyncChild) :=
  match proc c with None => ret (None, c) | Some p => do2! r, p := try_wait p in ret (Some r, with_proc c p) end.

(** [terminate_gate]. *)
Definition async_terminate_gate (c : AsyncChild) : O Gate :=
  match front (base c) with
  | Some f =>
      if relays_term f then ret Open
      else do! r := running_of (proc c) in ret (ElevationPlan.terminate_gate (front (base c)) r)
  | None => ret Open
  end.

(** [terminate]: by the root's identity, not through the backend. *)
Definition async_terminate (c : AsyncChild) : T (result Error unit) :=
  do! gate := own (async_terminate_gate c) in
  match gate with
  | Closed unkillable => ret (Err unkillable)
  | _ =>
      do! r := own (async_refuse_unpinned c) in
      match r with Err e => ret (Err e) | Ok _ => call term_answer TermById end
  end.

(** The escalation of [graceful_shutdown]. *)
Definition escalate (c : AsyncChild) : T (result Error unit * AsyncChild) :=
  do! refused := own (async_refuse_unpinned c) in
  match refused with
  | Err e => ret (Err e, c)
  | Ok _ =>
      do! gate := own (async_kill_gate (front (base c)) (proc c) (attached (base c))) in
      do2! r, c := async_kill_sent_gated c gate in
      ret (match r with Ok _ => Ok tt | Err e => Err e end, c)
  end.

(** Its reap, after which a failed watch is the answer. *)
Definition reap_after_grace (c : AsyncChild) (n : nat) (watch : result Error bool) : T (option (result Error Z) * AsyncChild) :=
  do2! r, c := async_wait n c in
  ret (match r, watch with
       | Some (Ok _), Err e => Some (Err e)
       | r, _ => r
       end, c).

Definition async_graceful_shutdown (c : AsyncChild) (n : nat) : T (option (result Error Z) * AsyncChild) :=
  do! sent := async_terminate c in
  match sent with
  | Err e => ret (Some (Err e), c)
  | Ok _ =>
      do! watched := awaiting (own exited_by) in
      match watched with
      | None => ret (None, c)
      | Some (Ok true) => reap_after_grace c n (Ok true)
      | Some watch =>
          do2! killed, c := escalate c in
          match killed with Err e => ret (Some (Err e), c) | Ok _ => reap_after_grace c n watch end
      end
  end.

(** ** The tree *)

(** The grace wait: [None] is the future dropped; else whether the sweep may be skipped, whether the root
    was seen to exit, and a failed watch. *)
Definition root_watched (w : option (result Error bool)) : option (bool * bool * option Error) :=
  match w with
  | None => None
  | Some (Ok exited) => Some (false, exited, None)
  | Some (Err e) => Some (false, false, Some e)
  end.

Definition async_grace_wait (c : AsyncChild) : T (option (bool * bool * option Error)) :=
  if containment_drains (containment (base c)) then
    do! drained := awaiting (own (ChildCalls.wait_drained (attached (base c)))) in
    match drained with
    | None => ret None
    | Some (Ok verdict) =>
        if permits_skipping_sweep verdict then ret (Some (true, true, None))
        else do! w := awaiting (own exited_by) in ret (root_watched w)
    | Some (Err e) => ret (Some (false, false, Some e))
    end
  else do! w := awaiting (own exited_by) in ret (root_watched w).

(** After the sweep: a root whose status cannot be collected is said so. *)
Definition reap_swept (c : AsyncChild) (n : nat) (watch_err : option Error) : T (option (result Error Z) * AsyncChild) :=
  do! unpinned := own (async_root_is_unpinned c) in
  if unpinned : bool then ret (Some (Err (Unassessable None)), c)
  else if match proc c with Some p => forgot_unproven p | None => false end then ret (Some (Err (Unassessable None)), c)
  else
    do2! waited, c := async_wait n c in
    ret (match waited with
         | None => None
         | Some r =>
             Some match status_unless_reaped_elsewhere r, watch_err with
                  | Err e, _ => Err e
                  | Ok _, Some e => Err e
                  | Ok status, None => Ok status
                  end
         end, c).

(** After a sweep that failed: a root seen to exit is reaped, unless launchd holds it. *)
Definition reap_unswept (c : AsyncChild) (n : nat) (root_exited : bool) (sweep : Error) : T (option (result Error Z) * AsyncChild) :=
  if root_exited then
    do! unpinned := own (async_root_is_unpinned c) in
    if unpinned : bool then ret (Some (Err sweep), c)
    else
      do2! waited, c := async_wait n c in
      ret (match waited with None => None | Some _ => Some (Err sweep) end, c)
  else ret (Some (Err sweep), c).

Definition async_sweep_and_reap (c : AsyncChild) (n : nat) (drained root_exited : bool) (watch_err : option Error) :
    T (option (result Error Z) * AsyncChild) :=
  do2! swept, c := (if drained then ret (Ok tt, c) else async_kill_tree c) in
  match swept with
  | Err sweep => reap_unswept c n root_exited sweep
  | Ok _ => reap_swept c n watch_err
  end.

Definition async_after_term (c : AsyncChild) (n : nat) : T (option (result Error Z) * AsyncChild) :=
  do! grace := async_grace_wait c in
  match grace with
  | None => ret (None, c)
  | Some (drained, root_exited, watch_err) => async_sweep_and_reap c n drained root_exited watch_err
  end.

(** [exited_within]: the pidfd's own watch. *)
Definition exited_within (p : option ProcSource) : T (result Error bool) :=
  match p with
  | None => ret (Ok true)
  | Some (ForeignSrc _ f _) => if gone f then ret (Ok true) else own exited_by
  | Some _ => own exited_by
  end.

Definition async_shut_down_root_through_pidfd (c : AsyncChild) : T (option Error) :=
  do! gate := own (async_terminate_gate c) in
  do! started := own (pidfd_shutdown_start gate (signal_of (proc c) SigTerm)) in
  match started with
  | Err unkillable => ret (Some unkillable)
  | Ok term =>
      do! exited := (if needs_grace term then do! w := awaiting (exited_within (proc c)) in ret (Some w) else ret None) in
      match exited with
      | Some None => ret None
      | _ =>
          let exited := match exited with Some (Some r) => Some r | _ => None end in
          do! e := own (pidfd_shutdown_finish term exited
                     (async_kill_gate (front (base c)) (proc c) (attached (base c))) (kill_root_through_handle c)) in
          ret (Some e)
      end
  end.

Definition async_shut_down_holders_only (c : AsyncChild) : T (option Error) :=
  do! _ := own (holders_only (attached (base c)) TTerm) in
  do! drained := awaiting (own (ChildCalls.wait_drained (attached (base c)))) in
  match drained with
  | None => ret None
  | Some _ => do! e := own (holders_shutdown_error (attached (base c))) in ret (Some e)
  end.

Definition async_graceful_shutdown_tree (c : AsyncChild) (n : nat) : T (option (result Error Z) * AsyncChild) :=
  match require_contained (base c) with
  | Err e => ret (Some (Err e), c)
  | Ok _ =>
      do! decided := own (TreeCall.graceful (attached (base c)) (root_state_of (proc c))) in
      match decided with
      | GEnd e => ret (Some (Err e), c)
      | GRootThroughPidfd => do! e := async_shut_down_root_through_pidfd c in ret (match e with Some e => Some (Err e) | None => None end, c)
      | GHoldersOnly => do! e := async_shut_down_holders_only c in ret (match e with Some e => Some (Err e) | None => None end, c)
      | GSignal | GSent _ _ =>
          do! term := own match decided with GSent result _ => ret result | _ => ChildCalls.terminate_tree (attached (base c)) end in
          match term with
          | Ok _ => async_after_term c n
          | Err e => if held_refusal e then async_after_term c n else ret (Some (Err e), c)
          end
      end
  end.

End TokioGrace.
