(* ===== verification/TokioPolicy.v ===== *)
(** An asynchronous child never lets tokio act on a number that is not its own, whatever its operations
    are and whatever the system answers: the operations of TokioChild keep to the protocol of ProcPolicy,
    and a teardown ends the backend and the mechanism. *)
From S2P Require Import Prelude Identity IoErrors CrateError History LeafEnd LateTeardown ElevationPlan OsChild ChildCalls OwnedTeardown TreeCall ChildOps ProcSource ProcPolicy TokioChild TokioGrace.
Local Open Scope Z_scope.

(** * A child's life: operations, then a teardown *)

Inductive Op :=
| OpWait (wakes : nat) | OpTryWait | OpKill | OpKillTree | OpTerminate | OpTerminateTree | OpDetach
| OpGraceful (wakes : nat) | OpGracefulTree (wakes : nat).

Inductive Ending := EndDrop (late : bool) | EndNow (late : bool) | EndAwaiting (wakes : nat) (late : bool).

Section Life.
  Context `{ChildCalls.Sys} `{TokioSys}.

Definition run_op (c : AsyncChild) (o : Op) : T AsyncChild :=
  match o with
  | OpWait n => do2! _, c := async_wait n c in ret c
  | OpTryWait => do2! _, c := async_try_wait c in ret c
  | OpKill => do2! _, c := async_kill_sent c in ret c
  | OpKillTree => do2! _, c := async_kill_tree c in ret c
  | OpTerminate => do! _ := async_terminate c in ret c
  | OpTerminateTree => do! _ := own (async_terminate_tree c) in ret c
  | OpDetach => own (async_detach c)
  | OpGraceful n => do2! _, c := async_graceful_shutdown c n in ret c
  | OpGracefulTree n => do2! _, c := async_graceful_shutdown_tree c n in ret c
  end.

Fixpoint run_ops (c : AsyncChild) (os : list Op) : T AsyncChild :=
  match os with [] => ret c | o :: os => do! c := run_op c o in run_ops c os end.

(** The last of it: the handle's drop, or a teardown with the drop of what it left. *)
Definition end_async (c : AsyncChild) (e : Ending) : T (option ChildFate) :=
  match e with
  | EndDrop late => do2! f, _ := async_tear_down c late in ret (Some f)
  | EndNow late => do2! f, c := async_tear_down_now c late in do! _ := async_tear_down c late in ret (Some f)
  | EndAwaiting n late => do2! f, c := tear_down_awaiting c n late in do! _ := async_tear_down c late in ret f
  end.

Definition life (c : AsyncChild) (os : list Op) (e : Ending) : T (option ChildFate) :=
  do! c := run_ops c os in end_async c e.

End Life.

Section Policy.
  Context `{ChildCalls.Sys} `{TokioSys}.
  Variable me : ProcessId.

Notation keeps := (keeps (step me)).
Notation okeeps := (History.keeps (own_step me)).
Notation O := (Hist ChildCalls.Ev).
#[local] Arguments async_cgroup_kill_reached : simpl never.

(** ** Calls that are no part of a teardown *)

Definition can_send (p : option ProcSource) : bool :=
  match p with
  | Some (Tokio None _ _) => true
  | Some (ForeignSrc _ Unproven _) => bool_decide (platform = Linux)
  | _ => false
  end.

Notation calls p := (only (allowed (can_send p))).

Lemma only_any {A} (b : bool) answer (ev : A -> ChildCalls.Ev) :
  (forall a, match ev a with SignalRoot _ _ _ => False | _ => True end) -> only (allowed b) (call answer ev).
Proof. intros He. apply only_call. intros a. specialize (He a). by destruct (ev a). Qed.

Lemma state_calls p b : only (allowed b) (state p).
Proof.
  unfold state, state_of, look. destruct p as [[c|] t i|t f k]; [apply only_ret| |destruct f; apply only_ret].
  destruct platform, i; by apply only_any.
Qed.

Lemma root_state_calls p b : only (allowed b) (root_state_of p).
Proof. destruct p; [apply state_calls|apply only_ret]. Qed.

Lemma root_running_calls b : only (allowed b) root_running.
Proof. unfold root_running. only_auto. Qed.

Lemma is_running_calls p b : only (allowed b) (is_running p).
Proof.
  unfold is_running. destruct platform, p as [c t [i|]|t f k]; try destruct f; cbn;
    repeat first [apply only_ret | apply root_running_calls | match goal with |- only _ (if ?x then _ else _) => destruct x end].
Qed.

Lemma running_calls p b : only (allowed b) (running_of p).
Proof. destruct p; [apply is_running_calls|apply only_ret]. Qed.

Lemma signal_calls p sig : calls p (signal_of p sig).
Proof.
  destruct p as [[[c|] t i|t f k]|]; cbn; try apply only_ret; unfold send.
  - destruct platform, i; try apply only_ret; by apply only_call.
  - destruct platform eqn:Ep, f, k; try apply only_ret. by apply only_call.
Qed.

(** The parts of TreeCall and ChildCalls send no signal of the root but those they are given. *)
Ltac calls_auto :=
  repeat first
    [ assumption
    | apply only_bind; [|intros ?]
    | apply only_ret
    | apply only_any; done
    | apply only_note; reflexivity
    | apply only_look
    | match goal with
      | |- only _ (match ?x with _ => _ end) => destruct x
      | |- only _ (state _) => apply state_calls
      | |- only _ (root_state_of _) => apply root_state_calls
      | |- only _ (running_of _) => apply running_calls
      | |- only _ root_running => apply root_running_calls
      end ].

Lemma hard_kill_marking_calls a b : only (allowed b) (hard_kill_marking a).
Proof. unfold hard_kill_marking, hard_kill_report, send_tree, mark. destruct a; calls_auto. Qed.

Lemma root_checked_calls a sig (b : bool) (st_ : O RootState) (sg : O (result Error Sent)) :
  only (allowed b) st_ -> only (allowed b) sg -> only (allowed b) (root_checked a sig st_ sg).
Proof.
  intros Hst Hsg. unfold root_checked, call_root_number, root_number, number_of_state, through_the_pidfd, untrusted, no_walk, empty_group,
    number_skipped, group_gone, signal_tree_untrusted, signal_group_and_holders, signal_holders_only, mark_if, send_group_and_holders,
    send_holders, root_identity_now, has_member, mark.
  calls_auto.
Qed.

Lemma kill_gate_calls f p a b : only (allowed b) (async_kill_gate f p a).
Proof. unfold async_kill_gate, kill_reaches_across_credentials. calls_auto. Qed.

Lemma kill_reached_calls f p a b : only (allowed b) (async_cgroup_kill_reached f p a).
Proof. unfold async_cgroup_kill_reached, exited_of, cgroup_names. calls_auto. Qed.

Lemma unpinned_calls c b : only (allowed b) (async_root_is_unpinned c).
Proof. unfold async_root_is_unpinned. calls_auto. Qed.

Lemma refuse_calls c b : only (allowed b) (async_refuse_unpinned c).
Proof. unfold async_refuse_unpinned. apply only_bind; [apply unpinned_calls|intros; apply only_ret]. Qed.

Lemma signal_gated_calls c g : calls (proc c) (signal_gated c g).
Proof.
  unfold signal_gated. pose proof (signal_calls (proc c) SigKill) as Hs.
  pose proof (hard_kill_marking_calls (attached (base c)) (can_send (proc c))) as Hk.
  pose proof (kill_reached_calls (front (base c)) (proc c) (attached (base c)) (can_send (proc c))) as Hr.
  destruct g; calls_auto.
Qed.

(** ** Operations *)

(** The child's backend is as the state has it, and its mechanism is not released. *)
Definition inv (c : AsyncChild) (s : St) : Prop :=
  given_up s = false /\ match proc c with Some p => matches p s | None => True end.

(** A leaf is Linux's; a child has a backend until a teardown takes it. *)
Definition well_formed (c : AsyncChild) : Prop :=
  (is_cgroup (attached (base c)) = true -> platform = Linux) /\ is_Some (proc c).

Lemma may_send_of c s : inv c s -> can_send (proc c) = true -> may_send s.
Proof.
  intros [_ Hm] Hs. unfold may_send. destruct (proc c) as [[[c'|] t i|t f k]|]; try done; [by left|]. right.
  destruct f; try done. split; [by apply Hm|]. cbn in Hs. by destruct platform.
Qed.

Lemma inv_calm c s s' : calm s s' -> inv c s -> inv c s'.
Proof.
  intros Hc [Hg Hm]. split; [by rewrite (calm_given _ _ Hc)|]. destruct (proc c); [by eapply matches_calm|done].
Qed.

Lemma own_calls {A} c s (m : O A) : calls (proc c) m -> inv c s -> okeeps s m (fun _ s' => calm s s' /\ inv c s').
Proof.
  intros Hm Hi. eapply keeps_mono; [eapply keeps_calm; [exact Hm|apply Hi|by intros; eapply may_send_of]|].
  cbn. intros _ s' Hc. split; [done|by eapply inv_calm].
Qed.

(** A part that keeps [calls], taken as a whole. *)
Tactic Notation "quietly" tactic(tac) := apply keeps_own; eapply keeps_mono; [eapply own_calls; [tac|eassumption]|].

Lemma inv_moves c p s s' : inv c s -> moves s s' -> matches p s' -> inv (with_proc c p) s'.
Proof. intros [Hg _] M Hm. split; [by rewrite (moves_given _ _ M)|done]. Qed.

Lemma forget_if_foreign_keeps p s : matches p s -> keeps s (forget_if_foreign p) (fun p' s' => moves s s' /\ matches p' s').
Proof.
  intros Hm. unfold forget_if_foreign. keeps_step. apply keeps_own. keeps_use elsewhere_keeps; [done|].
  intros a s1 (M & Mt & _ & Ho & Ha). destruct a as [x|]; [|by keeps_step].
  destruct Ha as (_ & Hh & Hg). specialize (Ho Hh). cbn in Ho. keeps_step.
  keeps_use forget_noting_keeps; [done|by rewrite Ho|done|]. intros r s2 (M2 & Mt2 & _). keeps_step. split; [by eapply moves_trans|done].
Qed.

(** An operation leaves a child of the same mechanism, as the state has it. *)
Definition goes_on (c c' : AsyncChild) (s' : St) : Prop := base c' = base c /\ is_Some (proc c') /\ inv c' s'.

Lemma goes_on_same c s : is_Some (proc c) -> inv c s -> goes_on c c s.
Proof. intros Hp Hi. by split. Qed.

Lemma async_kill_sent_gated_keeps c g s : is_Some (proc c) -> inv c s ->
  keeps s (async_kill_sent_gated c g) (fun r s' => goes_on c r.2 s').
Proof.
  intros Hp Hi. unfold async_kill_sent_gated. keeps_step. quietly apply signal_gated_calls.
  intros sent s1 [_ Hi1]. destruct (proc c) as [p|] eqn:Ep; [|by destruct Hp].
  assert (Hf : keeps s1 (do! p := forget_if_foreign p in ret (sent, with_proc c p)) (fun r s' => goes_on c r.2 s')).
  { keeps_step. pose proof Hi1 as [_ Hm]. rewrite Ep in Hm. keeps_use forget_if_foreign_keeps; [done|].
    intros p' s2 [M Hm']. keeps_step. split_and!; [done|by eexists|by eapply inv_moves]. }
  assert (Hs : goes_on c c s1) by (apply goes_on_same; [by rewrite Ep|done]).
  destruct sent as [[]|]; first [exact Hf|by keeps_step].
Qed.

Lemma kill_sent_keeps' c s : is_Some (proc c) -> inv c s -> keeps s (async_kill_sent c) (fun r s' => goes_on c r.2 s').
Proof.
  intros Hp Hi. unfold async_kill_sent. keeps_step. quietly apply kill_gate_calls.
  intros g s1 [_ Hi1]. destruct (is_closed g); [by apply async_kill_sent_gated_keeps|].
  keeps_step. quietly apply refuse_calls.
  intros [u|e] s2 [_ Hi2]; [by apply async_kill_sent_gated_keeps|]. keeps_step. by apply goes_on_same.
Qed.

Lemma kill_root_calls c : calls (proc c) (kill_root_through_handle c).
Proof. unfold kill_root_through_handle. apply only_bind; [apply signal_calls|intros; apply only_ret]. Qed.

Lemma kill_tree_gated_keeps' c f s : is_Some (proc c) -> inv c s -> keeps s (async_kill_tree_gated c f) (fun r s' => goes_on c r.2 s').
Proof.
  intros Hp Hi. unfold async_kill_tree_gated. keeps_step.
  quietly (apply root_checked_calls; [apply root_state_calls|apply kill_root_calls]).
  intros [r|] s1 [_ Hi1]; [keeps_step; by apply goes_on_same|].
  keeps_step. quietly apply hard_kill_marking_calls. intros gr s2 [_ Hi2].
  assert (Hsame : forall r : result Error unit, keeps s2 (ret (r, c)) (fun r s' => goes_on c r.2 s')) by (intros; keeps_step; by apply goes_on_same).
  destruct (hard_kill_refused_to_walk _ _); [apply Hsame|]. destruct f as [[]|]; [destruct gr as [u|e]; [|apply Hsame]|apply Hsame|].
  - keeps_step. quietly apply kill_reached_calls. intros r s3 [_ Hi3]. keeps_step. by apply goes_on_same.
  - keeps_step. quietly apply unpinned_calls. intros [] s3 [_ Hi3]; keeps_step.
    + keeps_step. keeps_step. by apply goes_on_same.
    + keeps_step. keeps_use async_kill_sent_gated_keeps; [done|done|]. intros [r c'] s4 Hg. keeps_step. by keeps_step.
Qed.

Lemma kill_tree_keeps' c s : is_Some (proc c) -> inv c s -> keeps s (async_kill_tree c) (fun r s' => goes_on c r.2 s').
Proof.
  intros Hp Hi. unfold async_kill_tree. destruct (require_contained (base c)); [|keeps_step; by apply goes_on_same].
  keeps_step. quietly apply kill_gate_calls.
  intros [] s1 [_ Hi1]; try (by apply kill_tree_gated_keeps'). keeps_step. by apply goes_on_same.
Qed.

Lemma terminate_tree_calls c : calls (proc c) (async_terminate_tree c).
Proof.
  unfold async_terminate_tree. destruct (require_contained (base c)); [|apply only_ret].
  apply only_bind; [apply root_checked_calls; [apply root_state_calls|apply signal_calls]|].
  intros [r|]; [apply only_ret|]. unfold ChildCalls.terminate_tree, send_tree.
  destruct (attached (base c)); try apply only_ret; (apply only_bind; [by apply only_any|intros; apply only_ret]).
Qed.

(** ** The graceful shutdowns *)

Lemma async_goes_on_trans c c1 c2 s1 s2 : goes_on c c1 s1 -> goes_on c1 c2 s2 -> goes_on c c2 s2.
Proof. intros (E1 & _) (E2 & ? & ?). split_and!; [congruence|done|done]. Qed.

Lemma awaiting_keeps {A} s (m : T A) Q : keeps s m Q ->
  keeps s (awaiting m) (fun r s' => match r with None => s' = s | Some a => Q a s' end).
Proof. intros Hm. unfold awaiting. keeps_step. apply keeps_look. intros [|]; keeps_step; [done|]. keeps_use Hm. intros a s' HQ. by keeps_step. Qed.

(** A wait for calls that leave the child as it is. *)
Lemma awaiting_calls {A} c s (m : O A) : calls (proc c) m -> inv c s -> keeps s (awaiting (own m)) (fun _ s' => inv c s').
Proof.
  intros Hm Hi. assert (Hk : keeps s (own m) (fun _ s' => inv c s')).
  { quietly exact Hm. by intros _ s' [_ ?]. }
  eapply keeps_mono; [by apply awaiting_keeps|]. cbn. intros [a|] s'; [done|by intros ->].
Qed.

Lemma terminate_gate_calls c b : only (allowed b) (async_terminate_gate c).
Proof. unfold async_terminate_gate. calls_auto. Qed.

Lemma exited_by_calls b : only (allowed b) exited_by.
Proof. unfold exited_by. by apply only_any. Qed.

Lemma holders_only_calls a sig b : only (allowed b) (holders_only a sig).
Proof. unfold holders_only, signal_holders_only, mark_if, mark, send_holders. calls_auto. Qed.

Lemma holders_error_calls a b : only (allowed b) (holders_shutdown_error a).
Proof. unfold holders_shutdown_error. apply only_bind; [apply holders_only_calls|intros ?]. calls_auto. Qed.

Lemma wait_drained_calls a b : only (allowed b) (ChildCalls.wait_drained a).
Proof. unfold ChildCalls.wait_drained. calls_auto. Qed.

Lemma async_wait_keeps c n s : is_Some (proc c) -> inv c s -> keeps s (async_wait n c) (fun r s' => goes_on c r.2 s').
Proof.
  intros Hp Hi. unfold async_wait. destruct (proc c) as [p|] eqn:Ep; [|by destruct Hp]. pose proof Hi as [_ Hm]. rewrite Ep in Hm.
  keeps_step. keeps_use source_wait_keeps; [done|]. intros [r p'] s' (M & Mt & _). keeps_step. split_and!; [done|by eexists|by eapply inv_moves].
Qed.

Lemma terminate_keeps' c s : inv c s -> keeps s (async_terminate c) (fun _ s' => inv c s').
Proof.
  intros Hi. unfold async_terminate. keeps_step. quietly apply terminate_gate_calls. intros g s1 [_ Hi1].
  assert (Hrest : keeps s1 (do! r := own (async_refuse_unpinned c) in match r with Err e => ret (Err e) | Ok _ => call term_answer TermById end)
    (fun _ s' => inv c s')).
  { keeps_step. quietly apply refuse_calls. intros [u|e] s2 [_ Hi2]; keeps_step; [|done]. by eexists. }
  destruct g; first [exact Hrest|by keeps_step].
Qed.

Lemma escalate_keeps c s : is_Some (proc c) -> inv c s -> keeps s (escalate c) (fun r s' => goes_on c r.2 s').
Proof.
  intros Hp Hi. unfold escalate. keeps_step. quietly apply refuse_calls. intros [u|e] s1 [_ Hi1]; [|keeps_step; by apply goes_on_same].
  keeps_step. quietly apply kill_gate_calls. intros g s2 [_ Hi2]. keeps_step. keeps_use async_kill_sent_gated_keeps; [done..|].
  intros [r c'] s3 Hg. by keeps_step.
Qed.

Lemma reap_after_grace_keeps c n w s : is_Some (proc c) -> inv c s -> keeps s (reap_after_grace c n w) (fun r s' => goes_on c r.2 s').
Proof. intros Hp Hi. unfold reap_after_grace. keeps_step. keeps_use async_wait_keeps; [done..|]. intros [r c'] s' Hg. by keeps_step. Qed.

Lemma async_graceful_keeps c n s : is_Some (proc c) -> inv c s -> keeps s (async_graceful_shutdown c n) (fun r s' => goes_on c r.2 s').
Proof.
  intros Hp Hi. unfold async_graceful_shutdown. keeps_step. keeps_use terminate_keeps'; [done|].
  intros [u|e] s1 Hi1; [|keeps_step; by apply goes_on_same].
  keeps_step. eapply keeps_mono; [by apply awaiting_calls; [apply exited_by_calls|]|]. cbn. intros w s2 Hi2.
  assert (Hkill : forall w, keeps s2 (do2! killed, c := escalate c in
    match killed with Err e => ret (Some (Err e), c) | Ok _ => reap_after_grace c n w end) (fun r s' => goes_on c r.2 s')).
  { intros w'. keeps_step. keeps_use escalate_keeps; [done..|]. intros [k c1] s3 Hg. cbn in Hg. pose proof Hg as (_ & Hp1 & Hi3).
    destruct k as [u'|e]; [|by keeps_step]. keeps_use reap_after_grace_keeps; [done..|]. intros r s4 Hg'. by eapply async_goes_on_trans. }
  destruct w as [[[]|e]|]; [by apply reap_after_grace_keeps|apply Hkill|apply Hkill|]. keeps_step. by apply goes_on_same.
Qed.

Lemma async_grace_wait_keeps c s : inv c s -> keeps s (async_grace_wait c) (fun _ s' => inv c s').
Proof.
  intros Hi. unfold async_grace_wait.
  assert (Hroot : forall s0, inv c s0 -> keeps s0 (do! w := awaiting (own exited_by) in ret (root_watched w)) (fun _ s' => inv c s')).
  { intros s0 Hi0. keeps_step. eapply keeps_mono; [by apply awaiting_calls; [apply exited_by_calls|]|]. cbn. intros w s' Hi'. by keeps_step. }
  destruct (containment_drains _); [|by apply Hroot]. keeps_step.
  eapply keeps_mono; [by apply awaiting_calls; [apply wait_drained_calls|]|]. cbn. intros [[v|e]|] s1 Hi1; [|by keeps_step..].
  destruct (permits_skipping_sweep v); [by keeps_step|by apply Hroot].
Qed.

Lemma reap_swept_keeps c n e s : is_Some (proc c) -> inv c s -> keeps s (reap_swept c n e) (fun r s' => goes_on c r.2 s').
Proof.
  intros Hp Hi. unfold reap_swept. keeps_step. quietly apply unpinned_calls. intros [] s1 [_ Hi1]; [keeps_step; by apply goes_on_same|].
  destruct (match proc c with Some p => forgot_unproven p | None => false end); [keeps_step; by apply goes_on_same|].
  keeps_step. keeps_use async_wait_keeps; [done..|]. intros [r c'] s' Hg. by keeps_step.
Qed.

Lemma reap_unswept_keeps c n b e s : is_Some (proc c) -> inv c s -> keeps s (reap_unswept c n b e) (fun r s' => goes_on c r.2 s').
Proof.
  intros Hp Hi. unfold reap_unswept. destruct b; [|keeps_step; by apply goes_on_same].
  keeps_step. quietly apply unpinned_calls. intros [] s1 [_ Hi1]; [keeps_step; by apply goes_on_same|].
  keeps_step. keeps_use async_wait_keeps; [done..|]. intros [r c'] s' Hg. by keeps_step.
Qed.

Lemma async_after_term_keeps c n s : is_Some (proc c) -> inv c s -> keeps s (async_after_term c n) (fun r s' => goes_on c r.2 s').
Proof.
  intros Hp Hi. unfold async_after_term. keeps_step. keeps_use async_grace_wait_keeps; [done|].
  intros [[[drained exited] e]|] s1 Hi1; [|keeps_step; by apply goes_on_same]. unfold async_sweep_and_reap. keeps_step.
  assert (Hsweep : keeps s1 (if drained then ret (Ok tt, c) else async_kill_tree c) (fun r s' => goes_on c r.2 s')).
  { destruct drained; [keeps_step; by apply goes_on_same|by apply kill_tree_keeps']. }
  keeps_use Hsweep. intros [swept c1] s2 Hg. cbn in Hg. pose proof Hg as (_ & Hp1 & Hi2).
  destruct swept as [u|x]; [eapply keeps_mono; [by apply reap_swept_keeps|]|eapply keeps_mono; [by apply reap_unswept_keeps|]];
    cbn; intros r s3 Hg'; by eapply async_goes_on_trans.
Qed.

Lemma exited_within_calls c s : inv c s -> keeps s (exited_within (proc c)) (fun _ s' => inv c s').
Proof.
  intros Hi. assert (Hw : keeps s (own exited_by) (fun _ s' => inv c s')).
  { quietly apply exited_by_calls. by intros _ s' [_ ?]. }
  unfold exited_within. destruct (proc c) as [[c0 t i|t f k]|]; [exact Hw|destruct (gone f); [by keeps_step|exact Hw]|by keeps_step].
Qed.

Lemma async_shut_down_root_keeps c s : inv c s -> keeps s (async_shut_down_root_through_pidfd c) (fun _ s' => inv c s').
Proof.
  intros Hi. unfold async_shut_down_root_through_pidfd. keeps_step. quietly apply terminate_gate_calls. intros g s1 [_ Hi1].
  keeps_step. quietly (unfold pidfd_shutdown_start; destruct g; calls_auto; apply signal_calls).
  intros [term|e] s2 [_ Hi2]; [|by keeps_step]. keeps_step.
  assert (Hex : keeps s2 (if needs_grace term then do! w := awaiting (exited_within (proc c)) in ret (Some w) else ret None) (fun _ s' => inv c s')).
  { destruct (needs_grace term); [|by keeps_step]. keeps_step. eapply keeps_mono; [by eapply awaiting_keeps, exited_within_calls|].
    cbn. intros [w|] s' Hw; keeps_step; [done|by subst]. }
  assert (Hfin : forall x s', inv c s' -> keeps s' (do! e := own (pidfd_shutdown_finish term x (async_kill_gate (front (base c)) (proc c) (attached (base c)))
    (kill_root_through_handle c)) in ret (Some e)) (fun _ s' => inv c s')).
  { intros x s' Hi'. keeps_step.
    quietly (unfold pidfd_shutdown_finish; calls_auto; first [apply kill_gate_calls|apply signal_calls]). intros e s'' [_ Hi'']. by keeps_step. }
  keeps_use Hex. intros [[w|]|] s3 Hi3; [by apply Hfin|by keeps_step|by apply Hfin].
Qed.

Lemma async_shut_down_holders_keeps c s : inv c s -> keeps s (async_shut_down_holders_only c) (fun _ s' => inv c s').
Proof.
  intros Hi. unfold async_shut_down_holders_only. keeps_step. quietly apply holders_only_calls. intros r s1 [_ Hi1]. keeps_step.
  eapply keeps_mono; [by apply awaiting_calls; [apply wait_drained_calls|]|]. cbn. intros [d|] s2 Hi2; [|by keeps_step].
  keeps_step. quietly apply holders_error_calls. intros e s3 [_ Hi3]. by keeps_step.
Qed.

Lemma graceful_decided_calls c b : only (allowed b) (TreeCall.graceful (attached (base c)) (root_state_of (proc c))).
Proof.
  unfold TreeCall.graceful, call_root_number, root_number, number_of_state, through_the_pidfd, untrusted, no_walk, empty_group,
    number_skipped, signal_tree_untrusted, signal_group_and_holders, signal_holders_only, mark_if, send_group_and_holders,
    send_holders, root_identity_now, has_member, mark.
  calls_auto.
Qed.

Lemma graceful_tree_keeps c n s : is_Some (proc c) -> inv c s -> keeps s (async_graceful_shutdown_tree c n) (fun r s' => goes_on c r.2 s').
Proof.
  intros Hp Hi. unfold async_graceful_shutdown_tree. destruct (require_contained _); [|keeps_step; by apply goes_on_same].
  keeps_step. quietly apply graceful_decided_calls. intros d s1 [_ Hi1].
  assert (Hterm : forall m : O (result Error unit), calls (proc c) m -> keeps s1 (do! term := own m in
    match term with Ok _ => async_after_term c n | Err e => if held_refusal e then async_after_term c n else ret (Some (Err e), c) end)
    (fun r s' => goes_on c r.2 s')).
  { intros m Hm. keeps_step. quietly exact Hm. intros [u'|e] s2 [_ Hi2]; [by apply async_after_term_keeps|].
    destruct (held_refusal e); [by apply async_after_term_keeps|keeps_step; by apply goes_on_same]. }
  assert (Hall : calls (proc c) (ChildCalls.terminate_tree (attached (base c)))) by (unfold ChildCalls.terminate_tree, send_tree; calls_auto).
  destruct d; try (apply Hterm; first [exact Hall|apply only_ret]).
  - keeps_step. by apply goes_on_same.
  - keeps_step. keeps_use async_shut_down_root_keeps; [done|]. intros e s2 Hi2. keeps_step. by apply goes_on_same.
  - keeps_step. keeps_use async_shut_down_holders_keeps; [done|]. intros e s2 Hi2. keeps_step. by apply goes_on_same.
Qed.

(** [goes_on], but for [detach], which disarms. *)
Definition lives_on (c c' : AsyncChild) (s' : St) : Prop :=
  attached (base c') = attached (base c) /\ id (base c') = id (base c) /\ is_Some (proc c') /\ inv c' s'.

Lemma run_op_keeps c o s : is_Some (proc c) -> inv c s -> keeps s (run_op c o) (fun c' s' => lives_on c c' s').
Proof.
  intros Hp Hi. assert (Hw : forall c' s', goes_on c c' s' -> lives_on c c' s') by (by intros c' s' (E & ? & ?); split_and!; rewrite ?E).
  destruct o as [n| | | | | | |n|n]; cbn [run_op].
  - keeps_step. keeps_use async_wait_keeps; [done..|]. intros [r c'] s' Hg. keeps_step. auto.
  - keeps_step. unfold async_try_wait. destruct (proc c) as [p|] eqn:Ep; [|by destruct Hp]. pose proof Hi as [_ Hm]. rewrite Ep in Hm.
    keeps_step. keeps_use try_wait_keeps; [done|]. intros [r p'] s' (M & Mt & _). keeps_step. keeps_step.
    split_and!; [done|done|by eexists|by eapply inv_moves].
  - keeps_step. keeps_use kill_sent_keeps'; [done..|]. intros [r c'] s' Hg. keeps_step. auto.
  - keeps_step. keeps_use kill_tree_keeps'; [done..|]. intros [r c'] s' Hg. keeps_step. auto.
  - keeps_step. keeps_use terminate_keeps'; [done|]. intros r s' Hi'. keeps_step. by split_and!.
  - keeps_step. quietly apply terminate_tree_calls. intros _ s' [_ Hi']. keeps_step. by split_and!.
  - apply keeps_own. unfold async_detach. keeps_step.
    apply (keeps_mono _ _ _ (fun _ s' => s' = s)); [|intros _ s' ->; keeps_step; by split_and!].
    unfold disarm. by destruct (attached (base c)); first [keeps_step|eapply keeps_note; [reflexivity|]].
  - keeps_step. keeps_use async_graceful_keeps; [done..|]. intros [r c'] s' Hg. keeps_step. auto.
  - keeps_step. keeps_use graceful_tree_keeps; [done..|]. intros [r c'] s' Hg. keeps_step. auto.
Qed.

(** ** The teardown *)

(** What the view of a teardown says of the state. *)
Record viewed (v : DropView) (s : St) : Prop := {
  viewed_reaped : view_root v = ViewReaped -> place s = HoldsChild -> is_shown (ours s) && number s = false;
  viewed_number : view_root v <> ViewReaped -> number s = true;
  viewed_alone : leaves_root_alone v = true -> ended s = true }.

Lemma viewed_ended v s : viewed v s -> view_root v = ViewReaped -> ended s = true.
Proof. intros Hv Hr. apply (viewed_alone _ _ Hv). unfold leaves_root_alone. by rewrite Hr. Qed.

Lemma state_keeps p s : matches p s ->
  okeeps s (state p) (fun a s' => matches p s' /\ calm s s' /\ number s' = number s
    /\ (place s' = HoldsChild -> ours s' = shown_if false (is_unreaped a))
    /\ (match a with RootReaped _ | Unpinned => ended s' = true | _ => True end)).
Proof.
  intros Hm. unfold state. destruct p as [[c|] t i|t f k].
  - destruct Hm as (Hp & Hr & He). keeps_step. split_and!; [done|apply calm_refl|done|congruence|done].
  - keeps_use state_of_keeps; [done|]. intros a s' Hl. pose proof Hl as [M Hp Hr Ho He].
    split_and!; [by eapply matches_looked|split; [done|apply M|done|apply M]|apply M|done|done].
  - destruct Hm as [Hp Hg]. destruct f; keeps_step; (split_and!; [done|apply calm_refl|done|congruence|by auto]).
Qed.

Lemma read_root_view_keeps c p s : id (base c) = me -> proc c = Some p -> matches p s ->
  okeeps s (read_root_view c) (fun v s' => matches p s' /\ calm s s' /\ viewed v s').
Proof.
  intros Hid Hp Hm. unfold read_root_view, root_identity_now. keeps_step. keeps_step. eexists. split; [reflexivity|].
  set (s1 := st _ _ _ _ _ _ _). assert (C1 : calm s s1) by (split; cbn; try done; by intros ->).
  assert (Mt1 : matches p s1) by (by eapply matches_calm). rewrite Hp. keeps_step. keeps_use state_keeps; [done|].
  intros x s2 (Mt2 & C2 & Hn2 & Ho2 & He2). keeps_step. apply keeps_look. intros k. keeps_step.
  split_and!; [done|by eapply calm_trans|]. rewrite Hid. cbn in Hn2.
  assert (Hx : forall b, root_reaped b me a = b || negb (still_named me a)).
  { intros b. unfold root_reaped, still_named. destruct b, a; try done. cbn. by repeat case_bool_decide. }
  assert (Hgone : still_named me a = false -> ended s2 = true) by (intros Hs; apply (calm_ended _ _ C2); cbn; by rewrite Hs, orb_true_r).
  unfold view_of. rewrite Hx.
  destruct (match x with RootReaped _ => true | _ => false end || negb (still_named me a)) eqn:E.
  - assert (He : ended s2 = true).
    { destruct x; cbn in E; try exact He2; apply Hgone; by destruct (still_named me a). }
    split; cbn; try done. intros _ Hh. rewrite (Ho2 Hh), Hn2. destruct x; cbn in E |- *; try done. by destruct (still_named me a).
  - assert (Hn : number s2 = true) by (rewrite Hn2; destruct x; cbn in E; try done; by destruct (still_named me a)).
    by destruct x; split.
Qed.

(** The kill of a drop's tree. *)
Lemma hard_kill_for_teardown_keeps a v s : given_up s = false ->
  okeeps s (hard_kill_for_drop a v) (fun r s' => calm s s' /\ ours s' = ours s /\ number s' = number s
    /\ (is_cgroup a = true -> r.1 = Ok tt -> leaf_killed s' = true)).
Proof.
  intros Hg. destruct a.
  4: { unfold hard_kill_for_drop, drop_reach, skipped_action, hard_kill, hard_kill_report, send_tree. cbn. repeat keeps_step. cbn. rewrite Hg.
       eexists. split; [reflexivity|]. keeps_step. keeps_step. keeps_step. by destruct a. }
  all: assert (Hs : forall s', s' = s -> calm s s' /\ ours s' = ours s /\ number s' = number s) by (intros ? ->; split_and!; [apply calm_refl|done..]).
  all: unfold hard_kill_for_drop, drop_reach, through_the_pidfd, has_member, kill_holders_of, send_holders, hard_kill, hard_kill_report, send_tree;
    destruct (skipped_action v _), platform; cbn; repeat keeps_step;
    repeat first
      [ progress (cbn; rewrite ?Hg)
      | match goal with |- exists s', _ = Some s' /\ _ => eexists; split; [reflexivity|] end
      | keeps_step
      | match goal with |- History.keeps _ _ (match ?x with _ => _ end) _ => choose_in x end ].
  all: try (by split_and!; [apply Hs|apply Hs|apply Hs|]).
Qed.

(** A look that ends a front's kill. *)
Definition seen (p : ProcSource) (s s' : St) : Prop := matches p s' /\ calm s s' /\ number s' = number s /\ leaf_killed s' = leaf_killed s.

Lemma seen_refl p s : matches p s -> seen p s s.
Proof. intros Hm. by split; [|split; [apply calm_refl|]]. Qed.

Lemma seen_trans p s1 s2 s3 : seen p s1 s2 -> seen p s2 s3 -> seen p s1 s3.
Proof. intros (? & C & Hn & Hl) (? & C' & Hn' & Hl'). split_and!; [done|by eapply calm_trans|congruence..]. Qed.

Lemma is_running_keeps p s : platform = Linux -> matches p s ->
  okeeps s (is_running p) (fun r s' => seen p s s' /\ (r = Ok false -> ended s' = true)).
Proof.
  intros Hl Hm. assert (Hrun : okeeps s root_running (fun r s' => seen p s s' /\ (r = Ok false -> ended s' = true))).
  { unfold root_running. keeps_step. keeps_step. eexists. split; [reflexivity|]. keeps_step. split.
    - split_and!; [auto|apply calm_ours|done|done]. by apply matches_ours.
    - destruct a as [[]|]; try done; intros _; cbn; by rewrite orb_true_r. }
  unfold is_running. rewrite Hl. destruct p as [[c|] t i|t f k]; cbn.
  - destruct Hm as (Hp & Hr & He). keeps_step. split; [by apply seen_refl|done].
  - destruct i; exact Hrun.
  - destruct Hm as [Hp Hg]. destruct f; [| |exact Hrun]; keeps_step; (split; [by apply seen_refl|by auto]).
Qed.

Lemma kill_reached_keeps f p a s : platform = Linux -> matches p s ->
  okeeps s (async_cgroup_kill_reached f (Some p) a) (fun r s' => seen p s s' /\ (r = Ok tt -> ended s' = true)).
Proof.
  intros Hl Hm. unfold async_cgroup_kill_reached. destruct f as [f|]; [|by keeps_step; split; [apply seen_refl|]].
  assert (Hx : forall s0, matches p s0 -> okeeps s0 (exited_of (Some p)) (fun r s' => seen p s0 s' /\ (r = Ok true -> ended s' = true))).
  { intros s0 Hm0. unfold exited_of. keeps_step. keeps_use is_running_keeps; [done|done|]. intros r s' [Hs He]. keeps_step.
    split; [done|]. destruct r as [[]|]; try done; auto. }
  keeps_step. keeps_use Hx; [done|]. intros e1 s1 [Hs1 He1]. assert (Hm1 : matches p s1) by apply Hs1.
  assert (Hlast : forall placed s2, seen p s s2 -> placed <> Ok true -> e1 <> Ok true ->
    okeeps s2 (do! e2 := exited_of (Some p) in ret (ElevationPlan.cgroup_kill_reached (Some f) e1 placed e2))
      (fun r s' => seen p s s' /\ (r = Ok tt -> ended s' = true))).
  { intros placed s2 Hs2 Hp He. keeps_step. keeps_use Hx; [apply Hs2|]. intros e2 s3 [Hs3 He3]. keeps_step. split; [by eapply seen_trans|].
    destruct e1 as [[]|]; try done; destruct placed as [[]|]; try done; destruct e2 as [[]|]; try done; intros _; by apply He3. }
  assert (Hrest : e1 <> Ok true -> okeeps s1 (do! placed := cgroup_names a in
    match placed with Ok true => ret (Ok tt) | _ => do! e2 := exited_of (Some p) in ret (ElevationPlan.cgroup_kill_reached (Some f) e1 placed e2) end)
    (fun r s' => seen p s s' /\ (r = Ok tt -> ended s' = true))).
  { intros He. keeps_step. unfold cgroup_names. destruct (is_cgroup a); [|keeps_step; by apply Hlast].
    keeps_step. eexists. split; [reflexivity|]. set (s2 := set_ended _ s1).
    assert (Hs2 : seen p s s2) by (eapply seen_trans; [exact Hs1|]; split_and!; [eapply matches_calm; [apply calm_set_ended|done]|apply calm_set_ended|done..]).
    destruct a0 as [[]|x]; [|by apply Hlast..]. keeps_step. split; [done|]. intros _. cbn. by rewrite orb_true_r. }
  destruct e1 as [[]|]; [|by apply Hrest..]. keeps_step. split; [done|auto].
Qed.

(** A gate that leaves a kill to the leaf is a leaf's. *)
Lemma kill_gate_keeps' c p s : proc c = Some p -> inv c s ->
  okeeps s (async_kill_gate (front (base c)) (proc c) (attached (base c))) (fun g s' => calm s s' /\ inv c s'
    /\ (g = CgroupOnly -> is_cgroup (attached (base c)) = true)).
Proof.
  intros Hp Hi. unfold async_kill_gate. destruct (front (base c)) as [f|]; [|keeps_step; by split_and!; [apply calm_refl|..]].
  keeps_step. eapply keeps_mono; [eapply own_calls; [apply running_calls|done]|]. cbn. intros r1 s1 [C1 I1].
  assert (Hrest : r1 <> Ok false -> okeeps s1 (do! placed := kill_reaches_across_credentials (attached (base c)) in
    match placed with Ok true => ret CgroupOnly | _ => do! r2 := running_of (proc c) in ret (ElevationPlan.kill_gate (Some f) r1 placed r2) end)
    (fun g s' => calm s s' /\ inv c s' /\ (g = CgroupOnly -> is_cgroup (attached (base c)) = true))).
  { intros Hr. assert (Hlast : forall placed s2, calm s s2 -> inv c s2 -> placed <> Ok true ->
      okeeps s2 (do! r2 := running_of (proc c) in ret (ElevationPlan.kill_gate (Some f) r1 placed r2))
        (fun g s' => calm s s' /\ inv c s' /\ (g = CgroupOnly -> is_cgroup (attached (base c)) = true))).
    { intros placed s2 C2 I2 Hpl. keeps_step. eapply keeps_mono; [eapply own_calls; [apply running_calls|done]|]. cbn. intros r2 s3 [C3 I3].
      keeps_step. split_and!; [by eapply calm_trans|done|]. destruct r1 as [[]|], placed as [[]|], r2 as [[]|]; done. }
    keeps_step. unfold kill_reaches_across_credentials. destruct (is_cgroup (attached (base c))) eqn:Ec; [|keeps_step; by apply Hlast].
    keeps_step. exists s1. split; [reflexivity|]. destruct a as [[]|x]; [keeps_step; by split_and!|by apply Hlast..]. }
  destruct r1 as [[]|]; [by apply Hrest| |by apply Hrest]. keeps_step. by split_and!.
Qed.

(** What the signals of a teardown say, on a mechanism [a]: it waits only for what is killed or gone, and for
    a leaf's drain only if its kill was taken; a killed child is, and a reaped one's status was collected. *)
Record signals_so (a : Attached) (d : DropSignals) (s : St) : Prop := {
  so_ended : settle d <> SettleNothing -> ended s = true;
  so_leaf : settle d <> SettleNothing -> is_cgroup a = true -> tree_failed d = false -> leaf_killed s = true;
  so_killed : fate d = Killed -> ended s = true;
  so_reaped : fate d = Reaped_ -> reaped s = true }.

Lemma signals_so_moves a d s s' : moves s s' -> signals_so a d s -> signals_so a d s'.
Proof.
  intros M [He Hl Hk Hr]. split; rewrite ?(moves_leaf _ _ M); auto; intros Hx; [apply (moves_ended _ _ M)|apply (moves_ended _ _ M)|apply (moves_reaped _ _ M)]; auto.
Qed.

(** Between the view and the release. *)
Record under_way (own : bool) (v : DropView) (a : Attached) (d : DropSignals) (p : option ProcSource) (s : St) : Prop := {
  way_own : own = true -> place s <> HoldsChild;
  way_forgot : is_Some (forgot_ d) -> place s <> HoldsChild;
  way_matches : match p with Some p => matches p s | None => False end;
  way_given : given_up s = false;
  way_viewed : viewed v s;
  way_signals : signals_so a d s }.

Lemma viewed_moves v s s' : view_root v <> ViewReaped -> moves s s' -> viewed v s -> viewed v s'.
Proof.
  intros Hv M [Hr Hn Ha]. split; [done|by rewrite (moves_number _ _ M)|]. intros Hx. by apply (moves_ended _ _ M), Ha.
Qed.

(** A fate without a claim, and nothing to wait for. *)
Lemma signals_so_idle a d s : settle d = SettleNothing -> unclaimed (fate d) -> signals_so a d s.
Proof. intros Hs [Hr Hk]. by split. Qed.

Lemma not_alone_not_reaped v : leaves_root_alone v = false -> view_root v <> ViewReaped.
Proof. unfold leaves_root_alone. by destruct (view_root v). Qed.

Lemma look_fate_unclaimed (looked : result Error (option Z)) f id_ :
  f = fate_of_a_look match looked with Ok s => Ok s | Err e => Err (raw_os_error (into_io e)) end id_ ->
  f <> Killed /\ (f = Reaped_ -> exists st, looked = Ok (Some st)).
Proof.
  intros ->. destruct looked as [[st|]|e]; cbn; [by split; eauto|done|]. destruct (raw_os_error (into_io e)) as [x|]; [|done].
  by destruct (x =? ECHILD).
Qed.

Lemma kill_root_on_drop_keeps own_ id_ v a p d s :
  (own_ = true -> place s <> HoldsChild) -> forgot_ d = None -> leaves_root_alone v = false -> matches p s -> given_up s = false -> viewed v s ->
  fate d = FateUnknown -> settle d = SettleNothing -> (is_cgroup a = true -> tree_failed d = false -> leaf_killed s = true) ->
  keeps s (kill_root_on_drop id_ v (Some p) d) (fun r s' => under_way own_ v a r.1 r.2 s').
Proof.
  intros Hw Hfd Hv Hm Hg Hvw Hf Hs Hl. pose proof (not_alone_not_reaped _ Hv) as Hnr. unfold kill_root_on_drop. keeps_step. apply keeps_own.
  keeps_use source_signal_keeps; [done|]. intros killed s1 (M1 & Mt1 & Hp1 & Ho1 & Hr1 & He1 & Hd1 & _).
  assert (Hv1 : viewed v s1) by (by eapply viewed_moves). assert (Hg1 : given_up s1 = false) by (by rewrite (moves_given _ _ M1)).
  assert (Hh : forall s', moves s1 s' -> own_ = true -> place s' <> HoldsChild).
  { intros s' M Ho Hp. by apply (Hw Ho), (moves_held _ _ M1), (moves_held _ _ M). }
  assert (Hnf : forall s' d', forgot_ d' = None -> is_Some (forgot_ d') -> place s' <> HoldsChild) by (intros ? ? -> [? ?]; done).
  assert (Hidle : forall s' p' d', (is_Some (forgot_ d') -> place s' <> HoldsChild) -> moves s1 s' -> matches p' s' -> settle d' = SettleNothing -> unclaimed (fate d') -> under_way own_ v a d' (Some p') s').
  { intros s' p' d' Hfo M Mt Hsd Hu. split; [by apply Hh|done|done|by rewrite (moves_given _ _ M)|by eapply viewed_moves|by apply signals_so_idle]. }
  destruct killed as [[]|e].
  - keeps_step. split; [by apply Hh, moves_refl|by apply Hnf|done..|]. split; cbn; try done; [by intros _; apply Hd1; auto| |by intros _; apply Hd1; auto].
    intros _ Hc Ht. rewrite (moves_leaf _ _ M1). auto.
  - keeps_step. split; [by apply Hh, moves_refl|by apply Hnf|done..|]. split; cbn; try done; [by intros _; apply Hd1; auto|].
    intros _ Hc Ht. rewrite (moves_leaf _ _ M1). auto.
  - keeps_step. by apply Hidle; [apply Hnf|apply moves_refl|..].
  - keeps_step. keeps_use forget_for_keeps; [done|done|done|]. intros [f p2] s2 (M2 & Mt2 & Ho2 & Hx2). cbn in *.
    destruct f as [g|].
    { destruct Hx2 as [Hpl _]. keeps_step. apply Hidle; [by rewrite Hpl|done|done|done|by cbn; destruct (reaped_elsewhere g)]. }
    destruct (forgotten_fate (Some id_) p2) as [f|] eqn:Eff.
    { keeps_step. apply Hidle; [by apply Hnf|done|done|done|]. destruct p2 as [|t f0 k]; [done|]. cbn in Eff. simplify_eq. by cbn; destruct (gone f0). }
    destruct (src_is_reaped p2) eqn:Er.
    { keeps_step. split; [by apply Hh|by apply Hnf|done|by rewrite (moves_given _ _ M2)|by eapply viewed_moves|]. split; cbn; rewrite ?Hs; try done.
      intros _. destruct p2 as [[c|] t i|t f k]; [by apply Mt2|done|done]. }
    keeps_step. keeps_use try_wait_keeps; [done|]. intros [looked p3] s3 (M3 & Mt3 & Hr3). cbn in *. keeps_step.
    destruct (look_fate_unclaimed looked _ (Some id_) eq_refl) as [Hk Hre].
    split; [by apply Hh; eapply moves_trans|by apply Hnf; destruct looked as [[]|]|by cbn|by rewrite (moves_given _ _ M3), (moves_given _ _ M2)|by eapply viewed_moves; [..|eapply viewed_moves]|].
    destruct looked as [[c|]|e']; split; cbn; rewrite ?Hs; try done; try (by intros _; apply Hr3); intros E; by destruct (Hre E).
Qed.

(** [signal_on_drop]. *)
Lemma signal_on_drop_keeps own_ id_ v f p a s :
  (own_ = true -> place s <> HoldsChild) ->
  (is_cgroup a = true -> platform = Linux) -> (is_Some f -> is_cgroup a = true) ->
  matches p s -> given_up s = false -> viewed v s ->
  keeps s (signal_on_drop id_ v f (Some p) a) (fun r s' => under_way own_ v a r.1 r.2 s').
Proof.
  intros Hown Hw Hf Hm Hg Hv. unfold signal_on_drop. keeps_step. apply keeps_own. keeps_use hard_kill_for_teardown_keeps; [done|].
  intros [tree skip] s1 (C1 & Ho1 & Hn1 & Hl1). cbn in *.
  assert (Mt1 : matches p s1) by (by eapply matches_calm). assert (Hg1 : given_up s1 = false) by (by rewrite (calm_given _ _ C1)).
  assert (Hv1 : viewed v s1).
  { destruct Hv as [Vr Vn Va]. split; [by rewrite (calm_place _ _ C1), Ho1, Hn1|by rewrite Hn1|intros Hx; by apply (calm_ended _ _ C1), Va]. }
  assert (Hlk : is_cgroup a = true -> match tree with Ok _ => false | Err _ => true end = false -> leaf_killed s1 = true).
  { intros Hc. destruct tree as [[]|]; [intros _; by apply Hl1|done]. }
  assert (Hown1 : forall s', calm s1 s' -> own_ = true -> place s' <> HoldsChild).
  { intros s' C. rewrite (calm_place _ _ C), (calm_place _ _ C1). done. }
  destruct (leaves_root_alone v) eqn:Ev.
  { keeps_step. split; [by apply Hown1, calm_refl|by intros [? ?]|done..|]. split; cbn; try done. intros _. by apply (viewed_alone _ _ Hv1). }
  pose proof (not_alone_not_reaped _ Ev) as Hnr.
  destruct f as [f|]; [|by apply kill_root_on_drop_keeps; [apply Hown1, calm_refl|..]].
  assert (Hlin : platform = Linux) by (apply Hw, Hf; by eexists).
  keeps_step. destruct tree as [[]|e].
  - apply keeps_own. keeps_use kill_reached_keeps; [done|done|]. intros r s2 [(Mt2 & C2 & Hn2 & Hl2) He]. keeps_step.
    assert (Hv2 : viewed v s2) by (split; [done|by rewrite Hn2; apply (viewed_number _ _ Hv1)|intros Hx; by apply (calm_ended _ _ C2), (viewed_alone _ _ Hv1)]).
    assert (Hnf : forall d', forgot_ d' = None -> is_Some (forgot_ d') -> place s2 <> HoldsChild) by (intros ? -> [? ?]; done).
    split; [by apply Hown1|by apply Hnf; destruct r|done|by rewrite (calm_given _ _ C2)|done|]. destruct r as [[]|e]; [|by apply signals_so_idle].
    split; cbn; try done; intros _; [by apply He| |by apply He]. intros Hc _. rewrite Hl2. by apply Hlk.
  - keeps_step. keeps_step. split; [by apply Hown1, calm_refl|by intros [? ?]|done..|]. by apply signals_so_idle.
Qed.

(** What is known to be collected, or ended, stays so. *)
Definition grows (s s' : St) : Prop := (reaped s = true -> reaped s' = true) /\ (ended s = true -> ended s' = true).

Lemma own_step_grows s e s' : own_step me s e = Some s' -> grows s s'.
Proof. intros Hs. destruct e; cbn in Hs; repeat case_match; simplify_eq; (split; cbn; try done); by intros ->. Qed.

Lemma step_grows s e s' : step me s e = Some s' -> grows s s'.
Proof.
  intros Hs. destruct e; cbn in Hs; [by eapply own_step_grows|..]; repeat case_match; simplify_eq; (split; cbn; try done); by intros ->.
Qed.

Lemma keeps_grows {A} s (m : T A) Q : keeps s m Q -> keeps s m (fun a s' => Q a s' /\ grows s s').
Proof.
  intros Hm h. eapply wp_mono; [apply Hm|]. intros a t (s' & Ht & HQ). exists s'. split_and!; [done|done|]. clear Hm HQ.
  revert s Ht. induction t as [|e t IH]; intros s Ht; cbn in Ht; [by simplify_eq|].
  destruct (step me s e) as [s1|] eqn:Es; [|done]. destruct (step_grows _ _ _ Es), (IH _ Ht). split; auto.
Qed.

(** A teardown whose backend may be released: a child that is held is shown ours, or was asked for since. *)
Record ready (a : Attached) (d : DropSignals) (p : option ProcSource) (s : St) : Prop := {
  ready_matches : match p with Some p => matches p s | None => False end;
  ready_given : given_up s = false;
  ready_held : place s = HoldsChild -> not_denied (ours s) && number s = true;
  ready_signals : signals_so a d s }.

Lemma look_again_keeps own_ v a d p s : under_way own_ v a d p s ->
  keeps s (look_again v own_ p d) (fun r s' => ready a r.1 r.2 s' /\ settle r.1 = settle d).
Proof.
  intros [Ho Hf Hm Hg Hv Hs]. unfold look_again. destruct p as [p|]; [|done].
  destruct (negb own_ && negb (bool_decide (is_Some (forgot_ d)))) eqn:E.
  - keeps_step. keeps_use forget_for_keeps; [done|apply Hv|by apply viewed_ended|].
    intros [f p'] s' (M & Mt & Hh & Hx). cbn in *. keeps_step.
    assert (Hso : signals_so a d s') by (by eapply signals_so_moves).
    split; [|by destruct f]. split; cbn; [done|by rewrite (moves_given _ _ M)| |].
    + intros Hp. destruct (Hh (proj2 (matches_held _ _ Mt) Hp)) as [Hou Hr]. rewrite Hou, (moves_number _ _ M). by apply (viewed_number _ _ Hv).
    + destruct f as [g|]; [|done]. destruct Hso as [He Hl Hk Hr]. destruct Hx as [Hpl Hre].
      split; cbn; try done; destruct (reaped_elsewhere g), (fate d); try done; auto.
  - keeps_step. split; [|done]. split; [done|done| |done]. intros Hp. destruct own_; [by destruct Ho|]. cbn in E.
    destruct (decide (is_Some (forgot_ d))) as [Hi|Hi]; [by destruct (Hf Hi)|]. by rewrite bool_decide_false in E.
Qed.

(** What [signal_for_teardown] found of the child's earlier fate. *)
Record found_before (c : AsyncChild) (x : Signalled) (s : St) : Prop := {
  found_attached : sig_attached x = attached (base c);
  found_reaped : own_reap x = true -> forgotten_before x = None -> reaped s = true;
  found_unclaimed : match forgotten_before x with Some f => unclaimed f | None => True end }.

Lemma forgotten_unclaimed id_ p : match forgotten_fate id_ p with Some f => unclaimed f | None => True end.
Proof. destruct p as [|t f k]; [done|]. cbn. by destruct (gone f). Qed.

Lemma signal_for_teardown_keeps c s : id (base c) = me -> well_formed c -> inv c s ->
  keeps s (signal_for_teardown c) (fun x s' => ready (attached (base c)) (signals x) (sig_proc x) s' /\ found_before c x s'
    /\ (kill_on_drop (base c) = false -> settle (signals x) = SettleNothing)).
Proof.
  intros Hid [Hw [p Ep]] Hi. unfold signal_for_teardown. rewrite Ep. set (own_ := src_is_reaped p). cbn [mbind option_bind].
  set (a := attached (base c)). set (fb := forgotten_fate (Some (id (base c))) p).
  assert (Hfb : match fb with Some f => unclaimed f | None => True end) by apply forgotten_unclaimed.
  assert (Hnone : fb = None -> own_ = true -> forall s0, matches p s0 -> reaped s0 = true).
  { unfold fb, own_. destruct p as [[c'|] t i|t f k]; try done. by intros _ _ s0 (_ & ? & _). }
  (* the gate *)
  keeps_step. set (gate := if kill_on_drop (base c) then _ else _).
  assert (Hgate : keeps s gate (fun g s' => inv c s' /\ (g = Some CgroupOnly -> is_cgroup a = true) /\ (kill_on_drop (base c) = false -> g = None))).
  { unfold gate. destruct (kill_on_drop (base c)); [|by keeps_step]. keeps_step. apply keeps_own. rewrite <- Ep.
    eapply keeps_mono; [by eapply kill_gate_keeps'|]. cbn. intros g s1 (_ & I1 & Hg). keeps_step. split_and!; [done|by intros [= ->]; apply Hg|done]. }
  keeps_use Hgate. intros g s1 (I1 & Hcg & Hdis). clear Hgate gate. pose proof I1 as [G1 M1]. rewrite Ep in M1.
  (* the view *)
  keeps_step. apply keeps_own. eapply keeps_mono; [by eapply read_root_view_keeps|]. cbn. intros v s2 (M2 & C2 & V2).
  assert (G2 : given_up s2 = false) by (by rewrite (calm_given _ _ C2)).
  assert (Hown : own_ = true -> place s2 <> HoldsChild).
  { intros Ho Hp. apply (proj2 (matches_held _ _ M2)) in Hp. unfold own_ in Ho. by destruct p as [[c'|] t i|t f k]. }
  set (idle := signals_new (Running (Some (id (base c))))).
  (* the signals *)
  set (front_of := fun g : Gate => match g with CgroupOnly => front (base c) | _ => None end).
  assert (Hidle : under_way own_ v a idle (Some p) s2) by (split; [done|by intros [? ?]|done..|by apply signals_so_idle]).
  assert (Hsig : keeps s2 match g with None | Some (Closed _) => ret (idle, Some p) | Some g => signal_on_drop (id (base c)) v (front_of g) (Some p) a end
    (fun r s' => under_way own_ v a r.1 r.2 s' /\ (g = None -> settle r.1 = SettleNothing))).
  { assert (Hgo : forall g', g = Some g' -> keeps s2 (signal_on_drop (id (base c)) v (front_of g') (Some p) a)
      (fun r s' => under_way own_ v a r.1 r.2 s' /\ (g = None -> settle r.1 = SettleNothing))).
    { intros g' ->. keeps_use signal_on_drop_keeps; [done|done| |done..|]; [|by intros]. unfold front_of. intros Hf.
      apply Hcg. by destruct g' as [| | |]; [destruct Hf..|destruct Hf]. }
    destruct g as [[]|]; try (by keeps_step); by apply Hgo. }
  keeps_step. eapply keeps_mono; [apply keeps_grows, Hsig|]. intros [d p1] s3 [[W3 Hn3] [R3 _]]. cbn in *.
  keeps_step. eapply keeps_mono; [by apply keeps_grows; eapply look_again_keeps|]. intros [d' p'] s4 [[R4 Hs4] [Rr4 _]]. cbn in *. keeps_step.
  split_and!; [done| |by cbn; intros Hk; rewrite Hs4; apply Hn3, Hdis].
  split; cbn; [done| |done]. intros Ho Hf. by apply Rr4, R3, (Hnone Hf Ho).
Qed.

(** A teardown after its signals: ready to be released, with what was found before them. *)
Definition going (c : AsyncChild) (x : Signalled) (s : St) : Prop :=
  ready (attached (base c)) (signals x) (sig_proc x) s /\ found_before c x s.

Lemma found_grows c x s s' : grows s s' -> found_before c x s -> found_before c x s'.
Proof. intros [Hr _] [Ha Hf Hu]. split; auto. Qed.

Lemma found_with c x p d s s' : grows s s' -> found_before c x s -> found_before c (with_signals x p d) s'.
Proof. intros [Hr _] [Ha Hf Hu]. split; auto. Qed.

(** After a wait for the child. *)
Lemma after_wait_keeps c x w b p s :
  matches p s -> given_up s = false -> (place s = HoldsChild -> number s = true) -> signals_so (attached (base c)) (signals x) s ->
  found_before c x s -> (w = ForExited -> place s <> ForgottenChild /\ (place s = HoldsChild -> ours s = Shown true)) ->
  (w <> ForExited -> place s = HoldsChild -> is_shown (ours s) = false) -> (shows_gone w = true -> ended s = true) ->
  keeps s (after_wait c x w b p) (fun x' s' => going c x' s' /\ tree_failed (signals x') = tree_failed (signals x)
    /\ settle (signals x') = settle (signals x)).
Proof.
  intros Hm Hg Hn Hso Hfb He Hne Hgo. unfold after_wait.
  assert (Hrest : w <> ForExited -> keeps s
    (do2! f, p0 := forget_for_wait w b p in ret (with_signals x (Some p0) (set_forgot (fate (signals x)) f (signals x))))
    (fun x' s' => going c x' s' /\ tree_failed (signals x') = tree_failed (signals x) /\ settle (signals x') = settle (signals x))).
  { intros Hw. keeps_step. eapply keeps_mono; [apply keeps_grows, forget_for_wait_keeps; [done|auto|done]|].
    intros [f p'] s' [(M & Mt & Hp & _) Gr]. keeps_step. split_and!; [|done|done]. split; [|by eapply found_with].
    split; cbn; [done|by rewrite (moves_given _ _ M)|by rewrite (Hp Hw)|]. destruct (signals_so_moves _ _ _ _ M Hso) as [H1' H2' H3' H4']. by split. }
  destruct w; try (by apply Hrest). destruct (He eq_refl) as [Hp Ho]. keeps_step.
  eapply keeps_mono; [apply keeps_grows, collect_exit_keeps; [done|done|done]|].
  intros [f p'] s' [(M & Mt & Hr & _ & Hask & Hk) Gr]. keeps_step. split_and!; [|done|done]. split; [|by eapply found_with].
  cbn in *. split; cbn; [done|by rewrite (moves_given _ _ M)| |].
  - intros Hp'. rewrite (Hask Hp'), (moves_number _ _ M). by apply Hn, (moves_held _ _ M).
  - destruct (signals_so_moves _ _ _ _ M Hso) as [H1' H2' H3' H4']. by split.
Qed.

Lemma held_number a d p s : ready a d p s -> place s = HoldsChild -> number s = true.
Proof. intros Hr Hp. pose proof (ready_held _ _ _ _ Hr Hp) as Hb. by destruct (number s), (not_denied (ours s)). Qed.

Notation same_signals x x' := (tree_failed (signals x') = tree_failed (signals x) /\ settle (signals x') = settle (signals x)).

Lemma going_same c x s : going c x s -> going c x s /\ same_signals x x.
Proof. done. Qed.

(** [going], but what the last look said of a child that is waited for next. *)
Definition waiting (c : AsyncChild) (x : Signalled) (s : St) : Prop :=
  match sig_proc x with Some p => matches p s | None => False end /\ given_up s = false /\ (place s = HoldsChild -> number s = true)
  /\ signals_so (attached (base c)) (signals x) s /\ found_before c x s.

Lemma going_waiting c x s : going c x s -> waiting c x s.
Proof. intros [R F]. split_and!; [apply R|apply R|by intros; eapply held_number|apply R|done]. Qed.

(** The waits for a root the signals reached. *)
Lemma reap_killed_root_keeps c late x s : waiting c x s -> settle (signals x) <> SettleNothing ->
  keeps s (reap_killed_root c late x) (fun x' s' => going c x' s' /\ same_signals x x').
Proof.
  intros (Hm & Hg & Hn & Hso & F) Hs. unfold reap_killed_root. destruct (sig_proc x) as [p|] eqn:Ep; [|done].
  destruct (src_is_reaped p) eqn:Er.
  { keeps_step. split; [|done]. split; [|done]. split; [first [done|by rewrite Ep]|done| |done]. intros Hp.
    apply (proj2 (matches_held _ _ Hm)) in Hp. by destruct p as [[c'|] t i|t f k]. }
  assert (Hh : place s = HoldsChild) by (destruct p as [[c'|] t i|t f k]; done).
  keeps_step. eapply keeps_mono; [apply keeps_grows, waited_warning_keeps; [done|intros _; left; by apply (so_ended _ _ _ Hso)]|].
  intros [w b] s1 [[M Mt Hp Hheld Hnot Hgone] Gr]. cbn in *. specialize (Hheld Hh).
  keeps_use after_wait_keeps; [done|by rewrite (moves_given _ _ M)| |by eapply signals_so_moves|by eapply found_grows| | |done|done].
  - intros _. rewrite (moves_number _ _ M). auto.
  - intros ->. cbn in Hheld. rewrite Hp. split; [congruence|done].
  - intros Hw _. by rewrite bool_decide_false in Hheld.
Qed.

(** The awaited wait: where it ends without an answer, the blocking one follows. *)
Lemma reap_killed_root_awaiting_keeps c n x s : waiting c x s ->
  keeps s (reap_killed_root_awaiting c n x) (fun r s' => same_signals x r.2
    /\ match r.1 with Some (Ok _) => going c r.2 s' | _ => waiting c r.2 s' end).
Proof.
  intros (Hm & Hg & Hn & Hso & F). unfold reap_killed_root_awaiting. destruct (sig_proc x) as [p|] eqn:Ep; [|done].
  destruct (src_is_reaped p) eqn:Er.
  { keeps_step. split; [done|]. cbn. split; [|done]. split; [first [done|by rewrite Ep]|done| |done]. intros Hp.
    apply (proj2 (matches_held _ _ Hm)) in Hp. by destruct p as [[c'|] t i|t f k]. }
  keeps_step. eapply keeps_mono; [by apply keeps_grows, wait_and_reap_awaiting_keeps|].
  intros [r p'] s1 [(M & Mt & Hr) Gr]. cbn in *.
  assert (Hn1 : place s1 = HoldsChild -> number s1 = true) by (intros Hp; rewrite (moves_number _ _ M); by apply Hn, (moves_held _ _ M)).
  assert (Hg1 : given_up s1 = false) by (by rewrite (moves_given _ _ M)).
  assert (Hso1 : signals_so (attached (base c)) (signals x) s1) by (by eapply signals_so_moves).
  assert (Hw : waiting c (with_signals x (Some p') (signals x)) s1) by (split_and!; [done..|by eapply found_with]).
  destruct r as [[w|e]|]; [|by keeps_step..].
  keeps_step. keeps_use after_wait_keeps; [done..|by eapply found_grows| | | |].
  - intros ->. destruct Hr as [_ Hp]. by rewrite Hp.
  - intros Hne Hp. destruct w; try done; by apply Hr.
  - intros Hsg. destruct w; try done; by apply Hr.
  - intros x' s2 (G & Ht & Hse). by keeps_step.
Qed.

(** ** The releases *)

(** The backend is gone, and what else the release keeps. *)
Lemma release_backend_keeps a d p s : ready a d p s ->
  keeps s (release_backend p) (fun _ s' => is_away (place s') = true /\ given_up s' = false /\ signals_so a d s').
Proof.
  intros [Hm Hg Hh Hs]. destruct p as [p|]; [|done]. cbn. keeps_use release_source_keeps; [done|done|].
  intros _ s' (M & Ha & _). split_and!; [done|by rewrite (moves_given _ _ M)|by eapply signals_so_moves].
Qed.

Definition released (a : Attached) (s : St) : Prop := is_away (place s) = true /\ (a <> AttachedNone -> given_up s = true).

Lemma release_tree_keeps a s : is_away (place s) = true -> given_up s = false -> keeps s (release_tree a) (fun _ s' => released a s').
Proof.
  intros Ha Hg. unfold release_tree. destruct a; [by keeps_step| | | | | |]; (eapply keeps_note; [cbn; by rewrite Ha, Hg|]; by split).
Qed.

Lemma drop_after_drain_keeps a s : is_away (place s) = true -> given_up s = false -> ended s = true ->
  (is_cgroup a = true -> leaf_killed s = true) -> keeps s (drop_after_drain a) (fun _ s' => released a s').
Proof.
  intros Ha Hg He Hl. unfold drop_after_drain.
  destruct a; [by keeps_step| | | | | |]; (eapply keeps_note; [cbn; rewrite Ha, Hg, He; cbn; rewrite ?(Hl eq_refl), ?orb_true_r; reflexivity|]; by split).
Qed.

Lemma rekill_keeps a d p s : (is_cgroup a = true -> platform = Linux) -> ready a d p s -> settle d <> SettleNothing ->
  keeps s (release_backend_and_rekill p a (tree_failed d)) (fun bounded s' =>
    if bounded : bool then is_away (place s') = true /\ given_up s' = false /\ ended s' = true /\ (is_cgroup a = true -> leaf_killed s' = true)
    else released a s').
Proof.
  intros Hw R Hs. unfold release_backend_and_rekill. keeps_step. keeps_use release_backend_keeps; [done|]. intros _ s1 (Ha & Hg & So).
  destruct (is_leaf a && tree_failed d) eqn:E.
  - assert (Hc : a = Cgroup) by (unfold is_leaf in E; by destruct a). subst a. keeps_step. apply keeps_own.
    unfold hard_kill, hard_kill_report, send_tree. repeat keeps_step. cbn. rewrite Hg. eexists. split; [reflexivity|].
    keeps_step. keeps_step. destruct a as [x|x]; cbn.
    + keeps_step. cbn. split_and!; [done|done|by apply (so_ended _ _ _ So)|done].
    + keeps_step. eapply keeps_mono; [by apply (release_tree_keeps Cgroup)|]. cbn. intros _ s3 Hr. by keeps_step.
  - keeps_step. split_and!; [done|done|by apply (so_ended _ _ _ So)|]. intros Hc. apply (so_leaf _ _ _ So); [done|done|].
    unfold is_leaf in E. rewrite Hc, (Hw Hc) in E. cbn in E. exact E.
Qed.

Lemma release_after_drain_keeps a d p s : (is_cgroup a = true -> platform = Linux) -> ready a d p s -> settle d <> SettleNothing ->
  keeps s (release_after_drain p a (tree_failed d)) (fun _ s' => released a s').
Proof.
  intros Hw R Hs. unfold release_after_drain. keeps_step. keeps_use rekill_keeps; [done..|]. intros [] s1 Hb; [|by keeps_step].
  destruct Hb as (Ha & Hg & He & Hl). by apply drop_after_drain_keeps.
Qed.

Lemma release_after_drain_awaiting_keeps a d p s : (is_cgroup a = true -> platform = Linux) -> ready a d p s -> settle d <> SettleNothing ->
  keeps s (release_after_drain_awaiting p a (tree_failed d)) (fun _ s' => released a s').
Proof.
  intros Hw R Hs. unfold release_after_drain_awaiting. keeps_step. keeps_use rekill_keeps; [done..|]. intros [] s1 Hb; [|by keeps_step].
  destruct Hb as (Ha & Hg & He & Hl). keeps_step. destruct (is_leaf a) eqn:E.
  - keeps_step. keeps_step. unfold step. rewrite Ha, He, Hl by (unfold is_leaf in E; by destruct a). eexists. split; [reflexivity|]. keeps_step.
    by apply drop_after_drain_keeps.
  - keeps_step. by apply drop_after_drain_keeps.
Qed.

Lemma release_without_waiting_keeps a d p s : ready a d p s -> keeps s (release_without_waiting p a) (fun _ s' => released a s').
Proof.
  intros R. unfold release_without_waiting. keeps_step. keeps_use release_backend_keeps; [done|]. intros _ s1 (Ha & Hg & _).
  by apply release_tree_keeps.
Qed.

(** ** Whole teardowns *)

(** A report claims what the state has. *)
Lemma reported_truthful c x s : going c x s ->
  (reported_fate x = Reaped_ -> reaped s = true) /\ (reported_fate x = Killed -> ended s = true).
Proof.
  intros [R [_ Hre Hu]]. pose proof (ready_signals _ _ _ _ R) as So. pose proof (so_reaped _ _ _ So). pose proof (so_killed _ _ _ So).
  unfold reported_fate. destruct (own_reap x); [|by split]. destruct (forgotten_before x) as [f|]; [|by split; auto].
  destruct Hu as [? ?], f, (fate (signals x)); by split; auto.
Qed.

Lemma report_keeps c x s : keeps s (report c x) (fun f s' => s' = s /\ f = reported_fate x).
Proof.
  unfold report. keeps_step. apply keeps_own. unfold emit. destruct (forallb _ _); keeps_step; by keeps_step.
Qed.

(** A teardown ends with the backend dropped or forgotten, the mechanism released, and a fate that claims
    what the state has. *)
Definition ends (a : Attached) (f : ChildFate) (s : St) : Prop := settled f s /\ (a <> AttachedNone -> given_up s = true).

(** The end of a teardown: its report, then a release. *)
Lemma report_release_keeps {A} c x s (rel : T unit) (k : ChildFate -> A) : going c x s ->
  keeps s rel (fun _ s' => released (attached (base c)) s') ->
  keeps s (do! f := report c x in do! _ := rel in ret (k f)) (fun r s' => r = k (reported_fate x) /\ ends (attached (base c)) (reported_fate x) s').
Proof.
  intros G Hr. keeps_step. keeps_use report_keeps. intros f s1 [-> ->]. keeps_step.
  eapply keeps_mono; [by apply keeps_grows, Hr|]. intros _ s2 [[Ha Hg] [Gr Ge]]. keeps_step. destruct (reported_truthful _ _ _ G).
  split; [done|]. split; [|done]. split_and!; auto.
Qed.

Lemma finish_without_waiting_keeps c x s : going c x s ->
  keeps s (finish_without_waiting c x) (fun f s' => ends (attached (base c)) f s').
Proof.
  intros G. unfold finish_without_waiting. eapply keeps_mono; [apply (report_release_keeps c x s _ (fun f => f)); [done|]|by intros f s' [-> ?]].
  destruct G as [R [Ea _ _]]. rewrite Ea. by eapply release_without_waiting_keeps.
Qed.

Lemma settle_teardown_keeps c late x s : (is_cgroup (attached (base c)) = true -> platform = Linux) -> settle (signals x) <> SettleNothing ->
  (settle (signals x) = SettleReapAndDrain -> waiting c x s) -> (settle (signals x) <> SettleReapAndDrain -> going c x s) ->
  keeps s (settle_teardown c late x) (fun f s' => ends (attached (base c)) f s').
Proof.
  intros Hw Hs Hwait Hgo. unfold settle_teardown. keeps_step.
  assert (Hx : keeps s (if bool_decide (settle (signals x) = SettleReapAndDrain) then reap_killed_root c late x else ret x)
    (fun x' s' => going c x' s' /\ same_signals x x')).
  { destruct (bool_decide_reflect (settle (signals x) = SettleReapAndDrain)); [by apply reap_killed_root_keeps; auto|keeps_step; auto]. }
  keeps_use Hx. intros x' s1 [G (Et & Es)].
  eapply keeps_mono; [apply (report_release_keeps c x' s1 _ (fun f => f)); [done|]|by intros f s' [-> ?]].
  destruct G as [R [Ea _ _]]. rewrite Ea. eapply release_after_drain_keeps; [done|done|by rewrite Es].
Qed.

(** What a teardown waits for. *)
Lemma waits_settle c x : waits c x = true -> settle (signals x) <> SettleNothing.
Proof. unfold waits. rewrite andb_true_iff, negb_true_iff, bool_decide_eq_false. by intros [_ ?]. Qed.

Lemma tear_down_keeps c late s : id (base c) = me -> well_formed c -> inv c s ->
  keeps s (async_tear_down c late) (fun r s' => r.2 = taken c (kill_on_drop (base c)) /\ ends (attached (base c)) r.1 s').
Proof.
  intros Hid Hw Hi. unfold async_tear_down. keeps_step. keeps_use signal_for_teardown_keeps; [done..|]. intros x s1 (R & F & _).
  keeps_step. assert (G : going c x s1) by done. destruct (waits c x) eqn:E.
  - keeps_use settle_teardown_keeps; [apply Hw|by apply (waits_settle c)|by intros; apply going_waiting|done|]. intros f s2 He. by keeps_step.
  - keeps_use finish_without_waiting_keeps; [done|]. intros f s2 He. by keeps_step.
Qed.

(** The awaited teardown answers no fate where its future was dropped; the backend and the mechanism end all
    the same. *)
Definition ends_or_dropped (a : Attached) (f : option ChildFate) (s : St) : Prop :=
  is_away (place s) = true /\ (a <> AttachedNone -> given_up s = true) /\ match f with Some f => ends a f s | None => True end.

Lemma ends_some a f s : ends a f s -> ends_or_dropped a (Some f) s.
Proof. intros He. split_and!; [apply He|apply He|done]. Qed.

Lemma tear_down_awaiting_keeps c n late s : id (base c) = me -> well_formed c -> inv c s ->
  keeps s (tear_down_awaiting c n late) (fun r s' => r.2 = taken c false /\ ends_or_dropped (attached (base c)) r.1 s').
Proof.
  intros Hid Hw Hi. unfold tear_down_awaiting. keeps_step. keeps_use signal_for_teardown_keeps; [done..|]. intros x s1 (R & F & _).
  assert (G : going c x s1) by done. destruct (waits c x) eqn:E.
  2: { keeps_step. keeps_use finish_without_waiting_keeps; [done|]. intros f s2 He. keeps_step. split; [done|by apply ends_some]. }
  pose proof (waits_settle _ _ E) as Hs. keeps_step.
  assert (Hx : keeps s1 (if bool_decide (settle (signals x) = SettleReapAndDrain) then reap_killed_root_awaiting c n x else ret (Some (Ok tt), x))
    (fun r s' => same_signals x r.2 /\ match r.1 with Some (Ok _) => going c r.2 s'
      | _ => settle (signals x) = SettleReapAndDrain /\ waiting c r.2 s' end)).
  { destruct (bool_decide_reflect (settle (signals x) = SettleReapAndDrain)); [|by keeps_step].
    keeps_use reap_killed_root_awaiting_keeps; [by apply going_waiting|]. intros [[[|]|] x'] s2 [? ?]; by split. }
  keeps_use Hx. intros [reaped x'] s2 [(Et & Es) H2]. cbn [fst snd] in *.
  assert (Hset : settle (signals x) = SettleReapAndDrain /\ waiting c x' s2 -> keeps s2 (settle_teardown c late x') (fun f s' => ends (attached (base c)) f s')).
  { intros [Hr Hwt]. apply settle_teardown_keeps; [apply Hw|by rewrite Es|done|by rewrite Es]. }
  destruct reaped as [[u|e]|].
  - eapply keeps_mono; [apply (report_release_keeps c x' s2 _ (fun f => (Some f, taken c false))); [done|]|].
    + destruct H2 as [R2 [Ea _ _]]. rewrite Ea. eapply release_after_drain_awaiting_keeps; [apply Hw|done|by rewrite Es].
    + intros r s3 [-> He]. split; [done|by apply ends_some].
  - keeps_step. eapply keeps_mono; [by apply Hset|]. cbn. intros f s3 He. keeps_step. split; [done|by apply ends_some].
  - keeps_step. eapply keeps_mono; [by apply Hset|]. cbn. intros f s3 He. keeps_step. split; [done|]. split_and!; [apply He|apply He|done].
Qed.

Lemma read_root_view_taken c s : proc c = None -> okeeps s (read_root_view c) (fun _ s' => calm s s').
Proof.
  intros Hp. unfold read_root_view, root_identity_now. rewrite Hp. cbn [root_state_of]. keeps_step. keeps_step. eexists. split; [reflexivity|].
  keeps_step. keeps_step. keeps_step. apply keeps_look. intros k. keeps_step. split; cbn; try done. by intros ->.
Qed.

(** A second teardown, of a child whose resources are taken, touches neither. *)
Lemma taken_again_keeps c late s :
  keeps s (async_tear_down (taken c false) late) (fun _ s' => calm s s').
Proof.
  unfold async_tear_down, signal_for_teardown, look_again, waits, finish_without_waiting, release_without_waiting. cbn. repeat keeps_step.
  apply keeps_own. keeps_use read_root_view_taken; [done|]. intros v s1 C1. do 3 (keeps_step; cbn).
  repeat keeps_step. keeps_use report_keeps. intros f s2 [-> _]. cbn. by repeat keeps_step.
Qed.

(** ** A life *)

Lemma run_ops_keeps c os s : is_Some (proc c) -> inv c s -> keeps s (run_ops c os) (fun c' s' => lives_on c c' s').
Proof.
  revert c s. induction os as [|o os IH]; intros c s Hp Hi; cbn; [keeps_step; by split_and!|].
  keeps_step. keeps_use run_op_keeps; [done..|]. intros c1 s1 (Ea & Ei & Hp1 & Hi1).
  eapply keeps_mono; [by apply IH|]. cbn. intros c2 s2 (Ea2 & Ei2 & Hp2 & Hi2). split_and!; [congruence|congruence|done|done].
Qed.

Lemma ends_calm a f s s' : calm s s' -> ends_or_dropped a f s -> ends_or_dropped a f s'.
Proof.
  intros [Cp Ce Cr Cg] (Ha & Hg & Hf). unfold ends_or_dropped, ends, settled. rewrite Cp, Cr, Cg. split_and!; [done..|].
  destruct f as [f|]; [|done]. destruct Hf as [(_ & Hr & Hk) Hg']. split_and!; auto.
Qed.

Lemma end_async_keeps c e s : id (base c) = me -> well_formed c -> inv c s ->
  keeps s (end_async c e) (fun f s' => ends_or_dropped (attached (base c)) f s').
Proof.
  intros Hid Hw Hi. destruct e as [late|late|n late]; cbn; keeps_step.
  - keeps_use tear_down_keeps; [done..|]. intros [f c'] s1 [_ He]. keeps_step. by apply ends_some.
  - unfold async_tear_down_now. keeps_step. keeps_use tear_down_keeps; [done..|]. intros [f c'] s1 [Ec He]. cbn in *. subst c'. keeps_step. keeps_step.
    eapply keeps_mono; [apply taken_again_keeps|]. cbn. intros _ s2 C2. keeps_step. eapply ends_calm; [done|by apply ends_some].
  - keeps_use tear_down_awaiting_keeps; [done..|]. intros [f c'] s1 [Ec He]. cbn in *. subst c'. keeps_step.
    eapply keeps_mono; [apply taken_again_keeps|]. cbn. intros _ s2 C2. keeps_step. by eapply ends_calm.
Qed.

(** A child that was spawned: tokio holds it, its number is its own, and its mechanism is held. *)
Definition born : St := st HoldsChild NotShown true false false false false.


End Policy.

(** A child on Linux that runs, is killed, and whose exit its look then shows. *)
#[local] Instance demo_tokio_sys : ChildCalls.Sys := {
  platform := Linux;
  state_answer _ := Unreaped;
  peek_answer _ := Ok PeekRunning;
  signal_answer _ _ := Ok Delivered;
  wait_answer _ _ := Ok (OsChild.Exited (OsChild.Status 9));
  watch_answer _ := Ok true;
  reaped_answer _ := false;
  number_answer _ := Found (process_id 70 5);
  member_answer _ := Some true;
  tree_answer _ _ _ := Ok true;
  holders_answer _ _ _ := Ok tt;
  group_and_holders_answer _ _ := Ok tt;
  leaf_holds_answer _ := Ok true;
  leaf_names_answer _ := Ok true;
  subtree_answer _ := Ok tt;
  reached_answer _ := Ok true;
  drain_answer _ := Ok AllMembersExited
}.

Definition is_blocked (e : Ev) : bool := match e with BlockWait _ => true | _ => false end.

#[local] Instance demo_tokio_answers : TokioSys := {
  try_wait_answer h := Ok (if existsb is_blocked h then Some 9 else None);
  arm_answer _ := Ok tt;
  wake_answer _ := Ok tt;
  note_reap_answer _ := Ok false;
  traced_answer _ := (Ok PeekRunning, false);
  held_by_answer _ := KeepWaiting;
  block_answer _ := Ok (PeekExit (OsChild.Status 9));
  reapable_answer _ := Ok LateTeardown.Reapable;
  sees_exit_answer _ := true;
  hand_over_answer _ := Killed;
  leave_front_answer _ := (FrontReaped, Reaped_);
  reap_pidfd_answer _ := Ok (Ok (OsChild.Status 9));
  drain_await_answer _ := Some (Ok tt);
  term_answer _ := Ok tt;
  dropped_answer _ := false
}.

Definition demo_async : AsyncChild :=
  async (child_ (process_id 70 5) (ProcessGroup 70) None false ProcessGroup_ true []) (Some (Tokio None (streams false false false) None)).

Definition demo_life : list Ev :=
  [Own (LookState false Unreaped); TryWait (Ok None);
   Own (ReadNumber (Found (process_id 70 5))); Own (LookState false Unreaped);
   Own (SendTree (ProcessGroup 70) TKill (Ok true)); Own (SignalRoot false SigKill (Ok Delivered));
   Own (LookState false Unreaped); BlockWait (Ok (PeekExit (OsChild.Status 9))); TryWait (Ok (Some 9));
   DropTokio; DropAfterDrain (ProcessGroup 70)].


(** The protocol refuses a collection without a look, or after a look that showed the child reaped; tokio's
    drop of a child whose look denies it, or whose number names another process; a blocking wait for a child
    no kill reached; and the mechanism's release before the backend's. *)
Example refused_by_the_backend :
  let look a := Own (LookState false a) in
  let named n := Own (ReadNumber (Found n)) in
  accepts (step (process_id 70 5)) born [TryWait (Ok (Some 0))] = None
  /\ accepts (step (process_id 70 5)) born [look Unreaped; look (RootReaped false); TryWait (Ok (Some 0))] = None
  /\ accepts (step (process_id 70 5)) born [look (RootReaped false); DropTokio] = None
  /\ accepts (step (process_id 70 5)) born [look Unreaped; named (process_id 70 6); DropTokio] = None
  /\ accepts (step (process_id 70 5)) born [look Unreaped; BlockWait (Ok PeekRunning)] = None
  /\ accepts (step (process_id 70 5)) born [look Unreaped; ReleaseTree (ProcessGroup 70)] = None.
Proof. by vm_compute. Qed.

(** Where tokio finds the child reaped by another between a blocking wait and its collection, the teardown
    still hands it to tokio's drop, which asks for the number once more. ([reap_after_look] ends such a wait as
    [ReapedBetween], and the awaited teardown forgets the child.) *)
#[local] Instance demo_stolen : TokioSys := {
  try_wait_answer _ := Err (from_raw_os_error ECHILD);
  arm_answer _ := Ok tt;
  wake_answer _ := Ok tt;
  note_reap_answer _ := Ok false;
  traced_answer _ := (Ok PeekRunning, false);
  held_by_answer _ := KeepWaiting;
  block_answer _ := Ok (PeekExit (OsChild.Status 9));
  reapable_answer _ := Ok LateTeardown.Reapable;
  sees_exit_answer _ := true;
  hand_over_answer _ := Killed;
  leave_front_answer _ := (FrontReaped, Reaped_);
  reap_pidfd_answer _ := Ok (Ok (OsChild.Status 9));
  drain_await_answer _ := Some (Ok tt);
  term_answer _ := Ok tt;
  dropped_answer _ := false
}.

Example stolen_exit_released : exists h,
  runs (@async_tear_down _ demo_stolen demo_async false) [] (FateGone, taken demo_async true)
    (h ++ [BlockWait (Ok (PeekExit (OsChild.Status 9))); TryWait (Err (from_raw_os_error ECHILD)); DropTokio;
           DropAfterDrain (ProcessGroup 70)]).
Proof. eexists [_; _; _; _; _]. reflexivity. Qed.
