(* ===== verification/ProgramPath.v ===== *)
(** The program the shim executes, [src/elevation/shim/program_path.rs]: a search of [PATH] as glibc's
    [execvp] makes it, before the child exists. What a check of a file answers is an argument, recorded with
    the candidate it is about; the numbers of [ESTALE] and [ETIMEDOUT], which differ per system, are
    parameters. *)
From S2P Require Import Prelude IoErrors History.
Local Open Scope Z_scope.

Inductive Candidate := Missing | Directory | NotExecutable | Executable | FailedWith (errno : Z).

(** A candidate that was asked about. *)
Record Probed := probed { candidate : bytes; found : Candidate }.

Definition slash (b : Z) : bool := b =? 47.
Definition colon (b : Z) : bool := b =? 58.

Definition absolute (path : bytes) : bool := match path with b :: _ => slash b | [] => false end.

Definition candidate_in (name element : bytes) : bytes := element ++ 47 :: name.

Section ProgramPath.
  Variable probe : list Probed -> bytes -> Candidate.

(** The loop of [resolve_with], from a state of [candidates], [remembered] and [decided]. *)
Fixpoint search (name : bytes) (elements candidates : list bytes) (remembered : bool) (decided : option (result Z unit)) :
    Hist Probed (list bytes * bool * option (result Z unit)) :=
  match elements with
  | [] => ret (candidates, remembered, decided)
  | element :: elements =>
      if absolute element then
        let c := candidate_in name element in
        match decided with
        | Some _ => search name elements (candidates ++ [c]) remembered decided
        | None =>
            do! a := call (fun h => probe h c) (probed c) in
            let '(remembered, decided) :=
              match a with
              | Executable => (remembered, Some (Ok tt))
              | FailedWith errno => (remembered, Some (Err errno))
              | Directory | NotExecutable => (true, None)
              | Missing => (remembered, None)
              end in
            search name elements (candidates ++ [c]) remembered decided
        end
      else search name elements candidates remembered decided
  end.

(** [resolve_with]; [default_] is [default_path]. *)
Definition resolve_with (default_ : bytes) (program : bytes) (path : option bytes) : Hist Probed (result Z (list bytes)) :=
  if existsb slash program then ret (Ok [program])
  else if bool_decide (program = []) then ret (Err ENOENT)
  else
    do! r := search program (split_on colon (default default_ path)) [] false None in
    let '(candidates, remembered, decided) := r in
    ret match decided with
        | Some (Ok _) => Ok candidates
        | Some (Err errno) => Err errno
        | None => Err (if remembered : bool then EACCES else ENOENT)
        end.

(** ** The search's answer *)

Definition skips (a : Candidate) : bool := match a with Missing | Directory | NotExecutable => true | _ => false end.
Definition remembers (a : Candidate) : bool := match a with Directory | NotExecutable => true | _ => false end.

(** Every candidate the search may try, in order. *)
Definition candidates_of (name path : bytes) : list bytes := candidate_in name <$> filter (fun e => absolute e = true) (split_on colon path).

(** What the checks [t] decide, of the candidates [cs]: the first that is not skipped, and else what was
    skipped. *)
Definition decides (cs : list bytes) (r : result Z unit) (t : list Probed) : Prop :=
  match r with
  | Ok _ => exists t0 c, t = t0 ++ [probed c Executable] /\ candidate <$> t `prefix_of` cs /\ Forall (fun p => skips (found p) = true) t0
  | Err e =>
      (exists t0 c, t = t0 ++ [probed c (FailedWith e)] /\ candidate <$> t `prefix_of` cs /\ Forall (fun p => skips (found p) = true) t0)
      \/ (candidate <$> t = cs /\ Forall (fun p => skips (found p) = true) t /\ e = if existsb (fun p => remembers (found p)) t then EACCES else ENOENT)
  end.

Definition answer_of (decided : option (result Z unit)) (remembered : bool) : result Z unit :=
  match decided with Some r => r | None => Err (if remembered : bool then EACCES else ENOENT) end.

Lemma search_decided name elements cs remembered r h :
  wp (search name elements cs remembered (Some r)) h (fun x t =>
    x = (cs ++ (candidate_in name <$> filter (fun e => absolute e = true) elements), remembered, Some r) /\ t = []).
Proof.
  revert cs. induction elements as [|e es IH]; intros cs; cbn [search]; [apply wp_ret; cbn; by rewrite app_nil_r|].
  rewrite filter_cons. destruct (absolute e) eqn:E.
  - rewrite decide_True by done. eapply wp_mono; [apply IH|]. intros x t [-> ->]. by rewrite <- app_assoc.
  - rewrite decide_False by done. apply IH.
Qed.

(** The loop, from a state in which the checks [t0] skipped what they asked about. *)
Lemma search_decides_from name elements cs h t0 :
  candidate <$> t0 = cs -> Forall (fun p => skips (found p) = true) t0 ->
  wp (search name elements cs (existsb (fun p => remembers (found p)) t0) None) h (fun x t =>
    x.1.1 = cs ++ (candidate_in name <$> filter (fun e => absolute e = true) elements) /\ decides x.1.1 (answer_of x.2 x.1.2) (t0 ++ t)).
Proof.
  revert cs h t0. induction elements as [|e es IH]; intros cs h t0 Hc Hs; cbn [search].
  { apply wp_ret. cbn. rewrite !app_nil_r. split; [done|]. right. by split_and!. }
  rewrite filter_cons. destruct (absolute e) eqn:E; [rewrite decide_True by done|rewrite decide_False by done; by apply IH].
  apply wp_bind, wp_call. set (c := candidate_in name e). set (a := probe h c).
  assert (Hstop : forall r, (r = Ok tt /\ a = Executable \/ exists x, r = Err x /\ a = FailedWith x) ->
    wp (search name es (cs ++ [c]) (existsb (fun p => remembers (found p)) t0) (Some r)) (h ++ [probed c a]) (fun x t =>
      x.1.1 = cs ++ (candidate_in name <$> e :: filter (fun e => absolute e = true) es)
      /\ decides x.1.1 (answer_of x.2 x.1.2) (t0 ++ [probed c a] ++ t))).
  { intros r Hr. eapply wp_mono; [apply search_decided|]. intros x t [-> ->]. cbn. rewrite <- app_assoc. split; [done|].
    assert (Hp : candidate <$> t0 ++ [probed c a] `prefix_of` cs ++ [c] ++ (candidate_in name <$> filter (fun e => absolute e = true) es)).
    { rewrite fmap_app, Hc, app_assoc. by apply prefix_app_r. }
    destruct Hr as [[-> Ha]|(x & -> & Ha)]; cbn; [|left]; exists t0, c; rewrite Ha in *; by split_and!. }
  assert (Hgo : skips a = true -> wp (search name es (cs ++ [c]) (existsb (fun p => remembers (found p)) (t0 ++ [probed c a])) None) (h ++ [probed c a])
    (fun x t => x.1.1 = cs ++ (candidate_in name <$> e :: filter (fun e => absolute e = true) es)
      /\ decides x.1.1 (answer_of x.2 x.1.2) (t0 ++ [probed c a] ++ t))).
  { intros Ha. eapply wp_mono; [apply (IH _ _ (t0 ++ [probed c a]))|].
    - by rewrite fmap_app, Hc.
    - apply Forall_app. by repeat constructor.
    - intros x t [-> Hd]. split; [by rewrite <- app_assoc|]. by rewrite app_assoc. }
  rewrite existsb_app in Hgo. fold c. destruct a; cbn in Hgo |- *; rewrite ?orb_true_r, ?orb_false_r in Hgo.
  - by apply Hgo.
  - by apply Hgo.
  - by apply Hgo.
  - apply Hstop. by left.
  - apply Hstop. right. by eexists.
Qed.

(** A bare name is searched for as [execvp] does: the candidates, all absolute, are asked about in order up to
    the first that is executable or fails; one that is executable gives every candidate, in order, and else the
    answer is the failure, or whether one was there that cannot be executed. *)
Theorem search_is_execvp default_ program path h :
  program <> [] -> existsb slash program = false ->
  wp (resolve_with default_ program path) h (fun r t =>
    let cs := candidates_of program (default default_ path) in
    Forall (fun c => absolute c = true) cs
    /\ decides cs match r with Ok _ => Ok tt | Err e => Err e end t
    /\ match r with Ok l => l = cs | Err _ => True end).
Proof.
  intros Hne Hs. unfold resolve_with. rewrite Hs, bool_decide_false by done. apply wp_bind.
  eapply wp_mono; [by apply (search_decides_from program _ [] h [])|]. intros [[cs remembered] decided] t [Hcs Hd]. cbn in *.
  apply wp_ret. rewrite app_nil_r. split_and!.
  - unfold candidates_of. apply Forall_fmap, Forall_forall. intros e [He _]%list_elem_of_filter. unfold compose, candidate_in. by destruct e.
  - unfold candidates_of. rewrite <- Hcs. unfold answer_of in Hd. destruct decided as [[[]|e]|]; exact Hd.
  - by destruct decided as [[[]|e]|].
Qed.

(** A program with a slash is used as given, and the empty one is missing; neither asks anything. *)
Lemma slash_as_given default_ program path h : existsb slash program = true -> resolve_with default_ program path h = (Ok [program], h).
Proof. intros Hs. unfold resolve_with. by rewrite Hs. Qed.

Lemma empty_missing default_ path h : resolve_with default_ [] path h = (Err ENOENT, h).
Proof. done. Qed.

End ProgramPath.

(** ** The checks *)

Definition ENOTDIR : Z := 20.
Definition ENODEV : Z := 19.

Section Checks.
  Variable ESTALE ETIMEDOUT : Z.

Definition classify (errno : Z) : Candidate :=
  if (errno =? ENOENT) || (errno =? ENOTDIR) || (errno =? ESTALE) || (errno =? ENODEV) || (errno =? ETIMEDOUT) then Missing
  else if errno =? EACCES then NotExecutable
  else FailedWith errno.

(** [probe_fs]: [stat] answers whether it is a directory. *)
Definition probe_fs (stat : result Z bool) (access : result Z unit) : Candidate :=
  match stat with
  | Err e => classify e
  | Ok true => Directory
  | Ok false => match access with Ok _ => Executable | Err e => classify e end
  end.

End Checks.

(** [default_path]: the first answer of [confstr] is the size it needs, with its NUL, and the second fills a
    buffer of that size. *)
Definition default_path (size : nat) (filled : bytes) : bytes :=
  if bool_decide (size = 0%nat) then [] else take (size - 1) filled.

(** Two directories are searched: a file there that is not executable, then one that is; relative elements are
    skipped. *)
Definition demo_probe (h : list Probed) (c : bytes) : Candidate := match h with [] => NotExecutable | _ => Executable end.

Lemma search_is_execvp_witness :
  resolve_with demo_probe [] [97] (Some [47; 98; 58; 46; 58; 47; 99]) []
    = (Ok [[47; 98; 47; 97]; [47; 99; 47; 97]], [probed [47; 98; 47; 97] NotExecutable; probed [47; 99; 47; 97] Executable])
  /\ wp (resolve_with demo_probe [] [97] (Some [47; 98; 58; 46; 58; 47; 99])) [] (fun r t =>
       let cs := candidates_of [97] [47; 98; 58; 46; 58; 47; 99] in
       Forall (fun c => absolute c = true) cs
       /\ decides cs match r with Ok _ => Ok tt | Err e => Err e end t
       /\ match r with Ok l => l = cs | Err _ => True end).
Proof. split; [reflexivity|]. exact (search_is_execvp demo_probe [] [97] (Some [47; 98; 58; 46; 58; 47; 99]) [] ltac:(done) eq_refl). Defined.
